(* ===== verification/_CoqProject ===== *)
-Q . S2P
Prelude.v
Dense.v
EventTypes.v
Json.v
JsonText.v
JsonTextProps.v
JsonNumber.v
JsonWriter.v
JsonParser.v
JsonParserProps.v
JsonGrammar.v
JsonComplete.v
JsonSound.v
JsonSpec.v
JsonTokenizer.v
JsonTokenProps.v
JsonCanonical.v
Events.v
Reachability.v
Forward.v
JsonContent.v
Auth.v
Samples.v
AuthProps.v
Redaction.v
AuthChain.v
Sorting.v
Kahn.v
ReachTopo.v
ReachSegments.v
ReachSearch.v
ReachProps.v
Subgraph.v
AuthDiff.v
AuthDiffProps.v
Mainline.v
LocalAuth.v
Iterative.v
PowerPhase.v
IterProps.v
Deltas.v
Semilattice.v
SemilatticeProps.v
OrdMap.v
OrdMapProps.v
OrdMapBuild.v
OrdMapWalk.v
OrdMapDiff.v
OrdMapShare.v
OrdMapSpec.v
StateDiff.v
Multi.v
MultiProps.v
MultiSpec.v
MultiLazy.v
LtHash.v
StateHash.v
StateAt.v
StatePlan.v
StateTopo.v
StateLoop.v
StateMerge.v
StateSpec.v
StateProps.v
Depths.v
DepthsProps.v
Pagination.v
MergeBase.v
MergeBaseProps.v
AuthChainDiff.v
Digest.v
SparseTree.v
StateMerkle.v
StateProofs.v
RoomCases.v
EventCache.v
