(* ===== verification/Prelude.v ===== *)
(** * Verification of the rezzy Matrix state-resolution engine

    [rezzy] decides, for a Matrix room, which events are authorized and, when
    the event graph has forked, which state the room has.  This library models
    the engine's core, the crate under [src/src] with the JSON crate under
    [src/rezzy-json], and proves what makes it correct.

    ** The program and the files that model it

    - JSON ([rezzy-json/src/lib.rs]).  [Json] holds [Value], [Number] and
      their accessors; [JsonText] the bytes, UTF-8, escapes and number
      literals, with [JsonTextProps] and [JsonNumber] about them; [JsonWriter]
      the compact, filtered and indented writers; [JsonParser] the parser.
      [JsonGrammar] is the grammar of documents as mutually inductive
      relations over lexical tables, those of the standard ([rfc8259]) and
      those the parser reads; [JsonParserProps] proves that the parser returns,
      [JsonComplete] that it accepts the grammar and [JsonSound] that it
      accepts nothing else; [JsonSpec] states the results.  [JsonTokenizer]
      holds the tokenizer and the raw canonical writer (the signing path),
      [JsonTokenProps] what the tokenizer reads on a text of the grammar, and
      [JsonCanonical] what the raw writer returns.
    - Vocabulary.  [EventTypes] holds the wire constants and [EventType]
      ([basespec/event_types.rs]); [Events] holds the room-version and
      state-resolution-version gates, the event record [LeanEvent], the
      interfaces [EventId] and [EventContent] (traits of the source, type
      classes here), the sort priority and Matrix identifiers; [JsonContent]
      holds the implementation of [EventContent] by JSON values and discharges
      the interface's laws [EventContentLaws] (all
      [basespec/rezzy_types.rs]).
    - Redaction.  [Redaction] holds the redaction algorithm on contents, on
      raw events and on parsed events ([basespec/rezzy_types.rs]).
    - Authorization.  [Auth] holds [check_auth_with_context] block by block
      and every rule it calls ([auth/mod.rs], [auth/user.rs]); [AuthProps]
      proves what an accepted event implies; [AuthChain] holds
      [check_auth_chain], the validation of a sorted batch, and its theorems.
    - Sorting.  [Sorting] and [Kahn] hold Kahn's algorithm and its
      refinement of a greedy specification; [Mainline] holds the mainline, its
      parent cache, the mainline positions and the mainline sort
      ([resolve/sorting.rs]).
    - Resolution.  [LocalAuth] holds the local auth context of an event
      ([state/at.rs]); [Iterative] holds the iterative resolver, plain and
      delta-reporting ([resolve/iterative.rs], and [route_power_events] of
      [resolve/semilattice.rs]); [PowerPhase] characterizes the event sets of
      the power phase; [IterProps] holds the resolver's theorems and a room
      ([BanEvasion]) on which its two variants differ.
    - Semilattice fold.  [Semilattice] holds the fold that picks one winner per
      key, with the threads that share it as a step relation, and
      [SemilatticeProps] its theorems ([resolve/semilattice.rs]).
    - Graph indexes.  [Dense] numbers items ([dense_index.rs]).
      [Reachability] holds the topological collection, the range and segment
      index with its traversals and point queries, and [Forward] the bitmap
      index ([resolve/reachability.rs]); [ReachTopo], [ReachSegments] and
      [ReachSearch] prove what each phase computes and [ReachProps] states the
      results.  [Subgraph] is
      the conflicted subgraph ([resolve/subgraph.rs]).
    - Forks.  [AuthDiff] holds the partition of several state maps into
      agreed entries and conflicted ids, and the auth difference of their auth
      chains, and [AuthDiffProps] their theorems; [Multi] holds the resolvers
      of several forks built on them ([resolve/multi.rs]).  [MultiProps] says
      what a resolution reads and runs, [MultiSpec] what the eager resolvers
      return, and [MultiLazy] what the lazy one does.
    - States and their history.  [Deltas] holds state deltas and chains of
      checkpoints ([state/delta.rs]).  [OrdMap] holds the persistent B+tree
      the states live in ([state/persistent_ord_map.rs]): [OrdMapProps] its invariant and its
      insertion and removal, [OrdMapBuild] bulk loading, [OrdMapWalk]
      iterators and ranges, [OrdMapDiff] the walk that
      compares two trees, [OrdMapShare] the sharing of nodes between
      snapshots, [OrdMapSpec] the theorems about the map as a whole.
      [StateDiff] is the diff of two states read off their trees
      ([state/diff.rs]).
    - State at an event ([state/at.rs]).  [StateAt] holds the streaming
      pipelines, plain and optimized, and the merge of the states after the
      previous events.  [StatePlan] and [StateTopo] prove what the ancestor
      walk and its topological plan compute, [StateLoop] what a loop over the
      plan keeps, [StateMerge] what a merge is; [StateSpec] specifies the
      state after an event by rule induction and proves the pipelines against
      it for any sound merge; [StateProps] states the results.
    - The event graph ([state/at.rs]).  [Depths] holds depths, topological
      positions, paging order, claimed depths, gaps and forward extremities,
      [DepthsProps] their theorems; [Pagination] the checker of pages; [MergeBase] the merge-base
      walks and [MergeBaseProps] their theorems; [AuthChainDiff] the
      two-heap auth chain difference.
    - Hashes of states.  [LtHash] is the lattice hash
      ([incremental/lthash]), [StateHash] the accumulators built on it and the
      state that carries its hash ([state/lthash.rs]).  [Digest] holds SHA-256
      as a parameter and the bits of digests, [SparseTree] sparse Merkle trees
      over any values, [StateMerkle] the commitment to a state with its proofs
      ([state/merkle.rs]) and its tree as a sparse tree, [StateProofs] what
      the proofs prove.
    - [EventCache] is the cache of events with its index of access times and
      its theorem ([state/cache.rs]).
    - [RoomCases] holds rooms on which the fork resolvers or the state at an
      event depart from their documentation.
    - [Samples] is a concrete room on which the theorems are exercised; this
      file holds the shared notations, automation and generic lemmas.

    The resolver calls the sorts and the authorization rules; the rules see
    the room only through [StateProvider], so the same rules run against a
    plain state map and against the resolver's overlay of local auth events.

    ** Modelling decisions

    - Fallible code returns [result] with the source's [AuthError]; a loop
      that is not structural is a function with fuel returning an [option],
      and each is proved to return [Some] with the fuel its callers pass.
      Work lists run by [drain]; their fuel is [weight], one unit for each
      node still unvisited and one for each of its edges, which bounds the
      number of queue entries since a node is expanded at most once.
    - [i64], [u32], [u64] and [usize] values are [Z] or [N] with their bounds
      ([is_i64], [USIZE_MAX]) and saturating operations written out.
    - A [HashMap] is a [gmap] whose iteration order is a parameter: the class
      [HashOrder] gives any permutation of a map's entries, and theorems that
      quantify over two orders state that a result does not depend on it.  A
      [BTreeMap] and the persistent state map are [gmap]s read in key order;
      a JSON object, where order is visible, is a sorted association list.
    - A state map keyed by [(EventType, K)] is keyed by the two wire strings,
      since [EventType] compares and hashes through [as_str].
    - [BinaryHeap] is a list whose [heap_pop] removes a greatest element;
      [sort_by] is the stable insertion sort, the specification of Rust's.
    - The cryptographic [EventVerifier] of the caller is a parameter.
    - A [debug_assert!] is checked in builds with debug assertions only: the
      functions that have one (the topological positions, the event cache)
      take the kind of build as an argument, and their theorems cover both.
    - The dense index reports a refused reservation of memory, so its
      operations take the allocator's answers as an argument; elsewhere an
      allocation that fails ends the process and is not modelled, and the
      components that build a dense index do so with [granted] memory.
    - A [u8] is an [ascii], a [str] a [string] of UTF-8 bytes.  The parser and
      the tokenizer are functions of a cursor with fuel twice the input's
      length plus two, one unit per value and one per container element.
      Doubles are a sign, a significand and an exponent; [str::parse] rounds
      a decimal correctly (ties to even).  The printing of doubles is the
      crate [ryu]: a parameter whose documented laws are the class
      [RyuFormat]; [exact_format], which prints the exact value, is an
      instance.  The key filter of the writers is a pure predicate.
    - An [Arc] of the persistent map is an address with the node it points
      to; the allocator is a counter threaded through the operations, and
      whether a strong count is one is a parameter that the theorems
      instantiate with the count over all live maps.  A panic (an index out of
      range, an arithmetic overflow) is [None], and the theorems show it does
      not occur.  Binary search and [partition_point] are given on sorted
      slices by their documented result.
    - A [Vec] whose indexing may panic is a list read with [!!]; [None] is the
      panic.  A loop that may panic runs by [try_fold] or [try_drain].
    - An [EventProvider] is a class whose instances answer from a finite set
      of ids; the lazy resolver's walks take fuel, and its theorems say that
      some amount is enough for every larger one.
    - BLAKE3 and SHA-256 are parameters, the classes [Blake3] (the bytes of the
      extended output) and [Sha256] (a function to 32 bytes).  Theorems about
      proofs assume no collision among the inputs that the commitment and the
      check hash, listed by [committed_inputs] and [checked_inputs]; their
      witnesses evaluate that list for a toy digest.
    - A callback of the streaming pipelines is a function that threads the
      caller's state; a tie-break is a comparison by a key.  A bitmap is a set
      of indices, a [u8] mask an [N].  The walks of [state/at.rs] take fuel in
      events or events times extremities, which their theorems prove enough.
    - The threads of the semilattice fold take turns at the granularity of
      the winner lock; a schedule is any sequence of such steps.

    ** What the theorems show

    - JSON ([JsonSpec], [JsonCanonical]): the parser returns on every input
      and accepts exactly the documents of RFC 8259 in which the form feed
      counts as a blank too, strict parsing only adds the rejection
      of repeated keys, written values parse back, canonical integers are the
      decimal texts of the safe range, and the raw canonical writer agrees
      with parsing, filtering and writing on every document the parser
      accepts.  It also accepts some input that is not JSON
      ([raw_writer_accepts_malformed]).
    - Authorization ([AuthProps]): an accepted event's sender is not banned,
      is joined (unless the event is the sender's own membership) and has the
      required power (unless it is a membership event or the first
      power-levels event); a sender of at least level 0 and the default level
      cannot raise anyone above itself; kicks, bans and joins obey their rules; room
      creators are out of reach from version 12 on; cited auth events are
      sound; and the verdict depends only on the selected auth entries, which
      gives the soft-fail rule for forward extremities.
    - Chains ([AuthChain]): a batch is partitioned into accepted and rejected
      events, and the accepted ones are valid in the state they build.
    - Redaction: idempotent, keeps the fields the auth rules need, and its
      two halves recombine.
    - Sorting ([Kahn], [Mainline]): Kahn's algorithm implements the greedy
      topological sort, for cyclic input too; mainline construction
      terminates with or without its cache, with the same result; the
      mainline sort is the specified order whatever the input order.
    - Resolution ([IterProps]): the resolver terminates, keeps the
      unconflicted state, takes every other entry from an event that passed
      the auth rules, and is independent of hash order; the delta-reporting
      variant agrees with it up to version 2.1 and, in [BanEvasion], not
      beyond.  The local auth context is characterized by first citations or,
      from version 2.1.1 on, by the auth chain.
    - Semilattice ([SemilatticeProps]): the threads never deadlock and finish
      within a bounded number of steps under every interleaving, the result
      depends neither on the number of threads nor on the schedule, and it
      is the iterative resolver's where no conflicted membership is outside the
      power phase.
    - Graph indexes ([Dense], [ReachProps], [Subgraph]): an index numbers the
      distinct items, or says whether they do not fit or memory was refused;
      on every graph,
      cyclic ones included, the adaptive filter returns exactly the reachable
      candidates, the forward closure exactly the descendants, and point
      queries keep their contract; on acyclic graphs all filters agree; the
      conflicted subgraph is the set of events on a citation path between
      conflicted ones.
    - Forks ([AuthDiffProps]): the partition keeps exactly the agreed entries
      whatever the hash order, and the auth difference is the events in some
      but not all auth chains, or the missing event that prevents it.
      Resolving forks ([MultiSpec]) fails exactly when an event it must read
      is missing, keeps what all forks agree on, takes the rest from events
      that passed the auth rules, and depends only on the set of forks; up to
      version 2.1 caches change nothing; in versions 1 and 2 the diff is
      exact.  The lazy resolver ([MultiLazy]) ends, gives the same guarantees
      in the context of the candidates' auth chains, and agrees with the eager
      one when that context is everything.  [RoomCases]: otherwise it can
      differ; so can a cached resolution from version 2.1.1 on; and from 2.1
      on the diff can omit a key.
    - History ([Deltas], [StateDiff]): deltas and checkpoint chains rebuild
      the states they were made from, one by one and in batches, and the
      diff of two trees is the delta of their contents.
    - State at an event ([StateProps]): the plain and the optimized pipeline
      never panic over complete auth chains, report a cycle exactly when a
      target reaches one and otherwise hand out, ancestors first, exactly the
      state the specification assigns to each target, with its hash; the
      entries are known events of the right key; at a fork of versions 1 and
      2 the merge is the fork resolver's result ([RoomCases]: in 2.1 not).
    - Event graph ([DepthsProps], [Pagination], [MergeBaseProps],
      [AuthChainDiff]): depths are longest ways back, orders respect ancestry
      and are deterministic, reports of claimed depths, gaps and pages are
      exact, merge bases are most recent common ancestors, junctions are
      reached by the extremities they name, and the depth-ordered auth chain
      difference is exact when claimed depths grow along the citations.
    - Hashes and proofs ([StateHash], [StateProofs]): the incremental hash is
      the hash of the state; distinct entries are hashed on distinct inputs;
      the verifiers accept exactly the proofs the commitment issues, which
      are about the committed state, and the root determines the state.
    - Event cache ([EventCache]): it answers as the list of events by last use,
      as long as the access counter does not wrap.
    - Persistent map ([OrdMapSpec]): it refines a finite map with at most 17
      levels for any 64-bit count of entries; writing through one snapshot is
      never visible through another; the diff of two snapshots that skips
      shared subtrees lists exactly the differing keys; ranges and bulk
      loading yield what their contents say.

    ** Not modelled

    The accessor [as_f64] is modelled through its truncation to an integer,
    the only use the rules make of it.  Of the JSON crate the token stream
    [next_token], the selective parser [ValueRef] with its field masks, the
    [json!] macro and the conversions into [Value] are left out.  Log and warning output has no effect
    on results and is left out.
    Of the Merkle primitives ([merkle.rs]) only [hash_parts] is modelled;
    the state DAG ([state/dag.rs]), the roaring auth sets, redaction batches, V3
    resolution, the hash-array trie and the reconciliation crate are left
    out; a team would add them in that order.
    Signing, hashing, the command line and the bindings are input/output or
    calls of external libraries. *)
From stdpp Require Import prelude gmap strings sorting pretty.
From Stdlib Require String.
From Stdlib Require Import Ascii.

(** ** Notations and automation shared by every file *)

Declare Scope rezzy_scope.
Delimit Scope rezzy_scope with rezzy.

(** Rust's [a.then_with(|| b)] on [Ordering]. *)
Definition then_with (a b : comparison) : comparison :=
  match a with Eq => b | ord => ord end.

Infix "⊳" := then_with (at level 56, left associativity) : rezzy_scope.
Open Scope rezzy_scope.

Create HintDb rezzy.
Create Rewrite HintDb rezzy.

(** Splits every [match]/[if] scrutinee of the goal or of a hypothesis until
    the branches are closed by congruence. *)
Ltac case_all :=
  repeat (case_match; simplify_eq/=; try done).

Ltac invert H := inversion H; subst; clear H.

(** Rust's [Result] and its [?] operator. *)
Inductive result (A E : Type) : Type :=
| Ok (a : A)
| Err (e : E).
Arguments Ok {A E} a.
Arguments Err {A E} e.

Definition result_bind {A B E} (m : result A E) (k : A → result B E) : result B E :=
  match m with Ok a => k a | Err e => Err e end.

Notation "x ←? m ; k" := (result_bind m (λ x, k))
  (at level 100, m at next level, k at level 200, right associativity) : rezzy_scope.
Notation "m ;?; k" := (result_bind m (λ _, k))
  (at level 100, k at level 200, right associativity) : rezzy_scope.

Definition is_ok {A E} (r : result A E) : bool :=
  match r with Ok _ => true | Err _ => false end.

Lemma result_bind_Ok {A B E} (m : result A E) (k : A → result B E) b :
  result_bind m k = Ok b ↔ ∃ a, m = Ok a ∧ k a = Ok b.
Proof. destruct m; naive_solver. Qed.

(** Takes apart a hypothesis [m1 ;?; m2 ;?; .. = Ok _] into its successful steps. *)
Ltac ok_steps H :=
  repeat match type of H with
  | result_bind _ _ = Ok _ =>
      let a := fresh "r" in let E := fresh "Hok" in
      apply result_bind_Ok in H as (a & E & H)
  end.

(** String equality, [==] on [&str]. *)
Notation "a ==s b" := (String.eqb a b) (at level 70, no associativity) : rezzy_scope.

Definition opt_is (o : option string) (s : string) : bool :=
  match o with Some x => String.eqb x s | None => false end.

Lemma opt_is_true o s : opt_is o s = true ↔ o = Some s.
Proof. destruct o; simpl; [rewrite String.eqb_eq|]; naive_solver. Qed.

(** ** Machine integers *)

Definition I64_MAX : Z := 9223372036854775807.
Definition I64_MIN : Z := -9223372036854775808.
Definition U32_MAX : Z := 4294967295.
Definition U64_MAX : Z := 18446744073709551615.
Definition USIZE_MAX : N := 18446744073709551615.

Definition is_i64 (z : Z) : Prop := (I64_MIN ≤ z ≤ I64_MAX)%Z.

(** [i64::saturating_add]. *)
Definition i64_saturating_add (a b : Z) : Z :=
  Z.max I64_MIN (Z.min I64_MAX (a + b)).

(** [usize::saturating_add] and [usize::saturating_sub]. *)
Definition usize_saturating_add (a b : N) : N := N.min USIZE_MAX (a + b).
Definition usize_saturating_sub (a b : N) : N := a - b.

(** ** Total comparison functions: Rust's [Ord] *)

Class TotalCmp {A} (cmp : A → A → comparison) : Prop := {
  cmp_eq x y : cmp x y = Eq ↔ x = y;
  cmp_opp x y : cmp y x = CompOpp (cmp x y);
  cmp_lt_trans x y z : cmp x y = Lt → cmp y z = Lt → cmp x z = Lt
}.

Arguments cmp_eq {A} cmp {_} x y.
Arguments cmp_opp {A} cmp {_} x y.
Arguments cmp_lt_trans {A} cmp {_} x y z.

(** The comparison of images under a key function. *)
Definition cmp_on {A B} (f : A → B) (c : B → B → comparison) (x y : A) : comparison :=
  c (f x) (f y).

(** The comparison with the arguments exchanged (a descending sort key). *)
Definition cmp_rev {A} (c : A → A → comparison) (x y : A) : comparison := c y x.

(** The lexicographic comparison of pairs. *)
Definition cmp_pair {A B} (c : A → A → comparison) (d : B → B → comparison)
    (x y : A * B) : comparison :=
  c x.1 y.1 ⊳ d x.2 y.2.

Global Typeclasses Opaque cmp_on cmp_rev cmp_pair.

Section total_cmp.
Context {A} (cmp : A → A → comparison) `{!TotalCmp cmp}.

Lemma cmp_refl x : cmp x x = Eq.
Proof. by apply (cmp_eq cmp). Qed.

Lemma cmp_lt_gt x y : cmp x y = Lt ↔ cmp y x = Gt.
Proof. rewrite (cmp_opp cmp x y). by destruct (cmp x y). Qed.

Lemma cmp_le_antisym x y : cmp x y ≠ Gt → cmp y x ≠ Gt → x = y.
Proof.
  rewrite (cmp_opp cmp x y). intros H1 H2. apply (cmp_eq cmp). by destruct (cmp x y).
Qed.

Lemma cmp_le_trans x y z : cmp x y ≠ Gt → cmp y z ≠ Gt → cmp x z ≠ Gt.
Proof.
  destruct (cmp x y) eqn:E1; [apply (cmp_eq cmp) in E1 as -> | | ]; [done | | done].
  destruct (cmp y z) eqn:E2; [apply (cmp_eq cmp) in E2 as -> | | ]; [by rewrite E1 | | done].
  by rewrite (cmp_lt_trans cmp _ _ _ E1 E2).
Qed.

Lemma cmp_le_total x y : cmp x y ≠ Gt ∨ cmp y x ≠ Gt.
Proof. rewrite (cmp_opp cmp x y). destruct (cmp x y); naive_solver. Qed.

Global Instance cmp_rev_total : TotalCmp (cmp_rev cmp).
Proof.
  split; unfold cmp_rev.
  - intros x y. rewrite (cmp_eq cmp). naive_solver.
  - intros x y. apply (cmp_opp cmp).
  - intros x y z ??. by eapply (cmp_lt_trans cmp).
Qed.
End total_cmp.

Global Instance cmp_pair_total {A B} (c : A → A → comparison) (d : B → B → comparison) :
  TotalCmp c → TotalCmp d → TotalCmp (cmp_pair c d).
Proof.
  intros Hc Hd. split; unfold cmp_pair, then_with.
  - intros [x1 x2] [y1 y2]; simpl.
    split; [|intros [= -> ->]; by rewrite (cmp_refl c), (cmp_refl d)].
    destruct (c x1 y1) eqn:E; try done. apply (cmp_eq c) in E as ->.
    intros ->%(cmp_eq d). done.
  - intros [x1 x2] [y1 y2]; simpl. rewrite (cmp_opp c x1 y1), (cmp_opp d x2 y2).
    by destruct (c x1 y1).
  - intros [x1 x2] [y1 y2] [z1 z2]; simpl.
    destruct (c x1 y1) eqn:E1; [apply (cmp_eq c) in E1 as -> | | done].
    + destruct (c y1 z1); [apply (cmp_lt_trans d)| |]; done.
    + destruct (c y1 z1) eqn:E2; [apply (cmp_eq c) in E2 as -> | | done].
      * by rewrite E1.
      * intros _ _. by rewrite (cmp_lt_trans c _ _ _ E1 E2).
Qed.

Global Instance Z_cmp_total : TotalCmp Z.compare.
Proof.
  split; [apply Z.compare_eq_iff | intros; apply Z.compare_antisym |].
  intros x y z. rewrite !Z.compare_lt_iff. lia.
Qed.

Global Instance N_cmp_total : TotalCmp N.compare.
Proof.
  split; [apply N.compare_eq_iff | intros; apply N.compare_antisym |].
  intros x y z. rewrite !N.compare_lt_iff. lia.
Qed.

(** Rust compares strings byte by byte. *)
Global Instance string_cmp_total : TotalCmp String.compare.
Proof.
  assert (Hasc : ∀ a b : Ascii.ascii, Ascii.compare a b = N.compare (Ascii.N_of_ascii a) (Ascii.N_of_ascii b))
    by done.
  assert (Hinj : ∀ a b, Ascii.N_of_ascii a = Ascii.N_of_ascii b → a = b).
  { intros a b E. by rewrite <-(Ascii.ascii_N_embedding a), E, Ascii.ascii_N_embedding. }
  split.
  - intros x y. split; [apply String.compare_eq_iff|]. intros ->.
    induction y as [|a y IH]; simpl; [done|]. by rewrite Hasc, N.compare_refl.
  - intros x y. apply String.compare_antisym.
  - intros x. induction x as [|a x IH]; intros [|b y] [|c z]; try done; simpl.
    rewrite !Hasc.
    destruct (N.compare_spec (Ascii.N_of_ascii a) (Ascii.N_of_ascii b)) as [E%Hinj|E|E]; try done;
      destruct (N.compare_spec (Ascii.N_of_ascii b) (Ascii.N_of_ascii c)) as [E'%Hinj|E'|E']; try done;
      subst; intros H1 H2.
    + rewrite N.compare_refl. eauto.
    + by rewrite (proj2 (N.compare_lt_iff _ _) E').
    + by rewrite (proj2 (N.compare_lt_iff _ _) E).
    + by rewrite (proj2 (N.compare_lt_iff _ _) (N.lt_trans _ _ _ E E')).
Qed.

(** ** Sorting: Rust's stable [slice::sort_by] *)

Section sort_by.
Context {A : Type}.
Implicit Types (c : A → A → comparison) (l : list A).

Fixpoint insert_by c (x : A) l : list A :=
  match l with
  | [] => [x]
  | y :: l' => match c x y with Gt => y :: insert_by c x l' | _ => x :: l end
  end.

(** Insertion from the right keeps equal elements in their input order, so
    this is the stable sort. *)
Definition sort_by c l : list A := foldr (insert_by c) [] l.

Lemma insert_by_perm c x l : insert_by c x l ≡ₚ x :: l.
Proof.
  induction l as [|y l IH]; simpl; [done|].
  destruct (c x y); try done. rewrite IH. constructor.
Qed.

Lemma sort_by_perm c l : sort_by c l ≡ₚ l.
Proof. induction l as [|x l IH]; simpl; [done|]. by rewrite insert_by_perm, IH. Qed.

(** The order "not after" a comparison induces. *)
Definition cmp_le c (x y : A) : Prop := c x y ≠ Gt.

Section keyed.
Context {B} (f : A → B) (k : B → B → comparison) `{!TotalCmp k}.

Lemma cmp_on_le_trans x y z :
  cmp_le (cmp_on f k) x y → cmp_le (cmp_on f k) y z → cmp_le (cmp_on f k) x z.
Proof. unfold cmp_le, cmp_on. by apply cmp_le_trans. Qed.

Lemma insert_by_sorted x l :
  StronglySorted (cmp_le (cmp_on f k)) l →
  StronglySorted (cmp_le (cmp_on f k)) (insert_by (cmp_on f k) x l).
Proof.
  induction 1 as [|y l Hs IH Hall]; simpl; [repeat constructor|].
  destruct (cmp_on f k x y) eqn:E.
  - constructor; [by constructor|].
    assert (cmp_le (cmp_on f k) x y) by (unfold cmp_le; congruence).
    constructor; [done|]. eapply Forall_impl; [exact Hall|].
    intros z. by apply cmp_on_le_trans.
  - constructor; [by constructor|].
    assert (cmp_le (cmp_on f k) x y) by (unfold cmp_le; congruence).
    constructor; [done|]. eapply Forall_impl; [exact Hall|].
    intros z. by apply cmp_on_le_trans.
  - constructor; [done|].
    rewrite insert_by_perm. constructor; [|done].
    unfold cmp_le, cmp_on in *. apply (cmp_lt_gt k) in E. congruence.
Qed.

Lemma sort_by_sorted l : StronglySorted (cmp_le (cmp_on f k)) (sort_by (cmp_on f k) l).
Proof. induction l; simpl; [constructor|]. by apply insert_by_sorted. Qed.

(** The sort is stable. *)
Lemma sort_stable q l :
  filter (λ x, k (f x) q = Eq) (sort_by (cmp_on f k) l) = filter (λ x, k (f x) q = Eq) l.
Proof.
  assert (∀ x l, filter (λ x, k (f x) q = Eq) (insert_by (cmp_on f k) x l)
    = filter (λ x, k (f x) q = Eq) (x :: l)) as Hi.
  { clear l. intros x l. induction l as [|y l IH]; simpl; [done|].
    destruct (cmp_on f k x y) eqn:E; try done. rewrite filter_cons, IH, !filter_cons.
    unfold cmp_on in E. case_decide as Dy; case_decide as Dx; try done.
    apply (cmp_eq k) in Dx, Dy. rewrite Dx, Dy, (cmp_refl k) in E. done. }
  induction l as [|x l IH]; simpl; [done|]. rewrite Hi, !filter_cons, IH. done.
Qed.

(** A keyed sort depends only on the elements, not on their order, when
    the key tells them apart. *)
Lemma sort_by_perm_eq l l' :
  (∀ x y, x ∈ l → y ∈ l → f x = f y → x = y) →
  l ≡ₚ l' → sort_by (cmp_on f k) l = sort_by (cmp_on f k) l'.
Proof.
  intros Hinj Hp.
  apply (StronglySorted_unique_strong (cmp_le (cmp_on f k)));
    [|apply sort_by_sorted..|by rewrite !sort_by_perm].
  intros x y Hx Hy H1 H2. rewrite sort_by_perm in Hx. rewrite sort_by_perm, <-Hp in Hy.
  apply Hinj; [done..|]. by apply (cmp_le_antisym k).
Qed.
End keyed.

Lemma insert_by_ext c c' x l :
  (∀ y, y ∈ l → c x y = c' x y) → insert_by c x l = insert_by c' x l.
Proof.
  induction l as [|y l IH]; intros H; simpl; [done|].
  rewrite <-(H y) by set_solver. rewrite IH by set_solver. done.
Qed.

Lemma sort_by_ext c c' l :
  (∀ x y, x ∈ l → y ∈ l → c x y = c' x y) → sort_by c l = sort_by c' l.
Proof.
  induction l as [|x l IH]; intros H; simpl; [done|].
  rewrite <-IH by set_solver. apply insert_by_ext.
  intros y Hy. rewrite sort_by_perm in Hy. apply H; set_solver.
Qed.
End sort_by.

Lemma sort_by_map {A B} (f : A → B) c l : sort_by c (map f l) = map f (sort_by (λ x y, c (f x) (f y)) l).
Proof.
  assert (∀ x l, insert_by c (f x) (map f l) = map f (insert_by (λ x y, c (f x) (f y)) x l)) as Hi.
  { clear l. intros x l. induction l as [|y l IH]; simpl; [done|]. destruct (c (f x) (f y)); simpl; congruence. }
  induction l as [|x l IH]; simpl; [done|]. by rewrite IH, Hi.
Qed.


(** ** [BinaryHeap]: a bag whose [pop] removes a greatest element *)

Section heap.
Context {A : Type} (c : A → A → comparison).

Fixpoint heap_pop (q : list A) : option (A * list A) :=
  match q with
  | [] => None
  | x :: q' =>
      match heap_pop q' with
      | None => Some (x, [])
      | Some (m, r) =>
          match c x m with Lt => Some (m, x :: r) | _ => Some (x, q') end
      end
  end.

Lemma heap_pop_None q : heap_pop q = None ↔ q = [].
Proof. destruct q; simpl; [done|]. split; [|done]. case_all. Qed.

Lemma heap_pop_perm q m r : heap_pop q = Some (m, r) → q ≡ₚ m :: r.
Proof.
  revert m r. induction q as [|x q IH]; intros m r; simpl; [done|].
  destruct (heap_pop q) as [[m' r']|] eqn:E.
  - specialize (IH m' r' eq_refl). case_match; intros [= <- <-]; try done.
    rewrite IH. constructor.
  - apply heap_pop_None in E as ->. by intros [= <- <-].
Qed.
End heap.

Section heap_keyed.
Context {A B : Type} (f : A → B) (k : B → B → comparison) `{!TotalCmp k}.

Lemma heap_pop_max q m r y :
  heap_pop (cmp_on f k) q = Some (m, r) → y ∈ q → cmp_le (cmp_on f k) y m.
Proof.
  revert m r. induction q as [|x q IH]; intros m r; simpl; [done|].
  destruct (heap_pop (cmp_on f k) q) as [[m' r']|] eqn:E.
  - specialize (IH _ _ eq_refl).
    intros Hp [->|Hy]%elem_of_cons.
    + unfold cmp_le. destruct (cmp_on f k x m') eqn:E'; simplify_eq/=; try congruence;
        unfold cmp_on; by rewrite (cmp_refl k).
    + specialize (IH Hy). destruct (cmp_on f k x m') eqn:E'; simplify_eq/=; try done.
      * unfold cmp_on in E'. apply (cmp_eq k) in E'.
        unfold cmp_le, cmp_on in *. by rewrite E'.
      * eapply (cmp_on_le_trans f k); [done|]. unfold cmp_le, cmp_on in *.
        apply (cmp_lt_gt k) in E'. congruence.
  - apply heap_pop_None in E as ->. intros [= <- <-] ->%list_elem_of_singleton.
    unfold cmp_le, cmp_on. by rewrite (cmp_refl k).
Qed.

(** When the key tells the queued elements apart, which one is popped does
    not depend on the order they were pushed in. *)
Lemma heap_pop_perm_eq q q' m r :
  (∀ x y, x ∈ q → y ∈ q → f x = f y → x = y) →
  q ≡ₚ q' → heap_pop (cmp_on f k) q = Some (m, r) →
  ∃ r', heap_pop (cmp_on f k) q' = Some (m, r') ∧ r ≡ₚ r'.
Proof.
  intros Hinj Hp E.
  destruct (heap_pop (cmp_on f k) q') as [[m' r']|] eqn:E'; last first.
  { apply heap_pop_None in E' as ->. apply Permutation_nil_r in Hp as ->. done. }
  assert (m = m') as <-.
  { pose proof (heap_pop_perm _ _ _ _ E) as P1. pose proof (heap_pop_perm _ _ _ _ E') as P2.
    assert (m ∈ q) by (rewrite P1; set_solver).
    assert (m' ∈ q) by (rewrite Hp, P2; set_solver).
    apply Hinj; [done..|]. apply (cmp_le_antisym k).
    - eapply heap_pop_max in E'; [exact E'|]. by rewrite <-Hp.
    - eapply heap_pop_max in E; [exact E|done]. }
  exists r'. split; [done|].
  apply (Permutation_cons_inv (a:=m)).
  by rewrite <-(heap_pop_perm _ _ _ _ E), <-(heap_pop_perm _ _ _ _ E').
Qed.
End heap_keyed.

(** ** String operations of Rust's [str] *)

(** [s.split_once(c)]: the parts around the first [c]. *)
Fixpoint split_once (c : ascii) (s : string) : option (string * string) :=
  match s with
  | String.EmptyString => None
  | String.String a s' =>
      if Ascii.eqb a c then Some (String.EmptyString, s')
      else match split_once c s' with
           | Some (l, r) => Some (String.String a l, r)
           | None => None
           end
  end.

(** [s.rsplit_once(c)]: the parts around the last [c]. *)
Fixpoint rsplit_once (c : ascii) (s : string) : option (string * string) :=
  match s with
  | String.EmptyString => None
  | String.String a s' =>
      match rsplit_once c s' with
      | Some (l, r) => Some (String.String a l, r)
      | None => if Ascii.eqb a c then Some (String.EmptyString, s') else None
      end
  end.

(** [s.strip_prefix(c)]. *)
Definition str_strip_prefix (c : ascii) (s : string) : option string :=
  match s with
  | String.String a s' => if Ascii.eqb a c then Some s' else None
  | String.EmptyString => None
  end.

Definition starts_with (c : ascii) (s : string) : bool :=
  match str_strip_prefix c s with Some _ => true | None => false end.

Fixpoint str_all (p : ascii → bool) (s : string) : bool :=
  match s with
  | String.EmptyString => true
  | String.String a s' => p a && str_all p s'
  end.

(** [s.contains(c)]. *)
Definition str_contains (c : ascii) (s : string) : bool := negb (str_all (λ a, negb (Ascii.eqb a c)) s).

Definition str_is_empty (s : string) : bool :=
  match s with String.EmptyString => true | _ => false end.

(** [s.split(c).next()]: the part before the first [c]. *)
Definition split_first (c : ascii) (s : string) : string :=
  match split_once c s with Some (l, _) => l | None => s end.

Definition ascii_lower (a : ascii) : ascii :=
  let n := N_of_ascii a in
  if ((65 <=? n) && (n <=? 90))%N then ascii_of_N (n + 32) else a.

(** [a.eq_ignore_ascii_case(b)]. *)
Fixpoint eq_ignore_ascii_case (a b : string) : bool :=
  match a, b with
  | String.EmptyString, String.EmptyString => true
  | String.String x a', String.String y b' =>
      Ascii.eqb (ascii_lower x) (ascii_lower y) && eq_ignore_ascii_case a' b'
  | _, _ => false
  end.

(** ** Hash maps: an arbitrary iteration order

    [HashMap], [FastMap] and [FastSet] are iterated in an unspecified order.
    A loop over such a map is modelled as a loop over [hm_iter m], where
    [hm_iter] is an arbitrary enumeration of the entries; a theorem that holds
    for every instance of [HashOrder] holds for every hasher and seed. *)

Class HashOrder := {
  hm_iter {K} `{Countable K} {V} (m : gmap K V) : list (K * V);
  hm_iter_perm {K} `{Countable K} {V} (m : gmap K V) : hm_iter m ≡ₚ map_to_list m
}.

(** Two concrete orders, used by the examples. *)
Definition order_forward : HashOrder :=
  {| hm_iter := λ K _ _ V m, map_to_list m; hm_iter_perm := λ K _ _ V m, reflexivity _ |}.

Definition order_backward : HashOrder :=
  {| hm_iter := λ K _ _ V m, reverse (map_to_list m);
     hm_iter_perm := λ K _ _ V m, reverse_Permutation _ |}.

(** Keys and values in iteration order. *)
Definition hm_keys `{HashOrder} {K} `{Countable K} {V} (m : gmap K V) : list K :=
  (hm_iter m).*1.
Definition hm_values `{HashOrder} {K} `{Countable K} {V} (m : gmap K V) : list V :=
  (hm_iter m).*2.

Section hash_order.
Context `{HashOrder} {K} `{Countable K} {V : Type}.
Implicit Types m : gmap K V.

Lemma elem_of_hm_iter m k v : (k, v) ∈ hm_iter m ↔ m !! k = Some v.
Proof. by rewrite hm_iter_perm, elem_of_map_to_list. Qed.

Lemma NoDup_hm_keys m : NoDup (hm_keys m).
Proof.
  unfold hm_keys. rewrite hm_iter_perm. apply NoDup_fst_map_to_list.
Qed.

Lemma NoDup_hm_iter m : NoDup (hm_iter m).
Proof. rewrite hm_iter_perm. apply NoDup_map_to_list. Qed.

Lemma elem_of_hm_keys m k : k ∈ hm_keys m ↔ k ∈ dom m.
Proof.
  unfold hm_keys. rewrite list_elem_of_fmap, elem_of_dom. split.
  - intros [[k' v] [-> Hin]]. apply elem_of_hm_iter in Hin. simpl. eauto.
  - intros [v Hv]. exists (k, v). by rewrite elem_of_hm_iter.
Qed.

Lemma elem_of_hm_values m v : v ∈ hm_values m ↔ ∃ k, m !! k = Some v.
Proof.
  unfold hm_values. rewrite list_elem_of_fmap. split.
  - intros [[k v'] [-> Hin]]. apply elem_of_hm_iter in Hin. simpl. eauto.
  - intros [k Hk]. exists (k, v). by rewrite elem_of_hm_iter.
Qed.

Lemma length_hm_iter m : length (hm_iter m) = size m.
Proof. by rewrite hm_iter_perm, length_map_to_list. Qed.

(** Inserting every entry of an enumeration rebuilds the map, whatever the
    enumeration. *)
Lemma foldl_insert_lookup {W} (f : K * V → W) (l : list (K * V)) (m0 : gmap K W) k :
  NoDup l.*1 →
  foldl (λ acc kv, <[kv.1 := f kv]> acc) m0 l !! k =
    match (list_to_map l : gmap K V) !! k with Some v => Some (f (k, v)) | None => m0 !! k end.
Proof.
  revert m0. induction l as [|[k' v'] l IH]; intros m0 Hnd; csimpl.
  { by rewrite lookup_empty. }
  apply NoDup_cons in Hnd as [Hni Hnd]. rewrite IH by done. simpl.
  destruct (decide (k = k')) as [->|Hne].
  - apply (not_elem_of_list_to_map_1 (M:=gmap K)) in Hni. simpl in Hni. rewrite Hni. by rewrite !lookup_insert_eq.
  - by rewrite !lookup_insert_ne by done.
Qed.

Lemma list_to_map_hm_iter m : list_to_map (hm_iter m) = m.
Proof.
  rewrite (list_to_map_proper (M:=gmap K) _ (map_to_list m));
    [apply list_to_map_to_list|apply NoDup_hm_keys|apply hm_iter_perm].
Qed.
End hash_order.

(** Two enumerations of one map are permutations of each other. *)
Lemma hm_iter_two (o1 o2 : HashOrder) {K} `{Countable K} {V} (m : gmap K V) :
  hm_iter (HashOrder:=o1) m ≡ₚ hm_iter (HashOrder:=o2) m.
Proof. by rewrite !hm_iter_perm. Qed.

#[export] Hint Resolve NoDup_hm_keys NoDup_hm_iter : rezzy.

(** ** Worklist loops

    [while let Some(x) = queue.pop_front() { .. queue.push_back(..) .. }]:
    the body maps the popped element and the loop state to the next state and
    the elements pushed, or breaks. *)

Inductive loop_step (A S : Type) : Type :=
| Push (s : S) (new : list A)
| Break (s : S).
Arguments Push {A S} s new.
Arguments Break {A S} s.

Section worklist.
Context {A S : Type} (body : A → S → loop_step A S).

Fixpoint drain (fuel : nat) (q : list A) (s : S) : option S :=
  match q with
  | [] => Some s
  | x :: q' =>
      match fuel with
      | O => None
      | Datatypes.S n =>
          match body x s with
          | Push s' new => drain n (q' ++ new) s'
          | Break s' => Some s'
          end
      end
  end.

(** A potential that pays for every pushed element bounds the fuel. *)
Lemma drain_total (φ : S → nat) fuel q s :
  (∀ x s s' new, body x s = Push s' new → φ s' + length new ≤ φ s) →
  φ s + length q ≤ fuel → is_Some (drain fuel q s).
Proof.
  intros Hφ. revert q s. induction fuel as [|n IH]; intros [|x q] s Hf; simpl in *;
    try by eexists.
  { lia. }
  destruct (body x s) as [s' new|s'] eqn:E; [|by eexists].
  apply Hφ in E. apply IH. rewrite length_app. lia.
Qed.

(** An invariant of the queue and the state holds when the loop ends. *)
Lemma drain_inv (I : list A → S → Prop) (J : S → Prop) fuel q s s' :
  (∀ x q s s' new, I (x :: q) s → body x s = Push s' new → I (q ++ new) s') →
  (∀ x q s s', I (x :: q) s → body x s = Break s' → J s') →
  (∀ s, I [] s → J s) →
  I q s → drain fuel q s = Some s' → J s'.
Proof.
  intros HP HB HE. revert q s. induction fuel as [|n IH]; intros [|x q] s HI; simpl;
    try done; try (intros [= <-]; by eauto).
  destruct (body x s) as [s1 new|s1] eqn:E; [|intros [= <-]; by eauto].
  apply IH. by eauto.
Qed.

(** More fuel changes nothing. *)
Lemma drain_mono fuel fuel' q s s' :
  fuel ≤ fuel' → drain fuel q s = Some s' → drain fuel' q s = Some s'.
Proof.
  revert fuel' q s. induction fuel as [|n IH]; intros [|n'] [|x q] s Hle; simpl; try done; try lia.
  case_match; [|done]. apply IH. lia.
Qed.
End worklist.

Lemma drain_ext {A S} (f g : A → S → loop_step A S) fuel q s :
  (∀ x s, f x s = g x s) → drain f fuel q s = drain g fuel q s.
Proof.
  intros Hfg. revert q s. induction fuel as [|n IH]; intros [|x q] s; simpl; [done..|].
  rewrite Hfg. by destruct (g x s).
Qed.

(** The same loop when the body can panic ([None]). *)
Section fallible_worklist.
Context {A S : Type} (body : A → S → option (loop_step A S)).

Fixpoint try_drain (fuel : nat) (q : list A) (s : S) : option S :=
  match q with
  | [] => Some s
  | x :: q' =>
      match fuel with
      | O => None
      | Datatypes.S n =>
          match body x s with
          | Some (Push s' new) => try_drain n (q' ++ new) s'
          | Some (Break s') => Some s'
          | None => None
          end
      end
  end.

(** Under an invariant that rules panics out and a measure of the queue and
    the state that every iteration decreases, the loop ends, and its result
    satisfies [J]. *)
Lemma try_drain_spec (I : list A → S → Prop) (J : S → Prop) (φ : list A → S → nat) fuel q s :
  (∀ x q s, I (x :: q) s → ∃ r, body x s = Some r ∧ 0 < φ (x :: q) s ∧
    match r with
    | Push s' new => I (q ++ new) s' ∧ φ (q ++ new) s' < φ (x :: q) s
    | Break s' => J s'
    end) →
  (∀ s, I [] s → J s) →
  I q s → φ q s ≤ fuel → ∃ s', try_drain fuel q s = Some s' ∧ J s'.
Proof.
  intros Hstep Hend. revert q s. induction fuel as [|n IH]; intros [|x q] s HI Hf; simpl in *;
    try (exists s; by eauto).
  { destruct (Hstep x q s HI) as (r & _ & Hp & _). lia. }
  destruct (Hstep x q s HI) as (r & -> & _ & Hr). destruct r as [s' new|s']; [|by eauto].
  destruct Hr as [HI' Hφ]. apply IH; [done|lia].
Qed.
End fallible_worklist.

(** The loop without panics is the special case that always returns. *)
Lemma drain_try {A S} (body : A → S → loop_step A S) fuel q s :
  drain body fuel q s = try_drain (λ x s, Some (body x s)) fuel q s.
Proof.
  revert q s. induction fuel as [|n IH]; intros [|x q] s; simpl; try done.
  all: destruct (body x s); [apply IH|done].
Qed.

(** ** Loops over a list whose body can panic *)

Section try_fold.
Context {A S : Type} (f : S → A → option S).

Fixpoint try_fold (l : list A) (s : S) : option S :=
  match l with
  | [] => Some s
  | x :: l' => match f s x with Some s' => try_fold l' s' | None => None end
  end.

(** An invariant indexed by the elements processed. *)
Lemma try_fold_spec (I : list A → S → Prop) l s :
  (∀ l1 x l2 s, l = l1 ++ x :: l2 → I l1 s → ∃ s', f s x = Some s' ∧ I (l1 ++ [x]) s') →
  I [] s → ∃ s', try_fold l s = Some s' ∧ I l s'.
Proof.
  intros Hstep H0.
  assert (∀ l2 l1 s, l = l1 ++ l2 → I l1 s → ∃ s', try_fold l2 s = Some s' ∧ I l s') as Hall;
    [|by apply (Hall l [] s)].
  induction l2 as [|x l2 IH]; intros l1 s1 Hl HI; simpl.
  { rewrite app_nil_r in Hl. subst. eauto. }
  destruct (Hstep l1 x l2 s1 Hl HI) as (s' & -> & HI'). apply (IH (l1 ++ [x])); [|done].
  by rewrite <-(assoc_L (++)).
Qed.

(** Counting up and counting down. *)
End try_fold.

Lemma try_fold_up {S} (f : S → nat → option S) (I : nat → S → Prop) n s :
  (∀ k s, k < n → I k s → ∃ s', f s k = Some s' ∧ I (Datatypes.S k) s') →
  I 0 s → ∃ s', try_fold f (seq 0 n) s = Some s' ∧ I n s'.
Proof.
  intros Hstep H0.
  destruct (try_fold_spec f (λ l1 s, I (length l1) s) (seq 0 n) s) as (s' & Hr & HI); [|done|].
  - intros l1 x l2 s1 Hl HI. rewrite length_app, Nat.add_1_r.
    assert (seq 0 n !! length l1 = Some x) as Hx by (rewrite Hl; by rewrite list_lookup_middle).
    apply lookup_seq in Hx as [-> ?]. by apply Hstep.
  - exists s'. by rewrite length_seq in HI.
Qed.

Lemma try_fold_down {S} (f : S → nat → option S) (I : nat → S → Prop) n s :
  (∀ k s, k < n → I (Datatypes.S k) s → ∃ s', f s k = Some s' ∧ I k s') →
  I n s → ∃ s', try_fold f (reverse (seq 0 n)) s = Some s' ∧ I 0 s'.
Proof.
  revert s. induction n as [|n IH]; intros s Hstep Hn; [eexists; by split|].
  rewrite seq_S, reverse_snoc. simpl. destruct (Hstep n s) as (s' & -> & HI); [lia|done|].
  apply IH; [|done]. intros. apply Hstep; [lia|done].
Qed.

Section try_fold_more.
Context {A S : Type} (f : S → A → option S).

Lemma try_fold_app l l' s : try_fold f (l ++ l') s = s' ← try_fold f l s; try_fold f l' s'.
Proof. revert s. induction l as [|x l IH]; intros s; simpl; [done|]. destruct (f s x); simpl; [apply IH|done]. Qed.
End try_fold_more.

(** [v[i] = x]: out of range it panics. *)
Definition vec_set {A} (v : list A) (i : nat) (x : A) : option (list A) :=
  match v !! i with Some _ => Some (<[i := x]> v) | None => None end.

Lemma vec_set_lt {A} (v : list A) i x : i < length v → vec_set v i x = Some (<[i := x]> v).
Proof. intros [y Hy]%lookup_lt_is_Some. unfold vec_set. by rewrite Hy. Qed.

(** The number of flags still down. *)
Definition unset (v : list bool) : nat := length (filter (λ b, b = false) v).

Lemma length_filter_insert {A} (P : A → Prop) `{∀ x, Decision (P x)} (l : list A) i x y :
  l !! i = Some x → P x → ¬ P y → S (length (filter P (<[i := y]> l))) = length (filter P l).
Proof.
  intros Hi Hx Hy. revert i Hi. induction l as [|z l IH]; intros [|i]; simpl; try done.
  - intros [= ->]. rewrite !filter_cons, decide_False, decide_True by done. done.
  - intros Hi. apply IH in Hi. rewrite !filter_cons. case_decide; simpl; lia.
Qed.

Lemma unset_set v i : v !! i = Some false → S (unset (<[i := true]> v)) = unset v.
Proof. intros Hi. unfold unset. by erewrite length_filter_insert. Qed.

Lemma unset_le v : unset v ≤ length v.
Proof. unfold unset. apply length_filter. Qed.

(** ** Breadth-first closure of a finite graph *)

Section bfs.
Context {A : Type} `{Countable A} (edges : A → list A) (support : gset A).
Hypothesis edges_support : ∀ x, x ∉ support → edges x = [].

Definition edge (x y : A) : Prop := y ∈ edges x.

(** Edges that leave nodes not yet visited. *)
Definition weight (V : gset A) : nat :=
  sum_list_with (λ x, length (edges x)) (elements (support ∖ V)).

Lemma weight_visit x V :
  x ∉ V → weight ({[x]} ∪ V) + length (edges x) ≤ weight V.
Proof.
  intros HxV. unfold weight. destruct (decide (x ∈ support)) as [Hx|Hx].
  - assert (elements (support ∖ V) ≡ₚ x :: elements (support ∖ ({[x]} ∪ V))) as ->.
    { rewrite <-elements_union_singleton by set_solver.
      apply elements_proper. intros y. destruct (decide (y = x)); set_solver. }
    simpl. lia.
  - rewrite edges_support by done. simpl.
    assert (support ∖ ({[x]} ∪ V) = support ∖ V) as -> by set_solver. lia.
Qed.
End bfs.

Lemma weight_ext {A} `{Countable A} (e1 e2 : A → list A) (support V : gset A) :
  (∀ x, e1 x = e2 x) → weight e1 support V = weight e2 support V.
Proof. intros He. unfold weight. induction (elements (support ∖ V)) as [|x l IH]; simpl; [done|]. by rewrite He, IH. Qed.

(** [debug_assert!]: a build with [debug_assertions] panics ([None]) when the
    condition fails, another one does not look at it. *)
Definition debug_assert (debug_assertions condition : bool) : option () :=
  if debug_assertions && negb condition then None else Some ().

(** Filtering depends on the predicate only at the list's elements. *)
Lemma filter_ext_in {A} (P Q : A → Prop) `{∀ x, Decision (P x)} `{∀ x, Decision (Q x)} (l : list A) :
  (∀ x, x ∈ l → P x ↔ Q x) → filter P l = filter Q l.
Proof.
  induction l as [|x l IH]; intros Hpq; [done|].
  rewrite !filter_cons, IH by set_solver.
  assert (P x ↔ Q x) by set_solver. repeat case_decide; naive_solver.
Qed.

(** Sizes of sets built from lists. *)
Lemma size_union_le `{Countable A} (X Y : gset A) : size (X ∪ Y) ≤ size X + size Y.
Proof.
  rewrite size_union_alt. assert (size (Y ∖ X) ≤ size Y) by (apply subseteq_size; set_solver). lia.
Qed.

Lemma size_list_to_set_le `{Countable A} (l : list A) : size (list_to_set l : gset A) ≤ length l.
Proof.
  induction l as [|x l IH]; simpl; [done|].
  pose proof (size_union_le {[x]} (list_to_set l : gset A)) as Hu.
  rewrite size_singleton in Hu. lia.
Qed.

Lemma length_omap_le {A B} (f : A → option B) (l : list A) : length (omap f l) ≤ length l.
Proof. induction l as [|x l IH]; csimpl; [done|]. destruct (f x); simpl; lia. Qed.

Lemma StronglySorted_fmap_inv {A B} (f : A → B) (R1 : relation A) (R2 : relation B) (l : list A) :
  (∀ x y, R2 (f x) (f y) → R1 x y) → StronglySorted R2 (f <$> l) → StronglySorted R1 l.
Proof.
  intros HR. induction l as [|x l IH]; simpl; [constructor|].
  intros [Hs Hall]%StronglySorted_inv. constructor; [by apply IH|].
  rewrite Forall_fmap in Hall. eapply Forall_impl; [exact Hall|]. intros y. apply HR.
Qed.

Lemma map_eq_Some `{Countable K} {V} (m1 m2 : gmap K V) :
  (∀ i x, m1 !! i = Some x ↔ m2 !! i = Some x) → m1 = m2.
Proof. intros Hm. apply map_eq. intros i. apply option_eq. intros x. apply Hm. Qed.

(** A loop that inserts, under each id of a list, a value that depends on the
    id only. *)
Lemma foldl_insert_by_key `{Countable K} {V} (f : K → option V) (l : list K) (m : gmap K V) k :
  foldl (λ m k, match f k with Some v => <[k := v]> m | None => m end) m l !! k =
    if decide (k ∈ l) then match f k with Some v => Some v | None => m !! k end else m !! k.
Proof.
  revert m. induction l as [|k' l IH]; intros m; simpl; [done|].
  rewrite IH. destruct (decide (k' = k)) as [->|Hne].
  - rewrite (decide_True (P:=k ∈ k :: l)) by set_solver.
    destruct (f k) as [v|]; [rewrite lookup_insert_eq|]; by case_decide.
  - assert (match f k' with Some v => <[k':=v]> m | None => m end !! k = m !! k) as ->.
    { destruct (f k'); [by rewrite lookup_insert_ne|done]. }
    repeat case_decide; done || set_solver.
Qed.

Lemma NoDup_fmap_filter {A B} (f : A → B) (P : A → Prop) `{∀ x, Decision (P x)} (l : list A) :
  NoDup (f <$> l) → NoDup (f <$> filter P l).
Proof.
  induction l as [|x l IH]; csimpl; [done|]. intros [Hni Hnd]%NoDup_cons. rewrite filter_cons.
  case_decide; [|by apply IH]. csimpl. apply NoDup_cons. split; [|by apply IH].
  intros (y & Hy & [_ Hin]%list_elem_of_filter)%list_elem_of_fmap. apply Hni, list_elem_of_fmap. eauto.
Qed.
