(* ===== verification/Dense.v ===== *)
(** * The dense index ([src/src/dense_index.rs])

    Distinct items numbered in first-seen order, with both directions of the
    numbering, and an error when the index width or a given bound is exceeded or
    a reservation of memory is refused. The allocator is an argument of the
    operations: it tells which reservation ([allocation_should_fail()],
    [try_reserve]) of a call is refused. The components that build an index
    on their way call it with the allocator [granted], which refuses none. *)
From stdpp Require Import prelude gmap.
From S2P Require Import Prelude.

(** ** Index widths and errors *)

Inductive DenseIndexWidth : Type := Idx_u8 | Idx_u32 | Idx_usize.

(** [DenseIndexWidth::MAX]. *)
Definition MAX (w : DenseIndexWidth) : N :=
  match w with Idx_u8 => 255 | Idx_u32 => 4294967295 | Idx_usize => USIZE_MAX end.

(** [Idx::try_from(n)] of a [usize]. *)
Definition try_from (w : DenseIndexWidth) (n : nat) : option nat :=
  if (N.of_nat n <=? MAX w)%N then Some n else None.

Record IndexTooLarge : Type := mkIndexTooLarge {
  distinct_count : N;
  allocation_failed : bool
}.

(** Whether the reservation number [n] of a call is refused: the two or three
    conditions tried together at one place of the code count as one. *)
Definition Allocator : Type := nat → bool.

Definition granted : Allocator := λ _, false.

(** ** The index *)

Section dense.
Context {T : Type} `{Countable T}.

Record DenseIndex : Type := mkDenseIndex {
  items : list T;
  index_by_item : gmap T nat
}.

Definition len (ix : DenseIndex) : nat := length (items ix).
Definition is_empty (ix : DenseIndex) : bool := match items ix with [] => true | _ => false end.
Definition index_of (ix : DenseIndex) (item : T) : option nat := index_by_item ix !! item.
Definition item_at (ix : DenseIndex) (idx : nat) : option T := items ix !! idx.

Definition push_item (ix : DenseIndex) (item : T) (idx : nat) : DenseIndex :=
  mkDenseIndex (items ix ++ [item]) (<[item := idx]> (index_by_item ix)).

(** The loop over the rest of the universe once the bound is passed: the
    items in neither the index nor [post_bound] are still counted. *)
Fixpoint count_past_bound (refused : Allocator) (index_by_item : gmap T nat) (n : nat)
    (distinct_count : N) (post_bound : gset T) (iter : list T) : IndexTooLarge :=
  match iter with
  | [] => mkIndexTooLarge distinct_count false
  | i :: iter =>
      match index_by_item !! i with
      | Some _ => count_past_bound refused index_by_item n distinct_count post_bound iter
      | None =>
          if refused n then mkIndexTooLarge distinct_count true
          else if decide (i ∈ post_bound) then
            count_past_bound refused index_by_item (S n) distinct_count post_bound iter
          else
            count_past_bound refused index_by_item (S n) (usize_saturating_add distinct_count 1)
              ({[i]} ∪ post_bound) iter
      end
  end.

(** The loop of [try_build_bounded]: it reserves once for every item it
    adds, so that the next reservation has the number of items as its own. *)
Fixpoint build_loop (refused : Allocator) (w : DenseIndexWidth) (bound : N) (iter : list T) (ix : DenseIndex)
    : result DenseIndex IndexTooLarge :=
  match iter with
  | [] => Ok ix
  | item :: iter =>
      let n := length (items ix) in
      match index_by_item ix !! item with
      | Some _ => build_loop refused w bound iter ix
      | None =>
          if (bound <=? N.of_nat n)%N then
            let distinct_count := N.of_nat (size (index_by_item ix)) in
            if refused n then Err (mkIndexTooLarge distinct_count true)
            else
              Err (count_past_bound refused (index_by_item ix) (S n)
                     (usize_saturating_add distinct_count 1) {[item]} iter)
          else if refused n then Err (mkIndexTooLarge (N.of_nat n) true)
          else
            match try_from w n with
            | None => Err (mkIndexTooLarge (N.of_nat n) false)
            | Some idx => build_loop refused w bound iter (push_item ix item idx)
            end
      end
  end.

Definition try_build_bounded (refused : Allocator) (w : DenseIndexWidth) (universe : list T) (bound : N)
    : result DenseIndex IndexTooLarge :=
  build_loop refused w bound universe (mkDenseIndex [] ∅).

Definition try_build (refused : Allocator) (w : DenseIndexWidth) (universe : list T)
    : result DenseIndex IndexTooLarge :=
  try_build_bounded refused w universe (usize_saturating_add (MAX w) 1).

(** The updated index comes with the returned one: [&mut self]. One
    reservation at most, refused when [refused] answers so for it. *)
Definition try_push (refused : Allocator) (w : DenseIndexWidth) (ix : DenseIndex) (item : T)
    : result nat IndexTooLarge * DenseIndex :=
  match index_by_item ix !! item with
  | Some idx => (Ok idx, ix)
  | None =>
      let distinct_count := N.of_nat (length (items ix)) in
      if refused 0 then (Err (mkIndexTooLarge distinct_count true), ix)
      else
        match try_from w (length (items ix)) with
        | None => (Err (mkIndexTooLarge distinct_count false), ix)
        | Some idx => (Ok idx, push_item ix item idx)
        end
  end.

(** ** The invariant *)

(** The two directions agree, no item has two indexes, and every index fits
    the width. *)
Record dense_ok (w : DenseIndexWidth) (ix : DenseIndex) : Prop := {
  dense_nodup : NoDup (items ix);
  dense_index x i : index_by_item ix !! x = Some i ↔ items ix !! i = Some x;
  dense_width i : i < length (items ix) → (N.of_nat i <= MAX w)%N
}.

(** The distinct items of a list in first-seen order. *)
Definition first_seen (l : list T) : list T := reverse (remove_dups (reverse l)).

Lemma elem_of_first_seen l x : x ∈ first_seen l ↔ x ∈ l.
Proof. unfold first_seen. by rewrite elem_of_reverse, elem_of_remove_dups, elem_of_reverse. Qed.

Lemma NoDup_first_seen l : NoDup (first_seen l).
Proof. unfold first_seen. rewrite (reverse_Permutation (remove_dups _)). apply NoDup_remove_dups. Qed.

Lemma first_seen_snoc l x : first_seen (l ++ [x]) = first_seen l ++ (if decide (x ∈ l) then [] else [x]).
Proof.
  unfold first_seen. rewrite reverse_snoc. simpl.
  destruct (decide_rel elem_of x (reverse l)) as [H1|H1], (decide (x ∈ l)) as [H2|H2];
    rewrite elem_of_reverse in H1; try done.
  - by rewrite app_nil_r.
  - by rewrite reverse_cons.
Qed.

Lemma first_seen_NoDup l : NoDup l → first_seen l = l.
Proof.
  induction l as [|x l IH] using rev_ind; [done|]. intros (Hnd & Hx & _)%NoDup_app.
  rewrite first_seen_snoc, IH, decide_False; [done| |done]. intros Hin. by apply (Hx x Hin), list_elem_of_singleton.
Qed.

Lemma first_seen_length_app l l' : length (first_seen l) ≤ length (first_seen (l ++ l')).
Proof.
  induction l' as [|x l' IH] using rev_ind; [by rewrite app_nil_r|].
  rewrite app_assoc, first_seen_snoc, length_app. lia.
Qed.

Lemma first_seen_length l : length (first_seen l) ≤ length l.
Proof.
  induction l as [|x l IH] using rev_ind; [done|].
  rewrite first_seen_snoc, !length_app. case_decide; simpl; lia.
Qed.

Lemma dense_lookup_None w ix x : dense_ok w ix → index_by_item ix !! x = None ↔ x ∉ items ix.
Proof.
  intros Hok. rewrite eq_None_not_Some. f_equiv. rewrite list_elem_of_lookup.
  apply exist_proper. intros i. by apply dense_index with w.
Qed.

Lemma dense_size w ix : dense_ok w ix → size (index_by_item ix) = length (items ix).
Proof.
  intros Hok. rewrite <-size_dom.
  assert (dom (index_by_item ix) = list_to_set (items ix)) as ->.
  { apply set_eq. intros x. rewrite elem_of_list_to_set, elem_of_dom, list_elem_of_lookup.
    apply exist_proper. intros i. by apply dense_index with w. }
  apply size_list_to_set, Hok.
Qed.

Lemma dense_ok_empty w : dense_ok w (mkDenseIndex [] ∅).
Proof. split; simpl; [constructor| |lia]. intros x i. by rewrite lookup_empty, lookup_nil. Qed.

Lemma dense_ok_push w ix x :
  dense_ok w ix → x ∉ items ix → (N.of_nat (length (items ix)) <= MAX w)%N →
  dense_ok w (push_item ix x (length (items ix))).
Proof.
  intros Hok Hx Hw. split; simpl.
  - apply NoDup_app. split_and!; [apply Hok|set_solver|apply NoDup_singleton].
  - intros y i. destruct (decide (x = y)) as [<-|Hne].
    + rewrite lookup_insert_eq. split; [intros [= <-]; by rewrite list_lookup_middle|].
      intros Hi. destruct (decide (i < length (items ix))) as [Hlt|Hge].
      * rewrite lookup_app_l in Hi by done. by apply list_elem_of_lookup_2 in Hi.
      * apply lookup_lt_Some in Hi. rewrite length_app in Hi. simpl in Hi. f_equal. lia.
    + rewrite lookup_insert_ne, (dense_index w ix Hok) by done.
      rewrite lookup_snoc_Some. split; [|naive_solver].
      intros Hi. left. split; [by eapply lookup_lt_Some|done].
  - intros i. rewrite length_app. simpl. intros Hi. lia.
Qed.

(** The count once the bound is passed, after the items [l]: the distinct
    items of everything, or of a part when a reservation is refused. *)
Lemma count_past_bound_spec refused (m : gmap T nat) n pre l l' :
  (∀ x, is_Some (m !! x) ↔ x ∈ pre) →
  (N.of_nat (length (pre ++ l ++ l')) <= USIZE_MAX)%N →
  let e := count_past_bound refused m n (N.of_nat (length (first_seen (pre ++ l))))
             (list_to_set (first_seen (pre ++ l)) ∖ list_to_set pre) l' in
  let total := N.of_nat (length (first_seen (pre ++ l ++ l'))) in
  if allocation_failed e then (distinct_count e <= total)%N ∧ ∃ k, refused k = true
  else distinct_count e = total.
Proof.
  intros Hm. revert l n. induction l' as [|x l' IH]; intros l n Hle; [by rewrite app_nil_r|].
  cbn [count_past_bound]. cbv zeta.
  assert (pre ++ l ++ x :: l' = pre ++ (l ++ [x]) ++ l') as E by (by rewrite <-!(assoc_L (++))).
  specialize (IH (l ++ [x])). rewrite E in Hle |- *.
  rewrite (app_assoc pre l [x]), first_seen_snoc in IH. cbv zeta in IH.
  destruct (m !! x) as [i|] eqn:Ex.
  { assert (x ∈ pre) by (apply Hm; by rewrite Ex). rewrite decide_True, app_nil_r in IH by set_solver. by apply IH. }
  assert (x ∉ pre) as Hx by (rewrite <-Hm, Ex; by intros [??]).
  destruct (refused n) eqn:Er.
  { simpl. split; [|by exists n]. pose proof (first_seen_length_app (pre ++ l) (x :: l')) as Hl.
    rewrite <-app_assoc, E in Hl. lia. }
  destruct (decide (x ∈ pre ++ l)) as [Hin|Hni].
  - rewrite app_nil_r in IH. rewrite decide_True; [by apply IH|]. apply elem_of_difference.
    by rewrite !elem_of_list_to_set, elem_of_first_seen.
  - rewrite decide_False by (rewrite elem_of_difference, elem_of_list_to_set, elem_of_first_seen; tauto).
    replace (usize_saturating_add _ 1) with (N.of_nat (length (first_seen (pre ++ l) ++ [x]))).
    2:{ pose proof (first_seen_length (pre ++ l)). rewrite !length_app in *. simpl in *.
        unfold usize_saturating_add. lia. }
    replace ({[x]} ∪ _) with (list_to_set (first_seen (pre ++ l) ++ [x]) ∖ list_to_set pre : gset T).
    2:{ apply set_eq. intros y. rewrite list_to_set_app. set_solver. }
    by apply IH.
Qed.

(** What the loop returns, in terms of the items seen before and after. *)
Lemma build_loop_spec refused w bound pre iter ix :
  dense_ok w ix → items ix = first_seen pre →
  (N.of_nat (length (pre ++ iter)) <= USIZE_MAX)%N →
  let all := first_seen (pre ++ iter) in
  match build_loop refused w bound iter ix with
  | Ok ix' => dense_ok w ix' ∧ items ix' = all
      ∧ (N.of_nat (length all) <= N.max bound (N.of_nat (length (items ix))))%N
  | Err e =>
      if allocation_failed e then (distinct_count e <= N.of_nat (length all))%N ∧ ∃ k, refused k = true
      else (¬ (N.of_nat (length all) <= N.min bound (MAX w + 1)))%N
        ∧ ((bound <= MAX w + 1)%N → distinct_count e = N.of_nat (length all))
        ∧ ((MAX w + 1 < bound)%N → (bound <= N.of_nat (length (items ix)))%N
             ∨ distinct_count e = (MAX w + 1)%N)
  end.
Proof.
  revert pre ix. induction iter as [|x iter IH]; intros pre ix Hok Hit Hle all; simpl.
  { unfold all. rewrite app_nil_r, Hit. split_and!; [done..|lia]. }
  assert (all = first_seen ((pre ++ [x]) ++ iter)) as Hall by (unfold all; by rewrite <-(assoc_L (++))).
  assert (N.of_nat (length ((pre ++ [x]) ++ iter)) <= USIZE_MAX)%N as Hle'
    by (by rewrite <-(assoc_L (++))).
  pose proof (first_seen_snoc pre x) as Hsnoc.
  destruct (index_by_item ix !! x) as [i|] eqn:Ex.
  { assert (x ∈ pre) as Hin.
    { rewrite <-elem_of_first_seen, <-Hit. apply (dense_index w ix Hok) in Ex.
      by eapply list_elem_of_lookup_2. }
    rewrite decide_True, app_nil_r in Hsnoc by done.
    specialize (IH (pre ++ [x]) ix Hok ltac:(congruence) Hle'). rewrite <-Hall in IH. exact IH. }
  apply (dense_lookup_None w ix x Hok) in Ex as Hni. rewrite Hit, elem_of_first_seen in Hni.
  rewrite decide_False in Hsnoc by done.
  pose proof (first_seen_length_app (pre ++ [x]) iter) as Hmono. rewrite <-Hall, Hsnoc, length_app in Hmono.
  simpl in Hmono. rewrite <-Hit in Hmono. rewrite (dense_size w ix Hok).
  destruct (N.leb_spec bound (N.of_nat (length (items ix)))) as [Hb|Hb],
    (refused (length (items ix))) eqn:Er.
  - simpl. split; [lia|by exists (length (items ix))].
  - pose proof (count_past_bound_spec refused (index_by_item ix) (S (length (items ix))) pre [x] iter) as Hc.
    cbv zeta in Hc.
    replace (usize_saturating_add _ 1) with (N.of_nat (length (first_seen (pre ++ [x])))).
    2:{ rewrite Hsnoc, Hit, length_app. simpl. pose proof (first_seen_length pre). rewrite !length_app in Hle.
        simpl in Hle. unfold usize_saturating_add. lia. }
    replace {[x]} with (list_to_set (first_seen (pre ++ [x])) ∖ list_to_set pre : gset T).
    2:{ rewrite Hsnoc. apply set_eq. intros y. rewrite list_to_set_app, elem_of_difference, elem_of_union.
        rewrite !elem_of_list_to_set, elem_of_first_seen. set_solver. }
    assert (∀ y, is_Some (index_by_item ix !! y) ↔ y ∈ pre) as Hpre.
    { intros y. rewrite <-elem_of_first_seen, <-Hit, list_elem_of_lookup.
      apply exist_proper. intros i. by apply dense_index with w. }
    specialize (Hc Hpre Hle). destruct (allocation_failed _) eqn:Ea; [exact Hc|].
    split_and!; [lia|intros _; exact Hc|intros; by left].
  - simpl. split; [lia|by exists (length (items ix))].
  - unfold try_from. destruct (N.leb_spec (N.of_nat (length (items ix))) (MAX w)) as [Hw|Hw].
    + specialize (IH (pre ++ [x]) (push_item ix x (length (items ix)))
        (dense_ok_push w ix x Hok ltac:(by rewrite Hit, elem_of_first_seen) Hw)
        ltac:(simpl; congruence) Hle').
      rewrite <-Hall in IH. simpl in IH. rewrite length_app in IH. simpl in IH.
      destruct (build_loop _ _ _ _ _) as [ix'|e].
      * destruct IH as (? & ? & ?). split_and!; [done..|lia].
      * destruct (allocation_failed e); [done|].
        destruct IH as (? & ? & Hwide). split_and!; [done..|]. intros Hlt.
        destruct (Hwide Hlt) as [|]; [lia|by right].
    + assert (length (items ix) = N.to_nat (MAX w + 1)) as Hlen.
      { destruct (length (items ix)) as [|n] eqn:El; [lia|].
        pose proof (dense_width w ix Hok n ltac:(lia)). lia. }
      simpl. split_and!; [lia..|]. intros _. right. lia.
Qed.
End dense.
Arguments DenseIndex T {_ _}.

Section dense_claims.
Context {T : Type} `{Countable T}.

Lemma try_build_bounded_spec refused w (universe : list T) bound :
  (N.of_nat (length universe) <= USIZE_MAX)%N → (bound <= MAX w + 1)%N →
  match try_build_bounded refused w universe bound with
  | Ok ix => dense_ok w ix ∧ items ix = first_seen universe
      ∧ (N.of_nat (length (first_seen universe)) <= bound)%N
  | Err e =>
      if allocation_failed e
      then (distinct_count e <= N.of_nat (length (first_seen universe)))%N ∧ ∃ k, refused k = true
      else distinct_count e = N.of_nat (length (first_seen universe))
        ∧ (bound < N.of_nat (length (first_seen universe)))%N
  end.
Proof.
  intros Hlen Hb. unfold try_build_bounded.
  pose proof (build_loop_spec refused w bound [] universe (mkDenseIndex [] ∅) (dense_ok_empty w) eq_refl Hlen)
    as Hs. simpl in Hs. destruct (build_loop _ _ _ _ _) as [ix|[n [|]]]; simpl in *; [|done|].
  - destruct Hs as (? & ? & ?). split_and!; [done..|lia].
  - destruct Hs as (? & Hn & _). rewrite Hn by done. split; [done|lia].
Qed.

(** The default bound of [try_build] loses nothing. *)
Lemma try_build_spec w (universe : list T) :
  (N.of_nat (length universe) <= USIZE_MAX)%N →
  (N.of_nat (length (first_seen universe)) <= MAX w)%N →
  ∃ ix, try_build granted w universe = Ok ix ∧ dense_ok w ix ∧ items ix = first_seen universe.
Proof.
  intros Hlen Hw. unfold try_build.
  pose proof (try_build_bounded_spec granted w universe (usize_saturating_add (MAX w) 1) Hlen) as Hs.
  unfold usize_saturating_add in *. pose proof (first_seen_length universe).
  destruct (try_build_bounded _ _ _ _) as [ix|[n [|]]]; simpl in Hs.
  - exists ix. destruct Hs as (? & ? & _); [lia|done].
  - destruct Hs as (_ & k & Hk); [lia|done].
  - destruct Hs as [_ ?]; lia.
Qed.

(** A dense index over any sequence of items, for any allocator, numbers the
    distinct items in first-seen order, both directions agreeing, and then
    they fit the bound (up to the width's number of slots, boundary included);
    an error without a refused reservation means that they exceed the bound,
    and reports how many they are; an error for a refused reservation comes
    from an allocator that refuses one and reports a part of them. *)
Theorem dense_index_bounds refused w (universe : list T) bound :
  (N.of_nat (length universe) <= USIZE_MAX)%N → (bound <= MAX w + 1)%N →
  let distinct := first_seen universe in
  match try_build_bounded refused w universe bound with
  | Ok ix => (N.of_nat (length distinct) <= bound)%N ∧ items ix = distinct
      ∧ (∀ x i, index_of ix x = Some i ↔ item_at ix i = Some x)
      ∧ (∀ x, is_Some (index_of ix x) ↔ x ∈ universe)
      ∧ (∀ x i, index_of ix x = Some i → (N.of_nat i <= MAX w)%N)
  | Err (mkIndexTooLarge n false) => (bound < N.of_nat (length distinct))%N ∧ n = N.of_nat (length distinct)
  | Err (mkIndexTooLarge n true) => (n <= N.of_nat (length distinct))%N ∧ ∃ k, refused k = true
  end.
Proof.
  intros Hlen Hb. cbv zeta. pose proof (try_build_bounded_spec refused w universe bound Hlen Hb) as Hs.
  destruct (try_build_bounded _ _ _ _) as [ix|[n [|]]]; simpl in Hs; [|done|by destruct Hs].
  destruct Hs as (Hok & Hit & Hle). unfold index_of, item_at. split_and!; [done..|apply Hok| |].
  - intros x. rewrite <-elem_of_first_seen, <-Hit, list_elem_of_lookup.
    apply exist_proper. intros i. by apply dense_index with w.
  - intros x i Hi%(dense_index w ix Hok)%lookup_lt_Some. by apply (dense_width w ix Hok).
Qed.

(** C40: appending keeps the index well formed at its width, whatever the
    outcome and the allocator: an indexed item gets its index back, even when
    memory is exhausted; a new one gets the next index when the reservation
    is granted and the width has room; otherwise the index is left unchanged
    and the error counts its items and says which of the two failed, the
    refused reservation first. *)
Theorem dense_index_push refused w (ix : DenseIndex T) x :
  dense_ok w ix →
  let '(r, ix') := try_push refused w ix x in
  dense_ok w ix' ∧
  match r with
  | Ok i => item_at ix' i = Some x ∧ index_of ix' x = Some i
      ∧ (∀ y, y ≠ x → index_of ix' y = index_of ix y)
      ∧ items ix' = items ix ++ (if decide (x ∈ items ix) then [] else [x])
      ∧ (x ∈ items ix ∨ refused 0 = false)
  | Err e => ix' = ix ∧ x ∉ items ix
      ∧ distinct_count e = N.of_nat (length (items ix))
      ∧ allocation_failed e = refused 0
      ∧ (refused 0 = false → length (items ix) = N.to_nat (MAX w + 1))
  end.
Proof.
  intros Hok. unfold try_push. destruct (index_by_item ix !! x) as [i|] eqn:Ex.
  - split; [done|]. unfold item_at, index_of. apply (dense_index w ix Hok) in Ex as Hi.
    apply list_elem_of_lookup_2 in Hi as Hin. rewrite decide_True, app_nil_r by done. auto 6.
  - apply (dense_lookup_None w ix x Hok) in Ex as Hni. destruct (refused 0) eqn:Er; [done|].
    unfold try_from. destruct (N.leb_spec (N.of_nat (length (items ix))) (MAX w)) as [Hw|Hw].
    + split; [by apply dense_ok_push|]. unfold item_at, index_of. simpl.
      rewrite lookup_insert_eq, decide_False, list_lookup_middle by done.
      split_and!; [done..| |done|by right]. intros y Hy. by rewrite lookup_insert_ne.
    + split; [done|]. split_and!; [done..|]. intros _.
      destruct (length (items ix)) as [|n] eqn:El; [lia|].
      pose proof (dense_width w ix Hok n ltac:(lia)). lia.
Qed.
End dense_claims.

(** ** Examples *)

(** The second reservation of a call is refused. *)
Definition second_refused : Allocator := λ n, Nat.eqb n 1.

Lemma dense_index_bounds_witness :
  (2 < N.of_nat (length (first_seen [1; 2; 3; 2; 4; 4])))%N
  ∧ (try_build_bounded granted Idx_u8 [7; 3; 7; 9; 3] 3 = Ok (mkDenseIndex [7; 3; 9] {[7 := 0; 3 := 1; 9 := 2]})
     ∧ (N.of_nat (length (first_seen [7; 3; 7; 9; 3])) <= 3)%N)
  ∧ (try_build_bounded second_refused Idx_u8 [7; 3; 9] 3 = Err (mkIndexTooLarge 1 true) ∧ ∃ k, second_refused k = true).
Proof.
  pose proof (dense_index_bounds granted Idx_u32 [1; 2; 3; 2; 4; 4] 2 ltac:(vm_compute; discriminate)
    ltac:(vm_compute; discriminate)) as H1.
  pose proof (dense_index_bounds granted Idx_u8 [7; 3; 7; 9; 3] 3 ltac:(vm_compute; discriminate)
    ltac:(vm_compute; discriminate)) as H2.
  pose proof (dense_index_bounds second_refused Idx_u8 [7; 3; 9] 3 ltac:(vm_compute; discriminate)
    ltac:(vm_compute; discriminate)) as H3.
  split; [exact (proj1 H1)|]. split; (split; [by vm_compute|]); [exact (proj1 H2)|exact (proj2 H3)].
Defined.

Lemma dense_index_push_witness :
  dense_ok Idx_u8 (try_push granted Idx_u8 (mkDenseIndex [] ∅) 7).2
  ∧ (try_push (λ _, true) Idx_u8 (mkDenseIndex [] ∅) 7).2 = mkDenseIndex [] ∅.
Proof.
  split; [exact (proj1 (dense_index_push granted Idx_u8 (mkDenseIndex [] ∅) 7 (dense_ok_empty Idx_u8)))|].
  exact (proj1 (proj2 (dense_index_push (λ _, true) Idx_u8 (mkDenseIndex [] ∅) 7 (dense_ok_empty Idx_u8)))).
Defined.
