(* ===== verification/EventTypes.v ===== *)
(** * Matrix event types and field names ([src/src/basespec/event_types.rs])

    The wire constants, the interned [EventType] with its conversions, and the
    keys of the room-state maps.  [EventType]'s [Eq], [Ord] and [Hash] are all
    defined through [as_str], so a state map keyed by [(EventType, K)] is
    modelled as a map keyed by the pair of wire strings [key_of]. *)
From S2P Require Import Prelude.
From stdpp Require Import prelude gmap strings.
From Stdlib Require String.

Definition M_ROOM_MEMBER : string := "m.room.member".
Definition M_ROOM_POWER_LEVELS : string := "m.room.power_levels".
Definition M_ROOM_JOIN_RULES : string := "m.room.join_rules".
Definition M_ROOM_CREATE : string := "m.room.create".
Definition M_ROOM_THIRD_PARTY_INVITE : string := "m.room.third_party_invite".
Definition M_ROOM_NAME : string := "m.room.name".
Definition M_ROOM_TOPIC : string := "m.room.topic".
Definition M_ROOM_AVATAR : string := "m.room.avatar".
Definition M_ROOM_CANONICAL_ALIAS : string := "m.room.canonical_alias".
Definition M_ROOM_HISTORY_VISIBILITY : string := "m.room.history_visibility".
Definition M_ROOM_GUEST_ACCESS : string := "m.room.guest_access".
Definition M_ROOM_SERVER_ACL : string := "m.room.server_acl".
Definition M_ROOM_TOMBSTONE : string := "m.room.tombstone".
Definition M_ROOM_ENCRYPTION : string := "m.room.encryption".
Definition M_ROOM_PINNED_EVENTS : string := "m.room.pinned_events".
Definition M_ROOM_MESSAGE : string := "m.room.message".
Definition M_ROOM_REDACTION : string := "m.room.redaction".
Definition M_SPACE_CHILD : string := "m.space.child".
Definition M_SPACE_PARENT : string := "m.space.parent".
Definition M_ROOM_ALIASES : string := "m.room.aliases".

Definition M_EMPTY_STATE_KEY : string := "".

(** JSON field keys. *)
Definition FIELD_MEMBERSHIP : string := "membership".
Definition FIELD_USERS : string := "users".
Definition FIELD_USERS_DEFAULT : string := "users_default".
Definition FIELD_EVENTS : string := "events".
Definition FIELD_EVENTS_DEFAULT : string := "events_default".
Definition FIELD_STATE_DEFAULT : string := "state_default".
Definition FIELD_BAN : string := "ban".
Definition FIELD_KICK : string := "kick".
Definition FIELD_INVITE : string := "invite".
Definition FIELD_REDACT : string := "redact".
Definition FIELD_JOIN_RULE : string := "join_rule".
Definition FIELD_CREATOR : string := "creator".
Definition FIELD_ROOM_VERSION : string := "room_version".
Definition FIELD_REDACTS : string := "redacts".
Definition FIELD_ADDITIONAL_CREATORS : string := "additional_creators".
Definition FIELD_THIRD_PARTY_INVITE : string := "third_party_invite".
Definition FIELD_SIGNED : string := "signed".
Definition FIELD_TOKEN : string := "token".
Definition FIELD_JOIN_AUTHORISED_VIA_USERS_SERVER : string := "join_authorised_via_users_server".
Definition FIELD_MXID : string := "mxid".
Definition FIELD_SIGNATURES : string := "signatures".
Definition FIELD_HASHES : string := "hashes".
Definition FIELD_NOTIFICATIONS : string := "notifications".
Definition FIELD_EVENT_ID : string := "event_id".
Definition FIELD_TYPE : string := "type".
Definition FIELD_STATE_KEY : string := "state_key".
Definition FIELD_ORIGIN_SERVER_TS : string := "origin_server_ts".
Definition FIELD_SENDER : string := "sender".
Definition FIELD_CONTENT : string := "content".
Definition FIELD_PREV_EVENTS : string := "prev_events".
Definition FIELD_AUTH_EVENTS : string := "auth_events".
Definition FIELD_DEPTH : string := "depth".
Definition MAX_PREV_STATE_EVENTS : nat := 20.

(** Membership and join-rule values. *)
Definition MEM_JOIN : string := "join".
Definition MEM_LEAVE : string := "leave".
Definition MEM_INVITE : string := "invite".
Definition MEM_BAN : string := "ban".
Definition MEM_KNOCK : string := "knock".
Definition RULE_PUBLIC : string := "public".
Definition RULE_INVITE : string := "invite".
Definition RULE_KNOCK : string := "knock".
Definition RULE_RESTRICTED : string := "restricted".
Definition RULE_KNOCK_RESTRICTED : string := "knock_restricted".

(** Default power levels and the two maxima. *)
Definition DEFAULT_PL_INVITE : Z := 0.
Definition DEFAULT_PL_KICK : Z := 50.
Definition DEFAULT_PL_BAN : Z := 50.
Definition DEFAULT_PL_REDACT : Z := 50.
Definition DEFAULT_PL_USER : Z := 0.
Definition MAX_POWER_LEVEL_JSON : Z := 9007199254740991.
Definition MAX_POWER_LEVEL_RUST : Z := I64_MAX.

Inductive EventType : Type :=
| RoomCreate | RoomMember | RoomPowerLevels | RoomJoinRules | RoomThirdPartyInvite
| RoomName | RoomTopic | RoomAvatar | RoomCanonicalAlias | RoomHistoryVisibility
| RoomGuestAccess | RoomServerAcl | RoomTombstone | RoomEncryption | RoomPinnedEvents
| RoomMessage | RoomRedaction | RoomAliases | SpaceChild | SpaceParent
| Custom (s : string).

Definition as_str (t : EventType) : string :=
  match t with
  | RoomCreate => M_ROOM_CREATE
  | RoomMember => M_ROOM_MEMBER
  | RoomPowerLevels => M_ROOM_POWER_LEVELS
  | RoomJoinRules => M_ROOM_JOIN_RULES
  | RoomThirdPartyInvite => M_ROOM_THIRD_PARTY_INVITE
  | RoomName => M_ROOM_NAME
  | RoomTopic => M_ROOM_TOPIC
  | RoomAvatar => M_ROOM_AVATAR
  | RoomCanonicalAlias => M_ROOM_CANONICAL_ALIAS
  | RoomHistoryVisibility => M_ROOM_HISTORY_VISIBILITY
  | RoomGuestAccess => M_ROOM_GUEST_ACCESS
  | RoomServerAcl => M_ROOM_SERVER_ACL
  | RoomTombstone => M_ROOM_TOMBSTONE
  | RoomEncryption => M_ROOM_ENCRYPTION
  | RoomPinnedEvents => M_ROOM_PINNED_EVENTS
  | RoomMessage => M_ROOM_MESSAGE
  | RoomRedaction => M_ROOM_REDACTION
  | RoomAliases => M_ROOM_ALIASES
  | SpaceChild => M_SPACE_CHILD
  | SpaceParent => M_SPACE_PARENT
  | Custom s => s
  end.

(** The interning table of [from_known_str], in the order of its arms. *)
Definition known_types : list EventType :=
  [ RoomCreate; RoomMember; RoomPowerLevels; RoomJoinRules; RoomThirdPartyInvite;
    RoomName; RoomTopic; RoomAvatar; RoomCanonicalAlias; RoomHistoryVisibility;
    RoomGuestAccess; RoomServerAcl; RoomTombstone; RoomEncryption; RoomPinnedEvents;
    RoomMessage; RoomRedaction; RoomAliases; SpaceChild; SpaceParent ].

Definition from_known_str (s : string) : option EventType :=
  find (λ t, String.eqb s (as_str t)) known_types.

(** [impl From<&str> for EventType]. *)
Definition EventType_from (s : string) : EventType :=
  match from_known_str s with Some t => t | None => Custom s end.

(** [impl PartialEq] and [impl Ord], both through [as_str]. *)
Definition EventType_eqb (a b : EventType) : bool := String.eqb (as_str a) (as_str b).
Definition EventType_cmp (a b : EventType) : comparison :=
  String.compare (as_str a) (as_str b).

(** The key of a room-state map: [(EventType, K)] up to [EventType]'s own
    equality. *)
Definition key_of (t : EventType) (sk : string) : string * string := (as_str t, sk).

Lemma from_known_str_Some s t : from_known_str s = Some t → as_str t = s.
Proof.
  unfold from_known_str. intros [_ E]%find_some. apply String.eqb_eq in E. done.
Qed.

Lemma as_str_from s : as_str (EventType_from s) = s.
Proof.
  unfold EventType_from. destruct (from_known_str s) eqn:E; [|done].
  by apply from_known_str_Some.
Qed.

#[export] Hint Rewrite as_str_from : rezzy.

Lemma key_of_from s sk : key_of (EventType_from s) sk = (s, sk).
Proof. unfold key_of. by rewrite as_str_from. Qed.
