(* ===== verification/Json.v ===== *)
(** * Owned JSON values ([src/rezzy-json/src/lib.rs])

    [Value], [Number] and [Object] with the accessors the resolution engine
    uses.  An [Object] is a [BTreeMap<String, Value>]: an association list
    sorted by key.  A [Number] keeps its literal as a string, as the code does,
    and its integer accessors are Rust's [str::parse]. *)
From S2P Require Import Prelude.
From stdpp Require Import prelude strings sorting.
From Stdlib Require String.
From Stdlib Require Import Ascii.

Inductive value : Type :=
| Null
| Bool (b : bool)
| Number (n : string)
| VString (s : string)
| Array (items : list value)
| Object (members : list (string * value)).

Abbreviation object := (list (string * value)).

(** ** Induction through the nested lists *)

Section value_ind.
Context (P : value → Prop).
Context (HNull : P Null) (HBool : ∀ b, P (Bool b)) (HNum : ∀ n, P (Number n))
  (HStr : ∀ s, P (VString s)) (HArr : ∀ l, Forall P l → P (Array l))
  (HObj : ∀ o : object, Forall (λ kv, P kv.2) o → P (Object o)).

Fixpoint value_rect_nested (v : value) : P v :=
  match v with
  | Null => HNull
  | Bool b => HBool b
  | Number n => HNum n
  | VString s => HStr s
  | Array l =>
      HArr l ((fix go (l : list value) : Forall P l :=
                 match l with
                 | [] => Forall_nil_2 _
                 | x :: l' => Forall_cons_2 _ _ _ (value_rect_nested x) (go l')
                 end) l)
  | Object o =>
      HObj o ((fix go (o : object) : Forall (λ kv, P kv.2) o :=
                 match o with
                 | [] => Forall_nil_2 _
                 | (k, x) :: o' =>
                     Forall_cons_2 (λ kv, P kv.2) (k, x) o' (value_rect_nested x) (go o')
                 end) o)
  end.
End value_ind.

(** ** Equality ([#[derive(PartialEq)]]) *)

Fixpoint value_eqb (a b : value) {struct a} : bool :=
  match a, b with
  | Null, Null => true
  | Bool x, Bool y => Bool.eqb x y
  | Number x, Number y => String.eqb x y
  | VString x, VString y => String.eqb x y
  | Array l, Array r =>
      (fix go (l r : list value) : bool :=
         match l, r with
         | [], [] => true
         | x :: l', y :: r' => value_eqb x y && go l' r'
         | _, _ => false
         end) l r
  | Object l, Object r =>
      (fix go (l r : object) : bool :=
         match l, r with
         | [], [] => true
         | (k, x) :: l', (k', y) :: r' => String.eqb k k' && value_eqb x y && go l' r'
         | _, _ => false
         end) l r
  | _, _ => false
  end.

Lemma value_eqb_eq a b : value_eqb a b = true ↔ a = b.
Proof.
  revert b. induction a as [| | | |l IH|o IH] using value_rect_nested; intros c;
    destruct c as [| b'|n'|s'|l'|o']; simpl; try done.
  - rewrite Bool.eqb_true_iff. naive_solver.
  - rewrite String.eqb_eq. naive_solver.
  - rewrite String.eqb_eq. naive_solver.
  - trans (l = l'); [|naive_solver].
    revert l'. induction IH as [|x l Hx _ IH]; intros [|y l']; try done.
    rewrite andb_true_iff, Hx, IH. naive_solver.
  - trans (o = o'); [|naive_solver].
    revert o'. induction IH as [|[k x] o Hx _ IH]; intros [|[k' y] o']; try done.
    simpl in Hx. rewrite !andb_true_iff, Hx, IH, String.eqb_eq. naive_solver.
Qed.

Global Instance value_eq_dec : EqDecision value.
Proof.
  intros a b. destruct (value_eqb a b) eqn:E.
  - left. by apply value_eqb_eq.
  - right. intros H%value_eqb_eq. congruence.
Defined.

(** ** [BTreeMap<String, Value>] *)

Fixpoint obj_get (o : object) (k : string) : option value :=
  match o with
  | [] => None
  | (k', v) :: o' => if String.eqb k k' then Some v else obj_get o' k
  end.

Fixpoint obj_insert (k : string) (v : value) (o : object) : object :=
  match o with
  | [] => [(k, v)]
  | (k', v') :: o' =>
      match String.compare k k' with
      | Lt => (k, v) :: o
      | Eq => (k, v) :: o'
      | Gt => (k', v') :: obj_insert k v o'
      end
  end.

Definition obj_contains_key (o : object) (k : string) : bool :=
  match obj_get o k with Some _ => true | None => false end.

(** The representation invariant: strictly ascending keys. *)
Definition obj_sorted (o : object) : Prop :=
  StronglySorted (λ a b, String.compare a.1 b.1 = Lt) o.

(** ** Accessors of [Value] *)

Definition vget (v : value) (k : string) : option value :=
  match v with Object o => obj_get o k | _ => None end.
Definition as_object (v : value) : option object :=
  match v with Object o => Some o | _ => None end.
Definition as_array (v : value) : option (list value) :=
  match v with Array l => Some l | _ => None end.
Definition as_bool (v : value) : option bool :=
  match v with Bool b => Some b | _ => None end.
Definition as_string (v : value) : option string :=
  match v with VString s => Some s | _ => None end.

(** ** Numbers *)

Definition digit (c : Ascii.ascii) : option Z :=
  let n := Z.of_N (Ascii.N_of_ascii c) in
  if ((48 <=? n) && (n <=? 57))%Z then Some (n - 48)%Z else None.

Fixpoint digits_from (acc : Z) (s : string) : option Z :=
  match s with
  | String.EmptyString => Some acc
  | String.String c s' =>
      match digit c with Some d => digits_from (acc * 10 + d) s' | None => None end
  end.

(** A non-empty run of decimal digits. *)
Definition parse_digits (s : string) : option Z :=
  match s with String.EmptyString => None | _ => digits_from 0 s end.

Definition in_range (lo hi : Z) (o : option Z) : option Z :=
  match o with
  | Some z => if ((lo <=? z) && (z <=? hi))%Z then Some z else None
  | None => None
  end.

(** [str::parse::<uN>]: an optional [+], digits, in range. *)
Definition parse_unsigned (hi : Z) (s : string) : option Z :=
  in_range 0 hi
    (match s with
     | String.String "+"%char s' => parse_digits s'
     | _ => parse_digits s
     end).

(** [str::parse::<iN>]: an optional sign, digits, in range. *)
Definition parse_signed (lo hi : Z) (s : string) : option Z :=
  in_range lo hi
    (match s with
     | String.String "+"%char s' => parse_digits s'
     | String.String "-"%char s' =>
         match parse_digits s' with Some z => Some (- z)%Z | None => None end
     | _ => parse_digits s
     end).

Definition parse_u32 (s : string) : option Z := parse_unsigned U32_MAX s.
Definition parse_u64 (s : string) : option Z := parse_unsigned U64_MAX s.
Definition parse_i64 (s : string) : option Z := parse_signed I64_MIN I64_MAX s.

Definition as_i64 (v : value) : option Z :=
  match v with Number n => parse_i64 n | _ => None end.
Definition as_u64 (v : value) : option Z :=
  match v with Number n => parse_u64 n | _ => None end.
Definition value_is_i64 (v : value) : bool :=
  match as_i64 v with Some _ => true | None => false end.
Definition value_is_u64 (v : value) : bool :=
  match as_u64 v with Some _ => true | None => false end.

(** ** Floats

    The engine reads a float only through [f64::trunc].  [f64_trunc] is the
    integer [n.parse::<f64>()?.trunc()] denotes, for the decimal literals a
    [Number] can hold: the literal is rounded to the nearest double (ties to
    even) and truncated toward zero; [None] when the double is not finite. *)

Fixpoint take_digits (acc cnt : Z) (s : string) : Z * Z * string :=
  match s with
  | String.String c s' =>
      match digit c with
      | Some d => take_digits (acc * 10 + d) (cnt + 1) s'
      | None => (acc, cnt, s)
      end
  | String.EmptyString => (acc, cnt, s)
  end.

Definition split_sign (s : string) : bool * string :=
  match s with
  | String.String "-"%char s' => (true, s')
  | String.String "+"%char s' => (false, s')
  | _ => (false, s)
  end.

(** Sign, mantissa and decimal exponent of a literal. *)
Definition parse_decimal (s : string) : option (bool * Z * Z) :=
  let '(neg, s1) := split_sign s in
  let '(ip, n1, s2) := take_digits 0 0 s1 in
  let '(m, n2, s3) := match s2 with
                      | String.String "."%char s' => take_digits ip 0 s'
                      | _ => (ip, 0%Z, s2)
                      end in
  if (n1 + n2 =? 0)%Z then None
  else
    match s3 with
    | String.EmptyString => Some (neg, m, - n2)%Z
    | String.String "e"%char s' | String.String "E"%char s' =>
        let '(eneg, s4) := split_sign s' in
        match parse_digits s4 with
        | Some e => Some (neg, m, (if eneg then - e else e) - n2)%Z
        | None => None
        end
    | _ => None
    end.

(** [num / den] rounded to an integer, ties to even. *)
Definition round_half_even (num den : Z) : Z :=
  let q := (num / den)%Z in
  let r := (num mod den)%Z in
  match (2 * r ?= den)%Z with
  | Lt => q
  | Gt => (q + 1)%Z
  | Eq => if Z.even q then q else (q + 1)%Z
  end.

(** Truncation of the double nearest to the positive rational [num / den]. *)
Definition f64_trunc_pos (num den : Z) : option Z :=
  let k0 := (Z.log2 num - Z.log2 den - 53)%Z in
  let scale k := if (k <=? 0)%Z then (num * 2 ^ (- k), den)%Z else (num, den * 2 ^ k)%Z in
  let '(n0, d0) := scale k0 in
  let k := if (d0 * 2 ^ 53 <=? n0)%Z then (k0 + 1)%Z else k0 in
  let '(n1, d1) := scale k in
  let m := round_half_even n1 d1 in
  let t := if (k <=? 0)%Z then (m / 2 ^ (- k))%Z else (m * 2 ^ k)%Z in
  if (t <? 2 ^ 1024)%Z then Some t else None.

Definition f64_trunc (s : string) : option Z :=
  match parse_decimal s with
  | None => None
  | Some (neg, m, e) =>
      let t :=
        if (m =? 0)%Z then Some 0%Z
        else if (400 <? e)%Z then None
        else if (e + Z.log2 m <? -10)%Z then Some 0%Z
        else if (0 <=? e)%Z then f64_trunc_pos (m * 10 ^ e) 1
        else f64_trunc_pos m (10 ^ (- e)) in
      if neg then match t with Some z => Some (- z)%Z | None => None end else t
  end.

Definition as_f64_trunc (v : value) : option Z :=
  match v with Number n => f64_trunc n | _ => None end.

Example f64_trunc_examples :
  map f64_trunc ["50.0"; "49.9"; "-3.7"; "1e2"; "49.9999999999999999"; "1e400"; "9007199254740993.0"]
  = [Some 50; Some 49; Some (-3); Some 100; Some 50; None; Some 9007199254740992]%Z.
Proof. vm_compute. reflexivity. Qed.

(** ** Lemmas *)

Lemma obj_get_insert_eq o k v : obj_get (obj_insert k v o) k = Some v.
Proof.
  induction o as [|[k' v'] o IH]; simpl; [by rewrite String.eqb_refl|].
  destruct (String.compare k k') eqn:E; simpl; rewrite ?String.eqb_refl; try done.
  destruct (String.eqb_spec k k') as [->|]; [|done].
  by rewrite (cmp_refl String.compare) in E.
Qed.

Lemma obj_get_insert_ne o k k' v : k ≠ k' → obj_get (obj_insert k v o) k' = obj_get o k'.
Proof.
  intros Hne. induction o as [|[k1 v1] o IH]; simpl.
  { destruct (String.eqb_spec k' k); congruence. }
  destruct (String.compare k k1) eqn:E; simpl.
  - apply (cmp_eq String.compare) in E as ->. destruct (String.eqb_spec k' k1); congruence.
  - destruct (String.eqb_spec k' k); congruence.
  - by rewrite IH.
Qed.

Lemma obj_get_In o k v : obj_get o k = Some v → (k, v) ∈ o.
Proof.
  induction o as [|[k' v'] o IH]; simpl; [done|].
  destruct (String.eqb_spec k k') as [->|]; intros H; simplify_eq; set_solver.
Qed.

Lemma obj_insert_sorted o k v : obj_sorted o → obj_sorted (obj_insert k v o).
Proof.
  unfold obj_sorted. induction 1 as [|[k' v'] o Hs IH Hall]; simpl; [repeat constructor|].
  destruct (String.compare k k') eqn:E.
  - apply (cmp_eq String.compare) in E as ->. by constructor.
  - constructor; [by constructor|]. constructor; [done|].
    eapply Forall_impl; [exact Hall|]. intros x. simpl. by apply (cmp_lt_trans String.compare).
  - constructor; [done|]. clear IH Hs. apply (cmp_lt_gt String.compare) in E.
    induction Hall as [|[k1 v1] o H1 Hall IH]; simpl; [by constructor|].
    case_match; repeat constructor; try done.
Qed.

Lemma obj_sorted_get o k v : obj_sorted o → (k, v) ∈ o → obj_get o k = Some v.
Proof.
  unfold obj_sorted. induction 1 as [|[k' v'] o Hs IH Hall]; [set_solver|].
  intros [[= -> ->]|Hin]%elem_of_cons; simpl; [by rewrite String.eqb_refl|].
  destruct (String.eqb_spec k k') as [->|]; [|by apply IH].
  rewrite Forall_forall in Hall. specialize (Hall _ Hin). simpl in Hall.
  by rewrite (cmp_refl String.compare) in Hall.
Qed.

Lemma obj_get_lt o k : obj_sorted o → Forall (λ kv, String.compare k kv.1 = Lt) o → obj_get o k = None.
Proof.
  intros _. induction 1 as [|[k' v] o Hk _ IH]; simpl in *; [done|].
  destruct (String.eqb_spec k k') as [->|]; [|done]. by rewrite (cmp_refl String.compare) in Hk.
Qed.

Lemma obj_ext o1 o2 :
  obj_sorted o1 → obj_sorted o2 → (∀ k, obj_get o1 k = obj_get o2 k) → o1 = o2.
Proof.
  intros H1. revert o2. induction H1 as [|[k1 v1] o1 Hs1 IH Hl1]; intros o2 H2 Hg.
  - destruct o2 as [|[k v] o2]; [done|]. specialize (Hg k). simpl in Hg.
    by rewrite String.eqb_refl in Hg.
  - destruct H2 as [|[k2 v2] o2 Hs2 Hl2].
    { specialize (Hg k1). simpl in Hg. by rewrite String.eqb_refl in Hg. }
    pose proof (obj_get_lt _ _ Hs1 Hl1) as Hn1. pose proof (obj_get_lt _ _ Hs2 Hl2) as Hn2.
    simpl in Hn1, Hn2. assert (k1 = k2) as <-.
    { destruct (String.compare k1 k2) eqn:E; [by apply (cmp_eq String.compare) in E| |].
      - assert (obj_get ((k2, v2) :: o2) k1 = None) as Hx.
        { apply obj_get_lt; [by constructor|]. constructor; [done|].
          eapply Forall_impl; [exact Hl2|]. intros x Hx. by eapply (cmp_lt_trans String.compare). }
        rewrite <-Hg in Hx. simpl in Hx. by rewrite String.eqb_refl in Hx.
      - apply (cmp_lt_gt String.compare) in E. assert (obj_get ((k1, v1) :: o1) k2 = None) as Hx.
        { apply obj_get_lt; [by constructor|]. constructor; [done|].
          eapply Forall_impl; [exact Hl1|]. intros x Hx. by eapply (cmp_lt_trans String.compare). }
        rewrite Hg in Hx. simpl in Hx. by rewrite String.eqb_refl in Hx. }
    pose proof (Hg k1) as Hv. simpl in Hv. rewrite String.eqb_refl in Hv. simplify_eq.
    f_equal. apply (IH _ Hs2). intros k'. pose proof (Hg k') as Hk'. simpl in Hk'.
    destruct (String.eqb_spec k' k1) as [Hk1|]; [|done].
    rewrite Hk1. by rewrite Hn1, Hn2.
Qed.
