(* ===== verification/JsonText.v ===== *)
(** * JSON text: bytes, UTF-8, escapes and number literals ([src/rezzy-json/src/lib.rs])

    The lexical layer below the parser, the writers and the tokenizer.  A [u8]
    is an [ascii], a byte slice a list of them, and a [str] a [string] whose bytes
    are valid UTF-8.  [Number::parse] renders floats with the [ryu] crate,
    which is a parameter here with its documented behaviour as the class
    [RyuFormat]. *)
From stdpp Require Import prelude strings.
From Stdlib Require String.
From Stdlib Require Import Ascii.
From S2P Require Import Prelude Json.

Local Open Scope N_scope.

Abbreviation bytes := (list ascii).

Definition code (b : ascii) : N := N_of_ascii b.
Definition as_bytes (s : string) : bytes := String.list_ascii_of_string s.
Definition of_bytes (b : bytes) : string := String.string_of_list_ascii b.

Infix "=b" := Ascii.eqb (at level 70, no associativity) : rezzy_scope.

(** [lo..=hi] on a byte. *)
Definition between (lo hi : N) (b : ascii) : bool := (lo <=? code b) && (code b <=? hi).

(** ** Byte classes of [u8] and [char] *)

(** [u8::is_ascii_whitespace]: space, tab, line feed, form feed, carriage return. *)
Definition is_ascii_whitespace (b : ascii) : bool :=
  (b =b " ") || (b =b "009") || (b =b "010") || (b =b "012") || (b =b "013").
Definition is_ascii_digit (b : ascii) : bool := between 48 57 b.

(** [char::to_digit(16)]. *)
Definition to_digit_16 (b : ascii) : option N :=
  if between 48 57 b then Some (code b - 48)
  else if between 97 102 b then Some (code b - 87)
  else if between 65 70 b then Some (code b - 55)
  else None.
Definition is_ascii_hexdigit (b : ascii) : bool :=
  match to_digit_16 b with Some _ => true | None => false end.

(** ** UTF-8: [core::str::from_utf8] and [String::push] *)

Definition continuation : ascii → bool := between 128 191.

(** The bytes allowed after the first byte of a three- or four-byte sequence. *)
Definition second_of_three (b0 b1 : ascii) : bool :=
  if code b0 =? 224 then between 160 191 b1
  else if code b0 =? 237 then between 128 159 b1
  else between 128 191 b1.
Definition second_of_four (b0 b1 : ascii) : bool :=
  if code b0 =? 240 then between 144 191 b1
  else if code b0 =? 244 then between 128 143 b1
  else between 128 191 b1.

Fixpoint utf8_valid (b : bytes) : bool :=
  match b with
  | [] => true
  | b0 :: r0 =>
      if code b0 <? 128 then utf8_valid r0
      else if between 194 223 b0 then
        match r0 with b1 :: r => continuation b1 && utf8_valid r | _ => false end
      else if between 224 239 b0 then
        match r0 with
        | b1 :: b2 :: r => second_of_three b0 b1 && continuation b2 && utf8_valid r
        | _ => false
        end
      else if between 240 244 b0 then
        match r0 with
        | b1 :: b2 :: b3 :: r =>
            second_of_four b0 b1 && continuation b2 && continuation b3 && utf8_valid r
        | _ => false
        end
      else false
  end.

Definition from_utf8 (b : bytes) : option string :=
  if utf8_valid b then Some (of_bytes b) else None.

(** [char::from_u32]: a Unicode scalar value. *)
Definition from_u32 (n : N) : option N :=
  if (n <? 55296) || ((57344 <=? n) && (n <=? 1114111)) then Some n else None.

Definition tail_byte (n : N) : ascii := ascii_of_N (128 + n mod 64).

(** [String::push] appends the UTF-8 encoding of a [char]. *)
Definition encode_utf8 (c : N) : bytes :=
  if c <? 128 then [ascii_of_N c]
  else if c <? 2048 then [ascii_of_N (192 + c / 64); tail_byte c]
  else if c <? 65536 then [ascii_of_N (224 + c / 4096); tail_byte (c / 64); tail_byte c]
  else [ascii_of_N (240 + c / 262144); tail_byte (c / 4096); tail_byte (c / 64); tail_byte c].

(** ** Escapes *)

Definition simple_escape (escape : ascii) : option N :=
  if escape =b "034" then Some 34
  else if escape =b "\" then Some 92
  else if escape =b "/" then Some 47
  else if escape =b "b" then Some 8
  else if escape =b "f" then Some 12
  else if escape =b "n" then Some 10
  else if escape =b "r" then Some 13
  else if escape =b "t" then Some 9
  else None.

Definition HEX : bytes := as_bytes "0123456789abcdef".
Definition hex_char (n : N) : ascii := default "0"%char (HEX !! N.to_nat n).

Definition push_escape (b : ascii) : bytes :=
  if b =b "034" then ["\"; "034"]%char
  else if b =b "\" then ["\"; "\"]%char
  else if code b =? 8 then ["\"; "b"]%char
  else if code b =? 12 then ["\"; "f"]%char
  else if code b =? 10 then ["\"; "n"]%char
  else if code b =? 13 then ["\"; "r"]%char
  else if code b =? 9 then ["\"; "t"]%char
  else ["\"; "u"; "0"; "0"; hex_char (N.shiftr (code b) 4); hex_char (N.land (code b) 15)]%char.

(** ** Decimal text of integers: [to_string] *)

Fixpoint dec_loop (fuel : nat) (n : N) (acc : bytes) : bytes :=
  match fuel with
  | O => acc
  | S fuel =>
      let acc := ascii_of_N (48 + n mod 10) :: acc in
      if n / 10 =? 0 then acc else dec_loop fuel (n / 10) acc
  end.
Definition dec (n : N) : bytes := dec_loop (S (N.size_nat n)) n [].
Definition int_to_string (z : Z) : string :=
  of_bytes (if (z <? 0)%Z then "-"%char :: dec (Z.to_N (- z)) else dec (Z.to_N z)).

(** ** Canonical integers *)

Definition MAX_SAFE_INTEGER : Z := 2 ^ 53 - 1.
Definition MIN_SAFE_INTEGER : Z := - (2 ^ 53 - 1).

Definition is_float_byte (b : ascii) : bool := (b =b ".") || (b =b "e") || (b =b "E").

Definition is_canonical_integer_str (value : string) : bool :=
  let digits := match as_bytes value with
                | c :: r => if c =b "-" then r else as_bytes value
                | [] => []
                end in
  if match digits with [] => true | c :: _ => negb (of_bytes digits ==s "0") && (c =b "0") end
     || (value ==s "-0") || existsb is_float_byte (as_bytes value) then false
  else
    match parse_i64 value with
    | Some number => ((MIN_SAFE_INTEGER <=? number) && (number <=? MAX_SAFE_INTEGER))%Z
    | None => false
    end
    || match parse_u64 value with
       | Some number => (number <=? MAX_SAFE_INTEGER)%Z
       | None => false
       end.

(** ** The number grammar *)

(** The length of the longest prefix of bytes that satisfy [p]: a
    [while p(input[pos]) { pos += 1 }] loop advances [pos] by it. *)
Fixpoint count_while (p : ascii → bool) (b : bytes) : nat :=
  match b with
  | c :: r => if p c then S (count_while p r) else O
  | [] => O
  end.

(** [b.get(i) == Some(&c)]. *)
Definition byte_is (b : bytes) (i : nat) (p : ascii → bool) : bool :=
  match b !! i with Some x => p x | None => false end.

Section valid_number.
Context (b : bytes).
Local Open Scope nat_scope.

Definition digits_end (i : nat) : nat := i + count_while is_ascii_digit (drop i b).

Definition valid_exponent (i : nat) : bool :=
  if byte_is b i (λ c, (c =b "e") || (c =b "E")) then
    let i := i + 1 in
    let i := if byte_is b i (λ c, (c =b "+") || (c =b "-")) then i + 1 else i in
    if digits_end i =? i then false else digits_end i =? length b
  else i =? length b.

Definition valid_fraction (i : nat) : bool :=
  if byte_is b i (Ascii.eqb ".") then
    let i := i + 1 in
    if digits_end i =? i then false else valid_exponent (digits_end i)
  else valid_exponent i.

Definition valid_number : bool :=
  let i := if byte_is b 0 (Ascii.eqb "-") then 1 else 0 in
  if byte_is b i (Ascii.eqb "0") then valid_fraction (i + 1)
  else if byte_is b i (between 49 57) then valid_fraction (digits_end (i + 1))
  else false.
End valid_number.

(** ** [f64] and [Number::parse] *)

(** A double: [(-1)^neg * m * 2^e], or an infinity. *)
Inductive f64 : Type :=
| Finite (neg : bool) (m e : Z)
| Infinite (neg : bool).

Definition is_finite (x : f64) : bool :=
  match x with Finite _ _ _ => true | Infinite _ => false end.

(** The unique representation of a finite double. *)
Definition f64_canonical (m e : Z) : Prop :=
  (0 ≤ m < 2 ^ 53 ∧ -1074 ≤ e ≤ 971 ∧ (2 ^ 52 ≤ m ∨ e = -1074))%Z.

(** [⌊log2 (num / den)⌋] for positive arguments. *)
Definition log2_ratio (num den : Z) : Z :=
  let k := (Z.log2 num - Z.log2 den)%Z in
  if (if (0 <=? k)%Z then (den * 2 ^ k <=? num)%Z else (den <=? num * 2 ^ (- k))%Z)
  then k else (k - 1)%Z.

(** The double nearest to the positive rational [num / den], ties to even. *)
Definition f64_nearest (neg : bool) (num den : Z) : f64 :=
  let k := Z.max (log2_ratio num den - 52) (-1074) in
  let m := if (k <=? 0)%Z then round_half_even (num * 2 ^ (- k)) den
           else round_half_even num (den * 2 ^ k) in
  let '(m, k) := if (m =? 2 ^ 53)%Z then (2 ^ 52, k + 1)%Z else (m, k) in
  if (971 <? k)%Z then Infinite neg else Finite neg m k.

(** [str::parse::<f64>] on a decimal literal.  The two guards settle literals
    whose exponent puts them out of range without computing the power. *)
Definition parse_f64 (s : string) : option f64 :=
  match parse_decimal s with
  | None => None
  | Some (neg, m, e) =>
      Some (if (m =? 0)%Z then Finite neg 0 (-1074)
            else if (400 <? e)%Z then Infinite neg
            else if (Z.log2 m + 1 + 3 * e <? -1075)%Z then Finite neg 0 (-1074)
            else if (0 <=? e)%Z then f64_nearest neg (m * 10 ^ e) 1
            else f64_nearest neg m (10 ^ (- e)))
  end.

(** Splits at the first byte that satisfies [p]: [str::find]. *)
Fixpoint find_byte (p : ascii → bool) (b : bytes) : option (bytes * bytes) :=
  match b with
  | [] => None
  | c :: r =>
      if p c then Some ([], r)
      else match find_byte p r with Some (h, t) => Some (c :: h, t) | None => None end
  end.

Definition normalize_exponent (formatted : string) : string :=
  match find_byte (Ascii.eqb "e") (as_bytes formatted) with
  | Some (head, rest) =>
      if byte_is rest 0 (Ascii.eqb "-") then formatted
      else of_bytes (head ++ "e"%char :: "+"%char :: rest)
  | None => formatted
  end.

Section number.
(** [ryu::Buffer::format_finite]. *)
Context (format_finite : f64 → string).

Definition Number_parse (source : string) : string :=
  if source ==s "-0" then "-0.0"
  else if negb (existsb is_float_byte (as_bytes source)) then source
  else
    match parse_f64 source with
    | Some value => if is_finite value then normalize_exponent (format_finite value) else source
    | None => source
    end.
End number.

(** What [ryu] documents: the text is a JSON number literal with a point or an
    exponent and no plus sign, it reads back as the same double, and negative
    zero is ["-0.0"]. *)
Class RyuFormat (format_finite : f64 → string) : Prop := {
  ryu_number neg m e : f64_canonical m e →
    valid_number (as_bytes (format_finite (Finite neg m e))) = true;
  ryu_float neg m e : f64_canonical m e →
    existsb is_float_byte (as_bytes (format_finite (Finite neg m e))) = true;
  ryu_lower neg m e : f64_canonical m e →
    existsb (λ c, (c =b "+") || (c =b "E")) (as_bytes (format_finite (Finite neg m e))) = false;
  ryu_parse neg m e : f64_canonical m e →
    parse_f64 (format_finite (Finite neg m e)) = Some (Finite neg m e);
  ryu_neg_zero : format_finite (Finite true 0 (-1074)) = "-0.0"%string
}.
