(* ===== verification/JsonTextProps.v ===== *)
(** * Lemmas about JSON text

    UTF-8 validity of concatenations, the number grammar as a predicate, and
    the stability of [Number::parse]: rendering a number and parsing the
    rendering gives it back. *)
From stdpp Require Import prelude strings.
From Stdlib Require String.
From Stdlib Require Import Ascii.
From S2P Require Import Prelude Json JsonText.

Local Open Scope nat_scope.

Lemma as_of_bytes b : as_bytes (of_bytes b) = b.
Proof. apply String.list_ascii_of_string_of_list_ascii. Qed.

Lemma of_as_bytes s : of_bytes (as_bytes s) = s.
Proof. apply String.string_of_list_ascii_of_string. Qed.

#[export] Hint Rewrite as_of_bytes of_as_bytes : rezzy.

(** Decides a property of one byte by going through all of them. *)
Ltac by_bytes c := destruct c as [[] [] [] [] [] [] [] []]; vm_compute; try done; try congruence.

Lemma eqb_byte c d : (c =b d) = true ↔ c = d.
Proof. apply Ascii.eqb_eq. Qed.

Lemma code_ascii n : (n < 256)%N → code (ascii_of_N n) = n.
Proof. apply N_ascii_embedding. Qed.

Lemma code_lt c : (code c < 256)%N.
Proof. apply N_ascii_bounded. Qed.

(** ** Runs *)

(** [b] does not begin with a byte in [p]. *)
Definition stops (p : ascii → bool) (b : bytes) : Prop :=
  match b with c :: _ => p c = false | [] => True end.

Abbreviation all p := (Forall (λ c, p c = true)).

Lemma count_while_app p a r : all p a → stops p r → count_while p (a ++ r) = length a.
Proof. induction 1 as [|c a Hc _ IH]; simpl; [destruct r; simpl; [done|by intros ->]|]. rewrite Hc. auto. Qed.

Lemma count_while_split p b :
  ∃ a r, b = a ++ r ∧ all p a ∧ stops p r ∧ count_while p b = length a.
Proof.
  induction b as [|c b (a & r & -> & Ha & Hr & E)]; [by exists [], []|].
  destruct (p c) eqn:Hc.
  - exists (c :: a), r. simpl. rewrite Hc, E. by repeat constructor.
  - exists [], (c :: a ++ r). simpl. by rewrite Hc.
Qed.

Lemma count_while_stops p b : stops p b → count_while p b = 0.
Proof. destruct b; simpl; [done|by intros ->]. Qed.

Lemma byte_is_app pre x p :
  byte_is (pre ++ x) (length pre) p = match x with c :: _ => p c | [] => false end.
Proof. unfold byte_is. rewrite lookup_app_r, Nat.sub_diag by done. by destruct x. Qed.

Lemma drop_length_app (pre x : bytes) : drop (length pre) (pre ++ x) = x.
Proof. by rewrite drop_app_length. Qed.

(** ** UTF-8 *)

Definition ascii_byte (c : ascii) : bool := (code c <? 128)%N.

(** The encoding of one scalar value. *)
Definition utf8_seq (s : bytes) : bool :=
  match s with
  | [b0] => ascii_byte b0
  | [b0; b1] => between 194 223 b0 && continuation b1
  | [b0; b1; b2] => between 224 239 b0 && (second_of_three b0 b1 && continuation b2)
  | [b0; b1; b2; b3] =>
      between 240 244 b0 && (second_of_four b0 b1 && continuation b2 && continuation b3)
  | _ => false
  end.

(** Valid UTF-8 is a sequence of encodings. *)
Inductive utf8 : bytes → Prop :=
| utf8_nil : utf8 []
| utf8_cons s b : utf8_seq s = true → utf8 b → utf8 (s ++ b).

Lemma lead_two b0 : between 194 223 b0 = true → ascii_byte b0 = false.
Proof. by_bytes b0. Qed.
Lemma lead_three b0 : between 224 239 b0 = true → ascii_byte b0 = false ∧ between 194 223 b0 = false.
Proof. by_bytes b0. Qed.
Lemma lead_four b0 : between 240 244 b0 = true →
  ascii_byte b0 = false ∧ between 194 223 b0 = false ∧ between 224 239 b0 = false.
Proof. by_bytes b0. Qed.
Lemma second_high b0 b1 :
  (continuation b1 = true → ascii_byte b1 = false) ∧
  (second_of_three b0 b1 = true → ascii_byte b1 = false) ∧
  (second_of_four b0 b1 = true → ascii_byte b1 = false).
Proof.
  unfold second_of_three, second_of_four. repeat split; [by_bytes b1|..];
    repeat case_match; by_bytes b1.
Qed.

Lemma utf8_seq_valid s b : utf8_seq s = true → utf8_valid (s ++ b) = utf8_valid b.
Proof.
  destruct s as [|b0 [|b1 [|b2 [|b3 [|]]]]]; try done; cbn [app utf8_valid utf8_seq]; intros H.
  - unfold ascii_byte in H. by rewrite H.
  - apply andb_prop in H as [H0 ->]. pose proof (lead_two _ H0) as E. unfold ascii_byte in E.
    by rewrite E, H0.
  - apply andb_prop in H as [H0 [-> ->]%andb_prop]. destruct (lead_three _ H0) as [E1 E2].
    unfold ascii_byte in E1. by rewrite E1, E2, H0.
  - apply andb_prop in H as [H0 [[-> ->]%andb_prop ->]%andb_prop].
    destruct (lead_four _ H0) as (E1 & E2 & E3). unfold ascii_byte in E1. by rewrite E1, E2, E3, H0.
Qed.

Lemma utf8_valid_step b : utf8_valid b = true → b ≠ [] →
  ∃ s r, b = s ++ r ∧ utf8_seq s = true ∧ utf8_valid r = true.
Proof.
  destruct b as [|b0 r]; [done|]. cbn [utf8_valid]. intros H _.
  destruct (code b0 <? 128)%N eqn:E0; [by exists [b0], r|].
  destruct (between 194 223 b0) eqn:E1; [|destruct (between 224 239 b0) eqn:E2;
    [|destruct (between 240 244 b0) eqn:E3; [|done]]].
  - destruct r as [|b1 r]; [done|]. apply andb_prop in H as [H ?].
    exists [b0; b1], r. cbn [utf8_seq]. by rewrite E1, H.
  - destruct r as [|b1 [|b2 r]]; try done. apply andb_prop in H as [[H H']%andb_prop ?].
    exists [b0; b1; b2], r. cbn [utf8_seq]. by rewrite E2, H, H'.
  - destruct r as [|b1 [|b2 [|b3 r]]]; try done.
    apply andb_prop in H as [[[H H']%andb_prop H'']%andb_prop ?].
    exists [b0; b1; b2; b3], r. cbn [utf8_seq]. by rewrite E3, H, H', H''.
Qed.

Lemma utf8_spec b : utf8_valid b = true ↔ utf8 b.
Proof.
  split; [|induction 1 as [|s b Hs _ IH]; [done|by rewrite utf8_seq_valid]].
  remember (length b) as n eqn:En. revert b En.
  induction n as [n IH] using lt_wf_ind. intros b -> H.
  destruct (decide (b = [])) as [->|Hne]; [constructor|].
  destruct (utf8_valid_step _ H Hne) as (s & r & -> & Hs & Hr).
  constructor; [done|]. eapply (IH (length r)); [|done..].
  rewrite length_app. destruct s; [done|simpl; lia].
Qed.

Lemma utf8_app a b : utf8 a → utf8 b → utf8 (a ++ b).
Proof. induction 1; simpl; [done|]. intros. rewrite <-app_assoc. constructor; auto. Qed.

Lemma utf8_app_r a b : utf8 a → utf8 (a ++ b) → utf8 b.
Proof.
  induction 1 as [|s a Hs _ IH]; [done|]. rewrite <-app_assoc, <-utf8_spec, utf8_seq_valid, utf8_spec; auto.
Qed.

Lemma utf8_single s : utf8_seq s = true → utf8 s.
Proof. intros. rewrite <-(app_nil_r s). by repeat constructor. Qed.

Lemma utf8_ascii c b : ascii_byte c = true → utf8 b → utf8 (c :: b).
Proof. intros. by apply (utf8_cons [c]). Qed.

(** Goes through the elements of a literal list. *)
Ltac elem_cases H :=
  repeat (apply elem_of_cons in H as [->|H]; [congruence|]); by apply elem_of_nil in H.

(** A sequence of more than one byte has no ASCII byte. *)
Lemma utf8_seq_high s c : utf8_seq s = true → c ∈ s → ascii_byte c = true → s = [c].
Proof.
  intros Hs Hin Hc.
  destruct s as [|b0 [|b1 [|b2 [|b3 [|]]]]]; try done; cbn [utf8_seq] in Hs.
  - by apply list_elem_of_singleton in Hin as ->.
  - apply andb_prop in Hs as [H0%lead_two H1].
    apply (proj1 (second_high b0 b1)) in H1. elem_cases Hin.
  - apply andb_prop in Hs as [[H0 _]%lead_three [H1 H2]%andb_prop].
    apply (proj1 (proj2 (second_high b0 b1))) in H1. apply (proj1 (second_high b0 b2)) in H2. elem_cases Hin.
  - apply andb_prop in Hs as [[H0 _]%lead_four [[H1 H2]%andb_prop H3]%andb_prop].
    apply (proj2 (proj2 (second_high b0 b1))) in H1. apply (proj1 (second_high b0 b2)) in H2.
    apply (proj1 (second_high b0 b3)) in H3. elem_cases Hin.
Qed.

(** Cutting at an ASCII byte leaves two valid halves. *)
Lemma utf8_split a c b : utf8 (a ++ c :: b) → ascii_byte c = true → utf8 a ∧ utf8 b.
Proof.
  intros H Hc. remember (a ++ c :: b) as x eqn:Ex. revert a Ex.
  induction H as [|s x Hs Hx IH]; intros a Ex; [by destruct a|].
  apply app_eq_inv in Ex as [(k & -> & Ex)|(k & -> & Ex)].
  - destruct k as [|d k].
    + rewrite app_nil_r in Hs. simpl in Ex. symmetry in Ex. destruct (IH [] Ex) as [_ ?].
      split; [rewrite <-(app_nil_r a); constructor; [done|constructor]|done].
    + simpl in Ex. injection Ex as -> ->.
      assert (E : a ++ d :: k = [d]) by (apply utf8_seq_high; [done|set_solver|done]).
      destruct a as [|? []]; simplify_eq/=. split; [constructor|done].
  - destruct (IH k Ex) as [? ?]. split; [by constructor|done].
Qed.

Lemma tail_byte_cont n : continuation (tail_byte n) = true.
Proof.
  unfold continuation, between, tail_byte. pose proof (N.mod_lt n 64 ltac:(done)).
  rewrite code_ascii by lia. apply andb_true_intro. revert H.
  generalize (n mod 64)%N. intros. split; apply N.leb_le; lia.
Qed.

Lemma lead_byte_between lo hi n : (lo ≤ n ≤ hi)%N → (hi < 256)%N → between lo hi (ascii_of_N n) = true.
Proof.
  intros. unfold between. rewrite code_ascii by lia.
  apply andb_true_intro. split; apply N.leb_le; lia.
Qed.

(** Two digits of [c] in base 64, for linear reasoning. *)
Lemma base64 (c d : N) (P : N → N → Prop) :
  (∀ q r r0, c / d = 64 * q + r → r < 64 → c = d * (64 * q + r) + r0 → r0 < d → P q r)%N →
  d ≠ 0%N → P (c / (d * 64))%N ((c / d) `mod` 64)%N.
Proof.
  intros HP Hd. rewrite <-N.Div0.div_div.
  pose proof (N.div_mod c d Hd) as H1. pose proof (N.mod_lt c d Hd) as H2.
  pose proof (N.div_mod (c / d) 64 ltac:(done)) as H3. pose proof (N.mod_lt (c / d) 64 ltac:(done)) as H4.
  apply (HP _ _ (c `mod` d)%N); try done. by rewrite <-H3.
Qed.

Lemma second_of_three_ok c : (2048 ≤ c < 65536)%N → ¬ (55296 ≤ c < 57344)%N →
  (224 ≤ 224 + c / 4096 ≤ 239)%N ∧
  second_of_three (ascii_of_N (224 + c / 4096)) (tail_byte (c / 64)) = true.
Proof.
  intros Hc Hs. unfold second_of_three, tail_byte. change 4096%N with (64 * 64)%N.
  apply (base64 c 64 (λ q r, (224 ≤ 224 + q ≤ 239) ∧ (if code (ascii_of_N (224 + q)) =? 224 then
      between 160 191 (ascii_of_N (128 + r)) else if code (ascii_of_N (224 + q)) =? 237 then
      between 128 159 (ascii_of_N (128 + r)) else between 128 191 (ascii_of_N (128 + r))) = true)%N); [|done].
  intros q r r0 _ Hr E Hr0. split; [lia|]. rewrite !code_ascii by lia.
  repeat case_match; apply lead_byte_between; rewrite ?N.eqb_eq, ?N.eqb_neq in *; lia.
Qed.

Lemma second_of_four_ok c : (65536 ≤ c ≤ 1114111)%N →
  (240 ≤ 240 + c / 262144 ≤ 244)%N ∧
  second_of_four (ascii_of_N (240 + c / 262144)) (tail_byte (c / 4096)) = true.
Proof.
  intros Hc. unfold second_of_four, tail_byte. change 262144%N with (4096 * 64)%N.
  apply (base64 c 4096 (λ q r, (240 ≤ 240 + q ≤ 244) ∧ (if code (ascii_of_N (240 + q)) =? 240 then
      between 144 191 (ascii_of_N (128 + r)) else if code (ascii_of_N (240 + q)) =? 244 then
      between 128 143 (ascii_of_N (128 + r)) else between 128 191 (ascii_of_N (128 + r))) = true)%N); [|done].
  intros q r r0 _ Hr E Hr0. split; [lia|]. rewrite !code_ascii by lia.
  repeat case_match; apply lead_byte_between; rewrite ?N.eqb_eq, ?N.eqb_neq in *; lia.
Qed.

Lemma encode_utf8_valid n c : from_u32 n = Some c → utf8 (encode_utf8 c).
Proof.
  unfold from_u32. intros H. assert (n = c ∧ (n < 55296 ∨ 57344 ≤ n ≤ 1114111)%N) as [-> Hc].
  { case_match eqn:E; [|done]. simplify_eq. split; [done|].
    apply orb_prop in E as [E|[E1 E2]%andb_prop]; rewrite ?N.ltb_lt, ?N.leb_le in *; lia. }
  clear H. unfold encode_utf8. apply utf8_single.
  destruct (N.ltb_spec c 128), (N.ltb_spec c 2048), (N.ltb_spec c 65536); try lia; cbn [utf8_seq].
  - unfold ascii_byte. rewrite code_ascii by lia. by apply N.ltb_lt.
  - rewrite tail_byte_cont, andb_true_r. apply lead_byte_between; [|done].
    pose proof (N.Div0.div_le_mono 128 c 64 ltac:(lia)). pose proof (N.Div0.div_lt_upper_bound c 64 32 ltac:(lia)).
    change (128 / 64)%N with 2%N in *. generalize dependent (c / 64)%N. intros. lia.
  - destruct (second_of_three_ok c) as [? ->]; [lia..|]. rewrite tail_byte_cont, lead_byte_between; done.
  - destruct (second_of_four_ok c) as [? ->]; [lia..|]. rewrite !tail_byte_cont, lead_byte_between; done.
Qed.

(** ** The number grammar *)

Definition exponent_text (x : bytes) : Prop :=
  x = [] ∨ ∃ c sg ds, x = c :: sg ++ ds ∧ ((c =b "e") || (c =b "E")) = true ∧
    (sg = [] ∨ ∃ s, sg = [s] ∧ ((s =b "+") || (s =b "-")) = true) ∧
    ds ≠ [] ∧ all is_ascii_digit ds.
Definition fraction_text (x : bytes) : Prop :=
  x = [] ∨ ∃ ds, x = "."%char :: ds ∧ ds ≠ [] ∧ all is_ascii_digit ds.
Definition integer_text (x : bytes) : Prop :=
  x = ["0"%char] ∨ ∃ c ds, x = c :: ds ∧ between 49 57 c = true ∧ all is_ascii_digit ds.
Definition number_text (x : bytes) : Prop :=
  ∃ sg i f e, x = sg ++ i ++ f ++ e ∧ (sg = [] ∨ sg = ["-"%char]) ∧
    integer_text i ∧ fraction_text f ∧ exponent_text e.

Lemma exponent_stops x : exponent_text x → stops is_ascii_digit x.
Proof. intros [->|(c & sg & ds & -> & H & _)]; simpl; [done|]. revert H. by_bytes c. Qed.

Lemma fraction_stops f e : fraction_text f → exponent_text e → stops is_ascii_digit (f ++ e).
Proof. intros [->|(ds & -> & _)] He; [by apply exponent_stops|done]. Qed.

Lemma digits_end_app pre ds r : all is_ascii_digit ds → stops is_ascii_digit r →
  digits_end (pre ++ ds ++ r) (length pre) = length pre + length ds.
Proof. intros. unfold digits_end. by rewrite drop_length_app, count_while_app. Qed.

Lemma length_eqb (a b : bytes) : (length a =? length (a ++ b)) = true ↔ b = [].
Proof.
  rewrite Nat.eqb_eq, length_app. split; [|intros ->; simpl; lia].
  destruct b; simpl; [done|lia].
Qed.

Lemma snoc_length (pre : bytes) c : length pre + 1 = length (pre ++ [c]).
Proof. by rewrite length_app. Qed.

Lemma snoc_app (pre : bytes) c x : pre ++ c :: x = (pre ++ [c]) ++ x.
Proof. by rewrite <-app_assoc. Qed.

(** A loop over digits, at least one of them, and then [k]. *)
Lemma digits_run pre x (k : nat → bool) (P : bytes → Prop) :
  (∀ ds r, x = ds ++ r → k (length pre + length ds) = true ↔ P r) →
  (if digits_end (pre ++ x) (length pre) =? length pre then false
   else k (digits_end (pre ++ x) (length pre))) = true ↔
  ∃ ds r, x = ds ++ r ∧ ds ≠ [] ∧ all is_ascii_digit ds ∧ stops is_ascii_digit r ∧ P r.
Proof.
  intros Hk. destruct (count_while_split is_ascii_digit x) as (ds & r & -> & Hds & Hr & _).
  rewrite digits_end_app by done. split.
  - case_match eqn:E; [done|]. apply Nat.eqb_neq in E. intros. exists ds, r.
    repeat split; try done; [by intros ->; simpl in E; lia|by apply (Hk ds r)].
  - intros (ds' & r' & E & Hne & Hds' & Hr' & HP).
    assert (length ds = length ds') as El.
    { rewrite <-(count_while_app is_ascii_digit ds r), E by done. by apply count_while_app. }
    apply app_inj_1 in E as [-> ->]; [|done]. apply (Hk ds' r') in HP; [|done].
    rewrite HP. destruct ds'; [done|]. simpl. by rewrite (proj2 (Nat.eqb_neq _ _)) by lia.
Qed.

Lemma valid_exponent_spec pre x : valid_exponent (pre ++ x) (length pre) = true ↔ exponent_text x.
Proof.
  unfold valid_exponent. rewrite byte_is_app. destruct x as [|c x].
  { rewrite length_eqb. split; [by left|done]. }
  destruct ((c =b "e") || (c =b "E")) eqn:Ec.
  2:{ rewrite length_eqb. split; [done|]. intros [?|(c' & ? & ? & ? & ? & _)]; simplify_eq/=. congruence. }
  rewrite (snoc_length _ c), (snoc_app pre c). generalize (pre ++ [c]). clear pre. intros pre.
  assert (Hrun : ∀ pre x, (if digits_end (pre ++ x) (length pre) =? length pre then false
     else digits_end (pre ++ x) (length pre) =? length (pre ++ x)) = true ↔ x ≠ [] ∧ all is_ascii_digit x).
  { clear. intros pre x. rewrite (digits_run pre x (λ n, n =? length (pre ++ x)) (λ r, r = [])).
    - split; [intros (ds & r & -> & ? & ? & _ & ->); by rewrite app_nil_r|].
      intros []. exists x, []. by rewrite app_nil_r.
    - intros ds r ->. rewrite app_assoc, <-length_app. apply length_eqb. }
  rewrite byte_is_app.
  destruct x as [|s x].
  { rewrite Hrun. split; [naive_solver|]. intros [?|(c' & sg & ds & ? & _ & _ & ? & _)]; [done|].
    simplify_eq/=. destruct sg, ds; done. }
  destruct ((s =b "+") || (s =b "-")) eqn:Es.
  - rewrite (snoc_length _ s), (snoc_app pre s), Hrun. split.
    + intros []. right. exists c, [s], x. naive_solver.
    + intros [?|(c' & sg & ds & ? & ? & [->|(s' & -> & ?)] & ? & Hds)]; simplify_eq/=; [|done].
      apply Forall_cons in Hds as [Hd _]. exfalso. revert Hd Es. clear. by_bytes s.
  - rewrite Hrun. split.
    + intros []. right. exists c, [], (s :: x). naive_solver.
    + intros [?|(c' & sg & ds & ? & ? & [->|(s' & -> & ?)] & ? & Hds)]; simplify_eq/=; [done|congruence].
Qed.

Lemma valid_fraction_spec pre x :
  valid_fraction (pre ++ x) (length pre) = true ↔
  ∃ f e, x = f ++ e ∧ fraction_text f ∧ exponent_text e.
Proof.
  unfold valid_fraction. rewrite byte_is_app.
  assert (Hnone : stops (Ascii.eqb ".") x →
    (∃ f e, x = f ++ e ∧ fraction_text f ∧ exponent_text e) ↔ exponent_text x).
  { intros Hx. split; [|intros; exists [], x; split_and!; [done|by left|done]].
    intros (f & e & -> & [->|(ds & -> & _)] & He); [done|]. done. }
  destruct x as [|c x]; [by rewrite valid_exponent_spec, Hnone|].
  destruct (Ascii.eqb "." c) eqn:Ec; [|by rewrite valid_exponent_spec, Hnone].
  apply eqb_byte in Ec as <-. rewrite (snoc_length _ "."%char), (snoc_app pre).
  rewrite (digits_run _ x _ exponent_text).
  - split.
    + intros (ds & r & -> & ? & ? & ? & ?). exists ("."%char :: ds), r. repeat split; try done. right. eauto.
    + intros (f & e & E & [->|(ds & -> & ? & ?)] & He); simplify_eq/=.
      { destruct He as [?|(c & sg & ds & ? & Hc & _)]; simplify_eq/=. }
      exists ds, e. repeat split; try done. by apply exponent_stops.
  - intros ds r ->. rewrite app_assoc, <-length_app. apply valid_exponent_spec.
Qed.

(** [valid_number] accepts exactly the JSON number grammar. *)
Lemma valid_number_spec x : valid_number x = true ↔ number_text x.
Proof.
  assert (Hsig : ∀ pre x, (if byte_is (pre ++ x) (length pre) (Ascii.eqb "0") then
      valid_fraction (pre ++ x) (length pre + 1)
    else if byte_is (pre ++ x) (length pre) (between 49 57) then
      valid_fraction (pre ++ x) (digits_end (pre ++ x) (length pre + 1)) else false) = true ↔
    ∃ i f e, x = i ++ f ++ e ∧ integer_text i ∧ fraction_text f ∧ exponent_text e).
  { clear x. intros pre x. rewrite !byte_is_app. destruct x as [|c x].
    { split; [done|]. intros (i & f & e & E & [->|(? & ? & -> & _)] & _); done. }
    rewrite (snoc_length _ c), (snoc_app pre c).
    destruct (Ascii.eqb "0" c) eqn:E0; [|destruct (between 49 57 c) eqn:E1].
    - apply eqb_byte in E0 as <-. rewrite valid_fraction_spec. split.
      + intros (f & e & -> & ? & ?). exists ["0"%char], f, e. repeat split; try done. by left.
      + intros (i & f & e & E & [->|(c & ds & -> & Hc & _)] & ? & ?); simplify_eq/=; eauto.
    - destruct (count_while_split is_ascii_digit x) as (ds & r & -> & Hds & Hr & _).
      rewrite digits_end_app, <-length_app, app_assoc, valid_fraction_spec by done. split.
      + intros (f & e & -> & ? & ?). exists (c :: ds), f, e. repeat split; try done. right. eauto.
      + intros (i & f & e & E & [->|(c' & ds' & -> & Hc & Hds')] & Hf & He); [by simplify_eq/=|].
        injection E as <- E. assert (length ds = length ds') as El.
        { rewrite <-(count_while_app is_ascii_digit ds r), E by done.
          apply count_while_app; [done|by apply fraction_stops]. }
        apply app_inj_1 in E as [-> ->]; [eauto|done].
    - split; [done|]. intros (i & f & e & E & [->|(? & ? & -> & ? & _)] & _); simplify_eq/=. congruence. }
  unfold valid_number. destruct (byte_is x 0 (Ascii.eqb "-")) eqn:Es.
  - destruct x as [|c x]; [done|]. apply (eqb_byte "-" c) in Es as <-.
    etrans; [apply (Hsig ["-"%char] x)|]. split.
    + intros (i & f & e & -> & ? & ? & ?). exists ["-"%char], i, f, e. naive_solver.
    + intros (sg & i & f & e & E & [->| ->] & Hi & ? & ?); simplify_eq/=; [|eauto 10].
      destruct Hi as [->|(? & ? & -> & ? & _)]; simplify_eq/=.
  - etrans; [apply (Hsig [] x)|]. split.
    + intros (i & f & e & -> & ? & ? & ?). exists [], i, f, e. naive_solver.
    + intros (sg & i & f & e & -> & [->| ->] & Hi & ? & ?); simplify_eq/=; eauto 10.
Qed.
