(* ===== verification/JsonNumber.v ===== *)
(** * Stability of number literals

    [Number::parse] re-renders floats.  Rendering is stable: the text it yields
    is a number literal and parsing it again changes nothing.  The class
    [RyuFormat] is inhabited by the printer of exact decimal expansions. *)
From stdpp Require Import prelude strings.
From Stdlib Require String.
From Stdlib Require Import Ascii.
From S2P Require Import Prelude Json JsonText JsonTextProps.

Local Open Scope Z_scope.

(** ** Reading a literal *)

Definition digit_value (c : ascii) : Z := Z.of_N (code c) - 48.
Definition value_from (acc : Z) (ds : bytes) : Z := foldl (λ acc c, acc * 10 + digit_value c) acc ds.

Lemma digit_spec c : digit c = if is_ascii_digit c then Some (digit_value c) else None.
Proof. by_bytes c. Qed.

Lemma take_digits_spec ds r acc cnt : all is_ascii_digit ds → stops is_ascii_digit r →
  take_digits acc cnt (of_bytes (ds ++ r)) = (value_from acc ds, cnt + Z.of_nat (length ds), of_bytes r).
Proof.
  intros Hds Hr. revert acc cnt. induction Hds as [|c ds Hc _ IH]; intros acc cnt; simpl.
  - destruct r as [|c r]; simpl in *; [|rewrite digit_spec, Hr]; by rewrite Z.add_0_r.
  - rewrite digit_spec, Hc, IH. simpl. do 2 f_equal. lia.
Qed.

Lemma digits_from_spec ds acc : all is_ascii_digit ds →
  digits_from acc (of_bytes ds) = Some (value_from acc ds).
Proof.
  intros Hds. revert acc. induction Hds as [|c ds Hc _ IH]; intros acc; simpl; [done|].
  by rewrite digit_spec, Hc, IH.
Qed.

Lemma parse_digits_spec ds : all is_ascii_digit ds → ds ≠ [] →
  parse_digits (of_bytes ds) = Some (value_from 0 ds).
Proof. intros. destruct ds; [done|]. by apply (digits_from_spec (_ :: _)). Qed.

Lemma split_sign_digits ds r : ds ≠ [] → all is_ascii_digit ds →
  split_sign (of_bytes (ds ++ r)) = (false, of_bytes (ds ++ r)).
Proof.
  intros Hne Hds. destruct Hds as [|c ds Hc _]; [done|]. simpl. generalize (of_bytes (ds ++ r)).
  revert Hc. by_bytes c.
Qed.

Lemma integer_digits i : integer_text i → i ≠ [] ∧ all is_ascii_digit i.
Proof.
  intros [->|(c & ds & -> & Hc & Hds)]; [by repeat constructor|]. split; [done|]. constructor; [|done].
  revert Hc. by_bytes c.
Qed.

(** Exponent sign and digits. *)
Definition exponent_sign (sg : bytes) : bool := byte_is sg 0 (Ascii.eqb "-").

Lemma split_exponent_sign sg ds : ds ≠ [] → all is_ascii_digit ds →
  (sg = [] ∨ ∃ s, sg = [s] ∧ ((s =b "+") || (s =b "-")) = true) →
  split_sign (of_bytes (sg ++ ds)) = (exponent_sign sg, of_bytes ds).
Proof.
  intros Hne Hds [->|(s & -> & [E|E]%orb_prop)].
  - rewrite <-(app_nil_r ds). simpl. by rewrite split_sign_digits.
  - by apply eqb_byte in E as ->.
  - by apply eqb_byte in E as ->.
Qed.

(** The mantissa, the fraction's length and the exponent of a literal. *)
Definition fraction_digits (f : bytes) : bytes := match f with [] => [] | _ :: ds => ds end.

Definition exponent_value (e : bytes) : Z :=
  match e with
  | [] => 0
  | _ :: r =>
      let '(neg, ds) := split_sign (of_bytes r) in
      let v := value_from 0 (as_bytes ds) in
      if neg then - v else v
  end.

Lemma parse_decimal_spec sg i f e :
  (sg = [] ∨ sg = ["-"%char]) → integer_text i → fraction_text f → exponent_text e →
  parse_decimal (of_bytes (sg ++ i ++ f ++ e)) =
  Some (byte_is sg 0 (Ascii.eqb "-"), value_from (value_from 0 i) (fraction_digits f),
        exponent_value e - Z.of_nat (length (fraction_digits f))).
Proof.
  intros Hsg Hi Hf He. destruct (integer_digits _ Hi) as [Hne Hd].
  unfold parse_decimal.
  assert (split_sign (of_bytes (sg ++ i ++ f ++ e)) =
    (byte_is sg 0 (Ascii.eqb "-"), of_bytes (i ++ f ++ e))) as ->.
  { destruct Hsg as [->| ->]; [by apply (split_sign_digits i)|done]. }
  rewrite take_digits_spec by (try done; by apply fraction_stops).
  assert (Hpoint : match of_bytes (f ++ e) with
      | String.String "."%char s' => take_digits (value_from 0 i) 0 s'
      | _ => (value_from 0 i, 0, of_bytes (f ++ e))
      end = (value_from (value_from 0 i) (fraction_digits f), Z.of_nat (length (fraction_digits f)), of_bytes e)).
  { destruct Hf as [->|(ds & -> & Hds & Hall)].
    - destruct He as [->|(c & es & ds & -> & [E|E]%orb_prop & _)]; [done|by apply eqb_byte in E as ->..].
    - cbn [app of_bytes String.string_of_list_ascii fraction_digits]. fold (of_bytes (ds ++ e)).
      rewrite take_digits_spec by (try done; by apply exponent_stops). by rewrite Z.add_0_l. }
  rewrite Hpoint, Z.add_0_l. clear Hpoint. cbv beta iota.
  destruct (Z.eqb_spec (Z.of_nat (length i) + Z.of_nat (length (fraction_digits f))) 0) as [E|_].
  { destruct i; [done|simpl in E; lia]. }
  destruct He as [->|(c & es & ds & -> & Hc & Hes & Hds & Hall)]; [reflexivity|].
  assert (Hexp : ∀ X, split_sign (of_bytes (es ++ ds)) = X →
    match of_bytes (c :: es ++ ds) with
    | String.EmptyString => Some (byte_is sg 0 (Ascii.eqb "-"), value_from (value_from 0 i) (fraction_digits f),
         - Z.of_nat (length (fraction_digits f)))
    | String.String "e"%char s' | String.String "E"%char s' =>
        let '(eneg, s4) := split_sign s' in
        match parse_digits s4 with
        | Some e => Some (byte_is sg 0 (Ascii.eqb "-"), value_from (value_from 0 i) (fraction_digits f),
             (if eneg then - e else e) - Z.of_nat (length (fraction_digits f)))
        | None => None
        end
    | _ => None
    end = let '(eneg, s4) := X in match parse_digits s4 with
        | Some e => Some (byte_is sg 0 (Ascii.eqb "-"), value_from (value_from 0 i) (fraction_digits f),
             (if eneg then - e else e) - Z.of_nat (length (fraction_digits f)))
        | None => None
        end).
  { intros X <-. by apply orb_prop in Hc as [->%eqb_byte| ->%eqb_byte]. }
  rewrite (Hexp _ (split_exponent_sign _ _ Hds Hall Hes)). clear Hexp.
  rewrite parse_digits_spec by done. unfold exponent_value.
  by rewrite split_exponent_sign, as_of_bytes by done.
Qed.

(** ** Rounding to a double *)

Lemma round_half_even_bounds num den a b : 0 < den →
  a * den ≤ num ≤ b * den → a ≤ round_half_even num den ≤ b.
Proof.
  intros Hd [Ha Hb]. unfold round_half_even.
  pose proof (Z.div_mod num den ltac:(lia)) as E. pose proof (Z.mod_pos_bound num den Hd) as Hr.
  set (q := num / den) in *. set (r := num mod den) in *. clearbody q r.
  assert (a ≤ q) by nia. assert (q ≤ b) by nia.
  assert (0 < r → q + 1 ≤ b) by (intros; nia).
  destruct (Z.compare_spec (2 * r) den); [case_match| |]; lia.
Qed.

Lemma round_exact m den : 0 < den → round_half_even (m * den) den = m.
Proof. intros. destruct (round_half_even_bounds (m * den) den m m); lia. Qed.

Lemma pow2_pos n : 0 ≤ n → 0 < 2 ^ n.
Proof. intros. by apply Z.pow_pos_nonneg. Qed.

Section ratio.
Context (num den : Z) (Hnum : 0 < num) (Hden : 0 < den).

(** [2^l ≤ num / den] and [num / den < 2^l], scaled to integers. *)
Definition pow2_le (l : Z) : Prop := ∀ a b, 0 ≤ a → 0 ≤ b → b ≤ l + a → den * 2 ^ b ≤ num * 2 ^ a.
Definition lt_pow2 (l : Z) : Prop := ∀ a b, 0 ≤ a → 0 ≤ b → l + a ≤ b → num * 2 ^ a < den * 2 ^ b.

Lemma pow2_le_intro l a b : 0 ≤ a → 0 ≤ b → b = l + a → den * 2 ^ b ≤ num * 2 ^ a → pow2_le l.
Proof.
  intros Ha Hb -> H a' b' Ha' Hb' Hle.
  apply (Z.mul_le_mono_pos_r _ _ (2 ^ a)); [by apply pow2_pos|].
  assert (num * 2 ^ a' * 2 ^ a = num * 2 ^ a * 2 ^ a') as -> by lia.
  etrans; [|apply Z.mul_le_mono_nonneg_r; [|exact H]; pose proof (pow2_pos a'); lia].
  rewrite <-!Z.mul_assoc, <-!Z.pow_add_r by lia.
  apply Z.mul_le_mono_nonneg_l; [lia|]. apply Z.pow_le_mono_r; lia.
Qed.

Lemma lt_pow2_intro l a b : 0 ≤ a → 0 ≤ b → b = l + a → num * 2 ^ a < den * 2 ^ b → lt_pow2 l.
Proof.
  intros Ha Hb -> H a' b' Ha' Hb' Hle.
  apply (Z.mul_lt_mono_pos_r (2 ^ a)); [by apply pow2_pos|].
  assert (num * 2 ^ a' * 2 ^ a = num * 2 ^ a * 2 ^ a') as -> by lia.
  eapply Z.lt_le_trans; [apply Z.mul_lt_mono_pos_r; [by apply pow2_pos|exact H]|].
  rewrite <-!Z.mul_assoc, <-!Z.pow_add_r by lia.
  apply Z.mul_le_mono_nonneg_l; [lia|]. apply Z.pow_le_mono_r; lia.
Qed.

Lemma log2_ratio_spec : pow2_le (log2_ratio num den) ∧ lt_pow2 (log2_ratio num den + 1).
Proof.
  unfold log2_ratio. destruct (Z.log2_spec num Hnum) as [Hn1 Hn2]. destruct (Z.log2_spec den Hden) as [Hd1 Hd2].
  pose proof (Z.log2_nonneg num). pose proof (Z.log2_nonneg den).
  rewrite Z.pow_succ_r in Hn2, Hd2 by done. set (a := Z.log2 num) in *. set (b := Z.log2 den) in *.
  clearbody a b. set (k := a - b).
  assert (Hup : lt_pow2 (k + 1)).
  { apply (lt_pow2_intro _ b (a + 1)); [lia..|]. rewrite Z.pow_add_r by lia. change (2 ^ 1) with 2. nia. }
  assert (Hlo : pow2_le (k - 1)).
  { apply (pow2_le_intro _ (b + 1) a); [lia..|]. rewrite Z.pow_add_r by lia. change (2 ^ 1) with 2. nia. }
  destruct (Z.leb_spec 0 k) as [Hk|Hk].
  - destruct (Z.leb_spec (den * 2 ^ k) num) as [Ht|Ht]; (split; [|try done]); try done.
    + apply (pow2_le_intro _ 0 k); lia.
    + replace (k - 1 + 1) with k by lia. apply (lt_pow2_intro _ 0 k); lia.
  - destruct (Z.leb_spec den (num * 2 ^ (- k))) as [Ht|Ht]; (split; [|try done]); try done.
    + apply (pow2_le_intro _ (- k) 0); lia.
    + replace (k - 1 + 1) with k by lia. apply (lt_pow2_intro _ (- k) 0); lia.
Qed.

Lemma log2_ratio_unique l : pow2_le l → lt_pow2 (l + 1) → log2_ratio num den = l.
Proof.
  destruct log2_ratio_spec as [H1 H2]. set (r := log2_ratio num den) in *. clearbody r. intros H3 H4.
  assert (Hc : ∀ x y, pow2_le x → lt_pow2 y → x < y).
  { intros x y Hx Hy. destruct (Z.lt_ge_cases x y) as [|Hge]; [done|]. exfalso.
    set (a := Z.max 0 (- y)). specialize (Hx a (y + a)). specialize (Hy a (y + a)). lia. }
  pose proof (Hc _ _ H1 H4). pose proof (Hc _ _ H3 H2). lia.
Qed.

(** The significand before a carry. *)
Definition significand (k : Z) : Z :=
  if k <=? 0 then round_half_even (num * 2 ^ (- k)) den else round_half_even num (den * 2 ^ k).

Lemma significand_bounds k lo hi : 0 ≤ lo → 0 ≤ hi →
  lt_pow2 (hi + k) →
  significand k ≤ 2 ^ hi ∧ (pow2_le (lo + k) → 2 ^ lo ≤ significand k) ∧ 0 ≤ significand k.
Proof.
  intros Hlo Hhi Hup. unfold significand.
  assert (H0 : ∀ n d b c, 0 < d → 0 ≤ n → n ≤ b * d → (c → 2 ^ lo * d ≤ n) →
    round_half_even n d ≤ b ∧ (c → 2 ^ lo ≤ round_half_even n d) ∧ 0 ≤ round_half_even n d).
  { intros n d b c Hd Hn Hb Hc. destruct (round_half_even_bounds n d 0 b); [lia..|].
    split_and!; [lia| |lia]. intros [? _]%Hc%(λ h, round_half_even_bounds n d (2 ^ lo) b Hd (conj h Hb)). done. }
  destruct (Z.leb_spec k 0) as [Hk|Hk]; apply H0.
  - done.
  - pose proof (pow2_pos (- k)). nia.
  - pose proof (Hup (- k) hi). lia.
  - intros H. pose proof (H (- k) lo). lia.
  - pose proof (pow2_pos k). nia.
  - lia.
  - pose proof (Hup 0 (hi + k)). rewrite Z.pow_add_r in * by lia. lia.
  - intros H. pose proof (H 0 (lo + k)). rewrite Z.pow_add_r in * by lia. lia.
Qed.
End ratio.

Lemma f64_nearest_canonical neg num den neg' m e : 0 < num → 0 < den →
  f64_nearest neg num den = Finite neg' m e → f64_canonical m e.
Proof.
  intros Hn Hd. unfold f64_nearest. fold (significand num den (Z.max (log2_ratio num den - 52) (-1074))).
  destruct (log2_ratio_spec num den Hn Hd) as [Hlo Hup].
  set (l := log2_ratio num den) in *. clearbody l. set (k := Z.max (l - 52) (-1074)).
  assert (Hupk : lt_pow2 num den (53 + k)) by (intros a b Ha Hb Hle; apply Hup; lia).
  destruct (significand_bounds num den Hn Hd k 52 53 ltac:(lia) ltac:(lia) Hupk) as (H1 & H2 & H3).
  assert (H4 : -1074 < k → 2 ^ 52 ≤ significand num den k).
  { intros. apply H2. intros a b Ha Hb Hle. apply Hlo; lia. }
  generalize dependent (significand num den k). intros g H1 _ H3 H4.
  destruct (Z.eqb_spec g (2 ^ 53)) as [E|E].
  - destruct (Z.ltb_spec 971 (k + 1)); [done|]. intros [= <- <- <-]. split_and!; lia.
  - destruct (Z.ltb_spec 971 k); [done|]. intros [= <- <- <-]. split_and!; lia.
Qed.

Lemma value_from_nonneg ds acc : 0 ≤ acc → all is_ascii_digit ds → 0 ≤ value_from acc ds.
Proof.
  intros Ha Hds. revert acc Ha. induction Hds as [|c ds Hc _ IH]; intros acc Ha; simpl; [done|].
  apply IH. assert (0 ≤ digit_value c); [|lia]. revert Hc. by_bytes c.
Qed.

Lemma parse_f64_canonical x neg m e : number_text x →
  parse_f64 (of_bytes x) = Some (Finite neg m e) → f64_canonical m e.
Proof.
  intros (sg & i & f & ex & -> & Hsg & Hi & Hf & He). unfold parse_f64.
  rewrite parse_decimal_spec by done. destruct (integer_digits _ Hi) as [_ Hd].
  assert (Hm : 0 ≤ value_from (value_from 0 i) (fraction_digits f)).
  { apply value_from_nonneg; [by apply value_from_nonneg|]. by destruct Hf as [->|(ds & -> & _ & ?)]. }
  generalize dependent (value_from (value_from 0 i) (fraction_digits f)). intros v Hv.
  generalize (exponent_value ex - Z.of_nat (length (fraction_digits f))). intros e' [= E].
  assert (H0 : f64_canonical 0 (-1074)) by (unfold f64_canonical; lia).
  destruct (Z.eqb_spec v 0); [by simplify_eq|]. case_match; [done|].
  case_match; [by simplify_eq|]. destruct (Z.leb_spec 0 e');
    apply f64_nearest_canonical in E; try done; try lia;
    pose proof (Z.pow_pos_nonneg 10 e'); pose proof (Z.pow_pos_nonneg 10 (- e')); nia.
Qed.

(** ** [normalize_exponent] *)

Lemma find_byte_app p h c t : all (λ x, negb (p x)) h → p c = true →
  find_byte p (h ++ c :: t) = Some (h, t).
Proof. intros Hh Hc. induction Hh as [|x h Hx _ IH]; simpl; [by rewrite Hc|]. destruct (p x); [done|]. by rewrite IH. Qed.

Lemma find_byte_None p b : all (λ x, negb (p x)) b → find_byte p b = None.
Proof. induction 1 as [|x b Hx _ IH]; simpl; [done|]. destruct (p x); [done|]. by rewrite IH. Qed.

Definition not_e (c : ascii) : bool := negb (Ascii.eqb "e" c).

Lemma digits_not_e ds : all is_ascii_digit ds → all not_e ds.
Proof. intros H. eapply Forall_impl; [exact H|]. intros c. by_bytes c. Qed.

Lemma mantissa_not_e sg i f : (sg = [] ∨ sg = ["-"%char]) → integer_text i → fraction_text f →
  all not_e (sg ++ i ++ f).
Proof.
  intros Hsg Hi Hf. rewrite !Forall_app. split_and!.
  - destruct Hsg as [->| ->]; by repeat constructor.
  - by apply digits_not_e, integer_digits.
  - destruct Hf as [->|(ds & -> & _ & ?)]; [done|]. constructor; [done|by apply digits_not_e].
Qed.

Lemma normalize_exponent_spec sg i f e :
  (sg = [] ∨ sg = ["-"%char]) → integer_text i → fraction_text f → exponent_text e →
  existsb (λ c, (c =b "+") || (c =b "E")) (sg ++ i ++ f ++ e) = false →
  ∃ e', normalize_exponent (of_bytes (sg ++ i ++ f ++ e)) = of_bytes (sg ++ i ++ f ++ e') ∧
    exponent_text e' ∧ exponent_value e' = exponent_value e ∧ (e' = [] ↔ e = []).
Proof.
  intros Hsg Hi Hf He Hno. pose proof (mantissa_not_e _ _ _ Hsg Hi Hf) as Hh.
  unfold normalize_exponent. rewrite as_of_bytes.
  rewrite !existsb_app, !orb_false_iff in Hno. destruct Hno as (_ & _ & _ & Hno).
  replace (sg ++ i ++ f ++ e) with ((sg ++ i ++ f) ++ e) by by rewrite <-!app_assoc.
  destruct He as [->|(c & es & ds & -> & Hc & Hes & Hds & Hall)].
  { exists []. rewrite find_byte_None by by rewrite app_nil_r.
    rewrite <-!app_assoc. split_and!; [done|by left|done|done]. }
  simpl in Hno. apply orb_false_iff in Hno as [Hcno Hno]. rewrite existsb_app, orb_false_iff in Hno.
  assert (c = "e"%char) as -> by (revert Hc Hcno; clear; by_bytes c).
  rewrite find_byte_app by done.
  assert (Hcase : (es = ["-"%char] ∧ byte_is (es ++ ds) 0 (Ascii.eqb "-") = true) ∨
    (es = [] ∧ byte_is (es ++ ds) 0 (Ascii.eqb "-") = false)).
  { destruct Hes as [->|(s & -> & Hs)].
    - right. split; [done|]. destruct Hall as [|d ds Hd _]; [done|]. cbn. revert Hd. clear. by_bytes d.
    - left. destruct Hno as [Hs' _]. simpl in Hs'. rewrite orb_false_r in Hs'.
      assert (s = "-"%char) as -> by (revert Hs Hs'; clear; by_bytes s). done. }
  destruct Hcase as [[-> ->]|[-> ->]].
  - exists ("e"%char :: ["-"%char] ++ ds). rewrite <-!app_assoc. split_and!; [done| |done|done].
    right. exists "e"%char, ["-"%char], ds. split_and!; eauto.
  - exists ("e"%char :: ["+"%char] ++ ds). rewrite <-!app_assoc. split_and!; [done| | |done].
    + right. exists "e"%char, ["+"%char], ds. split_and!; eauto.
    + unfold exponent_value. rewrite !split_exponent_sign by eauto. done.
Qed.

(** A literal is a float when it has a fraction or an exponent. *)
Lemma float_text sg i f e :
  (sg = [] ∨ sg = ["-"%char]) → integer_text i → fraction_text f → exponent_text e →
  existsb is_float_byte (sg ++ i ++ f ++ e) = true ↔ f ≠ [] ∨ e ≠ [].
Proof.
  intros Hsg Hi Hf He. rewrite !existsb_app, !orb_true_iff.
  assert (existsb is_float_byte sg = false) as -> by by destruct Hsg as [->| ->].
  assert (existsb is_float_byte i = false) as ->.
  { apply integer_digits in Hi as [_ Hi]. induction Hi as [|c i Hc _ IH]; [done|]. simpl. rewrite IH, orb_false_r.
    revert Hc. by_bytes c. }
  assert (existsb is_float_byte f = true ↔ f ≠ []) as -> by by destruct Hf as [->|(ds & -> & _)].
  assert (existsb is_float_byte e = true ↔ e ≠ []) as ->; [|naive_solver].
  destruct He as [->|(c & es & ds & -> & Hc & _)]; [done|]. simpl.
  split; [done|]. intros _. apply orb_true_iff. left. revert Hc. by_bytes c.
Qed.

Section stable.
Context (format_finite : f64 → string) `{!RyuFormat format_finite}.

(** What [Number::parse] does to the rendering of a double. *)
Lemma rendered_stable neg m e : f64_canonical m e →
  let n := normalize_exponent (format_finite (Finite neg m e)) in
  valid_number (as_bytes n) = true ∧ existsb is_float_byte (as_bytes n) = true ∧ Number_parse format_finite n = n.
Proof.
  intros Hc. pose proof (ryu_number neg m e Hc) as Hv. pose proof (ryu_float neg m e Hc) as Hf.
  pose proof (ryu_lower neg m e Hc) as Hl. pose proof (ryu_parse neg m e Hc) as Hp.
  apply valid_number_spec in Hv as (sg & i & f & ex & E & Hsg & Hi & Hfr & He).
  rewrite E in Hf, Hl. rewrite float_text in Hf by done.
  assert (Es : format_finite (Finite neg m e) = of_bytes (sg ++ i ++ f ++ ex)) by by rewrite <-E, of_as_bytes.
  rewrite Es in Hp |- *.
  destruct (normalize_exponent_spec sg i f ex Hsg Hi Hfr He Hl) as (e' & En & He' & Hval & Hnil).
  simpl. split.
  { rewrite En, as_of_bytes. apply valid_number_spec. by exists sg, i, f, e'. }
  assert (Hfloat : existsb is_float_byte (sg ++ i ++ f ++ e') = true) by (rewrite float_text by done; naive_solver).
  rewrite En, as_of_bytes. split; [done|]. unfold Number_parse at 1. rewrite as_of_bytes, Hfloat. simpl.
  destruct (String.eqb_spec (of_bytes (sg ++ i ++ f ++ e')) "-0") as [E0|_].
  { apply (f_equal as_bytes) in E0. rewrite as_of_bytes in E0. by rewrite E0 in Hfloat. }
  assert (Hp' : parse_f64 (of_bytes (sg ++ i ++ f ++ e')) = Some (Finite neg m e)).
  { rewrite <-Hp. unfold parse_f64. by rewrite !parse_decimal_spec, Hval by done. }
  rewrite Hp'. simpl. by rewrite Es, En.
Qed.

(** An integer literal other than ["-0"] is kept; any other literal is a float
    and stays one. *)
Lemma Number_parse_cases s : valid_number (as_bytes s) = true →
  Number_parse format_finite s = s ∧ existsb is_float_byte (as_bytes s) = false ∧ s ≠ "-0"%string ∨
  (s = "-0"%string ∨ existsb is_float_byte (as_bytes s) = true) ∧
  existsb is_float_byte (as_bytes (Number_parse format_finite s)) = true.
Proof.
  intros Hv. unfold Number_parse. destruct (String.eqb_spec s "-0") as [->|Hz]; [right; auto|].
  destruct (existsb is_float_byte (as_bytes s)) eqn:Ef; simpl; [right|left; auto]. split; [auto|].
  destruct (parse_f64 s) as [[neg m e|neg]|] eqn:Ep; simpl; [|done..].
  apply rendered_stable. eapply (parse_f64_canonical (as_bytes s)); [by apply valid_number_spec|by rewrite of_as_bytes].
Qed.

Lemma Number_parse_stable s : valid_number (as_bytes s) = true →
  valid_number (as_bytes (Number_parse format_finite s)) = true ∧
  Number_parse format_finite (Number_parse format_finite s) = Number_parse format_finite s.
Proof.
  intros Hv. unfold Number_parse at 1 3 4.
  destruct (String.eqb_spec s "-0") as [->|Hz].
  { split; [done|]. unfold Number_parse. replace (parse_f64 "-0.0") with (Some (Finite true 0 (-1074))) by done.
    simpl. by rewrite (ryu_neg_zero (format_finite := format_finite)). }
  destruct (existsb is_float_byte (as_bytes s)) eqn:Ef; simpl.
  2:{ split; [done|]. unfold Number_parse. rewrite Ef. simpl. by apply String.eqb_neq in Hz as ->. }
  destruct (parse_f64 s) as [[neg m e|neg]|] eqn:Ep; simpl.
  - edestruct (rendered_stable neg m e) as (? & _ & ?); [|done]. eapply (parse_f64_canonical (as_bytes s)).
    + by apply valid_number_spec.
    + by rewrite of_as_bytes.
  - split; [done|]. unfold Number_parse. rewrite Ef, Ep. apply String.eqb_neq in Hz as ->. done.
  - split; [done|]. unfold Number_parse. rewrite Ef, Ep. apply String.eqb_neq in Hz as ->. done.
Qed.
End stable.

(** ** Decimal text *)

Lemma size_nat_gt n : (n < 2 ^ N.of_nat (N.size_nat n))%N.
Proof.
  destruct n as [|p]; [done|]. cbn [N.size_nat].
  induction p as [p IH|p IH|]; cbn [Pos.size_nat]; [..|done];
    rewrite Nat2N.inj_succ, N.pow_succ_r'; lia.
Qed.

Lemma value_from_app acc a b : value_from acc (a ++ b) = value_from (value_from acc a) b.
Proof. apply foldl_app. Qed.

(** Text of a natural number. *)
Definition dec_text (n : N) (ds : bytes) : Prop :=
  all is_ascii_digit ds ∧ value_from 0 ds = Z.of_N n ∧
  ∃ c r, ds = c :: r ∧ (n = 0%N → ds = ["0"%char]) ∧ (n ≠ 0%N → between 49 57 c = true).

Lemma digit_of n : (n < 10)%N →
  is_ascii_digit (ascii_of_N (48 + n)) = true ∧ digit_value (ascii_of_N (48 + n)) = Z.of_N n ∧
  (n ≠ 0%N → between 49 57 (ascii_of_N (48 + n)) = true).
Proof.
  intros. unfold digit_value. rewrite code_ascii by lia. split_and!.
  - apply lead_byte_between; lia.
  - lia.
  - intros. apply lead_byte_between; lia.
Qed.

Lemma dec_loop_spec fuel n acc : (n < 2 ^ N.of_nat fuel)%N →
  ∃ ds, dec_loop (S fuel) n acc = ds ++ acc ∧ dec_text n ds.
Proof.
  revert n acc. induction fuel as [|fuel IH]; intros n acc Hn.
  { assert (n = 0%N) as -> by (simpl in Hn; lia). exists ["0"%char]. split; [done|].
    split_and!; [by repeat constructor|done|]. by exists "0"%char, []. }
  rewrite Nat2N.inj_succ, N.pow_succ_r' in Hn.
  pose proof (N.div_mod n 10 ltac:(done)) as E. pose proof (N.mod_lt n 10 ltac:(done)) as Hr.
  destruct (digit_of (n `mod` 10)%N Hr) as (Hd & Hv & Hnz).
  remember (S fuel) as fuel' eqn:Ef. cbn [dec_loop]. destruct (N.eqb_spec (n / 10) 0) as [Eq|Eq].
  - exists [ascii_of_N (48 + n `mod` 10)]. split; [done|]. rewrite Eq in E. split_and!.
    + by repeat constructor.
    + simpl. rewrite Hv. generalize dependent (n `mod` 10)%N. intros. lia.
    + assert (En : n = (n `mod` 10)%N) by (generalize dependent (n `mod` 10)%N; intros; lia).
      eexists _, _. split; [done|]. rewrite <-En in *. split; [by intros ->|done].
  - subst fuel'. destruct (IH (n / 10)%N (ascii_of_N (48 + n `mod` 10) :: acc)) as (ds & -> & Hds & Hval & c & r & -> & H0 & H1).
    { revert E Hn. clear. generalize (n `mod` 10)%N (n / 10)%N. intros. lia. }
    exists ((c :: r) ++ [ascii_of_N (48 + n `mod` 10)]). rewrite <-app_assoc. split; [done|]. split_and!.
    + apply Forall_app. split; [done|by repeat constructor].
    + rewrite value_from_app, Hval. simpl. rewrite Hv.
      generalize dependent (n `mod` 10)%N. generalize dependent (n / 10)%N. intros. lia.
    + exists c, (r ++ [ascii_of_N (48 + n `mod` 10)]). split; [done|]. split; [|auto].
      intros ->. by destruct Eq.
Qed.

Lemma dec_spec n : dec_text n (dec n).
Proof.
  destruct (dec_loop_spec (N.size_nat n) n [] (size_nat_gt n)) as (ds & E & H).
  unfold dec. by rewrite E, app_nil_r.
Qed.

Lemma dec_integer n : integer_text (dec n).
Proof.
  destruct (dec_spec n) as (Hd & _ & c & r & E & H0 & H1).
  destruct (decide (n = 0%N)) as [Hn|Hn]; [left; auto|right].
  rewrite E in *. exists c, r. apply Forall_cons in Hd as [_ ?]. auto.
Qed.

(** ** A printer that satisfies [RyuFormat]: the exact decimal expansion *)

Definition exact_bytes (neg : bool) (m e : Z) : bytes :=
  (if neg then ["-"%char] else []) ++
  (if m =? 0 then as_bytes "0.0"
   else if 0 <=? e then dec (Z.to_N (m * 2 ^ e)) ++ as_bytes ".0"
   else dec (Z.to_N (m * 5 ^ (- e))) ++ "e"%char :: "-"%char :: dec (Z.to_N (- e))).

Definition exact_format (x : f64) : string :=
  match x with Finite neg m e => of_bytes (exact_bytes neg m e) | Infinite _ => "" end.

(** Rounding leaves a double alone. *)
Lemma f64_nearest_exact neg num den m e : 0 < num → 0 < den → f64_canonical m e →
  (0 ≤ e → num = m * 2 ^ e * den) → (e < 0 → num * 2 ^ (- e) = m * den) →
  f64_nearest neg num den = Finite neg m e.
Proof.
  intros Hn Hd (Hm & He & Hc) Hpos Hneg. assert (Hm0 : 0 < m).
  { destruct (Z.lt_ge_cases e 0) as [H|H]; [specialize (Hneg H)|specialize (Hpos H)];
      pose proof (pow2_pos (Z.abs e)); [replace (Z.abs e) with (- e) in * by lia|]; nia. }
  destruct (Z.log2_spec m Hm0) as [L1 L2]. rewrite Z.pow_succ_r in L2 by apply Z.log2_nonneg.
  pose proof (Z.log2_nonneg m) as L0.
  assert (El : log2_ratio num den = Z.log2 m + e).
  { apply log2_ratio_unique; try done.
    - destruct (Z.lt_ge_cases e 0) as [H|H]; [specialize (Hneg H)|specialize (Hpos H)].
      + apply (pow2_le_intro _ _ Hd _ (- e) (Z.log2 m)); [lia..|]. nia.
      + apply (pow2_le_intro _ _ Hd _ 0 (Z.log2 m + e)); [lia..|].
        rewrite Hpos, Z.pow_add_r by lia. pose proof (pow2_pos e H). nia.
    - destruct (Z.lt_ge_cases e 0) as [H|H]; [specialize (Hneg H)|specialize (Hpos H)].
      + apply (lt_pow2_intro _ _ Hd _ (- e) (Z.log2 m + 1)); [lia..|].
        rewrite Z.pow_add_r by lia. change (2 ^ 1) with 2. nia.
      + apply (lt_pow2_intro _ _ Hd _ 0 (Z.log2 m + 1 + e)); [lia..|].
        rewrite Hpos, !Z.pow_add_r by lia. change (2 ^ 1) with 2. change (2 ^ 0) with 1.
        pose proof (pow2_pos e H). nia. }
  assert (Ek : Z.max (log2_ratio num den - 52) (-1074) = e).
  { rewrite El. destruct Hc as [Hc| ->].
    - assert (Z.log2 m = 52); [|lia]. apply Z.log2_unique; lia.
    - assert (Z.log2 m < 53); [|lia]. apply Z.log2_lt_pow2; lia. }
  unfold f64_nearest. rewrite Ek. clear El Ek.
  assert ((if e <=? 0 then round_half_even (num * 2 ^ (- e)) den
    else round_half_even num (den * 2 ^ e)) = m) as ->.
  { destruct (Z.leb_spec e 0) as [H|H].
    - replace (num * 2 ^ (- e)) with (m * den); [by apply round_exact|].
      destruct (Z.eq_dec e 0) as [->|]; [rewrite Hpos by lia; simpl; lia|]. rewrite Hneg by lia. done.
    - rewrite Hpos by lia. replace (m * 2 ^ e * den) with (m * (den * 2 ^ e)) by lia.
      apply round_exact. pose proof (pow2_pos e). lia. }
  destruct (Z.eqb_spec m (2 ^ 53)); [lia|]. destruct (Z.ltb_spec 971 e); [lia|done].
Qed.

Lemma exact_text neg m e : f64_canonical m e →
  ∃ i f ex, exact_bytes neg m e = (if neg then ["-"%char] else []) ++ i ++ f ++ ex ∧
    integer_text i ∧ fraction_text f ∧ exponent_text ex ∧ (f ≠ [] ∨ ex ≠ []) ∧
    existsb (λ c, (c =b "+") || (c =b "E")) (exact_bytes neg m e) = false ∧
    parse_f64 (of_bytes (exact_bytes neg m e)) = Some (Finite neg m e).
Proof.
  intros Hcan. pose proof Hcan as (Hm & He & Hc).
  assert (Hlow : ∀ n, existsb (λ c, (c =b "+") || (c =b "E")) (dec n) = false).
  { intros n. destruct (dec_spec n) as (Hd & _). induction Hd as [|c ds Hd _ IH]; [done|]. simpl.
    rewrite IH, orb_false_r. revert Hd. clear. by_bytes c. }
  assert (Hsig : ∀ s : bool, (if s then ["-"%char] else []) = [] ∨ (if s then ["-"%char] else []) = ["-"%char])
    by (intros []; auto).
  assert (Hneg : byte_is (if neg then ["-"%char] else []) 0 (Ascii.eqb "-") = neg) by by destruct neg.
  assert (Hz : fraction_text (as_bytes ".0")) by (right; exists ["0"%char]; by repeat constructor).
  unfold exact_bytes. destruct (Z.eqb_spec m 0) as [->|Hm0]; [|destruct (Z.leb_spec 0 e) as [He0|He0]].
  - assert (e = -1074) as -> by lia.
    exists ["0"%char], (as_bytes ".0"), []. split_and!; [done|by left|done|by left|by left| |]; by destruct neg.
  - exists (dec (Z.to_N (m * 2 ^ e))), (as_bytes ".0"), []. rewrite app_nil_r.
    split_and!; [done|apply dec_integer|done|by left|by left| |].
    { rewrite !existsb_app, Hlow. by destruct neg. }
    replace (dec (Z.to_N (m * 2 ^ e)) ++ as_bytes ".0") with (dec (Z.to_N (m * 2 ^ e)) ++ as_bytes ".0" ++ [])
      by by rewrite app_nil_r.
    unfold parse_f64. rewrite parse_decimal_spec by (auto using dec_integer; by left).
    rewrite Hneg. destruct (dec_spec (Z.to_N (m * 2 ^ e))) as (_ & -> & _). f_equal.
    pose proof (pow2_pos e He0). rewrite Z2N.id by nia. simpl. rewrite Z.add_0_r.
    replace (0 - Z.of_nat 1) with (-1) by done. change (10 ^ (- -1)) with 10.
    destruct (Z.eqb_spec (m * 2 ^ e * 10) 0); [nia|].
    destruct (Z.ltb_spec (Z.log2 (m * 2 ^ e * 10) + 1 + 3 * -1) (-1075)).
    { pose proof (Z.log2_nonneg (m * 2 ^ e * 10)). lia. }
    apply f64_nearest_exact; [nia|lia|done|intros; lia|lia].
  - exists (dec (Z.to_N (m * 5 ^ (- e)))), [], ("e"%char :: ["-"%char] ++ dec (Z.to_N (- e))).
    assert (Hex : exponent_text ("e"%char :: ["-"%char] ++ dec (Z.to_N (- e)))).
    { right. exists "e"%char, ["-"%char], (dec (Z.to_N (- e))). destruct (dec_integer (Z.to_N (- e))) as [E|(c & r & E & _)];
        destruct (dec_spec (Z.to_N (- e))) as (? & _); split_and!; eauto; by rewrite E. }
    split_and!; [done|apply dec_integer|by left|done|by right| |].
    { rewrite !existsb_app. simpl. rewrite !Hlow. by destruct neg. }
    change (?d ++ "e"%char :: "-"%char :: ?r) with (d ++ [] ++ ("e"%char :: ["-"%char] ++ r)).
    unfold parse_f64. rewrite parse_decimal_spec by (auto using dec_integer; by left).
    rewrite Hneg. f_equal. cbn [fraction_digits value_from foldl length].
    destruct (dec_spec (Z.to_N (m * 5 ^ (- e)))) as (_ & -> & _).
    assert (exponent_value ("e"%char :: ["-"%char] ++ dec (Z.to_N (- e))) = e) as ->.
    { unfold exponent_value. destruct (dec_spec (Z.to_N (- e))) as (Hd & Hv & c & r & E & _).
      rewrite split_exponent_sign by (eauto; by rewrite E). simpl. rewrite as_of_bytes, Hv. lia. }
    assert (Hp : 0 < 5 ^ (- e)) by (apply Z.pow_pos_nonneg; lia).
    rewrite Z2N.id by nia. rewrite Z.sub_0_r. destruct (Z.eqb_spec (m * 5 ^ (- e)) 0); [nia|].
    destruct (Z.ltb_spec 400 e); [lia|].
    destruct (Z.ltb_spec (Z.log2 (m * 5 ^ (- e)) + 1 + 3 * e) (-1075)) as [Hlt|_].
    { assert (2 * (- e) ≤ Z.log2 (m * 5 ^ (- e))); [|lia]. apply Z.log2_le_pow2; [nia|].
      rewrite Z.pow_mul_r by lia. change (2 ^ 2) with 4.
      pose proof (Z.pow_le_mono_l 4 5 (- e)). nia. }
    destruct (Z.leb_spec 0 e); [lia|].
    apply f64_nearest_exact; [nia|apply Z.pow_pos_nonneg; lia|done|lia|].
    intros _. change 10 with (5 * 2). rewrite Z.pow_mul_l. lia.
Qed.

#[export] Instance exact_ryu : RyuFormat exact_format.
Proof.
  split; [intros neg m e Hc; destruct (exact_text neg m e Hc) as (i & f & ex & E & Hi & Hf & He & Hfl & Hlow & Hp);
    cbn [exact_format]; rewrite ?as_of_bytes; try done..|done].
  - apply valid_number_spec. rewrite E. eexists _, i, f, ex. split; [done|]. split_and!; try done. destruct neg; auto.
  - rewrite E. apply float_text; try done. destruct neg; auto.
Qed.

(** ** Integers and their texts *)

Lemma value_from_snoc acc ds d : value_from acc (ds ++ [d]) = value_from acc ds * 10 + digit_value d.
Proof. apply value_from_app. Qed.

Lemma digit_value_range c : is_ascii_digit c = true → 0 ≤ digit_value c ≤ 9.
Proof. by_bytes c. Qed.

Lemma digit_value_inj c d : is_ascii_digit c = true → is_ascii_digit d = true →
  digit_value c = digit_value d → c = d.
Proof.
  intros Hc Hd E. unfold digit_value in E. assert (Ecode : code c = code d) by lia.
  unfold code in Ecode. by rewrite <-(ascii_N_embedding c), Ecode, ascii_N_embedding.
Qed.

(** A run of digits that is the whole number or does not begin with zero. *)
Lemma value_from_grows ds acc : 0 ≤ acc → all is_ascii_digit ds → acc ≤ value_from acc ds.
Proof.
  intros Ha Hds. revert acc Ha. induction Hds as [|c ds Hc _ IH]; intros acc Ha; simpl; [done|].
  pose proof (digit_value_range c Hc). etrans; [|apply IH]; lia.
Qed.

(** Every proper non-empty prefix is positive, so the length is determined. *)
Definition no_leading_zero (a : bytes) : Prop := ∀ x y d, a = x ++ d :: y → x ≠ [] → 1 ≤ value_from 0 x.

Lemma integer_no_leading_zero a : integer_text a → no_leading_zero a.
Proof.
  intros Ha x y d -> Hx. destruct x as [|b x]; [done|]. destruct Ha as [E|(c & ds & E & Hc & Hds)].
  { injection E as _ E. by destruct x. }
  simpl in E. injection E as -> <-. apply Forall_app in Hds as [Hx' _].
  assert (1 ≤ digit_value c) by (revert Hc; clear; by_bytes c).
  simpl. etrans; [|apply value_from_grows]; [done|lia|done].
Qed.

Lemma digits_inj a b : all is_ascii_digit a → all is_ascii_digit b →
  no_leading_zero a → no_leading_zero b → a ≠ [] → b ≠ [] → value_from 0 a = value_from 0 b → a = b.
Proof.
  revert b. induction a as [|d a IH] using rev_ind; intros b Ha Hb Hpa Hpb Hna Hnb E; [done|].
  destruct (exists_last Hnb) as (b' & d' & ->). rewrite !value_from_snoc in E.
  apply Forall_app in Ha as [Ha [Hd _]%Forall_cons]. apply Forall_app in Hb as [Hb [Hd' _]%Forall_cons].
  pose proof (digit_value_range _ Hd). pose proof (digit_value_range _ Hd').
  assert (value_from 0 a = value_from 0 b' ∧ digit_value d = digit_value d') as [Ev Ed] by lia.
  apply digit_value_inj in Ed as <-; try done. f_equal.
  destruct (decide (a = [])) as [->|Hna']; destruct (decide (b' = [])) as [->|Hnb']; try done.
  - pose proof (Hpb b' [] d eq_refl Hnb'). simpl in Ev. lia.
  - pose proof (Hpa a [] d eq_refl Hna'). simpl in Ev. lia.
  - apply IH; try done; intros x y e ->; [eapply Hpa|eapply Hpb]; by rewrite <-!app_assoc.
Qed.

Lemma integer_text_inj a b : integer_text a → integer_text b → value_from 0 a = value_from 0 b → a = b.
Proof.
  intros Ha Hb. destruct (integer_digits _ Ha). destruct (integer_digits _ Hb).
  apply digits_inj; auto using integer_no_leading_zero.
Qed.

Lemma integer_text_dec i : integer_text i → i = dec (Z.to_N (value_from 0 i)).
Proof.
  intros Hi. apply integer_text_inj; [done|apply dec_integer|].
  destruct (dec_spec (Z.to_N (value_from 0 i))) as (_ & -> & _). rewrite Z2N.id; [done|].
  apply value_from_nonneg; [done|]. by apply integer_digits.
Qed.

Lemma parse_i64_digits ds : ds ≠ [] → all is_ascii_digit ds →
  parse_i64 (of_bytes ds) = Json.in_range I64_MIN I64_MAX (Some (value_from 0 ds)) ∧
  parse_u64 (of_bytes ds) = Json.in_range 0 U64_MAX (Some (value_from 0 ds)) ∧
  parse_i64 (of_bytes ("-"%char :: ds)) = Json.in_range I64_MIN I64_MAX (Some (- value_from 0 ds)) ∧
  parse_u64 (of_bytes ("-"%char :: ds)) = None.
Proof.
  intros Hne Hds. pose proof (parse_digits_spec ds Hds Hne) as E.
  unfold parse_i64, parse_u64, parse_signed, parse_unsigned.
  change (of_bytes ("-"%char :: ds)) with (String.String "-" (of_bytes ds)). cbv iota. rewrite E.
  split_and!; try done.
  - destruct Hds as [|c ds Hc Hds]; [done|]. cbn [of_bytes String.string_of_list_ascii] in *. rewrite <-E.
    f_equal. revert Hc. clear. generalize (parse_digits). intros f. generalize (String.string_of_list_ascii ds).
    by_bytes c.
  - destruct Hds as [|c ds Hc Hds]; [done|]. cbn [of_bytes String.string_of_list_ascii] in *. rewrite <-E.
    f_equal. revert Hc. clear. generalize (parse_digits). intros f. generalize (String.string_of_list_ascii ds).
    by_bytes c.
Qed.

Lemma int_to_string_text z : ∃ sg n, int_to_string z = of_bytes (sg ++ dec n) ∧
  ((sg = [] ∧ z = Z.of_N n) ∨ (sg = ["-"%char] ∧ z = - Z.of_N n ∧ n ≠ 0%N)).
Proof.
  unfold int_to_string. destruct (Z.ltb_spec z 0).
  - exists ["-"%char], (Z.to_N (- z)). split; [done|right]. split_and!; [done|lia|lia].
  - exists [], (Z.to_N z). split; [done|left]. split; [done|lia].
Qed.

Lemma int_to_string_valid z : valid_number (as_bytes (int_to_string z)) = true.
Proof.
  destruct (int_to_string_text z) as (sg & n & -> & Hsg). rewrite as_of_bytes. apply valid_number_spec.
  exists sg, (dec n), [], []. rewrite !app_nil_r. split_and!; [done| |apply dec_integer|by left|by left].
  naive_solver.
Qed.

Lemma int_to_string_not_float z : existsb is_float_byte (as_bytes (int_to_string z)) = false.
Proof.
  destruct (int_to_string_text z) as (sg & n & -> & Hsg). rewrite as_of_bytes.
  apply Bool.not_true_iff_false. rewrite <-(app_nil_r (dec n)). change (dec n ++ []) with (dec n ++ [] ++ []).
  rewrite float_text; [naive_solver|naive_solver|apply dec_integer|by left|by left].
Qed.

Lemma dec_head n : n ≠ 0%N → ∃ c r, dec n = c :: r ∧ between 49 57 c = true.
Proof. intros Hn. destruct (dec_spec n) as (_ & _ & c & r & E & _ & Hc). eauto. Qed.

Lemma int_to_string_not_neg_zero z : (int_to_string z ==s "-0") = false.
Proof.
  destruct (int_to_string_text z) as (sg & n & -> & Hsg). apply String.eqb_neq. intros E.
  apply (f_equal as_bytes) in E. rewrite as_of_bytes in E.
  destruct Hsg as [[-> _]|(-> & _ & Hn)].
  - destruct (integer_digits _ (dec_integer n)) as [_ Hd]. simpl in E. rewrite E in Hd.
    by apply Forall_cons in Hd as [? _].
  - destruct (dec_head n Hn) as (c & r & Ec & Hc). rewrite Ec in E. simpl in E. injection E as -> _. done.
Qed.

Lemma parse_int_to_string z : is_i64 z → parse_i64 (int_to_string z) = Some z.
Proof.
  unfold is_i64. intros Hz. destruct (int_to_string_text z) as (sg & n & -> & Hsg).
  destruct (dec_spec n) as (Hd & Hv & c & r & E & _).
  destruct (parse_i64_digits (dec n)) as (E1 & _ & E3 & _); [by rewrite E|done|]. rewrite Hv in *.
  assert (Hr : Json.in_range I64_MIN I64_MAX (Some z) = Some z).
  { unfold Json.in_range. by rewrite (proj2 (Z.leb_le _ _) (proj1 Hz)), (proj2 (Z.leb_le _ _) (proj2 Hz)). }
  destruct Hsg as [[-> ->]|(-> & -> & _)]; [by rewrite app_nil_l, E1|by rewrite <-Hr, <-E3].
Qed.

(** The check that the digits do not begin with a superfluous zero. *)
Lemma canonical_digits sg n : (sg = [] ∨ sg = ["-"%char] ∧ n ≠ 0%N) →
  let digits := match sg ++ dec n with
                | c :: r => if c =b "-" then r else sg ++ dec n
                | [] => []
                end in
  match digits with [] => true | c :: _ => negb (of_bytes digits ==s "0") && (c =b "0") end = false.
Proof.
  intros Hsg. assert (Hdec : match dec n with
      | [] => true | c :: _ => negb (of_bytes (dec n) ==s "0") && (c =b "0") end = false).
  { destruct (decide (n = 0%N)) as [->|Hn]; [done|]. destruct (dec_head n Hn) as (c & r & -> & Hc).
    apply andb_false_iff. right. revert Hc. clear. by_bytes c. }
  destruct Hsg as [->|[-> _]]; [|done]. destruct (dec_spec n) as (Hd & _ & c & r & E & _).
  simpl. rewrite E in *. apply Forall_cons in Hd as [Hc _].
  assert ((c =b "-") = false) as -> by (revert Hc; clear; by_bytes c). done.
Qed.

Lemma canonical_integer_spec s : valid_number (as_bytes s) = true →
  is_canonical_integer_str s = true ↔
  ∃ z, MIN_SAFE_INTEGER ≤ z ≤ MAX_SAFE_INTEGER ∧ s = int_to_string z.
Proof.
  intros Hv. split.
  - assert (∃ x, s = of_bytes x) as [x ->] by (exists (as_bytes s); by rewrite of_as_bytes).
    unfold is_canonical_integer_str. rewrite as_of_bytes in *. intros H.
    destruct (_ || existsb is_float_byte x) eqn:Hg; [done|].
    apply orb_false_iff in Hg as [Hg Hfl]. apply orb_false_iff in Hg as [_ Hz].
    apply valid_number_spec in Hv as (sg & i & f & e & -> & Hsg & Hi & Hf & He).
    assert (Hfe : f = [] ∧ e = []).
    { apply Bool.not_true_iff_false in Hfl. rewrite float_text in Hfl by done.
      destruct f, e; try done; exfalso; apply Hfl; by (left + right). }
    destruct Hfe as [-> ->]. rewrite !app_nil_r in *. destruct (integer_digits _ Hi) as [Hne Hd].
    pose proof (value_from_nonneg i 0 ltac:(done) Hd) as Hnn. pose proof (integer_text_dec i Hi) as Ei.
    destruct (parse_i64_digits i Hne Hd) as (E1 & E2 & E3 & E4). unfold Json.in_range in *.
    destruct Hsg as [->| ->]; cbn [app] in *.
    + rewrite E1, E2 in H. exists (value_from 0 i). split.
      * unfold MIN_SAFE_INTEGER, MAX_SAFE_INTEGER in *. repeat case_match; simplify_eq;
          rewrite ?orb_true_iff, ?orb_false_r, ?andb_true_iff, ?Z.leb_le in *; lia.
      * unfold int_to_string. destruct (Z.ltb_spec (value_from 0 i) 0); [lia|]. by rewrite <-Ei.
    + rewrite E3, E4 in H. exists (- value_from 0 i). split.
      * unfold MIN_SAFE_INTEGER, MAX_SAFE_INTEGER in *. repeat case_match; simplify_eq;
          rewrite ?orb_true_iff, ?orb_false_r, ?andb_true_iff, ?Z.leb_le in *; lia.
      * unfold int_to_string. destruct (Z.ltb_spec (- value_from 0 i) 0) as [|Hge].
        { by rewrite Z.opp_involutive, <-Ei. }
        replace (value_from 0 i) with 0 in Ei by lia. subst i. done.
  - intros (z & Hz & ->). unfold is_canonical_integer_str.
    rewrite int_to_string_not_float, int_to_string_not_neg_zero, !orb_false_r.
    destruct (int_to_string_text z) as (sg & n & E & Hsg).
    pose proof (canonical_digits sg n) as Hc. cbv zeta in Hc. rewrite <-(as_of_bytes (sg ++ dec n)), <-E in Hc.
    rewrite Hc by naive_solver. rewrite parse_int_to_string.
    + apply orb_true_iff. left. by rewrite (proj2 (Z.leb_le _ _) (proj1 Hz)), (proj2 (Z.leb_le _ _) (proj2 Hz)).
    + revert Hz. unfold is_i64, MIN_SAFE_INTEGER, MAX_SAFE_INTEGER, I64_MIN, I64_MAX. lia.
Qed.
