(* ===== verification/JsonWriter.v ===== *)
(** * JSON writers ([src/rezzy-json/src/lib.rs])

    The compact writer, the writer that leaves out object keys, and the
    indented writer.  Each threads the output buffer as the code does; the
    lemmas show that what they append is a text that depends on the value only. *)
From stdpp Require Import prelude strings.
From Stdlib Require String.
From Stdlib Require Import Ascii.
From S2P Require Import Prelude Json JsonText JsonTextProps.

Local Open Scope nat_scope.

(** ** Strings *)

Definition is_plain (b : ascii) : bool :=
  (32 <=? code b)%N && negb (b =b "034") && negb (b =b "\").

(** The loop over the bytes; [run] is the slice [value[run..index]]. *)
Fixpoint write_string_loop (out run rest : bytes) : bytes :=
  match rest with
  | [] => out ++ run
  | b :: rest =>
      if is_plain b then write_string_loop out (run ++ [b]) rest
      else write_string_loop ((out ++ run) ++ push_escape b) [] rest
  end.

Definition write_string_into (out : bytes) (s : string) : bytes :=
  write_string_loop (out ++ ["034"%char]) [] (as_bytes s) ++ ["034"%char].

(** ** The compact writer *)

Definition push_str (out : bytes) (s : string) : bytes := out ++ as_bytes s.
Definition write_bool (v : bool) : string := if v then "true" else "false".

Fixpoint write_value_into (out : bytes) (v : value) {struct v} : bytes :=
  match v with
  | Null => push_str out "null"
  | Bool v => push_str out (write_bool v)
  | Number n => push_str out n
  | VString s => write_string_into out s
  | Array items =>
      (fix go (i : nat) (out : bytes) (l : list value) : bytes :=
         match l with
         | [] => out
         | item :: l =>
             let out := if i =? 0 then out else push_str out "," in
             go (S i) (write_value_into out item) l
         end) 0 (push_str out "[") items ++ as_bytes "]"
  | Object obj =>
      (fix go (i : nat) (out : bytes) (o : object) : bytes :=
         match o with
         | [] => out
         | (key, item) :: o =>
             let out := if i =? 0 then out else push_str out "," in
             let out := push_str (write_string_into out key) ":" in
             go (S i) (write_value_into out item) o
         end) 0 (push_str out "{") obj ++ as_bytes "}"
  end.

Definition write_string_value (v : value) : string := of_bytes (write_value_into [] v).

(** ** Writing without some of the keys *)

Section filtered.
Context (exclude : string → bool).

Fixpoint write_value_filtered (out : bytes) (v : value) {struct v} : bytes :=
  match v with
  | Object obj =>
      (fix go (first : bool) (out : bytes) (o : object) : bytes :=
         match o with
         | [] => out
         | (key, item) :: o =>
             if exclude key then go first out o
             else
               let out := if first then out else push_str out "," in
               let out := push_str (write_string_into out key) ":" in
               go false (write_value_filtered out item) o
         end) true (push_str out "{") obj ++ as_bytes "}"
  | Array items =>
      (fix go (i : nat) (out : bytes) (l : list value) : bytes :=
         match l with
         | [] => out
         | item :: l =>
             let out := if i =? 0 then out else push_str out "," in
             go (S i) (write_value_filtered out item) l
         end) 0 (push_str out "[") items ++ as_bytes "]"
  | Null => push_str out "null"
  | Bool v => push_str out (write_bool v)
  | Number n => push_str out n
  | VString s => write_string_into out s
  end.

Definition write_string_value_filtered (v : value) : string := of_bytes (write_value_filtered [] v).

(** What the filter leaves of a value. *)
Fixpoint prune (v : value) : value :=
  match v with
  | Object obj =>
      Object ((fix go (o : object) : object :=
                 match o with
                 | [] => []
                 | (key, item) :: o =>
                     if exclude key then go o else (key, prune item) :: go o
                 end) obj)
  | Array items => Array (map prune items)
  | _ => v
  end.
End filtered.

(** ** The indented writer *)

Fixpoint indent (out : bytes) (depth : nat) : bytes :=
  match depth with O => out | S depth => indent (push_str out "  ") depth end.

Fixpoint write_value_pretty (out : bytes) (v : value) (depth : nat) {struct v} : bytes :=
  match v with
  | Array ((_ :: _) as items) =>
      let out :=
        (fix go (i : nat) (out : bytes) (l : list value) : bytes :=
           match l with
           | [] => out
           | item :: l =>
               let out := if i =? 0 then out ++ ["010"%char] else push_str out "," ++ ["010"%char] in
               let out := indent out (depth + 1) in
               go (S i) (write_value_pretty out item (depth + 1)) l
           end) 0 (push_str out "[") items in
      push_str (indent (out ++ ["010"%char]) depth) "]"
  | Object ((_ :: _) as obj) =>
      let out :=
        (fix go (i : nat) (out : bytes) (o : object) : bytes :=
           match o with
           | [] => out
           | (key, item) :: o =>
               let out := if i =? 0 then out else push_str out "," in
               let out := indent (out ++ ["010"%char]) (depth + 1) in
               let out := push_str (write_string_into out key) ": " in
               go (S i) (write_value_pretty out item (depth + 1)) o
           end) 0 (push_str out "{") obj in
      push_str (indent (out ++ ["010"%char]) depth) "}"
  | Null => push_str out "null"
  | Bool v => push_str out (write_bool v)
  | Number n => push_str out n
  | VString s => write_string_into out s
  | Array [] => push_str out "[]"
  | Object [] => push_str out "{}"
  end.

Definition write_string_pretty (v : value) : string := of_bytes (write_value_pretty [] v 0).

(** ** The text of a value *)

Definition escape_byte (b : ascii) : bytes := if is_plain b then [b] else push_escape b.
Definition string_text (s : string) : bytes :=
  "034"%char :: (as_bytes s ≫= escape_byte) ++ ["034"%char].

Lemma write_string_loop_spec out run rest :
  write_string_loop out run rest = out ++ run ++ (rest ≫= escape_byte).
Proof.
  revert out run. induction rest as [|b rest IH]; intros out run; simpl; [by rewrite app_nil_r|].
  unfold escape_byte at 1. destruct (is_plain b); rewrite IH; simpl; by rewrite <-!app_assoc.
Qed.

Lemma write_string_spec out s : write_string_into out s = out ++ string_text s.
Proof. unfold write_string_into. rewrite write_string_loop_spec. simpl. by rewrite <-!app_assoc. Qed.

Opaque string_text.

(** Layouts: how a writer separates the parts of a container.  The compact
    and the indented text of a value are two of them. *)
Record layout := Layout {
  lay_first : nat → bytes;
  lay_next : nat → bytes;
  lay_colon : bytes;
  lay_close : nat → bytes
}.

Fixpoint join (first next : bytes) (l : list bytes) : bytes :=
  match l with
  | [] => []
  | x :: l => first ++ x ++ join next next l
  end.

Section text.
Context (lay : layout).

(** [enclose open close d parts] is the text of a container at depth [d]. *)
Definition enclose (op cl : ascii) (depth : nat) (parts : list bytes) : bytes :=
  match parts with
  | [] => [op; cl]
  | _ => op :: join (lay_first lay depth) (lay_next lay depth) parts ++ lay_close lay depth ++ [cl]
  end.

Fixpoint text (v : value) (depth : nat) {struct v} : bytes :=
  match v with
  | Null => as_bytes "null"
  | Bool v => as_bytes (write_bool v)
  | Number n => as_bytes n
  | VString s => string_text s
  | Array items => enclose "[" "]" depth (map (λ x, text x (depth + 1)) items)
  | Object obj =>
      enclose "{" "}" depth
        (map (λ kv, string_text kv.1 ++ lay_colon lay ++ text kv.2 (depth + 1)) obj)
  end.
End text.

Definition compact : layout :=
  Layout (λ _, []) (λ _, [","%char]) [":"%char] (λ _, []).

Definition new_line (depth : nat) : bytes := "010"%char :: indent [] depth.
Definition pretty : layout :=
  Layout (λ d, new_line (d + 1)) (λ d, ","%char :: new_line (d + 1)) (as_bytes ": ") new_line.

Lemma indent_spec out d : indent out d = out ++ indent [] d.
Proof.
  revert out. induction d as [|d IH]; intros out; simpl; [by rewrite app_nil_r|].
  rewrite IH, (IH (push_str [] _)). unfold push_str. by rewrite <-!app_assoc.
Qed.

(** What precedes the [i]-th part of a container. *)
Definition separator (lay : layout) (d i : nat) : bytes :=
  if i =? 0 then lay_first lay d else lay_next lay d.

Lemma enclose_compact op cl d parts :
  enclose compact op cl d parts = op :: join [] [","%char] parts ++ [cl].
Proof. by destruct parts. Qed.

Lemma write_value_spec out v d : write_value_into out v = out ++ text compact v d.
Proof.
  revert out d. induction v as [| | | |l IH|o IH] using value_rect_nested; intros out d; simpl;
    unfold push_str; [done..|apply write_string_spec| |].
  - rewrite enclose_compact.
    assert (Hgo : ∀ i out, (fix go (i : nat) (out : bytes) (l : list value) {struct l} : bytes :=
        match l with
        | [] => out
        | item :: l => go (S i) (write_value_into (if i =? 0 then out else out ++ as_bytes ",") item) l
        end) i out l =
      out ++ join (separator compact d i) [","%char] (map (λ x, text compact x (d + 1)) l)).
    { clear out. induction IH as [|x l Hx _ IHl]; intros i out; simpl; [by rewrite app_nil_r|].
      rewrite Hx with (d := d + 1), IHl. unfold separator. destruct i; simpl; by rewrite <-!app_assoc. }
    rewrite Hgo. simpl. by rewrite <-!app_assoc.
  - rewrite enclose_compact.
    assert (Hgo : ∀ i out, (fix go (i : nat) (out : bytes) (o : object) {struct o} : bytes :=
        match o with
        | [] => out
        | (key, item) :: o => go (S i) (write_value_into
            (write_string_into (if i =? 0 then out else out ++ as_bytes ",") key ++ as_bytes ":") item) o
        end) i out o =
      out ++ join (separator compact d i) [","%char]
        (map (λ kv, string_text kv.1 ++ [":"%char] ++ text compact kv.2 (d + 1)) o)).
    { clear out. induction IH as [|[k x] o Hx _ IHo]; intros i out; simpl; [by rewrite app_nil_r|].
      rewrite Hx with (d := d + 1), IHo, write_string_spec. unfold separator. destruct i; simpl; by rewrite <-!app_assoc. }
    rewrite Hgo. simpl. by rewrite <-!app_assoc.
Qed.

Lemma write_pretty_spec out v d : write_value_pretty out v d = out ++ text pretty v d.
Proof.
  revert out d. induction v as [| | | |l IH|o IH] using value_rect_nested; intros out d;
    [done..|apply write_string_spec| |].
  - assert (Hgo : ∀ i out, (fix go (i : nat) (out : bytes) (l : list value) {struct l} : bytes :=
        match l with
        | [] => out
        | item :: l => go (S i) (write_value_pretty (indent
            (if i =? 0 then out ++ ["010"%char] else push_str out "," ++ ["010"%char]) (d + 1)) item (d + 1)) l
        end) i out l =
      out ++ join (separator pretty d i) (lay_next pretty d) (map (λ x, text pretty x (d + 1)) l)).
    { clear out. induction IH as [|x l Hx _ IHl]; intros i out; simpl; [by rewrite app_nil_r|].
      rewrite Hx, IHl, indent_spec. unfold push_str, separator, new_line.
      destruct i; simpl; by rewrite <-!app_assoc. }
    destruct l as [|x l]; [done|]. cbn [write_value_pretty]. rewrite Hgo.
    simpl. rewrite indent_spec. unfold push_str, new_line.
    rewrite <-!app_assoc. simpl. by rewrite ?app_comm_cons, <-?app_assoc.
  - assert (Hgo : ∀ i out, (fix go (i : nat) (out : bytes) (o : object) {struct o} : bytes :=
        match o with
        | [] => out
        | (key, item) :: o => go (S i) (write_value_pretty (push_str (write_string_into (indent
            ((if i =? 0 then out else push_str out ",") ++ ["010"%char]) (d + 1)) key) ": ") item (d + 1)) o
        end) i out o =
      out ++ join (separator pretty d i) (lay_next pretty d)
        (map (λ kv, string_text kv.1 ++ as_bytes ": " ++ text pretty kv.2 (d + 1)) o)).
    { clear out. induction IH as [|[k x] o Hx _ IHo]; intros i out; simpl; [by rewrite app_nil_r|].
      rewrite Hx, IHo, indent_spec, write_string_spec. unfold push_str, separator, new_line.
      destruct i; simpl; by rewrite <-!app_assoc. }
    destruct o as [|kv o]; [done|]. cbn [write_value_pretty]. rewrite Hgo.
    simpl. rewrite indent_spec. unfold push_str, new_line.
    rewrite <-!app_assoc. simpl. by rewrite ?app_comm_cons, <-?app_assoc.
Qed.

(** Leaving out keys while writing is writing what the filter leaves. *)
Lemma write_filtered_spec exclude out v d :
  write_value_filtered exclude out v = out ++ text compact (prune exclude v) d.
Proof.
  revert out d. induction v as [| | | |l IH|o IH] using value_rect_nested; intros out d; simpl;
    unfold push_str; [done..|apply write_string_spec| |].
  - rewrite enclose_compact.
    assert (Hgo : ∀ i out, (fix go (i : nat) (out : bytes) (l : list value) {struct l} : bytes :=
        match l with
        | [] => out
        | item :: l => go (S i) (write_value_filtered exclude (if i =? 0 then out else out ++ as_bytes ",") item) l
        end) i out l =
      out ++ join (separator compact d i) [","%char] (map (λ x, text compact x (d + 1)) (map (prune exclude) l))).
    { clear out. induction IH as [|x l Hx _ IHl]; intros i out; simpl; [by rewrite app_nil_r|].
      rewrite Hx with (d := d + 1), IHl. unfold separator. destruct i; simpl; by rewrite <-!app_assoc. }
    rewrite Hgo. simpl. by rewrite <-!app_assoc.
  - rewrite enclose_compact.
    set (gop := fix go (o : object) : object := match o with
      | [] => [] | (key, item) :: o => if exclude key then go o else (key, prune exclude item) :: go o end).
    assert (Hgo : ∀ first out, (fix go (first : bool) (out : bytes) (o : object) {struct o} : bytes :=
        match o with
        | [] => out
        | (key, item) :: o => if exclude key then go first out o else go false (write_value_filtered exclude
            (write_string_into (if first then out else out ++ as_bytes ",") key ++ as_bytes ":") item) o
        end) first out o =
      out ++ join (if first then [] else [","%char]) [","%char]
        (map (λ kv, string_text kv.1 ++ [":"%char] ++ text compact kv.2 (d + 1)) (gop o))).
    { clear out. induction IH as [|[k x] o Hx _ IHo]; intros first out; simpl; [by rewrite app_nil_r|].
      destruct (exclude k); [apply IHo|].
      rewrite Hx with (d := d + 1), IHo, write_string_spec. destruct first; simpl; by rewrite <-!app_assoc. }
    rewrite Hgo. simpl. by rewrite <-!app_assoc.
Qed.

Transparent string_text.
