(* ===== verification/JsonParser.v ===== *)
(** * The JSON parser ([src/rezzy-json/src/lib.rs])

    [Parser] keeps a byte slice, a cursor and a nesting depth.  A method is a
    function from the cursor and depth to its [Result] and the cursor and
    depth it leaves, also on errors, since [parse_located] reports where the
    parser stopped.  The mutual recursion of [value], [array] and [object] runs
    on fuel; [None] is running out of it. *)
From stdpp Require Import prelude strings.
From Stdlib Require String.
From Stdlib Require Import Ascii.
From S2P Require Import Prelude Json JsonText.

Local Open Scope nat_scope.

Inductive Error : Type :=
| UnexpectedEnd
| InvalidToken
| InvalidNumber
| InvalidString
| InvalidEscape
| TrailingCharacters
| DepthLimitExceeded
| DuplicateKey.

#[global] Instance Error_eq_dec : EqDecision Error.
Proof. solve_decision. Defined.

Record ParseError := mkParseError { kind : Error; offset : nat }.

Definition MAX_DEPTH : nat := 128.

Record cursor := Cursor { pos : nat; depth : nat }.

(** ** The parser monad *)

Definition parser (E A : Type) : Type := cursor → option (result A E * cursor).
Abbreviation parse := (parser Error).

Definition pret {E A} (a : A) : parser E A := λ c, Some (Ok a, c).
Definition pfail {E A} (e : E) : parser E A := λ c, Some (Err e, c).
Definition pbind {E A B} (m : parser E A) (k : A → parser E B) : parser E B := λ c,
  match m c with
  | Some (Ok a, c) => k a c
  | Some (Err e, c) => Some (Err e, c)
  | None => None
  end.

Notation "x ←p m ; k" := (pbind m (λ x, k))
  (at level 100, m at next level, k at level 200, right associativity) : rezzy_scope.
Notation "m ;p; k" := (pbind m (λ _, k))
  (at level 100, k at level 200, right associativity) : rezzy_scope.

(** [option.ok_or(e)?]. *)
Definition ok_or {E A} (o : option A) (e : E) : parser E A :=
  match o with Some a => pret a | None => pfail e end.

Definition get_pos {E} : parser E nat := λ c, Some (Ok (pos c), c).
Definition set_pos {E} (p : nat) : parser E unit := λ c, Some (Ok tt, Cursor p (depth c)).
Definition advance {E} (n : nat) : parser E unit := λ c, Some (Ok tt, Cursor (pos c + n) (depth c)).

Section parser.
(** [ryu::Buffer::format_finite]; the fields [input] and [strict]. *)
Context (format_finite : f64 → string) (input : bytes) (strict : bool).

(** [input[start..end]]. *)
Definition slice (start stop : nat) : bytes := take (stop - start) (drop start input).

(** [self.input.get(self.pos)]. *)
Definition peek {E} : parser E (option ascii) := λ c, Some (Ok (input !! pos c), c).

Definition ws {E} : parser E unit := λ c,
  advance (count_while is_ascii_whitespace (drop (pos c) input)) c.

Definition word (expected : bytes) : parse unit :=
  p ←p get_pos;
  if decide (slice p (p + length expected) = expected) then advance (length expected)
  else pfail InvalidToken.

Definition push_segment (out : bytes) (start : nat) : parse bytes :=
  p ←p get_pos;
  part ←p ok_or (from_utf8 (slice start p)) InvalidString;
  advance 1 ;p; pret (out ++ as_bytes part).

(** One of the four rounds of [hex4], on a [u16]. *)
Fixpoint hex_rounds (rounds : nat) (n : N) : parse N :=
  match rounds with
  | O => pret n
  | S rounds =>
      b ←p peek;
      b ←p ok_or b UnexpectedEnd;
      advance 1 ;p;
      digit ←p ok_or (to_digit_16 b) InvalidEscape;
      hex_rounds rounds (N.lor (N.shiftl n 4 `mod` 65536) digit)
  end.
Definition hex4 : parse N := hex_rounds 4 0.

Definition unicode_escape : parse N :=
  high ←p hex4;
  scalar ←p
    (if (55296 <=? high)%N && (high <=? 56319)%N then
       p ←p get_pos;
       if decide (slice p (p + 2) = as_bytes "\u") then
         advance 2 ;p;
         low ←p hex4;
         if (56320 <=? low)%N && (low <=? 57343)%N then
           pret (65536 + N.shiftl (high - 55296) 10 + (low - 56320))%N
         else pfail InvalidEscape
       else pfail InvalidEscape
     else pret high);
  ok_or (from_u32 scalar) InvalidEscape.

(** The loop of [string] from the first escape or control character on. *)
Fixpoint string_loop (fuel : nat) (out : bytes) (run : nat) : parse string :=
  match fuel with
  | O => λ _, None
  | S fuel =>
      b ←p peek;
      b ←p ok_or b UnexpectedEnd;
      if b =b "034" then
        out ←p push_segment out run; pret (of_bytes out)
      else if b =b "\" then
        out ←p push_segment out run;
        escaped ←p peek;
        escaped ←p ok_or escaped UnexpectedEnd;
        advance 1 ;p;
        c ←p (if escaped =b "u" then unicode_escape else ok_or (simple_escape escaped) InvalidEscape);
        run ←p get_pos;
        string_loop fuel (out ++ encode_utf8 c) run
      else if (code b <=? 31)%N then pfail InvalidString
      else advance 1 ;p; string_loop fuel out run
  end.

(** The bytes the first scan runs over. *)
Definition scan_byte (b : ascii) : bool :=
  negb (b =b "034") && negb ((b =b "\") || (code b <=? 31)%N).

Definition parse_string : parse string :=
  advance 1 ;p;
  start ←p get_pos;
  let scan := start + count_while scan_byte (drop start input) in
  match input !! scan with
  | None => pfail UnexpectedEnd
  | Some b =>
      text ←p ok_or (from_utf8 (slice start scan)) InvalidString;
      if b =b "034" then set_pos (scan + 1) ;p; pret text
      else set_pos scan ;p; string_loop (S (length input)) (as_bytes text) scan
  end.

Definition is_number_byte (b : ascii) : bool :=
  (b =b "-") || (b =b "+") || (b =b ".") || (b =b "e") || (b =b "E") || is_ascii_digit b.

Definition parse_number : parse value :=
  start ←p get_pos;
  advance (count_while is_number_byte (drop start input)) ;p;
  stop ←p get_pos;
  s ←p ok_or (from_utf8 (slice start stop)) InvalidNumber;
  if valid_number (as_bytes s) then pret (Number (Number_parse format_finite s))
  else pfail InvalidNumber.

(** [self.depth += 1; let res = body; self.depth -= 1; res] under the limit. *)
Definition nested {A} (body : parse A) : parse A := λ c,
  if MAX_DEPTH <=? depth c then Some (Err DepthLimitExceeded, c)
  else
    match body (Cursor (pos c) (depth c + 1)) with
    | Some (res, c) => Some (res, Cursor (pos c) (depth c - 1))
    | None => None
    end.

(** [self.input.get(self.pos) == Some(&b)]. *)
Definition at_byte {E} (b : ascii) : parser E bool := λ c, Some (Ok (byte_is input (pos c) (Ascii.eqb b)), c).

Fixpoint parse_value (fuel : nat) : parse value :=
  match fuel with
  | O => λ _, None
  | S fuel =>
      ws ;p;
      b ←p peek;
      b ←p ok_or b UnexpectedEnd;
      if b =b "n" then word (as_bytes "null") ;p; pret Null
      else if b =b "t" then word (as_bytes "true") ;p; pret (Bool true)
      else if b =b "f" then word (as_bytes "false") ;p; pret (Bool false)
      else if b =b "034" then s ←p parse_string; pret (VString s)
      else if b =b "[" then
        nested (advance 1 ;p; ws ;p;
                closed ←p at_byte "]";
                if (closed : bool) then advance 1 ;p; pret (Array []) else parse_array fuel [])
      else if b =b "{" then
        nested (advance 1 ;p; ws ;p;
                closed ←p at_byte "}";
                if (closed : bool) then advance 1 ;p; pret (Object []) else parse_object fuel [])
      else if (b =b "-") || is_ascii_digit b then parse_number
      else pfail InvalidToken
  end
(** The loop of [array]. *)
with parse_array (fuel : nat) (values : list value) : parse value :=
  match fuel with
  | O => λ _, None
  | S fuel =>
      v ←p parse_value fuel;
      let values := values ++ [v] in
      ws ;p;
      b ←p peek;
      match b with
      | Some b =>
          if b =b "," then advance 1 ;p; parse_array fuel values
          else if b =b "]" then advance 1 ;p; pret (Array values)
          else pfail InvalidToken
      | None => pfail InvalidToken
      end
  end
(** The loop of [object]. *)
with parse_object (fuel : nat) (values : object) : parse value :=
  match fuel with
  | O => λ _, None
  | S fuel =>
      ws ;p;
      quoted ←p at_byte "034";
      if negb quoted then pfail InvalidToken
      else
        key ←p parse_string;
        ws ;p;
        colon ←p at_byte ":";
        if negb colon then pfail InvalidToken
        else
          advance 1 ;p;
          v ←p parse_value fuel;
          let previous := obj_contains_key values key in
          let values := obj_insert key v values in
          if previous && strict then pfail DuplicateKey
          else
            ws ;p;
            b ←p peek;
            match b with
            | Some b =>
                if b =b "," then advance 1 ;p; parse_object fuel values
                else if b =b "}" then advance 1 ;p; pret (Object values)
                else pfail InvalidToken
            | None => pfail InvalidToken
            end
  end.

(** Two units of fuel per byte and two more: a value spends one and the loop
    of a container one per element, and each consumes a byte. *)
Definition parse_fuel : nat := 2 * length input + 2.

Definition parse_scalar_with : option (result value ParseError) :=
  match parse_value parse_fuel (Cursor 0 0) with
  | None => None
  | Some (Err k, c) => Some (Err (mkParseError k (pos c)))
  | Some (Ok v, c) =>
      match (ws : parse unit) c with
      | Some (_, c) =>
          if pos c =? length input then Some (Ok v)
          else Some (Err (mkParseError TrailingCharacters (pos c)))
      | None => None
      end
  end.
End parser.

Definition map_kind (r : result value ParseError) : result value Error :=
  match r with Ok v => Ok v | Err e => Err (kind e) end.

(** The entry points. *)
Definition Value_parse (format_finite : f64 → string) (input : string) : option (result value Error) :=
  map_kind <$> parse_scalar_with format_finite (as_bytes input) false.
Definition Value_parse_bytes (format_finite : f64 → string) (input : bytes) : option (result value Error) :=
  map_kind <$> parse_scalar_with format_finite input false.
Definition Value_parse_strict (format_finite : f64 → string) (input : string) : option (result value Error) :=
  map_kind <$> parse_scalar_with format_finite (as_bytes input) true.
Definition Value_parse_located (format_finite : f64 → string) (input : string)
    : option (result value ParseError) :=
  parse_scalar_with format_finite (as_bytes input) false.
