(* ===== verification/JsonParserProps.v ===== *)
(** * The JSON parser: totality, well-formed results, strict parsing

    A weakest precondition for the parser monad that also tracks the cursor:
    every method returns, moves forward and stays within the input, and
    restores the depth. *)
From stdpp Require Import prelude strings.
From Stdlib Require String.
From Stdlib Require Import Ascii.
From S2P Require Import Prelude Json JsonText JsonTextProps JsonNumber JsonParser.

Local Open Scope nat_scope.

(** ** Well-formed values *)

Section wf.
Context (format_finite : f64 → string).

(** A number literal as [Number::parse] leaves it. *)
Definition number_ok (n : string) : Prop :=
  valid_number (as_bytes n) = true ∧ Number_parse format_finite n = n.

Definition string_ok (s : string) : Prop := utf8 (as_bytes s).

(** [value_ok limit v]: valid strings and numbers, sorted objects, and at
    most [limit] levels of containers. *)
Fixpoint value_ok (limit : nat) (v : value) {struct v} : Prop :=
  match v with
  | Null | Bool _ => True
  | Number n => number_ok n
  | VString s => string_ok s
  | Array l =>
      0 < limit ∧ (fix go (l : list value) : Prop :=
        match l with [] => True | v :: l => value_ok (limit - 1) v ∧ go l end) l
  | Object o =>
      0 < limit ∧ obj_sorted o ∧ (fix go (o : object) : Prop :=
        match o with [] => True | (k, v) :: o => string_ok k ∧ value_ok (limit - 1) v ∧ go o end) o
  end.

Lemma value_ok_Array limit l :
  value_ok limit (Array l) ↔ 0 < limit ∧ Forall (value_ok (limit - 1)) l.
Proof.
  simpl. apply and_iff_compat_l. induction l as [|v l IH]; [by split|].
  rewrite IH, Forall_cons. done.
Qed.

Definition member_ok limit (kv : string * value) : Prop := string_ok kv.1 ∧ value_ok limit kv.2.

Lemma value_ok_Object limit o :
  value_ok limit (Object o) ↔ 0 < limit ∧ obj_sorted o ∧ Forall (member_ok (limit - 1)) o.
Proof.
  simpl. do 2 apply and_iff_compat_l. induction o as [|[k v] o IH]; [by split|].
  rewrite IH, Forall_cons. unfold member_ok. simpl. tauto.
Qed.

Lemma obj_insert_Forall (P : string * value → Prop) k v o :
  P (k, v) → Forall P o → Forall P (obj_insert k v o).
Proof.
  intros Hk. induction 1 as [|[k' v'] o Hx Ho IH]; simpl; [by constructor|].
  destruct (String.compare k k'); by repeat constructor.
Qed.
End wf.

(** ** Weakest preconditions *)

Section wp.
Context (format_finite : f64 → string) (input : bytes) (strict : bool).

Definition wp {A} (m : parse A) (c : cursor) (Q : A → cursor → Prop) : Prop :=
  ∃ r c', m c = Some (r, c') ∧ pos c ≤ pos c' ≤ length input ∧ depth c' = depth c ∧
    ∀ a, r = Ok a → Q a c'.

Lemma wp_ret {A} (a : A) c (Q : A → cursor → Prop) : pos c ≤ length input → Q a c → wp (pret a) c Q.
Proof. intros ? HQ. exists (Ok a), c. split_and!; try done. naive_solver. Qed.

Lemma wp_fail {A} e c (Q : A → cursor → Prop) : pos c ≤ length input → wp (pfail e) c Q.
Proof. intros ?. by exists (Err e), c. Qed.

Lemma wp_bind {A B} (m : parse A) (k : A → parse B) c Q :
  wp m c (λ a c', pos c ≤ pos c' ≤ length input → depth c' = depth c → wp (k a) c' Q) →
  wp (pbind m k) c Q.
Proof.
  intros (r & c' & Hm & Hpos & Hd & Hk). unfold wp, pbind. rewrite Hm.
  destruct r as [a|e].
  - destruct (Hk a eq_refl Hpos Hd) as (r & c2 & Hk' & Hpos' & Hd' & HQ).
    exists r, c2. split_and!; try done; [lia..|congruence].
  - exists (Err e), c'. done.
Qed.

Lemma wp_mono {A} (m : parse A) c (Q R : A → cursor → Prop) :
  wp m c Q → (∀ a c', pos c ≤ pos c' → Q a c' → R a c') → wp m c R.
Proof. intros (r & c' & ? & ? & ? & HQ) HR. exists r, c'. split_and!; try done; [lia..|].
  intros a ->. apply HR; [lia|auto]. Qed.

Lemma wp_get_pos c Q : pos c ≤ length input → Q (pos c) c → wp get_pos c Q.
Proof. intros ? HQ. exists (Ok (pos c)), c. split_and!; try done. naive_solver. Qed.

Lemma wp_peek c (Q : option ascii → cursor → Prop) : pos c ≤ length input →
  Q (input !! pos c) c → wp (peek input) c Q.
Proof. intros ? HQ. exists (Ok (input !! pos c)), c. split_and!; try done. naive_solver. Qed.

Lemma wp_at_byte b c Q : pos c ≤ length input →
  Q (byte_is input (pos c) (Ascii.eqb b)) c → wp (at_byte input b) c Q.
Proof. intros ? HQ. eexists _, c. split_and!; try done. naive_solver. Qed.

Lemma wp_advance n c (Q : unit → cursor → Prop) : pos c + n ≤ length input →
  Q tt (Cursor (pos c + n) (depth c)) → wp (advance n) c Q.
Proof. intros ? HQ. eexists _, _. split; [done|]. simpl. split_and!; try done; [lia|]. by intros [] _. Qed.

Lemma wp_set_pos p c (Q : unit → cursor → Prop) : pos c ≤ p ≤ length input →
  Q tt (Cursor p (depth c)) → wp (set_pos p) c Q.
Proof. intros ? HQ. eexists _, _. split; [done|]. simpl. split_and!; try done; [lia..|]. by intros [] _. Qed.

Lemma wp_ok_or {A} (o : option A) e c Q : pos c ≤ length input →
  (∀ a, o = Some a → Q a c) → wp (ok_or o e) c Q.
Proof. intros. destruct o; [apply wp_ret; auto|by apply wp_fail]. Qed.

Lemma count_while_le p (b : bytes) : count_while p b ≤ length b.
Proof. induction b as [|c b IH]; simpl; [done|]. destruct (p c); lia. Qed.

Lemma count_drop p n : n ≤ length input → n + count_while p (drop n input) ≤ length input.
Proof. intros. pose proof (count_while_le p (drop n input)). rewrite length_drop in *. lia. Qed.

Lemma wp_ws c (Q : unit → cursor → Prop) : pos c ≤ length input →
  (∀ p, pos c ≤ p ≤ length input → Q tt (Cursor p (depth c))) → wp (ws input) c Q.
Proof.
  intros Hp HQ. apply wp_advance; [by apply count_drop|]. apply HQ.
  pose proof (count_drop is_ascii_whitespace _ Hp). lia.
Qed.

Lemma length_slice start stop : start ≤ stop → stop ≤ length input →
  length (slice input start stop) = stop - start.
Proof. intros. unfold slice. rewrite length_take, length_drop. lia. Qed.

Lemma wp_word w c (Q : unit → cursor → Prop) : pos c ≤ length input →
  (∀ c', Q tt c') → wp (word input w) c Q.
Proof.
  intros Hp HQ. apply wp_bind, wp_get_pos; [done|]. intros _ _.
  case_decide as Hs; [|by apply wp_fail]. apply wp_advance; [|done].
  apply (f_equal length) in Hs. unfold slice in Hs. rewrite length_take, length_drop in Hs. lia.
Qed.

Lemma from_utf8_ok b s : from_utf8 b = Some s → string_ok s ∧ as_bytes s = b.
Proof.
  unfold from_utf8. case_match eqn:E; [|done]. intros [= <-]. unfold string_ok. rewrite as_of_bytes.
  split; [by apply utf8_spec|done].
Qed.

Lemma wp_push_segment out start c (Q : bytes → cursor → Prop) : pos c < length input → utf8 out →
  (∀ out', utf8 out' → Q out' (Cursor (pos c + 1) (depth c))) → wp (push_segment input out start) c Q.
Proof.
  intros Hp Hout HQ. apply wp_bind, wp_get_pos; [lia|]. intros _ _. apply wp_bind, wp_ok_or; [lia|].
  intros part [Hpart _]%from_utf8_ok _ _. apply wp_bind, wp_advance; [lia|]. intros _ _.
  apply wp_ret; simpl; [lia|]. apply HQ. by apply utf8_app.
Qed.

Lemma wp_hex_rounds rounds n c (Q : N → cursor → Prop) : pos c ≤ length input →
  (∀ n c', Q n c') → wp (hex_rounds input rounds n) c Q.
Proof.
  revert n c. induction rounds as [|rounds IH]; intros n c Hp HQ; simpl; [by apply wp_ret|].
  apply wp_bind, wp_peek; [done|]. intros _ _. apply wp_bind, wp_ok_or; [done|]. intros b Hb _ _.
  apply lookup_lt_Some in Hb. apply wp_bind, wp_advance; [lia|]. intros _ _.
  apply wp_bind, wp_ok_or; simpl; [lia|]. intros d _ _ _. apply IH; simpl; [lia|done].
Qed.

Lemma wp_unicode_escape c (Q : N → cursor → Prop) : pos c ≤ length input →
  (∀ n c', (∃ m, from_u32 m = Some n) → Q n c') → wp (unicode_escape input) c Q.
Proof.
  intros Hp HQ. apply wp_bind, wp_hex_rounds; [done|]. intros high c1 Hp1 _.
  apply wp_bind. assert (Hend : ∀ scalar c', pos c' ≤ length input →
    wp (ok_or (from_u32 scalar) InvalidEscape) c' Q).
  { intros. apply wp_ok_or; eauto. }
  case_match; [|apply wp_ret; [lia|]; intros; apply Hend; lia].
  apply wp_bind, wp_get_pos; [lia|]. intros _ _. case_decide as Hs; [|apply wp_fail; lia].
  apply (f_equal length) in Hs. unfold slice in Hs. rewrite length_take, length_drop in Hs. simpl in Hs.
  apply wp_bind, wp_advance; [lia|]. intros Hp2 _. apply wp_bind, wp_hex_rounds; [lia|]. intros low c3 Hp3 _.
  case_match; [|apply wp_fail; lia]. apply wp_ret; [lia|]. intros. apply Hend. lia.
Qed.

Lemma simple_escape_scalar b n : simple_escape b = Some n → from_u32 n = Some n.
Proof. unfold simple_escape. repeat case_match; intros [= <-]; done. Qed.

Lemma wp_string_loop fuel out run c (Q : string → cursor → Prop) :
  pos c ≤ length input → length input - pos c < fuel → utf8 out →
  (∀ s c', string_ok s → pos c < pos c' → Q s c') → wp (string_loop input fuel out run) c Q.
Proof.
  revert out run c. induction fuel as [|fuel IH]; intros out run c Hp Hf Hout HQ; [lia|]. simpl.
  apply wp_bind, wp_peek; [done|]. intros _ _. apply wp_bind, wp_ok_or; [done|]. intros b Hb _ _.
  apply lookup_lt_Some in Hb. case_match; [|case_match; [|case_match]].
  - apply wp_bind, wp_push_segment; [done..|]. intros out' Hout' _ _. apply wp_ret; simpl; [lia|].
    apply HQ; simpl; [|lia]. unfold string_ok. by rewrite as_of_bytes.
  - apply wp_bind, wp_push_segment; [done..|]. intros out' Hout' _ _.
    apply wp_bind, wp_peek; simpl; [lia|]. intros _ _. apply wp_bind, wp_ok_or; simpl; [lia|]. intros esc Hesc _ _.
    apply lookup_lt_Some in Hesc. apply wp_bind, wp_advance; simpl; [lia|]. intros _ _.
    apply wp_bind. eapply wp_mono with (Q := λ n _, ∃ m, from_u32 m = Some n).
    + case_match; [apply wp_unicode_escape; simpl; [lia|eauto]|].
      apply wp_ok_or; simpl; [lia|]. intros n Hn%simple_escape_scalar. eauto.
    + simpl. intros n c' Hc' [m Hn] Hc'' _. apply wp_bind, wp_get_pos; [lia|]. intros _ _.
      apply IH; [lia..| |].
      * apply utf8_app; [done|by eapply encode_utf8_valid].
      * intros s c2 Hs Hlt. apply HQ; [done|lia].
  - by apply wp_fail.
  - apply wp_bind, wp_advance; [lia|]. intros _ _. apply IH; simpl; [lia..|done|].
    intros s c2 Hs Hlt. apply HQ; [done|lia].
Qed.

Lemma wp_parse_string c (Q : string → cursor → Prop) : pos c < length input →
  (∀ s c', string_ok s → Q s c') → wp (parse_string input) c Q.
Proof.
  intros Hp HQ. apply wp_bind, wp_advance; [lia|]. intros _ _. apply wp_bind, wp_get_pos; cbn [pos depth]; [lia|]. intros _ _.
  pose proof (count_drop scan_byte (pos c + 1) ltac:(lia)) as Hle.
  destruct (input !! _) as [b|] eqn:Hb; [|by apply wp_fail; cbn [pos depth]; lia].
  apply wp_bind, wp_ok_or; cbn [pos depth]; [lia|]. intros text [Htext _]%from_utf8_ok _ _. apply lookup_lt_Some in Hb.
  case_match; (apply wp_bind, wp_set_pos; cbn [pos depth]; [lia|]; intros _ _).
  - apply wp_ret; cbn [pos depth]; [lia|auto].
  - apply wp_string_loop; cbn [pos depth]; [lia..|done|]. auto.
Qed.

Lemma wp_parse_number `{!RyuFormat format_finite} c (Q : value → cursor → Prop) : pos c ≤ length input →
  (∀ n c', number_ok format_finite n → Q (Number n) c') → wp (parse_number format_finite input) c Q.
Proof.
  intros Hp HQ. apply wp_bind, wp_get_pos; [done|]. intros _ _.
  pose proof (count_drop is_number_byte (pos c) Hp). apply wp_bind, wp_advance; [done|]. intros _ _.
  apply wp_bind, wp_get_pos; [done|]. intros _ _. apply wp_bind, wp_ok_or; [done|]. intros s _ _ _.
  case_match; [|by apply wp_fail]. apply wp_ret; [done|]. apply HQ. by apply Number_parse_stable.
Qed.

Lemma wp_nested {A} (body : parse A) c (Q : A → cursor → Prop) : pos c ≤ length input →
  (depth c < MAX_DEPTH → wp body (Cursor (pos c) (depth c + 1)) (λ a _, ∀ c', Q a c')) → wp (nested body) c Q.
Proof.
  intros Hp Hb. unfold wp, nested. destruct (Nat.leb_spec MAX_DEPTH (depth c)) as [|Hlt].
  - by exists (Err DepthLimitExceeded), c.
  - destruct (Hb Hlt) as (r & c' & -> & ? & Hd & HQ). eexists _, _. split; [done|]. simpl in *.
    split_and!; try done; [lia..|]. intros a ->. by apply HQ.
Qed.

(** The postcondition at depth [d]. *)
Abbreviation ok_at d := (value_ok format_finite (MAX_DEPTH - d)).

Context `{!RyuFormat format_finite}.

(** A method called after a byte was seen at the cursor. *)
Ltac wp_step := apply wp_bind; first
  [ apply wp_peek; cbn [pos depth]; [lia|]
  | apply wp_at_byte; cbn [pos depth]; [lia|]
  | apply wp_get_pos; cbn [pos depth]; [lia|]
  | apply wp_ws; cbn [pos depth]; [lia|]
  | apply wp_advance; cbn [pos depth]; [lia|]
  | apply wp_ok_or; cbn [pos depth]; [lia|] ].

Lemma byte_is_lt (b : bytes) i p : byte_is b i p = true → i < length b.
Proof. unfold byte_is. destruct (b !! i) eqn:E; [|done]. intros _. by apply lookup_lt_Some in E. Qed.

(** The methods of one level of fuel. *)
Definition value_good fuel : Prop := ∀ c, pos c ≤ length input → depth c ≤ MAX_DEPTH →
  2 * (length input - pos c) + 2 ≤ fuel →
  wp (parse_value format_finite input strict fuel) c (λ v _, ok_at (depth c) v).
Definition array_good fuel : Prop := ∀ c vs, pos c ≤ length input → 0 < depth c ≤ MAX_DEPTH →
  2 * (length input - pos c) + 3 ≤ fuel → Forall (ok_at (depth c)) vs →
  wp (parse_array format_finite input strict fuel vs) c (λ v _, ok_at (depth c - 1) v).
Definition object_good fuel : Prop := ∀ c vs, pos c ≤ length input → 0 < depth c ≤ MAX_DEPTH →
  2 * (length input - pos c) + 3 ≤ fuel →
  obj_sorted vs → Forall (member_ok format_finite (MAX_DEPTH - depth c)) vs →
  wp (parse_object format_finite input strict fuel vs) c (λ v _, ok_at (depth c - 1) v).

Lemma ok_at_Array d vs : 0 < d ≤ MAX_DEPTH → Forall (ok_at d) vs → ok_at (d - 1) (Array vs).
Proof.
  intros Hd Hvs. apply value_ok_Array. replace (MAX_DEPTH - (d - 1) - 1) with (MAX_DEPTH - d) by lia.
  split; [lia|done].
Qed.

Lemma ok_at_Object d o : 0 < d ≤ MAX_DEPTH → obj_sorted o →
  Forall (member_ok format_finite (MAX_DEPTH - d)) o → ok_at (d - 1) (Object o).
Proof.
  intros Hd Hs Ho. apply value_ok_Object. replace (MAX_DEPTH - (d - 1) - 1) with (MAX_DEPTH - d) by lia.
  split; [lia|done].
Qed.

Lemma value_good_S fuel : array_good fuel → object_good fuel → value_good (S fuel).
Proof.
  intros Harr Hobj c Hp Hd Hf. cbn [parse_value]. wp_step. intros p Hp1 _ _. wp_step. intros _ _.
  wp_step. intros b Hb%lookup_lt_Some _ _. cbn [pos] in Hb.
  assert (Hnest : ∀ (close : ascii) (empty : value) (m : parse value),
    (depth c < MAX_DEPTH → ok_at (depth c) empty) →
    (∀ c', p < pos c' ≤ length input → depth c' = depth c + 1 ∧ depth c + 1 ≤ MAX_DEPTH →
       wp m c' (λ v _, ok_at (depth c) v)) →
    wp (nested (advance 1 ;p; ws input ;p; closed ←p at_byte input close;
      if (closed : bool) then advance 1 ;p; pret empty else m)) (Cursor p (depth c)) (λ v _, ok_at (depth c) v)).
  { intros close empty m Hempty Hm. apply wp_nested; [cbn [pos]; lia|]. cbn [pos depth]. intros Hlt.
    wp_step. intros _ _. wp_step. intros p2 Hp2 _ _. wp_step. intros _ _. case_match eqn:Hcl.
    - apply byte_is_lt in Hcl. cbn [pos] in Hcl. wp_step. intros _ _. apply wp_ret; [cbn [pos]; lia|auto].
    - eapply wp_mono; [apply Hm; cbn [pos depth]; [lia|split; [lia|lia]]|]. auto. }
  repeat case_match; try (apply wp_fail; cbn [pos]; lia).
  - apply wp_bind, wp_word; [cbn [pos]; lia|]. intros c' ? _. apply wp_ret; [lia|done].
  - apply wp_bind, wp_word; [cbn [pos]; lia|]. intros c' ? _. apply wp_ret; [lia|done].
  - apply wp_bind, wp_word; [cbn [pos]; lia|]. intros c' ? _. apply wp_ret; [lia|done].
  - apply wp_bind, wp_parse_string; [done|]. intros s c' Hs ? _. apply wp_ret; [lia|done].
  - apply Hnest.
    + intros Hlt. replace (depth c) with (depth c + 1 - 1) by lia. apply ok_at_Array; [lia|done].
    + intros c' Hc' [Hd1 Hd2]. replace (depth c) with (depth c' - 1) by lia. apply Harr; [lia..|done].
  - apply Hnest.
    + intros Hlt. replace (depth c) with (depth c + 1 - 1) by lia. apply ok_at_Object; [lia|constructor|done].
    + intros c' Hc' [Hd1 Hd2]. replace (depth c) with (depth c' - 1) by lia. apply Hobj; [lia..|constructor|done].
  - apply wp_parse_number; [cbn [pos]; lia|done].
Qed.

Lemma array_good_S fuel : value_good fuel → array_good fuel → array_good (S fuel).
Proof.
  intros Hval Harr c vs Hp Hd Hf Hvs. cbn [parse_array]. apply wp_bind.
  eapply wp_mono; [apply Hval; lia|]. intros v c1 _ Hv Hc1 Hd1. cbv zeta.
  wp_step. intros p Hp1 _ _. wp_step. intros _ _.
  assert (Hvs' : Forall (ok_at (depth c)) (vs ++ [v])) by (apply Forall_app; by repeat constructor).
  destruct (input !! _) as [b|] eqn:Hb; [|apply wp_fail; cbn [pos]; lia].
  apply lookup_lt_Some in Hb. cbn [pos] in Hb. repeat case_match; [| |apply wp_fail; cbn [pos]; lia].
  - wp_step. intros _ _. rewrite Hd1. apply (Harr (Cursor _ _)); cbn [pos depth]; try done; lia.
  - wp_step. intros _ _. apply wp_ret; [cbn [pos]; lia|]. by apply ok_at_Array.
Qed.

Lemma object_good_S fuel : value_good fuel → object_good fuel → object_good (S fuel).
Proof.
  intros Hval Hobj c vs Hp Hd Hf Hs Hvs. cbn [parse_object].
  wp_step. intros p Hp1 _ _. wp_step. intros _ _. destruct (byte_is _ _ _) eqn:Hq; cbn [negb];
    [|apply wp_fail; cbn [pos]; lia].
  apply byte_is_lt in Hq. apply wp_bind, wp_parse_string; [done|]. cbn [pos depth] in *. intros key c1 Hkey Hc1 Hd1.
  wp_step. intros p2 Hp2 _ _. wp_step. intros _ _. destruct (byte_is _ _ _) eqn:Hcol; cbn [negb];
    [|apply wp_fail; cbn [pos]; lia].
  apply byte_is_lt in Hcol. cbn [pos] in Hcol. wp_step. intros _ _.
  apply wp_bind. eapply wp_mono; [apply Hval; cbn [pos depth]; lia|]. cbn [pos depth].
  intros v c3 _ Hv Hc3 Hd3. cbv zeta. rewrite Hd1 in *.
  case_match; [apply wp_fail; lia|]. wp_step. intros p4 Hp4 _ _. wp_step. intros _ _.
  assert (Hvs' : Forall (member_ok format_finite (MAX_DEPTH - depth c)) (obj_insert key v vs))
    by by apply obj_insert_Forall.
  apply (obj_insert_sorted _ key v) in Hs.
  destruct (input !! _) as [b|] eqn:Hb; [|apply wp_fail; cbn [pos]; lia].
  apply lookup_lt_Some in Hb. cbn [pos] in Hb. repeat case_match; [| |apply wp_fail; cbn [pos]; lia].
  - wp_step. intros _ _. rewrite Hd3. apply (Hobj (Cursor _ _)); cbn [pos depth]; try done; lia.
  - wp_step. intros _ _. apply wp_ret; [cbn [pos]; lia|]. by apply ok_at_Object.
Qed.

Lemma parse_good fuel : value_good fuel ∧ array_good fuel ∧ object_good fuel.
Proof.
  induction fuel as [|fuel (IHv & IHa & IHo)].
  - split_and!; repeat intro; lia.
  - auto using value_good_S, array_good_S, object_good_S.
Qed.

(** Parsing returns: a well-formed value, or an error within the input. *)
Lemma parse_scalar_total :
  (∃ v, parse_scalar_with format_finite input strict = Some (Ok v) ∧ value_ok format_finite MAX_DEPTH v) ∨
  (∃ e, parse_scalar_with format_finite input strict = Some (Err e) ∧ offset e ≤ length input).
Proof.
  destruct (proj1 (parse_good (parse_fuel input)) (Cursor 0 0)) as (r & c & E & Hc & _ & Hv).
  - simpl; lia.
  - simpl; lia.
  - unfold parse_fuel. simpl. lia.
  - unfold parse_scalar_with. rewrite E. destruct r as [v|e].
    + unfold ws, advance. pose proof (count_drop is_ascii_whitespace (pos c) ltac:(lia)). simpl.
      case_match; [left|right]; eexists; (split; [done|]); [by apply Hv|done].
    + right. eexists. split; [done|]. simpl. lia.
Qed.
End wp.

(** ** Strict parsing

    Strict parsing differs only in stopping at the first repeated key. *)
Section strict.
Context (format_finite : f64 → string) (input : bytes).

Abbreviation outcome A := (option (result A Error * cursor)).

Definition is_duplicate {A} (x : outcome A) : Prop := ∃ c, x = Some (Err DuplicateKey, c).

(** [m] is the strict run and [m'] the lenient one, which never reports a
    duplicate. *)
Definition refines_strict {A} (m m' : parse A) : Prop := ∀ c,
  (m c = m' c ∨ is_duplicate (m c)) ∧ ¬ is_duplicate (m' c).

Lemma strict_bind {A B} (m m' : parse A) (k k' : A → parse B) :
  refines_strict m m' → (∀ a, refines_strict (k a) (k' a)) → refines_strict (pbind m k) (pbind m' k').
Proof.
  intros Hm Hk c. destruct (Hm c) as [Hc Hn]. unfold pbind, is_duplicate in *. split.
  - destruct Hc as [->|[c' ->]]; [|eauto]. destruct (m' c) as [[[a|e] c']|]; [apply Hk|by left..].
  - destruct (m' c) as [[[a|e] c']|]; [apply Hk| |by intros []]. intros [c2 [= -> ->]]. destruct Hn. eauto.
Qed.

Lemma strict_ret {A} (a : A) : refines_strict (pret a) (pret a).
Proof. intros c. split; [by left|by intros []]. Qed.
Lemma strict_fail {A} e : e ≠ DuplicateKey → refines_strict (A := A) (pfail e) (pfail e).
Proof. intros He c. split; [by left|]. by intros [c' [= ]]. Qed.
Lemma strict_ok_or {A} (o : option A) e : e ≠ DuplicateKey → refines_strict (ok_or o e) (ok_or o e).
Proof. destruct o; [intros; apply strict_ret|apply strict_fail]. Qed.
Lemma strict_none {A} : refines_strict (A := A) (λ _, None) (λ _, None).
Proof. intros c. split; [by left|by intros []]. Qed.
Lemma strict_peek : refines_strict (peek input) (peek input).
Proof. intros c. split; [by left|by intros []]. Qed.
Lemma strict_get_pos : refines_strict get_pos get_pos.
Proof. intros c. split; [by left|by intros []]. Qed.
Lemma strict_set_pos p : refines_strict (set_pos p) (set_pos p).
Proof. intros c. split; [by left|by intros []]. Qed.
Lemma strict_advance n : refines_strict (advance n) (advance n).
Proof. intros c. split; [by left|by intros []]. Qed.
Lemma strict_at_byte b : refines_strict (at_byte input b) (at_byte input b).
Proof. intros c. split; [by left|by intros []]. Qed.
Lemma strict_ws : refines_strict (ws input) (ws input).
Proof. intros c. split; [by left|by intros []]. Qed.

Lemma strict_nested {A} (m m' : parse A) : refines_strict m m' → refines_strict (nested m) (nested m').
Proof.
  intros Hm c. unfold nested, is_duplicate. destruct (MAX_DEPTH <=? depth c); [split; [by left|by intros []]|].
  destruct (Hm (Cursor (pos c) (depth c + 1))) as [Hc Hn]. split.
  - destruct Hc as [->|[c' ->]]; [by left|right; eauto].
  - destruct (m' _) as [[r c']|] eqn:E; [|by intros []]. intros [c2 [= -> _]]. apply Hn. unfold is_duplicate. eauto.
Qed.

Lemma strict_duplicate {A} (m m' : parse A) : refines_strict m m' → refines_strict (pfail DuplicateKey) m'.
Proof. intros Hm c. split; [right; by eexists|apply Hm]. Qed.

Hint Resolve strict_ret strict_none strict_peek strict_get_pos strict_set_pos strict_advance strict_at_byte
  strict_ws strict_nested : core.

(** Follows the code of a method. *)
Ltac follow :=
  repeat first
    [ progress intros
    | apply strict_bind; [solve [auto]|]
    | apply strict_bind
    | apply strict_nested
    | solve [auto]
    | solve [apply strict_fail; done]
    | solve [apply strict_ok_or; done]
    | case_match ].

Lemma strict_word w : refines_strict (word input w) (word input w).
Proof. unfold word. follow. Qed.

Lemma strict_hex_rounds k n : refines_strict (hex_rounds input k n) (hex_rounds input k n).
Proof. revert n. induction k; intros n; simpl; follow. Qed.

Lemma strict_unicode_escape : refines_strict (unicode_escape input) (unicode_escape input).
Proof. unfold unicode_escape, hex4. pose proof strict_hex_rounds. follow. Qed.

Lemma strict_push_segment out run : refines_strict (push_segment input out run) (push_segment input out run).
Proof. unfold push_segment. follow. Qed.

Lemma strict_string_loop fuel out run :
  refines_strict (string_loop input fuel out run) (string_loop input fuel out run).
Proof.
  revert out run. pose proof strict_unicode_escape. pose proof strict_push_segment.
  induction fuel; intros out run; cbn [string_loop]; follow.
Qed.

Lemma strict_parse_string : refines_strict (parse_string input) (parse_string input).
Proof. unfold parse_string. pose proof strict_string_loop. follow. Qed.

Lemma strict_parse_number : refines_strict (parse_number format_finite input) (parse_number format_finite input).
Proof. unfold parse_number. follow. Qed.

Lemma strict_values fuel :
  refines_strict (parse_value format_finite input true fuel) (parse_value format_finite input false fuel) ∧
  (∀ vs, refines_strict (parse_array format_finite input true fuel vs) (parse_array format_finite input false fuel vs)) ∧
  (∀ vs, refines_strict (parse_object format_finite input true fuel vs) (parse_object format_finite input false fuel vs)).
Proof.
  pose proof strict_word. pose proof strict_parse_string. pose proof strict_parse_number.
  induction fuel as [|fuel (IHv & IHa & IHo)]; [split_and!; intros; apply strict_none|]. split_and!.
  - cbn [parse_value]. follow.
  - intros vs. cbn [parse_array]. follow.
  - intros vs. cbn [parse_object].
    follow; try match goal with E : _ && false = true |- _ => by rewrite andb_false_r in E end.
    apply (strict_duplicate (ws input ;p; b ←p peek input;
        match b with
        | Some b =>
            if b =b "," then advance 1 ;p; parse_object format_finite input true fuel (obj_insert a1 a5 vs)
            else if b =b "}" then advance 1 ;p; pret (Object (obj_insert a1 a5 vs))
            else pfail InvalidToken
        | None => pfail InvalidToken
        end)). follow.
Qed.

(** Strict parsing fails with a duplicate key, or does what lenient parsing does. *)
Lemma parse_strict_cases :
  let lenient := parse_scalar_with format_finite input false in
  (parse_scalar_with format_finite input true = lenient ∨
   ∃ p, parse_scalar_with format_finite input true = Some (Err (mkParseError DuplicateKey p))) ∧
  (∀ p, lenient ≠ Some (Err (mkParseError DuplicateKey p))).
Proof.
  cbv zeta. unfold parse_scalar_with. destruct (proj1 (strict_values (parse_fuel input)) (Cursor 0 0)) as [Hc Hn].
  split.
  - destruct Hc as [->|[c ->]]; eauto.
  - intros p. unfold is_duplicate in Hn. destruct (parse_value _ _ false _ _) as [[[v|e] c]|]; [| |done].
    + unfold ws, advance. case_match; congruence.
    + intros [= -> _]. apply Hn. by eexists.
Qed.
End strict.
