(* ===== verification/JsonGrammar.v ===== *)
(** * The grammar of JSON texts

    A declarative specification of JSON documents and of the values they
    denote: which bytes spell which value, at a bounded nesting.  The grammar
    is parametric in its lexical tables: [rfc8259] holds those of the JSON
    standard, written down from the standard, and [parser_lexis] those the
    parser reads.  The texts of the compact and the indented writer spell the
    value they were written from. *)
From stdpp Require Import prelude strings sorting.
From Stdlib Require String.
From Stdlib Require Import Ascii.
From S2P Require Import Prelude Json JsonText JsonTextProps JsonNumber JsonWriter JsonParser JsonParserProps.

Local Open Scope nat_scope.

(** ** Lexical tables *)

(** The blanks between tokens, the bytes a string may hold as they are, the
    scalars of the one-letter escapes, and the values of hexadecimal digits. *)
Record lexis : Type := mkLexis {
  blank_byte : ascii → bool;
  plain_byte : ascii → bool;
  short_escape : ascii → option N;
  hex_digit : ascii → option N
}.

(** The tables of the standard (RFC 8259, sections 2 and 7). *)
Definition table (entries : list (ascii * N)) (b : ascii) : option N :=
  snd <$> List.find (λ e, e.1 =b b) entries.

Definition rfc8259 : lexis := {|
  blank_byte b := bool_decide (code b ∈ [32; 9; 10; 13]%N);
  plain_byte b := bool_decide ((32 ≤ code b)%N ∧ code b ≠ 34%N ∧ code b ≠ 92%N);
  short_escape := table [("034", 34); ("\", 92); ("/", 47); ("b", 8); ("f", 12); ("n", 10); ("r", 13); ("t", 9)]%char%N;
  hex_digit := table [("0", 0); ("1", 1); ("2", 2); ("3", 3); ("4", 4); ("5", 5); ("6", 6); ("7", 7); ("8", 8); ("9", 9);
    ("a", 10); ("b", 11); ("c", 12); ("d", 13); ("e", 14); ("f", 15);
    ("A", 10); ("B", 11); ("C", 12); ("D", 13); ("E", 14); ("F", 15)]%char%N
|}.

(** The tables of the standard with one blank more, the form feed. *)
Definition with_form_feed (L : lexis) : lexis :=
  mkLexis (λ b, blank_byte L b || (code b =? 12)%N) (plain_byte L) (short_escape L) (hex_digit L).

(** The tables the parser reads. *)
Definition parser_lexis : lexis := mkLexis is_ascii_whitespace scan_byte simple_escape to_digit_16.

Abbreviation blank := (all is_ascii_whitespace).

(** ** Strings *)

(** High and low surrogates, and the scalar a pair of them stands for. *)
Definition is_high (n : N) : bool := (55296 <=? n)%N && (n <=? 56319)%N.
Definition is_low (n : N) : bool := (56320 <=? n)%N && (n <=? 57343)%N.
Definition surrogates (high low : N) : N := 65536 + N.shiftl (high - 55296) 10 + (low - 56320).

Section strings.
Context (L : lexis).

Definition is_hex (b : ascii) : bool := match hex_digit L b with Some _ => true | None => false end.

(** Four hexadecimal digits and their value. *)
Definition hex_value_in (hs : bytes) : N :=
  foldl (λ n h, N.lor (N.shiftl n 4 `mod` 65536) (default 0%N (hex_digit L h))) 0%N hs.
Definition hex4_text_in (hs : bytes) (n : N) : Prop :=
  length hs = 4 ∧ all is_hex hs ∧ hex_value_in hs = n.

(** What follows a backslash, and the scalar it stands for. *)
Inductive escape_in : bytes → N → Prop :=
| escape_simple e n : short_escape L e = Some n → escape_in [e] n
| escape_unit hs n : hex4_text_in hs n → is_high n = false → from_u32 n = Some n →
    escape_in ("u"%char :: hs) n
| escape_pair hs ls high low : hex4_text_in hs high → is_high high = true →
    hex4_text_in ls low → is_low low = true →
    escape_in ("u"%char :: hs ++ "\"%char :: "u"%char :: ls) (surrogates high low).

(** The bytes between the quotes and the string they denote: valid UTF-8 runs
    without control characters, separated by escapes. *)
Inductive string_body_in : bytes → bytes → Prop :=
| body_run seg : all (plain_byte L) seg → utf8 seg → string_body_in seg seg
| body_escape seg e n b s : all (plain_byte L) seg → utf8 seg → escape_in e n → string_body_in b s →
    string_body_in (seg ++ "\"%char :: e ++ b) (seg ++ encode_utf8 n ++ s).
End strings.
Arguments escape_simple {L}.
Arguments escape_unit {L}.
Arguments escape_pair {L}.
Arguments body_run {L}.
Arguments body_escape {L}.

Definition quoted (b : bytes) : bytes := "034"%char :: b ++ ["034"%char].

(** ** Values *)

Section grammar.
Context (L : lexis) (format_finite : f64 → string) (strict : bool).
#[local] Abbreviation spaces := (all (blank_byte L)).

(** The members of an object in source order; a later one replaces an earlier
    one with its key. *)
Definition object_of (ms : list (string * value)) : object :=
  foldl (λ o kv, obj_insert kv.1 kv.2 o) [] ms.

(** [text_in n x v]: [x] spells [v] with at most [n] levels of containers;
    under [strict] no object repeats a key. *)
Inductive text_in : nat → bytes → value → Prop :=
| json_null n : text_in n (as_bytes "null") Null
| json_bool n (b : bool) : text_in n (as_bytes (if b then "true" else "false")) (Bool b)
| json_number n x : number_text x → text_in n x (Number (Number_parse format_finite (of_bytes x)))
| json_string n b s : string_body_in L b s → text_in n (quoted b) (VString (of_bytes s))
| json_array_nil n w : spaces w → text_in (S n) ("["%char :: w ++ ["]"%char]) (Array [])
| json_array n x vs : items_in n x vs → text_in (S n) ("["%char :: x ++ ["]"%char]) (Array vs)
| json_object_nil n w : spaces w → text_in (S n) ("{"%char :: w ++ ["}"%char]) (Object [])
| json_object n x ms : members_in n x ms → (strict = true → NoDup ms.*1) →
    text_in (S n) ("{"%char :: x ++ ["}"%char]) (Object (object_of ms))
with items_in : nat → bytes → list value → Prop :=
| items_one n w x w' v : spaces w → spaces w' → text_in n x v → items_in n (w ++ x ++ w') [v]
| items_cons n w x w' v y vs : spaces w → spaces w' → text_in n x v → items_in n y vs →
    items_in n (w ++ x ++ w' ++ ","%char :: y) (v :: vs)
with members_in : nat → bytes → list (string * value) → Prop :=
| members_one n w1 b s w2 w3 x w4 v : spaces w1 → string_body_in L b s → spaces w2 → spaces w3 → text_in n x v → spaces w4 →
    members_in n (w1 ++ quoted b ++ w2 ++ ":"%char :: w3 ++ x ++ w4) [(of_bytes s, v)]
| members_cons n w1 b s w2 w3 x w4 v y ms : spaces w1 → string_body_in L b s → spaces w2 → spaces w3 → text_in n x v →
    spaces w4 → members_in n y ms →
    members_in n (w1 ++ quoted b ++ w2 ++ ":"%char :: w3 ++ x ++ w4 ++ ","%char :: y) ((of_bytes s, v) :: ms).

(** A document is a text between blanks. *)
Definition document_in (input : bytes) (v : value) : Prop :=
  ∃ w x w', input = w ++ x ++ w' ∧ spaces w ∧ spaces w' ∧ text_in MAX_DEPTH x v.
End grammar.
Arguments json_null {L}.
Arguments json_bool {L}.
Arguments json_number {L}.
Arguments json_string {L}.
Arguments json_array_nil {L}.
Arguments json_array {L}.
Arguments json_object_nil {L}.
Arguments json_object {L}.
Arguments items_one {L}.
Arguments items_cons {L}.
Arguments members_one {L}.
Arguments members_cons {L}.

(** The grammar with the tables of the parser. *)
Abbreviation hex_value := (hex_value_in parser_lexis).
Abbreviation hex4_text := (hex4_text_in parser_lexis).
Abbreviation escape := (escape_in parser_lexis).
Abbreviation string_body := (string_body_in parser_lexis).
Abbreviation json := (text_in parser_lexis).
Abbreviation items := (items_in parser_lexis).
Abbreviation members := (members_in parser_lexis).
Abbreviation document := (document_in parser_lexis).

Scheme json_mut := Induction for text_in Sort Prop
  with items_mut := Induction for items_in Sort Prop
  with members_mut := Induction for members_in Sort Prop.
Combined Scheme json_mutind from json_mut, items_mut, members_mut.

(** ** Changing the tables

    A text stays one, with its value, under tables that agree with the old
    ones on strings and take its blanks for blanks. *)

Section tables.
Context (L1 L2 : lexis) (format_finite : f64 → string) (strict : bool).
Hypothesis Hplain : ∀ b, plain_byte L1 b = true → plain_byte L2 b = true.
Hypothesis Hshort : ∀ b, short_escape L1 b = short_escape L2 b.
Hypothesis Hhex : ∀ b, hex_digit L1 b = hex_digit L2 b.

(** The byte is no blank of the first table only. *)
Definition kept (b : ascii) : Prop := blank_byte L1 b = true → blank_byte L2 b = true.

Lemma hex_value_kept hs : hex_value_in L2 hs = hex_value_in L1 hs.
Proof using Hhex.
  unfold hex_value_in. assert (∀ m, foldl (λ n h, N.lor (N.shiftl n 4 `mod` 65536) (default 0%N (hex_digit L2 h))) m hs
    = foldl (λ n h, N.lor (N.shiftl n 4 `mod` 65536) (default 0%N (hex_digit L1 h))) m hs) as Hm; [|apply Hm].
  induction hs as [|b hs IH]; intros m; [done|]. cbn [foldl]. by rewrite IH, Hhex.
Qed.

Lemma hex4_kept hs n : hex4_text_in L1 hs n → hex4_text_in L2 hs n.
Proof using Hhex.
  intros (Hl & Ha & <-). split_and!; [done| |].
  - eapply Forall_impl; [exact Ha|]. intros b. unfold is_hex. by rewrite Hhex.
  - apply hex_value_kept.
Qed.

Lemma escape_kept e n : escape_in L1 e n → escape_in L2 e n.
Proof using Hshort Hhex.
  destruct 1; [apply escape_simple; by rewrite <-Hshort|apply escape_unit; eauto using hex4_kept..|].
  apply escape_pair; eauto using hex4_kept.
Qed.

Lemma body_kept b s : string_body_in L1 b s → string_body_in L2 b s.
Proof using Hplain Hshort Hhex.
  induction 1; constructor; eauto using escape_kept, Forall_impl.
Qed.

Lemma blanks_kept w : all (blank_byte L1) w → Forall kept w → all (blank_byte L2) w.
Proof using Type. intros Hw Hk. rewrite !Forall_forall in *. intros b Hb. by apply Hk, Hw. Qed.

Lemma text_kept :
  (∀ n x v, text_in L1 format_finite strict n x v → Forall kept x → text_in L2 format_finite strict n x v) ∧
  (∀ n x vs, items_in L1 format_finite strict n x vs → Forall kept x → items_in L2 format_finite strict n x vs) ∧
  (∀ n x ms, members_in L1 format_finite strict n x ms → Forall kept x → members_in L2 format_finite strict n x ms).
Proof using Hplain Hshort Hhex.
  apply json_mutind; intros; repeat rewrite ?Forall_app, ?Forall_cons in *; destruct_and?;
    constructor; eauto using body_kept, blanks_kept.
Qed.

Lemma document_kept input v :
  document_in L1 format_finite strict input v → Forall kept input → document_in L2 format_finite strict input v.
Proof using Hplain Hshort Hhex.
  intros (w & x & w' & -> & Hw & Hw' & Hx). rewrite !Forall_app. intros (Kw & Kx & Kw').
  exists w, x, w'. split_and!; [done|by apply blanks_kept..|by apply text_kept].
Qed.
End tables.

(** ** Facts about the grammar *)

Lemma scan_plain b : scan_byte b = is_plain b.
Proof. by_bytes b. Qed.

Lemma not_plain_ascii b : is_plain b = false → ascii_byte b = true.
Proof. by_bytes b. Qed.

Definition number_head (b : ascii) : bool := (b =b "-") || is_ascii_digit b.

Lemma number_first x : number_text x → ∃ b r, x = b :: r ∧ number_head b = true.
Proof.
  intros (sg & i & f & e & -> & [->| ->] & Hi & _); [|by eexists _, _].
  destruct Hi as [->|(c & ds & -> & Hc & _)]; eexists _, _; (split; [done|]); [done|].
  revert Hc. by_bytes c.
Qed.

Lemma number_bytes x : number_text x → all is_number_byte x.
Proof.
  assert (Hdig : ∀ ds, all is_ascii_digit ds → all is_number_byte ds)
    by (intros ds H; eapply Forall_impl; [exact H|]; intros c; by_bytes c).
  intros (sg & i & f & e & -> & Hsg & Hi & Hf & He). rewrite !Forall_app. split_and!.
  - destruct Hsg as [->| ->]; by repeat constructor.
  - by apply Hdig, integer_digits.
  - destruct Hf as [->|(ds & -> & _ & ?)]; [done|]. constructor; [done|auto].
  - destruct He as [->|(c & es & ds & -> & Hc & Hes & _ & ?)]; [done|]. constructor; [revert Hc; by_bytes c|].
    apply Forall_app. split; [|auto]. destruct Hes as [->|(s & -> & Hs)]; [done|].
    repeat constructor. revert Hs. by_bytes s.
Qed.

Lemma ascii_utf8 x : all ascii_byte x → utf8 x.
Proof. induction 1; [constructor|by apply utf8_ascii]. Qed.

Lemma number_utf8 x : number_text x → utf8 x.
Proof.
  intros H%number_bytes. apply ascii_utf8. eapply Forall_impl; [exact H|]. intros c. by_bytes c.
Qed.

(** The first byte of a text. *)
Definition value_head (b : ascii) : bool :=
  (b =b "n") || (b =b "t") || (b =b "f") || (b =b "034") || (b =b "[") || (b =b "{") || number_head b.

Lemma json_head fmt strict n x v : json fmt strict n x v → ∃ b r, x = b :: r ∧ value_head b = true.
Proof.
  destruct 1 as [| ? []|n x H| | | | |]; try by eexists _, _.
  destruct (number_first _ H) as (b & r & -> & Hb). exists b, r. split; [done|].
  unfold value_head. by rewrite Hb, orb_true_r.
Qed.

Lemma value_head_facts b : value_head b = true →
  is_ascii_whitespace b = false ∧ ("]"%char =b b) = false ∧ ("}"%char =b b) = false.
Proof. by_bytes b. Qed.

Lemma json_mono fmt strict :
  (∀ n x v, json fmt strict n x v → ∀ m, n ≤ m → json fmt strict m x v) ∧
  (∀ n x vs, items fmt strict n x vs → ∀ m, n ≤ m → items fmt strict m x vs) ∧
  (∀ n x ms, members fmt strict n x ms → ∀ m, n ≤ m → members fmt strict m x ms).
Proof.
  apply json_mutind; intros;
    try match goal with H : S _ ≤ ?m |- _ => destruct m; [lia|apply le_S_n in H] end;
    econstructor; eauto.
Qed.

(** ** Written texts *)

Lemma push_escape_spec b : is_plain b = false →
  ∃ e, push_escape b = "\"%char :: e ∧ escape e (code b) ∧ encode_utf8 (code b) = [b].
Proof.
  intros Hb. assert (He : encode_utf8 (code b) = [b]).
  { unfold encode_utf8. pose proof (not_plain_ascii _ Hb) as Ha. unfold ascii_byte in Ha. rewrite Ha.
    f_equal. apply ascii_N_embedding. }
  exists (tail (push_escape b)). split; [|split; [|done]].
  { unfold push_escape. by repeat case_match. }
  unfold push_escape. repeat case_match; cbn [tail];
    try (apply escape_simple; rewrite ?N.eqb_eq in *;
      repeat match goal with E : (b =b _) = true |- _ => apply eqb_byte in E as -> end;
      repeat match goal with E : code b = _ |- _ => rewrite E; clear E end; done).
  set (hs := ["0"; "0"; hex_char (N.shiftr (code b) 4); hex_char (N.land (code b) 15)]%char).
  assert (Hall : forallb is_ascii_hexdigit hs && (hex_value hs =? code b)%N && negb (is_high (code b)) &&
    (match from_u32 (code b) with Some c => c =? code b | None => false end)%N = true).
  { revert Hb H H0. unfold hs. clear. by_bytes b. }
  apply andb_prop in Hall as [[[H6 H7%N.eqb_eq]%andb_prop H8%negb_true_iff]%andb_prop H9].
  apply (escape_unit hs); [|done|].
  - split_and!; [done| |done]. apply Forall_forall. intros h Hh%list_elem_of_In.
    rewrite List.forallb_forall in H6. auto.
  - destruct (from_u32 _); [|done]. by apply N.eqb_eq in H9 as ->.
Qed.

Lemma written_body x seg : all scan_byte seg → utf8 (seg ++ x) → string_body (seg ++ (x ≫= escape_byte)) (seg ++ x).
Proof.
  revert seg. induction x as [|b x IH]; intros seg Hseg Hu.
  - simpl. rewrite app_nil_r in *. by constructor.
  - rewrite bind_cons. unfold escape_byte at 1. destruct (is_plain b) eqn:Hb.
    + rewrite app_assoc, (app_assoc seg [b] x : seg ++ b :: x = (seg ++ [b]) ++ x). apply IH.
      * apply Forall_app. split; [done|]. repeat constructor. by rewrite scan_plain.
      * by rewrite <-app_assoc.
    + destruct (push_escape_spec b Hb) as (e & -> & He & Henc).
      destruct (utf8_split _ _ _ Hu (not_plain_ascii _ Hb)) as [Hu1 Hu2].
      change (b :: x) with ([b] ++ x). rewrite <-Henc. simpl.
      apply body_escape; try done. by apply (IH []).
Qed.

Lemma string_text_body s : utf8 (as_bytes s) → ∃ b, string_text s = quoted b ∧ string_body b (as_bytes s).
Proof. intros Hu. eexists. split; [done|]. by apply (written_body _ []). Qed.

(** Layouts that separate the parts of a container with whitespace. *)
Record layout_ok (lay : layout) : Prop := {
  first_ws d : blank (lay_first lay d);
  next_ws d : ∃ w, lay_next lay d = ","%char :: w ∧ blank w;
  colon_ws : ∃ w, lay_colon lay = ":"%char :: w ∧ blank w;
  close_ws d : blank (lay_close lay d)
}.

Lemma compact_ok : layout_ok compact.
Proof. split; intros; simpl; try (eexists; split; [done|]); by repeat constructor. Qed.

Lemma new_line_ws d : blank (new_line d).
Proof.
  unfold new_line. constructor; [done|]. induction d as [|d IH]; simpl; [done|].
  rewrite indent_spec. apply Forall_app. split; [by repeat constructor|done].
Qed.

Lemma pretty_ok : layout_ok pretty.
Proof.
  split; intros; simpl; try (eexists; split; [done|]); first [apply new_line_ws|by repeat constructor].
Qed.

Lemma obj_insert_last acc k v : obj_sorted (acc ++ [(k, v)]) →
  obj_insert k v acc = acc ++ [(k, v)] ∧ obj_contains_key acc k = false.
Proof.
  unfold obj_sorted, obj_contains_key. induction acc as [|[k' v'] acc IH]; [done|].
  intros Hs'. inversion_clear Hs' as [|? ? Hs Hall].
  apply Forall_app in Hall as [_ [Hlt _]%Forall_cons]. simpl in *.
  destruct (IH Hs) as [-> Hno]. rewrite (proj1 (cmp_lt_gt String.compare _ _) Hlt). split; [done|].
  destruct (String.eqb_spec k k') as [->|]; [|done]. by rewrite (cmp_refl String.compare) in Hlt.
Qed.

Lemma object_of_sorted o : obj_sorted o → object_of o = o.
Proof.
  unfold object_of. intros Hs. change o with ([] ++ o) in Hs at 1.
  assert (H : ∀ acc, obj_sorted (acc ++ o) → foldl (λ o kv, obj_insert kv.1 kv.2 o) acc o = acc ++ o).
  { clear Hs. induction o as [|[k v] o IH]; intros acc Hs; simpl; [by rewrite app_nil_r|].
    assert (Hs' : obj_sorted ((acc ++ [(k, v)]) ++ o)) by by rewrite <-app_assoc.
    destruct (obj_insert_last acc k v) as [-> _].
    - unfold obj_sorted in *. by apply StronglySorted_app_1_l in Hs'.
    - rewrite IH by done. by rewrite <-app_assoc. }
  apply (H [] Hs).
Qed.

Lemma map_fst_pair {A B} (f : A → B) l : (map (λ x, (f x, x)) l).*1 = map f l.
Proof. induction l; csimpl; congruence. Qed.
Lemma map_snd_pair {A B} (f : A → B) l : (map (λ x, (f x, x)) l).*2 = l.
Proof. induction l; csimpl; congruence. Qed.

Section written.
Context (fmt : f64 → string) (strict : bool) (lay : layout) (Hlay : layout_ok lay).

Lemma join_items n d w close (l : list (bytes * value)) : lay_next lay d = ","%char :: w → blank w → blank close →
  Forall (λ p, json fmt strict n p.1 p.2) l → l ≠ [] → ∀ first, blank first →
  items fmt strict n (join first (lay_next lay d) l.*1 ++ close) l.*2.
Proof.
  intros Hn Hw Hc Hl. induction Hl as [|[x v] l Hx Hl IH]; [done|]. intros _ first Hf. cbn [fmap list_fmap join].
  rewrite <-!app_assoc. destruct l as [|p l].
  - simpl. by apply items_one.
  - rewrite Hn. change (join (","%char :: w) (","%char :: w) (p :: l).*1) with
      (","%char :: join w (","%char :: w) (p :: l).*1). rewrite <-Hn.
    apply (items_cons _ _ _ first _ []); try done. by apply IH.
Qed.

Opaque quoted.

Lemma join_members n d w close (l : list (bytes * (string * value))) :
  lay_next lay d = ","%char :: w → blank w → blank close →
  Forall (λ p, ∃ b s c x, p.1 = quoted b ++ ":"%char :: c ++ x ∧ string_body b (as_bytes s) ∧ blank c ∧
    s = p.2.1 ∧ json fmt strict n x p.2.2) l → l ≠ [] → ∀ first, blank first →
  members fmt strict n (join first (lay_next lay d) l.*1 ++ close) l.*2.
Proof.
  intros Hn Hw Hc Hl. induction Hl as [|[y [k v]] l Hx Hl IH]; [done|]. intros _ first Hf.
  destruct Hx as (b & s & c & x & E & Hb & Hcb & -> & Hx). simpl in E, Hx. subst y. cbn [fst snd] in *.
  cbn [fmap list_fmap join fst snd]. rewrite <-!app_assoc, <-app_comm_cons, <-!app_assoc.
  rewrite <-(of_as_bytes k). destruct l as [|p l].
  - cbn [fmap list_fmap join]. rewrite app_nil_l. by apply (members_one _ _ _ first b _ [] c x close).
  - rewrite Hn. change (join (","%char :: w) (","%char :: w) (p :: l).*1) with
      (","%char :: join w (","%char :: w) (p :: l).*1). rewrite <-Hn.
    apply (members_cons _ _ _ first b _ [] c x []); try done. by apply IH.
Qed.

Transparent quoted.

(** The text of a well-formed value spells it. *)
Lemma text_json v : ∀ n d, value_ok fmt n v → json fmt strict n (text lay v d) v.
Proof.
  induction v as [|b|m|s|l IH|o IH] using value_rect_nested; intros n d Hok.
  - constructor.
  - constructor.
  - destruct Hok as [Hv Hn]. simpl. rewrite <-Hn at 2. rewrite <-(of_as_bytes m) at 2.
    constructor. by apply valid_number_spec.
  - simpl. destruct (string_text_body s Hok) as (b & -> & Hb). rewrite <-(of_as_bytes s). by constructor.
  - apply value_ok_Array in Hok as [Hn Hoks]. destruct n as [|n]; [lia|]. simpl in Hoks. rewrite Nat.sub_0_r in Hoks.
    destruct (next_ws _ Hlay d) as (w & Hw & Hwall). cbn [text]. unfold enclose.
    destruct (decide (l = [])) as [->|Hne]; [by apply (json_array_nil _ _ _ [])|].
    pose proof (join_items n d w (lay_close lay d) (map (λ x, (text lay x (d + 1), x)) l) Hw Hwall (close_ws _ Hlay d)) as Hj.
    rewrite map_fst_pair, map_snd_pair in Hj.
    assert (Hi : items fmt strict n (join (lay_first lay d) (lay_next lay d) (map (λ x, text lay x (d + 1)) l) ++ lay_close lay d) l).
    { apply Hj; [|by destruct l|apply Hlay]. clear - IH Hoks. induction IH as [|x l Hx _ IHl]; [constructor|].
      apply Forall_cons in Hoks as [??]. constructor; [by apply Hx|auto]. }
    destruct l as [|x l]; [done|]. cbn [map] in *. rewrite app_assoc. by apply json_array.
  - apply value_ok_Object in Hok as (Hn & Hs & Hoks). destruct n as [|n]; [lia|]. simpl in Hoks. rewrite Nat.sub_0_r in Hoks.
    destruct (next_ws _ Hlay d) as (w & Hw & Hwall). destruct (colon_ws _ Hlay) as (c & Hc & Hcall).
    cbn [text]. unfold enclose. destruct (decide (o = [])) as [->|Hne]; [by apply (json_object_nil _ _ _ [])|].
    set (f := λ kv : string * value, string_text kv.1 ++ lay_colon lay ++ text lay kv.2 (d + 1)).
    pose proof (join_members n d w (lay_close lay d) (map (λ kv, (f kv, kv)) o) Hw Hwall (close_ws _ Hlay d)) as Hj.
    rewrite map_fst_pair, map_snd_pair in Hj.
    assert (Hi : members fmt strict n (join (lay_first lay d) (lay_next lay d) (map f o) ++ lay_close lay d) o).
    { apply Hj; [|by destruct o|apply Hlay]. clear - IH Hoks Hc Hcall. induction IH as [|[k x] o Hx _ IHo]; [constructor|].
      apply Forall_cons in Hoks as [[Hk Hxo] ?]. constructor; [|auto].
      destruct (string_text_body k Hk) as (b & Hb & Hbody). exists b, k, c, (text lay x (d + 1)).
      unfold f. cbn [fst snd]. rewrite Hb, Hc. split_and!; try done. by apply Hx. }
    rewrite <-(object_of_sorted o Hs) at 2.
    destruct o as [|x o]; [done|]. cbn [map] in *. rewrite app_assoc. apply json_object; [done|].
    intros _. clear - Hs. unfold obj_sorted in Hs. induction Hs as [|y l _ IHl Hall]; [constructor|].
    csimpl. constructor; [|done]. intros (z & Ez & Hz)%list_elem_of_fmap. rewrite Forall_forall in Hall.
    specialize (Hall z Hz). rewrite Ez, (cmp_refl String.compare) in Hall. done.
Qed.
End written.
