(* ===== verification/JsonComplete.v ===== *)
(** * Completeness of the JSON parser

    Every document of the grammar parses, to the value it spells. *)
From stdpp Require Import prelude strings sorting.
From Stdlib Require String.
From Stdlib Require Import Ascii.
From S2P Require Import Prelude Json JsonText JsonTextProps JsonNumber JsonWriter JsonParser JsonParserProps JsonGrammar.

Local Open Scope nat_scope.

Lemma run_bind {E A B} (m : parser E A) (k : A → parser E B) c a c' :
  m c = Some (Ok a, c') → pbind m k c = k a c'.
Proof. unfold pbind. by intros ->. Qed.

Lemma pbind_cong {E A B} (m : parser E A) (k : A → parser E B) c c' : m c = m c' → pbind m k c = pbind m k c'.
Proof. unfold pbind. by intros ->. Qed.

Section run.
Context (format_finite : f64 → string) (input : bytes) (strict : bool).

(** The input from position [p] on. *)
Definition here (p : nat) (x : bytes) : Prop := drop p input = x ∧ p ≤ length input.

Lemma here_app p x r : here p (x ++ r) → here (p + length x) r.
Proof.
  intros [H Hp]. split; [by rewrite <-drop_drop, H, drop_app_length|].
  apply (f_equal length) in H. rewrite length_drop, length_app in H. lia.
Qed.

Lemma here_cons p b r : here p (b :: r) → input !! p = Some b ∧ here (p + 1) r.
Proof.
  intros H. split; [|by apply (here_app p [b])].
  destruct H as [H _]. by rewrite <-(Nat.add_0_r p), <-lookup_drop, H.
Qed.

Lemma here_length p x : here p x → p + length x = length input.
Proof. intros [H Hp]. apply (f_equal length) in H. rewrite length_drop in H. lia. Qed.

Lemma here_slice p x r : here p (x ++ r) → slice input p (p + length x) = x.
Proof.
  intros [H _]. unfold slice. rewrite H. replace (p + length x - p) with (length x) by lia.
  by rewrite take_app_length.
Qed.

Lemma slice_empty p : slice input p p = [].
Proof. unfold slice. by rewrite Nat.sub_diag. Qed.

(** ** Single steps *)

Lemma run_ws {E} p d w r : here p (w ++ r) → blank w → stops is_ascii_whitespace r →
  ws (E := E) input (Cursor p d) = Some (Ok tt, Cursor (p + length w) d).
Proof. intros [H _] Hw Hr. unfold ws, advance. simpl. by rewrite H, count_while_app. Qed.

Lemma run_no_ws {E} p d r : here p r → stops is_ascii_whitespace r →
  ws (E := E) input (Cursor p d) = Some (Ok tt, Cursor p d).
Proof. intros H Hr. rewrite (run_ws p d [] r H) by done. simpl. by rewrite Nat.add_0_r. Qed.

Lemma run_peek {E} p d b r : here p (b :: r) → peek (E := E) input (Cursor p d) = Some (Ok (Some b), Cursor p d).
Proof. intros [H _]%here_cons. unfold peek. simpl. by rewrite H. Qed.

Lemma run_at_byte {E} p d b b' r : here p (b' :: r) →
  at_byte (E := E) input b (Cursor p d) = Some (Ok (b =b b'), Cursor p d).
Proof. intros [H _]%here_cons. unfold at_byte, byte_is. simpl. by rewrite H. Qed.

Lemma run_word p d x r : here p (x ++ r) →
  word input x (Cursor p d) = Some (Ok tt, Cursor (p + length x) d).
Proof. intros H. unfold word, pbind, get_pos. simpl. by rewrite (here_slice _ _ _ H), decide_True. Qed.

(** ** Strings *)

Lemma run_push_segment out run p d seg : slice input run p = seg → utf8 seg →
  push_segment input out run (Cursor p d) = Some (Ok (out ++ seg), Cursor (p + 1) d).
Proof.
  intros Hs Hu%utf8_spec. unfold push_segment, pbind, get_pos. simpl. rewrite Hs. unfold from_utf8.
  rewrite Hu. simpl. by rewrite as_of_bytes.
Qed.

Lemma run_hex_rounds hs p d n r : here p (hs ++ r) → all is_ascii_hexdigit hs →
  hex_rounds input (length hs) n (Cursor p d) =
  Some (Ok (foldl (λ n h, N.lor (N.shiftl n 4 `mod` 65536) (default 0%N (to_digit_16 h))) n hs),
        Cursor (p + length hs) d).
Proof.
  intros H Hh. revert p n H. induction Hh as [|h hs Hx _ IH]; intros p n H; simpl.
  { unfold pret. by rewrite Nat.add_0_r. }
  unfold is_ascii_hexdigit in Hx. destruct (to_digit_16 h) as [x|] eqn:E; [|done].
  erewrite run_bind; [|by eapply run_peek]. simpl. unfold pret. erewrite run_bind; [|done]. simpl.
  erewrite run_bind; [|done]. rewrite E. simpl. erewrite run_bind; [|done]. simpl.
  apply here_cons in H as [_ H]. rewrite (IH _ _ H). by rewrite <-Nat.add_assoc.
Qed.

Lemma run_hex4 hs p d n r : here p (hs ++ r) → hex4_text hs n →
  hex4 input (Cursor p d) = Some (Ok n, Cursor (p + 4) d).
Proof. intros H (Hl & Hh & <-). unfold hex4. rewrite <-Hl. by eapply run_hex_rounds. Qed.

Lemma surrogates_scalar high low : is_high high = true → is_low low = true →
  from_u32 (surrogates high low) = Some (surrogates high low).
Proof.
  unfold is_high, is_low, surrogates, from_u32. intros [H1 H2]%andb_prop [H3 H4]%andb_prop.
  rewrite N.shiftl_mul_pow2. change (2 ^ 10)%N with 1024%N. apply N.leb_le in H1, H2, H3, H4.
  destruct (N.ltb_spec (65536 + (high - 55296) * 1024 + (low - 56320)) 55296); [lia|].
  destruct (N.leb_spec 57344 (65536 + (high - 55296) * 1024 + (low - 56320))); [|lia].
  destruct (N.leb_spec (65536 + (high - 55296) * 1024 + (low - 56320)) 1114111); [done|lia].
Qed.

Lemma simple_escape_not_u e n : simple_escape e = Some n → (e =b "u") = false.
Proof. by_bytes e. Qed.

(** What the parser reads after the backslash of an escape. *)
Definition escaped_scalar : parse N :=
  escaped ←p peek input;
  escaped ←p ok_or escaped UnexpectedEnd;
  advance 1 ;p;
  (if escaped =b "u" then unicode_escape input else ok_or (simple_escape escaped) InvalidEscape).

Lemma run_escape p d e n r : here p (e ++ r) → escape e n →
  escaped_scalar (Cursor p d) = Some (Ok n, Cursor (p + length e) d).
Proof.
  intros H He. unfold escaped_scalar.
  destruct He as [e n He|hs n Hhs Hn Hu|hs ls high low Hhs Hh Hls Hl]; cbn [app] in H;
    (erewrite run_bind; [|by eapply run_peek]); (erewrite run_bind; [|done]); (erewrite run_bind; [|done]);
    apply here_cons in H as [_ H]; cbn [pos depth].
  - by rewrite (simple_escape_not_u _ _ He), (He : simple_escape e = Some n).
  - cbn [Ascii.eqb Bool.eqb]. unfold unicode_escape. erewrite run_bind; [|by eapply run_hex4].
    fold (is_high n). rewrite Hn. erewrite run_bind; [|done]. rewrite Hu. unfold ok_or, pret.
    cbn [length]. destruct Hhs as [-> _]. do 3 f_equal. lia.
  - cbn [Ascii.eqb Bool.eqb]. unfold unicode_escape. rewrite <-app_assoc in H.
    erewrite run_bind; [|by eapply run_hex4]. fold (is_high high). rewrite Hh.
    replace 4 with (length hs) by apply Hhs. apply here_app in H.
    unfold pbind at 1. erewrite run_bind; [|done]. cbn [pos depth].
    rewrite decide_True by exact (here_slice _ (as_bytes "\u") (ls ++ r) H).
    erewrite run_bind; [|done]. do 2 apply here_cons in H as [_ H].
    rewrite <-Nat.add_assoc in H. cbn [pos depth]. erewrite run_bind; [|by eapply run_hex4].
    fold (is_low low). rewrite Hl. fold (surrogates high low). unfold pret. rewrite surrogates_scalar by done.
    unfold ok_or, pret. do 3 f_equal. cbn [length]. rewrite length_app. cbn [length]. destruct Hls as [-> _]. lia.
Qed.

Lemma escape_branch {A} (k : N → parse A) c :
  (escaped ←p peek input;
   escaped ←p ok_or escaped UnexpectedEnd;
   advance 1 ;p;
   n ←p (if escaped =b "u" then unicode_escape input else ok_or (simple_escape escaped) InvalidEscape);
   k n) c = (n ←p escaped_scalar; k n) c.
Proof.
  unfold escaped_scalar, pbind, peek, advance. destruct (input !! pos c) as [b|]; [|done]. simpl.
  by repeat case_match.
Qed.

Lemma scan_tests b : scan_byte b = true →
  (b =b "034") = false ∧ (b =b "\") = false ∧ (code b <=? 31)%N = false.
Proof. by_bytes b. Qed.

(** The loop runs over bytes that need no attention. *)
Lemma run_segment seg k out run p d r : here p (seg ++ r) → all scan_byte seg →
  string_loop input (length seg + k) out run (Cursor p d) =
  string_loop input k out run (Cursor (p + length seg) d).
Proof.
  intros H Hs. revert p H. induction Hs as [|b seg Hb _ IH]; intros p H; [by rewrite Nat.add_0_r|].
  cbn [length Nat.add string_loop]. destruct (scan_tests _ Hb) as (E1 & E2 & E3). cbn [app] in H.
  erewrite run_bind; [|by eapply run_peek]. erewrite run_bind; [|done]. rewrite E1, E2, E3.
  erewrite run_bind; [|done]. apply here_cons in H as [_ H]. cbn [pos depth].
  rewrite (IH _ H). by rewrite <-Nat.add_assoc.
Qed.

Lemma run_close fuel out run p d r seg : here p ("034"%char :: r) → slice input run p = seg → utf8 seg →
  string_loop input (S fuel) out run (Cursor p d) = Some (Ok (of_bytes (out ++ seg)), Cursor (p + 1) d).
Proof.
  intros H Hs Hu. cbn [string_loop]. erewrite run_bind; [|by eapply run_peek]. erewrite run_bind; [|done].
  cbn [Ascii.eqb Bool.eqb]. by erewrite run_bind; [|by apply run_push_segment].
Qed.

Lemma run_backslash fuel out run p d r e n seg : here p ("\"%char :: e ++ r) → escape e n →
  slice input run p = seg → utf8 seg →
  string_loop input (S fuel) out run (Cursor p d) =
  string_loop input fuel ((out ++ seg) ++ encode_utf8 n) (p + 1 + length e) (Cursor (p + 1 + length e) d).
Proof.
  intros H He Hs Hu. cbn [string_loop]. erewrite run_bind; [|by eapply run_peek]. erewrite run_bind; [|done].
  cbn [Ascii.eqb Bool.eqb]. erewrite run_bind; [|by apply run_push_segment]. rewrite escape_branch.
  apply here_cons in H as [_ H]. erewrite run_bind; [|by eapply run_escape]. by erewrite run_bind; [|done].
Qed.

Lemma run_string_loop b s fuel out p d r : string_body b s →
  here p (b ++ "034"%char :: r) → length b < fuel →
  string_loop input fuel out p (Cursor p d) = Some (Ok (of_bytes (out ++ s)), Cursor (p + length b + 1) d).
Proof.
  intros Hb. revert fuel out p. induction Hb as [seg Hseg Hu|seg e n b s Hseg Hu He Hb IH]; intros fuel out p H Hf.
  - replace fuel with (length seg + S (fuel - length seg - 1)) by lia.
    erewrite run_segment by done. eapply run_close; [by apply here_app|by eapply here_slice|done].
  - rewrite <-app_assoc in H. rewrite length_app in Hf. cbn [length] in Hf. rewrite length_app in Hf.
    replace fuel with (length seg + S (fuel - length seg - 1)) by lia.
    erewrite run_segment by done. pose proof (here_slice _ _ _ H) as Hs.
    apply here_app in H. rewrite <-app_comm_cons, <-app_assoc in H.
    erewrite run_backslash by done. rewrite IH; [| |lia].
    + rewrite <-!app_assoc. do 3 f_equal. rewrite length_app. cbn [length]. rewrite length_app. lia.
    + apply here_cons in H as [_ H]. by apply here_app.
Qed.

Lemma run_parse_string b s p d r : here p (quoted b ++ r) → string_body b s →
  parse_string input (Cursor p d) = Some (Ok (of_bytes s), Cursor (p + length (quoted b)) d).
Proof.
  unfold quoted. intros H Hb. rewrite <-app_comm_cons, <-app_assoc in H. pose proof (here_length _ _ H) as HL.
  apply here_cons in H as [_ H]. unfold parse_string. erewrite run_bind; [|done]. erewrite run_bind; [|done]. cbn [pos depth].
  assert (Hscan : ∃ seg t, b = seg ++ t ∧ all scan_byte seg ∧ utf8 seg ∧ stops scan_byte (t ++ ["034"%char]) ∧
    (t = [] ∧ s = seg ∨ ∃ e n b' s', t = "\"%char :: e ++ b' ∧ escape e n ∧ string_body b' s' ∧
       s = seg ++ encode_utf8 n ++ s')).
  { destruct Hb as [seg ?|seg e n b' s' ?].
    - exists seg, []. rewrite app_nil_r. split_and!; try done. by left.
    - exists seg, ("\"%char :: e ++ b'). split_and!; try done. right. by exists e, n, b', s'. }
  clear Hb. destruct Hscan as (seg & t & -> & Hseg & Hu & Hstop & Hcase). rewrite <-app_assoc in H.
  assert (count_while scan_byte (drop (p + 1) input) = length seg) as ->.
  { destruct H as [-> _]. apply count_while_app; [done|]. by destruct t. }
  pose proof (here_slice _ _ _ H) as Hsl. rewrite Hsl.
  assert (from_utf8 seg = Some (of_bytes seg)) as -> by (unfold from_utf8; by rewrite (proj2 (utf8_spec seg) Hu)).
  apply here_app in H. destruct Hcase as [[-> ->]|(e & n & b' & s' & -> & He & Hb & ->)].
  - destruct (here_cons _ _ _ H) as [-> _]. erewrite run_bind; [|done]. cbn [Ascii.eqb Bool.eqb].
    unfold pbind, set_pos, pret. do 3 f_equal. cbn [length]. rewrite !length_app. cbn [length]. lia.
  - rewrite <-app_comm_cons in H. destruct (here_cons _ _ _ H) as [-> _]. erewrite run_bind; [|done].
    cbn [Ascii.eqb Bool.eqb]. erewrite run_bind; [|done]. rewrite as_of_bytes, <-app_assoc in *. cbn [depth].
    erewrite run_backslash; [|exact H|done|apply slice_empty|constructor]. apply here_cons in H as [_ H].
    apply here_app in H. rewrite app_nil_r.
    cbn [length] in HL. rewrite !length_app in HL. cbn [length] in HL. rewrite !length_app in HL.
    erewrite run_string_loop; [|done|exact H|lia].
    rewrite <-app_assoc. do 3 f_equal. cbn [length]. rewrite !length_app. cbn [length]. rewrite !length_app. lia.
Qed.

(** ** Values *)

Lemma run_parse_number x p d r : here p (x ++ r) → number_text x → stops is_number_byte r →
  parse_number format_finite input (Cursor p d) =
  Some (Ok (Number (Number_parse format_finite (of_bytes x))), Cursor (p + length x) d).
Proof.
  intros H Hx Hr. unfold parse_number. pose proof (number_bytes _ Hx) as Ht. pose proof (number_utf8 _ Hx) as Hu.
  erewrite run_bind; [|done]. cbn [pos]. destruct H as [Hd Hp]. rewrite Hd, count_while_app by done.
  erewrite run_bind; [|done]. erewrite run_bind; [|done]. cbn [pos depth].
  rewrite (here_slice p x r) by done. unfold from_utf8.
  rewrite (proj2 (utf8_spec _) Hu). cbn [ok_or]. erewrite run_bind; [|done].
  by rewrite as_of_bytes, (proj2 (valid_number_spec x) Hx).
Qed.

Lemma number_head_tests b : number_head b = true →
  (b =b "n") = false ∧ (b =b "t") = false ∧ (b =b "f") = false ∧ (b =b "034") = false ∧
  (b =b "[") = false ∧ (b =b "{") = false ∧ is_ascii_whitespace b = false.
Proof. by_bytes b. Qed.

(** After whitespace a closing bracket, a comma or the end stops a number. *)
Lemma blank_stops w r : blank w → stops is_number_byte r → stops is_number_byte (w ++ r).
Proof. intros Hw Hr. destruct Hw as [|c w Hc _]; simpl; [done|]. revert Hc. clear. by_bytes c. Qed.

(** [x] parses to [v] at nesting [n], after whitespace and whatever follows. *)
Definition parses (n : nat) (x : bytes) (v : value) : Prop := ∀ fuel w p dep r,
  n + dep ≤ MAX_DEPTH → blank w → here p (w ++ x ++ r) → stops is_number_byte r →
  2 * (length input - p) + 2 ≤ fuel →
  parse_value format_finite input strict fuel (Cursor p dep) =
  Some (Ok v, Cursor (p + length w + length x) dep).

Definition parses_items (n : nat) (x : bytes) (vs : list value) : Prop := ∀ fuel acc p dep r,
  n + dep ≤ MAX_DEPTH → here p (x ++ "]"%char :: r) → 2 * (length input - p) + 3 ≤ fuel →
  parse_array format_finite input strict fuel acc (Cursor p dep) =
  Some (Ok (Array (acc ++ vs)), Cursor (p + length x + 1) dep).

Definition parses_members (n : nat) (x : bytes) (ms : list (string * value)) : Prop := ∀ fuel acc p dep r,
  n + dep ≤ MAX_DEPTH → here p (x ++ "}"%char :: r) → 2 * (length input - p) + 3 ≤ fuel →
  (strict = true → NoDup ms.*1 ∧ Forall (λ k, obj_contains_key acc k = false) ms.*1) →
  parse_object format_finite input strict fuel acc (Cursor p dep) =
  Some (Ok (Object (foldl (λ o kv, obj_insert kv.1 kv.2 o) acc ms)), Cursor (p + length x + 1) dep).

(** Enters [parse_value] at the first byte of a text. *)
Lemma parses_intro n x v :
  (∃ b y, x = b :: y ∧ value_head b = true) →
  (∀ fuel p dep r, n + dep ≤ MAX_DEPTH → here p (x ++ r) → stops is_number_byte r →
     2 * (length input - p) + 2 ≤ S fuel →
     parse_value format_finite input strict (S fuel) (Cursor p dep) = Some (Ok v, Cursor (p + length x) dep)) →
  parses n x v.
Proof.
  intros (b & y & -> & Hb) Hx fuel w p dep r Hn Hw H Hr Hf. destruct fuel as [|fuel]; [lia|].
  pose proof (here_app _ _ _ H) as H'. rewrite <-(Hx fuel (p + length w) dep r) by (try done; lia).
  destruct (value_head_facts _ Hb) as (Hbw & _).
  cbn [parse_value]. erewrite run_bind; [|eapply run_ws; [exact H|done|done]].
  symmetry. by erewrite run_bind; [|eapply run_no_ws; [exact H'|done]].
Qed.

Ltac enter H := cbn [parse_value]; erewrite run_bind; [|eapply run_no_ws; [exact H|reflexivity]];
  erewrite run_bind; [|eapply run_peek; exact H]; erewrite run_bind; [|done]; cbn [Ascii.eqb Bool.eqb].

Lemma parses_number n x : number_text x →
  parses n x (Number (Number_parse format_finite (of_bytes x))).
Proof.
  intros Hx. destruct (number_first _ Hx) as (b & y & E & Hb).
  destruct (number_head_tests _ Hb) as (E1 & E2 & E3 & E4 & E5 & E6 & E7).
  apply parses_intro.
  - exists b, y. split; [done|]. unfold value_head. by rewrite Hb, orb_true_r.
  - intros fuel p dep r _ H Hr _. pose proof H as H'. rewrite E in H'. cbn [parse_value].
    erewrite run_bind; [|eapply run_no_ws; [exact H'|exact E7]].
    erewrite run_bind; [|eapply run_peek; exact H']. erewrite run_bind; [|done].
    rewrite E1, E2, E3, E4, E5, E6. unfold number_head in Hb. rewrite Hb. by eapply run_parse_number.
Qed.

(** A container between its brackets. *)
Lemma run_nested (op cl : ascii) (empty : value) (m : parse value) y p dep r v :
  dep < MAX_DEPTH → is_ascii_whitespace cl = false → here p (op :: y ++ cl :: r) →
  (blank y ∧ v = empty ∨
   (∃ w b t, y = w ++ b :: t ∧ blank w ∧ is_ascii_whitespace b = false ∧ (cl =b b) = false ∧
     m (Cursor (p + 1 + length w) (dep + 1)) = Some (Ok v, Cursor (p + 1 + length y + 1) (dep + 1)))) →
  nested (advance 1 ;p; ws input ;p; closed ←p at_byte input cl;
    if (closed : bool) then advance 1 ;p; pret empty else m) (Cursor p dep) =
  Some (Ok v, Cursor (p + 1 + length y + 1) dep).
Proof.
  intros Hdep Hcl H Hy. unfold nested. cbn [pos depth]. destruct (Nat.leb_spec MAX_DEPTH dep) as [|_]; [lia|].
  erewrite run_bind; [|done]. cbn [pos depth]. apply here_cons in H as [_ H].
  destruct Hy as [[Hw ->]|(w & b & t & -> & Hw & Hb & Hne & Hm)].
  - erewrite run_bind; [|eapply run_ws; [exact H|done|done]]. apply here_app in H.
    erewrite run_bind; [|by eapply run_at_byte]. rewrite Ascii.eqb_refl. erewrite run_bind; [|done].
    unfold pret. cbn [pos depth]. by rewrite Nat.add_sub.
  - rewrite <-app_assoc in H. erewrite run_bind; [|eapply run_ws; [exact H|done|done]]. apply here_app in H.
    erewrite run_bind; [|eapply run_at_byte; exact H]. rewrite Hne, Hm. cbn [pos depth]. by rewrite Nat.add_sub.
Qed.

(** The first element after the whitespace at its front. *)
Lemma items_head n x vs : items format_finite strict n x vs →
  ∃ w b t, x = w ++ b :: t ∧ blank w ∧ value_head b = true ∧ vs ≠ [].
Proof.
  intros [? w y w' v Hw ? Hy|? w y w' v z vs' Hw ? Hy]; destruct (json_head _ _ _ _ _ Hy) as (b & t & -> & Hb);
    by eexists w, b, _.
Qed.

Lemma members_head n x ms : members format_finite strict n x ms →
  ∃ w t, x = w ++ "034"%char :: t ∧ blank w.
Proof. intros [? w|? w]; by eexists w, _. Qed.

Lemma parses_items_one n w x w' v : blank w → blank w' → parses n x v → parses_items n (w ++ x ++ w') [v].
Proof.
  intros Hw Hw' Hx fuel acc p dep r Hn H Hf. rewrite <-!app_assoc in H. destruct fuel as [|fuel]; [lia|]. cbn [parse_array].
  erewrite run_bind; [|eapply Hx; [exact Hn|exact Hw|exact H|by apply blank_stops|lia]]. cbv zeta.
  do 2 apply here_app in H. erewrite run_bind; [|by eapply run_ws]. apply here_app in H.
  erewrite run_bind; [|by eapply run_peek]. cbn [Ascii.eqb Bool.eqb]. erewrite run_bind; [|done].
  unfold pret. cbn [pos depth]. do 3 f_equal. rewrite !length_app. lia.
Qed.

Lemma parses_items_cons n w x w' v y vs : blank w → blank w' → parses n x v → x ≠ [] → parses_items n y vs →
  parses_items n (w ++ x ++ w' ++ ","%char :: y) (v :: vs).
Proof.
  intros Hw Hw' Hx Hne Hy fuel acc p dep r Hn H Hf. rewrite <-!app_assoc in H.
  pose proof (here_length _ _ H) as HL. rewrite !length_app in HL. cbn [length app] in HL.
  assert (0 < length x) by (destruct x; [done|simpl; lia]).
  destruct fuel as [|fuel]; [lia|]. cbn [parse_array].
  erewrite run_bind; [|eapply Hx; [exact Hn|exact Hw|exact H|by apply blank_stops|lia]]. cbv zeta.
  do 2 apply here_app in H. erewrite run_bind; [|by eapply run_ws]. apply here_app in H. cbn [app] in H.
  erewrite run_bind; [|by eapply run_peek]. cbn [Ascii.eqb Bool.eqb]. erewrite run_bind; [|done]. cbn [pos depth].
  apply here_cons in H as [_ H]. erewrite Hy; [|exact Hn|exact H|lia].
  rewrite <-app_assoc. do 3 f_equal. rewrite !length_app. cbn [length]. lia.
Qed.

Lemma contains_insert k v o k' :
  obj_contains_key (obj_insert k v o) k' = String.eqb k k' || obj_contains_key o k'.
Proof.
  unfold obj_contains_key. destruct (String.eqb_spec k k') as [->|Hne].
  - by rewrite obj_get_insert_eq.
  - by rewrite obj_get_insert_ne.
Qed.

(** One member: its key, colon and value; [k] is the rest of the loop. *)
Lemma run_member n w1 b s w2 w3 x w4 v fuel acc p dep t :
  blank w1 → string_body b s → blank w2 → blank w3 → parses n x v → blank w4 →
  (strict = true → obj_contains_key acc (of_bytes s) = false) →
  n + dep ≤ MAX_DEPTH → stops is_number_byte t → stops is_ascii_whitespace t →
  here p (w1 ++ quoted b ++ w2 ++ ":"%char :: w3 ++ x ++ w4 ++ t) →
  2 * (length input - p) + 3 ≤ S fuel →
  parse_object format_finite input strict (S fuel) acc (Cursor p dep) =
  (b ←p peek input;
   match b with
   | Some b =>
       if b =b "," then advance 1 ;p; parse_object format_finite input strict fuel (obj_insert (of_bytes s) v acc)
       else if b =b "}" then advance 1 ;p; pret (Object (obj_insert (of_bytes s) v acc))
       else pfail InvalidToken
   | None => pfail InvalidToken
   end) (Cursor (p + length (w1 ++ quoted b ++ w2 ++ ":"%char :: w3 ++ x ++ w4)) dep).
Proof.
  intros Hw1 Hb Hw2 Hw3 Hx Hw4 Hnew Hn Ht Ht' H Hf. pose proof (here_length _ _ H) as HL.
  rewrite !length_app in HL. cbn [length] in HL. cbn [parse_object].
  erewrite run_bind; [|eapply run_ws; [exact H|done|reflexivity]]. apply here_app in H.
  erewrite run_bind; [|eapply (run_at_byte _ _ "034" "034"); exact H]. cbn [Ascii.eqb Bool.eqb negb].
  erewrite run_bind; [|by eapply run_parse_string]. apply here_app in H.
  erewrite run_bind; [|eapply run_ws; [exact H|done|reflexivity]]. apply here_app in H.
  erewrite run_bind; [|by eapply run_at_byte]. cbn [Ascii.eqb Bool.eqb negb]. erewrite run_bind; [|done].
  apply here_cons in H as [_ H]. cbn [pos depth].
  erewrite run_bind; [|eapply Hx; [exact Hn|exact Hw3|exact H|by apply blank_stops|lia]]. cbv zeta.
  assert (obj_contains_key acc (of_bytes s) && strict = false) as ->.
  { destruct strict; [by rewrite Hnew|by rewrite andb_false_r]. }
  do 2 apply here_app in H. erewrite run_bind; [|eapply run_ws; [exact H|done|done]].
  f_equal. f_equal. rewrite !length_app. cbn [length]. rewrite !length_app. lia.
Qed.

Lemma parses_members_one n w1 b s w2 w3 x w4 v :
  blank w1 → string_body b s → blank w2 → blank w3 → parses n x v → blank w4 →
  parses_members n (w1 ++ quoted b ++ w2 ++ ":"%char :: w3 ++ x ++ w4) [(of_bytes s, v)].
Proof.
  intros Hw1 Hb Hw2 Hw3 Hx Hw4 fuel acc p dep r Hn H Hf Hnew. destruct fuel as [|fuel]; [lia|].
  repeat (rewrite <-app_assoc in H || rewrite <-app_comm_cons in H).
  erewrite (run_member n w1 b s w2 w3 x w4 v _ _ _ _ ("}"%char :: r)); [|done..| | | | | |done]; try done.
  2:{ intros Hs. by destruct (Hnew Hs) as [_ [? _]%Forall_cons]. }
  assert (H' : here (p + length (w1 ++ quoted b ++ w2 ++ ":"%char :: w3 ++ x ++ w4)) ("}"%char :: r)).
  { apply here_app. repeat (rewrite <-app_assoc || rewrite <-app_comm_cons). done. }
  erewrite run_bind; [|by eapply run_peek]. cbn [Ascii.eqb Bool.eqb]. by erewrite run_bind; [|done].
Qed.

Lemma parses_members_cons n w1 b s w2 w3 x w4 v y ms :
  blank w1 → string_body b s → blank w2 → blank w3 → parses n x v → blank w4 → parses_members n y ms →
  parses_members n (w1 ++ quoted b ++ w2 ++ ":"%char :: w3 ++ x ++ w4 ++ ","%char :: y) ((of_bytes s, v) :: ms).
Proof.
  intros Hw1 Hb Hw2 Hw3 Hx Hw4 Hy fuel acc p dep r Hn H Hf Hnew. destruct fuel as [|fuel]; [lia|].
  repeat (rewrite <-app_assoc in H || rewrite <-app_comm_cons in H).
  erewrite (run_member n w1 b s w2 w3 x w4 v _ _ _ _ (","%char :: y ++ "}"%char :: r)); [|done..| | | | | |done]; try done.
  2:{ intros Hs. by destruct (Hnew Hs) as [_ [? _]%Forall_cons]. }
  set (front := w1 ++ quoted b ++ w2 ++ ":"%char :: w3 ++ x ++ w4).
  assert (H' : here (p + length front) (","%char :: y ++ "}"%char :: r)).
  { apply here_app. unfold front. repeat (rewrite <-app_assoc || rewrite <-app_comm_cons). done. }
  assert (0 < length front) by (unfold front; rewrite !length_app; simpl; lia).
  pose proof (here_length _ _ H') as HL. cbn [length] in HL.
  erewrite run_bind; [|by eapply run_peek]. cbn [Ascii.eqb Bool.eqb]. erewrite run_bind; [|done]. cbn [pos depth].
  apply here_cons in H' as [_ H']. erewrite Hy; [|exact Hn|exact H'|lia|].
  - cbn [foldl fst snd]. do 3 f_equal. unfold front. rewrite !length_app. cbn [length]. rewrite !length_app. cbn [length]. lia.
  - intros Hs. destruct (Hnew Hs) as [[Hk Hnd]%NoDup_cons Hall]. cbn [fst] in Hk. split; [done|].
    apply Forall_cons in Hall as [_ Hall]. apply Forall_forall. intros k Hin. rewrite contains_insert.
    rewrite Forall_forall in Hall. rewrite (Hall k Hin), orb_false_r. apply String.eqb_neq. by intros <-.
Qed.

(** One round of the array loop. *)
Lemma parse_array_S fuel acc : parse_array format_finite input strict (S fuel) acc =
  (v ←p parse_value format_finite input strict fuel;
   ws input ;p;
   b ←p peek input;
   match b with
   | Some b =>
       if b =b "," then advance 1 ;p; parse_array format_finite input strict fuel (acc ++ [v])
       else if b =b "]" then advance 1 ;p; pret (Array (acc ++ [v]))
       else pfail InvalidToken
   | None => pfail InvalidToken
   end).
Proof. done. Qed.

(** Whitespace at the front of a container's body may be skipped first. *)
Lemma array_skip fuel acc w b t p dep : here p (w ++ b :: t) → blank w → is_ascii_whitespace b = false →
  parse_array format_finite input strict (S (S fuel)) acc (Cursor (p + length w) dep) =
  parse_array format_finite input strict (S (S fuel)) acc (Cursor p dep).
Proof.
  intros H Hw Hb. rewrite parse_array_S. apply pbind_cong. symmetry.
  cbn [parse_value]. erewrite run_bind; [|eapply run_ws; [exact H|done|done]].
  apply here_app in H. symmetry. by erewrite run_bind; [|eapply run_no_ws; [exact H|done]].
Qed.

Lemma object_skip fuel acc w b t p dep : here p (w ++ b :: t) → blank w → is_ascii_whitespace b = false →
  parse_object format_finite input strict (S fuel) acc (Cursor (p + length w) dep) =
  parse_object format_finite input strict (S fuel) acc (Cursor p dep).
Proof.
  intros H Hw Hb. cbn [parse_object]. symmetry. erewrite run_bind; [|eapply run_ws; [exact H|done|done]].
  apply here_app in H. symmetry. by erewrite run_bind; [|eapply run_no_ws; [exact H|done]].
Qed.

Lemma length_bracket p (a b : ascii) (y : bytes) : p + length (a :: y ++ [b]) = p + 1 + length y + 1.
Proof. cbn [length]. rewrite length_app. cbn [length]. lia. Qed.

Lemma parses_array n y vs : blank y ∧ vs = [] ∨ items format_finite strict n y vs ∧ parses_items n y vs →
  parses (S n) ("["%char :: y ++ ["]"%char]) (Array vs).
Proof.
  intros Hcase. apply parses_intro; [by eexists _, _|]. intros fuel p dep r Hn H Hr Hf.
  rewrite length_bracket. rewrite <-app_comm_cons, <-app_assoc in H. enter H.
  pose proof (here_length _ _ H) as HL. cbn [length] in HL. rewrite length_app in HL.
  eapply run_nested; [lia|done|exact H|]. destruct Hcase as [[Hy ->]|[Hi Hp]]; [by left|right].
  destruct (items_head _ _ _ Hi) as (w & b & t & -> & Hw & Hb & _).
  destruct (value_head_facts _ Hb) as (Hb1 & Hb2 & _). exists w, b, t. split_and!; try done.
  apply here_cons in H as [_ H]. pose proof H as H'. rewrite <-app_assoc in H'.
  rewrite length_app in HL. cbn [length] in HL.
  destruct fuel as [|[|fuel]]; [lia..|]. etrans; [by eapply array_skip|].
  eapply (Hp _ []); [lia|exact H|lia].
Qed.

Lemma parses_object n y ms :
  blank y ∧ ms = [] ∨ members format_finite strict n y ms ∧ parses_members n y ms → (strict = true → NoDup ms.*1) →
  parses (S n) ("{"%char :: y ++ ["}"%char]) (Object (object_of ms)).
Proof.
  intros Hcase Hnd. apply parses_intro; [by eexists _, _|]. intros fuel p dep r Hn H Hr Hf.
  rewrite length_bracket. rewrite <-app_comm_cons, <-app_assoc in H. enter H.
  pose proof (here_length _ _ H) as HL. cbn [length] in HL. rewrite length_app in HL.
  eapply run_nested; [lia|done|exact H|]. destruct Hcase as [[Hy ->]|[Hi Hp]]; [by left|right].
  destruct (members_head _ _ _ Hi) as (w & t & -> & Hw). exists w, "034"%char, t. split_and!; try done.
  apply here_cons in H as [_ H]. pose proof H as H'. rewrite <-app_assoc in H'.
  rewrite length_app in HL. cbn [length] in HL.
  destruct fuel as [|fuel]; [lia|]. etrans; [by eapply object_skip|].
  eapply (Hp _ []); [lia|exact H|lia|]. intros Hs. split; [auto|]. by apply Forall_forall.
Qed.

Lemma parses_word n x v : (x = as_bytes "null" ∧ v = Null) ∨ (x = as_bytes "true" ∧ v = Bool true) ∨
  (x = as_bytes "false" ∧ v = Bool false) → parses n x v.
Proof.
  intros [[-> ->]|[[-> ->]|[-> ->]]]; (apply parses_intro; [by eexists _, _|]);
    intros fuel p dep r _ H _ _; enter H; by erewrite run_bind; [|by eapply run_word].
Qed.

Lemma parses_string n b s : string_body b s → parses n (quoted b) (VString (of_bytes s)).
Proof.
  intros Hb. apply parses_intro; [by eexists _, _|]. intros fuel p dep r _ H _ _.
  enter H. by erewrite run_bind; [|by eapply run_parse_string].
Qed.

Lemma json_parses :
  (∀ n x v, json format_finite strict n x v → parses n x v) ∧
  (∀ n x vs, items format_finite strict n x vs → parses_items n x vs) ∧
  (∀ n x ms, members format_finite strict n x ms → parses_members n x ms).
Proof.
  apply json_mutind; intros.
  - apply parses_word. auto.
  - apply parses_word. destruct b; auto.
  - by apply parses_number.
  - by apply parses_string.
  - apply parses_array. auto.
  - apply parses_array. auto.
  - apply (parses_object n w []); [by left|]. intros _. constructor.
  - apply parses_object; auto.
  - by apply parses_items_one.
  - apply parses_items_cons; try done. by edestruct json_head as (c & r & -> & _).
  - by apply parses_members_one.
  - by apply parses_members_cons.
Qed.

(** A document of the grammar parses to the value it spells. *)
Lemma document_parses v : document format_finite strict input v →
  parse_scalar_with format_finite input strict = Some (Ok v).
Proof.
  intros (w & x & w' & E & Hw & Hw' & Hx). unfold parse_scalar_with.
  assert (H : here 0 (w ++ x ++ w')) by (split; [by rewrite drop_0|lia]).
  assert (Hend : stops is_number_byte w').
  { rewrite <-(app_nil_r w'). by apply blank_stops. }
  rewrite (proj1 json_parses _ _ _ Hx (parse_fuel input) w 0 0 w') by (try done; unfold parse_fuel; lia).
  do 2 apply here_app in H. rewrite <-(app_nil_r w') in H.
  rewrite (run_ws _ _ w' []) by done. cbn [pos]. apply here_app, here_length in H. simpl in H.
  by rewrite (proj2 (Nat.eqb_eq _ _)) by (simpl; lia).
Qed.
End run.
