(* ===== verification/JsonSound.v ===== *)
(** * Soundness of the JSON parser

    What the parser accepts is a document of the grammar, and the value it
    returns is the one the document spells. *)
From stdpp Require Import prelude strings sorting.
From Stdlib Require String.
From Stdlib Require Import Ascii.
From S2P Require Import Prelude Json JsonText JsonTextProps JsonNumber JsonWriter JsonParser JsonParserProps JsonGrammar JsonComplete.

Local Open Scope nat_scope.

Lemma bind_ok {A B} (m : parse A) (k : A → parse B) c b c' :
  pbind m k c = Some (Ok b, c') → ∃ a c1, m c = Some (Ok a, c1) ∧ k a c1 = Some (Ok b, c').
Proof. unfold pbind. destruct (m c) as [[[a|e] c1]|]; [eauto|done..]. Qed.

(** Takes the first step off a successful run. *)
Ltac step H a c E := apply bind_ok in H as (a & c & E & H).
Ltac step_pure H := let a := fresh "a" in let c := fresh "c" in let E := fresh "E" in
  apply bind_ok in H as (a & c & E & H); injection E as <- <-; cbn [pos depth] in H.

Section sound.
Context (format_finite : f64 → string) (input : bytes) (strict : bool).

(** [x] lies between the positions [p] and [q]. *)
Definition reads (p q : nat) (x : bytes) : Prop := ∃ r, here input p (x ++ r) ∧ q = p + length x.

Lemma reads_app p q s x y : reads p q x → reads q s y → reads p s (x ++ y).
Proof.
  intros (r & H & ->) (r' & H' & ->). exists r'. rewrite length_app, Nat.add_assoc. split; [|done].
  pose proof (here_app _ _ _ _ H) as Hr. destruct Hr as [Hr _], H' as [H' _].
  assert (r = y ++ r') as -> by congruence. by rewrite <-app_assoc.
Qed.

Lemma reads_nil p : p ≤ length input → reads p p [].
Proof. intros Hp. exists (drop p input). split; [by split|simpl; lia]. Qed.

Lemma reads_slice p q x : reads p q x → slice input p q = x ∧ p ≤ q ≤ length input.
Proof.
  intros (r & H & ->). split; [by eapply here_slice|]. apply here_app in H as [_ H]. lia.
Qed.

Lemma slice_reads p q : p ≤ q ≤ length input → reads p q (slice input p q).
Proof.
  intros Hq. assert (Hs : here input p (slice input p q ++ drop (q - p) (drop p input))).
  { split; [|lia]. unfold slice. by rewrite take_drop. }
  exists (drop (q - p) (drop p input)). split; [done|]. rewrite length_slice by lia. lia.
Qed.

Lemma reads_byte p b : input !! p = Some b → reads p (p + 1) [b].
Proof.
  intros H. exists (drop (S p) input). split; [|done]. split; [by apply drop_S|].
  apply lookup_lt_Some in H. lia.
Qed.

Lemma reads_le p q x : reads p q x → p ≤ q ≤ length input.
Proof. by intros [_ ?]%reads_slice. Qed.

(** ** Steps *)

Lemma ws_ok p d u c : p ≤ length input → ws (E := Error) input (Cursor p d) = Some (Ok u, c) →
  ∃ q w, c = Cursor q d ∧ reads p q w ∧ blank w.
Proof.
  intros Hp. unfold ws, advance. cbn [pos depth]. intros [= _ <-].
  destruct (count_while_split is_ascii_whitespace (drop p input)) as (w & r & E & Hw & _ & ->).
  exists (p + length w), w. split_and!; try done. exists r. split; [|done]. by split.
Qed.

Lemma peek_ok p d o c : peek (E := Error) input (Cursor p d) = Some (Ok o, c) → c = Cursor p d ∧ o = input !! p.
Proof. by intros [= <- <-]. Qed.

Lemma ok_or_ok {A} (o : option A) (e : Error) c a c' : ok_or o e c = Some (Ok a, c') → o = Some a ∧ c' = c.
Proof. destruct o; [|done]. by intros [= -> ->]. Qed.

(** [get(pos).ok_or(..)?] *)
Lemma next_byte {A} (k : ascii → parse A) e p d a c :
  (b ←p peek input; b ←p ok_or b e; k b) (Cursor p d) = Some (Ok a, c) →
  ∃ b, input !! p = Some b ∧ k b (Cursor p d) = Some (Ok a, c).
Proof.
  intros H. step H o c1 E. apply peek_ok in E as [-> ->]. step H b c1 E. apply ok_or_ok in E as [Hb ->]. eauto.
Qed.

Lemma at_byte_ok {A} (k : bool → parse A) b p d a c :
  (x ←p at_byte input b; k x) (Cursor p d) = Some (Ok a, c) →
  (input !! p = Some b ∧ k true (Cursor p d) = Some (Ok a, c)) ∨ k false (Cursor p d) = Some (Ok a, c).
Proof.
  intros H. step H x c1 E. unfold at_byte, byte_is in E. cbn [pos] in E. injection E as <- <-.
  destruct (input !! p) as [b'|]; [|by right]. destruct (Ascii.eqb_spec b b') as [->|]; [left|right]; eauto.
Qed.

Lemma word_ok p d x u c : word input x (Cursor p d) = Some (Ok u, c) → p ≤ length input →
  c = Cursor (p + length x) d ∧ reads p (p + length x) x.
Proof.
  unfold word. intros H Hp. step_pure H. case_decide as Hs; [|done]. injection H as _ <-. split; [done|].
  assert (Hle : p + length x ≤ length input).
  { apply (f_equal length) in Hs. unfold slice in Hs. rewrite length_take, length_drop in Hs. lia. }
  rewrite <-Hs at 2. apply slice_reads. lia.
Qed.

(** ** Strings *)

Lemma push_segment_ok out run p d out' c : push_segment input out run (Cursor p d) = Some (Ok out', c) →
  c = Cursor (p + 1) d ∧ out' = out ++ slice input run p ∧ utf8 (slice input run p).
Proof.
  unfold push_segment. intros H. step_pure H. step H part c1 E. apply ok_or_ok in E as [Hp ->].
  apply from_utf8_ok in Hp as [Hu E]. step_pure H. injection H as <- <-. unfold string_ok in Hu. rewrite E in *. done.
Qed.

Lemma hex_rounds_ok k n p d m c : p ≤ length input → hex_rounds input k n (Cursor p d) = Some (Ok m, c) →
  ∃ hs, length hs = k ∧ all is_ascii_hexdigit hs ∧ c = Cursor (p + k) d ∧ reads p (p + k) hs ∧
    m = foldl (λ n h, N.lor (N.shiftl n 4 `mod` 65536) (default 0%N (to_digit_16 h))) n hs.
Proof.
  intros Hp. revert n p Hp. induction k as [|k IH]; intros n p Hp; cbn [hex_rounds].
  - intros [= <- <-]. exists []. rewrite Nat.add_0_r. split_and!; try done. by apply reads_nil.
  - intros (b & Hb & H)%next_byte. step_pure H. step H x c1 E. apply ok_or_ok in E as [Hx ->].
    pose proof (reads_byte _ _ Hb) as Hr. pose proof (reads_le _ _ _ Hr).
    apply IH in H as (hs & Hl & Hh & -> & Hrs & ->); [|lia]. exists (b :: hs).
    split_and!; [by rewrite <-Hl| |by rewrite <-Nat.add_assoc|by apply (reads_app p (p + 1) _ [b]); rewrite <-?Nat.add_assoc in *|].
    + constructor; [|done]. unfold is_ascii_hexdigit. by rewrite Hx.
    + simpl. by rewrite Hx.
Qed.

Lemma hex4_ok p d n c : p ≤ length input → hex4 input (Cursor p d) = Some (Ok n, c) →
  ∃ hs, hex4_text hs n ∧ c = Cursor (p + 4) d ∧ reads p (p + 4) hs.
Proof.
  intros Hp (hs & Hl & Hh & -> & Hr & ->)%hex_rounds_ok; [|done]. exists hs. by split_and!.
Qed.

Lemma from_u32_id n m : from_u32 n = Some m → m = n.
Proof. unfold from_u32. case_match; [|done]. by intros [= ->]. Qed.

Lemma escape_ok p d n c : p ≤ length input → escaped_scalar input (Cursor p d) = Some (Ok n, c) →
  ∃ e q, escape e n ∧ c = Cursor q d ∧ reads p q e.
Proof.
  intros Hp (b & Hb & H)%next_byte. step_pure H. pose proof (reads_byte _ _ Hb) as Hr.
  pose proof (reads_le _ _ _ Hr). destruct (Ascii.eqb_spec b "u") as [->|_].
  - unfold unicode_escape in H. step H high c1 E. apply hex4_ok in E as (hs & Hhs & -> & Hrs); [|lia].
    fold (is_high high) in H. destruct (is_high high) eqn:Hh; step H n0 c2 E.
    + step_pure E. case_decide as Hs; [|done]. step_pure E. step E low c3 Hl.
      assert (Hru : reads (p + 1 + 4) (p + 1 + 4 + 2) (as_bytes "\u")).
      { rewrite <-Hs. apply slice_reads. apply (f_equal length) in Hs. unfold slice in Hs.
        rewrite length_take, length_drop in Hs. simpl in Hs. lia. }
      pose proof (reads_le _ _ _ Hru). apply hex4_ok in Hl as (ls & Hls & -> & Hrl); [|lia].
      fold (is_low low) in E. destruct (is_low low) eqn:Hlo; [|done]. injection E as <- <-.
      apply ok_or_ok in H as [Hn%from_u32_id ->]. subst n.
      eexists _, _. split; [by eapply escape_pair|]. split; [done|].
      eapply (reads_app p _ _ ["u"%char]); [exact Hr|]. eapply reads_app; [exact Hrs|].
      eapply (reads_app _ _ _ (as_bytes "\u")); done.
    + injection E as <- <-. apply ok_or_ok in H as [Hn ->]. pose proof (from_u32_id _ _ Hn) as ->.
      eexists _, _. split; [by eapply escape_unit|]. split; [done|]. by eapply (reads_app p _ _ ["u"%char]).
  - apply ok_or_ok in H as [Hn ->]. eexists [b], _. split; [by apply escape_simple|done].
Qed.

Lemma byte_tests b : (b =b "034") = false → (b =b "\") = false → (code b <=? 31)%N = false → scan_byte b = true.
Proof. intros H1 H2 H3. unfold scan_byte. by rewrite H1, H2, H3. Qed.

Lemma string_loop_ok fuel out run seg p d s c : reads run p seg → all scan_byte seg →
  string_loop input fuel out run (Cursor p d) = Some (Ok s, c) →
  ∃ y t q, string_body (seg ++ y) t ∧ s = of_bytes (out ++ t) ∧ c = Cursor q d ∧ reads p q (y ++ ["034"%char]).
Proof.
  revert out run seg p. induction fuel as [|fuel IH]; intros out run seg p Hrun Hseg; [done|]. cbn [string_loop].
  intros (b & Hb & H)%next_byte. pose proof (reads_byte _ _ Hb) as Hr. pose proof (reads_le _ _ _ Hr).
  destruct (reads_slice _ _ _ Hrun) as [Hsl _].
  destruct (b =b "034") eqn:E1; [|destruct (b =b "\") eqn:E2; [|destruct (code b <=? 31)%N eqn:E3; [done|]]].
  - apply eqb_byte in E1 as ->. step H out' c1 E. apply push_segment_ok in E as (-> & -> & Hu). injection H as <- <-.
    rewrite Hsl in *. exists [], seg, (p + 1). rewrite app_nil_r. split_and!; try done. by constructor.
  - apply eqb_byte in E2 as ->. step H out' c1 E. apply push_segment_ok in E as (-> & -> & Hu). rewrite Hsl in *.
    rewrite escape_branch in H. step H n c1 E. apply escape_ok in E as (e & q & He & -> & Hre); [|lia].
    step_pure H. pose proof (reads_le _ _ _ Hre).
    apply (IH _ _ []) in H as (y & t & q' & Hy & -> & -> & Hry); [|by apply reads_nil; lia|done].
    exists ("\"%char :: e ++ y), (seg ++ encode_utf8 n ++ t), q'. split_and!; [by apply body_escape| |done|].
    + by rewrite <-!app_assoc.
    + rewrite <-app_comm_cons, <-app_assoc. eapply (reads_app p _ _ ["\"%char]); [exact Hr|].
      by eapply reads_app.
  - step_pure H. eapply (IH _ run (seg ++ [b])) in H as (y & t & q & Hy & -> & -> & Hry).
    + exists (b :: y), t, q. rewrite <-app_assoc in Hy. split_and!; try done.
      by eapply (reads_app p _ _ [b]).
    + by eapply reads_app.
    + apply Forall_app. split; [done|]. repeat constructor. by apply byte_tests.
Qed.

Lemma parse_string_ok p d s c : input !! p = Some "034"%char → parse_string input (Cursor p d) = Some (Ok s, c) →
  ∃ b t q, string_body b t ∧ s = of_bytes t ∧ c = Cursor q d ∧ reads p q (quoted b).
Proof.
  intros Hq H. unfold parse_string in H. do 2 step_pure H. pose proof (reads_byte _ _ Hq) as Hr.
  pose proof (reads_le _ _ _ Hr).
  destruct (count_while_split scan_byte (drop (p + 1) input)) as (seg & r & E & Hseg & _ & Hc). rewrite Hc in H.
  assert (Hh : here input (p + 1) (seg ++ r)) by (split; [done|lia]).
  assert (Hrs : reads (p + 1) (p + 1 + length seg) seg) by by exists r.
  destruct (input !! (p + 1 + length seg)) as [b|] eqn:Hb; [|done]. step H txt c1 Ht. apply ok_or_ok in Ht as [Ht ->].
  apply from_utf8_ok in Ht as [Hu Et]. rewrite (proj1 (reads_slice _ _ _ Hrs)) in Et. unfold string_ok in Hu.
  rewrite Et in Hu. pose proof (reads_byte _ _ Hb) as Hrb. pose proof (reads_le _ _ _ Hrb).
  destruct (b =b "034") eqn:Eb; step_pure H.
  - apply eqb_byte in Eb as ->. injection H as <- <-. exists seg, seg, (p + 1 + length seg + 1).
    split_and!; [by constructor|by rewrite <-Et, of_as_bytes|done|].
    unfold quoted. eapply (reads_app p _ _ ["034"%char]); [exact Hr|]. by eapply reads_app.
  - eapply (string_loop_ok _ _ _ []) in H as (y & t & q & Hy & -> & -> & Hry); [|by apply reads_nil; lia|done].
    simpl in Hy. rewrite Et. exists (seg ++ y), (seg ++ t), q. split_and!; try done.
    + clear - Hy Hseg Hu. destruct Hy as [seg' Hs' Hu'|seg' e n b s Hs' Hu' He Hb].
      * apply body_run; [by apply Forall_app|by apply utf8_app].
      * rewrite !app_assoc. rewrite <-(app_assoc (seg ++ seg')).
        apply body_escape; try done; [by apply Forall_app|by apply utf8_app].
    + unfold quoted. rewrite <-app_assoc. eapply (reads_app p _ _ ["034"%char]); [exact Hr|]. by eapply reads_app.
Qed.

Lemma parse_number_ok p d v c : p ≤ length input →
  parse_number format_finite input (Cursor p d) = Some (Ok v, c) →
  ∃ x q, number_text x ∧ v = Number (Number_parse format_finite (of_bytes x)) ∧ c = Cursor q d ∧ reads p q x.
Proof.
  intros Hp H. unfold parse_number in H. do 3 step_pure H. step H s c1 E. apply ok_or_ok in E as [Hs ->].
  apply from_utf8_ok in Hs as [_ Es]. case_match eqn:Hv; [|done]. injection H as <- <-.
  pose proof (count_drop input is_number_byte p Hp).
  exists (as_bytes s). eexists. split_and!; [by apply valid_number_spec|by rewrite of_as_bytes|done|].
  rewrite Es. apply slice_reads. lia.
Qed.

(** ** Values *)

Abbreviation jsn := (json format_finite strict).
Abbreviation itms := (items format_finite strict).
Abbreviation mbrs := (members format_finite strict).

Definition value_sound fuel : Prop := ∀ p d v c, p ≤ length input → d ≤ MAX_DEPTH →
  parse_value format_finite input strict fuel (Cursor p d) = Some (Ok v, c) →
  ∃ w x q, c = Cursor q d ∧ reads p q (w ++ x) ∧ blank w ∧ jsn (MAX_DEPTH - d) x v.
Definition array_sound fuel : Prop := ∀ p d acc v c, p ≤ length input → d ≤ MAX_DEPTH →
  parse_array format_finite input strict fuel acc (Cursor p d) = Some (Ok v, c) →
  ∃ y vs q, c = Cursor q d ∧ reads p q (y ++ ["]"%char]) ∧ v = Array (acc ++ vs) ∧ itms (MAX_DEPTH - d) y vs.
Definition fresh_keys (acc : object) (ms : list (string * value)) : Prop :=
  strict = true → NoDup ms.*1 ∧ Forall (λ k, obj_contains_key acc k = false) ms.*1.
Definition object_sound fuel : Prop := ∀ p d acc v c, p ≤ length input → d ≤ MAX_DEPTH →
  parse_object format_finite input strict fuel acc (Cursor p d) = Some (Ok v, c) →
  ∃ y ms q, c = Cursor q d ∧ reads p q (y ++ ["}"%char]) ∧
    v = Object (foldl (λ o kv, obj_insert kv.1 kv.2 o) acc ms) ∧ mbrs (MAX_DEPTH - d) y ms ∧ fresh_keys acc ms.

Lemma items_blank n w y vs : blank w → itms n y vs → itms n (w ++ y) vs.
Proof.
  intros Hw Hy. destruct Hy as [n w0 x w' v Hw0|n w0 x w' v y vs Hw0]; rewrite app_assoc; constructor; try done;
    by apply Forall_app.
Qed.

Lemma members_blank n w y ms : blank w → mbrs n y ms → mbrs n (w ++ y) ms.
Proof.
  intros Hw Hy. destruct Hy as [n w0 b s w2 w3 x w4 v Hw0|n w0 b s w2 w3 x w4 v y ms Hw0];
    rewrite app_assoc; constructor; try done; by apply Forall_app.
Qed.

(** A container: empty, or its loop entered after leading whitespace. *)
Lemma nested_ok (op cl : ascii) (empty : value) (m : parse value) p d v c : input !! p = Some op → d ≤ MAX_DEPTH →
  nested (advance 1 ;p; ws input ;p; closed ←p at_byte input cl;
    if (closed : bool) then advance 1 ;p; pret empty else m) (Cursor p d) = Some (Ok v, c) →
  d < MAX_DEPTH ∧
  ((∃ w q, c = Cursor q d ∧ v = empty ∧ blank w ∧ reads p q (op :: w ++ [cl])) ∨
   (∃ w q c', blank w ∧ reads p q (op :: w) ∧ m (Cursor q (d + 1)) = Some (Ok v, c') ∧
      c = Cursor (pos c') (depth c' - 1))).
Proof.
  intros Hb Hd H. pose proof (reads_byte _ _ Hb) as Hr. pose proof (reads_le _ _ _ Hr).
  unfold nested in H. cbn [pos depth] in H. destruct (Nat.leb_spec MAX_DEPTH d) as [|Hlt]; [done|].
  destruct (pbind _ _ _) as [[res c']|] eqn:E; [|done]. injection H as -> <-.
  step_pure E. step E u c1 Ew. apply ws_ok in Ew as (q & w & -> & Hw & Hblank); [|lia].
  assert (Hrw : reads p q (op :: w)) by (by eapply (reads_app p _ _ [op])).
  split; [done|]. apply at_byte_ok in E as [[Hc E]|E]; [left|right; by exists w, q, c'].
  step_pure E. injection E as <- <-. exists w, (q + 1). cbn [pos depth]. split_and!; try done.
  - by rewrite Nat.add_sub.
  - rewrite app_comm_cons. eapply reads_app; [exact Hrw|by apply reads_byte].
Qed.

Lemma value_sound_S fuel : array_sound fuel → object_sound fuel → value_sound (S fuel).
Proof.
  intros Harr Hobj p d v c Hp Hd H. cbn [parse_value] in H. step H u c1 E.
  apply ws_ok in E as (p1 & w & -> & Hw & Hblank); [|done]. pose proof (reads_le _ _ _ Hw).
  assert (Hfin : ∀ q x, c = Cursor q d → reads p1 q x → jsn (MAX_DEPTH - d) x v →
    ∃ w x q, c = Cursor q d ∧ reads p q (w ++ x) ∧ blank w ∧ jsn (MAX_DEPTH - d) x v).
  { intros q x -> Hx Hj. exists w, x, q. split_and!; try done. by eapply reads_app. }
  apply next_byte in H as (b & Hb & H).
  assert (Hwd : ∀ x v', (word input x ;p; pret v') (Cursor p1 d) = Some (Ok v, c) →
    v = v' ∧ ∃ q, c = Cursor q d ∧ reads p1 q x).
  { intros x v' E. step E u' c2 Ew. apply word_ok in Ew as [-> Hr]; [|lia]. injection E as <- <-. eauto. }
  destruct (b =b "n") eqn:E1.
  { apply Hwd in H as (-> & q & -> & Hr). eapply Hfin; [done|exact Hr|constructor]. }
  destruct (b =b "t") eqn:E2.
  { apply Hwd in H as (-> & q & -> & Hr). eapply Hfin; [done|exact Hr|apply (json_bool _ _ _ true)]. }
  destruct (b =b "f") eqn:E3.
  { apply Hwd in H as (-> & q & -> & Hr). eapply Hfin; [done|exact Hr|apply (json_bool _ _ _ false)]. }
  destruct (Ascii.eqb_spec b "034") as [->|_].
  { step H s c2 E. apply parse_string_ok in E as (y & t & q & Hy & -> & -> & Hr); [|done]. injection H as <- <-.
    eapply Hfin; [done|exact Hr|by constructor]. }
  destruct (Ascii.eqb_spec b "[") as [->|_]; [|destruct (Ascii.eqb_spec b "{") as [->|_]].
  - eapply nested_ok in H as [Hlt [(w2 & q & -> & -> & Hw2 & Hr)|(w2 & q & c2 & Hw2 & Hr & E & Hc)]]; [..|done|done];
      replace (MAX_DEPTH - d) with (S (MAX_DEPTH - (d + 1))) in * by lia.
    + eapply Hfin; [done|exact Hr|by constructor].
    + pose proof (reads_le _ _ _ Hr). apply Harr in E as (y & vs & q' & -> & Hry & -> & Hi); [|lia..].
      eapply (Hfin q' ("["%char :: (w2 ++ y) ++ ["]"%char])).
      * rewrite Hc. cbn [pos depth]. by rewrite Nat.add_sub.
      * rewrite <-app_assoc, app_comm_cons. by eapply reads_app.
      * constructor. by apply items_blank.
  - eapply nested_ok in H as [Hlt [(w2 & q & -> & -> & Hw2 & Hr)|(w2 & q & c2 & Hw2 & Hr & E & Hc)]]; [..|done|done];
      replace (MAX_DEPTH - d) with (S (MAX_DEPTH - (d + 1))) in * by lia.
    + eapply Hfin; [done|exact Hr|by constructor].
    + pose proof (reads_le _ _ _ Hr). apply Hobj in E as (y & ms & q' & -> & Hry & -> & Hi & Hf); [|lia..].
      eapply (Hfin q' ("{"%char :: (w2 ++ y) ++ ["}"%char])).
      * rewrite Hc. cbn [pos depth]. by rewrite Nat.add_sub.
      * rewrite <-app_assoc, app_comm_cons. by eapply reads_app.
      * apply json_object; [by apply members_blank|]. intros Hs. by apply Hf.
  - case_match; [|done]. apply parse_number_ok in H as (x & q & Hx & -> & -> & Hr); [|lia].
    eapply Hfin; [done|exact Hr|by constructor].
Qed.

Lemma array_sound_S fuel : value_sound fuel → array_sound fuel → array_sound (S fuel).
Proof.
  intros Hval Harr p d acc v c Hp Hd H. rewrite parse_array_S in H. step H v1 c1 E.
  apply Hval in E as (w & x & q & -> & Hr & Hw & Hx); [|done..]. pose proof (reads_le _ _ _ Hr).
  step H u c1 E. apply ws_ok in E as (q2 & w' & -> & Hr' & Hw'); [|lia]. pose proof (reads_le _ _ _ Hr').
  step H o c1 E. apply peek_ok in E as [-> ->]. destruct (input !! q2) as [b|] eqn:Hb; [|done].
  pose proof (reads_byte _ _ Hb) as Hrb. pose proof (reads_le _ _ _ Hrb).
  destruct (b =b ",") eqn:E1; [|destruct (b =b "]") eqn:E2; [|done]]; step_pure H.
  - apply eqb_byte in E1 as ->. apply Harr in H as (y & vs & q3 & -> & Hry & -> & Hi); [|lia..].
    exists (w ++ x ++ w' ++ ","%char :: y), (v1 :: vs), q3. split_and!; [done| |by rewrite <-app_assoc|by apply items_cons].
    replace ((w ++ x ++ w' ++ ","%char :: y) ++ ["]"%char]) with ((w ++ x) ++ w' ++ [","%char] ++ y ++ ["]"%char])
      by (by rewrite <-!app_assoc). repeat (eapply reads_app; [done|]). done.
  - apply eqb_byte in E2 as ->. injection H as <- <-.
    exists (w ++ x ++ w'), [v1], (q2 + 1). split_and!; [done| |done|by apply items_one].
    replace ((w ++ x ++ w') ++ ["]"%char]) with ((w ++ x) ++ w' ++ ["]"%char]) by (by rewrite <-!app_assoc).
    repeat (eapply reads_app; [done|]). done.
Qed.

Lemma object_sound_S fuel : value_sound fuel → object_sound fuel → object_sound (S fuel).
Proof.
  intros Hval Hobj p d acc v c Hp Hd H. cbn [parse_object] in H.
  step H u c1 E. apply ws_ok in E as (p1 & w1 & -> & Hr1 & Hw1); [|done]. pose proof (reads_le _ _ _ Hr1).
  apply at_byte_ok in H as [[Hq H]|H]; [|done]. cbn [negb] in H.
  step H k c1 E. apply parse_string_ok in E as (b & t & p2 & Hb & -> & -> & Hr2); [|done]. pose proof (reads_le _ _ _ Hr2).
  step H u2 c1 E. apply ws_ok in E as (p3 & w2 & -> & Hr3 & Hw2); [|lia]. pose proof (reads_le _ _ _ Hr3).
  apply at_byte_ok in H as [[Hcol H]|H]; [|done]. cbn [negb] in H.
  pose proof (reads_byte _ _ Hcol) as Hr4. pose proof (reads_le _ _ _ Hr4). step_pure H.
  step H v1 c1 E. apply Hval in E as (w3 & x & p5 & -> & Hr5 & Hw3 & Hx); [|lia..]. pose proof (reads_le _ _ _ Hr5).
  destruct (obj_contains_key acc (of_bytes t) && strict) eqn:Hdup; [done|].
  step H u6 c1 E. apply ws_ok in E as (p6 & w4 & -> & Hr6 & Hw4); [|lia]. pose proof (reads_le _ _ _ Hr6).
  step H o c1 E. apply peek_ok in E as [-> ->]. destruct (input !! p6) as [b'|] eqn:Hb'; [|done].
  pose proof (reads_byte _ _ Hb') as Hr7. pose proof (reads_le _ _ _ Hr7).
  assert (Hfront : ∀ y q, reads p6 q y → reads p q (w1 ++ quoted b ++ w2 ++ [":"%char] ++ (w3 ++ x) ++ w4 ++ y)).
  { intros y q Hy. repeat (eapply reads_app; [done|]). done. }
  assert (Hnew : strict = true → obj_contains_key acc (of_bytes t) = false).
  { intros Hs. by rewrite Hs, andb_true_r in Hdup. }
  destruct (b' =b ",") eqn:E1; [|destruct (b' =b "}") eqn:E2; [|done]]; step_pure H.
  - apply eqb_byte in E1 as ->. apply Hobj in H as (y & ms & q & -> & Hry & -> & Hm & Hf); [|lia..].
    exists (w1 ++ quoted b ++ w2 ++ ":"%char :: w3 ++ x ++ w4 ++ ","%char :: y), ((of_bytes t, v1) :: ms), q. split_and!; [done| |done|by apply members_cons|].
    + assert (Hall : reads p6 q ([","%char] ++ y ++ ["}"%char])) by by eapply reads_app.
      apply Hfront in Hall. repeat (rewrite <-app_assoc in Hall || rewrite <-app_assoc || rewrite <-app_comm_cons). done.
    + intros Hs. destruct (Hf Hs) as [Hnd Hall]. cbn [fmap list_fmap fst].
      assert (Hk : ∀ k, k ∈ ms.*1 → (of_bytes t ==s k) = false ∧ obj_contains_key acc k = false).
      { intros k Hk. rewrite Forall_forall in Hall. specialize (Hall k Hk). rewrite contains_insert in Hall.
        by apply orb_false_iff in Hall. }
      split; constructor; auto.
      * intros Hin. destruct (Hk _ Hin) as [E _]. by rewrite String.eqb_refl in E.
      * apply Forall_forall. intros k Hin. by apply Hk.
  - apply eqb_byte in E2 as ->. injection H as <- <-.
    exists (w1 ++ quoted b ++ w2 ++ ":"%char :: w3 ++ x ++ w4), [(of_bytes t, v1)], (p6 + 1). split_and!; [done| |done|by apply members_one|].
    + apply Hfront in Hr7. repeat (rewrite <-app_assoc in Hr7 || rewrite <-app_assoc || rewrite <-app_comm_cons). done.
    + intros Hs. split; [apply NoDup_singleton|]. repeat constructor. by apply Hnew.
Qed.

Lemma parse_sound fuel : value_sound fuel ∧ array_sound fuel ∧ object_sound fuel.
Proof.
  induction fuel as [|fuel (IHv & IHa & IHo)]; [by split_and!|].
  auto using value_sound_S, array_sound_S, object_sound_S.
Qed.

(** What parses is a document. *)
Lemma parsed_document v : parse_scalar_with format_finite input strict = Some (Ok v) →
  document format_finite strict input v.
Proof.
  unfold parse_scalar_with. intros H.
  destruct (parse_value _ _ _ _ _) as [[[v'|e] c]|] eqn:E; [|done..].
  apply (proj1 (parse_sound _)) in E as (w & x & q & -> & Hr & Hw & Hx); [|lia|lia].
  destruct (ws _ _) as [[[u|e] c]|] eqn:Ew; [|done..]. pose proof (reads_le _ _ _ Hr).
  apply ws_ok in Ew as (q' & w' & -> & Hr' & Hw'); [|lia]. cbn [pos] in H. destruct (Nat.eqb_spec q' (length input)); [|done].
  injection H as <-. exists w, x, w'. rewrite Nat.sub_0_r in Hx. split_and!; try done.
  assert (Hall : reads 0 q' ((w ++ x) ++ w')) by by eapply reads_app.
  apply reads_slice in Hall as [Hall _]. rewrite app_assoc, <-Hall. subst q'. unfold slice.
  by rewrite drop_0, Nat.sub_0_r, firstn_all.
Qed.
End sound.
