(* ===== verification/JsonSpec.v ===== *)
(** * What the JSON parser and the writers promise

    The parser implements the grammar of [JsonGrammar], strict parsing is the
    grammar without repeated keys, parsing always returns, and written values
    parse back. *)
From stdpp Require Import prelude strings sorting.
From Stdlib Require String.
From Stdlib Require Import Ascii.
From S2P Require Import Prelude Json JsonText JsonTextProps JsonNumber JsonWriter JsonParser JsonParserProps JsonGrammar JsonComplete JsonSound.

Lemma parser_grammar format_finite input strict v :
  parse_scalar_with format_finite input strict = Some (Ok v) ↔ document format_finite strict input v.
Proof. split; [apply parsed_document|apply document_parses]. Qed.

(** The parser's tables are those of the standard with the form feed. *)
Lemma parser_tables b :
  blank_byte (with_form_feed rfc8259) b = is_ascii_whitespace b
  ∧ plain_byte rfc8259 b = scan_byte b
  ∧ short_escape rfc8259 b = simple_escape b
  ∧ hex_digit rfc8259 b = to_digit_16 b.
Proof.
  assert (∀ x y : bool, Bool.eqb x y = true → x = y) as Hb by (intros [] []; done).
  assert (∀ x y : option N, bool_decide (x = y) = true → x = y) as Ho by (intros; by apply (bool_decide_eq_true_1 _)).
  split_and!; [apply Hb|apply Hb|apply Ho|apply Ho]; by_bytes b.
Qed.

Lemma parser_document format_finite strict input v :
  document format_finite strict input v ↔ document_in (with_form_feed rfc8259) format_finite strict input v.
Proof.
  split; intros Hd; (eapply document_kept; [..|exact Hd|apply Forall_true; intros b]);
    intros b || idtac; destruct (parser_tables b) as (Hw & Hp & Hs & Hh); cbn in *; unfold kept; cbn; congruence.
Qed.

(** C35: The parser accepts exactly the documents of the JSON grammar of RFC 8259
    in which the form feed counts as a blank too (with at most 128 nested
    containers and, in strict mode, no repeated key) and returns the value
    they spell, whatever [ryu] prints for floats; on an input without a form
    feed these are exactly the documents of RFC 8259. *)
Theorem parser_refines_grammar (format_finite : f64 → string) (input : bytes) (strict : bool) (v : value) :
  (parse_scalar_with format_finite input strict = Some (Ok v)
     ↔ document_in (with_form_feed rfc8259) format_finite strict input v)
  ∧ ("012"%char ∉ input →
       parse_scalar_with format_finite input strict = Some (Ok v) ↔ document_in rfc8259 format_finite strict input v).
Proof.
  rewrite parser_grammar, parser_document. split; [done|]. intros Hff. split; intros Hd; (eapply document_kept; [..|exact Hd|]); try done.
  - apply Forall_forall. intros b Hb. unfold kept. cbn [blank_byte with_form_feed]. intros [Hw|Hw]%orb_prop; [done|].
    apply N.eqb_eq in Hw. destruct Hff. replace "012"%char with b; [done|]. rewrite <-(ascii_N_embedding b). unfold code in Hw. by rewrite Hw.
  - apply Forall_true. intros b Hw. cbn [blank_byte with_form_feed]. by rewrite Hw.
Qed.

(** A form feed between tokens: the parser accepts it, the standard does not. *)
Example form_feed_accepted :
  parse_scalar_with exact_format ["012"; "1"]%char true = Some (Ok (Number "1"))
  ∧ ∀ v, ¬ document_in rfc8259 exact_format true ["012"; "1"]%char v.
Proof.
  split; [vm_compute; reflexivity|]. intros v (w & x & w' & E & Hw & _ & Hx).
  destruct w as [|b w]; [|injection E as <- _; apply Forall_cons in Hw as [Hw _]; by vm_compute in Hw].
  simpl in E.
  assert (json exact_format true MAX_DEPTH x v) as Hj.
  { eapply text_kept; [..|exact Hx|apply Forall_true; intros b]; try intros b; destruct (parser_tables b) as (Hs & Hp & He & Hh);
      unfold kept; cbn in *; try congruence. intros Hb. rewrite <-Hs. by rewrite Hb. }
  destruct (json_head _ _ _ _ _ Hj) as (b & r & -> & Hb). injection E as <- _. by vm_compute in Hb.
Qed.

(** C36: On every input, valid UTF-8 or not, the parser returns: either a value
    whose strings are valid UTF-8, whose numbers are literals that parsing
    leaves alone, whose objects are sorted and whose nesting is at most 128, or
    an error located within the input. *)
Theorem parse_returns (format_finite : f64 → string) `{!RyuFormat format_finite} (input : bytes) (strict : bool) :
  (∃ v, parse_scalar_with format_finite input strict = Some (Ok v) ∧ value_ok format_finite MAX_DEPTH v) ∨
  (∃ e, parse_scalar_with format_finite input strict = Some (Err e) ∧ offset e ≤ length input).
Proof. by apply parse_scalar_total. Qed.

Lemma written_parses (format_finite : f64 → string) lay input strict v : layout_ok lay →
  value_ok format_finite MAX_DEPTH v → input = of_bytes (text lay v 0) →
  parse_scalar_with format_finite (as_bytes input) strict = Some (Ok v).
Proof.
  intros Hlay Hok ->. rewrite as_of_bytes. apply document_parses.
  exists [], (text lay v 0), []. rewrite app_nil_r. split_and!; try done. by apply text_json.
Qed.

(** C37: A well-formed value written compactly or indented parses back to itself,
    in lenient and in strict mode. *)
Theorem write_parse_roundtrip (format_finite : f64 → string) (v : value) :
  value_ok format_finite MAX_DEPTH v →
  Value_parse format_finite (write_string_value v) = Some (Ok v) ∧
  Value_parse_strict format_finite (write_string_value v) = Some (Ok v) ∧
  Value_parse format_finite (write_string_pretty v) = Some (Ok v) ∧
  Value_parse_strict format_finite (write_string_pretty v) = Some (Ok v).
Proof.
  intros Hok. unfold Value_parse, Value_parse_strict.
  assert (Hc : write_string_value v = of_bytes (text compact v 0))
    by (unfold write_string_value; by rewrite (write_value_spec [] v 0)).
  assert (Hp : write_string_pretty v = of_bytes (text pretty v 0))
    by (unfold write_string_pretty; by rewrite write_pretty_spec).
  rewrite !(written_parses format_finite compact _ _ v compact_ok Hok Hc).
  by rewrite !(written_parses format_finite pretty _ _ v pretty_ok Hok Hp).
Qed.

(** Strict parsing is lenient parsing that in addition rejects repeated keys:
    it reports a duplicate key or returns what lenient parsing returns, lenient
    parsing never reports one, and a document both accept has the same value. *)
Theorem strict_parsing (format_finite : f64 → string) (input : string) :
  let lenient := Value_parse format_finite input in
  let strict := Value_parse_strict format_finite input in
  (strict = lenient ∨ strict = Some (Err DuplicateKey)) ∧
  lenient ≠ Some (Err DuplicateKey) ∧
  (∀ v, strict = Some (Ok v) ↔ document format_finite true (as_bytes input) v).
Proof.
  cbv zeta. unfold Value_parse, Value_parse_strict.
  destruct (parse_strict_cases format_finite (as_bytes input)) as [Hc Hn]. split; [|split].
  - destruct Hc as [->|[p ->]]; [by left|by right].
  - intros H. destruct (parse_scalar_with _ _ false) as [[v|[k p]]|]; [done| |done].
    injection H as ->. by apply (Hn p).
  - intros v. rewrite <-parser_grammar. split; [|by intros ->].
    by destruct (parse_scalar_with _ _ true) as [[v'|e]|]; [intros [= ->]|..].
Qed.

(** C38: An integer literal is canonical exactly when it is the decimal text of an
    integer of magnitude below 2^53, and every 64-bit integer survives being
    written and read as a number. *)
Theorem canonical_integers (format_finite : f64 → string) :
  (∀ s, valid_number (as_bytes s) = true →
     is_canonical_integer_str s = true ↔
     ∃ z, (MIN_SAFE_INTEGER ≤ z ≤ MAX_SAFE_INTEGER)%Z ∧ s = int_to_string z) ∧
  (∀ z, is_i64 z → parse_i64 (int_to_string z) = Some z ∧
     number_ok format_finite (int_to_string z)).
Proof.
  split; [apply canonical_integer_spec|]. intros z Hz. split; [by apply parse_int_to_string|].
  split; [apply int_to_string_valid|]. unfold Number_parse.
  by rewrite int_to_string_not_neg_zero, int_to_string_not_float.
Qed.

(** ** Concrete inputs *)

(** An object with a nested array, an escaped string and a float. *)
Definition sample_json : string :=
  of_bytes (map (λ c, if c =b "'" then "034"%char else c)
    (as_bytes " {'b': [1, {'z': null}], 'a': 'x\n\ud83d\ude00', 'f': 2.5} ")).

Definition sample_value : value :=
  Object [("a", VString (of_bytes (as_bytes "x" ++ ["010"%char] ++ encode_utf8 128512)));
          ("b", Array [Number "1"; Object [("z", Null)]]);
          ("f", Number "2500000000000000000000000000000000000000000000000000e-51")].

(** The sample is a document of the standard. *)
Lemma parser_refines_grammar_witness :
  "012"%char ∉ as_bytes sample_json ∧ document_in rfc8259 exact_format true (as_bytes sample_json) sample_value.
Proof.
  assert ("012"%char ∉ as_bytes sample_json) as Hff by (apply (bool_decide_eq_true_1 _); vm_compute; reflexivity).
  split; [exact Hff|]. apply (proj2 (parser_refines_grammar exact_format (as_bytes sample_json) true sample_value)); [exact Hff|].
  vm_compute. reflexivity.
Defined.

Lemma parse_returns_witness :
  RyuFormat exact_format ∧
  ((∃ v, parse_scalar_with exact_format (as_bytes sample_json) true = Some (Ok v) ∧ value_ok exact_format MAX_DEPTH v) ∨
   (∃ e, parse_scalar_with exact_format (as_bytes sample_json) true = Some (Err e) ∧
      offset e ≤ length (as_bytes sample_json))).
Proof. split; [apply exact_ryu|]. apply (parse_returns exact_format). Defined.

Lemma sample_value_ok : value_ok exact_format MAX_DEPTH sample_value.
Proof.
  assert (Hs : ∀ s, utf8_valid (as_bytes s) = true → string_ok s) by (intros s; apply utf8_spec).
  assert (Hn : ∀ n, valid_number (as_bytes n) && (Number_parse exact_format n ==s n) = true → number_ok exact_format n).
  { intros n [H1 H2%String.eqb_eq]%andb_prop. by split. }
  assert (Hsorted : ∀ o, StronglySorted (λ a b : string * value, String.compare a.1 b.1 = Lt) o → obj_sorted o) by done.
  apply value_ok_Object. split; [unfold MAX_DEPTH; lia|]. split; [by apply Hsorted; repeat constructor|].
  repeat constructor; simpl; try (by apply Hs); try (by apply Hn); try (unfold MAX_DEPTH; lia).
Qed.

Lemma write_parse_roundtrip_witness :
  value_ok exact_format MAX_DEPTH sample_value ∧
  Value_parse exact_format (write_string_pretty sample_value) = Some (Ok sample_value).
Proof.
  split; [apply sample_value_ok|].
  apply (write_parse_roundtrip exact_format sample_value sample_value_ok).
Defined.
