(* ===== verification/JsonTokenizer.v ===== *)
(** * The tokenizer and the raw canonical writer ([src/rezzy-json/src/lib.rs])

    [Tokenizer] scans JSON without building values.  The raw canonical writer
    uses it to cut a document into spans, sort the members of objects and
    re-emit the spans, so that a signed document is canonicalized without a
    [Value].  The tokenizer's container stacks are read by [next_token] only
    and are left out here with it. *)
From stdpp Require Import prelude strings sorting.
From Stdlib Require String.
From Stdlib Require Import Ascii.
From S2P Require Import Prelude Json JsonText JsonWriter JsonParser.

Local Open Scope nat_scope.

Module Tok.

Inductive TokenizerError : Type :=
| UnexpectedEnd
| InvalidToken
| InvalidNumber
| InvalidString
| InvalidEscape
| DepthLimitExceeded.

Inductive ValueType : Type := TNull | TBool | TNumber | TString | TArray | TObject.

Record MemberSpan := mkMemberSpan { key : string; raw_value : bytes; value_type : ValueType }.

(** [From<TokenizerError> for Error]. *)
Definition into_error (e : TokenizerError) : Error :=
  match e with
  | UnexpectedEnd => JsonParser.UnexpectedEnd
  | InvalidToken => JsonParser.InvalidToken
  | InvalidNumber => JsonParser.InvalidNumber
  | InvalidString => JsonParser.InvalidString
  | InvalidEscape => JsonParser.InvalidEscape
  | DepthLimitExceeded => JsonParser.DepthLimitExceeded
  end.

Abbreviation tok := (parser TokenizerError).

(** ** Scanning *)

Section tokenizer.
Context (input : bytes).

Definition open_container : tok unit := λ c,
  if MAX_DEPTH <=? depth c then Some (Err DepthLimitExceeded, c)
  else Some (Ok tt, Cursor (pos c + 1) (depth c + 1)).
Definition close_container : tok unit := λ c, Some (Ok tt, Cursor (pos c + 1) (depth c - 1)).

Definition word (expected : bytes) : tok unit :=
  p ←p get_pos;
  if decide (slice input p (p + length expected) = expected) then advance (length expected)
  else pfail InvalidToken.

(** Bytes that may follow a backslash, apart from [u]. *)
Definition is_simple_escape (b : ascii) : bool :=
  (b =b "034") || (b =b "\") || (b =b "/") || (b =b "b") || (b =b "f") || (b =b "n") || (b =b "r") || (b =b "t").

Fixpoint check_hex (rounds : nat) : tok unit :=
  match rounds with
  | O => pret tt
  | S rounds =>
      b ←p peek input;
      b ←p ok_or b UnexpectedEnd;
      if is_ascii_hexdigit b then advance 1 ;p; check_hex rounds else pfail InvalidEscape
  end.

Fixpoint string_raw_loop (fuel start : nat) : tok bytes :=
  match fuel with
  | O => λ _, None
  | S fuel =>
      b ←p peek input;
      b ←p ok_or b UnexpectedEnd;
      if b =b "034" then
        p ←p get_pos; advance 1 ;p; pret (slice input start p)
      else if b =b "\" then
        advance 1 ;p;
        esc ←p peek input;
        esc ←p ok_or esc UnexpectedEnd;
        (if is_simple_escape esc then advance 1
         else if esc =b "u" then advance 1 ;p; check_hex 4
         else pfail InvalidEscape) ;p;
        string_raw_loop fuel start
      else if (code b <=? 31)%N then pfail InvalidString
      else advance 1 ;p; string_raw_loop fuel start
  end.

Definition string_raw : tok bytes :=
  advance 1 ;p; start ←p get_pos; string_raw_loop (S (length input)) start.

(** A [while let Some(b)] loop over digits, and whether it saw one. *)
Definition skip_digits : tok bool := λ c,
  let n := count_while is_ascii_digit (drop (pos c) input) in
  Some (Ok (0 <? n), Cursor (pos c + n) (depth c)).

Definition at_class (p : ascii → bool) : tok bool := λ c, Some (Ok (byte_is input (pos c) p), c).

Definition skip_number : tok unit :=
  start ←p get_pos;
  minus ←p at_byte input "-";
  (if (minus : bool) then advance 1 else pret tt) ;p;
  p ←p get_pos;
  if byte_is input p (Ascii.eqb "0") && byte_is input (p + 1) is_ascii_digit then pfail InvalidNumber
  else
    saw_digit ←p skip_digits;
    if negb saw_digit then pfail InvalidNumber
    else
      point ←p at_byte input ".";
      frac_digits ←p (if (point : bool) then advance 1 ;p; skip_digits else pret true);
      if negb frac_digits then pfail InvalidNumber
      else
        e ←p at_class (λ c, (c =b "e") || (c =b "E"));
        exp_digits ←p
          (if (e : bool) then
             advance 1 ;p;
             sign ←p at_class (λ c, (c =b "+") || (c =b "-"));
             (if (sign : bool) then advance 1 else pret tt) ;p;
             skip_digits
           else pret true);
        if negb exp_digits then pfail InvalidNumber
        else
          p ←p get_pos;
          if p =? start then pfail InvalidNumber else pret tt.

Fixpoint skip_value (fuel : nat) : tok bytes :=
  match fuel with
  | O => λ _, None
  | S fuel =>
      ws input ;p;
      start ←p get_pos;
      b ←p peek input;
      b ←p ok_or b UnexpectedEnd;
      (if b =b "n" then word (as_bytes "null")
       else if b =b "t" then word (as_bytes "true")
       else if b =b "f" then word (as_bytes "false")
       else if b =b "034" then string_raw ;p; pret tt
       else if b =b "[" then
         open_container ;p; ws input ;p;
         closed ←p at_byte input "]";
         if (closed : bool) then close_container else skip_array fuel
       else if b =b "{" then
         open_container ;p; ws input ;p;
         closed ←p at_byte input "}";
         if (closed : bool) then close_container else skip_object fuel
       else if (b =b "-") || is_ascii_digit b then skip_number
       else pfail InvalidToken) ;p;
      p ←p get_pos;
      pret (slice input start p)
  end
(** The loop of [skip_array]. *)
with skip_array (fuel : nat) : tok unit :=
  match fuel with
  | O => λ _, None
  | S fuel =>
      skip_value fuel ;p;
      ws input ;p;
      b ←p peek input;
      match b with
      | Some b =>
          if b =b "," then advance 1 ;p; skip_array fuel
          else if b =b "]" then close_container
          else pfail InvalidToken
      | None => pfail InvalidToken
      end
  end
(** The loop of [skip_object]. *)
with skip_object (fuel : nat) : tok unit :=
  match fuel with
  | O => λ _, None
  | S fuel =>
      ws input ;p;
      quoted ←p at_byte input "034";
      if negb quoted then pfail InvalidToken
      else
        string_raw ;p;
        ws input ;p;
        colon ←p at_byte input ":";
        if negb colon then pfail InvalidToken
        else
          advance 1 ;p;
          skip_value fuel ;p;
          ws input ;p;
          b ←p peek input;
          match b with
          | Some b =>
              if b =b "," then advance 1 ;p; skip_object fuel
              else if b =b "}" then close_container
              else pfail InvalidToken
          | None => pfail InvalidToken
          end
  end.

(** Two units of fuel per byte and two more, as for the parser. *)
Definition skip_fuel : nat := 2 * length input + 2.

(** [finish]: only whitespace is left. *)
Definition finish : tok bool := ws input ;p; p ←p get_pos; pret (p =? length input).
End tokenizer.

(** ** Unescaping *)

Section unescape.
Context (input : bytes).

Fixpoint hex_rounds (rounds : nat) (n : N) : tok N :=
  match rounds with
  | O => pret n
  | S rounds =>
      b ←p peek input;
      b ←p ok_or b UnexpectedEnd;
      advance 1 ;p;
      digit ←p ok_or (to_digit_16 b) InvalidEscape;
      hex_rounds rounds (N.lor (N.shiftl n 4 `mod` 65536) digit)
  end.

Definition decode_unicode_escape : tok N :=
  high ←p hex_rounds 4 0;
  scalar ←p
    (if (55296 <=? high)%N && (high <=? 56319)%N then
       p ←p get_pos;
       if decide (slice input p (p + 2) = as_bytes "\u") then
         advance 2 ;p;
         low ←p hex_rounds 4 0;
         if (56320 <=? low)%N && (low <=? 57343)%N then
           pret (65536 + N.shiftl (high - 55296) 10 + (low - 56320))%N
         else pfail InvalidEscape
       else pfail InvalidEscape
     else pret high);
  ok_or (from_u32 scalar) InvalidEscape.

(** The loop; [start] is where the run of unescaped bytes began. *)
Fixpoint unescape_loop (fuel : nat) (out : bytes) (start : nat) : tok bytes :=
  match fuel with
  | O => λ _, None
  | S fuel =>
      b ←p peek input;
      match b with
      | None =>
          if start <? length input then
            p ←p get_pos;
            seg ←p ok_or (from_utf8 (slice input start p)) InvalidString;
            pret (out ++ as_bytes seg)
          else pret out
      | Some b =>
          if b =b "\" then
            p ←p get_pos;
            seg ←p ok_or (from_utf8 (slice input start p)) InvalidString;
            advance 1 ;p;
            esc ←p peek input;
            esc ←p ok_or esc UnexpectedEnd;
            advance 1 ;p;
            c ←p (if esc =b "u" then decode_unicode_escape else ok_or (simple_escape esc) InvalidEscape);
            start ←p get_pos;
            unescape_loop fuel ((out ++ as_bytes seg) ++ encode_utf8 c) start
          else advance 1 ;p; unescape_loop fuel out start
      end
  end.

Definition unescape_raw_string : option (result string TokenizerError) :=
  match unescape_loop (S (length input)) [] 0 (Cursor 0 0) with
  | Some (Ok out, _) => Some (Ok (of_bytes out))
  | Some (Err e, _) => Some (Err e)
  | None => None
  end.
End unescape.

(** ** The members of an object *)

Definition contains_backslash (b : bytes) : bool := existsb (Ascii.eqb "\") b.

(** The key of a member: borrowed, or decoded when it has an escape. *)
Definition member_key (key_bytes : bytes) : tok string := λ c,
  if contains_backslash key_bytes then
    match unescape_raw_string key_bytes with
    | Some (Ok decoded) => Some (Ok decoded, c)
    | Some (Err _) => Some (Err InvalidString, c)
    | None => None
    end
  else match from_utf8 key_bytes with
       | Some s => Some (Ok s, c)
       | None => Some (Err InvalidString, c)
       end.

Definition type_of_byte (b : option ascii) : option ValueType :=
  match b with
  | None => None
  | Some b =>
      if b =b "n" then Some TNull
      else if (b =b "t") || (b =b "f") then Some TBool
      else if (b =b "-") || is_ascii_digit b then Some TNumber
      else if b =b "034" then Some TString
      else if b =b "[" then Some TArray
      else if b =b "{" then Some TObject
      else None
  end.

Section members.
Context (input : bytes).

(** The loop of [walk_raw_object_members] with the visitor of [object_members]. *)
Fixpoint members_loop (fuel : nat) (members : list MemberSpan) : tok (list MemberSpan) :=
  match fuel with
  | O => λ _, None
  | S fuel =>
      ws input ;p;
      key_bytes ←p string_raw input;
      ws input ;p;
      colon ←p at_byte input ":";
      if negb colon then pfail InvalidToken
      else
        advance 1 ;p; ws input ;p;
        start ←p get_pos;
        b ←p peek input;
        value_type ←p ok_or (type_of_byte b) InvalidToken;
        skip_value input (skip_fuel input) ;p;
        p ←p get_pos;
        key ←p member_key key_bytes;
        let members := members ++ [mkMemberSpan key (slice input start p) value_type] in
        ws input ;p;
        b ←p peek input;
        match b with
        | Some b =>
            if b =b "," then advance 1 ;p; members_loop fuel members
            else if b =b "}" then advance 1 ;p; pret members
            else pfail InvalidToken
        | None => pfail InvalidToken
        end
  end.

Definition object_members : tok (list MemberSpan) :=
  ws input ;p;
  opened ←p at_byte input "{";
  if negb opened then pfail InvalidToken
  else
    advance 1 ;p; ws input ;p;
    closed ←p at_byte input "}";
    if (closed : bool) then advance 1 ;p; pret []
    else members_loop (S (length input)) [].
End members.

(** ** The raw canonical writer *)

Section emit.
Context (format_finite : f64 → string) (exclude : string → bool) (strict : bool).

(** The output so far, or an error; [None] is running out of fuel. *)
Abbreviation emitted := (option (result bytes Error)).

Definition out_bind (m : emitted) (k : bytes → emitted) : emitted :=
  match m with Some (Ok out) => k out | _ => m end.

(** [tokenizer_call.map_err(|_| e)?] followed by [k] at the cursor it leaves. *)
Definition run_tok {A} (m : tok A) (c : cursor) (e : Error) (k : A → cursor → emitted) : emitted :=
  match m c with
  | Some (Ok a, c) => k a c
  | Some (Err _, _) => Some (Err e)
  | None => None
  end.

(** [finish(tokenizer, raw)?]. *)
Definition finished (raw : bytes) (c : cursor) (k : emitted) : emitted :=
  run_tok (finish raw) c JsonParser.InvalidToken (λ done _, if done then k else Some (Err TrailingCharacters)).

Definition emit_string (raw : bytes) (c : cursor) (out : bytes) : emitted :=
  run_tok (string_raw raw) c JsonParser.InvalidString (λ span c,
    finished raw c
      (if contains_backslash span then
         match unescape_raw_string span with
         | Some (Ok decoded) => Some (Ok (write_string_into out decoded))
         | Some (Err e) => Some (Err (into_error e))
         | None => None
         end
       else
         match from_utf8 span with
         | Some s => Some (Ok ((out ++ ["034"%char]) ++ as_bytes s ++ ["034"%char]))
         | None => Some (Err JsonParser.InvalidString)
         end)).

Definition emit_literal (raw : bytes) (c : cursor) (out : bytes) (literal : bytes) : emitted :=
  run_tok (word raw literal) c JsonParser.InvalidToken (λ _ c, finished raw c (Some (Ok (out ++ literal)))).

Definition emit_number (raw : bytes) (c : cursor) (out : bytes) : emitted :=
  run_tok (skip_number raw) c JsonParser.InvalidNumber (λ _ c',
    finished raw c'
      (match from_utf8 (slice raw (pos c) (pos c')) with
       | None => Some (Err JsonParser.InvalidNumber)
       | Some text =>
           if strict && negb (is_canonical_integer_str text) then Some (Err JsonParser.InvalidNumber)
           else if strict then Some (Ok (out ++ as_bytes text))
           else Some (Ok (out ++ as_bytes (Number_parse format_finite text)))
       end)).

Section containers.
Context (emit_raw : bytes → bytes → emitted).

(** The loop over the sorted members: the last of a run of equal keys. *)
Fixpoint emit_members (first : bool) (out : bytes) (members : list MemberSpan) : emitted :=
  match members with
  | [] => Some (Ok out)
  | member :: rest =>
      if match rest with next :: _ => key next ==s key member | [] => false end || exclude (key member)
      then emit_members first out rest
      else
        let out := if first then out else push_str out "," in
        let out := push_str (write_string_into out (key member)) ":" in
        out_bind (emit_raw out (raw_value member)) (λ out, emit_members false out rest)
  end.

Definition emit_object (raw : bytes) (c : cursor) (out : bytes) : emitted :=
  run_tok (object_members raw) c JsonParser.InvalidToken (λ members c,
    finished raw c
      (let members := sort_by (cmp_on key String.compare) members in
       out_bind (emit_members true (push_str out "{") members) (λ out, Some (Ok (push_str out "}"))))).

(** The [while] loop of [emit_array], after which the cursor is at the bracket. *)
Fixpoint emit_items (fuel : nat) (raw : bytes) (c : cursor) (first : bool) (out : bytes)
    (k : cursor → bytes → emitted) : emitted :=
  match fuel with
  | O => None
  | S fuel =>
      if byte_is raw (pos c) (Ascii.eqb "]") then k c out
      else
        run_tok (skip_value raw (skip_fuel raw)) c JsonParser.InvalidToken (λ _ c',
          let out := if first then out else push_str out "," in
          out_bind (emit_raw out (slice raw (pos c) (pos c'))) (λ out,
            run_tok (ws raw) c' JsonParser.InvalidToken (λ _ c,
              if byte_is raw (pos c) (Ascii.eqb ",") then
                run_tok (advance 1 ;p; ws raw) c JsonParser.InvalidToken (λ _ c,
                  if byte_is raw (pos c) (Ascii.eqb "]") then Some (Err JsonParser.InvalidToken)
                  else emit_items fuel raw c false out k)
              else k c out)))
  end.

Definition emit_array (raw : bytes) (c : cursor) (out : bytes) : emitted :=
  run_tok (advance 1 ;p; ws raw) c JsonParser.InvalidToken (λ _ c,
    emit_items (S (length raw)) raw c true (push_str out "[") (λ c out,
      if negb (byte_is raw (pos c) (Ascii.eqb "]")) then Some (Err JsonParser.InvalidToken)
      else run_tok (advance 1) c JsonParser.InvalidToken (λ _ c, finished raw c (Some (Ok (push_str out "]")))))).
End containers.

(** Each value is emitted by a tokenizer of its own on its span, which is
    shorter than the container's. *)
Fixpoint emit_raw (fuel : nat) (out raw : bytes) : emitted :=
  match fuel with
  | O => None
  | S fuel =>
      run_tok (ws raw) (Cursor 0 0) JsonParser.InvalidToken (λ _ c,
        match raw !! pos c with
        | None => Some (Err JsonParser.UnexpectedEnd)
        | Some b =>
            if b =b "{" then emit_object (emit_raw fuel) raw c out
            else if b =b "[" then emit_array (emit_raw fuel) raw c out
            else if b =b "034" then emit_string raw c out
            else if b =b "n" then emit_literal raw c out (as_bytes "null")
            else if b =b "t" then emit_literal raw c out (as_bytes "true")
            else if b =b "f" then emit_literal raw c out (as_bytes "false")
            else if (b =b "-") || is_ascii_digit b then emit_number raw c out
            else Some (Err JsonParser.InvalidToken)
        end)
  end.
End emit.

Definition write_raw_canonical_filtered_internal format_finite exclude strict (input : bytes)
    : option (result string Error) :=
  match emit_raw format_finite exclude strict (S (length input)) [] input with
  | Some (Ok output) => Some (Ok (of_bytes output))
  | Some (Err e) => Some (Err e)
  | None => None
  end.

Definition write_raw_canonical_filtered format_finite exclude (input : bytes) :=
  write_raw_canonical_filtered_internal format_finite exclude false input.
Definition write_raw_canonical_filtered_strict format_finite exclude (input : bytes) :=
  write_raw_canonical_filtered_internal format_finite exclude true input.
End Tok.
