(* ===== verification/JsonTokenProps.v ===== *)
(** * What the tokenizer reads

    On a text of the grammar the tokenizer stops where the parser does:
    strings, numbers and whole values are skipped to their last byte, the
    members of an object are cut into their keys and spans, and unescaping a
    string gives the string it denotes. *)
From stdpp Require Import prelude strings sorting.
From Stdlib Require String.
From Stdlib Require Import Ascii.
From S2P Require Import Prelude Json JsonText JsonTextProps JsonNumber JsonWriter JsonParser JsonParserProps JsonGrammar JsonComplete JsonTokenizer.
Import Tok.

Local Open Scope nat_scope.

(** ** Scanning *)

Section scan.
Context (input : bytes).
Abbreviation here := (here input).

Lemma tok_word p d x r : here p (x ++ r) →
  Tok.word input x (Cursor p d) = Some (Ok tt, Cursor (p + length x) d).
Proof. intros H. unfold Tok.word, pbind, get_pos. simpl. by rewrite (here_slice _ _ _ _ H), decide_True. Qed.

Lemma run_check_hex hs p d r : here p (hs ++ r) → all is_ascii_hexdigit hs →
  check_hex input (length hs) (Cursor p d) = Some (Ok tt, Cursor (p + length hs) d).
Proof.
  intros H Hh. revert p H. induction Hh as [|h hs Hx _ IH]; intros p H; simpl.
  { unfold pret. by rewrite Nat.add_0_r. }
  erewrite run_bind; [|by eapply run_peek]. simpl. erewrite run_bind; [|done]. rewrite Hx.
  erewrite run_bind; [|done]. cbn [pos depth]. apply here_cons in H as [_ H]. rewrite (IH _ H).
  by rewrite <-Nat.add_assoc.
Qed.

Lemma simple_escape_raw e n : simple_escape e = Some n → is_simple_escape e = true.
Proof. by_bytes e. Qed.

(** One round of the loop at a backslash. *)
Lemma raw_unit fuel start p d hs n r : here p ("\"%char :: "u"%char :: hs ++ r) → hex4_text hs n →
  string_raw_loop input (S fuel) start (Cursor p d) = string_raw_loop input fuel start (Cursor (p + 6) d).
Proof.
  intros H (Hl & Hh & _). cbn [string_raw_loop]. erewrite run_bind; [|by eapply run_peek].
  erewrite run_bind; [|done]. cbn [Ascii.eqb Bool.eqb]. erewrite run_bind; [|done].
  apply here_cons in H as [_ H]. cbn [pos depth]. erewrite run_bind; [|by eapply run_peek].
  erewrite run_bind; [|done]. unfold pbind at 1. change (is_simple_escape "u") with false. cbn [Ascii.eqb Bool.eqb].
  apply here_cons in H as [_ H]. erewrite run_bind; [|done]. cbn [pos depth]. rewrite <-Hl.
  erewrite run_check_hex by done. f_equal. f_equal. rewrite Hl. lia.
Qed.

Lemma raw_simple fuel start p d e n r : here p ("\"%char :: e :: r) → simple_escape e = Some n →
  string_raw_loop input (S fuel) start (Cursor p d) = string_raw_loop input fuel start (Cursor (p + 2) d).
Proof.
  intros H He. cbn [string_raw_loop]. erewrite run_bind; [|by eapply run_peek].
  erewrite run_bind; [|done]. cbn [Ascii.eqb Bool.eqb]. erewrite run_bind; [|done].
  apply here_cons in H as [_ H]. cbn [pos depth]. erewrite run_bind; [|by eapply run_peek].
  erewrite run_bind; [|done]. rewrite (simple_escape_raw _ _ He). erewrite run_bind; [|done].
  cbn [pos depth]. f_equal. f_equal. lia.
Qed.

(** The loop passes an escape and has fuel left for the rest. *)
Lemma raw_escape fuel start p d e n r : here p ("\"%char :: e ++ r) → escape e n → length e < fuel →
  ∃ fuel', fuel ≤ fuel' + 1 + length e ∧
  string_raw_loop input fuel start (Cursor p d) = string_raw_loop input fuel' start (Cursor (p + 1 + length e) d).
Proof.
  intros H He Hf. destruct He as [e n He|hs n Hhs Hn Hu|hs ls high low Hhs Hh Hls Hl]; cbn [app length] in *.
  - destruct fuel as [|fuel]; [lia|]. exists fuel. split; [lia|]. erewrite raw_simple by done. f_equal. f_equal. lia.
  - destruct fuel as [|fuel]; [lia|]. exists fuel. split; [lia|]. erewrite raw_unit by done. f_equal. f_equal.
    destruct Hhs as [-> _]. lia.
  - destruct Hhs as (Hl1 & ? & ?), Hls as (Hl2 & ? & ?).
    rewrite length_app in *. cbn [length] in *. destruct fuel as [|[|fuel]]; [lia..|]. exists fuel. split; [lia|].
    rewrite <-app_assoc in H. erewrite raw_unit; [|exact H|done]. do 2 apply here_cons in H as [_ H].
    apply here_app in H. erewrite raw_unit; [| |done].
    2:{ rewrite <-2!app_comm_cons in H. rewrite Hl1 in H. by replace (p + 6) with (p + 1 + 1 + 4) by lia. }
    f_equal. f_equal. lia.
Qed.

Lemma raw_segment seg start k p d r : here p (seg ++ r) → all scan_byte seg →
  string_raw_loop input (length seg + k) start (Cursor p d) =
  string_raw_loop input k start (Cursor (p + length seg) d).
Proof.
  intros H Hs. revert p H. induction Hs as [|b seg Hb _ IH]; intros p H; [by rewrite Nat.add_0_r|].
  cbn [length Nat.add string_raw_loop]. destruct (scan_tests _ Hb) as (E1 & E2 & E3). cbn [app] in H.
  erewrite run_bind; [|by eapply run_peek]. erewrite run_bind; [|done]. rewrite E1, E2, E3.
  erewrite run_bind; [|done]. apply here_cons in H as [_ H]. cbn [pos depth].
  rewrite (IH _ H). by rewrite <-Nat.add_assoc.
Qed.

Lemma run_raw_loop b s fuel start p d r : string_body b s → here p (b ++ "034"%char :: r) → length b < fuel →
  string_raw_loop input fuel start (Cursor p d) =
  Some (Ok (slice input start (p + length b)), Cursor (p + length b + 1) d).
Proof.
  intros Hb. revert fuel p. induction Hb as [seg Hseg Hu|seg e n b s Hseg Hu He Hb IH]; intros fuel p H Hf.
  - replace fuel with (length seg + S (fuel - length seg - 1)) by lia. erewrite raw_segment by done.
    apply here_app in H. cbn [string_raw_loop]. erewrite run_bind; [|by eapply run_peek].
    erewrite run_bind; [|done]. cbn [Ascii.eqb Bool.eqb]. erewrite run_bind; [|done]. by erewrite run_bind; [|done].
  - rewrite <-app_assoc in H. rewrite length_app in Hf. cbn [length] in Hf. rewrite length_app in Hf.
    replace fuel with (length seg + (fuel - length seg)) by lia. erewrite raw_segment by done.
    apply here_app in H. rewrite <-app_comm_cons, <-app_assoc in H.
    destruct (raw_escape (fuel - length seg) start _ d _ _ _ H He) as (fuel' & Hf' & ->); [lia|].
    apply here_cons in H as [_ H]. apply here_app in H. erewrite IH; [|exact H|lia].
    do 2 (rewrite length_app; cbn [length]). do 3 f_equal; [f_equal; lia|lia].
Qed.

Lemma run_string_raw b s p d r : string_body b s → here p (quoted b ++ r) →
  string_raw input (Cursor p d) = Some (Ok b, Cursor (p + length (quoted b)) d).
Proof.
  intros Hb H. unfold quoted in *. rewrite <-app_comm_cons, <-app_assoc in H.
  pose proof (here_length _ _ _ H) as HL. cbn [length] in *. rewrite !length_app in *. cbn [length] in *.
  apply here_cons in H as [_ H]. unfold string_raw. erewrite run_bind; [|done]. erewrite run_bind; [|done].
  cbn [pos depth]. erewrite run_raw_loop; [|done|exact H|simpl; lia].
  rewrite (here_slice _ _ b) with (r := "034"%char :: r) by done. do 3 f_equal. lia.
Qed.

(** ** Numbers *)

Lemma run_skip_digits ds p d r : here p (ds ++ r) → all is_ascii_digit ds → stops is_ascii_digit r →
  skip_digits input (Cursor p d) = Some (Ok (0 <? length ds), Cursor (p + length ds) d).
Proof. intros [H _] Hds Hr. unfold skip_digits. cbn [pos depth]. by rewrite H, count_while_app. Qed.

Lemma run_at_class q p d b r : here p (b :: r) → at_class input q (Cursor p d) = Some (Ok (q b), Cursor p d).
Proof. intros [H _]%here_cons. unfold at_class, byte_is. simpl. by rewrite H. Qed.

(** A test of the next byte that the rest fails. *)
Lemma run_at_class_stops q p d r : here p r → stops q r → at_class input q (Cursor p d) = Some (Ok false, Cursor p d).
Proof.
  intros H Hr. unfold at_class, byte_is. cbn [pos]. destruct r as [|b r].
  - apply here_length in H. simpl in H. by rewrite lookup_ge_None_2 by lia.
  - apply here_cons in H as [-> _]. simpl in Hr. by rewrite Hr.
Qed.

(** The optional fraction and exponent of a number, before [k]. *)
Lemma run_fraction (k : bool → tok unit) p d f t : fraction_text f → here p (f ++ t) →
  stops (Ascii.eqb ".") t → stops is_ascii_digit t →
  (point ←p at_byte input ".";
   frac_digits ←p (if (point : bool) then advance 1 ;p; skip_digits input else pret true);
   k frac_digits) (Cursor p d) = k true (Cursor (p + length f) d).
Proof.
  intros Hf H Hdot Ht. destruct Hf as [->|(ds & -> & Hne & Hds)].
  - erewrite run_bind; [|eapply (run_at_class_stops (Ascii.eqb ".")); [exact H|done]]. erewrite run_bind; [|done].
    cbn [length]. by rewrite Nat.add_0_r.
  - rewrite <-app_comm_cons in H. erewrite run_bind; [|by eapply (run_at_class (Ascii.eqb "."))].
    cbn [Ascii.eqb Bool.eqb]. apply here_cons in H as [_ H]. unfold pbind at 1. erewrite run_bind; [|done].
    cbn [pos depth]. erewrite run_skip_digits by done. destruct ds as [|c ds]; [done|]. cbn [length Nat.ltb Nat.leb].
    f_equal. f_equal. lia.
Qed.

Lemma run_exponent (k : bool → tok unit) p d e t : exponent_text e → here p (e ++ t) → stops is_number_byte t →
  (x ←p at_class input (λ c, (c =b "e") || (c =b "E"));
   exp_digits ←p
     (if (x : bool) then
        advance 1 ;p;
        sign ←p at_class input (λ c, (c =b "+") || (c =b "-"));
        (if (sign : bool) then advance 1 else pret tt) ;p;
        skip_digits input
      else pret true);
   k exp_digits) (Cursor p d) = k true (Cursor (p + length e) d).
Proof.
  intros He H Ht. assert (Hd : stops is_ascii_digit t) by (revert Ht; destruct t as [|c t]; [done|]; simpl; by_bytes c).
  destruct He as [->|(c & sg & ds & -> & Hc & Hsg & Hne & Hds)].
  - erewrite run_bind; [|eapply run_at_class_stops; [exact H|]].
    2:{ revert Ht. destruct t as [|c t]; [done|]. simpl. clear. by_bytes c. }
    erewrite run_bind; [|done]. cbn [length]. by rewrite Nat.add_0_r.
  - rewrite <-app_comm_cons, <-app_assoc in H. erewrite run_bind; [|by eapply run_at_class].
    rewrite Hc. apply here_cons in H as [_ H]. unfold pbind at 1. erewrite run_bind; [|done]. cbn [pos depth].
    destruct ds as [|c' ds]; [done|]. destruct Hsg as [->|(s & -> & Hs)].
    + change (here (p + 1) ((c' :: ds) ++ t)) in H. erewrite run_bind; [|eapply run_at_class; exact H].
      assert ((c' =b "+") || (c' =b "-") = false) as ->.
      { apply Forall_cons in Hds as [Hx _]. revert Hx. clear. by_bytes c'. }
      erewrite run_bind; [|done]. erewrite run_skip_digits; [|exact H|done|done]. simpl. f_equal. f_equal. lia.
    + erewrite run_bind; [|eapply run_at_class; exact H]. rewrite Hs. erewrite run_bind; [|done].
      apply here_cons in H as [_ H]. cbn [pos depth]. erewrite run_skip_digits; [|exact H|done|done].
      simpl. f_equal. f_equal. lia.
Qed.

Lemma run_leading_zero i p t : integer_text i → here p (i ++ t) → stops is_ascii_digit t →
  byte_is input p (Ascii.eqb "0") && byte_is input (p + 1) is_ascii_digit = false.
Proof.
  intros [->|(c & ds & -> & Hc & _)] H Ht; apply here_cons in H as [E H]; unfold byte_is at 1; rewrite E.
  - cbn [Ascii.eqb Bool.eqb andb]. assert (H' : here (p + 1) t) by exact H.
    pose proof (run_at_class_stops is_ascii_digit _ 0 _ H' Ht) as Hx. by injection Hx.
  - assert (("0"%char =b c) = false) as Hz by (revert Hc; clear; by_bytes c). by rewrite Hz.
Qed.

Lemma number_tail_stops f e r : fraction_text f → exponent_text e → stops is_number_byte r →
  stops (Ascii.eqb ".") (e ++ r) ∧ stops is_ascii_digit (e ++ r) ∧ stops is_ascii_digit (f ++ e ++ r).
Proof.
  intros Hf He Hr. assert (Hx : stops (Ascii.eqb ".") (e ++ r) ∧ stops is_ascii_digit (e ++ r)).
  { destruct He as [->|(c & es & ds & -> & Hc & _)]; simpl.
    - destruct r as [|c r]; [done|]. simpl in *. revert Hr. clear. by_bytes c.
    - revert Hc. clear. by_bytes c. }
  destruct Hx as [? ?]. split_and!; try done. by destruct Hf as [->|(ds & -> & _)].
Qed.

Lemma run_skip_number x p d r : here p (x ++ r) → number_text x → stops is_number_byte r →
  skip_number input (Cursor p d) = Some (Ok tt, Cursor (p + length x) d).
Proof.
  intros H (sg & i & f & e & -> & Hsg & Hi & Hf & He) Hr.
  destruct (number_tail_stops f e r Hf He Hr) as (Hdot & Hed & Hfd).
  destruct (integer_digits _ Hi) as [Hne Hds]. rewrite <-!app_assoc in H.
  unfold skip_number. erewrite run_bind; [|done].
  assert (E : ∃ b, at_byte (E := TokenizerError) input "-" (Cursor p d) = Some (Ok b, Cursor p d) ∧
    (if b then advance (E := TokenizerError) 1 else pret tt) (Cursor p d) = Some (Ok tt, Cursor (p + length sg) d)).
  { destruct Hsg as [->| ->].
    - exists false. cbn [length]. rewrite Nat.add_0_r. split; [|done].
      apply (run_at_class_stops (Ascii.eqb "-")) with (r := i ++ f ++ e ++ r); [done|].
      destruct i as [|c i]; [done|]. apply Forall_cons in Hds as [Hc _]. simpl. revert Hc. clear. by_bytes c.
    - exists true. split; [|done]. by eapply (run_at_byte _ _ _ "-" "-"). }
  destruct E as (b & E1 & E2). erewrite run_bind by done. erewrite run_bind by done.
  apply here_app in H. erewrite run_bind by done. cbn [pos]. erewrite run_leading_zero by done.
  erewrite run_bind; [|by eapply run_skip_digits].
  assert (0 < length i) by (destruct i; [done|simpl; lia]). rewrite (proj2 (Nat.ltb_lt _ _)) by done.
  cbn [negb]. apply here_app in H. erewrite run_fraction by done. cbn [negb]. apply here_app in H.
  erewrite run_exponent by done. cbn [negb]. erewrite run_bind; [|done]. cbn [pos].
  rewrite (proj2 (Nat.eqb_neq _ _)) by lia. unfold pret. do 3 f_equal. rewrite !length_app. lia.
Qed.

(** ** Values *)

Definition skips (n : nat) (x : bytes) : Prop := ∀ fuel w p dep r,
  n + dep ≤ MAX_DEPTH → blank w → here p (w ++ x ++ r) → stops is_number_byte r →
  2 * (length input - p) + 2 ≤ fuel →
  skip_value input fuel (Cursor p dep) = Some (Ok x, Cursor (p + length w + length x) dep).

Definition skips_items (n : nat) (x : bytes) : Prop := ∀ fuel p dep r,
  n + dep ≤ MAX_DEPTH → here p (x ++ "]"%char :: r) → 2 * (length input - p) + 3 ≤ fuel →
  skip_array input fuel (Cursor p dep) = Some (Ok tt, Cursor (p + length x + 1) (dep - 1)).

Definition skips_members (n : nat) (x : bytes) : Prop := ∀ fuel p dep r,
  n + dep ≤ MAX_DEPTH → here p (x ++ "}"%char :: r) → 2 * (length input - p) + 3 ≤ fuel →
  skip_object input fuel (Cursor p dep) = Some (Ok tt, Cursor (p + length x + 1) (dep - 1)).

(** What [skip_value] runs once it is at the first byte [b] of a value. *)
Definition skip_at (fuel : nat) (b : ascii) : tok unit :=
  if b =b "n" then Tok.word input (as_bytes "null")
  else if b =b "t" then Tok.word input (as_bytes "true")
  else if b =b "f" then Tok.word input (as_bytes "false")
  else if b =b "034" then string_raw input ;p; pret tt
  else if b =b "[" then
    open_container ;p; ws input ;p;
    closed ←p at_byte input "]";
    if (closed : bool) then close_container else skip_array input fuel
  else if b =b "{" then
    open_container ;p; ws input ;p;
    closed ←p at_byte input "}";
    if (closed : bool) then close_container else skip_object input fuel
  else if (b =b "-") || is_ascii_digit b then skip_number input
  else pfail InvalidToken.

Lemma skips_intro n b y :
  value_head b = true →
  (∀ fuel p dep r, n + dep ≤ MAX_DEPTH → here p ((b :: y) ++ r) → stops is_number_byte r →
     2 * (length input - p) + 2 ≤ S fuel →
     skip_at fuel b (Cursor p dep) = Some (Ok tt, Cursor (p + length (b :: y)) dep)) →
  skips n (b :: y).
Proof.
  intros Hb Hx fuel w p dep r Hn Hw H Hr Hf. destruct fuel as [|fuel]; [lia|]. cbn [skip_value].
  destruct (value_head_facts _ Hb) as [Hbw _]. pose proof (here_length _ _ _ H) as HL. rewrite length_app in HL.
  erewrite run_bind; [|eapply run_ws; [exact H|done|done]]. apply here_app in H. erewrite run_bind; [|done].
  erewrite run_bind; [|eapply run_peek; exact H]. erewrite run_bind; [|done]. fold (skip_at fuel b).
  erewrite run_bind; [|apply (Hx _ _ _ r); [lia|done|done|lia]]. erewrite run_bind; [|done].
  unfold pret. cbn [pos]. by rewrite (here_slice _ _ (b :: y) r).
Qed.

Lemma run_open p d : d < MAX_DEPTH → open_container (Cursor p d) = Some (Ok tt, Cursor (p + 1) (d + 1)).
Proof. intros H. unfold open_container. cbn [pos depth]. by destruct (Nat.leb_spec MAX_DEPTH d) as [|_]; [lia|]. Qed.

Lemma skip_container (cl : ascii) (m : tok unit) op y p dep r :
  dep < MAX_DEPTH → is_ascii_whitespace cl = false → here p (op :: y ++ cl :: r) →
  (blank y ∨
   (∃ w b t, y = w ++ b :: t ∧ blank w ∧ is_ascii_whitespace b = false ∧ (cl =b b) = false ∧
     m (Cursor (p + 1 + length w) (dep + 1)) = Some (Ok tt, Cursor (p + 1 + length y + 1) dep))) →
  (open_container ;p; ws input ;p; closed ←p at_byte input cl;
    if (closed : bool) then close_container else m) (Cursor p dep) =
  Some (Ok tt, Cursor (p + 1 + length y + 1) dep).
Proof.
  intros Hdep Hcl H Hy. erewrite run_bind by by apply run_open. apply here_cons in H as [_ H].
  destruct Hy as [Hw|(w & b & t & -> & Hw & Hb & Hne & Hm)].
  - erewrite run_bind; [|eapply run_ws; [exact H|done|done]]. apply here_app in H.
    erewrite run_bind; [|by eapply run_at_byte]. rewrite Ascii.eqb_refl. unfold close_container.
    cbn [pos depth]. by rewrite Nat.add_sub.
  - rewrite <-app_assoc in H. erewrite run_bind; [|eapply run_ws; [exact H|done|done]]. apply here_app in H.
    erewrite run_bind; [|eapply run_at_byte; exact H]. by rewrite Hne, Hm.
Qed.

(** One round of the array loop, up to the comma or the bracket. *)
Lemma skip_item n w x w' t fuel p dep : blank w → blank w' → skips n x → n + dep ≤ MAX_DEPTH →
  here p (w ++ x ++ w' ++ t) → stops is_number_byte t → stops is_ascii_whitespace t →
  2 * (length input - p) + 3 ≤ S fuel →
  skip_array input (S fuel) (Cursor p dep) =
  (b ←p peek input;
   match b with
   | Some b =>
       if b =b "," then advance 1 ;p; skip_array input fuel
       else if b =b "]" then close_container
       else pfail InvalidToken
   | None => pfail InvalidToken
   end) (Cursor (p + length (w ++ x ++ w')) dep).
Proof.
  intros Hw Hw' Hx Hn H Ht Ht' Hf. cbn [skip_array].
  erewrite run_bind; [|eapply Hx; [exact Hn|exact Hw|exact H|by apply blank_stops|lia]].
  do 2 apply here_app in H. erewrite run_bind; [|eapply run_ws; [exact H|done|done]].
  f_equal. f_equal. rewrite !length_app. lia.
Qed.

Lemma skips_items_one n w x w' : blank w → blank w' → skips n x → skips_items n (w ++ x ++ w').
Proof.
  intros Hw Hw' Hx fuel p dep r Hn H Hf. rewrite <-!app_assoc in H. destruct fuel as [|fuel]; [lia|].
  erewrite (skip_item n w x w'); [|done..|exact H|done|done|lia]. do 3 apply here_app in H.
  rewrite <-!Nat.add_assoc, <-!length_app in H. erewrite run_bind; [|by eapply run_peek]. done.
Qed.

Lemma skips_items_cons n w x w' y : blank w → blank w' → skips n x → x ≠ [] → skips_items n y →
  skips_items n (w ++ x ++ w' ++ ","%char :: y).
Proof.
  intros Hw Hw' Hx Hne Hy fuel p dep r Hn H Hf. rewrite <-!app_assoc in H.
  pose proof (here_length _ _ _ H) as HL. rewrite !length_app in HL. cbn [length app] in HL.
  assert (0 < length x) by (destruct x; [done|simpl; lia]). destruct fuel as [|fuel]; [lia|].
  erewrite (skip_item n w x w'); [|done..|exact H|done|done|lia]. do 3 apply here_app in H.
  rewrite <-!Nat.add_assoc, <-!length_app in H. cbn [app] in H.
  erewrite run_bind; [|by eapply run_peek]. cbn [Ascii.eqb Bool.eqb]. erewrite run_bind; [|done]. cbn [pos depth].
  apply here_cons in H as [_ H]. rewrite !length_app in H. erewrite Hy; [|exact Hn| |].
  - do 3 f_equal. rewrite !length_app. cbn [length]. lia.
  - rewrite !length_app. exact H.
  - rewrite !length_app. lia.
Qed.

(** One member, up to the comma or the brace. *)
Lemma skip_member n w1 b s w2 w3 x w4 t fuel p dep :
  blank w1 → string_body b s → blank w2 → blank w3 → skips n x → blank w4 →
  n + dep ≤ MAX_DEPTH → here p (w1 ++ quoted b ++ w2 ++ ":"%char :: w3 ++ x ++ w4 ++ t) →
  stops is_number_byte t → stops is_ascii_whitespace t → 2 * (length input - p) + 3 ≤ S fuel →
  skip_object input (S fuel) (Cursor p dep) =
  (b ←p peek input;
   match b with
   | Some b =>
       if b =b "," then advance 1 ;p; skip_object input fuel
       else if b =b "}" then close_container
       else pfail InvalidToken
   | None => pfail InvalidToken
   end) (Cursor (p + length (w1 ++ quoted b ++ w2 ++ ":"%char :: w3 ++ x ++ w4)) dep).
Proof.
  intros Hw1 Hb Hw2 Hw3 Hx Hw4 Hn H Ht Ht' Hf. pose proof (here_length _ _ _ H) as HL.
  rewrite !length_app in HL. cbn [length] in HL. cbn [skip_object].
  erewrite run_bind; [|eapply run_ws; [exact H|done|reflexivity]]. apply here_app in H.
  erewrite run_bind; [|eapply (run_at_byte _ _ _ "034" "034"); exact H]. cbn [Ascii.eqb Bool.eqb negb].
  erewrite run_bind; [|by eapply run_string_raw]. apply here_app in H.
  erewrite run_bind; [|eapply run_ws; [exact H|done|reflexivity]]. apply here_app in H.
  erewrite run_bind; [|by eapply run_at_byte]. cbn [Ascii.eqb Bool.eqb negb]. erewrite run_bind; [|done].
  apply here_cons in H as [_ H]. cbn [pos depth].
  erewrite run_bind; [|eapply Hx; [exact Hn|exact Hw3|exact H|by apply blank_stops|lia]].
  do 2 apply here_app in H. erewrite run_bind; [|eapply run_ws; [exact H|done|done]].
  f_equal. f_equal. rewrite !length_app. cbn [length]. rewrite !length_app. lia.
Qed.

(** The text after a member, at its comma or brace. *)
Lemma here_member p w1 b w2 w3 x w4 t :
  here p (w1 ++ quoted b ++ w2 ++ ":"%char :: w3 ++ x ++ w4 ++ t) →
  here (p + length (w1 ++ quoted b ++ w2 ++ ":"%char :: w3 ++ x ++ w4)) t.
Proof.
  intros H. apply here_app. by repeat (rewrite <-app_assoc || rewrite <-app_comm_cons).
Qed.

Lemma skips_members_one n w1 b s w2 w3 x w4 :
  blank w1 → string_body b s → blank w2 → blank w3 → skips n x → blank w4 →
  skips_members n (w1 ++ quoted b ++ w2 ++ ":"%char :: w3 ++ x ++ w4).
Proof.
  intros Hw1 Hb Hw2 Hw3 Hx Hw4 fuel p dep r Hn H Hf. destruct fuel as [|fuel]; [lia|].
  repeat (rewrite <-app_assoc in H || rewrite <-app_comm_cons in H).
  erewrite (skip_member n w1 b s w2 w3 x w4); [|done..|exact H|done|done|done]. apply here_member in H.
  erewrite run_bind; [|by eapply run_peek]. done.
Qed.

Lemma skips_members_cons n w1 b s w2 w3 x w4 y :
  blank w1 → string_body b s → blank w2 → blank w3 → skips n x → blank w4 → skips_members n y →
  skips_members n (w1 ++ quoted b ++ w2 ++ ":"%char :: w3 ++ x ++ w4 ++ ","%char :: y).
Proof.
  intros Hw1 Hb Hw2 Hw3 Hx Hw4 Hy fuel p dep r Hn H Hf. destruct fuel as [|fuel]; [lia|].
  repeat (rewrite <-app_assoc in H || rewrite <-app_comm_cons in H).
  erewrite (skip_member n w1 b s w2 w3 x w4); [|done..|exact H|done|done|done].
  apply (here_member p w1 b w2 w3 x w4) in H. pose proof (here_length _ _ _ H) as HL. cbn [length] in HL.
  erewrite run_bind; [|by eapply run_peek]. cbn [Ascii.eqb Bool.eqb]. erewrite run_bind; [|done]. cbn [pos depth].
  apply here_cons in H as [_ H]. erewrite Hy; [|exact Hn|exact H|].
  - do 3 f_equal. rewrite !length_app. cbn [length]. rewrite !length_app. cbn [length]. lia.
  - unfold quoted in HL |- *. rewrite !length_app in *. cbn [length] in *. lia.
Qed.

Section grammar.
Context (format_finite : f64 → string).

Lemma array_loop_skip fuel w b t p dep : here p (w ++ b :: t) → blank w → is_ascii_whitespace b = false →
  skip_array input (S (S fuel)) (Cursor (p + length w) dep) = skip_array input (S (S fuel)) (Cursor p dep).
Proof.
  intros H Hw Hb. cbn [skip_array]. apply pbind_cong. symmetry.
  cbn [skip_value]. erewrite run_bind; [|eapply run_ws; [exact H|done|done]].
  apply here_app in H. symmetry. by erewrite run_bind; [|eapply run_no_ws; [exact H|done]].
Qed.

Lemma object_loop_skip fuel w b t p dep : here p (w ++ b :: t) → blank w → is_ascii_whitespace b = false →
  skip_object input (S fuel) (Cursor (p + length w) dep) = skip_object input (S fuel) (Cursor p dep).
Proof.
  intros H Hw Hb. cbn [skip_object]. symmetry. erewrite run_bind; [|eapply run_ws; [exact H|done|done]].
  apply here_app in H. symmetry. by erewrite run_bind; [|eapply run_no_ws; [exact H|done]].
Qed.

Lemma skips_array n y vs : blank y ∨ items format_finite false n y vs ∧ skips_items n y →
  skips (S n) ("["%char :: y ++ ["]"%char]).
Proof.
  intros Hcase. apply skips_intro; [done|]. intros fuel p dep r Hn H Hr Hf.
  rewrite length_bracket. rewrite <-app_comm_cons, <-app_assoc in H. unfold skip_at. cbn [Ascii.eqb Bool.eqb].
  pose proof (here_length _ _ _ H) as HL. cbn [length] in HL. rewrite length_app in HL.
  eapply skip_container; [lia|done|exact H|]. destruct Hcase as [Hy|[Hi Hp]]; [by left|right].
  destruct (items_head _ _ _ _ _ Hi) as (w & b & t & -> & Hw & Hb & _).
  destruct (value_head_facts _ Hb) as (Hb1 & Hb2 & _). exists w, b, t. split_and!; try done.
  apply here_cons in H as [_ H]. pose proof H as H'. rewrite <-app_assoc in H'.
  rewrite length_app in HL. cbn [length] in HL.
  destruct fuel as [|[|fuel]]; [lia..|]. etrans; [by eapply array_loop_skip|].
  erewrite Hp; [|lia|exact H|lia]. by rewrite Nat.add_sub.
Qed.

Lemma skips_object n y ms : blank y ∨ members format_finite false n y ms ∧ skips_members n y →
  skips (S n) ("{"%char :: y ++ ["}"%char]).
Proof.
  intros Hcase. apply skips_intro; [done|]. intros fuel p dep r Hn H Hr Hf.
  rewrite length_bracket. rewrite <-app_comm_cons, <-app_assoc in H. unfold skip_at. cbn [Ascii.eqb Bool.eqb].
  pose proof (here_length _ _ _ H) as HL. cbn [length] in HL. rewrite length_app in HL.
  eapply skip_container; [lia|done|exact H|]. destruct Hcase as [Hy|[Hi Hp]]; [by left|right].
  destruct (members_head _ _ _ _ _ Hi) as (w & t & -> & Hw). exists w, "034"%char, t. split_and!; try done.
  apply here_cons in H as [_ H]. pose proof H as H'. rewrite <-app_assoc in H'.
  rewrite length_app in HL. cbn [length] in HL.
  destruct fuel as [|fuel]; [lia|]. etrans; [by eapply object_loop_skip|].
  erewrite Hp; [|lia|exact H|lia]. by rewrite Nat.add_sub.
Qed.

Lemma skips_number n x : number_text x → skips n x.
Proof.
  intros Hx. destruct (number_first _ Hx) as (b & y & -> & Hb). apply skips_intro.
  { unfold value_head. by rewrite Hb, orb_true_r. }
  destruct (number_head_tests _ Hb) as (E1 & E2 & E3 & E4 & E5 & E6 & _).
  intros fuel p dep r _ H Hr _. unfold skip_at. rewrite E1, E2, E3, E4, E5, E6.
  unfold number_head in Hb. rewrite Hb. by eapply run_skip_number.
Qed.

Lemma skips_string n b s : string_body b s → skips n (quoted b).
Proof.
  intros Hb. apply skips_intro; [done|]. intros fuel p dep r _ H _ _. unfold skip_at. cbn [Ascii.eqb Bool.eqb].
  by erewrite run_bind; [|by eapply run_string_raw].
Qed.

Lemma skips_word n x : x = as_bytes "null" ∨ x = as_bytes "true" ∨ x = as_bytes "false" → skips n x.
Proof.
  intros [->|[->| ->]]; (apply skips_intro; [done|]); intros fuel p dep r _ H _ _;
    unfold skip_at; cbn [Ascii.eqb Bool.eqb]; by eapply tok_word.
Qed.

(** The tokenizer skips exactly the texts of the grammar. *)
Lemma json_skips :
  (∀ n x v, json format_finite false n x v → skips n x) ∧
  (∀ n x vs, items format_finite false n x vs → skips_items n x) ∧
  (∀ n x ms, members format_finite false n x ms → skips_members n x).
Proof.
  apply json_mutind; intros.
  - apply skips_word. auto.
  - apply skips_word. destruct b; auto.
  - by apply skips_number.
  - by eapply skips_string.
  - eapply (skips_array _ _ []). auto.
  - eapply skips_array. eauto.
  - eapply (skips_object _ _ []). auto.
  - eapply skips_object. eauto.
  - by apply skips_items_one.
  - apply skips_items_cons; try done. by edestruct json_head as (c & r & -> & _).
  - by eapply skips_members_one.
  - by eapply skips_members_cons.
Qed.

Lemma run_skip_value n x v w p dep r : json format_finite false n x v → n + dep ≤ MAX_DEPTH → blank w →
  here p (w ++ x ++ r) → stops is_number_byte r →
  skip_value input (skip_fuel input) (Cursor p dep) = Some (Ok x, Cursor (p + length w + length x) dep).
Proof. intros Hx Hn Hw H Hr. eapply (proj1 json_skips); try done. unfold skip_fuel. lia. Qed.
End grammar.
End scan.

(** ** Unescaping *)

Section unescape.
Context (input : bytes).
Abbreviation here := (here input).

Lemma tok_hex_rounds hs p d n r : here p (hs ++ r) → all is_ascii_hexdigit hs →
  Tok.hex_rounds input (length hs) n (Cursor p d) =
  Some (Ok (foldl (λ n h, N.lor (N.shiftl n 4 `mod` 65536) (default 0%N (to_digit_16 h))) n hs),
        Cursor (p + length hs) d).
Proof.
  intros H Hh. revert p n H. induction Hh as [|h hs Hx _ IH]; intros p n H; simpl.
  { unfold pret. by rewrite Nat.add_0_r. }
  unfold is_ascii_hexdigit in Hx. destruct (to_digit_16 h) as [x|] eqn:E; [|done].
  erewrite run_bind; [|by eapply run_peek]. simpl. unfold pret. erewrite run_bind; [|done]. simpl.
  erewrite run_bind; [|done]. rewrite E. simpl. erewrite run_bind; [|done]. simpl.
  apply here_cons in H as [_ H]. rewrite (IH _ _ H). by rewrite <-Nat.add_assoc.
Qed.

Lemma tok_hex4 hs p d n r : here p (hs ++ r) → hex4_text hs n →
  Tok.hex_rounds input 4 0 (Cursor p d) = Some (Ok n, Cursor (p + 4) d).
Proof. intros H (Hl & Hh & <-). rewrite <-Hl. by eapply tok_hex_rounds. Qed.

(** What unescaping reads after a backslash. *)
Definition unescaped_scalar : tok N :=
  esc ←p peek input;
  esc ←p ok_or esc UnexpectedEnd;
  advance 1 ;p;
  (if esc =b "u" then decode_unicode_escape input else ok_or (simple_escape esc) InvalidEscape).

Lemma run_unescape p d e n r : here p (e ++ r) → escape e n →
  unescaped_scalar (Cursor p d) = Some (Ok n, Cursor (p + length e) d).
Proof.
  intros H He. unfold unescaped_scalar.
  destruct He as [e n He|hs n Hhs Hn Hu|hs ls high low Hhs Hh Hls Hl]; cbn [app] in H;
    (erewrite run_bind; [|by eapply run_peek]); (erewrite run_bind; [|done]); (erewrite run_bind; [|done]);
    apply here_cons in H as [_ H]; cbn [pos depth].
  - by rewrite (simple_escape_not_u _ _ He), (He : simple_escape e = Some n).
  - cbn [Ascii.eqb Bool.eqb]. unfold decode_unicode_escape. erewrite run_bind; [|by eapply tok_hex4].
    fold (is_high n). rewrite Hn. erewrite run_bind; [|done]. rewrite Hu. unfold ok_or, pret.
    cbn [length]. destruct Hhs as [-> _]. do 3 f_equal. lia.
  - cbn [Ascii.eqb Bool.eqb]. unfold decode_unicode_escape. rewrite <-app_assoc in H.
    erewrite run_bind; [|by eapply tok_hex4]. fold (is_high high). rewrite Hh.
    replace (p + 1 + 4) with (p + 1 + length hs) by (destruct Hhs as [-> _]; done). apply here_app in H.
    unfold pbind at 1. erewrite run_bind; [|done]. cbn [pos depth].
    rewrite decide_True by exact (here_slice _ _ (as_bytes "\u") (ls ++ r) H).
    erewrite run_bind; [|done]. do 2 apply here_cons in H as [_ H].
    rewrite <-Nat.add_assoc in H. cbn [pos depth]. erewrite run_bind; [|by eapply tok_hex4].
    fold (is_low low). rewrite Hl. fold (surrogates high low). unfold pret. rewrite surrogates_scalar by done.
    unfold ok_or, pret. do 3 f_equal. cbn [length]. rewrite length_app. cbn [length]. destruct Hls as [-> _]. lia.
Qed.

Lemma unescape_branch {A} (k : N → tok A) c :
  (esc ←p peek input;
   esc ←p ok_or esc UnexpectedEnd;
   advance 1 ;p;
   n ←p (if esc =b "u" then decode_unicode_escape input else ok_or (simple_escape esc) InvalidEscape);
   k n) c = (n ←p unescaped_scalar; k n) c.
Proof.
  unfold unescaped_scalar, pbind, peek, advance. destruct (input !! pos c) as [b|]; [|done]. simpl.
  by repeat case_match.
Qed.

Lemma unescape_segment seg k out start p d r : here p (seg ++ r) → all scan_byte seg →
  unescape_loop input (length seg + k) out start (Cursor p d) =
  unescape_loop input k out start (Cursor (p + length seg) d).
Proof.
  intros H Hs. revert p H. induction Hs as [|b seg Hb _ IH]; intros p H; [by rewrite Nat.add_0_r|].
  cbn [length Nat.add unescape_loop]. destruct (scan_tests _ Hb) as (_ & E2 & _). cbn [app] in H.
  erewrite run_bind; [|by eapply run_peek]. cbn beta iota. rewrite E2.
  erewrite run_bind; [|done]. apply here_cons in H as [_ H]. cbn [pos depth].
  rewrite (IH _ H). by rewrite <-Nat.add_assoc.
Qed.

Lemma utf8_from seg : utf8 seg → from_utf8 seg = Some (of_bytes seg).
Proof. intros Hu%utf8_spec. unfold from_utf8. by rewrite Hu. Qed.

Lemma run_unescape_loop b s fuel out p d : string_body b s → here p b → length b < fuel →
  unescape_loop input fuel out p (Cursor p d) = Some (Ok (out ++ s), Cursor (p + length b) d).
Proof.
  intros Hb. revert fuel out p. induction Hb as [seg Hseg Hu|seg e n b s Hseg Hu He Hb IH]; intros fuel out p H Hf.
  - rewrite <-(app_nil_r seg) in H. replace fuel with (length seg + S (fuel - length seg - 1)) by lia.
    erewrite unescape_segment by done. pose proof (here_slice _ _ _ _ H) as Hs. pose proof (here_length _ _ _ H) as HL.
    rewrite app_nil_r in HL. cbn [unescape_loop]. erewrite run_bind; [|done]. cbn [pos].
    rewrite lookup_ge_None_2 by lia. destruct (Nat.ltb_spec p (length input)).
    + erewrite run_bind; [|done]. cbn [pos]. rewrite Hs, utf8_from by done. cbn [ok_or].
      erewrite run_bind; [|done]. by rewrite as_of_bytes.
    + assert (seg = []) as -> by (destruct seg; [done|simpl in *; lia]). by rewrite app_nil_r.
  - rewrite length_app in Hf. cbn [length] in Hf. rewrite length_app in Hf.
    replace fuel with (length seg + S (fuel - length seg - 1)) by lia.
    erewrite unescape_segment by done. pose proof (here_slice _ _ _ _ H) as Hs. apply here_app in H.
    cbn [unescape_loop]. erewrite run_bind; [|by eapply run_peek]. cbn [Ascii.eqb Bool.eqb].
    erewrite run_bind; [|done]. cbn [pos]. rewrite Hs, utf8_from by done. cbn [ok_or].
    erewrite run_bind; [|done]. erewrite run_bind; [|done]. rewrite unescape_branch. apply here_cons in H as [_ H].
    cbn [pos depth]. erewrite run_bind; [|by eapply run_unescape]. erewrite run_bind; [|done]. cbn [pos].
    apply here_app in H. rewrite as_of_bytes, IH by (done || lia).
    rewrite <-!app_assoc. do 3 f_equal. rewrite length_app. cbn [length]. rewrite length_app. lia.
Qed.
End unescape.

Lemma unescape_body b s : string_body b s → unescape_raw_string b = Some (Ok (of_bytes s)).
Proof.
  intros Hb. unfold unescape_raw_string.
  assert (H : here b 0 b) by (split; [apply drop_0|lia]).
  by rewrite (run_unescape_loop b b s) by (done || lia).
Qed.

(** A string without a backslash stands for itself. *)
Lemma plain_body b s : string_body b s → contains_backslash b = false → s = b ∧ all scan_byte b ∧ utf8 b.
Proof.
  destruct 1; [done|]. unfold contains_backslash.
  rewrite existsb_app. by intros [_ ?]%orb_false_iff.
Qed.

Lemma run_member_key b s c : string_body b s → member_key b c = Some (Ok (of_bytes s), c).
Proof.
  intros Hb. unfold member_key. destruct (contains_backslash b) eqn:Hbs; [by rewrite (unescape_body b s)|].
  destruct (plain_body _ _ Hb Hbs) as (-> & _ & Hu). by rewrite utf8_from.
Qed.
