(* ===== verification/JsonCanonical.v ===== *)
(** * Canonical JSON written from raw text

    The raw writer cuts a document into spans, sorts the members of objects and
    writes the spans again without ever building a value.  On every document
    of the grammar it writes what parsing the document and writing the value
    would, and in strict mode it refuses a document exactly when a number that
    would be written is not a canonical integer. *)
From stdpp Require Import prelude strings sorting.
From Stdlib Require String.
From Stdlib Require Import Ascii.
From S2P Require Import Prelude Json JsonText JsonTextProps JsonNumber JsonWriter JsonParser JsonParserProps JsonGrammar JsonComplete JsonSpec JsonTokenizer JsonTokenProps.
Import Tok.

Local Open Scope nat_scope.

(** ** The numbers of a value *)

(** Every number of a value is a canonical integer. *)
Fixpoint numbers_canonical (v : value) : bool :=
  match v with
  | Number n => is_canonical_integer_str n
  | Array l => forallb numbers_canonical l
  | Object o =>
      (fix go (o : object) : bool :=
         match o with [] => true | (_, v) :: o => numbers_canonical v && go o end) o
  | _ => true
  end.

Lemma numbers_canonical_Object o : numbers_canonical (Object o) = forallb (λ kv, numbers_canonical kv.2) o.
Proof. simpl. induction o as [|[k v] o IH]; simpl; congruence. Qed.

Lemma float_not_canonical s : s = "-0"%string ∨ existsb is_float_byte (as_bytes s) = true →
  is_canonical_integer_str s = false.
Proof.
  intros [->|H]; [done|]. unfold is_canonical_integer_str. by rewrite H, orb_true_r.
Qed.

Lemma canonical_parse fmt `{!RyuFormat fmt} s : valid_number (as_bytes s) = true →
  is_canonical_integer_str (Number_parse fmt s) = is_canonical_integer_str s ∧
  (is_canonical_integer_str s = true → Number_parse fmt s = s).
Proof.
  intros Hv. destruct (Number_parse_cases fmt s Hv) as [(-> & _)|[H1 H2]]; [done|].
  rewrite !float_not_canonical by auto. done.
Qed.

Section exclude.
Context (exclude : string → bool).

(** What the filter leaves of the members of an object. *)
Definition kept (o : object) : object :=
  map (λ kv, (kv.1, prune exclude kv.2)) (filter (λ kv, exclude kv.1 = false) o).

Lemma prune_Object o : prune exclude (Object o) = Object (kept o).
Proof.
  unfold kept. simpl. f_equal. induction o as [|[k v] o IH]; [done|]. rewrite filter_cons. simpl.
  destruct (exclude k) eqn:E; [rewrite decide_False by congruence; done|].
  rewrite decide_True by done. simpl. by rewrite IH.
Qed.
End exclude.

Lemma text_compact_depth v d : text compact v d = text compact v 0.
Proof. apply (app_inv_head []). by rewrite <-!write_value_spec. Qed.

(** ** Sorting the members and keeping the last of equal keys *)

Section runs.
Context {A : Type}.
Implicit Types l : list (string * A).

(** The last entry of every run of equal keys. *)
Fixpoint last_of_runs l : list (string * A) :=
  match l with
  | [] => []
  | e :: rest =>
      if match rest with next :: _ => next.1 ==s e.1 | [] => false end
      then last_of_runs rest else e :: last_of_runs rest
  end.

Abbreviation key_le := (cmp_le (cmp_on (fst (B := A)) String.compare)).

Lemma last_of_runs_elem l e : e ∈ last_of_runs l → e ∈ l.
Proof.
  induction l as [|x l IH]; cbn [last_of_runs]; [done|]. case_match; [|rewrite !elem_of_cons; naive_solver].
  intros. right. auto.
Qed.

Lemma last_of_runs_sorted l : StronglySorted key_le l →
  StronglySorted (λ x y : string * A, String.compare x.1 y.1 = Lt) (last_of_runs l).
Proof.
  induction 1 as [|x l Hs IH Hall]; cbn [last_of_runs]; [constructor|].
  destruct (match l with next :: _ => next.1 ==s x.1 | [] => false end) eqn:E; [done|].
  constructor; [done|]. apply Forall_forall. intros y Hy%last_of_runs_elem.
  destruct l as [|z l]; [by apply elem_of_nil in Hy|].
  assert (Hz : String.compare x.1 z.1 = Lt).
  { apply Forall_cons in Hall as [Hz _]. unfold cmp_le, cmp_on in Hz.
    destruct (String.compare x.1 z.1) eqn:Ec; try done. apply (cmp_eq String.compare) in Ec.
    rewrite Ec in E. by rewrite String.eqb_refl in E. }
  apply elem_of_cons in Hy as [->|Hy]; [done|]. apply StronglySorted_inv in Hs as [_ Hs].
  rewrite Forall_forall in Hs. specialize (Hs _ Hy). unfold cmp_le, cmp_on in Hs.
  destruct (String.compare z.1 y.1) eqn:Ec; [|by eapply (cmp_lt_trans String.compare)|done].
  apply (cmp_eq String.compare) in Ec. congruence.
Qed.

(** The values stored under a key, in order. *)
Definition under (k : string) l : list A := (filter (λ x, String.compare x.1 k = Eq) l).*2.

Lemma under_cons k k' a l : under k ((k', a) :: l) = if String.eqb k k' then a :: under k l else under k l.
Proof.
  unfold under. rewrite filter_cons. simpl. destruct (String.eqb_spec k k') as [->|Hne].
  - by rewrite decide_True by apply (cmp_refl String.compare).
  - rewrite decide_False; [done|]. intros E%(cmp_eq String.compare). congruence.
Qed.

Lemma under_gt k l : Forall (λ x, String.compare k x.1 = Lt) l → under k l = [].
Proof.
  induction 1 as [|[k' a] l Hx _ IH]; [done|]. rewrite under_cons, IH.
  destruct (String.eqb_spec k k') as [->|]; [|done]. by rewrite (cmp_refl String.compare) in Hx.
Qed.
End runs.

Lemma get_last_of_runs (l : object) k :
  StronglySorted (cmp_le (cmp_on fst String.compare)) l → obj_get (last_of_runs l) k = last (under k l).
Proof.
  induction 1 as [|[k' v] l Hs IH Hall]; [done|]. rewrite under_cons. cbn [last_of_runs].
  destruct l as [|[z w] l].
  { simpl. by destruct (String.eqb_spec k k'). }
  cbn [fst]. destruct (String.eqb_spec z k') as [->|Hne].
  - rewrite IH, under_cons. destruct (String.eqb k k'); [|done]. by rewrite last_cons_cons.
  - cbn [obj_get]. rewrite IH. destruct (String.eqb_spec k k') as [->|]; [|done].
    rewrite (under_gt k'); [done|].
    assert (Hz : String.compare k' z = Lt).
    { apply Forall_cons in Hall as [Hz _]. unfold cmp_le, cmp_on in Hz. simpl in Hz.
      destruct (String.compare k' z) eqn:Ec; try done. by apply (cmp_eq String.compare) in Ec. }
    constructor; [done|]. apply StronglySorted_inv in Hs as [_ Hs]. eapply Forall_impl; [exact Hs|].
    intros y. unfold cmp_le, cmp_on. simpl. destruct (String.compare z y.1) eqn:Ec; [|by intros _; eapply (cmp_lt_trans String.compare)|done].
    apply (cmp_eq String.compare) in Ec. congruence.
Qed.

Lemma get_object_of ms k : obj_get (object_of ms) k = last (under k ms).
Proof.
  unfold object_of. assert (H : ∀ acc, obj_get (foldl (λ o kv, obj_insert kv.1 kv.2 o) acc ms) k =
    match last (under k ms) with Some v => Some v | None => obj_get acc k end).
  { induction ms as [|[k' v] ms IH]; intros acc; [done|]. cbn [foldl fst snd]. rewrite IH, under_cons.
    destruct (String.eqb_spec k k') as [->|Hne].
    - rewrite last_cons. case_match; [done|]. by rewrite obj_get_insert_eq.
    - case_match; [done|]. by rewrite obj_get_insert_ne. }
  rewrite H. by case_match.
Qed.

Lemma object_of_obj_sorted ms : obj_sorted (object_of ms).
Proof.
  unfold object_of. assert (H : ∀ acc, obj_sorted acc → obj_sorted (foldl (λ o kv, obj_insert kv.1 kv.2 o) acc ms)).
  { induction ms as [|kv ms IH]; intros acc Hs; [done|]. by apply IH, obj_insert_sorted. }
  apply H. constructor.
Qed.

(** Sorting stably and keeping the last of equal keys is inserting in order. *)
Lemma sorted_runs ms : last_of_runs (sort_by (cmp_on fst String.compare) ms) = object_of ms.
Proof.
  pose proof (sort_by_sorted fst String.compare ms) as Hs.
  apply obj_ext; [by apply last_of_runs_sorted|apply object_of_obj_sorted|]. intros k.
  rewrite get_last_of_runs, get_object_of by done. unfold under.
  by rewrite (sort_stable fst String.compare).
Qed.

(** ** What the writer emits *)

Section emission.
Context (fmt : f64 → string) `{!RyuFormat fmt} (exclude : string → bool) (strict : bool).
Abbreviation emitted := (option (result bytes Error)).
Abbreviation pruned := (prune exclude).

(** Writing [v] after [out], or the refusal of one of its numbers. *)
Definition emission (out : bytes) (v : value) : emitted :=
  if strict && negb (numbers_canonical (pruned v)) then Some (Err JsonParser.InvalidNumber)
  else Some (Ok (out ++ text compact (pruned v) 0)).

(** The same for the labelled parts of a container, and then [k]. *)
Definition emission_list (first : bool) (out : bytes) (l : list (bytes * value)) (k : bytes → emitted) : emitted :=
  if strict && negb (forallb (λ p, numbers_canonical (pruned p.2)) l) then Some (Err JsonParser.InvalidNumber)
  else k (out ++ join (if first then [] else [","%char]) [","%char] (map (λ p, p.1 ++ text compact (pruned p.2) 0) l)).

Lemma emission_nil first out k : emission_list first out [] k = k out.
Proof. unfold emission_list. simpl. by rewrite andb_false_r, app_nil_r. Qed.

Lemma emission_cons first out lbl v l k :
  emission_list first out ((lbl, v) :: l) k =
  out_bind (emission ((if first then out else push_str out ",") ++ lbl) v) (λ out, emission_list false out l k).
Proof.
  unfold emission_list, emission. cbn [forallb map join fst snd].
  destruct strict, (numbers_canonical (pruned v)); cbn [andb negb]; try done; cbn [out_bind]; case_match; try done;
    f_equal; unfold push_str; destruct first; cbn [app]; by rewrite <-!app_assoc.
Qed.

Lemma emission_ext first out l k k' : (∀ out, k out = k' out) → emission_list first out l k = emission_list first out l k'.
Proof. intros H. unfold emission_list. by destruct (_ && _). Qed.

Lemma out_bind_list first out l k : out_bind (emission_list first out l (λ out, Some (Ok out))) k = emission_list first out l k.
Proof. unfold emission_list. by destruct (_ && _). Qed.

Lemma emission_Array out vs : emission out (Array vs) =
  emission_list true (push_str out "[") (map ([],.) vs) (λ out, Some (Ok (push_str out "]"))).
Proof.
  unfold emission, emission_list. cbn [prune numbers_canonical text].
  assert (forallb (λ p : bytes * value, numbers_canonical (pruned p.2)) (map ([],.) vs) =
    forallb numbers_canonical (map pruned vs)) as -> by (induction vs; simpl; congruence).
  case_match; [done|]. do 2 f_equal. unfold push_str. rewrite <-!app_assoc. rewrite enclose_compact. cbn [app].
  do 2 f_equal. f_equal. rewrite !map_map. f_equal. apply map_ext. intros v. apply text_compact_depth.
Qed.

Definition label (kv : string * value) : bytes * value := (string_text kv.1 ++ [":"%char], kv.2).

Lemma push_key out k : push_str (write_string_into out k) ":" = out ++ string_text k ++ [":"%char].
Proof. unfold push_str. by rewrite write_string_spec, <-app_assoc. Qed.

Lemma emission_Object out o : emission out (Object o) =
  emission_list true (push_str out "{") (map label (filter (λ kv, exclude kv.1 = false) o))
    (λ out, Some (Ok (push_str out "}"))).
Proof.
  unfold emission, emission_list. rewrite prune_Object, numbers_canonical_Object. unfold kept. cbn [text].
  generalize (filter (λ kv : string * value, exclude kv.1 = false) o). clear o. intros o.
  assert (forallb (λ p, numbers_canonical (pruned p.2)) (map label o) =
    forallb (λ kv : string * value, numbers_canonical kv.2) (map (λ kv, (kv.1, pruned kv.2)) o)) as ->
    by (induction o as [|[] ?]; simpl; congruence).
  case_match; [done|]. do 2 f_equal. unfold push_str. rewrite <-!app_assoc. rewrite enclose_compact. cbn [app].
  do 2 f_equal. f_equal. rewrite !map_map. f_equal. apply map_ext. intros [k v]. cbn [label fst snd lay_colon compact].
  by rewrite <-!app_assoc, (text_compact_depth _ (0 + 1)).
Qed.

(** ** Single steps of the writer *)

Lemma out_bind_ext m k k' : (∀ out, k out = k' out) → out_bind m k = out_bind m k'.
Proof. intros H. unfold out_bind. destruct m as [[]|]; auto. Qed.

Lemma run_tok_ok {A} (m : tok A) c e k a c' : m c = Some (Ok a, c') → run_tok m c e k = k a c'.
Proof. unfold run_tok. by intros ->. Qed.

Lemma run_finished raw p d w k : here raw p w → blank w → finished raw (Cursor p d) k = k.
Proof.
  intros H Hw. rewrite <-(app_nil_r w) in H. unfold finished. erewrite run_tok_ok; [|].
  2:{ unfold finish. erewrite run_bind; [|eapply run_ws; [exact H|done|done]]. erewrite run_bind; [|done].
      unfold pret. cbn [pos]. apply here_app, here_length in H. simpl in H. rewrite Nat.add_0_r in H. rewrite H.
      by rewrite Nat.eqb_refl. }
  done.
Qed.

(** [x] is emitted as [v] at nesting [n], between whitespace. *)
Definition emits (n : nat) (x : bytes) (v : value) : Prop := n ≤ MAX_DEPTH → ∀ fuel out w w',
  blank w → blank w' → length (w ++ x ++ w') < fuel →
  emit_raw fmt exclude strict fuel out (w ++ x ++ w') = emission out v.

(** What [emit_raw] runs once it is at the first byte [b] of a value. *)
Definition emit_at (fuel : nat) (b : ascii) (raw : bytes) (c : cursor) (out : bytes) : emitted :=
  if b =b "{" then emit_object exclude (emit_raw fmt exclude strict fuel) raw c out
  else if b =b "[" then emit_array (emit_raw fmt exclude strict fuel) raw c out
  else if b =b "034" then emit_string raw c out
  else if b =b "n" then emit_literal raw c out (as_bytes "null")
  else if b =b "t" then emit_literal raw c out (as_bytes "true")
  else if b =b "f" then emit_literal raw c out (as_bytes "false")
  else if (b =b "-") || is_ascii_digit b then emit_number fmt strict raw c out
  else Some (Err JsonParser.InvalidToken).

Lemma emits_intro n b y v : value_head b = true →
  (n ≤ MAX_DEPTH → ∀ fuel out raw p w', here raw p ((b :: y) ++ w') → blank w' → length (b :: y) ≤ fuel →
     emit_at fuel b raw (Cursor p 0) out = emission out v) →
  emits n (b :: y) v.
Proof.
  intros Hb Hx Hn fuel out w w' Hw Hw' Hf. destruct fuel as [|fuel]; [lia|]. cbn [emit_raw].
  destruct (value_head_facts _ Hb) as [Hbw _].
  assert (H : here (w ++ (b :: y) ++ w') 0 (w ++ (b :: y) ++ w')) by (split; [apply drop_0|lia]).
  erewrite run_tok_ok; [|eapply run_ws; [exact H|done|done]]. apply here_app in H. cbn [pos].
  destruct (here_cons _ _ _ _ H) as [-> _]. fold (emit_at fuel b (w ++ (b :: y) ++ w') (Cursor (0 + length w) 0) out).
  apply (Hx Hn) with (w' := w'); [done|done|]. rewrite !length_app in Hf. lia.
Qed.

Lemma emits_word n x v : (x = as_bytes "null" ∧ v = Null) ∨ (x = as_bytes "true" ∧ v = Bool true) ∨
  (x = as_bytes "false" ∧ v = Bool false) → emits n x v.
Proof.
  intros [[-> ->]|[[-> ->]|[-> ->]]]; (apply emits_intro; [done|]);
    intros _ fuel out raw p w' H Hw' _; unfold emit_at, emit_literal; cbn [Ascii.eqb Bool.eqb];
    (erewrite run_tok_ok; [|eapply tok_word; exact H]); apply here_app in H; erewrite run_finished by done;
    unfold emission; cbn [prune numbers_canonical negb]; by rewrite andb_false_r.
Qed.

Lemma emits_string n b s : string_body b s → emits n (quoted b) (VString (of_bytes s)).
Proof.
  intros Hb. apply emits_intro; [done|]. intros _ fuel out raw p w' H Hw' _. unfold emit_at, emit_string.
  cbn [Ascii.eqb Bool.eqb]. erewrite run_tok_ok; [|by eapply run_string_raw]. apply here_app in H.
  erewrite run_finished by done. unfold emission. cbn [prune numbers_canonical negb text]. rewrite andb_false_r.
  destruct (contains_backslash b) eqn:Hbs; [by rewrite (unescape_body b s), write_string_spec|].
  destruct (plain_body _ _ Hb Hbs) as (-> & Hall & Hu). rewrite utf8_from by done. do 2 f_equal.
  rewrite <-app_assoc. f_equal. unfold string_text. rewrite as_of_bytes. cbn [app]. do 2 f_equal.
  clear - Hall. induction Hall as [|c b Hc _ IH]; [done|]. rewrite bind_cons, <-IH.
  unfold escape_byte. by rewrite <-scan_plain, Hc.
Qed.

Lemma emits_number n x : number_text x → emits n x (Number (Number_parse fmt (of_bytes x))).
Proof.
  intros Hx. destruct (number_first _ Hx) as (b & y & E & Hb). rewrite E. apply emits_intro.
  { unfold value_head. by rewrite Hb, orb_true_r. }
  rewrite <-E. destruct (number_head_tests _ Hb) as (E1 & E2 & E3 & E4 & E5 & E6 & _).
  intros _ fuel out raw p w' H Hw' _. unfold emit_at. rewrite E1, E2, E3, E4, E5, E6.
  unfold number_head in Hb. rewrite Hb. unfold emit_number.
  erewrite run_tok_ok; [|eapply run_skip_number; [exact H|done|]].
  2:{ rewrite <-(app_nil_r w'). by apply blank_stops. }
  cbn [pos]. rewrite (here_slice _ _ _ _ H). apply here_app in H. erewrite run_finished by done.
  rewrite utf8_from by by apply number_utf8. unfold emission. cbn [prune numbers_canonical text].
  destruct (canonical_parse fmt (of_bytes x)) as [-> Hc].
  { rewrite as_of_bytes. by apply valid_number_spec. }
  destruct strict; cbn [andb]; [|done]. destruct (is_canonical_integer_str (of_bytes x)); [|done].
  by rewrite Hc.
Qed.

(** ** Arrays *)

(** The cursor is at the first byte after the whitespace in front of [x]. *)
Definition emits_items (n : nat) (x : bytes) (vs : list value) : Prop := n ≤ MAX_DEPTH →
  ∀ fuel fl raw p r first out k,
  here raw p (x ++ "]"%char :: r) → length x < fuel → length x < fl →
  emit_items (emit_raw fmt exclude strict fuel) fl raw (Cursor (p + count_while is_ascii_whitespace x) 0) first out k =
  emission_list first out (map ([],.) vs) (k (Cursor (p + length x) 0)).

(** One round of the loop, up to the comma or the bracket. *)
Lemma emit_item n w x w' v t fuel fl raw p first out k :
  blank w → blank w' → json fmt false n x v → emits n x v → n ≤ MAX_DEPTH →
  here raw p (w ++ x ++ w' ++ t) → stops is_number_byte t → stops is_ascii_whitespace t → length x < fuel →
  emit_items (emit_raw fmt exclude strict fuel) (S fl) raw (Cursor (p + length w) 0) first out k =
  out_bind (emission (if first then out else push_str out ",") v) (λ out,
    let c := Cursor (p + length (w ++ x ++ w')) 0 in
    if byte_is raw (pos c) (Ascii.eqb ",") then
      run_tok (advance 1 ;p; ws raw) c JsonParser.InvalidToken (λ _ c,
        if byte_is raw (pos c) (Ascii.eqb "]") then Some (Err JsonParser.InvalidToken)
        else emit_items (emit_raw fmt exclude strict fuel) fl raw c false out k)
    else k c out).
Proof.
  intros Hw Hw' Hx He Hn H Ht Ht' Hf. apply here_app in H. cbn [emit_items pos].
  destruct (json_head _ _ _ _ _ Hx) as (b & y & E & Hb). destruct (value_head_facts _ Hb) as (_ & Hb' & _).
  assert (byte_is raw (p + length w) (Ascii.eqb "]") = false) as ->.
  { rewrite E in H. unfold byte_is. by destruct (here_cons _ _ _ _ H) as [-> _]. }
  erewrite run_tok_ok; [|eapply (run_skip_value raw fmt n x v []); [done|lia|done|exact H|by apply blank_stops]].
  cbn [pos]. replace (p + length w + length (@nil ascii) + length x) with (p + length w + length x) by (simpl; lia).
  rewrite (here_slice _ _ _ _ H). pose proof (λ out, He Hn fuel out [] []) as He'.
  rewrite app_nil_l, app_nil_r in He'. rewrite He' by done. apply here_app in H.
  replace (p + length (w ++ x ++ w')) with (p + length w + length x + length w') by (rewrite !length_app; lia).
  apply out_bind_ext. intros o. erewrite run_tok_ok; [|by eapply run_ws]. done.
Qed.

Lemma emits_items_one n w x w' v : blank w → blank w' → json fmt false n x v → emits n x v →
  emits_items n (w ++ x ++ w') [v].
Proof.
  intros Hw Hw' Hx He Hn fuel fl raw p r first out k H Hf Hfl. rewrite <-!app_assoc in H.
  destruct (json_head _ _ _ _ _ Hx) as (b & y & E & Hb). destruct (value_head_facts _ Hb) as (Hb1 & _).
  rewrite count_while_app; [|done|by rewrite E]. destruct fl as [|fl]; [lia|]. rewrite !length_app in Hf.
  rewrite (emit_item n w x w' v ("]"%char :: r)) by (done || lia). cbn [map]. rewrite emission_cons, app_nil_r.
  apply out_bind_ext. intros o. rewrite emission_nil. cbv zeta. cbn [pos].
  do 3 apply here_app in H. rewrite <-!Nat.add_assoc, <-!length_app in H. unfold byte_is.
  by destruct (here_cons _ _ _ _ H) as [-> _].
Qed.

Lemma emits_items_cons n w x w' v y vs : blank w → blank w' → json fmt false n x v → emits n x v →
  items fmt false n y vs → emits_items n y vs →
  emits_items n (w ++ x ++ w' ++ ","%char :: y) (v :: vs).
Proof.
  intros Hw Hw' Hx He Hi Hy Hn fuel fl raw p r first out k H Hf Hfl. rewrite <-!app_assoc in H.
  destruct (json_head _ _ _ _ _ Hx) as (b & z & E & Hb). destruct (value_head_facts _ Hb) as (Hb1 & _).
  rewrite count_while_app; [|done|by rewrite E]. destruct fl as [|fl]; [lia|].
  rewrite !length_app in Hf, Hfl. cbn [length] in Hf, Hfl. cbn [app] in H.
  rewrite (emit_item n w x w' v (","%char :: y ++ "]"%char :: r)) by (done || lia).
  cbn [map]. rewrite emission_cons, app_nil_r.
  apply out_bind_ext. intros o. cbv zeta. cbn [pos].
  do 3 apply here_app in H. rewrite <-!Nat.add_assoc, <-!length_app in H. unfold byte_is at 1.
  destruct (here_cons _ _ _ _ H) as [-> H']. cbn [Ascii.eqb Bool.eqb].
  destruct (items_head _ _ _ _ _ Hi) as (w2 & c & t & -> & Hw2 & Hc & _).
  destruct (value_head_facts _ Hc) as (Hc1 & Hc2 & _). pose proof H' as Hws. rewrite <-app_assoc in Hws.
  erewrite run_tok_ok; [|erewrite run_bind; [|done]; eapply run_ws; [exact Hws|done|done]]. cbn [pos].
  apply here_app in Hws. unfold byte_is. destruct (here_cons _ _ _ _ Hws) as [-> _]. rewrite Hc2.
  cbn [depth]. specialize (Hy Hn fuel fl raw _ r false o k H'). rewrite (count_while_app _ w2 (c :: t)) in Hy by done.
  rewrite Hy by lia. f_equal. f_equal. f_equal. rewrite !length_app. cbn [length]. rewrite !length_app. cbn [length]. lia.
Qed.

(** What follows the loop, at the bracket. *)
Definition array_end (raw : bytes) (c : cursor) (out : bytes) : emitted :=
  if negb (byte_is raw (pos c) (Ascii.eqb "]")) then Some (Err JsonParser.InvalidToken)
  else run_tok (advance 1) c JsonParser.InvalidToken (λ _ c, finished raw c (Some (Ok (push_str out "]")))).

Lemma emit_array_eq emit raw c out : emit_array emit raw c out =
  run_tok (advance 1 ;p; ws raw) c JsonParser.InvalidToken (λ _ c,
    emit_items emit (S (length raw)) raw c true (push_str out "[") (array_end raw)).
Proof. done. Qed.

Lemma array_end_ok raw p w d out : here raw p ("]"%char :: w) → blank w →
  array_end raw (Cursor p d) out = Some (Ok (push_str out "]")).
Proof.
  intros H Hw. unfold array_end, byte_is. cbn [pos]. destruct (here_cons _ _ _ _ H) as [-> H'].
  cbn [Ascii.eqb Bool.eqb negb]. erewrite run_tok_ok; [|done]. cbn [pos depth]. by erewrite run_finished.
Qed.

Lemma emits_array n y vs : blank y ∧ vs = [] ∨ items fmt false n y vs ∧ emits_items n y vs →
  emits (S n) ("["%char :: y ++ ["]"%char]) (Array vs).
Proof.
  intros Hcase. apply emits_intro; [done|]. intros Hn fuel out raw p w' H Hw' Hf. unfold emit_at. cbn [Ascii.eqb Bool.eqb].
  pose proof (here_length _ _ _ H) as HL. rewrite length_app in HL. cbn [length] in HL, Hf. rewrite length_app in HL, Hf.
  cbn [length] in HL, Hf. rewrite <-app_comm_cons, <-app_assoc in H. apply here_cons in H as [_ H].
  pose proof H as Hend. apply here_app in Hend. cbn [app] in Hend.
  rewrite emit_array_eq, emission_Array. destruct Hcase as [[Hy ->]|[Hi Hp]].
  - erewrite run_tok_ok; [|erewrite run_bind; [|done]; eapply run_ws; [exact H|done|done]].
    cbn [emit_items pos map]. rewrite emission_nil. unfold byte_is at 1.
    destruct (here_cons _ _ _ _ Hend) as [-> _]. cbn [Ascii.eqb Bool.eqb]. by eapply array_end_ok.
  - destruct (items_head _ _ _ _ _ Hi) as (w & b & t & -> & Hw & Hb & _).
    destruct (value_head_facts _ Hb) as (Hb1 & _). pose proof H as H'. rewrite <-app_assoc in H'.
    erewrite run_tok_ok; [|erewrite run_bind; [|done]; eapply run_ws; [exact H'|done|done]]. cbn [pos depth].
    pose proof (Hp ltac:(lia) fuel (S (length raw)) raw (p + 1) w' true (push_str out "[") (array_end raw) H) as E.
    rewrite (count_while_app _ w (b :: t)) in E by done. rewrite E by lia.
    apply emission_ext. intros o. by eapply array_end_ok.
Qed.

(** ** Objects *)

Definition entry (q : MemberSpan * value) : string * value := (key q.1, q.2).

(** A span of at most [bound] bytes that is emitted as its value. *)
Definition span_ok (n bound : nat) (q : MemberSpan * value) : Prop :=
  emits n (raw_value q.1) q.2 ∧ length (raw_value q.1) ≤ bound.

Definition spans (n : nat) (x : bytes) (ms : list (string * value)) : Prop := n ≤ MAX_DEPTH →
  ∀ fl raw acc p r, here raw p (x ++ "}"%char :: r) → length x < fl →
  ∃ L, map entry L = ms ∧ Forall (span_ok n (length x)) L ∧
    members_loop raw fl acc (Cursor p 0) = Some (Ok (acc ++ L.*1), Cursor (p + length x + 1) 0).

Lemma value_head_type b : value_head b = true → ∃ t, type_of_byte (Some b) = Some t.
Proof.
  unfold value_head, type_of_byte, number_head. intros H. repeat (case_match; [eauto|]).
  by repeat match goal with E : _ || _ = false |- _ => apply orb_false_iff in E as [? ?] | E : _ = false |- _ => rewrite E in H; clear E end.
Qed.

(** One round of the loop, up to the comma or the brace. *)
Lemma run_span n w1 b s w2 w3 x w4 v t fl raw acc p :
  blank w1 → string_body b s → blank w2 → blank w3 → json fmt false n x v → blank w4 → n ≤ MAX_DEPTH →
  here raw p (w1 ++ quoted b ++ w2 ++ ":"%char :: w3 ++ x ++ w4 ++ t) →
  stops is_number_byte t → stops is_ascii_whitespace t →
  ∃ span, key span = of_bytes s ∧ raw_value span = x ∧
  members_loop raw (S fl) acc (Cursor p 0) =
  (b ←p peek raw;
   match b with
   | Some b =>
       if b =b "," then advance 1 ;p; members_loop raw fl (acc ++ [span])
       else if b =b "}" then advance 1 ;p; pret (acc ++ [span])
       else pfail InvalidToken
   | None => pfail InvalidToken
   end) (Cursor (p + length (w1 ++ quoted b ++ w2 ++ ":"%char :: w3 ++ x ++ w4)) 0).
Proof.
  intros Hw1 Hb Hw2 Hw3 Hx Hw4 Hn H Ht Ht'. destruct (json_head _ _ _ _ _ Hx) as (c & y & E & Hc).
  destruct (value_head_type _ Hc) as [ty Hty]. destruct (value_head_facts _ Hc) as (Hc1 & _).
  exists (mkMemberSpan (of_bytes s) x ty). split_and!; [done|done|]. cbn [members_loop].
  erewrite run_bind; [|eapply run_ws; [exact H|done|reflexivity]]. apply here_app in H.
  erewrite run_bind; [|by eapply run_string_raw]. apply here_app in H.
  erewrite run_bind; [|eapply run_ws; [exact H|done|reflexivity]]. apply here_app in H.
  erewrite run_bind; [|by eapply run_at_byte]. cbn [Ascii.eqb Bool.eqb negb]. erewrite run_bind; [|done].
  apply here_cons in H as [_ H]. cbn [pos depth].
  erewrite run_bind; [|eapply run_ws; [exact H|done|by rewrite E]]. apply here_app in H.
  erewrite run_bind; [|done]. cbn [pos].
  erewrite run_bind; [|eapply run_peek; rewrite E in H; exact H]. rewrite Hty. erewrite run_bind; [|done].
  erewrite run_bind; [|eapply (run_skip_value raw fmt n x v []); [done|lia|done|exact H|by apply blank_stops]].
  erewrite run_bind; [|done]. cbn [pos length]. rewrite Nat.add_0_r.
  erewrite run_bind; [|by eapply run_member_key]. rewrite (here_slice _ _ _ _ H). cbv zeta. apply here_app in H.
  erewrite run_bind; [|eapply run_ws; [exact H|done|done]].
  f_equal. f_equal. rewrite !length_app. cbn [length]. rewrite !length_app. lia.
Qed.

Lemma spans_one n w1 b s w2 w3 x w4 v :
  blank w1 → string_body b s → blank w2 → blank w3 → json fmt false n x v → emits n x v → blank w4 →
  spans n (w1 ++ quoted b ++ w2 ++ ":"%char :: w3 ++ x ++ w4) [(of_bytes s, v)].
Proof.
  intros Hw1 Hb Hw2 Hw3 Hx He Hw4 Hn fl raw acc p r H Hf. destruct fl as [|fl]; [lia|].
  repeat (rewrite <-app_assoc in H || rewrite <-app_comm_cons in H).
  destruct (run_span n w1 b s w2 w3 x w4 v _ fl raw acc p Hw1 Hb Hw2 Hw3 Hx Hw4 Hn H) as (span & Hk & Hr & E); [done..|].
  exists [(span, v)]. split_and!.
  - unfold entry. simpl. by rewrite Hk.
  - repeat constructor; cbn [fst snd]; rewrite Hr; [done|]. rewrite !length_app. cbn [length]. rewrite !length_app. lia.
  - rewrite E. apply here_member in H. erewrite run_bind; [|by eapply run_peek]. done.
Qed.

Lemma spans_cons n w1 b s w2 w3 x w4 v y ms :
  blank w1 → string_body b s → blank w2 → blank w3 → json fmt false n x v → emits n x v → blank w4 → spans n y ms →
  spans n (w1 ++ quoted b ++ w2 ++ ":"%char :: w3 ++ x ++ w4 ++ ","%char :: y) ((of_bytes s, v) :: ms).
Proof.
  intros Hw1 Hb Hw2 Hw3 Hx He Hw4 Hy Hn fl raw acc p r H Hf. destruct fl as [|fl]; [lia|].
  repeat (rewrite <-app_assoc in H || rewrite <-app_comm_cons in H).
  destruct (run_span n w1 b s w2 w3 x w4 v _ fl raw acc p Hw1 Hb Hw2 Hw3 Hx Hw4 Hn H) as (span & Hk & Hr & E); [done..|].
  apply (here_member raw p w1 b w2 w3 x w4) in H. destruct (here_cons _ _ _ _ H) as [_ H'].
  assert (Hl : length (w1 ++ quoted b ++ w2 ++ ":"%char :: w3 ++ x ++ w4 ++ ","%char :: y) =
    length (w1 ++ quoted b ++ w2 ++ ":"%char :: w3 ++ x ++ w4) + 1 + length y).
  { rewrite !length_app. cbn [length]. rewrite !length_app. cbn [length]. lia. }
  destruct (Hy Hn fl raw (acc ++ [span]) _ r H') as (L & HL & Hok & EL); [lia|].
  exists ((span, v) :: L). split_and!.
  - cbn [map]. rewrite HL. unfold entry. cbn [fst snd]. by rewrite Hk.
  - constructor; [split; cbn [fst snd]; rewrite Hr; [done|]|].
    + rewrite !length_app. cbn [length]. rewrite !length_app. lia.
    + eapply Forall_impl; [exact Hok|]. intros q [? ?]. split; [done|lia].
  - rewrite E. erewrite run_bind; [|by eapply run_peek]. cbn [Ascii.eqb Bool.eqb]. erewrite run_bind; [|done].
    cbn [pos depth]. rewrite EL, <-app_assoc. cbn [app fmap list_fmap fst]. do 3 f_equal. lia.
Qed.

(** The members are emitted in the order they come, the last of equal keys. *)
Lemma emit_members_spec n fuel bound L first out : n ≤ MAX_DEPTH → Forall (span_ok n bound) L → bound < fuel →
  emit_members exclude (emit_raw fmt exclude strict fuel) first out L.*1 =
  emission_list first out (map label (filter (λ kv, exclude kv.1 = false) (last_of_runs (map entry L)))) (λ out, Some (Ok out)).
Proof.
  intros Hn HL Hf. revert first out. induction HL as [|[m v] L [He Hl] HL IH]; intros first out.
  { cbn. by rewrite emission_nil. }
  cbn [fmap list_fmap map fst emit_members last_of_runs].
  assert (match L.*1 with next :: _ => key next ==s key m | [] => false end =
    match map entry L with next :: _ => next.1 ==s (entry (m, v)).1 | [] => false end) as -> by by destruct L.
  destruct (match map entry L with next :: _ => next.1 ==s (entry (m, v)).1 | [] => false end); [apply IH|].
  cbn [orb]. rewrite filter_cons. cbn [entry fst snd].
  destruct (exclude (key m)) eqn:Ex; [rewrite decide_False by done; apply IH|]. rewrite decide_True by done.
  cbn [map label fst snd]. unfold label at 1. cbn [fst snd]. rewrite emission_cons.
  rewrite push_key.
  pose proof (λ out, He Hn fuel out [] []) as He'. cbn [fst snd] in He'. setoid_rewrite app_nil_r in He'.
  cbn [app] in He'. cbn [fst] in Hl. rewrite He' by (done || lia). apply out_bind_ext. intros o. apply IH.
Qed.

Lemma sorted_entries L :
  let L' := sort_by (λ x y : MemberSpan * value, cmp_on key String.compare x.1 y.1) L in
  sort_by (cmp_on key String.compare) L.*1 = L'.*1 ∧ last_of_runs (map entry L') = object_of (map entry L).
Proof.
  cbv zeta. split; [apply (sort_by_map fst)|]. rewrite <-sorted_runs, (sort_by_map entry). done.
Qed.

Lemma members_loop_skip raw fl acc w b t p : here raw p (w ++ b :: t) → blank w → is_ascii_whitespace b = false →
  members_loop raw (S fl) acc (Cursor (p + length w) 0) = members_loop raw (S fl) acc (Cursor p 0).
Proof.
  intros H Hw Hb. cbn [members_loop]. symmetry. erewrite run_bind; [|eapply run_ws; [exact H|done|done]].
  apply here_app in H. symmetry. by erewrite run_bind; [|eapply run_no_ws; [exact H|done]].
Qed.

Lemma emits_object n y ms : blank y ∧ ms = [] ∨ members fmt false n y ms ∧ spans n y ms →
  emits (S n) ("{"%char :: y ++ ["}"%char]) (Object (object_of ms)).
Proof.
  intros Hcase. apply emits_intro; [done|]. intros Hn fuel out raw p w' H Hw' Hf. unfold emit_at. cbn [Ascii.eqb Bool.eqb].
  pose proof (here_length _ _ _ H) as HL. rewrite length_app in HL. cbn [length] in HL, Hf. rewrite length_app in HL, Hf.
  cbn [length] in HL, Hf. rewrite <-app_comm_cons, <-app_assoc in H. cbn [app] in H.
  assert (Hm : ∃ L, map entry L = ms ∧ Forall (span_ok n (length y)) L ∧
    object_members raw (Cursor p 0) = Some (Ok L.*1, Cursor (p + 1 + length y + 1) 0)).
  { unfold object_members. erewrite run_bind; [|eapply run_no_ws; [exact H|done]].
    erewrite run_bind; [|by eapply run_at_byte]. cbn [Ascii.eqb Bool.eqb negb]. erewrite run_bind; [|done].
    apply here_cons in H as [_ H]. cbn [pos depth]. destruct Hcase as [[Hy ->]|[Hi Hp]].
    - exists []. split_and!; [done..|]. erewrite run_bind; [|by eapply run_ws]. apply here_app in H.
      erewrite run_bind; [|by eapply run_at_byte]. cbn [Ascii.eqb Bool.eqb]. by erewrite run_bind; [|done].
    - destruct (Hp ltac:(lia) (S (length raw)) raw [] _ _ H) as (L & HL1 & HL2 & E); [lia|].
      exists L. split_and!; [done..|]. destruct (members_head _ _ _ _ _ Hi) as (w & t & -> & Hw).
      rewrite <-app_assoc in H. erewrite run_bind; [|by eapply run_ws]. pose proof H as H'. apply here_app in H'.
      erewrite run_bind; [|eapply run_at_byte; exact H']. cbn [Ascii.eqb Bool.eqb].
      by rewrite (members_loop_skip raw (length raw) [] w "034" (t ++ "}"%char :: w')). }
  destruct Hm as (L & <- & HL2 & E). unfold emit_object. erewrite run_tok_ok by done.
  rewrite emission_Object. apply here_cons in H as [_ H]. apply here_app in H. apply here_cons in H as [_ H].
  erewrite run_finished by done. destruct (sorted_entries L) as [-> <-].
  rewrite (emit_members_spec n fuel (length y)); [apply out_bind_list|lia| |lia]. by rewrite sort_by_perm.
Qed.

(** Every text of the grammar is emitted as its value. *)
Lemma json_emits :
  (∀ n x v, json fmt false n x v → emits n x v) ∧
  (∀ n x vs, items fmt false n x vs → emits_items n x vs) ∧
  (∀ n x ms, members fmt false n x ms → spans n x ms).
Proof.
  apply json_mutind; intros.
  - apply emits_word. auto.
  - apply emits_word. destruct b; auto.
  - by apply emits_number.
  - by apply emits_string.
  - apply emits_array. auto.
  - apply emits_array. auto.
  - apply (emits_object _ _ []). auto.
  - apply emits_object. auto.
  - by apply emits_items_one.
  - by apply emits_items_cons.
  - by apply spans_one.
  - by apply spans_cons.
Qed.

Lemma document_emits input v : document fmt false input v →
  write_raw_canonical_filtered_internal fmt exclude strict input =
  if strict && negb (numbers_canonical (pruned v)) then Some (Err JsonParser.InvalidNumber)
  else Some (Ok (write_string_value_filtered exclude v)).
Proof.
  intros (w & x & w' & -> & Hw & Hw' & Hx). unfold write_raw_canonical_filtered_internal.
  rewrite (proj1 json_emits _ _ _ Hx) by (done || lia). unfold emission, write_string_value_filtered.
  rewrite (write_filtered_spec exclude [] v 0). by destruct (strict && _).
Qed.
End emission.

(** C39: On every document the parser accepts, the raw writer returns what
    parsing, dropping the excluded keys and writing the value returns,
    duplicate keys included; the strict writer returns the same text when every
    number that is left is a canonical integer and [InvalidNumber] otherwise. *)
Theorem raw_canonical_matches_parse (format_finite : f64 → string) `{!RyuFormat format_finite}
    (exclude : string → bool) (input : bytes) (v : value) :
  parse_scalar_with format_finite input false = Some (Ok v) →
  write_raw_canonical_filtered format_finite exclude input = Some (Ok (write_string_value_filtered exclude v)) ∧
  write_raw_canonical_filtered_strict format_finite exclude input =
    if numbers_canonical (prune exclude v) then Some (Ok (write_string_value_filtered exclude v))
    else Some (Err JsonParser.InvalidNumber).
Proof.
  intros H%parser_grammar. unfold write_raw_canonical_filtered, write_raw_canonical_filtered_strict.
  rewrite !(document_emits format_finite exclude) with (v := v) by done. split; [done|].
  cbn [andb]. by destruct (numbers_canonical _).
Qed.

(** ** Concrete inputs *)

(** An object with a repeated key, an escaped key, a number the filter drops
    and whitespace: the single quotes stand for double ones. *)
Definition sample_raw : bytes :=
  map (λ c, if c =b "'" then "034"%char else c)
    (as_bytes " {'b': [1, {'z': null}], 'unsigned': 2.5, '\u0061': 'x\n', 'b': {'d': -7, 'c': true}} ").

Definition sample_kept : value :=
  Object [("a", VString (of_bytes (as_bytes "x" ++ ["010"%char])));
          ("b", Object [("c", Bool true); ("d", Number "-7")]);
          ("unsigned", Number "2500000000000000000000000000000000000000000000000000e-51")].

Lemma raw_canonical_matches_parse_witness :
  parse_scalar_with exact_format sample_raw false = Some (Ok sample_kept) ∧
  write_raw_canonical_filtered_strict exact_format (String.eqb "unsigned") sample_raw =
    Some (Ok (write_string_value_filtered (String.eqb "unsigned") sample_kept)) ∧
  write_raw_canonical_filtered_strict exact_format (λ _, false) sample_raw = Some (Err JsonParser.InvalidNumber).
Proof.
  assert (H : parse_scalar_with exact_format sample_raw false = Some (Ok sample_kept)) by (vm_compute; reflexivity).
  split; [exact H|]. split.
  - apply (raw_canonical_matches_parse exact_format (String.eqb "unsigned") sample_raw sample_kept H).
  - apply (raw_canonical_matches_parse exact_format (λ _, false) sample_raw sample_kept H).
Defined.

(** The converse fails: a member without the opening quote of its key, or
    after a trailing comma, is not JSON and the parser rejects it, but the
    writer does not look at the byte before a key. *)
Lemma raw_writer_accepts_malformed :
  let q := "034"%char in
  let no_quote := as_bytes "{xa" ++ q :: as_bytes ":1}" in
  let trailing := "{"%char :: quoted (as_bytes "a") ++ as_bytes ":1,}b" ++ q :: as_bytes ":2}" in
  write_raw_canonical_filtered_strict exact_format (λ _, false) no_quote =
    Some (Ok (of_bytes ("{"%char :: quoted (as_bytes "a") ++ as_bytes ":1}"))) ∧
  Value_parse_bytes exact_format no_quote = Some (Err JsonParser.InvalidToken) ∧
  write_raw_canonical_filtered_strict exact_format (λ _, false) trailing =
    Some (Ok (of_bytes ("{"%char :: quoted (as_bytes "a") ++ as_bytes ":1," ++ quoted (as_bytes "b") ++ as_bytes ":2}"))) ∧
  Value_parse_bytes exact_format trailing = Some (Err JsonParser.InvalidToken).
Proof. vm_compute. auto. Qed.

(** The nesting limit applies to the spans inside a container, so the writer
    goes one level deeper than the parser. *)
Lemma raw_writer_one_level_deeper :
  let deep n := replicate n "["%char ++ replicate n "]"%char in
  write_raw_canonical_filtered exact_format (λ _, false) (deep 129) = Some (Ok (of_bytes (deep 129))) ∧
  Value_parse_bytes exact_format (deep 129) = Some (Err JsonParser.DepthLimitExceeded) ∧
  write_raw_canonical_filtered exact_format (λ _, false) (deep 130) = Some (Err JsonParser.InvalidToken).
Proof. vm_compute. auto. Qed.
