(* ===== verification/Events.v ===== *)
(** * Events and room versions ([src/src/basespec/rezzy_types.rs])

    State-resolution versions, room-version formats, the event record
    [LeanEvent], the content interface [EventContent] with its JSON instance,
    the power-event predicates, Matrix identifiers, and the priority order of
    the topological sort. *)
From S2P Require Import Prelude EventTypes Json.
From stdpp Require Import prelude gmap strings sorting.
From Stdlib Require String.
From Stdlib Require Import Ascii.

(** ** Versions *)

Inductive StateResVersion : Type := V1 | V2 | V2_1 | V2_1_1 | V2_2 | V3.

Global Instance StateResVersion_eq_dec : EqDecision StateResVersion.
Proof. solve_decision. Defined.

Definition version_eqb (a b : StateResVersion) : bool := bool_decide (a = b).

(** [#[derive(PartialOrd, Ord)]]: declaration order. *)
Definition version_index (v : StateResVersion) : Z :=
  match v with V1 => 0 | V2 => 1 | V2_1 => 2 | V2_1_1 => 3 | V2_2 => 4 | V3 => 5 end.

Definition is_v2_1_plus (v : StateResVersion) : bool :=
  match v with V2_1 | V2_1_1 | V2_2 | V3 => true | _ => false end.

Definition has_ban_evasion_hardening (v : StateResVersion) : bool :=
  match v with V2_1_1 | V2_2 | V3 => true | _ => false end.

(** [matches!(version, V2_1 | V2_1_1 | V2_2)], the form several call sites spell out. *)
Definition is_v2_1_to_v2_2 (v : StateResVersion) : bool :=
  match v with V2_1 | V2_1_1 | V2_2 => true | _ => false end.

Inductive RoomVersionFormat : Type :=
| Numeric (n : Z) | Msc4242 | Msc3389 | NutraCdo.

(** [RoomVersionFormat::parse]: the recognised room-version labels. *)
Definition room_version_table : list (string * RoomVersionFormat) :=
  [ ("1", Numeric 1); ("2", Numeric 2); ("3", Numeric 3); ("4", Numeric 4);
    ("5", Numeric 5); ("6", Numeric 6); ("7", Numeric 7); ("8", Numeric 8);
    ("9", Numeric 9); ("10", Numeric 10); ("11", Numeric 11);
    ("12", Numeric 12); ("12.1", Numeric 12);
    ("org.matrix.msc4242.12", Msc4242);
    ("org.matrix.msc3389.10", Msc3389);
    ("tk.nutra.cdo.12", NutraCdo) ].

Definition RoomVersionFormat_parse (v : string) : option RoomVersionFormat :=
  match find (λ p, String.eqb v p.1) room_version_table with
  | Some (_, f) => Some f
  | None => None
  end.

Definition requires_strict_canonical_numbers (f : RoomVersionFormat) : bool :=
  match f with Numeric v => (6 <=? v)%Z | Msc4242 | Msc3389 | NutraCdo => true end.

Definition uses_v11_redaction_rules (f : RoomVersionFormat) : bool :=
  match f with Numeric v => (11 <=? v)%Z | Msc4242 | NutraCdo => true | Msc3389 => false end.

Definition uses_v12_create_rules (f : RoomVersionFormat) : bool :=
  match f with Numeric v => (12 <=? v)%Z | Msc4242 | NutraCdo => true | Msc3389 => false end.

(** [StateResVersion::from_room_version].  The [Numeric] arm outside 1..12 is
    the code's [unreachable!]; [RoomVersionFormat_parse] never produces it. *)
Definition from_room_version (ver : string) : option StateResVersion :=
  match RoomVersionFormat_parse ver with
  | None => None
  | Some (Numeric n) =>
      if (n =? 1)%Z then Some V1
      else if ((2 <=? n) && (n <=? 11))%Z then Some V2
      else if (n =? 12)%Z then (if String.eqb ver "12.1" then Some V2_1_1 else Some V2_1)
      else None
  | Some Msc3389 => Some V2
  | Some Msc4242 => Some V2_2
  | Some NutraCdo => Some V3
  end.

(** ** Event identifiers: the [EventId] trait *)

Class EventId (Id : Type) := {
  event_id_eq_dec :: EqDecision Id;
  event_id_countable :: Countable Id;
  id_cmp : Id → Id → comparison;
  id_cmp_total :: TotalCmp id_cmp;
  id_display : Id → string
}.

Global Instance string_event_id : EventId string :=
  {| id_cmp := String.compare; id_display := λ s, s |}.

(** ** Event content: the [EventContent] trait

    The [visit_*] methods hand every entry of a map to a visitor; they are
    modelled by the list of entries in visiting order. *)

Class EventContent (C : Type) := {
  get_membership : C → option string;
  get_join_rule : C → option string;
  get_user_power_level : C → string → option Z;
  get_event_power_level : C → string → option Z;
  get_users_default : C → option Z;
  get_events_default : C → option Z;
  get_state_default : C → option Z;
  get_ban : C → option Z;
  get_kick : C → option Z;
  get_invite : C → option Z;
  get_redact : C → option Z;
  get_creator : C → option string;
  get_room_version : C → option string;
  has_malformed_room_version : C → bool;
  get_m_federate : C → option bool;
  get_redacts : C → option string;
  has_additional_creator : C → string → bool;
  get_join_authorised_via_users_server : C → option string;
  has_third_party_invite : C → bool;
  get_third_party_invite_token : C → option string;
  get_third_party_invite_mxid : C → option string;
  has_third_party_invite_signatures : C → bool;
  visit_event_power_levels : C → list (string * Z);
  visit_user_power_levels : C → list (string * Z);
  visit_notification_power_levels : C → list (string * Z);
  find_non_integer_scalar_pl : C → option string;
  find_non_integer_map_pl : C → option string;
  has_non_integer_users_pl : C → bool → bool;
  visit_user_keys : C → list string;
  has_user_in_users : C → string → bool
}.

(** What implementations promise: every power level is an [i64], and, on
    well-formed content, the two ways of reading the [users] map agree. *)
Class EventContentLaws (C : Type) `{EventContent C} := {
  content_wf : C → Prop;
  user_power_level_i64 c u z : get_user_power_level c u = Some z → is_i64 z;
  users_default_i64 c z : get_users_default c = Some z → is_i64 z;
  visit_user_power_levels_get c u z :
    content_wf c → (u, z) ∈ visit_user_power_levels c ↔ get_user_power_level c u = Some z
}.

(** ** Events *)

Record LeanEvent {Id C : Type} := mkEvent {
  event_id : Id;
  event_type : string;
  state_key : option string;
  power_level : Z;
  origin_server_ts : Z;
  sender : string;
  content : C;
  prev_events : list Id;
  auth_events : list Id;
  depth : Z;
  rejected : bool;
  soft_fail : bool;
  room_id : option string
}.
Arguments LeanEvent : clear implicits.
Arguments mkEvent {Id C}.

Section events.
Context {Id C : Type} `{EventId Id} `{EventContent C}.
Abbreviation event := (LeanEvent Id C).
Implicit Types e : event.

(** [DagNode::prev_state_events] of [LeanEvent]: the shared [auth_events] field. *)
Definition prev_state_events e : list Id := auth_events e.

Definition dag_edges (version : StateResVersion) e : list Id :=
  if version_eqb version V2_2 then prev_state_events e else auth_events e.

Definition accepted_state_key e : option string :=
  if rejected e then None else state_key e.

Definition is_ban_or_kick e : bool :=
  if String.eqb (event_type e) M_ROOM_MEMBER then
    match get_membership (content e) with
    | Some membership =>
        if String.eqb membership MEM_BAN || String.eqb membership MEM_LEAVE then
          match state_key e with
          | Some sk => negb (String.eqb sk (sender e))
          | None => false
          end
        else false
    | None => false
    end
  else false.

Definition is_power_event (version : StateResVersion) e : bool :=
  String.eqb (event_type e) M_ROOM_CREATE
  || String.eqb (event_type e) M_ROOM_POWER_LEVELS
  || String.eqb (event_type e) M_ROOM_JOIN_RULES
  || (String.eqb (event_type e) M_ROOM_MEMBER
      && (version_eqb version V1 || is_ban_or_kick e)).

(** The state-map key an event would decide. *)
Definition event_key e (sk : string) : string * string :=
  key_of (EventType_from (event_type e)) sk.

Lemma event_key_eq e sk : event_key e sk = (event_type e, sk).
Proof. apply key_of_from. Qed.

Lemma dag_edges_auth version e : dag_edges version e = auth_events e.
Proof. unfold dag_edges, prev_state_events. by case_match. Qed.
End events.

(** ** The priority order of the topological sort ([SortPriority]) *)

Record SortPriority {Id C : Type} := mkPriority {
  sp_event : LeanEvent Id C;
  sp_power_level : Z;
  sp_version : StateResVersion
}.
Arguments SortPriority : clear implicits.
Arguments mkPriority {Id C}.

Section priority.
Context {Id C : Type} `{EventId Id}.

(** [impl Ord for SortPriority]. *)
Definition SortPriority_cmp (a b : SortPriority Id C) : comparison :=
  if negb (version_eqb (sp_version a) (sp_version b)) then
    Z.compare (version_index (sp_version a)) (version_index (sp_version b))
  else
    match sp_version a with
    | V1 =>
        match Z.compare (depth (sp_event a)) (depth (sp_event b)) with
        | Eq => id_cmp (event_id (sp_event a)) (event_id (sp_event b))
        | ord => ord
        end
    | V2 | V2_1 | V2_1_1 | V2_2 | V3 =>
        match Z.compare (sp_power_level a) (sp_power_level b) with
        | Eq =>
            match Z.compare (origin_server_ts (sp_event b)) (origin_server_ts (sp_event a)) with
            | Eq => id_cmp (event_id (sp_event b)) (event_id (sp_event a))
            | ord => ord
            end
        | ord => ord
        end
    end.

(** Under a fixed version the order is lexicographic on a key. *)
Definition priority_key (version : StateResVersion) (p : SortPriority Id C) : Z * Z * Id :=
  match version with
  | V1 => (depth (sp_event p), 0%Z, event_id (sp_event p))
  | _ => (sp_power_level p, origin_server_ts (sp_event p), event_id (sp_event p))
  end.

Definition key_cmp (version : StateResVersion) : Z * Z * Id → Z * Z * Id → comparison :=
  match version with
  | V1 => cmp_pair (cmp_pair Z.compare Z.compare) id_cmp
  | _ => cmp_pair (cmp_pair Z.compare (cmp_rev Z.compare)) (cmp_rev id_cmp)
  end.

Global Instance key_cmp_total version : TotalCmp (key_cmp version).
Proof. destruct version; apply _. Qed.

Lemma SortPriority_cmp_key version a b :
  sp_version a = version → sp_version b = version →
  SortPriority_cmp a b = cmp_on (priority_key version) (key_cmp version) a b.
Proof.
  intros Ha Hb. unfold SortPriority_cmp, version_eqb. rewrite Ha, Hb.
  rewrite bool_decide_eq_true_2 by done. simpl.
  destruct version; unfold cmp_on, key_cmp, cmp_pair, cmp_rev, then_with; simpl; case_all.
Qed.

Lemma priority_key_id version a b :
  priority_key version a = priority_key version b → event_id (sp_event a) = event_id (sp_event b).
Proof. by destruct version; intros [=]. Qed.
End priority.

(** ** Matrix identifiers *)

Definition mxid_char (a : ascii) : bool :=
  let n := N_of_ascii a in
  ((97 <=? n) && (n <=? 122))%N || ((48 <=? n) && (n <=? 57))%N
  || existsb (Ascii.eqb a) ["."; "_"; "="; "-"; "/"; "+"]%char.

Definition is_valid_mxid (id : string) : bool :=
  match str_strip_prefix "@"%char id with
  | Some rest =>
      match split_once ":"%char rest with
      | Some (localpart, domain) =>
          negb (str_is_empty localpart) && negb (str_is_empty domain)
          && str_all mxid_char localpart
      | None => false
      end
  | None => false
  end.

Definition extract_domain (id : string) : option string :=
  match split_once ":"%char id with Some (_, domain) => Some domain | None => None end.

Definition domain_matches (id1 id2 : string) : bool :=
  let d1 := default id1 (extract_domain id1) in
  let d2 := default id2 (extract_domain id2) in
  negb (str_is_empty d1) && negb (str_is_empty d2) && eq_ignore_ascii_case d1 d2.
