(* ===== verification/Reachability.v ===== *)
(** * Reachability over the auth DAG ([src/src/resolve/reachability.rs])

    The topological collection of a graph snapshot, the range and segment
    index built over it, its three candidate traversals and the forward
    closure; [Forward] holds the bitmap index.

    Vectors are lists whose indexing panics out of range ([None]); the [u32]
    and [usize] indices are naturals, which is exact because a built
    [DenseIndex] holds at most 2^32 items ([Dense.dense_index_bounds]): no
    cast, saturating sum or product of this file leaves its width. The
    sentinels [u32::MAX] and [usize::MAX] of [node_segment] and
    [segment_covered_from] are [None]. A [BTreeSet] of indices is a finite
    set. *)
From stdpp Require Import prelude gmap strings sorting.
From Stdlib Require String.
From S2P Require Import Prelude Dense EventTypes Json Events.

(** ** Answers *)

Module Reach.
Inductive t : Type := Yes | No | Unknown.

Definition is_definitive (r : t) : bool := match r with Yes | No => true | Unknown => false end.
Definition is_yes (r : t) : bool := match r with Yes => true | _ => false end.
Definition is_no (r : t) : bool := match r with No => true | _ => false end.
Definition is_unknown (r : t) : bool := match r with Unknown => true | _ => false end.
End Reach.

(** [Reachability::filter_reachable], the default: the positions of the
    candidates some seed definitively reaches. *)
Definition default_filter_reachable {Id} (reaches : Id → Id → Reach.t) (seeds candidates : list Id)
    : list nat :=
  omap (λ ic, if existsb (λ seed, Reach.is_yes (reaches seed ic.2)) seeds then Some ic.1 else None)
    (imap pair candidates).

Record Segment : Type := mkSegment { tail : nat }.

Record SegmentStats : Type := mkSegmentStats {
  node_count : nat;
  segment_count : nat;
  singleton_segment_count : nat;
  long_segment_node_count : nat;
  max_segment_length : nat
}.

Definition should_jump (s : SegmentStats) : bool :=
  (4 <=? max_segment_length s) && (node_count s <=? long_segment_node_count s * 2).

Inductive SegmentTraversalMode : Type := SegPlainRangePruned | SegSegmentJumps.
Inductive TraversalMode : Type := PlainIndexedBfs | RangePruned | SegmentJumps.

(** ** Candidate positions *)

Inductive CandidatePositions : Type :=
| PosNone
| PosOne (position : nat)
| PosMany (positions : list nat).

Module CandidatePositions.
Definition is_empty (p : CandidatePositions) : bool :=
  match p with PosNone => true | _ => false end.

Definition push (p : CandidatePositions) (position : nat) : CandidatePositions :=
  match p with
  | PosNone => PosOne position
  | PosOne first => PosMany [first; position]
  | PosMany positions => PosMany (positions ++ [position])
  end.

Definition iter (p : CandidatePositions) : list nat :=
  match p with
  | PosNone => []
  | PosOne position => [position]
  | PosMany positions => positions
  end.
End CandidatePositions.

Record CandidateQuery : Type := mkCandidateQuery {
  candidate_count : nat;
  known_candidate_position_count : nat;
  unique_candidate_count : nat;
  candidate_positions : list CandidatePositions;
  min_candidate_index : option nat;
  max_candidate_index : option nat
}.

Module CandidateQuery.
Definition span (q : CandidateQuery) (node_count : nat) : nat :=
  match min_candidate_index q, max_candidate_index q with
  | Some min, Some max => max - min + 1
  | _, _ => node_count
  end.

Definition unique_count (q : CandidateQuery) : nat := unique_candidate_count q.

Definition positions_at (q : CandidateQuery) (node_idx : nat) : list nat :=
  match candidate_positions q !! node_idx with
  | Some p => CandidatePositions.iter p
  | None => []
  end.

Definition remaining_candidate_set (q : CandidateQuery) : gset nat :=
  list_to_set (omap (λ ip, if CandidatePositions.is_empty ip.2 then None else Some ip.1)
    (imap pair (candidate_positions q))).
End CandidateQuery.

(** ** Building the index *)

Section topology.
Context {Id C : Type} `{EventId Id} `{Ho : HashOrder}.
Implicit Types graph : gmap Id (LeanEvent Id C).

(** The in-degrees and the citing events of each event of the graph. *)
Definition topo_edge graph (id : Id) (st : gmap Id N * gmap Id (list Id)) (auth_id : Id)
    : gmap Id N * gmap Id (list Id) :=
  match graph !! auth_id with
  | Some _ =>
      (<[id := usize_saturating_add (default 0%N (st.1 !! id)) 1]> st.1,
       <[auth_id := default [] (st.2 !! auth_id) ++ [id]]> st.2)
  | None => st
  end.
Definition topo_node graph (st : gmap Id N * gmap Id (list Id)) (kv : Id * LeanEvent Id C)
    : gmap Id N * gmap Id (list Id) :=
  foldl (topo_edge graph kv.1)
    (match st.1 !! kv.1 with Some _ => st.1 | None => <[kv.1 := 0%N]> st.1 end, st.2)
    (auth_events kv.2).
Definition topo_graph graph : gmap Id N * gmap Id (list Id) :=
  foldl (topo_node graph) (∅, ∅) (hm_iter graph).

(** The loop over a popped node's children: the new in-degrees and the
    children pushed; [None] is the [unwrap]. *)
Fixpoint release (children : list Id) (in_degree : gmap Id N) : option (gmap Id N * list Id) :=
  match children with
  | [] => Some (in_degree, [])
  | child :: rest =>
      match in_degree !! child with
      | None => None
      | Some d =>
          let degree := usize_saturating_sub d 1 in
          match release rest (<[child := degree]> in_degree) with
          | None => None
          | Some (in_degree', pushed) =>
              Some (in_degree', if (degree =? 0)%N then child :: pushed else pushed)
          end
      end
  end.

Definition topo_step (children : gmap Id (list Id)) (id : Id) (st : gmap Id N * list Id)
    : option (loop_step Id (gmap Id N * list Id)) :=
  match release (default [] (children !! id)) st.1 with
  | None => None
  | Some (in_degree, pushed) => Some (Push (in_degree, st.2 ++ [id]) pushed)
  end.

Definition ids_with_degree (p : N → bool) (in_degree : gmap Id N) : list Id :=
  omap (λ kv, if p kv.2 then Some kv.1 else None) (hm_iter in_degree).

(** The topological order, the citing events, and the leftover nodes that
    cite a cycle; every node of the graph is popped at most once, so its size
    is enough fuel. *)
Definition collect_topology graph : option (list Id * gmap Id (list Id) * list Id) :=
  let '(in_degree, children) := topo_graph graph in
  let queue := sort_by id_cmp (ids_with_degree (λ deg, (deg =? 0)%N) in_degree) in
  match try_drain (topo_step children) (size graph) queue (in_degree, []) with
  | None => None
  | Some (in_degree', topo) =>
      let leftover_nodes := sort_by id_cmp (ids_with_degree (λ deg, negb (deg =? 0)%N) in_degree') in
      Some (topo ++ leftover_nodes, children, leftover_nodes)
  end.

Definition index_child (index : DenseIndex Id) (parent_idx : nat)
    (st : list (list nat) * list nat) (child_id : Id) : option (list (list nat) * list nat) :=
  match index_of index child_id with
  | None => Some st
  | Some child_idx =>
      slot ← st.1 !! parent_idx;
      children_by_index ← vec_set st.1 parent_idx (slot ++ [child_idx]);
      degree ← st.2 !! child_idx;
      in_degree_by_index ← vec_set st.2 child_idx (degree + 1);
      Some (children_by_index, in_degree_by_index)
  end.

Definition build_indexed_children (topo_len : nat) (children : gmap Id (list Id))
    (index : DenseIndex Id) : option (list (list nat) * list nat) :=
  try_fold (λ st kv,
    match index_of index kv.1 with
    | None => Some st
    | Some parent_idx =>
        _ ← st.1 !! parent_idx;
        try_fold (index_child index parent_idx) kv.2 st
    end) (hm_iter children) (replicate topo_len [], replicate topo_len 0).
End topology.

Definition range_child (descendant_ranges : list (nat * nat)) (acc : nat * nat) (child_idx : nat)
    : option (nat * nat) :=
  child ← descendant_ranges !! child_idx;
  Some (acc.1 `min` child.1, acc.2 `max` child.2).

Definition range_node (children_by_index : list (list nat)) (descendant_ranges : list (nat * nat))
    (idx : nat) : option (list (nat * nat)) :=
  children ← children_by_index !! idx;
  range ← try_fold (range_child descendant_ranges) children (idx, idx);
  vec_set descendant_ranges idx range.

Definition build_descendant_ranges (children_by_index : list (list nat)) : option (list (nat * nat)) :=
  try_fold (range_node children_by_index) (reverse (seq 0 (length children_by_index)))
    (replicate (length children_by_index) (0, 0)).

(** The inner loop of [build_segments]: the segment's last node and length
    and the two per-node vectors. Each iteration assigns one more node. *)
Fixpoint walk_segment (fuel : nat) (children_by_index : list (list nat)) (in_degree_by_index : list nat)
    (segment_id current offset : nat) (node_segment : list (option nat)) (node_segment_offset : list nat)
    : option (nat * nat * list (option nat) * list nat) :=
  match fuel with
  | O => None
  | S fuel =>
      node_segment ← vec_set node_segment current (Some segment_id);
      node_segment_offset ← vec_set node_segment_offset current offset;
      let offset := offset + 1 in
      let stop := Some (current, offset, node_segment, node_segment_offset) in
      children ← children_by_index !! current;
      degree ← in_degree_by_index !! current;
      if negb (degree =? 1) || negb (length children =? 1) then stop
      else
        next ← children !! 0;
        next_degree ← in_degree_by_index !! next;
        next_segment ← node_segment !! next;
        if negb (next_degree =? 1) || bool_decide (is_Some next_segment) then stop
        else walk_segment fuel children_by_index in_degree_by_index segment_id next offset
               node_segment node_segment_offset
  end.

Record SegmentState : Type := mkSegmentState {
  ss_segments : list Segment;
  ss_node_segment : list (option nat);
  ss_node_segment_offset : list nat;
  ss_singleton : nat;
  ss_long : nat;
  ss_max : nat
}.

Definition segment_node (children_by_index : list (list nat)) (in_degree_by_index : list nat)
    (st : SegmentState) (idx : nat) : option SegmentState :=
  assigned ← ss_node_segment st !! idx;
  match assigned with
  | Some _ => Some st
  | None =>
      '(current, offset, node_segment, node_segment_offset) ←
        walk_segment (length children_by_index) children_by_index in_degree_by_index
          (length (ss_segments st)) idx 0 (ss_node_segment st) (ss_node_segment_offset st);
      Some (mkSegmentState (ss_segments st ++ [mkSegment current]) node_segment node_segment_offset
        (if offset =? 1 then ss_singleton st + 1 else ss_singleton st)
        (if 4 <=? offset then ss_long st + offset else ss_long st)
        (ss_max st `max` offset))
  end.

Definition build_segments (children_by_index : list (list nat)) (in_degree_by_index : list nat)
    : option (list Segment * list (option nat) * list nat * SegmentStats) :=
  st ← try_fold (segment_node children_by_index in_degree_by_index) (seq 0 (length children_by_index))
    (mkSegmentState [] (replicate (length children_by_index) None)
      (replicate (length children_by_index) 0) 0 0 0);
  Some (ss_segments st, ss_node_segment st, ss_node_segment_offset st,
    mkSegmentStats (length children_by_index) (length (ss_segments st))
      (ss_singleton st) (ss_long st) (ss_max st)).

Record RangePrefilterReachability (Id : Type) `{Countable Id} : Type := mkRangePrefilter {
  index : DenseIndex Id;
  children_by_index : list (list nat);
  descendant_ranges : list (nat * nat);
  segments : list Segment;
  node_segment : list (option nat);
  node_segment_offset : list nat;
  segment_stats : SegmentStats;
  segment_mode : SegmentTraversalMode;
  cyclic_nodes : gset nat
}.
Arguments mkRangePrefilter {Id _ _} _ _ _ _ _ _ _ _ _.
Arguments index {Id _ _} _.
Arguments children_by_index {Id _ _} _.
Arguments descendant_ranges {Id _ _} _.
Arguments segments {Id _ _} _.
Arguments node_segment {Id _ _} _.
Arguments node_segment_offset {Id _ _} _.
Arguments segment_stats {Id _ _} _.
Arguments segment_mode {Id _ _} _.
Arguments cyclic_nodes {Id _ _} _.

(** The indices of the leftover nodes. *)
Definition indices_of {Id} `{Countable Id} (ix : DenseIndex Id) (ids : list Id) : gset nat :=
  list_to_set (omap (index_of ix) ids).

Definition ok {A E} (r : result A E) : option A := match r with Ok a => Some a | Err _ => None end.

Definition build {Id C} `{EventId Id} `{HashOrder} (graph : gmap Id (LeanEvent Id C))
    : option (RangePrefilterReachability Id) :=
  '(topo, children, leftover_nodes) ← collect_topology graph;
  index ← ok (try_build granted Idx_u32 topo);
  '(children_by_index, in_degree_by_index) ← build_indexed_children (length topo) children index;
  descendant_ranges ← build_descendant_ranges children_by_index;
  '(segments, node_segment, node_segment_offset, segment_stats) ←
    build_segments children_by_index in_degree_by_index;
  let segment_mode := if should_jump segment_stats then SegSegmentJumps else SegPlainRangePruned in
  Some (mkRangePrefilter index children_by_index descendant_ranges segments node_segment
    node_segment_offset segment_stats segment_mode (indices_of index leftover_nodes)).

(** ** Queries *)

Record TraversalState : Type := mkTraversal {
  results : list bool;
  reachable : list bool;
  remaining_known : nat;
  remaining_candidates : gset nat
}.

(** Marks one candidate position. *)
Definition mark_position (st : list bool * nat) (position : nat) : option (list bool * nat) :=
  found ← st.1 !! position;
  if found : bool then Some st
  else
    marked ← vec_set st.1 position true;
    Some (marked, st.2 - 1).

(** The loop over a node's children that flags and queues the unvisited ones
    that [keep] admits. *)
Definition enqueue_child (keep : nat → option bool) (st : list bool * list nat) (child : nat)
    : option (list bool * list nat) :=
  visited ← st.1 !! child;
  if visited : bool then Some st
  else
    kept ← keep child;
    if kept : bool then
      reachable ← vec_set st.1 child true;
      Some (reachable, st.2 ++ [child])
    else Some st.

Section queries.
Context {Id : Type} `{EventId Id} (self : RangePrefilterReachability Id).

(** [self.index.index_of(seed)], flag and queue. *)
Definition seed_one (st : list bool * list nat) (seed : Id) : option (list bool * list nat) :=
  match index_of (index self) seed with
  | None => Some st
  | Some idx => enqueue_child (λ _, Some true) st idx
  end.
Definition seed_queue (seeds : list Id) (reachable : list bool) : option (list bool * list nat) :=
  try_fold seed_one seeds (reachable, []).

(** The children pushed, with the new flags. *)
Definition enqueue_unvisited_children (parent : nat) (reachable : list bool)
    : option (list bool * list nat) :=
  children ← children_by_index self !! parent;
  try_fold (enqueue_child (λ _, Some true)) children (reachable, []).

(** Whether [remaining_candidates.range(min..=max)] has an element;
    [BTreeSet::range] panics on a reversed range. *)
Definition range_nonempty (remaining : gset nat) (min max : nat) : option bool :=
  if max <? min then None
  else Some (existsb (λ i, (min <=? i) && (i <=? max)) (elements remaining)).

Definition range_keeps (remaining : gset nat) (child : nat) : option bool :=
  '(min_descendant, max_descendant) ← descendant_ranges self !! child;
  range_nonempty remaining min_descendant max_descendant.

Definition enqueue_range_pruned_children (parent : nat) (reachable : list bool) (remaining : gset nat)
    : option (list bool * list nat) :=
  children ← children_by_index self !! parent;
  try_fold (enqueue_child (range_keeps remaining)) children (reachable, []).

Definition collect_reachable_positions (results : list bool) : list nat :=
  omap (λ ib, if ib.2 : bool then Some ib.1 else None) (imap pair results).

(** The candidate pass: positions per node, counts, and the index span. *)
Definition collect_candidate (q : CandidateQuery) (ic : nat * Id) : option CandidateQuery :=
  let candidate_count := ic.1 + 1 in
  match index_of (index self) ic.2 with
  | None => Some (mkCandidateQuery candidate_count (known_candidate_position_count q)
      (unique_candidate_count q) (candidate_positions q) (min_candidate_index q) (max_candidate_index q))
  | Some candidate_idx =>
      positions ← candidate_positions q !! candidate_idx;
      candidate_positions ←
        vec_set (candidate_positions q) candidate_idx (CandidatePositions.push positions ic.1);
      Some (mkCandidateQuery candidate_count
        (known_candidate_position_count q + 1)
        (if CandidatePositions.is_empty positions
         then unique_candidate_count q + 1 else unique_candidate_count q)
        candidate_positions
        (Some (match min_candidate_index q with
               | None => candidate_idx | Some min => min `min` candidate_idx end))
        (Some (match max_candidate_index q with
               | None => candidate_idx | Some max => max `max` candidate_idx end)))
  end.
Definition collect_candidates (candidates : list Id) : option CandidateQuery :=
  try_fold collect_candidate (imap pair candidates)
    (mkCandidateQuery 0 0 0 (replicate (length (children_by_index self)) PosNone) None None).

Definition select_traversal_mode (q : CandidateQuery) : TraversalMode :=
  if (candidate_count q =? 0) || (known_candidate_position_count q =? 0) then PlainIndexedBfs
  else if negb (bool_decide (cyclic_nodes self = ∅)) then PlainIndexedBfs
  else
    let node_count := length (children_by_index self) `max` 1 in
    let span := CandidateQuery.span q node_count in
    let narrow_span := span * 4 <=? node_count in
    let broad_span := node_count <? span * 2 in
    let unique_candidate_count := CandidateQuery.unique_count q in
    let selective := unique_candidate_count * 50 <=? node_count in
    let jump_selective := unique_candidate_count * 20 <=? node_count in
    if match segment_mode self with SegSegmentJumps => true | _ => false end
       && jump_selective && narrow_span then SegmentJumps
    else if selective && narrow_span && negb broad_span then RangePruned
    else PlainIndexedBfs.

Definition seed_candidate_traversal (seeds : list Id) (q : CandidateQuery)
    : option (option (TraversalState * list nat)) :=
  if (candidate_count q =? 0) || (known_candidate_position_count q =? 0) then Some None
  else
    '(reachable, queue) ← seed_queue seeds (replicate (length (children_by_index self)) false);
    Some (Some (mkTraversal (replicate (candidate_count q) false) reachable
      (known_candidate_position_count q) ∅, queue)).

Definition is_range_pruned (mode : TraversalMode) : bool :=
  match mode with RangePruned => true | _ => false end.

(** One iteration of the plain or range-pruned search. *)
Definition visit (q : CandidateQuery) (mode : TraversalMode) (curr : nat) (st : TraversalState)
    : option (loop_step nat TraversalState) :=
  let positions := CandidateQuery.positions_at q curr in
  '(results, remaining_known) ← try_fold mark_position positions (results st, remaining_known st);
  let remaining :=
    match positions with [] => remaining_candidates st | _ => remaining_candidates st ∖ {[curr]} end in
  if remaining_known =? 0 then Some (Break (mkTraversal results (reachable st) remaining_known remaining))
  else
    '(reachable, pushed) ←
      (if is_range_pruned mode then enqueue_range_pruned_children curr (reachable st) remaining
       else enqueue_unvisited_children curr (reachable st));
    Some (Push (mkTraversal results reachable remaining_known remaining) pushed).

(** Every node is queued at most once, so the node count is enough fuel. *)
Definition filter_reachable_with_candidates (seeds : list Id) (q : CandidateQuery) (mode : TraversalMode)
    : option (list nat) :=
  seeded ← seed_candidate_traversal seeds q;
  match seeded with
  | None => Some []
  | Some (st, queue) =>
      let remaining := if is_range_pruned mode then CandidateQuery.remaining_candidate_set q else ∅ in
      st ← try_drain (visit q mode) (length (children_by_index self)) queue
        (mkTraversal (results st) (reachable st) (remaining_known st) remaining);
      Some (collect_reachable_positions (results st))
  end.

(** The candidates of each segment: offset, node, position. *)
Definition segment_candidate (acc : list (list (nat * nat * nat))) (ip : nat * CandidatePositions)
    : option (list (list (nat * nat * nat))) :=
  if CandidatePositions.is_empty ip.2 then Some acc
  else
    segment ← node_segment self !! ip.1;
    segment_id ← segment;
    segment_offset ← node_segment_offset self !! ip.1;
    try_fold (λ acc position,
      slot ← acc !! segment_id;
      vec_set acc segment_id (slot ++ [(segment_offset, ip.1, position)]))
      (CandidatePositions.iter ip.2) acc.
Definition candidate_positions_by_segment (q : CandidateQuery)
    : option (list (list (nat * nat * nat))) :=
  acc ← try_fold segment_candidate (imap pair (candidate_positions q))
    (replicate (length (segments self)) []);
  Some (map (sort_by (λ a b, Nat.compare a.1.1 b.1.1)) acc).

(** [partition_point] of a slice split by [p]: the length of the prefix on
    which [p] holds. *)
Fixpoint partition_point {A} (p : A → bool) (l : list A) : nat :=
  match l with
  | [] => 0
  | x :: l' => if p x then S (partition_point p l') else 0
  end.

Record JumpState : Type := mkJump {
  js_traversal : TraversalState;
  segment_covered_from : list (option nat);
  segment_expanded : list bool
}.

Definition mark_segment_candidate (st : list bool * nat * gset nat) (c : nat * nat * nat)
    : option (list bool * nat * gset nat) :=
  let '(results, remaining_known, remaining) := st in
  let '(_, candidate_idx, position) := c in
  found ← results !! position;
  if found : bool then Some st
  else
    results ← vec_set results position true;
    Some (results, remaining_known - 1, remaining ∖ {[candidate_idx]}).

(** One iteration of the segment-jumping search. *)
Definition jump (by_segment : list (list (nat * nat * nat))) (curr : nat) (st : JumpState)
    : option (loop_step nat JumpState) :=
  let tr := js_traversal st in
  segment ← node_segment self !! curr;
  segment_id ← segment;
  segment_start ← node_segment_offset self !! curr;
  previous_start ← segment_covered_from st !! segment_id;
  let effective_start :=
    match previous_start with None => segment_start | Some covered => covered `min` segment_start end in
  if match previous_start with None => false | Some previous => previous <=? effective_start end
  then Some (Push st [])
  else
    covered_from ← vec_set (segment_covered_from st) segment_id (Some effective_start);
    segment_candidates ← by_segment !! segment_id;
    let first := partition_point (λ c : nat * nat * nat, c.1.1 <? effective_start) segment_candidates in
    '(results, remaining_known, remaining) ←
      try_fold mark_segment_candidate (drop first segment_candidates)
        (results tr, remaining_known tr, remaining_candidates tr);
    if remaining_known =? 0 then
      Some (Break (mkJump (mkTraversal results (reachable tr) remaining_known remaining)
        covered_from (segment_expanded st)))
    else
      expanded ← segment_expanded st !! segment_id;
      if expanded : bool then
        Some (Push (mkJump (mkTraversal results (reachable tr) remaining_known remaining)
          covered_from (segment_expanded st)) [])
      else
        segment_expanded ← vec_set (segment_expanded st) segment_id true;
        segment ← segments self !! segment_id;
        '(reachable, pushed) ← enqueue_range_pruned_children (tail segment) (reachable tr) remaining;
        Some (Push (mkJump (mkTraversal results reachable remaining_known remaining)
          covered_from segment_expanded) pushed).

Definition filter_reachable_segment_jumps (seeds : list Id) (q : CandidateQuery) : option (list nat) :=
  if (candidate_count q =? 0) || (known_candidate_position_count q =? 0) then Some []
  else
    by_segment ← candidate_positions_by_segment q;
    '(reachable, queue) ← seed_queue seeds (replicate (length (children_by_index self)) false);
    st ← try_drain (jump by_segment) (length (children_by_index self)) queue
      (mkJump (mkTraversal (replicate (candidate_count q) false) reachable
         (known_candidate_position_count q) (CandidateQuery.remaining_candidate_set q))
       (replicate (length (segments self)) None) (replicate (length (segments self)) false));
    Some (collect_reachable_positions (results (js_traversal st))).

Definition filter_reachable_with_mode (seeds candidates : list Id) : option (list nat * TraversalMode) :=
  q ← collect_candidates candidates;
  let mode := select_traversal_mode q in
  hits ← match mode with
         | PlainIndexedBfs | RangePruned => filter_reachable_with_candidates seeds q mode
         | SegmentJumps => filter_reachable_segment_jumps seeds q
         end;
  Some (hits, mode).

Definition filter_reachable (seeds candidates : list Id) : option (list nat) :=
  fst <$> filter_reachable_with_mode seeds candidates.

(** The loop over a node's children in [reaches_index]: [inl true] once the
    target is seen, else the flags and the children pushed. *)
Fixpoint reach_children (to_idx : nat) (children : list nat) (visited : list bool) (pushed : list nat)
    : option (bool + list bool * list nat) :=
  match children with
  | [] => Some (inr (visited, pushed))
  | child :: rest =>
      if child =? to_idx then Some (inl true)
      else if to_idx <? child then reach_children to_idx rest visited pushed
      else
        '(child_min, child_max) ← descendant_ranges self !! child;
        if (to_idx <? child_min) || (child_max <? to_idx) then reach_children to_idx rest visited pushed
        else
          seen ← visited !! child;
          if seen : bool then reach_children to_idx rest visited pushed
          else
            visited ← vec_set visited child true;
            reach_children to_idx rest visited (pushed ++ [child])
  end.

Definition reach_step (to_idx curr : nat) (st : bool * list bool)
    : option (loop_step nat (bool * list bool)) :=
  children ← children_by_index self !! curr;
  r ← reach_children to_idx children st.2 [];
  match r with
  | inl found => Some (Break (found, st.2))
  | inr (visited, pushed) => Some (Push (st.1, visited) pushed)
  end.

Definition reaches_index (from_idx to_idx : nat) : option bool :=
  if from_idx =? to_idx then Some true
  else
    '(min_descendant, max_descendant) ← descendant_ranges self !! from_idx;
    if (to_idx <? min_descendant) || (max_descendant <? to_idx) then Some false
    else
      visited ← vec_set (replicate (length (children_by_index self)) false) from_idx true;
      st ← try_drain (reach_step to_idx) (length (children_by_index self)) [from_idx] (false, visited);
      Some st.1.

Definition forward_step (curr : nat) (st : list bool * list nat)
    : option (loop_step nat (list bool * list nat)) :=
  '(reachable, pushed) ← enqueue_unvisited_children curr st.1;
  Some (Push (reachable, st.2 ++ [curr]) pushed).

Definition forward_reachable_ids (seeds : list Id) : option (list Id) :=
  '(reachable, queue) ← seed_queue seeds (replicate (length (children_by_index self)) false);
  st ← try_drain forward_step (length (children_by_index self)) queue (reachable, []);
  mapM (λ idx, items (index self) !! idx) st.2.
End queries.

(** ** The shared answer of both indexes *)

Definition reach_endpoints {Id} `{Countable Id} (ix : DenseIndex Id) (from to : Id)
    : option (nat * nat) :=
  from_idx ← index_of ix from;
  to_idx ← index_of ix to;
  Some (from_idx, to_idx).

Definition reach_from_index (from_idx to_idx : nat) (cyclic_nodes : gset nat) (self_is_reachable : bool)
    (contains : option bool) : option Reach.t :=
  if self_is_reachable && (from_idx =? to_idx) then Some Reach.Yes
  else if bool_decide (from_idx ∈ cyclic_nodes) || bool_decide (to_idx ∈ cyclic_nodes) then
    Some Reach.Unknown
  else (λ b : bool, if b then Reach.Yes else Reach.No) <$> contains.

Definition reaches_with {Id} `{Countable Id} (ix : DenseIndex Id) (cyclic_nodes : gset nat)
    (from to : Id) (self_is_reachable : bool) (contains : nat → nat → option bool) : option Reach.t :=
  match reach_endpoints ix from to with
  | None => Some Reach.Unknown
  | Some (from_idx, to_idx) =>
      reach_from_index from_idx to_idx cyclic_nodes self_is_reachable (contains from_idx to_idx)
  end.

(** [impl_reachability_via_index!] for the range index. *)
Definition reaches {Id} `{EventId Id} (self : RangePrefilterReachability Id) (from to : Id)
    : option Reach.t :=
  reaches_with (index self) (cyclic_nodes self) from to false (reaches_index self).
