(* ===== verification/Forward.v ===== *)
(** * The bitmap index ([ForwardReachabilityIndex], [src/src/resolve/reachability.rs])

    One set of reachable indices per node, filled from the last node back. A
    compressed [Bitmap] of the bitmap crate is a finite set. *)
From stdpp Require Import prelude gmap strings sorting.
From Stdlib Require String.
From S2P Require Import Prelude Dense EventTypes Json Events Reachability.

Module Forward.
Record ForwardReachabilityIndex (Id : Type) `{Countable Id} : Type := mkForward {
  fwd_index : DenseIndex Id;
  descendant_bitmaps : list (gset nat);
  fwd_cyclic_nodes : gset nat
}.
Arguments mkForward {Id _ _} _ _ _.
Arguments fwd_index {Id _ _} _.
Arguments descendant_bitmaps {Id _ _} _.
Arguments fwd_cyclic_nodes {Id _ _} _.

Definition bitmap_child (bitmaps : list (gset nat)) (bitmap : gset nat) (child_idx : nat)
    : option (gset nat) :=
  child ← bitmaps !! child_idx;
  Some (bitmap ∪ child).

Definition bitmap_node (children_by_index : list (list nat)) (bitmaps : list (gset nat)) (idx : nat)
    : option (list (gset nat)) :=
  children ← children_by_index !! idx;
  bitmap ← try_fold (bitmap_child bitmaps) children {[idx]};
  vec_set bitmaps idx bitmap.

Definition build_bitmaps (children_by_index : list (list nat)) : option (list (gset nat)) :=
  try_fold (bitmap_node children_by_index) (reverse (seq 0 (length children_by_index)))
    (replicate (length children_by_index) ∅).

Definition build {Id C} `{EventId Id} `{HashOrder} (graph : gmap Id (LeanEvent Id C))
    : option (ForwardReachabilityIndex Id) :=
  '(topo, children, leftover_nodes) ← collect_topology graph;
  index ← ok (try_build granted Idx_u32 topo);
  '(children_by_index, _) ← build_indexed_children (length topo) children index;
  descendant_bitmaps ← build_bitmaps children_by_index;
  Some (mkForward index descendant_bitmaps (indices_of index leftover_nodes)).

Definition filter_seed {Id} `{Countable Id} (self : ForwardReachabilityIndex Id) (reachable : gset nat)
    (seed : Id) : option (gset nat) :=
  match index_of (fwd_index self) seed with
  | None => Some reachable
  | Some idx =>
      bitmap ← descendant_bitmaps self !! idx;
      Some ({[idx]} ∪ reachable ∪ bitmap)
  end.

Definition filter_reachable {Id} `{Countable Id} (self : ForwardReachabilityIndex Id)
    (seeds candidates : list Id) : option (list nat) :=
  reachable ← try_fold (filter_seed self) seeds ∅;
  Some (omap (λ ic,
    match index_of (fwd_index self) ic.2 with
    | Some candidate_idx => if bool_decide (candidate_idx ∈ (reachable : gset nat)) then Some ic.1 else None
    | None => None
    end) (imap pair candidates)).

Definition reaches {Id} `{Countable Id} (self : ForwardReachabilityIndex Id) (from to : Id)
    : option Reach.t :=
  reaches_with (fwd_index self) (fwd_cyclic_nodes self) from to true (λ from_idx to_idx,
    bitmap ← descendant_bitmaps self !! from_idx;
    Some (bool_decide (to_idx ∈ (bitmap : gset nat)))).
End Forward.
