(* ===== verification/JsonContent.v ===== *)
(** * JSON event content ([impl EventContent for Value], [src/src/basespec/rezzy_types.rs])

    The power-level coercion and the production instance of [EventContent],
    with the proof that it keeps the interface's promises. *)
From stdpp Require Import prelude gmap strings sorting.
From Stdlib Require String.
From Stdlib Require Import Ascii.
From S2P Require Import Prelude EventTypes Json Events.

(** ** Integer coercion *)

Definition clamp (lo hi z : Z) : Z := Z.max lo (Z.min hi z).

Definition or_else {A} (o : option A) (o' : option A) : option A :=
  match o with Some _ => o | None => o' end.

(** [coerce_json_integer_parts]; [float] is the truncated double.  The bounds
    [i64::MIN as f64] and [i64::MAX as f64] are -2^63 and 2^63, and the cast
    saturates. *)
Definition coerce_json_integer_parts (signed unsigned float : option Z) (str : option string)
    : option Z :=
  let val :=
    or_else signed
      (or_else (match unsigned with Some u => Some (Z.min u I64_MAX) | None => None end)
        (or_else
          (match float with
           | Some t => if ((- 2 ^ 63 <=? t) && (t <=? 2 ^ 63))%Z then Some (Z.min t I64_MAX) else None
           | None => None
           end)
          (match str with Some s => parse_i64 s | None => None end))) in
  match val with
  | Some v => Some (clamp (- MAX_POWER_LEVEL_JSON) MAX_POWER_LEVEL_JSON v)
  | None => None
  end.

Definition coerce_json_to_i64 (pl : value) : option Z :=
  coerce_json_integer_parts (as_i64 pl) (as_u64 pl) (as_f64_trunc pl) (as_string pl).

(** [.map(|i| i.min(MAX_POWER_LEVEL_JSON))]. *)
Definition min_json (o : option Z) : option Z :=
  match o with Some i => Some (Z.min i MAX_POWER_LEVEL_JSON) | None => None end.

Definition scalar_pl (field : string) (v : value) : option Z :=
  match vget v field with Some x => min_json (coerce_json_to_i64 x) | None => None end.

Definition map_pl (field : string) (v : value) (key : string) : option Z :=
  match vget v field with
  | Some f =>
      match as_object f with
      | Some o => match obj_get o key with
                  | Some x => min_json (coerce_json_to_i64 x)
                  | None => None
                  end
      | None => None
      end
  | None => None
  end.

Definition get_string (field : string) (v : value) : option string :=
  match vget v field with Some x => as_string x | None => None end.

(** [visit_power_level_object]: the entries with an integer value. *)
Fixpoint visit_power_level_object (o : object) : list (string * Z) :=
  match o with
  | [] => []
  | (k, v) :: o' =>
      match coerce_json_to_i64 v with
      | Some pl => (k, Z.min pl MAX_POWER_LEVEL_JSON) :: visit_power_level_object o'
      | None => visit_power_level_object o'
      end
  end.

Definition field_object (field : string) (v : value) : option object :=
  match vget v field with Some f => as_object f | None => None end.

Definition visit_field (field : string) (v : value) : list (string * Z) :=
  match field_object field v with Some o => visit_power_level_object o | None => [] end.

(** A strict JSON integer: [v.is_i64() || v.is_u64()]. *)
Definition strict_integer (v : value) : bool := value_is_i64 v || value_is_u64 v.

Definition json_find_non_integer_scalar_pl (v : value) : option string :=
  find (λ field,
          match vget v field with
          | Some x => negb (strict_integer x)
          | None => false
          end)
    [FIELD_USERS_DEFAULT; FIELD_EVENTS_DEFAULT; FIELD_STATE_DEFAULT; FIELD_BAN;
     FIELD_REDACT; FIELD_KICK; FIELD_INVITE].

Definition json_find_non_integer_map_pl (v : value) : option string :=
  find (λ field,
          match vget v field with
          | Some x =>
              match as_object x with
              | Some o => existsb (λ kv, negb (strict_integer kv.2)) o
              | None => true
              end
          | None => false
          end)
    [FIELD_EVENTS; FIELD_NOTIFICATIONS].

Definition json_has_non_integer_users_pl (v : value) (strict : bool) : bool :=
  match vget v FIELD_USERS with
  | Some x =>
      match as_object x with
      | Some o =>
          existsb (λ kv, if strict then negb (strict_integer kv.2)
                         else match coerce_json_to_i64 kv.2 with Some _ => false | None => true end) o
      | None => true
      end
  | None => false
  end.

Definition json_has_additional_creator (v : value) (who : string) : bool :=
  match vget v FIELD_ADDITIONAL_CREATORS with
  | Some x =>
      match as_array x with
      | Some arr =>
          existsb (λ i, match as_string i with Some s => String.eqb s who | None => false end) arr
      | None => false
      end
  | None => false
  end.

(** [third_party_invite.signed]. *)
Definition tpi_signed (v : value) : option value :=
  match vget v FIELD_THIRD_PARTY_INVITE with
  | Some tpi => vget tpi FIELD_SIGNED
  | None => None
  end.

Definition json_tpi_field (field : string) (v : value) : option string :=
  match tpi_signed v with Some s => get_string field s | None => None end.

Definition json_has_tpi_signatures (v : value) : bool :=
  match tpi_signed v with
  | Some s => match field_object FIELD_SIGNATURES s with
              | Some o => negb (bool_decide (o = []))
              | None => false
              end
  | None => false
  end.

Definition is_some {A} (o : option A) : bool := match o with Some _ => true | None => false end.

(** [impl EventContent for Value]. *)
Global Instance json_content : EventContent value := {|
  get_membership := get_string FIELD_MEMBERSHIP;
  get_join_rule := get_string FIELD_JOIN_RULE;
  get_user_power_level := map_pl FIELD_USERS;
  get_event_power_level := map_pl FIELD_EVENTS;
  get_users_default := scalar_pl FIELD_USERS_DEFAULT;
  get_events_default := scalar_pl FIELD_EVENTS_DEFAULT;
  get_state_default := scalar_pl FIELD_STATE_DEFAULT;
  get_ban := scalar_pl FIELD_BAN;
  get_kick := scalar_pl FIELD_KICK;
  get_invite := scalar_pl FIELD_INVITE;
  get_redact := λ v, match vget v FIELD_REDACT with
                     | Some x => coerce_json_to_i64 x
                     | None => None
                     end;
  get_creator := get_string FIELD_CREATOR;
  get_room_version := get_string FIELD_ROOM_VERSION;
  has_malformed_room_version := λ v,
    match vget v FIELD_ROOM_VERSION with
    | Some x => negb (is_some (as_string x))
    | None => false
    end;
  get_m_federate := λ v, match vget v "m.federate" with Some x => as_bool x | None => None end;
  get_redacts := get_string FIELD_REDACTS;
  has_additional_creator := json_has_additional_creator;
  get_join_authorised_via_users_server := get_string FIELD_JOIN_AUTHORISED_VIA_USERS_SERVER;
  has_third_party_invite := λ v, is_some (vget v FIELD_THIRD_PARTY_INVITE);
  get_third_party_invite_token := json_tpi_field FIELD_TOKEN;
  get_third_party_invite_mxid := json_tpi_field FIELD_MXID;
  has_third_party_invite_signatures := json_has_tpi_signatures;
  visit_event_power_levels := visit_field FIELD_EVENTS;
  visit_user_power_levels := visit_field FIELD_USERS;
  visit_notification_power_levels := visit_field FIELD_NOTIFICATIONS;
  find_non_integer_scalar_pl := json_find_non_integer_scalar_pl;
  find_non_integer_map_pl := json_find_non_integer_map_pl;
  has_non_integer_users_pl := json_has_non_integer_users_pl;
  visit_user_keys := λ v, match field_object FIELD_USERS v with Some o => o.*1 | None => [] end;
  has_user_in_users := λ v u,
    match field_object FIELD_USERS v with Some o => obj_contains_key o u | None => false end
|}.

(** ** The bounds of a wire power level *)

Lemma coerce_bounds signed unsigned float str z :
  coerce_json_integer_parts signed unsigned float str = Some z →
  (- MAX_POWER_LEVEL_JSON ≤ z ≤ MAX_POWER_LEVEL_JSON)%Z.
Proof.
  unfold coerce_json_integer_parts, clamp, MAX_POWER_LEVEL_JSON. case_match; intros [= <-]. lia.
Qed.

Lemma min_json_id o :
  (∀ z, o = Some z → (z ≤ MAX_POWER_LEVEL_JSON)%Z) → min_json o = o.
Proof. destruct o as [z|]; simpl; [|done]. intros H. f_equal. specialize (H z eq_refl). lia. Qed.

Lemma min_json_coerce x : min_json (coerce_json_to_i64 x) = coerce_json_to_i64 x.
Proof. apply min_json_id. intros z E. unfold coerce_json_to_i64 in E. apply coerce_bounds in E. lia. Qed.

Lemma map_pl_bounds f v k z :
  map_pl f v k = Some z → (- MAX_POWER_LEVEL_JSON ≤ z ≤ MAX_POWER_LEVEL_JSON)%Z.
Proof.
  unfold map_pl. intros E. case_all. rewrite min_json_coerce in *. by eapply coerce_bounds.
Qed.

Lemma scalar_pl_bounds f v z :
  scalar_pl f v = Some z → (- MAX_POWER_LEVEL_JSON ≤ z ≤ MAX_POWER_LEVEL_JSON)%Z.
Proof.
  unfold scalar_pl. intros E. case_all. rewrite min_json_coerce in *. by eapply coerce_bounds.
Qed.

Lemma json_bounds_i64 z :
  (- MAX_POWER_LEVEL_JSON ≤ z ≤ MAX_POWER_LEVEL_JSON)%Z → is_i64 z.
Proof. unfold is_i64, I64_MIN, I64_MAX, MAX_POWER_LEVEL_JSON. lia. Qed.

Lemma visit_power_level_object_elem o k z :
  obj_sorted o →
  (k, z) ∈ visit_power_level_object o ↔
    ∃ x, obj_get o k = Some x ∧ coerce_json_to_i64 x = Some z.
Proof.
  intros Hs. transitivity (∃ x, (k, x) ∈ o ∧ coerce_json_to_i64 x = Some z).
  - clear Hs. induction o as [|[k' v] o IH]; simpl; [set_solver|].
    destruct (coerce_json_to_i64 v) as [pl|] eqn:E; rewrite ?elem_of_cons, IH.
    + assert (Z.min pl MAX_POWER_LEVEL_JSON = pl) as ->.
      { unfold coerce_json_to_i64 in E. apply coerce_bounds in E. lia. }
      split.
      * intros [[= -> ->]|[x [Hin Hx]]]; [exists v|exists x]; set_solver.
      * intros [x [[[= -> ->]|Hin]%elem_of_cons Hx]]; [left; congruence|right; eauto].
    + split; intros [x [Hin Hx]]; exists x; [set_solver|].
      apply elem_of_cons in Hin as [[= -> ->]|Hin]; [congruence|done].
  - split; intros [x [Hin Hx]]; exists x; split; try done.
    + by apply obj_sorted_get.
    + by apply obj_get_In.
Qed.

(** Every object below [v] is a well-formed [BTreeMap]. *)
Fixpoint value_wf (v : value) : Prop :=
  match v with
  | Array l => (fix go (l : list value) : Prop :=
                  match l with [] => True | x :: l' => value_wf x ∧ go l' end) l
  | Object o =>
      obj_sorted o ∧
      (fix go (o : object) : Prop :=
         match o with [] => True | (_, x) :: o' => value_wf x ∧ go o' end) o
  | _ => True
  end.

Lemma value_wf_get v k x : value_wf v → vget v k = Some x → value_wf x.
Proof.
  destruct v as [| | | | |o]; simpl; try done. intros [_ Hwf] Hg.
  induction o as [|[k' v'] o IH]; simpl in *; [done|].
  destruct Hwf as [Hv Hwf]. case_match; [congruence|]. by apply IH.
Qed.

Global Program Instance json_content_laws : EventContentLaws value :=
  {| content_wf := value_wf |}.
Next Obligation. intros c u z E. eapply json_bounds_i64, map_pl_bounds, E. Qed.
Next Obligation. intros c z E. eapply json_bounds_i64, scalar_pl_bounds, E. Qed.
Next Obligation.
  intros c u z Hwf. simpl. unfold visit_field, field_object, map_pl.
  destruct (vget c FIELD_USERS) as [f|] eqn:Ef; simpl; [|set_solver].
  destruct (as_object f) as [o|] eqn:Eo; [|set_solver].
  assert (obj_sorted o) as Hs.
  { apply (value_wf_get c) in Ef; [|done]. destruct f; simplify_eq/=. by destruct Ef. }
  rewrite visit_power_level_object_elem by done.
  destruct (obj_get o u) as [x|]; [|naive_solver].
  rewrite min_json_coerce. naive_solver.
Qed.

(** Well-formedness of a literal value. *)
Ltac wf_json := simpl; unfold obj_sorted; repeat constructor.
