(* ===== verification/Auth.v ===== *)
(** * Authorization rules ([src/src/auth/mod.rs], [src/src/auth/user.rs])

    [check_auth_with_context] with every rule it calls, in the order of the
    code.  A room state is anything that answers lookups by type and state
    key ([StateProvider]); the verifier is the caller's ([EventVerifier]). *)
From stdpp Require Import prelude gmap strings sorting pretty.
From Stdlib Require String.
From Stdlib Require Import Ascii.
From S2P Require Import Prelude EventTypes Json Events.

Inductive AuthError (Id : Type) : Type :=
| NotMember (sender : string) (event_id : Id)
| InsufficientPowerLevel (required actual : Z) (event_type : string)
| BannedUser (sender : string) (event_id : Id)
| InvalidStateKey (expected actual : string)
| CreateWithPrevEvents
| MissingAuthEvent (id : Id)
| MissingCreate
| InvalidSyntax (reason : string)
| IncompleteAuthEvents (event_type state_key : string)
| ForeignRoomEvent (event_id auth_event_id : Id) (expected : string) (actual : option string)
| RejectedAuthEvent (event_id auth_event_id : Id).
Arguments NotMember {Id}.
Arguments InsufficientPowerLevel {Id}.
Arguments BannedUser {Id}.
Arguments InvalidStateKey {Id}.
Arguments CreateWithPrevEvents {Id}.
Arguments MissingAuthEvent {Id}.
Arguments MissingCreate {Id}.
Arguments InvalidSyntax {Id}.
Arguments IncompleteAuthEvents {Id}.
Arguments ForeignRoomEvent {Id}.
Arguments RejectedAuthEvent {Id}.

(** The [EventVerifier] trait: the caller's cryptographic checks. *)
Record EventVerifier (Id : Type) := {
  verify_event_id_hash : Id → result () string;
  verify_signatures : Id → result () string;
  verify_content_hash : Id → result () string;
  verify_third_party_invite : Id → string → result () string;
  verify_join_authorised_via_users_server : Id → string → result () string
}.
Arguments verify_event_id_hash {Id}.
Arguments verify_signatures {Id}.
Arguments verify_content_hash {Id}.
Arguments verify_third_party_invite {Id}.
Arguments verify_join_authorised_via_users_server {Id}.

(** [.map_err(AuthError::InvalidSyntax)]. *)
Definition syntax_err {Id} (r : result () string) : result () (AuthError Id) :=
  match r with Ok a => Ok a | Err s => Err (InvalidSyntax s) end.

Section auth.
Context {Id C : Type} `{EventId Id} `{EventContent C}.
Abbreviation event := (LeanEvent Id C).
Abbreviation res := (result () (AuthError Id)).

(** The [StateProvider] trait: lookup by event type and state key. *)
Definition StateProvider : Type := string → string → option event.

Implicit Types (ev : event) (state : StateProvider).

(** [RoomState], a [BTreeMap<(String, K), LeanEvent>], as a provider. *)
Definition RoomState : Type := gmap (string * string) event.
Definition room_state (s : gmap (string * string) event) : StateProvider :=
  λ ty sk, s !! (ty, sk).

(** ** Room version *)

Definition unrecognised_version : AuthError Id :=
  InvalidSyntax "m.room.create content.room_version is not a recognised room version".

Definition get_room_version_num state : result Z (AuthError Id) :=
  match state M_ROOM_CREATE "" with
  | None => Err MissingCreate
  | Some create =>
      match get_room_version (content create) with
      | None => Ok 1%Z
      | Some v =>
          match from_room_version v with
          | None => Err unrecognised_version
          | Some r =>
              match parse_u32 v with
              | Some num => Ok num
              | None => if is_v2_1_plus r then Ok 12%Z else Ok 1%Z
              end
          end
      end
  end.

Definition room_version_at_least state (minimum_version : Z) : result bool (AuthError Id) :=
  n ←? get_room_version_num state; Ok (minimum_version <=? n)%Z.

Definition validated_room_version_or_v1 state : result (option string) (AuthError Id) :=
  match state M_ROOM_CREATE "" with
  | None => Ok None
  | Some create =>
      match get_room_version (content create) with
      | None =>
          if has_malformed_room_version (content create)
          then Err unrecognised_version else Ok None
      | Some version =>
          match from_room_version version with
          | None => Err unrecognised_version
          | Some _ => Ok (Some version)
          end
      end
  end.

Definition room_version_str_or_v1 state : result string (AuthError Id) :=
  v ←? validated_room_version_or_v1 state; Ok (default "1" v).

(** ** Rejected auth state *)

Definition reject_if_flagged_auth_state state (ty sk : string) : res :=
  match state ty sk with
  | Some e =>
      if rejected e then
        Err (InvalidSyntax ("rejected auth state event " +:+ ty +:+ "/" +:+ sk +:+ " must not be used"))
      else Ok tt
  | None => Ok tt
  end.

Definition is_member ev : bool := event_type ev ==s M_ROOM_MEMBER.

Definition reject_flagged_auth_state ev state : res :=
  let membership := get_membership (content ev) in
  reject_if_flagged_auth_state state M_ROOM_CREATE "" ;?;
  reject_if_flagged_auth_state state M_ROOM_POWER_LEVELS "" ;?;
  reject_if_flagged_auth_state state M_ROOM_MEMBER (sender ev) ;?;
  (match state_key ev with
   | Some target_user =>
       if is_member ev then reject_if_flagged_auth_state state M_ROOM_MEMBER target_user else Ok tt
   | None => Ok tt
   end) ;?;
  (if is_member ev
      && (opt_is membership MEM_JOIN || opt_is membership MEM_INVITE || opt_is membership MEM_KNOCK)
   then reject_if_flagged_auth_state state M_ROOM_JOIN_RULES "" else Ok tt) ;?;
  (if is_member ev && opt_is membership MEM_JOIN then
     match get_join_authorised_via_users_server (content ev) with
     | Some authorising_user => reject_if_flagged_auth_state state M_ROOM_MEMBER authorising_user
     | None => Ok tt
     end
   else Ok tt) ;?;
  (if is_member ev && opt_is membership MEM_INVITE then
     match get_third_party_invite_token (content ev) with
     | Some token => reject_if_flagged_auth_state state M_ROOM_THIRD_PARTY_INVITE token
     | None => Ok tt
     end
   else Ok tt).

(** ** Power levels ([auth/user.rs]) *)

Definition get_sender_power_level (who : string) state (version : StateResVersion) : Z :=
  let creator_wins :=
    if is_v2_1_plus version then
      match state M_ROOM_CREATE "" with
      | Some create => (sender create ==s who) || has_additional_creator (content create) who
      | None => false
      end
    else false in
  if creator_wins then MAX_POWER_LEVEL_RUST
  else
    match state M_ROOM_POWER_LEVELS "" with
    | Some pl_event =>
        match get_user_power_level (content pl_event) who with
        | Some pl => pl
        | None =>
            match get_users_default (content pl_event) with
            | Some default_pl => default_pl
            | None => DEFAULT_PL_USER
            end
        end
    | None =>
        match state M_ROOM_CREATE "" with
        | Some create =>
            let creator := default (sender create) (get_creator (content create)) in
            if creator ==s who then 100%Z else DEFAULT_PL_USER
        | None => DEFAULT_PL_USER
        end
    end.

Definition pl_field_or_default state (select : C → option Z) (dflt : Z) : Z :=
  match state M_ROOM_POWER_LEVELS M_EMPTY_STATE_KEY with
  | Some e => default dflt (select (content e))
  | None => dflt
  end.

Definition get_redact_power_level state : Z := pl_field_or_default state get_redact DEFAULT_PL_REDACT.
Definition get_kick_power_level state : Z := pl_field_or_default state get_kick DEFAULT_PL_KICK.
Definition get_invite_power_level state : Z := pl_field_or_default state get_invite DEFAULT_PL_INVITE.
Definition get_ban_power_level state : Z := pl_field_or_default state get_ban DEFAULT_PL_BAN.

Definition meets_threshold (user : string) state (version : StateResVersion) (threshold : Z) : bool :=
  (threshold <=? get_sender_power_level user state version)%Z.
Definition user_can_ban user state version : bool :=
  meets_threshold user state version (get_ban_power_level state).

Definition pl_threshold_for_event (pl_event : event) (ty : string) (sk : option string) : Z :=
  if ty ==s M_ROOM_THIRD_PARTY_INVITE then default 0%Z (get_invite (content pl_event))
  else
    match get_event_power_level (content pl_event) ty with
    | Some pl => pl
    | None =>
        match sk with
        | Some _ => default 50%Z (get_state_default (content pl_event))
        | None => default 0%Z (get_events_default (content pl_event))
        end
    end.

Definition get_required_power_level (ty : string) (sk : option string) state : Z :=
  match state M_ROOM_POWER_LEVELS "" with
  | Some pl_event => pl_threshold_for_event pl_event ty sk
  | None =>
      if ty ==s M_ROOM_THIRD_PARTY_INVITE then 0%Z
      else match sk with Some _ => 50%Z | None => 0%Z end
  end.

(** ** Rules 10.6-10.10: changes of the power levels *)

Definition check_scalar_pl (field : string) (old new : option Z) (sender_pl : Z) : res :=
  if bool_decide (old = new) then Ok tt
  else
    (match old with
     | Some old_val =>
         if (sender_pl <? old_val)%Z then
           Err (InvalidSyntax ("cannot change " +:+ field +:+ ": current value " +:+ pretty old_val
                               +:+ " > sender PL " +:+ pretty sender_pl))
         else Ok tt
     | None => Ok tt
     end) ;?;
    (match new with
     | Some new_val =>
         if (sender_pl <? new_val)%Z then
           Err (InvalidSyntax ("cannot set " +:+ field +:+ " to " +:+ pretty new_val
                               +:+ ": exceeds sender PL " +:+ pretty sender_pl))
         else Ok tt
     | None => Ok tt
     end).

(** The [BTreeMap] the visitor fills, and its iteration in key order. *)
Definition btree_of (entries : list (string * Z)) : gmap string Z :=
  foldl (λ m kv, <[kv.1 := kv.2]> m) ∅ entries.
Definition btree_iter {V} (m : gmap string V) : list (string * V) :=
  sort_by (cmp_on fst String.compare) (map_to_list m).

(** [map.get(key).is_none_or(|&v| v != val)]. *)
Definition entry_changed (m : gmap string Z) (key : string) (val : Z) : bool :=
  match m !! key with Some v => negb (Z.eqb v val) | None => true end.

Fixpoint for_each (f : string → Z → res) (l : list (string * Z)) : res :=
  match l with
  | [] => Ok tt
  | (k, v) :: l' => f k v ;?; for_each f l'
  end.

(** Rules 10.7 and 10.8 on the [events] or [notifications] map. *)
Definition check_pl_map (label : string) (old_entries new_entries : list (string * Z))
    (sender_pl : Z) : res :=
  let old := btree_of old_entries in
  let new := btree_of new_entries in
  for_each (λ key old_val,
    if entry_changed new key old_val && (sender_pl <? old_val)%Z then
      Err (InvalidSyntax ("cannot change " +:+ label +:+ "[" +:+ key +:+ "]: current value "
                          +:+ pretty old_val +:+ " > sender PL " +:+ pretty sender_pl))
    else Ok tt) (btree_iter old) ;?;
  for_each (λ key new_val,
    if entry_changed old key new_val && (sender_pl <? new_val)%Z then
      Err (InvalidSyntax ("cannot set " +:+ label +:+ "[" +:+ key +:+ "] to " +:+ pretty new_val
                          +:+ ": exceeds sender PL " +:+ pretty sender_pl))
    else Ok tt) (btree_iter new).

(** Rules 10.9 and 10.10 on the [users] map. *)
Definition check_pl_users (who : string) (old_entries new_entries : list (string * Z))
    (sender_pl : Z) : res :=
  let old := btree_of old_entries in
  let new := btree_of new_entries in
  for_each (λ key old_val,
    if key ==s who then Ok tt
    else if entry_changed new key old_val && (sender_pl <=? old_val)%Z then
      Err (InvalidSyntax ("cannot change users[" +:+ key +:+ "]: current PL "
                          +:+ pretty old_val +:+ " >= sender PL " +:+ pretty sender_pl))
    else Ok tt) (btree_iter old) ;?;
  for_each (λ key new_val,
    if entry_changed old key new_val && (sender_pl <? new_val)%Z then
      Err (InvalidSyntax ("cannot set users[" +:+ key +:+ "] to " +:+ pretty new_val
                          +:+ ": exceeds sender PL " +:+ pretty sender_pl))
    else Ok tt) (btree_iter new).

Definition check_power_levels_rules (who : string) (new_content prev_pl : C) (sender_pl : Z) : res :=
  check_scalar_pl "users_default" (get_users_default prev_pl) (get_users_default new_content) sender_pl ;?;
  check_scalar_pl "events_default" (get_events_default prev_pl) (get_events_default new_content) sender_pl ;?;
  check_scalar_pl "state_default" (get_state_default prev_pl) (get_state_default new_content) sender_pl ;?;
  check_scalar_pl "ban" (get_ban prev_pl) (get_ban new_content) sender_pl ;?;
  check_scalar_pl "redact" (get_redact prev_pl) (get_redact new_content) sender_pl ;?;
  check_scalar_pl "kick" (get_kick prev_pl) (get_kick new_content) sender_pl ;?;
  check_scalar_pl "invite" (get_invite prev_pl) (get_invite new_content) sender_pl ;?;
  check_pl_map "events" (visit_event_power_levels prev_pl)
    (visit_event_power_levels new_content) sender_pl ;?;
  check_pl_map "notifications" (visit_notification_power_levels prev_pl)
    (visit_notification_power_levels new_content) sender_pl ;?;
  check_pl_users who (visit_user_power_levels prev_pl)
    (visit_user_power_levels new_content) sender_pl.

(** ** Membership transitions *)

Definition not_member (who : string) (id : Id) : AuthError Id := NotMember who id.
Definition banned_user (who : string) (id : Id) : AuthError Id := BannedUser who id.

(** [state.get_event(m.room.member, user).and_then(get_membership)]. *)
Definition membership_of state (user : string) : option string :=
  match state M_ROOM_MEMBER user with
  | Some e => get_membership (content e)
  | None => None
  end.

Definition check_leave_rules ev state (target_user current_membership : string)
    (version : StateResVersion) : res :=
  if target_user ==s sender ev then
    if (current_membership ==s MEM_INVITE) || (current_membership ==s MEM_JOIN)
       || (current_membership ==s MEM_KNOCK)
    then Ok tt
    else Err (not_member (sender ev) (event_id ev))
  else
    let sender_pl := get_sender_power_level (sender ev) state version in
    let '(required, label) :=
      if current_membership ==s MEM_BAN then (get_ban_power_level state, "unban")
      else (get_kick_power_level state, "kick") in
    if (sender_pl <? required)%Z then Err (InsufficientPowerLevel required sender_pl label)
    else Ok tt.

Definition check_ban_rules ev state (version : StateResVersion) : res :=
  let sender_pl := get_sender_power_level (sender ev) state version in
  let ban_pl := get_ban_power_level state in
  if (sender_pl <? ban_pl)%Z then Err (InsufficientPowerLevel ban_pl sender_pl "ban")
  else Ok tt.

Definition check_invite_rules ev state (target_user current_membership : string)
    (version : StateResVersion) (verifier : option (EventVerifier Id)) : res :=
  if target_user ==s sender ev then
    Err (InvalidStateKey ("!= " +:+ sender ev) target_user)
  else
    let invite_pl := get_invite_power_level state in
    if has_third_party_invite (content ev) then
      if current_membership ==s MEM_BAN then Err (banned_user target_user (event_id ev))
      else
        match get_third_party_invite_token (content ev) with
        | None => Err (InvalidSyntax "invalid third_party_invite: missing signed.token")
        | Some token =>
        match get_third_party_invite_mxid (content ev) with
        | None => Err (InvalidSyntax "invalid third_party_invite: missing signed.mxid")
        | Some mxid =>
            if negb (has_third_party_invite_signatures (content ev)) then
              Err (InvalidSyntax "invalid third_party_invite: missing or empty signed.signatures")
            else
              (match verifier with
               | Some v => syntax_err (verify_third_party_invite v (event_id ev) token)
               | None => Ok tt
               end) ;?;
              if negb (mxid ==s target_user) then
                Err (InvalidStateKey ("mxid == " +:+ target_user) mxid)
              else
                match state M_ROOM_THIRD_PARTY_INVITE token with
                | None => Err (InvalidStateKey "m.room.third_party_invite event exists" "missing")
                | Some tpi_event =>
                    if negb (sender tpi_event ==s sender ev) then
                      Err (InvalidStateKey ("sender == " +:+ sender tpi_event) (sender ev))
                    else
                      let issuer_pl := get_sender_power_level (sender tpi_event) state version in
                      if (issuer_pl <? invite_pl)%Z then
                        Err (InsufficientPowerLevel invite_pl issuer_pl "invite")
                      else Ok tt
                end
        end
        end
    else
      let sender_pl := get_sender_power_level (sender ev) state version in
      if (sender_pl <? invite_pl)%Z then Err (InsufficientPowerLevel invite_pl sender_pl "invite")
      else if current_membership ==s MEM_JOIN then Err (not_member target_user (event_id ev))
      else if current_membership ==s MEM_BAN then Err (banned_user target_user (event_id ev))
      else Ok tt.

Definition check_membership_pl_hierarchies ev state (target_user new_membership : string)
    (version : StateResVersion) : res :=
  if negb (target_user ==s sender ev)
     && ((new_membership ==s MEM_LEAVE) || (new_membership ==s MEM_BAN))
  then
    let sender_pl := get_sender_power_level (sender ev) state version in
    let target_pl := get_sender_power_level target_user state version in
    if (sender_pl <=? target_pl)%Z then
      Err (InsufficientPowerLevel (i64_saturating_add target_pl 1) sender_pl
             "m.rezzy.member_pl_greater_than_target")
    else Ok tt
  else Ok tt.

Definition check_authorising_user ev state (authorising_user : string)
    (version : StateResVersion) (verifier : option (EventVerifier Id)) : res :=
  let auth_membership := default "" (membership_of state authorising_user) in
  if negb (auth_membership ==s MEM_JOIN) then Err (not_member (sender ev) (event_id ev))
  else
    let auth_user_pl := get_sender_power_level authorising_user state version in
    if (auth_user_pl <? get_invite_power_level state)%Z
    then Err (not_member (sender ev) (event_id ev))
    else
      match verifier with
      | Some v => syntax_err (verify_join_authorised_via_users_server v (event_id ev) authorising_user)
      | None => Ok tt
      end.

(** The room's join rule; [invite] when unset. *)
Definition join_rule_of state : string :=
  default RULE_INVITE
    (match state M_ROOM_JOIN_RULES "" with
     | Some e => get_join_rule (content e)
     | None => None
     end).

Definition check_join_rules ev state (target_user : string)
    (version : StateResVersion) (verifier : option (EventVerifier Id)) : res :=
  if negb (target_user ==s sender ev) then Err (InvalidStateKey (sender ev) target_user)
  else
    let current_membership := default "" (membership_of state target_user) in
    if current_membership ==s MEM_BAN then Err (banned_user (sender ev) (event_id ev))
    else
      let join_rule := join_rule_of state in
      supports_restricted ←? room_version_at_least state 8;
      supports_knock_restricted ←? room_version_at_least state 10;
      let is_creator :=
        match state M_ROOM_CREATE "" with
        | Some create => sender create ==s sender ev
        | None => false
        end in
      if is_creator then Ok tt
      else if (join_rule ==s RULE_INVITE) || (join_rule ==s RULE_KNOCK) then
        if (current_membership ==s MEM_INVITE) || (current_membership ==s MEM_JOIN) then Ok tt
        else Err (not_member (sender ev) (event_id ev))
      else if ((join_rule ==s RULE_RESTRICTED) && supports_restricted)
              || ((join_rule ==s RULE_KNOCK_RESTRICTED) && supports_knock_restricted) then
        if (current_membership ==s MEM_INVITE) || (current_membership ==s MEM_JOIN) then Ok tt
        else
          match get_join_authorised_via_users_server (content ev) with
          | Some authorising_user => check_authorising_user ev state authorising_user version verifier
          | None => Err (not_member (sender ev) (event_id ev))
          end
      else if negb (join_rule ==s RULE_PUBLIC) then Err (not_member (sender ev) (event_id ev))
      else Ok tt.

Definition check_knock_rules ev state (target_user : string) : res :=
  if negb (target_user ==s sender ev) then Err (InvalidStateKey (sender ev) target_user)
  else
    let current_membership := default "" (membership_of state target_user) in
    if current_membership ==s MEM_BAN then Err (banned_user (sender ev) (event_id ev))
    else if (current_membership ==s MEM_INVITE) || (current_membership ==s MEM_JOIN)
    then Err (not_member (sender ev) (event_id ev))
    else
      let join_rule := join_rule_of state in
      supports_knock_restricted ←? room_version_at_least state 10;
      if negb (join_rule ==s RULE_KNOCK)
         && negb ((join_rule ==s RULE_KNOCK_RESTRICTED) && supports_knock_restricted)
      then Err (not_member (sender ev) (event_id ev))
      else Ok tt.

(** ** The auth-events selection *)

(** [room_version.split('.').next().and_then(parse::<u32>)] is at least 8, or
    the version maps to V2.1+. *)
Definition restricted_join_version (room_version : string) : bool :=
  (match parse_u32 (split_first "."%char room_version) with
   | Some major => (8 <=? major)%Z
   | None => false
   end)
  || match from_room_version room_version with Some v => is_v2_1_plus v | None => false end.

Definition auth_types_for_event_core (ty who : string) (sk membership tpi_token authorised : option string)
    (version : StateResVersion) (room_version : string) : list (string * string) :=
  if ty ==s M_ROOM_CREATE then []
  else
    (if is_v2_1_plus version then [] else [(M_ROOM_CREATE, "")])
    ++ [(M_ROOM_MEMBER, who); (M_ROOM_POWER_LEVELS, "")]
    ++ (if ty ==s M_ROOM_MEMBER then
          (match sk with
           | Some k => if k ==s who then [] else [(M_ROOM_MEMBER, k)]
           | None => []
           end)
          ++ (if opt_is membership MEM_JOIN || opt_is membership MEM_INVITE
                 || opt_is membership MEM_KNOCK
              then [(M_ROOM_JOIN_RULES, "")] else [])
          ++ (if opt_is membership MEM_INVITE then
                match tpi_token with Some t => [(M_ROOM_THIRD_PARTY_INVITE, t)] | None => [] end
              else [])
          ++ (if opt_is membership MEM_JOIN && restricted_join_version room_version then
                match authorised with Some u => [(M_ROOM_MEMBER, u)] | None => [] end
              else [])
        else []).

(** [required_auth_types_for] and [auth_types_for_event_like]. *)
Definition required_auth_types_for ev (version : StateResVersion) (room_version : string)
    : list (string * string) :=
  auth_types_for_event_core (event_type ev) (sender ev) (state_key ev)
    (get_membership (content ev)) (get_third_party_invite_token (content ev))
    (get_join_authorised_via_users_server (content ev)) version room_version.

(** ** Rules 2.1-2.4 on the cited auth events *)

Definition VALID_AUTH_TYPES : list string :=
  [M_ROOM_CREATE; M_ROOM_MEMBER; M_ROOM_POWER_LEVELS; M_ROOM_JOIN_RULES; M_ROOM_THIRD_PARTY_INVITE].

Fixpoint check_citations ev (version : StateResVersion) (provider : Id → option event)
    (ids : list Id) (seen : gmap (string * string) Id)
    : result (gmap (string * string) Id) (AuthError Id) :=
  match ids with
  | [] => Ok seen
  | auth_id :: ids' =>
      match provider auth_id with
      | None => Err (MissingAuthEvent auth_id)
      | Some auth_ev =>
          if rejected auth_ev then Err (RejectedAuthEvent (event_id ev) auth_id)
          else if is_v2_1_plus version && (event_type auth_ev ==s M_ROOM_CREATE) then
            Err (InvalidSyntax "referencing m.room.create in auth_events is forbidden in room v12+")
          else if negb (existsb (String.eqb (event_type auth_ev)) VALID_AUTH_TYPES) then
            Err (InvalidSyntax ("unexpected event type in auth_events: " +:+ event_type auth_ev))
          else
            let key := (event_type auth_ev, default "" (state_key auth_ev)) in
            match seen !! key with
            | Some _ => Err (InvalidSyntax "auth_events contains duplicate (type, state_key) pair")
            | None => check_citations ev version provider ids' (<[key := auth_id]> seen)
            end
      end
  end.

Fixpoint check_complete state (seen : gmap (string * string) Id) (req : list (string * string)) : res :=
  match req with
  | [] => Ok tt
  | (req_type, req_key) :: req' =>
      match state req_type req_key with
      | None => check_complete state seen req'
      | Some state_ev =>
          match seen !! (req_type, req_key) with
          | Some cited_id =>
              if bool_decide (cited_id = event_id state_ev) then check_complete state seen req'
              else Err (IncompleteAuthEvents req_type req_key)
          | None => Err (IncompleteAuthEvents req_type req_key)
          end
      end
  end.

Definition check_auth_events ev state (version : StateResVersion)
    (auth_context : option (Id → option event)) : res :=
  match auth_context with
  | None => Ok tt
  | Some provider =>
      if version_eqb version V2_2 then Ok tt
      else
        (if is_v2_1_plus version then Ok tt
         else
           match state M_ROOM_CREATE "" with
           | None => Err (InvalidSyntax
               "missing m.room.create in room state (cannot validate auth_events for v1-v11)")
           | Some create_ev =>
               if negb (existsb (λ id, bool_decide (id = event_id create_ev)) (auth_events ev)) then
                 Err (InvalidSyntax "auth_events must contain m.room.create in room versions 1-11")
               else Ok tt
           end) ;?;
        seen_tuples ←? check_citations ev version provider (auth_events ev) ∅;
        room_version ←? room_version_str_or_v1 state;
        check_complete state seen_tuples (required_auth_types_for ev version room_version)
  end.

(** ** [check_auth_with_context], block by block *)

(** Rule 0: syntactic limits. *)
Definition check_syntax ev (version : StateResVersion) : res :=
  if 20 <? length (prev_events ev) then
    Err (InvalidSyntax "prev_events exceeds maximum allowed length of 20")
  else
    let is_msc4242 := version_eqb version V2_2 in
    if negb is_msc4242 && (10 <? length (auth_events ev)) then
      Err (InvalidSyntax "auth_events exceeds maximum allowed length of 10")
    else if is_msc4242 && (MAX_PREV_STATE_EVENTS <? length (prev_state_events ev)) then
      Err (InvalidSyntax ("prev_state_events exceeds maximum allowed length of "
                          +:+ pretty MAX_PREV_STATE_EVENTS))
    else if str_is_empty (event_type ev) then
      Err (InvalidSyntax "event_type cannot be empty")
    else if rejected ev then
      Err (InvalidSyntax "rejected events must not be auth-checked")
    else Ok tt.

(** The optional verification pipeline, steps 1-3. *)
Definition check_verifier ev (verifier : option (EventVerifier Id)) : res :=
  match verifier with
  | Some v =>
      syntax_err (verify_event_id_hash v (event_id ev)) ;?;
      syntax_err (verify_signatures v (event_id ev)) ;?;
      syntax_err (verify_content_hash v (event_id ev))
  | None => Ok tt
  end.

(** Rule 1: the create event. *)
Definition check_create ev : res :=
  if negb (bool_decide (prev_events ev = [])) then Err CreateWithPrevEvents
  else if negb (is_valid_mxid (sender ev)) then
    Err (InvalidSyntax "m.room.create sender must be a valid MXID")
  else if has_malformed_room_version (content ev)
          || match get_room_version (content ev) with
             | Some v => match from_room_version v with Some _ => false | None => true end
             | None => false
             end
  then Err unrecognised_version
  else Ok tt.

(** Rule 3: [m.federate]. *)
Definition check_federate ev state : res :=
  match state M_ROOM_CREATE "" with
  | Some create_ev =>
      if bool_decide (get_m_federate (content create_ev) = Some false)
         && negb (domain_matches (sender ev) (sender create_ev)) then
        Err (InvalidSyntax ("cross-domain event from sender " +:+ sender ev
                            +:+ " rejected: room has m.federate=false"))
      else Ok tt
  | None => Ok tt
  end.

(** Rule 4 (room versions 1-5): [m.room.aliases]. *)
Definition check_aliases ev state : res :=
  if event_type ev ==s M_ROOM_ALIASES then
    room_version ←? room_version_str_or_v1 state;
    if existsb (String.eqb room_version) ["1"; "2"; "3"; "4"; "5"] then
      match state_key ev with
      | None => Err (InvalidSyntax "m.room.aliases event must have a state_key")
      | Some sk =>
          if negb (domain_matches sk (sender ev)) then
            Err (InvalidSyntax "m.room.aliases state_key domain must match sender domain")
          else Ok tt
      end
    else Ok tt
  else Ok tt.

(** Rule 11 (room versions 1-2): [m.room.redaction]. *)
Definition check_redaction ev state (version : StateResVersion) : res :=
  if event_type ev ==s M_ROOM_REDACTION then
    room_version ←? room_version_str_or_v1 state;
    if existsb (String.eqb room_version) ["1"; "2"] then
      let sender_pl := get_sender_power_level (sender ev) state version in
      let redact_pl := get_redact_power_level state in
      let same_domain :=
        match get_redacts (content ev) with
        | Some target => domain_matches target (id_display (event_id ev))
        | None => false
        end in
      if (sender_pl <? redact_pl)%Z && negb same_domain then
        Err (InvalidSyntax "m.room.redaction requires sender PL >= redact level, or same domain as the redacted event")
      else Ok tt
    else Ok tt
  else Ok tt.

(** Rules 2 and 3: the sender is not banned, and is joined unless the event
    is a membership event about the sender. *)
Definition check_sender_membership ev state : res :=
  let membership := default MEM_LEAVE (membership_of state (sender ev)) in
  if membership ==s MEM_BAN then Err (banned_user (sender ev) (event_id ev))
  else if negb (membership ==s MEM_JOIN) then
    let is_self_membership :=
      is_member ev && bool_decide (state_key ev = Some (sender ev))
      && negb (opt_is (get_membership (content ev)) MEM_BAN) in
    if negb is_self_membership then Err (not_member (sender ev) (event_id ev)) else Ok tt
  else Ok tt.

(** Rule 4: the power level an event of this type requires. *)
Definition check_power ev state (version : StateResVersion) : res :=
  if negb (is_member ev) then
    let no_pl_event := match state M_ROOM_POWER_LEVELS "" with None => true | Some _ => false end in
    let is_first_pl := no_pl_event && (event_type ev ==s M_ROOM_POWER_LEVELS) in
    if negb is_first_pl then
      let sender_pl := get_sender_power_level (sender ev) state version in
      let required_pl := get_required_power_level (event_type ev) (state_key ev) state in
      if (sender_pl <? required_pl)%Z then
        Err (InsufficientPowerLevel required_pl sender_pl (event_type ev))
      else Ok tt
    else Ok tt
  else Ok tt.

(** Rule 4b: a state key naming a user must name the sender. *)
Definition check_user_state_key ev : res :=
  if negb (is_member ev) then
    match state_key ev with
    | Some sk =>
        if starts_with "@"%char sk && negb (sk ==s sender ev) then
          Err (InvalidStateKey (sender ev) sk)
        else Ok tt
    | None => Ok tt
    end
  else Ok tt.

(** The last visited key satisfying [p] (a visitor overwrites its result). *)
Definition last_such (p : string → bool) (l : list string) : option string :=
  last (List.filter p l).

(** Rule 10: [m.room.power_levels]. *)
Definition check_power_levels ev state (version : StateResVersion) : res :=
  if event_type ev ==s M_ROOM_POWER_LEVELS then
    let new_content := content ev in
    room_version_num ←? get_room_version_num state;
    let is_room_v10_plus := (10 <=? room_version_num)%Z in
    (if is_room_v10_plus then
       match find_non_integer_scalar_pl new_content with
       | Some field => Err (InvalidSyntax ("m.room.power_levels " +:+ field +:+ " is not an integer"))
       | None =>
           match find_non_integer_map_pl new_content with
           | Some field => Err (InvalidSyntax
               ("m.room.power_levels " +:+ field +:+ " is not an object with integer values"))
           | None => Ok tt
           end
       end
     else Ok tt) ;?;
    (if is_v2_1_plus version then
       match state M_ROOM_CREATE "" with
       | Some create_event =>
           (match get_creator (content create_event) with
            | Some creator =>
                if has_user_in_users new_content creator then
                  Err (InvalidSyntax ("m.room.power_levels users contains creator " +:+ creator))
                else Ok tt
            | None => Ok tt
            end) ;?;
           match last_such (has_additional_creator (content create_event)) (visit_user_keys new_content) with
           | Some user_id => Err (InvalidSyntax
               ("m.room.power_levels users contains additional_creator " +:+ user_id))
           | None => Ok tt
           end
       | None => Ok tt
       end
     else Ok tt) ;?;
    (if has_non_integer_users_pl new_content is_room_v10_plus then
       Err (InvalidSyntax "m.room.power_levels users contains non-integer value or is not an object")
     else Ok tt) ;?;
    (match last_such (λ u, negb (starts_with "@"%char u) || negb (str_contains ":"%char u))
             (visit_user_keys new_content) with
     | Some user_id => Err (InvalidSyntax ("users key is not a valid user ID: " +:+ user_id))
     | None => Ok tt
     end) ;?;
    match state M_ROOM_POWER_LEVELS "" with
    | Some prev_pl_event =>
        check_power_levels_rules (sender ev) new_content (content prev_pl_event)
          (get_sender_power_level (sender ev) state version)
    | None => Ok tt
    end
  else Ok tt.

(** Rule 5: [m.room.member]. *)
Definition check_member ev state (version : StateResVersion)
    (verifier : option (EventVerifier Id)) : res :=
  if is_member ev then
    match state_key ev with
    | None => Err (InvalidSyntax "m.room.member event missing state_key")
    | Some target_user =>
        match get_membership (content ev) with
        | None => Err (InvalidSyntax "m.room.member event missing membership field")
        | Some new_membership =>
            let current_membership := default "" (membership_of state target_user) in
            if (new_membership ==s MEM_BAN) && (target_user ==s sender ev) then
              Err (InvalidStateKey ("!= " +:+ sender ev) target_user)
            else
              (if new_membership ==s MEM_JOIN then
                 check_join_rules ev state target_user version verifier
               else if new_membership ==s MEM_LEAVE then
                 check_leave_rules ev state target_user current_membership version
               else if new_membership ==s MEM_BAN then check_ban_rules ev state version
               else if new_membership ==s MEM_INVITE then
                 check_invite_rules ev state target_user current_membership version verifier
               else if new_membership ==s MEM_KNOCK then check_knock_rules ev state target_user
               else Err (InvalidSyntax ("unknown membership: " +:+ new_membership))) ;?;
              check_membership_pl_hierarchies ev state target_user new_membership version
        end
    end
  else Ok tt.

Definition check_auth_with_context ev state (version : StateResVersion)
    (verifier : option (EventVerifier Id)) (auth_context : option (Id → option event)) : res :=
  check_syntax ev version ;?;
  reject_flagged_auth_state ev state ;?;
  check_verifier ev verifier ;?;
  if event_type ev ==s M_ROOM_CREATE then check_create ev
  else
    _ ←? validated_room_version_or_v1 state;
    check_federate ev state ;?;
    check_aliases ev state ;?;
    check_redaction ev state version ;?;
    check_auth_events ev state version auth_context ;?;
    check_sender_membership ev state ;?;
    check_power ev state version ;?;
    check_user_state_key ev ;?;
    check_power_levels ev state version ;?;
    check_member ev state version verifier.

Definition check_auth ev state (version : StateResVersion)
    (verifier : option (EventVerifier Id)) : res :=
  check_auth_with_context ev state version verifier None.

(** ** Forward extremities *)

Inductive ForwardExtremityResult : Type :=
| Valid
| SoftFailed (e : AuthError Id)
| Rejected (e : AuthError Id).

Definition validate_forward_extremity ev (auth_events_state current_room_state : StateProvider)
    (version : StateResVersion) (verifier : option (EventVerifier Id)) : ForwardExtremityResult :=
  match check_auth ev auth_events_state version verifier with
  | Err e => Rejected e
  | Ok _ =>
      match check_auth ev current_room_state version None with
      | Err e => SoftFailed e
      | Ok _ => Valid
      end
  end.
End auth.

Arguments StateProvider : clear implicits.
Arguments RoomState : clear implicits.
