(* ===== verification/Samples.v ===== *)
(** * A sample room

    The concrete room the examples evaluate the definitions on: a room of
    version 10 with an administrator [@a:x], a moderator [@b:x], an ordinary
    member [@c:x], an invited [@d:x] and a banned [@e:x], as JSON events with
    string event ids. *)
From stdpp Require Import prelude gmap strings.
From Stdlib Require String.
From S2P Require Import Prelude EventTypes Json Events JsonContent Auth.

Module Sample.
Abbreviation event := (LeanEvent string value).

Definition ev (id ty : string) (sk : option string) (who : string) (c : value)
    (prev auth : list string) (d : Z) : event :=
  mkEvent id ty sk 0 d who c prev auth d false false (Some "!r:x").

Definition membership (m : string) : value := Object [("membership", VString m)].

Definition create : event :=
  ev "$create" M_ROOM_CREATE (Some "") "@a:x" (Object [("room_version", VString "10")]) [] [] 1.
Definition join_a : event :=
  ev "$join_a" M_ROOM_MEMBER (Some "@a:x") "@a:x" (membership "join") ["$create"] ["$create"] 2.
Definition pl_content (b : string) : value :=
  Object [("users", Object [("@a:x", Number "100"); ("@b:x", Number b)])].
Definition power : event :=
  ev "$power" M_ROOM_POWER_LEVELS (Some "") "@a:x" (pl_content "50")
    ["$join_a"] ["$create"; "$join_a"] 3.
Definition rules : event :=
  ev "$rules" M_ROOM_JOIN_RULES (Some "") "@a:x" (Object [("join_rule", VString "public")])
    ["$power"] ["$create"; "$join_a"; "$power"] 4.
Definition member_of (who m by_ : string) : event :=
  ev ("$" +:+ m +:+ who) M_ROOM_MEMBER (Some who) by_ (membership m)
    ["$rules"] ["$create"; "$power"; "$rules"] 5.

Definition entry (e : event) : (string * string) * event :=
  ((event_type e, default "" (state_key e)), e).

(** The room's current state. *)
Definition room : gmap (string * string) event :=
  list_to_map (entry <$>
    [create; join_a; power; rules; member_of "@b:x" "join" "@b:x"; member_of "@c:x" "join" "@c:x";
     member_of "@d:x" "invite" "@a:x"; member_of "@e:x" "ban" "@a:x"]).
Definition state : StateProvider string value := room_state room.

(** [@b:x] kicks [@c:x]; [@c:x] sets a topic, tries a name; [@a:x] changes the levels. *)
Definition kick : event :=
  ev "$kick" M_ROOM_MEMBER (Some "@c:x") "@b:x" (membership "leave")
    ["$rules"] ["$create"; "$power"; "$join@b:x"; "$join@c:x"] 6.
Definition kick_admin : event :=
  ev "$kick2" M_ROOM_MEMBER (Some "@a:x") "@b:x" (membership "leave")
    ["$rules"] ["$create"; "$power"; "$join@b:x"; "$join_a"] 6.
Definition message (who : string) : event :=
  ev ("$msg" +:+ who) "m.room.message" None who (Object [("body", VString "hi")])
    ["$rules"] ["$create"; "$power"] 6.
Definition join (who : string) : event :=
  ev ("$rejoin" +:+ who) M_ROOM_MEMBER (Some who) who (membership "join")
    ["$rules"] ["$create"; "$power"; "$rules"] 6.
Definition new_power : event :=
  ev "$power2" M_ROOM_POWER_LEVELS (Some "") "@a:x" (pl_content "75")
    ["$rules"] ["$create"; "$join_a"; "$power"] 6.

(** The same create event in a room of version 12, whose creator outranks everyone. *)
Definition create12 : event :=
  ev "$create12" M_ROOM_CREATE (Some "") "@a:x" (Object [("room_version", VString "12")]) [] [] 1.
Definition state12 : StateProvider string value :=
  room_state (<[(M_ROOM_CREATE, "") := create12]> room).

(** Event lookup by id, over the events of the room state. *)
Definition find_event (id : string) : option event :=
  snd <$> list_find (λ e, event_id e = id) ((map_to_list room).*2).

(** The first events of the room as an event map. *)
Definition dag : gmap string event :=
  list_to_map ((λ e, (event_id e, e)) <$> [create; join_a; power; rules]).
Definition dag_depth (id : string) : nat :=
  match dag !! id with Some e => Z.to_nat (depth e) | None => 0 end.
End Sample.
