(* ===== verification/AuthProps.v ===== *)
(** * Properties of the authorization rules

    What an accepted event implies about the room state, rule by rule, and
    which part of the state the verdict can depend on. *)
From stdpp Require Import prelude gmap strings sorting pretty.
From Stdlib Require String.
From Stdlib Require Import Ascii.
From S2P Require Import Prelude EventTypes Json Events JsonContent Auth Samples.

Ltac err_cases H := repeat (case_match; simplify_eq/=; try discriminate H).

Section auth_props.
Context {Id C : Type} `{EventId Id} `{EventContent C}.
Implicit Types (ev : LeanEvent Id C) (state st : StateProvider Id C).

(** ** The steps of an accepted event *)

Lemma accepted_steps ev state version verifier ctx :
  check_auth_with_context ev state version verifier ctx = Ok tt →
  event_type ev ≠ M_ROOM_CREATE →
  check_auth_events ev state version ctx = Ok tt
  ∧ check_sender_membership ev state = Ok tt
  ∧ check_power ev state version = Ok tt
  ∧ check_user_state_key ev = Ok tt
  ∧ check_power_levels ev state version = Ok tt
  ∧ check_member ev state version verifier = Ok tt.
Proof.
  unfold check_auth_with_context. intros Ha Hne. ok_steps Ha.
  rewrite (proj2 (String.eqb_neq _ _) Hne) in Ha. ok_steps Ha.
  repeat match goal with u : () |- _ => destruct u end. naive_solver.
Qed.

Lemma sender_membership_ok ev state :
  check_sender_membership ev state = Ok tt →
  membership_of state (sender ev) ≠ Some MEM_BAN
  ∧ (membership_of state (sender ev) = Some MEM_JOIN
     ∨ event_type ev = M_ROOM_MEMBER ∧ state_key ev = Some (sender ev)).
Proof.
  unfold check_sender_membership, is_member. intros Hs.
  destruct (membership_of state (sender ev)) as [m|]; simpl in *.
  - destruct (String.eqb_spec m MEM_BAN) as [Hb|Hb]; [done|]. split; [congruence|].
    destruct (String.eqb_spec m MEM_JOIN) as [Hj|Hj]; [left; congruence|right]; simpl in *.
    destruct (String.eqb_spec (event_type ev) M_ROOM_MEMBER); [|done].
    destruct (bool_decide_reflect (state_key ev = Some (sender ev))); done.
  - split; [done|right].
    destruct (String.eqb_spec (event_type ev) M_ROOM_MEMBER); [|done].
    destruct (bool_decide_reflect (state_key ev = Some (sender ev))); done.
Qed.

Lemma power_ok ev state version :
  check_power ev state version = Ok tt →
  event_type ev ≠ M_ROOM_MEMBER →
  (state M_ROOM_POWER_LEVELS "" = None ∧ event_type ev = M_ROOM_POWER_LEVELS)
  ∨ (get_required_power_level (event_type ev) (state_key ev) state
       ≤ get_sender_power_level (sender ev) state version)%Z.
Proof.
  unfold check_power, is_member. intros Hp Hne.
  rewrite (proj2 (String.eqb_neq _ _) Hne) in Hp. simpl in Hp.
  destruct (state M_ROOM_POWER_LEVELS "") as [pl|] eqn:Epl; simpl in Hp.
  - right. case_match eqn:E; [done|]. apply Z.ltb_ge in E. done.
  - destruct (String.eqb_spec (event_type ev) M_ROOM_POWER_LEVELS); simpl in Hp; [by left|].
    right. case_match eqn:E; [done|]. by apply Z.ltb_ge in E.
Qed.

Lemma member_ok ev state version verifier :
  check_member ev state version verifier = Ok tt →
  event_type ev = M_ROOM_MEMBER →
  ∃ target m,
    state_key ev = Some target ∧ get_membership (content ev) = Some m
    ∧ ¬ (m = MEM_BAN ∧ target = sender ev)
    ∧ (m = MEM_JOIN → check_join_rules ev state target version verifier = Ok tt)
    ∧ (m = MEM_LEAVE →
       check_leave_rules ev state target (default "" (membership_of state target)) version = Ok tt)
    ∧ (m = MEM_BAN → check_ban_rules ev state version = Ok tt)
    ∧ (m = MEM_INVITE →
       check_invite_rules ev state target (default "" (membership_of state target)) version verifier
       = Ok tt)
    ∧ (m = MEM_KNOCK → check_knock_rules ev state target = Ok tt)
    ∧ m ∈ [MEM_JOIN; MEM_LEAVE; MEM_BAN; MEM_INVITE; MEM_KNOCK]
    ∧ check_membership_pl_hierarchies ev state target m version = Ok tt.
Proof.
  unfold check_member, is_member. intros Hm He. rewrite He in Hm. simpl in Hm.
  destruct (state_key ev) as [target|]; [|done].
  destruct (get_membership (content ev)) as [m|]; [|done].
  exists target, m. case_match eqn:Eb; [done|].
  assert (¬ (m = MEM_BAN ∧ target = sender ev)) as Hb.
  { intros [-> ->]. by rewrite !String.eqb_refl in Eb. }
  apply result_bind_Ok in Hm as ([] & H1 & H2).
  repeat case_match; simplify_eq; repeat match goal with
    | Hx : String.eqb _ _ = true |- _ => apply String.eqb_eq in Hx; subst
    end; try done; (split_and!; try done; set_solver).
Qed.

(** ** Kicks and bans *)

Lemma hierarchies_ok ev state target m version :
  check_membership_pl_hierarchies ev state target m version = Ok tt →
  target ≠ sender ev → m = MEM_LEAVE ∨ m = MEM_BAN →
  (get_sender_power_level target state version
     < get_sender_power_level (sender ev) state version)%Z.
Proof.
  unfold check_membership_pl_hierarchies. intros Hh Hne Hm.
  rewrite (proj2 (String.eqb_neq _ _) Hne) in Hh.
  assert ((m ==s MEM_LEAVE) || (m ==s MEM_BAN) = true) as Em by (by destruct Hm as [->| ->]).
  rewrite Em in Hh. simpl in Hh. case_match eqn:E; [done|]. by apply Z.leb_gt in E.
Qed.

Lemma creator_power state version create who :
  is_v2_1_plus version = true → state M_ROOM_CREATE "" = Some create →
  sender create = who ∨ has_additional_creator (content create) who = true →
  get_sender_power_level who state version = MAX_POWER_LEVEL_RUST.
Proof.
  unfold get_sender_power_level. intros -> -> Hc.
  destruct Hc as [->| ->]; [by rewrite String.eqb_refl|by rewrite orb_true_r].
Qed.

Lemma sender_power_i64 `{!EventContentLaws C} who state version :
  is_i64 (get_sender_power_level who state version).
Proof.
  unfold get_sender_power_level.
  repeat case_match; eauto using user_power_level_i64, users_default_i64;
    unfold is_i64, MAX_POWER_LEVEL_RUST, DEFAULT_PL_USER, I64_MIN, I64_MAX; lia.
Qed.

(** ** The power-levels event *)

Lemma for_each_ok (f : string → Z → result () (AuthError Id)) l k v :
  for_each f l = Ok tt → (k, v) ∈ l → f k v = Ok tt.
Proof.
  induction l as [|[k' v'] l IH]; [set_solver|]. simpl. intros Hf.
  apply result_bind_Ok in Hf as ([] & H1 & H2).
  intros [[= -> ->]|Hin]%elem_of_cons; auto.
Qed.

Lemma elem_of_btree_iter {V} (m : gmap string V) k v : (k, v) ∈ btree_iter m ↔ m !! k = Some v.
Proof. unfold btree_iter. by rewrite sort_by_perm, elem_of_map_to_list. Qed.

Lemma btree_of_lookup l k z : btree_of l !! k = Some z → (k, z) ∈ l.
Proof.
  unfold btree_of.
  assert (∀ m : gmap string Z,
    foldl (λ m kv, <[kv.1 := kv.2]> m) m l !! k = Some z → (k, z) ∈ l ∨ m !! k = Some z) as Hg.
  { induction l as [|[k' z'] l IH]; simpl; [by right|]. intros m Hl.
    destruct (IH _ Hl) as [Hin|[[-> ->]|[? ?]]%lookup_insert_Some]; set_solver. }
  intros Hl. destruct (Hg ∅ Hl) as [Hin|Hm]; [done|]. by rewrite lookup_empty in Hm.
Qed.

(** A map built from entries that agree with a function [get] is [get]. *)
Lemma btree_of_get (l : list (string * Z)) (get : string → option Z) k :
  (∀ k z, (k, z) ∈ l ↔ get k = Some z) → btree_of l !! k = get k.
Proof.
  intros Hl. destruct (btree_of l !! k) as [z|] eqn:E.
  - apply btree_of_lookup in E. symmetry. by apply Hl.
  - destruct (get k) as [z|] eqn:G; [|done]. apply Hl in G. exfalso. revert E.
    unfold btree_of. assert (∀ m : gmap string Z, (k, z) ∈ l ∨ is_Some (m !! k) →
      is_Some (foldl (λ m kv, <[kv.1 := kv.2]> m) m l !! k)) as Hs.
    { clear. induction l as [|[k' z'] l IH]; simpl; [set_solver|]. intros m [Hin|Hm].
      - apply elem_of_cons in Hin as [[= <- <-]|Hin]; apply IH; [right|by left].
        rewrite lookup_insert_eq. by eexists.
      - apply IH. right. destruct (decide (k' = k)) as [->|].
        + rewrite lookup_insert_eq. by eexists.
        + by rewrite lookup_insert_ne. }
    destruct (Hs ∅ (or_introl G)) as [z' ->]. done.
Qed.

Lemma check_pl_users_ok who old new pl (oget nget : string → option Z) :
  (∀ k z, (k, z) ∈ old ↔ oget k = Some z) → (∀ k z, (k, z) ∈ new ↔ nget k = Some z) →
  check_pl_users (Id:=Id) who old new pl = Ok tt →
  (∀ u z, nget u = Some z → oget u ≠ Some z → (z ≤ pl)%Z)
  ∧ (∀ u z, u ≠ who → oget u = Some z → nget u ≠ Some z → (z < pl)%Z).
Proof.
  intros Ho Hn. unfold check_pl_users. intros Hc.
  apply result_bind_Ok in Hc as ([] & H1 & H2). split.
  - intros u z Hz Hne.
    eapply (for_each_ok _ _ u z) in H2;
      [|rewrite elem_of_btree_iter; by rewrite (btree_of_get _ nget)].
    simpl in H2. unfold entry_changed in H2. rewrite (btree_of_get _ oget) in H2 by done.
    destruct (oget u) as [z'|]; simpl in H2.
    + destruct (Z.eqb_spec z' z); [congruence|]. simpl in H2. case_match eqn:E; [done|].
      by apply Z.ltb_ge in E.
    + case_match eqn:E; [done|]. by apply Z.ltb_ge in E.
  - intros u z Hu Hz Hne.
    eapply (for_each_ok _ _ u z) in H1;
      [|rewrite elem_of_btree_iter; by rewrite (btree_of_get _ oget)].
    simpl in H1. rewrite (proj2 (String.eqb_neq _ _) Hu) in H1.
    unfold entry_changed in H1. rewrite (btree_of_get _ nget) in H1 by done.
    destruct (nget u) as [z'|]; simpl in H1.
    + destruct (Z.eqb_spec z' z); [congruence|]. simpl in H1. case_match eqn:E; [done|].
      by apply Z.leb_gt in E.
    + case_match eqn:E; [done|]. by apply Z.leb_gt in E.
Qed.

Lemma check_scalar_pl_ok field old new pl :
  check_scalar_pl (Id:=Id) field old new pl = Ok tt →
  old = new ∨ (default pl old ≤ pl ∧ default pl new ≤ pl)%Z.
Proof.
  unfold check_scalar_pl. case_bool_decide; [by left|]. intros Hs. right.
  apply result_bind_Ok in Hs as ([] & Hold & Hnew).
  destruct old as [o|], new as [n|]; simpl in *;
    repeat match goal with
    | Hx : context [Z.ltb ?a ?b] |- _ => destruct (Z.ltb_spec a b); try done
    end; lia.
Qed.

Lemma power_levels_ok ev state version prev :
  check_power_levels ev state version = Ok tt →
  event_type ev = M_ROOM_POWER_LEVELS → state M_ROOM_POWER_LEVELS "" = Some prev →
  check_power_levels_rules (Id:=Id) (sender ev) (content ev) (content prev)
    (get_sender_power_level (sender ev) state version) = Ok tt.
Proof.
  unfold check_power_levels. intros Hc He Hp. rewrite He in Hc. simpl in Hc.
  ok_steps Hc. by rewrite Hp in Hc.
Qed.

(** The map after an accepted change, entry by entry. *)
Lemma check_pl_map_ok label old new pl :
  check_pl_map (Id:=Id) label old new pl = Ok tt →
  ∀ k, btree_of old !! k = btree_of new !! k
    ∨ (default pl (btree_of old !! k) ≤ pl ∧ default pl (btree_of new !! k) ≤ pl)%Z.
Proof.
  unfold check_pl_map. intros Hc k. apply result_bind_Ok in Hc as ([] & Hold & Hnew).
  destruct (decide (btree_of old !! k = btree_of new !! k)) as [|Hne]; [by left|right].
  split.
  - destruct (btree_of old !! k) as [z|] eqn:E; [|simpl; lia].
    eapply (for_each_ok _ _ k z) in Hold; [|by apply elem_of_btree_iter].
    simpl in Hold. unfold entry_changed in Hold.
    destruct (btree_of new !! k) as [z'|]; simpl in Hold;
      [destruct (Z.eqb_spec z' z); [congruence|]; simpl in Hold|];
      case_match eqn:Ez; try done; by apply Z.ltb_ge in Ez.
  - destruct (btree_of new !! k) as [z|] eqn:E; [|simpl; lia].
    eapply (for_each_ok _ _ k z) in Hnew; [|by apply elem_of_btree_iter].
    simpl in Hnew. unfold entry_changed in Hnew.
    destruct (btree_of old !! k) as [z'|]; simpl in Hnew;
      [destruct (Z.eqb_spec z' z); [congruence|]; simpl in Hnew|];
      case_match eqn:Ez; try done; by apply Z.ltb_ge in Ez.
Qed.

Definition scalar_pls : list (C → option Z) :=
  [get_users_default; get_events_default; get_state_default; get_ban; get_redact; get_kick; get_invite].

(** What an accepted [m.room.power_levels] changes, against the sender's level. *)
Definition pl_change_allowed (who : string) (pl : Z) (prev new : C) : Prop :=
  Forall (λ get, get prev = get new ∨ (default pl (get prev) ≤ pl ∧ default pl (get new) ≤ pl)%Z)
    scalar_pls
  ∧ Forall (λ visit : C → list (string * Z), ∀ k,
      btree_of (visit prev) !! k = btree_of (visit new) !! k
      ∨ (default pl (btree_of (visit prev) !! k) ≤ pl
         ∧ default pl (btree_of (visit new) !! k) ≤ pl)%Z)
    [visit_event_power_levels; visit_notification_power_levels]
  ∧ (∀ u z, get_user_power_level new u = Some z → get_user_power_level prev u ≠ Some z →
       (z ≤ pl)%Z)
  ∧ (∀ u z, u ≠ who → get_user_power_level prev u = Some z →
       get_user_power_level new u ≠ Some z → (z < pl)%Z).

Lemma power_levels_rules_ok `{!EventContentLaws C} who new prev pl :
  content_wf prev → content_wf new →
  check_power_levels_rules (Id:=Id) who new prev pl = Ok tt → pl_change_allowed who pl prev new.
Proof.
  intros Hwp Hwn. unfold check_power_levels_rules. intros Hr. ok_steps Hr.
  repeat match goal with u : () |- _ => destruct u end.
  split; [|split; [|split]].
  { unfold scalar_pls; rewrite !Forall_cons, Forall_nil; split_and!;
      eauto using check_scalar_pl_ok. }
  { rewrite !Forall_cons, Forall_nil. split_and!; [by eapply check_pl_map_ok.. | done]. }
  all: eapply check_pl_users_ok in Hr as [H1' H2'];
    [| intros; by apply visit_user_power_levels_get..]; eauto.
Qed.

(** ** Joins *)

Lemma authorising_user_ok ev state via version verifier :
  check_authorising_user ev state via version verifier = Ok tt →
  membership_of state via = Some MEM_JOIN
  ∧ (get_invite_power_level state ≤ get_sender_power_level via state version)%Z.
Proof.
  unfold check_authorising_user. intros Hc.
  destruct (String.eqb_spec (default "" (membership_of state via)) MEM_JOIN) as [Hj|]; [|done].
  simpl in Hc. case_match eqn:E; [done|]. apply Z.ltb_ge in E. split; [|done].
  by destruct (membership_of state via); simpl in Hj; [f_equal|].
Qed.

Lemma join_rules_ok ev state target version verifier :
  check_join_rules ev state target version verifier = Ok tt →
  let rule := join_rule_of state in
  let current := membership_of state (sender ev) in
  target = sender ev
  ∧ ((∃ create, state M_ROOM_CREATE "" = Some create ∧ sender create = sender ev)
     ∨ rule = RULE_PUBLIC
     ∨ (rule ∈ [RULE_INVITE; RULE_KNOCK; RULE_RESTRICTED; RULE_KNOCK_RESTRICTED]
        ∧ (current = Some MEM_INVITE ∨ current = Some MEM_JOIN))
     ∨ (∃ n via, get_room_version_num state = Ok n
        ∧ (rule = RULE_RESTRICTED ∧ (8 ≤ n)%Z ∨ rule = RULE_KNOCK_RESTRICTED ∧ (10 ≤ n)%Z)
        ∧ get_join_authorised_via_users_server (content ev) = Some via
        ∧ membership_of state via = Some MEM_JOIN
        ∧ (get_invite_power_level state ≤ get_sender_power_level via state version)%Z)).
Proof.
  intros Hc rule current. unfold check_join_rules, room_version_at_least in Hc.
  destruct (String.eqb_spec target (sender ev)) as [->|]; [|done]. split; [done|].
  simpl in Hc. fold rule current in Hc. case_match; [done|].
  destruct (get_room_version_num state) as [n|]; [|done]. simpl in Hc.
  case_match eqn:Ecr.
  { left. case_match; [|done]. eexists; split; [done|]. by apply String.eqb_eq. }
  assert (∀ a b, (default "" current ==s a) || (default "" current ==s b) = true → a ≠ "" → b ≠ "" →
    current = Some a ∨ current = Some b) as Hcur.
  { intros a b [Hx|Hx]%orb_true_iff Ha Hb; apply String.eqb_eq in Hx;
      destruct current; simpl in Hx; subst; auto; done. }
  destruct (String.eqb_spec rule RULE_PUBLIC) as [|Hpub]; [by right; left|]. right; right.
  destruct (_ || _) eqn:Einv in Hc.
  { left. case_match eqn:E; [|done]. split; [|by apply Hcur].
    apply orb_true_iff in Einv as [Hi|Hi]; apply String.eqb_eq in Hi; set_solver. }
  destruct (_ || _) eqn:Eres in Hc; [|done].
  assert (rule = RULE_RESTRICTED ∧ (8 ≤ n)%Z ∨ rule = RULE_KNOCK_RESTRICTED ∧ (10 ≤ n)%Z) as Hrule.
  { apply orb_true_iff in Eres as [[Hr ?]%andb_true_iff|[Hr ?]%andb_true_iff];
      apply String.eqb_eq in Hr; [left|right]; split; try done; by apply Z.leb_le. }
  destruct (_ || _) eqn:Ecur in Hc.
  { left. split; [|by apply Hcur]. destruct Hrule as [[-> _]|[-> _]]; set_solver. }
  right. destruct (get_join_authorised_via_users_server (content ev)) as [via|]; [|done].
  apply authorising_user_ok in Hc as [??]. by exists n, via.
Qed.
End auth_props.

(** ** What acceptance guarantees *)

Section auth_claims.
Context {Id C : Type} `{EventId Id} `{EventContent C}.
Implicit Types (ev : LeanEvent Id C) (state : StateProvider Id C).

(** C3: an accepted event other than [m.room.create] was sent by a user who is
    not banned and who is joined, unless the event is the sender's own
    membership; and unless it is a membership event or the room's first
    power-levels event, the sender's power level reaches the level the room
    requires for the event's type. *)
Theorem accepted_sender_standing ev state version verifier ctx :
  check_auth_with_context ev state version verifier ctx = Ok tt →
  event_type ev ≠ M_ROOM_CREATE →
  membership_of state (sender ev) ≠ Some MEM_BAN
  ∧ (membership_of state (sender ev) = Some MEM_JOIN
     ∨ event_type ev = M_ROOM_MEMBER ∧ state_key ev = Some (sender ev))
  ∧ (event_type ev = M_ROOM_MEMBER
     ∨ (state M_ROOM_POWER_LEVELS "" = None ∧ event_type ev = M_ROOM_POWER_LEVELS)
     ∨ (get_required_power_level (event_type ev) (state_key ev) state
          ≤ get_sender_power_level (sender ev) state version)%Z).
Proof.
  intros Ha Hne. apply accepted_steps in Ha as (_ & Hs & Hp & _); [|done].
  apply sender_membership_ok in Hs as [Hb Hj]. split_and!; [done..|].
  destruct (decide (event_type ev = M_ROOM_MEMBER)); [by left|right; by apply power_ok].
Qed.

(** C11: an accepted [m.room.power_levels] that replaces an earlier one only
    changes settings within the sender's power level: a changed scalar,
    [events] or [notifications] entry was at most the sender's level before
    and is at most it after; a changed or new [users] entry is at most the
    sender's level, and another user's changed entry was strictly below it. *)
Theorem accepted_power_levels_change `{!EventContentLaws C} ev state version verifier ctx prev :
  check_auth_with_context ev state version verifier ctx = Ok tt →
  event_type ev = M_ROOM_POWER_LEVELS →
  state M_ROOM_POWER_LEVELS "" = Some prev →
  content_wf (content prev) → content_wf (content ev) →
  pl_change_allowed (sender ev) (get_sender_power_level (sender ev) state version)
    (content prev) (content ev).
Proof.
  intros Ha Ht Hp Hwp Hwe. apply accepted_steps in Ha as (_ & _ & _ & _ & Hl & _); [|by rewrite Ht].
  eapply power_levels_ok in Hl; [|done..]. by apply power_levels_rules_ok in Hl.
Qed.

(** C12: in a room whose default level and the level 0 do not exceed the
    sender's, accepting an [m.room.power_levels] event raises nobody above
    both the sender's level and the level they already had. *)
Theorem power_levels_no_escalation `{!EventContentLaws C} ev state version verifier ctx prev who :
  check_auth_with_context ev state version verifier ctx = Ok tt →
  event_type ev = M_ROOM_POWER_LEVELS →
  state M_ROOM_POWER_LEVELS "" = Some prev →
  content_wf (content prev) → content_wf (content ev) →
  let pl := get_sender_power_level (sender ev) state version in
  (0 ≤ pl)%Z → (default 0 (get_users_default (content prev)) ≤ pl)%Z →
  let state' ty sk :=
    if (ty ==s M_ROOM_POWER_LEVELS) && (sk ==s "") then Some ev else state ty sk in
  (get_sender_power_level who state' version
     ≤ Z.max pl (get_sender_power_level who state version))%Z.
Proof.
  intros Ha Ht Hp Hwp Hwe pl Hpl Hdef state'.
  apply accepted_steps in Ha as (_ & _ & _ & _ & Hl & _); [|by rewrite Ht].
  eapply power_levels_ok in Hl; [|done..].
  apply power_levels_rules_ok in Hl as (Hsc & _ & Hnew & _); [|done..]. fold pl in Hsc, Hnew.
  apply Forall_cons in Hsc as [Hud _].
  assert (default 0%Z (get_users_default (content ev)) ≤ pl)%Z as Hud'.
  { destruct Hud as [<-|[_ Hud]]; [done|]. by destruct (get_users_default (content ev)). }
  unfold get_sender_power_level at 1. unfold get_sender_power_level at 1.
  assert (state' M_ROOM_CREATE "" = state M_ROOM_CREATE "") as -> by done.
  assert (state' M_ROOM_POWER_LEVELS "" = Some ev) as -> by done. rewrite Hp.
  case_match; [lia|].
  destruct (get_user_power_level (content ev) who) as [z|] eqn:Ez.
  - destruct (decide (get_user_power_level (content prev) who = Some z)) as [->|Hc]; [lia|].
    specialize (Hnew _ _ Ez Hc). lia.
  - unfold DEFAULT_PL_USER. destruct (get_users_default (content ev)); simpl in *; lia.
Qed.

(** An accepted kick, unban or ban of another user comes from a sender
    strictly above the target who reaches the room's kick level (the ban
    level for a ban, or to lift one). *)
Theorem accepted_kick_ban ev state version verifier ctx target m :
  check_auth_with_context ev state version verifier ctx = Ok tt →
  event_type ev = M_ROOM_MEMBER → state_key ev = Some target → target ≠ sender ev →
  get_membership (content ev) = Some m → m = MEM_LEAVE ∨ m = MEM_BAN →
  let pl := get_sender_power_level (sender ev) state version in
  (get_sender_power_level target state version < pl)%Z
  ∧ ((if (m ==s MEM_BAN) || opt_is (membership_of state target) MEM_BAN
      then get_ban_power_level state else get_kick_power_level state) ≤ pl)%Z.
Proof.
  intros Ha Ht Hk Hne Hm Hor. apply accepted_steps in Ha as (_ & _ & _ & _ & _ & Hmem); [|by rewrite Ht].
  apply member_ok in Hmem as (t & m' & Hk' & Hm' & _ & _ & Hl & Hb & _ & _ & _ & Hh); [|done].
  assert (t = target) as -> by congruence. assert (m' = m) as -> by congruence.
  split; [by apply hierarchies_ok in Hh|].
  destruct Hor as [-> | ->]; simpl.
  - specialize (Hl eq_refl). unfold check_leave_rules in Hl.
    rewrite (proj2 (String.eqb_neq _ _) Hne) in Hl.
    destruct (membership_of state target) as [c|]; simpl in *.
    + destruct (c ==s MEM_BAN); case_match eqn:E; try done; by apply Z.ltb_ge in E.
    + case_match eqn:E; try done; by apply Z.ltb_ge in E.
  - specialize (Hb eq_refl). unfold check_ban_rules in Hb.
    case_match eqn:E; try done; by apply Z.ltb_ge in E.
Qed.

(** From room version 12 on, no kick or ban of a room creator (the
    sender of [m.room.create] or one of its additional creators) by another
    user is ever accepted, whatever the power levels say. *)
Theorem creators_cannot_be_removed `{!EventContentLaws C} ev state version verifier ctx create target m :
  is_v2_1_plus version = true →
  state M_ROOM_CREATE "" = Some create →
  sender create = target ∨ has_additional_creator (content create) target = true →
  event_type ev = M_ROOM_MEMBER → state_key ev = Some target → target ≠ sender ev →
  get_membership (content ev) = Some m → m = MEM_LEAVE ∨ m = MEM_BAN →
  is_ok (check_auth_with_context ev state version verifier ctx) = false.
Proof.
  intros Hv Hc Hcr Ht Hk Hne Hm Hor.
  destruct (check_auth_with_context _ _ _ _ _) as [[]|] eqn:Ha; [|done]. exfalso.
  apply accepted_steps in Ha as (_ & _ & _ & _ & _ & Hmem); [|by rewrite Ht].
  apply member_ok in Hmem as (t & m' & Hk' & Hm' & _ & _ & _ & _ & _ & _ & _ & Hh); [|done].
  assert (t = target) as -> by congruence. assert (m' = m) as -> by congruence.
  apply hierarchies_ok in Hh; [|done..].
  rewrite (creator_power _ _ _ _ Hv Hc Hcr) in Hh.
  pose proof (sender_power_i64 (sender ev) state version) as [_ Hle].
  unfold MAX_POWER_LEVEL_RUST, I64_MAX in *. lia.
Qed.

(** C19: an accepted join is about its own sender, who is not banned and who is
    the room's creator, or is invited or joined already, or enters a public
    room, or, under a restricted rule the room version supports, is
    authorised by a joined user whose power level allows inviting. *)
Theorem accepted_join ev state version verifier ctx :
  check_auth_with_context ev state version verifier ctx = Ok tt →
  event_type ev = M_ROOM_MEMBER → get_membership (content ev) = Some MEM_JOIN →
  let rule := join_rule_of state in
  let current := membership_of state (sender ev) in
  state_key ev = Some (sender ev)
  ∧ current ≠ Some MEM_BAN
  ∧ ((∃ create, state M_ROOM_CREATE "" = Some create ∧ sender create = sender ev)
     ∨ rule = RULE_PUBLIC
     ∨ (rule ∈ [RULE_INVITE; RULE_KNOCK; RULE_RESTRICTED; RULE_KNOCK_RESTRICTED]
        ∧ (current = Some MEM_INVITE ∨ current = Some MEM_JOIN))
     ∨ (∃ n via, get_room_version_num state = Ok n
        ∧ (rule = RULE_RESTRICTED ∧ (8 ≤ n)%Z ∨ rule = RULE_KNOCK_RESTRICTED ∧ (10 ≤ n)%Z)
        ∧ get_join_authorised_via_users_server (content ev) = Some via
        ∧ membership_of state via = Some MEM_JOIN
        ∧ (get_invite_power_level state ≤ get_sender_power_level via state version)%Z)).
Proof.
  intros Ha Ht Hm rule current.
  apply accepted_steps in Ha as (_ & Hs & _ & _ & _ & Hmem); [|by rewrite Ht].
  apply sender_membership_ok in Hs as [Hnb _].
  apply member_ok in Hmem as (t & m' & Hk' & Hm' & _ & Hj & _); [|done].
  assert (m' = MEM_JOIN) as -> by congruence.
  specialize (Hj eq_refl). by apply join_rules_ok in Hj as [-> Hr].
Qed.
End auth_claims.

(** ** The part of the state a verdict reads *)

Section frame.
Context {Id C : Type} `{EventId Id} `{EventContent C}.
Implicit Types (ev : LeanEvent Id C) (state : StateProvider Id C).

(** Two states that answer alike the lookups the auth rules for [ev] make. *)
Record auth_agree ev (s1 s2 : StateProvider Id C) : Prop := {
  agree_create : s1 M_ROOM_CREATE "" = s2 M_ROOM_CREATE "";
  agree_power : s1 M_ROOM_POWER_LEVELS "" = s2 M_ROOM_POWER_LEVELS "";
  agree_sender : s1 M_ROOM_MEMBER (sender ev) = s2 M_ROOM_MEMBER (sender ev);
  agree_target k : is_member ev = true → state_key ev = Some k →
    s1 M_ROOM_MEMBER k = s2 M_ROOM_MEMBER k;
  agree_rules m : is_member ev = true → get_membership (content ev) = Some m →
    m ∈ [MEM_JOIN; MEM_INVITE; MEM_KNOCK] → s1 M_ROOM_JOIN_RULES "" = s2 M_ROOM_JOIN_RULES "";
  agree_invite t : is_member ev = true → get_membership (content ev) = Some MEM_INVITE →
    get_third_party_invite_token (content ev) = Some t →
    s1 M_ROOM_THIRD_PARTY_INVITE t = s2 M_ROOM_THIRD_PARTY_INVITE t;
  agree_via u : is_member ev = true → get_membership (content ev) = Some MEM_JOIN →
    get_join_authorised_via_users_server (content ev) = Some u →
    s1 M_ROOM_MEMBER u = s2 M_ROOM_MEMBER u
}.

Context (ev : LeanEvent Id C) (s1 s2 : StateProvider Id C) (Hag : auth_agree ev s1 s2).

Let Hc := agree_create _ _ _ Hag.
Let Hp := agree_power _ _ _ Hag.
Let Hs := agree_sender _ _ _ Hag.

Lemma agree_power_level who version :
  get_sender_power_level who s1 version = get_sender_power_level who s2 version.
Proof. unfold get_sender_power_level. by rewrite Hc, Hp. Qed.

Lemma agree_pl_field f d : pl_field_or_default s1 f d = pl_field_or_default s2 f d.
Proof. unfold pl_field_or_default, M_EMPTY_STATE_KEY. by rewrite Hp. Qed.

Lemma agree_version_num : get_room_version_num s1 = get_room_version_num s2.
Proof. unfold get_room_version_num. by rewrite Hc. Qed.

Lemma agree_version : validated_room_version_or_v1 s1 = validated_room_version_or_v1 s2.
Proof. unfold validated_room_version_or_v1. by rewrite Hc. Qed.

Lemma agree_flagged ty sk :
  s1 ty sk = s2 ty sk → reject_if_flagged_auth_state s1 ty sk = reject_if_flagged_auth_state s2 ty sk.
Proof. unfold reject_if_flagged_auth_state. by intros ->. Qed.

Lemma agree_reject_flagged : reject_flagged_auth_state ev s1 = reject_flagged_auth_state ev s2.
Proof.
  unfold reject_flagged_auth_state.
  rewrite (agree_flagged _ _ Hc), (agree_flagged _ _ Hp), (agree_flagged _ _ Hs).
  destruct (is_member ev) eqn:Em; simpl.
  2: { by destruct (state_key ev). }
  destruct (state_key ev) as [k|] eqn:Ek;
    [rewrite (agree_flagged M_ROOM_MEMBER k) by (by eapply agree_target)|].
  all: destruct (get_membership (content ev)) as [m|] eqn:Emm; simpl; [|done].
  all: assert ((m ==s MEM_JOIN) || (m ==s MEM_INVITE) || (m ==s MEM_KNOCK) = true →
      reject_if_flagged_auth_state s1 M_ROOM_JOIN_RULES ""
      = reject_if_flagged_auth_state s2 M_ROOM_JOIN_RULES "") as Hr
    by (intros Hx; apply agree_flagged; eapply agree_rules; [done..|];
        rewrite !orb_true_iff, !String.eqb_eq in Hx; set_solver).
  all: destruct (_ || _ || _); [rewrite (Hr eq_refl)|].
  all: clear Hr; destruct (String.eqb_spec m MEM_JOIN) as [->|]; simpl;
    [destruct (get_join_authorised_via_users_server (content ev)) eqn:Ev; [|done];
     by rewrite (agree_flagged M_ROOM_MEMBER _) by (by eapply agree_via)|].
  all: destruct (String.eqb_spec m MEM_INVITE) as [->|]; simpl; [|done].
  all: destruct (get_third_party_invite_token (content ev)) eqn:Ev; [|done];
     by rewrite (agree_flagged M_ROOM_THIRD_PARTY_INVITE _) by (by eapply agree_invite).
Qed.

Lemma agree_member version verifier :
  check_member ev s1 version verifier = check_member ev s2 version verifier.
Proof.
  unfold check_member. destruct (is_member ev) eqn:Em; [|done].
  destruct (state_key ev) as [k|] eqn:Ek; [|done].
  destruct (get_membership (content ev)) as [m|] eqn:Emm; [|done].
  assert (membership_of s1 k = membership_of s2 k) as Hk
    by (unfold membership_of; by rewrite (agree_target _ _ _ Hag k Em Ek)).
  assert (m ∈ [MEM_JOIN; MEM_INVITE; MEM_KNOCK] → join_rule_of s1 = join_rule_of s2) as Hr
    by (intros; unfold join_rule_of; by rewrite (agree_rules _ _ _ Hag m) by done).
  rewrite Hk. case_match; [done|].
  assert (check_membership_pl_hierarchies ev s1 k m version
          = check_membership_pl_hierarchies ev s2 k m version) as ->
    by (unfold check_membership_pl_hierarchies; by rewrite !agree_power_level).
  f_equal.
  destruct (String.eqb_spec m MEM_JOIN) as [->|].
  { unfold check_join_rules, room_version_at_least.
    rewrite Hk, Hc, agree_version_num, Hr by set_solver.
    destruct (get_join_authorised_via_users_server (content ev)) as [via|] eqn:Ev; [|done].
    assert (check_authorising_user ev s1 via version verifier
            = check_authorising_user ev s2 via version verifier) as ->; [|done].
    unfold check_authorising_user, get_invite_power_level, membership_of.
    by rewrite agree_power_level, agree_pl_field, (agree_via _ _ _ Hag via). }
  destruct (String.eqb_spec m MEM_LEAVE) as [->|].
  { unfold check_leave_rules, get_ban_power_level, get_kick_power_level.
    by rewrite agree_power_level, !agree_pl_field. }
  destruct (String.eqb_spec m MEM_BAN) as [->|].
  { unfold check_ban_rules, get_ban_power_level. by rewrite agree_power_level, !agree_pl_field. }
  destruct (String.eqb_spec m MEM_INVITE) as [->|].
  { unfold check_invite_rules, get_invite_power_level. rewrite !agree_pl_field.
    rewrite agree_power_level.
    destruct (get_third_party_invite_token (content ev)) as [t|] eqn:Et; [|done].
    rewrite (agree_invite _ _ _ Hag t) by done.
    destruct (s2 M_ROOM_THIRD_PARTY_INVITE t); [|done]. by rewrite agree_power_level. }
  destruct (String.eqb_spec m MEM_KNOCK) as [->|]; [|done].
  unfold check_knock_rules, room_version_at_least.
  by rewrite Hk, agree_version_num, Hr by set_solver.
Qed.

Lemma agree_check_auth version verifier :
  check_auth ev s1 version verifier = check_auth ev s2 version verifier.
Proof.
  unfold check_auth, check_auth_with_context. rewrite agree_reject_flagged, agree_version.
  assert (check_federate ev s1 = check_federate ev s2) as ->
    by (unfold check_federate; by rewrite Hc).
  assert (check_aliases ev s1 = check_aliases ev s2) as ->
    by (unfold check_aliases, room_version_str_or_v1; by rewrite agree_version).
  assert (check_redaction ev s1 version = check_redaction ev s2 version) as ->
    by (unfold check_redaction, room_version_str_or_v1, get_redact_power_level;
        by rewrite agree_version, agree_power_level, agree_pl_field).
  assert (check_sender_membership ev s1 = check_sender_membership ev s2) as ->
    by (unfold check_sender_membership, membership_of; by rewrite Hs).
  assert (check_power ev s1 version = check_power ev s2 version) as ->
    by (unfold check_power, get_required_power_level; by rewrite agree_power_level, Hp).
  assert (check_power_levels ev s1 version = check_power_levels ev s2 version) as ->
    by (unfold check_power_levels; by rewrite agree_version_num, Hc, Hp, agree_power_level).
  by rewrite agree_member.
Qed.
End frame.

Section frame_claims.
Context {Id C : Type} `{EventId Id} `{EventContent C}.
Implicit Types (ev : LeanEvent Id C) (state : StateProvider Id C).

Definition same_on (keys : list (string * string)) (s1 s2 : StateProvider Id C) : Prop :=
  ∀ ty sk, (ty, sk) ∈ keys → s1 ty sk = s2 ty sk.

Lemma same_on_agree ev version rv s1 s2 :
  restricted_join_version rv = true ∨ get_join_authorised_via_users_server (content ev) = None →
  event_type ev ≠ M_ROOM_CREATE →
  same_on ((M_ROOM_CREATE, "") :: required_auth_types_for ev version rv) s1 s2 →
  auth_agree ev s1 s2.
Proof.
  intros Hrv Hne Hsame.
  unfold required_auth_types_for, auth_types_for_event_core in Hsame.
  rewrite (proj2 (String.eqb_neq _ _) Hne) in Hsame.
  split; unfold is_member.
  - apply Hsame. set_solver.
  - apply Hsame. set_solver.
  - apply Hsame. set_solver.
  - intros k Hmem Hk. apply Hsame. rewrite Hmem, Hk.
    destruct (String.eqb_spec k (sender ev)) as [->|]; set_solver.
  - intros m Hmem Hm Hin. apply Hsame. rewrite Hmem, Hm. simpl.
    assert ((m ==s MEM_JOIN) || (m ==s MEM_INVITE) || (m ==s MEM_KNOCK) = true) as ->; [|set_solver].
    rewrite !orb_true_iff, !String.eqb_eq. set_solver.
  - intros t Hmem Hm Ht. apply Hsame. rewrite Hmem, Hm, Ht. simpl. set_solver.
  - intros u Hmem Hm Hu. apply Hsame. rewrite Hmem, Hm, Hu. simpl.
    destruct Hrv as [->|?]; [set_solver|congruence].
Qed.

(** The verdict on an event depends only on the create event and the state
    entries that the auth-events selection names for it: two room states that
    agree on those give the same verdict, error value included.  (In room
    versions before 8, where the selection leaves it out, the event must not
    name an authorising user.) *)
Theorem verdict_frame ev version verifier rv s1 s2 :
  restricted_join_version rv = true ∨ get_join_authorised_via_users_server (content ev) = None →
  event_type ev ≠ M_ROOM_CREATE →
  same_on ((M_ROOM_CREATE, "") :: required_auth_types_for ev version rv) s1 s2 →
  check_auth ev s1 version verifier = check_auth ev s2 version verifier.
Proof. intros Hrv Hne Hsame. by eapply agree_check_auth, same_on_agree. Qed.
End frame_claims.

(** ** The verifier and the cited events *)

Section citations.
Context {Id C : Type} `{EventId Id} `{EventContent C}.
Implicit Types (ev : LeanEvent Id C) (state : StateProvider Id C).

Lemma join_drop_verifier ev state target version verifier :
  check_join_rules ev state target version verifier = Ok tt →
  check_join_rules ev state target version None = Ok tt.
Proof.
  unfold check_join_rules. case_match; [done|]. case_match; [done|].
  intros Hj. apply result_bind_Ok in Hj as (b8 & -> & Hj).
  apply result_bind_Ok in Hj as (b10 & -> & Hj). simpl.
  repeat (case_match; try done); revert Hj; unfold check_authorising_user;
    by repeat case_match.
Qed.

Lemma invite_drop_verifier ev state target current version verifier :
  check_invite_rules ev state target current version verifier = Ok tt →
  check_invite_rules ev state target current version None = Ok tt.
Proof.
  unfold check_invite_rules. case_match; [done|]. case_match; [|done]. case_match; [done|].
  case_match; [|done]. case_match; [|done]. case_match; [done|].
  intros Hi. by apply result_bind_Ok in Hi as ([] & _ & Hi).
Qed.

Lemma member_drop_verifier ev state version verifier :
  check_member ev state version verifier = Ok tt → check_member ev state version None = Ok tt.
Proof.
  unfold check_member. case_match; [|done]. case_match; [|done]. case_match; [|done].
  case_match; [done|]. intros Hm. apply result_bind_Ok in Hm as ([] & Hm & ->).
  apply result_bind_Ok. exists tt. split; [|done].
  repeat case_match; eauto using join_drop_verifier, invite_drop_verifier.
Qed.

(** A verifier can only turn an acceptance into a rejection. *)
Lemma drop_verifier ev state version verifier :
  check_auth ev state version verifier = Ok tt → check_auth ev state version None = Ok tt.
Proof.
  unfold check_auth, check_auth_with_context. intros Ha.
  apply result_bind_Ok in Ha as ([] & -> & Ha).
  apply result_bind_Ok in Ha as ([] & -> & Ha).
  apply result_bind_Ok in Ha as ([] & _ & Ha). simpl.
  case_match; [done|]. ok_steps Ha. apply member_drop_verifier in Ha.
  repeat match goal with
    | Hx : ?m = Ok _ |- context [result_bind ?m _] => rewrite Hx; simpl
    end. done.
Qed.

(** The key an auth event is cited under. *)
Definition cited_key (e : LeanEvent Id C) : string * string :=
  (event_type e, default "" (state_key e)).

Lemma check_citations_ok ev version provider ids seen seen' :
  check_citations ev version provider ids seen = Ok seen' →
  Forall (λ id, ∃ e, provider id = Some e ∧ rejected e = false
    ∧ event_type e ∈ VALID_AUTH_TYPES
    ∧ (is_v2_1_plus version = true → event_type e ≠ M_ROOM_CREATE)) ids
  ∧ NoDup (omap (λ id, cited_key <$> provider id) ids)
  ∧ (∀ k, k ∈ omap (λ id, cited_key <$> provider id) ids → seen !! k = None)
  ∧ (∀ k id, seen' !! k = Some id → seen !! k = Some id ∨ id ∈ ids).
Proof.
  revert seen. induction ids as [|id ids IH]; simpl; intros seen Hc; simplify_eq.
  { split_and!; [done|apply NoDup_nil_2|set_solver|by left]. }
  destruct (provider id) as [e|] eqn:Ep; [|done].
  case_match eqn:Er; [done|]. case_match eqn:Ev; [done|]. case_match eqn:Et; [done|].
  case_match eqn:Es; [done|]. apply IH in Hc as (H1 & H2 & H3 & H4). simpl.
  fold (cited_key e) in *. split_and!.
  - constructor; [|done]. exists e. split_and!; try done.
    + apply negb_false_iff in Et. rewrite !orb_true_iff, !String.eqb_eq in Et.
      unfold VALID_AUTH_TYPES. set_solver.
    + intros Hv He. by rewrite Hv, He in Ev.
  - apply NoDup_cons. split; [|done]. intros Hin. specialize (H3 _ Hin).
    by rewrite lookup_insert_eq in H3.
  - intros k [->|Hin]%elem_of_cons; [done|]. specialize (H3 _ Hin).
    by apply lookup_insert_None in H3 as [? _].
  - intros k i Hi. destruct (H4 _ _ Hi) as [[[? ?]|[? ?]]%lookup_insert_Some|Hin]; set_solver.
Qed.

Lemma check_complete_ok state (seen : gmap (string * string) Id) req ty sk e :
  check_complete state seen req = Ok tt → (ty, sk) ∈ req → state ty sk = Some e →
  seen !! (ty, sk) = Some (event_id e).
Proof.
  induction req as [|[ty' sk'] req IH]; simpl; intros Hc; [set_solver|].
  intros [[= <- <-]|Hin]%elem_of_cons Hst.
  - rewrite Hst in Hc. case_match; [|done]. case_bool_decide; by subst.
  - apply IH; [|done..]. repeat (case_match; try done).
Qed.

(** With an auth context and outside MSC4242 rooms, every auth event an
    accepted event cites is known, not rejected and of an auth type (never
    the create event from room version 12 on), no two cited events share a
    type and state key, and every event of the room state that the
    auth-events selection asks for is cited. *)
Theorem accepted_citations ev state version verifier provider :
  check_auth_with_context ev state version verifier (Some provider) = Ok tt →
  event_type ev ≠ M_ROOM_CREATE → version ≠ V2_2 →
  Forall (λ id, ∃ e, provider id = Some e ∧ rejected e = false
    ∧ event_type e ∈ VALID_AUTH_TYPES
    ∧ (is_v2_1_plus version = true → event_type e ≠ M_ROOM_CREATE)) (auth_events ev)
  ∧ NoDup (omap (λ id, cited_key <$> provider id) (auth_events ev))
  ∧ ∃ rv, room_version_str_or_v1 state = Ok rv
    ∧ ∀ ty sk e, (ty, sk) ∈ required_auth_types_for ev version rv →
        state ty sk = Some e → event_id e ∈ auth_events ev.
Proof.
  intros Ha Hne Hv. apply accepted_steps in Ha as (Hc & _); [|done].
  unfold check_auth_events in Hc.
  assert (version_eqb version V2_2 = false) as Ev2 by (by destruct version).
  rewrite Ev2 in Hc. apply result_bind_Ok in Hc as ([] & _ & Hc).
  apply result_bind_Ok in Hc as (seen & Hcit & Hc).
  apply result_bind_Ok in Hc as (rv & Hrv & Hc).
  apply check_citations_ok in Hcit as (H1 & H2 & _ & H4). split_and!; [done..|].
  exists rv. split; [done|]. intros ty sk e Hin Hst.
  eapply check_complete_ok in Hc; [|done..].
  destruct (H4 _ _ Hc) as [Hx|]; [|done]. by rewrite lookup_empty in Hx.
Qed.

(** An event accepted against its own auth events is not soft-failed by a
    current room state that agrees with them on the entries its auth-events
    selection names. *)
Theorem forward_extremity_valid ev auth_state current version verifier rv :
  restricted_join_version rv = true ∨ get_join_authorised_via_users_server (content ev) = None →
  event_type ev ≠ M_ROOM_CREATE →
  check_auth ev auth_state version verifier = Ok tt →
  same_on ((M_ROOM_CREATE, "") :: required_auth_types_for ev version rv) auth_state current →
  validate_forward_extremity ev auth_state current version verifier = Valid.
Proof.
  intros Hrv Hne Ha Hs. unfold validate_forward_extremity. rewrite Ha.
  apply drop_verifier in Ha.
  by rewrite <-(agree_check_auth _ _ _ (same_on_agree _ _ _ _ _ Hrv Hne Hs)), Ha.
Qed.
End citations.

(** ** The theorems on the sample room *)

Lemma accepted_sender_standing_witness :
  membership_of Sample.state "@c:x" ≠ Some MEM_BAN.
Proof.
  apply (accepted_sender_standing (Sample.message "@c:x") Sample.state V2 None None);
    [vm_compute; reflexivity|done].
Defined.

Lemma accepted_power_levels_change_witness :
  pl_change_allowed "@a:x" (get_sender_power_level "@a:x" Sample.state V2)
    (content Sample.power) (content Sample.new_power).
Proof.
  apply (accepted_power_levels_change Sample.new_power Sample.state V2 None None Sample.power);
    [vm_compute; reflexivity|reflexivity|vm_compute; reflexivity|wf_json|wf_json].
Defined.

Lemma power_levels_no_escalation_witness :
  (get_sender_power_level "@b:x"
     (λ ty sk, if (ty ==s M_ROOM_POWER_LEVELS) && (sk ==s "") then Some Sample.new_power
               else Sample.state ty sk) V2
   ≤ Z.max (get_sender_power_level "@a:x" Sample.state V2)
       (get_sender_power_level "@b:x" Sample.state V2))%Z.
Proof.
  apply (power_levels_no_escalation Sample.new_power Sample.state V2 None None Sample.power "@b:x");
    [vm_compute; reflexivity|reflexivity|vm_compute; reflexivity|wf_json|wf_json| | ];
    vm_compute; discriminate.
Defined.

Lemma accepted_kick_ban_witness :
  (get_sender_power_level "@c:x" Sample.state V2 < get_sender_power_level "@b:x" Sample.state V2)%Z.
Proof.
  apply (accepted_kick_ban Sample.kick Sample.state V2 None None "@c:x" MEM_LEAVE);
    [vm_compute; reflexivity|reflexivity|reflexivity|done|reflexivity|by left].
Defined.

Lemma creators_cannot_be_removed_witness :
  is_ok (check_auth_with_context Sample.kick_admin Sample.state12 V2_1 None None) = false.
Proof.
  apply (creators_cannot_be_removed Sample.kick_admin Sample.state12 V2_1 None None
           Sample.create12 "@a:x" MEM_LEAVE);
    [reflexivity|vm_compute; reflexivity|by left|reflexivity|reflexivity|done|reflexivity|by left].
Defined.

Lemma accepted_join_witness :
  state_key (Sample.join "@d:x") = Some "@d:x"
  ∧ membership_of Sample.state "@d:x" ≠ Some MEM_BAN.
Proof.
  destruct (accepted_join (Sample.join "@d:x") Sample.state V2 None None) as (Hk & Hb & _);
    [vm_compute; reflexivity|reflexivity|reflexivity|by split].
Defined.

Lemma verdict_frame_witness :
  check_auth (Sample.message "@c:x") Sample.state V2 None
  = check_auth (Sample.message "@c:x")
      (room_state (delete (M_ROOM_MEMBER, "@b:x") Sample.room)) V2 None.
Proof.
  apply (verdict_frame (Sample.message "@c:x") V2 None "10"); [by left|done|].
  intros ty sk Hin. apply list_elem_of_In in Hin. simpl in Hin.
  destruct Hin as [[= <- <-]|[[= <- <-]|[[= <- <-]|[[= <- <-]|[]]]]]; vm_compute; reflexivity.
Defined.

Lemma accepted_citations_witness :
  ∃ rv, room_version_str_or_v1 Sample.state = Ok rv.
Proof.
  destruct (accepted_citations Sample.kick Sample.state V2 None Sample.find_event)
    as (_ & _ & rv & Hrv & _); [vm_compute; reflexivity|done|done|by exists rv].
Defined.

Lemma forward_extremity_valid_witness :
  validate_forward_extremity (Sample.message "@c:x") Sample.state
    (room_state (delete (M_ROOM_MEMBER, "@b:x") Sample.room)) V2 None = Valid.
Proof.
  apply (forward_extremity_valid (Sample.message "@c:x") _ _ V2 None "10");
    [by left|done|vm_compute; reflexivity|].
  intros ty sk Hin. apply list_elem_of_In in Hin. simpl in Hin.
  destruct Hin as [[= <- <-]|[[= <- <-]|[[= <- <-]|[[= <- <-]|[]]]]]; vm_compute; reflexivity.
Defined.
