(* ===== verification/Redaction.v ===== *)
(** * Redaction ([src/src/basespec/rezzy_types.rs])

    The redaction algorithm on event content and on raw events: which keys
    survive per event type and room version ([redaction_preserved_keys]), the
    stripped content ([redact_content]), its complement
    ([split_redaction_content]) and the redaction of a whole event. *)
From stdpp Require Import prelude gmap strings sorting.
From Stdlib Require String.
From Stdlib Require Import Ascii.
From S2P Require Import Prelude EventTypes Json Events JsonContent Auth Samples.

(** [RedactionRule::{None, All, Keys}]. *)
Inductive RedactionRule : Type :=
| RuleNone
| RuleAll
| RuleKeys (paths : list string).

Definition msc3389_redaction_rule (ty : string) : RedactionRule :=
  if ty ==s M_ROOM_CREATE then
    RuleKeys ["creator"; "m.relates_to.rel_type"; "m.relates_to.event_id"]
  else if ty ==s M_ROOM_MEMBER then
    RuleKeys ["membership"; "join_authorised_via_users_server";
              "m.relates_to.rel_type"; "m.relates_to.event_id"]
  else if ty ==s M_ROOM_POWER_LEVELS then
    RuleKeys ["ban"; "events"; "events_default"; "kick"; "redact"; "state_default"; "users";
              "users_default"; "m.relates_to.rel_type"; "m.relates_to.event_id"]
  else if ty ==s M_ROOM_JOIN_RULES then
    RuleKeys ["join_rule"; "allow"; "m.relates_to.rel_type"; "m.relates_to.event_id"]
  else if ty ==s M_ROOM_HISTORY_VISIBILITY then
    RuleKeys ["history_visibility"; "m.relates_to.rel_type"; "m.relates_to.event_id"]
  else RuleKeys ["m.relates_to.rel_type"; "m.relates_to.event_id"].

Definition redaction_preserved_keys (ty room_version : string) : RedactionRule :=
  match RoomVersionFormat_parse room_version with
  | None => RuleNone
  | Some Msc3389 => msc3389_redaction_rule ty
  | Some format =>
      let ver_num := match format with
                     | Numeric n => n
                     | Msc3389 => 10%Z
                     | Msc4242 | NutraCdo => 11%Z
                     end in
      if ty ==s M_ROOM_CREATE then
        if (11 <=? ver_num)%Z then RuleAll else RuleKeys ["creator"]
      else if ty ==s M_ROOM_MEMBER then
        if (11 <=? ver_num)%Z then
          RuleKeys ["membership"; "join_authorised_via_users_server"; "third_party_invite.signed"]
        else if (9 <=? ver_num)%Z then RuleKeys ["membership"; "join_authorised_via_users_server"]
        else RuleKeys ["membership"]
      else if ty ==s M_ROOM_POWER_LEVELS then
        if (11 <=? ver_num)%Z then
          RuleKeys ["ban"; "events"; "events_default"; "invite"; "kick"; "redact";
                    "state_default"; "users"; "users_default"]
        else
          RuleKeys ["ban"; "events"; "events_default"; "kick"; "redact";
                    "state_default"; "users"; "users_default"]
      else if ty ==s M_ROOM_JOIN_RULES then
        if (9 <=? ver_num)%Z then RuleKeys ["join_rule"; "allow"] else RuleKeys ["join_rule"]
      else if ty ==s M_ROOM_HISTORY_VISIBILITY then RuleKeys ["history_visibility"]
      else if ty ==s M_ROOM_ALIASES then
        if (ver_num <=? 5)%Z then RuleKeys ["aliases"] else RuleNone
      else if ty ==s M_ROOM_REDACTION then
        if (11 <=? ver_num)%Z then RuleKeys ["redacts"] else RuleNone
      else RuleNone
  end.

(** One path of [redact_content]'s loop: copy the value at [path] to [out]. *)
Definition redact_path (content : value) (out : object) (path : string) : object :=
  match rsplit_once "."%char path with
  | Some (top, rest) =>
      match vget content top with
      | Some (Object inner) =>
          match obj_get inner rest with
          | Some v =>
              match obj_get out top with
              | Some (Object parent) => obj_insert top (Object (obj_insert rest v parent)) out
              | _ => obj_insert top (Object (obj_insert rest v [])) out
              end
          | None => out
          end
      | _ => out
      end
  | None =>
      match vget content path with
      | Some v => obj_insert path v out
      | None => out
      end
  end.

Definition redact_content (content : value) (rule : RedactionRule) : value :=
  match rule with
  | RuleNone => Object []
  | RuleAll => content
  | RuleKeys paths => Object (foldl (redact_path content) [] paths)
  end.

(** The inner loop of [redactable_content_remainder]. *)
Definition inner_remainder (preserved full : object) : object :=
  foldl (λ out kv,
    if bool_decide (obj_get preserved kv.1 = Some kv.2) then out else obj_insert kv.1 kv.2 out)
    [] full.

Definition remainder_step (redacted : object) (out : object) (kv : string * value) : object :=
  let '(key, val) := kv in
  match obj_get redacted key, val with
  | Some preserved, _ =>
      if bool_decide (preserved = val) then out
      else
        match preserved, val with
        | Object preserved_inner, Object full_inner =>
            let remainder := inner_remainder preserved_inner full_inner in
            if bool_decide (remainder = []) then out else obj_insert key (Object remainder) out
        | _, _ => obj_insert key val out
        end
  | None, _ => obj_insert key val out
  end.

Definition redactable_content_remainder (content redacted : value) : value :=
  match content with
  | Object content_obj =>
      let redacted_obj := match redacted with Object m => m | _ => [] end in
      Object (foldl (remainder_step redacted_obj) [] content_obj)
  | _ => Object []
  end.

Definition split_redaction_content (content : value) (ty room_version : string) : value * value :=
  let rule := redaction_preserved_keys ty room_version in
  let redacted := redact_content content rule in
  (redacted, redactable_content_remainder content redacted).

(** ** The redaction of a raw event *)

Definition room_version_is_v11_or_later (room_version : string) : bool :=
  match RoomVersionFormat_parse room_version with
  | Some f => uses_v11_redaction_rules f
  | None => false
  end.

Definition room_version_is_v12_or_later (room_version : string) : bool :=
  match RoomVersionFormat_parse room_version with
  | Some f => uses_v12_create_rules f
  | None => false
  end.

Definition is_msc4242_room_version (room_version : string) : bool :=
  match RoomVersionFormat_parse room_version with Some Msc4242 => true | _ => false end.

(** The closure [take]: copy a top-level key of [obj], if present, to [out]. *)
Definition take_key (obj : object) (out : object) (key : string) : object :=
  match obj_get obj key with Some x => obj_insert key x out | None => out end.

Definition redact_top_level (v : value) (room_version : string) : object :=
  match v with
  | Object obj =>
      let is_v12_create :=
        bool_decide (match obj_get obj FIELD_TYPE with Some x => as_string x | None => None end
                     = Some M_ROOM_CREATE)
        && room_version_is_v12_or_later room_version in
      let out := take_key obj (take_key obj [] FIELD_EVENT_ID) FIELD_TYPE in
      let out := if is_v12_create then out else take_key obj out "room_id" in
      let out := foldl (take_key obj) out
        [FIELD_SENDER; FIELD_STATE_KEY; FIELD_CONTENT; FIELD_HASHES; FIELD_SIGNATURES;
         FIELD_DEPTH; FIELD_PREV_EVENTS; FIELD_AUTH_EVENTS; FIELD_ORIGIN_SERVER_TS] in
      let out := if is_msc4242_room_version room_version
                 then take_key obj out "prev_state_events" else out in
      if room_version_is_v11_or_later room_version then out
      else take_key obj (take_key obj (take_key obj out "origin") "membership") "prev_state"
  | _ => []
  end.

Definition redact_json (v : value) (room_version : string) : value :=
  let ty := default "" (match vget v FIELD_TYPE with Some x => as_string x | None => None end) in
  let rule := redaction_preserved_keys ty room_version in
  let out := redact_top_level v room_version in
  let content := match obj_get out FIELD_CONTENT with
                 | Some c => redact_content c rule
                 | None => Object []
                 end in
  Object (obj_insert FIELD_CONTENT content out).

(** [LeanEvent::redacted]. *)
Definition redacted {Id} (e : LeanEvent Id value) (room_version : string) : LeanEvent Id value :=
  let rule := redaction_preserved_keys (event_type e) room_version in
  {| event_id := event_id e; event_type := event_type e; state_key := state_key e;
     power_level := power_level e; origin_server_ts := origin_server_ts e; sender := sender e;
     content := redact_content (content e) rule; prev_events := prev_events e;
     auth_events := auth_events e; depth := depth e; rejected := rejected e;
     soft_fail := soft_fail e; room_id := room_id e |}.

Definition apply_redaction `{EventId Id} (target redaction : LeanEvent Id value) (room_version : string)
    : option (LeanEvent Id value) :=
  if match get_redacts (content redaction) with
     | Some target_id => negb (target_id ==s id_display (event_id target))
     | None => true
     end
  then None else Some (redacted target room_version).

(** ** Reading back what a redaction kept *)

(** The value a path of a rule denotes. *)
Definition read_path (c : value) (path : string) : option value :=
  match rsplit_once "."%char path with
  | Some (top, rest) =>
      match vget c top with Some (Object inner) => obj_get inner rest | _ => None end
  | None => vget c path
  end.

(** No path is at once a whole key and a key with a nested field. *)
Definition path_top (path : string) : string :=
  match rsplit_once "."%char path with Some (top, _) => top | None => path end.
Definition paths_ok (paths : list string) : bool :=
  forallb (λ p, forallb (λ q,
    (p ==s q) || match rsplit_once "."%char p, rsplit_once "."%char q with
                 | Some (t, r), Some (t', r') => negb (t ==s t') || negb (r ==s r')
                 | _, _ => negb (path_top p ==s path_top q)
                 end) paths) paths.

Lemma redaction_paths_ok ty rv paths :
  redaction_preserved_keys ty rv = RuleKeys paths → paths_ok paths = true.
Proof.
  unfold redaction_preserved_keys, msc3389_redaction_rule.
  intros Hr. repeat case_match; simplify_eq; vm_compute; reflexivity.
Qed.

Section readback.
Context (paths : list string) (Hok : paths_ok paths = true).

Lemma paths_distinct p q :
  p ∈ paths → q ∈ paths → p ≠ q →
  match rsplit_once "."%char p, rsplit_once "."%char q with
  | Some (t, r), Some (t', r') => t ≠ t' ∨ r ≠ r'
  | _, _ => path_top p ≠ path_top q
  end.
Proof.
  intros Hp%list_elem_of_In Hq%list_elem_of_In Hne.
  pose proof (proj1 (forallb_forall _ _) (proj1 (forallb_forall _ _) Hok p Hp) q Hq) as Hd.
  simpl in Hd. rewrite (proj2 (String.eqb_neq _ _) Hne) in Hd. simpl in Hd.
  destruct (rsplit_once "."%char p) as [[t r]|], (rsplit_once "."%char q) as [[t' r']|];
    [apply orb_true_iff in Hd as [Hd|Hd]; [left|right]| | |];
    apply negb_true_iff in Hd; by apply String.eqb_neq in Hd.
Qed.

(** Nested paths only ever meet an object at their top key. *)
Definition tops_objects (out : object) : Prop :=
  ∀ p t r, p ∈ paths → rsplit_once "."%char p = Some (t, r) →
    match obj_get out t with None | Some (Object _) => True | Some _ => False end.

Lemma path_top_dotted p t r : rsplit_once "."%char p = Some (t, r) → path_top p = t.
Proof. unfold path_top. by intros ->. Qed.

Lemma redact_path_dotted c out p t r :
  rsplit_once "."%char p = Some (t, r) →
  redact_path c out p =
    match read_path c p with
    | Some v => obj_insert t (Object (obj_insert r v
        (match obj_get out t with Some (Object parent) => parent | _ => [] end))) out
    | None => out
    end.
Proof.
  unfold redact_path, read_path. intros ->. destruct (vget c t) as [x|]; [|done].
  destruct x as [| | | | |inner]; try done. destruct (obj_get inner r); [|done].
  destruct (obj_get out t) as [y|]; [|done]. by destruct y.
Qed.

Lemma redact_path_plain c out p :
  rsplit_once "."%char p = None →
  redact_path c out p = match read_path c p with Some v => obj_insert p v out | None => out end.
Proof. unfold redact_path, read_path. by intros ->. Qed.

Lemma redact_path_tops c out p :
  p ∈ paths → tops_objects out → tops_objects (redact_path c out p).
Proof.
  intros Hp Ht q t r Hq Eq. specialize (Ht q t r Hq Eq).
  destruct (rsplit_once "."%char p) as [[t' r']|] eqn:Ep.
  - rewrite (redact_path_dotted _ _ _ _ _ Ep). destruct (read_path c p) as [v|]; [|done].
    destruct (decide (t' = t)) as [->|]; [by rewrite obj_get_insert_eq|by rewrite obj_get_insert_ne].
  - rewrite (redact_path_plain _ _ _ Ep). destruct (read_path c p) as [v|]; [|done].
    destruct (decide (p = q)) as [->|Hne]; [congruence|].
    pose proof (paths_distinct p q Hp Hq Hne) as Hd.
    rewrite Ep in Hd. unfold path_top in Hd. rewrite Ep, Eq in Hd. by rewrite obj_get_insert_ne.
Qed.

Lemma redact_path_read c out p q :
  p ∈ paths → q ∈ paths → tops_objects out →
  read_path (Object (redact_path c out p)) q =
    if decide (p = q) then
      match read_path c p with Some v => Some v | None => read_path (Object out) q end
    else read_path (Object out) q.
Proof.
  intros Hp Hq Ht. destruct (rsplit_once "."%char p) as [[t r]|] eqn:Ep.
  - rewrite (redact_path_dotted _ _ _ _ _ Ep).
    destruct (read_path c p) as [v|] eqn:Er; [|by case_decide].
    specialize (Ht p t r Hp Ep). destruct (decide (p = q)) as [<-|Hne].
    { unfold read_path. rewrite Ep. simpl. by rewrite obj_get_insert_eq, obj_get_insert_eq. }
    pose proof (paths_distinct p q Hp Hq Hne) as Hd. unfold read_path, path_top in *.
    rewrite Ep in Hd. destruct (rsplit_once "."%char q) as [[t' r']|] eqn:Eq; simpl.
    + destruct (decide (t = t')) as [<-|]; [|by rewrite obj_get_insert_ne].
      destruct Hd as [|Hd]; [done|]. rewrite obj_get_insert_eq, obj_get_insert_ne by done.
      destruct (obj_get out t) as [y|]; [|done]. by destruct y.
    + by rewrite obj_get_insert_ne.
  - rewrite (redact_path_plain _ _ _ Ep).
    destruct (read_path c p) as [v|] eqn:Er; [|by case_decide].
    destruct (decide (p = q)) as [<-|Hne].
    { unfold read_path. rewrite Ep. simpl. by rewrite obj_get_insert_eq. }
    pose proof (paths_distinct p q Hp Hq Hne) as Hd. unfold read_path, path_top in *.
    rewrite Ep in Hd. destruct (rsplit_once "."%char q) as [[t' r']|] eqn:Eq; simpl;
      by rewrite obj_get_insert_ne.
Qed.

Lemma redact_fold_read c ps out q :
  (∀ p, p ∈ ps → p ∈ paths) → q ∈ paths → tops_objects out →
  read_path (Object (foldl (redact_path c) out ps)) q =
    if decide (q ∈ ps) then
      match read_path c q with Some v => Some v | None => read_path (Object out) q end
    else read_path (Object out) q.
Proof.
  intros Hps Hq. revert out. induction ps as [|p ps IH]; intros out Ht; simpl; [done|].
  rewrite IH; [|set_solver|apply redact_path_tops; set_solver].
  rewrite (redact_path_read c out p q) by set_solver.
  destruct (decide (p = q)) as [->|]; repeat case_decide; try set_solver.
  all: by destruct (read_path c q).
Qed.
End readback.

(** Every path of the rule reads the same in the redacted content. *)
Lemma redact_content_read c paths q :
  paths_ok paths = true → q ∈ paths →
  read_path (redact_content c (RuleKeys paths)) q = read_path c q.
Proof.
  intros Hok Hq. simpl. rewrite (redact_fold_read paths Hok) by (done || intros ????; done).
  rewrite decide_True by done. destruct (read_path c q); [done|].
  unfold read_path. by destruct (rsplit_once "."%char q) as [[??]|].
Qed.

(** The redacted content only depends on what the paths read. *)
Lemma redact_content_ext c c' paths :
  (∀ q, q ∈ paths → read_path c q = read_path c' q) →
  redact_content c (RuleKeys paths) = redact_content c' (RuleKeys paths).
Proof.
  intros Hr. simpl. f_equal. generalize ([] : object) as out.
  induction paths as [|p ps IH]; intros out; simpl; [done|].
  assert (redact_path c out p = redact_path c' out p) as ->; [|apply IH; set_solver].
  assert (read_path c p = read_path c' p) as Hp by set_solver.
  destruct (rsplit_once "."%char p) as [[t r]|] eqn:Ep.
  - by rewrite !(redact_path_dotted _ _ _ _ _ Ep), Hp.
  - by rewrite !(redact_path_plain _ _ _ Ep), Hp.
Qed.

Lemma redact_content_idemp c ty rv :
  let rule := redaction_preserved_keys ty rv in
  redact_content (redact_content c rule) rule = redact_content c rule.
Proof.
  intros rule. destruct rule as [| |paths] eqn:Er; [done..|].
  apply redact_content_ext. intros q Hq.
  eapply redact_content_read; [by eapply redaction_paths_ok|done].
Qed.

Lemma redact_content_empty rule : redact_content (Object []) rule = Object [].
Proof.
  destruct rule as [| |paths]; [done..|]. simpl. f_equal.
  induction paths as [|p ps IH]; [done|]. simpl. unfold redact_path at 2. simpl.
  by destruct (rsplit_once "."%char p) as [[??]|].
Qed.

(** A whole key of the rule keeps its value. *)
Lemma redact_content_key c rule k :
  match rule with
  | RuleNone => False
  | RuleAll => True
  | RuleKeys paths => paths_ok paths = true ∧ k ∈ paths ∧ rsplit_once "."%char k = None
  end → vget (redact_content c rule) k = vget c k.
Proof.
  destruct rule as [| |paths]; [done..|]. intros (Hok & Hk & Hp).
  pose proof (redact_content_read c paths k Hok Hk) as Hr. unfold read_path in Hr.
  by rewrite Hp in Hr.
Qed.

(** Decides that a key survives every recognised room version's rule. *)
Ltac solve_kept_key :=
  apply redact_content_key; unfold redaction_preserved_keys, msc3389_redaction_rule; simpl;
  repeat case_match; simplify_eq; try done; (split; [vm_compute; reflexivity|split; [set_solver|reflexivity]]).

Lemma power_levels_key_kept c rv k :
  RoomVersionFormat_parse rv ≠ None →
  k ∈ ["ban"; "events"; "events_default"; "kick"; "redact"; "state_default"; "users"; "users_default"] →
  vget (redact_content c (redaction_preserved_keys M_ROOM_POWER_LEVELS rv)) k = vget c k.
Proof.
  intros Hrv Hk. rewrite !elem_of_cons, elem_of_nil in Hk.
  destruct_or! Hk; subst; try done; solve_kept_key.
Qed.

Lemma membership_key_kept c rv :
  RoomVersionFormat_parse rv ≠ None →
  vget (redact_content c (redaction_preserved_keys M_ROOM_MEMBER rv)) "membership" = vget c "membership".
Proof. intros Hrv. solve_kept_key. Qed.

Lemma join_rule_key_kept c rv :
  RoomVersionFormat_parse rv ≠ None →
  vget (redact_content c (redaction_preserved_keys M_ROOM_JOIN_RULES rv)) "join_rule" = vget c "join_rule".
Proof. intros Hrv. solve_kept_key. Qed.

(** ** Raw events *)

Lemma take_keys_sorted obj keys out : obj_sorted out → obj_sorted (foldl (take_key obj) out keys).
Proof.
  revert out. induction keys as [|k keys IH]; intros out Hs; simpl; [done|].
  apply IH. unfold take_key. case_match; [by apply obj_insert_sorted|done].
Qed.

Lemma take_keys_get obj keys out k :
  obj_get (foldl (take_key obj) out keys) k =
    if decide (k ∈ keys) then
      match obj_get obj k with Some x => Some x | None => obj_get out k end
    else obj_get out k.
Proof.
  revert out. induction keys as [|k' keys IH]; intros out; simpl; [done|].
  rewrite IH. unfold take_key. destruct (decide (k' = k)) as [->|Hne].
  - rewrite (decide_True (P:=k ∈ k :: keys)) by set_solver.
    destruct (obj_get obj k) as [x|] eqn:E; rewrite ?obj_get_insert_eq; by case_decide.
  - assert (obj_get (match obj_get obj k' with Some x => obj_insert k' x out | None => out end) k
            = obj_get out k) as ->.
    { destruct (obj_get obj k'); [by rewrite obj_get_insert_ne|done]. }
    repeat case_decide; done || set_solver.
Qed.

(** The top-level keys a redaction keeps, given the two version tests and
    whether the event is a create event of a v12+ room. *)
Definition kept_keys (is_v12_create msc4242 v11 : bool) : list string :=
  [FIELD_EVENT_ID; FIELD_TYPE] ++ (if is_v12_create then [] else ["room_id"])
  ++ [FIELD_SENDER; FIELD_STATE_KEY; FIELD_CONTENT; FIELD_HASHES; FIELD_SIGNATURES;
      FIELD_DEPTH; FIELD_PREV_EVENTS; FIELD_AUTH_EVENTS; FIELD_ORIGIN_SERVER_TS]
  ++ (if msc4242 then ["prev_state_events"] else [])
  ++ (if v11 then [] else ["origin"; "membership"; "prev_state"]).

Definition v12_create (v : value) (rv : string) : bool :=
  bool_decide (match vget v FIELD_TYPE with Some x => as_string x | None => None end
               = Some M_ROOM_CREATE) && room_version_is_v12_or_later rv.

Lemma redact_top_level_keys v rv :
  redact_top_level v rv =
    foldl (take_key (match v with Object o => o | _ => [] end)) []
      (kept_keys (v12_create v rv) (is_msc4242_room_version rv) (room_version_is_v11_or_later rv)).
Proof.
  assert (∀ keys, foldl (take_key []) [] keys = []) as Hnil
    by (intros keys; induction keys; simpl; [done|done]).
  destruct v as [| | | | |o]; [by rewrite Hnil..|].
  unfold redact_top_level, v12_create, kept_keys. cbn [vget].
  destruct (bool_decide _ && _), (is_msc4242_room_version rv), (room_version_is_v11_or_later rv);
    cbn [foldl app]; reflexivity.
Qed.

Section redact_json.
Context (v : value) (rv : string).

Let keys := kept_keys (v12_create v rv) (is_msc4242_room_version rv) (room_version_is_v11_or_later rv).
Let obj := match v with Object o => o | _ => [] end.

Lemma content_kept_key : FIELD_CONTENT ∈ keys.
Proof. unfold keys, kept_keys. set_solver. Qed.
Lemma type_kept_key : FIELD_TYPE ∈ keys.
Proof. unfold keys, kept_keys. set_solver. Qed.

Lemma redact_json_get k :
  vget (redact_json v rv) k =
    if decide (k = FIELD_CONTENT) then
      Some (match obj_get obj FIELD_CONTENT with
            | Some c => redact_content c (redaction_preserved_keys
                (default "" (match vget v FIELD_TYPE with Some x => as_string x | None => None end)) rv)
            | None => Object []
            end)
    else if decide (k ∈ keys) then obj_get obj k else None.
Proof.
  unfold redact_json. rewrite redact_top_level_keys. cbn [vget]. fold keys obj.
  destruct (decide (k = FIELD_CONTENT)) as [->|].
  - rewrite obj_get_insert_eq, take_keys_get, decide_True by apply content_kept_key.
    by destruct (obj_get obj FIELD_CONTENT).
  - rewrite obj_get_insert_ne, take_keys_get by done. case_decide; [|done].
    by destruct (obj_get obj k).
Qed.

Lemma redact_json_type :
  match vget (redact_json v rv) FIELD_TYPE with Some x => as_string x | None => None end
  = match vget v FIELD_TYPE with Some x => as_string x | None => None end.
Proof.
  rewrite redact_json_get, decide_False, decide_True by (done || apply type_kept_key).
  unfold obj. by destruct v.
Qed.

Lemma redact_json_sorted : ∃ o, redact_json v rv = Object o ∧ obj_sorted o.
Proof.
  eexists; split; [done|]. apply obj_insert_sorted. rewrite redact_top_level_keys.
  apply take_keys_sorted. constructor.
Qed.
End redact_json.

(** C22: redacting a raw event twice is redacting it once, in every room version
    (so the reference hash of a redacted event is stable). *)
Theorem redact_json_idempotent v rv : redact_json (redact_json v rv) rv = redact_json v rv.
Proof.
  pose proof (redact_json_sorted v rv) as (o & Ho & Hs).
  pose proof (redact_json_sorted (redact_json v rv) rv) as (o' & Ho' & Hs').
  rewrite Ho', Ho. f_equal. apply obj_ext; [done..|]. intros k.
  change (obj_get o' k) with (vget (Object o') k). change (obj_get o k) with (vget (Object o) k).
  rewrite <-Ho', <-Ho. rewrite (redact_json_get (redact_json v rv)), redact_json_type.
  assert (v12_create (redact_json v rv) rv = v12_create v rv) as ->
    by (unfold v12_create; by rewrite redact_json_type).
  assert (∀ k, obj_get (match redact_json v rv with Object o => o | _ => [] end) k
               = vget (redact_json v rv) k) as Hget by (intros; by destruct (redact_json v rv)).
  rewrite !Hget, !redact_json_get. rewrite (decide_True (P:=FIELD_CONTENT = _)) by done.
  case_decide; [|by case_decide]. f_equal.
  destruct (obj_get (match v with Object o => o | _ => [] end) FIELD_CONTENT);
    [by apply redact_content_idemp|apply redact_content_empty].
Qed.

(** In every recognised room version, redacting an event leaves untouched the
    fields the auth rules read most: the user, event and default power levels
    and the ban, kick and redact levels of [m.room.power_levels], the
    [membership] of [m.room.member] and the [join_rule] of
    [m.room.join_rules]. *)
Theorem redaction_keeps_auth_fields {Id} (e : LeanEvent Id value) rv :
  RoomVersionFormat_parse rv ≠ None →
  let c := content e in let c' := content (redacted e rv) in
  (event_type e = M_ROOM_POWER_LEVELS →
     (∀ u, get_user_power_level c' u = get_user_power_level c u)
     ∧ (∀ ty, get_event_power_level c' ty = get_event_power_level c ty)
     ∧ Forall (λ get : value → option Z, get c' = get c)
         [get_users_default; get_events_default; get_state_default; get_ban; get_kick; get_redact])
  ∧ (event_type e = M_ROOM_MEMBER → get_membership c' = get_membership c)
  ∧ (event_type e = M_ROOM_JOIN_RULES → get_join_rule c' = get_join_rule c).
Proof.
  intros Hrv c c'. subst c c'. simpl. split_and!; intros ->.
  - assert (∀ k, k ∈ ["ban"; "events"; "events_default"; "kick"; "redact"; "state_default";
        "users"; "users_default"] →
      vget (redact_content (content e) (redaction_preserved_keys M_ROOM_POWER_LEVELS rv)) k
      = vget (content e) k) as Hk by (intros; by apply power_levels_key_kept).
    unfold map_pl, scalar_pl, FIELD_USERS, FIELD_EVENTS, FIELD_USERS_DEFAULT, FIELD_EVENTS_DEFAULT,
      FIELD_STATE_DEFAULT, FIELD_BAN, FIELD_KICK, FIELD_REDACT, field_object.
    split_and!; [intros u|intros ty|repeat constructor]; by rewrite !Hk by set_solver.
  - unfold get_string, FIELD_MEMBERSHIP. by rewrite membership_key_kept.
  - unfold get_string, FIELD_JOIN_RULE. by rewrite join_rule_key_kept.
Qed.

Lemma redaction_keeps_auth_fields_witness :
  get_membership (content (redacted Sample.join_a "10")) = get_membership (content Sample.join_a).
Proof.
  apply (redaction_keeps_auth_fields Sample.join_a "10"); [vm_compute; discriminate|reflexivity].
Defined.

(** ** The complement of a redaction *)

Lemma obj_get_cons_sorted k v o :
  obj_sorted ((k, v) :: o) → obj_get o k = None.
Proof. intros Hs. inversion Hs; subst. by apply obj_get_lt. Qed.

(** A loop over a map that inserts at most under the key it visits. *)
Lemma fold_keyed_get (f : string * value → option value) o out k :
  obj_sorted o →
  obj_get (foldl (λ out kv, match f kv with Some x => obj_insert kv.1 x out | None => out end) out o) k =
    match obj_get o k with
    | Some v => match f (k, v) with Some x => Some x | None => obj_get out k end
    | None => obj_get out k
    end.
Proof.
  revert out. induction o as [|[k' v'] o IH]; intros out Hs; simpl; [done|].
  pose proof (obj_get_cons_sorted _ _ _ Hs) as Hk'.
  rewrite IH by (by inversion Hs). destruct (String.eqb_spec k k') as [->|Hne].
  - rewrite Hk'. by destruct (f (k', v')); rewrite ?obj_get_insert_eq.
  - assert (obj_get (match f (k', v') with Some x => obj_insert k' x out | None => out end) k
            = obj_get out k) as ->; [|done].
    by destruct (f (k', v')); rewrite ?obj_get_insert_ne.
Qed.

Lemma foldl_ext_step {A B} (f g : A → B → A) l a :
  (∀ a b, f a b = g a b) → foldl f a l = foldl g a l.
Proof. intros Hfg. revert a. induction l as [|b l IH]; intros a; simpl; [done|]. by rewrite Hfg, IH. Qed.

Lemma inner_remainder_get preserved full k :
  obj_sorted full →
  obj_get (inner_remainder preserved full) k =
    match obj_get full k with
    | Some v => if decide (obj_get preserved k = Some v) then None else Some v
    | None => None
    end.
Proof.
  intros Hs. unfold inner_remainder.
  rewrite (foldl_ext_step _ (λ out kv,
    match (if bool_decide (obj_get preserved kv.1 = Some kv.2) then None else Some kv.2) with
    | Some x => obj_insert kv.1 x out | None => out end)) by (intros ??; by case_bool_decide).
  rewrite (fold_keyed_get (λ kv, if bool_decide (obj_get preserved kv.1 = Some kv.2)
    then None else Some kv.2)) by done.
  simpl. destruct (obj_get full k); [|done].
  by case_bool_decide; case_decide.
Qed.

(** What [remainder_step] inserts for one key. *)
Definition remainder_of (red : object) (kv : string * value) : option value :=
  match obj_get red kv.1 with
  | Some preserved =>
      if bool_decide (preserved = kv.2) then None
      else
        match preserved, kv.2 with
        | Object p, Object f =>
            if bool_decide (inner_remainder p f = []) then None else Some (Object (inner_remainder p f))
        | _, _ => Some kv.2
        end
  | None => Some kv.2
  end.

Lemma remainder_get red o k :
  obj_sorted o →
  obj_get (foldl (remainder_step red) [] o) k =
    match obj_get o k with Some v => remainder_of red (k, v) | None => None end.
Proof.
  intros Hs. rewrite (foldl_ext_step _ (λ out kv,
    match remainder_of red kv with Some x => obj_insert kv.1 x out | None => out end)).
  - rewrite fold_keyed_get by done. destruct (obj_get o k); [|done]. by destruct (remainder_of red _).
  - intros out [k' v']. unfold remainder_step, remainder_of. simpl.
    destruct (obj_get red k') as [p|]; [|done]. case_bool_decide; [done|].
    destruct p, v'; try done. by case_bool_decide.
Qed.

(** Redacted content is part of the content. *)
Definition kept_part (c : value) (k : string) (x : value) : Prop :=
  vget c k = Some x
  ∨ ∃ part inner, x = Object part ∧ vget c k = Some (Object inner)
      ∧ ∀ ik y, obj_get part ik = Some y → obj_get inner ik = Some y.

Lemma redact_path_part c out p :
  (∀ k x, obj_get out k = Some x → kept_part c k x) →
  ∀ k x, obj_get (redact_path c out p) k = Some x → kept_part c k x.
Proof.
  intros Hout k x. unfold redact_path. destruct (rsplit_once "."%char p) as [[t r]|].
  - destruct (vget c t) as [y|] eqn:Et; [|by apply Hout].
    destruct y as [| | | | |inner]; try by apply Hout.
    destruct (obj_get inner r) as [v|] eqn:Er; [|by apply Hout].
    assert (∀ part, (∀ ik y, obj_get part ik = Some y → obj_get inner ik = Some y) →
      obj_get (obj_insert t (Object (obj_insert r v part)) out) k = Some x → kept_part c k x) as Hins.
    { intros part Hpart. destruct (decide (t = k)) as [->|].
      - rewrite obj_get_insert_eq. intros [= <-]. right. do 2 eexists. split_and!; [done..|].
        intros ik y. destruct (decide (r = ik)) as [->|];
          [rewrite obj_get_insert_eq; congruence|rewrite obj_get_insert_ne by done; apply Hpart].
      - rewrite obj_get_insert_ne by done. apply Hout. }
    destruct (obj_get out t) as [y|] eqn:Eo; [destruct y as [| | | | |part]|]; apply Hins; try done.
    destruct (Hout _ _ Eo) as [Hc|(part' & inner' & [= <-] & Hc & Hp)]; congruence || naive_solver.
  - destruct (vget c p) as [v|] eqn:Ev; [|by apply Hout].
    destruct (decide (p = k)) as [->|]; [rewrite obj_get_insert_eq|rewrite obj_get_insert_ne by done; apply Hout].
    intros [= <-]. by left.
Qed.

Lemma redact_content_part c rule k x :
  vget (redact_content c rule) k = Some x → kept_part c k x.
Proof.
  destruct rule as [| |paths]; [done|by left|]. cbn [redact_content vget].
  assert (∀ out, (∀ k x, obj_get out k = Some x → kept_part c k x) →
    ∀ k x, obj_get (foldl (redact_path c) out paths) k = Some x → kept_part c k x) as Hg.
  { induction paths as [|p ps IH]; intros out Hout; simpl; [done|].
    apply IH. by apply redact_path_part. }
  by apply Hg.
Qed.

(** The two halves [split_redaction_content] returns make up the content:
    each key of the content is in exactly one half with its full value, or it
    holds an object whose members are the disjoint union of the members kept
    and the members left over; no other key is in either half. *)
Theorem split_redaction_recovers o ty rv k :
  value_wf (Object o) →
  let '(kept, rest) := split_redaction_content (Object o) ty rv in
  match obj_get o k with
  | None => vget kept k = None ∧ vget rest k = None
  | Some v =>
      (vget kept k = Some v ∧ vget rest k = None)
      ∨ (vget kept k = None ∧ vget rest k = Some v)
      ∨ ∃ inner part,
          v = Object inner ∧ vget kept k = Some (Object part)
          ∧ let left := match vget rest k with Some (Object r) => r | _ => [] end in
            ∀ ik,
              (∃ y, obj_get inner ik = Some y ∧ obj_get part ik = Some y ∧ obj_get left ik = None)
              ∨ (obj_get part ik = None ∧ obj_get left ik = obj_get inner ik)
  end.
Proof.
  intros Hwf. cbn -[vget obj_get redact_content]. set (rule := redaction_preserved_keys ty rv).
  destruct (redact_content (Object o) rule) as [| | | | |red] eqn:Ered;
    try (by destruct rule; simpl in Ered).
  pose proof (redact_content_part (Object o) rule) as Hpart. rewrite Ered in *.
  cbn [vget] in *. assert (obj_sorted o) as Hs by apply Hwf. rewrite remainder_get by done.
  destruct (obj_get o k) as [v|] eqn:Ev.
  2: { split; [|done]. destruct (obj_get red k) as [x|] eqn:Ex; [|done].
       destruct (Hpart _ _ Ex) as [Hx|(? & ? & _ & Hx & _)]; simpl in Hx; congruence. }
  unfold remainder_of. cbn [fst snd]. destruct (obj_get red k) as [x|] eqn:Ex; [|by right; left].
  destruct (Hpart _ _ Ex) as [Hx|(part & inner & -> & Hx & Hin)]; cbn [vget] in Hx.
  { left. split; [congruence|]. rewrite bool_decide_eq_true_2; congruence. }
  assert (v = Object inner) as -> by congruence.
  case_bool_decide as Heq; [left; by rewrite Heq|]. right; right. exists inner, part.
  split_and!; [done..|].
  assert (obj_sorted inner) as Hsi.
  { pose proof (value_wf_get (Object o) k (Object inner) Hwf Ev) as Hw. apply Hw. }
  assert (∀ ik, obj_get (match (if bool_decide (inner_remainder part inner = []) then None
      else Some (Object (inner_remainder part inner))) with Some (Object r) => r | _ => [] end) ik
    = obj_get (inner_remainder part inner) ik) as Hl
    by (intros; case_bool_decide as Hn; [by rewrite Hn|done]).
  intros ik. rewrite Hl, inner_remainder_get by done.
  destruct (obj_get part ik) as [y|] eqn:Ep.
  - left. exists y. rewrite (Hin _ _ Ep). by rewrite decide_True.
  - right. split; [done|]. by destruct (obj_get inner ik).
Qed.

Lemma split_redaction_recovers_witness :
  vget (fst (split_redaction_content (Sample.pl_content "50") M_ROOM_MEMBER "10")) "users" = None
  ∧ vget (snd (split_redaction_content (Sample.pl_content "50") M_ROOM_MEMBER "10")) "users"
    = vget (Sample.pl_content "50") "users".
Proof.
  pose proof (split_redaction_recovers
    [("users", Object [("@a:x", Number "100"); ("@b:x", Number "50")])] M_ROOM_MEMBER "10" "users") as Hs.
  destruct Hs as [[H1 _]|[H1|(? & ? & _ & H1 & _)]]; [wf_json|vm_compute in H1; done|exact H1|].
  vm_compute in H1; done.
Defined.
