(* ===== verification/AuthChain.v ===== *)
(** * Auth checks along an event chain ([src/src/auth/mod.rs], [check_auth_chain])

    Events are checked in topological order against the state built by the
    events accepted so far; an event that cites a rejected one, or one of
    another room, is rejected in turn. *)
From stdpp Require Import prelude gmap strings sorting.
From Stdlib Require String.
From Stdlib Require Import Ascii.
From S2P Require Import Prelude EventTypes Json Events JsonContent Auth Samples AuthProps.

Section chain.
Context {Id C : Type} `{EventId Id} `{EventContent C}.
Abbreviation event := (LeanEvent Id C).
Abbreviation res := (result () (AuthError Id)).
Implicit Types (ev : event) (state : gmap (string * string) event).

Definition check_create_room_id ev (is_v12_plus : bool) : res :=
  if negb (event_type ev ==s M_ROOM_CREATE) then Ok tt
  else if is_v12_plus then
    match room_id ev with
    | Some _ => Err (InvalidSyntax
        "m.room.create must not declare room_id -- the room's ID is derived from this event's own hash and isn't knowable until this event exists")
    | None => Ok tt
    end
  else
    match room_id ev with
    | Some declared =>
        if negb (domain_matches declared (sender ev)) then
          Err (InvalidSyntax ("m.room.create room_id " +:+ declared
                              +:+ " domain does not match sender " +:+ sender ev +:+ " domain"))
        else Ok tt
    | None => Ok tt
    end.

Definition check_room_id_matches_accepted_create ev (is_v12_plus : bool) state
    (rejected_ids : gset Id) : res :=
  if negb is_v12_plus || (event_type ev ==s M_ROOM_CREATE) then Ok tt
  else
    match room_id ev with
    | None => Ok tt
    | Some declared =>
        let matches_accepted_create :=
          match state !! (M_ROOM_CREATE, "") with
          | Some create_ev =>
              if bool_decide (event_id create_ev ∈ rejected_ids) then false
              else
                match str_strip_prefix "$"%char (id_display (event_id create_ev)) with
                | Some hash_part => declared ==s ("!" +:+ hash_part)
                | None => false
                end
          | None => false
          end in
        if matches_accepted_create then Ok tt
        else Err (InvalidSyntax ("room_id " +:+ declared
                                 +:+ " is not the event ID of an accepted m.room.create event"))
    end.

Definition check_not_citing_rejected_auth_event ev (rejected_ids : gset Id) : res :=
  match find (λ auth_id, bool_decide (auth_id ∈ rejected_ids)) (auth_events ev) with
  | Some auth_event_id => Err (RejectedAuthEvent (event_id ev) auth_event_id)
  | None => Ok tt
  end.

(** [auth_events.iter().find_map(..)] for the foreign citation. *)
Fixpoint find_foreign (expected : string) (event_map : gmap Id event) (ids : list Id)
    : option (Id * option string) :=
  match ids with
  | [] => None
  | auth_id :: ids' =>
      match event_map !! auth_id with
      | None => find_foreign expected event_map ids'
      | Some auth_event =>
          match room_id auth_event with
          | Some actual =>
              if actual ==s expected then find_foreign expected event_map ids'
              else Some (auth_id, Some actual)
          | None => Some (auth_id, None)
          end
      end
  end.

Definition check_foreign_room_citation ev (event_map : gmap Id event) : res :=
  match room_id ev with
  | None => Ok tt
  | Some expected =>
      match find_foreign expected event_map (auth_events ev) with
      | Some (auth_event_id, actual) =>
          Err (ForeignRoomEvent (event_id ev) auth_event_id expected actual)
      | None => Ok tt
      end
  end.

(** The lookup map: the batch (a later duplicate id wins), then the events of
    the initial state in key order under ids not present yet. *)
Definition chain_event_map (sorted_events : list event) (initial_state : gmap (string * string) event)
    : gmap Id event :=
  foldl (λ m kv, match m !! event_id kv.2 with
                 | Some _ => m
                 | None => <[event_id kv.2 := kv.2]> m
                 end)
    (foldl (λ m ev, <[event_id ev := ev]> m) ∅ sorted_events)
    (sort_by (cmp_on fst (cmp_pair String.compare String.compare)) (map_to_list initial_state)).

Record chain_state : Type := mkChain {
  ch_state : gmap (string * string) event;
  ch_accepted : list Id;
  ch_rejected : list (Id * AuthError Id);
  ch_rejected_ids : gset Id
}.

Definition chain_reject (s : chain_state) ev (err : AuthError Id) : chain_state :=
  mkChain (ch_state s) (ch_accepted s) (ch_rejected s ++ [(event_id ev, err)])
    ({[event_id ev]} ∪ ch_rejected_ids s).

(** The state update of an accepted event. *)
Definition chain_apply (st : gmap (string * string) event) ev : gmap (string * string) event :=
  match state_key ev with
  | Some sk => <[(event_type ev, sk) := ev]> st
  | None => if event_type ev ==s M_ROOM_CREATE then <[(event_type ev, "") := ev]> st else st
  end.

(** One iteration of the loop of [check_auth_chain]. *)
Definition chain_step (version : StateResVersion) (event_map : gmap Id event)
    (s : chain_state) ev : chain_state :=
  let is_v12_plus := is_v2_1_plus version in
  let pre_check :=
    check_create_room_id ev is_v12_plus ;?;
    check_room_id_matches_accepted_create ev is_v12_plus (ch_state s) (ch_rejected_ids s) ;?;
    check_not_citing_rejected_auth_event ev (ch_rejected_ids s) ;?;
    check_foreign_room_citation ev event_map in
  match pre_check with
  | Err err => chain_reject s ev err
  | Ok _ =>
      match check_auth_with_context ev (room_state (ch_state s)) version None
              (Some (λ id, event_map !! id)) with
      | Ok _ =>
          mkChain (chain_apply (ch_state s) ev) (ch_accepted s ++ [event_id ev])
            (ch_rejected s) (ch_rejected_ids s)
      | Err e => chain_reject s ev e
      end
  end.

Definition chain_run version event_map (s : chain_state) (evs : list event) : chain_state :=
  foldl (chain_step version event_map) s evs.

Definition check_auth_chain (sorted_events : list event)
    (initial_state : gmap (string * string) event) (version : StateResVersion)
    : list Id * list (Id * AuthError Id) :=
  let event_map := chain_event_map sorted_events initial_state in
  let s := chain_run version event_map (mkChain initial_state [] [] ∅) sorted_events in
  (ch_accepted s, ch_rejected s).
End chain.

Section chain_props.
Context {Id C : Type} `{EventId Id} `{EventContent C}.
Abbreviation event := (LeanEvent Id C).
Context (version : StateResVersion) (em : gmap Id event).
Implicit Types (ev : event) (s : chain_state (Id:=Id) (C:=C)).

Lemma not_citing_rejected_ok ev rej a :
  check_not_citing_rejected_auth_event ev rej = Ok tt → a ∈ auth_events ev → a ∉ rej.
Proof.
  unfold check_not_citing_rejected_auth_event. case_match eqn:E; [done|]. intros _ Ha Hin.
  eapply find_none in E; [|by apply list_elem_of_In]. simpl in E.
  by apply bool_decide_eq_false in E.
Qed.

Lemma foreign_citation_ok ev r a e :
  check_foreign_room_citation ev em = Ok tt → room_id ev = Some r → a ∈ auth_events ev →
  em !! a = Some e → room_id e = Some r.
Proof.
  unfold check_foreign_room_citation. intros Hc Hr Ha He. rewrite Hr in Hc.
  destruct (find_foreign r em (auth_events ev)) as [[]|] eqn:E; [done|]. clear Hc.
  induction (auth_events ev) as [|b ids IH]; [set_solver|]. simpl in E.
  apply elem_of_cons in Ha as [->|Ha].
  - rewrite He in E. destruct (room_id e); [|done].
    destruct (String.eqb_spec s r); congruence.
  - destruct (em !! b) as [x|]; [|by apply IH].
    destruct (room_id x) as [y|]; [|done]. destruct (y ==s r); [by apply IH|done].
Qed.

(** An event passes every check of the loop in the loop state [s]. *)
Record chain_admits s ev : Prop := {
  admits_auth : check_auth_with_context ev (room_state (ch_state s)) version None
                  (Some (λ id, em !! id)) = Ok tt;
  admits_cited a : a ∈ auth_events ev → a ∉ ch_rejected_ids s;
  admits_room r a e : room_id ev = Some r → a ∈ auth_events ev → em !! a = Some e →
    room_id e = Some r
}.

Lemma chain_step_cases s ev :
  (∃ err, chain_step version em s ev = chain_reject s ev err)
  ∨ (chain_step version em s ev
       = mkChain (chain_apply (ch_state s) ev) (ch_accepted s ++ [event_id ev])
           (ch_rejected s) (ch_rejected_ids s)
     ∧ chain_admits s ev).
Proof.
  unfold chain_step.
  destruct (result_bind (check_create_room_id ev _) _) as [[]|err] eqn:E; [|left; by eexists].
  destruct (check_auth_with_context _ _ _ _ _) as [[]|err] eqn:Ea; [|left; by eexists].
  right. split; [done|]. ok_steps E. repeat match goal with u : () |- _ => destruct u end.
  split; [done| |]; eauto using not_citing_rejected_ok, foreign_citation_ok.
Qed.

Lemma chain_run_snoc s evs ev :
  chain_run version em s (evs ++ [ev]) = chain_step version em (chain_run version em s evs) ev.
Proof. unfold chain_run. by rewrite foldl_app. Qed.

Lemma chain_run_later s evs id :
  id ∉ event_id <$> evs →
  (id ∈ ch_accepted (chain_run version em s evs) ↔ id ∈ ch_accepted s)
  ∧ (id ∈ ch_rejected_ids (chain_run version em s evs) ↔ id ∈ ch_rejected_ids s).
Proof.
  induction evs as [|ev evs IH] using rev_ind; [done|]. rewrite fmap_app, elem_of_app.
  intros Hid. specialize (IH ltac:(tauto)). rewrite chain_run_snoc.
  assert (id ≠ event_id ev) by (intros ->; apply Hid; set_solver).
  destruct (chain_step_cases (chain_run version em s evs) ev) as [[err ->]|[-> _]]; set_solver.
Qed.

Section run.
Context (init : gmap (string * string) event).
Let s0 : chain_state := mkChain init [] [] ∅.

Lemma chain_run_perm evs :
  let s := chain_run version em s0 evs in
  ch_accepted s ++ (ch_rejected s).*1 ≡ₚ event_id <$> evs
  ∧ ch_rejected_ids s = list_to_set ((ch_rejected s).*1).
Proof.
  induction evs as [|ev evs [IH1 IH2]] using rev_ind; [done|]. cbn zeta.
  rewrite chain_run_snoc, fmap_app.
  destruct (chain_step_cases (chain_run version em s0 evs) ev) as [[err ->]|[-> _]]; simpl.
  - rewrite fmap_app, app_assoc, IH1, IH2. simpl. split; [done|].
    rewrite list_to_set_app_L. set_solver.
  - split; [|done]. rewrite <-app_assoc, (Permutation_app_comm [_]), app_assoc. by rewrite IH1.
Qed.

(** Accepted ids, in order, and the state they built. *)
Lemma chain_run_state evs :
  NoDup (event_id <$> evs) →
  let s := chain_run version em s0 evs in
  ch_state s = foldl chain_apply init (filter (λ e, event_id e ∈ ch_accepted s) evs).
Proof.
  induction evs as [|ev evs IH] using rev_ind; [done|]. intros Hnd. cbn zeta.
  rewrite fmap_app in Hnd. apply NoDup_app in Hnd as (Hnd & Hdis & _).
  rewrite chain_run_snoc, filter_app. specialize (IH Hnd). cbn zeta in IH.
  set (s := chain_run version em s0 evs) in *.
  assert (event_id ev ∉ ch_accepted s) as Hnew.
  { intros Hin. pose proof (proj1 (chain_run_perm evs)) as Hp. fold s in Hp.
    apply (Hdis (event_id ev)); [rewrite <-Hp; set_solver|set_solver]. }
  destruct (chain_step_cases s ev) as [[err ->]|[-> _]]; simpl.
  - rewrite filter_cons_False, filter_nil, app_nil_r by done. done.
  - rewrite filter_cons_True, filter_nil by set_solver. rewrite foldl_app. simpl. f_equal.
    rewrite IH. f_equal. apply filter_ext_in. intros e He.
    split; [set_solver|]. intros [?|Heq%list_elem_of_singleton]%elem_of_app; [done|].
    exfalso. apply (Hdis (event_id ev)); [|set_solver].
    rewrite <-Heq. apply list_elem_of_fmap. by exists e.
Qed.

(** An accepted event was admitted in the state the accepted events before it built. *)
Lemma chain_accepted_admitted pre ev post :
  NoDup (event_id <$> pre ++ ev :: post) →
  let s := chain_run version em s0 (pre ++ ev :: post) in
  event_id ev ∈ ch_accepted s →
  let s1 := chain_run version em s0 pre in
  chain_admits s1 ev
  ∧ (∀ a, a ∈ event_id <$> pre → a ∈ ch_accepted s ↔ a ∉ ch_rejected_ids s1)
  ∧ ch_state s1 = foldl chain_apply init (filter (λ e, event_id e ∈ ch_accepted s) pre).
Proof.
  intros Hnd s Hacc s1. rewrite fmap_app, fmap_cons in Hnd.
  apply NoDup_app in Hnd as (Hnd1 & Hdis & [Hev Hnd2]%NoDup_cons).
  assert (s = chain_run version em (chain_step version em s1 ev) post) as Hs.
  { unfold s, chain_run. by rewrite foldl_app. }
  destruct (chain_run_perm pre) as [Hp1 Hr1]. fold s1 in Hp1, Hr1.
  assert (∀ a, a ∈ event_id <$> pre → a ∈ ch_accepted s ↔ a ∈ ch_accepted s1) as Hkeep.
  { intros a Ha. rewrite Hs. rewrite (proj1 (chain_run_later _ post a ltac:(set_solver))).
    destruct (chain_step_cases s1 ev) as [[err ->]|[-> _]]; simpl; [done|].
    specialize (Hdis a Ha). set_solver. }
  split_and!.
  - rewrite Hs, (proj1 (chain_run_later _ post _ Hev)) in Hacc.
    destruct (chain_step_cases s1 ev) as [[err E]|[_ Ha]]; [|done]. rewrite E in Hacc.
    simpl in Hacc. exfalso. apply (Hdis (event_id ev)); [|set_solver].
    rewrite <-Hp1. set_solver.
  - intros a Ha. rewrite Hkeep by done. rewrite Hr1, elem_of_list_to_set.
    assert (NoDup (ch_accepted s1 ++ (ch_rejected s1).*1)) as Hn by (by rewrite Hp1).
    apply NoDup_app in Hn as (_ & Hd & _). rewrite <-Hp1 in Ha. set_solver.
  - unfold s1 at 1. rewrite chain_run_state by done. f_equal. fold s1.
    apply filter_ext_in. intros e He. symmetry. apply Hkeep.
    apply list_elem_of_fmap. by exists e.
Qed.
End run.
End chain_props.

Section chain_claims.
Context {Id C : Type} `{EventId Id} `{EventContent C}.
Abbreviation event := (LeanEvent Id C).

(** [check_auth_chain] decides every event: the accepted and the rejected ids
    together are the ids of the batch, each as often as it occurs. *)
Theorem auth_chain_partition (sorted : list event) init version :
  let '(accepted, rejected) := check_auth_chain sorted init version in
  accepted ++ rejected.*1 ≡ₚ event_id <$> sorted.
Proof. unfold check_auth_chain. apply chain_run_perm. Qed.

(** C21: in a batch without duplicate ids, an accepted event passes the auth rules
    against the state obtained from the initial one by applying exactly the
    accepted events before it; the events of the batch it cites that come
    before it are accepted too, and, when it names a room, every known event
    it cites names the same room. *)
Theorem auth_chain_sound (pre post : list event) ev init version :
  let sorted := pre ++ ev :: post in
  let accepted := (check_auth_chain sorted init version).1 in
  let known := chain_event_map sorted init in
  NoDup (event_id <$> sorted) → event_id ev ∈ accepted →
  check_auth_with_context ev
    (room_state (foldl chain_apply init (filter (λ e, event_id e ∈ accepted) pre)))
    version None (Some (λ id, known !! id)) = Ok tt
  ∧ (∀ a, a ∈ auth_events ev → a ∈ event_id <$> pre → a ∈ accepted)
  ∧ (∀ r a e, room_id ev = Some r → a ∈ auth_events ev → known !! a = Some e →
       room_id e = Some r).
Proof.
  intros sorted accepted known Hnd Hacc.
  destruct (chain_accepted_admitted version known init pre ev post Hnd Hacc) as ([H1 H2 H3] & Hk & Hst).
  split_and!; [by rewrite Hst in H1| |done].
  intros a Ha Hpre. apply Hk; [done|]. by apply H2.
Qed.
End chain_claims.

Definition sample_chain : list (LeanEvent string value) :=
  [Sample.create; Sample.join_a; Sample.power; Sample.rules].

Lemma auth_chain_sound_witness :
  event_id Sample.rules ∈ (check_auth_chain sample_chain ∅ V2).1
  ∧ event_id Sample.power ∈ (check_auth_chain sample_chain ∅ V2).1.
Proof.
  split; [apply (bool_decide_eq_true_1 _); vm_compute; reflexivity|].
  apply (auth_chain_sound [Sample.create; Sample.join_a; Sample.power] [] Sample.rules ∅ V2);
    apply (bool_decide_eq_true_1 _); vm_compute; reflexivity.
Defined.
