(* ===== verification/Sorting.v ===== *)
(** * Topological and mainline sorting ([src/src/resolve/sorting.rs])

    Kahn's algorithm over the auth edges with a priority queue, the mainline of
    power-levels events, each event's closest mainline position and the
    mainline sort. *)
From stdpp Require Import prelude gmap strings sorting.
From Stdlib Require String.
From Stdlib Require Import Ascii.
From S2P Require Import Prelude EventTypes Json Events JsonContent Auth Samples.

(** ** [EventProvider]: event lookup by id *)

Class EventProvider (Id C P : Type) `{EventId Id} := {
  get_event : P → Id → option (LeanEvent Id C);
  provider_ids : P → gset Id;
  provider_ids_spec p id : is_Some (get_event p id) → id ∈ provider_ids p
}.
Arguments get_event {Id C P _ _}.
Arguments provider_ids {Id C P _ _}.
Arguments provider_ids_spec {Id C P _ _}.

Section providers.
Context {Id C : Type} `{EventId Id}.

(** [impl EventProvider for HashMap<Id, E>]. *)
Global Program Instance map_provider : EventProvider Id C (gmap Id (LeanEvent Id C)) :=
  {| get_event := λ m id, m !! id; provider_ids := λ m, dom m |}.
Next Obligation. intros m id Hs. by apply elem_of_dom. Qed.

Record SortContext : Type := mkSortContext {
  primary : gmap Id (LeanEvent Id C);
  secondary : gmap Id (LeanEvent Id C)
}.

(** [impl EventProvider for SortContext]: the primary map, then the secondary. *)
Global Program Instance context_provider : EventProvider Id C SortContext :=
  {| get_event := λ c id, match primary c !! id with Some e => Some e | None => secondary c !! id end;
     provider_ids := λ c, dom (primary c) ∪ dom (secondary c) |}.
Next Obligation.
  intros c id Hs. apply elem_of_union. rewrite !elem_of_dom.
  simpl in Hs. destruct (primary c !! id); [left; by eexists|by right].
Qed.
End providers.
Arguments SortContext Id C {_}.

Section sorting.
Context {Id C : Type} `{EventId Id} `{EventContent C}.
Abbreviation event := (LeanEvent Id C).
Implicit Types (ev : event) (version : StateResVersion).

(** ** The sender's power level for sorting *)

Section power.
Context {P : Type} `{!EventProvider Id C P}.

(** The first cited power-levels event at the empty state key. *)
Definition cited_power_levels (auth_context : P) (edges : list Id) : option event :=
  head (omap (λ aid,
    match get_event auth_context aid with
    | Some aev =>
        if (event_type aev ==s M_ROOM_POWER_LEVELS) && bool_decide (state_key aev = Some "")
        then Some aev else None
    | None => None
    end) edges).

Definition get_power_level_from_auth_chain ev (auth_context : P) (create_ev : option event)
    version : Z :=
  let pl_event := cited_power_levels auth_context (dag_edges version ev) in
  let is_creator :=
    is_v2_1_to_v2_2 version
    && match create_ev with
       | Some c => (sender c ==s sender ev) || has_additional_creator (content c) (sender ev)
       | None => false
       end in
  if is_creator then MAX_POWER_LEVEL_RUST
  else
    match pl_event with
    | Some pl_ev =>
        match get_user_power_level (content pl_ev) (sender ev) with
        | Some pl => pl
        | None =>
            match get_users_default (content pl_ev) with
            | Some default_pl => default_pl
            | None => 0%Z
            end
        end
    | None => power_level ev
    end.
End power.

(** ** Kahn's algorithm *)

Inductive KahnSortResult : Type :=
| KahnOk (sorted : list Id)
| CycleDetected (sorted stuck : list Id).

Section kahn.
Context `{Ho : HashOrder} {P : Type} `{!EventProvider Id C P}.
Context (events : gmap Id event) (sort_context : P) (create_ev : option event) (version : StateResVersion).

(** The in-degree map and the adjacency lists. *)
Definition kahn_edge (id : Id) (st : gmap Id N * gmap Id (list Id)) (auth : Id)
    : gmap Id N * gmap Id (list Id) :=
  match events !! auth with
  | Some _ =>
      (<[id := usize_saturating_add (default 0%N (st.1 !! id)) 1]> st.1,
       <[auth := default [] (st.2 !! auth) ++ [id]]> st.2)
  | None => st
  end.
Definition kahn_node (st : gmap Id N * gmap Id (list Id)) (kv : Id * event)
    : gmap Id N * gmap Id (list Id) :=
  foldl (kahn_edge kv.1)
    (match st.1 !! kv.1 with Some _ => st.1 | None => <[kv.1 := 0%N]> st.1 end, st.2)
    (dag_edges version kv.2).
Definition kahn_graph : gmap Id N * gmap Id (list Id) :=
  foldl kahn_node (∅, ∅) (hm_iter events).

(** The power-level cache: cleared, then filled once per event. *)
Definition pl_cache : gmap Id Z :=
  foldl (λ m kv, match m !! kv.1 with
                 | Some _ => m
                 | None => <[kv.1 := get_power_level_from_auth_chain kv.2 sort_context create_ev version]> m
                 end) ∅ (hm_iter events).

Definition priority (id : Id) ev : SortPriority Id C :=
  mkPriority ev (default 0%Z (pl_cache !! id)) version.

Definition kahn_init (in_degree : gmap Id N) : list (SortPriority Id C) :=
  omap (λ kv, if (kv.2 =? 0)%N then priority kv.1 <$> events !! kv.1 else None) (hm_iter in_degree).

(** The loop over the neighbours of a popped event; [None] is the panic of
    an [unwrap]. *)
Fixpoint kahn_relax (neighbors : list Id) (in_degree : gmap Id N) (queue : list (SortPriority Id C))
    : option (gmap Id N * list (SortPriority Id C)) :=
  match neighbors with
  | [] => Some (in_degree, queue)
  | next_id :: rest =>
      match in_degree !! next_id with
      | None => None
      | Some d =>
          let degree := usize_saturating_sub d 1 in
          let in_degree' := <[next_id := degree]> in_degree in
          if (degree =? 0)%N then
            match events !! next_id with
            | None => None
            | Some next_ev => kahn_relax rest in_degree' (priority next_id next_ev :: queue)
            end
          else kahn_relax rest in_degree' queue
      end
  end.

(** [while let Some(priority) = queue.pop()]. *)
Fixpoint kahn_loop (fuel : nat) (adjacency : gmap Id (list Id)) (queue : list (SortPriority Id C))
    (in_degree : gmap Id N) (acc : list Id) : option (list Id) :=
  match heap_pop SortPriority_cmp queue with
  | None => Some acc
  | Some (p, queue') =>
      match fuel with
      | O => None
      | S n =>
          let id := event_id (sp_event p) in
          match kahn_relax (default [] (adjacency !! id)) in_degree queue' with
          | None => None
          | Some (in_degree', queue'') => kahn_loop n adjacency queue'' in_degree' (acc ++ [id])
          end
      end
  end.

Definition with_cycle_diagnostics : option KahnSortResult :=
  let '(in_degree, adjacency) := kahn_graph in
  match kahn_loop (size events) adjacency (kahn_init in_degree) in_degree [] with
  | None => None
  | Some result =>
      if bool_decide (length result = size events) then Some (KahnOk result)
      else Some (CycleDetected result (filter (λ id, id ∉ result) (hm_keys events)))
  end.

(** The tie-break of stuck events; an absent event is the code's panic,
    which the ids of [stuck] rule out. *)
Definition stuck_cmp (a b : Id) : comparison :=
  match events !! a, events !! b with
  | Some ev_a, Some ev_b => Z.compare (origin_server_ts ev_a) (origin_server_ts ev_b) ⊳ id_cmp a b
  | _, _ => Eq
  end.

Definition kahn_sort : option (list Id) :=
  match with_cycle_diagnostics with
  | Some (KahnOk sorted) => Some sorted
  | Some (CycleDetected sorted stuck) => Some (sorted ++ sort_by stuck_cmp stuck)
  | None => None
  end.
End kahn.
End sorting.

(** The sample room's events as a sort context. *)
Definition sample_ctx : SortContext string value := mkSortContext Sample.dag ∅.
