(* ===== verification/Kahn.v ===== *)
(** * Correctness of Kahn's algorithm

    [with_cycle_diagnostics] implements the greedy topological sort: emit, over
    and over, the greatest event all of whose cited events in the map are
    emitted already. *)
From stdpp Require Import prelude gmap strings sorting.
From Stdlib Require String.
From S2P Require Import Prelude EventTypes Json Events JsonContent Auth Samples Sorting.

(** ** Counting occurrences *)

Definition occ `{EqDecision A} (x : A) (l : list A) : nat := length (filter (x =.) l).

Section occ.
Context `{EqDecision A}.
Implicit Types (x y : A) (l : list A).

Lemma occ_nil x : occ x [] = 0.
Proof. done. Qed.

Lemma occ_cons x y l : occ x (y :: l) = (if decide (x = y) then 1 else 0) + occ x l.
Proof. unfold occ. rewrite filter_cons. by case_decide. Qed.

Lemma occ_app x l1 l2 : occ x (l1 ++ l2) = occ x l1 + occ x l2.
Proof. unfold occ. by rewrite filter_app, length_app. Qed.

Lemma occ_elem x l : x ∈ l ↔ 0 < occ x l.
Proof.
  induction l as [|y l IH]; [unfold occ; simpl; split; [set_solver|lia]|].
  rewrite occ_cons, elem_of_cons, IH. case_decide; naive_solver lia.
Qed.

Lemma occ_filter x (P : A → Prop) `{∀ x, Decision (P x)} l :
  P x → occ x (filter P l) = occ x l.
Proof.
  intros Hx. induction l as [|y l IH]; [done|]. rewrite filter_cons, occ_cons.
  case_decide; rewrite ?occ_cons, IH; [done|]. rewrite decide_False by congruence. done.
Qed.

Lemma filter_not_in_nil l : filter (.∉ []) l = l.
Proof.
  induction l as [|y l IH]; [done|]. rewrite filter_cons, IH, decide_True; [done|].
  apply not_elem_of_nil.
Qed.

(** Removing one more value from a filtered list removes its occurrences. *)
Lemma length_filter_snoc (acc : list A) x l :
  x ∉ acc →
  length (filter (.∉ acc) l) = length (filter (.∉ acc ++ [x]) l) + occ x l.
Proof.
  intros Hx. induction l as [|y l IH]; [done|]. rewrite !filter_cons, occ_cons.
  repeat case_decide; simpl; set_solver by lia.
Qed.
End occ.

(** [heap_pop] looks at the comparison on the queue's elements only. *)
Lemma heap_pop_ext {A} (c c' : A → A → comparison) q :
  (∀ x y, x ∈ q → y ∈ q → c x y = c' x y) → heap_pop c q = heap_pop c' q.
Proof.
  induction q as [|x q IH]; intros Hc; [done|]. simpl. rewrite IH by set_solver.
  destruct (heap_pop c' q) as [[m r]|] eqn:E; [|done].
  apply heap_pop_perm in E. rewrite Hc; [done|set_solver|rewrite E; set_solver].
Qed.

Section greedy.
Context {Id C : Type} `{EventId Id} `{EventContent C}.
Context {P : Type} `{!EventProvider Id C P}.
Abbreviation event := (LeanEvent Id C).
Context (events : gmap Id event) (sort_context : P) (create_ev : option event) (version : StateResVersion).

(** The cited events that are in the map. *)
Definition edges_in (id : Id) : list Id :=
  match events !! id with
  | Some ev => filter (λ a, is_Some (events !! a)) (dag_edges version ev)
  | None => []
  end.

Definition ready (acc : list Id) (id : Id) : Prop :=
  id ∉ acc ∧ Forall (λ a, a ∈ acc) (edges_in id).
Global Instance ready_dec acc id : Decision (ready acc id).
Proof. unfold ready. apply _. Defined.

Definition spec_priority (id : Id) : option (SortPriority Id C) :=
  match events !! id with
  | Some ev => Some (mkPriority ev
      (get_power_level_from_auth_chain ev sort_context create_ev version) version)
  | None => None
  end.

Definition ready_list (acc : list Id) : list (SortPriority Id C) :=
  omap spec_priority (filter (ready acc) (elements (dom events))).

(** The reference: emit the greatest ready event until none is left. *)
Fixpoint greedy (fuel : nat) (acc : list Id) : list Id :=
  match fuel with
  | O => acc
  | S n =>
      match heap_pop SortPriority_cmp (ready_list acc) with
      | Some (p, _) => greedy n (acc ++ [event_id (sp_event p)])
      | None => acc
      end
  end.
Definition greedy_order : list Id := greedy (size events) [].

(** Every cited event of the map comes before the event citing it. *)
Definition topological (l : list Id) : Prop :=
  ∀ l1 id l2, l = l1 ++ id :: l2 → ∀ a, a ∈ edges_in id → a ∈ l1.

Lemma topological_nil : topological [].
Proof. intros [|??] ? ? ?; done. Qed.

Lemma topological_snoc l id :
  topological l → (∀ a, a ∈ edges_in id → a ∈ l) → topological (l ++ [id]).
Proof.
  intros Ht Hid l1 x l2 Heq a Ha.
  destruct l2 as [|y l2] using rev_ind.
  - apply app_inj_tail in Heq as [<- <-]. by apply Hid.
  - rewrite app_comm_cons, app_assoc in Heq. apply app_inj_tail in Heq as [-> _].
    by eapply Ht.
Qed.

Lemma topological_closed l id a : topological l → id ∈ l → a ∈ edges_in id → a ∈ l.
Proof.
  intros Ht [l1 [l2 ->]]%list_elem_of_split Ha. apply elem_of_app. left. by eapply Ht.
Qed.

Hypothesis Hkey : ∀ id ev, events !! id = Some ev → event_id ev = id.

Lemma spec_priority_id id p : spec_priority id = Some p → event_id (sp_event p) = id.
Proof. unfold spec_priority. case_match; intros [= <-]. by apply Hkey. Qed.

Lemma spec_priority_inj id id' p : spec_priority id = Some p → spec_priority id' = Some p → id = id'.
Proof. intros H1%spec_priority_id H2%spec_priority_id. congruence. Qed.

Lemma elem_of_ready_list acc p :
  p ∈ ready_list acc ↔ ∃ id, id ∈ dom events ∧ ready acc id ∧ spec_priority id = Some p.
Proof.
  unfold ready_list. rewrite list_elem_of_omap. apply exist_proper. intros id.
  rewrite list_elem_of_filter, elem_of_elements. naive_solver.
Qed.

Lemma ready_list_version acc p : p ∈ ready_list acc → sp_version p = version.
Proof.
  intros (id & _ & _ & Hp)%elem_of_ready_list. unfold spec_priority in Hp. by case_match; simplify_eq.
Qed.

Lemma ready_list_nil acc : ready_list acc = [] ↔ ∀ id, id ∈ dom events → ¬ ready acc id.
Proof.
  split.
  - intros Hnil id Hid Hr. apply elem_of_dom in Hid as Hev. destruct Hev as [ev Hev].
    assert (is_Some (spec_priority id)) as [p Hp] by (unfold spec_priority; rewrite Hev; by eexists).
    apply (not_elem_of_nil p). rewrite <-Hnil. apply elem_of_ready_list. eauto.
  - intros Hn. apply elem_of_nil_inv. intros p (id & Hd & Hr & _)%elem_of_ready_list. by eapply Hn.
Qed.

(** The events emitted so far. *)
Record emitted (acc : list Id) : Prop := {
  emitted_nodup : NoDup acc;
  emitted_dom id : id ∈ acc → id ∈ dom events;
  emitted_topo : topological acc
}.

Lemma emitted_nil : emitted [].
Proof. split; [apply NoDup_nil_2|set_solver|apply topological_nil]. Qed.

Lemma emitted_snoc acc id : emitted acc → id ∈ dom events → ready acc id → emitted (acc ++ [id]).
Proof.
  intros [Hn Hd Ht] Hid [Hni Hr]. split.
  - apply NoDup_app. split_and!; [done|set_solver|apply NoDup_singleton].
  - set_solver.
  - apply topological_snoc; [done|]. by apply Forall_forall.
Qed.

Lemma emitted_length acc : emitted acc → length acc ≤ size events.
Proof.
  intros [Hn Hd _]. rewrite <-size_dom.
  rewrite <-(size_list_to_set (C:=gset Id) acc) by done. apply subseteq_size. set_solver.
Qed.

Lemma emitted_full acc id :
  emitted acc → size events ≤ length acc → id ∈ dom events → id ∈ acc.
Proof.
  intros [Hn Hd _] Hlen Hid.
  assert ((list_to_set acc : gset Id) ≡ dom events) as Heq; [|set_solver].
  apply set_subseteq_size_equiv; [set_solver|].
  by rewrite size_list_to_set, size_dom.
Qed.

(** A popped priority is a ready event's. *)
Lemma pop_ready acc p q' :
  heap_pop SortPriority_cmp (ready_list acc) = Some (p, q') →
  ready acc (event_id (sp_event p)) ∧ event_id (sp_event p) ∈ dom events.
Proof.
  intros Hp%heap_pop_perm. assert (p ∈ ready_list acc) as Hin by (rewrite Hp; set_solver).
  apply elem_of_ready_list in Hin as (id & Hd & Hr & Hs). by rewrite (spec_priority_id _ _ Hs).
Qed.

Lemma greedy_emitted n acc : emitted acc → emitted (greedy n acc).
Proof.
  revert acc. induction n as [|n IH]; intros acc He; simpl; [done|].
  destruct (heap_pop _ _) as [[p q']|] eqn:E; [|done].
  apply pop_ready in E as [Hr Hd]. by apply IH, emitted_snoc.
Qed.

(** The greedy sort stops only when nothing is ready. *)
Lemma greedy_done n acc :
  emitted acc → size events ≤ n + length acc → ready_list (greedy n acc) = [].
Proof.
  revert acc. induction n as [|n IH]; intros acc He Hn; simpl.
  - apply ready_list_nil. intros id Hid [Hni _]. by apply Hni, emitted_full.
  - destruct (heap_pop _ _) as [[p q']|] eqn:E; [|by apply heap_pop_None in E].
    apply pop_ready in E as [Hr Hd]. apply IH; [by apply emitted_snoc|]. rewrite length_app. simpl. lia.
Qed.

(** With a rank that every edge decreases, every event is emitted. *)
Lemma greedy_complete (rank : Id → nat) id :
  (∀ id a, a ∈ edges_in id → rank a < rank id) → id ∈ dom events → id ∈ greedy_order.
Proof.
  intros Hrank. pose proof (greedy_done (size events) [] emitted_nil ltac:(simpl; lia)) as Hd.
  rewrite ready_list_nil in Hd. fold greedy_order in Hd.
  revert id. assert (∀ n id, rank id < n → id ∈ dom events → id ∈ greedy_order) as Hall; [|eauto].
  induction n as [|n IH]; intros id Hlt Hid; [lia|].
  destruct (decide (id ∈ greedy_order)) as [|Hni]; [done|]. exfalso.
  apply (Hd id Hid). split; [done|]. apply Forall_forall. intros a Ha.
  apply IH; [specialize (Hrank _ _ Ha); lia|]. apply elem_of_dom.
  unfold edges_in in Ha. case_match; [|set_solver]. by apply list_elem_of_filter in Ha as [? _].
Qed.
End greedy.

Section kahn_props.
Context {Id C : Type} `{EventId Id} `{EventContent C}.
Context `{Ho : HashOrder} {P : Type} `{!EventProvider Id C P}.
Abbreviation event := (LeanEvent Id C).
Context (events : gmap Id event) (sort_context : P) (create_ev : option event) (version : StateResVersion).
Hypothesis Hkey : ∀ id ev, events !! id = Some ev → event_id ev = id.
Hypothesis Hlen : ∀ id ev, events !! id = Some ev →
  (N.of_nat (length (dag_edges version ev)) ≤ USIZE_MAX)%N.

Abbreviation edges := (edges_in events version).
Abbreviation prio := (spec_priority events sort_context create_ev version).

(** ** The power-level cache and the graph *)

Lemma pl_cache_lookup id :
  pl_cache events sort_context create_ev version !! id =
    (λ ev, get_power_level_from_auth_chain ev sort_context create_ev version) <$> events !! id.
Proof.
  unfold pl_cache.
  assert (∀ l (m : gmap Id Z), NoDup l.*1 → (∀ k, k ∈ l.*1 → m !! k = None) →
    foldl (λ m kv, match m !! kv.1 with Some _ => m | None =>
      <[kv.1 := get_power_level_from_auth_chain kv.2 sort_context create_ev version]> m end) m l
    = foldl (λ m kv, <[kv.1 := get_power_level_from_auth_chain kv.2 sort_context create_ev version]> m)
        m l) as ->.
  { intros l. induction l as [|[k v] l IH]; intros m Hnd Hm; simpl; [done|].
    apply NoDup_cons in Hnd as [Hni Hnd]. rewrite Hm by set_solver. apply IH; [done|].
    intros k' Hk'. rewrite lookup_insert_ne by set_solver. apply Hm. set_solver. }
  - pose proof (foldl_insert_lookup (λ kv : Id * event,
      get_power_level_from_auth_chain kv.2 sort_context create_ev version)
      (hm_iter events) ∅ id) as Hf. simpl in Hf. rewrite Hf by apply NoDup_hm_keys.
    rewrite (list_to_map_proper (M:=gmap Id) _ (map_to_list events)).
    + rewrite list_to_map_to_list. destruct (events !! id); [done|]. by rewrite lookup_empty.
    + apply NoDup_hm_keys.
    + apply hm_iter_perm.
  - apply NoDup_hm_keys.
  - intros. apply lookup_empty.
Qed.

Lemma priority_spec id ev :
  events !! id = Some ev →
  prio id = Some (priority events sort_context create_ev version id ev).
Proof.
  intros Hev. unfold spec_priority, priority. rewrite Hev, pl_cache_lookup, Hev. done.
Qed.

Lemma kahn_edges_fold id es d a n :
  d !! id = Some n →
  (n + N.of_nat (length es) ≤ USIZE_MAX)%N →
  let es' := filter (λ x, is_Some (events !! x)) es in
  let st := foldl (kahn_edge events id) (d, a) es in
  (∀ x, st.1 !! x = if decide (x = id) then Some (n + N.of_nat (length es'))%N else d !! x)
  ∧ (∀ x y, occ y (default [] (st.2 !! x))
       = occ y (default [] (a !! x)) + (if decide (y = id) then occ x es' else 0)).
Proof.
  revert d a n. induction es as [|e es IH]; intros d a n Hd Hn; simpl.
  { split; [|intros; case_decide; unfold occ; simpl; lia]. intros x. case_decide; [|done].
    subst. rewrite Hd. f_equal. lia. }
  simpl in Hn. unfold kahn_edge at 2 4. rewrite filter_cons.
  destruct (events !! e) as [ev|] eqn:Ee.
  - rewrite decide_True by done. cbn [fst snd]. rewrite Hd. cbn [default].
    destruct (IH (<[id:=usize_saturating_add n 1]> d) (<[e:=default [] (a !! e) ++ [id]]> a)
                (n + 1)%N) as [H1 H2].
    { rewrite lookup_insert_eq. f_equal. unfold usize_saturating_add. lia. }
    { lia. }
    split.
    + intros x. rewrite H1. cbn [length]. case_decide; [f_equal; lia|]. by rewrite lookup_insert_ne.
    + intros x y. rewrite H2, occ_cons. destruct (decide (x = e)) as [->|Hne].
      * rewrite lookup_insert_eq. simpl. rewrite occ_app, occ_cons, occ_nil.
        repeat case_decide; subst; lia.
      * rewrite lookup_insert_ne by done. case_decide; lia.
  - rewrite decide_False by (intros [??]; congruence). apply IH; [done|lia].
Qed.

Lemma kahn_graph_spec :
  (∀ id, (kahn_graph events version).1 !! id =
     (λ _, N.of_nat (length (edges id))) <$> events !! id)
  ∧ (∀ x id, occ id (default [] ((kahn_graph events version).2 !! x)) = occ x (edges id)).
Proof.
  unfold kahn_graph.
  assert (∀ l d a, NoDup l.*1 → (∀ k v, (k, v) ∈ l → events !! k = Some v ∧ d !! k = None) →
    let st := foldl (kahn_node events version) (d, a) l in
    (∀ id, st.1 !! id = if decide (id ∈ l.*1) then Some (N.of_nat (length (edges id))) else d !! id)
    ∧ (∀ x id, occ id (default [] (st.2 !! x))
         = occ id (default [] (a !! x)) + (if decide (id ∈ l.*1) then occ x (edges id) else 0)))
    as Hgen.
  { intros l. induction l as [|[k v] l IH]; intros d a Hnd Hl; cbn zeta; simpl.
    { split; intros; [done|lia]. }
    simpl in Hnd. apply NoDup_cons in Hnd as [Hni Hnd].
    destruct (Hl k v) as [Hkv Hdk]; [set_solver|]. unfold kahn_node at 2 4. simpl. rewrite Hdk.
    destruct (kahn_edges_fold k (dag_edges version v) (<[k:=0%N]> d) a 0) as [H1 H2].
    { by rewrite lookup_insert_eq. } { specialize (Hlen _ _ Hkv). lia. }
    destruct (foldl (kahn_edge events k) _ _) as [d' a'] eqn:Est. simpl in H1, H2.
    assert (edges k = filter (λ x, is_Some (events !! x)) (dag_edges version v)) as Hek
      by (unfold edges_in; by rewrite Hkv).
    rewrite <-Hek in *.
    destruct (IH d' a') as [I1 I2]; [done| |].
    { intros k' v' Hin. destruct (Hl k' v') as [? Hd']; [set_solver|]. split; [done|].
      assert (k' ≠ k) by (intros ->; apply Hni, list_elem_of_fmap; by exists (k, v')).
      rewrite H1, decide_False, lookup_insert_ne by done. done. }
    split.
    - intros id. rewrite I1, H1. destruct (decide (id = k)) as [->|Hne].
      + rewrite decide_False by done. by rewrite decide_True by set_solver.
      + rewrite lookup_insert_ne by done. repeat case_decide; set_solver.
    - intros x id. rewrite I2, H2. destruct (decide (id = k)) as [->|Hne].
      + rewrite decide_False by done. rewrite decide_True by set_solver. simpl; lia.
      + repeat case_decide; set_solver by lia. }
  destruct (Hgen (hm_iter events) ∅ ∅) as [H1 H2].
  { apply NoDup_hm_keys. } { intros k v Hin%elem_of_hm_iter. by rewrite lookup_empty. }
  assert (∀ id, id ∈ (hm_iter events).*1 ↔ is_Some (events !! id)) as Hin
    by (intros; rewrite <-elem_of_dom; apply elem_of_hm_keys).
  split.
  - intros id. rewrite H1. destruct (events !! id) eqn:Ee; simpl.
    + rewrite decide_True; [done|]. apply Hin. by rewrite Ee.
    + rewrite decide_False, lookup_empty; [done|]. rewrite Hin, Ee. by intros [??].
  - intros x id. rewrite H2, lookup_empty. simpl. case_decide as Hd; [done|].
    unfold edges_in. destruct (events !! id) eqn:Ee; [|done].
    exfalso. apply Hd, Hin. by rewrite Ee.
Qed.

(** ** The loop *)

Lemma kahn_relax_spec ns d q :
  (∀ id, id ∈ ns → is_Some (events !! id) ∧ ∃ n, d !! id = Some n ∧ (N.of_nat (occ id ns) ≤ n)%N) →
  ∃ d' ids q', kahn_relax events sort_context create_ev version ns d q = Some (d', q')
    ∧ q' ≡ₚ omap prio ids ++ q ∧ NoDup ids
    ∧ (∀ id, d' !! id = (λ n, n - N.of_nat (occ id ns))%N <$> d !! id)
    ∧ (∀ id, id ∈ ids ↔ id ∈ ns ∧ d !! id = Some (N.of_nat (occ id ns))).
Proof.
  revert d q. induction ns as [|x ns IH]; intros d q Hns; simpl.
  { exists d, [], q. split_and!; [done..|apply NoDup_nil_2| |set_solver].
    intros id. destruct (d !! id); simpl; [|done]. f_equal. rewrite occ_nil. lia. }
  destruct (Hns x) as [[ev Hev] (n & Hn & Hle)]; [set_solver|].
  rewrite Hn. rewrite occ_cons, decide_True in Hle by done.
  set (dg := usize_saturating_sub n 1). assert (dg = (n - 1)%N) as Hdg by done. clearbody dg.
  assert (∀ id, id ∈ ns → is_Some (events !! id)
    ∧ ∃ m, <[x:=dg]> d !! id = Some m ∧ (N.of_nat (occ id ns) ≤ m)%N) as Hns'.
  { intros id Hid. destruct (Hns id) as [He (m & Hm & Hlm)]; [set_solver|]. split; [done|].
    rewrite occ_cons in Hlm. destruct (decide (id = x)) as [->|].
    - exists dg. rewrite lookup_insert_eq. split; [done|lia].
    - exists m. rewrite lookup_insert_ne by done. split; [done|lia]. }
  assert (∀ id, (λ n, n - N.of_nat (occ id ns))%N <$> <[x:=dg]> d !! id
    = (λ n, n - N.of_nat (occ id (x :: ns)))%N <$> d !! id) as Hd'.
  { intros id. rewrite occ_cons. destruct (decide (id = x)) as [->|].
    - rewrite lookup_insert_eq, Hn. simpl. f_equal. lia.
    - by rewrite lookup_insert_ne. }
  destruct (N.eqb_spec dg 0) as [Hz|Hz].
  - rewrite Hev. assert (x ∉ ns) as Hx.
    { intros Hx%occ_elem. lia. }
    destruct (IH (<[x:=dg]> d) (priority events sort_context create_ev version x ev :: q) Hns')
      as (d' & ids & q' & Hr & Hq & Hnd & Hd & Hids).
    exists d', (x :: ids), q'. split_and!; [done| | | |].
    + rewrite Hq. simpl. rewrite (priority_spec x ev Hev). simpl. symmetry. apply Permutation_middle.
    + apply NoDup_cons. split; [|done]. rewrite Hids. set_solver.
    + intros id. by rewrite Hd, Hd'.
    + intros id. rewrite elem_of_cons, Hids, occ_cons. destruct (decide (id = x)) as [->|].
      * rewrite Hn. split; [|by left]. intros _. split; [set_solver|].
        assert (occ x ns = 0) as Hocc by (destruct (occ x ns) eqn:E; [done|];
          exfalso; apply Hx, occ_elem; lia). f_equal. lia.
      * rewrite lookup_insert_ne by done. set_solver.
  - destruct (IH (<[x:=dg]> d) q Hns') as (d' & ids & q' & Hr & Hq & Hnd & Hd & Hids).
    exists d', ids, q'. split_and!; [done..| |].
    + intros id. by rewrite Hd, Hd'.
    + intros id. rewrite Hids, occ_cons, elem_of_cons. destruct (decide (id = x)) as [->|].
      * rewrite lookup_insert_eq, Hn. rewrite occ_elem. split.
        { intros [? [= ?]]. split; [by left|]. f_equal. lia. }
        { intros [_ [= ?]]. split; [lia|]. f_equal. lia. }
      * rewrite lookup_insert_ne by done. naive_solver.
Qed.

(** The loop state after the events [acc] were emitted. *)
Record kahn_inv (d : gmap Id N) (q : list (SortPriority Id C)) (acc : list Id) : Prop := {
  inv_emitted : emitted events version acc;
  inv_degree id : d !! id =
    (λ _, N.of_nat (length (filter (λ a, a ∉ acc) (edges id)))) <$> events !! id;
  inv_queue : q ≡ₚ ready_list events sort_context create_ev version acc
}.

Lemma ready_list_ids acc ids :
  NoDup ids → (∀ id, id ∈ ids ↔ id ∈ dom events ∧ ready events version acc id) →
  ready_list events sort_context create_ev version acc ≡ₚ omap prio ids.
Proof.
  intros Hnd Hids. unfold ready_list. f_equiv. apply NoDup_Permutation; [|done|].
  - apply NoDup_filter, NoDup_elements.
  - intros id. rewrite list_elem_of_filter, elem_of_elements, Hids. tauto.
Qed.

Lemma edges_in_dom id a : a ∈ edges id → a ∈ dom events.
Proof.
  unfold edges_in. case_match; [|set_solver]. rewrite list_elem_of_filter, elem_of_dom. tauto.
Qed.

Lemma edges_dom id a : a ∈ edges id → is_Some (events !! id).
Proof. unfold edges_in. case_match; [by eexists|set_solver]. Qed.

Lemma ready_degree (acc : list Id) id :
  Forall (λ a, a ∈ acc) (edges id) ↔ length (filter (λ a, a ∉ acc) (edges id)) = 0.
Proof.
  rewrite Forall_forall. split.
  - intros Hall. destruct (filter _ _) as [|a l] eqn:E; [done|].
    assert (a ∈ filter (λ a, a ∉ acc) (edges id)) as Hin by (rewrite E; set_solver).
    apply list_elem_of_filter in Hin as [Hn Hin]. by destruct Hn; apply Hall.
  - intros Hnil%length_zero_iff_nil a Ha. destruct (decide (a ∈ acc)) as [|Hn]; [done|].
    exfalso. apply (not_elem_of_nil a). rewrite <-Hnil. by apply list_elem_of_filter.
Qed.

Lemma kahn_init_inv : kahn_inv (kahn_graph events version).1
  (kahn_init events sort_context create_ev version (kahn_graph events version).1) [].
Proof.
  destruct kahn_graph_spec as [Hd _]. split; [by apply emitted_nil| |].
  - intros id. rewrite Hd. destruct (events !! id); [|done]. simpl. repeat f_equal.
    symmetry. apply filter_not_in_nil.
  - set (ids := filter (λ id, (kahn_graph events version).1 !! id = Some 0%N)
                  (hm_keys (kahn_graph events version).1)).
    rewrite (ready_list_ids [] ids).
    + unfold kahn_init, ids, hm_keys.
      assert (∀ l : list (Id * N),
        (∀ k n, (k, n) ∈ l → (kahn_graph events version).1 !! k = Some n) →
        omap (λ kv, if (kv.2 =? 0)%N
              then priority events sort_context create_ev version kv.1 <$> events !! kv.1 else None) l
        = omap prio (filter (λ id, (kahn_graph events version).1 !! id = Some 0%N) l.*1)) as ->; [|done|].
      { intros l. induction l as [|[k n] l IH]; intros Hl; [done|].
        rewrite fmap_cons, filter_cons. specialize (IH ltac:(set_solver)).
        assert ((kahn_graph events version).1 !! k = Some n) as Hk by (apply Hl; set_solver).
        csimpl. rewrite IH, Hk. destruct (N.eqb_spec n 0) as [->|Hne].
        - rewrite decide_True by done. csimpl.
          destruct (events !! k) as [ev|] eqn:Ee; csimpl.
          + by rewrite (priority_spec k ev Ee).
          + unfold spec_priority at 2. by rewrite Ee.
        - rewrite decide_False by congruence. done. }
      intros k n. apply elem_of_hm_iter.
    + apply NoDup_filter, NoDup_hm_keys.
    + intros id. unfold ids. rewrite list_elem_of_filter, elem_of_hm_keys, !elem_of_dom, Hd.
      unfold ready. rewrite ready_degree.
      rewrite filter_not_in_nil.
      destruct (events !! id) as [ev|]; simpl.
      * split; [intros [[= Hz] _]|intros [_ [_ Hz]]]; split_and!; try by eexists.
        { apply not_elem_of_nil. } { lia. } { by rewrite Hz. }
      * split; [by intros [? _]|by intros [[??] _]].
Qed.

Lemma kahn_step_inv d q acc p q' :
  kahn_inv d q acc → heap_pop SortPriority_cmp q = Some (p, q') →
  let id := event_id (sp_event p) in
  ready events version acc id ∧ id ∈ dom events
  ∧ ∃ d' q'', kahn_relax events sort_context create_ev version
        (default [] ((kahn_graph events version).2 !! id)) d q' = Some (d', q'')
    ∧ kahn_inv d' q'' (acc ++ [id]).
Proof.
  intros [He Hd Hq] Hpop id. destruct kahn_graph_spec as [_ Hadj].
  set (rids := filter (ready events version acc) (elements (dom events))).
  assert (∃ rest, rids ≡ₚ id :: rest ∧ q' ≡ₚ omap prio rest ∧ ready events version acc id
    ∧ id ∈ dom events) as (rest & Hrest & Hq' & Hready & Hid).
  { apply heap_pop_perm in Hpop. rewrite Hq in Hpop.
    assert (p ∈ ready_list events sort_context create_ev version acc) as Hin
      by (rewrite Hpop; set_solver).
    apply elem_of_ready_list in Hin as (x & Hx & Hr & Hpx).
    pose proof (spec_priority_id _ _ _ _ Hkey _ _ Hpx) as Hxid. fold id in Hxid. subst x.
    assert (id ∈ rids) as Hin by (apply list_elem_of_filter; rewrite elem_of_elements; done).
    apply elem_of_Permutation in Hin as [rest Hrest]. exists rest. split_and!; try done.
    unfold ready_list in Hpop. fold rids in Hpop. rewrite Hrest in Hpop. simpl in Hpop.
    rewrite Hpx in Hpop. simpl in Hpop. symmetry. by apply Permutation_cons_inv in Hpop. }
  split_and!; [done..|].
  destruct Hready as [Hni Hall]. rewrite Forall_forall in Hall.
  assert (id ∉ edges id) as Hself by (intros Hs; by apply Hni, Hall).
  set (ns := default [] ((kahn_graph events version).2 !! id)).
  assert (∀ x, occ x ns = occ id (edges x)) as Hocc by (intros; apply Hadj).
  destruct (kahn_relax_spec ns d q') as (d' & ids & q'' & Hrel & Hq'' & Hnd & Hd' & Hids).
  { intros x Hx. apply occ_elem in Hx. rewrite Hocc in *.
    assert (is_Some (events !! x)) as [ev Hev] by (eapply (edges_dom x id), occ_elem, Hx).
    split; [by eexists|]. eexists. rewrite Hd, Hev. split; [done|].
    rewrite (length_filter_snoc acc id) by done. lia. }
  assert (NoDup (id :: rest)) as Hnr
    by (rewrite <-Hrest; apply NoDup_filter, NoDup_elements).
  assert (∀ x, x ∈ rest ↔ ready events version acc x ∧ x ∈ dom events ∧ x ≠ id) as Hrids.
  { intros x. apply NoDup_cons in Hnr as [Hnr _].
    assert (x ∈ rids ↔ x ∈ id :: rest) as Hx by (by rewrite Hrest).
    unfold rids in Hx. rewrite list_elem_of_filter, elem_of_elements, elem_of_cons in Hx.
    split; [|naive_solver]. intros Hxr. destruct Hx as [_ Hx]. destruct Hx; [by right|].
    split_and!; [done..|]. by intros ->. }
  assert (∀ x, x ∈ ids ↔ id ∈ edges x ∧ length (filter (λ a, a ∉ acc ++ [id]) (edges x)) = 0) as Hedge.
  { intros x. rewrite Hids, occ_elem, Hocc, <-occ_elem, Hd.
    pose proof (length_filter_snoc acc id (edges x) Hni) as Hl. split.
    - intros [Hx Hdx]. split; [done|]. destruct (events !! x); simplify_eq/=. lia.
    - intros [Hx Hz]. split; [done|]. apply edges_dom in Hx as [? ->]. simpl. f_equal. lia. }
  exists d', q''. split; [done|]. split.
  - apply emitted_snoc; try done. split; [done|by apply Forall_forall].
  - intros x. rewrite Hd', Hd. destruct (events !! x); simpl; [|done]. f_equal.
    rewrite (length_filter_snoc acc id), Hocc by done. lia.
  - rewrite Hq'', Hq'. rewrite (ready_list_ids (acc ++ [id]) (ids ++ rest)).
    + by rewrite omap_app.
    + apply NoDup_app. split_and!; [done| |by apply NoDup_cons in Hnr as [_ ?]].
      intros x [Hx _]%Hedge [Hr _]%Hrids. destruct Hr as [_ Hr].
      rewrite Forall_forall in Hr. by apply Hni, Hr.
    + intros x. rewrite elem_of_app, Hedge, Hrids. unfold ready. rewrite !ready_degree.
      pose proof (length_filter_snoc acc id (edges x) Hni) as Hl.
      rewrite occ_elem. split.
      * intros [[Hx Hz]|[(Hxa & Hz) [Hxd Hxi]]].
        { assert (id ∈ edges x) as Hx' by (by apply occ_elem). split; [|split; [|done]].
          - apply elem_of_dom. by eapply edges_dom.
          - intros [Hxa|Hxi%list_elem_of_singleton]%elem_of_app; [|congruence].
            apply Hni. eapply topological_closed; [apply He|done..]. }
        { split_and!; [done| |lia]. intros [?|?%list_elem_of_singleton]%elem_of_app; done. }
      * intros [Hxd [Hxa Hz]]. destruct (decide (0 < occ id (edges x))); [by left|right].
        split_and!; [set_solver|lia|done|set_solver].
Qed.

(** Which priority is popped does not depend on the order of the queue. *)
Lemma kahn_pop acc q :
  q ≡ₚ ready_list events sort_context create_ev version acc →
  fst <$> heap_pop SortPriority_cmp q
  = fst <$> heap_pop SortPriority_cmp (ready_list events sort_context create_ev version acc).
Proof.
  intros Hq. set (rl := ready_list events sort_context create_ev version acc) in *.
  assert (∀ x, x ∈ rl → sp_version x = version) as Hv by (intros; by eapply ready_list_version).
  assert (∀ l, l ≡ₚ rl → heap_pop SortPriority_cmp l
    = heap_pop (cmp_on (priority_key version) (key_cmp version)) l) as Hcmp.
  { intros l Hl. apply heap_pop_ext. intros x y Hx Hy. rewrite Hl in Hx, Hy.
    apply SortPriority_cmp_key; by apply Hv. }
  rewrite (Hcmp q Hq), (Hcmp rl) by done.
  destruct (heap_pop _ q) as [[p q']|] eqn:E.
  - eapply (heap_pop_perm_eq (priority_key version) (key_cmp version)) in E as (r' & -> & _); [done| |done].
    intros x y Hx Hy Hk. rewrite Hq in Hx, Hy.
    apply elem_of_ready_list in Hx as (i & _ & _ & Hx). apply elem_of_ready_list in Hy as (j & _ & _ & Hy).
    apply priority_key_id in Hk.
    rewrite (spec_priority_id _ _ _ _ Hkey _ _ Hx), (spec_priority_id _ _ _ _ Hkey _ _ Hy) in Hk.
    congruence.
  - apply heap_pop_None in E as ->. apply Permutation_nil in Hq. by rewrite Hq.
Qed.

Lemma kahn_loop_greedy fuel d q acc :
  kahn_inv d q acc → size events ≤ fuel + length acc →
  kahn_loop events sort_context create_ev version fuel (kahn_graph events version).2 q d acc
  = Some (greedy events sort_context create_ev version fuel acc).
Proof.
  revert d q acc. induction fuel as [|n IH]; intros d q acc Hinv Hf; simpl.
  - destruct (heap_pop _ q) as [[p q']|] eqn:E; [|done].
    destruct (kahn_step_inv _ _ _ _ _ Hinv E) as ([Hni _] & Hid & _).
    exfalso. apply Hni. eapply emitted_full; [done|apply Hinv|done..].
  - pose proof (kahn_pop acc q (inv_queue _ _ _ Hinv)) as Hp.
    destruct (heap_pop _ q) as [[p q']|] eqn:E;
      destruct (heap_pop _ (ready_list _ _ _ _ acc)) as [[p' q1]|]; simplify_eq/=; [|done].
    destruct (kahn_step_inv _ _ _ _ _ Hinv E) as (_ & _ & d' & q'' & -> & Hinv').
    apply IH; [done|]. rewrite length_app. simpl. lia.
Qed.

Lemma with_cycle_diagnostics_eq :
  let sorted := greedy_order events sort_context create_ev version in
  with_cycle_diagnostics events sort_context create_ev version = Some (
    if decide (length sorted = size events) then KahnOk sorted
    else CycleDetected sorted (filter (λ id, id ∉ sorted) (hm_keys events))).
Proof.
  intros sorted. unfold with_cycle_diagnostics. pose proof kahn_init_inv as Hinv.
  destruct (kahn_graph events version) as [d a] eqn:E. simpl in Hinv.
  pose proof (kahn_loop_greedy (size events) d _ [] Hinv ltac:(simpl; lia)) as Hl.
  rewrite E in Hl. simpl in Hl. rewrite Hl. fold (greedy_order events sort_context create_ev version).
  fold sorted. case_decide; case_bool_decide; done.
Qed.

Lemma greedy_order_emitted :
  emitted events version (greedy_order events sort_context create_ev version).
Proof. by apply greedy_emitted, emitted_nil. Qed.

Lemma kahn_sort_eq :
  let sorted := greedy_order events sort_context create_ev version in
  kahn_sort events sort_context create_ev version
  = Some (sorted ++ sort_by (stuck_cmp events) (filter (λ id, id ∉ sorted) (hm_keys events))).
Proof.
  intros sorted. unfold kahn_sort. rewrite with_cycle_diagnostics_eq. fold sorted.
  case_decide as Hl; [|done].
  assert (filter (λ id, id ∉ sorted) (hm_keys events) = []) as ->; [|by rewrite app_nil_r].
  apply elem_of_nil_inv. intros id [Hni Hid%elem_of_hm_keys]%list_elem_of_filter.
  apply Hni. eapply emitted_full; [done|apply greedy_order_emitted| |done]. fold sorted. lia.
Qed.
End kahn_props.

Section kahn_claims.
Context {Id C : Type} `{EventId Id} `{EventContent C}.
Context {P : Type} `{!EventProvider Id C P}.
Abbreviation event := (LeanEvent Id C).

(** The event maps the engine builds: keyed by event id, with edge lists
    that fit a [usize]. *)
Definition events_wf (version : StateResVersion) (events : gmap Id event) : Prop :=
  map_Forall (λ id ev, event_id ev = id ∧
    (N.of_nat (length (dag_edges version ev)) ≤ USIZE_MAX)%N) events.

(** A rank check by evaluation. *)
Lemma edges_rank (events : gmap Id event) version (rank : Id → nat) :
  map_Forall (λ id ev, Forall (λ a, rank a < rank id)
    (filter (λ a, is_Some (events !! a)) (dag_edges version ev))) events →
  ∀ id a, a ∈ edges_in events version id → rank a < rank id.
Proof.
  intros Hall id a Ha. unfold edges_in in Ha.
  destruct (events !! id) as [ev|] eqn:E; [|by apply not_elem_of_nil in Ha].
  specialize (Hall id ev E). simpl in Hall. rewrite Forall_forall in Hall. by apply Hall.
Qed.

(** The tie-break of the stuck events is a total order on them. *)
Lemma stuck_sort_perm (o1 o2 : HashOrder) (events : gmap Id event) (acc : list Id) :
  sort_by (stuck_cmp events) (filter (λ id, id ∉ acc) (hm_keys (H:=o1) events))
  = sort_by (stuck_cmp events) (filter (λ id, id ∉ acc) (hm_keys (H:=o2) events)).
Proof.
  set (f := λ id, (default 0%Z (origin_server_ts <$> events !! id), id)).
  assert (∀ l, (∀ id, id ∈ l → id ∈ dom events) →
    sort_by (stuck_cmp events) l = sort_by (cmp_on f (cmp_pair Z.compare id_cmp)) l) as Hcmp.
  { intros l Hl. apply sort_by_ext. intros x y Hx Hy. apply Hl, elem_of_dom in Hx as [ex Hx].
    apply Hl, elem_of_dom in Hy as [ey Hy]. unfold stuck_cmp, cmp_on, cmp_pair, f.
    by rewrite Hx, Hy. }
  rewrite !Hcmp by (intros id [_ Hid%elem_of_hm_keys]%list_elem_of_filter; done).
  apply sort_by_perm_eq; [apply _|by intros x y _ _ [= _ ?]|].
  f_equiv. unfold hm_keys. by rewrite (hm_iter_two o1 o2).
Qed.

(** C13: Kahn's algorithm, with its in-degree counters, adjacency lists and heap,
    neither panics nor loops and returns exactly the greedy topological sort
    (always the greatest event by [SortPriority] among those whose cited
    events are out), whatever the hash order; on a cycle it reports the same
    prefix and the events left over. *)
Theorem kahn_refines_greedy `{HashOrder} (events : gmap Id event) (ctx : P) create_ev version :
  events_wf version events →
  let sorted := greedy_order events ctx create_ev version in
  with_cycle_diagnostics events ctx create_ev version = Some (
    if decide (length sorted = size events) then KahnOk sorted
    else CycleDetected sorted (filter (λ id, id ∉ sorted) (hm_keys events))).
Proof.
  intros Hwf sorted. apply with_cycle_diagnostics_eq; intros id ev Hev; by apply Hwf in Hev as [??].
Qed.

(** On an acyclic map (every cited event of the map has a smaller rank) the
    sort succeeds, lists every event exactly once, and lists every cited
    event before the events citing it. *)
Theorem kahn_acyclic_topological `{HashOrder} (events : gmap Id event) (ctx : P) create_ev version
    (rank : Id → nat) :
  events_wf version events →
  (∀ id a, a ∈ edges_in events version id → rank a < rank id) →
  ∃ sorted, with_cycle_diagnostics events ctx create_ev version = Some (KahnOk sorted)
    ∧ kahn_sort events ctx create_ev version = Some sorted
    ∧ sorted ≡ₚ elements (dom events)
    ∧ topological events version sorted.
Proof.
  intros Hwf Hrank. set (sorted := greedy_order events ctx create_ev version).
  assert (∀ id ev, events !! id = Some ev → event_id ev = id) as Hkey
    by (intros id ev Hev; by apply Hwf in Hev as [? _]).
  pose proof (greedy_order_emitted events ctx create_ev version Hkey) as [Hnd Hd Ht].
  fold sorted in Hnd, Hd, Ht. assert (sorted ≡ₚ elements (dom events)) as Hp.
  { apply NoDup_Permutation; [done|apply NoDup_elements|]. intros id. rewrite elem_of_elements.
    split; [apply Hd|by eapply greedy_complete]. }
  assert (with_cycle_diagnostics events ctx create_ev version = Some (KahnOk sorted)) as E.
  { rewrite with_cycle_diagnostics_eq; [|done|intros id ev Hev; by apply Hwf in Hev as [_ ?]].
    fold sorted. rewrite decide_True; [done|].
    by rewrite Hp, <-size_dom. }
  exists sorted. split_and!; try done. unfold kahn_sort. by rewrite E.
Qed.

(** Totality, permutation and determinism together. *)
Lemma kahn_sort_det (o1 o2 : HashOrder) (events : gmap Id event) (ctx : P) create_ev version :
  events_wf version events →
  ∃ l, kahn_sort (Ho:=o1) events ctx create_ev version = Some l
    ∧ kahn_sort (Ho:=o2) events ctx create_ev version = Some l
    ∧ l ≡ₚ elements (dom events).
Proof.
  intros Hwf.
  assert (∀ id ev, events !! id = Some ev → event_id ev = id) as Hkey
    by (intros id ev Hev; by apply Hwf in Hev as [? _]).
  assert (∀ id ev, events !! id = Some ev → (N.of_nat (length (dag_edges version ev)) ≤ USIZE_MAX)%N)
    as Hlen by (intros id ev Hev; by apply Hwf in Hev as [_ ?]).
  rewrite !kahn_sort_eq by done. set (sorted := greedy_order events ctx create_ev version).
  eexists. split_and!; [done| |].
  - do 2 f_equal. symmetry. by apply stuck_sort_perm.
  - rewrite sort_by_perm. apply NoDup_Permutation; [|apply NoDup_elements|].
    + pose proof (greedy_order_emitted events ctx create_ev version Hkey) as [Hnd _ _].
      apply NoDup_app. split_and!; [done| |apply NoDup_filter, NoDup_hm_keys].
      intros id Hid [Hni _]%list_elem_of_filter. done.
    + pose proof (greedy_order_emitted events ctx create_ev version Hkey) as [_ Hd _].
      intros id. rewrite elem_of_app, list_elem_of_filter, elem_of_hm_keys, elem_of_elements.
      destruct (decide (id ∈ sorted)); naive_solver.
Qed.

(** The sort never fails, returns a permutation of the events' ids even when
    the citations form cycles, and does not depend on the iteration order of
    the hash maps. *)
Theorem kahn_sort_deterministic (o1 o2 : HashOrder) (events : gmap Id event) (ctx : P) create_ev version :
  events_wf version events →
  ∃ l, kahn_sort (Ho:=o1) events ctx create_ev version = Some l
    ∧ kahn_sort (Ho:=o2) events ctx create_ev version = Some l
    ∧ l ≡ₚ elements (dom events).
Proof. apply kahn_sort_det. Qed.
End kahn_claims.

(** ** On the sample room *)

Lemma sample_dag_wf : events_wf V2 Sample.dag.
Proof. apply (bool_decide_eq_true_1 _). vm_compute. reflexivity. Qed.

Lemma kahn_refines_greedy_witness :
  with_cycle_diagnostics (Ho:=order_backward) Sample.dag sample_ctx (Some Sample.create) V2
  = Some (KahnOk ["$create"; "$join_a"; "$power"; "$rules"]).
Proof.
  rewrite (kahn_refines_greedy (H:=string_event_id) Sample.dag sample_ctx (Some Sample.create) V2 sample_dag_wf).
  vm_compute. reflexivity.
Defined.

Lemma kahn_acyclic_topological_witness :
  ∃ sorted, kahn_sort (Ho:=order_forward) Sample.dag sample_ctx (Some Sample.create) V2 = Some sorted.
Proof.
  destruct (kahn_acyclic_topological (H:=string_event_id) (H1:=order_forward) Sample.dag sample_ctx
    (Some Sample.create) V2 Sample.dag_depth sample_dag_wf) as (l & _ & Hl & _); [|by exists l].
  apply edges_rank. apply (bool_decide_eq_true_1 _). vm_compute. reflexivity.
Defined.

Lemma kahn_sort_deterministic_witness :
  kahn_sort (Ho:=order_forward) Sample.dag sample_ctx None V2
  = kahn_sort (Ho:=order_backward) Sample.dag sample_ctx None V2.
Proof.
  destruct (kahn_sort_deterministic (H:=string_event_id) order_forward order_backward Sample.dag sample_ctx None V2
    sample_dag_wf) as (l & -> & -> & _). reflexivity.
Defined.
