(* ===== verification/ReachTopo.v ===== *)
(** * The topological collection and the indexed children

    [collect_topology] lists every event of the graph once, every cited event
    before the events citing it as far as the citations are acyclic, and the
    events that cite a cycle last; [build_indexed_children] turns the citing
    events into an adjacency list over dense indices. *)
From stdpp Require Import prelude gmap strings sorting.
From Stdlib Require String.
From S2P Require Import Prelude Dense EventTypes Json Events Reachability Forward JsonContent Auth Samples Sorting Kahn.

Section topology_props.
Context {Id C : Type} `{EventId Id} `{Ho : HashOrder}.
Context (graph : gmap Id (LeanEvent Id C)).
Hypothesis Hwf : events_wf V1 graph.

Abbreviation edges := (edges_in graph V1).

Lemma graph_key id ev : graph !! id = Some ev → event_id ev = id.
Proof. intros Hev. by apply Hwf in Hev as [? _]. Qed.

Lemma graph_len id ev : graph !! id = Some ev →
  (N.of_nat (length (dag_edges V1 ev)) ≤ USIZE_MAX)%N.
Proof. intros Hev. by apply Hwf in Hev as [_ ?]. Qed.

Lemma topo_graph_kahn : topo_graph graph = kahn_graph graph V1.
Proof. reflexivity. Qed.

(** In-degrees count the cited events of the graph, children the citations. *)
Lemma topo_graph_spec :
  (∀ id, (topo_graph graph).1 !! id = (λ _, N.of_nat (length (edges id))) <$> graph !! id)
  ∧ (∀ x id, occ id (default [] ((topo_graph graph).2 !! x)) = occ x (edges id)).
Proof. rewrite topo_graph_kahn. apply kahn_graph_spec; [apply graph_key|apply graph_len]. Qed.

Lemma release_spec (ns : list Id) (d : gmap Id N) :
  (∀ id, id ∈ ns → ∃ n, d !! id = Some n ∧ (N.of_nat (occ id ns) ≤ n)%N) →
  ∃ d' ids, release ns d = Some (d', ids) ∧ NoDup ids
    ∧ (∀ id, d' !! id = (λ n, n - N.of_nat (occ id ns))%N <$> d !! id)
    ∧ (∀ id, id ∈ ids ↔ id ∈ ns ∧ d !! id = Some (N.of_nat (occ id ns))).
Proof.
  revert d. induction ns as [|x ns IH]; intros d Hns; simpl.
  { exists d, []. split_and!; [done|constructor| |set_solver].
    intros id. destruct (d !! id); simpl; [|done]. f_equal. rewrite occ_nil. lia. }
  destruct (Hns x) as (n & Hn & Hle); [set_solver|].
  rewrite Hn. rewrite occ_cons, decide_True in Hle by done.
  set (dg := usize_saturating_sub n 1). assert (dg = (n - 1)%N) as Hdg by done. clearbody dg.
  destruct (IH (<[x:=dg]> d)) as (d' & ids & -> & Hnd & Hd & Hids).
  { intros id Hid. destruct (Hns id) as (m & Hm & Hlm); [set_solver|].
    rewrite occ_cons in Hlm. destruct (decide (id = x)) as [->|].
    - exists dg. rewrite lookup_insert_eq. split; [done|lia].
    - exists m. rewrite lookup_insert_ne by done. split; [done|lia]. }
  assert (∀ id, d' !! id = (λ n, n - N.of_nat (occ id (x :: ns)))%N <$> d !! id) as Hd'.
  { intros id. rewrite Hd, occ_cons. destruct (decide (id = x)) as [->|].
    - rewrite lookup_insert_eq, Hn. simpl. f_equal. lia.
    - by rewrite lookup_insert_ne. }
  assert (x ∈ ns ↔ occ x ns ≠ 0) as Hx by (rewrite occ_elem; lia).
  assert (∀ id, id ≠ x → (id ∈ ids ↔ id ∈ x :: ns ∧ d !! id = Some (N.of_nat (occ id (x :: ns))))) as Hne.
  { intros id Hid. rewrite Hids, lookup_insert_ne, occ_cons, decide_False by done. set_solver. }
  eexists d', _. split; [done|]. destruct (N.eqb_spec dg 0) as [Hz|Hz].
  - assert (x ∉ ids) as Hxi by (rewrite Hids, lookup_insert_eq, Hx; intros [? [= ?]]; lia).
    split_and!; [by apply NoDup_cons|done|].
    intros id. destruct (decide (id = x)) as [->|Hid]; [|rewrite <-Hne by done; set_solver].
    rewrite occ_cons, decide_True, Hn by done. split; [|set_solver].
    intros _. split; [set_solver|]. f_equal. destruct (decide (x ∈ ns)) as [Hi|Hi]; [lia|].
    assert (occ x ns = 0) by (rewrite occ_elem in Hi; lia). lia.
  - split_and!; [done..|]. intros id. destruct (decide (id = x)) as [->|Hid]; [|by apply Hne].
    rewrite Hids, lookup_insert_eq, occ_cons, decide_True, Hn, Hx by done. split.
    + intros [? [= ?]]. split; [set_solver|]. f_equal. lia.
    + intros [_ [= ?]]. split; [lia|]. f_equal. lia.
Qed.

(** The loop state: the events [acc] are out, the queue holds the ready ones. *)
Record topo_inv (q : list Id) (st : gmap Id N * list Id) : Prop := {
  topo_emitted : emitted graph V1 st.2;
  topo_degree id : st.1 !! id =
    (λ _, N.of_nat (length (filter (λ a, a ∉ st.2) (edges id)))) <$> graph !! id;
  topo_queue_nodup : NoDup q;
  topo_queue id : id ∈ q ↔ id ∈ dom graph ∧ ready graph V1 st.2 id
}.

Lemma elem_of_ids_with_degree p (d : gmap Id N) id :
  id ∈ ids_with_degree p d ↔ ∃ n, d !! id = Some n ∧ p n = true.
Proof.
  unfold ids_with_degree. rewrite list_elem_of_omap. split.
  - intros ([k n] & Hin%elem_of_hm_iter & Hp). simpl in Hp. destruct (p n) eqn:E; [|done].
    simplify_eq. eauto.
  - intros (n & Hn & Hp). exists (id, n). rewrite elem_of_hm_iter. simpl. by rewrite Hp.
Qed.

Lemma NoDup_ids_with_degree p (d : gmap Id N) : NoDup (ids_with_degree p d).
Proof.
  unfold ids_with_degree. pose proof (NoDup_hm_keys d) as Hnd. unfold hm_keys in Hnd.
  induction (hm_iter d) as [|[k n] l IH]; csimpl in *; [constructor|].
  apply NoDup_cons in Hnd as [Hni Hnd]. destruct (p n); csimpl; [|by apply IH].
  apply NoDup_cons. split; [|by apply IH].
  intros ([k' n'] & Hin & Hk)%list_elem_of_omap. simpl in Hk. destruct (p n'); [|done]. simplify_eq.
  apply Hni, list_elem_of_fmap. by exists (k, n').
Qed.

Lemma ready_degree' (acc : list Id) id :
  Forall (λ a, a ∈ acc) (edges id) ↔ length (filter (λ a, a ∉ acc) (edges id)) = 0.
Proof. apply ready_degree; [apply graph_key|apply graph_len]. Qed.

Lemma topo_init :
  topo_inv (sort_by id_cmp (ids_with_degree (λ deg, (deg =? 0)%N) (topo_graph graph).1))
    ((topo_graph graph).1, []).
Proof.
  destruct topo_graph_spec as [Hd _]. split; simpl.
  - apply emitted_nil, graph_key.
  - intros id. rewrite Hd. destruct (graph !! id); [|done]. simpl. repeat f_equal.
    symmetry. apply filter_not_in_nil.
  - rewrite sort_by_perm. apply NoDup_ids_with_degree.
  - intros id. rewrite sort_by_perm, elem_of_ids_with_degree, elem_of_dom.
    unfold ready. rewrite ready_degree', (filter_not_in_nil (edges id) : filter (λ a, a ∉ []) _ = _).
    setoid_rewrite Hd. destruct (graph !! id) as [ev|]; simpl.
    + split.
      * intros (n & [= <-] & Hz%N.eqb_eq). split_and!; [by eexists|set_solver|lia].
      * intros (_ & _ & Hz). eexists. split; [done|]. by rewrite Hz.
    + naive_solver.
Qed.

Lemma topo_step_inv id q st :
  topo_inv (id :: q) st →
  ∃ st' pushed, topo_step (topo_graph graph).2 id st = Some (Push st' pushed)
    ∧ topo_inv (q ++ pushed) st' ∧ st'.2 = st.2 ++ [id].
Proof.
  intros [He Hd Hnd Hq]. destruct topo_graph_spec as [_ Hadj]. destruct st as [d acc]. simpl in *.
  destruct (proj1 (Hq id)) as [Hdom Hready]; [set_solver|].
  destruct Hready as [Hni Hall]. rewrite Forall_forall in Hall.
  assert (id ∉ edges id) as Hself by (intros Hs; by apply Hni, Hall).
  unfold topo_step. simpl. set (ns := default [] ((topo_graph graph).2 !! id)).
  assert (∀ x, occ x ns = occ id (edges x)) as Hocc by (intros; apply Hadj).
  assert (∀ x, length (filter (.∉ acc) (edges x))
    = length (filter (.∉ acc ++ [id]) (edges x)) + occ x ns) as Hsplit
    by (intros x; rewrite Hocc; by apply length_filter_snoc).
  destruct (release_spec ns d) as (d' & ids & -> & Hndi & Hd' & Hids).
  { intros x Hx. apply occ_elem in Hx. rewrite Hocc in Hx. apply occ_elem in Hx.
    destruct (edges_dom graph V1 graph_key graph_len x id Hx) as [ev Hev].
    eexists. rewrite Hd, Hev. split; [done|]. rewrite Hsplit. lia. }
  assert (∀ x, x ∈ ids ↔ id ∈ edges x ∧ Forall (.∈ acc ++ [id]) (edges x)) as Hids'.
  { intros x. rewrite Hids, ready_degree', (occ_elem x), Hocc, <-occ_elem, Hd.
    split; intros [Hx Hl]; split; try done.
    - destruct (graph !! x); [|done]. simpl in Hl. injection Hl as Hl%Nat2N.inj.
      rewrite Hsplit, Hocc in Hl. lia.
    - destruct (edges_dom graph V1 graph_key graph_len x id Hx) as [ev ->]. simpl. do 2 f_equal.
      rewrite Hsplit, Hocc. lia. }
  apply NoDup_cons in Hnd as [Hniq Hnd].
  exists (d', acc ++ [id]), ids. split_and!; [done| |done]. split; simpl.
  - apply emitted_snoc; [apply graph_key|done..|]. split; [done|by apply Forall_forall].
  - intros x. rewrite Hd', Hd. destruct (graph !! x); [|done]. simpl. f_equal.
    rewrite Hsplit. lia.
  - apply NoDup_app. split_and!; [done| |done]. intros x Hx [Hin _]%Hids'.
    assert (x ∈ id :: q) as Hxq by set_solver. apply Hq in Hxq as [_ [_ Ha]].
    rewrite Forall_forall in Ha. by apply Hni, Ha.
  - intros x. rewrite elem_of_app, Hids'. split.
    + intros [Hx|[Hx Ha]].
      * assert (x ∈ id :: q) as Hxq by set_solver. apply Hq in Hxq as [Hxd [Hxn Ha]].
        split; [done|]. split; [set_solver|]. eapply Forall_impl; [exact Ha|]. set_solver.
      * split; [apply elem_of_dom; by eapply (edges_dom graph V1 graph_key graph_len)|].
        split; [|done]. intros [Hxa| ->%list_elem_of_singleton]%elem_of_app; [|done].
        apply Hni. eapply topological_closed; [apply He|done|done].
    + intros (Hxd & Hxn & Ha). destruct (decide (id ∈ edges x)) as [Hin|Hnin]; [by right|]. left.
      assert (x ∈ id :: q) as Hxq; [|set_solver].
      apply Hq. split; [done|]. split; [set_solver|]. rewrite Forall_forall in Ha |- *.
      intros a Hea. specialize (Ha a Hea). apply elem_of_app in Ha as [|Ha]; [done|].
      apply list_elem_of_singleton in Ha as ->. done.
Qed.

(** What [collect_topology] returns. *)
Record collected (topo leftover : list Id) : Prop := {
  col_emitted : emitted graph V1 topo;
  col_leftover_nodup : NoDup leftover;
  col_leftover id : id ∈ leftover ↔ id ∈ dom graph ∧ id ∉ topo;
  col_stuck id : id ∈ leftover → ∃ a, a ∈ edges id ∧ a ∈ leftover
}.

Lemma col_nodup topo leftover : collected topo leftover → NoDup (topo ++ leftover).
Proof.
  intros [He Hn Hl _]. apply NoDup_app. split_and!; [apply He| |done]. intros x Hx Hxl.
  by apply Hl in Hxl as [_ ?].
Qed.

Lemma col_dom topo leftover id : collected topo leftover → id ∈ topo ++ leftover ↔ id ∈ dom graph.
Proof.
  intros [He _ Hl _]. rewrite elem_of_app, Hl. destruct (decide (id ∈ topo)); [|naive_solver].
  split; [|by left]. intros _. by apply He.
Qed.

Lemma col_length topo leftover : collected topo leftover → length (topo ++ leftover) = size graph.
Proof.
  intros Hc. rewrite <-size_dom, <-(size_list_to_set (C:=gset Id) (topo ++ leftover)) by (by apply col_nodup).
  f_equal. apply set_eq. intros id. by rewrite elem_of_list_to_set, col_dom.
Qed.

Lemma collect_topology_spec :
  ∃ topo leftover, collect_topology graph = Some (topo ++ leftover, (topo_graph graph).2, leftover)
    ∧ collected topo leftover.
Proof.
  unfold collect_topology. pose proof topo_init as Hinit. pose proof topo_step_inv as Hstep.
  destruct (topo_graph graph) as [d0 ch]. simpl in Hinit, Hstep |- *.
  destruct (try_drain_spec (topo_step ch) topo_inv (topo_inv []) (λ _ st, size graph - length st.2)
    (size graph) (sort_by id_cmp (ids_with_degree (λ deg, (deg =? 0)%N) d0)) (d0, []))
    as ([d topo] & -> & [He Hd _ Hq]); [|done|done|simpl; lia|].
  { intros id q st Hinv. destruct (Hstep _ _ _ Hinv) as (st' & pushed & -> & Hinv' & Hst').
    eexists. split; [done|]. cbn iota. rewrite Hst', length_app. simpl.
    pose proof (emitted_length graph V1 graph_key _ (topo_emitted _ _ Hinv')) as Hle.
    rewrite Hst', length_app in Hle. simpl in Hle. split_and!; [lia|done|lia]. }
  simpl in *. eexists topo, _. split; [done|].
  assert (∀ id, id ∈ sort_by id_cmp (ids_with_degree (λ deg, negb (deg =? 0)%N) d)
    ↔ id ∈ dom graph ∧ ¬ Forall (.∈ topo) (edges id)) as Hl.
  { intros id. rewrite sort_by_perm, elem_of_ids_with_degree, elem_of_dom, ready_degree'.
    setoid_rewrite Hd. destruct (graph !! id); simpl.
    - split.
      + intros (n & [= <-] & Hn). apply negb_true_iff, N.eqb_neq in Hn. split; [by eexists|lia].
      + intros [_ Hn]. eexists. split; [done|]. apply negb_true_iff, N.eqb_neq. lia.
    - naive_solver. }
  assert (∀ id, id ∈ topo → Forall (.∈ topo) (edges id)) as Hclosed.
  { intros id Hid. apply Forall_forall. intros a Ha. eapply topological_closed; [apply He|done..]. }
  assert (∀ id, id ∈ sort_by id_cmp (ids_with_degree (λ deg, negb (deg =? 0)%N) d)
    ↔ id ∈ dom graph ∧ id ∉ topo) as Hl'.
  { intros id. rewrite Hl. split; intros [Hid Hn]; (split; [done|]).
    - intros Ht. by apply Hn, Hclosed.
    - intros Ha. apply (not_elem_of_nil id), Hq. split; [done|]. by split. }
  split; [done| |exact Hl'|].
  - rewrite sort_by_perm. apply NoDup_ids_with_degree.
  - intros id [Hid Hn]%Hl. apply not_Forall_Exists in Hn; [|apply _].
    apply Exists_exists in Hn as (a & Ha & Hna). exists a. split; [done|]. apply Hl'.
    split; [|done]. by eapply (edges_in_dom graph V1 graph_key graph_len).
Qed.

(** On an acyclic graph nothing is left over. *)
Lemma collected_acyclic topo leftover (rank : Id → nat) :
  collected topo leftover → (∀ id a, a ∈ edges id → rank a < rank id) → leftover = [].
Proof.
  intros [_ _ _ Hst] Hr. apply elem_of_nil_inv. intros id.
  assert (∀ n id, rank id < n → id ∉ leftover) as Hall; [|by apply (Hall (S (rank id))); lia].
  clear id. induction n as [|n IH]; intros id Hn Hid; [lia|].
  destruct (Hst id Hid) as (a & Ha & Hal). apply (IH a); [|done]. specialize (Hr _ _ Ha). lia.
Qed.

(** ** The adjacency list *)

Definition kids (ch : list (list nat)) (i : nat) : list nat := default [] (ch !! i).

Lemma kids_insert ch i j (cs : list nat) :
  i < length ch → kids (<[i := cs]> ch) j = if decide (i = j) then cs else kids ch j.
Proof.
  intros Hi. unfold kids. case_decide as Hij; [subst|]; [by rewrite list_lookup_insert_eq|].
  by rewrite list_lookup_insert_ne.
Qed.

Lemma index_children_spec (ix : DenseIndex Id) (pi : nat) (vs : list Id) ch deg n :
  dense_ok Idx_u32 ix → length (items ix) = n → pi < n → length ch = n → length deg = n →
  ∃ ch' deg', try_fold (index_child ix pi) vs (ch, deg) = Some (ch', deg')
    ∧ length ch' = n ∧ length deg' = n
    ∧ (∀ i c, c ∈ kids ch' i ↔ c ∈ kids ch i ∨ i = pi ∧ ∃ x, x ∈ vs ∧ index_of ix x = Some c).
Proof.
  intros Hok Hn Hpi Hch Hdeg.
  destruct (try_fold_spec (index_child ix pi) (λ l1 st, length st.1 = n ∧ length st.2 = n
    ∧ (∀ i c, c ∈ kids st.1 i ↔ c ∈ kids ch i ∨ i = pi ∧ ∃ x, x ∈ l1 ∧ index_of ix x = Some c))
    vs (ch, deg)) as ([ch' deg'] & Hr & ?); [|set_solver|by exists ch', deg'].
  intros l1 x l2 [c1 d1] _ (H1 & H2 & Hk). simpl in *. unfold index_child. simpl.
  destruct (index_of ix x) as [c|] eqn:Ex.
  - destruct (lookup_lt_is_Some_2 c1 pi) as [slot Hs]; [lia|].
    assert (c < n) as Hc. { apply (dense_index Idx_u32 ix Hok) in Ex. apply lookup_lt_Some in Ex. lia. }
    destruct (lookup_lt_is_Some_2 d1 c) as [dg Hdg]; [lia|].
    rewrite Hs. simpl. rewrite vec_set_lt by lia. simpl. rewrite Hdg. simpl. rewrite vec_set_lt by lia. simpl.
    eexists. split; [done|]. simpl. rewrite !length_insert. split_and!; [done..|].
    intros i c'. rewrite kids_insert by lia. case_decide as Hi; [subst i|].
    + rewrite elem_of_app. assert (c' ∈ slot ↔ c' ∈ kids c1 pi) as -> by (unfold kids; by rewrite Hs).
      rewrite Hk. set_solver.
    + rewrite Hk. set_solver.
  - eexists. split; [done|]. split_and!; [done..|]. intros i c'. rewrite Hk. set_solver.
Qed.

Lemma topo_children x id : id ∈ default [] ((topo_graph graph).2 !! x) ↔ x ∈ edges id.
Proof. destruct topo_graph_spec as [_ Ha]. by rewrite occ_elem, Ha, <-occ_elem. Qed.

(** Child [c] of node [i]: the event numbered [c] cites the one numbered [i]. *)
Lemma build_indexed_children_spec (ix : DenseIndex Id) n :
  dense_ok Idx_u32 ix → length (items ix) = n →
  ∃ ch deg, build_indexed_children n (topo_graph graph).2 ix = Some (ch, deg)
    ∧ length ch = n ∧ length deg = n
    ∧ (∀ i c, c ∈ kids ch i ↔ ∃ p x, items ix !! i = Some p ∧ items ix !! c = Some x ∧ p ∈ edges x).
Proof.
  intros Hok Hn. unfold build_indexed_children.
  match goal with |- context [try_fold ?f] => set (body := f) end.
  destruct (try_fold_spec body (λ l1 st, length st.1 = n ∧ length st.2 = n
    ∧ (∀ i c, c ∈ kids st.1 i ↔ ∃ kv x, kv ∈ l1 ∧ items ix !! i = Some kv.1 ∧ x ∈ kv.2
         ∧ items ix !! c = Some x))
    (hm_iter (topo_graph graph).2) (replicate n [], replicate n 0)) as ([ch deg] & Hr & H1 & H2 & Hk).
  - intros l1 [p vs] l2 [c1 d1] _ (H1 & H2 & Hk). simpl in *. unfold body. simpl.
    destruct (index_of ix p) as [pi|] eqn:Ep.
    + apply (dense_index Idx_u32 ix Hok) in Ep as Hp. apply lookup_lt_Some in Hp as Hlt.
      destruct (lookup_lt_is_Some_2 c1 pi) as [slot ->]; [lia|]. simpl.
      destruct (index_children_spec ix pi vs c1 d1 n) as (ch' & deg' & -> & ? & ? & Hk'); [done|lia..|].
      eexists. split; [done|]. split_and!; [done..|]. simpl. intros i c. rewrite Hk', Hk. split.
      * intros [(kv & x & ? & ? & ?)|(-> & x & Hx & Hi)]; [exists kv, x; set_solver|].
        exists (p, vs), x. apply (dense_index Idx_u32 ix Hok) in Hi. set_solver.
      * intros (kv & x & [Hkv|Hkv]%elem_of_app & Hi & Hx & Hc); [left; by exists kv, x|].
        apply list_elem_of_singleton in Hkv as ->. simpl in *. right.
        assert (i = pi) as -> by (apply (dense_index Idx_u32 ix Hok) in Hi; unfold index_of in Ep; congruence).
        split; [done|]. exists x. split; [done|]. by apply (dense_index Idx_u32 ix Hok).
    + eexists. split; [done|]. split_and!; [done..|]. simpl. intros i c. rewrite Hk.
      split; [intros (kv & x & ?); exists kv, x; set_solver|].
      intros (kv & x & [Hkv|Hkv]%elem_of_app & Hi & Hx & Hc); [by exists kv, x|].
      apply list_elem_of_singleton in Hkv as ->. simpl in *.
      apply (dense_index Idx_u32 ix Hok) in Hi. unfold index_of in Ep. congruence.
  - cbn [fst snd]. rewrite !length_replicate. split_and!; [done..|]. intros i c. unfold kids. simpl.
    split; [|set_solver]. destruct (replicate n [] !! i) as [cs|] eqn:E; [|set_solver].
    apply lookup_replicate in E as [-> _]. set_solver.
  - exists ch, deg. simpl in *. split_and!; [done..|]. intros i c. rewrite Hk. split.
    + intros ([p vs] & x & Hin & Hi & Hx & Hc). exists p, x. split_and!; [done..|].
      simpl in *. apply elem_of_hm_iter in Hin. apply topo_children. by rewrite Hin.
    + intros (p & x & Hi & Hc & Hpx). apply topo_children in Hpx.
      destruct ((topo_graph graph).2 !! p) as [vs|] eqn:E; [|by apply not_elem_of_nil in Hpx].
      exists (p, vs), x. by rewrite elem_of_hm_iter.
Qed.
End topology_props.

(** ** The ranges and segments of the reachability index

    Over an adjacency list of dense indices: descendant ranges contain the
    reachable settled nodes, segments are chains of only children, bitmaps
    hold the reachable nodes. The first [settled] nodes are those whose edges
    all lead to greater indices: every node when the graph is acyclic. *)

Section index_props.
Context (ch : list (list nat)) (settled : nat).
Abbreviation n := (length ch).

Definition kid (i j : nat) : Prop := j ∈ kids ch i.
Definition fwd : nat → nat → Prop := rtc kid.

Lemma kid_lt i j : kid i j → i < n.
Proof. unfold kid, kids. destruct (ch !! i) eqn:E; [intros _; by eapply lookup_lt_Some|by intros ?%not_elem_of_nil]. Qed.

Record adjacency_ok : Prop := {
  adj_range i j : kid i j → j < n;
  adj_settled : settled ≤ n;
  adj_order i j : kid i j → i < settled → i < j;
  adj_back i j : kid i j → j < settled → i < settled
}.
Hypothesis Hadj : adjacency_ok.

Lemma kids_lookup i cs : ch !! i = Some cs → kids ch i = cs.
Proof. unfold kids. by intros ->. Qed.

Lemma lookup_kids i : i < n → ch !! i = Some (kids ch i).
Proof. intros [cs Hcs]%lookup_lt_is_Some. unfold kids. by rewrite Hcs. Qed.

Lemma fwd_lt i j : fwd i j → i < n → j < n.
Proof. induction 1 as [|i j k Hij _ IH]; [done|]. intros _. apply IH. by eapply adj_range. Qed.

Lemma fwd_back i j : fwd i j → j < settled → i < settled.
Proof. induction 1 as [|i j k Hij _ IH]; [done|]. intros Hk. eapply adj_back; [done..|by apply IH]. Qed.

(** ** Ranges *)

Definition in_range (rs : list (nat * nat)) (i j : nat) : Prop :=
  ∃ lo hi, rs !! i = Some (lo, hi) ∧ lo ≤ j ≤ hi.

Lemma range_children rs cs (acc : nat * nat) :
  (∀ c, c ∈ cs → c < length rs) →
  ∃ lo hi, try_fold (range_child rs) cs acc = Some (lo, hi)
    ∧ lo ≤ acc.1 ∧ acc.2 ≤ hi
    ∧ ∀ c l h, c ∈ cs → rs !! c = Some (l, h) → lo ≤ l ∧ h ≤ hi.
Proof.
  revert acc. induction cs as [|c cs IH]; intros acc Hcs; simpl.
  { exists acc.1, acc.2. split_and!; [by destruct acc|lia..|set_solver]. }
  destruct (lookup_lt_is_Some_2 rs c) as [[l h] Hc]; [apply Hcs; set_solver|].
  unfold range_child at 1. rewrite Hc. simpl.
  destruct (IH (acc.1 `min` l, acc.2 `max` h)) as (lo & hi & -> & H1 & H2 & H3); [set_solver|].
  simpl in *. exists lo, hi. split_and!; [done|lia..|].
  intros c' l' h' [->|Hin]%elem_of_cons Hl'; [|by eapply H3]. rewrite Hl' in Hc. simplify_eq. lia.
Qed.

Lemma build_descendant_ranges_spec :
  ∃ rs, build_descendant_ranges ch = Some rs ∧ length rs = n
    ∧ (∀ i, i < n → in_range rs i i)
    ∧ (∀ i j, i < n → j < settled → fwd i j → in_range rs i j).
Proof.
  unfold build_descendant_ranges.
  destruct (try_fold_down (range_node ch) (λ k rs, length rs = n
    ∧ (∀ i, k ≤ i < n → in_range rs i i
        ∧ ∀ c, kid i c → i < c → ∃ lo hi l h, rs !! i = Some (lo, hi) ∧ rs !! c = Some (l, h)
            ∧ lo ≤ l ∧ h ≤ hi)) n (replicate n (0, 0))) as (rs & Hr & Hlen & Hrs).
  - intros k rs Hk [Hlen Hrs]. unfold range_node. rewrite lookup_kids by done. simpl.
    destruct (range_children rs (kids ch k) (k, k)) as (lo & hi & -> & H1 & H2 & H3).
    { intros c Hc. rewrite Hlen. by eapply adj_range. }
    simpl in *. rewrite vec_set_lt by lia. eexists. split; [done|]. rewrite length_insert. split; [done|].
    intros i [Hi1 Hi2]. destruct (decide (i = k)) as [->|Hik].
    + split; [exists lo, hi; split; [apply list_lookup_insert_eq|]; lia|].
      intros c Hc Hlt. destruct (lookup_lt_is_Some_2 rs c) as [[l h] Hrc].
      { rewrite Hlen. by eapply adj_range. }
      exists lo, hi, l, h. split_and!; [apply list_lookup_insert_eq; lia|
        by rewrite list_lookup_insert_ne by lia|by eapply H3..].
    + destruct (Hrs i ltac:(lia)) as [(l1 & h1 & Hl1 & Hb) Hc]. split.
      * exists l1, h1. by rewrite list_lookup_insert_ne.
      * intros c Hic Hlt. destruct (Hc c Hic Hlt) as (l & h & l' & h' & ?).
        exists l, h, l', h'. rewrite !list_lookup_insert_ne by lia. done.
  - rewrite length_replicate. split; [done|]. lia.
  - exists rs. split_and!; [done..| |].
    + intros i Hi. apply Hrs. lia.
    + intros i j Hi Hj Hf. revert Hi Hj. induction Hf as [i|i c j Hic Hf IH]; intros Hi Hj.
      { apply Hrs. lia. }
      pose proof (fwd_back c j Hf Hj) as Hcs.
      assert (i < c) as Hlt by (eapply adj_order; [done..|by eapply adj_back]).
      destruct (Hrs i ltac:(lia)) as [_ Hc]. destruct (Hc c Hic Hlt) as (lo & hi & l & h & E1 & E2 & ? & ?).
      destruct (IH ltac:(by eapply adj_range) Hj) as (l' & h' & E3 & ?).
      rewrite E2 in E3. simplify_eq. exists lo, hi. split; [done|lia].
Qed.

(** ** Bitmaps *)

Lemma bitmap_children (bms : list (gset nat)) cs b :
  (∀ c, c ∈ cs → c < length bms) →
  ∃ b', try_fold (Forward.bitmap_child bms) cs b = Some b'
    ∧ ∀ j, j ∈ b' ↔ j ∈ b ∨ ∃ c bc, c ∈ cs ∧ bms !! c = Some bc ∧ j ∈ bc.
Proof.
  revert b. induction cs as [|c cs IH]; intros b Hcs; simpl.
  { exists b. set_solver. }
  destruct (lookup_lt_is_Some_2 bms c) as [bc Hc]; [apply Hcs; set_solver|].
  unfold Forward.bitmap_child at 1. rewrite Hc. simpl.
  destruct (IH (b ∪ bc)) as (b' & -> & Hb'); [set_solver|]. exists b'. split; [done|].
  intros j. rewrite Hb', elem_of_union. split.
  - intros [[?|?]|(c' & bc' & ? & ? & ?)]; [by left|right; exists c, bc; set_solver|].
    right. exists c', bc'. set_solver.
  - intros [?|(c' & bc' & [->|?]%elem_of_cons & ? & ?)]; [by left; left| |].
    + left. right. congruence.
    + right. by exists c', bc'.
Qed.

Lemma build_bitmaps_spec :
  ∃ bms, Forward.build_bitmaps ch = Some bms ∧ length bms = n
    ∧ (∀ i b j, bms !! i = Some b → j ∈ b → fwd i j)
    ∧ (∀ i b j, bms !! i = Some b → j < settled → fwd i j → j ∈ b).
Proof.
  unfold Forward.build_bitmaps.
  destruct (try_fold_down (Forward.bitmap_node ch) (λ k bms, length bms = n
    ∧ (∀ i b j, bms !! i = Some b → j ∈ b → fwd i j)
    ∧ (∀ i, k ≤ i < n → ∃ b, bms !! i = Some b ∧ i ∈ b
        ∧ ∀ c, kid i c → i < c → ∃ bc, bms !! c = Some bc ∧ bc ⊆ b)) n (replicate n ∅))
    as (bms & Hr & Hlen & Hsound & Hb).
  - intros k bms Hk (Hlen & Hsound & Hb). unfold Forward.bitmap_node. rewrite lookup_kids by done. simpl.
    destruct (bitmap_children bms (kids ch k) {[k]}) as (b & -> & Hb').
    { intros c Hc. rewrite Hlen. by eapply adj_range. }
    simpl. rewrite vec_set_lt by lia. eexists. split; [done|]. rewrite length_insert. split_and!; [done| |].
    + intros i b' j. destruct (decide (i = k)) as [->|Hik].
      * rewrite list_lookup_insert_eq by lia. intros [= <-]. rewrite Hb'.
        intros [->%elem_of_singleton|(c & bc & Hc & Hbc & Hj)]; [apply rtc_refl|].
        eapply rtc_l; [exact Hc|]. by eapply Hsound.
      * rewrite list_lookup_insert_ne by done. apply Hsound.
    + intros i [Hi1 Hi2]. destruct (decide (i = k)) as [->|Hik].
      * exists b. split_and!; [apply list_lookup_insert_eq; lia|set_solver|].
        intros c Hc Hlt. destruct (lookup_lt_is_Some_2 bms c) as [bc Hrc].
        { rewrite Hlen. by eapply adj_range. }
        exists bc. rewrite list_lookup_insert_ne by lia. split; [done|].
        intros j Hj. apply Hb'. right. by exists c, bc.
      * destruct (Hb i ltac:(lia)) as (b1 & Hb1 & Hi & Hc). exists b1.
        rewrite list_lookup_insert_ne by done. split_and!; [done..|]. intros c Hic Hlt.
        rewrite list_lookup_insert_ne by lia. by apply Hc.
  - rewrite length_replicate. split_and!; [done| |lia]. intros i b j [-> _]%lookup_replicate. set_solver.
  - exists bms. split_and!; [done..|]. intros i b j Hi Hj Hf. revert b Hi Hj.
    induction Hf as [i|i c j Hic Hf IH]; intros b Hi Hj; apply lookup_lt_Some in Hi as Hlt;
      destruct (Hb i ltac:(lia)) as (b' & Hb' & Hib & Hc); rewrite Hi in Hb'; simplify_eq; [done|].
    pose proof (fwd_back c j Hf Hj) as Hcs.
    assert (i < c) as Hic' by (eapply adj_order; [done..|by eapply adj_back]).
    destruct (Hc c Hic Hic') as (bc & Hbc & Hsub). apply Hsub. by eapply IH.
Qed.
End index_props.
