(* ===== verification/ReachSegments.v ===== *)
(** * The segments of the reachability index

    [build_segments] cuts the nodes into chains along which each node is the
    only child of the one before it. *)
From stdpp Require Import prelude gmap strings sorting.
From Stdlib Require String.
From S2P Require Import Prelude Dense EventTypes Json Events JsonContent Auth Samples Sorting Kahn Reachability ReachTopo.

Section segment_props.
Context (ch : list (list nat)) (deg : list nat).
Abbreviation n := (length ch).
Hypothesis Hrange : ∀ i j, kid ch i j → j < n.
Hypothesis Hdeg : length deg = n.

(** The segments so far, as paths of nodes. *)
Record paths_ok (paths : list (list nat)) (ns : list (option nat)) (off : list nat) : Prop := {
  pa_ns : length ns = n;
  pa_off : length off = n;
  pa_node x s : ns !! x = Some (Some s) ↔ ∃ path o, paths !! s = Some path ∧ path !! o = Some x;
  pa_offset s path o x : paths !! s = Some path → path !! o = Some x → off !! x = Some o;
  pa_link s path o x y :
    paths !! s = Some path → path !! o = Some x → path !! S o = Some y → ch !! x = Some [y]
}.

(** Appending an unassigned node to the last path. *)
Lemma paths_snoc paths p ns off x :
  paths_ok (paths ++ [p]) ns off → ns !! x = Some None →
  (∀ y, last p = Some y → ch !! y = Some [x]) →
  paths_ok (paths ++ [p ++ [x]]) (<[x := Some (length paths)]> ns) (<[x := length p]> off).
Proof.
  intros [H1 H2 H3 H4 H5] Hx Hlast. apply lookup_lt_Some in Hx as Hlt.
  assert (∀ s path o, (paths ++ [p]) !! s = Some path → path !! o ≠ Some x) as Hfresh.
  { intros s path o Hs Ho. assert (ns !! x = Some (Some s)) by (apply H3; eauto). congruence. }
  assert (∀ s path, (paths ++ [p ++ [x]]) !! s = Some path ↔
    s < length paths ∧ (paths ++ [p]) !! s = Some path ∨ s = length paths ∧ path = p ++ [x]) as Hp.
  { intros s path. destruct (decide (s < length paths)).
    - rewrite !lookup_app_l by lia. naive_solver lia.
    - rewrite lookup_snoc_Some. naive_solver lia. }
  assert ((paths ++ [p]) !! length paths = Some p) as Hpl by (by rewrite list_lookup_middle).
  split; [by rewrite length_insert..| | |].
  - intros y s. split.
    + destruct (decide (x = y)) as [<-|Hne].
      * rewrite list_lookup_insert_eq by lia. intros [= <-]. exists (p ++ [x]), (length p).
        split; [apply Hp; by right|]. by rewrite list_lookup_middle.
      * rewrite list_lookup_insert_ne by done. intros (path & o & Hs & Ho)%H3.
        destruct (decide (s < length paths)).
        { exists path, o. split; [apply Hp; by left|done]. }
        apply lookup_lt_Some in Hs as Hsl. rewrite length_app in Hsl. simpl in Hsl.
        assert (s = length paths) as -> by lia. rewrite Hpl in Hs. simplify_eq.
        exists (path ++ [x]), o. split; [apply Hp; by right|]. rewrite lookup_app_l; [done|]. by eapply lookup_lt_Some.
    + intros (path & o & [[Hs Hpath]|[-> ->]]%Hp & Ho).
      * rewrite list_lookup_insert_ne by (intros ->; by eapply Hfresh). apply H3. eauto.
      * apply lookup_snoc_Some in Ho as [[? Ho]|[-> <-]]; [|by apply list_lookup_insert_eq; lia].
        rewrite list_lookup_insert_ne by (intros ->; by eapply Hfresh). apply H3. eauto.
  - intros s path o y [[Hs Hpath]|[-> ->]]%Hp Ho.
    + rewrite list_lookup_insert_ne by (intros ->; by eapply Hfresh). by eapply H4.
    + apply lookup_snoc_Some in Ho as [[? Ho]|[-> <-]]; [|apply list_lookup_insert_eq; lia].
      rewrite list_lookup_insert_ne by (intros ->; by eapply Hfresh). by eapply H4.
  - intros s path o y z [[Hs Hpath]|[-> ->]]%Hp Hy Hz; [by eapply H5|].
    apply lookup_snoc_Some in Hz as [[Hlt' Hz]|[Hlen <-]].
    + rewrite lookup_app_l in Hy by lia. by eapply H5.
    + rewrite lookup_app_l in Hy by lia. apply Hlast. rewrite last_lookup, <-Hlen. done.
Qed.

Definition unassigned (ns : list (option nat)) : nat := length (filter (λ o, o = None) ns).

Lemma walk_segment_spec fuel paths p ns off current :
  paths_ok (paths ++ [p]) ns off → ns !! current = Some None →
  (∀ y, last p = Some y → ch !! y = Some [current]) → unassigned ns ≤ fuel →
  ∃ tl p' ns' off', walk_segment fuel ch deg (length paths) current (length p) ns off
      = Some (tl, length p', ns', off')
    ∧ paths_ok (paths ++ [p']) ns' off' ∧ last p' = Some tl
    ∧ (∀ x s, ns !! x = Some (Some s) → ns' !! x = Some (Some s))
    ∧ is_Some (ns' !! current ≫= id).
Proof.
  revert p ns off current. induction fuel as [|fuel IH]; intros p ns off current Hok Hc Hlast Hf.
  { exfalso. unfold unassigned in Hf.
    pose proof (length_filter_insert (λ o, o = None) ns current None (Some 0) Hc eq_refl ltac:(done)). lia. }
  apply lookup_lt_Some in Hc as Hlt. pose proof (pa_ns _ _ _ Hok) as Hns. pose proof (pa_off _ _ _ Hok) as Hoff.
  simpl. rewrite !vec_set_lt by lia. simpl.
  rewrite (lookup_kids ch current) by lia. simpl.
  destruct (lookup_lt_is_Some_2 deg current) as [dg ->]; [lia|]. simpl.
  set (ns1 := <[current := Some (length paths)]> ns). set (off1 := <[current := length p]> off).
  assert (paths_ok (paths ++ [p ++ [current]]) ns1 off1) as Hok1 by (by apply paths_snoc).
  assert (length p + 1 = length (p ++ [current])) as -> by (by rewrite length_app).
  assert (ns1 !! current = Some (Some (length paths))) as Hc1 by (apply list_lookup_insert_eq; lia).
  assert (∀ x s, ns !! x = Some (Some s) → ns1 !! x = Some (Some s)) as Hmono.
  { intros x s Hx. unfold ns1. rewrite list_lookup_insert_ne by (intros ->; congruence). done. }
  assert (∃ tl p' ns' off', Some (current, length (p ++ [current]), ns1, off1)
      = Some (tl, length p', ns', off') ∧ paths_ok (paths ++ [p']) ns' off' ∧ last p' = Some tl
      ∧ (∀ x s, ns !! x = Some (Some s) → ns' !! x = Some (Some s)) ∧ is_Some (ns' !! current ≫= id)) as Hstop.
  { exists current, (p ++ [current]), ns1, off1. rewrite last_snoc, Hc1. split_and!; [done..|by eexists]. }
  destruct (negb (dg =? 1) || negb (length (kids ch current) =? 1)) eqn:E; [done|].
  apply orb_false_iff in E as [_ Hone%negb_false_iff%Nat.eqb_eq].
  destruct (kids ch current) as [|next [|]] eqn:Ek; try done. simpl.
  assert (next < n) as Hnext by (apply (Hrange current); unfold kid; rewrite Ek; set_solver).
  destruct (lookup_lt_is_Some_2 deg next) as [dn ->]; [lia|]. simpl.
  destruct (lookup_lt_is_Some_2 ns1 next) as [o Ho].
  { unfold ns1. rewrite length_insert. lia. }
  rewrite Ho. simpl. destruct (negb (dn =? 1) || bool_decide (is_Some o)) eqn:E; [done|].
  apply orb_false_iff in E as [_ Hno%bool_decide_eq_false].
  assert (o = None) as -> by (by apply eq_None_not_Some).
  destruct (IH (p ++ [current]) ns1 off1 next Hok1 Ho) as (tl & p' & ns' & off' & Hw & ? & ? & Hm & ?).
  - intros y. rewrite last_snoc. intros [= <-]. rewrite <-Ek. apply lookup_kids. lia.
  - unfold unassigned in *. pose proof (length_filter_insert (λ o, o = None) ns current None
      (Some (length paths)) Hc eq_refl ltac:(done)) as Hl. fold ns1 in Hl. lia.
  - exists tl, p', ns', off'. split_and!; [done..| |].
    + intros x s Hx. by apply Hm, Hmono.
    + erewrite Hm by done. by eexists.
Qed.

Lemma paths_app_nil paths ns off : paths_ok paths ns off → paths_ok (paths ++ [[]]) ns off.
Proof.
  intros [H1 H2 H3 H4 H5].
  assert (∀ s path o x, (paths ++ [[]]) !! s = Some path → path !! o = Some x → paths !! s = Some path) as Hp.
  { intros s path o x [[? Hs]|[_ <-]]%lookup_snoc_Some Ho; [done|]. by rewrite lookup_nil in Ho. }
  split; [done..| | |].
  - intros x s. rewrite H3. split; intros (path & o & Hs & Ho); exists path, o; (split; [|done]).
    + apply lookup_app_l_Some. done.
    + by eapply Hp.
  - intros s path o x Hs Ho. eapply H4; [by eapply Hp|done].
  - intros s path o x y Hs Ho Ho'. eapply H5; [by eapply Hp|done..].
Qed.

(** What the queries rely on. *)
Record segments_ok (segs : list Segment) (ns : list (option nat)) (off : list nat) : Prop := {
  sg_node x : x < n → ∃ s o tl, ns !! x = Some (Some s) ∧ off !! x = Some o ∧ segs !! s = Some (mkSegment tl);
  sg_tail s tl : segs !! s = Some (mkSegment tl) → tl < n ∧ ns !! tl = Some (Some s);
  sg_next x s o tl : ns !! x = Some (Some s) → off !! x = Some o → segs !! s = Some (mkSegment tl) →
    x = tl ∨ ∃ y, kids ch x = [y] ∧ ns !! y = Some (Some s) ∧ off !! y = Some (S o);
  sg_chain x y s o o' : ns !! x = Some (Some s) → ns !! y = Some (Some s) →
    off !! x = Some o → off !! y = Some o' → o ≤ o' → fwd ch x y;
  sg_end x s o tl o' : ns !! x = Some (Some s) → segs !! s = Some (mkSegment tl) →
    off !! x = Some o → off !! tl = Some o' → o ≤ o'
}.

Lemma paths_chain paths ns off s path o o' x y :
  paths_ok paths ns off → paths !! s = Some path → path !! o = Some x → path !! o' = Some y →
  o ≤ o' → fwd ch x y.
Proof.
  intros Hok Hs Hx Hy Hle. revert y Hy. induction Hle as [|o' Hle IH]; intros y Hy.
  { rewrite Hx in Hy. simplify_eq. apply rtc_refl. }
  destruct (lookup_lt_is_Some_2 path o') as [z Hz]; [apply lookup_lt_Some in Hy; lia|].
  eapply rtc_r; [by apply IH|]. unfold kid.
  by rewrite (kids_lookup _ _ _ (pa_link _ _ _ Hok s path o' z y Hs Hz Hy)), list_elem_of_singleton.
Qed.

Lemma paths_segments paths segs ns off :
  paths_ok paths ns off → length segs = length paths →
  (∀ s path, paths !! s = Some path → ∃ tl, last path = Some tl ∧ segs !! s = Some (mkSegment tl)) →
  (∀ x, x < n → is_Some (ns !! x ≫= id)) →
  segments_ok segs ns off.
Proof.
  intros Hok Hlen Hseg Hall.
  assert (∀ x s, ns !! x = Some (Some s) → ∃ path o tl, paths !! s = Some path ∧ path !! o = Some x
    ∧ off !! x = Some o ∧ last path = Some tl ∧ segs !! s = Some (mkSegment tl)) as Hn.
  { intros x s (path & o & Hs & Ho)%(pa_node _ _ _ Hok). destruct (Hseg _ _ Hs) as (tl & ? & ?).
    exists path, o, tl. split_and!; [done..| |done|done]. by eapply pa_offset. }
  split.
  - intros x Hx. destruct (Hall x Hx) as [s Hs]. destruct (ns !! x) as [[s'|]|] eqn:E; try done.
    simpl in Hs. simplify_eq. destruct (Hn _ _ E) as (path & o & tl & ?). exists s, o, tl. naive_solver.
  - intros s tl Hs. apply lookup_lt_Some in Hs as Hlt. rewrite Hlen in Hlt.
    apply lookup_lt_is_Some in Hlt as [path Hp]. destruct (Hseg _ _ Hp) as (tl' & Hl & Hs').
    rewrite Hs in Hs'. simplify_eq. rewrite last_lookup in Hl.
    assert (ns !! tl' = Some (Some s)) as Htl by (apply (pa_node _ _ _ Hok); eauto).
    split; [|done]. rewrite <-(pa_ns _ _ _ Hok). by eapply lookup_lt_Some.
  - intros x s o tl (path & o' & tl' & Hp & Hx & Ho' & Hl & Htl)%Hn Ho Hs.
    rewrite Ho in Ho'. injection Ho' as <-. rewrite Hs in Htl. injection Htl as <-.
    destruct (decide (S o = length path)) as [Hlast|Hne].
    { left. rewrite last_lookup, <-Hlast in Hl. simpl in Hl. congruence. }
    right. destruct (lookup_lt_is_Some_2 path (S o)) as [y Hy]; [apply lookup_lt_Some in Hx; lia|].
    exists y. split_and!.
    + apply kids_lookup. by eapply pa_link.
    + apply (pa_node _ _ _ Hok). eauto.
    + by eapply pa_offset.
  - intros x y s o o' (path & i & tl & Hp & Hx & Ho & _)%Hn (path' & j & tl' & Hp' & Hy & Ho' & _)%Hn ? ? Hle.
    simplify_eq. by eapply paths_chain.
  - intros x s o tl o' (path & i & tl' & Hp & Hx & Ho & Hl & Hs)%Hn Hs' ? Ho'. simplify_eq.
    rewrite last_lookup in Hl. rewrite (pa_offset _ _ _ Hok _ _ _ _ Hp Hl) in Ho'. simplify_eq.
    apply lookup_lt_Some in Hx. lia.
Qed.

Lemma build_segments_spec :
  ∃ segs ns off stats, build_segments ch deg = Some (segs, ns, off, stats) ∧ segments_ok segs ns off.
Proof.
  unfold build_segments.
  destruct (try_fold_up (segment_node ch deg) (λ k st, ∃ paths,
      paths_ok paths (ss_node_segment st) (ss_node_segment_offset st)
    ∧ length (ss_segments st) = length paths
    ∧ (∀ s path, paths !! s = Some path → ∃ tl, last path = Some tl ∧ ss_segments st !! s = Some (mkSegment tl))
    ∧ (∀ x, x < k → is_Some (ss_node_segment st !! x ≫= id))) n
    (mkSegmentState [] (replicate n None) (replicate n 0) 0 0 0))
    as (st & Hr & paths & Hok & Hlen & Hseg & Hall).
  - intros k st Hk (paths & Hok & Hlen & Hseg & Hall). unfold segment_node.
    destruct (lookup_lt_is_Some_2 (ss_node_segment st) k) as [o Ho].
    { by rewrite (pa_ns _ _ _ Hok). }
    rewrite Ho. simpl. destruct o as [s|].
    { eexists. split; [done|]. exists paths. split_and!; [done..|]. intros x Hx.
      destruct (decide (x = k)) as [->|]; [rewrite Ho; by eexists|apply Hall; lia]. }
    destruct (walk_segment_spec n paths [] (ss_node_segment st) (ss_node_segment_offset st) k)
      as (tl & p & ns & off & Hw & Hok' & Hl & Hm & Hk').
    { by apply paths_app_nil. } { done. } { done. }
    { unfold unassigned. rewrite length_filter. by rewrite (pa_ns _ _ _ Hok). }
    rewrite Hlen. simpl in Hw. rewrite Hw. simpl. eexists. split; [done|]. exists (paths ++ [p]). simpl.
    split_and!; [done|by rewrite !length_app, Hlen| |].
    + intros s path [[Hs Hp]|[-> <-]]%lookup_snoc_Some.
      * destruct (Hseg _ _ Hp) as (tl' & ? & ?). exists tl'. split; [done|]. by apply lookup_app_l_Some.
      * exists tl. split; [done|]. rewrite <-Hlen. by rewrite list_lookup_middle.
    + intros x Hx. destruct (decide (x = k)) as [->|]; [done|].
      destruct (Hall x ltac:(lia)) as [s Hs]. destruct (ss_node_segment st !! x) as [[s'|]|] eqn:E; try done.
      erewrite Hm by done. by eexists.
  - exists []. simpl. split_and!; [|done|done|lia]. split; simpl; [by rewrite length_replicate..| | |done].
    + intros x s. split; [by intros [? _]%lookup_replicate|]. intros (path & o & Hs & _). by rewrite lookup_nil in Hs.
    + intros s path o x Hs. by rewrite lookup_nil in Hs.
  - rewrite Hr. simpl. eexists _, _, _, _. split; [done|]. by eapply paths_segments.
Qed.
End segment_props.
