(* ===== verification/ReachSearch.v ===== *)
(** * The searches of the reachability index

    The queue-and-flags searches over the adjacency list: the forward closure,
    the plain, the range-pruned and the segment-jumping candidate filters, and
    the point query. *)
From stdpp Require Import prelude gmap strings sorting.
From Stdlib Require String.
From S2P Require Import Prelude Dense EventTypes Json Events JsonContent Auth Samples Sorting Kahn Reachability ReachTopo ReachSegments.

Global Instance nat_cmp_total : TotalCmp Nat.compare.
Proof.
  split; [apply Nat.compare_eq_iff | intros; apply Nat.compare_antisym |].
  intros x y z. rewrite !Nat.compare_lt_iff. lia.
Qed.

(** ** Flags and queue *)

Definition up (flags : list bool) (i : nat) : Prop := flags !! i = Some true.

Lemma up_set flags i j : i < length flags → up (<[i := true]> flags) j ↔ i = j ∨ up flags j.
Proof.
  intros Hi. unfold up. destruct (decide (i = j)) as [->|Hne].
  - rewrite list_lookup_insert_eq by done. naive_solver.
  - rewrite list_lookup_insert_ne by done. naive_solver.
Qed.

Lemma up_replicate k i : ¬ up (replicate k false) i.
Proof. unfold up. intros [? _]%lookup_replicate. done. Qed.

(** What a run over children does to the flags: [new] are the newly flagged. *)
Record flagged (flags flags' : list bool) (new : list nat) : Prop := {
  fl_length : length flags' = length flags;
  fl_nodup : NoDup new;
  fl_new i : i ∈ new → ¬ up flags i;
  fl_up i : up flags' i ↔ up flags i ∨ i ∈ new;
  fl_unset : unset flags' + length new = unset flags
}.

Lemma flagged_cons flags flags' c new :
  c < length flags → flags !! c = Some false → flagged (<[c := true]> flags) flags' new →
  flagged flags flags' (c :: new).
Proof.
  intros Hc Hv [H1 H2 H3 H4 H5]. rewrite length_insert in H1. split; [done| | | |].
  - apply NoDup_cons. split; [|done]. intros Hcn. apply (H3 c Hcn), up_set; [done|by left].
  - intros i [->|Hi]%elem_of_cons Hu; [unfold up in Hu; congruence|].
    apply (H3 i Hi), up_set; [done|by right].
  - intros i. rewrite H4, up_set, elem_of_cons by done. naive_solver.
  - simpl. pose proof (unset_set flags c Hv). lia.
Qed.

Lemma enqueue_spec keep cs flags q0 :
  (∀ c, c ∈ cs → c < length flags ∧ is_Some (keep c)) →
  ∃ flags' new, try_fold (enqueue_child keep) cs (flags, q0) = Some (flags', q0 ++ new)
    ∧ flagged flags flags' new
    ∧ (∀ c, c ∈ new → c ∈ cs)
    ∧ (∀ c, c ∈ cs → up flags' c ∨ keep c = Some false).
Proof.
  revert flags q0. induction cs as [|c cs IH]; intros flags q0 Hcs; simpl.
  { exists flags, []. rewrite app_nil_r. split_and!; [done| |set_solver..].
    split; [done|constructor|set_solver|set_solver|simpl; lia]. }
  destruct (Hcs c) as [Hc [b Hb]]; [set_solver|].
  destruct (lookup_lt_is_Some_2 flags c Hc) as [v Hv].
  unfold enqueue_child at 1. simpl. rewrite Hv. simpl. destruct v.
  { destruct (IH flags q0) as (f' & new & -> & Hf & Hn & Hk); [set_solver|].
    exists f', new. split_and!; [done..|set_solver|]. intros c' [->|?]%elem_of_cons; [|by apply Hk].
    left. apply (fl_up _ _ _ Hf). by left. }
  rewrite Hb. simpl. destruct b.
  - rewrite vec_set_lt by done. simpl.
    destruct (IH (<[c := true]> flags) (q0 ++ [c])) as (f' & new & -> & Hf & Hn & Hk).
    { intros c' Hc'. rewrite length_insert. apply Hcs. set_solver. }
    exists f', (c :: new). rewrite <-(assoc_L (++)). simpl. split_and!; [done| |set_solver|].
    + by eapply flagged_cons.
    + intros c' [->|?]%elem_of_cons; [|by apply Hk]. left. apply (fl_up _ _ _ Hf).
      left. apply up_set; [done|by left].
  - destruct (IH flags q0) as (f' & new & -> & Hf & Hn & Hk); [set_solver|].
    exists f', new. split_and!; [done..|set_solver|]. intros c' [->|?]%elem_of_cons; [by right|by apply Hk].
Qed.

(** Positions kept by a scan over an enumerated list come out ascending. *)
Lemma omap_imap_sorted {A} (f : nat * A → option nat) (l : list A) :
  (∀ ix p, f ix = Some p → ix.1 = p) → StronglySorted lt (omap f (imap pair l)).
Proof.
  intros Hf. induction l as [|x l IH] using rev_ind; [constructor|].
  rewrite imap_app, omap_app. simpl. rewrite Nat.add_0_r.
  destruct (f (length l, x)) as [p|] eqn:E; [|by rewrite app_nil_r].
  apply Hf in E as <-. apply StronglySorted_app. split_and!; [|done|repeat constructor].
  intros y z (c & (j & a & -> & Hj)%elem_of_lookup_imap & Hc)%list_elem_of_omap ->%list_elem_of_singleton.
  apply Hf in Hc as <-. simpl. by apply lookup_lt_Some in Hj.
Qed.

Lemma sorted_lt_NoDup (l : list nat) : StronglySorted lt l → NoDup l.
Proof.
  induction 1 as [|x k _ IH Hall]; [constructor|]. apply NoDup_cons. split; [|done].
  rewrite Forall_forall in Hall. intros Hx. apply Hall in Hx. lia.
Qed.

(** Ascending lists are determined by their elements. *)
Lemma sorted_lt_ext (l l' : list nat) :
  StronglySorted lt l → StronglySorted lt l' → (∀ p, p ∈ l ↔ p ∈ l') → l = l'.
Proof.
  intros Hl Hl' Hin. apply (StronglySorted_unique_strong lt); [lia|done..|].
  apply NoDup_Permutation; auto using sorted_lt_NoDup.
Qed.

(** Looking up every index of a list. *)
Lemma lookup_all {A} (l : list A) v :
  (∀ i, i ∈ v → i < length l) →
  ∃ xs, mapM (λ i, l !! i) v = Some xs ∧ (∀ x, x ∈ xs ↔ ∃ i, i ∈ v ∧ l !! i = Some x)
    ∧ (NoDup l → NoDup v → NoDup xs).
Proof.
  induction v as [|i v IH]; intros Hv; simpl.
  { exists []. split_and!; [done|set_solver|constructor]. }
  destruct (lookup_lt_is_Some_2 l i) as [x Hx]; [apply Hv; set_solver|].
  destruct IH as (xs & -> & Hxs & Hnd); [set_solver|]. rewrite Hx. simpl.
  exists (x :: xs). split_and!; [done| |].
  - intros y. rewrite elem_of_cons, Hxs. split.
    + intros [->|(j & ? & ?)]; [exists i|exists j]; set_solver.
    + intros (j & [->|?]%elem_of_cons & ?); [left; congruence|right; eauto].
  - intros Hl [Hi Hnv]%NoDup_cons. apply NoDup_cons. split; [|by apply Hnd].
    intros (j & Hj & Hjx)%Hxs. apply Hi. by rewrite (NoDup_lookup l i j x Hl Hx Hjx).
Qed.

Section search.
Context {Id : Type} `{EventId Id} (self : RangePrefilterReachability Id).
Abbreviation ch := (children_by_index self).
Abbreviation n := (length ch).
Hypothesis Hrange : ∀ i j, kid ch i j → j < n.
Hypothesis Hitems : length (items (index self)) = n.
Hypothesis Hdense : dense_ok Idx_u32 (index self).

(** The nodes of the seeds, and the nodes reachable from them. *)
Definition seed_node (seeds : list Id) (i : nat) : Prop :=
  ∃ s, s ∈ seeds ∧ index_of (index self) s = Some i.
Definition target (seeds : list Id) (i : nat) : Prop := ∃ s, seed_node seeds s ∧ fwd ch s i.

Lemma index_of_lt s i : index_of (index self) s = Some i → i < n.
Proof. intros Hi%(dense_index _ _ Hdense)%lookup_lt_Some. lia. Qed.

Lemma seed_target seeds i : seed_node seeds i → target seeds i.
Proof. exists i. split; [done|apply rtc_refl]. Qed.

Lemma target_kid seeds i j : target seeds i → kid ch i j → target seeds j.
Proof. intros (s & ? & ?) ?. exists s. split; [done|]. by eapply rtc_r. Qed.

(** The invariant of a search: queued nodes are flagged, and flagged nodes
    are reachable. *)
Record search_inv (seeds : list Id) (flags : list bool) (q : list nat) : Prop := {
  si_length : length flags = n;
  si_queue i : i ∈ q → up flags i;
  si_nodup : NoDup q;
  si_seed i : seed_node seeds i → up flags i;
  si_sound i : up flags i → target seeds i
}.

Lemma seed_queue_spec seeds :
  ∃ flags q, seed_queue self seeds (replicate n false) = Some (flags, q)
    ∧ search_inv seeds flags q ∧ (∀ i, up flags i → i ∈ q) ∧ unset flags + length q = n.
Proof.
  unfold seed_queue.
  destruct (try_fold_spec (seed_one self) (λ l1 st, length st.1 = n ∧ NoDup st.2
    ∧ (∀ i, up st.1 i ↔ i ∈ st.2) ∧ (∀ i, i ∈ st.2 ↔ seed_node l1 i)
    ∧ unset st.1 + length st.2 = n) seeds (replicate n false, []))
    as ([flags q] & -> & H1 & H2 & H3 & H4 & H5).
  - intros l1 s l2 [flags q] _ (H1 & H2 & H3 & H4 & H5). simpl in *. unfold seed_one.
    assert (∀ i, seed_node (l1 ++ [s]) i ↔ seed_node l1 i ∨ index_of (index self) s = Some i) as Hs.
    { intros i. unfold seed_node. split.
      - intros (s' & [?| ->%list_elem_of_singleton]%elem_of_app & ?); [left; eauto|by right].
      - intros [(s' & ? & ?)|?]; [exists s'|exists s]; set_solver. }
    destruct (index_of (index self) s) as [i|] eqn:Ei.
    + destruct (enqueue_spec (λ _, Some true) [i] flags q) as (f' & new & Hr & [G1 G2 G3 G4 G5] & G6 & G7).
      { intros c ->%list_elem_of_singleton. split; [rewrite H1; by eapply index_of_lt|by eexists]. }
      simpl in Hr. destruct (enqueue_child _ _ _) as [st|]; [|done]. simplify_eq.
      eexists. split; [done|]. simpl.
      assert (∀ j, j ∈ q ++ new ↔ j ∈ q ∨ j = i) as Hq.
      { intros j. rewrite elem_of_app. split; [set_solver|]. intros [?| ->]; [by left|].
        destruct (G7 i ltac:(set_solver)) as [Hu|]; [|done]. apply G4 in Hu as [Hu|]; [left; by apply H3|by right]. }
      split_and!; [lia| | | |rewrite length_app; lia].
      * apply NoDup_app. split_and!; [done| |done]. intros j Hj Hn. apply (G3 j Hn). by apply H3.
      * intros j. by rewrite G4, H3, elem_of_app.
      * intros j. rewrite Hq, Hs, H4. naive_solver.
    + eexists. split; [done|]. simpl. split_and!; [done..| |done]. intros j. rewrite Hs, H4. naive_solver.
  - simpl. rewrite length_replicate. split_and!; [done|constructor| | |].
    + intros i. split; [by intros ?%up_replicate|set_solver].
    + intros i. unfold seed_node. set_solver.
    + unfold unset. assert (∀ k, length (filter (λ b, b = false) (replicate k false)) = k) as ->; [|lia].
      induction k; simpl; [done|]. congruence.
  - simpl in *. exists flags, q. split_and!; [done| |by apply H3|done]. split; [done| |done| |].
    + intros i. by rewrite H3.
    + intros i Hi. by apply H3, H4.
    + intros i Hi. by apply seed_target, H4, H3.
Qed.

(** Pushing the newly flagged children of a popped node. *)
Lemma search_push seeds flags q curr flags' new :
  search_inv seeds flags (curr :: q) → flagged flags flags' new →
  (∀ c, c ∈ new → target seeds c) →
  search_inv seeds flags' (q ++ new).
Proof.
  intros [H1 H2 H3 H4 H5] [G1 G2 G3 G4 G5] Hk. apply NoDup_cons in H3 as [_ H3]. split.
  - lia.
  - intros i [Hi|Hi]%elem_of_app; apply G4; [left; apply H2; set_solver|by right].
  - apply NoDup_app. split_and!; [done| |done]. intros i Hi Hn. apply (G3 i Hn), H2. set_solver.
  - intros i Hi. apply G4. left. by apply H4.
  - intros i [Hi|Hi]%G4; [by apply H5|]. by apply Hk.
Qed.

Lemma search_pop seeds flags curr q : search_inv seeds flags (curr :: q) → search_inv seeds flags q.
Proof.
  intros [H1 H2 H3 H4 H5]. apply NoDup_cons in H3 as [_ H3]. split; try done. intros i Hi. apply H2. set_solver.
Qed.

Lemma search_curr seeds flags curr q : search_inv seeds flags (curr :: q) → target seeds curr ∧ curr < n.
Proof.
  intros [H1 H2 H3 H4 H5]. assert (up flags curr) as Hu by (apply H2; set_solver). split; [by apply H5|].
  rewrite <-H1. by eapply lookup_lt_Some.
Qed.

Lemma up_pop seeds flags curr q i :
  search_inv seeds flags (curr :: q) → (up flags i ∧ i ∉ q ↔ (up flags i ∧ i ∉ curr :: q) ∨ i = curr).
Proof.
  intros [H1 H2 H3 H4 H5]. apply NoDup_cons in H3 as [Hn _]. rewrite not_elem_of_cons.
  destruct (decide (i = curr)) as [->|]; [|naive_solver]. split; [by right|]. intros _.
  split; [apply H2; set_solver|done].
Qed.

(** The nodes flagged and out of the queue, after a push. *)
Lemma up_push flags flags' q new i :
  flagged flags flags' new → (∀ i, i ∈ q → up flags i) →
  (up flags' i ∧ i ∉ q ++ new ↔ up flags i ∧ i ∉ q).
Proof. intros [G1 G2 G3 G4 G5] Hq. rewrite G4, not_elem_of_app. naive_solver. Qed.

(** ** The forward closure *)

Lemma unvisited_spec seeds flags q curr :
  search_inv seeds flags (curr :: q) →
  ∃ flags' new, enqueue_unvisited_children self curr flags = Some (flags', new)
    ∧ flagged flags flags' new ∧ search_inv seeds flags' (q ++ new)
    ∧ (∀ c, kid ch curr c → up flags' c).
Proof.
  intros Hinv. destruct (search_curr _ _ _ _ Hinv) as [Ht Hlt].
  unfold enqueue_unvisited_children. rewrite lookup_kids by done. simpl.
  destruct (enqueue_spec (λ _, Some true) (kids ch curr) flags []) as (f' & new & -> & Hf & Hn & Hk).
  { intros c Hc. rewrite (si_length _ _ _ Hinv). split; [by eapply Hrange|by eexists]. }
  exists f', new. split_and!; [done..| |].
  - eapply search_push; [done..|]. intros c Hc. eapply target_kid; [done|]. by apply Hn.
  - intros c Hc. destruct (Hk c Hc); done.
Qed.

(** Nodes reached are flagged, when the flagged set is closed. *)
Lemma closed_targets seeds (P : nat → Prop) i :
  (∀ s, seed_node seeds s → P s) → (∀ x c, P x → kid ch x c → P c) → target seeds i → P i.
Proof.
  intros Hs Hc (s & Hseed & Hf). specialize (Hs s Hseed). clear Hseed.
  induction Hf as [|x y z Hxy _ IH]; [done|]. apply IH. by eapply Hc.
Qed.

Lemma target_lt seeds i : target seeds i → i < n.
Proof.
  apply (closed_targets seeds (λ i, i < n)); [|by intros; eapply Hrange]. intros s (x & _ & Hx). by eapply index_of_lt.
Qed.

Lemma forward_loop seeds flags q :
  search_inv seeds flags q → (∀ i, up flags i → i ∈ q) → unset flags + length q = n →
  ∃ flags' visited, try_drain (forward_step self) n q (flags, []) = Some (flags', visited)
    ∧ NoDup visited ∧ ∀ i, i ∈ visited ↔ target seeds i.
Proof.
  intros Hinv Hq Hm.
  destruct (try_drain_spec (forward_step self)
    (λ q st, search_inv seeds st.1 q ∧ NoDup st.2 ∧ (∀ i, i ∈ st.2 ↔ up st.1 i ∧ i ∉ q)
       ∧ (∀ x c, x ∈ st.2 → kid ch x c → up st.1 c))
    (λ st, NoDup st.2 ∧ ∀ i, i ∈ st.2 ↔ target seeds i)
    (λ q st, unset st.1 + length q) n q (flags, [])) as ([f v] & -> & Hn & Hv); [..|by exists f, v].
  - intros curr q' [f v] (Hs & Hnd & Hv & Hcl). simpl in *. unfold forward_step. simpl.
    destruct (unvisited_spec seeds f q' curr Hs) as (f' & new & -> & Hf & Hs' & Hk). simpl.
    eexists. split; [done|]. simpl. pose proof (fl_unset _ _ _ Hf). rewrite length_app. split; [lia|].
    pose proof (si_nodup _ _ _ Hs) as [Hcq _]%NoDup_cons.
    split; [|lia]. split_and!; [done| | |].
    + apply NoDup_app. split_and!; [done| |apply NoDup_singleton]. intros x [_ Hx]%Hv. set_solver.
    + intros i. rewrite (up_push _ _ _ _ _ Hf) by (intros; apply (si_queue _ _ _ Hs); set_solver).
      rewrite (up_pop _ _ _ _ _ Hs), elem_of_app, Hv, list_elem_of_singleton. done.
    + intros x c [Hx| ->%list_elem_of_singleton]%elem_of_app Hxc; [|by apply Hk].
      apply (fl_up _ _ _ Hf). left. by eapply Hcl.
  - intros [f v] (Hs & Hnd & Hv & Hcl). simpl in *. split; [done|]. intros i. split.
    + intros [Hi _]%Hv. by eapply si_sound.
    + apply (closed_targets seeds (λ i, i ∈ v)).
      * intros s Hseed. apply Hv. split; [by eapply si_seed|set_solver].
      * intros x c Hx Hxc. apply Hv. split; [by eapply Hcl|set_solver].
  - simpl. split_and!; [done|constructor| |set_solver]. intros i. split; [set_solver|]. intros [? ?]. naive_solver.
  - simpl. lia.
Qed.

Lemma forward_reachable_ids_spec seeds :
  ∃ ids, forward_reachable_ids self seeds = Some ids ∧ NoDup ids
    ∧ ∀ x, x ∈ ids ↔ ∃ i, items (index self) !! i = Some x ∧ target seeds i.
Proof.
  unfold forward_reachable_ids. destruct (seed_queue_spec seeds) as (flags & q & -> & Hinv & Hq & Hm). simpl.
  destruct (forward_loop seeds flags q Hinv Hq Hm) as (f' & v & -> & Hnd & Hv). simpl.
  destruct (lookup_all (items (index self)) v) as (ids & -> & Hids & Hni).
  { intros i Hi%Hv%target_lt. lia. }
  exists ids. split_and!; [done|apply Hni; [apply Hdense|done]|]. intros x. rewrite Hids.
  split; intros (i & Hi1 & Hi2); exists i; split; try done; by apply Hv.
Qed.

(** ** Candidate queries *)

(** The positions of the candidates the index knows. *)
Definition known_positions (candidates : list Id) : list nat :=
  omap (λ ic, if bool_decide (is_Some (index_of (index self) ic.2)) then Some ic.1 else None)
    (imap pair candidates).

Lemma known_positions_snoc cs x :
  known_positions (cs ++ [x]) = known_positions cs ++
    (if bool_decide (is_Some (index_of (index self) x)) then [length cs] else []).
Proof.
  unfold known_positions. rewrite imap_app, omap_app. f_equal. simpl. rewrite Nat.add_0_r.
  by case_bool_decide.
Qed.

Lemma elem_of_known_positions cs p :
  p ∈ known_positions cs ↔ ∃ x i, cs !! p = Some x ∧ index_of (index self) x = Some i.
Proof.
  unfold known_positions. rewrite list_elem_of_omap. split.
  - intros ([p' x] & Hin & Hp). simpl in Hp. case_bool_decide as Hx; [|done]. destruct Hx as [i Hi].
    simplify_eq. apply elem_of_lookup_imap in Hin as (j & y & [= -> ->] & Hj). eauto.
  - intros (x & i & Hx & Hi). exists (p, x). split.
    + apply elem_of_lookup_imap. eauto.
    + simpl. rewrite bool_decide_eq_true_2; [done|by eexists].
Qed.

Lemma NoDup_known_positions cs : NoDup (known_positions cs).
Proof.
  induction cs as [|x cs IH] using rev_ind; [constructor|]. rewrite known_positions_snoc.
  apply NoDup_app. split_and!; [done| |case_bool_decide; [apply NoDup_singleton|constructor]].
  intros p (y & i & Hp & _)%elem_of_known_positions. apply lookup_lt_Some in Hp.
  case_bool_decide; [intros ->%list_elem_of_singleton; lia|set_solver].
Qed.

Record query_ok (cs : list Id) (q : CandidateQuery) : Prop := {
  qo_count : candidate_count q = length cs;
  qo_known : known_candidate_position_count q = length (known_positions cs);
  qo_length : length (candidate_positions q) = n;
  qo_position i p : p ∈ CandidateQuery.positions_at q i ↔
    ∃ x, cs !! p = Some x ∧ index_of (index self) x = Some i;
  qo_empty i ps : candidate_positions q !! i = Some ps →
    CandidatePositions.is_empty ps = true ↔ CandidatePositions.iter ps = []
}.

Lemma iter_push ps p : CandidatePositions.iter (CandidatePositions.push ps p) = CandidatePositions.iter ps ++ [p].
Proof. by destruct ps. Qed.

Lemma is_empty_push ps p : CandidatePositions.is_empty (CandidatePositions.push ps p) = false.
Proof. by destruct ps. Qed.

Lemma collect_candidates_spec cs : ∃ q, collect_candidates self cs = Some q ∧ query_ok cs q.
Proof.
  unfold collect_candidates. induction cs as [|x cs (q & Hq & [H1 H2 H3 H4 H5])] using rev_ind; simpl.
  { eexists. split; [done|]. split; simpl; [done..|by rewrite length_replicate| |].
    - intros i p. unfold CandidateQuery.positions_at. simpl.
      destruct (replicate n PosNone !! i) as [ps|] eqn:E; [apply lookup_replicate in E as [-> _]|]; set_solver.
    - by intros i ps [-> _]%lookup_replicate. }
  rewrite imap_app, try_fold_app, Hq. simpl. rewrite Nat.add_0_r. unfold collect_candidate. simpl.
  assert (∀ p y, (cs ++ [x]) !! p = Some y ↔ cs !! p = Some y ∨ p = length cs ∧ y = x) as Hl.
  { intros p y. rewrite lookup_snoc_Some. split; [naive_solver|]. intros [Hp|[-> ->]]; [left|naive_solver].
    split; [by eapply lookup_lt_Some|done]. }
  destruct (index_of (index self) x) as [i|] eqn:Ei.
  - destruct (lookup_lt_is_Some_2 (candidate_positions q) i) as [ps Hps].
    { rewrite H3. by eapply index_of_lt. }
    rewrite Hps. simpl. rewrite vec_set_lt by (by eapply lookup_lt_Some). simpl. eexists. split; [done|].
    split; simpl.
    + rewrite length_app. simpl. lia.
    + rewrite known_positions_snoc, bool_decide_eq_true_2, length_app by (rewrite Ei; by eexists). simpl. lia.
    + by rewrite length_insert.
    + intros j p. setoid_rewrite Hl. unfold CandidateQuery.positions_at in *. simpl.
      destruct (decide (i = j)) as [<-|Hne].
      * rewrite list_lookup_insert_eq by (by eapply lookup_lt_Some). specialize (H4 i p). rewrite Hps in H4.
        rewrite iter_push, elem_of_app, H4, list_elem_of_singleton. naive_solver.
      * rewrite list_lookup_insert_ne by done. rewrite H4. naive_solver.
    + intros j ps'. destruct (decide (i = j)) as [<-|Hne].
      * rewrite list_lookup_insert_eq by (by eapply lookup_lt_Some). intros [= <-].
        rewrite is_empty_push, iter_push. split; [done|]. by intros [_ ?]%app_nil.
      * rewrite list_lookup_insert_ne by done. apply H5.
  - eexists. split; [done|]. split; simpl; try done.
    + rewrite length_app. simpl. lia.
    + rewrite known_positions_snoc, bool_decide_eq_false_2, app_nil_r by (rewrite Ei; by intros [??]). done.
    + intros j p. setoid_rewrite Hl. unfold CandidateQuery.positions_at in *. simpl. rewrite H4. naive_solver.
Qed.

Lemma elem_of_remaining_candidate_set cs q i :
  query_ok cs q → i ∈ CandidateQuery.remaining_candidate_set q ↔ CandidateQuery.positions_at q i ≠ [].
Proof.
  intros Hq. unfold CandidateQuery.remaining_candidate_set, CandidateQuery.positions_at.
  rewrite elem_of_list_to_set, list_elem_of_omap. split.
  - intros ([j ps] & (j' & ps' & [= -> ->] & Hj)%elem_of_lookup_imap & He). simpl in He.
    destruct (CandidatePositions.is_empty ps') eqn:E; simplify_eq. rewrite Hj.
    intros Hn. apply (qo_empty _ _ Hq _ _ Hj) in Hn. congruence.
  - destruct (candidate_positions q !! i) as [ps|] eqn:E; [|done]. intros Hn. exists (i, ps).
    split; [apply elem_of_lookup_imap; eauto|]. simpl. destruct (CandidatePositions.is_empty ps) eqn:Ee; [|done].
    apply (qo_empty _ _ Hq _ _ E) in Ee. done.
Qed.

(** ** Marking positions *)

Definition unmarked (results : list bool) (known : list nat) : nat :=
  length (filter (λ p, results !! p = Some false) known).

Lemma unmarked_set res K p :
  NoDup K → p ∈ K → res !! p = Some false → unmarked (<[p := true]> res) K = unmarked res K - 1
    ∧ 0 < unmarked res K.
Proof.
  intros Hnd Hp Hf. unfold unmarked. apply lookup_lt_Some in Hf as Hlt.
  assert (∀ K : list nat, p ∉ K → filter (λ p0, <[p:=true]> res !! p0 = Some false) K
    = filter (λ p0, res !! p0 = Some false) K) as Hni.
  { intros K' Hn. apply filter_ext_in. intros x Hx. rewrite list_lookup_insert_ne by (intros ->; done). done. }
  induction K as [|x K IH]; [set_solver|]. apply NoDup_cons in Hnd as [Hx Hnd]. rewrite !filter_cons.
  destruct (decide (x = p)) as [->|Hne].
  - rewrite list_lookup_insert_eq, decide_False, decide_True by done. rewrite Hni by done. simpl. lia.
  - rewrite list_lookup_insert_ne by done. destruct IH as [H1 H2]; [done|set_solver|].
    destruct (decide (res !! x = Some false)); simpl; lia.
Qed.

Lemma mark_spec ps res K :
  NoDup K → (∀ p, p ∈ ps → p ∈ K ∧ p < length res) →
  ∃ res', try_fold mark_position ps (res, unmarked res K) = Some (res', unmarked res' K)
    ∧ length res' = length res ∧ ∀ p, up res' p ↔ up res p ∨ p ∈ ps.
Proof.
  intros HK. revert res. induction ps as [|p ps IH]; intros res Hps; simpl.
  { exists res. set_solver. }
  destruct (Hps p) as [HpK Hlt]; [set_solver|]. unfold mark_position at 1. simpl.
  destruct (lookup_lt_is_Some_2 res p Hlt) as [b Hb]. rewrite Hb. simpl. destruct b.
  - destruct (IH res) as (res' & -> & Hl & Hu); [set_solver|]. exists res'. split_and!; [done..|].
    intros p'. rewrite Hu, elem_of_cons. unfold up. naive_solver.
  - rewrite vec_set_lt by done. simpl. destruct (unmarked_set res K p HK HpK Hb) as [<- _].
    destruct (IH (<[p := true]> res)) as (res' & -> & Hl & Hu).
    { intros p' Hp'. rewrite length_insert. apply Hps. set_solver. }
    rewrite length_insert in Hl. exists res'. split_and!; [done..|]. intros p'.
    rewrite Hu, up_set, elem_of_cons by done. naive_solver.
Qed.

Lemma unmarked_0 res K p : unmarked res K = 0 → p ∈ K → p < length res → up res p.
Proof.
  unfold unmarked, up. intros Hz%length_zero_iff_nil Hp [b Hb]%lookup_lt_is_Some.
  destruct b; [done|]. exfalso. apply (not_elem_of_nil p). rewrite <-Hz. by apply list_elem_of_filter.
Qed.

Lemma unmarked_replicate k K : (∀ p, p ∈ K → p < k) → unmarked (replicate k false) K = length K.
Proof.
  intros HK. unfold unmarked. induction K as [|p K IH]; [done|]. rewrite filter_cons, decide_True.
  - simpl. rewrite IH by set_solver. done.
  - apply lookup_replicate. split; [done|]. apply HK. set_solver.
Qed.

(** The positions marked, in ascending order. *)
Lemma collect_reachable_positions_spec res :
  StronglySorted lt (collect_reachable_positions res)
  ∧ ∀ p, p ∈ collect_reachable_positions res ↔ up res p.
Proof.
  unfold collect_reachable_positions.
  assert (∀ p, p ∈ omap (λ ib : nat * bool, if ib.2 then Some ib.1 else None) (imap pair res) ↔ up res p) as Hin.
  { intros p. rewrite list_elem_of_omap. unfold up. split.
    - intros ([i b] & (j & b' & [= -> ->] & Hj)%elem_of_lookup_imap & Hb). simpl in Hb.
      destruct b'; naive_solver.
    - intros Hp. exists (p, true). split; [apply elem_of_lookup_imap; eauto|done]. }
  split; [|exact Hin]. apply omap_imap_sorted. intros [i b] p. simpl. destruct b; [by intros [= ->]|done].
Qed.

(** ** Range pruning *)

Hypothesis Hself_range : ∀ i, i < n → in_range (descendant_ranges self) i i.

Abbreviation rs := (descendant_ranges self).

Lemma range_keeps_spec rem c :
  c < n → ∃ b, range_keeps self rem c = Some b ∧ (b = false → ∀ r, r ∈ rem → ¬ in_range rs c r).
Proof.
  intros (lo & hi & Hc & Hb)%Hself_range. unfold range_keeps. rewrite Hc. simpl. unfold range_nonempty.
  destruct (Nat.ltb_spec hi lo); [lia|]. eexists. split; [done|].
  intros Hf r Hr (lo' & hi' & Hc' & Hb'). rewrite Hc in Hc'. simplify_eq.
  apply not_true_iff_false in Hf. apply Hf. apply existsb_exists. exists r. split.
  - by apply list_elem_of_In, elem_of_elements.
  - apply andb_true_iff. rewrite !Nat.leb_le. lia.
Qed.

Lemma pruned_spec parent flags rem :
  parent < n → length flags = n →
  ∃ flags' new, enqueue_range_pruned_children self parent flags rem = Some (flags', new)
    ∧ flagged flags flags' new ∧ (∀ c, c ∈ new → kid ch parent c)
    ∧ (∀ c, kid ch parent c → up flags' c ∨ ∀ r, r ∈ rem → ¬ in_range rs c r).
Proof.
  intros Hp Hl. unfold enqueue_range_pruned_children. rewrite lookup_kids by done. simpl.
  destruct (enqueue_spec (range_keeps self rem) (kids ch parent) flags []) as (f' & new & -> & Hf & Hn & Hk).
  { intros c Hc. assert (c < n) as Hlt by (by eapply Hrange).
    destruct (range_keeps_spec rem c Hlt) as (b & -> & _). split; [lia|by eexists]. }
  exists f', new. split_and!; [done..|]. intros c Hc. destruct (Hk c Hc) as [|Hkeep]; [by left|right].
  destruct (range_keeps_spec rem c) as (b & Hb & Hr); [by eapply Hrange|]. apply Hr. congruence.
Qed.

(** A search that drops only branches whose range holds no remaining
    candidate reaches every target that is still remaining. *)
Lemma coverage (Cov Rem : nat → Prop) seeds t :
  (∀ s, seed_node seeds s → Cov s) →
  (∀ x c, Cov x → kid ch x c → Cov c ∨ ∀ r, Rem r → ¬ in_range rs c r) →
  (Rem t → ∀ i, i < n → fwd ch i t → in_range rs i t) →
  Rem t ∨ Cov t → target seeds t → Cov t.
Proof.
  intros Hs Hc Hr [Ht|]; [|done]. intros (s & Hseed & Hf). specialize (Hr Ht). specialize (Hs s Hseed).
  clear Hseed. revert Ht Hr Hs. induction Hf as [|x y z Hxy Hyz IH]; intros Ht Hr Hx; [done|].
  apply IH; [done..|]. destruct (Hc x y Hx Hxy) as [|Hno]; [done|]. exfalso. apply (Hno z Ht), Hr; [by eapply Hrange|done].
Qed.

Section filter.
Context (cs : list Id) (q : CandidateQuery) (seeds : list Id).
Hypothesis Hquery : query_ok cs q.

Abbreviation K := (known_positions cs).
Abbreviation pos := (CandidateQuery.positions_at q).

(** The specification of a candidate filter. *)
Definition hit (p : nat) : Prop :=
  ∃ x i, cs !! p = Some x ∧ index_of (index self) x = Some i ∧ target seeds i.

Lemma hit_pos p : hit p ↔ ∃ i, p ∈ pos i ∧ target seeds i.
Proof. unfold hit. setoid_rewrite (qo_position _ _ Hquery). naive_solver. Qed.

Lemma pos_known i p : p ∈ pos i → p ∈ K ∧ p < length cs.
Proof.
  intros (x & Hx & Hi)%(qo_position _ _ Hquery). split; [|by eapply lookup_lt_Some].
  apply elem_of_known_positions. eauto.
Qed.

Lemma hit_known p : hit p → p ∈ K ∧ p < length cs.
Proof. rewrite hit_pos. intros (i & Hp & _). by eapply pos_known. Qed.

Lemma no_known_no_hit p : (candidate_count q =? 0) || (known_candidate_position_count q =? 0) = true → ¬ hit p.
Proof.
  rewrite orb_true_iff, !Nat.eqb_eq, (qo_count _ _ Hquery), (qo_known _ _ Hquery).
  intros [Hz|Hz] [Hk Hlt]%hit_known; [lia|]. apply length_zero_iff_nil in Hz. rewrite Hz in Hk. set_solver.
Qed.

(** The goal of every candidate search. *)
Definition marked_hits (res : list bool) : Prop := length res = length cs ∧ ∀ p, up res p ↔ hit p.

(** When no known position is left unmarked, the search may stop. *)
Lemma all_marked res (Cov : nat → Prop) :
  length res = length cs → (∀ p, up res p ↔ ∃ i, Cov i ∧ p ∈ pos i) → (∀ i, Cov i → target seeds i) →
  unmarked res K = 0 → marked_hits res.
Proof.
  intros Hl Hm Hc Hz. split; [done|]. intros p. split.
  - intros (i & Hi & Hp)%Hm. apply hit_pos. eauto.
  - intros [Hk Hlt]%hit_known. eapply unmarked_0; [done..|]. lia.
Qed.

Lemma marked_complete res (Cov : nat → Prop) :
  length res = length cs → (∀ p, up res p ↔ ∃ i, Cov i ∧ p ∈ pos i) → (∀ i, Cov i → target seeds i) →
  (∀ i, pos i ≠ [] → target seeds i → Cov i) → marked_hits res.
Proof.
  intros Hl Hm Hs Hc. split; [done|]. intros p. rewrite Hm, hit_pos. split.
  - intros (i & Hi & Hp). eauto.
  - intros (i & Hp & Hi). exists i. split; [|done]. apply Hc; [|done]. intros E. rewrite E in Hp. set_solver.
Qed.

(** *** The plain and the range-pruned search *)

Section visits.
Context (mode : TraversalMode).
Hypothesis Hranges : is_range_pruned mode = true → ∀ i j, i < n → fwd ch i j → in_range rs i j.

Definition done_node (flags : list bool) (qu : list nat) (i : nat) : Prop := up flags i ∧ i ∉ qu.

Record visit_inv (qu : list nat) (st : TraversalState) : Prop := {
  vi_search : search_inv seeds (reachable st) qu;
  vi_length : length (results st) = length cs;
  vi_known : remaining_known st = unmarked (results st) K;
  vi_marks p : up (results st) p ↔ ∃ i, done_node (reachable st) qu i ∧ p ∈ pos i;
  vi_remaining i : is_range_pruned mode = true → pos i ≠ [] →
    i ∈ remaining_candidates st ∨ done_node (reachable st) qu i;
  vi_closed x c : done_node (reachable st) qu x → kid ch x c → up (reachable st) c
    ∨ is_range_pruned mode = true ∧ ∀ r, r ∈ remaining_candidates st → ¬ in_range rs c r
}.

Lemma visit_enqueue curr flags rem :
  curr < n → length flags = n →
  ∃ flags' new, (if is_range_pruned mode then enqueue_range_pruned_children self curr flags rem
       else enqueue_unvisited_children self curr flags) = Some (flags', new)
    ∧ flagged flags flags' new ∧ (∀ c, c ∈ new → kid ch curr c)
    ∧ (∀ c, kid ch curr c → up flags' c
         ∨ is_range_pruned mode = true ∧ ∀ r, r ∈ rem → ¬ in_range rs c r).
Proof.
  intros Hc Hl. destruct (is_range_pruned mode).
  - destruct (pruned_spec curr flags rem Hc Hl) as (f & new & ? & ? & ? & Hk). exists f, new.
    split_and!; [done..|]. intros c Hcc. destruct (Hk c Hcc); [by left|by right].
  - unfold enqueue_unvisited_children. rewrite lookup_kids by done. simpl.
    destruct (enqueue_spec (λ _, Some true) (kids ch curr) flags []) as (f & new & -> & Hf & Hn & Hk).
    { intros c Hcc. rewrite Hl. split; [by eapply Hrange|by eexists]. }
    exists f, new. split_and!; [done..|]. intros c Hcc. left. by destruct (Hk c Hcc).
Qed.

Lemma visit_step curr qu st :
  visit_inv (curr :: qu) st →
  ∃ r, visit self q mode curr st = Some r ∧ 0 < unset (reachable st) + length (curr :: qu) ∧
    match r with
    | Push st' new => visit_inv (qu ++ new) st'
        ∧ unset (reachable st') + length (qu ++ new) < unset (reachable st) + length (curr :: qu)
    | Break st' => marked_hits (results st')
    end.
Proof.
  intros [Hs Hl Hk Hm Hrem Hcl]. destruct (search_curr _ _ _ _ Hs) as [Ht Hlt]. unfold visit.
  destruct (mark_spec (pos curr) (results st) K (NoDup_known_positions cs)) as (res & Hmark & Hlr & Hup).
  { intros p [? ?]%pos_known. rewrite Hl. done. }
  rewrite Hk, Hmark. simpl.
  set (rem := match pos curr with [] => remaining_candidates st | _ => remaining_candidates st ∖ {[curr]} end).
  assert (∀ i, done_node (reachable st) qu i ↔ done_node (reachable st) (curr :: qu) i ∨ i = curr) as Hpop.
  { intros i. by eapply up_pop. }
  assert (∀ p, up res p ↔ ∃ i, done_node (reachable st) qu i ∧ p ∈ pos i) as Hm'.
  { intros p. rewrite Hup, Hm. setoid_rewrite Hpop. naive_solver. }
  assert (∀ i, done_node (reachable st) qu i → target seeds i) as Hsound.
  { intros i [Hi _]. by eapply si_sound. }
  destruct (Nat.eqb_spec (unmarked res K) 0) as [Hz|_].
  { eexists. split; [done|]. split; [simpl; lia|]. simpl. eapply all_marked; [lia|done..]. }
  destruct (visit_enqueue curr (reachable st) rem Hlt (si_length _ _ _ Hs)) as (f & new & -> & Hf & Hn & Hkeep).
  simpl. eexists. split; [done|]. split; [lia|]. simpl. pose proof (fl_unset _ _ _ Hf).
  rewrite length_app. split; [|lia].
  assert (∀ i, done_node f (qu ++ new) i ↔ done_node (reachable st) qu i) as Hpush.
  { intros i. apply (up_push _ _ _ _ _ Hf). intros; apply (si_queue _ _ _ Hs); set_solver. }
  assert (∀ r, r ∈ rem → r ∈ remaining_candidates st) as Hsub.
  { intros r. unfold rem. destruct (pos curr); set_solver. }
  split; simpl.
  - eapply search_push; [done..|]. intros c Hc. eapply target_kid; [done|]. by apply Hn.
  - lia.
  - done.
  - intros p. rewrite Hm'. by setoid_rewrite Hpush.
  - intros i Hmode Hi. rewrite Hpush, Hpop. destruct (Hrem i Hmode Hi) as [Hir|]; [|by right; left].
    destruct (decide (i = curr)) as [->|Hne]; [by right; right|left]. unfold rem.
    destruct (pos curr); set_solver.
  - intros x c. rewrite Hpush, Hpop. intros [Hx| ->] Hxc; [|by apply Hkeep].
    destruct (Hcl x c Hx Hxc) as [Hu|[? Hno]]; [left; apply (fl_up _ _ _ Hf); by left|].
    right. split; [done|]. intros r Hr. by apply Hno, Hsub.
Qed.

Lemma visit_loop flags qu :
  search_inv seeds flags qu → (∀ i, up flags i → i ∈ qu) → unset flags + length qu = n →
  ∃ st, try_drain (visit self q mode) n qu
      (mkTraversal (replicate (candidate_count q) false) flags (known_candidate_position_count q)
         (if is_range_pruned mode then CandidateQuery.remaining_candidate_set q else ∅)) = Some st
    ∧ marked_hits (results st).
Proof.
  intros Hs Hq Hm.
  eapply (try_drain_spec (visit self q mode) visit_inv (λ st, marked_hits (results st))
    (λ qu st, unset (reachable st) + length qu)).
  - intros curr qu' st Hinv. by apply visit_step.
  - intros st [Hs' Hl Hk Hmk Hrem Hcl].
    eapply (marked_complete _ (done_node (reachable st) [])); [done..| |].
    { intros i [Hi _]. by eapply si_sound. }
    intros i Hi Ht.
    assert (∀ s, seed_node seeds s → done_node (reachable st) [] s) as Hseed.
    { intros s Hs1. split; [by eapply si_seed|set_solver]. }
    eapply (coverage (done_node (reachable st) []) (λ r, is_range_pruned mode = true ∧ r ∈ remaining_candidates st));
      [done| | | |done].
    + intros x c Hx Hxc. destruct (Hcl x c Hx Hxc) as [Hu|[_ Hno]]; [left; split; [done|set_solver]|].
      right. intros r [_ Hr]. by apply Hno.
    + intros [Hmode _] j Hj Hf. by apply Hranges.
    + destruct (is_range_pruned mode) eqn:Emode.
      * destruct (Hrem i eq_refl Hi); [by left|by right].
      * right. eapply (closed_targets seeds); [done| |done]. intros x c Hx Hxc.
        destruct (Hcl x c Hx Hxc) as [Hu|[? _]]; [|done]. split; [done|set_solver].
  - split; simpl; [done|by rewrite length_replicate, (qo_count _ _ Hquery)| | | |].
    + rewrite (qo_known _ _ Hquery), unmarked_replicate; [done|]. rewrite (qo_count _ _ Hquery).
      intros p (x & i & Hp & _)%elem_of_known_positions. by eapply lookup_lt_Some.
    + intros p. split; [by intros ?%up_replicate|]. intros (i & [Hi Hni] & _). naive_solver.
    + intros i -> Hi. left. by apply (elem_of_remaining_candidate_set cs).
    + intros x c [Hx Hnx]. naive_solver.
  - simpl. lia.
Qed.

Lemma filter_reachable_with_candidates_spec :
  ∃ hits, filter_reachable_with_candidates self seeds q mode = Some hits
    ∧ StronglySorted lt hits ∧ ∀ p, p ∈ hits ↔ hit p.
Proof.
  unfold filter_reachable_with_candidates, seed_candidate_traversal.
  destruct ((candidate_count q =? 0) || (known_candidate_position_count q =? 0)) eqn:E; simpl.
  { exists []. split_and!; [done|constructor|]. intros p. split; [set_solver|].
    intros Hp. exfalso. by eapply no_known_no_hit. }
  destruct (seed_queue_spec seeds) as (flags & qu & -> & Hs & Hq & Hm). simpl.
  destruct (visit_loop flags qu Hs Hq Hm) as (st & -> & [_ Hh]). simpl.
  destruct (collect_reachable_positions_spec (results st)) as [Hsort Hin]. eexists. split_and!; [done..|].
  intros p. by rewrite Hin, Hh.
Qed.
End visits.

(** *** The segment-jumping search *)

Section jumps.
Abbreviation segs := (segments self).
Abbreviation ns := (node_segment self).
Abbreviation off := (node_segment_offset self).
Hypothesis Hsegs : segments_ok ch segs ns off.
Hypothesis Hranges : ∀ i j, i < n → fwd ch i j → in_range rs i j.

(** The candidates of a segment. *)
Definition segment_listed (s : nat) (l : list (nat * nat * nat)) : Prop :=
  ∀ o c p, (o, c, p) ∈ l ↔ ns !! c = Some (Some s) ∧ off !! c = Some o ∧ p ∈ pos c.

Lemma push_positions (s o c : nat) ps (acc : list (list (nat * nat * nat))) :
  s < length acc →
  ∃ acc', try_fold (λ acc position, slot ← acc !! s; vec_set acc s (slot ++ [(o, c, position)])) ps acc
      = Some acc' ∧ length acc' = length acc
    ∧ ∀ s' x, x ∈ default [] (acc' !! s') ↔ x ∈ default [] (acc !! s') ∨ s' = s ∧ ∃ p, p ∈ ps ∧ x = (o, c, p).
Proof.
  revert acc. induction ps as [|p ps IH]; intros acc Hs; simpl.
  { exists acc. set_solver. }
  destruct (lookup_lt_is_Some_2 acc s Hs) as [slot Hslot]. rewrite Hslot. simpl. rewrite vec_set_lt by done.
  destruct (IH (<[s := slot ++ [(o, c, p)]]> acc)) as (acc' & -> & Hl & Hx); [by rewrite length_insert|].
  rewrite length_insert in Hl. exists acc'. split_and!; [done..|]. intros s' x. rewrite Hx.
  destruct (decide (s = s')) as [<-|Hne].
  - rewrite list_lookup_insert_eq, Hslot by done. simpl. rewrite elem_of_app, list_elem_of_singleton.
    set_solver.
  - rewrite list_lookup_insert_ne by done. set_solver.
Qed.

Lemma candidate_positions_by_segment_spec :
  ∃ by_seg, candidate_positions_by_segment self q = Some by_seg ∧ length by_seg = length segs
    ∧ ∀ s l, by_seg !! s = Some l → segment_listed s l
        ∧ StronglySorted (cmp_le (λ a b : nat * nat * nat, Nat.compare a.1.1 b.1.1)) l.
Proof.
  unfold candidate_positions_by_segment.
  destruct (try_fold_spec (segment_candidate self) (λ l1 acc, length acc = length segs
    ∧ ∀ s x, x ∈ default [] (acc !! s) ↔ ∃ o c p ps, x = (o, c, p) ∧ (c, ps) ∈ l1
        ∧ p ∈ CandidatePositions.iter ps ∧ ns !! c = Some (Some s) ∧ off !! c = Some o)
    (imap pair (candidate_positions q)) (replicate (length segs) [])) as (acc & -> & Hl & Hacc).
  - intros l1 [c ps] l2 acc Himap [Hl Hacc]. unfold segment_candidate. simpl.
    assert ((c, ps) ∈ imap pair (candidate_positions q)) as Hin by (rewrite Himap; set_solver).
    apply elem_of_lookup_imap in Hin as (c' & ps' & [= <- <-] & Hc).
    destruct (CandidatePositions.is_empty ps) eqn:Ee.
    { eexists. split; [done|]. split; [done|]. intros s x. rewrite Hacc. apply (qo_empty _ _ Hquery _ _ Hc) in Ee.
      split; intros (o & c1 & p & ps1 & -> & Hin & Hp & Hrest); exists o, c1, p, ps1;
        (split; [done|]); (split; [|done]); [by apply elem_of_app; left|].
      apply elem_of_app in Hin as [|Hin]; [done|]. apply list_elem_of_singleton in Hin as [= -> ->].
      rewrite Ee in Hp. by apply not_elem_of_nil in Hp. }
    destruct (sg_node _ _ _ _ Hsegs c) as (s & o & tl & Hns & Ho & Hs).
    { rewrite <-(qo_length _ _ Hquery). by eapply lookup_lt_Some. }
    rewrite Hns, Ho. simpl.
    destruct (push_positions s o c (CandidatePositions.iter ps) acc) as (acc' & -> & Hl' & Hx).
    { rewrite Hl. by eapply lookup_lt_Some. }
    eexists. split; [done|]. split; [lia|]. intros s' x. rewrite Hx, Hacc. split.
    + intros [(o1 & c1 & p & ps1 & ? & ? & ?)|(-> & p & Hp & ->)]; [exists o1, c1, p, ps1|exists o, c, p, ps];
        (split; [done|]); (split; [apply elem_of_app|done]); [by left|right; by apply list_elem_of_singleton].
    + intros (o1 & c1 & p & ps1 & -> & [Hin|[= -> ->]%list_elem_of_singleton]%elem_of_app & Hp & H1 & H2).
      * left. exists o1, c1, p, ps1. done.
      * right. rewrite Hns in H1. rewrite Ho in H2. simplify_eq. eauto.
  - rewrite length_replicate. split; [done|]. intros s x.
    assert (default [] ((replicate (length segs) [] : list (list (nat * nat * nat))) !! s) = []) as ->.
    { destruct (_ !! s) eqn:E; [|done]. by apply lookup_replicate in E as [-> _]. }
    set_solver.
  - simpl. eexists. split; [done|]. rewrite length_map. split; [done|]. intros s l Hsl.
    rewrite list_lookup_fmap in Hsl. destruct (acc !! s) as [l0|] eqn:E; simplify_eq/=. split.
    + intros o c p. rewrite sort_by_perm. specialize (Hacc s (o, c, p)). rewrite E in Hacc. simpl in Hacc.
      rewrite Hacc. unfold CandidateQuery.positions_at. split.
      * intros (o1 & c1 & p1 & ps & [= -> -> ->] & (c' & ps' & [= <- <-] & Hc)%elem_of_lookup_imap & ? & ? & ?).
        by rewrite Hc.
      * intros (? & ? & Hp). destruct (candidate_positions q !! c) as [ps|] eqn:Ec; [|set_solver].
        exists o, c, p, ps. split_and!; try done. apply elem_of_lookup_imap. eauto.
    + apply (sort_by_sorted (λ a : nat * nat * nat, a.1.1) Nat.compare).
Qed.

Lemma elem_of_drop_partition {A} (p : A → bool) (R : A → A → Prop) l x :
  StronglySorted R l → (∀ a b, R a b → p b = true → p a = true) →
  x ∈ drop (partition_point p l) l ↔ x ∈ l ∧ p x = false.
Proof.
  intros Hs Hp. induction Hs as [|y l Hs IH Hall]; simpl; [set_solver|].
  destruct (p y) eqn:E; simpl.
  - rewrite IH, elem_of_cons. split; [tauto|]. intros [[->|?] ?]; [congruence|done].
  - rewrite elem_of_cons. split; [|tauto]. intros [->|Hx]; [tauto|]. split; [by right|].
    destruct (p x) eqn:Ex; [|done]. rewrite Forall_forall in Hall. rewrite (Hp y x) in E; [done|by apply Hall|done].
Qed.

Lemma mark_segment_spec l res rem :
  (∀ o c p, (o, c, p) ∈ l → p ∈ K ∧ p < length res) →
  ∃ res' rem', try_fold mark_segment_candidate l (res, unmarked res K, rem)
      = Some (res', unmarked res' K, rem')
    ∧ length res' = length res ∧ (∀ p, up res' p ↔ up res p ∨ ∃ o c, (o, c, p) ∈ l)
    ∧ rem' ⊆ rem ∧ (∀ r, r ∈ rem → r ∈ rem' ∨ ∃ o p, (o, r, p) ∈ l).
Proof.
  revert res rem. induction l as [|[[o c] p] l IH]; intros res rem Hl.
  { exists res, rem. simpl. set_solver. }
  destruct (Hl o c p) as [HpK Hlt]; [set_solver|]. cbn [try_fold]. unfold mark_segment_candidate at 1.
  destruct (lookup_lt_is_Some_2 res p Hlt) as [b Hb]. rewrite Hb. cbn [mbind option_bind]. destruct b.
  - destruct (IH res rem) as (res' & rem' & -> & H1 & H2 & H3 & H4); [set_solver|].
    exists res', rem'. split_and!; [done..| |done|].
    + intros p'. rewrite H2. setoid_rewrite elem_of_cons. unfold up. naive_solver.
    + intros r Hr. destruct (H4 r Hr) as [?|(? & ? & ?)]; [by left|right]. setoid_rewrite elem_of_cons. eauto.
  - rewrite vec_set_lt by done. cbn [mbind option_bind].
    destruct (unmarked_set res K p (NoDup_known_positions cs) HpK Hb) as [<- _].
    destruct (IH (<[p := true]> res) (rem ∖ {[c]})) as (res' & rem' & -> & H1 & H2 & H3 & H4).
    { intros o' c' p' Hin. rewrite length_insert. apply (Hl o' c'). set_solver. }
    rewrite length_insert in H1. exists res', rem'. split_and!; [done..| |set_solver|].
    + intros p'. rewrite H2, up_set by done. setoid_rewrite elem_of_cons. naive_solver.
    + intros r Hr. setoid_rewrite elem_of_cons. destruct (decide (r = c)) as [->|Hne]; [right; eauto|].
      destruct (H4 r) as [?|(? & ? & ?)]; [set_solver|by left|right; eauto].
Qed.

(** The nodes at or past the covered offset of their segment. *)
Definition covered (cov : list (option nat)) (i : nat) : Prop :=
  ∃ s o cv, ns !! i = Some (Some s) ∧ off !! i = Some o ∧ cov !! s = Some (Some cv) ∧ cv ≤ o.

Abbreviation cov st := (segment_covered_from st).
Abbreviation tr st := (js_traversal st).

Record jump_inv (qu : list nat) (st : JumpState) : Prop := {
  ji_search : search_inv seeds (reachable (tr st)) qu;
  ji_length : length (results (tr st)) = length cs;
  ji_known : remaining_known (tr st) = unmarked (results (tr st)) K;
  ji_cov_length : length (cov st) = length segs;
  ji_exp_length : length (segment_expanded st) = length segs;
  ji_done i : done_node (reachable (tr st)) qu i → covered (cov st) i;
  ji_sound i : covered (cov st) i → target seeds i;
  ji_marks p : up (results (tr st)) p ↔ ∃ i, covered (cov st) i ∧ p ∈ pos i;
  ji_remaining i : pos i ≠ [] → i ∈ remaining_candidates (tr st) ∨ covered (cov st) i;
  ji_expanded s : segment_expanded st !! s = Some true → ∃ cv, cov st !! s = Some (Some cv);
  ji_children s cv tl c : cov st !! s = Some (Some cv) → segs !! s = Some (mkSegment tl) → kid ch tl c →
    up (reachable (tr st)) c ∨ ∀ r, r ∈ remaining_candidates (tr st) → ¬ in_range rs c r
}.

(** Covering a segment from a smaller offset on. *)
Lemma covered_set cv0 s o i :
  s < length cv0 → (∀ c, cv0 !! s = Some (Some c) → o < c) →
  covered (<[s := Some o]> cv0) i ↔
    covered cv0 i ∨ ∃ oi, ns !! i = Some (Some s) ∧ off !! i = Some oi ∧ o ≤ oi.
Proof.
  intros Hs Hlt. unfold covered. split.
  - intros (s' & oi & c & H1 & H2 & H3 & H4). destruct (decide (s = s')) as [<-|Hne].
    + rewrite list_lookup_insert_eq in H3 by done. simplify_eq. right. eauto.
    + rewrite list_lookup_insert_ne in H3 by done. left. exists s', oi, c. done.
  - intros [(s' & oi & c & H1 & H2 & H3 & H4)|(oi & H1 & H2 & H3)].
    + destruct (decide (s = s')) as [<-|Hne].
      * exists s, oi, o. rewrite list_lookup_insert_eq by done. apply Hlt in H3. split_and!; [done..|lia].
      * exists s', oi, c. rewrite list_lookup_insert_ne by done. done.
    + exists s, oi, o. rewrite list_lookup_insert_eq by done. done.
Qed.

(** The candidates marked when a segment is covered from [start] on. *)
Lemma mark_segment (by_seg : list (list (nat * nat * nat))) s l start res rem :
  by_seg !! s = Some l → segment_listed s l →
  StronglySorted (cmp_le (λ a b : nat * nat * nat, Nat.compare a.1.1 b.1.1)) l → length res = length cs →
  ∃ res' rem', try_fold mark_segment_candidate
      (drop (partition_point (λ c : nat * nat * nat, c.1.1 <? start) l) l) (res, unmarked res K, rem)
        = Some (res', unmarked res' K, rem')
    ∧ length res' = length cs
    ∧ (∀ p, up res' p ↔ up res p ∨ ∃ i oi, ns !! i = Some (Some s) ∧ off !! i = Some oi ∧ start ≤ oi ∧ p ∈ pos i)
    ∧ rem' ⊆ rem
    ∧ (∀ r, r ∈ rem → r ∈ rem' ∨ ∃ oi, ns !! r = Some (Some s) ∧ off !! r = Some oi ∧ start ≤ oi).
Proof.
  intros Hs Hlist Hsort Hl.
  set (d := drop _ l).
  assert (∀ o c p, (o, c, p) ∈ d ↔ ns !! c = Some (Some s) ∧ off !! c = Some o ∧ p ∈ pos c ∧ start ≤ o) as Hd.
  { intros o c p. unfold d. rewrite (elem_of_drop_partition _ _ _ _ Hsort), (Hlist o c p).
    - simpl. rewrite Nat.ltb_ge. tauto.
    - intros a b. unfold cmp_le. rewrite !Nat.ltb_lt, Nat.compare_ngt_iff. lia. }
  destruct (mark_segment_spec d res rem) as (res' & rem' & -> & H1 & H2 & H3 & H4).
  { intros o c p (_ & _ & Hp & _)%Hd. apply pos_known in Hp. by rewrite Hl. }
  exists res', rem'. split_and!; [done|lia| |done|].
  - intros p. rewrite H2. f_equiv. split.
    + intros (o & c & (? & ? & ? & ?)%Hd). eauto 6.
    + intros (i & oi & ? & ? & ? & ?). exists oi, i. by apply Hd.
  - intros r Hr. destruct (H4 r Hr) as [?|(o & p & (? & ? & ? & ?)%Hd)]; [by left|right; eauto].
Qed.

Lemma jump_step by_seg curr qu st :
  length by_seg = length segs →
  (∀ s l, by_seg !! s = Some l → segment_listed s l
     ∧ StronglySorted (cmp_le (λ a b : nat * nat * nat, Nat.compare a.1.1 b.1.1)) l) →
  jump_inv (curr :: qu) st →
  ∃ r, jump self by_seg curr st = Some r ∧ 0 < unset (reachable (tr st)) + length (curr :: qu) ∧
    match r with
    | Push st' new => jump_inv (qu ++ new) st'
        ∧ unset (reachable (tr st')) + length (qu ++ new) < unset (reachable (tr st)) + length (curr :: qu)
    | Break st' => marked_hits (results (tr st'))
    end.
Proof.
  intros Hbl Hby [Hs Hl Hk Hcl Hel Hdone Hsound Hm Hrem Hexp Hch].
  destruct (search_curr _ _ _ _ Hs) as [Ht Hlt]. unfold jump.
  destruct (sg_node _ _ _ _ Hsegs curr Hlt) as (s & start & tl & Hns & Ho & Hseg).
  rewrite Hns, Ho. simpl. assert (s < length segs) as Hslt by (by eapply lookup_lt_Some).
  destruct (lookup_lt_is_Some_2 (cov st) s) as [prev Hprev]; [lia|]. rewrite Hprev. simpl.
  assert (∀ i, done_node (reachable (tr st)) qu i ↔ done_node (reachable (tr st)) (curr :: qu) i ∨ i = curr) as Hpop.
  { intros i. by eapply up_pop. }
  set (eff := match prev with None => start | Some covered => covered `min` start end).
  destruct (match prev with None => false | Some previous => previous <=? eff end) eqn:Econt.
  { eexists. split; [done|]. split; [simpl; lia|]. cbn iota. rewrite app_nil_r. split; [|simpl; lia].
    destruct prev as [c|]; [|done]. apply Nat.leb_le in Econt. unfold eff in Econt.
    split; try done; [by eapply search_pop|].
    intros i [Hi| ->]%Hpop; [by apply Hdone|]. exists s, start, c. split_and!; [done..|lia]. }
  assert (eff = start ∧ ∀ c, cov st !! s = Some (Some c) → start < c) as [Heff Hsmall].
  { unfold eff in *. destruct prev as [c|]; [apply Nat.leb_gt in Econt|]; (split; [lia|]);
      intros c' Hc'; rewrite Hprev in Hc'; simplify_eq. lia. }
  rewrite Heff. clear eff Econt Heff. rewrite (vec_set_lt (cov st)) by lia. simpl.
  destruct (lookup_lt_is_Some_2 by_seg s) as [l Hsl]; [lia|]. rewrite Hsl. simpl.
  destruct (Hby s l Hsl) as [Hlist Hsort].
  destruct (mark_segment by_seg s l start (results (tr st)) (remaining_candidates (tr st)) Hsl Hlist Hsort Hl)
    as (res & rem & Hmark & Hlr & Hup & Hsub & Hkeep).
  rewrite Hk, Hmark. simpl.
  set (cov' := <[s := Some start]> (cov st)).
  assert (∀ i, covered cov' i ↔ covered (cov st) i
    ∨ ∃ oi, ns !! i = Some (Some s) ∧ off !! i = Some oi ∧ start ≤ oi) as Hcov.
  { intros i. apply covered_set; [lia|done]. }
  assert (∀ p, up res p ↔ ∃ i, covered cov' i ∧ p ∈ pos i) as Hm'.
  { intros p. rewrite Hup, Hm. setoid_rewrite Hcov. naive_solver. }
  assert (∀ i, covered cov' i → target seeds i) as Hsound'.
  { intros i [Hi|(oi & Hi & Hoi & Hle)]%Hcov; [by apply Hsound|]. destruct Ht as (x & ? & ?). exists x.
    split; [done|]. etrans; [done|]. eapply (sg_chain _ _ _ _ Hsegs curr i); done. }
  assert (∀ i, done_node (reachable (tr st)) qu i → covered cov' i) as Hdone'.
  { intros i [Hi| ->]%Hpop; apply Hcov; [left; by apply Hdone|right; by exists start]. }
  assert (∀ i, pos i ≠ [] → i ∈ rem ∨ covered cov' i) as Hrem'.
  { intros i Hi. rewrite Hcov. destruct (Hrem i Hi) as [Hr|]; [|by right; left].
    destruct (Hkeep i Hr); [by left|by right; right]. }
  destruct (Nat.eqb_spec (unmarked res K) 0) as [Hz|_].
  { eexists. split; [done|]. split; [lia|]. simpl. by apply (all_marked res (covered cov')). }
  destruct (lookup_lt_is_Some_2 (segment_expanded st) s) as [e He]; [lia|]. rewrite He. simpl.
  assert (∀ s' cv tl' c, s' ≠ s → cov' !! s' = Some (Some cv) → segs !! s' = Some (mkSegment tl') →
    kid ch tl' c → up (reachable (tr st)) c ∨ ∀ r, r ∈ rem → ¬ in_range rs c r) as Hch'.
  { intros s' cv tl' c Hne Hcv Hs' Hc. unfold cov' in Hcv. rewrite list_lookup_insert_ne in Hcv by done.
    destruct (Hch s' cv tl' c Hcv Hs' Hc) as [|Hno]; [by left|right]. intros r Hr. by apply Hno, Hsub. }
  destruct e.
  - eexists. split; [done|]. split; [lia|]. cbn iota. rewrite app_nil_r. cbn [js_traversal reachable]. split; [|lia].
    split; simpl; try done.
    + by eapply search_pop.
    + unfold cov'. by rewrite length_insert.
    + intros s' Hs'. destruct (decide (s' = s)) as [->|Hne].
      * exists start. apply list_lookup_insert_eq. lia.
      * unfold cov'. rewrite list_lookup_insert_ne by done. by apply Hexp.
    + intros s' cv tl' c Hcv Hs' Hc. destruct (decide (s' = s)) as [->|Hne]; [|by eapply Hch'].
      destruct (Hexp s He) as [cv' Hcv']. destruct (Hch s cv' tl' c Hcv' Hs' Hc) as [|Hno]; [by left|right].
      intros r Hr. by apply Hno, Hsub.
  - rewrite vec_set_lt, Hseg by lia. simpl.
    destruct (sg_tail _ _ _ _ Hsegs s tl Hseg) as [Htl Htls].
    destruct (pruned_spec tl (reachable (tr st)) rem Htl (si_length _ _ _ Hs)) as (f & new & -> & Hf & Hn & Hkt).
    simpl. eexists. split; [done|]. split; [lia|]. cbn iota. cbn [js_traversal reachable].
    pose proof (fl_unset _ _ _ Hf). rewrite length_app. split; [|lia].
    assert (∀ i, done_node f (qu ++ new) i ↔ done_node (reachable (tr st)) qu i) as Hpush.
    { intros i. apply (up_push _ _ _ _ _ Hf). intros; apply (si_queue _ _ _ Hs); set_solver. }
    split; simpl; try done.
    + eapply search_push; [done..|]. intros c Hc. eapply target_kid; [|by apply Hn].
      destruct (sg_node _ _ _ _ Hsegs tl Htl) as (s2 & o2 & tl2 & Hs2 & Ho2 & _).
      rewrite Htls in Hs2. simplify_eq.
      apply Hsound', Hcov. right. exists o2. split_and!; [done..|]. by eapply (sg_end _ _ _ _ Hsegs curr).
    + unfold cov'. by rewrite length_insert.
    + by rewrite length_insert.
    + intros i Hi. by apply Hdone', Hpush.
    + intros s' Hs'. destruct (decide (s' = s)) as [->|Hne].
      * exists start. apply list_lookup_insert_eq. lia.
      * rewrite list_lookup_insert_ne in Hs' by done. unfold cov'.
        rewrite list_lookup_insert_ne by done. by apply Hexp.
    + intros s' cv tl' c Hcv Hs' Hc. destruct (decide (s' = s)) as [->|Hne].
      * rewrite Hseg in Hs'. simplify_eq. by apply Hkt.
      * destruct (Hch' s' cv tl' c Hne Hcv Hs' Hc) as [Hu|]; [|by right]. left. apply (fl_up _ _ _ Hf). by left.
Qed.

Lemma jump_complete st i :
  jump_inv [] st → pos i ≠ [] → target seeds i → covered (cov st) i.
Proof.
  intros [Hs Hl Hk Hcl Hel Hdone Hsound Hm Hrem Hexp Hch] Hi Ht.
  assert (∀ j, up (reachable (tr st)) j → covered (cov st) j) as Hup.
  { intros j Hj. apply Hdone. split; [done|set_solver]. }
  eapply (coverage (covered (cov st)) (.∈ remaining_candidates (tr st))); [| | |by apply Hrem|done].
  - intros s Hseed. apply Hup. by eapply si_seed.
  - intros x c (s & o & cv & Hns & Ho & Hcv & Hle) Hxc.
    assert (x < n) as Hxn by (by eapply kid_lt).
    destruct (sg_node _ _ _ _ Hsegs x Hxn) as (s' & o' & tl & Hns' & Ho' & Hseg).
    rewrite Hns in Hns'. rewrite Ho in Ho'. simplify_eq.
    destruct (sg_next _ _ _ _ Hsegs x s' o' tl Hns Ho Hseg) as [->|(y & Hy & Hnsy & Hoy)].
    + destruct (Hch s' cv tl c Hcv Hseg Hxc) as [Hu|]; [left; by apply Hup|by right].
    + left. unfold kid in Hxc. rewrite Hy in Hxc. apply list_elem_of_singleton in Hxc as ->.
      exists s', (S o'), cv. split_and!; [done..|lia].
  - intros _ j Hj Hf. by apply Hranges.
Qed.

Lemma filter_reachable_segment_jumps_spec :
  ∃ hits, filter_reachable_segment_jumps self seeds q = Some hits
    ∧ StronglySorted lt hits ∧ ∀ p, p ∈ hits ↔ hit p.
Proof.
  unfold filter_reachable_segment_jumps.
  destruct ((candidate_count q =? 0) || (known_candidate_position_count q =? 0)) eqn:E; simpl.
  { exists []. split_and!; [done|constructor|]. intros p. split; [set_solver|].
    intros Hp. exfalso. by eapply no_known_no_hit. }
  destruct candidate_positions_by_segment_spec as (by_seg & -> & Hbl & Hby). simpl.
  destruct (seed_queue_spec seeds) as (flags & qu & -> & Hs & Hq & Hm). simpl.
  destruct (try_drain_spec (jump self by_seg) jump_inv (λ st, marked_hits (results (tr st)))
    (λ qu st, unset (reachable (tr st)) + length qu) n qu
    (mkJump (mkTraversal (replicate (candidate_count q) false) flags (known_candidate_position_count q)
       (CandidateQuery.remaining_candidate_set q))
     (replicate (length segs) None) (replicate (length segs) false))) as (st & -> & [_ Hh]).
  - intros curr qu' st Hinv. by apply jump_step.
  - intros st Hinv. eapply (marked_complete _ (covered (cov st))); try apply Hinv.
    intros i Hi Ht. by apply jump_complete.
  - assert (∀ i, ¬ covered (replicate (length segs) None) i) as Hno.
    { intros i (s & o & cv & _ & _ & [? _]%lookup_replicate & _). done. }
    split; simpl; try (by rewrite length_replicate); try done.
    + by rewrite length_replicate, (qo_count _ _ Hquery).
    + rewrite (qo_known _ _ Hquery), unmarked_replicate; [done|]. rewrite (qo_count _ _ Hquery).
      intros p (x & i & Hp & _)%elem_of_known_positions. by eapply lookup_lt_Some.
    + intros i [Hi Hni]. naive_solver.
    + intros i Hi. by apply Hno in Hi.
    + intros p. split; [by intros ?%up_replicate|]. intros (i & Hi & _). by apply Hno in Hi.
    + intros i Hi. left. by apply (elem_of_remaining_candidate_set cs).
    + by intros s [? _]%lookup_replicate.
    + by intros s cv tl c [? _]%lookup_replicate.
  - simpl. lia.
  - simpl. destruct (collect_reachable_positions_spec (results (tr st))) as [Hsort Hin]. eexists.
    split_and!; [done..|]. intros p. by rewrite Hin, Hh.
Qed.
End jumps.
End filter.
End search.
