(* ===== verification/ReachProps.v ===== *)
(** * Correctness of the reachability indexes

    On every event graph the range index and the bitmap index answer by
    reachability along the citations: the filters, in every traversal mode,
    return exactly the reachable candidates, the closure is the reachable set,
    and hard point answers are right. *)
From stdpp Require Import prelude gmap strings sorting.
From Stdlib Require String.
From S2P Require Import Prelude Dense EventTypes Json Events Reachability Forward JsonContent Auth Samples Sorting Kahn ReachTopo ReachSegments ReachSearch.

(** ** Point queries of the reachability index

    [reaches_index] searches forward from a node, skipping children past the
    target and children whose range misses it. *)

Section point.
Context {Id : Type} `{EventId Id} (self : RangePrefilterReachability Id) (settled : nat).
Abbreviation ch := (children_by_index self).
Abbreviation n := (length ch).
Abbreviation rs := (descendant_ranges self).
Hypothesis Hadj : adjacency_ok ch settled.
Hypothesis Hitems : length (items (index self)) = n.
Hypothesis Hdense : dense_ok Idx_u32 (index self).
Hypothesis Hself_range : ∀ i, i < n → in_range rs i i.
Hypothesis Hranges : ∀ i j, i < n → j < settled → fwd ch i j → in_range rs i j.

Lemma point_range i j : kid ch i j → j < n.
Proof. by apply adj_range with settled. Qed.

Lemma fwd_order i j : fwd ch i j → j < settled → i ≤ j.
Proof.
  induction 1 as [i|i c j Hic Hcj IH]; [lia|]. intros Hj.
  assert (c < settled) by (by eapply fwd_back). specialize (IH Hj).
  assert (i < c); [|lia]. eapply adj_order; [done..|]. by eapply adj_back.
Qed.

Lemma range_excludes i j lo hi :
  rs !! i = Some (lo, hi) → (j <? lo) || (hi <? j) = true ↔ ¬ in_range rs i j ∧ rs !! i = Some (lo, hi).
Proof.
  intros Hi. rewrite orb_true_iff, !Nat.ltb_lt. split.
  - intros Hout. split; [|done]. intros (lo' & hi' & Hi' & ?). rewrite Hi in Hi'. simplify_eq. lia.
  - intros [Hno _]. destruct (decide (lo ≤ j ≤ hi)); [|lia]. exfalso. apply Hno. by exists lo, hi.
Qed.

Lemma reach_children_spec to cs visited pushed :
  (∀ c, c ∈ cs → c < n) → length visited = n →
  ∃ r, reach_children self to cs visited pushed = Some r ∧
    match r with
    | inl b => b = true ∧ to ∈ cs
    | inr (visited', pushed') => to ∉ cs ∧ ∃ new, pushed' = pushed ++ new ∧ flagged visited visited' new
        ∧ (∀ c, c ∈ new → c ∈ cs)
        ∧ (∀ c, c ∈ cs → up visited' c ∨ to < c ∨ ¬ in_range rs c to)
    end.
Proof.
  revert visited pushed. induction cs as [|c cs IH]; intros visited pushed Hcs Hl; simpl.
  { eexists. split; [done|]. split; [set_solver|]. exists []. rewrite app_nil_r.
    split_and!; [done| |set_solver..]. split; [done|constructor|set_solver|set_solver|simpl; lia]. }
  assert (c < n) as Hc by (apply Hcs; set_solver).
  assert (∀ visited, length visited = n → up visited c ∨ to < c ∨ ¬ in_range rs c to → c ≠ to →
    ∃ r, reach_children self to cs visited pushed = Some r ∧
    match r with
    | inl b => b = true ∧ to ∈ c :: cs
    | inr (visited', pushed') => to ∉ c :: cs ∧ ∃ new, pushed' = pushed ++ new ∧ flagged visited visited' new
        ∧ (∀ c', c' ∈ new → c' ∈ c :: cs)
        ∧ (∀ c', c' ∈ c :: cs → up visited' c' ∨ to < c' ∨ ¬ in_range rs c' to)
    end) as Hskip.
  { intros v Hv Hout Hne. destruct (IH v pushed ltac:(set_solver) Hv) as (r & -> & Hr). exists r. split; [done|].
    destruct r as [b|[v' p']]; [set_solver|]. destruct Hr as (Hn & new & -> & Hf & Hin & Hk).
    split; [set_solver|]. exists new. split_and!; [done..|set_solver|].
    intros c' [->|?]%elem_of_cons; [|by apply Hk]. destruct Hout as [Hu|]; [|by right].
    left. apply (fl_up _ _ _ Hf). by left. }
  destruct (Nat.eqb_spec c to) as [->|Hne]; [eexists; split; [done|]; set_solver|].
  destruct (Nat.ltb_spec to c) as [Hlt|Hge]; [apply Hskip; tauto|].
  destruct (Hself_range c Hc) as (lo & hi & Hrc & _). rewrite Hrc. simpl.
  destruct ((to <? lo) || (hi <? to)) eqn:Eout.
  { apply (range_excludes _ _ _ _ Hrc) in Eout as [Hout _]. apply Hskip; tauto. }
  destruct (lookup_lt_is_Some_2 visited c) as [v Hv]; [lia|]. rewrite Hv. simpl. destruct v.
  { apply Hskip; [done|by left|done]. }
  rewrite vec_set_lt by lia. simpl.
  destruct (IH (<[c := true]> visited) (pushed ++ [c])) as (r & -> & Hr); [set_solver|by rewrite length_insert|].
  exists r. split; [done|]. destruct r as [b|[v' p']]; [set_solver|].
  destruct Hr as (Hn & new & -> & Hf & Hin & Hk). split; [set_solver|]. exists (c :: new).
  rewrite <-(assoc_L (++)). split_and!; [done| |set_solver|].
  - eapply flagged_cons; [lia|done..].
  - intros c' [->|?]%elem_of_cons; [|by apply Hk]. left. apply (fl_up _ _ _ Hf). left. apply up_set; [lia|by left].
Qed.

Lemma reaches_index_spec from to :
  from < n → to < settled →
  ∃ b, reaches_index self from to = Some b ∧ (b = true ↔ fwd ch from to).
Proof.
  intros Hfrom Hto. unfold reaches_index.
  destruct (Nat.eqb_spec from to) as [->|Hne].
  { exists true. split; [done|]. split; [intros _; apply rtc_refl|done]. }
  destruct (Hself_range from Hfrom) as (lo & hi & Hrf & _). rewrite Hrf. simpl.
  destruct ((to <? lo) || (hi <? to)) eqn:Eout.
  { apply (range_excludes _ _ _ _ Hrf) in Eout as [Hout _]. exists false. split; [done|].
    split; [done|]. intros Hf. exfalso. by apply Hout, Hranges. }
  rewrite vec_set_lt by (by rewrite length_replicate). simpl.
  destruct (lookup_lt_is_Some_2 (items (index self)) from) as [x Hx]; [lia|].
  assert (∀ i, seed_node self [x] i ↔ i = from) as Hseed.
  { intros i. unfold seed_node. split.
    - intros (s & ->%list_elem_of_singleton & Hs). apply (dense_index _ _ Hdense) in Hs.
      symmetry. eapply (NoDup_lookup _ from i x); [apply Hdense|done..].
    - intros ->. exists x. split; [set_solver|]. by apply (dense_index _ _ Hdense). }
  assert (∀ i, target self [x] i ↔ fwd ch from i) as Htarget.
  { intros i. unfold target. setoid_rewrite Hseed. naive_solver. }
  destruct (try_drain_spec (reach_step self to)
    (λ q st, st.1 = false ∧ search_inv self [x] st.2 q
       ∧ ∀ y c, up st.2 y → y ∉ q → kid ch y c → c ≠ to ∧ (up st.2 c ∨ to < c ∨ ¬ in_range rs c to))
    (λ st, st.1 = true ↔ fwd ch from to) (λ q st, unset st.2 + length q)
    n [from] (false, <[from := true]> (replicate n false))) as (st & -> & Hst); [..|by exists st.1].
  - intros curr q [f v] (Hff & Hs & Hcl). simpl in *. subst f. unfold reach_step.
    destruct (search_curr self point_range Hitems Hdense _ _ _ _ Hs) as [Ht Hlt]. rewrite lookup_kids by done. simpl.
    destruct (reach_children_spec to (kids ch curr) v []) as (r & -> & Hr).
    { intros c Hc. by eapply adj_range. } { apply Hs. }
    simpl. destruct r as [b|[v' p']].
    { destruct Hr as [-> Hk]. eexists. split; [done|]. split; [lia|]. simpl. split; [|done]. intros _.
      apply Htarget. by eapply target_kid. }
    destruct Hr as (Hn & new & -> & Hf & Hin & Hk). eexists. split; [done|]. split; [lia|]. simpl.
    pose proof (fl_unset _ _ _ Hf). rewrite length_app. split; [|lia]. split_and!; [done| |].
    + eapply (search_push self point_range Hitems Hdense); [done..|]. intros c Hc. eapply target_kid; [done|]. by apply Hin.
    + intros y c Hy Hny Hyc.
      assert (up v y ∧ y ∉ q) as Hdone.
      { eapply (up_push _ _ _ _ _ Hf); [|done]. intros; apply (si_queue _ _ _ _ Hs); set_solver. }
      apply (up_pop self point_range Hitems Hdense _ _ _ _ _ Hs) in Hdone as [[Hyv Hyq]| ->].
      * destruct (Hcl y c Hyv Hyq Hyc) as [? [Hu|?]]; (split; [done|]); [left; apply (fl_up _ _ _ Hf); by left|by right].
      * split; [by intros ->|by apply Hk].
  - intros [f v] (Hff & Hs & Hcl). simpl in *. subst f. split; [done|]. intros Hf. exfalso.
    assert (∀ y, fwd ch y to → up v y → y ≠ to → False) as Hno.
    { intros y Hyt. induction Hyt as [y|y c z Hyc Hcz IH]; intros Hy Hyne; [done|].
      destruct (Hcl y c Hy ltac:(set_solver) Hyc) as [Hcne Hor]. apply IH; try done.
      destruct Hor as [|[Hlt|Hout]]; [done| |].
      - apply fwd_order in Hcz; [lia|done].
      - exfalso. apply Hout, Hranges; [by eapply adj_range|done..]. }
    apply (Hno from Hf); [|done]. by apply (si_seed _ _ _ _ Hs), Hseed.
  - simpl. split_and!; [done| |].
    + assert (∀ i, up (<[from:=true]> (replicate n false)) i ↔ i = from) as Hup.
      { intros i. rewrite up_set by (by rewrite length_replicate). split; [|naive_solver].
        intros [->|?%up_replicate]; done. }
      split; [by rewrite length_insert, length_replicate| |apply NoDup_singleton| |].
      * intros i ->%list_elem_of_singleton. by apply Hup.
      * intros i Hi. by apply Hup, Hseed.
      * intros i ->%Hup. apply Htarget, rtc_refl.
    + intros y c Hy Hny. rewrite up_set in Hy by (by rewrite length_replicate).
      destruct Hy as [->|?%up_replicate]; [set_solver|done].
  - simpl. pose proof (unset_set (replicate n false) from) as Hu.
    rewrite lookup_replicate_2 in Hu by done. specialize (Hu eq_refl).
    pose proof (unset_le (replicate n false)) as Hle. rewrite length_replicate in Hle. lia.
Qed.
End point.

(** ** Correctness of the reachability indexes

    On every event graph the range index and the bitmap index answer by
    reachability along the citations: the filters, in every traversal mode,
    return exactly the reachable candidates, the closure is the reachable set,
    and hard point answers are right. *)

Section specification.
Context {Id C : Type} `{EventId Id}.
Context (graph : gmap Id (LeanEvent Id C)).

(** [y] cites [x]; both are in the graph. *)
Definition cited_by (x y : Id) : Prop := x ∈ edges_in graph V1 y.

(** [y] is [x] or one of its descendants. *)
Definition descends : Id → Id → Prop := rtc cited_by.

(** No endless chain of citations starts at [x]: it neither is on a cycle
    nor has one among its ancestors. *)
Definition settled_event (x : Id) : Prop := Acc cited_by x.

(** A graph snapshot the index is built for. *)
Record graph_wf : Prop := {
  gw_events : events_wf V1 graph;
  gw_size : (N.of_nat (size graph) ≤ MAX Idx_u32)%N
}.
End specification.

Section built.
Context {Id C : Type} `{EventId Id}.
Context (graph : gmap Id (LeanEvent Id C)).
Abbreviation edges := (edges_in graph V1).

(** The dense numbering and adjacency shared by both indexes. *)
Record numbered (ix : DenseIndex Id) (ch : list (list nat)) (cyclic : gset nat) (settled : nat) : Prop := {
  nu_dense : dense_ok Idx_u32 ix;
  nu_length : length (items ix) = length ch;
  nu_items x : x ∈ items ix ↔ x ∈ dom graph;
  nu_kid i c : kid ch i c ↔ ∃ p x, items ix !! i = Some p ∧ items ix !! c = Some x ∧ p ∈ edges x;
  nu_adj : adjacency_ok ch settled;
  nu_cyclic i : i ∈ cyclic ↔ settled ≤ i < length ch;
  nu_settled x i : items ix !! i = Some x → (i < settled ↔ settled_event graph x)
}.

Record index_built (self : RangePrefilterReachability Id) (settled : nat) : Prop := {
  ib_numbered : numbered (index self) (children_by_index self) (cyclic_nodes self) settled;
  ib_self_range i : i < length (children_by_index self) → in_range (descendant_ranges self) i i;
  ib_ranges i j : i < length (children_by_index self) → j < settled →
    fwd (children_by_index self) i j → in_range (descendant_ranges self) i j;
  ib_segments : segments_ok (children_by_index self) (segments self) (node_segment self) (node_segment_offset self)
}.

(** The common part of the two [build] functions. *)
Lemma numbered_build `{Ho : HashOrder} :
  graph_wf graph →
  ∃ topo children leftover ix ch deg settled, collect_topology graph = Some (topo, children, leftover)
    ∧ ok (try_build granted Idx_u32 topo) = Some ix
    ∧ build_indexed_children (length topo) children ix = Some (ch, deg)
    ∧ length deg = length ch
    ∧ numbered ix ch (indices_of ix leftover) settled.
Proof.
  intros [Hwf Hsize]. destruct (collect_topology_spec graph Hwf) as (topo & leftover & Hcol & Hc).
  pose proof (col_nodup graph _ _ Hc) as Hnd. pose proof (col_length graph _ _ Hc) as Hlen.
  destruct (try_build_spec Idx_u32 (topo ++ leftover)) as (ix & Hix & Hok & Hit).
  { rewrite Hlen. unfold MAX, USIZE_MAX in *. lia. }
  { by rewrite first_seen_NoDup, Hlen. }
  rewrite first_seen_NoDup in Hit by done.
  destruct (build_indexed_children_spec graph Hwf ix (length (topo ++ leftover))) as (ch & deg & Hch & Hl1 & Hl2 & Hk);
    [done|by rewrite Hit|].
  exists (topo ++ leftover), (topo_graph graph).2, leftover, ix, ch, deg, (length topo).
  split_and!; [done|by rewrite Hix|done|lia|].
  destruct (col_emitted _ _ _ Hc) as [Hnt Hdt Htopo].
  assert (∀ i x, items ix !! i = Some x → (i < length topo ↔ x ∈ topo)) as Hset.
  { intros i x Hx. rewrite Hit in Hx. split.
    - intros Hi. rewrite lookup_app_l in Hx by done. by eapply list_elem_of_lookup_2.
    - intros [j Hj]%list_elem_of_lookup. assert ((topo ++ leftover) !! j = Some x) as Hj' by (by apply lookup_app_l_Some).
      rewrite (NoDup_lookup _ _ _ _ Hnd Hx Hj'). by eapply lookup_lt_Some. }
  assert (∀ a x, a ∈ edges x → x ∈ topo → ∀ i c, items ix !! i = Some a → items ix !! c = Some x → i < c) as Hord.
  { intros a x Ha Hx i c Hi Hcx. apply list_elem_of_split in Hx as (l1 & l2 & El).
    pose proof (Htopo l1 x l2 El a Ha) as [j Hj]%list_elem_of_lookup.
    rewrite Hit in Hi, Hcx. rewrite El, <-(assoc_L (++)) in Hi, Hcx, Hnd.
    assert (j = i) as ->. { eapply (NoDup_lookup _ _ _ a Hnd); [by apply lookup_app_l_Some|done]. }
    assert (c = length l1) as ->. { eapply (NoDup_lookup _ _ _ x Hnd); [done|by apply list_lookup_middle]. }
    by eapply lookup_lt_Some. }
  split; [done|by rewrite Hit, Hl1| |exact Hk| | |].
  - intros x. rewrite Hit. by apply col_dom.
  - split.
    + intros i j (p & x & _ & Hx & _)%Hk. rewrite Hl1, <-Hit. by eapply lookup_lt_Some.
    + rewrite Hl1, length_app. lia.
    + intros i j (p & x & Hp & Hx & Hpx)%Hk Hi. destruct (decide (x ∈ topo)) as [Hxt|Hxn].
      * by eapply Hord.
      * destruct (decide (j < length topo)) as [Hj|]; [|lia]. apply (Hset j x Hx) in Hj. done.
    + intros i j (p & x & Hp & Hx & Hpx)%Hk Hj. apply (Hset j x Hx) in Hj. apply (Hset i p Hp).
      by eapply topological_closed.
  - intros i. unfold indices_of. rewrite elem_of_list_to_set, list_elem_of_omap, Hl1, length_app. split.
    + intros (x & Hx & Hi). apply (dense_index _ _ Hok) in Hi. apply lookup_lt_Some in Hi as Hlt.
      rewrite Hit, length_app in Hlt. apply (col_leftover _ _ _ Hc) in Hx as [_ Hx].
      rewrite <-(Hset i x Hi) in Hx. lia.
    + intros [Hge Hlt]. destruct (lookup_lt_is_Some_2 (items ix) i) as [x Hx].
      { rewrite Hit, length_app. done. }
      exists x. split; [|by apply (dense_index _ _ Hok)]. rewrite Hit, lookup_app_r in Hx by done.
      by eapply list_elem_of_lookup_2.
  - intros x i Hx. rewrite (Hset i x Hx). split.
    + revert x i Hx. assert (∀ k x i, items ix !! i = Some x → i < k → x ∈ topo → settled_event graph x) as Hall; [|eauto].
      induction k as [|k IH]; intros x i Hx Hi Hxt; [lia|]. constructor. intros a Ha.
      pose proof (topological_closed _ _ _ _ _ Htopo Hxt Ha) as Hat.
      assert (a ∈ items ix) as [j Hj]%list_elem_of_lookup by (rewrite Hit; set_solver).
      assert (j < i) by (by eapply Hord). apply (IH a j); [done|lia|done].
    + intros Hacc. destruct (decide (x ∈ topo)) as [|Hn]; [done|]. exfalso.
      assert (x ∈ leftover) as Hl.
      { apply list_elem_of_lookup_2 in Hx. rewrite Hit in Hx. set_solver. }
      clear Hx Hn. induction Hacc as [x _ IH]. destruct (col_stuck _ _ _ Hc x Hl) as (a & Ha & Hal).
      by apply (IH a).
Qed.

Lemma build_spec `{Ho : HashOrder} :
  graph_wf graph → ∃ self settled, build graph = Some self ∧ index_built self settled.
Proof.
  intros Hwf. destruct (numbered_build Hwf) as (topo & children & leftover & ix & ch & deg & settled
    & Hcol & Hix & Hch & Hdeg & Hn). unfold build. rewrite Hcol. simpl. rewrite Hix. simpl. rewrite Hch. simpl.
  destruct (build_descendant_ranges_spec ch settled (nu_adj _ _ _ _ Hn)) as (rs & -> & _ & Hself & Hrs). simpl.
  destruct (build_segments_spec ch deg) as (segs & ns & off & stats & -> & Hseg); [|done|].
  { apply (adj_range _ _ (nu_adj _ _ _ _ Hn)). }
  simpl. eexists _, settled. split; [done|]. split; simpl; done.
Qed.

(** ** From indices to events *)

Lemma fwd_descends ix ch cyclic settled i j x y :
  numbered ix ch cyclic settled → items ix !! i = Some x → items ix !! j = Some y →
  fwd ch i j ↔ descends graph x y.
Proof.
  intros Hn Hx Hy. pose proof (dense_nodup _ _ (nu_dense _ _ _ _ Hn)) as Hnd. split.
  - intros Hf. revert x Hx. induction Hf as [i|i c j Hic _ IH]; intros x Hx.
    { rewrite Hx in Hy. simplify_eq. apply rtc_refl. }
    apply (nu_kid _ _ _ _ Hn) in Hic as (p & z & Hp & Hz & Hpz). rewrite Hx in Hp. simplify_eq.
    eapply rtc_l; [exact Hpz|]. by apply IH.
  - intros Hd. revert i Hx. induction Hd as [x|x z y Hxz Hzy IH]; intros i Hx.
    { rewrite (NoDup_lookup _ i j x Hnd Hx Hy). apply rtc_refl. }
    assert (z ∈ items ix) as [k Hk]%list_elem_of_lookup.
    { apply (nu_items _ _ _ _ Hn). apply elem_of_dom. unfold cited_by, edges_in in Hxz.
      destruct (graph !! z); [by eexists|by apply not_elem_of_nil in Hxz]. }
    eapply rtc_l; [|by apply (IH Hy k)]. apply (nu_kid _ _ _ _ Hn). eauto.
Qed.

Lemma index_of_items ix ch cyclic settled x i :
  numbered ix ch cyclic settled → index_of ix x = Some i ↔ items ix !! i = Some x.
Proof. intros Hn. apply (dense_index _ _ (nu_dense _ _ _ _ Hn)). Qed.

Lemma index_of_dom ix ch cyclic settled x :
  numbered ix ch cyclic settled → is_Some (index_of ix x) ↔ x ∈ dom graph.
Proof.
  intros Hn. rewrite <-(nu_items _ _ _ _ Hn), list_elem_of_lookup. apply exist_proper. intros i.
  by eapply index_of_items.
Qed.

Lemma descends_dom x y : descends graph x y → x ∈ dom graph → y ∈ dom graph.
Proof.
  induction 1 as [x|x z y Hxz _ IH]; [done|]. intros _. apply IH, elem_of_dom.
  unfold cited_by, edges_in in Hxz. destruct (graph !! z); [by eexists|by apply not_elem_of_nil in Hxz].
Qed.

(** The candidates a query should return. *)
Definition reached (seeds candidates : list Id) (p : nat) : Prop :=
  ∃ s x, s ∈ seeds ∧ s ∈ dom graph ∧ candidates !! p = Some x ∧ descends graph s x.

Lemma target_descends self settled seeds i x :
  index_built self settled → items (index self) !! i = Some x →
  target self seeds i ↔ ∃ s, s ∈ seeds ∧ s ∈ dom graph ∧ descends graph s x.
Proof.
  intros Hib Hx. pose proof (ib_numbered _ _ Hib) as Hn. unfold target, seed_node. split.
  - intros (j & (s & Hs & Hj) & Hf). exists s. split_and!; [done|by eapply index_of_dom|].
    eapply fwd_descends; [done|by eapply index_of_items|done..].
  - intros (s & Hs & [j Hj]%(index_of_dom _ _ _ _ _ Hn) & Hd). exists j. split; [by exists s|].
    eapply fwd_descends; [done|by eapply index_of_items|done..].
Qed.

Lemma hit_reached self settled seeds cs p :
  index_built self settled → hit self cs seeds p ↔ reached seeds cs p.
Proof.
  intros Hib. pose proof (ib_numbered _ _ Hib) as Hn. unfold hit, reached. split.
  - intros (x & i & Hx & Hi & Ht). apply (index_of_items _ _ _ _ _ _ Hn) in Hi.
    apply (target_descends _ _ _ _ _ Hib Hi) in Ht as (s & ? & ? & ?). eauto 6.
  - intros (s & x & Hs & Hsd & Hx & Hd).
    pose proof (descends_dom _ _ Hd Hsd) as [i Hi]%(index_of_dom _ _ _ _ _ Hn).
    exists x, i. split_and!; [done..|]. apply (index_of_items _ _ _ _ _ _ Hn) in Hi.
    apply (target_descends _ _ _ _ _ Hib Hi). eauto.
Qed.

(** Every traversal mode returns the reached candidates. *)
Lemma filter_spec self settled seeds cs :
  index_built self settled →
  ∃ hits mode, filter_reachable_with_mode self seeds cs = Some (hits, mode)
    ∧ StronglySorted lt hits ∧ (∀ p, p ∈ hits ↔ reached seeds cs p)
    ∧ (mode ≠ PlainIndexedBfs → cyclic_nodes self = ∅).
Proof.
  intros Hib. destruct (ib_numbered _ _ Hib) as [Hd Hl _ _ Hadj Hcyc _].
  pose proof (adj_range _ _ Hadj) as Hr. unfold filter_reachable_with_mode.
  destruct (collect_candidates_spec self Hr Hl Hd cs) as (q & -> & Hq). simpl.
  assert (select_traversal_mode self q ≠ PlainIndexedBfs → cyclic_nodes self = ∅) as Hplain.
  { unfold select_traversal_mode. destruct (_ || _); [done|].
    case_bool_decide; [done|]. simpl. done. }
  assert (select_traversal_mode self q ≠ PlainIndexedBfs → ∀ i j, i < length (children_by_index self) →
    fwd (children_by_index self) i j → in_range (descendant_ranges self) i j) as Hrange.
  { intros Hm i j Hi Hf. apply Hplain in Hm. apply (ib_ranges _ _ Hib); [done| |done].
    assert (j < length (children_by_index self)) as Hj by (by eapply fwd_lt).
    destruct (decide (j < settled)); [done|]. exfalso. apply (not_elem_of_empty (C:=gset nat) j).
    rewrite <-Hm. apply Hcyc. lia. }
  setoid_rewrite <-(hit_reached _ _ _ _ _ Hib).
  assert (∀ m, m = select_traversal_mode self q → m ≠ SegmentJumps →
    ∃ hits, filter_reachable_with_candidates self seeds q m = Some hits
    ∧ StronglySorted lt hits ∧ ∀ p, p ∈ hits ↔ hit self cs seeds p) as Hbfs.
  { intros m -> _. eapply (filter_reachable_with_candidates_spec self Hr Hl Hd); [apply (ib_self_range _ _ Hib)|done|].
    intros Hm. apply Hrange. by destruct (select_traversal_mode self q). }
  destruct (select_traversal_mode self q) eqn:Em.
  - destruct (Hbfs PlainIndexedBfs eq_refl ltac:(done)) as (hits & -> & ? & ?). simpl. by exists hits, PlainIndexedBfs.
  - destruct (Hbfs RangePruned eq_refl ltac:(done)) as (hits & -> & ? & ?). simpl. exists hits, RangePruned.
    split_and!; [done..|]. intros _. by apply Hplain.
  - destruct (filter_reachable_segment_jumps_spec self Hr Hl Hd (ib_self_range _ _ Hib) cs q seeds Hq
      (ib_segments _ _ Hib)) as (hits & -> & ? & ?); [by apply Hrange|]. simpl. exists hits, SegmentJumps.
    split_and!; [done..|]. intros _. by apply Hplain.
Qed.

Lemma forward_spec self settled seeds :
  index_built self settled →
  ∃ ids, forward_reachable_ids self seeds = Some ids ∧ NoDup ids
    ∧ ∀ x, x ∈ ids ↔ ∃ s, s ∈ seeds ∧ s ∈ dom graph ∧ descends graph s x.
Proof.
  intros Hib. pose proof (ib_numbered _ _ Hib) as Hn. destruct Hn as [Hd Hl Hit _ Hadj _ _].
  destruct (forward_reachable_ids_spec self (adj_range _ _ Hadj) Hl Hd seeds) as (ids & -> & Hnd & Hids).
  exists ids. split_and!; [done..|]. intros x. rewrite Hids. split.
  - intros (i & Hi & Ht). by eapply target_descends.
  - intros (s & Hs & Hsd & Hsx). pose proof (descends_dom _ _ Hsx Hsd) as Hx.
    apply Hit in Hx as [i Hi]%list_elem_of_lookup. exists i. split; [done|]. eapply target_descends; eauto.
Qed.

(** What a point answer means. *)
Definition answer_ok (r : Reach.t) (x y : Id) : Prop :=
  match r with
  | Reach.Yes => x ∈ dom graph ∧ descends graph x y
  | Reach.No => x ∈ dom graph ∧ y ∈ dom graph ∧ ¬ descends graph x y
  | Reach.Unknown => ¬ (x ∈ dom graph ∧ y ∈ dom graph ∧ settled_event graph x ∧ settled_event graph y)
  end.

Lemma reaches_with_spec ix ch cyclic settled x y refl contains :
  numbered ix ch cyclic settled →
  (∀ i j, i < length ch → j < settled → ∃ b, contains i j = Some b ∧ (b = true ↔ fwd ch i j)) →
  ∃ r, reaches_with ix cyclic x y refl contains = Some r ∧ answer_ok r x y.
Proof.
  intros Hn Hc. unfold reaches_with, reach_endpoints.
  assert (∀ z, index_of ix z = None → z ∉ dom graph) as Hnone.
  { intros z Hz. rewrite <-(index_of_dom _ _ _ _ _ Hn), Hz. by intros [??]. }
  destruct (index_of ix x) as [i|] eqn:Ei; simpl; [|eexists; split; [done|]; simpl; naive_solver].
  destruct (index_of ix y) as [j|] eqn:Ej; simpl; [|eexists; split; [done|]; simpl; naive_solver].
  assert (x ∈ dom graph) as Hx by (by eapply index_of_dom; [done|eexists]).
  assert (y ∈ dom graph) as Hy by (by eapply index_of_dom; [done|eexists]).
  apply (index_of_items _ _ _ _ _ _ Hn) in Ei, Ej.
  assert (i < length ch) as Hi by (rewrite <-(nu_length _ _ _ _ Hn); by eapply lookup_lt_Some).
  assert (j < length ch) as Hj by (rewrite <-(nu_length _ _ _ _ Hn); by eapply lookup_lt_Some).
  unfold reach_from_index. destruct (refl && (i =? j)) eqn:Er.
  { apply andb_true_iff in Er as [_ ->%Nat.eqb_eq]. exists Reach.Yes. split; [done|]. split; [done|].
    rewrite Ei in Ej. simplify_eq. apply rtc_refl. }
  destruct (bool_decide (i ∈ cyclic) || bool_decide (j ∈ cyclic)) eqn:Eu.
  { exists Reach.Unknown. split; [done|]. simpl. intros (_ & _ & Hsx & Hsy).
    apply (nu_settled _ _ _ _ Hn _ _ Ei) in Hsx. apply (nu_settled _ _ _ _ Hn _ _ Ej) in Hsy.
    rewrite orb_true_iff, !bool_decide_eq_true, !(nu_cyclic _ _ _ _ Hn) in Eu. lia. }
  apply orb_false_iff in Eu as [_ Ejn%bool_decide_eq_false]. rewrite (nu_cyclic _ _ _ _ Hn) in Ejn.
  destruct (Hc i j Hi ltac:(lia)) as (b & -> & Hb). simpl. eexists. split; [done|].
  rewrite (fwd_descends _ _ _ _ _ _ _ _ Hn Ei Ej) in Hb. destruct b; simpl; naive_solver.
Qed.

Lemma reaches_spec self settled x y :
  index_built self settled → ∃ r, reaches self x y = Some r ∧ answer_ok r x y.
Proof.
  intros Hib. pose proof (ib_numbered _ _ Hib) as Hn. eapply reaches_with_spec; [done|].
  intros i j Hi Hj. eapply reaches_index_spec; try done; try apply Hib; try apply Hn.
Qed.
End built.

(** ** The bitmap index *)

Section bitmaps.
Context {Id C : Type} `{EventId Id}.
Context (graph : gmap Id (LeanEvent Id C)).

Record forward_built (self : Forward.ForwardReachabilityIndex Id) (ch : list (list nat)) (settled : nat) : Prop := {
  fb_numbered : numbered graph (Forward.fwd_index self) ch (Forward.fwd_cyclic_nodes self) settled;
  fb_length : length (Forward.descendant_bitmaps self) = length ch;
  fb_sound i b j : Forward.descendant_bitmaps self !! i = Some b → j ∈ b → fwd ch i j;
  fb_complete i b j : Forward.descendant_bitmaps self !! i = Some b → j < settled → fwd ch i j → j ∈ b
}.

Lemma forward_build_spec `{Ho : HashOrder} :
  graph_wf graph → ∃ self ch settled, Forward.build graph = Some self ∧ forward_built self ch settled.
Proof.
  intros Hwf. destruct (numbered_build graph Hwf) as (topo & children & leftover & ix & ch & deg & settled
    & Hcol & Hix & Hch & Hdeg & Hn). unfold Forward.build. rewrite Hcol. simpl. rewrite Hix. simpl.
  rewrite Hch. simpl.
  destruct (build_bitmaps_spec ch settled (nu_adj _ _ _ _ _ Hn)) as (bms & -> & Hl & Hs & Hc). simpl.
  eexists _, ch, settled. split; [done|]. by split.
Qed.

Lemma forward_reaches_spec self ch settled x y :
  forward_built self ch settled → ∃ r, Forward.reaches self x y = Some r ∧ answer_ok graph r x y.
Proof.
  intros [Hn Hl Hs Hc]. eapply reaches_with_spec; [done|]. intros i j Hi Hj.
  destruct (lookup_lt_is_Some_2 (Forward.descendant_bitmaps self) i) as [b Hb]; [lia|]. rewrite Hb.
  exists (bool_decide (j ∈ b)). split; [done|]. rewrite bool_decide_eq_true.
  split; [by apply (Hs i b j)|by apply (Hc i b j)].
Qed.

(** The bitmap filter omits nothing when the graph is acyclic, and never
    returns an unreachable candidate. *)
Lemma forward_filter_spec self ch settled seeds cs :
  forward_built self ch settled →
  ∃ hits, Forward.filter_reachable self seeds cs = Some hits
    ∧ StronglySorted lt hits ∧ (∀ p, p ∈ hits → reached graph seeds cs p)
    ∧ ((∀ x, settled_event graph x) → ∀ p, reached graph seeds cs p → p ∈ hits).
Proof.
  intros [Hn Hl Hs Hc]. unfold Forward.filter_reachable.
  set (R := λ (l : list Id) (j : nat), ∃ s i, s ∈ l ∧ index_of (Forward.fwd_index self) s = Some i ∧ fwd ch i j).
  destruct (try_fold_spec (Forward.filter_seed self) (λ l1 b, (∀ j, j ∈ b → R l1 j)
    ∧ ∀ j, j < settled → R l1 j → j ∈ b) seeds ∅) as (b & -> & Hb1 & Hb2).
  { intros l1 s l2 b _ [H1 H2]. unfold Forward.filter_seed.
    assert (∀ j, R l1 j → R (l1 ++ [s]) j) as Hmono.
    { intros j (s' & i & ? & ?). exists s', i. set_solver. }
    destruct (index_of (Forward.fwd_index self) s) as [i|] eqn:Ei.
    - assert (i < length ch) as Hi.
      { rewrite <-(nu_length _ _ _ _ _ Hn). apply (index_of_items _ _ _ _ _ _ _ Hn) in Ei.
        by eapply lookup_lt_Some. }
      destruct (lookup_lt_is_Some_2 (Forward.descendant_bitmaps self) i) as [bi Hbi]; [lia|]. rewrite Hbi. simpl.
      eexists. split; [done|]. split.
      + intros j [[->%elem_of_singleton|Hj]%elem_of_union|Hj]%elem_of_union.
        * exists s, i. split_and!; [set_solver|done|apply rtc_refl].
        * by apply Hmono, H1.
        * exists s, i. split_and!; [set_solver|done|by eapply Hs].
      + intros j Hj (s' & i' & [Hs'|Hs']%elem_of_app & Hi' & Hf).
        * apply elem_of_union. left. apply elem_of_union. right. apply H2; [done|]. by exists s', i'.
        * apply list_elem_of_singleton in Hs' as ->. simplify_eq. apply elem_of_union. right. by eapply Hc.
    - eexists. split; [done|]. split; [by intros j Hj; apply Hmono, H1|].
      intros j Hj (s' & i' & [Hs'|Hs']%elem_of_app & Hi' & Hf); [apply H2; [done|by exists s', i']|].
      apply list_elem_of_singleton in Hs' as ->. congruence. }
  { split; [set_solver|]. intros j _ (s & i & Hsn & _). by apply not_elem_of_nil in Hsn. }
  simpl. eexists. split; [done|].
  assert (∀ p, p ∈ omap (λ ic, match index_of (Forward.fwd_index self) ic.2 with
      | Some candidate_idx => if bool_decide (candidate_idx ∈ b) then Some ic.1 else None
      | None => None end) (imap pair cs)
    ↔ ∃ x j, cs !! p = Some x ∧ index_of (Forward.fwd_index self) x = Some j ∧ j ∈ b) as Hin.
  { intros p. rewrite list_elem_of_omap. split.
    - intros ([p' x] & (q & y & [= -> ->] & Hq)%elem_of_lookup_imap & Hx). simpl in Hx.
      destruct (index_of _ y) as [j|] eqn:Ej; [|done]. case_bool_decide; simplify_eq. eauto.
    - intros (x & j & Hx & Hj & Hjb). exists (p, x). split; [apply elem_of_lookup_imap; eauto|]. simpl.
      rewrite Hj. by rewrite bool_decide_eq_true_2. }
  assert (∀ p x j, cs !! p = Some x → index_of (Forward.fwd_index self) x = Some j → R seeds j ↔ reached graph seeds cs p) as HR.
  { intros p x j Hx Hj. apply (index_of_items _ _ _ _ _ _ _ Hn) in Hj. unfold R, reached. split.
    - intros (s & i & Hsd & Hi & Hf). exists s, x. split_and!; [done|by eapply index_of_dom|done|].
      apply (index_of_items _ _ _ _ _ _ _ Hn) in Hi. by eapply fwd_descends.
    - intros (s & x' & Hsd & Hd & Hx' & Hf). rewrite Hx in Hx'. simplify_eq.
      apply (index_of_dom _ _ _ _ _ _ Hn) in Hd as [i Hi]. exists s, i. split_and!; [done..|].
      apply (index_of_items _ _ _ _ _ _ _ Hn) in Hi. by eapply fwd_descends. }
  split_and!.
  - apply omap_imap_sorted. intros [i x] y. simpl. destruct (index_of _ x); [|done].
    case_bool_decide; [|done]. by intros [= ->].
  - intros p (x & j & Hx & Hj & Hjb)%Hin. eapply HR; [done..|]. by apply Hb1.
  - intros Hset p Hr. pose proof Hr as (s & x & _ & Hd & Hx & Hf). pose proof (descends_dom _ _ _ Hf Hd) as [j Hj]%(index_of_dom _ _ _ _ _ _ Hn).
    apply Hin. exists x, j. split_and!; [done..|]. apply Hb2; [|by eapply HR].
    apply (index_of_items _ _ _ _ _ _ _ Hn) in Hj. apply (nu_settled _ _ _ _ _ Hn _ _ Hj), Hset.
Qed.
End bitmaps.

Section reach_claims.
Context {Id C : Type} `{EventId Id}.
Implicit Types graph : gmap Id (LeanEvent Id C).

Lemma settled_rank graph (rank : Id → nat) x :
  (∀ id a, a ∈ edges_in graph V1 id → rank a < rank id) → settled_event graph x.
Proof.
  intros Hr. unfold settled_event. assert (∀ n y, rank y < n → Acc (cited_by graph) y) as Hall; [|apply (Hall (S (rank x))); lia].
  induction n as [|n IH]; intros y Hy; [lia|]. constructor. intros a Ha. apply IH. specialize (Hr _ _ Ha). lia.
Qed.

Lemma reaches_filter_eq self settled graph seeds cs p :
  index_built graph self settled → (∀ x, settled_event graph x) →
  p ∈ default_filter_reachable (λ x y, default Reach.Unknown (reaches self x y)) seeds cs
    ↔ reached graph seeds cs p.
Proof.
  intros Hib Hset. pose proof (ib_numbered _ _ _ Hib) as Hn.
  unfold default_filter_reachable. rewrite list_elem_of_omap. split.
  - intros ([q x] & (q' & x' & [= -> ->] & Hx)%elem_of_lookup_imap & Hp). simpl in Hp.
    destruct (existsb _ seeds) eqn:E; [|done]. simplify_eq. apply existsb_exists in E as (s & Hs & Hyes).
    apply list_elem_of_In in Hs. destruct (reaches_spec graph self settled s x' Hib) as (r & Hr & Hok).
    rewrite Hr in Hyes. destruct r; try done. destruct Hok as [Hd Hsx]. by exists s, x'.
  - intros (s & x & Hs & Hd & Hx & Hsx). exists (p, x). split; [apply elem_of_lookup_imap; eauto|]. simpl.
    assert (existsb (λ seed, Reach.is_yes (default Reach.Unknown (reaches self seed x))) seeds = true) as ->; [|done].
    apply existsb_exists. exists s. split; [by apply list_elem_of_In|].
    destruct (reaches_spec graph self settled s x Hib) as (r & Hr & Hok). rewrite Hr. simpl.
    pose proof (descends_dom _ _ _ Hsx Hd). destruct r; simpl in Hok; [done|tauto|].
    exfalso. apply Hok. auto.
Qed.

(** C15: over every event graph, cyclic ones included, the index builds
    without panicking, and a query returns, in ascending order, exactly the
    positions of the candidates that are or descend from a seed of the graph:
    the range pruning, the segment jumps and the early exit of the adaptive
    traversal lose nothing, whatever the hash order. *)
Theorem filter_reachable_exact `{HashOrder} graph :
  graph_wf graph →
  ∃ self, build graph = Some self ∧ ∀ seeds candidates, ∃ hits,
    filter_reachable self seeds candidates = Some hits
    ∧ StronglySorted lt hits
    ∧ ∀ p, p ∈ hits ↔ ∃ s x, s ∈ seeds ∧ s ∈ dom graph ∧ candidates !! p = Some x ∧ descends graph s x.
Proof.
  intros Hwf. destruct (build_spec graph Hwf) as (self & settled & Hb & Hib). exists self. split; [done|].
  intros seeds cs. unfold filter_reachable.
  destruct (filter_spec graph self settled seeds cs Hib) as (hits & mode & -> & Hsort & Hin & _).
  by exists hits.
Qed.

(** The forward closure enumerates every event that is or descends from
    a seed, once each. *)
Theorem forward_closure_exact `{HashOrder} graph :
  graph_wf graph →
  ∃ self, build graph = Some self ∧ ∀ seeds, ∃ ids,
    forward_reachable_ids self seeds = Some ids ∧ NoDup ids
    ∧ ∀ x, x ∈ ids ↔ ∃ s, s ∈ seeds ∧ s ∈ dom graph ∧ descends graph s x.
Proof.
  intros Hwf. destruct (build_spec graph Hwf) as (self & settled & Hb & Hib). exists self. split; [done|].
  intros seeds. by apply (forward_spec graph self settled).
Qed.

(** The contract of the [Reachability] trait, for both indexes: [Yes] is
    given only to a descendant, [No] only to an event of the graph that is
    not one, and [Unknown] only when an endpoint is missing from the graph or
    has a citation cycle among its ancestors. *)
Theorem reach_answers_sound `{HashOrder} graph :
  graph_wf graph →
  ∃ range bitmap, build graph = Some range ∧ Forward.build graph = Some bitmap ∧
    ∀ x y, ∃ r r', reaches range x y = Some r ∧ Forward.reaches bitmap x y = Some r'
      ∧ answer_ok graph r x y ∧ answer_ok graph r' x y.
Proof.
  intros Hwf. destruct (build_spec graph Hwf) as (range & s1 & Hb1 & Hib).
  destruct (forward_build_spec graph Hwf) as (bitmap & ch & s2 & Hb2 & Hfb).
  exists range, bitmap. split_and!; [done..|]. intros x y.
  destruct (reaches_spec graph range s1 x y Hib) as (r & Hr & Hok).
  destruct (forward_reaches_spec graph bitmap ch s2 x y Hfb) as (r' & Hr' & Hok'). by exists r, r'.
Qed.

(** On an acyclic graph the trait's default filter, the adaptive filter
    and the bitmap filter return the same positions, under any two hash
    orders. *)
Theorem reach_filters_agree (o1 o2 : HashOrder) graph (rank : Id → nat) :
  graph_wf graph → (∀ id a, a ∈ edges_in graph V1 id → rank a < rank id) →
  ∃ range bitmap, build (H0:=o1) graph = Some range ∧ Forward.build (H0:=o2) graph = Some bitmap ∧
    ∀ seeds candidates, ∃ hits, filter_reachable range seeds candidates = Some hits
      ∧ Forward.filter_reachable bitmap seeds candidates = Some hits
      ∧ default_filter_reachable (λ x y, default Reach.Unknown (reaches range x y)) seeds candidates = hits.
Proof.
  intros Hwf Hrank. destruct (build_spec (Ho:=o1) graph Hwf) as (range & s1 & Hb1 & Hib).
  destruct (forward_build_spec (Ho:=o2) graph Hwf) as (bitmap & ch & s2 & Hb2 & Hfb).
  exists range, bitmap. split_and!; [done..|]. intros seeds cs.
  assert (∀ x, settled_event graph x) as Hset by (intros; by eapply settled_rank).
  unfold filter_reachable. destruct (filter_spec graph range s1 seeds cs Hib) as (hits & mode & -> & Hsort & Hin & _).
  destruct (forward_filter_spec graph bitmap ch s2 seeds cs Hfb) as (hits' & -> & Hsort' & Hs & Hc).
  exists hits. split_and!; [done| |].
  - f_equal. apply sorted_lt_ext; [done..|]. intros p. rewrite Hin. split; [by apply Hs|by apply Hc].
  - apply sorted_lt_ext; [|done|].
    + apply omap_imap_sorted. intros [i x] p. simpl. destruct (existsb _ seeds); [by intros [= ->]|done].
    + intros p. rewrite Hin. by eapply reaches_filter_eq.
Qed.
End reach_claims.

(** ** Examples *)

Module ReachSample.
Definition dag : gmap string (LeanEvent string value) := Sample.dag.

(** [$a] and [$b] cite each other; [$c] cites [$b]. *)
Definition cyclic : gmap string (LeanEvent string value) :=
  list_to_map ((λ e, (event_id e, e)) <$>
    [Sample.ev "$a" "m.t" None "@a:x" (Object []) [] ["$b"] 1;
     Sample.ev "$b" "m.t" None "@a:x" (Object []) [] ["$a"] 1;
     Sample.ev "$c" "m.t" None "@a:x" (Object []) [] ["$b"] 1]).
End ReachSample.

Lemma sample_graph_wf : graph_wf ReachSample.dag.
Proof. split; [exact sample_dag_wf|vm_compute; discriminate]. Qed.

Lemma cyclic_graph_wf : graph_wf ReachSample.cyclic.
Proof. split; [apply (bool_decide_eq_true_1 _); vm_compute; reflexivity|vm_compute; discriminate]. Qed.

(** Both indexes build over a cyclic graph; the documentation of [build] says
    they panic. The bitmap filter then omits a reachable candidate. *)
Example build_accepts_cycles :
  is_Some (build (H0:=order_forward) ReachSample.cyclic)
  ∧ (bitmap ← Forward.build (H0:=order_forward) ReachSample.cyclic;
     Forward.filter_reachable bitmap ["$b"] ["$a"; "$c"]) = Some [1]
  ∧ (range ← build (H0:=order_forward) ReachSample.cyclic;
     filter_reachable range ["$b"] ["$a"; "$c"]) = Some [0; 1].
Proof. split_and!; [eexists|..]; vm_compute; reflexivity. Qed.

Lemma filter_reachable_exact_witness :
  ∃ self, build (H0:=order_forward) ReachSample.cyclic = Some self.
Proof.
  destruct (filter_reachable_exact (H:=string_event_id) (H0:=order_forward) ReachSample.cyclic cyclic_graph_wf) as (self & Hb & _).
  exists self. exact Hb.
Defined.

Lemma forward_closure_exact_witness :
  ∃ self, build (H0:=order_backward) ReachSample.dag = Some self.
Proof.
  destruct (forward_closure_exact (H:=string_event_id) (H0:=order_backward) ReachSample.dag sample_graph_wf) as (self & Hb & _).
  exists self. exact Hb.
Defined.

Lemma reach_answers_sound_witness :
  ∃ range, build (H0:=order_forward) ReachSample.cyclic = Some range
    ∧ ∃ r, reaches range "$a" "$c" = Some r ∧ answer_ok ReachSample.cyclic r "$a" "$c".
Proof.
  destruct (reach_answers_sound (H:=string_event_id) (H0:=order_forward) ReachSample.cyclic cyclic_graph_wf) as (range & bm & Hb & _ & Ha).
  destruct (Ha "$a" "$c") as (r & r' & Hr & _ & Hok & _). exists range. split; [exact Hb|]. exists r. split; assumption.
Defined.

Lemma reach_filters_agree_witness :
  ∃ range, build (H0:=order_forward) ReachSample.dag = Some range
    ∧ ∃ hits, filter_reachable range ["$join_a"] ["$rules"; "$create"; "$power"] = Some hits.
Proof.
  destruct (reach_filters_agree (H:=string_event_id) order_forward order_backward ReachSample.dag Sample.dag_depth sample_graph_wf)
    as (range & bm & Hb & _ & Ha).
  - apply edges_rank. apply (bool_decide_eq_true_1 _). vm_compute. reflexivity.
  - destruct (Ha ["$join_a"] ["$rules"; "$create"; "$power"]) as (hits & Hh & _).
    exists range. split; [exact Hb|]. exists hits. exact Hh.
Defined.
