(* ===== verification/Subgraph.v ===== *)
(** * The conflicted subgraph ([src/src/resolve/subgraph.rs])

    The events both above and below the conflicted events: a backwards search
    up the auth events, a forwards closure from the reachability index, and
    their intersection. A [BTreeSet] is a finite set iterated in id order. *)
From stdpp Require Import prelude gmap strings sorting.
From Stdlib Require String.
From S2P Require Import Prelude Dense EventTypes Json Events Reachability JsonContent Auth Samples Sorting Kahn ReachTopo ReachSearch ReachProps.

Section subgraph.
Context {Id C : Type} `{EventId Id}.
Implicit Types events : gmap Id (LeanEvent Id C).

(** [BTreeSet::iter]. *)
Definition set_iter (s : gset Id) : list Id := sort_by id_cmp (elements s).

Record SubgraphResult : Type := mkSubgraphResult {
  subgraph : gmap Id (LeanEvent Id C);
  missing_auth_events : list Id
}.

Record BackState : Type := mkBackState {
  backwards : gset Id;
  missing : gset Id;
  visited_depth : gmap Id nat
}.

(** One iteration of the backwards search. *)
Definition back_step events (max_auth_depth : option nat) (nd : Id * nat) (st : BackState)
    : loop_step (Id * nat) BackState :=
  let '(node, depth) := nd in
  if match visited_depth st !! node with None => true | Some old => depth <? old end then
    let visited := <[node := depth]> (visited_depth st) in
    let back := {[node]} ∪ backwards st in
    if match max_auth_depth with Some max_depth => max_depth <=? depth | None => false end
    then Push (mkBackState back (missing st) visited) []
    else
      match events !! node with
      | Some event =>
          Push (mkBackState back
                 (foldl (λ m auth_id, match events !! auth_id with
                                      | Some _ => m | None => {[auth_id]} ∪ m end)
                    (missing st) (auth_events event)) visited)
            (map (λ auth_id, (auth_id, depth + 1)) (auth_events event))
      | None => Push (mkBackState back (missing st) visited) []
      end
  else Push st [].

(** Every event is expanded at most once, so the queue never receives more
    than the conflicted ids and one entry per auth edge. *)
Definition auth_edges_of events (x : Id) : list Id :=
  match events !! x with Some ev => auth_events ev | None => [] end.
Definition back_fuel events (conflicted_set : list Id) : nat :=
  length conflicted_set + weight (auth_edges_of events) (dom events) ∅.

Definition collect_backwards_reachable events (conflicted_set : list Id) (max_auth_depth : option nat)
    : option (gset Id * gset Id) :=
  st ← drain (back_step events max_auth_depth) (back_fuel events conflicted_set)
    (map (λ s, (s, 0)) conflicted_set) (mkBackState ∅ ∅ ∅);
  Some (backwards st, missing st).

Definition collect_forwards_reachable events (reachability : RangePrefilterReachability Id)
    (conflicted_set : list Id) : option (gset Id) :=
  ids ← forward_reachable_ids reachability conflicted_set;
  Some (list_to_set (filter (λ id, is_Some (events !! id)) ids)).

(** Intersection, iterating the smaller set. *)
Definition intersect_sets (a b : gset Id) : list Id :=
  let '(smaller, larger) := if size a <=? size b then (a, b) else (b, a) in
  filter (λ id, id ∈ larger) (set_iter smaller).

Definition compute_v2_1_conflicted_subgraph_bounded `{HashOrder} events (conflicted_set : list Id)
    (max_auth_depth : option nat) : option SubgraphResult :=
  match conflicted_set with
  | [] => Some (mkSubgraphResult ∅ [])
  | _ =>
      '(backwards_reachable, missing_auth_events) ←
        collect_backwards_reachable events conflicted_set max_auth_depth;
      reachability ← build events;
      forwards_reachable ← collect_forwards_reachable events reachability conflicted_set;
      Some (mkSubgraphResult
        (foldl (λ m id, match events !! id with Some event => <[id := event]> m | None => m end) ∅
           (intersect_sets backwards_reachable forwards_reachable))
        (set_iter missing_auth_events))
  end.

Definition compute_v2_1_conflicted_subgraph `{HashOrder} events (conflicted_set : list Id)
    : option (gmap Id (LeanEvent Id C)) :=
  subgraph <$> compute_v2_1_conflicted_subgraph_bounded events conflicted_set None.

Definition conflicted_subgraph_ids_with_index events (reachability : RangePrefilterReachability Id)
    (conflicted_set : list Id) (max_auth_depth : option nat) : option (list Id) :=
  match conflicted_set with
  | [] => Some []
  | _ =>
      '(backwards_reachable, _) ← collect_backwards_reachable events conflicted_set max_auth_depth;
      let candidates := set_iter backwards_reachable in
      positions ← filter_reachable reachability conflicted_set candidates;
      mapM (λ position, candidates !! position) positions
  end.
End subgraph.
Arguments SubgraphResult Id C {_}.

(** ** The backwards search *)

Section backwards.
Context {Id C : Type} `{EventId Id}.
Context (events : gmap Id (LeanEvent Id C)) (cs : list Id) (max : option nat).

(** [x] cites [a], which may be missing. *)
Definition auth_of (x a : Id) : Prop := ∃ ev, events !! x = Some ev ∧ a ∈ auth_events ev.

Definition within (k : nat) : Prop := match max with Some m => k ≤ m | None => True end.
Definition below (k : nat) : Prop := match max with Some m => k < m | None => True end.

(** The ancestors within the bound: what the search should return. *)
Definition ancestor (x : Id) : Prop := ∃ c k, c ∈ cs ∧ within k ∧ nsteps auth_of k c x.

(** The missing events it should report: those an expanded event cites. *)
Definition missing_ancestor (a : Id) : Prop :=
  events !! a = None ∧ ∃ c k x, c ∈ cs ∧ below k ∧ nsteps auth_of k c x ∧ auth_of x a.

Record back_inv (q : list (Id * nat)) (st : BackState (Id:=Id)) : Prop := {
  bi_back x : x ∈ backwards st ↔ is_Some (visited_depth st !! x);
  bi_sound x d : visited_depth st !! x = Some d ∨ (x, d) ∈ q →
    within d ∧ ∃ c, c ∈ cs ∧ nsteps auth_of d c x;
  bi_sorted : StronglySorted le q.*2;
  bi_span x d y e : (x, d) ∈ q → (y, e) ∈ q → e ≤ d + 1;
  bi_depth x d y e : visited_depth st !! x = Some d → (y, e) ∈ q → d ≤ e;
  bi_seed c : c ∈ cs → visited_depth st !! c = Some 0 ∨ (c, 0) ∈ q;
  bi_closed x d a : visited_depth st !! x = Some d → below d → auth_of x a →
    ∃ d', d' ≤ d + 1 ∧ (visited_depth st !! a = Some d' ∨ (a, d') ∈ q);
  bi_missing a : a ∈ missing st ↔
    events !! a = None ∧ ∃ x d, visited_depth st !! x = Some d ∧ below d ∧ auth_of x a
}.

Lemma foldl_missing (l : list Id) (m : gset Id) a :
  a ∈ foldl (λ m auth_id, match events !! auth_id with Some _ => m | None => {[auth_id]} ∪ m end) m l
    ↔ a ∈ m ∨ a ∈ l ∧ events !! a = None.
Proof.
  revert m. induction l as [|b l IH]; intros m; simpl; [set_solver|]. rewrite IH, elem_of_cons.
  destruct (events !! b) as [e|] eqn:E; [|set_solver]. split; [naive_solver|].
  intros [?|[[->|?] ?]]; [by left|congruence|by right].
Qed.

Lemma auth_edges_of_spec x a : a ∈ auth_edges_of events x ↔ auth_of x a.
Proof.
  unfold auth_edges_of, auth_of. destruct (events !! x) as [ev|]; [|set_solver].
  split; [by exists ev|]. by intros (? & [= ->] & ?).
Qed.

(** Visiting [node] for the first time and pushing [new]. *)
Lemma back_visit node depth q st (new : list Id) (miss : gset Id) :
  back_inv ((node, depth) :: q) st → visited_depth st !! node = None →
  (∀ a, a ∈ new → below depth ∧ auth_of node a) →
  (∀ a, below depth → auth_of node a → a ∈ new) →
  (∀ a, a ∈ miss ↔ a ∈ missing st ∨ a ∈ new ∧ events !! a = None) →
  back_inv (q ++ map (λ a, (a, depth + 1)) new)
    (mkBackState ({[node]} ∪ backwards st) miss (<[node := depth]> (visited_depth st))).
Proof.
  intros [H1 H2 H3 H4 H5 H6 H7 H8] Hv Hnew Hall Hmiss.
  assert (∀ x e, (x, e) ∈ q ++ map (λ a, (a, depth + 1)) new ↔ (x, e) ∈ q ∨ x ∈ new ∧ e = depth + 1) as Hq.
  { intros x e. rewrite elem_of_app, (list_elem_of_fmap _ new). split; [|naive_solver].
    intros [?|(a & [= -> ->] & ?)]; [by left|by right]. }
  assert (∀ x d, <[node := depth]> (visited_depth st) !! x = Some d ↔
    visited_depth st !! x = Some d ∨ x = node ∧ d = depth) as Hvd.
  { intros x d. destruct (decide (node = x)) as [<-|Hne].
    - rewrite lookup_insert_eq, Hv. naive_solver.
    - rewrite lookup_insert_ne by done. naive_solver. }
  simpl in H3. apply StronglySorted_inv in H3 as [H3 Hhd]. rewrite Forall_fmap, Forall_forall in Hhd.
  destruct (H2 node depth) as [Hw (c0 & Hc0 & Hn0)]; [set_solver|].
  assert (∀ y e, (y, e) ∈ q → depth ≤ e) as Hge by (intros y e Hy; by apply (Hhd (y, e))).
  split; cbn [backwards missing visited_depth].
  - intros x. rewrite elem_of_union, H1, elem_of_singleton. destruct (decide (node = x)) as [<-|Hne].
    + rewrite lookup_insert_eq. split; [by eexists|by left].
    + rewrite lookup_insert_ne by done. naive_solver.
  - intros x d [[Hx|[-> ->]]%Hvd|[Hx|[Hx ->]]%Hq].
    + apply H2. by left.
    + split; [done|]. by exists c0.
    + apply H2. set_solver.
    + destruct (Hnew x Hx) as [Hb Ha]. split.
      * unfold below, within in *. destruct max; [lia|done].
      * exists c0. split; [done|]. rewrite Nat.add_1_r. by eapply nsteps_r.
  - rewrite fmap_app. apply StronglySorted_app. split_and!; [|done|].
    + intros d e ([x ?] & -> & Hx)%list_elem_of_fmap Hin.
      rewrite <-list_fmap_compose in Hin. apply list_elem_of_fmap in Hin as (? & -> & _). simpl.
      apply (H4 node depth x); set_solver.
    + rewrite <-list_fmap_compose. clear. induction new; simpl; constructor; [done|].
      apply Forall_fmap, Forall_true. intros; simpl; lia.
  - intros x d y e [Hx|[_ ->]]%Hq [Hy|[_ ->]]%Hq; [|apply Hge in Hx; lia| |lia].
    + apply (H4 x d y e); set_solver.
    + assert (e ≤ depth + 1) by (apply (H4 node depth y e); set_solver). lia.
  - intros x d y e [Hx|[-> ->]]%Hvd [Hy|[_ ->]]%Hq.
    + apply (H5 x d y e); [done|]. set_solver.
    + assert (d ≤ depth) by (apply (H5 x d node depth); [done|set_solver]). lia.
    + by eapply Hge.
    + lia.
  - intros c Hc. destruct (H6 c Hc) as [Hv0|[[= -> <-]|Hin]%elem_of_cons].
    + left. apply Hvd. by left.
    + left. apply Hvd. by right.
    + right. apply Hq. by left.
  - intros x d a [Hx|[-> ->]]%Hvd Hb Ha.
    + destruct (H7 x d a Hx Hb Ha) as (d' & Hle & [Hd'|[[= -> <-]|Hin]%elem_of_cons]); exists d';
        (split; [done|]); [left; apply Hvd; by left|left; apply Hvd; by right|right; apply Hq; by left].
    + exists (depth + 1). split; [done|]. right. apply Hq. right. split; [by apply Hall|done].
  - intros a. rewrite Hmiss, H8. split.
    + intros [(Ha & x & d & Hx & Hb & Hxa)|[Hn Ha]].
      * split; [done|]. exists x, d. split_and!; [apply Hvd; by left|done..].
      * split; [done|]. destruct (Hnew a Hn). exists node, depth. split_and!; [apply Hvd; by right|done..].
    + intros (Ha & x & d & [Hx|[-> ->]]%Hvd & Hb & Hxa); [left; eauto 6|right]. split; [by apply Hall|done].
Qed.

Lemma back_step_inv node depth q st :
  back_inv ((node, depth) :: q) st →
  ∃ st' new, back_step events max (node, depth) st = Push st' new ∧ back_inv (q ++ new) st'
    ∧ weight (auth_edges_of events) (dom events) (dom (visited_depth st')) + length new
        ≤ weight (auth_edges_of events) (dom events) (dom (visited_depth st)).
Proof.
  intros Hinv. unfold back_step. destruct (visited_depth st !! node) as [old|] eqn:Hv.
  { assert (old ≤ depth) as Hle by (apply (bi_depth _ _ Hinv node old node depth Hv); set_solver).
    destruct (Nat.ltb_spec depth old) as [Hlt|Hge]; [lia|].
    exists st, []. rewrite app_nil_r. split_and!; [done| |simpl; lia].
    destruct Hinv as [H1 H2 H3 H4 H5 H6 H7 H8]. split; try done.
    - intros x d [Hx|Hx]; apply H2; [by left|set_solver].
    - simpl in H3. by apply StronglySorted_inv in H3 as [? _].
    - intros x d y e Hx Hy. apply (H4 x d y e); set_solver.
    - intros x d y e Hx Hy. apply (H5 x d y e); set_solver.
    - intros c Hc. destruct (H6 c Hc) as [|[[= -> <-]|]%elem_of_cons]; [by left| |by right].
      left. rewrite Hv. f_equal. lia.
    - intros x d a Hx Hb Ha. destruct (H7 x d a Hx Hb Ha) as (d' & Hle' & [Hd'|[[= -> ->]|Hin]%elem_of_cons]).
      + exists d'. by split; [|left].
      + exists old. split; [lia|by left].
      + exists d'. by split; [|right]. }
  assert (∀ x, x ∉ dom events → auth_edges_of events x = []) as Hsup.
  { intros x Hx%not_elem_of_dom. unfold auth_edges_of. by rewrite Hx. }
  assert (node ∉ dom (visited_depth st)) as Hnd by (by apply not_elem_of_dom).
  pose proof (weight_visit _ _ Hsup node _ Hnd) as Hw.
  assert (∀ m : option nat, max = m → match m with Some m => m <=? depth | None => false end = false ↔ below depth) as Hbelow.
  { intros m Hm. unfold below. rewrite Hm. destruct m; [apply Nat.leb_gt|done]. }
  destruct (match max with Some m => m <=? depth | None => false end) eqn:Em.
  - exists (mkBackState ({[node]} ∪ backwards st) (missing st) (<[node:=depth]> (visited_depth st))), [].
    split_and!; [done| |].
    + apply (back_visit node depth q st []); [done..|set_solver| |set_solver].
      intros a Hb. apply (Hbelow max eq_refl) in Hb. congruence.
    + simpl. rewrite dom_insert_L. lia.
  - apply (Hbelow max eq_refl) in Em as Hb.
    assert (∀ a, a ∈ auth_edges_of events node ↔ auth_of node a) as Hedge by apply auth_edges_of_spec.
    unfold auth_edges_of in Hedge, Hw at 2. destruct (events !! node) as [ev|] eqn:Ee.
    + eexists _, _. split; [done|]. split; [apply back_visit; [done|done|..]|].
      * intros a Ha. split; [done|]. by apply Hedge.
      * intros a _ Ha. by apply Hedge.
      * intros a. apply foldl_missing.
      * cbn [visited_depth]. rewrite dom_insert_L, length_map. lia.
    + exists (mkBackState ({[node]} ∪ backwards st) (missing st) (<[node:=depth]> (visited_depth st))), [].
      split_and!; [done| |].
      * apply (back_visit node depth q st []); [done..|set_solver| |set_solver].
        intros a _ Ha. by apply Hedge.
      * simpl. rewrite dom_insert_L. lia.
Qed.

(** The search ends, and returns the ancestors within the bound and the
    missing events cited strictly within it. *)
Lemma collect_backwards_reachable_spec :
  ∃ back miss, collect_backwards_reachable events cs max = Some (back, miss)
    ∧ (∀ x, x ∈ back ↔ ancestor x) ∧ (∀ a, a ∈ miss ↔ missing_ancestor a).
Proof.
  unfold collect_backwards_reachable. rewrite drain_try.
  destruct (try_drain_spec (λ x s, Some (back_step events max x s)) back_inv (back_inv [])
    (λ q st, weight (auth_edges_of events) (dom events) (dom (visited_depth st)) + length q)
    (back_fuel events cs) (map (λ s, (s, 0)) cs) (mkBackState ∅ ∅ ∅)) as (st & -> & Hinv).
  - intros [node depth] q st Hinv. destruct (back_step_inv _ _ _ _ Hinv) as (st' & new & -> & Hinv' & Hw).
    eexists. split; [done|]. simpl. rewrite length_app. split; [lia|]. split; [done|lia].
  - done.
  - assert (∀ x d, (x, d) ∈ map (λ s : Id, (s, 0)) cs ↔ x ∈ cs ∧ d = 0) as Hq.
    { intros x d. rewrite (list_elem_of_fmap _ cs). naive_solver. }
    split; cbn [backwards missing visited_depth].
    + intros x. rewrite lookup_empty. split; [set_solver|by intros [??]].
    + intros x d [Hx|[Hx ->]%Hq]; [by rewrite lookup_empty in Hx|]. split.
      * unfold within. destruct max; [lia|done].
      * exists x. split; [done|constructor].
    + clear. induction cs; simpl; constructor; [done|]. apply Forall_fmap.
      apply Forall_forall. intros [y e] Hy. simpl. lia.
    + intros x d y e [_ ->]%Hq [_ ->]%Hq. lia.
    + intros x d y e Hx. by rewrite lookup_empty in Hx.
    + intros c Hc. right. by apply Hq.
    + intros x d a Hx. by rewrite lookup_empty in Hx.
    + intros a. split; [set_solver|]. intros (_ & x & d & Hx & _). by rewrite lookup_empty in Hx.
  - simpl. rewrite length_map. unfold back_fuel. rewrite dom_empty_L. lia.
  - simpl. eexists _, _. split; [done|]. destruct Hinv as [H1 H2 H3 H4 H5 H6 H7 H8].
    assert (∀ k c x, c ∈ cs → within k → nsteps auth_of k c x →
      ∃ d, d ≤ k ∧ visited_depth st !! x = Some d) as Hcomp.
    { induction k as [|k IH]; intros c x Hc Hw Hn.
      - inversion Hn; subst. destruct (H6 x Hc) as [?|?%not_elem_of_nil]; [by exists 0|done].
      - apply nsteps_inv_r in Hn as (y & Hn & Hyx).
        assert (within k ∧ below k) as [Hwk Hbk].
        { unfold within, below in *. destruct max; [lia|done]. }
        destruct (IH c y Hc Hwk Hn) as (d & Hle & Hy).
        assert (below d) by (unfold below in *; destruct max; [lia|done]).
        destruct (H7 y d x Hy) as (d' & Hle' & [Hd'|?%not_elem_of_nil]); [done..| |done].
        exists d'. split; [lia|done]. }
    split.
    + intros x. rewrite H1. split.
      * intros [d Hd]. destruct (H2 x d) as (Hw & c & Hc & Hn); [by left|]. by exists c, d.
      * intros (c & k & Hc & Hw & Hn). destruct (Hcomp k c x Hc Hw Hn) as (d & _ & Hd). by eexists.
    + intros a. rewrite H8. split; intros [Ha Hex]; (split; [done|]).
      * destruct Hex as (x & d & Hx & Hb & Hxa). destruct (H2 x d) as (Hw & c & Hc & Hn); [by left|].
        by exists c, d, x.
      * destruct Hex as (c & k & x & Hc & Hb & Hn & Hxa).
        assert (within k) as Hw by (unfold within, below in *; destruct max; [lia|done]).
        destruct (Hcomp k c x Hc Hw Hn) as (d & Hle & Hd). exists x, d. split_and!; [done| |done].
        unfold below in *. destruct max; [lia|done].
Qed.
End backwards.

(** ** Correctness of the conflicted subgraph

    The subgraph is the set of events lying on a citation path from one
    conflicted event down to another, and the variant over a prebuilt index of
    a larger graph returns the same ids. *)

Section subgraph_props.
Context {Id C : Type} `{EventId Id}.
Implicit Types graph : gmap Id (LeanEvent Id C).

Lemma cited_by_auth graph x y : cited_by graph x y ↔ auth_of graph y x ∧ x ∈ dom graph.
Proof.
  unfold cited_by, edges_in, auth_of. rewrite elem_of_dom. destruct (graph !! y) as [ev|]; [|set_solver].
  rewrite list_elem_of_filter, dag_edges_auth. naive_solver.
Qed.

(** Descending from [s] is being above it along citations. *)
Lemma descends_auth graph s x : s ∈ dom graph → descends graph s x ↔ rtc (auth_of graph) x s.
Proof.
  intros Hs. split.
  - induction 1 as [s|s z x Hsz Hzx IH]; [constructor|]. apply cited_by_auth in Hsz as [Hsz _].
    eapply rtc_r; [|exact Hsz]. apply IH. destruct Hsz as (ev & Hz & _). apply elem_of_dom. by eexists.
  - induction 1 as [x|x z s Hxz Hzs IH]; [constructor|]. eapply rtc_r; [by apply IH|].
    apply cited_by_auth. split; [done|]. inversion Hzs as [|? ? ? (ev & Hz & _)]; subst; [done|].
    apply elem_of_dom. by eexists.
Qed.

Lemma elem_of_set_iter (s : gset Id) x : x ∈ set_iter s ↔ x ∈ s.
Proof. unfold set_iter. by rewrite sort_by_perm, elem_of_elements. Qed.

Lemma elem_of_intersect_sets (a b : gset Id) x : x ∈ intersect_sets a b ↔ x ∈ a ∧ x ∈ b.
Proof.
  unfold intersect_sets. destruct (size a <=? size b); rewrite list_elem_of_filter, elem_of_set_iter; tauto.
Qed.

Lemma insert_present graph (l : list Id) (m : gmap Id (LeanEvent Id C)) id :
  foldl (λ m id, match graph !! id with Some event => <[id := event]> m | None => m end) m l !! id =
    if decide (id ∈ l) then match graph !! id with Some e => Some e | None => m !! id end else m !! id.
Proof. apply (foldl_insert_by_key (λ id, graph !! id)). Qed.

(** The events between two conflicted ones, at most [max] citations below the
    upper one. *)
Definition between graph (cs : list Id) (max : option nat) (id : Id) : Prop :=
  id ∈ dom graph ∧ ancestor graph cs max id ∧
  ∃ bottom, bottom ∈ cs ∧ bottom ∈ dom graph ∧ rtc (auth_of graph) id bottom.

Lemma between_descends graph cs max id :
  between graph cs max id ↔ ancestor graph cs max id ∧
    ∃ s, s ∈ cs ∧ s ∈ dom graph ∧ descends graph s id.
Proof.
  unfold between. split.
  - intros (_ & Ha & s & Hs & Hd & Hr). split; [done|]. exists s. by rewrite descends_auth.
  - intros (Ha & s & Hs & Hd & Hr). split_and!; [by eapply descends_dom|done|]. exists s.
    by rewrite <-descends_auth.
Qed.

Lemma bounded_spec `{Ho : HashOrder} graph cs max :
  graph_wf graph →
  ∃ r, compute_v2_1_conflicted_subgraph_bounded graph cs max = Some r
    ∧ (∀ id ev, subgraph r !! id = Some ev ↔ graph !! id = Some ev ∧ between graph cs max id)
    ∧ (∃ miss, missing_auth_events r = set_iter miss ∧ ∀ a, a ∈ miss ↔ missing_ancestor graph cs max a).
Proof.
  intros Hwf. unfold compute_v2_1_conflicted_subgraph_bounded.
  destruct (decide (cs = [])) as [->|Hne].
  { eexists. split; [done|]. simpl. split.
    - intros id ev. rewrite lookup_empty. split; [done|]. intros (_ & _ & (c & _ & Hc & _) & _). set_solver.
    - exists ∅. split; [done|]. intros a. split; [set_solver|]. intros (_ & c & _ & _ & Hc & _). set_solver. }
  destruct cs as [|c0 cs0] eqn:Ecs; [done|]. rewrite <-Ecs. clear Hne.
  destruct (collect_backwards_reachable_spec graph cs max) as (back & miss & -> & Hb & Hm). simpl.
  destruct (build_spec graph Hwf) as (self & settled & -> & Hib). simpl.
  unfold collect_forwards_reachable.
  destruct (forward_spec graph self settled cs Hib) as (ids & -> & _ & Hids). simpl.
  eexists. split; [done|]. cbn [subgraph missing_auth_events]. split; [|by exists miss].
  intros id ev. rewrite insert_present, lookup_empty, between_descends.
  assert (id ∈ intersect_sets back (list_to_set (filter (λ id, is_Some (graph !! id)) ids)) ↔
    ancestor graph cs max id ∧ ∃ s, s ∈ cs ∧ s ∈ dom graph ∧ descends graph s id) as Hin.
  { rewrite elem_of_intersect_sets, elem_of_list_to_set, list_elem_of_filter, Hb, Hids.
    split; [tauto|]. intros [Ha Hs]. split; [done|]. split; [|done].
    destruct Hs as (s & _ & Hd & Hs). apply elem_of_dom. by eapply descends_dom. }
  case_decide as Hd.
  - apply Hin in Hd. destruct (graph !! id); naive_solver.
  - split; [done|]. intros [_ Hbt]. exfalso. by apply Hd, Hin.
Qed.

(** Ancestors only look at the events of a closed context. *)
Lemma ancestor_context (ctx graph : gmap Id (LeanEvent Id C)) cs max x :
  ctx ⊆ graph → (∀ c, c ∈ cs → c ∈ dom graph → c ∈ dom ctx) →
  (∀ y ev a, ctx !! y = Some ev → a ∈ auth_events ev → a ∈ dom graph → a ∈ dom ctx) →
  ancestor ctx cs max x → ancestor graph cs max x ∧ (x ∈ dom graph → x ∈ dom ctx).
Proof.
  intros Hsub Hcs Hcl (c & k & Hc & Hw & Hn). split.
  - exists c, k. split_and!; [done..|]. clear Hc Hw. induction Hn as [|k c y x (ev & Hy & Ha) _ IH]; [constructor|].
    econstructor; [|done]. exists ev. split; [by eapply lookup_weaken|done].
  - destruct k as [|k]; [inversion Hn; subst; by apply Hcs|].
    apply nsteps_inv_r in Hn as (y & _ & ev & Hy & Ha). by eapply Hcl.
Qed.

Lemma descends_context (ctx graph : gmap Id (LeanEvent Id C)) s x :
  ctx ⊆ graph →
  (∀ y ev a, ctx !! y = Some ev → a ∈ auth_events ev → a ∈ dom graph → a ∈ dom ctx) →
  x ∈ dom ctx → descends graph s x ∧ s ∈ dom graph ↔ descends ctx s x ∧ s ∈ dom ctx.
Proof.
  intros Hsub Hcl Hx. assert (dom ctx ⊆ dom graph) as Hdom by (by apply subseteq_dom).
  split; intros [Hd Hs].
  - assert (s ∈ dom ctx) as Hsc; [|split; [|done]].
    + clear -Hd Hx Hcl Hsub. induction Hd as [|s z x Hsz _ IH]; [done|]. specialize (IH Hx).
      apply cited_by_auth in Hsz as [(ev & Hz & Ha) Hs]. apply elem_of_dom in IH as [ev' Hz'].
      eapply Hcl; [done| |done]. rewrite (lookup_weaken _ _ _ _ Hz' Hsub) in Hz. by simplify_eq.
    + apply descends_auth; [done|]. apply descends_auth in Hd; [|done]. clear Hsc.
      induction Hd as [|x z s (ev & Hxe & Ha) Hzs IH]; [constructor|].
      apply elem_of_dom in Hx as [ev' Hx']. rewrite (lookup_weaken _ _ _ _ Hx' Hsub) in Hxe. simplify_eq.
      eapply rtc_l; [by exists ev|]. apply IH; [|done].
      inversion Hzs as [|? ? ? (ev1 & Hz & _)]; subst; eapply Hcl; [done..| |done|done|];
        [done|apply elem_of_dom; by eexists].
  - split; [|set_solver]. apply descends_auth; [set_solver|]. apply descends_auth in Hd; [|done].
    clear -Hd Hsub. induction Hd as [|x z s (ev & Hxe & Ha) _ IH]; [constructor|].
    eapply rtc_l; [|done]. exists ev. split; [by eapply lookup_weaken|done].
Qed.

Lemma index_variant_spec (ctx graph : gmap Id (LeanEvent Id C)) self settled cs max :
  index_built graph self settled →
  ctx ⊆ graph → (∀ c, c ∈ cs → c ∈ dom graph → c ∈ dom ctx) →
  (∀ y ev a, ctx !! y = Some ev → a ∈ auth_events ev → a ∈ dom graph → a ∈ dom ctx) →
  ∃ ids, conflicted_subgraph_ids_with_index ctx self cs max = Some ids ∧ NoDup ids
    ∧ ∀ id, id ∈ ids ↔ between ctx cs max id.
Proof.
  intros Hib Hsub Hcs Hcl. unfold conflicted_subgraph_ids_with_index.
  destruct (decide (cs = [])) as [->|Hne].
  { exists []. split_and!; [done|constructor|]. intros id. split; [set_solver|].
    intros (_ & (c & _ & Hc & _) & _). set_solver. }
  destruct cs as [|c0 cs0]; [done|]. set (cs := c0 :: cs0) in *. clear Hne.
  destruct (collect_backwards_reachable_spec ctx cs max) as (back & miss & -> & Hb & _). simpl.
  destruct (filter_spec graph self settled cs (set_iter back) Hib) as (hits & mode & Hf & Hsort & Hh & _).
  unfold filter_reachable. rewrite Hf. simpl.
  destruct (lookup_all (set_iter back) hits) as (ids & -> & Hids & Hnd).
  { intros p (s & x & _ & _ & Hx & _)%Hh. by eapply lookup_lt_Some. }
  exists ids. split_and!; [done| |].
  - apply Hnd; [unfold set_iter; rewrite sort_by_perm; apply NoDup_elements|].
    by apply sorted_lt_NoDup.
  - intros id. rewrite Hids, between_descends, <-Hb, <-elem_of_set_iter. split.
    + intros (p & (s & x & Hs & Hd & Hx & Hsx)%Hh & Hp). rewrite Hx in Hp. simplify_eq.
      apply list_elem_of_lookup_2 in Hx as Hin. split; [done|].
      apply elem_of_set_iter, Hb in Hin.
      destruct (ancestor_context ctx graph cs max id) as [_ Hctx]; [done..|].
      assert (id ∈ dom ctx) by (apply Hctx; by eapply descends_dom).
      exists s. rewrite (and_comm (s ∈ dom ctx)), <-(descends_context ctx graph s id); done.
    + intros [Hin (s & Hs & Hd & Hsx)]. apply list_elem_of_lookup in Hin as [p Hp]. exists p.
      split; [|done]. apply Hh. exists s, id.
      assert (id ∈ dom ctx) by (by eapply descends_dom).
      destruct (proj2 (descends_context ctx graph s id Hsub Hcl H0)); done.
Qed.

(** C24: the conflicted subgraph is computed without panicking on every
    graph, and holds exactly the events on a citation path from a conflicted
    event (at most the given number of citations below it) down to a
    conflicted event of the graph; the missing events reported, in id order,
    are exactly those that an event strictly within the bound cites. *)
Theorem conflicted_subgraph_between `{HashOrder} graph (conflicted_set : list Id) (max_auth_depth : option nat) :
  graph_wf graph →
  ∃ r, compute_v2_1_conflicted_subgraph_bounded graph conflicted_set max_auth_depth = Some r
    ∧ (∀ id ev, subgraph r !! id = Some ev ↔
         graph !! id = Some ev ∧ between graph conflicted_set max_auth_depth id)
    ∧ (∃ miss, missing_auth_events r = set_iter miss
         ∧ ∀ a, a ∈ miss ↔ missing_ancestor graph conflicted_set max_auth_depth a).
Proof. apply bounded_spec. Qed.

(** Over a context closed under its auth events, the variant with a
    prebuilt index of a larger graph returns the ids of the subgraph computed
    from the context alone, each once. *)
Theorem subgraph_index_agrees (o1 o2 : HashOrder) (event_context graph : gmap Id (LeanEvent Id C))
    (conflicted_set : list Id) max_auth_depth :
  graph_wf graph → graph_wf event_context → event_context ⊆ graph →
  (∀ c, c ∈ conflicted_set → c ∈ dom graph → c ∈ dom event_context) →
  (∀ y ev a, event_context !! y = Some ev → a ∈ auth_events ev → a ∈ dom graph → a ∈ dom event_context) →
  ∃ reachability r ids, build (H0:=o1) graph = Some reachability
    ∧ compute_v2_1_conflicted_subgraph_bounded (H0:=o2) event_context conflicted_set max_auth_depth = Some r
    ∧ conflicted_subgraph_ids_with_index event_context reachability conflicted_set max_auth_depth = Some ids
    ∧ NoDup ids ∧ ∀ id, id ∈ ids ↔ id ∈ dom (subgraph r).
Proof.
  intros Hwf Hwfc Hsub Hcs Hcl. destruct (build_spec (Ho:=o1) graph Hwf) as (self & settled & Hb & Hib).
  destruct (bounded_spec (Ho:=o2) event_context conflicted_set max_auth_depth Hwfc) as (r & Hr & Hs & _).
  destruct (index_variant_spec event_context graph self settled conflicted_set max_auth_depth)
    as (ids & Hi & Hnd & Hids); [done..|].
  exists self, r, ids. split_and!; [done..|]. intros id. rewrite Hids, elem_of_dom. split.
  - intros Hbt. pose proof Hbt as ([ev Hev]%elem_of_dom & _). exists ev. by apply Hs.
  - intros [ev Hev]. by apply Hs in Hev as [_ ?].
Qed.
End subgraph_props.

(** ** Examples *)

Lemma conflicted_subgraph_between_witness :
  ∃ r, compute_v2_1_conflicted_subgraph_bounded (H0:=order_forward) ReachSample.dag ["$create"; "$rules"] None = Some r.
Proof.
  destruct (conflicted_subgraph_between (H:=string_event_id) (H0:=order_forward) ReachSample.dag
    ["$create"; "$rules"] None sample_graph_wf) as (r & Hr & _). exists r. exact Hr.
Defined.

Lemma subgraph_index_agrees_witness :
  ∃ reachability, build (H0:=order_forward) ReachSample.dag = Some reachability.
Proof.
  destruct (subgraph_index_agrees (H:=string_event_id) order_forward order_backward ReachSample.dag ReachSample.dag
    ["$join_a"; "$power"] None sample_graph_wf sample_graph_wf) as (self & r & ids & Hb & _).
  - reflexivity.
  - intros c _ Hc. exact Hc.
  - intros y ev a _ _ Ha. exact Ha.
  - exists self. exact Hb.
Defined.
