(* ===== verification/AuthDiff.v ===== *)
(** * Partition and auth difference ([src/src/resolve/multi.rs])

    [partition_state_maps] splits the entries of several state maps into those
    all maps agree on and the ids of the others; [auth_difference] collects the
    auth ancestors reached by some maps but not all. *)
From stdpp Require Import prelude gmap strings sorting.
From Stdlib Require String.
From S2P Require Import Prelude Dense EventTypes Json Events.

Section state_maps.
Context {Id : Type} `{EventId Id}.
Abbreviation key := (string * string)%type.
Abbreviation shared_state := (gmap key Id).

(** The entries of a [SharedState], in key order. *)
Definition state_iter (m : shared_state) : list (key * Id) :=
  sort_by (cmp_on fst (cmp_pair String.compare String.compare)) (map_to_list m).
Definition state_values (m : shared_state) : list Id := (state_iter m).*2.

(** ** [partition_state_maps] *)

Record Occurrence : Type := mkOccurrence {
  first_id : Id;
  count : N;
  conflicts : option (list Id * gset Id)
}.

Definition add_conflict (first : Id) (conflicts : option (list Id * gset Id)) (id : Id)
    : list Id * gset Id :=
  match conflicts with
  | None => ([first; id], {[first; id]})
  | Some (ids, seen) =>
      if decide (id ∈ seen) then (ids, seen) else (ids ++ [id], {[id]} ∪ seen)
  end.

Definition scan_entry (occurrences : gmap key Occurrence) (kv : key * Id) : gmap key Occurrence :=
  match occurrences !! kv.1 with
  | None => <[kv.1 := mkOccurrence kv.2 1 None]> occurrences
  | Some occ =>
      <[kv.1 := mkOccurrence (first_id occ) (usize_saturating_add (count occ) 1)
          (if decide (first_id occ = kv.2) then conflicts occ
           else Some (add_conflict (first_id occ) (conflicts occ) kv.2))]> occurrences
  end.

Definition place_occurrence (num_maps : N) (st : shared_state * list Id) (kv : key * Occurrence)
    : shared_state * list Id :=
  let occ := kv.2 in
  match conflicts occ with
  | None =>
      if (count occ =? num_maps)%N then (<[kv.1 := first_id occ]> st.1, st.2)
      else (st.1, st.2 ++ [first_id occ])
  | Some (ids, _) => (st.1, st.2 ++ ids)
  end.

Definition partition_state_maps `{HashOrder} (state_maps : list (list (key * Id))) (num_maps : N)
    : shared_state * list Id :=
  foldl (place_occurrence num_maps) (∅, [])
    (hm_iter (foldl (λ occ map, foldl scan_entry occ map) ∅ state_maps)).

(** ** [auth_difference]

    The event source [event_auth] returns an event's depth and, on request,
    its auth events, and may change its own state (a lazy provider caches what
    it fetches). Every id is pushed at most once onto each heap, and only when
    the source knows it, so the number of known ids is enough fuel. *)

Section auth_difference.
Context {St : Type} (event_auth : Id → bool → St → option (N * list Id) * St).
Abbreviation heap := (list (N * Id)).

Definition pop (h : heap) : option ((N * Id) * heap) := heap_pop (cmp_pair N.compare id_cmp) h.

(** Marks the ids not yet visited and pushes them with their depth; the first
    unknown one is the error. *)
Fixpoint push_unconflicted (ids : list Id) (visited : gset Id) (h : heap) (s : St)
    : result (gset Id * heap) Id * St :=
  match ids with
  | [] => (Ok (visited, h), s)
  | id :: ids =>
      if decide (id ∈ visited) then push_unconflicted ids visited h s
      else
        let '(r, s) := event_auth id false s in
        match r with
        | None => (Err id, s)
        | Some (depth, _) => push_unconflicted ids ({[id]} ∪ visited) ((depth, id) :: h) s
        end
  end.

Fixpoint unconflicted_closure (fuel : nat) (visited : gset Id) (h : heap) (s : St)
    : option (result (gset Id) Id * St) :=
  match pop h with
  | None => Some (Ok visited, s)
  | Some ((_, u_id), h) =>
      match fuel with
      | O => None
      | S fuel =>
          let '(r, s) := event_auth u_id true s in
          match r with
          | None => Some (Err u_id, s)
          | Some (_, auth_ids) =>
              let '(r, s) := push_unconflicted auth_ids visited h s in
              match r with
              | Err id => Some (Err id, s)
              | Ok (visited, h) => unconflicted_closure fuel visited h s
              end
          end
      end
  end.

Fixpoint enqueue_conflicted_auth_events (auth_ids : list Id) (unconflicted_visited conflicted_visited : gset Id)
    (h : heap) (s : St) : gset Id * heap * St :=
  match auth_ids with
  | [] => (conflicted_visited, h, s)
  | auth_id :: auth_ids =>
      if decide (auth_id ∈ unconflicted_visited) then
        enqueue_conflicted_auth_events auth_ids unconflicted_visited conflicted_visited h s
      else if decide (auth_id ∈ conflicted_visited) then
        enqueue_conflicted_auth_events auth_ids unconflicted_visited conflicted_visited h s
      else
        let '(r, s) := event_auth auth_id false s in
        enqueue_conflicted_auth_events auth_ids unconflicted_visited ({[auth_id]} ∪ conflicted_visited)
          (match r with Some (depth, _) => (depth, auth_id) :: h | None => h end) s
  end.

(** The auth events of one map's conflicted state events. *)
Fixpoint seed_chain (ids : list Id) (u_visited c_visited : gset Id) (h : heap) (s : St)
    : gset Id * heap * St :=
  match ids with
  | [] => (c_visited, h, s)
  | id :: ids =>
      let '(r, s) := event_auth id true s in
      match r with
      | None => seed_chain ids u_visited c_visited h s
      | Some (_, auth_ids) =>
          let '(c_visited, h, s) := enqueue_conflicted_auth_events auth_ids u_visited c_visited h s in
          seed_chain ids u_visited c_visited h s
      end
  end.

Fixpoint walk_chain (fuel : nat) (u_visited c_visited : gset Id) (h : heap) (chain : gset Id) (s : St)
    : option (gset Id * St) :=
  match pop h with
  | None => Some (chain, s)
  | Some ((_, c_id), h) =>
      match fuel with
      | O => None
      | S fuel =>
          if decide (c_id ∈ u_visited) then walk_chain fuel u_visited c_visited h chain s
          else
            let chain := {[c_id]} ∪ chain in
            let '(r, s) := event_auth c_id true s in
            match r with
            | None => walk_chain fuel u_visited c_visited h chain s
            | Some (_, auth_ids) =>
                let '(c_visited, h, s) :=
                  enqueue_conflicted_auth_events auth_ids u_visited c_visited h s in
                walk_chain fuel u_visited c_visited h chain s
            end
      end
  end.

Fixpoint collect_chains (fuel : nat) (conflicted : gset Id) (u_visited : gset Id)
    (state_maps : list shared_state) (s : St) : option (list (gset Id) * St) :=
  match state_maps with
  | [] => Some ([], s)
  | state :: state_maps =>
      let '(c_visited, h, s) :=
        seed_chain (filter (λ id, id ∈ conflicted) (state_values state)) u_visited ∅ [] s in
      '(chain, s) ← walk_chain fuel u_visited c_visited h ∅ s;
      '(chains, s) ← collect_chains fuel conflicted u_visited state_maps s;
      Some (chain :: chains, s)
  end.

Definition auth_difference (fuel : nat) (unconflicted_state : shared_state)
    (state_maps : list shared_state) (conflicted_ids : list Id) (s : St)
    : option (result (list Id) Id * St) :=
  let conflicted : gset Id := list_to_set conflicted_ids in
  let '(r, s) := push_unconflicted (state_values unconflicted_state) ∅ [] s in
  match r with
  | Err id => Some (Err id, s)
  | Ok (u_visited, u_heap) =>
      '(r, s) ← unconflicted_closure fuel u_visited u_heap s;
      match r with
      | Err id => Some (Err id, s)
      | Ok u_visited =>
          '(chains, s) ← collect_chains fuel conflicted u_visited state_maps s;
          let union : gset Id := ⋃ chains in
          let diff := filter (λ id, ¬ Forall (λ chain : gset Id, id ∈ chain) chains) (elements union) in
          Some (Ok (sort_by id_cmp diff), s)
      end
  end.
End auth_difference.
End state_maps.
