(* ===== verification/AuthDiffProps.v ===== *)
(** * Correctness of the partition and of the auth difference *)
From stdpp Require Import prelude gmap strings sorting.
From Stdlib Require String.
From S2P Require Import Prelude Dense EventTypes Json Events AuthDiff.

Section partition.
Context {Id : Type} `{EventId Id}.
Abbreviation key := (string * string)%type.
Abbreviation shared_state := (gmap key Id).

Lemma state_iter_perm (m : shared_state) : state_iter m ≡ₚ map_to_list m.
Proof. apply sort_by_perm. Qed.

Lemma elem_of_state_iter (m : shared_state) k id : (k, id) ∈ state_iter m ↔ m !! k = Some id.
Proof. by rewrite state_iter_perm, elem_of_map_to_list. Qed.

Lemma elem_of_state_values (m : shared_state) id : id ∈ state_values m ↔ ∃ k, m !! k = Some id.
Proof.
  unfold state_values. rewrite list_elem_of_fmap. split.
  - intros ([k id'] & -> & Hin). exists k. by apply elem_of_state_iter.
  - intros [k Hk]. exists (k, id). split; [done|]. by apply elem_of_state_iter.
Qed.

(** The ids of one key, in scanning order. *)
Definition ids_at (k : key) (l : list (key * Id)) : list Id :=
  omap (λ kv, if decide (kv.1 = k) then Some kv.2 else None) l.

Lemma ids_at_app k l l' : ids_at k (l ++ l') = ids_at k l ++ ids_at k l'.
Proof. unfold ids_at. by rewrite omap_app. Qed.

Lemma elem_of_ids_at k l id : id ∈ ids_at k l ↔ (k, id) ∈ l.
Proof.
  unfold ids_at. rewrite list_elem_of_omap. split.
  - intros ([k' id'] & Hin & Hx). simpl in Hx. case_decide; by simplify_eq.
  - intros Hin. exists (k, id). split; [done|]. simpl. by rewrite decide_True.
Qed.

Lemma ids_at_state (k : key) (m : shared_state) : ids_at k (state_iter m) = match m !! k with Some id => [id] | None => [] end.
Proof.
  assert (NoDup (state_iter m).*1) as Hnd.
  { rewrite state_iter_perm. apply NoDup_fst_map_to_list. }
  assert (∀ id, id ∈ ids_at k (state_iter m) ↔ m !! k = Some id) as Hin.
  { intros id. by rewrite elem_of_ids_at, elem_of_state_iter. }
  assert (length (ids_at k (state_iter m)) ≤ 1) as Hlen.
  { clear Hin. induction (state_iter m) as [|[k' id'] l IH]; [simpl; lia|].
    csimpl in Hnd. apply NoDup_cons in Hnd as [Hni Hnd]. specialize (IH Hnd). unfold ids_at. csimpl.
    case_decide as Hk; [|done]. subst k'. csimpl.
    assert (ids_at k l = []) as E; [|unfold ids_at in E; rewrite E; simpl; lia].
    apply elem_of_nil_inv. intros x Hx%elem_of_ids_at. apply Hni, list_elem_of_fmap. by exists (k, x). }
  destruct (ids_at k (state_iter m)) as [|x [|y l]] eqn:E; [| |simpl in Hlen; lia].
  - destruct (m !! k) as [id|] eqn:Em; [|done]. by destruct (not_elem_of_nil id); apply Hin.
  - assert (m !! k = Some x) as -> by (apply Hin; set_solver). done.
Qed.

(** What the tally of a key says of the ids scanned for it. *)
Definition occurrence_of (l : list Id) (o : option Occurrence) : Prop :=
  match l, o with
  | [], None => True
  | x :: l', Some occ =>
      first_id occ = x
      ∧ count occ = N.of_nat (length l)
      ∧ match conflicts occ with
        | None => Forall (λ y, y = x) l'
        | Some (ids, seen) => ¬ Forall (λ y, y = x) l' ∧ (∀ y, y ∈ ids ↔ y ∈ l) ∧ (∀ y, y ∈ seen ↔ y ∈ l)
        end
  | _, _ => False
  end.

Lemma scan_entry_spec (occ : gmap key Occurrence) l kv :
  (N.of_nat (length l) < USIZE_MAX)%N → (∀ k, occurrence_of (ids_at k l) (occ !! k)) →
  ∀ k, occurrence_of (ids_at k (l ++ [kv])) (scan_entry occ kv !! k).
Proof.
  intros Hlen Hocc k. destruct kv as [k0 id]. rewrite ids_at_app. unfold ids_at at 2. simpl.
  destruct (decide (k0 = k)) as [->|Hne]; simpl.
  2:{ rewrite app_nil_r. unfold scan_entry. simpl. destruct (occ !! k0); by rewrite lookup_insert_ne. }
  specialize (Hocc k). unfold scan_entry. simpl.
  assert (length (ids_at k l) ≤ length l) as Hle by apply length_omap_le.
  destruct (ids_at k l) as [|x l'] eqn:El, (occ !! k) as [o|] eqn:Eo; simpl in Hocc; try done;
    rewrite lookup_insert_eq; simpl.
  { split_and!; [done..|constructor]. }
  destruct Hocc as (Hf & Hc & Hconf). split_and!; [done| |].
  { rewrite Hc. unfold usize_saturating_add. rewrite length_app. simpl in *. lia. }
  assert (∀ y, y ∈ x :: l' ++ [id] ↔ y ∈ x :: l' ∨ y = id) as Hsnoc.
  { intros y. by rewrite app_comm_cons, elem_of_app, list_elem_of_singleton. }
  assert (¬ Forall (λ y, y = x) l' → ¬ Forall (λ y, y = x) (l' ++ [id])) as Hmono.
  { intros Hn [Hall _]%Forall_app. done. }
  rewrite Hf. destruct (decide (x = id)) as [<-|Hd].
  - destruct (conflicts o) as [[ids seen]|].
    + destruct Hconf as (Hn & Hi & Hs). split_and!; [by apply Hmono|..]; intros y; rewrite Hsnoc;
        [rewrite Hi|rewrite Hs]; split; [by left| |by left|]; intros [?| ->]; set_solver.
    + apply Forall_app. split; [done|]. by constructor.
  - unfold add_conflict. destruct (conflicts o) as [[ids seen]|].
    + destruct Hconf as (Hn & Hi & Hs). destruct (decide (id ∈ seen)) as [Hin|Hin]; simpl;
        (split; [by apply Hmono|]); split; intros y; rewrite Hsnoc.
      * rewrite Hi. apply Hs in Hin. split; [by left|]. by intros [?| ->].
      * rewrite Hs. apply Hs in Hin. split; [by left|]. by intros [?| ->].
      * by rewrite elem_of_app, list_elem_of_singleton, Hi.
      * rewrite elem_of_union, elem_of_singleton, Hs. tauto.
    + assert (∀ y, y ∈ x :: l' ↔ y = x) as Hl'.
      { intros y. rewrite elem_of_cons. rewrite Forall_forall in Hconf. split; [|by left].
        intros [?|Hy]; [done|by apply Hconf]. }
      simpl. split_and!.
      * intros [_ Hall]%Forall_app. apply Hd. by apply Forall_cons in Hall as [-> _].
      * intros y. rewrite Hsnoc, Hl'. set_solver.
      * intros y. rewrite Hsnoc, Hl'. set_solver.
Qed.

Lemma scan_spec (l : list (key * Id)) :
  (N.of_nat (length l) ≤ USIZE_MAX)%N → ∀ k, occurrence_of (ids_at k l) (foldl scan_entry ∅ l !! k).
Proof.
  induction l as [|kv l IH] using rev_ind; intros Hlen k; simpl; [by rewrite lookup_empty|].
  rewrite length_app in Hlen. simpl in Hlen. rewrite foldl_app. simpl.
  apply scan_entry_spec; [lia|]. apply IH. lia.
Qed.

Lemma foldl_concat {A B} (f : B → A → B) (ls : list (list A)) b :
  foldl (λ b l, foldl f b l) b ls = foldl f b (concat ls).
Proof. revert b. induction ls as [|l ls IH]; intros b; simpl; [done|]. by rewrite foldl_app, IH. Qed.

Lemma ids_at_maps (k : key) (maps : list shared_state) :
  ids_at k (concat (state_iter <$> maps)) = omap (λ m, m !! k) maps.
Proof.
  induction maps as [|m maps IH]; [done|]. csimpl. rewrite ids_at_app, IH, ids_at_state.
  by destruct (m !! k).
Qed.

(** Entries on which every map agrees. *)
Definition agreed (maps : list shared_state) (k : key) (id : Id) : Prop := ∀ m, m ∈ maps → m !! k = Some id.

Lemma place_spec (num : N) (l : list (key * Occurrence)) st :
  NoDup l.*1 → (∀ k, k ∈ l.*1 → st.1 !! k = None) →
  let st' := foldl (place_occurrence num) st l in
  (∀ k id, st'.1 !! k = Some id ↔ st.1 !! k = Some id ∨
     ∃ o, (k, o) ∈ l ∧ conflicts o = None ∧ count o = num ∧ first_id o = id)
  ∧ (∀ id, id ∈ st'.2 ↔ id ∈ st.2 ∨ ∃ k o, (k, o) ∈ l ∧
       match conflicts o with None => count o ≠ num ∧ first_id o = id | Some (ids, _) => id ∈ ids end).
Proof.
  revert st. induction l as [|[k0 o0] l IH]; intros st Hnd Hfresh; simpl; [set_solver|].
  csimpl in Hnd. apply NoDup_cons in Hnd as [Hni Hnd].
  assert (st.1 !! k0 = None) as Hk0 by (apply Hfresh; set_solver).
  destruct (IH (place_occurrence num st (k0, o0)) Hnd) as [H1 H2].
  { intros k Hk. assert (st.1 !! k = None) by (apply Hfresh; set_solver).
    unfold place_occurrence. simpl. destruct (conflicts o0) as [[ids seen]|]; [done|].
    destruct (N.eqb _ _); [|done]. simpl. rewrite lookup_insert_ne; [done|]. intros ->. done. }
  split.
  - intros k id. rewrite H1. unfold place_occurrence. simpl. setoid_rewrite elem_of_cons.
    destruct (conflicts o0) as [[ids seen]|] eqn:Ec; [naive_solver congruence|].
    destruct (N.eqb_spec (count o0) num) as [En|En]; [|naive_solver]. simpl.
    destruct (decide (k0 = k)) as [->|Hne].
    + rewrite lookup_insert_eq. naive_solver.
    + rewrite lookup_insert_ne by done. naive_solver.
  - intros id. rewrite H2. unfold place_occurrence. simpl. setoid_rewrite elem_of_cons.
    destruct (conflicts o0) as [[ids seen]|] eqn:Ec; simpl.
    + rewrite elem_of_app. split; [|intros [?|(k & o & [[= -> ->]|?] & Ho)]; [by left; left|rewrite Ec in Ho; by left; right|right; eauto]].
      intros [[?|?]|(k & o & ? & Ho)]; [by left|right; exists k0, o0; rewrite Ec; auto|right; eauto].
    + destruct (N.eqb_spec (count o0) num) as [En|En]; simpl.
      * split; [intros [?|(k & o & ? & Ho)]; [by left|right; eauto]|].
        intros [?|(k & o & [[= -> ->]|?] & Ho)]; [by left|rewrite Ec in Ho; naive_solver|right; eauto].
      * rewrite elem_of_app, list_elem_of_singleton.
        split; [intros [[?|?]|(k & o & ? & Ho)]; [by left|right; exists k0, o0; rewrite Ec; auto|right; eauto]|].
        intros [?|(k & o & [[= -> ->]|?] & Ho)]; [by left; left|rewrite Ec in Ho; left; right; naive_solver|right; eauto].
Qed.

Lemma omap_length_all (maps : list shared_state) (k : key) (x : Id) :
  (length (omap (λ m, m !! k) maps) = length maps ∧ Forall (λ y, y = x) (omap (λ m, m !! k) maps)
   ↔ agreed maps k x).
Proof.
  unfold agreed. induction maps as [|m maps IH]; csimpl; [split; [set_solver|done]|].
  pose proof (length_omap_le (λ m : shared_state, m !! k) maps) as Hle.
  destruct (m !! k) as [y|] eqn:Em; csimpl.
  - rewrite Forall_cons. split.
    + intros [Hl [-> Hf]] m' [->|Hm']%elem_of_cons; [done|]. apply IH; [|done]. split; [lia|done].
    + intros Hall. assert (y = x) as -> by (specialize (Hall m ltac:(set_solver)); congruence).
      destruct (proj2 IH) as [H1 H2]; [intros; apply Hall; set_solver|]. split_and!; [lia|done..].
  - split; [intros [Hl _]; lia|]. intros Hall. specialize (Hall m ltac:(set_solver)). congruence.
Qed.

Lemma partition_state_maps_spec `{Ho : HashOrder} (maps : list shared_state) :
  maps ≠ [] → (N.of_nat (length (concat (state_iter <$> maps))) ≤ USIZE_MAX)%N →
  let '(u, c) := partition_state_maps (state_iter <$> maps) (N.of_nat (length maps)) in
  (∀ k id, u !! k = Some id ↔ agreed maps k id)
  ∧ (∀ id, id ∈ c ↔ ∃ k m, m ∈ maps ∧ m !! k = Some id ∧ u !! k = None).
Proof.
  intros Hne Hlen. unfold partition_state_maps. rewrite foldl_concat.
  set (occ := foldl scan_entry ∅ (concat (state_iter <$> maps))).
  assert (∀ k, occurrence_of (omap (λ m : shared_state, m !! k) maps) (occ !! k)) as Hocc.
  { intros k. rewrite <-ids_at_maps. by apply scan_spec. }
  destruct (foldl (place_occurrence _) _ _) as [u c] eqn:E.
  destruct (place_spec (N.of_nat (length maps)) (hm_iter occ) (∅, [])) as [H1 H2].
  { apply NoDup_hm_keys. } { intros. apply lookup_empty. }
  cbv zeta in H1, H2. rewrite E in H1, H2. simpl in H1, H2. setoid_rewrite lookup_empty in H1.
  setoid_rewrite elem_of_hm_iter in H1. setoid_rewrite elem_of_hm_iter in H2.
  assert (∀ k id, u !! k = Some id ↔ agreed maps k id) as Hu.
  { intros k id. rewrite H1. specialize (Hocc k). split.
    - intros [?|(o & Hko & Hc & Hn & Hf)]; [done|]. rewrite Hko in Hocc. apply omap_length_all.
      destruct (omap _ maps) as [|x l] eqn:El; [done|]. destruct Hocc as (Hx & Hcount & Hconf).
      rewrite Hc in Hconf. split; [lia|]. constructor; [congruence|].
      eapply Forall_impl; [exact Hconf|]. simpl. intros; congruence.
    - intros [Hl Hall]%omap_length_all. right. destruct (omap _ maps) as [|x l] eqn:El.
      { destruct maps; [done|]. simpl in Hl. lia. }
      destruct (occ !! k) as [o|] eqn:Eo; [|done]. destruct Hocc as (Hx & Hcount & Hconf).
      apply Forall_cons in Hall as [-> Hall]. exists o. split_and!; [done| |lia|done].
      destruct (conflicts o) as [[ids seen]|]; [|done]. by destruct Hconf as [? _]. }
  split; [done|]. intros id. rewrite H2. split.
  - intros [?%not_elem_of_nil|(k & o & Hko & Hc)]; [done|]. exists k. specialize (Hocc k). rewrite Hko in Hocc.
    destruct (omap (λ m : shared_state, m !! k) maps) as [|x l] eqn:El; [done|]. destruct Hocc as (Hx & Hcount & Hconf).
    assert (id ∈ x :: l ∧ ¬ ∃ y, agreed maps k y) as [Hid Hno].
    { destruct (conflicts o) as [[ids seen]|].
      - destruct Hconf as (Hn & Hi & _). split; [by apply Hi|]. intros [y [_ Hy]%omap_length_all].
        rewrite El in Hy. apply Forall_cons in Hy as [-> Hy]. done.
      - destruct Hc as [Hn <-]. split; [rewrite Hx; set_solver|]. intros [y [Hl _]%omap_length_all].
        rewrite El in Hl. lia. }
    rewrite <-El, list_elem_of_omap in Hid. destruct Hid as (m & Hm & Hmk). exists m. split_and!; [done..|].
    destruct (u !! k) as [y|] eqn:Eu; [|done]. exfalso. apply Hno. exists y. by apply Hu.
  - intros (k & m & Hm & Hmk & Hnone). right. exists k. specialize (Hocc k).
    assert (id ∈ omap (λ m : shared_state, m !! k) maps) as Hid by (apply list_elem_of_omap; eauto).
    destruct (omap (λ m : shared_state, m !! k) maps) as [|x l] eqn:El; [by apply not_elem_of_nil in Hid|].
    destruct (occ !! k) as [o|] eqn:Eo; [|done]. destruct Hocc as (Hx & Hcount & Hconf).
    exists o. split; [done|]. destruct (conflicts o) as [[ids seen]|]; [by apply Hconf|].
    assert (id = x) as -> by (apply elem_of_cons in Hid as [|Hid]; [done|]; rewrite Forall_forall in Hconf; by apply Hconf).
    split; [|done]. intros Hn. assert (u !! k = Some x); [|congruence]. apply Hu, omap_length_all.
    rewrite El. split; [lia|]. by constructor.
Qed.
End partition.

(** ** The auth difference *)

Section auth_difference_props.
Context {Id : Type} `{EventId Id}.
Abbreviation key := (string * string)%type.
Abbreviation shared_state := (gmap key Id).
Context {St : Type} (event_auth : Id → bool → St → option (N * list Id) * St).
(** The source answers every question about an id alike, whatever it has
    cached: [answer id] is the event's depth and auth events. *)
Context (Inv : St → Prop) (answer : Id → option (N * list Id)) (support : gset Id).

Definition source_ok : Prop :=
  (∀ id with_auth s, Inv s → ∃ s', Inv s' ∧
     event_auth id with_auth s = ((λ da, (da.1, if with_auth then da.2 else [])) <$> answer id, s'))
  ∧ (∀ id, is_Some (answer id) → id ∈ support).
Hypothesis Hsource : source_ok.

Definition known_id (id : Id) : Prop := is_Some (answer id).

(** [a] is an auth event of [x]. *)
Definition cites (x a : Id) : Prop := ∃ d as_, answer x = Some (d, as_) ∧ a ∈ as_.

Lemma ask id w s : Inv s → ∃ s', Inv s' ∧
  event_auth id w s = ((λ da, (da.1, if w : bool then da.2 else [])) <$> answer id, s').
Proof. apply Hsource. Qed.

Lemma tc_first {A} (R : relation A) x y : tc R x y → ∃ z, R x z ∧ rtc R z y.
Proof.
  intros Ht. destruct Ht as [x y Hxy|x z y Hxz Ht]; [exists y|exists z]; (split; [done|]); [constructor|by apply tc_rtc].
Qed.

(** *** The unconflicted closure *)

Lemma push_unconflicted_spec ids V (h : list (N * Id)) s :
  Inv s →
  let '(r, s') := push_unconflicted event_auth ids V h s in
  Inv s' ∧
  match r with
  | Ok (V', h') => V' = V ∪ list_to_set ids ∧ ∃ new, h'.*2 = new ++ h.*2 ∧ NoDup new
      ∧ (∀ x, x ∈ new ↔ x ∈ ids ∧ x ∉ V) ∧ (∀ x, x ∈ new → known_id x)
  | Err e => e ∈ ids ∧ answer e = None
  end.
Proof.
  revert V h s. induction ids as [|id ids IH]; intros V h s Hs; simpl.
  { split; [done|]. split; [set_solver|]. exists []. split_and!; [done|constructor|set_solver..]. }
  destruct (decide (id ∈ V)) as [Hin|Hni].
  { specialize (IH V h s Hs). destruct (push_unconflicted _ _ _ _ _) as [[[V' h']|e] s'].
    - destruct IH as (? & -> & new & ? & ? & ? & ?). split; [done|]. split; [set_solver|].
      exists new. split_and!; [done..|set_solver|done].
    - destruct IH as (? & ? & ?). split_and!; [done|set_solver|done]. }
  destruct (ask id false s Hs) as (s1 & Hs1 & ->). destruct (answer id) as [[d as_]|] eqn:Ea; simpl.
  - specialize (IH ({[id]} ∪ V) ((d, id) :: h) s1 Hs1).
    destruct (push_unconflicted _ _ _ _ _) as [[[V' h']|e] s'].
    + destruct IH as (? & -> & new & Hh & Hnd & Hnew & Hk). split; [done|]. split; [set_solver|].
      exists (new ++ [id]). csimpl in Hh. rewrite <-(assoc_L (++)). split_and!; [done| | |].
      * apply NoDup_app. split_and!; [done|set_solver|apply NoDup_singleton].
      * intros x. rewrite elem_of_app, Hnew. destruct (decide (x = id)) as [->|]; set_solver.
      * intros x [?| ->%list_elem_of_singleton]%elem_of_app; [by apply Hk|]. unfold known_id. by rewrite Ea.
    + destruct IH as (? & ? & ?). split_and!; [done|set_solver|done].
  - split_and!; [done|set_solver|done].
Qed.

(** The ids the unconflicted state leads to. *)
Definition closure (seeds : list Id) (x : Id) : Prop := ∃ s, s ∈ seeds ∧ rtc cites s x.

Record u_inv (seeds : list Id) (V : gset Id) (h : list (N * Id)) : Prop := {
  uv_heap x : x ∈ h.*2 → x ∈ V;
  uv_nodup : NoDup h.*2;
  uv_known x : x ∈ V → known_id x;
  uv_seed x : x ∈ seeds → x ∈ V;
  uv_sound x : x ∈ V → closure seeds x;
  uv_closed x a : x ∈ V → x ∉ h.*2 → cites x a → a ∈ V
}.

Lemma pop_None (h : list (N * Id)) : pop h = None → h = [].
Proof. apply heap_pop_None. Qed.

Lemma pop_perm (h : list (N * Id)) x h' : pop h = Some (x, h') → h ≡ₚ x :: h'.
Proof. apply heap_pop_perm. Qed.

Lemma pushed_length (V : gset Id) new :
  (∀ x, x ∈ V → x ∈ support) → NoDup new → (∀ x, x ∈ new → x ∉ V) → (∀ x, x ∈ new → x ∈ support) →
  size (support ∖ (V ∪ list_to_set new)) + length new ≤ size (support ∖ V).
Proof.
  intros HV Hnd Hni Hk.
  assert (size (support ∖ V) = size (support ∖ (V ∪ list_to_set new)) + size (list_to_set new : gset Id)) as ->.
  { rewrite <-size_union by set_solver. f_equal. apply set_eq. intros x.
    destruct (decide (x ∈ new)); set_solver. }
  rewrite size_list_to_set by done. lia.
Qed.

Lemma unconflicted_closure_spec seeds fuel V h s :
  Inv s → u_inv seeds V h → size (support ∖ V) + length h ≤ fuel →
  ∃ r s', unconflicted_closure event_auth fuel V h s = Some (r, s') ∧ Inv s' ∧
    match r with
    | Ok U => ∀ x, (x ∈ U → known_id x) ∧ (x ∈ U ↔ closure seeds x)
    | Err e => closure seeds e ∧ answer e = None
    end.
Proof.
  assert (∀ V, u_inv seeds V [] → ∀ x, (x ∈ V → known_id x) ∧ (x ∈ V ↔ closure seeds x)) as Hend.
  { intros W Hi x. split; [apply Hi|]. split; [apply Hi|]. intros (y & Hy & Hyx).
    apply (uv_seed _ _ _ Hi) in Hy. induction Hyx as [y|y z x Hyz _ IH]; [done|]. apply IH.
    eapply (uv_closed _ _ _ Hi); [done|set_solver|done]. }
  revert V h s. induction fuel as [|fuel IH]; intros V h s Hs Hi Hf; simpl.
  { destruct h as [|p h]; [|simpl in Hf; lia]. simpl. exists (Ok V), s. split_and!; [done..|by apply Hend]. }
  destruct (pop h) as [[[d x] h']|] eqn:Ep; [|apply pop_None in Ep as ->; exists (Ok V), s; split_and!; [done..|by apply Hend]].
  apply pop_perm in Ep.
  assert (h.*2 ≡ₚ x :: h'.*2) as Eh by (by rewrite Ep).
  assert (x ∈ V) as HxV by (apply (uv_heap _ _ _ Hi); rewrite Eh; set_solver).
  destruct (ask x true s Hs) as (s1 & Hs1 & ->).
  destruct (uv_known _ _ _ Hi x HxV) as [[d' as_] Ea]. rewrite Ea. simpl.
  pose proof (push_unconflicted_spec as_ V h' s1 Hs1) as Hp.
  destruct (push_unconflicted _ _ _ _ _) as [[[V' h'']|e] s2]; destruct Hp as [Hs2 Hp].
  - destruct Hp as (-> & new & Hh & Hnd & Hnew & Hk). apply IH; [done| |].
    + pose proof (uv_nodup _ _ _ Hi) as Hndh. rewrite Eh in Hndh. apply NoDup_cons in Hndh as [Hxh Hndh].
      assert (∀ y, y ∈ h'.*2 → y ∈ V) as HhV by (intros y Hy; apply (uv_heap _ _ _ Hi); rewrite Eh; set_solver).
      split.
      * intros y. rewrite Hh, elem_of_app, Hnew. set_solver.
      * rewrite Hh. apply NoDup_app. split_and!; [done|set_solver|done].
      * intros y Hy. destruct (decide (y ∈ V)); [by apply (uv_known _ _ _ Hi)|]. apply Hk, Hnew. set_solver.
      * intros y Hy. apply elem_of_union_l. by apply (uv_seed _ _ _ Hi).
      * intros y [Hy|Hy]%elem_of_union; [by apply (uv_sound _ _ _ Hi)|].
        destruct (uv_sound _ _ _ Hi x HxV) as (z & Hz & Hzx). exists z. split; [done|].
        eapply rtc_r; [done|]. exists d', as_. set_solver.
      * intros y a Hy Hyh Hya. rewrite Hh, not_elem_of_app, Hnew in Hyh. destruct Hyh as [Hyn Hyh].
        destruct (decide (y = x)) as [->|Hne].
        { destruct Hya as (? & ? & Hya & Ha). rewrite Ea in Hya. simplify_eq. set_solver. }
        assert (y ∈ V) as HyV by (destruct (decide (y ∈ V)); [done|set_solver]).
        apply elem_of_union_l. eapply (uv_closed _ _ _ Hi); [done| |done]. rewrite Eh. set_solver.
    + assert (length h'' = length new + length h') as ->.
      { rewrite <-(length_fmap snd h''), Hh, length_app, length_fmap. done. }
      assert (length h = S (length h')) as Hl by (by rewrite Ep).
      pose proof (pushed_length V new) as Hsz.
      assert (size (support ∖ (V ∪ list_to_set new)) + length new ≤ size (support ∖ V)).
      { apply Hsz; [|done|set_solver|].
        - intros y Hy. apply Hsource. by apply (uv_known _ _ _ Hi).
        - intros y Hy. apply Hsource. by apply Hk. }
      assert (size (support ∖ (V ∪ list_to_set as_)) = size (support ∖ (V ∪ list_to_set new))) as ->; [|lia].
      f_equal. apply set_eq. intros y. rewrite !elem_of_difference, !elem_of_union, !elem_of_list_to_set, Hnew.
      destruct (decide (y ∈ V)); tauto.
  - destruct Hp as [He Hen]. exists (Err e), s2. split_and!; [done..| |done].
    destruct (uv_sound _ _ _ Hi x HxV) as (z & Hz & Hzx). exists z. split; [done|].
    eapply rtc_r; [done|]. by exists d', as_.
Qed.

(** *** The chain of one map *)

Section chain.
Context (U : gset Id).
Hypothesis HU : ∀ x a, x ∈ U → cites x a → a ∈ U.

Lemma enqueue_conflicted_spec ids CV (h : list (N * Id)) s :
  Inv s →
  let '(CV', h', s') := enqueue_conflicted_auth_events event_auth ids U CV h s in
  Inv s' ∧ (∀ x, x ∈ CV' ↔ x ∈ CV ∨ x ∈ ids ∧ x ∉ U)
  ∧ ∃ new, h'.*2 = new ++ h.*2 ∧ NoDup new
      ∧ (∀ x, x ∈ new ↔ x ∈ ids ∧ x ∉ U ∧ x ∉ CV ∧ known_id x).
Proof.
  revert CV h s. induction ids as [|id ids IH]; intros CV h s Hs; simpl.
  { split_and!; [done|set_solver|]. exists []. split_and!; [done|constructor|set_solver]. }
  destruct (decide (id ∈ U)) as [HidU|HidU].
  { specialize (IH CV h s Hs). destruct (enqueue_conflicted_auth_events _ _ _ _ _ _) as [[CV' h'] s'].
    destruct IH as (? & HCV & new & ? & ? & Hnew). split_and!; [done|set_solver|]. exists new. split_and!; [done..|set_solver]. }
  destruct (decide (id ∈ CV)) as [HidC|HidC].
  { specialize (IH CV h s Hs). destruct (enqueue_conflicted_auth_events _ _ _ _ _ _) as [[CV' h'] s'].
    destruct IH as (? & HCV & new & ? & ? & Hnew). split_and!; [done|set_solver|]. exists new. split_and!; [done..|set_solver]. }
  destruct (ask id false s Hs) as (s1 & Hs1 & ->).
  specialize (IH ({[id]} ∪ CV) (match (λ da : N * list Id, (da.1, [] : list Id)) <$> answer id with
    | Some (depth, _) => (depth, id) :: h | None => h end) s1 Hs1).
  destruct (enqueue_conflicted_auth_events _ _ _ _ _ _) as [[CV' h'] s'].
  destruct IH as (? & HCV & new & Hh & Hnd & Hnew).
  assert (∀ x, x ∈ CV' ↔ x ∈ CV ∨ x ∈ id :: ids ∧ x ∉ U) as HCV'.
  { intros x. rewrite HCV. destruct (decide (x = id)) as [->|]; set_solver. }
  split_and!; [done..|].
  destruct (answer id) as [[d as_]|] eqn:Ea; simpl in Hh.
  - exists (new ++ [id]). rewrite <-(assoc_L (++)). split_and!; [done| |].
    + apply NoDup_app. split_and!; [done|set_solver|apply NoDup_singleton].
    + intros x. rewrite elem_of_app, Hnew. destruct (decide (x = id)) as [->|]; [|set_solver].
      assert (known_id id) by (unfold known_id; by rewrite Ea). set_solver.
  - exists new. split_and!; [done..|]. intros x. rewrite Hnew.
    destruct (decide (x = id)) as [->|]; [|set_solver].
    assert (¬ known_id id) by (unfold known_id; rewrite Ea; by intros [??]). set_solver.
Qed.

(** The auth ancestors of the ids [cs] outside [U]. *)
Definition chain_of (cs : list Id) (x : Id) : Prop := x ∉ U ∧ known_id x ∧ ∃ c, c ∈ cs ∧ tc cites c x.

Definition reached_by (cs : list Id) (x : Id) : Prop := x ∉ U ∧ ∃ c, c ∈ cs ∧ tc cites c x.

Record c_inv (cs : list Id) (CV : gset Id) (h : list (N * Id)) (chain : gset Id) : Prop := {
  cv_heap x : x ∈ h.*2 → x ∈ CV ∧ known_id x ∧ x ∉ chain;
  cv_nodup : NoDup h.*2;
  cv_sound x : x ∈ CV → reached_by cs x;
  cv_chain x : x ∈ chain → x ∈ CV ∧ known_id x;
  cv_done x : x ∈ CV → known_id x → x ∈ h.*2 ∨ x ∈ chain;
  cv_closed x a : x ∈ chain → cites x a → a ∈ U ∨ a ∈ CV
}.

(** Enqueuing the auth events of an id of the chain or of a seed. *)
Lemma c_inv_enqueue cs CV h chain (CV' : gset Id) (h' : list (N * Id)) (ids new : list Id) :
  c_inv cs CV h chain → (∀ x, x ∈ CV' ↔ x ∈ CV ∨ x ∈ ids ∧ x ∉ U) → h'.*2 = new ++ h.*2 → NoDup new →
  (∀ x, x ∈ new ↔ x ∈ ids ∧ x ∉ U ∧ x ∉ CV ∧ known_id x) →
  (∀ x, x ∈ ids → ∃ c, c ∈ cs ∧ tc cites c x) →
  c_inv cs CV' h' chain.
Proof.
  intros [H1 H2 H3 H4 H5 H6] HCV Hh Hnd Hnew Hids. split.
  - intros x. rewrite Hh, elem_of_app, HCV. intros [Hx|Hx%H1]; [apply Hnew in Hx|set_solver].
    split_and!; [right; tauto|tauto|]. intros Hc%H4. tauto.
  - rewrite Hh. apply NoDup_app. split_and!; [done| |done]. intros x (_ & _ & Hx & _)%Hnew Hx2%H1. tauto.
  - intros x [Hx|[Hx HxU]]%HCV; [by apply H3|]. split; [done|by apply Hids].
  - intros x Hx%H4. rewrite HCV. tauto.
  - intros x Hx Hk. rewrite Hh, elem_of_app, Hnew. destruct (decide (x ∈ CV)) as [Hc|Hc].
    + destruct (H5 x Hc Hk); tauto.
    + apply HCV in Hx as [?|[? ?]]; tauto.
  - intros x a Hx Ha. rewrite HCV. destruct (H6 x a Hx Ha); tauto.
Qed.

Lemma seed_chain_spec all cs CV (h : list (N * Id)) s :
  Inv s → c_inv all CV h ∅ → (∀ c, c ∈ cs → c ∈ all) →
  let '(CV', h', s') := seed_chain event_auth cs U CV h s in
  Inv s' ∧ c_inv all CV' h' ∅ ∧ (∀ x, x ∈ CV → x ∈ CV')
  ∧ (∀ c a, c ∈ cs → cites c a → a ∈ U ∨ a ∈ CV').
Proof.
  revert CV h s. induction cs as [|c cs IH]; intros CV h s Hs Hi Hcs; simpl; [set_solver|].
  destruct (ask c true s Hs) as (s1 & Hs1 & ->). destruct (answer c) as [[d as_]|] eqn:Ea; simpl.
  - pose proof (enqueue_conflicted_spec as_ CV h s1 Hs1) as He.
    destruct (enqueue_conflicted_auth_events _ _ _ _ _ _) as [[CV1 h1] s2].
    destruct He as (Hs2 & HCV & new & Hh & Hnd & Hnew).
    assert (c_inv all CV1 h1 ∅) as Hi1.
    { eapply c_inv_enqueue; [done..|]. intros x Hx. exists c. split; [apply Hcs; set_solver|].
      apply tc_once. by exists d, as_. }
    specialize (IH CV1 h1 s2 Hs2 Hi1 ltac:(set_solver)). destruct (seed_chain _ _ _ _ _ _) as [[CV' h'] s'].
    destruct IH as (? & ? & Hm & Hc). split_and!; [done..|set_solver|].
    intros c' a [->|Hc']%elem_of_cons Ha; [|by eapply Hc].
    destruct Ha as (? & ? & Ha & Hin). rewrite Ea in Ha. simplify_eq.
    destruct (decide (a ∈ U)); [by left|right]. apply Hm, HCV. tauto.
  - specialize (IH CV h s1 Hs1 Hi ltac:(set_solver)). destruct (seed_chain _ _ _ _ _ _) as [[CV' h'] s'].
    destruct IH as (? & ? & Hm & Hc). split_and!; [done..|].
    intros c' a [->|Hc']%elem_of_cons Ha; [|by eapply Hc]. destruct Ha as (? & ? & Ha & _). congruence.
Qed.

Lemma walk_chain_spec cs fuel CV h chain s :
  Inv s → c_inv cs CV h chain → (∀ c a, c ∈ cs → cites c a → a ∈ U ∨ a ∈ CV) →
  size (support ∖ (chain ∪ list_to_set h.*2)) + length h ≤ fuel →
  ∃ chain' s', walk_chain event_auth fuel U CV h chain s = Some (chain', s') ∧ Inv s'
    ∧ ∀ x, x ∈ chain' ↔ chain_of cs x.
Proof.
  assert (∀ CV chain, c_inv cs CV [] chain → (∀ c a, c ∈ cs → cites c a → a ∈ U ∨ a ∈ CV) →
    ∀ x, x ∈ chain ↔ chain_of cs x) as Hend.
  { intros CV1 chain1 Hi Hseed x. split.
    - intros Hx. destruct (cv_chain _ _ _ _ Hi x Hx) as [Hc Hk]. destruct (cv_sound _ _ _ _ Hi x Hc).
      by split_and!.
    - intros (HxU & Hk & c & Hc & Ht).
      assert (x ∈ U ∨ x ∈ CV1) as [?|HxC]; [|done|].
      { clear HxU Hk. apply tc_first in Ht as (y & Hcy & Hyx). destruct (Hseed c y Hc Hcy) as [Hy|Hy].
        - left. clear Hcy. induction Hyx as [y|y z x Hyz _ IHx]; [done|]. by apply IHx, (HU y).
        - assert (y ∈ U ∨ y ∈ CV1) as Hor by (by right). clear Hcy Hy.
          induction Hyx as [y|y z x Hyz _ IHx]; [done|]. apply IHx.
          destruct Hor as [Hy|Hy]; [left; by apply (HU y)|].
          eapply (cv_closed _ _ _ _ Hi); [|done].
          destruct (cv_done _ _ _ _ Hi y Hy) as [?%not_elem_of_nil|]; [|done|done].
          destruct Hyz as (? & ? & Hyz & _). by eexists. }
      by destruct (cv_done _ _ _ _ Hi x HxC Hk) as [?%not_elem_of_nil|]. }
  revert CV h chain s. induction fuel as [|fuel IH]; intros CV h chain s Hs Hi Hseed Hf; simpl.
  { destruct h as [|p h]; [|simpl in Hf; lia]. simpl. exists chain, s. split_and!; [done..|by eapply Hend]. }
  destruct (pop h) as [[[d x] h']|] eqn:Ep;
    [|apply pop_None in Ep as ->; exists chain, s; split_and!; [done..|by eapply Hend]].
  apply pop_perm in Ep. assert (h.*2 ≡ₚ x :: h'.*2) as Eh by (by rewrite Ep).
  destruct (cv_heap _ _ _ _ Hi x) as (HxC & Hxk & Hxc); [rewrite Eh; set_solver|].
  destruct (cv_sound _ _ _ _ Hi x HxC) as [HxU (c & Hc & Hcx)]. rewrite decide_False by done.
  destruct (ask x true s Hs) as (s1 & Hs1 & ->). destruct Hxk as [[d' as_] Ea]. rewrite Ea. simpl.
  pose proof (cv_nodup _ _ _ _ Hi) as Hnd. rewrite Eh in Hnd. apply NoDup_cons in Hnd as [Hxh Hnd].
  pose proof (enqueue_conflicted_spec as_ CV h' s1 Hs1) as He.
  destruct (enqueue_conflicted_auth_events _ _ _ _ _ _) as [[CV1 h1] s2].
  destruct He as (Hs2 & HCV & new & Hh & Hndn & Hnew).
  assert (∀ y, cites x y ↔ y ∈ as_) as Hxa.
  { intros y. split; [intros (? & ? & Hy & ?); rewrite Ea in Hy; by simplify_eq|by exists d', as_]. }
  assert (∀ y, y ∈ h.*2 ↔ y = x ∨ y ∈ h'.*2) as Hy by (intros y; by rewrite Eh, elem_of_cons).
  assert (c_inv cs CV1 h1 ({[x]} ∪ chain)) as Hi1.
  { destruct Hi as [H1 H2 H3 H4 H5 H6]. split.
    - intros y. rewrite Hh, elem_of_app, HCV, elem_of_union, elem_of_singleton. intros [Hin|Hin].
      + apply Hnew in Hin as (? & ? & HnC & ?). split_and!; [tauto..|]. intros [->|Hyc]; [done|]. by apply H4 in Hyc as [? _].
      + destruct (H1 y) as (? & ? & ?); [by apply Hy; right|]. split_and!; [tauto..|]. intros [->|]; done.
    - rewrite Hh. apply NoDup_app. split_and!; [done| |done]. intros y (_ & _ & HnC & _)%Hnew Hin.
      apply HnC. apply (H1 y), Hy. by right.
    - intros y [HyC|[HyA HyU]]%HCV; [by apply H3|]. split; [done|]. exists c. split; [done|].
      eapply tc_r; [done|]. by apply Hxa.
    - intros y [->%elem_of_singleton|Hyc]%elem_of_union; rewrite HCV.
      + split; [by left|]. unfold known_id. by rewrite Ea.
      + apply H4 in Hyc. tauto.
    - intros y HyC Hyk. rewrite Hh, elem_of_app, Hnew, elem_of_union, elem_of_singleton.
      destruct (decide (y ∈ CV)) as [Hin|Hin].
      + destruct (H5 y Hin Hyk) as [Hyh|]; [|tauto]. apply Hy in Hyh. tauto.
      + apply HCV in HyC as [?|[? ?]]; tauto.
    - intros y a [->%elem_of_singleton|Hyc]%elem_of_union Ha; rewrite HCV.
      + apply Hxa in Ha. destruct (decide (a ∈ U)); tauto.
      + destruct (H6 y a Hyc Ha); tauto. }
  apply IH; [done|done| |].
  - intros c' a Hc' Ha. destruct (Hseed c' a Hc' Ha); [by left|right]. apply HCV. by left.
  - assert (length h = S (length h')) as Hl by (by rewrite Ep).
    assert (length h1 = length new + length h') as ->.
    { rewrite <-(length_fmap snd h1), Hh, length_app, length_fmap. done. }
    assert (size (support ∖ ({[x]} ∪ chain ∪ list_to_set h1.*2)) + length new
      ≤ size (support ∖ (chain ∪ list_to_set h.*2))); [|lia].
    assert ({[x]} ∪ chain ∪ list_to_set h1.*2 = (chain ∪ list_to_set h.*2) ∪ list_to_set new) as ->.
    { apply set_eq. intros y. rewrite !elem_of_union, !elem_of_list_to_set, elem_of_singleton, Hh, elem_of_app, Hy.
      tauto. }
    apply pushed_length; [|done|..].
    + intros y [Hyc|Hyh%elem_of_list_to_set]%elem_of_union; apply Hsource; [by apply (cv_chain _ _ _ _ Hi)|].
      by apply (cv_heap _ _ _ _ Hi).
    + intros y (_ & _ & HnC & _)%Hnew [Hyc|Hyh%elem_of_list_to_set]%elem_of_union; apply HnC;
        [by apply (cv_chain _ _ _ _ Hi)|by apply (cv_heap _ _ _ _ Hi)].
    + intros y (_ & _ & _ & Hk)%Hnew. by apply Hsource.
Qed.

Lemma collect_chains_spec (fuel : nat) (conflicted : gset Id) (maps : list shared_state) s :
  Inv s → size support ≤ fuel →
  ∃ chains s', collect_chains event_auth fuel conflicted U maps s = Some (chains, s') ∧ Inv s'
    ∧ Forall2 (λ m chain, ∀ x, x ∈ chain ↔ chain_of (filter (.∈ conflicted) (state_values m)) x) maps chains.
Proof.
  intros Hs Hf. revert s Hs. induction maps as [|m maps IH]; intros s Hs; simpl.
  { exists [], s. split_and!; [done..|constructor]. }
  set (cs := filter (.∈ conflicted) (state_values m)).
  assert (c_inv cs ∅ [] ∅) as Hi0.
  { split; [intros x Hx; by apply not_elem_of_nil in Hx|constructor|set_solver|set_solver|set_solver|set_solver]. }
  pose proof (seed_chain_spec cs cs ∅ [] s Hs Hi0 (λ c Hc, Hc)) as Hseed.
  unfold cs in Hseed at 1. destruct (seed_chain _ _ _ _ _ _) as [[CV h] s1]. destruct Hseed as (Hs1 & Hi & _ & Hc).
  destruct (walk_chain_spec cs fuel CV h ∅ s1 Hs1 Hi Hc) as (chain & s2 & -> & Hs2 & Hchain).
  { assert (size (support ∖ (∅ ∪ list_to_set h.*2)) + length h ≤ size support); [|lia].
    pose proof (pushed_length ∅ h.*2) as Hp. rewrite length_fmap in Hp.
    assert (support ∖ ∅ = support) as E by set_solver. rewrite E in Hp. apply Hp; [set_solver|apply Hi|set_solver|].
    intros x Hx. apply Hsource. by apply (cv_heap _ _ _ _ Hi). }
  simpl. destruct (IH s2 Hs2) as (chains & s3 & -> & Hs3 & Hall). simpl.
  exists (chain :: chains), s3. split_and!; [done..|]. by constructor.
Qed.
End chain.

(** What the walk returns: the ids in some but not all of the maps' chains,
    or an unknown id of the unconflicted closure. *)
Lemma auth_difference_chains (fuel : nat) (u : shared_state) (maps : list shared_state) (c : list Id) s :
  Inv s → size support ≤ fuel →
  ∃ r s', auth_difference event_auth fuel u maps c s = Some (r, s') ∧ Inv s' ∧
    match r with
    | Ok diff =>
        (∀ x, closure (state_values u) x → known_id x)
        ∧ StronglySorted (cmp_le (cmp_on id id_cmp)) diff ∧ NoDup diff
        ∧ ∃ U : gset Id, (∀ x, x ∈ U ↔ closure (state_values u) x)
        ∧ ∀ x, x ∈ diff ↔
            (∃ m, m ∈ maps ∧ chain_of U (filter (.∈ c) (state_values m)) x)
            ∧ ¬ (∀ m, m ∈ maps → chain_of U (filter (.∈ c) (state_values m)) x)
    | Err e => closure (state_values u) e ∧ answer e = None
    end.
Proof.
  intros Hs Hf. unfold auth_difference.
  pose proof (push_unconflicted_spec (state_values u) ∅ [] s Hs) as Hp.
  destruct (push_unconflicted _ _ _ _ _) as [[[V h]|e] s1]; destruct Hp as [Hs1 Hp].
  2:{ destruct Hp as [He Hn]. exists (Err e), s1. split_and!; [done..| |done]. exists e. split; [done|constructor]. }
  destruct Hp as (-> & new & Hh & Hnd & Hnew & Hk). rewrite app_nil_r in Hh.
  assert (∀ x, x ∈ ∅ ∪ (list_to_set (state_values u) : gset Id) ↔ x ∈ state_values u) as HV.
  { intros x. rewrite elem_of_union, elem_of_list_to_set. set_solver. }
  assert (∀ x, x ∈ new ↔ x ∈ state_values u) as Hnew' by (intros x; rewrite Hnew; set_solver).
  assert (u_inv (state_values u) (∅ ∪ list_to_set (state_values u)) h) as Hi.
  { split.
    - intros x. rewrite Hh, HV. apply Hnew'.
    - by rewrite Hh.
    - intros x Hx%HV. by apply Hk, Hnew'.
    - intros x. apply HV.
    - intros x Hx%HV. exists x. split; [done|constructor].
    - intros x a Hx%HV Hn. rewrite Hh in Hn. exfalso. by apply Hn, Hnew'. }
  destruct (unconflicted_closure_spec (state_values u) fuel _ h s1 Hs1 Hi) as (r & s2 & -> & Hs2 & Hr).
  { pose proof (pushed_length ∅ new) as Hpl.
    assert (support ∖ ∅ = support) as E by set_solver. rewrite E in Hpl.
    assert (length h = length new) as -> by (by rewrite <-Hh, length_fmap).
    assert (∅ ∪ list_to_set (state_values u) = (∅ ∪ list_to_set new : gset Id)) as ->.
    { apply set_eq. intros x. rewrite HV, elem_of_union, elem_of_list_to_set, Hnew'. set_solver. }
    assert (size (support ∖ (∅ ∪ list_to_set new)) + length new ≤ size support); [|lia].
    apply Hpl; [set_solver|done|set_solver|]. intros x Hx. by apply Hsource, Hk. }
  simpl. destruct r as [U|e]; [|exists (Err e), s2; split; [done|]; split; [done|exact Hr]].
  assert (∀ x a, x ∈ U → cites x a → a ∈ U) as HU.
  { intros x a (y & Hy & Hyx)%Hr Ha. apply Hr. exists y. split; [done|]. by eapply rtc_r. }
  destruct (collect_chains_spec U HU fuel (list_to_set c) maps s2 Hs2 Hf) as (chains & s3 & -> & Hs3 & Hall).
  simpl. eexists _, s3. split; [done|]; split; [done|]. cbv beta iota. split_and!.
  - intros x Hx. by apply Hr, Hr.
  - exact (sort_by_sorted id id_cmp _).
  - rewrite sort_by_perm. apply NoDup_filter, NoDup_elements.
  - exists U. split; [intros x; apply Hr|].
    assert (∀ m, filter (.∈ (list_to_set c : gset Id)) (state_values m) = filter (.∈ c) (state_values m)) as Hfilter.
    { intros m. apply filter_ext_in. intros x _. by rewrite elem_of_list_to_set. }
    assert (∀ x, (∃ chain, chain ∈ chains ∧ x ∈ chain) ↔ ∃ m, m ∈ maps ∧ chain_of U (filter (.∈ c) (state_values m)) x) as Hex.
    { intros x. split.
      - intros (chain & [i Hc]%list_elem_of_lookup & Hx).
        destruct (Forall2_lookup_r _ _ _ _ _ Hall Hc) as (m & Hm & Hmc). exists m.
        rewrite <-Hfilter. split; [by eapply list_elem_of_lookup_2|]. by apply Hmc.
      - intros (m & [i Hm]%list_elem_of_lookup & Hx).
        destruct (Forall2_lookup_l _ _ _ _ _ Hall Hm) as (chain & Hc & Hmc). exists chain.
        split; [by eapply list_elem_of_lookup_2|]. apply Hmc. by rewrite Hfilter. }
    assert (∀ x, Forall (λ chain : gset Id, x ∈ chain) chains ↔
      ∀ m, m ∈ maps → chain_of U (filter (.∈ c) (state_values m)) x) as Hfa.
    { intros x. rewrite Forall_forall. split.
      - intros Hx m [i Hm]%list_elem_of_lookup. destruct (Forall2_lookup_l _ _ _ _ _ Hall Hm) as (chain & Hc & Hmc).
        rewrite <-Hfilter. apply Hmc, Hx. by eapply list_elem_of_lookup_2.
      - intros Hx chain [i Hc]%list_elem_of_lookup. destruct (Forall2_lookup_r _ _ _ _ _ Hall Hc) as (m & Hm & Hmc).
        apply Hmc. rewrite Hfilter. apply Hx. by eapply list_elem_of_lookup_2. }
    intros x. rewrite sort_by_perm, list_elem_of_filter, elem_of_elements, elem_of_union_list, Hfa.
    rewrite <-Hex. tauto.
Qed.

(** The auth chain of a state map: the known strict auth ancestors of its
    events. *)
Definition auth_chain_of (m : shared_state) (x : Id) : Prop :=
  known_id x ∧ ∃ id, id ∈ state_values m ∧ tc cites id x.

Lemma chain_of_full (u : shared_state) (c : list Id) (maps : list shared_state) (U : gset Id) x :
  (∀ x, x ∈ U ↔ closure (state_values u) x) →
  (∀ m id, m ∈ maps → id ∈ state_values m → id ∈ state_values u ∨ id ∈ c) →
  (∀ m id, m ∈ maps → id ∈ state_values u → id ∈ state_values m) →
  (∃ m, m ∈ maps ∧ chain_of U (filter (.∈ c) (state_values m)) x)
    ∧ ¬ (∀ m, m ∈ maps → chain_of U (filter (.∈ c) (state_values m)) x)
  ↔ x ∉ state_values u ∧ (∃ m, m ∈ maps ∧ auth_chain_of m x) ∧ ¬ (∀ m, m ∈ maps → auth_chain_of m x).
Proof.
  intros HU Hcover Hsub.
  assert (x ∉ U → ∀ m, m ∈ maps → chain_of U (filter (.∈ c) (state_values m)) x ↔ auth_chain_of m x) as Heq.
  { intros HxU m Hm. unfold chain_of, auth_chain_of. split.
    - intros (_ & Hk & id & [_ Hid]%list_elem_of_filter & Ht). eauto.
    - intros (Hk & id & Hid & Ht). split_and!; [done..|]. exists id. split; [|done].
      apply list_elem_of_filter. split; [|done]. destruct (Hcover m id Hm Hid) as [Hu|]; [|done].
      exfalso. apply HxU, HU. exists id. split; [done|by apply tc_rtc]. }
  destruct (decide (x ∈ U)) as [HxU|HxU].
  - split.
    + intros [(m & _ & Hn & _) _]. done.
    + intros (Hxu & (m & Hm & Hk & _) & Hno). exfalso. apply Hno. intros m' Hm'. split; [done|].
      apply HU in HxU as (y & Hy & Hyx). apply rtc_tc in Hyx as [->|Ht]; [done|].
      exists y. split; [by apply Hsub|done].
  - assert (x ∉ state_values u) as Hxu.
    { intros Hx. apply HxU, HU. exists x. split; [done|constructor]. }
    split.
    + intros [(m & Hm & Hx) Hno]. split_and!; [done|exists m; by rewrite <-Heq|].
      intros Hall. apply Hno. intros m' Hm'. apply Heq; [done..|]. by apply Hall.
    + intros (_ & (m & Hm & Hx) & Hno). split; [exists m; by rewrite Heq|].
      intros Hall. apply Hno. intros m' Hm'. apply Heq; [done..|]. by apply Hall.
Qed.
End auth_difference_props.

Section auth_difference_claim.
Context {Id : Type} `{EventId Id}.
Abbreviation key := (string * string)%type.
Abbreviation shared_state := (gmap key Id).

Lemma partition_covers `{Ho : HashOrder} (maps : list shared_state) u c :
  maps ≠ [] → (N.of_nat (length (concat (state_iter <$> maps))) ≤ USIZE_MAX)%N →
  partition_state_maps (state_iter <$> maps) (N.of_nat (length maps)) = (u, c) →
  (∀ m id, m ∈ maps → id ∈ state_values m → id ∈ state_values u ∨ id ∈ c)
  ∧ (∀ m id, m ∈ maps → id ∈ state_values u → id ∈ state_values m).
Proof.
  intros Hne Hlen E. pose proof (partition_state_maps_spec maps Hne Hlen) as Hp. rewrite E in Hp. destruct Hp as [Hu Hc].
  split; intros m id Hm.
  - intros [k Hk]%elem_of_state_values. destruct (u !! k) as [id'|] eqn:Eu.
    + left. apply Hu in Eu as Hag. specialize (Hag m Hm). rewrite Hk in Hag. simplify_eq.
      apply elem_of_state_values. eauto.
    + right. apply Hc. eauto.
  - intros [k Hk]%elem_of_state_values. apply elem_of_state_values. exists k. apply Hu in Hk. by apply Hk.
Qed.

(** The partition keeps exactly the entries on which every state map agrees,
    and its conflicted ids are exactly the ids of all the other entries,
    whatever the hash order. *)
Theorem partition_exact `{HashOrder} (maps : list shared_state) :
  maps ≠ [] → (N.of_nat (length (concat (state_iter <$> maps))) ≤ USIZE_MAX)%N →
  let '(unconflicted, conflicted) :=
    partition_state_maps (state_iter <$> maps) (N.of_nat (length maps)) in
  (∀ k id, unconflicted !! k = Some id ↔ ∀ m, m ∈ maps → m !! k = Some id)
  ∧ (∀ id, id ∈ conflicted ↔ ∃ k m, m ∈ maps ∧ m !! k = Some id ∧ unconflicted !! k = None).
Proof. apply partition_state_maps_spec. Qed.

(** The auth difference of a partition. *)
(** For conflicted ids [c] and a state [u] that share the entries out between them. *)
Lemma auth_difference_covered `{Ho : HashOrder} {St} (event_auth : Id → bool → St → option (N * list Id) * St)
    (Inv : St → Prop) (answer : Id → option (N * list Id)) (support : gset Id) (maps : list shared_state)
    (fuel : nat) s u c :
  source_ok event_auth Inv answer support → Inv s → size support ≤ fuel →
  (∀ m id, m ∈ maps → id ∈ state_values m → id ∈ state_values u ∨ id ∈ c) →
  (∀ m id, m ∈ maps → id ∈ state_values u → id ∈ state_values m) →
  ∃ r s', auth_difference event_auth fuel u maps c s = Some (r, s') ∧ Inv s' ∧
    match r with
    | Ok diff =>
        (∀ x, closure answer (state_values u) x → is_Some (answer x))
        ∧ StronglySorted (cmp_le (cmp_on id id_cmp)) diff ∧ NoDup diff
        ∧ ∀ x, x ∈ diff ↔ x ∉ state_values u
            ∧ (∃ m, m ∈ maps ∧ auth_chain_of answer m x) ∧ ¬ (∀ m, m ∈ maps → auth_chain_of answer m x)
    | Err e => closure answer (state_values u) e ∧ answer e = None
    end.
Proof.
  intros Hsrc Hs Hf Hcov Hsub.
  destruct (auth_difference_chains event_auth Inv answer support Hsrc fuel u maps c s Hs Hf)
    as (r & s' & Hr & Hs' & Hres).
  exists r, s'. split_and!; [done..|]. destruct r as [diff|e]; [|done].
  destruct Hres as (Hk & Hsort & Hnd & U & HU & Hd). split_and!; [done..|]. intros x. rewrite Hd.
  by apply chain_of_full.
Qed.

Lemma auth_difference_spec `{Ho : HashOrder} {St} (event_auth : Id → bool → St → option (N * list Id) * St)
    (Inv : St → Prop) (answer : Id → option (N * list Id)) (support : gset Id) (maps : list shared_state)
    (fuel : nat) s u c :
  source_ok event_auth Inv answer support → Inv s → size support ≤ fuel →
  maps ≠ [] → (N.of_nat (length (concat (state_iter <$> maps))) ≤ USIZE_MAX)%N →
  partition_state_maps (state_iter <$> maps) (N.of_nat (length maps)) = (u, c) →
  ∃ r s', auth_difference event_auth fuel u maps c s = Some (r, s') ∧ Inv s' ∧
    match r with
    | Ok diff =>
        (∀ x, closure answer (state_values u) x → is_Some (answer x))
        ∧ StronglySorted (cmp_le (cmp_on id id_cmp)) diff ∧ NoDup diff
        ∧ ∀ x, x ∈ diff ↔ x ∉ state_values u
            ∧ (∃ m, m ∈ maps ∧ auth_chain_of answer m x) ∧ ¬ (∀ m, m ∈ maps → auth_chain_of answer m x)
    | Err e => closure answer (state_values u) e ∧ answer e = None
    end.
Proof.
  intros Hsrc Hs Hf Hne Hlen E. destruct (partition_covers maps u c Hne Hlen E) as [Hcov Hsub].
  by apply (auth_difference_covered event_auth Inv answer support).
Qed.

(** C29: over any event source that answers consistently, the auth difference
    of the partitioned state maps ends; it fails exactly on an unknown event
    in the unconflicted state's auth closure, and otherwise lists in id order,
    once each, the events in some but not all of the maps' auth chains, less
    the unconflicted state events themselves. *)
Theorem auth_difference_exact `{HashOrder} {St} (event_auth : Id → bool → St → option (N * list Id) * St)
    (Inv : St → Prop) (answer : Id → option (N * list Id)) (support : gset Id) (maps : list shared_state) (fuel : nat) s :
  source_ok event_auth Inv answer support → Inv s → size support ≤ fuel →
  maps ≠ [] → (N.of_nat (length (concat (state_iter <$> maps))) ≤ USIZE_MAX)%N →
  let '(unconflicted, conflicted) :=
    partition_state_maps (state_iter <$> maps) (N.of_nat (length maps)) in
  ∃ r s', auth_difference event_auth fuel unconflicted maps conflicted s = Some (r, s') ∧
    match r with
    | Ok diff =>
        (∀ x, closure answer (state_values unconflicted) x → is_Some (answer x))
        ∧ StronglySorted (cmp_le (cmp_on id id_cmp)) diff ∧ NoDup diff
        ∧ ∀ x, x ∈ diff ↔ x ∉ state_values unconflicted
            ∧ (∃ m, m ∈ maps ∧ auth_chain_of answer m x) ∧ ¬ (∀ m, m ∈ maps → auth_chain_of answer m x)
    | Err e => closure answer (state_values unconflicted) e ∧ answer e = None
    end.
Proof.
  intros Hsrc Hs Hf Hne Hlen. destruct (partition_state_maps _ _) as [u c] eqn:E.
  destruct (auth_difference_spec event_auth Inv answer support maps fuel s u c) as (r & s' & Hr & _ & Hres);
    [done..|]. by exists r, s'.
Qed.
End auth_difference_claim.

(** ** Examples *)

Module ForkSample.
Definition fork (id : string) : gmap (string * string) string :=
  list_to_map [(("m.room.create", ""), "$create"); (("m.room.topic", ""), id)].
Definition forks : list (gmap (string * string) string) := [fork "$a"; fork "$b"].

(** [$a] cites [$p], which [$b] does not; all lead to [$create]. *)
Definition answer (id : string) : option (N * list string) :=
  (list_to_map [("$create", (1%N, [])); ("$p", (2%N, ["$create"])); ("$a", (3%N, ["$p"]));
                ("$b", (3%N, ["$create"]))] : gmap string (N * list string)) !! id.
Definition event_auth (id : string) (with_auth : bool) (s : unit) : option (N * list string) * unit :=
  ((λ da, (da.1, if with_auth then da.2 else [])) <$> answer id, s).
End ForkSample.

Lemma fork_source_ok : source_ok ForkSample.event_auth (λ _, True) ForkSample.answer
  (list_to_set ["$create"; "$p"; "$a"; "$b"]).
Proof.
  split; [intros id w []; by exists tt|]. intros id [da Hid]. unfold ForkSample.answer in Hid.
  apply elem_of_list_to_map_2 in Hid. set_solver.
Qed.

Lemma partition_exact_witness :
  let '(u, c) := partition_state_maps (H0:=order_forward) (state_iter <$> ForkSample.forks)
    (N.of_nat (length ForkSample.forks)) in
  u !! ("m.room.create", "") = Some "$create".
Proof.
  pose proof (partition_exact (H:=string_event_id) (H0:=order_forward) ForkSample.forks) as Hp.
  destruct (partition_state_maps _ _) as [u c].
  destruct Hp as [Hu _]; [discriminate|vm_compute; discriminate|].
  apply Hu. intros m Hm. apply elem_of_cons in Hm as [->|Hm]; [reflexivity|].
  apply list_elem_of_singleton in Hm as ->. reflexivity.
Defined.

Example fork_auth_difference :
  (let '(u, c) := partition_state_maps (H0:=order_forward) (state_iter <$> ForkSample.forks) 2 in
   fst <$> auth_difference ForkSample.event_auth 4 u ForkSample.forks c tt) = Some (Ok ["$p"]).
Proof. vm_compute. reflexivity. Qed.

Lemma auth_difference_exact_witness :
  let '(u, c) := partition_state_maps (H0:=order_forward) (state_iter <$> ForkSample.forks)
    (N.of_nat (length ForkSample.forks)) in
  ∃ r s, auth_difference ForkSample.event_auth 4 u ForkSample.forks c tt = Some (r, s).
Proof.
  pose proof (auth_difference_exact (H:=string_event_id) (H0:=order_forward) ForkSample.event_auth (λ _, True)
    ForkSample.answer (list_to_set ["$create"; "$p"; "$a"; "$b"]) ForkSample.forks 4 tt fork_source_ok I) as Ha.
  destruct (partition_state_maps _ _) as [u c].
  destruct Ha as (r & s & Hr & _); [vm_compute; lia|discriminate|vm_compute; discriminate|].
  exists r, s. exact Hr.
Defined.
