(* ===== verification/Mainline.v ===== *)
(** * The power-levels mainline ([src/src/resolve/sorting.rs])

    [build_mainline_with_cache], [compute_closest_mainline_positions] and
    [mainline_sort], with the proofs that the walk terminates, that its cache
    is transparent, and that every event gets the position found by following
    its first power-levels citation. *)
From stdpp Require Import prelude gmap strings sorting.
From Stdlib Require String.
From Stdlib Require Import Ascii.
From S2P Require Import Prelude EventTypes Json Events JsonContent Auth Samples Sorting.

Section mainline.
Context {Id C : Type} `{EventId Id} `{EventContent C} {P : Type} `{!EventProvider Id C P}.
Abbreviation event := (LeanEvent Id C).
Context (auth_context : P) (version : StateResVersion).

(** The DAG edges of an event the provider knows. *)
Definition node_edges (id : Id) : list Id :=
  match get_event auth_context id with Some ev => dag_edges version ev | None => [] end.

Definition is_pl_id (id : Id) : bool :=
  match get_event auth_context id with
  | Some a => event_type a ==s M_ROOM_POWER_LEVELS
  | None => false
  end.

(** ** The breadth-first search for the nearest power-levels ancestor *)

Definition pl_body (q_id : Id) (s : gset Id * option Id) : loop_step Id (gset Id * option Id) :=
  let '(visited, found) := s in
  if bool_decide (q_id ∈ visited) then Push (visited, found) []
  else
    let visited' := {[q_id]} ∪ visited in
    match get_event auth_context q_id with
    | Some auth_ev =>
        if event_type auth_ev ==s M_ROOM_POWER_LEVELS then Break (visited', Some q_id)
        else Push (visited', found) (dag_edges version auth_ev)
    | None => Push (visited', found) []
    end.

Definition bfs_fuel : nat := weight node_edges (provider_ids auth_context) ∅.

Definition pl_parent (eid : Id) : option (option Id) :=
  match get_event auth_context eid with
  | Some ev =>
      let queue := dag_edges version ev in
      snd <$> drain pl_body (bfs_fuel + length queue) queue (∅, None)
  | None => Some None
  end.

(** ** The mainline walk *)

Fixpoint mainline_loop (fuel : nat) (current : option Id) (seen : gset Id) (mainline : list Id)
    (pl_parent_cache : gmap Id (option Id)) : option (list Id * gmap Id (option Id)) :=
  match current with
  | None => Some (mainline, pl_parent_cache)
  | Some eid =>
      match fuel with
      | O => None
      | S n =>
          if bool_decide (eid ∈ seen) then Some (mainline, pl_parent_cache)
          else
            let seen' := {[eid]} ∪ seen in
            let mainline' := mainline ++ [eid] in
            match pl_parent_cache !! eid with
            | Some cached => mainline_loop n cached seen' mainline' pl_parent_cache
            | None =>
                match pl_parent eid with
                | None => None
                | Some found =>
                    mainline_loop n found seen' mainline' (<[eid := found]> pl_parent_cache)
                end
            end
      end
  end.

Definition pl_key : string * string := key_of (EventType_from M_ROOM_POWER_LEVELS) "".

Definition build_mainline_with_cache (resolved : gmap (string * string) Id)
    (pl_parent_cache : gmap Id (option Id)) : option (list Id * gmap Id (option Id)) :=
  mainline_loop (size pl_parent_cache + size (provider_ids auth_context) + 2)
    (resolved !! pl_key) ∅ [] pl_parent_cache.

Definition build_mainline (resolved : gmap (string * string) Id) : option (list Id) :=
  fst <$> build_mainline_with_cache resolved ∅.

(** ** Closest mainline positions *)

(** The sentinel [usize::MAX - 1] marks a node whose search is under way. *)
Definition IN_PROGRESS : N := USIZE_MAX - 1.

Definition mainline_memo (mainline : list Id) : gmap Id N :=
  foldl (λ m p, <[p.2 := N.of_nat p.1]> m) ∅ (zip (seq 0 (length mainline)) mainline).

(** The first cited power-levels event. *)
Definition pl_edge (id : Id) : option Id := find is_pl_id (node_edges id).

(** [while let Some(&top) = stack.last()]; the head of the list is the top. *)
Fixpoint position_loop (fuel : nat) (mainline_len : N) (stack : list Id) (memo : gmap Id N)
    : option (gmap Id N) :=
  match stack with
  | [] => Some memo
  | top :: stack' =>
      match fuel with
      | O => None
      | S n =>
          let resolve memo :=
            match pl_edge top with
            | Some aid =>
                match memo !! aid with
                | Some child_pos =>
                    let min_pos := if (child_pos =? IN_PROGRESS)%N then USIZE_MAX else child_pos in
                    let resolved_pos := if (min_pos =? USIZE_MAX)%N then mainline_len else min_pos in
                    position_loop n mainline_len stack' (<[top := resolved_pos]> memo)
                | None => position_loop n mainline_len (aid :: stack) memo
                end
            | None => position_loop n mainline_len stack' (<[top := mainline_len]> memo)
            end in
          match memo !! top with
          | Some val =>
              if negb (val =? IN_PROGRESS)%N then position_loop n mainline_len stack' memo
              else resolve memo
          | None => resolve (<[top := IN_PROGRESS]> memo)
          end
      end
  end.

Fixpoint compute_positions (mainline_len : N) (ids : list Id) (memo : gmap Id N) : option (gmap Id N) :=
  match ids with
  | [] => Some memo
  | id :: ids' =>
      match position_loop (2 * size (provider_ids auth_context) + 1) mainline_len [id] memo with
      | Some memo' => compute_positions mainline_len ids' memo'
      | None => None
      end
  end.

Definition compute_closest_mainline_positions (events : list event) (mainline : list Id)
    : option (gmap Id N) :=
  compute_positions (N.of_nat (length mainline)) (event_id <$> events) (mainline_memo mainline).

(** ** The mainline sort *)

(** The comparison of two decorated events. *)
Definition mainline_cmp (a b : event * N) : comparison :=
  match N.compare b.2 a.2 with
  | Eq =>
      match Z.compare (origin_server_ts a.1) (origin_server_ts b.1) with
      | Eq => id_cmp (event_id a.1) (event_id b.1)
      | ord => ord
      end
  | ord => ord
  end.

Definition mainline_sort (events : list event) (mainline : list Id) : option (list event) :=
  match compute_closest_mainline_positions events mainline with
  | None => None
  | Some dist =>
      let decorated := (λ ev, (ev, default (N.of_nat (length mainline)) (dist !! event_id ev))) <$> events in
      Some ((sort_by mainline_cmp decorated).*1)
  end.
End mainline.

(** ** The mainline walk *)

Section mainline_props.
Context {Id C : Type} `{EventId Id} `{EventContent C} {P : Type} `{!EventProvider Id C P}.
Context (ctx : P) (version : StateResVersion).
Abbreviation edges := (node_edges ctx version).
Abbreviation is_pl := (is_pl_id ctx).
Abbreviation parent := (pl_parent ctx version).

Lemma node_edges_support x : x ∉ provider_ids ctx → edges x = [].
Proof.
  intros Hx. unfold node_edges. destruct (get_event ctx x) eqn:E; [|done].
  destruct Hx. apply provider_ids_spec. by rewrite E.
Qed.

(** Ancestors reached without passing through a power-levels event. *)
Inductive ancestor (eid : Id) : Id → Prop :=
| ancestor_edge x : x ∈ edges eid → ancestor eid x
| ancestor_step x y : ancestor eid x → is_pl x = false → y ∈ edges x → ancestor eid y.

Lemma pl_body_push x s s' new :
  pl_body ctx version x s = Push s' new →
  weight edges (provider_ids ctx) s'.1 + length new ≤ weight edges (provider_ids ctx) s.1.
Proof.
  unfold pl_body. destruct s as [V f]. case_bool_decide as Hx; [intros [= <- <-]; simpl; lia|].
  pose proof (weight_visit edges (provider_ids ctx) node_edges_support x V Hx) as Hw.
  unfold node_edges in Hw at 2. destruct (get_event ctx x) as [ev|].
  - case_match; intros [= <- <-]. done.
  - intros [= <- <-]. done.
Qed.

Lemma pl_parent_total eid : is_Some (parent eid).
Proof.
  unfold pl_parent. destruct (get_event ctx eid) as [ev|]; [|by eexists].
  apply fmap_is_Some. eapply (drain_total _ (λ s, weight edges (provider_ids ctx) s.1)).
  - intros. by eapply pl_body_push.
  - done.
Qed.

(** The search finds a power-levels ancestor if there is one. *)
Lemma pl_parent_spec eid r :
  parent eid = Some r →
  match r with
  | Some p => is_pl p = true ∧ ancestor eid p
  | None => ∀ x, ancestor eid x → is_pl x = false
  end.
Proof.
  unfold pl_parent. destruct (get_event ctx eid) as [ev|] eqn:Eev.
  2: { intros [= <-] x Ha. exfalso. assert (edges eid = []) as Hn by (unfold node_edges; by rewrite Eev).
       induction Ha as [x Hx|]; [|done]. rewrite Hn in Hx. set_solver. }
  assert (edges eid = dag_edges version ev) as Hedges by (unfold node_edges; by rewrite Eev).
  intros Hd. apply fmap_Some in Hd as ([V f] & Hd & ->).
  pose (closed (q : list Id) (V : gset Id) := (∀ x, x ∈ edges eid → x ∈ V ∨ x ∈ q)
    ∧ (∀ x, x ∈ V → is_pl x = false ∧ ∀ y, y ∈ edges x → y ∈ V ∨ y ∈ q)
    ∧ (∀ x, x ∈ q → ancestor eid x)).
  eapply (drain_inv _ (λ q s, s.2 = None ∧ closed q s.1)
    (λ s, match s.2 with
          | Some p => is_pl p = true ∧ ancestor eid p
          | None => ∀ x, ancestor eid x → is_pl x = false
          end)) in Hd; [done|..|by rewrite <-Hedges; split; [done|split_and!; [by right|set_solver|apply ancestor_edge]]].
  - intros x q [V1 f1] s' new [Hf (H1 & H2 & H3)]. simpl in *. subst f1.
    case_bool_decide as Hx.
    { intros [= <- <-]. rewrite app_nil_r. split; [done|]. split_and!; set_solver. }
    assert (ancestor eid x) as Hax by (apply H3; set_solver).
    destruct (get_event ctx x) as [e|] eqn:Ex.
    + case_match eqn:Ept; [done|]. intros [= <- <-]. split; [done|].
      assert (edges x = dag_edges version e) as <- by (unfold node_edges; by rewrite Ex).
      assert (is_pl x = false) as Hpl by (unfold is_pl_id; by rewrite Ex).
      split_and!; [set_solver|set_solver|].
      intros y [Hy|Hy]%elem_of_app; [set_solver|by eapply ancestor_step].
    + intros [= <- <-]. rewrite app_nil_r. split; [done|].
      assert (is_pl x = false) as Hpl by (unfold is_pl_id; by rewrite Ex).
      assert (edges x = []) as Hex by (unfold node_edges; by rewrite Ex).
      simpl. split_and!; [set_solver| |set_solver].
      intros y Hy. simpl in Hy. apply elem_of_union in Hy as [->%elem_of_singleton|Hy]; [|set_solver].
      split; [done|]. rewrite Hex. set_solver.
  - intros x q [V1 f1] s' [Hf (H1 & H2 & H3)]. simpl in *.
    case_bool_decide; [done|]. destruct (get_event ctx x) as [e|] eqn:Ex; [|done].
    case_match eqn:Ept; [|done]. intros [= <-]. simpl. split; [|apply H3; set_solver].
    unfold is_pl_id. by rewrite Ex.
  - intros [V1 f1] [Hf (H1 & H2 & _)]. simpl in *. subst f1. intros x Ha.
    assert (x ∈ V1) as Hx; [|by apply H2].
    induction Ha as [x Hx|x y _ IH _ Hy]; [set_solver|]. apply H2 in IH as [_ Hy']. set_solver.
Qed.

Lemma pl_parent_provider eid p : parent eid = Some (Some p) → p ∈ provider_ids ctx.
Proof.
  intros [Hp _]%pl_parent_spec. apply provider_ids_spec. unfold is_pl_id in Hp. by case_match.
Qed.

(** A cache whose entries are what the search would find. *)
Definition cache_ok (cache : gmap Id (option Id)) : Prop :=
  ∀ k v, cache !! k = Some v → parent k = Some v.

Lemma cache_ok_singleton k v : parent k = Some v → cache_ok {[ k := v ]}.
Proof. intros Hk k' v' [<- <-]%lookup_singleton_Some. done. Qed.

(** The walk without a cache. *)
Fixpoint walk (fuel : nat) (current : option Id) (seen : gset Id) (ml : list Id) : option (list Id) :=
  match current with
  | None => Some ml
  | Some eid =>
      match fuel with
      | O => None
      | S n =>
          if bool_decide (eid ∈ seen) then Some ml
          else match parent eid with
               | Some found => walk n found ({[eid]} ∪ seen) (ml ++ [eid])
               | None => None
               end
      end
  end.

Lemma walk_mono n m c s ml r : n ≤ m → walk n c s ml = Some r → walk m c s ml = Some r.
Proof.
  revert m c s ml. induction n as [|n IH]; intros [|m] [e|] s ml Hle; simpl; try done; [lia|].
  case_bool_decide; [done|]. case_match; [|done]. apply IH. lia.
Qed.

Lemma mainline_loop_walk n c s ml cache :
  cache_ok cache → ∃ cache', cache_ok cache'
    ∧ mainline_loop ctx version n c s ml cache = (λ r, (r, cache')) <$> walk n c s ml.
Proof.
  revert c s ml cache. induction n as [|n IH]; intros [e|] s ml cache Hok; simpl; try by eexists.
  case_bool_decide; [by eexists|].
  destruct (cache !! e) as [v|] eqn:Ee; [rewrite (Hok _ _ Ee); by apply IH|].
  destruct (parent e) as [v|] eqn:Ep; [|by eexists]. apply IH.
  intros k w [[<- <-]|[_ Hk]]%lookup_insert_Some; eauto.
Qed.

(** The walk ends: it never visits an id twice, and it only visits its start,
    cached ids and known ids. *)
Lemma mainline_loop_total n c s ml cache (U : gset Id) :
  (∀ k v, cache !! k = Some (Some v) → v ∈ U) → provider_ids ctx ⊆ U →
  (∀ e, c = Some e → e ∈ U) → s ⊆ U → size U < n + size s →
  is_Some (mainline_loop ctx version n c s ml cache).
Proof.
  revert c s ml cache. induction n as [|n IH]; intros [e|] s ml cache Hc Hp He Hs Hn; simpl;
    try by eexists.
  { apply subseteq_size in Hs. lia. }
  case_bool_decide as Hes; [by eexists|].
  assert (size U < n + size ({[e]} ∪ s)) as Hn'.
  { rewrite size_union, size_singleton by set_solver. lia. }
  assert ({[e]} ∪ s ⊆ U) by set_solver.
  destruct (cache !! e) as [v|] eqn:Ee; [apply IH; try done; naive_solver|].
  destruct (pl_parent_total e) as [v Hv]. rewrite Hv. apply IH; try done.
  - intros k w [[<- ->]|[_ Hk]]%lookup_insert_Some; [|by eauto].
    apply Hp. by eapply pl_parent_provider.
  - intros w ->. apply Hp. by eapply pl_parent_provider.
Qed.

Lemma build_mainline_total resolved cache :
  is_Some (build_mainline_with_cache ctx version resolved cache).
Proof.
  unfold build_mainline_with_cache.
  set (vals := list_to_set (omap id ((map_to_list cache).*2)) : gset Id).
  assert (size vals ≤ size cache) as Hv.
  { unfold vals. etrans; [apply size_list_to_set_le|].
    etrans; [apply length_omap_le|]. by rewrite length_fmap, length_map_to_list. }
  apply mainline_loop_total with (U := vals ∪ provider_ids ctx
    ∪ (match resolved !! pl_key with Some e => {[e]} | None => ∅ end)).
  - intros k v Hk. unfold vals. do 2 (apply elem_of_union; left). apply elem_of_list_to_set.
    apply list_elem_of_omap. exists (Some v). split; [|done].
    apply list_elem_of_fmap. exists (k, Some v). split; [done|]. by apply elem_of_map_to_list.
  - set_solver.
  - intros e ->. set_solver.
  - set_solver.
  - rewrite size_empty. pose proof (size_union_le vals (provider_ids ctx)) as Hu.
    destruct (resolved !! pl_key) as [e|].
    + pose proof (size_union_le (vals ∪ provider_ids ctx) {[e]}) as Hu'.
      rewrite size_singleton in Hu'. lia.
    + rewrite union_empty_r_L. lia.
Qed.

Definition pl_links (ml : list Id) : Prop :=
  ∀ i a b, ml !! i = Some a → ml !! S i = Some b → parent a = Some (Some b).

(** The list that starts at [start] and follows each event's nearest
    power-levels ancestor until there is none, or a cycle closes. *)
Record is_mainline (start : option Id) (ml : list Id) : Prop := {
  ml_nodup : NoDup ml;
  ml_head : head ml = start;
  ml_links : pl_links ml;
  ml_last a : last ml = Some a → parent a = Some None ∨ ∃ b, parent a = Some (Some b) ∧ b ∈ ml
}.

Lemma pl_links_snoc ml e :
  pl_links ml → (∀ a, last ml = Some a → parent a = Some (Some e)) → pl_links (ml ++ [e]).
Proof.
  intros Hl Hlast i a b Ha Hb.
  destruct (decide (S i < length ml)) as [Hlt|Hge].
  - rewrite lookup_app_l in Ha, Hb by lia. by eapply Hl.
  - assert (S i = length ml) as Hi.
    { apply lookup_lt_Some in Hb. rewrite length_app in Hb. simpl in Hb. lia. }
    rewrite lookup_app_l in Ha by lia. rewrite lookup_app_r, Hi, Nat.sub_diag in Hb by lia.
    simplify_eq/=. apply Hlast. rewrite last_lookup, <-Hi. done.
Qed.

Lemma walk_mainline start n c s ml r :
  walk n c s ml = Some r →
  NoDup ml → (∀ x, x ∈ s ↔ x ∈ ml) → pl_links ml →
  match last ml with None => c = start | Some a => parent a = Some c ∧ head ml = start end →
  is_mainline start r.
Proof.
  revert c s ml. induction n as [|n IH]; intros c s ml Hw Hnd Hs Hl Hc.
  all: assert (c = None ∨ (∃ e, c = Some e ∧ e ∈ ml) → is_mainline start ml) as Hend.
  1, 3: intros Hce; destruct (last ml) as [a|] eqn:Ea;
    [destruct Hc as [Hp Hh]; split; [done..|intros a' Ha'; assert (a' = a) as -> by congruence; naive_solver]
    |apply last_None in Ea; subst ml; split; [done|naive_solver set_solver|done|done]].
  - destruct c as [e|]; simplify_eq/=. apply Hend. by left.
  - destruct c as [e|]; simplify_eq/=; [|apply Hend; by left].
    case_bool_decide as Hes; [simplify_eq; apply Hend; right; exists e; split; [done|by apply Hs]|].
    destruct (parent e) as [found|] eqn:Ep; [|done]. eapply IH; [exact Hw|..].
    + apply NoDup_app. rewrite Hs in Hes. split_and!; [done|set_solver|apply NoDup_singleton].
    + set_solver.
    + apply pl_links_snoc; [done|]. intros a Ha. rewrite Ha in Hc. naive_solver.
    + rewrite last_snoc. split; [done|]. destruct (last ml) as [a|] eqn:Ea.
      * destruct Hc as [_ Hh]. rewrite head_app. by destruct ml.
      * apply last_None in Ea as ->. simpl. done.
Qed.
End mainline_props.

(** The search reads nothing of the provider but its events. *)
Lemma pl_parent_provider_ext {Id C P1 P2 : Type} `{EventId Id} `{EventContent C} `{!EventProvider Id C P1}
    `{!EventProvider Id C P2} (p1 : P1) (p2 : P2) version eid :
  (∀ id, get_event p1 id = get_event p2 id) → provider_ids p1 = provider_ids p2 →
  pl_parent p1 version eid = pl_parent p2 version eid.
Proof.
  intros Hg Hids. unfold pl_parent. rewrite Hg. destruct (get_event p2 eid) as [ev|]; [|done]. f_equal.
  assert (bfs_fuel p1 version = bfs_fuel p2 version) as ->.
  { unfold bfs_fuel. rewrite Hids. apply weight_ext. intros x. unfold node_edges. by rewrite Hg. }
  apply drain_ext. intros x [V f]. unfold pl_body. by rewrite Hg.
Qed.

Section mainline_claims.
Context {Id C : Type} `{EventId Id} `{EventContent C} {P : Type} `{!EventProvider Id C P}.

(** The walk with a cache, and its result. *)
Lemma mainline_built (ctx : P) version resolved cache :
  cache_ok ctx version cache →
  ∃ ml cache', build_mainline_with_cache ctx version resolved cache = Some (ml, cache')
    ∧ build_mainline ctx version resolved = Some ml
    ∧ cache_ok ctx version cache'
    ∧ is_mainline ctx version (resolved !! pl_key) ml.
Proof.
  intros Hok. unfold build_mainline.
  destruct (build_mainline_total ctx version resolved cache) as [[ml cache'] Hb].
  destruct (build_mainline_total ctx version resolved ∅) as [[ml0 cache0] Hb0].
  assert (cache_ok ctx version ∅) as Hok0 by (intros k v; by rewrite lookup_empty).
  rewrite Hb, Hb0. unfold build_mainline_with_cache in Hb, Hb0.
  destruct (mainline_loop_walk ctx version (size cache + size (provider_ids ctx) + 2)
    (resolved !! pl_key) ∅ [] cache Hok) as (c1 & Hc1 & E1).
  destruct (mainline_loop_walk ctx version (size (∅ : gmap Id (option Id)) + size (provider_ids ctx) + 2)
    (resolved !! pl_key) ∅ [] ∅ Hok0) as (c2 & Hc2 & E2).
  rewrite E1 in Hb. rewrite E2 in Hb0.
  apply fmap_Some in Hb as (r1 & Hw1 & [= -> ->]). apply fmap_Some in Hb0 as (r2 & Hw2 & [= -> ->]).
  exists r1, c1. split_and!; [done| |done|].
  - simpl. f_equal. eapply (walk_mono _ _ _ (size cache + size (provider_ids ctx) + 2)) in Hw2;
      [|rewrite map_size_empty; lia]. congruence.
  - eapply walk_mainline; [exact Hw1|apply NoDup_nil_2|set_solver|done|done].
Qed.

(** Building the mainline always terminates, with any parent cache whose
    entries agree with the search; the cache changes neither the mainline
    nor its own agreement; and the mainline is the list without repetitions
    that starts at the resolved power-levels event and goes from each event
    to its nearest power-levels ancestor until there is none (or a cycle
    closes). *)
Theorem mainline_cache_transparent (ctx : P) version resolved cache :
  cache_ok ctx version cache →
  ∃ ml cache', build_mainline_with_cache ctx version resolved cache = Some (ml, cache')
    ∧ build_mainline ctx version resolved = Some ml
    ∧ cache_ok ctx version cache'
    ∧ is_mainline ctx version (resolved !! pl_key) ml.
Proof. apply mainline_built. Qed.
End mainline_claims.

(** ** Closest mainline positions *)

Section positions.
Context {Id C : Type} `{EventId Id} `{EventContent C} {P : Type} `{!EventProvider Id C P}.
Context (ctx : P) (version : StateResVersion) (mainline : list Id).
Abbreviation event := (LeanEvent Id C).
Abbreviation next := (pl_edge ctx version).
Abbreviation pos x := (mainline_memo mainline !! x).
Abbreviation len := (N.of_nat (length mainline)).

(** Following the first power-levels citation [n] times reaches the mainline
    event at index [i], passing no other mainline event. *)
Inductive reaches : nat → Id → N → Prop :=
| reaches_here x i : pos x = Some i → reaches 0 x i
| reaches_step n x a i : pos x = None → next x = Some a → reaches n a i → reaches (S n) x i.

(** The position of an event: the mainline index reached, or the mainline's
    length when the chain of citations ends or loops before reaching it. *)
Definition position (x : Id) (v : N) : Prop :=
  (∃ n, reaches n x v) ∨ (v = len ∧ ∀ n i, ¬ reaches n x i).

Lemma reaches_functional n m x i j : reaches n x i → reaches m x j → n = m ∧ i = j.
Proof.
  intros Hn. revert m. induction Hn as [x i Hx|n x a i Hx Ha _ IH]; intros m Hm;
    inversion Hm; simplify_eq; [done|]. destruct (IH _ ltac:(eassumption)) as [-> ->]. done.
Qed.

Lemma position_functional x v w : position x v → position x w → v = w.
Proof.
  intros [[n Hv]|[-> Hv]] [[m Hw]|[-> Hw]]; [by eapply reaches_functional|naive_solver..].
Qed.

Lemma mainline_memo_bound x i : pos x = Some i → (i < len)%N.
Proof.
  unfold mainline_memo.
  assert (∀ l (m : gmap Id N), (∀ y j, m !! y = Some j → (j < len)%N) →
    (∀ p, p ∈ l → p.1 < length mainline) →
    foldl (λ m p, <[p.2 := N.of_nat p.1]> m) m l !! x = Some i → (i < len)%N) as Hg.
  { intros l. induction l as [|[k y] l IH]; intros m Hm Hl; simpl; [apply Hm|].
    apply IH; [|set_solver]. intros z j [[_ <-]|[_ Hz]]%lookup_insert_Some; [|by eapply Hm].
    assert (k < length mainline) by (apply (Hl (k, y)); set_solver). lia. }
  apply Hg; [intros ??; by rewrite lookup_empty|].
  intros [k y] Hin%elem_of_zip_l. apply elem_of_seq in Hin. simpl in *. lia.
Qed.

Hypothesis Hlen : (len < IN_PROGRESS)%N.

Lemma position_bound x v : position x v → (v ≤ len)%N.
Proof.
  intros [[n Hr]|[-> _]]; [|done]. induction Hr; [|done].
  apply mainline_memo_bound in H1. lia.
Qed.

Lemma position_step x a v : pos x = None → next x = Some a → position a v → position x v.
Proof.
  intros Hx Ha [[n Hr]|[-> Hr]]; [left; exists (S n); by eapply reaches_step|right].
  split; [done|]. intros n i Hn. inversion Hn; simplify_eq. naive_solver.
Qed.

Lemma position_end x : pos x = None → next x = None → position x len.
Proof. intros Hx Ha. right. split; [done|]. intros n i Hn. inversion Hn; congruence. Qed.

(** The stack: each element is the citation followed from the one below. *)
Fixpoint chain (stack : list Id) : Prop :=
  match stack with
  | a :: ((x :: _) as st) => next x = Some a ∧ chain st
  | _ => True
  end.

Lemma chain_up top st y n i :
  chain (top :: st) → (∀ x, x ∈ top :: st → pos x = None) → y ∈ top :: st →
  reaches n y i → ∃ m, m ≤ n ∧ reaches m top i.
Proof.
  revert top. induction st as [|x st IH]; intros top Hc Hp Hy Hr.
  { apply list_elem_of_singleton in Hy as ->. eauto. }
  apply elem_of_cons in Hy as [->|Hy]; [eauto|]. destruct Hc as [Hx Hc].
  destruct (IH x Hc) as (m & Hm & Hr'); [set_solver|done..|].
  inversion Hr'; simplify_eq; [rewrite Hp in * by set_solver; done|]. eexists; split; [|done]. lia.
Qed.

(** A chain that closes on itself never reaches the mainline. *)
Lemma position_cycle top st y :
  chain (top :: st) → (∀ x, x ∈ top :: st → pos x = None) → next top = Some y → y ∈ top :: st →
  position top len.
Proof.
  intros Hc Hp Ht Hy. right. split; [done|]. intros n i Hn.
  inversion Hn; simplify_eq; [rewrite Hp in * by set_solver; done|].
  eapply chain_up in Hy as (m & Hm & Hr); [|done..].
  destruct (reaches_functional _ _ _ _ _ Hn Hr). lia.
Qed.

Record dfs_inv (stack : list Id) (memo : gmap Id N) : Prop := {
  dfs_done x v : memo !! x = Some v → v ≠ IN_PROGRESS → position x v;
  dfs_mainline x i : pos x = Some i → memo !! x = Some i;
  dfs_chain : chain stack;
  dfs_nodup : NoDup stack;
  dfs_open x : memo !! x = Some IN_PROGRESS → x ∈ stack;
  dfs_below x : x ∈ tail stack → memo !! x = Some IN_PROGRESS;
  dfs_child top a : head stack = Some top → memo !! top = Some IN_PROGRESS → next top = Some a →
    is_Some (memo !! a)
}.

Lemma dfs_open_pos stack memo x : dfs_inv stack memo →
  memo !! x = None ∨ memo !! x = Some IN_PROGRESS → pos x = None.
Proof.
  intros Hinv Hx. destruct (pos x) as [i|] eqn:E; [|done].
  pose proof (mainline_memo_bound _ _ E). apply (dfs_mainline _ _ Hinv) in E.
  destruct Hx; simplify_eq; lia.
Qed.

(** Popping a resolved top. *)
Lemma dfs_pop top st memo v :
  dfs_inv (top :: st) memo → memo !! top = Some v → v ≠ IN_PROGRESS → dfs_inv st memo.
Proof.
  intros [I1 I2 I3 I4 I5 I6 I7] Hv Hne. simpl in *. apply NoDup_cons in I4 as [Hni Hnd].
  split; [done..| |done| | |].
  - by destruct st as [|x st]; [|destruct I3].
  - intros x Hx. apply I5 in Hx as Hin. apply elem_of_cons in Hin as [->|]; [congruence|done].
  - intros x Hx. apply I6. by destruct st; [|set_solver].
  - intros x a Hx _ Ha. destruct st as [|y st]; [done|]. simplify_eq/=.
    destruct I3 as [Hn _]. simplify_eq. by rewrite Hv.
Qed.

(** Marking the top, and resolving a marked top. *)
Lemma dfs_mark top st memo :
  dfs_inv (top :: st) memo → memo !! top = None →
  (∀ a, next top = Some a → is_Some (<[top := IN_PROGRESS]> memo !! a)) →
  dfs_inv (top :: st) (<[top := IN_PROGRESS]> memo).
Proof.
  intros Hinv Hn Ha. pose proof (dfs_open_pos _ _ top Hinv (or_introl Hn)) as Hp.
  destruct Hinv as [I1 I2 I3 I4 I5 I6 I7]. simpl in *. split; [|  |done|done| | |].
  - intros x v [[<- <-]|[_ Hx]]%lookup_insert_Some; [done|by apply I1].
  - intros x i Hx. rewrite lookup_insert_ne by congruence. by apply I2.
  - intros x [[<- _]|[_ Hx]]%lookup_insert_Some; [set_solver|by apply I5].
  - simpl. intros x Hx. apply NoDup_cons in I4 as [Hni _].
    rewrite lookup_insert_ne by set_solver. by apply I6.
  - simpl. intros x a [= <-] _ Hx. by apply Ha.
Qed.

Lemma dfs_resolve top st memo v :
  dfs_inv (top :: st) memo → memo !! top = Some IN_PROGRESS → position top v →
  dfs_inv st (<[top := v]> memo).
Proof.
  intros Hinv Hm Hv. pose proof (dfs_open_pos _ _ top Hinv (or_intror Hm)) as Hp.
  pose proof (position_bound _ _ Hv) as Hb.
  apply (dfs_pop top st _ v); [|by rewrite lookup_insert_eq|lia].
  destruct Hinv as [I1 I2 I3 I4 I5 I6 I7]. simpl in *. split; [| |done|done| | |].
  - intros x w [[<- <-]|[_ Hx]]%lookup_insert_Some; [done|by apply I1].
  - intros x i Hx. rewrite lookup_insert_ne by congruence. by apply I2.
  - intros x [[<- _]|[_ Hx]]%lookup_insert_Some; [set_solver|by apply I5].
  - simpl. intros x Hx. apply NoDup_cons in I4 as [Hni _].
    rewrite lookup_insert_ne by set_solver. by apply I6.
  - simpl. intros x a [= <-]. rewrite lookup_insert_eq. intros [= ->]. lia.
Qed.

(** Pushing an unvisited citation of a freshly marked top. *)
Lemma dfs_push top st memo a :
  dfs_inv (top :: st) memo → memo !! top = None → next top = Some a →
  <[top := IN_PROGRESS]> memo !! a = None →
  dfs_inv (a :: top :: st) (<[top := IN_PROGRESS]> memo).
Proof.
  intros Hinv Hn Ht Ha. pose proof (dfs_open_pos _ _ top Hinv (or_introl Hn)) as Hp.
  destruct Hinv as [I1 I2 I3 I4 I5 I6 I7]. simpl in *. apply NoDup_cons in I4 as Hnd.
  destruct Hnd as [Hni _].
  assert (∀ x, x ∈ top :: st → <[top := IN_PROGRESS]> memo !! x = Some IN_PROGRESS) as Hmark.
  { intros x [->|Hx]%elem_of_cons; [by rewrite lookup_insert_eq|].
    rewrite lookup_insert_ne by set_solver. by apply I6. }
  split; [| |done| | | |].
  - intros x v [[<- <-]|[_ Hx]]%lookup_insert_Some; [done|by apply I1].
  - intros x i Hx. rewrite lookup_insert_ne by congruence. by apply I2.
  - apply NoDup_cons. split; [|done]. intros Hin%Hmark. congruence.
  - intros x [[<- _]|[_ Hx]]%lookup_insert_Some; [set_solver|]. apply I5 in Hx. set_solver.
  - simpl. apply Hmark.
  - simpl. intros x b [= <-]. congruence.
Qed.

Abbreviation unvisited memo := (provider_ids ctx ∖ dom memo).

Lemma next_provider x a : next x = Some a → x ∈ provider_ids ctx.
Proof.
  unfold pl_edge, node_edges. intros Hx. apply provider_ids_spec.
  destruct (get_event ctx x); [by eexists|done].
Qed.

Lemma unvisited_insert x v (memo : gmap Id N) :
  size (unvisited (<[x := v]> memo)) ≤ size (unvisited memo).
Proof. apply subseteq_size. rewrite dom_insert_L. set_solver. Qed.

Lemma unvisited_mark x v (memo : gmap Id N) :
  x ∈ provider_ids ctx → memo !! x = None →
  size (unvisited (<[x := v]> memo)) < size (unvisited memo).
Proof.
  intros Hx Hn. apply subset_size. rewrite dom_insert_L. apply not_elem_of_dom in Hn. set_solver.
Qed.

(** The position a marked top gets from a visited citation. *)
Lemma resolved_position top st memo a child :
  dfs_inv (top :: st) memo → memo !! top = Some IN_PROGRESS → next top = Some a →
  memo !! a = Some child →
  let min_pos := if (child =? IN_PROGRESS)%N then USIZE_MAX else child in
  position top (if (min_pos =? USIZE_MAX)%N then len else min_pos).
Proof.
  intros Hinv Hm Ht Ha. pose proof (dfs_open_pos _ _ top Hinv (or_intror Hm)) as Hp.
  destruct (N.eqb_spec child IN_PROGRESS) as [->|Hne]; simpl.
  - rewrite ?N.eqb_refl. apply (position_cycle top st a); [apply Hinv| |done|by apply (dfs_open _ _ Hinv)].
    intros x Hx. eapply dfs_open_pos; [done|]. right.
    apply elem_of_cons in Hx as [->|Hx]; [done|]. by apply (dfs_below _ _ Hinv).
  - apply (dfs_done _ _ Hinv) in Ha as Hpa; [|done]. pose proof (position_bound _ _ Hpa).
    destruct (N.eqb_spec child USIZE_MAX) as [->|]; [unfold IN_PROGRESS, USIZE_MAX in *; lia|].
    by eapply position_step.
Qed.

Lemma position_loop_spec fuel stack memo :
  dfs_inv stack memo → 2 * size (unvisited memo) + length stack ≤ fuel →
  ∃ memo', position_loop ctx version fuel len stack memo = Some memo' ∧ dfs_inv [] memo'
    ∧ (∀ x, x ∈ stack ∨ is_Some (memo !! x) → is_Some (memo' !! x)).
Proof.
  revert stack memo. induction fuel as [|n IH]; intros [|top st] memo Hinv Hf; simpl in *;
    try (by exists memo; split_and!; [done..|set_solver]); [lia|].
  assert (∀ v memo1, memo1 !! top = Some IN_PROGRESS → dfs_inv (top :: st) memo1 → position top v →
    size (unvisited memo1) ≤ size (unvisited memo) →
    (∀ x, is_Some (memo !! x) → is_Some (memo1 !! x)) →
    ∃ memo', position_loop ctx version n len st (<[top := v]> memo1) = Some memo' ∧ dfs_inv [] memo'
      ∧ ∀ x, x ∈ top :: st ∨ is_Some (memo !! x) → is_Some (memo' !! x)) as Hres.
  { intros v memo1 Hm Hi Hv Hs Hsub.
    destruct (IH st (<[top := v]> memo1)) as (m' & E & Hi' & Hd).
    - by eapply dfs_resolve.
    - pose proof (unvisited_insert top v memo1). lia.
    - exists m'. split_and!; [done..|]. intros x [[->|Hx]%elem_of_cons|Hx]; apply Hd.
      + right. by rewrite lookup_insert_eq.
      + by left.
      + right. apply lookup_insert_is_Some. destruct (decide (top = x)); auto. }
  destruct (memo !! top) as [val|] eqn:Etop.
  - destruct (N.eqb_spec val IN_PROGRESS) as [->|Hne]; simpl.
    + destruct (next top) as [a|] eqn:Ea.
      * destruct (dfs_child _ _ Hinv top a eq_refl Etop Ea) as [child Hc]. rewrite Hc.
        apply Hres; try done. by eapply resolved_position.
      * apply Hres; try done. apply position_end; [|done]. eapply dfs_open_pos; [done|by right].
    + destruct (IH st memo) as (m' & E & Hi' & Hd); [by eapply dfs_pop|lia|].
      exists m'. split_and!; [done..|]. intros x [[->|Hx]%elem_of_cons|Hx]; apply Hd; [|by left|by right].
      right. by rewrite Etop.
  - assert (∀ x, is_Some (memo !! x) → is_Some (<[top := IN_PROGRESS]> memo !! x)) as Hsub.
    { intros x Hx. apply lookup_insert_is_Some. destruct (decide (top = x)); auto. }
    destruct (next top) as [a|] eqn:Ea.
    + destruct (<[top := IN_PROGRESS]> memo !! a) as [child|] eqn:Ec.
      * assert (dfs_inv (top :: st) (<[top := IN_PROGRESS]> memo)) as Hi
          by (apply dfs_mark; [done..|]; intros b Hb; assert (b = a) as -> by congruence; by rewrite Ec).
        apply Hres; [by rewrite lookup_insert_eq|done| |apply unvisited_insert|done].
        eapply resolved_position; [done|by rewrite lookup_insert_eq|done..].
      * destruct (IH (a :: top :: st) (<[top := IN_PROGRESS]> memo)) as (m' & E & Hi' & Hd).
        { by apply dfs_push. }
        { pose proof (unvisited_mark top IN_PROGRESS memo (next_provider _ _ Ea) Etop). simpl. lia. }
        exists m'. split_and!; [done..|]. intros x [Hx|Hx]; apply Hd; [left; set_solver|right; by apply Hsub].
    + apply Hres; [by rewrite lookup_insert_eq| | |apply unvisited_insert|done].
      * apply dfs_mark; [done..|]. intros b Hb. congruence.
      * apply position_end; [|done]. eapply dfs_open_pos; [done|by left].
Qed.

Lemma compute_positions_spec ids memo :
  dfs_inv [] memo →
  ∃ memo', compute_positions ctx version len ids memo = Some memo' ∧ dfs_inv [] memo'
    ∧ (∀ x, x ∈ ids ∨ is_Some (memo !! x) → is_Some (memo' !! x)).
Proof.
  revert memo. induction ids as [|id ids IH]; intros memo Hinv; cbn [compute_positions].
  { exists memo. split_and!; [done..|set_solver]. }
  destruct (position_loop_spec (2 * size (provider_ids ctx) + 1) [id] memo) as (m1 & -> & Hi1 & Hd1).
  - destruct Hinv as [I1 I2 _ _ I5 _ _].
    split; [done..|apply NoDup_singleton| | |]; simpl.
    + intros x Hx. apply I5 in Hx. by apply not_elem_of_nil in Hx.
    + intros x Hx. by apply not_elem_of_nil in Hx.
    + intros x a _ Hx. apply I5 in Hx. by apply not_elem_of_nil in Hx.
  - simpl. assert (size (unvisited memo) ≤ size (provider_ids ctx)) by (apply subseteq_size; set_solver).
    lia.
  - destruct (IH m1 Hi1) as (m2 & -> & Hi2 & Hd2). exists m2. split_and!; [done..|].
    intros x [[->|Hx]%elem_of_cons|Hx]; apply Hd2; [right; apply Hd1; left; set_solver|by left|].
    right. apply Hd1. by right.
Qed.

Lemma mainline_memo_inv : dfs_inv [] (mainline_memo mainline).
Proof.
  split; try done; try set_solver.
  - intros x v Hx _. left. exists 0. by constructor.
  - apply NoDup_nil_2.
  - intros x Hx. apply mainline_memo_bound in Hx. lia.
Qed.

Lemma closest_positions_spec (events : list event) :
  ∃ memo, compute_closest_mainline_positions ctx version events mainline = Some memo
    ∧ ∀ e, e ∈ events → ∃ v, memo !! event_id e = Some v ∧ position (event_id e) v.
Proof.
  destruct (compute_positions_spec (event_id <$> events) _ mainline_memo_inv) as (m & E & Hi & Hd).
  exists m. split; [done|]. intros e He.
  destruct (Hd (event_id e)) as [v Hv]; [left; apply list_elem_of_fmap; by exists e|].
  exists v. split; [done|]. apply (dfs_done _ _ Hi _ _ Hv). intros ->.
  apply (dfs_open _ _ Hi) in Hv. by apply not_elem_of_nil in Hv.
Qed.
End positions.

(** ** The sort *)

Section mainline_sort_props.
Context {Id C : Type} `{EventId Id} `{EventContent C} {P : Type} `{!EventProvider Id C P}.
Abbreviation event := (LeanEvent Id C).

Definition mainline_sort_key (p : event * N) : N * Z * Id :=
  (p.2, origin_server_ts p.1, event_id p.1).
Definition mainline_key_cmp : N * Z * Id → N * Z * Id → comparison :=
  cmp_pair (cmp_pair (cmp_rev N.compare) Z.compare) id_cmp.

Lemma mainline_cmp_key a b :
  mainline_cmp a b = cmp_on mainline_sort_key mainline_key_cmp a b.
Proof.
  unfold mainline_cmp, cmp_on, mainline_sort_key, mainline_key_cmp, cmp_pair, cmp_rev, then_with.
  simpl. by repeat case_match.
Qed.

Global Instance mainline_key_cmp_total : TotalCmp mainline_key_cmp.
Proof. unfold mainline_key_cmp. apply _. Qed.

Lemma sort_decorated (dist : Id → N) (events : list event) :
  let l := (sort_by mainline_cmp ((λ e, (e, dist (event_id e))) <$> events)).*1 in
  l ≡ₚ events
  ∧ StronglySorted (λ a b, mainline_cmp (a, dist (event_id a)) (b, dist (event_id b)) ≠ Gt) l.
Proof.
  intros l. set (dec := λ e : event, (e, dist (event_id e))) in *.
  set (S := sort_by mainline_cmp (dec <$> events)) in *.
  assert (S ≡ₚ dec <$> events) as HS by apply sort_by_perm.
  assert (S = dec <$> l) as Hl.
  { unfold l. rewrite <-list_fmap_compose. symmetry. rewrite <-(list_fmap_id S) at 2.
    apply list_fmap_ext. intros i p Hp%list_elem_of_lookup_2. rewrite HS in Hp.
    apply list_elem_of_fmap in Hp as (e & -> & _). done. }
  split.
  - unfold l. rewrite HS, <-list_fmap_compose. simpl.
    rewrite (list_fmap_ext _ id); [by rewrite list_fmap_id|done].
  - apply (StronglySorted_fmap_inv dec _ (cmp_le (cmp_on mainline_sort_key mainline_key_cmp))).
    + intros x y. unfold cmp_le. by rewrite <-mainline_cmp_key.
    + rewrite <-Hl. unfold S. rewrite (sort_by_ext _ (cmp_on mainline_sort_key mainline_key_cmp))
        by (intros; apply mainline_cmp_key). apply sort_by_sorted. apply _.
Qed.

(** The sorted list and the positions it is sorted by. *)
Lemma mainline_sorted (ctx : P) version (events : list event) mainline :
  (N.of_nat (length mainline) < IN_PROGRESS)%N →
  ∃ (dist : Id → N) l, mainline_sort ctx version events mainline = Some l
    ∧ (∀ e, e ∈ events → position ctx version mainline (event_id e) (dist (event_id e)))
    ∧ l ≡ₚ events
    ∧ StronglySorted (λ a b,
        mainline_cmp (a, dist (event_id a)) (b, dist (event_id b)) ≠ Gt) l.
Proof.
  intros Hlen. destruct (closest_positions_spec ctx version mainline Hlen events) as (memo & E & Hpos).
  set (dist := λ id, default (N.of_nat (length mainline)) (memo !! id)).
  destruct (sort_decorated dist events) as [Hp Hs].
  exists dist, ((sort_by mainline_cmp ((λ e, (e, dist (event_id e))) <$> events)).*1).
  split_and!; [unfold mainline_sort; by rewrite E| |done..].
  intros e (v & Hv & Hx)%Hpos. unfold dist. by rewrite Hv.
Qed.

(** What the comparison decides. *)
Lemma mainline_cmp_le (a b : event) (pa pb : N) :
  mainline_cmp (a, pa) (b, pb) ≠ Gt ↔
    (pb < pa)%N ∨ pa = pb ∧ ((origin_server_ts a < origin_server_ts b)%Z
      ∨ origin_server_ts a = origin_server_ts b ∧ id_cmp (event_id a) (event_id b) ≠ Gt).
Proof.
  unfold mainline_cmp. cbn [fst snd].
  destruct (N.compare_spec pb pa) as [->|Hp|Hp]; [|split; [by left|done]|split; [done|intros [?|[-> _]]; lia]].
  destruct (Z.compare_spec (origin_server_ts a) (origin_server_ts b)) as [Ht|Ht|Ht]; split; try done; try lia.
  - intros Hc. right. split; [done|by right].
  - intros [?|[_ [?|[_ Hc]]]]; [lia..|done].
Qed.

(** C14: the mainline sort terminates and returns the given events in the order
    of decreasing mainline position, then of increasing timestamp, then of
    event id, where the position of an event is the mainline index first
    reached by following the first power-levels citation again and again, or
    the mainline's length when that chain ends or loops before it. *)
Theorem mainline_sort_spec (ctx : P) version (events : list event) mainline :
  (N.of_nat (length mainline) < IN_PROGRESS)%N →
  ∃ (dist : Id → N) l, mainline_sort ctx version events mainline = Some l
    ∧ (∀ e, e ∈ events → position ctx version mainline (event_id e) (dist (event_id e)))
    ∧ l ≡ₚ events
    ∧ StronglySorted (λ a b,
        (dist (event_id b) < dist (event_id a))%N
        ∨ dist (event_id a) = dist (event_id b)
          ∧ ((origin_server_ts a < origin_server_ts b)%Z
             ∨ origin_server_ts a = origin_server_ts b ∧ id_cmp (event_id a) (event_id b) ≠ Gt)) l.
Proof.
  intros Hlen. destruct (mainline_sorted ctx version events mainline Hlen) as (dist & l & Hr & Hd & Hp & Hs).
  exists dist, l. split_and!; [done..|]. clear -Hs.
  induction Hs as [|a l _ IH Hall]; constructor; [exact IH|]. eapply Forall_impl; [exact Hall|]. intros b. apply mainline_cmp_le.
Qed.

(** The sort of a permuted list. *)
Lemma mainline_sort_perm (ctx : P) version (events events' : list event) mainline :
  (N.of_nat (length mainline) < IN_PROGRESS)%N →
  NoDup (event_id <$> events) → events ≡ₚ events' →
  mainline_sort ctx version events mainline = mainline_sort ctx version events' mainline.
Proof.
  intros Hlen Hnd Hp. unfold mainline_sort.
  destruct (closest_positions_spec ctx version mainline Hlen events) as (m1 & -> & H1).
  destruct (closest_positions_spec ctx version mainline Hlen events') as (m2 & -> & H2).
  do 2 f_equal. set (len := N.of_nat (length mainline)).
  assert ((λ e, (e, default len (m2 !! event_id e))) <$> events'
    = (λ e, (e, default len (m1 !! event_id e))) <$> events') as ->.
  { apply list_fmap_ext. intros i e He%list_elem_of_lookup_2. f_equal.
    destruct (H2 e He) as (v2 & -> & Hv2). rewrite <-Hp in He.
    destruct (H1 e He) as (v1 & -> & Hv1). simpl. by eapply position_functional. }
  rewrite !(sort_by_ext mainline_cmp (cmp_on mainline_sort_key mainline_key_cmp))
    by (intros; apply mainline_cmp_key).
  apply sort_by_perm_eq; [apply _| |by rewrite Hp].
  intros [x px] [y py] (ex & [= -> ->] & Hx)%list_elem_of_fmap (ey & [= -> ->] & Hy)%list_elem_of_fmap.
  intros [= _ _ Hid]. assert (ex = ey) as ->; [|done].
  apply list_elem_of_lookup in Hx as [i Hi]. apply list_elem_of_lookup in Hy as [j Hj].
  assert (i = j) as ->; [|congruence].
  eapply NoDup_lookup; [exact Hnd|by rewrite list_lookup_fmap, Hi|].
  by rewrite list_lookup_fmap, Hj; simpl; rewrite Hid.
Qed.

(** The mainline sort does not depend on the order its events are given in,
    when their ids tell them apart. *)
Theorem mainline_sort_order_free (ctx : P) version (events events' : list event) mainline :
  (N.of_nat (length mainline) < IN_PROGRESS)%N →
  NoDup (event_id <$> events) → events ≡ₚ events' →
  mainline_sort ctx version events mainline = mainline_sort ctx version events' mainline.
Proof. apply mainline_sort_perm. Qed.
End mainline_sort_props.

(** ** On the sample room *)

Definition sample_resolved : gmap (string * string) string := {[ pl_key := "$power" ]}.
Definition sample_cache : gmap string (option string) := {[ "$power" := None ]}.

Lemma mainline_cache_transparent_witness :
  ∃ ml cache', build_mainline_with_cache sample_ctx V2 sample_resolved sample_cache
    = Some (ml, cache').
Proof.
  destruct (mainline_cache_transparent (H:=string_event_id) sample_ctx V2 sample_resolved
    sample_cache) as (ml & c & Hb & _); [|by exists ml, c].
  apply (cache_ok_singleton (H:=string_event_id)). vm_compute. reflexivity.
Defined.

Lemma mainline_sort_spec_witness :
  ∃ l, mainline_sort sample_ctx V2 [Sample.rules; Sample.join_a] ["$power"] = Some l.
Proof.
  destruct (mainline_sort_spec (H:=string_event_id) sample_ctx V2 [Sample.rules; Sample.join_a] ["$power"])
    as (_ & l & Hl & _); [reflexivity|by exists l].
Defined.

Lemma mainline_sort_order_free_witness :
  mainline_sort sample_ctx V2 [Sample.rules; Sample.join_a] ["$power"]
  = mainline_sort sample_ctx V2 [Sample.join_a; Sample.rules] ["$power"].
Proof.
  apply (mainline_sort_order_free (H:=string_event_id) sample_ctx V2); [reflexivity| |apply Permutation_swap].
  apply (bool_decide_eq_true_1 _). vm_compute. reflexivity.
Defined.
