(* ===== verification/LocalAuth.v ===== *)
(** * Local auth context ([src/src/state/at.rs])

    The auth events an event brings along: a memoized breadth-first walk of its
    auth chain ([compute_local_auth]), the state view it backs
    ([OverlayState]) and the iterative auth check. *)
From stdpp Require Import prelude gmap strings sorting.
From Stdlib Require String.
From Stdlib Require Import Ascii.
From S2P Require Import Prelude EventTypes Json Events JsonContent Auth Samples Sorting.

Section local_auth.
Context {Id C : Type} `{EventId Id} `{EventContent C}.
Abbreviation event := (LeanEvent Id C).
Abbreviation key := (string * string)%type.
Abbreviation event_map := (gmap Id event).
Implicit Types (ev aev : event) (version : StateResVersion).

Record LocalAuthEntry : Type := mkEntry { la_event : event; auth_depth : N }.

Record LocalAuthCache : Type := mkCache {
  cache_version : StateResVersion;
  cache_map : gmap Id (gmap key LocalAuthEntry)
}.
Definition LocalAuthCache_new version : LocalAuthCache := mkCache version ∅.

(** ** [OverlayState] *)

Record OverlayState : Type := mkOverlay {
  ov_resolved : gmap key Id;
  ov_auth_context : event_map;
  ov_sort_set : event_map;
  ov_local_auth : gmap key event;
  ov_create_ev : option event;
  ov_version : StateResVersion;
  ov_is_power_phase : bool;
  ov_candidate_event_type : string
}.

(** [HashMap::get] on one map, then on the other. *)
Definition get_either (first second : event_map) (id : Id) : option event :=
  match first !! id with Some e => Some e | None => second !! id end.

Definition overlay_get (o : OverlayState) (ty sk : string) : option event :=
  let query := key_of (EventType_from ty) sk in
  let resolved_ev :=
    match ov_resolved o !! query with
    | Some eid => get_either (ov_auth_context o) (ov_sort_set o) eid
    | None => None
    end in
  match resolved_ev with
  | Some ev => Some ev
  | None =>
      match ov_local_auth o !! query with
      | Some ev =>
          let is_required_type := (ty ==s M_ROOM_POWER_LEVELS) || (ty ==s M_ROOM_JOIN_RULES) in
          if ov_is_power_phase o && has_ban_evasion_hardening (ov_version o) && is_required_type then
            match ov_resolved o !! query with
            | Some _ => None
            | None =>
                let candidate_is_power :=
                  (ov_candidate_event_type o ==s M_ROOM_POWER_LEVELS)
                  || (ov_candidate_event_type o ==s M_ROOM_JOIN_RULES)
                  || (ov_candidate_event_type o ==s M_ROOM_MEMBER) in
                if candidate_is_power then Some ev else None
            end
          else Some ev
      | None =>
          if (ty ==s M_ROOM_CREATE) && (sk ==s M_EMPTY_STATE_KEY) then ov_create_ev o else None
      end
  end.

Definition iterative_auth_ok ev (resolved : gmap key Id) (auth_context sort_set : event_map)
    (local_auth : gmap key event) (cached_create : option event) version (is_power_phase : bool) : bool :=
  if rejected ev then false
  else
    let overlay := mkOverlay resolved auth_context sort_set local_auth cached_create version
                     is_power_phase (event_type ev) in
    is_ok (check_auth ev (overlay_get overlay) version None).

(** ** The walk *)

Definition insert_shallower (k : key) (entry : LocalAuthEntry) (m : gmap key LocalAuthEntry)
    : gmap key LocalAuthEntry :=
  match m !! k with
  | None => <[k := entry]> m
  | Some e => if (auth_depth entry <? auth_depth e)%N then <[k := entry]> m else m
  end.

Definition update_local_auth (local_auth : gmap key LocalAuthEntry) aev (depth : N)
    : gmap key LocalAuthEntry :=
  match state_key aev with
  | None => local_auth
  | Some sk => insert_shallower (event_key aev sk) (mkEntry aev depth) local_auth
  end.

(** The versions that gather the transitive auth context. *)
Definition transitive_auth version : bool :=
  match version with V2_1_1 | V2_2 => true | _ => false end.

(** Merging a cached ancestor's entries, in key order. *)
Definition merge_ancestor (current_depth : N) (cached : gmap key LocalAuthEntry)
    (local_auth : gmap key LocalAuthEntry) : gmap key LocalAuthEntry :=
  foldl (λ m kv, insert_shallower kv.1
            (mkEntry (la_event kv.2) (usize_saturating_add current_depth (auth_depth kv.2))) m)
    local_auth (sort_by (cmp_on fst (cmp_pair String.compare String.compare)) (map_to_list cached)).

Section walk.
Context (auth_context conflicted_events : event_map) (cache : gmap Id (gmap key LocalAuthEntry))
  (version : StateResVersion).

Definition local_auth_body (x : Id * N) (s : gset Id * gmap key LocalAuthEntry)
    : loop_step (Id * N) (gset Id * gmap key LocalAuthEntry) :=
  let '(aid, current_depth) := x in
  let '(visited, local_auth) := s in
  if bool_decide (aid ∈ visited) then Push (visited, local_auth) []
  else
    let visited := {[aid]} ∪ visited in
    let found := get_either auth_context conflicted_events aid in
    match cache !! aid with
    | Some cached_ancestor =>
        let local_auth :=
          match found with
          | Some aev => update_local_auth local_auth aev current_depth
          | None => local_auth
          end in
        let local_auth :=
          if transitive_auth version then merge_ancestor current_depth cached_ancestor local_auth
          else local_auth in
        Push (visited, local_auth) []
    | None =>
        match found with
        | Some aev =>
            Push (visited, update_local_auth local_auth aev current_depth)
              (if transitive_auth version
               then (λ p, (p, usize_saturating_add current_depth 1)) <$> auth_events aev else [])
        | None => Push (visited, local_auth) []
        end
    end.

(** The auth edges of the known events, for the bound on the walk. *)
Definition local_edges (aid : Id) : list Id :=
  match get_either auth_context conflicted_events aid with
  | Some aev => auth_events aev
  | None => []
  end.
Definition local_fuel : nat :=
  weight local_edges (dom auth_context ∪ dom conflicted_events) ∅.
End walk.

Definition entries_events (m : gmap key LocalAuthEntry) : gmap key event := la_event <$> m.

(** The local auth context and the updated cache. *)
Definition compute_local_auth ev (auth_context conflicted_events : event_map)
    (cache : LocalAuthCache) version : option (gmap key event * LocalAuthCache) :=
  match cache_map cache !! event_id ev with
  | Some cached => Some (entries_events cached, cache)
  | None =>
      let queue := (λ aid, (aid, 1%N)) <$> auth_events ev in
      match drain (local_auth_body auth_context conflicted_events (cache_map cache) version)
              (local_fuel auth_context conflicted_events + length queue) queue (∅, ∅) with
      | None => None
      | Some (_, local_auth) =>
          Some (entries_events local_auth,
                mkCache (cache_version cache) (<[event_id ev := local_auth]> (cache_map cache)))
      end
  end.

(** ** Termination *)

Lemma get_either_dom (m1 m2 : event_map) id :
  is_Some (get_either m1 m2 id) ↔ id ∈ dom m1 ∪ dom m2.
Proof.
  unfold get_either. rewrite elem_of_union, !elem_of_dom. case_match; naive_solver.
Qed.

Lemma compute_local_auth_total ev ac cf cache version :
  is_Some (compute_local_auth ev ac cf cache version).
Proof.
  unfold compute_local_auth. destruct (cache_map cache !! event_id ev); [by eexists|].
  destruct (drain_total (local_auth_body ac cf (cache_map cache) version)
    (λ s, weight (local_edges ac cf) (dom ac ∪ dom cf) s.1)
    (local_fuel ac cf + length ((λ aid, (aid, 1%N)) <$> auth_events ev))
    ((λ aid, (aid, 1%N)) <$> auth_events ev) (∅, ∅)) as [[V la] E]; [|done|rewrite E; by eexists].
  intros [aid d] [V la] s' new. unfold local_auth_body.
  case_bool_decide as Hv; [intros [= <- <-]; simpl; lia|].
  assert (∀ x, x ∉ dom ac ∪ dom cf → local_edges ac cf x = []) as Hsup.
  { intros x Hx. unfold local_edges. destruct (get_either ac cf x) eqn:E; [|done].
    destruct Hx. apply get_either_dom. by rewrite E. }
  pose proof (weight_visit _ _ Hsup aid V Hv) as Hw. unfold local_edges in Hw at 2.
  destruct (cache_map cache !! aid); [intros [= <- <-]; simpl; lia|].
  destruct (get_either ac cf aid) as [aev|]; [|intros [= <- <-]; simpl; lia].
  destruct (transitive_auth version); intros [= <- <-]; simpl; rewrite ?length_fmap; simpl; lia.
Qed.

(** ** The direct versions: the cache is transparent *)

(** The first known auth event with each key. *)
Definition direct_step (ac cf : event_map) (m : gmap key LocalAuthEntry) (aid : Id)
    : gmap key LocalAuthEntry :=
  match get_either ac cf aid with Some aev => update_local_auth m aev 1 | None => m end.
Definition direct_local_auth (ac cf : event_map) ev : gmap key LocalAuthEntry :=
  foldl (direct_step ac cf) ∅ (auth_events ev).

(** Entries found at depth 1 are never replaced at depth 1. *)
Lemma direct_step_known ac cf m aid :
  (∀ aev sk, get_either ac cf aid = Some aev → state_key aev = Some sk →
     ∃ e, m !! event_key aev sk = Some e ∧ auth_depth e = 1%N) →
  direct_step ac cf m aid = m.
Proof.
  intros Hm. unfold direct_step, update_local_auth, insert_shallower.
  destruct (get_either ac cf aid) as [aev|]; [|done].
  destruct (state_key aev) as [sk|] eqn:Esk; [|done].
  destruct (Hm aev sk eq_refl Esk) as (e & -> & He). rewrite He. simpl. done.
Qed.

Definition depth_one (m : gmap key LocalAuthEntry) : Prop :=
  map_Forall (λ _ e, auth_depth e = 1%N) m.

Lemma direct_step_depth ac cf m aid : depth_one m → depth_one (direct_step ac cf m aid).
Proof.
  intros Hm. unfold direct_step, update_local_auth, insert_shallower.
  repeat case_match; try done; by apply map_Forall_insert_2.
Qed.

Lemma direct_step_covers ac cf m aid aev sk :
  depth_one m → get_either ac cf aid = Some aev → state_key aev = Some sk →
  is_Some (direct_step ac cf m aid !! event_key aev sk).
Proof.
  intros Hm Ha Hs. unfold direct_step, update_local_auth, insert_shallower. rewrite Ha, Hs.
  destruct (m !! event_key aev sk) eqn:E; [case_match; [by rewrite lookup_insert_eq|by eexists]|].
  by rewrite lookup_insert_eq.
Qed.

Lemma direct_step_mono ac cf m aid k :
  is_Some (m !! k) → is_Some (direct_step ac cf m aid !! k).
Proof.
  intros Hk. unfold direct_step, update_local_auth, insert_shallower.
  repeat case_match; try done; apply lookup_insert_is_Some; (destruct (decide (event_key l s = k)); auto).
Qed.

Lemma compute_local_auth_direct ev ac cf cache version :
  transitive_auth version = false → cache_map cache !! event_id ev = None →
  compute_local_auth ev ac cf cache version
  = Some (entries_events (direct_local_auth ac cf ev),
          mkCache (cache_version cache) (<[event_id ev := direct_local_auth ac cf ev]> (cache_map cache))).
Proof.
  intros Hv Hc. destruct (compute_local_auth_total ev ac cf cache version) as [[m c] E].
  rewrite E. unfold compute_local_auth in E. rewrite Hc in E.
  destruct (drain _ _ _ _) as [[V la]|] eqn:Ed; [|done]. simplify_eq.
  assert (la = direct_local_auth ac cf ev) as ->; [|done].
  eapply (drain_inv _ (λ q s,
    (∀ x, x ∈ q → x.2 = 1%N) ∧ depth_one s.2
    ∧ (∀ aid aev sk, aid ∈ s.1 → get_either ac cf aid = Some aev → state_key aev = Some sk →
         is_Some (s.2 !! event_key aev sk))
    ∧ foldl (direct_step ac cf) s.2 (q.*1) = direct_local_auth ac cf ev)
    (λ s, s.2 = direct_local_auth ac cf ev)) in Ed; [done|..].
  - intros [aid d] q [V1 la1] s' new (Hq & Hd1 & Hcov & Hf). simpl in *.
    assert (d = 1%N) as -> by (by apply (Hq (aid, d)); set_solver).
    assert (∀ x, x ∈ q → x.2 = 1%N) as Hq' by set_solver.
    case_bool_decide as Hvis.
    { intros [= <- <-]. rewrite app_nil_r. split_and!; try done.
      rewrite <-Hf. f_equal. symmetry. apply direct_step_known.
      intros aev sk Ha Hs. destruct (Hcov aid aev sk Hvis Ha Hs) as [e He]. exists e. split; [done|].
      by apply Hd1 in He. }
    assert (s' = ({[aid]} ∪ V1, direct_step ac cf la1 aid) ∧ new = [] →
      (∀ x, x ∈ q ++ new → x.2 = 1%N) ∧ depth_one s'.2
      ∧ (∀ a aev sk, a ∈ s'.1 → get_either ac cf a = Some aev → state_key aev = Some sk →
           is_Some (s'.2 !! event_key aev sk))
      ∧ foldl (direct_step ac cf) s'.2 ((q ++ new).*1) = direct_local_auth ac cf ev) as Hgoal.
    { intros [-> ->]. rewrite app_nil_r. simpl. split_and!; [done|by apply direct_step_depth| |done].
      intros a aev sk [->%elem_of_singleton|Ha]%elem_of_union Hg Hs.
      - by apply direct_step_covers.
      - apply direct_step_mono. by eapply Hcov. }
    rewrite Hv. unfold direct_step in Hgoal.
    destruct (cache_map cache !! aid), (get_either ac cf aid); intros [= <- <-]; by apply Hgoal.
  - intros [aid d] q [V1 la1] s' _. unfold local_auth_body. simpl.
    repeat (case_match; try done).
  - intros [V1 la1] (_ & _ & _ & Hf). simpl in *. done.
  - simpl. split_and!; [|done|set_solver|].
    + intros x (a & -> & _)%list_elem_of_fmap. done.
    + rewrite <-list_fmap_compose. unfold direct_local_auth. f_equal. simpl. apply list_fmap_id.
Qed.
End local_auth.
Arguments LocalAuthCache Id C {_}.
Arguments LocalAuthEntry Id C : clear implicits.

(** ** What the local auth context contains

    In the direct versions it holds the first known cited event of each key; in
    the transitive ones the keys of the whole known auth chain, whatever part
    of it the cache already holds. *)

Section first_cited.
Context {Id C : Type} `{EventId Id} `{EventContent C}.
Abbreviation event := (LeanEvent Id C).
Abbreviation key := (string * string)%type.
Abbreviation event_map := (gmap Id event).
Implicit Types (ev aev : event) (ac cf : event_map).

(** The key a known event decides. *)
Definition local_key ac cf (aid : Id) : option (key * event) :=
  aev ← get_either ac cf aid; sk ← state_key aev; Some (event_key aev sk, aev).

(** The first known event of the list with key [k]. *)
Fixpoint first_cited ac cf (ids : list Id) (k : key) : option event :=
  match ids with
  | [] => None
  | aid :: ids' =>
      match local_key ac cf aid with
      | Some (k', aev) => if decide (k' = k) then Some aev else first_cited ac cf ids' k
      | None => first_cited ac cf ids' k
      end
  end.

Lemma direct_step_lookup ac cf m aid k :
  depth_one m →
  la_event <$> direct_step ac cf m aid !! k
  = match m !! k with
    | Some e => Some (la_event e)
    | None => first_cited ac cf [aid] k
    end.
Proof.
  intros Hm. unfold direct_step, update_local_auth, first_cited, local_key, insert_shallower.
  destruct (get_either ac cf aid) as [aev|]; simpl; [|by destruct (m !! k)].
  destruct (state_key aev) as [sk|]; simpl; [|by destruct (m !! k)].
  destruct (decide (event_key aev sk = k)) as [<-|Hne].
  - destruct (m !! event_key aev sk) as [e|] eqn:E.
    + rewrite (Hm _ _ E). simpl. by rewrite E.
    + by rewrite lookup_insert_eq.
  - destruct (m !! event_key aev sk) as [e|] eqn:E; [case_match|];
      rewrite ?lookup_insert_ne by done; by destruct (m !! k).
Qed.

Lemma direct_fold_lookup ac cf ids m k :
  depth_one m →
  la_event <$> foldl (direct_step ac cf) m ids !! k
  = match m !! k with Some e => Some (la_event e) | None => first_cited ac cf ids k end.
Proof.
  revert m. induction ids as [|aid ids IH]; intros m Hm; simpl; [by destruct (m !! k)|].
  rewrite IH by by apply direct_step_depth.
  pose proof (direct_step_lookup ac cf m aid k Hm) as Hs. simpl in Hs.
  destruct (direct_step ac cf m aid !! k) eqn:E; destruct (m !! k); simpl in Hs;
    destruct (local_key ac cf aid) as [[k' aev]|]; try destruct (decide (k' = k)); congruence.
Qed.

(** In the versions that only look at the cited events themselves, the
    local auth context of an event is computed without failure and holds, for
    each key, the first known cited event with that key; it is cached under
    the event's id, and what else the cache holds has no influence. *)
Theorem local_auth_first_cited ev ac cf (cache : LocalAuthCache Id C) version :
  transitive_auth version = false → cache_map cache !! event_id ev = None →
  ∃ m cache',
    compute_local_auth ev ac cf cache version = Some (m, cache')
    ∧ (∀ k, m !! k = first_cited ac cf (auth_events ev) k)
    ∧ (entries_events <$> cache_map cache' !! event_id ev) = Some m.
Proof.
  intros Hv Hc. rewrite compute_local_auth_direct by done. eexists _, _.
  split; [done|]. split; [|by simpl; rewrite lookup_insert_eq].
  intros k. unfold entries_events. rewrite lookup_fmap. unfold direct_local_auth.
  rewrite direct_fold_lookup by (intros ??; by rewrite lookup_empty). by rewrite lookup_empty.
Qed.
End first_cited.

Section transitive.
Context {Id C : Type} `{EventId Id} `{EventContent C}.
Abbreviation event := (LeanEvent Id C).
Abbreviation key := (string * string)%type.
Abbreviation event_map := (gmap Id event).
Context (ac cf : event_map) (version : StateResVersion).
Implicit Types (ev aev : event) (m la : gmap key (LocalAuthEntry Id C)).

(** The auth chain, strictly above [x]. *)
Abbreviation cites := (edge (local_edges ac cf)).
Abbreviation above := (tc cites).

(** [m] holds exactly the keys of the events that satisfy [P], each with such an event. *)
Record entries_of (P : Id → Prop) m : Prop := {
  entries_sound k e : m !! k = Some e → ∃ y, P y ∧ local_key ac cf y = Some (k, la_event e);
  entries_complete y k aev : P y → local_key ac cf y = Some (k, aev) → is_Some (m !! k)
}.

(** Every cached context is the auth chain of its event. *)
Definition chain_cache (c : gmap Id (gmap key (LocalAuthEntry Id C))) : Prop :=
  map_Forall (λ x m, entries_of (above x) m) c.

Definition sound (P : Id → Prop) m : Prop :=
  ∀ k e, m !! k = Some e → ∃ y, P y ∧ local_key ac cf y = Some (k, la_event e).
Definition covers m (y : Id) : Prop :=
  ∀ k aev, local_key ac cf y = Some (k, aev) → is_Some (m !! k).

Lemma insert_shallower_sound P k e m :
  sound P m → (∃ y, P y ∧ local_key ac cf y = Some (k, la_event e)) →
  sound P (insert_shallower k e m).
Proof.
  intros Hm He k' e'. unfold insert_shallower.
  destruct (m !! k) as [e0|]; [case_match|]; try apply Hm;
    (intros [[-> ->]|[_ ?]]%lookup_insert_Some; [done|by apply Hm]).
Qed.

Lemma insert_shallower_mono k e m k' :
  is_Some (m !! k') → is_Some (insert_shallower k e m !! k').
Proof.
  intros Hk. unfold insert_shallower. destruct (decide (k = k')) as [->|];
    repeat case_match; rewrite ?lookup_insert_eq, ?lookup_insert_ne by done; done.
Qed.

Lemma insert_shallower_hit k e m : is_Some (insert_shallower k e m !! k).
Proof.
  unfold insert_shallower. destruct (m !! k) eqn:E; [case_match|]; rewrite ?lookup_insert_eq; by eexists.
Qed.

(** An event found in the maps is entered under its own key. *)
Lemma update_local_auth_spec (P : Id → Prop) la aid aev d :
  get_either ac cf aid = Some aev → P aid → sound P la →
  sound P (update_local_auth la aev d) ∧ covers (update_local_auth la aev d) aid
  ∧ ∀ k, is_Some (la !! k) → is_Some (update_local_auth la aev d !! k).
Proof.
  intros Hg HP Hs. unfold update_local_auth, covers, local_key. rewrite Hg. simpl.
  destruct (state_key aev) as [sk|] eqn:Esk; simpl; [|done]. split_and!.
  - apply insert_shallower_sound; [done|]. exists aid. unfold local_key. rewrite Hg. simpl.
    by rewrite Esk.
  - intros ?? [= <- <-]. apply insert_shallower_hit.
  - intros k. apply insert_shallower_mono.
Qed.

Lemma merge_ancestor_spec (P : Id → Prop) d cached la :
  sound P cached → sound P la →
  sound P (merge_ancestor d cached la)
  ∧ ∀ k, is_Some (la !! k) ∨ is_Some (cached !! k) → is_Some (merge_ancestor d cached la !! k).
Proof.
  intros Hc Hs. unfold merge_ancestor.
  set (l := sort_by _ _).
  assert (∀ x, x ∈ l ↔ cached !! x.1 = Some x.2) as Hl.
  { intros [k e]. unfold l. rewrite sort_by_perm. apply elem_of_map_to_list. }
  assert (∀ l' la', (∀ x, x ∈ l' → cached !! x.1 = Some x.2) → sound P la' →
    let r := foldl (λ m kv, insert_shallower kv.1
      (mkEntry (la_event kv.2) (usize_saturating_add d (auth_depth kv.2))) m) la' l' in
    sound P r ∧ ∀ k, is_Some (la' !! k) ∨ k ∈ l'.*1 → is_Some (r !! k)) as Hind.
  { induction l' as [|[k0 e0] l' IH]; intros la' Hl' Hla'; simpl.
    { split; [done|]. intros k [?|?%elem_of_nil]; done. }
    destruct (IH (insert_shallower k0 (mkEntry (la_event e0) (usize_saturating_add d (auth_depth e0))) la'))
      as [H1 H2]; [set_solver| |split; [done|]].
    - apply insert_shallower_sound; [done|]. destruct (Hc k0 e0) as (y & ? & ?); [|by eauto].
      apply (Hl' (k0, e0)). set_solver.
    - intros k [Hk|[->|Hk]%elem_of_cons]; apply H2; [left; by apply insert_shallower_mono| |by right].
      left. apply insert_shallower_hit. }
  destruct (Hind l la) as [H1 H2]; [by intros; apply Hl|done|]. split; [done|].
  intros k [?|[e He]]; apply H2; [by left|]. right. apply list_elem_of_fmap.
  exists (k, e). split; [done|]. by apply Hl.
Qed.

(** Invariant of the walk from the auth events of [root]: everything entered
    is above [root], and a visited event is entered with everything above it,
    now or through the queue. *)
Record walk_inv (root : Id) (q : list (Id * N)) (V : gset Id) la : Prop := {
  walk_queue x d : (x, d) ∈ q → above root x;
  walk_sound : sound (above root) la;
  walk_visited x : x ∈ V →
    covers la x
    ∧ ((∀ y, above x y → covers la y) ∨ (∀ y, cites x y → y ∈ V ∨ y ∈ q.*1));
  walk_edges y : cites root y → y ∈ V ∨ y ∈ q.*1
}.

Lemma walk_step cache root x d q V la V' la' new :
  transitive_auth version = true → chain_cache cache →
  walk_inv root ((x, d) :: q) V la →
  local_auth_body ac cf cache version (x, d) (V, la) = Push (V', la') new →
  walk_inv root (q ++ new) V' la'.
Proof.
  intros Hv Hcache [Hq Hs Hvis He]. unfold local_auth_body.
  assert (above root x) as Hx by (apply (Hq x d); left).
  case_bool_decide as HV.
  { intros [= <- <- <-]. rewrite app_nil_r. split; [intros z e ?; apply (Hq z e); by right|done| |].
    - intros z Hz. destruct (Hvis z Hz) as [? [?|Hc]]; split; auto. right.
      intros y [?|[->|?]%elem_of_cons]%Hc; auto.
    - intros y [?|[->|?]%elem_of_cons]%He; auto. }
  rewrite Hv.
  assert (∀ la1 new1,
    sound (above root) la1 → (∀ k, is_Some (la !! k) → is_Some (la1 !! k)) → covers la1 x →
    (∀ z e, (z, e) ∈ new1 → cites x z) →
    (∀ y, above x y → covers la1 y) ∨ (∀ y, cites x y → y ∈ new1.*1) →
    walk_inv root (q ++ new1) ({[x]} ∪ V) la1) as Hgoal.
  { intros la1 new1 H1 H2 H3 H4 H5. split.
    - intros z e [?|Hz]%elem_of_app; [apply (Hq z e); by right|].
      apply H4 in Hz. by eapply tc_r.
    - done.
    - intros z [->%elem_of_singleton|Hz]%elem_of_union.
      + split; [done|]. destruct H5 as [H5|H5]; [by left|right]. intros y ?%H5. set_solver.
      + destruct (Hvis z Hz) as [Hc Hor]. split; [intros k a ?; by eapply H2, Hc|].
        destruct Hor as [Ha|Ha]; [left; intros y Hy k a ?; by eapply H2, Ha|right].
        intros y [?|[->|?]%elem_of_cons]%Ha; set_solver.
    - intros y [?|[->|?]%elem_of_cons]%He; set_solver. }
  destruct (cache !! x) as [cached|] eqn:Ex.
  - destruct (Hcache x cached Ex) as [Hsc Hcc].
    assert (sound (above root) cached) as Hsc'.
    { intros k e (y & Hy & ?)%Hsc. exists y. split; [by etrans|done]. }
    destruct (get_either ac cf x) as [aev|] eqn:Eg; intros [= <- <- <-].
    + destruct (update_local_auth_spec (above root) la x aev d Eg Hx Hs) as (U1 & U2 & U3).
      destruct (merge_ancestor_spec (above root) d cached _ Hsc' U1) as [M1 M2].
      apply Hgoal; [done|auto| |set_solver|].
      * intros k a Hk. apply M2. left. by eapply U2.
      * left. intros y Hy k a Hk. apply M2. right. by eapply Hcc.
    + destruct (merge_ancestor_spec (above root) d cached la Hsc' Hs) as [M1 M2].
      apply Hgoal; [done|auto| |set_solver|].
      * intros k a. unfold local_key. by rewrite Eg.
      * left. intros y Hy k a Hk. apply M2. right. by eapply Hcc.
  - assert (∀ y, cites x y ↔ ∃ a, get_either ac cf x = Some a ∧ y ∈ auth_events a) as Hcites.
    { intros y. unfold edge, local_edges. destruct (get_either ac cf x); set_solver. }
    destruct (get_either ac cf x) as [aev|] eqn:Eg; intros [= <- <- <-].
    + destruct (update_local_auth_spec (above root) la x aev d Eg Hx Hs) as (U1 & U2 & U3).
      apply Hgoal; [done..| |right].
      * intros z e (p & [= -> _] & Hp)%list_elem_of_fmap. apply Hcites. by eauto.
      * intros y (a & [= <-] & Hy)%Hcites. rewrite <-list_fmap_compose. by rewrite list_fmap_id.
    + apply Hgoal; [done|auto| |set_solver|].
      * intros k a. unfold local_key. by rewrite Eg.
      * right. intros y (a & [=] & _)%Hcites.
Qed.

Lemma walk_closed root V la y :
  walk_inv root [] V la → above root y → covers la y.
Proof.
  intros [_ _ Hvis He].
  assert (∀ z, above z y → z ∈ V → covers la y) as Hind.
  { intros z Hzy. induction Hzy as [z w Hc|z w u Hc Hwu IH]; intros Hz.
    - destruct (Hvis z Hz) as [_ [Ha|Ha]]; [by apply Ha, tc_once|].
      destruct (Ha w Hc) as [Hw|?%elem_of_nil]; [by apply Hvis|done].
    - destruct (Hvis z Hz) as [_ [Ha|Ha]]; [by eapply Ha, tc_l|].
      destruct (Ha w Hc) as [Hw|?%elem_of_nil]; [by apply IH|done]. }
  intros Hy. inversion Hy as [? ? Hc|? w ? Hc Hw]; subst.
  - destruct (He y Hc) as [Hin|?%elem_of_nil]; [by apply Hvis|done].
  - destruct (He w Hc) as [Hin|?%elem_of_nil]; [by eapply Hind|done].
Qed.

(** The context computed for a known event is that of its auth chain. *)
Lemma compute_local_auth_chain ev (cache : LocalAuthCache Id C) :
  transitive_auth version = true → chain_cache (cache_map cache) →
  get_either ac cf (event_id ev) = Some ev →
  ∃ la, compute_local_auth ev ac cf cache version
        = Some (entries_events la, mkCache (cache_version cache) (<[event_id ev := la]> (cache_map cache)))
      ∧ entries_of (above (event_id ev)) la.
Proof.
  intros Hv Hcache Hev.
  destruct (compute_local_auth_total ev ac cf cache version) as [[m c] E]. rewrite E.
  unfold compute_local_auth in E. destruct (cache_map cache !! event_id ev) as [la|] eqn:Ec.
  { simplify_eq. exists la. split; [|by apply (Hcache _ _ Ec)].
    rewrite insert_id by done. by destruct c. }
  destruct (drain _ _ _ _) as [[V la]|] eqn:Ed; [|done]. simplify_eq. exists la. split; [done|].
  assert (walk_inv (event_id ev) [] V la) as HI.
  { eapply (drain_inv _ (λ q s, walk_inv (event_id ev) q s.1 s.2)
      (λ s, walk_inv (event_id ev) [] s.1 s.2)) in Ed; [done|..].
    - intros [x d] q [V1 la1] [V2 la2] new HI. by eapply walk_step.
    - intros [x d] q [V1 la1] s' _. unfold local_auth_body. repeat case_match; done.
    - done.
    - assert (∀ y, cites (event_id ev) y ↔ y ∈ auth_events ev) as Hc.
      { intros y. unfold edge, local_edges. by rewrite Hev. }
      simpl. split.
      + intros x d (a & [= -> ->] & Ha)%list_elem_of_fmap. by apply tc_once, Hc.
      + intros k e. by rewrite lookup_empty.
      + set_solver.
      + intros y ?%Hc. right. rewrite <-list_fmap_compose. by rewrite list_fmap_id. }
  split; [apply HI|]. intros y k aev Hy. by eapply walk_closed.
Qed.
End transitive.

Section transitive_claims.
Context {Id C : Type} `{EventId Id} `{EventContent C}.
Abbreviation event := (LeanEvent Id C).
Abbreviation event_map := (gmap Id event).

(** In versions 2.1.1 and 2.2, with a cache whose contexts are those of
    their events' auth chains, the local auth context of a known event is
    computed without failure; it has an entry for exactly the keys of the known
    events of its auth chain, each entry is such an event, and the cache keeps
    the property. *)
Theorem local_auth_chain_keys (ac cf : event_map) version ev (cache : LocalAuthCache Id C) :
  version = V2_1_1 ∨ version = V2_2 → chain_cache ac cf (cache_map cache) →
  get_either ac cf (event_id ev) = Some ev →
  ∃ m cache',
    compute_local_auth ev ac cf cache version = Some (m, cache')
    ∧ (∀ k aev, m !! k = Some aev →
         ∃ y, tc (edge (local_edges ac cf)) (event_id ev) y ∧ local_key ac cf y = Some (k, aev))
    ∧ (∀ y k aev, tc (edge (local_edges ac cf)) (event_id ev) y → local_key ac cf y = Some (k, aev) →
         is_Some (m !! k))
    ∧ chain_cache ac cf (cache_map cache').
Proof.
  intros Hv Hc Hev. destruct (compute_local_auth_chain ac cf version ev cache) as (la & -> & [Hs Hcomp]);
    [by destruct Hv as [-> | ->]|done..|].
  eexists _, _. split; [done|]. unfold entries_events. split_and!.
  - intros k aev. rewrite lookup_fmap. intros (e & He & ->)%fmap_Some. by apply Hs.
  - intros y k aev Hy Hk. rewrite lookup_fmap. apply fmap_is_Some. by eapply Hcomp.
  - simpl. apply map_Forall_insert_2; [by split|done].
Qed.
End transitive_claims.

Lemma local_auth_first_cited_witness :
  ∃ m cache', compute_local_auth Sample.rules Sample.dag ∅ (LocalAuthCache_new V2) V2 = Some (m, cache')
    ∧ m !! (M_ROOM_POWER_LEVELS, "") = Some Sample.power.
Proof.
  destruct (local_auth_first_cited (H:=string_event_id) Sample.rules Sample.dag ∅ (LocalAuthCache_new V2) V2)
    as (m & c & Hr & Hm & _); [reflexivity|reflexivity|].
  exists m, c. split; [exact Hr|]. etrans; [apply (Hm (M_ROOM_POWER_LEVELS, ""))|]. vm_compute. reflexivity.
Defined.

Lemma local_auth_chain_keys_witness :
  ∃ m cache', compute_local_auth Sample.rules Sample.dag ∅ (LocalAuthCache_new V2_2) V2_2 = Some (m, cache')
    ∧ chain_cache Sample.dag ∅ (cache_map cache').
Proof.
  destruct (local_auth_chain_keys (H:=string_event_id) Sample.dag ∅ V2_2 Sample.rules (LocalAuthCache_new V2_2))
    as (m & c & Hr & _ & _ & Hc); [by right|apply map_Forall_empty|vm_compute; reflexivity|].
  exists m, c. split; [exact Hr|exact Hc].
Defined.
