(* ===== verification/Iterative.v ===== *)
(** * Iterative state resolution ([src/src/resolve/iterative.rs])

    Classification of the conflicted events, the power phase (Kahn sort and
    iterative auth checks), the mainline phase, and the final merge with the
    unconflicted state; the plain resolver and the one that reports deltas. *)
From stdpp Require Import prelude gmap strings sorting.
From Stdlib Require String.
From Stdlib Require Import Ascii.
From S2P Require Import Prelude EventTypes Json Events JsonContent Auth Samples Sorting Kahn Mainline LocalAuth.

(** The resolver's results: [None] is a panic of the code (an [assert], an
    [unwrap]) or a loop out of fuel. *)
Notation "x ←! m ; k" := (match m with Some x => k | None => None end)
  (at level 20, m at level 100, k at level 200, only parsing) : rezzy_scope.
Notation "' p ←! m ; k" := (match m with Some p => k | None => None end)
  (at level 20, p pattern, m at level 100, k at level 200, only parsing) : rezzy_scope.

Section iterative.
Context {Id C : Type} `{EventId Id} `{EventContent C} `{Ho : HashOrder}.
Abbreviation event := (LeanEvent Id C).
Abbreviation key := (string * string)%type.
Abbreviation event_map := (gmap Id event).
Abbreviation shared_state := (gmap key Id).
Implicit Types (ev : event) (version : StateResVersion).

(** [require_legacy_iterative_version]: the assertion holds. *)
Definition require_legacy_iterative_version version : bool := negb (version_eqb version V3).

Definition select_local_auth_cache (external : option (LocalAuthCache Id C))
    (fallback : LocalAuthCache Id C) version : LocalAuthCache Id C :=
  let cache := match external with Some c => c | None => fallback end in
  if negb (version_eqb (cache_version cache) version) then mkCache version ∅ else cache.

Definition prepare_conflicted_and_keys (conflicted_events : event_map) : gset Id := dom conflicted_events.

Definition derive_all_conflicted_keys (conflicted_events : event_map) : gset key :=
  list_to_set ((λ ev, event_key ev (default "" (state_key ev))) <$> hm_values conflicted_events).

(** [route_power_events] ([src/src/resolve/semilattice.rs]). *)
Definition route_power_events (sort_set power_events non_power_events : event_map) version
    : event_map * event_map :=
  foldl (λ s kv,
    if is_power_event version kv.2 then (<[kv.1 := kv.2]> s.1, s.2)
    else (s.1, <[kv.1 := kv.2]> s.2)) (power_events, non_power_events) (hm_iter sort_set).

(** ** [expand_v2_power_events_auth_chains] *)

(** One cited event: promote it and queue it. *)
Definition expand_one (sort_set : event_map) (s : event_map * event_map * list Id) (aid : Id)
    : event_map * event_map * list Id :=
  let '(power_events, non_power_events, pushed) := s in
  match power_events !! aid with
  | Some _ => s
  | None =>
      match non_power_events !! aid with
      | Some owned => (<[aid := owned]> power_events, delete aid non_power_events, pushed ++ [aid])
      | None =>
          match sort_set !! aid with
          | Some aev => (<[aid := aev]> power_events, non_power_events, pushed ++ [aid])
          | None => s
          end
      end
  end.

Definition expand_body (sort_set : event_map) (id : Id) (s : event_map * event_map)
    : loop_step Id (event_map * event_map) :=
  match sort_set !! id with
  | Some ev =>
      let '(p, n, pushed) := foldl (expand_one sort_set) (s.1, s.2, []) (auth_events ev) in
      Push (p, n) pushed
  | None => Push s []
  end.

Definition expand_v2_power_events_auth_chains (power_events non_power_events sort_set : event_map)
    : option (event_map * event_map) :=
  drain (expand_body sort_set)
    (size ((dom sort_set ∪ dom non_power_events) ∖ dom power_events) + length (hm_keys power_events))
    (hm_keys power_events) (power_events, non_power_events).

(** ** [route_msc4297_ancestral_power_events] *)

Definition auth_edges (auth_context : event_map) (id : Id) : list Id :=
  match auth_context !! id with Some aev => auth_events aev | None => [] end.

Definition ancestry_body (auth_context : event_map) (aid : Id) (s : gset Id) : loop_step Id (gset Id) :=
  if bool_decide (aid ∈ s) then Push s [] else Push ({[aid]} ∪ s) (auth_edges auth_context aid).

Definition ancestral_power (version : StateResVersion) ev : bool :=
  let is_join_rules_allowed :=
    (event_type ev ==s M_ROOM_JOIN_RULES) && version_eqb version V2_1 in
  (event_type ev ==s M_ROOM_POWER_LEVELS) || (event_type ev ==s M_ROOM_CREATE) || is_join_rules_allowed.

Definition route_msc4297_ancestral_power_events (power_events auth_context : event_map)
    (original_conflicted_keys : gset Id) version : option event_map :=
  if is_v2_1_to_v2_2 version then
    let queue := hm_values power_events ≫= auth_events in
    ancestry ←! drain (ancestry_body auth_context)
      (weight (auth_edges auth_context) (dom auth_context) ∅ + length queue) queue ∅;
    Some (foldl (λ p id,
      if bool_decide (id ∈ original_conflicted_keys) then p
      else match auth_context !! id with
           | Some ev => if ancestral_power version ev then <[id := ev]> p else p
           | None => p
           end) power_events (sort_by id_cmp (elements ancestry)))
  else Some power_events.

(** ** The auth check and the two phases *)

Definition decides_key version (conflicted_keys : gset key) (k : key) : bool :=
  negb (version_eqb version V1) || bool_decide (k ∈ conflicted_keys).

Section check.
Context (auth_context conflicted_events : event_map) (create_ev : option event) (version : StateResVersion).

Definition event_auth_ok ev (resolved : shared_state) (cache : LocalAuthCache Id C) (is_power : bool)
    : option (bool * LocalAuthCache Id C) :=
  '(local_auth, cache') ←! compute_local_auth ev auth_context conflicted_events cache version;
  Some (iterative_auth_ok ev resolved auth_context conflicted_events local_auth create_ev version
          is_power, cache').

(** One sorted power event. *)
Definition power_step (conflicted_keys : gset key) (s : shared_state * LocalAuthCache Id C) (id : Id)
    : option (shared_state * LocalAuthCache Id C) :=
  let '(resolved, cache) := s in
  match get_either conflicted_events auth_context id with
  | None => Some s
  | Some ev =>
      '(ok, cache') ←! event_auth_ok ev resolved cache true;
      if ok then
        match state_key ev with
        | None => Some (resolved, cache')
        | Some sk =>
            let k := event_key ev sk in
            if negb (decides_key version conflicted_keys k) then Some (resolved, cache')
            else Some (<[k := event_id ev]> resolved, cache')
        end
      else Some (resolved, cache')
  end.

(** One sorted non-power event. *)
Definition non_power_step (conflicted_keys : gset key) (s : shared_state * LocalAuthCache Id C) ev
    : option (shared_state * LocalAuthCache Id C) :=
  let '(resolved, cache) := s in
  '(ok, cache') ←! event_auth_ok ev resolved cache false;
  if ok then
    match state_key ev with
    | None => Some (resolved, cache')
    | Some sk =>
        let k := event_key ev sk in
        if decides_key version conflicted_keys k then Some (<[k := event_id ev]> resolved, cache')
        else Some (resolved, cache')
    end
  else Some (resolved, cache').
End check.

Fixpoint run_steps {S A} (step : S → A → option S) (s : S) (l : list A) : option S :=
  match l with
  | [] => Some s
  | x :: l' => s' ←! step s x; run_steps step s' l'
  end.

Definition run_power_phase_iterative_checks (resolved : shared_state) (power_events : event_map)
    (sort_context : SortContext Id C) (auth_context conflicted_events : event_map) version
    (cache : LocalAuthCache Id C) (create_ev : option event) (conflicted_keys : gset key)
    : option (shared_state * LocalAuthCache Id C) :=
  sorted_power_ids ←! kahn_sort power_events sort_context create_ev version;
  run_steps (power_step auth_context conflicted_events create_ev version conflicted_keys)
    (resolved, cache) sorted_power_ids.

Definition get_initial_resolved_state (unconflicted_state : shared_state) version : shared_state :=
  if is_v2_1_plus version then ∅ else unconflicted_state.

Definition merge_unconflicted_power_events version (unconflicted_state resolved : shared_state)
    : shared_state :=
  if is_v2_1_plus version then
    foldl (λ r ty,
      let k := key_of (EventType_from ty) "" in
      match unconflicted_state !! k with
      | Some v => match r !! k with Some _ => r | None => <[k := v]> r end
      | None => r
      end) resolved [M_ROOM_POWER_LEVELS; M_ROOM_JOIN_RULES; M_ROOM_CREATE]
  else resolved.

(** The create event: of the unconflicted state, else the conflicted one of
    least id ([min_by_key]). *)
Definition find_create_event (unconflicted_state : shared_state) (conflicted_events auth_context : event_map)
    : option event :=
  let create_key := key_of (EventType_from M_ROOM_CREATE) "" in
  match (match unconflicted_state !! create_key with
         | Some id => get_either auth_context conflicted_events id
         | None => None
         end) with
  | Some ev => Some ev
  | None =>
      head (sort_by (cmp_on event_id id_cmp)
        (filter (λ ev, event_type ev = M_ROOM_CREATE) (hm_values conflicted_events)))
  end.

Definition execute_power_phase (unconflicted_state : shared_state)
    (conflicted_events auth_context : event_map) (original_conflicted_keys : gset Id) version
    : option (SortContext Id C * event_map * event_map * option event) :=
  let sort_context := mkSortContext conflicted_events auth_context in
  let '(p0, n0) := route_power_events conflicted_events ∅ ∅ version in
  '(p1, n1) ←! (if version_eqb version V1 then Some (p0, n0)
                else expand_v2_power_events_auth_chains p0 n0 conflicted_events);
  p2 ←! route_msc4297_ancestral_power_events p1 auth_context original_conflicted_keys version;
  Some (sort_context, p2, n1, find_create_event unconflicted_state conflicted_events auth_context).

Definition is_sender_banned ev (resolved unconflicted_state : shared_state) (events : SortContext Id C)
    : bool :=
  let query := key_of (EventType_from M_ROOM_MEMBER) (sender ev) in
  let member_id := match resolved !! query with Some id => Some id | None => unconflicted_state !! query end in
  match member_id with
  | Some id =>
      match get_event events id with
      | Some m => opt_is (get_membership (content m)) MEM_BAN
      | None => false
      end
  | None => false
  end.

Definition merge_final_resolved (unconflicted_state resolved : shared_state) : shared_state :=
  foldl (λ f kv, match f !! kv.1 with Some _ => f | None => <[kv.1 := kv.2]> f end)
    unconflicted_state (sort_by (cmp_on fst (cmp_pair String.compare String.compare)) (map_to_list resolved)).

(** ** The resolver *)

Definition resolve_iterative_sort_with_all_caches (unconflicted_state : shared_state)
    (conflicted_events auth_context : event_map) version
    (external_auth_cache : option (LocalAuthCache Id C)) (mainline_cache : gmap Id (option Id))
    (conflicted_keys : gset key)
    : option (shared_state * LocalAuthCache Id C * gmap Id (option Id)) :=
  if negb (require_legacy_iterative_version version) then None
  else
    let original_conflicted_keys := prepare_conflicted_and_keys conflicted_events in
    let resolved := get_initial_resolved_state unconflicted_state version in
    '(sort_context, power_events, non_power_events, create_ev) ←!
      execute_power_phase unconflicted_state conflicted_events auth_context
        original_conflicted_keys version;
    let cache := select_local_auth_cache external_auth_cache (LocalAuthCache_new version) version in
    '(resolved, cache) ←!
      run_power_phase_iterative_checks resolved power_events sort_context auth_context
        conflicted_events version cache create_ev conflicted_keys;
    let resolved := merge_unconflicted_power_events version unconflicted_state resolved in
    '(mainline, mainline_cache') ←!
      build_mainline_with_cache sort_context version resolved mainline_cache;
    let non_power_list :=
      if has_ban_evasion_hardening version then
        filter (λ ev, is_sender_banned ev resolved unconflicted_state sort_context = false)
          (hm_values non_power_events)
      else hm_values non_power_events in
    sorted ←! mainline_sort sort_context version non_power_list mainline;
    '(resolved, cache) ←!
      run_steps (non_power_step auth_context conflicted_events create_ev version conflicted_keys)
        (resolved, cache) sorted;
    Some (merge_final_resolved unconflicted_state resolved, cache, mainline_cache').

Definition resolve_iterative_sort_with_cache (unconflicted_state : shared_state)
    (conflicted_events auth_context : event_map) version
    (external_auth_cache : option (LocalAuthCache Id C)) (conflicted_keys_override : option (gset key))
    : option shared_state :=
  let conflicted_keys := match conflicted_keys_override with
                         | Some ck => ck
                         | None => derive_all_conflicted_keys conflicted_events
                         end in
  '(final, _, _) ←! resolve_iterative_sort_with_all_caches unconflicted_state conflicted_events
    auth_context version external_auth_cache ∅ conflicted_keys;
  Some final.

Definition resolve_iterative_sort (unconflicted_state : shared_state)
    (conflicted_events auth_context : event_map) version : option shared_state :=
  resolve_iterative_sort_with_cache unconflicted_state conflicted_events auth_context version None None.

Definition resolve_iterative_sort_with_conflicted_keys (unconflicted_state : shared_state)
    (conflicted_events auth_context : event_map) version (conflicted_keys : gset key)
    : option shared_state :=
  resolve_iterative_sort_with_cache unconflicted_state conflicted_events auth_context version None
    (Some conflicted_keys).

(** ** The resolver with deltas *)

Inductive ResolvePhase : Type := Power | NonPower.

Record ResolutionDelta : Type := mkDelta {
  delta_event_id : Id;
  delta_accepted : bool;
  delta_key : key;
  delta_replaced : option Id;
  delta_phase : ResolvePhase
}.

Section deltas.
Context (auth_context conflicted_events : event_map) (create_ev : option event)
  (version : StateResVersion) (conflicted_keys : gset key).
Abbreviation dstate := (shared_state * LocalAuthCache Id C * list ResolutionDelta)%type.

Definition power_delta_step (original_conflicted_keys : gset Id) (s : dstate) (id : Id) : option dstate :=
  let '(resolved, cache, deltas) := s in
  match get_either conflicted_events auth_context id with
  | None => Some s
  | Some ev =>
      match state_key ev with
      | None => Some s
      | Some sk =>
          let k := event_key ev sk in
          '(accepted, cache') ←!
            event_auth_ok auth_context conflicted_events create_ev version ev resolved cache true;
          let replaced := resolved !! k in
          let resolved' :=
            if accepted && decides_key version conflicted_keys k
            then <[k := event_id ev]> resolved else resolved in
          let deltas' :=
            if bool_decide (event_id ev ∈ original_conflicted_keys)
            then deltas ++ [mkDelta (event_id ev) accepted k replaced Power] else deltas in
          Some (resolved', cache', deltas')
      end
  end.

Definition non_power_delta_step (unconflicted_state : shared_state) (sort_context : SortContext Id C)
    (s : dstate) ev : option dstate :=
  let '(resolved, cache, deltas) := s in
  match state_key ev with
  | None => Some s
  | Some sk =>
      let k := event_key ev sk in
      if has_ban_evasion_hardening version
         && is_sender_banned ev resolved unconflicted_state sort_context then
        Some (resolved, cache, deltas ++ [mkDelta (event_id ev) false k (resolved !! k) NonPower])
      else
        '(accepted, cache') ←!
          event_auth_ok auth_context conflicted_events create_ev version ev resolved cache false;
        let replaced := resolved !! k in
        let resolved' :=
          if accepted && decides_key version conflicted_keys k
          then <[k := event_id ev]> resolved else resolved in
        Some (resolved', cache', deltas ++ [mkDelta (event_id ev) accepted k replaced NonPower])
  end.
End deltas.

Definition resolve_iterative_sort_with_cache_and_deltas (unconflicted_state : shared_state)
    (conflicted_events auth_context : event_map) version
    (external_auth_cache : option (LocalAuthCache Id C)) (conflicted_keys_override : option (gset key))
    : option (shared_state * list ResolutionDelta) :=
  if negb (require_legacy_iterative_version version) then None
  else
    let conflicted_keys := match conflicted_keys_override with
                           | Some ck => ck
                           | None => derive_all_conflicted_keys conflicted_events
                           end in
    let original_conflicted_keys := prepare_conflicted_and_keys conflicted_events in
    let resolved := get_initial_resolved_state unconflicted_state version in
    '(sort_context, power_events, non_power_events, create_ev) ←!
      execute_power_phase unconflicted_state conflicted_events auth_context
        original_conflicted_keys version;
    let cache := select_local_auth_cache external_auth_cache (LocalAuthCache_new version) version in
    sorted_power_ids ←! kahn_sort power_events sort_context create_ev version;
    '(resolved, cache, deltas) ←!
      run_steps (power_delta_step auth_context conflicted_events create_ev version conflicted_keys
                   original_conflicted_keys) (resolved, cache, []) sorted_power_ids;
    let resolved := merge_unconflicted_power_events version unconflicted_state resolved in
    mainline ←! build_mainline sort_context version resolved;
    sorted ←! mainline_sort sort_context version (hm_values non_power_events) mainline;
    '(resolved, _, deltas) ←!
      run_steps (non_power_delta_step auth_context conflicted_events create_ev version conflicted_keys
                   unconflicted_state sort_context) (resolved, cache, deltas) sorted;
    Some (merge_final_resolved unconflicted_state resolved, deltas).

Definition resolve_iterative_sort_with_deltas (unconflicted_state : shared_state)
    (conflicted_events auth_context : event_map) version : option (shared_state * list ResolutionDelta) :=
  resolve_iterative_sort_with_cache_and_deltas unconflicted_state conflicted_events auth_context version
    None None.
End iterative.
