(* ===== verification/PowerPhase.v ===== *)
(** * The power phase's event sets

    What [expand_v2_power_events_auth_chains] and
    [route_msc4297_ancestral_power_events] compute: closures along the auth
    edges, independent of the hash order. *)
From stdpp Require Import prelude gmap strings sorting.
From Stdlib Require String.
From S2P Require Import Prelude EventTypes Json Events JsonContent Auth Samples Sorting Kahn Mainline LocalAuth Iterative.

Section expand.
Context {Id C : Type} `{EventId Id} `{EventContent C}.
Abbreviation event := (LeanEvent Id C).
Abbreviation event_map := (gmap Id event).
Context (ss : event_map).

(** Reachable from [roots] along auth edges that stay in the map. *)
Inductive auth_reach (roots : gset Id) : Id → Prop :=
| reach_root id : id ∈ roots → auth_reach roots id
| reach_step id ev a : auth_reach roots id → ss !! id = Some ev → a ∈ auth_events ev →
    a ∈ dom ss → auth_reach roots a.

Definition expand_measure (s : event_map * event_map) : nat :=
  size ((dom ss ∪ dom s.2) ∖ dom s.1 : gset Id).

Lemma measure_promote (p n : event_map) a ev :
  a ∉ dom p → a ∈ dom ss ∪ dom n →
  expand_measure (<[a := ev]> p, delete a n) + 1 ≤ expand_measure (p, n).
Proof.
  intros Hp Ha. unfold expand_measure. cbn [fst snd].
  assert ((dom ss ∪ dom n) ∖ dom p
    = {[a]} ∪ (dom ss ∪ dom (delete a n)) ∖ dom (<[a := ev]> p)) as ->.
  { rewrite dom_insert_L, dom_delete_L. apply set_eq. intros x. destruct (decide (x = a)); set_solver. }
  rewrite (size_union {[a]}); [rewrite size_singleton; lia|]. rewrite dom_insert_L. set_solver.
Qed.

Lemma expand_fold_measure aids p n pushed p' n' pushed' :
  foldl (expand_one ss) (p, n, pushed) aids = (p', n', pushed') →
  expand_measure (p', n') + length pushed' ≤ expand_measure (p, n) + length pushed.
Proof.
  revert p n pushed. induction aids as [|a aids IH]; intros p n pushed Hf; simpl in Hf.
  { by simplify_eq. }
  destruct (p !! a) eqn:Ep; [by apply IH|].
  assert (a ∉ dom p) as Hap by (by apply not_elem_of_dom).
  destruct (n !! a) as [o|] eqn:En.
  - apply IH in Hf. rewrite length_app in Hf. simpl in Hf.
    assert (a ∈ dom ss ∪ dom n) as Ha by (apply elem_of_union; right; apply elem_of_dom; by eexists).
    pose proof (measure_promote p n a o Hap Ha). lia.
  - destruct (ss !! a) as [o|] eqn:Es; [|by apply IH].
    apply IH in Hf. rewrite length_app in Hf. simpl in Hf.
    assert (a ∈ dom ss ∪ dom n) as Ha by (apply elem_of_union; left; apply elem_of_dom; by eexists).
    pose proof (measure_promote p n a o Hap Ha) as Hm. rewrite delete_id in Hm by done. lia.
Qed.

(** One event's citations, promoted. *)
Record expanded (p n p' n' : event_map) (aids new : list Id) : Prop := {
  ex_dom id : id ∈ dom p' ↔ id ∈ dom p ∨ (id ∈ aids ∧ id ∈ dom ss);
  ex_sub : p ⊆ ss → n ⊆ ss → p' ⊆ ss;
  ex_rest : n' ⊆ n;
  ex_disj : dom p ## dom n → dom p' ## dom n';
  ex_moved id : id ∈ dom n → id ∈ dom n' ∨ id ∈ dom p';
  ex_new id : id ∈ new → id ∈ dom p';
  ex_queued id : id ∈ dom p' → id ∈ dom p ∨ id ∈ new
}.

Lemma expand_fold aids p n pushed :
  n ⊆ ss →
  ∃ p' n' new, foldl (expand_one ss) (p, n, pushed) aids = (p', n', pushed ++ new)
    ∧ expanded p n p' n' aids new.
Proof.
  revert p n pushed. induction aids as [|a aids IH]; intros p n pushed Hn; simpl.
  { exists p, n, []. rewrite app_nil_r. split; [done|]. split; set_solver. }
  destruct (p !! a) as [o|] eqn:Ep.
  { assert (a ∈ dom p) by (apply elem_of_dom; by eexists).
    destruct (IH p n pushed Hn) as (p' & n' & new & E & [X1 X2 X3 X4 X5 X6 X7]).
    exists p', n', new. split; [done|]. split; try done. intros id. rewrite X1. set_solver. }
  assert (∀ o n1, ss !! a = Some o → n1 = delete a n →
    ∃ p' n' new, foldl (expand_one ss) (<[a := o]> p, n1, pushed ++ [a]) aids = (p', n', pushed ++ new)
      ∧ expanded p n p' n' (a :: aids) new) as Hpromote.
  { intros o n1 Ho ->. assert (a ∈ dom ss) as Hd by (apply elem_of_dom; by eexists).
    destruct (IH (<[a := o]> p) (delete a n) (pushed ++ [a])) as (p' & n' & new & E & [X1 X2 X3 X4 X5 X6 X7]).
    { etrans; [apply delete_subseteq|done]. }
    exists p', n', (a :: new). split; [by rewrite E, <-app_assoc|].
    rewrite ?dom_insert_L, ?dom_delete_L in *. split.
    - intros id. rewrite X1. destruct (decide (id = a)); set_solver.
    - intros Hp Hn'. apply X2; [|etrans; [apply delete_subseteq|done]].
      by apply insert_subseteq_l.
    - etrans; [done|apply delete_subseteq].
    - intros Hd'. apply X4. set_solver.
    - intros id Hid. destruct (decide (id = a)) as [->|]; [right; apply X1; set_solver|].
      apply X5. set_solver.
    - intros id [->|Hid]%elem_of_cons; [apply X1; set_solver|by apply X6].
    - intros id Hid. apply X7 in Hid. set_solver. }
  destruct (n !! a) as [o|] eqn:En.
  { apply Hpromote; [|done]. by eapply lookup_weaken. }
  destruct (ss !! a) as [o|] eqn:Es; [apply Hpromote; [done|by rewrite delete_id]|].
  assert (a ∉ dom ss) by (by apply not_elem_of_dom).
  destruct (IH p n pushed Hn) as (p' & n' & new & E & [X1 X2 X3 X4 X5 X6 X7]).
  exists p', n', new. split; [done|]. split; try done. intros id. rewrite X1. set_solver.
Qed.

Context `{Ho : HashOrder}.

Lemma expand_total p n : is_Some (expand_v2_power_events_auth_chains p n ss).
Proof.
  unfold expand_v2_power_events_auth_chains.
  apply (drain_total _ expand_measure); [|done].
  intros x s s' new. unfold expand_body. destruct (ss !! x) as [ev|]; [|intros [= <- <-]; simpl; lia].
  destruct (foldl _ _ _) as [[p' n'] pushed] eqn:E. intros [= <- <-].
  apply expand_fold_measure in E. destruct s. simpl in *. lia.
Qed.

(** The expansion moves to the power events exactly the events of the map
    reachable from them. *)
Lemma expand_spec p n p' n' :
  p ⊆ ss → n ⊆ ss → dom p ## dom n →
  expand_v2_power_events_auth_chains p n ss = Some (p', n') →
  (∀ id ev, p' !! id = Some ev ↔ ss !! id = Some ev ∧ auth_reach (dom p) id)
  ∧ (∀ id ev, n' !! id = Some ev ↔ n !! id = Some ev ∧ ¬ auth_reach (dom p) id).
Proof.
  intros Hp Hn Hdisj Hd.
  assert (p' ⊆ ss ∧ n' ⊆ n ∧ dom p' ## dom n' ∧ (∀ id, id ∈ dom p' → auth_reach (dom p) id)
    ∧ (∀ id, id ∈ dom n → id ∈ dom n' ∨ id ∈ dom p')
    ∧ (∀ x ev a, x ∈ dom p' → ss !! x = Some ev → a ∈ auth_events ev → a ∈ dom ss → a ∈ dom p')
    ∧ dom p ⊆ dom p') as (J1 & J2 & J3 & J4 & J5 & J6 & J7).
  { unfold expand_v2_power_events_auth_chains in Hd.
    eapply (drain_inv _ (λ q s, s.1 ⊆ ss ∧ s.2 ⊆ n ∧ dom s.1 ## dom s.2
      ∧ (∀ id, id ∈ dom s.1 → auth_reach (dom p) id)
      ∧ (∀ id, id ∈ dom n → id ∈ dom s.2 ∨ id ∈ dom s.1)
      ∧ (∀ x ev a, x ∈ dom s.1 → ss !! x = Some ev → a ∈ auth_events ev → a ∈ dom ss →
           x ∈ q ∨ a ∈ dom s.1)
      ∧ dom p ⊆ dom s.1 ∧ (∀ x, x ∈ q → x ∈ dom s.1))
      (λ s, s.1 ⊆ ss ∧ s.2 ⊆ n ∧ dom s.1 ## dom s.2
      ∧ (∀ id, id ∈ dom s.1 → auth_reach (dom p) id)
      ∧ (∀ id, id ∈ dom n → id ∈ dom s.2 ∨ id ∈ dom s.1)
      ∧ (∀ x ev a, x ∈ dom s.1 → ss !! x = Some ev → a ∈ auth_events ev → a ∈ dom ss → a ∈ dom s.1)
      ∧ dom p ⊆ dom s.1)) in Hd; [exact Hd|..].
    - intros x q [p1 n1] s' new (I1 & I2 & I3 & I4 & I5 & I6 & I7 & I8). simpl in *.
      unfold expand_body. destruct (ss !! x) as [evx|] eqn:Ex; cbn [fst snd].
      2: { intros [= <- <-]. rewrite app_nil_r. split_and!; try done; [|set_solver].
           intros y ev a Hy Hev Ha Hs. destruct (I6 y ev a Hy Hev Ha Hs) as [[->|?]%elem_of_cons|?];
             [congruence|by left|by right]. }
      destruct (expand_fold (auth_events evx) p1 n1 []) as (p2 & n2 & l & E & [X1 X2 X3 X4 X5 X6 X7]);
        [by etrans|]. rewrite E. simpl. intros [= <- <-]. simpl.
      assert (x ∈ dom p1) as Hx by (apply I8; set_solver).
      split_and!.
      + apply X2; [done|by etrans].
      + by etrans.
      + by apply X4.
      + intros id [?|[Hid Hs]]%X1; [by apply I4|]. eapply reach_step; [by apply I4|done..].
      + intros id [Hid|Hid]%I5; [by apply X5|right; apply X1; by left].
      + intros y ev a Hy Hev Ha Hs. apply X7 in Hy as [Hy|Hy]; [|left; set_solver].
        destruct (decide (y = x)) as [->|].
        { right. apply X1. right. assert (ev = evx) as -> by congruence. done. }
        destruct (I6 y ev a Hy Hev Ha Hs) as [[?|?]%elem_of_cons|?]; [done|left; set_solver|].
        right. apply X1. by left.
      + intros id Hid. apply X1. left. by apply I7.
      + intros y [Hy|Hy]%elem_of_app; [apply X1; left; apply I8; set_solver|by apply X6].
    - intros x q [p1 n1] s' _. unfold expand_body. by repeat case_match.
    - intros [p1 n1] (I1 & I2 & I3 & I4 & I5 & I6 & I7 & _). simpl in *. split_and!; try done.
      intros x ev a Hx Hev Ha Hs. destruct (I6 x ev a Hx Hev Ha Hs) as [?%not_elem_of_nil|?]; done.
    - simpl. split_and!; try done; [apply reach_root|set_solver| |intros x Hx; by apply elem_of_hm_keys].
      intros x ev a Hx _ _ _. left. by apply elem_of_hm_keys. }
  assert (∀ id, auth_reach (dom p) id → id ∈ dom p') as Hclosed.
  { induction 1; [by apply J7|by eapply J6]. }
  split.
  - intros id ev. split.
    + intros Hid. split; [by eapply lookup_weaken|]. apply J4, elem_of_dom. by eexists.
    + intros [Hs Hr%Hclosed]. apply elem_of_dom in Hr as [ev' Hev'].
      pose proof (lookup_weaken _ _ _ _ Hev' J1). congruence.
  - intros id ev. split.
    + intros Hid. split; [by eapply lookup_weaken|]. intros Hr%Hclosed.
      assert (id ∈ dom n') by (apply elem_of_dom; by eexists). set_solver.
    + intros [Hid Hr]. destruct (J5 id) as [Hn'|Hp']; [apply elem_of_dom; by eexists| |].
      * apply elem_of_dom in Hn' as [ev' Hev'].
        pose proof (lookup_weaken _ _ _ _ Hev' J2). congruence.
      * by apply J4 in Hp'.
Qed.
End expand.

Section ancestry.
Context {Id C : Type} `{EventId Id} `{EventContent C}.
Abbreviation event := (LeanEvent Id C).
Abbreviation event_map := (gmap Id event).
Context (ac : event_map).

(** Reachable from the queued ids along the auth edges of the context. *)
Inductive ancestry (start : list Id) : Id → Prop :=
| ancestry_start id : id ∈ start → ancestry start id
| ancestry_step id a : ancestry start id → a ∈ auth_edges ac id → ancestry start a.

Lemma auth_edges_support x : x ∉ dom ac → auth_edges ac x = [].
Proof. intros Hx. apply not_elem_of_dom in Hx. unfold auth_edges. by rewrite Hx. Qed.

Lemma ancestry_total q :
  is_Some (drain (ancestry_body ac) (weight (auth_edges ac) (dom ac) ∅ + length q) q ∅).
Proof.
  apply (drain_total _ (λ V, weight (auth_edges ac) (dom ac) V)); [|done].
  intros x V s' new. unfold ancestry_body. case_bool_decide as Hx; intros [= <- <-]; simpl; [lia|].
  by apply weight_visit, Hx; apply auth_edges_support.
Qed.

Lemma ancestry_spec q fuel V :
  drain (ancestry_body ac) fuel q ∅ = Some V → ∀ id, id ∈ V ↔ ancestry q id.
Proof.
  intros Hd.
  refine (drain_inv _ (λ q' V', (∀ id, id ∈ V' ∨ id ∈ q' → ancestry q id)
    ∧ (∀ id, id ∈ q → id ∈ V' ∨ id ∈ q')
    ∧ (∀ x a, x ∈ V' → a ∈ auth_edges ac x → a ∈ V' ∨ a ∈ q'))
    (λ V', ∀ id, id ∈ V' ↔ ancestry q id) fuel q ∅ V _ _ _ _ Hd).
  - intros x q' V' s' new (I1 & I2 & I3). unfold ancestry_body.
    case_bool_decide as Hx; intros [= <- <-]; [rewrite app_nil_r; set_solver|].
    assert (ancestry q x) by (apply I1; set_solver).
    split_and!; [|set_solver|set_solver].
    intros id Hid. assert (id ∈ V' ∨ id ∈ x :: q' ∨ id ∈ auth_edges ac x) as [?|[?|?]] by set_solver;
      [apply I1; auto..|by eapply ancestry_step].
  - intros x q' V' s' _. unfold ancestry_body. by case_bool_decide.
  - intros V' (I1 & I2 & I3) id. split; [intros Hid; apply I1; by left|].
    induction 1 as [id Hid|id a _ IH Ha]; [set_solver|]. destruct (I3 id a IH Ha); set_solver.
  - split_and!; [|set_solver|set_solver]. intros id [Hid|Hid]; [set_solver|by apply ancestry_start].
Qed.
End ancestry.

Section power_phase.
Context {Id C : Type} `{EventId Id} `{EventContent C}.
Abbreviation event := (LeanEvent Id C).
Abbreviation event_map := (gmap Id event).
Context (unconf : gmap (string * string) Id) (cf ac : event_map) (version : StateResVersion).

Lemma route_power_events_spec `{Ho : HashOrder} :
  let '(p, n) := route_power_events cf ∅ ∅ version in
  (∀ id ev, p !! id = Some ev ↔ cf !! id = Some ev ∧ is_power_event version ev = true)
  ∧ (∀ id ev, n !! id = Some ev ↔ cf !! id = Some ev ∧ is_power_event version ev = false).
Proof.
  unfold route_power_events.
  assert (∀ l (p n : event_map), NoDup l.*1 →
    let s := foldl (λ s kv, if is_power_event version kv.2 then (<[kv.1 := kv.2]> s.1, s.2)
               else (s.1, <[kv.1 := kv.2]> s.2)) (p, n) l in
    ∀ id, s.1 !! id = match (list_to_map l : event_map) !! id with
                      | Some ev => if is_power_event version ev then Some ev else p !! id
                      | None => p !! id end
      ∧ s.2 !! id = match (list_to_map l : event_map) !! id with
                    | Some ev => if is_power_event version ev then n !! id else Some ev
                    | None => n !! id end) as Hg.
  { intros l. induction l as [|[k v] l IH]; intros p n Hnd s id; csimpl.
    { by rewrite !lookup_empty. }
    csimpl in Hnd. apply NoDup_cons in Hnd as [Hni Hnd]. unfold s. csimpl.
    destruct (is_power_event version v) eqn:Ev.
    - destruct (IH (<[k:=v]> p) n Hnd id) as [-> ->].
      destruct (decide (k = id)) as [->|].
      + apply (not_elem_of_list_to_map_1 (M:=gmap Id)) in Hni. rewrite Hni.
        rewrite !lookup_insert_eq, Ev. done.
      + by rewrite !lookup_insert_ne.
    - destruct (IH p (<[k:=v]> n) Hnd id) as [-> ->].
      destruct (decide (k = id)) as [->|].
      + apply (not_elem_of_list_to_map_1 (M:=gmap Id)) in Hni. rewrite Hni.
        rewrite !lookup_insert_eq, Ev. done.
      + by rewrite !lookup_insert_ne. }
  specialize (Hg (hm_iter cf) ∅ ∅ (NoDup_hm_keys cf)). cbn zeta in Hg.
  destruct (foldl _ _ _) as [p n]. simpl in Hg. rewrite list_to_map_hm_iter in Hg.
  split; intros id ev; [rewrite (proj1 (Hg id))|rewrite (proj2 (Hg id))]; rewrite !lookup_empty;
    clear Hg; (destruct (cf !! id) as [e|]; [destruct (is_power_event version e) eqn:E|]);
    (split; [intros ?|intros [??]]); simplify_eq; try done; congruence.
Qed.

(** What the ancestral supplement inserts under an id. *)
Definition supplement (anc orig : gset Id) (id : Id) : option event :=
  if bool_decide (id ∈ orig) then None
  else match ac !! id with
       | Some ev => if ancestral_power version ev then Some ev else None
       | None => None
       end.

Lemma route_msc4297_spec `{Ho : HashOrder} p orig :
  ∃ anc : gset Id,
    (∀ id, id ∈ anc ↔ ancestry ac (hm_values p ≫= auth_events) id)
    ∧ ∃ p', route_msc4297_ancestral_power_events p ac orig version = Some p'
    ∧ ∀ id, p' !! id =
        if is_v2_1_to_v2_2 version && bool_decide (id ∈ anc) then
          match supplement anc orig id with Some ev => Some ev | None => p !! id end
        else p !! id.
Proof.
  unfold route_msc4297_ancestral_power_events.
  destruct (ancestry_total ac (hm_values p ≫= auth_events)) as [anc Hanc].
  exists anc. split; [by eapply ancestry_spec|].
  destruct (is_v2_1_to_v2_2 version); [|by exists p].
  rewrite Hanc. eexists. split; [done|]. intros id. simpl.
  assert (∀ l (m : event_map), foldl (λ p id, if bool_decide (id ∈ orig) then p
      else match ac !! id with
           | Some ev => if ancestral_power version ev then <[id := ev]> p else p
           | None => p end) m l
    = foldl (λ m k, match supplement anc orig k with Some v => <[k := v]> m | None => m end) m l) as ->.
  { intros l. induction l as [|k l IH]; intros m; simpl; [done|]. rewrite IH. f_equal.
    unfold supplement. by repeat case_match. }
  rewrite foldl_insert_by_key. case_bool_decide as Hin.
  - rewrite decide_True; [done|]. by rewrite sort_by_perm, elem_of_elements.
  - rewrite decide_False; [done|]. by rewrite sort_by_perm, elem_of_elements.
Qed.

(** The first two steps: classification and expansion. *)
Definition expanded_sets `{Ho : HashOrder} : option (event_map * event_map) :=
  let '(p0, n0) := route_power_events cf ∅ ∅ version in
  if version_eqb version V1 then Some (p0, n0)
  else expand_v2_power_events_auth_chains p0 n0 cf.

Lemma execute_power_phase_eq `{Ho : HashOrder} orig :
  execute_power_phase unconf cf ac orig version =
    match expanded_sets with
    | Some (p1, n1) =>
        match route_msc4297_ancestral_power_events p1 ac orig version with
        | Some p2 => Some (mkSortContext cf ac, p2, n1, find_create_event unconf cf ac)
        | None => None
        end
    | None => None
    end.
Proof.
  unfold execute_power_phase, expanded_sets. destruct (route_power_events _ _ _ _) as [p0 n0].
  by repeat case_match.
Qed.

Lemma expanded_sets_spec `{Ho : HashOrder} :
  ∃ p n, expanded_sets = Some (p, n)
    ∧ (∀ id ev, p !! id = Some ev → cf !! id = Some ev)
    ∧ (∀ id ev, n !! id = Some ev → cf !! id = Some ev).
Proof.
  unfold expanded_sets. pose proof route_power_events_spec as Hr.
  destruct (route_power_events cf ∅ ∅ version) as [p0 n0]. destruct Hr as [Hp Hn].
  assert (p0 ⊆ cf) as Hp0 by (apply map_subseteq_spec; intros id ev; rewrite Hp; naive_solver).
  assert (n0 ⊆ cf) as Hn0 by (apply map_subseteq_spec; intros id ev; rewrite Hn; naive_solver).
  case_match; [exists p0, n0; naive_solver|].
  assert (dom p0 ## dom n0) as Hd.
  { intros id [e1 Hx1]%elem_of_dom [e2 Hx2]%elem_of_dom. apply Hp in Hx1. apply Hn in Hx2. naive_solver congruence. }
  destruct (expand_total cf p0 n0) as [[p n] E]. exists p, n. split; [done|].
  destruct (expand_spec cf p0 n0 p n Hp0 Hn0 Hd E) as [X1 X2].
  split; intros id ev; [rewrite X1; naive_solver|rewrite X2, Hn; naive_solver].
Qed.

Lemma power_phase_spec `{Ho : HashOrder} orig :
  ∃ p n, execute_power_phase unconf cf ac orig version
      = Some (mkSortContext cf ac, p, n, find_create_event unconf cf ac)
    ∧ (∀ id ev, p !! id = Some ev → cf !! id = Some ev ∨ ac !! id = Some ev)
    ∧ (∀ id ev, n !! id = Some ev → cf !! id = Some ev).
Proof.
  rewrite execute_power_phase_eq. destruct expanded_sets_spec as (p & n & -> & Hp & Hn).
  destruct (route_msc4297_spec p orig) as (anc & _ & p' & -> & Hp').
  exists p', n. split_and!; [done| |done]. intros id ev. rewrite Hp'.
  case_match; [|naive_solver]. destruct (supplement anc orig id) as [e|] eqn:Es; [|naive_solver].
  intros [= <-]. right. unfold supplement in Es. repeat case_match; by simplify_eq.
Qed.

(** Without the ancestral supplement only conflicted events are power events. *)
Lemma power_phase_conflicted `{Ho : HashOrder} orig :
  is_v2_1_to_v2_2 version = false →
  ∃ p n, execute_power_phase unconf cf ac orig version
      = Some (mkSortContext cf ac, p, n, find_create_event unconf cf ac)
    ∧ p ⊆ cf ∧ n ⊆ cf.
Proof.
  intros Hv. rewrite execute_power_phase_eq. destruct expanded_sets_spec as (p & n & -> & Hp & Hn).
  unfold route_msc4297_ancestral_power_events. rewrite Hv. exists p, n.
  split_and!; [done|by apply map_subseteq_spec..].
Qed.

(** What is left for the mainline phase is not a power event. *)
Lemma power_phase_non_power `{Ho : HashOrder} orig sc p n cr id ev :
  execute_power_phase unconf cf ac orig version = Some (sc, p, n, cr) → n !! id = Some ev →
  is_power_event version ev = false.
Proof.
  rewrite execute_power_phase_eq. unfold expanded_sets. pose proof route_power_events_spec as Hr.
  destruct (route_power_events cf ∅ ∅ version) as [p0 n0]. destruct Hr as [Hp Hn].
  assert (∀ p1 n1, (if version_eqb version V1 then Some (p0, n0)
      else expand_v2_power_events_auth_chains p0 n0 cf) = Some (p1, n1) → n1 ⊆ n0) as Hsub.
  { assert (p0 ⊆ cf) as Hp0 by (apply map_subseteq_spec; intros i e; rewrite Hp; naive_solver).
    assert (n0 ⊆ cf) as Hn0 by (apply map_subseteq_spec; intros i e; rewrite Hn; naive_solver).
    assert (dom p0 ## dom n0) as Hd.
    { intros i [e1 Hx1]%elem_of_dom [e2 Hx2]%elem_of_dom. apply Hp in Hx1. apply Hn in Hx2. naive_solver congruence. }
    intros p1 n1. case_match; [by intros [= <- <-]|]. intros E.
    destruct (expand_spec cf p0 n0 p1 n1 Hp0 Hn0 Hd E) as [_ X2].
    apply map_subseteq_spec. intros i e. rewrite X2. naive_solver. }
  destruct (if version_eqb version V1 then _ else _) as [[p1 n1]|]; [|done]. specialize (Hsub _ _ eq_refl).
  case_match; [|done]. intros [= _ _ <- _] Hev. eapply lookup_weaken in Hev; [|exact Hsub]. by apply Hn in Hev as [_ ?].
Qed.

(** ** Independence of the hash order *)

Context (o1 o2 : HashOrder).

Lemma hm_values_perm {V} (m : gmap Id V) : hm_values (H:=o1) m ≡ₚ hm_values (H:=o2) m.
Proof. unfold hm_values. by rewrite (hm_iter_two o1 o2). Qed.

Lemma expanded_sets_order : expanded_sets (Ho:=o1) = expanded_sets (Ho:=o2).
Proof.
  unfold expanded_sets. pose proof (route_power_events_spec (Ho:=o1)) as R1.
  pose proof (route_power_events_spec (Ho:=o2)) as R2.
  destruct (route_power_events (Ho:=o1) cf ∅ ∅ version) as [p1 n1].
  destruct (route_power_events (Ho:=o2) cf ∅ ∅ version) as [p2 n2].
  destruct R1 as [Hp1 Hn1], R2 as [Hp2 Hn2].
  assert (p1 = p2) as <- by (apply map_eq_Some; intros; by rewrite Hp1, Hp2).
  assert (n1 = n2) as <- by (apply map_eq_Some; intros; by rewrite Hn1, Hn2).
  case_match; [done|].
  assert (p1 ⊆ cf) as Hp0 by (apply map_subseteq_spec; intros id ev; rewrite Hp1; naive_solver).
  assert (n1 ⊆ cf) as Hn0 by (apply map_subseteq_spec; intros id ev; rewrite Hn1; naive_solver).
  assert (dom p1 ## dom n1) as Hd.
  { intros id [e1 Hx1]%elem_of_dom [e2 Hx2]%elem_of_dom. apply Hp1 in Hx1. apply Hn1 in Hx2. naive_solver congruence. }
  destruct (expand_total cf (Ho:=o1) p1 n1) as [[p n] E1].
  destruct (expand_total cf (Ho:=o2) p1 n1) as [[p' n'] E2]. rewrite E1, E2.
  destruct (expand_spec cf (Ho:=o1) _ _ _ _ Hp0 Hn0 Hd E1) as [X1 X2].
  destruct (expand_spec cf (Ho:=o2) _ _ _ _ Hp0 Hn0 Hd E2) as [Y1 Y2].
  do 2 f_equal; apply map_eq_Some; intros; [by rewrite X1, Y1|by rewrite X2, Y2].
Qed.

Lemma ancestry_perm q q' id : q ≡ₚ q' → ancestry ac q id → ancestry ac q' id.
Proof.
  intros Hp. induction 1 as [id Hid|id a _ IH Ha]; [apply ancestry_start; by rewrite <-Hp|].
  by eapply ancestry_step.
Qed.

Hypothesis Hkey : ∀ id ev, cf !! id = Some ev → event_id ev = id.

Lemma find_create_event_order :
  find_create_event (Ho:=o1) unconf cf ac = find_create_event (Ho:=o2) unconf cf ac.
Proof.
  unfold find_create_event. case_match; [done|]. f_equal.
  apply sort_by_perm_eq; [apply _| |].
  - intros x y [_ [i Hx]%elem_of_hm_values]%list_elem_of_filter
      [_ [j Hy]%elem_of_hm_values]%list_elem_of_filter Hid.
    pose proof (Hkey _ _ Hx). pose proof (Hkey _ _ Hy). congruence.
  - by rewrite hm_values_perm.
Qed.

Lemma execute_power_phase_order orig :
  execute_power_phase (Ho:=o1) unconf cf ac orig version
  = execute_power_phase (Ho:=o2) unconf cf ac orig version.
Proof.
  rewrite !execute_power_phase_eq, find_create_event_order, expanded_sets_order.
  destruct (expanded_sets (Ho:=o2)) as [[p n]|]; [|done].
  destruct (route_msc4297_spec (Ho:=o1) p orig) as (a1 & Ha1 & p1 & -> & Hp1).
  destruct (route_msc4297_spec (Ho:=o2) p orig) as (a2 & Ha2 & p2 & -> & Hp2).
  assert (a1 = a2) as <-.
  { apply set_eq. intros id. rewrite Ha1, Ha2.
    split; apply ancestry_perm; apply bind_Permutation; by rewrite hm_values_perm. }
  assert (p1 = p2) as <-; [|done]. apply map_eq. intros id. by rewrite Hp1, Hp2.
Qed.
End power_phase.
