(* ===== verification/IterProps.v ===== *)
(** * Properties of the iterative resolver

    It terminates, keeps every unconflicted entry, takes every other entry from
    an event that passed the auth rules, and gives the same result for every
    hash order; the delta-reporting variant computes the same state where no
    ban screening is involved. *)
From stdpp Require Import prelude gmap strings sorting.
From Stdlib Require String.
From S2P Require Import Prelude EventTypes Json Events JsonContent Auth Samples Sorting Kahn Mainline LocalAuth Iterative PowerPhase.

Section run_steps.
Context {S A : Type} (step : S → A → option S).

Lemma run_steps_inv (I : S → Prop) l s :
  (∀ s x, x ∈ l → I s → ∃ s', step s x = Some s' ∧ I s') → I s →
  ∃ s', run_steps step s l = Some s' ∧ I s'.
Proof.
  revert s. induction l as [|x l IH]; intros s Hstep Hs; simpl; [by exists s|].
  destruct (Hstep s x) as (s' & -> & Hs'); [set_solver|done|].
  apply IH; [|done]. intros s1 y Hy. apply Hstep. set_solver.
Qed.
End run_steps.

(** Two runs whose steps keep a relation. *)
Lemma run_steps_sim {S1 S2 A} (f1 : S1 → A → option S1) (f2 : S2 → A → option S2)
    (R : S1 → S2 → Prop) l s1 s2 :
  (∀ s1 s2 x, x ∈ l → R s1 s2 →
     ∃ s1' s2', f1 s1 x = Some s1' ∧ f2 s2 x = Some s2' ∧ R s1' s2') → R s1 s2 →
  ∃ s1' s2', run_steps f1 s1 l = Some s1' ∧ run_steps f2 s2 l = Some s2' ∧ R s1' s2'.
Proof.
  revert s1 s2. induction l as [|x l IH]; intros s1 s2 Hstep HR; simpl; [by exists s1, s2|].
  destruct (Hstep s1 s2 x) as (s1' & s2' & -> & -> & HR'); [set_solver|done|].
  apply IH; [|done]. intros t1 t2 y Hy. apply Hstep. set_solver.
Qed.

Section merge.
Context {Id : Type} `{EventId Id}.

Lemma merge_final_lookup (u r : gmap (string * string) Id) k :
  merge_final_resolved u r !! k = match u !! k with Some v => Some v | None => r !! k end.
Proof.
  unfold merge_final_resolved.
  assert (∀ l (f : gmap (string * string) Id), NoDup l.*1 →
    foldl (λ f kv, match f !! kv.1 with Some _ => f | None => <[kv.1 := kv.2]> f end) f l !! k
    = match f !! k with Some v => Some v | None => (list_to_map l : gmap (string * string) Id) !! k end) as Hg.
  { intros l. induction l as [|[k' v] l IH]; intros f Hnd; csimpl.
    { rewrite lookup_empty. by destruct (f !! k). }
    csimpl in Hnd. apply NoDup_cons in Hnd as [Hni Hnd]. rewrite IH by done.
    destruct (decide (k' = k)) as [->|Hne].
    - rewrite lookup_insert_eq. destruct (f !! k) as [w|] eqn:E; rewrite ?E; [done|].
      by rewrite lookup_insert_eq.
    - rewrite lookup_insert_ne by done.
      destruct (f !! k'); [done|]. by rewrite lookup_insert_ne. }
  assert (sort_by (cmp_on fst (cmp_pair String.compare String.compare)) (map_to_list r) ≡ₚ map_to_list r)
    as Hp by apply sort_by_perm.
  rewrite Hg by (rewrite Hp; apply NoDup_fst_map_to_list).
  rewrite (list_to_map_proper _ (map_to_list r)); [|rewrite Hp; apply NoDup_fst_map_to_list|done].
  by rewrite list_to_map_to_list.
Qed.
End merge.

(** The inputs of a resolution: maps keyed by event id that agree on common
    ids, with sizes a machine can hold. *)
Record inputs_wf {Id C} `{EventId Id} (version : StateResVersion) (cf ac : gmap Id (LeanEvent Id C)) : Prop := {
  in_cf : events_wf version cf;
  in_ac : events_wf version ac;
  in_coherent id e1 e2 : cf !! id = Some e1 → ac !! id = Some e2 → e1 = e2;
  in_size : (N.of_nat (size (dom cf ∪ dom ac : gset Id)) + 1 < IN_PROGRESS)%N
}.

(** A check of the inputs by evaluation. *)
Lemma inputs_wf_disjoint {Id C} `{EventId Id} version (cf ac : gmap Id (LeanEvent Id C)) :
  events_wf version cf → events_wf version ac → map_Forall (λ id _, ac !! id = None) cf →
  (N.of_nat (size (dom cf ∪ dom ac : gset Id)) + 1 < IN_PROGRESS)%N → inputs_wf version cf ac.
Proof. intros Hc Ha Hd Hs. split; try done. intros id e1 e2 H1 H2. apply Hd in H1. congruence. Qed.

Section resolve.
Context {Id C : Type} `{EventId Id} `{EventContent C}.
Abbreviation event := (LeanEvent Id C).
Abbreviation event_map := (gmap Id event).
Abbreviation key := (string * string)%type.
Context (unconf : gmap key Id) (cf ac : event_map) (version : StateResVersion)
  (conflicted_keys : gset key).
Hypothesis Hwf : inputs_wf version cf ac.

Abbreviation ctx := (mkSortContext cf ac).
Implicit Types (ev : event) (r : gmap key Id).

(** An event of the inputs, under its own id. *)
Definition known (ev : event) : Prop :=
  cf !! event_id ev = Some ev ∨ ac !! event_id ev = Some ev.

Lemma known_lookup id ev : cf !! id = Some ev ∨ ac !! id = Some ev → event_id ev = id ∧ known ev.
Proof.
  unfold known. intros [He|He]; [apply (in_cf _ _ _ Hwf) in He as Hid|apply (in_ac _ _ _ Hwf) in He as Hid];
    destruct Hid as [<- _]; auto.
Qed.

Lemma known_unique e1 e2 : known e1 → known e2 → event_id e1 = event_id e2 → e1 = e2.
Proof.
  intros [H1|H1] [H2|H2] Heq; rewrite Heq in H1; try congruence.
  - by eapply in_coherent.
  - symmetry. by eapply in_coherent.
Qed.

(** The states a resolution goes through: the initial one, the merge of the
    unconflicted power events, and the entry of an event that passes the auth
    rules against the state so far and its own local auth context. *)
Inductive resolution_state (cr : option event) : gmap key Id → Prop :=
| rs_initial : resolution_state cr (get_initial_resolved_state unconf version)
| rs_merge r :
    resolution_state cr r → resolution_state cr (merge_unconflicted_power_events version unconf r)
| rs_accept r ev sk cache la cache' power :
    resolution_state cr r → known ev → state_key ev = Some sk →
    decides_key version conflicted_keys (event_key ev sk) = true →
    compute_local_auth ev ac cf cache version = Some (la, cache') →
    iterative_auth_ok ev r ac cf la cr version power = true →
    resolution_state cr (<[event_key ev sk := event_id ev]> r).

(** An entry put in by a known event that passed the auth rules against a
    state of the resolution. *)
Definition accepted_entry (cr : option event) (k : key) (id : Id) : Prop :=
  ∃ ev sk r cache la cache' power,
    known ev ∧ event_id ev = id ∧ state_key ev = Some sk ∧ k = (event_type ev, sk)
    ∧ rejected ev = false
    ∧ resolution_state cr r
    ∧ compute_local_auth ev ac cf cache version = Some (la, cache')
    ∧ check_auth ev (overlay_get (mkOverlay r ac cf la cr version power (event_type ev))) version None
      = Ok tt
    ∧ (version = V1 → k ∈ conflicted_keys).

Lemma auth_ok_entry cr ev r cache la cache' power sk :
  known ev → resolution_state cr r → compute_local_auth ev ac cf cache version = Some (la, cache') →
  iterative_auth_ok ev r ac cf la cr version power = true → state_key ev = Some sk →
  decides_key version conflicted_keys (event_key ev sk) = true →
  accepted_entry cr (event_key ev sk) (event_id ev).
Proof.
  unfold iterative_auth_ok. intros Hk Hr Hla Hok Hsk Hd. destruct (rejected ev) eqn:Er; [done|].
  exists ev, sk, r, cache, la, cache', power. split_and!; try done.
  - apply event_key_eq.
  - destruct (check_auth _ _ _ _) as [[]|]; done.
  - intros ->. unfold decides_key in Hd. simpl in Hd. by apply bool_decide_eq_true in Hd.
Qed.

Lemma merge_power_lookup r k id :
  merge_unconflicted_power_events version unconf r !! k = Some id →
  r !! k = Some id ∨ unconf !! k = Some id.
Proof.
  unfold merge_unconflicted_power_events. destruct (is_v2_1_plus version); [|by left].
  generalize [M_ROOM_POWER_LEVELS; M_ROOM_JOIN_RULES; M_ROOM_CREATE] as tys. intros tys.
  revert r. induction tys as [|ty tys IH]; intros r; simpl; [by left|]. intros [Hk|Hk]%IH; [|by right].
  destruct (unconf !! key_of (EventType_from ty) "") as [v|] eqn:Eu; [|by left].
  destruct (r !! key_of (EventType_from ty) "") eqn:Er; [by left|].
  apply lookup_insert_Some in Hk as [[<- <-]|[_ Hk]]; [by right|by left].
Qed.

Lemma resolution_traced cr r k id :
  resolution_state cr r → r !! k = Some id → unconf !! k = Some id ∨ accepted_entry cr k id.
Proof.
  induction 1 as [|r Hr IH|r ev sk cache la cache' power Hr IH Hk Hsk Hd Hla Hok].
  - unfold get_initial_resolved_state. case_match; [by rewrite lookup_empty|by left].
  - intros [?|?]%merge_power_lookup; [by apply IH|by left].
  - intros [[<- <-]|[_ ?]]%lookup_insert_Some; [right; by eapply auth_ok_entry|by apply IH].
Qed.

Lemma event_auth_ok_total ev r cache cr power :
  ∃ la cache', compute_local_auth ev ac cf cache version = Some (la, cache')
    ∧ event_auth_ok ac cf cr version ev r cache power
      = Some (iterative_auth_ok ev r ac cf la cr version power, cache').
Proof.
  unfold event_auth_ok. destruct (compute_local_auth_total ev ac cf cache version) as [[la c] E].
  rewrite E. by exists la, c.
Qed.

Lemma power_step_state cr s id :
  resolution_state cr s.1 →
  ∃ s', power_step ac cf cr version conflicted_keys s id = Some s' ∧ resolution_state cr s'.1.
Proof.
  destruct s as [r cache]. simpl. intros Hr. unfold power_step.
  destruct (get_either cf ac id) as [ev|] eqn:Eg; [|by eexists].
  assert (known ev) as Hk.
  { apply (known_lookup id). unfold get_either in Eg. destruct (cf !! id); [left|right]; congruence. }
  destruct (event_auth_ok_total ev r cache cr true) as (la & c' & Hla & ->).
  destruct (iterative_auth_ok _ _ _ _ _ _ _ _) eqn:Eok; [|by eexists].
  destruct (state_key ev) as [sk|] eqn:Esk; [|by eexists].
  destruct (decides_key _ _ _) eqn:Ed; simpl; eexists; split; try done.
  simpl. by eapply rs_accept.
Qed.

Lemma non_power_step_state cr s ev :
  known ev → resolution_state cr s.1 →
  ∃ s', non_power_step ac cf cr version conflicted_keys s ev = Some s' ∧ resolution_state cr s'.1.
Proof.
  destruct s as [r cache]. simpl. intros Hk Hr. unfold non_power_step.
  destruct (event_auth_ok_total ev r cache cr false) as (la & c' & Hla & ->).
  destruct (iterative_auth_ok _ _ _ _ _ _ _ _) eqn:Eok; [|by eexists].
  destruct (state_key ev) as [sk|] eqn:Esk; [|by eexists].
  destruct (decides_key _ _ _) eqn:Ed; simpl; eexists; split; try done.
  simpl. by eapply rs_accept.
Qed.

(** ** Sizes *)

Lemma mainline_length start ml :
  is_mainline ctx version start ml → (N.of_nat (length ml) < IN_PROGRESS)%N.
Proof.
  intros [Hnd _ Hl _]. destruct ml as [|x ml]; [done|]. apply NoDup_cons in Hnd as [_ Hnd].
  assert (length ml ≤ size (dom cf ∪ dom ac : gset Id)) as Hlen.
  { rewrite <-(size_list_to_set (C:=gset Id) ml) by done. apply subseteq_size. intros y Hy.
    apply elem_of_list_to_set, list_elem_of_lookup in Hy as [i Hi].
    change (dom cf ∪ dom ac) with (provider_ids ctx).
    destruct (lookup_lt_is_Some_2 (x :: ml) i) as [a Ha].
    { apply lookup_lt_Some in Hi. simpl. lia. }
    eapply pl_parent_provider, (Hl i a y); [done|]. simpl. done. }
  pose proof (in_size _ _ _ Hwf). simpl. lia.
Qed.

Lemma power_events_wf (p : event_map) :
  (∀ id ev, p !! id = Some ev → cf !! id = Some ev ∨ ac !! id = Some ev) → events_wf version p.
Proof.
  intros Hp id ev [He|He]%Hp; [by apply (in_cf _ _ _ Hwf)|by apply (in_ac _ _ _ Hwf)].
Qed.

(** ** The whole resolver *)

(** The list the mainline phase sorts: the surviving non-power events. *)
Definition mainline_input `{Ho : HashOrder} (n : event_map) (r : gmap key Id) : list event :=
  if has_ban_evasion_hardening version
  then filter (λ ev, is_sender_banned ev r unconf ctx = false) (hm_values n)
  else hm_values n.

Lemma mainline_input_elem `{Ho : HashOrder} n r ev :
  ev ∈ mainline_input n r → ∃ id, n !! id = Some ev.
Proof.
  unfold mainline_input. case_match; [rewrite list_elem_of_filter|]; intros Hev;
    [destruct Hev as [_ Hev]|]; by apply elem_of_hm_values in Hev.
Qed.

Lemma mainline_input_perm (o1 o2 : HashOrder) n r :
  mainline_input (Ho:=o1) n r ≡ₚ mainline_input (Ho:=o2) n r.
Proof.
  unfold mainline_input. case_match; by rewrite (hm_values_perm o1 o2).
Qed.

Lemma mainline_input_nodup `{Ho : HashOrder} n r :
  (∀ id ev, n !! id = Some ev → event_id ev = id) → NoDup (event_id <$> mainline_input n r).
Proof.
  intros Hn. assert (NoDup (event_id <$> hm_values n)) as Hnd.
  { unfold hm_values. rewrite <-list_fmap_compose.
    rewrite (list_fmap_ext _ fst); [apply NoDup_hm_keys|].
    intros i [id ev] Hi%list_elem_of_lookup_2. apply elem_of_hm_iter, Hn in Hi. done. }
  unfold mainline_input. case_match; [|done].
  by apply NoDup_fmap_filter.
Qed.

(** The phases after [execute_power_phase], for given event sets. *)
Definition resolve_phases `{Ho : HashOrder} (cache : LocalAuthCache Id C) (mc : gmap Id (option Id))
    (p n : event_map) (cr : option event)
    : option (gmap key Id * LocalAuthCache Id C * gmap Id (option Id)) :=
  '(r1, cache1) ←! run_power_phase_iterative_checks (get_initial_resolved_state unconf version) p ctx
    ac cf version cache cr conflicted_keys;
  let r2 := merge_unconflicted_power_events version unconf r1 in
  '(ml, mc') ←! build_mainline_with_cache ctx version r2 mc;
  sorted ←! mainline_sort ctx version (mainline_input n r2) ml;
  '(r3, cache2) ←! run_steps (non_power_step ac cf cr version conflicted_keys) (r2, cache1) sorted;
  Some (merge_final_resolved unconf r3, cache2, mc').

Lemma resolve_eq `{Ho : HashOrder} ext mc :
  version ≠ V3 →
  resolve_iterative_sort_with_all_caches unconf cf ac version ext mc conflicted_keys =
    match execute_power_phase unconf cf ac (dom cf) version with
    | Some (_, p, n, cr) =>
        resolve_phases (select_local_auth_cache ext (LocalAuthCache_new version) version) mc p n cr
    | None => None
    end.
Proof.
  intros Hv. unfold resolve_iterative_sort_with_all_caches, require_legacy_iterative_version.
  assert (version_eqb version V3 = false) as -> by (by destruct version).
  simpl. unfold prepare_conflicted_and_keys.
  destruct (power_phase_spec unconf cf ac version (dom cf)) as (p & n & -> & _). done.
Qed.

Lemma resolve_phases_spec `{Ho : HashOrder} cache mc p n cr :
  (∀ id ev, p !! id = Some ev → cf !! id = Some ev ∨ ac !! id = Some ev) →
  (∀ id ev, n !! id = Some ev → cf !! id = Some ev) →
  cache_ok ctx version mc →
  ∃ r cache' mc', resolve_phases cache mc p n cr = Some (merge_final_resolved unconf r, cache', mc')
    ∧ resolution_state cr r ∧ cache_ok ctx version mc'.
Proof.
  intros Hp Hn Hmc. unfold resolve_phases, run_power_phase_iterative_checks.
  destruct (kahn_sort_det Ho Ho p ctx cr version (power_events_wf p Hp)) as (ids & -> & _).
  destruct (run_steps_inv (power_step ac cf cr version conflicted_keys) (λ s, resolution_state cr s.1) ids
    (get_initial_resolved_state unconf version, cache)) as ([r1 c1] & -> & Hr1).
  { intros s id _. apply power_step_state. } { apply rs_initial. }
  simpl in Hr1. apply rs_merge in Hr1.
  set (r2 := merge_unconflicted_power_events version unconf r1) in *.
  destruct (mainline_built ctx version r2 mc Hmc) as (ml & mc' & -> & _ & Hmc' & Hml).
  destruct (mainline_sorted ctx version (mainline_input n r2) ml (mainline_length _ _ Hml))
    as (dist & sorted & -> & _ & Hperm & _).
  destruct (run_steps_inv (non_power_step ac cf cr version conflicted_keys) (λ s, resolution_state cr s.1) sorted
    (r2, c1)) as ([r3 c3] & -> & Hr3).
  { intros s ev Hev. apply non_power_step_state. rewrite Hperm in Hev.
    apply mainline_input_elem in Hev as [id Hid]. eapply (known_lookup id). left. by apply Hn. }
  { done. }
  by exists r3, c3, mc'.
Qed.

Lemma resolve_phases_order (o1 o2 : HashOrder) cache mc p n cr :
  (∀ id ev, p !! id = Some ev → cf !! id = Some ev ∨ ac !! id = Some ev) →
  (∀ id ev, n !! id = Some ev → cf !! id = Some ev) →
  cache_ok ctx version mc →
  resolve_phases (Ho:=o1) cache mc p n cr = resolve_phases (Ho:=o2) cache mc p n cr.
Proof.
  intros Hp Hn Hmc. unfold resolve_phases, run_power_phase_iterative_checks.
  destruct (kahn_sort_det o1 o2 p ctx cr version (power_events_wf p Hp)) as (ids & -> & -> & _).
  destruct (run_steps (power_step _ _ _ _ _) _ ids) as [[r1 c1]|]; [|done].
  set (r2 := merge_unconflicted_power_events version unconf r1).
  destruct (mainline_built ctx version r2 mc Hmc) as (ml & mc' & -> & _ & _ & Hml).
  rewrite (mainline_sort_perm ctx version (mainline_input (Ho:=o1) n r2) (mainline_input (Ho:=o2) n r2) ml);
    [done|by eapply mainline_length| |apply mainline_input_perm].
  apply mainline_input_nodup. intros id ev Hev. apply Hn in Hev. by apply (in_cf _ _ _ Hwf) in Hev as [? _].
Qed.

(** The result: total, keeping the unconflicted entries, traced elsewhere. *)
Lemma resolution_outcome `{Ho : HashOrder} ext mc :
  version ≠ V3 → cache_ok ctx version mc →
  ∃ final cache' mc',
    resolve_iterative_sort_with_all_caches unconf cf ac version ext mc conflicted_keys
      = Some (final, cache', mc')
    ∧ (∀ k id, unconf !! k = Some id → final !! k = Some id)
    ∧ (∀ k id, unconf !! k = None → final !! k = Some id → accepted_entry (find_create_event unconf cf ac) k id)
    ∧ cache_ok ctx version mc'.
Proof.
  intros Hv Hmc. rewrite resolve_eq by done.
  destruct (power_phase_spec unconf cf ac version (dom cf)) as (p & n & -> & Hp & Hn).
  destruct (resolve_phases_spec (select_local_auth_cache ext (LocalAuthCache_new version) version) mc p n
    (find_create_event unconf cf ac) Hp Hn Hmc) as (r & c' & mc' & -> & Hr & Hmc').
  eexists _, c', mc'. split_and!; [done| | |done].
  - intros k id Hk. by rewrite merge_final_lookup, Hk.
  - intros k id Hk. rewrite merge_final_lookup, Hk. intros Hf.
    destruct (resolution_traced _ r k id Hr Hf); [congruence|done].
Qed.

(** Independence of the hash order. *)
Lemma resolution_order (o1 o2 : HashOrder) ext mc :
  cache_ok ctx version mc →
  resolve_iterative_sort_with_all_caches (Ho:=o1) unconf cf ac version ext mc conflicted_keys
  = resolve_iterative_sort_with_all_caches (Ho:=o2) unconf cf ac version ext mc conflicted_keys.
Proof.
  intros Hmc. destruct (decide (version = V3)) as [Hv|Hv]; [by rewrite Hv|].
  rewrite !resolve_eq by done.
  assert (∀ id ev, cf !! id = Some ev → event_id ev = id) as Hkey
    by (intros id ev He; by apply (in_cf _ _ _ Hwf) in He as [? _]).
  rewrite (execute_power_phase_order unconf cf ac version o1 o2 Hkey).
  destruct (power_phase_spec (Ho:=o2) unconf cf ac version (dom cf)) as (p & n & -> & Hp & Hn).
  by apply resolve_phases_order.
Qed.
End resolve.

(** ** The delta-reporting variant *)

Section deltas.
Context {Id C : Type} `{EventId Id} `{EventContent C}.
Abbreviation event := (LeanEvent Id C).
Abbreviation event_map := (gmap Id event).
Abbreviation key := (string * string)%type.
Context (unconf : gmap key Id) (cf ac : event_map) (version : StateResVersion)
  (conflicted_keys : gset key).
Hypothesis Hwf : inputs_wf version cf ac.
Hypothesis Hdirect : transitive_auth version = false.
Implicit Types (ev : event) (r : gmap key Id) (cache : LocalAuthCache Id C).

(** A local auth cache whose entries are the direct auth events. *)
Definition direct_cache cache : Prop :=
  ∀ ev m, known cf ac ev → cache_map cache !! event_id ev = Some m → m = direct_local_auth ac cf ev.

Lemma event_auth_ok_direct ev r cache cr power :
  known cf ac ev → direct_cache cache →
  ∃ cache', direct_cache cache'
    ∧ event_auth_ok ac cf cr version ev r cache power
      = Some (iterative_auth_ok ev r ac cf (entries_events (direct_local_auth ac cf ev)) cr version power,
              cache').
Proof.
  intros Hk Hc. unfold event_auth_ok. destruct (cache_map cache !! event_id ev) as [m|] eqn:Em.
  - exists cache. split; [done|]. unfold compute_local_auth. rewrite Em. by rewrite (Hc _ _ Hk Em).
  - rewrite compute_local_auth_direct by done. eexists. split; [|done].
    intros ev' m Hk'. simpl. intros [[Heq <-]|[_ Hm]]%lookup_insert_Some; [|by apply Hc].
    by rewrite (known_unique cf ac version Hwf ev ev').
Qed.

(** The two variants' states: the same resolution, consistent caches. *)
Definition same_resolution (s1 : gmap key Id * LocalAuthCache Id C)
    (s2 : gmap key Id * LocalAuthCache Id C * list (ResolutionDelta (Id:=Id))) : Prop :=
  s1.1 = s2.1.1 ∧ direct_cache s1.2 ∧ direct_cache s2.1.2.

Lemma power_steps_agree cr orig s1 s2 id :
  same_resolution s1 s2 →
  ∃ s1' s2', power_step ac cf cr version conflicted_keys s1 id = Some s1'
    ∧ power_delta_step ac cf cr version conflicted_keys orig s2 id = Some s2'
    ∧ same_resolution s1' s2'.
Proof.
  destruct s1 as [r c1], s2 as [[r2 c2] ds]. intros (Heq & H1 & H2). simpl in *. subst r2.
  unfold power_step, power_delta_step. destruct (get_either cf ac id) as [ev|] eqn:Eg.
  2: { eexists _, _. split_and!; try done. }
  assert (known cf ac ev) as Hk.
  { apply (known_lookup cf ac version Hwf id). unfold get_either in Eg.
    destruct (cf !! id); [left|right]; congruence. }
  destruct (event_auth_ok_direct ev r c1 cr true Hk H1) as (c1' & H1' & ->).
  set (ok := iterative_auth_ok _ _ _ _ _ _ _ _).
  destruct (state_key ev) as [sk|].
  - destruct (event_auth_ok_direct ev r c2 cr true Hk H2) as (c2' & H2' & ->). fold ok.
    destruct ok, (decides_key version conflicted_keys (event_key ev sk)); simpl;
      eexists _, _; split_and!; try done.
  - destruct ok; eexists _, _; split_and!; try done.
Qed.

(** Two runs with different sound caches stay in the same states. *)
Definition same_state (s1 s2 : gmap key Id * LocalAuthCache Id C) : Prop :=
  s1.1 = s2.1 ∧ direct_cache s1.2 ∧ direct_cache s2.2.

Lemma event_steps_agree cr ev s1 s2 power :
  known cf ac ev → same_state s1 s2 →
  ∃ c1 c2 ok, direct_cache c1 ∧ direct_cache c2
    ∧ event_auth_ok ac cf cr version ev s1.1 s1.2 power = Some (ok, c1)
    ∧ event_auth_ok ac cf cr version ev s2.1 s2.2 power = Some (ok, c2).
Proof.
  intros Hk (Heq & H1 & H2). rewrite <-Heq.
  destruct (event_auth_ok_direct ev s1.1 s1.2 cr power Hk H1) as (c1 & Hc1 & ->).
  destruct (event_auth_ok_direct ev s1.1 s2.2 cr power Hk H2) as (c2 & Hc2 & ->). eauto 8.
Qed.

Lemma power_steps_same cr s1 s2 id :
  same_state s1 s2 →
  ∃ s1' s2', power_step ac cf cr version conflicted_keys s1 id = Some s1'
    ∧ power_step ac cf cr version conflicted_keys s2 id = Some s2' ∧ same_state s1' s2'.
Proof.
  intros Hs. unfold power_step. destruct (get_either cf ac id) as [ev|] eqn:Eg.
  2:{ destruct s1, s2. eexists _, _. by split_and!. }
  assert (known cf ac ev) as Hk.
  { apply (known_lookup cf ac version Hwf id). unfold get_either in Eg.
    destruct (cf !! id); [left|right]; congruence. }
  destruct (event_steps_agree cr ev s1 s2 true Hk Hs) as (c1 & c2 & ok & H1 & H2 & E1 & E2).
  destruct s1 as [r c1'], s2 as [r' c2'], Hs as (Heq & _). simpl in *. subst r'. rewrite E1, E2.
  repeat case_match; eexists _, _; split_and!; try done.
Qed.

Lemma non_power_steps_same cr s1 s2 ev :
  known cf ac ev → same_state s1 s2 →
  ∃ s1' s2', non_power_step ac cf cr version conflicted_keys s1 ev = Some s1'
    ∧ non_power_step ac cf cr version conflicted_keys s2 ev = Some s2' ∧ same_state s1' s2'.
Proof.
  intros Hk Hs. unfold non_power_step.
  destruct (event_steps_agree cr ev s1 s2 false Hk Hs) as (c1 & c2 & ok & H1 & H2 & E1 & E2).
  destruct s1 as [r c1'], s2 as [r' c2'], Hs as (Heq & _). simpl in *. subst r'. rewrite E1, E2.
  repeat case_match; eexists _, _; split_and!; try done.
Qed.

Lemma select_cache_direct ext :
  (∀ c, ext = Some c → cache_version c = version → direct_cache c) →
  direct_cache (select_local_auth_cache ext (LocalAuthCache_new version) version).
Proof.
  intros Hext. unfold select_local_auth_cache, version_eqb.
  assert (∀ v, direct_cache (mkCache v ∅)) as Hempty by (intros v ev m _; simpl; by rewrite lookup_empty).
  destruct ext as [c|]; simpl; [|case_bool_decide; apply Hempty].
  case_bool_decide; simpl; [by apply Hext|apply Hempty].
Qed.

(** In these versions sound caches change nothing, and stay sound. *)
Lemma caches_agree `{Ho : HashOrder} ext1 ext2 mc1 mc2 :
  version ≠ V3 →
  (∀ c, ext1 = Some c → cache_version c = version → direct_cache c) →
  (∀ c, ext2 = Some c → cache_version c = version → direct_cache c) →
  cache_ok (mkSortContext cf ac) version mc1 → cache_ok (mkSortContext cf ac) version mc2 →
  ∃ final c1 c2 mc1' mc2',
    resolve_iterative_sort_with_all_caches unconf cf ac version ext1 mc1 conflicted_keys = Some (final, c1, mc1')
    ∧ resolve_iterative_sort_with_all_caches unconf cf ac version ext2 mc2 conflicted_keys = Some (final, c2, mc2')
    ∧ direct_cache c1 ∧ cache_ok (mkSortContext cf ac) version mc1'.
Proof.
  intros Hv Hext1 Hext2 Hmc1 Hmc2. rewrite !resolve_eq by done.
  destruct (power_phase_spec unconf cf ac version (dom cf)) as (p & n & -> & Hp & Hn).
  unfold resolve_phases, run_power_phase_iterative_checks.
  set (cr := find_create_event unconf cf ac).
  destruct (kahn_sort_det Ho Ho p (mkSortContext cf ac) cr version (power_events_wf cf ac version Hwf p Hp))
    as (ids & -> & _).
  pose proof (select_cache_direct ext1 Hext1) as Hc1. pose proof (select_cache_direct ext2 Hext2) as Hc2.
  set (k1 := select_local_auth_cache ext1 _ _) in *. set (k2 := select_local_auth_cache ext2 _ _) in *.
  destruct (run_steps_sim (power_step ac cf cr version conflicted_keys)
    (power_step ac cf cr version conflicted_keys) same_state ids
    (get_initial_resolved_state unconf version, k1) (get_initial_resolved_state unconf version, k2))
    as ([r1 c1] & [r1' c1'] & -> & -> & (Heq & Hd1 & Hd1')).
  { intros s1 s2 id _. apply power_steps_same. } { done. }
  simpl in Heq, Hd1, Hd1'. subst r1'.
  set (r2 := merge_unconflicted_power_events version unconf r1).
  destruct (mainline_built (mkSortContext cf ac) version r2 mc1 Hmc1) as (ml & mc1' & -> & Hml & Hmc1' & Hmain).
  destruct (mainline_built (mkSortContext cf ac) version r2 mc2 Hmc2) as (ml' & mc2' & -> & Hml' & Hmc2' & _).
  rewrite Hml in Hml'. simplify_eq.
  destruct (mainline_sorted (mkSortContext cf ac) version (mainline_input unconf cf ac version n r2) ml'
    (mainline_length cf ac version Hwf _ _ Hmain)) as (dist & sorted & -> & _ & Hperm & _).
  destruct (run_steps_sim (non_power_step ac cf cr version conflicted_keys)
    (non_power_step ac cf cr version conflicted_keys) same_state sorted (r2, c1) (r2, c1'))
    as ([r3 c3] & [r3' c3'] & -> & -> & (Heq & Hd3 & _)).
  { intros s1 s2 ev Hev. apply non_power_steps_same. rewrite Hperm in Hev.
    apply mainline_input_elem in Hev as [id Hid]. eapply (known_lookup cf ac version Hwf id).
    left. by apply Hn. }
  { done. }
  simpl in Heq. subst r3'. by eexists _, c3, c3', mc1', mc2'.
Qed.

Hypothesis Hplain : has_ban_evasion_hardening version = false.

Lemma non_power_steps_agree cr s1 s2 ev :
  known cf ac ev → same_resolution s1 s2 →
  ∃ s1' s2', non_power_step ac cf cr version conflicted_keys s1 ev = Some s1'
    ∧ non_power_delta_step ac cf cr version conflicted_keys unconf (mkSortContext cf ac) s2 ev = Some s2'
    ∧ same_resolution s1' s2'.
Proof.
  destruct s1 as [r c1], s2 as [[r2 c2] ds]. intros Hk (Heq & H1 & H2). simpl in *. subst r2.
  unfold non_power_step, non_power_delta_step. rewrite Hplain. cbn [andb].
  destruct (event_auth_ok_direct ev r c1 cr false Hk H1) as (c1' & H1' & ->).
  set (ok := iterative_auth_ok _ _ _ _ _ _ _ _).
  destruct (state_key ev) as [sk|].
  - destruct (event_auth_ok_direct ev r c2 cr false Hk H2) as (c2' & H2' & ->). fold ok.
    destruct ok, (decides_key version conflicted_keys (event_key ev sk)); simpl;
      eexists _, _; split_and!; try done.
  - destruct ok; eexists _, _; split_and!; try done.
Qed.

Lemma delta_agrees `{Ho : HashOrder} ext override :
  version ≠ V3 →
  (∀ c, ext = Some c → cache_version c = version → direct_cache c) →
  conflicted_keys = match override with Some ck => ck | None => derive_all_conflicted_keys cf end →
  ∃ final deltas,
    resolve_iterative_sort_with_cache unconf cf ac version ext override = Some final
    ∧ resolve_iterative_sort_with_cache_and_deltas unconf cf ac version ext override
      = Some (final, deltas).
Proof.
  intros Hv Hext Hkeys. unfold resolve_iterative_sort_with_cache. rewrite <-Hkeys.
  rewrite resolve_eq by done.
  unfold resolve_iterative_sort_with_cache_and_deltas, require_legacy_iterative_version.
  assert (version_eqb version V3 = false) as -> by (by destruct version).
  cbn [negb]. rewrite <-Hkeys. unfold prepare_conflicted_and_keys.
  destruct (power_phase_spec unconf cf ac version (dom cf)) as (p & n & -> & Hp & Hn).
  unfold resolve_phases, run_power_phase_iterative_checks.
  set (cr := find_create_event unconf cf ac).
  destruct (kahn_sort_det Ho Ho p (mkSortContext cf ac) cr version (power_events_wf cf ac version Hwf p Hp))
    as (ids & -> & _).
  pose proof (select_cache_direct ext Hext) as Hcache.
  set (cache := select_local_auth_cache _ _ _) in *.
  destruct (run_steps_sim (power_step ac cf cr version conflicted_keys)
    (power_delta_step ac cf cr version conflicted_keys (dom cf)) same_resolution ids
    (get_initial_resolved_state unconf version, cache)
    (get_initial_resolved_state unconf version, cache, []))
    as ([r1 c1] & [[r1' c1'] ds] & -> & -> & (Heq & Hc1 & Hc1')).
  { intros s1 s2 id _. apply power_steps_agree. } { done. }
  simpl in Heq, Hc1, Hc1'. subst r1'.
  set (r2 := merge_unconflicted_power_events version unconf r1).
  assert (cache_ok (mkSortContext cf ac) version ∅) as Hmc by (intros k v; by rewrite lookup_empty).
  destruct (mainline_built (mkSortContext cf ac) version r2 ∅ Hmc) as (ml & mc' & -> & -> & _ & Hml).
  unfold mainline_input. rewrite Hplain.
  destruct (mainline_sorted (mkSortContext cf ac) version (hm_values n) ml
    (mainline_length cf ac version Hwf _ _ Hml)) as (dist & sorted & -> & _ & Hperm & _).
  destruct (run_steps_sim (non_power_step ac cf cr version conflicted_keys)
    (non_power_delta_step ac cf cr version conflicted_keys unconf (mkSortContext cf ac))
    same_resolution sorted (r2, c1) (r2, c1', ds))
    as ([r3 c3] & [[r3' c3'] ds'] & -> & -> & (Heq & _ & _)).
  { intros s1 s2 ev Hev. apply non_power_steps_agree. rewrite Hperm in Hev.
    apply elem_of_hm_values in Hev as [id Hid]. eapply (known_lookup cf ac version Hwf id).
    left. by apply Hn. }
  { done. }
  simpl in Heq. subst r3'. by eexists _, _.
Qed.
End deltas.

Section resolve_claims.
Context {Id C : Type} `{EventId Id} `{EventContent C}.
Abbreviation event_map := (gmap Id (LeanEvent Id C)).
Abbreviation key := (string * string)%type.

(** C1: for every version but V3, with any local auth cache and any consistent
    mainline cache, the iterative resolver terminates; every unconflicted
    entry is in the resolved state unchanged; every other entry was put there
    by a known, not rejected event with that type and state key that passed
    the auth rules against a state the resolution went through, built in turn
    from such entries, and the event's own local auth context (in version 1,
    only for a conflicted key); and the mainline cache stays consistent. *)
Theorem resolution_total_traced `{Ho : HashOrder} (unconf : gmap key Id) (cf ac : event_map) version
    ext mc conflicted_keys :
  inputs_wf version cf ac → version ≠ V3 → cache_ok (mkSortContext cf ac) version mc →
  ∃ final cache' mc',
    resolve_iterative_sort_with_all_caches unconf cf ac version ext mc conflicted_keys
      = Some (final, cache', mc')
    ∧ (∀ k id, unconf !! k = Some id → final !! k = Some id)
    ∧ (∀ k id, unconf !! k = None → final !! k = Some id →
         accepted_entry unconf cf ac version conflicted_keys (find_create_event unconf cf ac) k id)
    ∧ cache_ok (mkSortContext cf ac) version mc'.
Proof.
  intros Hwf Hv Hmc.
  destruct (resolution_outcome unconf cf ac version conflicted_keys Hwf ext mc Hv Hmc)
    as (final & c & mc' & Hr & Hk & Ha & Hmc').
  by exists final, c, mc'.
Qed.

(** C2: the resolved state and the caches the resolver leaves do not depend on
    the iteration order of the hash maps it loops over. *)
Theorem resolution_deterministic (o1 o2 : HashOrder) (unconf : gmap key Id) (cf ac : event_map) version
    ext mc conflicted_keys :
  inputs_wf version cf ac → cache_ok (mkSortContext cf ac) version mc →
  resolve_iterative_sort_with_all_caches (Ho:=o1) unconf cf ac version ext mc conflicted_keys
  = resolve_iterative_sort_with_all_caches (Ho:=o2) unconf cf ac version ext mc conflicted_keys.
Proof.
  intros. by apply resolution_order.
Qed.

(** In versions 1, 2 and 2.1 the delta-reporting resolver returns the same
    state as the plain one, with the same optional conflicted keys and with
    any local auth caches of that version whose entries are the direct auth
    events. *)
Theorem deltas_same_state `{Ho : HashOrder} (unconf : gmap key Id) (cf ac : event_map) version
    ext override :
  inputs_wf version cf ac → version = V1 ∨ version = V2 ∨ version = V2_1 →
  (∀ c, ext = Some c → cache_version c = version → direct_cache cf ac c) →
  ∃ final deltas,
    resolve_iterative_sort_with_cache unconf cf ac version ext override = Some final
    ∧ resolve_iterative_sort_with_cache_and_deltas unconf cf ac version ext override
      = Some (final, deltas).
Proof.
  intros Hwf Hv Hext. eapply delta_agrees; try done; by destruct_or! Hv; subst.
Qed.
End resolve_claims.

(** ** On the sample room *)

Definition sample_unconflicted : gmap (string * string) string :=
  list_to_map [((M_ROOM_CREATE, ""), "$create"); ((M_ROOM_MEMBER, "@a:x"), "$join_a");
               ((M_ROOM_POWER_LEVELS, ""), "$power")].
Definition sample_context : gmap string (LeanEvent string value) :=
  list_to_map ((λ e, (event_id e, e)) <$> [Sample.create; Sample.join_a; Sample.power]).
Definition sample_conflicted : gmap string (LeanEvent string value) :=
  list_to_map ((λ e, (event_id e, e)) <$>
    [Sample.rules; Sample.join "@c:x"; Sample.join "@d:x"; Sample.new_power]).

Lemma sample_inputs_wf : inputs_wf V2 sample_conflicted sample_context.
Proof.
  apply inputs_wf_disjoint; apply (bool_decide_eq_true_1 _); vm_compute; reflexivity.
Qed.

Lemma resolution_total_traced_witness :
  ∃ final cache' mc', resolve_iterative_sort_with_all_caches (Ho:=order_forward) sample_unconflicted
      sample_conflicted sample_context V2 None ∅ ∅ = Some (final, cache', mc')
    ∧ ∀ k id, sample_unconflicted !! k = Some id → final !! k = Some id.
Proof.
  destruct (resolution_total_traced (H:=string_event_id) (Ho:=order_forward) sample_unconflicted
    sample_conflicted sample_context V2 None ∅ ∅ sample_inputs_wf)
    as (final & c & mc & Hr & Hk & _); [done|intros k v; by rewrite lookup_empty|].
  exists final, c, mc. split; [exact Hr|exact Hk].
Defined.

Lemma resolution_deterministic_witness :
  resolve_iterative_sort_with_all_caches (Ho:=order_forward) sample_unconflicted
      sample_conflicted sample_context V2 None ∅ ∅
  = resolve_iterative_sort_with_all_caches (Ho:=order_backward) sample_unconflicted
      sample_conflicted sample_context V2 None ∅ ∅.
Proof.
  apply (resolution_deterministic (H:=string_event_id)); [apply sample_inputs_wf|].
  intros k v; by rewrite lookup_empty.
Defined.

Lemma deltas_same_state_witness :
  ∃ final deltas,
    resolve_iterative_sort_with_cache (Ho:=order_forward) sample_unconflicted sample_conflicted
      sample_context V2 None None = Some final
    ∧ resolve_iterative_sort_with_cache_and_deltas (Ho:=order_forward) sample_unconflicted
        sample_conflicted sample_context V2 None None = Some (final, deltas).
Proof.
  apply (deltas_same_state (H:=string_event_id)); [apply sample_inputs_wf|right; left; reflexivity|discriminate].
Defined.

(** ** Ban screening in the two resolver variants

    From version 2.1.1 on the resolver drops the non-power events of banned
    senders.  The plain variant screens once, after the power phase; the
    delta-reporting variant screens each event against the state being
    resolved.  A concrete room on which the two return different states. *)

Module BanEvasion.
Abbreviation event := (LeanEvent string value).

Definition create : event :=
  Sample.ev "$create" M_ROOM_CREATE (Some "") "@a:x" (Object [("room_version", VString "12.1")]) [] [] 1.
Definition join_a : event :=
  Sample.ev "$join_a" M_ROOM_MEMBER (Some "@a:x") "@a:x" (Sample.membership "join") ["$create"] [] 2.
Definition power : event :=
  Sample.ev "$power" M_ROOM_POWER_LEVELS (Some "") "@a:x" (Object [("state_default", Number "0")])
    ["$join_a"] ["$join_a"] 3.
(** [@m:x] is banned in the state every fork agrees on. *)
Definition ban : event :=
  Sample.ev "$ban" M_ROOM_MEMBER (Some "@m:x") "@a:x" (Sample.membership "ban")
    ["$power"] ["$join_a"; "$power"] 4.
(** On another branch [@m:x] was invited, joined, and set the topic. *)
Definition invite : event :=
  Sample.ev "$invite" M_ROOM_MEMBER (Some "@m:x") "@a:x" (Sample.membership "invite")
    ["$power"] ["$join_a"; "$power"] 5.
Definition join : event :=
  Sample.ev "$join" M_ROOM_MEMBER (Some "@m:x") "@m:x" (Sample.membership "join")
    ["$invite"] ["$invite"; "$power"] 6.
Definition topic : event :=
  Sample.ev "$topic" "m.room.topic" (Some "") "@m:x" (Object [("topic", VString "mine")])
    ["$join"] ["$join"; "$power"] 7.

Definition by_id (l : list event) : gmap string event := list_to_map ((λ e, (event_id e, e)) <$> l).

Definition unconflicted : gmap (string * string) string :=
  list_to_map [((M_ROOM_CREATE, ""), "$create"); ((M_ROOM_POWER_LEVELS, ""), "$power");
               ((M_ROOM_MEMBER, "@a:x"), "$join_a"); ((M_ROOM_MEMBER, "@m:x"), "$ban")].
Definition conflicted : gmap string event := by_id [invite; join; topic].
Definition auth_context : gmap string event := by_id [create; join_a; power; ban].

(** The two variants of the version 2.1.1 resolver disagree: with the same
    inputs, the plain one drops the topic set by a user who is banned in the
    unconflicted state, and the delta-reporting one accepts it, because an
    earlier accepted invite hides the ban from its screening. *)
Theorem screening_variants_differ (o := order_forward) :
  (λ s : gmap (string * string) string, s !! ("m.room.topic", ""))
    <$> resolve_iterative_sort (Ho:=o) unconflicted conflicted auth_context V2_1_1 = Some None
  ∧ (λ s : gmap (string * string) string * _, s.1 !! ("m.room.topic", ""))
    <$> resolve_iterative_sort_with_deltas (Ho:=o) unconflicted conflicted auth_context V2_1_1
    = Some (Some "$topic")
  ∧ unconflicted !! (M_ROOM_MEMBER, "@m:x") = Some "$ban".
Proof. vm_compute. split_and!; reflexivity. Qed.
End BanEvasion.
