(* ===== verification/Deltas.v ===== *)
(** * State deltas and compacted checkpoint chains ([src/src/state/delta.rs])

    The difference of two state maps and its application, the checkpoint chain
    with a full snapshot every [max_hops] states, and the reconstruction of one
    state or of a batch of states from the chain. *)
From stdpp Require Import prelude gmap strings sorting.
From Stdlib Require String.
From S2P Require Import Prelude EventTypes Json Events.

Section deltas.
Context {Id : Type} `{EventId Id}.
Abbreviation key := (string * string)%type.
Abbreviation shared_state := (gmap key Id).
Implicit Types (parent current base : shared_state).

(** Iteration of a [PersistentOrdMap], in key order. *)
Definition ord_entries (s : shared_state) : list (key * Id) :=
  sort_by (cmp_on fst (cmp_pair String.compare String.compare)) (map_to_list s).

Record StateDelta : Type := mkStateDelta {
  delta_event_type : string;
  delta_state_key : string;
  delta_event_id : option Id
}.

Definition delta_of (k : key) (id : option Id) : StateDelta := mkStateDelta k.1 k.2 id.

Definition compute_state_delta parent current : list StateDelta :=
  omap (λ kv, match parent !! kv.1 with
              | Some p => if decide (p = kv.2) then None else Some (delta_of kv.1 (Some kv.2))
              | None => Some (delta_of kv.1 (Some kv.2))
              end) (ord_entries current)
  ++ omap (λ kv, match current !! kv.1 with
                 | Some _ => None
                 | None => Some (delta_of kv.1 None)
                 end) (ord_entries parent).

Definition delta_key (d : StateDelta) : key :=
  key_of (EventType_from (delta_event_type d)) (delta_state_key d).

Definition apply_delta_to_state (state : shared_state) (d : StateDelta) : shared_state :=
  match delta_event_id d with
  | Some id => <[delta_key d := id]> state
  | None => delete (delta_key d) state
  end.

Definition apply_state_delta base (deltas : list StateDelta) : shared_state :=
  foldl apply_delta_to_state base deltas.

(** ** Checkpoint chains *)

Definition MAX_DELTA_CHAIN_HOPS : N := 100.

Section chains.
(** [compute_state_hash], a 32-byte digest of the state. *)
Context {Hash : Type} `{EqDecision Hash} (compute_state_hash : shared_state → Hash).

Record CompactedCheckpoint : Type := mkCheckpoint {
  state_hash : Hash;
  parent_hash : option Hash;
  cp_event_id : Id;
  cp_deltas : list StateDelta;
  snapshot : option shared_state
}.

(** The loop over the resolved states: previous state and hash, hops since the
    last snapshot. *)
Fixpoint delta_chain (max_hops : N) (prev_state : option shared_state) (prev_hash : option Hash)
    (hops_since_snapshot : N) (resolved_states : list (Id * shared_state)) : list CompactedCheckpoint :=
  match resolved_states with
  | [] => []
  | (event_id, state) :: rest =>
      let hash := compute_state_hash state in
      let current_hops := usize_saturating_add hops_since_snapshot 1 in
      let '(deltas, snap, recorded_hops) :=
        match prev_state with
        | Some base =>
            if (current_hops <? max_hops)%N
            then (compute_state_delta base state, None, current_hops)
            else ([], Some state, 0%N)
        | None => ([], Some state, 0%N)
        end in
      mkCheckpoint hash prev_hash event_id deltas snap
        :: delta_chain max_hops (Some state) (Some hash) recorded_hops rest
  end.

Definition compute_compacted_delta_chain_from_resolved (resolved_states : list (Id * shared_state))
    (max_hops : option N) : list CompactedCheckpoint :=
  delta_chain (default MAX_DELTA_CHAIN_HOPS max_hops) None None 0 resolved_states.

(** ** Reconstruction *)

(** [Iterator::rposition]: the last index whose element satisfies [p]. *)
Fixpoint rposition {A} (p : A → bool) (l : list A) : option nat :=
  match l with
  | [] => None
  | x :: l' =>
      match rposition p l' with
      | Some i => Some (S i)
      | None => if p x then Some 0 else None
      end
  end.

Definition hash_is (h : Hash) (cp : CompactedCheckpoint) : bool := bool_decide (state_hash cp = h).

(** The parent checkpoint: the immediate predecessor when its hash matches,
    otherwise the last earlier checkpoint whose hash does. *)
Definition find_parent_idx (checkpoints : list CompactedCheckpoint) (idx : nat) (h : Hash) : option nat :=
  let scan := rposition (hash_is h) (take idx checkpoints) in
  match idx with
  | O => scan
  | S pi =>
      match checkpoints !! pi with
      | Some cp => if hash_is h cp then Some pi else scan
      | None => scan
      end
  end.

(** The backward walk; [delta_stack] has the last pushed deltas first.  The
    outer [option] is the fuel, the inner one the code's. *)
Fixpoint reconstruct_loop (fuel : nat) (checkpoints : list CompactedCheckpoint) (current_idx : nat)
    (delta_stack : list (list StateDelta)) : option (option shared_state) :=
  match fuel with
  | O => None
  | S n =>
      match checkpoints !! current_idx with
      | None => None
      | Some cp =>
          match snapshot cp with
          | Some s => Some (Some (foldl apply_state_delta s delta_stack))
          | None =>
              match parent_hash cp with
              | None => Some None
              | Some h =>
                  match find_parent_idx checkpoints current_idx h with
                  | None => Some None
                  | Some p => reconstruct_loop n checkpoints p (cp_deltas cp :: delta_stack)
                  end
              end
          end
      end
  end.

Definition reconstruct_state_at (checkpoints : list CompactedCheckpoint) (target_index : nat)
    : option (option shared_state) :=
  if length checkpoints <=? target_index then Some None
  else reconstruct_loop (S target_index) checkpoints target_index [].

Definition reconstruct_state_at_by_event_id (checkpoints : list CompactedCheckpoint) (event_id : Id)
    : option (option shared_state) :=
  match list_find (λ cp, cp_event_id cp = event_id) checkpoints with
  | None => Some None
  | Some (idx, _) => reconstruct_state_at checkpoints idx
  end.

(** ** Batch reconstruction *)

(** The parent a checkpoint without snapshot needs. *)
Definition needed_parent (checkpoints : list CompactedCheckpoint) (idx : nat) : option nat :=
  match checkpoints !! idx with
  | Some cp =>
      match snapshot cp, parent_hash cp with
      | None, Some h => find_parent_idx checkpoints idx h
      | _, _ => None
      end
  | None => None
  end.

(** The backward walk over a stack of indices ([Vec::pop], [Vec::push]). *)
Fixpoint required_loop (fuel : nat) (checkpoints : list CompactedCheckpoint) (stack : list nat)
    (required_indices : gset nat) : option (gset nat) :=
  match stack with
  | [] => Some required_indices
  | idx :: stack' =>
      match fuel with
      | O => None
      | S n =>
          if decide (idx ∈ required_indices) then required_loop n checkpoints stack' required_indices
          else
            let required' := {[idx]} ∪ required_indices in
            match needed_parent checkpoints idx with
            | Some p => required_loop n checkpoints (p :: stack') required'
            | None => required_loop n checkpoints stack' required'
            end
      end
  end.

(** One required index of the forward pass: the states known so far and the results. *)
Definition batch_step (checkpoints : list CompactedCheckpoint) (targets : list nat)
    (s : gmap nat shared_state * gmap nat shared_state) (idx : nat)
    : gmap nat shared_state * gmap nat shared_state :=
  let '(known_states, results) := s in
  let keep state := (<[idx := state]> known_states,
                     if decide (idx ∈ targets) then <[idx := state]> results else results) in
  match checkpoints !! idx with
  | None => s
  | Some cp =>
      match snapshot cp with
      | Some snap => keep snap
      | None =>
          match parent_hash cp with
          | None => s
          | Some h =>
              match find_parent_idx checkpoints idx h with
              | None => s
              | Some p =>
                  match known_states !! p with
                  | None => s
                  | Some parent_state => keep (apply_state_delta parent_state (cp_deltas cp))
                  end
              end
          end
      end
  end.

(** [sort_unstable] and [dedup]: the distinct indices in increasing order. *)
Definition sorted_indices (l : list nat) : list nat := merge_sort (≤) (remove_dups l).

Definition reconstruct_state_batch (checkpoints : list CompactedCheckpoint) (target_indices : list nat)
    : option (gmap nat shared_state) :=
  let sorted_targets := sorted_indices (filter (λ i, i < length checkpoints) target_indices) in
  match sorted_targets with
  | [] => Some ∅
  | _ =>
      required ← required_loop (length sorted_targets + length checkpoints) checkpoints
                   (reverse sorted_targets) ∅;
      Some (foldl (batch_step checkpoints sorted_targets) (∅, ∅) (merge_sort (≤) (elements required))).2
  end.
End chains.
End deltas.
Arguments StateDelta Id : clear implicits.

(** ** Deltas: applying the difference gives the new state *)

Section delta_props.
Context {Id : Type} `{EventId Id}.
Abbreviation key := (string * string)%type.
Abbreviation shared_state := (gmap key Id).

Lemma delta_key_of (k : key) (id : option Id) : delta_key (delta_of k id) = k.
Proof. destruct k. unfold delta_key, key_of. simpl. by rewrite as_str_from. Qed.

Lemma elem_of_ord_entries (s : shared_state) k id : (k, id) ∈ ord_entries s ↔ s !! k = Some id.
Proof. unfold ord_entries. rewrite sort_by_perm. apply elem_of_map_to_list. Qed.

(** When the deltas of key [k] agree on the value [v], the result has it. *)
Lemma apply_deltas_lookup (l : list (StateDelta Id)) (base : shared_state) k v :
  (∀ d, d ∈ l → delta_key d = k → delta_event_id d = v) →
  (∃ d, d ∈ l ∧ delta_key d = k) ∨ base !! k = v →
  apply_state_delta base l !! k = v.
Proof.
  unfold apply_state_delta. revert base. induction l as [|d l IH]; intros base Hl Hk; simpl.
  { destruct Hk as [(d & ?%elem_of_nil & _)|?]; done. }
  apply IH; [set_solver|].
  destruct (decide (delta_key d = k)) as [Hd|Hd].
  - right. unfold apply_delta_to_state. rewrite <-(Hl d), Hd by (done || left).
    destruct (delta_event_id d); [apply lookup_insert_eq|apply lookup_delete_eq].
  - destruct Hk as [(d' & [->|?]%elem_of_cons & ?)|Hb]; [done|by left; eauto|]. right.
    unfold apply_delta_to_state.
    destruct (delta_event_id d); [rewrite lookup_insert_ne|rewrite lookup_delete_ne]; done.
Qed.

Lemma elem_of_state_delta (parent current : shared_state) d :
  d ∈ compute_state_delta parent current ↔
  (∃ k id, current !! k = Some id ∧ parent !! k ≠ Some id ∧ d = delta_of k (Some id))
  ∨ (∃ k, is_Some (parent !! k) ∧ current !! k = None ∧ d = delta_of k None).
Proof.
  unfold compute_state_delta. rewrite elem_of_app, !list_elem_of_omap. f_equiv.
  - split.
    + intros ([k id] & Hk%elem_of_ord_entries & Hd). simpl in Hd. exists k, id. split; [done|].
      destruct (parent !! k); [destruct (decide _)|]; simplify_eq; split; congruence.
    + intros (k & id & Hc & Hp & ->). exists (k, id). split; [by apply elem_of_ord_entries|]. simpl.
      destruct (parent !! k); [rewrite decide_False by congruence|]; done.
  - split.
    + intros ([k id] & Hk%elem_of_ord_entries & Hd). simpl in Hd. exists k.
      destruct (current !! k) eqn:E; simplify_eq. by rewrite Hk.
    + intros (k & [id Hp] & Hc & ->). exists (k, id). split; [by apply elem_of_ord_entries|].
      simpl. by rewrite Hc.
Qed.

Lemma apply_compute_delta (parent current : shared_state) :
  apply_state_delta parent (compute_state_delta parent current) = current.
Proof.
  apply map_eq. intros k. apply apply_deltas_lookup.
  - intros d [(k' & id & Hc & _ & ->)|(k' & _ & Hc & ->)]%elem_of_state_delta;
      rewrite delta_key_of; intros ->; simpl; congruence.
  - destruct (decide (parent !! k = current !! k)) as [Heq|Hne]; [by right|left].
    destruct (current !! k) as [id|] eqn:Ec.
    + exists (delta_of k (Some id)). rewrite delta_key_of, elem_of_state_delta. split; [|done].
      left. exists k, id. by split_and!.
    + exists (delta_of k None). rewrite delta_key_of, elem_of_state_delta. split; [|done].
      right. exists k. split_and!; [|done..]. by destruct (parent !! k).
Qed.

Lemma compute_delta_nil (parent current : shared_state) :
  compute_state_delta parent current = [] ↔ parent = current.
Proof.
  split.
  - intros E. rewrite <-(apply_compute_delta parent current), E. done.
  - intros ->. destruct (compute_state_delta current current) as [|d l] eqn:E; [done|].
    assert (d ∈ compute_state_delta current current) as Hd by (rewrite E; left).
    apply elem_of_state_delta in Hd as [(k & id & ? & ? & _)|(k & [??] & ? & _)]; congruence.
Qed.

(** Applying the delta of two states to the first gives the second, and the
    delta is empty exactly when the states are equal. *)
Theorem state_delta_roundtrip (parent current : shared_state) :
  apply_state_delta parent (compute_state_delta parent current) = current
  ∧ (compute_state_delta parent current = [] ↔ parent = current).
Proof. split; [apply apply_compute_delta|apply compute_delta_nil]. Qed.
End delta_props.

(** ** Reconstruction *)

Section reconstruct.
Context {Id : Type} `{EventId Id} {Hash : Type} `{EqDecision Hash}.
Abbreviation key := (string * string)%type.
Abbreviation shared_state := (gmap key Id).
Context (cps : list (CompactedCheckpoint (Id:=Id) (Hash:=Hash))).

Lemma rposition_lt {A} (p : A → bool) (l : list A) i : rposition p l = Some i → i < length l.
Proof.
  revert i. induction l as [|x l IH]; intros i; simpl; [done|].
  destruct (rposition p l) as [j|]; [intros [= <-]; specialize (IH j eq_refl); lia|].
  destruct (p x); [intros [= <-]; lia|done].
Qed.

Lemma find_parent_lt idx h p : find_parent_idx cps idx h = Some p → p < idx ∧ p < length cps.
Proof.
  unfold find_parent_idx.
  assert (rposition (hash_is h) (take idx cps) = Some p → p < idx ∧ p < length cps) as Hs.
  { intros Hp%rposition_lt. rewrite length_take in Hp. lia. }
  destruct idx as [|pi]; [done|]. destruct (cps !! pi) eqn:E; [|done].
  destruct (hash_is h c); [|done]. intros [= ->]. apply lookup_lt_Some in E. lia.
Qed.

(** What the checkpoint at an index stands for: its snapshot, or its deltas
    applied to what its parent stands for; nothing when the chain is broken. *)
Inductive rebuilds : nat → option shared_state → Prop :=
| rebuilds_snapshot i cp s : cps !! i = Some cp → snapshot cp = Some s → rebuilds i (Some s)
| rebuilds_orphan i cp :
    cps !! i = Some cp → snapshot cp = None → parent_hash cp = None → rebuilds i None
| rebuilds_broken i cp h :
    cps !! i = Some cp → snapshot cp = None → parent_hash cp = Some h →
    find_parent_idx cps i h = None → rebuilds i None
| rebuilds_delta i cp h p o :
    cps !! i = Some cp → snapshot cp = None → parent_hash cp = Some h →
    find_parent_idx cps i h = Some p → rebuilds p o →
    rebuilds i ((λ s, apply_state_delta s (cp_deltas cp)) <$> o).

Lemma rebuilds_det i o o' : rebuilds i o → rebuilds i o' → o = o'.
Proof.
  intros Hr. revert o'. induction Hr; intros o' Hr'; inversion Hr'; simplify_eq; try done.
  f_equal. by apply IHHr.
Qed.

Lemma reconstruct_loop_spec fuel idx stack :
  idx < fuel → idx < length cps →
  ∃ o, rebuilds idx o
    ∧ reconstruct_loop fuel cps idx stack = Some ((λ s, foldl apply_state_delta s stack) <$> o).
Proof.
  revert idx stack. induction fuel as [|n IH]; intros idx stack Hf Hl; [lia|]. simpl.
  destruct (lookup_lt_is_Some_2 cps idx Hl) as [cp Hcp]. rewrite Hcp.
  destruct (snapshot cp) as [s|] eqn:Es; [eexists; split; [by eapply rebuilds_snapshot|done]|].
  destruct (parent_hash cp) as [h|] eqn:Eh; [|eexists; split; [by eapply rebuilds_orphan|done]].
  destruct (find_parent_idx cps idx h) as [p|] eqn:Ep;
    [|eexists; split; [by eapply rebuilds_broken|done]].
  destruct (find_parent_lt idx h p Ep) as [Hp Hpl].
  destruct (IH p (cp_deltas cp :: stack)) as (o & Hr & ->); [lia|done|].
  eexists. split; [by eapply rebuilds_delta|]. by destruct o.
Qed.

Lemma reconstruct_rebuilds idx :
  idx < length cps → ∃ o, rebuilds idx o ∧ reconstruct_state_at cps idx = Some o.
Proof.
  intros Hl. destruct (reconstruct_loop_spec (S idx) idx [] ltac:(lia) Hl) as (o & Hr & E).
  exists o. split; [done|]. unfold reconstruct_state_at.
  destruct (Nat.leb_spec (length cps) idx); [lia|]. rewrite E. by destruct o.
Qed.

Lemma reconstruct_out idx : length cps ≤ idx → reconstruct_state_at cps idx = Some None.
Proof. intros Hl. unfold reconstruct_state_at. by destruct (Nat.leb_spec (length cps) idx); [|lia]. Qed.

(** *** The batch *)

Record required_inv (targets : list nat) (stack : list nat) (req : gset nat) : Prop := {
  req_targets i : i ∈ targets → i ∈ stack ∨ i ∈ req;
  req_bound i : i ∈ stack ∨ i ∈ req → i < length cps;
  req_closed i p : i ∈ req → needed_parent cps i = Some p → p ∈ stack ∨ p ∈ req
}.

Lemma needed_parent_lt i p : needed_parent cps i = Some p → p < i ∧ p < length cps.
Proof.
  unfold needed_parent. destruct (cps !! i) as [cp|]; [|done].
  destruct (snapshot cp), (parent_hash cp); try done. apply find_parent_lt.
Qed.

Lemma required_size (req : gset nat) : (∀ i, i ∈ req → i < length cps) → size req ≤ length cps.
Proof.
  intros Hb. transitivity (size (list_to_set (seq 0 (length cps)) : gset nat)).
  - apply subseteq_size. intros i ?%Hb. apply elem_of_list_to_set, elem_of_seq. lia.
  - rewrite size_list_to_set by apply NoDup_seq. by rewrite length_seq.
Qed.

Lemma required_loop_spec targets fuel stack req :
  required_inv targets stack req → length stack + length cps ≤ fuel + size req →
  ∃ req', required_loop fuel cps stack req = Some req' ∧ required_inv targets [] req'.
Proof.
  revert stack req. induction fuel as [|n IH]; intros [|idx stack] req HI Hf; simpl; try by eauto.
  { pose proof (required_size req) as Hs. specialize (Hs ltac:(intros; apply HI; by right)).
    simpl in Hf. lia. }
  destruct HI as [Ht Hb Hc]. destruct (decide (idx ∈ req)) as [Hin|Hnin].
  { apply IH; [|simpl in Hf; lia]. split.
    - intros i [[->|?]%elem_of_cons|?]%Ht; auto.
    - intros i [?|?]; apply Hb; [left; by right|by right].
    - intros i p Hi Hp. destruct (Hc i p Hi Hp) as [[->|?]%elem_of_cons|?]; auto. }
  assert (size ({[idx]} ∪ req) = S (size req)) as Hsz.
  { rewrite size_union by set_solver. by rewrite size_singleton. }
  destruct (needed_parent cps idx) as [p|] eqn:Ep; apply IH; simpl in *; try lia; split.
  - intros i [[->|?]%elem_of_cons|?]%Ht; set_solver.
  - intros i Hi. destruct (decide (i = p)) as [->|]; [by apply needed_parent_lt in Ep as [_ ?]|].
    apply Hb. set_solver.
  - intros i q [->%elem_of_singleton|Hi]%elem_of_union Hq; [left; assert (q = p) as -> by congruence; left|].
    destruct (Hc i q Hi Hq) as [[->|?]%elem_of_cons|?]; set_solver.
  - intros i [[->|?]%elem_of_cons|?]%Ht; set_solver.
  - intros i Hi. apply Hb. set_solver.
  - intros i q [->%elem_of_singleton|Hi]%elem_of_union Hq; [congruence|].
    destruct (Hc i q Hi Hq) as [[->|?]%elem_of_cons|?]; set_solver.
Qed.

(** After the indices [done_] of the forward pass, the known states are theirs. *)
Definition batch_inv (targets done_ : list nat) (s : gmap nat shared_state * gmap nat shared_state) : Prop :=
  (∀ i, i ∉ done_ → s.1 !! i = None ∧ s.2 !! i = None)
  ∧ (∀ i o, i ∈ done_ → rebuilds i o →
       s.1 !! i = o ∧ s.2 !! i = if decide (i ∈ targets) then o else None).

Lemma batch_step_inv targets done_ s i :
  i ∉ done_ → i < length cps → (∀ p, needed_parent cps i = Some p → p ∈ done_) →
  batch_inv targets done_ s → batch_inv targets (done_ ++ [i]) (batch_step cps targets s i).
Proof.
  intros Hi Hl Hp [Hnew Hold]. destruct s as [known results]. cbn [fst snd] in *.
  destruct (Hnew i Hi) as [Hk0 Hr0].
  assert (∀ o, rebuilds i o →
    (batch_step cps targets (known, results) i
     = match o with
       | Some st => (<[i := st]> known, if decide (i ∈ targets) then <[i := st]> results else results)
       | None => (known, results)
       end)) as Hstep.
  { intros o Hr. unfold batch_step. unfold needed_parent in Hp.
    inversion Hr as [? ? ? Hc Es|? ? Hc Es Eh|? ? h Hc Es Eh Ep|? cp h p o' Hc Es Eh Ep Hr']; simplify_eq;
      rewrite Hc, Es in Hp |- *; rewrite ?Eh in Hp |- *; rewrite ?Ep in Hp |- *; try done.
    destruct (Hold p o' (Hp p eq_refl) Hr') as [-> _]. by destruct o'. }
  destruct (reconstruct_rebuilds i Hl) as (o & Hr & _). rewrite (Hstep o Hr). split.
  - intros j [Hj Hji]%not_elem_of_app. destruct (Hnew j Hj) as [Hk Hre].
    assert (i ≠ j) by set_solver.
    destruct o; simpl; [|done]. destruct (decide (i ∈ targets)); rewrite ?lookup_insert_ne by done; done.
  - intros j o' [Hj| ->%list_elem_of_singleton]%elem_of_app Hro.
    + assert (i ≠ j) by (intros ->; done). destruct (Hold j o' Hj Hro) as [Hk Hre].
      destruct o; simpl; [|done]. destruct (decide (i ∈ targets)); rewrite ?lookup_insert_ne by done; done.
    + rewrite (rebuilds_det _ _ _ Hro Hr). clear Hro.
      destruct o; simpl; destruct (decide (i ∈ targets)); rewrite ?lookup_insert_eq; done.
Qed.

Lemma batch_fold_inv targets l done_ s :
  StronglySorted (≤) (done_ ++ l) → NoDup (done_ ++ l) →
  (∀ i, i ∈ l → i < length cps) →
  (∀ i p, i ∈ l → needed_parent cps i = Some p → p ∈ done_ ++ l) →
  batch_inv targets done_ s →
  batch_inv targets (done_ ++ l) (foldl (batch_step cps targets) s l).
Proof.
  revert done_ s. induction l as [|i l IH]; intros done_ s Hs Hnd Hb Hc HI; simpl; [by rewrite app_nil_r|].
  assert (done_ ++ i :: l = (done_ ++ [i]) ++ l) as Heq by by rewrite <-app_assoc.
  rewrite Heq in *. apply IH; try done; [set_solver|intros j p Hj; apply Hc; by right|].
  apply batch_step_inv; [|apply Hb; left| |done].
  - apply NoDup_app in Hnd as [Hnd _]. apply NoDup_app in Hnd as (_ & Hd & _). intros ?. apply (Hd i); set_solver.
  - intros p Hp. destruct (needed_parent_lt i p Hp) as [Hlt _].
    assert (p ∈ (done_ ++ [i]) ++ l) as Hin by (apply (Hc i p); [left|done]).
    rewrite <-Heq in Hs, Hin. apply elem_of_app in Hin as [?|[->|Hin]%elem_of_cons]; [done|lia|].
    apply StronglySorted_app_1_r in Hs. apply StronglySorted_inv in Hs as [_ Hf].
    rewrite Forall_forall in Hf. specialize (Hf p Hin). lia.
Qed.

Lemma elem_of_sorted_indices i l : i ∈ sorted_indices l ↔ i ∈ l.
Proof. unfold sorted_indices. rewrite merge_sort_Permutation. by rewrite elem_of_remove_dups. Qed.

Lemma reconstruct_batch_spec targets :
  ∃ m, reconstruct_state_batch cps targets = Some m
    ∧ ∀ i, ∃ o, reconstruct_state_at cps i = Some o ∧ m !! i = if decide (i ∈ targets) then o else None.
Proof.
  assert (∀ m : gmap nat shared_state,
    (∀ i o, i < length cps → rebuilds i o → m !! i = if decide (i ∈ targets) then o else None) →
    (∀ i, length cps ≤ i → m !! i = None) →
    ∀ i, ∃ o, reconstruct_state_at cps i = Some o ∧ m !! i = if decide (i ∈ targets) then o else None) as Hm.
  { intros m H1 H2 i. destruct (decide (i < length cps)) as [Hl|Hl].
    - destruct (reconstruct_rebuilds i Hl) as (o & Hr & E). eauto.
    - exists None. rewrite reconstruct_out by lia. split; [done|]. rewrite H2 by lia. by case_decide. }
  unfold reconstruct_state_batch. set (ts := sorted_indices _).
  assert (∀ i, i ∈ ts ↔ i < length cps ∧ i ∈ targets) as Hts.
  { intros i. unfold ts. by rewrite elem_of_sorted_indices, list_elem_of_filter. }
  destruct (decide (ts = [])) as [Ets|Hne].
  { rewrite Ets in *. exists ∅. split; [done|]. apply Hm; [|done].
    intros i o Hl _. rewrite decide_False; [done|]. intros ?. apply (not_elem_of_nil i), Hts. done. }
  assert (required_inv ts (reverse ts) ∅) as HI.
  { split; [intros i ?; left; by apply elem_of_reverse| |set_solver].
    intros i [Hi|Hi]; [apply elem_of_reverse, Hts in Hi; lia|set_solver]. }
  destruct (required_loop_spec ts (length ts + length cps) (reverse ts) ∅ HI) as (req & Ereq & [Ht Hb Hc]);
    [rewrite length_reverse, size_empty; lia|].
  set (order := merge_sort (≤) (elements req)).
  assert (∀ i, i ∈ order ↔ i ∈ req) as Hord.
  { intros i. unfold order. by rewrite merge_sort_Permutation, elem_of_elements. }
  destruct (batch_fold_inv ts order [] (∅, ∅)) as [Hnew Hold]; simpl.
  - apply StronglySorted_merge_sort; apply _.
  - unfold order. rewrite merge_sort_Permutation. apply NoDup_elements.
  - intros i ?%Hord. apply Hb. by right.
  - intros i p Hi%Hord Hp. apply Hord. by destruct (Hc i p Hi Hp) as [?%elem_of_nil|].
  - split; [done|]. intros i o ?%elem_of_nil. done.
  - exists (foldl (batch_step cps ts) (∅, ∅) order).2. split.
    { rewrite Ereq. simpl. by destruct ts. }
    assert (∀ i, i ∉ order → i ∉ ts) as Hnt.
    { intros i Hi Hin. apply Hi, Hord. by destruct (Ht i Hin) as [?%elem_of_nil|]. }
    apply Hm.
    + intros i o Hl Hr. destruct (decide (i ∈ order)) as [Hi|Hi].
      * destruct (Hold i o Hi Hr) as [_ ->]. do 2 case_decide; naive_solver.
      * destruct (Hnew i Hi) as [_ ->]. apply Hnt in Hi. case_decide; naive_solver.
    + intros i Hl. apply Hnew. intros Hi%Hord. specialize (Hb i ltac:(by right)). lia.
Qed.
End reconstruct.

(** ** Chains built from resolved states *)

Section built_chain.
Context {Id : Type} `{EventId Id} {Hash : Type} `{EqDecision Hash}.
Abbreviation key := (string * string)%type.
Abbreviation shared_state := (gmap key Id).
Context (hash : shared_state → Hash).

(** The checkpoint of state [s], given what comes before it. *)
Definition checkpoint_of (base : option shared_state) (ph : option Hash) (id : Id) (s : shared_state)
    (cp : CompactedCheckpoint (Id:=Id) (Hash:=Hash)) : Prop :=
  cp_event_id cp = id ∧ state_hash cp = hash s ∧ parent_hash cp = ph
  ∧ (snapshot cp = Some s
     ∨ snapshot cp = None ∧ ∃ b, base = Some b ∧ cp_deltas cp = compute_state_delta b s).

Definition prev_of (l : list (Id * shared_state)) (prev : option shared_state) (i : nat)
    : option shared_state :=
  match i with O => prev | S j => snd <$> l !! j end.

Lemma delta_chain_lookup mh l prev hops i id s :
  l !! i = Some (id, s) →
  ∃ cp, delta_chain hash mh prev (hash <$> prev) hops l !! i = Some cp
    ∧ checkpoint_of (prev_of l prev i) (hash <$> prev_of l prev i) id s cp.
Proof.
  revert prev hops i. induction l as [|[id0 s0] l IH]; intros prev hops [|i] Hi; simpl in *; simplify_eq.
  - case_match eqn:E. destruct p as [ds snap]. eexists. split; [done|]. unfold checkpoint_of. simpl.
    split_and!; [done..|]. destruct prev as [b|]; [|by simplify_eq; left].
    case_match; simplify_eq; [right; split; [done|]; by exists b|by left].
  - case_match eqn:E. destruct p as [ds snap].
    destruct (IH (Some s0) n i Hi) as (cp & Hcp & Hof). exists cp. split; [exact Hcp|].
    destruct i; simpl in *; exact Hof.
Qed.

Lemma delta_chain_length mh l prev ph hops : length (delta_chain hash mh prev ph hops l) = length l.
Proof.
  revert prev ph hops. induction l as [|[id s] l IH]; intros prev ph hops; simpl; [done|].
  case_match eqn:E. destruct p. simpl. by rewrite IH.
Qed.

Lemma built_rebuilds mh l i id s :
  l !! i = Some (id, s) → rebuilds (delta_chain hash mh None None 0 l) i (Some s).
Proof.
  revert id s. induction i as [|i IH]; intros id s Hi;
    destruct (delta_chain_lookup mh l None 0 _ id s Hi) as (cp & Hcp & _ & _ & Hph & [Hs|[Hs (b & Hb & Hd)]]);
    try (by eapply rebuilds_snapshot); simpl in *.
  destruct (l !! i) as [[id' b']|] eqn:Ei; simplify_eq/=.
  destruct (delta_chain_lookup mh l None 0 i id' b Ei) as (cp' & Hcp' & _ & Hh & _).
  rewrite <-(apply_compute_delta b s), <-Hd.
  apply (rebuilds_delta _ (S i) cp (hash b) i (Some b)); [done..| |by eapply IH].
  unfold find_parent_idx. simpl in Hcp'. rewrite Hcp'. unfold hash_is. by rewrite bool_decide_true.
Qed.

(** A snapshot lies fewer than [max_hops] steps back. *)
Lemma delta_chain_hops mh l prev ph hops i :
  (mh ≤ USIZE_MAX)%N → i < length l →
  (∃ j cp, j ≤ i ∧ delta_chain hash mh prev ph hops l !! j = Some cp ∧ is_Some (snapshot cp)
     ∧ (N.of_nat (i - j) < N.max 1 mh)%N)
  ∨ (is_Some prev ∧ hops + N.of_nat i + 1 < mh)%N.
Proof.
  intros Hmh. revert prev ph hops i. induction l as [|[id s] l IH]; intros prev ph hops i Hi; simpl in *; [lia|].
  case_match eqn:E. destruct p as [ds snap].
  assert (is_Some snap ∧ n = 0%N
          ∨ is_Some prev ∧ n = (hops + 1)%N ∧ (hops + 1 < mh)%N) as Hcase.
  { unfold usize_saturating_add in E. destruct prev; [|simplify_eq; left; eauto].
    destruct (N.ltb_spec (N.min USIZE_MAX (hops + 1)) mh); simplify_eq; [right|left; eauto].
    split; [eauto|]. lia. }
  destruct i as [|i].
  - destruct Hcase as [[Hs _]|(Hp & -> & Hlt)]; [left|right; split; [done|lia]].
    eexists 0, _. split_and!; [done|reflexivity|done|simpl; lia].
  - destruct (IH (Some s) (Some (hash s)) n i ltac:(lia)) as [(j & cp & Hj & Hcp & Hs & Hd)|[_ Hd]].
    + left. exists (S j), cp. split_and!; [lia|exact Hcp|done|]. by replace (S i - S j) with (i - j) by lia.
    + destruct Hcase as [[Hs ->]|(Hp & -> & Hlt)].
      * left. eexists 0, _. split_and!; [lia|reflexivity|done|]. rewrite Nat.sub_0_r. lia.
      * right. split; [done|]. lia.
Qed.
End built_chain.

Section delta_claims.
Context {Id : Type} `{EventId Id} {Hash : Type} `{EqDecision Hash}.
Abbreviation shared_state := (gmap (string * string) Id).

(** C30: from the chain built for a list of resolved states, whatever the hash
    function and its collisions, every state is reconstructed exactly, by index
    and, when the event ids are distinct, by event id; and a snapshot lies
    fewer than [max_hops] checkpoints back. *)
Theorem chain_reconstructs (hash : shared_state → Hash) (l : list (Id * shared_state)) max_hops i id s :
  (default MAX_DELTA_CHAIN_HOPS max_hops ≤ USIZE_MAX)%N → l !! i = Some (id, s) →
  let cps := compute_compacted_delta_chain_from_resolved hash l max_hops in
  reconstruct_state_at cps i = Some (Some s)
  ∧ (NoDup l.*1 → reconstruct_state_at_by_event_id cps id = Some (Some s))
  ∧ ∃ j cp, j ≤ i ∧ cps !! j = Some cp ∧ is_Some (snapshot cp)
      ∧ (N.of_nat (i - j) < N.max 1 (default MAX_DELTA_CHAIN_HOPS max_hops))%N.
Proof.
  intros Hmh Hi cps. pose proof (lookup_lt_Some _ _ _ Hi) as Hlt.
  assert (length cps = length l) as Hlen by apply delta_chain_length.
  assert (∀ j id' s', l !! j = Some (id', s') → reconstruct_state_at cps j = Some (Some s')) as Hat.
  { intros j id' s' Hj. destruct (reconstruct_rebuilds cps j) as (o & Hr & ->).
    { rewrite Hlen. by eapply lookup_lt_Some. }
    f_equal. eapply rebuilds_det; [exact Hr|]. by eapply built_rebuilds. }
  split_and!; [by eapply Hat| |].
  - intros Hnd. unfold reconstruct_state_at_by_event_id.
    destruct (list_find _ cps) as [[j cp]|] eqn:Ef.
    + apply list_find_Some in Ef as (Hcp & Hid & _).
      destruct (lookup_lt_is_Some_2 l j) as [[id' s'] Hj]; [rewrite <-Hlen; by eapply lookup_lt_Some|].
      destruct (delta_chain_lookup hash (default MAX_DELTA_CHAIN_HOPS max_hops) l None 0 j id' s' Hj)
        as (cp' & Hcp' & Hid' & _). unfold cps, compute_compacted_delta_chain_from_resolved in Hcp.
      simpl in Hcp'. rewrite Hcp in Hcp'. simplify_eq.
      assert (j = i) as ->.
      { eapply (NoDup_lookup l.*1); [done|rewrite list_lookup_fmap, Hj; done|].
        rewrite list_lookup_fmap, Hi. simpl. congruence. }
      by eapply Hat.
    + exfalso. destruct (delta_chain_lookup hash (default MAX_DELTA_CHAIN_HOPS max_hops) l None 0 i id s Hi)
        as (cp & Hcp & Hid & _). apply list_find_None in Ef. rewrite Forall_forall in Ef.
      apply (Ef cp); [by eapply list_elem_of_lookup_2|done].
  - destruct (delta_chain_hops hash (default MAX_DELTA_CHAIN_HOPS max_hops) l None None 0 i Hmh Hlt)
      as [Hd|[[??] _]]; [exact Hd|done].
Qed.

(** On any list of checkpoints, broken chains and hash collisions
    included, reconstruction terminates, and the batch reconstruction gives, for exactly
    the requested indices, what reconstructing each index alone gives. *)
Theorem batch_matches_single (cps : list (CompactedCheckpoint (Id:=Id) (Hash:=Hash))) targets :
  ∃ m, reconstruct_state_batch cps targets = Some m
    ∧ ∀ i, ∃ o, reconstruct_state_at cps i = Some o ∧ m !! i = if decide (i ∈ targets) then o else None.
Proof. apply reconstruct_batch_spec. Qed.
End delta_claims.

Definition sample_states : list (string * gmap (string * string) string) :=
  [("$1", {[ ("m.room.create", "") := "$c" ]});
   ("$2", {[ ("m.room.create", "") := "$c"; ("m.room.topic", "") := "$t" ]});
   ("$3", {[ ("m.room.create", "") := "$c" ]})].

Lemma chain_reconstructs_witness :
  (reconstruct_state_at
     (compute_compacted_delta_chain_from_resolved (λ _, tt) sample_states (Some 3%N)) 2)
  = Some (Some {[ ("m.room.create", "") := "$c" ]}).
Proof.
  destruct (chain_reconstructs (H:=string_event_id) (λ _, tt) sample_states (Some 3%N) 2 "$3"
    {[ ("m.room.create", "") := "$c" ]}) as [E _]; [vm_compute; discriminate|reflexivity|exact E].
Defined.
