(* ===== verification/Semilattice.v ===== *)
(** * The semilattice fold ([src/src/resolve/semilattice.rs])

    The alternative to the mainline phase: every non-power event is checked
    against the state after the power phase, and the admitted ones compete per
    key under a least-upper-bound operator.  The fold runs on worker threads
    that pull events from a shared cursor and merge their winners under a lock;
    the threads are modelled by a step relation over their interleavings. *)
From stdpp Require Import prelude gmap strings sorting.
From Stdlib Require String.
From S2P Require Import Prelude EventTypes Json Events JsonContent Auth Samples Sorting Kahn Mainline LocalAuth Iterative PowerPhase IterProps.

Section semilattice.
Context {Id C : Type} `{EventId Id} `{EventContent C}.
Abbreviation event := (LeanEvent Id C).
Abbreviation event_map := (gmap Id event).
Abbreviation key := (string * string)%type.
Abbreviation shared_state := (gmap key Id).
Abbreviation winner_map := (gmap key event).
Implicit Types (ev : event) (version : StateResVersion) (winners : winner_map).

(** ** The least upper bound *)

Definition is_semilattice_winner_better ev (current_winner : event)
    (mainline_distances : gmap Id N) (mainline_len : N) : bool :=
  let ev_pos := default mainline_len (mainline_distances !! event_id ev) in
  let winner_pos := default mainline_len (mainline_distances !! event_id current_winner) in
  if (ev_pos <? winner_pos)%N then true
  else if (winner_pos <? ev_pos)%N then false
  else if (origin_server_ts current_winner <? origin_server_ts ev)%Z then true
  else if (origin_server_ts ev <? origin_server_ts current_winner)%Z then false
  else match id_cmp (event_id ev) (event_id current_winner) with Gt => true | _ => false end.

Definition update_winner_if_better winners (k : key) ev
    (mainline_distances : gmap Id N) (mainline_len : N) : winner_map :=
  let is_better :=
    match winners !! k with
    | Some current_winner =>
        is_semilattice_winner_better ev current_winner mainline_distances mainline_len
    | None => true
    end in
  if is_better then <[k := ev]> winners else winners.

Record LatticeFoldCtx : Type := mkFoldCtx {
  fc_mainline_distances : gmap Id N;
  fc_mainline_len : N;
  fc_terminal_power_state : shared_state;
  fc_auth_context : event_map;
  fc_sort_set : event_map;
  fc_version : StateResVersion;
  fc_create_ev : option event;
  fc_conflicted_keys : gset key
}.

Definition update_ctx (ctx : LatticeFoldCtx) winners (k : key) ev : winner_map :=
  update_winner_if_better winners k ev (fc_mainline_distances ctx) (fc_mainline_len ctx).

(** One event: authenticate, then compete. *)
Definition process_lattice_event (ctx : LatticeFoldCtx) (s : winner_map * LocalAuthCache Id C) ev
    : option (winner_map * LocalAuthCache Id C) :=
  let '(winners, local_auth_cache) := s in
  '(local_auth, cache') ←! compute_local_auth ev (fc_auth_context ctx) (fc_sort_set ctx)
    local_auth_cache (fc_version ctx);
  if negb (iterative_auth_ok ev (fc_terminal_power_state ctx) (fc_auth_context ctx) (fc_sort_set ctx)
             local_auth (fc_create_ev ctx) (fc_version ctx) false)
  then Some (winners, cache')
  else
    match state_key ev with
    | None => Some (winners, cache')
    | Some sk =>
        let k := event_key ev sk in
        if negb (decides_key (fc_version ctx) (fc_conflicted_keys ctx) k) then Some (winners, cache')
        else Some (update_ctx ctx winners k ev, cache')
    end.

(** The sequential fold, the build without threads. *)
Definition fold_lattice_chunk (chunk : list event) (ctx : LatticeFoldCtx) : option winner_map :=
  '(thread_res, _) ←! run_steps (process_lattice_event ctx) (∅, LocalAuthCache_new (fc_version ctx)) chunk;
  Some thread_res.

(** ** The threaded fan-out *)

(** A worker: about to fetch an index; processing the event it fetched; out of
    work and waiting for the lock; holding the lock with entries left to
    merge; finished. *)
Inductive worker : Type :=
| Fetching (local : winner_map) (cache : LocalAuthCache Id C)
| Processing (idx : nat) (local : winner_map) (cache : LocalAuthCache Id C)
| Locking (local : winner_map)
| Merging (pending : list (key * event))
| Finished.

Record fan_out : Type := mkFanOut {
  cursor : nat;
  workers : list worker;
  shared_winners : winner_map;
  lock_holder : option nat
}.

Definition set_worker (s : fan_out) (i : nat) (w : worker) : list worker := <[i := w]> (workers s).

(** One step of one worker; the map iteration of [for (key, ev) in local] is
    any enumeration of the entries. *)
Inductive fan_step (events : list event) (ctx : LatticeFoldCtx) : fan_out → fan_out → Prop :=
| step_fetch s i local cache :
    workers s !! i = Some (Fetching local cache) → cursor s < length events →
    fan_step events ctx s
      (mkFanOut (S (cursor s)) (set_worker s i (Processing (cursor s) local cache))
        (shared_winners s) (lock_holder s))
| step_drained s i local cache :
    workers s !! i = Some (Fetching local cache) → length events ≤ cursor s →
    fan_step events ctx s
      (mkFanOut (S (cursor s)) (set_worker s i (Locking local)) (shared_winners s) (lock_holder s))
| step_process s i idx local cache ev local' cache' :
    workers s !! i = Some (Processing idx local cache) → events !! idx = Some ev →
    process_lattice_event ctx (local, cache) ev = Some (local', cache') →
    fan_step events ctx s
      (mkFanOut (cursor s) (set_worker s i (Fetching local' cache')) (shared_winners s) (lock_holder s))
| step_lock s i local pending :
    workers s !! i = Some (Locking local) → lock_holder s = None → pending ≡ₚ map_to_list local →
    fan_step events ctx s
      (mkFanOut (cursor s) (set_worker s i (Merging pending)) (shared_winners s) (Some i))
| step_merge s i k ev rest :
    workers s !! i = Some (Merging ((k, ev) :: rest)) → lock_holder s = Some i →
    fan_step events ctx s
      (mkFanOut (cursor s) (set_worker s i (Merging rest)) (update_ctx ctx (shared_winners s) k ev)
        (lock_holder s))
| step_unlock s i :
    workers s !! i = Some (Merging []) → lock_holder s = Some i →
    fan_step events ctx s
      (mkFanOut (cursor s) (set_worker s i Finished) (shared_winners s) None).

Definition fan_start (num_threads : nat) (ctx : LatticeFoldCtx) : fan_out :=
  mkFanOut 0 (replicate num_threads (Fetching ∅ (LocalAuthCache_new (fc_version ctx)))) ∅ None.

(** [std::thread::scope] returns when every worker has finished. *)
Definition fan_done (s : fan_out) : Prop := ∀ i w, workers s !! i = Some w → w = Finished.

(** The winners [compute_lattice_coordinatized_winners] can leave with threads. *)
Definition compute_lattice_coordinatized_winners (num_threads : nat) (events : list event)
    (ctx : LatticeFoldCtx) (key_winners : winner_map) : Prop :=
  ∃ s, rtc (fan_step events ctx) (fan_start num_threads ctx) s ∧ fan_done s
    ∧ key_winners = shared_winners s.

(** ** The resolver *)

(** Everything up to the fold: the state after the power phase, the events to
    fold and the context; the versions below 2.1 only. *)
Definition lattice_phase `{HashOrder} (unconflicted_state : shared_state)
    (conflicted_events auth_context : event_map) version (conflicted_keys : gset key)
    : option (shared_state * list event * LatticeFoldCtx) :=
  let original_conflicted_keys := prepare_conflicted_and_keys conflicted_events in
  let resolved := get_initial_resolved_state unconflicted_state version in
  '(sort_context, power_events, non_power_events, create_ev) ←!
    execute_power_phase unconflicted_state conflicted_events auth_context
      original_conflicted_keys version;
  '(resolved, _) ←!
    run_power_phase_iterative_checks resolved power_events sort_context auth_context
      conflicted_events version (LocalAuthCache_new version) create_ev conflicted_keys;
  mainline ←! build_mainline sort_context version resolved;
  let target_events := hm_values non_power_events in
  mainline_distances ←! compute_closest_mainline_positions sort_context version target_events mainline;
  Some (resolved, target_events,
        mkFoldCtx mainline_distances (N.of_nat (length mainline)) resolved auth_context
          conflicted_events version create_ev conflicted_keys).

(** The final state: unconflicted entries, then winners, then the power phase's. *)
Definition merge_winners `{HashOrder} (unconflicted_state resolved : shared_state) (key_winners : winner_map)
    : shared_state :=
  let insert_all (final : shared_state) l := foldl (λ f kv, <[kv.1 := kv.2]> f) final l in
  let final_resolved := insert_all unconflicted_state (map_to_list resolved) in
  let final_resolved := insert_all final_resolved ((λ kv, (kv.1, event_id kv.2)) <$> hm_iter key_winners) in
  insert_all final_resolved (map_to_list unconflicted_state).

(** With the sequential fold. *)
Definition resolve_semilattice_fold_with_conflicted_keys `{HashOrder} (unconflicted_state : shared_state)
    (conflicted_events auth_context : event_map) version (conflicted_keys : gset key)
    : option shared_state :=
  if is_v2_1_plus version then
    resolve_iterative_sort_with_conflicted_keys unconflicted_state conflicted_events auth_context
      version conflicted_keys
  else
    '(resolved, target_events, ctx) ←!
      lattice_phase unconflicted_state conflicted_events auth_context version conflicted_keys;
    key_winners ←! fold_lattice_chunk target_events ctx;
    Some (merge_winners unconflicted_state resolved key_winners).

Definition resolve_semilattice_fold `{HashOrder} (unconflicted_state : shared_state)
    (conflicted_events auth_context : event_map) version : option shared_state :=
  resolve_semilattice_fold_with_conflicted_keys unconflicted_state conflicted_events auth_context
    version (derive_all_conflicted_keys conflicted_events).

(** With threads: a result some schedule of the workers produces. *)
Definition resolves_threaded `{HashOrder} (num_threads : nat) (unconflicted_state : shared_state)
    (conflicted_events auth_context : event_map) version (conflicted_keys : gset key)
    (final : shared_state) : Prop :=
  if is_v2_1_plus version then
    resolve_iterative_sort_with_conflicted_keys unconflicted_state conflicted_events auth_context
      version conflicted_keys = Some final
  else
    ∃ resolved target_events ctx key_winners,
      lattice_phase unconflicted_state conflicted_events auth_context version conflicted_keys
        = Some (resolved, target_events, ctx)
      ∧ compute_lattice_coordinatized_winners num_threads target_events ctx key_winners
      ∧ final = merge_winners unconflicted_state resolved key_winners.
End semilattice.
Arguments LatticeFoldCtx Id C {_}.
Arguments worker Id C {_}.
Arguments fan_out Id C {_}.
