(* ===== verification/SemilatticeProps.v ===== *)
(** * Properties of the semilattice fold

    Whatever the number of threads and their interleaving, the fan-out
    terminates with the winners of the sequential fold: per key, the greatest
    admitted event. *)
From stdpp Require Import prelude gmap strings sorting.
From Stdlib Require String.
From S2P Require Import Prelude EventTypes Json Events JsonContent Auth Samples AuthProps Sorting Kahn Mainline LocalAuth Iterative PowerPhase IterProps Semilattice.

Lemma omap_length_le {A B} (f : A → option B) (l : list A) : length (omap f l) ≤ length l.
Proof.
  induction l as [|x l IH]; [done|]. simpl. destruct (f x); simpl; [by apply le_n_S|by apply le_S].
Qed.

(** ** The least upper bound *)

Section lub.
Context {Id C : Type} `{EventId Id} `{EventContent C}.
Abbreviation event := (LeanEvent Id C).
Abbreviation key := (string * string)%type.
Context (dist : gmap Id N) (len : N).

Definition lub_key (e : event) : N * Z * Id :=
  mainline_sort_key (e, default len (dist !! event_id e)).
(** [a] does not beat [b]; the order of the mainline sort. *)
Definition lub_le (a b : event) : Prop := cmp_le (cmp_on lub_key mainline_key_cmp) a b.

Lemma better_spec e w : is_semilattice_winner_better e w dist len = true ↔ ¬ lub_le e w.
Proof.
  unfold lub_le, cmp_le, is_semilattice_winner_better, cmp_on, lub_key, mainline_sort_key, mainline_key_cmp,
    cmp_pair, cmp_rev, then_with. simpl.
  set (pe := default len (dist !! event_id e)). set (pw := default len (dist !! event_id w)).
  destruct (N.ltb_spec pe pw), (N.ltb_spec pw pe), (N.compare_spec pw pe),
    (Z.ltb_spec (origin_server_ts w) (origin_server_ts e)),
    (Z.ltb_spec (origin_server_ts e) (origin_server_ts w)),
    (Z.compare_spec (origin_server_ts e) (origin_server_ts w)); try lia;
    simpl; try (split; [|done]; congruence); try (by split; [done|]; intros []); try (by split; auto);
    destruct (id_cmp _ _); naive_solver.
Qed.

Lemma lub_le_refl e : lub_le e e.
Proof. unfold lub_le, cmp_le, cmp_on. by rewrite (cmp_refl mainline_key_cmp). Qed.

Lemma lub_le_total a b : lub_le a b ∨ lub_le b a.
Proof. apply (cmp_le_total mainline_key_cmp). Qed.

Lemma lub_le_trans a b c : lub_le a b → lub_le b c → lub_le a c.
Proof. apply (cmp_on_le_trans lub_key mainline_key_cmp). Qed.

Lemma lub_le_antisym a b : lub_le a b → lub_le b a → event_id a = event_id b.
Proof.
  intros H1 H2. assert (lub_key a = lub_key b) as [= _ _ ?]; [|done].
  by apply (cmp_le_antisym mainline_key_cmp).
Qed.

(** *** Winners of a set of candidates *)

Context (U : list (key * event)).
Hypothesis U_inj : ∀ k e e', (k, e) ∈ U → (k, e') ∈ U → event_id e = event_id e' → e = e'.

Definition winner_of (k : key) (e : event) : Prop :=
  (k, e) ∈ U ∧ ∀ e', (k, e') ∈ U → lub_le e' e.
Definition within (w : gmap key event) : Prop := ∀ k e, w !! k = Some e → (k, e) ∈ U.

Lemma winner_exists k e0 : (k, e0) ∈ U → ∃ e, winner_of k e.
Proof.
  unfold winner_of. clear U_inj. revert e0. induction U as [|[k1 e1] l IH]; intros e0 Hin0; [by apply elem_of_nil in Hin0|].
  destruct (decide (k1 = k)) as [->|Hne]; last first.
  { apply elem_of_cons in Hin0 as [?|Hin0]; [simplify_eq|]. destruct (IH e0 Hin0) as (e & He & Hm).
    exists e. split; [by right|]. intros e' [?|?]%elem_of_cons; [simplify_eq|by apply Hm]. }
  destruct (decide (Exists (λ p, p.1 = k) l)) as [Hex|Hnex].
  - apply Exists_exists in Hex as ([k' e'] & Hin & Hk). simpl in Hk. subst k'.
    destruct (IH e' Hin) as (e & He & Hm). destruct (lub_le_total e1 e) as [Hle|Hle].
    + exists e. split; [by right|]. intros x [?|?]%elem_of_cons; [by simplify_eq|by apply Hm].
    + exists e1. split; [left|]. intros x [?|Hx]%elem_of_cons; [simplify_eq; apply lub_le_refl|].
      eapply lub_le_trans; [by apply Hm|done].
  - exists e1. split; [left|]. intros x [?|Hx]%elem_of_cons; [simplify_eq; apply lub_le_refl|].
    destruct Hnex. apply Exists_exists. by exists (k, x).
Qed.

Lemma winner_unique k e e' : winner_of k e → winner_of k e' → e = e'.
Proof. intros [H1 M1] [H2 M2]. eapply U_inj; [done..|]. apply lub_le_antisym; auto. Qed.

Lemma update_within w k ev :
  within w → (k, ev) ∈ U → within (update_winner_if_better w k ev dist len).
Proof.
  intros Hw Hin k' e. unfold update_winner_if_better. case_match; [|apply Hw].
  intros [[<- <-]|[_ ?]]%lookup_insert_Some; [done|by apply Hw].
Qed.

(** A winner is never lost. *)
Lemma update_keeps w k0 ev k e :
  within w → (k0, ev) ∈ U → winner_of k e → (k, e) = (k0, ev) ∨ w !! k = Some e →
  update_winner_if_better w k0 ev dist len !! k = Some e.
Proof.
  intros Hw Hin Hwin Hor. unfold update_winner_if_better.
  destruct (w !! k0) as [c|] eqn:Ec.
  - destruct (is_semilattice_winner_better ev c dist len) eqn:Eb.
    + apply better_spec in Eb. destruct (decide (k = k0)) as [->|Hne].
      * rewrite lookup_insert_eq. destruct Hor as [?|Hc]; [by simplify_eq|].
        simplify_eq. destruct Eb. by apply Hwin.
      * rewrite lookup_insert_ne by done. destruct Hor; [by simplify_eq|done].
    + destruct Hor as [?|?]; [simplify_eq|done]. rewrite Ec. f_equal.
      apply (U_inj k0); [by apply Hw|done|]. apply lub_le_antisym; [by apply Hwin, Hw|].
      destruct (lub_le_total ev c) as [|Hle]; [done|].
      destruct (decide (is_semilattice_winner_better ev c dist len = true)) as [?|Hb]; [congruence|].
      rewrite better_spec in Hb. unfold lub_le, cmp_le in *. destruct (cmp_on _ _ ev c); naive_solver.
  - destruct Hor as [?|?]; [simplify_eq; by rewrite lookup_insert_eq|].
    rewrite lookup_insert_ne; [done|congruence].
Qed.

(** A map within the candidates that has all winners is the map of winners. *)
Lemma winners_complete w :
  within w → (∀ k e, winner_of k e → w !! k = Some e) → ∀ k e, w !! k = Some e ↔ winner_of k e.
Proof.
  intros Hw Hc k e. split; [|apply Hc]. intros Hk. destruct (winner_exists k e) as (e' & He'); [by apply Hw|].
  assert (e = e') as -> by (apply Hc in He' as ?; congruence). done.
Qed.
End lub.

(** ** Folding the candidates *)

Section fold.
Context {Id C : Type} `{EventId Id} `{EventContent C}.
Abbreviation event := (LeanEvent Id C).
Abbreviation key := (string * string)%type.
Context (ctx : LatticeFoldCtx Id C) (events : list event).
Abbreviation cf := (fc_sort_set ctx).
Abbreviation ac := (fc_auth_context ctx).
Abbreviation version := (fc_version ctx).
Hypothesis Hwf : inputs_wf version cf ac.
Hypothesis Hdirect : transitive_auth version = false.
Hypothesis Hknown : ∀ ev, ev ∈ events → known cf ac ev.

(** The key an event competes for, when it is admitted. *)
Definition cand (ev : event) : option (key * event) :=
  if iterative_auth_ok ev (fc_terminal_power_state ctx) ac cf
       (entries_events (direct_local_auth ac cf ev)) (fc_create_ev ctx) version false
  then match state_key ev with
       | Some sk =>
           if decides_key version (fc_conflicted_keys ctx) (event_key ev sk)
           then Some (event_key ev sk, ev) else None
       | None => None
       end
  else None.

Definition compete (w : gmap key event) (ev : event) : gmap key event :=
  match cand ev with Some (k, e) => update_ctx ctx w k e | None => w end.

Lemma process_cand w cache ev :
  known cf ac ev → direct_cache cf ac cache →
  ∃ cache', direct_cache cf ac cache'
    ∧ process_lattice_event ctx (w, cache) ev = Some (compete w ev, cache').
Proof.
  intros Hk Hc.
  destruct (event_auth_ok_direct cf ac version Hwf Hdirect ev (fc_terminal_power_state ctx) cache
    (fc_create_ev ctx) false Hk Hc) as (cache' & Hc' & E).
  exists cache'. split; [done|]. unfold process_lattice_event, compete, cand. unfold event_auth_ok in E.
  destruct (compute_local_auth _ _ _ _ _) as [[la c]|]; [|discriminate E].
  cbv iota beta in E |- *. apply (inj Some), pair_equal_spec in E as [-> ->].
  destruct (iterative_auth_ok _ _ _ _ _ _ _ _); cbn [negb]; [|done].
  destruct (state_key ev) as [sk|]; [|done]. by destruct (decides_key _ _ _).
Qed.

Definition candidates : list (key * event) := omap cand events.

Lemma cand_event ev k e : cand ev = Some (k, e) → e = ev.
Proof. unfold cand. intros. repeat case_match; by simplify_eq. Qed.

Lemma elem_of_candidates k e : (k, e) ∈ candidates ↔ e ∈ events ∧ cand e = Some (k, e).
Proof.
  unfold candidates. rewrite list_elem_of_omap. split.
  - intros (ev & Hin & Hc). by pose proof (cand_event _ _ _ Hc) as ->.
  - intros [??]. by exists e.
Qed.

Lemma candidates_inj k e e' :
  (k, e) ∈ candidates → (k, e') ∈ candidates → event_id e = event_id e' → e = e'.
Proof.
  intros [He _]%elem_of_candidates [He' _]%elem_of_candidates. apply (known_unique cf ac version Hwf); auto.
Qed.

Abbreviation wins := (winner_of (fc_mainline_distances ctx) (fc_mainline_len ctx) candidates).
Abbreviation inside := (within candidates).

Lemma compete_inside w ev : ev ∈ events → inside w → inside (compete w ev).
Proof.
  intros Hev Hw. unfold compete. destruct (cand ev) as [[k e]|] eqn:E; [|done].
  pose proof (cand_event _ _ _ E) as ->. apply update_within; [done|]. by apply elem_of_candidates.
Qed.

Lemma compete_keeps w ev k e :
  ev ∈ events → inside w → wins k e → cand ev = Some (k, e) ∨ w !! k = Some e →
  compete w ev !! k = Some e.
Proof.
  intros Hev Hw Hwin Hor. unfold compete. destruct (cand ev) as [[k0 e0]|] eqn:E.
  - pose proof (cand_event _ _ _ E) as ->. eapply update_keeps; try done.
    + apply candidates_inj.
    + by apply elem_of_candidates.
    + destruct Hor as [[= -> ->]|]; auto.
  - by destruct Hor.
Qed.

(** The fold of the remaining events keeps or finds every winner. *)
Lemma fold_winners rest w cache :
  (∀ ev, ev ∈ rest → ev ∈ events) → inside w → direct_cache cf ac cache →
  (∀ k e, wins k e → (k, e) ∈ omap cand rest ∨ w !! k = Some e) →
  ∃ w' cache', run_steps (process_lattice_event ctx) (w, cache) rest = Some (w', cache')
    ∧ inside w' ∧ ∀ k e, wins k e → w' !! k = Some e.
Proof.
  revert w cache. induction rest as [|ev rest IH]; intros w cache Hsub Hw Hc Hwin; cbn [run_steps].
  { exists w, cache. split_and!; [done..|]. intros k e [?%elem_of_nil|?]%Hwin; done. }
  assert (ev ∈ events) as Hev by (apply Hsub; left).
  destruct (process_cand w cache ev (Hknown ev Hev) Hc) as (cache' & Hc' & ->).
  apply IH; [intros; apply Hsub; by right|by apply compete_inside|done|].
  intros k e Hke. destruct (Hwin k e Hke) as [Hin|Hk].
  - simpl in Hin. destruct (cand ev) as [p|] eqn:E; [|by left].
    apply elem_of_cons in Hin as [<-|?]; [right|by left]. apply compete_keeps; auto.
  - right. apply compete_keeps; auto.
Qed.

Lemma new_cache_direct v : direct_cache cf ac (LocalAuthCache_new v).
Proof. intros ev m _. simpl. by rewrite lookup_empty. Qed.

(** The sequential fold computes the winners. *)
Lemma fold_chunk_winners :
  ∃ w, fold_lattice_chunk events ctx = Some w ∧ ∀ k e, w !! k = Some e ↔ wins k e.
Proof.
  destruct (fold_winners events ∅ (LocalAuthCache_new version)) as (w & c & E & Hw & Hall);
    [done|by intros ??; rewrite lookup_empty|apply new_cache_direct| |].
  { intros k e [Hin _]. by left. }
  exists w. unfold fold_lattice_chunk. rewrite E. split; [done|].
  by apply winners_complete.
Qed.

(** ** The fan-out *)

Definition worker_cands (w : worker Id C) : list (key * event) :=
  match w with
  | Fetching local _ | Locking local => map_to_list local
  | Processing idx local _ => map_to_list local ++ omap cand (option_list (events !! idx))
  | Merging pending => pending
  | Finished => []
  end.

Definition worker_ok (w : worker Id C) : Prop :=
  match w with
  | Fetching local cache => inside local ∧ direct_cache cf ac cache
  | Processing idx local cache => inside local ∧ direct_cache cf ac cache ∧ idx < length events
  | Locking local => inside local
  | Merging pending => ∀ k e, (k, e) ∈ pending → (k, e) ∈ candidates
  | Finished => True
  end.

Definition past_fetch (w : worker Id C) : bool :=
  match w with Fetching _ _ | Processing _ _ _ => false | _ => true end.

Record fan_inv (s : fan_out Id C) : Prop := {
  fi_shared : inside (shared_winners s);
  fi_workers i w : workers s !! i = Some w → worker_ok w ∧ (past_fetch w → length events ≤ cursor s);
  fi_winner k e : wins k e →
    shared_winners s !! k = Some e
    ∨ (∃ i w, workers s !! i = Some w ∧ (k, e) ∈ worker_cands w)
    ∨ (k, e) ∈ omap cand (drop (cursor s) events);
  fi_lock i : lock_holder s = Some i ↔ ∃ p, workers s !! i = Some (Merging p)
}.

(** One worker moves from [w] to [w']. *)
Lemma fan_inv_move s i w w' cursor' shared' lock' :
  fan_inv s → workers s !! i = Some w → inside shared' → worker_ok w' → cursor s ≤ cursor' →
  (past_fetch w' → length events ≤ cursor') →
  (∀ k e, wins k e →
     shared_winners s !! k = Some e ∨ (k, e) ∈ worker_cands w ∨ (k, e) ∈ omap cand (drop (cursor s) events) →
     shared' !! k = Some e ∨ (k, e) ∈ worker_cands w' ∨ (k, e) ∈ omap cand (drop cursor' events)) →
  (∀ j, lock' = Some j ↔ ∃ p, set_worker s i w' !! j = Some (Merging p)) →
  fan_inv (mkFanOut cursor' (set_worker s i w') shared' lock').
Proof.
  intros [Hs Hw Hk Hl] Hi Hs' Hok Hcur Hpast Hwin Hlock. unfold set_worker in *. split; simpl; [done| | |done].
  - intros j x [(-> & -> & _)|[_ Hx]]%list_lookup_insert_Some; [done|].
    destruct (Hw j x Hx) as [? Hp]. split; [done|]. intros ?%Hp. lia.
  - intros k e Hke.
    assert (∀ P : Prop, P ∨ (k, e) ∈ worker_cands w' ∨ (k, e) ∈ omap cand (drop cursor' events) →
      P ∨ (∃ j x, <[i := w']> (workers s) !! j = Some x ∧ (k, e) ∈ worker_cands x)
        ∨ (k, e) ∈ omap cand (drop cursor' events)) as Hwrap.
    { intros P [?|[?|?]]; auto. right; left. exists i, w'. split; [|done].
      apply list_lookup_insert_eq. by eapply lookup_lt_Some. }
    destruct (Hk k e Hke) as [Hsh|[(j & x & Hj & Hx)|Hr]]; [by apply Hwrap, Hwin; auto| |by apply Hwrap, Hwin; auto].
    destruct (decide (j = i)) as [->|Hne]; [simplify_eq; apply Hwrap, Hwin; auto|].
    right; left. exists j, x. by rewrite list_lookup_insert_ne.
Qed.

(** The lock is untouched by a worker that neither takes nor gives it back. *)
Lemma lock_kept s i w w' :
  fan_inv s → workers s !! i = Some w →
  (∃ p, w = Merging p) ↔ (∃ p, w' = Merging p) →
  ∀ j, lock_holder s = Some j ↔ ∃ p, set_worker s i w' !! j = Some (Merging p).
Proof.
  intros HI Hi Hiff j. rewrite (fi_lock s HI). unfold set_worker. destruct (decide (j = i)) as [->|Hne].
  - rewrite list_lookup_insert_eq by by eapply lookup_lt_Some. rewrite Hi. naive_solver.
  - by rewrite list_lookup_insert_ne.
Qed.

Lemma drop_cand n :
  n < length events →
  ∃ ev, events !! n = Some ev ∧ ev ∈ events
    ∧ omap cand (drop n events) = omap cand [ev] ++ omap cand (drop (S n) events).
Proof.
  intros Hn. destruct (lookup_lt_is_Some_2 events n Hn) as [ev Hev]. exists ev.
  split_and!; [done|by eapply list_elem_of_lookup_2|].
  rewrite (drop_S events ev n Hev). simpl. by destruct (cand ev).
Qed.

Lemma elem_of_cand_single ev k e : (k, e) ∈ omap cand [ev] ↔ cand ev = Some (k, e).
Proof. clear Hwf Hdirect Hknown. simpl. destruct (cand ev) as [p|]; set_solver. Qed.

Lemma fan_step_inv s s' : fan_inv s → fan_step events ctx s s' → fan_inv s'.
Proof.
  intros HI Hst. destruct Hst as [s i local cache Hi Hlt|s i local cache Hi Hge
    |s i idx local cache ev local' cache' Hi Hev Hp|s i local pending Hi Hl Hpend
    |s i k0 ev rest Hi Hl|s i Hi Hl]; destruct (fi_workers s HI i _ Hi) as [Hok Hpast]; simpl in Hok.
  - destruct (drop_cand (cursor s) Hlt) as (ev & Hev & _ & Hdrop). destruct Hok as [Hin Hc].
    eapply fan_inv_move; try done; [apply HI|lia| |].
    + intros k e _. rewrite Hdrop. cbn [worker_cands]. rewrite Hev. rewrite !elem_of_app.
      change (option_list (Some ev)) with [ev]. tauto.
    + eapply lock_kept; [done..|]. naive_solver.
  - destruct Hok as [Hin Hc]. eapply fan_inv_move; try done; [apply HI|lia|lia| |].
    + intros k e _. rewrite !(drop_ge events) by lia. cbn [worker_cands]. tauto.
    + eapply lock_kept; [done..|]. naive_solver.
  - destruct Hok as (Hin & Hc & Hidx). assert (ev ∈ events) as Hin' by by eapply list_elem_of_lookup_2.
    destruct (process_cand local cache ev (Hknown ev Hin') Hc) as (c' & Hc' & E).
    rewrite E in Hp. apply (inj Some), pair_equal_spec in Hp as [<- <-].
    eapply fan_inv_move; try done; [apply HI|by split; [apply compete_inside|]| |].
    + intros k e Hke. cbn [worker_cands]. rewrite Hev, elem_of_app. change (option_list (Some ev)) with [ev].
      rewrite elem_of_cand_single, !elem_of_map_to_list.
      intros [?|[Hor|?]]; auto. right; left. apply compete_keeps; naive_solver.
    + eapply lock_kept; [done..|]. naive_solver.
  - eapply fan_inv_move; try done; [apply HI| | |].
    + intros k e. rewrite Hpend, elem_of_map_to_list. apply Hok.
    + intros k e _. cbn [worker_cands]. rewrite Hpend. tauto.
    + intros j. unfold set_worker. destruct (decide (j = i)) as [->|Hne].
      * rewrite list_lookup_insert_eq by (by eapply lookup_lt_Some). naive_solver.
      * rewrite list_lookup_insert_ne by done. rewrite <-(fi_lock s HI), Hl. naive_solver.
  - assert ((k0, ev) ∈ candidates) as Hin by (apply Hok; left).
    eapply fan_inv_move; try done; [|intros k e ?; apply Hok; by right| |].
    + apply update_within; [apply HI|done].
    + intros k e Hke. cbn [worker_cands]. rewrite elem_of_cons.
      assert ((k, e) = (k0, ev) ∨ shared_winners s !! k = Some e →
        update_ctx ctx (shared_winners s) k0 ev !! k = Some e) as Hup.
      { apply update_keeps with (U:=candidates); try done; [apply candidates_inj|apply HI]. }
      intros [?|[[?|?]|?]]; auto.
    + eapply lock_kept; [done..|]. naive_solver.
  - eapply fan_inv_move; try done; [apply HI|].
    intros j. unfold set_worker. destruct (decide (j = i)) as [->|Hne].
    + rewrite list_lookup_insert_eq by (by eapply lookup_lt_Some). naive_solver.
    + rewrite list_lookup_insert_ne by done. rewrite <-(fi_lock s HI), Hl. naive_solver.
Qed.

Lemma fan_start_inv n : fan_inv (fan_start n ctx).
Proof.
  split; simpl.
  - intros k e. by rewrite lookup_empty.
  - intros i w [-> _]%lookup_replicate_1. simpl. split; [|done].
    split; [intros k e; by rewrite lookup_empty|apply new_cache_direct].
  - intros k e [Hin _]. by right; right.
  - intros i. split; [done|]. intros [p [? _]%lookup_replicate_1]. done.
Qed.

Lemma fan_reachable_inv n s : rtc (fan_step events ctx) (fan_start n ctx) s → fan_inv s.
Proof.
  intros Hr. eapply (rtc_ind_r (λ s, fan_inv s)); [apply fan_start_inv| |exact Hr].
  intros x y _ Hst HI. by eapply fan_step_inv.
Qed.

(** *** No deadlock *)

Definition is_finished (w : worker Id C) : bool := match w with Finished => true | _ => false end.

Lemma fan_progress s : fan_inv s → fan_done s ∨ ∃ s', fan_step events ctx s s'.
Proof.
  intros HI. destruct (decide (Exists (λ w, is_finished w = false) (workers s))) as [Hex|Hnex]; last first.
  { left. intros i w Hw. destruct w; try done; destruct Hnex; apply Exists_exists; eexists;
      (split; [by eapply list_elem_of_lookup_2|done]). }
  right. apply Exists_exists in Hex as (w & [i Hi]%list_elem_of_lookup & Hne).
  assert (∀ j p, workers s !! j = Some (Merging p) → ∃ s', fan_step events ctx s s') as Hmerge.
  { intros j p Hj. assert (lock_holder s = Some j) as Hl by (apply (fi_lock s HI); eauto).
    destruct p as [|[k e] p]; eexists; [by eapply step_unlock|by eapply step_merge]. }
  destruct (fi_workers s HI i w Hi) as [Hok _].
  destruct w as [local cache|idx local cache|local|p|]; [..|done].
  - destruct (decide (cursor s < length events)); eexists; [by eapply step_fetch|eapply step_drained; [done|lia]].
  - destruct Hok as (_ & Hc & Hidx). destruct (lookup_lt_is_Some_2 events idx Hidx) as [ev Hev].
    destruct (process_cand local cache ev) as (c' & _ & E); [apply Hknown; by eapply list_elem_of_lookup_2|done|].
    eexists. by eapply step_process.
  - destruct (lock_holder s) as [j|] eqn:Hl; [|eexists; by eapply step_lock].
    apply (fi_lock s HI) in Hl as [p Hj]. by eapply Hmerge.
  - by eapply Hmerge.
Qed.

(** *** Termination *)

Definition worker_weight (w : worker Id C) : nat :=
  match w with
  | Fetching _ _ => length events + 4
  | Processing _ _ _ => length events + 5
  | Locking _ => length events + 3
  | Merging p => length p + 1
  | Finished => 0
  end.
Definition fan_measure (s : fan_out Id C) : nat :=
  2 * (length events - cursor s) + sum_list (worker_weight <$> workers s).

Lemma sum_list_insert (l : list nat) i x y :
  l !! i = Some x → sum_list (<[i := y]> l) + x = sum_list l + y.
Proof.
  revert i. induction l as [|z l IH]; intros [|i] Hi; simplify_eq/=; [lia|]. specialize (IH i Hi). lia.
Qed.

Lemma inside_size (w : gmap key event) : inside w → length (map_to_list w) ≤ length events.
Proof.
  intros Hw. transitivity (length candidates).
  - apply submseteq_length, NoDup_submseteq; [apply NoDup_map_to_list|].
    intros [k e] He%elem_of_map_to_list. by apply Hw.
  - apply omap_length_le.
Qed.

Lemma fan_step_measure s s' : fan_inv s → fan_step events ctx s s' → fan_measure s' < fan_measure s.
Proof.
  intros HI Hst. unfold fan_measure.
  assert (∀ i w w', workers s !! i = Some w →
    sum_list (worker_weight <$> set_worker s i w') + worker_weight w
    = sum_list (worker_weight <$> workers s) + worker_weight w') as Hsum.
  { intros i w w' Hi. unfold set_worker. rewrite list_fmap_insert. apply sum_list_insert.
    by rewrite list_lookup_fmap, Hi. }
  destruct Hst as [s i local cache Hi Hlt|s i local cache Hi Hge
    |s i idx local cache ev local' cache' Hi Hev Hp|s i local pending Hi Hl Hpend
    |s i k0 ev rest Hi Hl|s i Hi Hl]; simpl;
    match goal with |- context [set_worker s i ?w'] => specialize (Hsum i _ w' Hi) end; simpl in Hsum; try lia.
  destruct (fi_workers s HI i _ Hi) as [Hok _]. simpl in Hok. apply inside_size in Hok.
  apply Permutation_length in Hpend. lia.
Qed.

Lemma fan_start_measure n : fan_measure (fan_start n ctx) = 2 * length events + n * (length events + 4).
Proof.
  unfold fan_measure, fan_start. simpl. rewrite Nat.sub_0_r, fmap_replicate. simpl.
  assert (∀ a, sum_list (replicate n a) = n * a) as ->; [|lia].
  intros a. induction n as [|n' IH]; simpl; [done|]. lia.
Qed.

Lemma fan_steps_bound n m s :
  nsteps (fan_step events ctx) m (fan_start n ctx) s → m ≤ 2 * length events + n * (length events + 4).
Proof.
  rewrite <-(fan_start_measure n).
  assert (∀ s0, fan_inv s0 → nsteps (fan_step events ctx) m s0 s → m + fan_measure s ≤ fan_measure s0) as Hind.
  { induction m as [|m IH]; intros s0 HI Hn; inversion Hn as [|? ? y ? Hst Hn']; simplify_eq; [lia|].
    pose proof (fan_step_measure _ _ HI Hst). specialize (IH y (fan_step_inv _ _ HI Hst) Hn'). lia. }
  intros Hn. specialize (Hind _ (fan_start_inv n) Hn). lia.
Qed.

(** *** The result *)

Lemma fan_done_winners s :
  fan_inv s → fan_done s → workers s ≠ [] → ∀ k e, shared_winners s !! k = Some e ↔ wins k e.
Proof.
  intros HI Hd Hne. apply winners_complete; [apply HI|]. intros k e Hke.
  destruct (fi_winner s HI k e Hke) as [?|[(i & w & Hi & Hin)|Hin]]; [done| |].
  - apply Hd in Hi as ->. by apply elem_of_nil in Hin.
  - exfalso. destruct (workers s) as [|w ws] eqn:Ew; [done|].
    assert (workers s !! 0 = Some w) as Hw by by rewrite Ew.
    pose proof (Hd 0 w Hw) as ->. destruct (fi_workers s HI 0 _ Hw) as [_ Hp]. simpl in Hp.
    rewrite drop_ge in Hin by auto. by apply elem_of_nil in Hin.
Qed.

Lemma workers_length n s : rtc (fan_step events ctx) (fan_start n ctx) s → length (workers s) = n.
Proof.
  intros Hr. refine (rtc_ind_r (λ s, length (workers s) = n) (fan_start n ctx) _ _ s Hr);
    [apply length_replicate|]. intros x y _ Hst <-. destruct Hst; apply length_insert.
Qed.
End fold.

(** ** The resolver *)

Section resolver.
Context {Id C : Type} `{EventId Id} `{EventContent C}.
Abbreviation event := (LeanEvent Id C).
Abbreviation event_map := (gmap Id event).
Abbreviation key := (string * string)%type.
Context (unconf : gmap key Id) (cf ac : event_map) (version : StateResVersion)
  (conflicted_keys : gset key).
Hypothesis Hwf : inputs_wf version cf ac.
Hypothesis Hlow : is_v2_1_plus version = false.

Lemma insert_all_lookup (l : list (key * Id)) (m : gmap key Id) k :
  NoDup l.*1 →
  foldl (λ f kv, <[kv.1 := kv.2]> f) m l !! k
  = match (list_to_map l : gmap key Id) !! k with Some v => Some v | None => m !! k end.
Proof.
  revert m. induction l as [|[k0 v0] l IH]; intros m Hnd; simpl in *; [by rewrite lookup_empty|].
  apply NoDup_cons in Hnd as [Hn Hnd]. rewrite IH by done. destruct (decide (k0 = k)) as [->|Hne].
  - rewrite lookup_insert_eq, (not_elem_of_list_to_map_1 _ _ Hn). by rewrite lookup_insert_eq.
  - by rewrite !lookup_insert_ne.
Qed.

Lemma list_to_map_hm_fmap `{Ho : HashOrder} (w : gmap key event) :
  (list_to_map ((λ kv, (kv.1, event_id kv.2)) <$> hm_iter w) : gmap key Id) = event_id <$> w.
Proof.
  change (λ kv : key * event, (kv.1, event_id kv.2)) with (prod_map (@id key) (event_id (Id:=Id) (C:=C))).
  rewrite (list_to_map_fmap event_id). by rewrite list_to_map_hm_iter.
Qed.

Lemma merge_winners_lookup `{Ho : HashOrder} (r : gmap key Id) (w : gmap key event) k :
  merge_winners unconf r w !! k
  = match unconf !! k with
    | Some id => Some id
    | None => match w !! k with Some e => Some (event_id e) | None => r !! k end
    end.
Proof.
  unfold merge_winners.
  assert (NoDup ((λ kv : key * event, (kv.1, event_id kv.2)) <$> hm_iter w).*1) as Hnd.
  { rewrite <-list_fmap_compose. apply (NoDup_hm_keys w). }
  rewrite !insert_all_lookup by (done || apply NoDup_fst_map_to_list).
  rewrite !list_to_map_to_list, list_to_map_hm_fmap, lookup_fmap.
  destruct (unconf !! k) eqn:Eu; [done|]. destruct (w !! k); simpl; [done|].
  by destruct (r !! k).
Qed.

(** What the phase before the fold hands over. *)
Record phase_ok `{Ho : HashOrder} (r : gmap key Id) (targets : list event) (ctx : LatticeFoldCtx Id C)
    (n : event_map) (ml : list Id) : Prop := {
  po_state : resolution_state unconf cf ac version conflicted_keys (find_create_event unconf cf ac) r;
  po_targets : targets = hm_values n;
  po_events id ev : n !! id = Some ev → cf !! id = Some ev ∧ is_power_event version ev = false;
  po_mainline : build_mainline (mkSortContext cf ac) version r = Some ml;
  po_len : (N.of_nat (length ml) < IN_PROGRESS)%N;
  po_dist : compute_closest_mainline_positions (mkSortContext cf ac) version targets ml
            = Some (fc_mainline_distances ctx);
  po_ctx : ctx = mkFoldCtx (fc_mainline_distances ctx) (N.of_nat (length ml)) r ac cf version
                   (find_create_event unconf cf ac) conflicted_keys
}.

Lemma lattice_phase_spec (o1 o2 : HashOrder) :
  ∃ r t1 t2 ctx1 ctx2 n ml,
    lattice_phase (H1:=o1) unconf cf ac version conflicted_keys = Some (r, t1, ctx1)
    ∧ lattice_phase (H1:=o2) unconf cf ac version conflicted_keys = Some (r, t2, ctx2)
    ∧ phase_ok (Ho:=o1) r t1 ctx1 n ml ∧ phase_ok (Ho:=o2) r t2 ctx2 n ml
    ∧ find_create_event (Ho:=o1) unconf cf ac = find_create_event (Ho:=o2) unconf cf ac.
Proof.
  assert (∀ id ev, cf !! id = Some ev → event_id ev = id) as Hkey
    by (intros id ev He; by apply (in_cf _ _ _ Hwf) in He as [? _]).
  unfold lattice_phase, prepare_conflicted_and_keys.
  pose proof (execute_power_phase_order unconf cf ac version o1 o2 Hkey (dom cf)) as Heq.
  pose proof (find_create_event_order unconf cf ac o1 o2 Hkey) as Hcr.
  destruct (power_phase_spec (Ho:=o2) unconf cf ac version (dom cf)) as (p & n & E & Hp & Hn).
  rewrite Heq, E. unfold run_power_phase_iterative_checks.
  destruct (kahn_sort_det o1 o2 p (mkSortContext cf ac) (find_create_event (Ho:=o2) unconf cf ac) version
    (power_events_wf cf ac version Hwf p Hp)) as (ids & -> & -> & _).
  destruct (run_steps_inv (power_step ac cf (find_create_event (Ho:=o2) unconf cf ac) version conflicted_keys)
    (λ s, resolution_state unconf cf ac version conflicted_keys (find_create_event (Ho:=o2) unconf cf ac) s.1)
    ids (get_initial_resolved_state unconf version, LocalAuthCache_new version)) as ([r c] & -> & Hr).
  { intros s id _. by apply power_step_state. } { apply rs_initial. }
  simpl in Hr. destruct (mainline_built (mkSortContext cf ac) version r ∅) as (ml & _ & _ & Hb & _ & Hml).
  { intros ? ?. by rewrite lookup_empty. }
  pose proof (mainline_length cf ac version Hwf _ _ Hml) as Hlen.
  destruct (closest_positions_spec (mkSortContext cf ac) version ml Hlen (hm_values (H:=o1) n)) as (d1 & E1 & _).
  destruct (closest_positions_spec (mkSortContext cf ac) version ml Hlen (hm_values (H:=o2) n)) as (d2 & E2 & _).
  rewrite Hb, E1, E2. eexists r, _, _, _, _, n, ml. split_and!; try done; split; simpl; try done;
    try (intros id ev Hev; split; [by apply Hn|by eapply power_phase_non_power]); by rewrite ?Hcr.
Qed.

Lemma low_direct : transitive_auth version = false.
Proof. clear Hwf. by destruct version. Qed.

(** The power phase only caches direct auth events. *)
Lemma power_step_direct cr s id :
  direct_cache cf ac s.2 →
  ∃ s', power_step ac cf cr version conflicted_keys s id = Some s' ∧ direct_cache cf ac s'.2.
Proof.
  destruct s as [r cache]. simpl. intros Hc. unfold power_step.
  destruct (get_either cf ac id) as [ev|] eqn:Eg; [|by eexists].
  assert (known cf ac ev) as Hk.
  { apply (known_lookup cf ac version Hwf id). unfold get_either in Eg. destruct (cf !! id); [left|right]; congruence. }
  destruct (event_auth_ok_direct cf ac version Hwf low_direct ev r cache cr true Hk Hc) as (c' & Hc' & ->).
  destruct (iterative_auth_ok _ _ _ _ _ _ _ _); [|by eexists].
  destruct (state_key ev) as [sk|]; [|by eexists]. destruct (decides_key _ _ _); by eexists.
Qed.

Lemma phase_known `{Ho : HashOrder} r t ctx n ml ev :
  phase_ok r t ctx n ml → ev ∈ t → known cf ac ev.
Proof.
  intros [_ -> Hn _ _ _ _] [id Hid]%elem_of_hm_values. apply Hn in Hid as [Hid _].
  apply (in_cf _ _ _ Hwf) in Hid as Heq. destruct Heq as [<- _]. by left.
Qed.

(** The winners do not depend on the hash order. *)
Lemma phase_winners (o1 o2 : HashOrder) r t1 t2 ctx1 ctx2 n ml k e :
  phase_ok (Ho:=o1) r t1 ctx1 n ml → phase_ok (Ho:=o2) r t2 ctx2 n ml →
  find_create_event (Ho:=o1) unconf cf ac = find_create_event (Ho:=o2) unconf cf ac →
  winner_of (fc_mainline_distances ctx1) (fc_mainline_len ctx1) (candidates ctx1 t1) k e →
  winner_of (fc_mainline_distances ctx2) (fc_mainline_len ctx2) (candidates ctx2 t2) k e.
Proof.
  intros [_ Ht1 _ _ Hlen Hd1 Hc1] [_ Ht2 _ _ _ Hd2 Hc2] Hcr.
  assert (∀ ev, cand ctx1 ev = cand ctx2 ev) as Hcand.
  { intros ev. unfold cand. rewrite Hc1, Hc2. simpl. by rewrite Hcr. }
  assert (∀ ev, ev ∈ t1 ↔ ev ∈ t2) as Ht.
  { intros ev. rewrite Ht1, Ht2. by rewrite (hm_values_perm o1 o2). }
  assert (∀ k ev, (k, ev) ∈ candidates ctx1 t1 ↔ (k, ev) ∈ candidates ctx2 t2) as HU.
  { intros k' ev. by rewrite !elem_of_candidates, Ht, Hcand. }
  destruct (closest_positions_spec (mkSortContext cf ac) version ml Hlen t1) as (m1 & E1 & P1).
  destruct (closest_positions_spec (mkSortContext cf ac) version ml Hlen t2) as (m2 & E2 & P2).
  rewrite Hd1 in E1. rewrite Hd2 in E2. injection E1 as <-. injection E2 as <-.
  assert (∀ ev, ev ∈ t1 → lub_key (fc_mainline_distances ctx1) (fc_mainline_len ctx1) ev
    = lub_key (fc_mainline_distances ctx2) (fc_mainline_len ctx2) ev) as Hkey.
  { intros ev Hev. unfold lub_key. do 2 f_equal.
    destruct (P1 ev Hev) as (v1 & -> & Hv1). apply Ht in Hev. destruct (P2 ev Hev) as (v2 & -> & Hv2).
    simpl. by eapply position_functional. }
  intros [Hin Hmax]. split; [by apply HU|]. intros e' He'. apply HU in He'.
  specialize (Hmax e' He'). unfold lub_le, cmp_le, cmp_on in *.
  apply elem_of_candidates in Hin as [Hin _]. apply elem_of_candidates in He' as [He' _].
  by rewrite <-!Hkey.
Qed.

(** Every complete run of the workers gives the winners of the sequential fold. *)
Lemma fan_out_fold (ctx : LatticeFoldCtx Id C) (events : list event) num_threads w :
  inputs_wf (fc_version ctx) (fc_sort_set ctx) (fc_auth_context ctx) →
  transitive_auth (fc_version ctx) = false →
  (∀ ev, ev ∈ events → known (fc_sort_set ctx) (fc_auth_context ctx) ev) → num_threads ≠ 0 →
  compute_lattice_coordinatized_winners num_threads events ctx w ↔ fold_lattice_chunk events ctx = Some w.
Proof.
  intros Hw Hd Hk Hn. destruct (fold_chunk_winners ctx events Hw Hd Hk) as (w0 & E & Hw0).
  assert (∀ s, rtc (fan_step events ctx) (fan_start num_threads ctx) s → fan_done s →
    shared_winners s = w0) as Hres.
  { intros s Hr Hdone. apply map_eq. intros k. apply option_eq. intros e. rewrite Hw0.
    apply fan_done_winners; [by eapply fan_reachable_inv|done|].
    intros Hnil. apply workers_length in Hr. rewrite Hnil in Hr. done. }
  rewrite E. split.
  - intros (s & Hr & Hdone & ->). f_equal. symmetry. by apply Hres.
  - intros [= <-].
    assert (∀ m s, fan_measure events s = m → rtc (fan_step events ctx) (fan_start num_threads ctx) s →
      ∃ s', rtc (fan_step events ctx) (fan_start num_threads ctx) s' ∧ fan_done s') as Hrun.
    { intros m. induction (lt_wf m) as [m _ IH]. intros s Hm Hr. pose proof (fan_reachable_inv ctx events Hw Hd Hk num_threads s Hr) as HI.
      destruct (fan_progress ctx events Hw Hd Hk s HI) as [Hdone|[s' Hst]]; [by exists s|].
      apply (IH (fan_measure events s')) with s'; [subst m; by eapply fan_step_measure|done|by eapply rtc_r]. }
    destruct (Hrun _ _ eq_refl (rtc_refl _ _)) as (s & Hr & Hdone). exists s. split_and!; [done..|].
    symmetry. by apply Hres.
Qed.

(** ** Agreement with the mainline phase *)

(** Two states with the same entries of the types the auth rules read. *)
Definition same_auth (r r' : gmap key Id) : Prop :=
  ∀ ty sk, ty ∈ VALID_AUTH_TYPES → r !! (ty, sk) = r' !! (ty, sk).

Lemma iterative_ok_same r r' ev la cr power :
  same_auth r r' →
  iterative_auth_ok ev r ac cf la cr version power = iterative_auth_ok ev r' ac cf la cr version power.
Proof.
  intros Hs. unfold iterative_auth_ok. destruct (rejected ev); [done|]. f_equal.
  assert (∀ ty sk, ty ∈ VALID_AUTH_TYPES →
    overlay_get (mkOverlay r ac cf la cr version power (event_type ev)) ty sk
    = overlay_get (mkOverlay r' ac cf la cr version power (event_type ev)) ty sk) as Ho.
  { intros ty sk Hty. unfold overlay_get. simpl. rewrite key_of_from, (Hs ty sk Hty). done. }
  apply agree_check_auth. unfold VALID_AUTH_TYPES in Ho.
  split; intros; apply Ho; set_solver.
Qed.

Section sequential.
Context (ctx : LatticeFoldCtx Id C).
Hypothesis Hctx : fc_auth_context ctx = ac ∧ fc_sort_set ctx = cf ∧ fc_version ctx = version
  ∧ fc_conflicted_keys ctx = conflicted_keys.
Abbreviation r0 := (fc_terminal_power_state ctx).
Abbreviation le := (lub_le (fc_mainline_distances ctx) (fc_mainline_len ctx)).
Abbreviation wins l := (winner_of (fc_mainline_distances ctx) (fc_mainline_len ctx) (candidates ctx l)).

Lemma non_power_cand r cache ev :
  known cf ac ev → direct_cache cf ac cache → same_auth r r0 →
  ∃ cache', direct_cache cf ac cache'
    ∧ non_power_step ac cf (fc_create_ev ctx) version conflicted_keys (r, cache) ev
      = Some (match cand ctx ev with Some (k, _) => <[k := event_id ev]> r | None => r end, cache').
Proof.
  intros Hk Hc Hs. destruct Hctx as (Ea & Ec & Ev & Ek).
  destruct (event_auth_ok_direct cf ac version Hwf low_direct ev r cache (fc_create_ev ctx) false Hk Hc)
    as (cache' & Hc' & E). exists cache'. split; [done|]. unfold non_power_step. rewrite E. clear E.
  rewrite (iterative_ok_same r r0) by done. unfold cand. rewrite Ea, Ec, Ev, Ek.
  destruct (iterative_auth_ok _ _ _ _ _ _ _ _); [|done].
  destruct (state_key ev) as [sk|]; [|done]. by destruct (decides_key _ _ _).
Qed.

Lemma cand_key ev k e : cand ctx ev = Some (k, e) → k.1 = event_type ev.
Proof.
  unfold cand. intros. repeat case_match; simplify_eq; by rewrite event_key_eq.
Qed.

Lemma run_steps_app {S A} (f : S → A → option S) s l1 l2 :
  run_steps f s (l1 ++ l2) = match run_steps f s l1 with Some s' => run_steps f s' l2 | None => None end.
Proof. revert s. induction l1 as [|x l IH]; intros s; simpl; [done|]. by destruct (f s x). Qed.

(** Checking the events in mainline order leaves, per key, the greatest admitted one. *)
Lemma sequential_winners (l : list event) cache :
  direct_cache cf ac cache →
  (∀ ev, ev ∈ l → known cf ac ev ∧ event_type ev ∉ VALID_AUTH_TYPES) → StronglySorted le l →
  NoDup (event_id <$> l) →
  ∃ r c, run_steps (non_power_step ac cf (fc_create_ev ctx) version conflicted_keys) (r0, cache) l = Some (r, c)
    ∧ direct_cache cf ac c ∧ same_auth r r0
    ∧ ∀ k, (∀ e, wins l k e → r !! k = Some (event_id e))
           ∧ ((∀ e, (k, e) ∉ candidates ctx l) → r !! k = r0 !! k).
Proof.
  intros Hc. induction l as [|ev l IH] using rev_ind; intros Hl Hs Hnd.
  { exists r0, cache. split_and!; try done. intros k. split; [|done]. intros e [?%elem_of_nil _]. done. }
  rewrite fmap_app in Hnd. apply NoDup_app in Hnd as (Hnd & Hdisj & _).
  destruct IH as (r & c & E & Hc' & Hsame & Hk).
  { intros e He. apply Hl. set_solver. } { by eapply StronglySorted_app_1_l. } { done. }
  rewrite run_steps_app, E. destruct (Hl ev) as [Hkn Hty]; [set_solver|].
  destruct (non_power_cand r c ev Hkn Hc' Hsame) as (c' & Hc'' & Hstep). cbn [run_steps]. rewrite Hstep.
  eexists _, c'. split; [done|]. split; [done|].
  assert (∀ k e, (k, e) ∈ candidates ctx (l ++ [ev]) ↔ (k, e) ∈ candidates ctx l ∨ cand ctx ev = Some (k, e)) as Hcs.
  { intros k e. unfold candidates. rewrite omap_app, elem_of_app. by rewrite elem_of_cand_single. }
  destruct (cand ctx ev) as [[k0 e0]|] eqn:Ecand; last first.
  { split; [done|]. intros k. split.
    - intros e [Hin Hmax]. apply (Hk k). apply Hcs in Hin as [Hin|?]; [|done].
      split; [done|]. intros e' He'. apply Hmax, Hcs. by left.
    - intros Hn. apply (Hk k). intros e He. apply (Hn e), Hcs. by left. }
  pose proof (cand_event ctx ev k0 e0 Ecand) as ->. split.
  { intros ty sk Hin. apply cand_key in Ecand. destruct (decide (k0 = (ty, sk))) as [->|Hne];
      [simpl in Ecand; congruence|by rewrite lookup_insert_ne; [apply Hsame|]]. }
  intros k. destruct (decide (k = k0)) as [->|Hne].
  - rewrite lookup_insert_eq. split; [|intros Hn; destruct (Hn ev); apply Hcs; by right].
    intros e [Hin Hmax]. f_equal. apply Hcs in Hin as [Hin|?]; [|congruence].
    apply (lub_le_antisym (fc_mainline_distances ctx) (fc_mainline_len ctx)); [by apply Hmax, Hcs; right|].
    apply elem_of_candidates in Hin as [Hin _].
    apply StronglySorted_app in Hs as (Hs & _ & _). by apply Hs; [|left].
  - rewrite lookup_insert_ne by done. split.
    + intros e [Hin Hmax]. apply (Hk k). apply Hcs in Hin as [Hin|?]; [|congruence].
      split; [done|]. intros e' He'. apply Hmax, Hcs. by left.
    + intros Hn. apply (Hk k). intros e He. apply (Hn e), Hcs. by left.
Qed.
End sequential.

(** The mainline phase on the same events. *)
Lemma lattice_phase_iterative `{Ho : HashOrder} r t ctx n ml :
  lattice_phase unconf cf ac version conflicted_keys = Some (r, t, ctx) → phase_ok r t ctx n ml →
  ∃ sorted cache,
    resolve_iterative_sort_with_conflicted_keys unconf cf ac version conflicted_keys
    = match run_steps (non_power_step ac cf (fc_create_ev ctx) version conflicted_keys) (r, cache) sorted with
      | Some (r3, _) => Some (merge_final_resolved unconf r3)
      | None => None
      end
    ∧ direct_cache cf ac cache ∧ sorted ≡ₚ t
    ∧ StronglySorted (lub_le (fc_mainline_distances ctx) (fc_mainline_len ctx)) sorted.
Proof.
  intros E P. destruct P as [_ Ht _ Hml _ Hdist Hctx].
  unfold lattice_phase, prepare_conflicted_and_keys in E.
  destruct (power_phase_spec unconf cf ac version (dom cf)) as (p & n' & Ep & Hp & Hn). rewrite Ep in E.
  unfold run_power_phase_iterative_checks in E.
  destruct (kahn_sort_det Ho Ho p (mkSortContext cf ac) (find_create_event unconf cf ac) version
    (power_events_wf cf ac version Hwf p Hp)) as (ids & Ek & _ & _). rewrite Ek in E.
  destruct (run_steps_inv (power_step ac cf (find_create_event unconf cf ac) version conflicted_keys)
    (λ s, direct_cache cf ac s.2) ids (get_initial_resolved_state unconf version, LocalAuthCache_new version))
    as ([r1 c1] & Er & Hc1).
  { intros s id _. apply power_step_direct. } { intros ev m _. simpl. by rewrite lookup_empty. }
  rewrite Er in E.
  destruct (mainline_built (mkSortContext cf ac) version r1 ∅) as (ml1 & mc & Ebc & Eb & _).
  { intros ? ?. by rewrite lookup_empty. }
  rewrite Eb in E. destruct (compute_closest_mainline_positions _ _ _ _) as [d|] eqn:Ed; [|done].
  injection E as -> Ht' <-. simpl in *. rewrite Eb in Hml. injection Hml as ->.
  destruct (sort_decorated (λ id, default (N.of_nat (length ml)) (d !! id)) t) as [Hsp Hss].
  eexists _, c1. split_and!; [|exact Hc1|exact Hsp|].
  - unfold resolve_iterative_sort_with_conflicted_keys, resolve_iterative_sort_with_cache.
    rewrite resolve_eq by (by destruct version). rewrite Ep. unfold resolve_phases, run_power_phase_iterative_checks.
    assert (select_local_auth_cache None (LocalAuthCache_new version) version
      = LocalAuthCache_new (Id:=Id) (C:=C) version) as -> by (by destruct version). rewrite Ek, Er.
    unfold merge_unconflicted_power_events. rewrite Hlow, Ebc.
    unfold mainline_input. assert (has_ban_evasion_hardening version = false) as -> by (by destruct version).
    unfold mainline_sort. rewrite Ed, Ht'.
    clear Er. destruct (run_steps (non_power_step _ _ _ _ _) _ _) as [[r3 c3]|]; reflexivity.
  - eapply (StronglySorted_fmap_inv id); [|by rewrite list_fmap_id; exact Hss].
    simpl. intros x y Hxy. unfold lub_le, cmp_le, cmp_on, lub_key.
    unfold mainline_sort_key. simpl. rewrite mainline_cmp_key in Hxy. exact Hxy.
Qed.
End resolver.

(** Merging the winners writes what the sequential phase wrote. *)
Lemma merged_winners {Id C} `{EventId Id} `{EventContent C} `{Ho : HashOrder} (unconf : gmap (string * string) Id)
    (ctx : LatticeFoldCtx Id C) (t sorted : list (LeanEvent Id C)) r r3 (w : gmap _ (LeanEvent Id C)) :
  let wins l := winner_of (fc_mainline_distances ctx) (fc_mainline_len ctx) (candidates ctx l) in
  sorted ≡ₚ t → (∀ k e, w !! k = Some e ↔ wins t k e) →
  (∀ k, (∀ e, wins sorted k e → r3 !! k = Some (event_id e))
        ∧ ((∀ e, (k, e) ∉ candidates ctx sorted) → r3 !! k = r !! k)) →
  merge_final_resolved unconf r3 = merge_winners unconf r w.
Proof.
  intros wins Hperm Hw Hk.
  assert (∀ k e, (k, e) ∈ candidates ctx sorted ↔ (k, e) ∈ candidates ctx t) as Hc.
  { intros k e. by rewrite !elem_of_candidates, Hperm. }
  apply map_eq. intros k. rewrite merge_final_lookup, merge_winners_lookup.
  destruct (unconf !! k); [done|]. destruct (w !! k) as [e|] eqn:Ew.
  - apply (Hk k). apply Hw in Ew as [Hin Hmax]. split; [by apply Hc|]. intros e' He'. apply Hmax. by apply Hc.
  - apply (Hk k). intros e He%Hc.
    destruct (winner_exists (fc_mainline_distances ctx) (fc_mainline_len ctx) _ _ _ He) as (e' & He'%Hw).
    congruence.
Qed.

Section semilattice_claims.
Context {Id C : Type} `{EventId Id} `{EventContent C}.
Abbreviation event := (LeanEvent Id C).
Abbreviation event_map := (gmap Id event).
Abbreviation key := (string * string)%type.

(** C23: the worker threads of the fold never deadlock, stop after a number of
    steps bounded in the events and the threads whatever their interleaving,
    and leave exactly the winners of the sequential fold. *)
Theorem lattice_fan_out (ctx : LatticeFoldCtx Id C) (events : list event) num_threads :
  inputs_wf (fc_version ctx) (fc_sort_set ctx) (fc_auth_context ctx) →
  transitive_auth (fc_version ctx) = false →
  (∀ ev, ev ∈ events → known (fc_sort_set ctx) (fc_auth_context ctx) ev) → num_threads ≠ 0 →
  (∀ s, rtc (fan_step events ctx) (fan_start num_threads ctx) s →
     fan_done s ∨ ∃ s', fan_step events ctx s s')
  ∧ (∀ m s, nsteps (fan_step events ctx) m (fan_start num_threads ctx) s →
       m ≤ 2 * length events + num_threads * (length events + 4))
  ∧ (∀ w, compute_lattice_coordinatized_winners num_threads events ctx w
          ↔ fold_lattice_chunk events ctx = Some w).
Proof.
  intros Hwf Hd Hk Hn. split_and!.
  - intros s Hr. apply fan_progress; try done. by eapply fan_reachable_inv.
  - intros m s. by apply fan_steps_bound.
  - intros w. by apply fan_out_fold.
Qed.

Context (unconf : gmap key Id) (cf ac : event_map) (version : StateResVersion)
  (conflicted_keys : gset key).

(** Below version 2.1 the semilattice resolver always returns; the result
    is the same for every number of threads, every schedule and every hash
    order; it keeps the unconflicted entries, and every other entry was put
    there by an event that passed the auth rules against a state of the
    resolution. *)
Theorem semilattice_resolution (o1 o2 : HashOrder) num_threads :
  inputs_wf version cf ac → is_v2_1_plus version = false → num_threads ≠ 0 →
  ∃ final,
    resolve_semilattice_fold_with_conflicted_keys (H1:=o1) unconf cf ac version conflicted_keys = Some final
    ∧ (∀ final', resolves_threaded (H1:=o2) num_threads unconf cf ac version conflicted_keys final'
                 ↔ final' = final)
    ∧ (∀ k id, unconf !! k = Some id → final !! k = Some id)
    ∧ (∀ k id, unconf !! k = None → final !! k = Some id →
         accepted_entry unconf cf ac version conflicted_keys (find_create_event (Ho:=o1) unconf cf ac) k id).
Proof.
  intros Hwf Hlow Hn.
  destruct (lattice_phase_spec unconf cf ac version conflicted_keys Hwf o1 o2)
    as (r & t1 & t2 & ctx1 & ctx2 & n & ml & E1 & E2 & P1 & P2 & Hcr).
  assert (transitive_auth version = false) as Hd by (by destruct version).
  assert (∀ (o : HashOrder) t ctx, phase_ok unconf cf ac version conflicted_keys (Ho:=o) r t ctx n ml →
    inputs_wf (fc_version ctx) (fc_sort_set ctx) (fc_auth_context ctx) ∧ transitive_auth (fc_version ctx) = false
    ∧ ∀ ev, ev ∈ t → known (fc_sort_set ctx) (fc_auth_context ctx) ev) as Hok.
  { intros o t ctx P. pose proof (po_ctx _ _ _ _ _ _ _ _ _ _ P) as Hctx. rewrite Hctx. simpl.
    split_and!; [done..|]. intros ev. by eapply phase_known. }
  destruct (Hok o1 t1 ctx1 P1) as (W1 & D1 & K1). destruct (Hok o2 t2 ctx2 P2) as (W2 & D2 & K2).
  destruct (fold_chunk_winners ctx1 t1 W1 D1 K1) as (w1 & F1 & Hw1).
  destruct (fold_chunk_winners ctx2 t2 W2 D2 K2) as (w2 & F2 & Hw2).
  assert (w2 = w1) as ->.
  { apply map_eq. intros k. apply option_eq. intros e. rewrite Hw1, Hw2.
    split; [by apply (phase_winners unconf cf ac version conflicted_keys o2 o1 r t2 t1 ctx2 ctx1 n ml)
           |by apply (phase_winners unconf cf ac version conflicted_keys o1 o2 r t1 t2 ctx1 ctx2 n ml)]. }
  exists (merge_winners (H1:=o1) unconf r w1). split_and!.
  - unfold resolve_semilattice_fold_with_conflicted_keys. by rewrite Hlow, E1, F1.
  - intros final'. unfold resolves_threaded. rewrite Hlow, E2.
    assert (merge_winners (H1:=o2) unconf r w1 = merge_winners (H1:=o1) unconf r w1) as Hm.
    { apply map_eq. intros k. by rewrite !merge_winners_lookup. }
    split.
    + intros (r' & t & ctx & w & [= <- <- <-] & Hw & ->).
      apply fan_out_fold in Hw; [|done..]. rewrite F2 in Hw. simplify_eq. done.
    + intros ->. exists r, t2, ctx2, w1. split_and!; [done|by apply fan_out_fold|done].
  - intros k id Hk. by rewrite merge_winners_lookup, Hk.
  - intros k id Hk. rewrite merge_winners_lookup, Hk. destruct (w1 !! k) as [e|] eqn:Ew.
    + intros [= <-]. apply Hw1 in Ew as [[Hin Hc]%elem_of_candidates _].
      destruct P1 as [Hst _ _ _ _ _ Hctx]. unfold cand in Hc. rewrite Hctx in Hc. simpl in Hc.
      destruct (iterative_auth_ok _ _ _ _ _ _ _ _) eqn:Eok; [|done].
      destruct (state_key e) as [sk|] eqn:Esk; [|done]. destruct (decides_key _ _ _) eqn:Edk; [|done].
      simplify_eq. eapply auth_ok_entry; try done; [rewrite Hctx in K1; by apply K1|].
      apply (compute_local_auth_direct e ac cf (LocalAuthCache_new version)); [done|apply lookup_empty].
    + intros Hr. destruct (resolution_traced unconf cf ac version conflicted_keys Hwf _ r k id (po_state _ _ _ _ _ _ _ _ _ _ P1) Hr);
        [congruence|done].
Qed.

(** When no conflicted event outside the power phase is a membership or
    third-party-invite event, the semilattice fold resolves exactly as the
    sequential mainline phase does. *)
Theorem semilattice_matches_iterative `{Ho : HashOrder} :
  inputs_wf version cf ac → is_v2_1_plus version = false →
  (∀ id ev, cf !! id = Some ev → is_power_event version ev = false →
     event_type ev ≠ M_ROOM_MEMBER ∧ event_type ev ≠ M_ROOM_THIRD_PARTY_INVITE) →
  ∃ final,
    resolve_semilattice_fold_with_conflicted_keys unconf cf ac version conflicted_keys = Some final
    ∧ resolve_iterative_sort_with_conflicted_keys unconf cf ac version conflicted_keys = Some final.
Proof.
  intros Hwf Hlow Hty.
  destruct (lattice_phase_spec unconf cf ac version conflicted_keys Hwf Ho Ho)
    as (r & t & _ & ctx & _ & n & ml & E & _ & P & _ & _).
  assert (transitive_auth version = false) as Hd by (by destruct version).
  pose proof (po_ctx _ _ _ _ _ _ _ _ _ _ P) as Hctx.
  destruct (lattice_phase_iterative unconf cf ac version conflicted_keys Hwf Hlow r t ctx n ml E P)
    as (sorted & c & Hres & Hc & Hperm & Hsorted).
  assert (inputs_wf (fc_version ctx) (fc_sort_set ctx) (fc_auth_context ctx)) as W by by rewrite Hctx.
  assert (transitive_auth (fc_version ctx) = false) as D by by rewrite Hctx.
  assert (∀ ev, ev ∈ t → known (fc_sort_set ctx) (fc_auth_context ctx) ev) as K.
  { rewrite Hctx. intros ev. by eapply phase_known. }
  destruct (fold_chunk_winners ctx t W D K) as (w & F & Hw).
  destruct (sequential_winners cf ac version conflicted_keys Hwf Hlow ctx) with (l:=sorted) (cache:=c)
    as (r3 & c3 & Hrun & _ & _ & Hk); [by rewrite Hctx|done| |done| |].
  { intros ev Hev. rewrite Hperm in Hev. split; [by eapply phase_known|].
    rewrite (po_targets _ _ _ _ _ _ _ _ _ _ P) in Hev. apply elem_of_hm_values in Hev as [id Hid].
    apply (po_events _ _ _ _ _ _ _ _ _ _ P) in Hid as [Hid Hnp]. destruct (Hty id ev Hid Hnp) as [Hm Ht].
    unfold is_power_event in Hnp. unfold VALID_AUTH_TYPES.
    rewrite !orb_false_iff, !String.eqb_neq in Hnp. set_solver. }
  { rewrite Hperm, (po_targets _ _ _ _ _ _ _ _ _ _ P). apply (mainline_input_nodup unconf cf ac V1 n ∅).
    intros id ev Hid. apply (po_events _ _ _ _ _ _ _ _ _ _ P) in Hid as [Hid _].
    by apply (in_cf _ _ _ Hwf) in Hid as [? _]. }
  exists (merge_winners unconf r w). split.
  - unfold resolve_semilattice_fold_with_conflicted_keys. by rewrite Hlow, E, F.
  - assert (fc_terminal_power_state ctx = r) as Hr by by rewrite Hctx.
    rewrite Hr in Hrun, Hk. rewrite Hres, Hrun. f_equal. by eapply merged_winners.
Qed.
End semilattice_claims.

(** ** Witnesses *)

Definition sample_topic (id who : string) (d : Z) : LeanEvent string value :=
  Sample.ev id "m.room.topic" (Some "") who (Object [("topic", VString id)])
    ["$rules"] ["$create"; "$join_a"; "$power"] d.
(** Two topics compete; neither is a membership event. *)
Definition sample_topics : gmap string (LeanEvent string value) :=
  list_to_map ((λ e, (event_id e, e)) <$> [sample_topic "$t1" "@a:x" 6; sample_topic "$t2" "@a:x" 7]).

Lemma sample_topics_wf : inputs_wf V2 sample_topics sample_context.
Proof. apply inputs_wf_disjoint; apply (bool_decide_eq_true_1 _); vm_compute; reflexivity. Qed.

Definition sample_fold_ctx : LatticeFoldCtx string value :=
  mkFoldCtx ∅ 0 sample_unconflicted sample_context sample_topics V2 (Some Sample.create) ∅.

Lemma lattice_fan_out_witness :
  ∃ w, compute_lattice_coordinatized_winners (H:=string_event_id) 2
         [sample_topic "$t1" "@a:x" 6; sample_topic "$t2" "@a:x" 7] sample_fold_ctx w.
Proof.
  assert (∀ ev, ev ∈ [sample_topic "$t1" "@a:x" 6; sample_topic "$t2" "@a:x" 7] →
    known (fc_sort_set sample_fold_ctx) (fc_auth_context sample_fold_ctx) ev) as Hk.
  { intros ev [->|[->|[]%elem_of_nil]%elem_of_cons]%elem_of_cons; left; vm_compute; reflexivity. }
  destruct (fold_chunk_winners (H:=string_event_id) sample_fold_ctx _ sample_topics_wf eq_refl Hk) as (w & F & _).
  destruct (lattice_fan_out (H:=string_event_id) sample_fold_ctx
    [sample_topic "$t1" "@a:x" 6; sample_topic "$t2" "@a:x" 7] 2) as (_ & _ & Hw);
    [apply sample_topics_wf|reflexivity|exact Hk|lia|].
  exists w. apply Hw. exact F.
Defined.

Lemma semilattice_resolution_witness :
  ∃ final, resolve_semilattice_fold_with_conflicted_keys (H:=string_event_id) (H1:=order_forward)
      sample_unconflicted sample_conflicted sample_context V2 ∅ = Some final
    ∧ resolves_threaded (H:=string_event_id) (H1:=order_backward) 2
        sample_unconflicted sample_conflicted sample_context V2 ∅ final.
Proof.
  destruct (semilattice_resolution (H:=string_event_id) sample_unconflicted sample_conflicted sample_context V2 ∅
    order_forward order_backward 2) as (final & Hf & Ht & _).
  - apply sample_inputs_wf.
  - reflexivity.
  - lia.
  - exists final. split; [exact Hf|by apply Ht].
Defined.

Lemma semilattice_matches_iterative_witness :
  ∃ final, resolve_semilattice_fold_with_conflicted_keys (H:=string_event_id) (H1:=order_forward)
      sample_unconflicted sample_topics sample_context V2 ∅ = Some final
    ∧ resolve_iterative_sort_with_conflicted_keys (H:=string_event_id) (Ho:=order_forward)
      sample_unconflicted sample_topics sample_context V2 ∅ = Some final.
Proof.
  apply (semilattice_matches_iterative (H:=string_event_id) (Ho:=order_forward)
    sample_unconflicted sample_topics sample_context V2 ∅).
  - apply sample_topics_wf.
  - reflexivity.
  - assert (map_Forall (λ _ e, event_type e ≠ M_ROOM_MEMBER ∧ event_type e ≠ M_ROOM_THIRD_PARTY_INVITE)
      sample_topics) as Hall by (apply (bool_decide_eq_true_1 _); vm_compute; reflexivity).
    intros id e He _. exact (Hall id e He).
Defined.
