(* ===== verification/OrdMap.v ===== *)
(** * The persistent ordered map ([src/src/state/persistent_ord_map.rs])

    A path-copying B+tree: nodes, lookup, insertion with node splitting,
    removal, bulk construction, the iterators and the difference of two
    trees.  A node lives behind an [Arc]; an [Arc] is a node with the address
    it is allocated at, so that the two ways the code uses sharing, copying on
    write and skipping shared subtrees, are visible. *)
From stdpp Require Import prelude list.
From S2P Require Import Prelude.

(** [Ord] of the key type. *)
Class Ord (K : Type) := {
  ord_cmp : K → K → comparison;
  ord_total :: TotalCmp ord_cmp
}.

Definition MAX_FANOUT : nat := 24.
Definition BULK_FILL : nat := MAX_FANOUT - MAX_FANOUT / 4.
Definition U8_MAX : N := 255.

(** [checked_add] and [checked_sub]; the code panics on [None]. *)
Definition checked_add (max a b : N) : option N := if (a + b <=? max)%N then Some (a + b)%N else None.
Definition checked_sub (a b : N) : option N := if (b <=? a)%N then Some (a - b)%N else None.

(** [Vec::insert], [Vec::remove] and [Vec::split_off]; [None] where they panic. *)
Definition vec_insert {A} (i : nat) (x : A) (l : list A) : option (list A) :=
  if i <=? length l then Some (take i l ++ x :: drop i l) else None.
Definition vec_remove {A} (i : nat) (l : list A) : option (list A) :=
  if i <? length l then Some (delete i l) else None.
Definition vec_split_off {A} (i : nat) (l : list A) : option (list A * list A) :=
  if i <=? length l then Some (take i l, drop i l) else None.

(** [slice::partition_point]: the first element that does not satisfy [p]. *)
Fixpoint partition_point {A} (p : A → bool) (l : list A) : nat :=
  match l with
  | [] => 0
  | x :: l' => if p x then S (partition_point p l') else 0
  end.

(** [slice::binary_search_by] of a slice sorted for [f]: the matching element, or
    where it would be inserted. *)
Fixpoint binary_search_by {A} (f : A → comparison) (l : list A) : nat + nat :=
  match l with
  | [] => inr 0
  | x :: l' =>
      match f x with
      | Eq => inl 0
      | Gt => inr 0
      | Lt => match binary_search_by f l' with inl i => inl (S i) | inr i => inr (S i) end
      end
  end.

Section ord_map.
Context {K V : Type} `{Ord K}.
Notation entry := (K * V)%type.

(** The children of an internal node are [Arc]s: address and node. *)
Inductive Node : Type :=
  | Leaf (entries : list entry)
  | Internal (keys : list K) (children : list (positive * Node)).
Notation arc := (positive * Node)%type.

Definition node_is_empty (n : Node) : bool :=
  match n with
  | Leaf [] => true
  | Internal _ [] => true
  | _ => false
  end.

Definition drop_if_empty (keys : list K) (children : list arc) (idx : nat)
    : option (list K * list arc) :=
  child ← children !! idx;
  if node_is_empty child.2 then
    children' ← vec_remove idx children;
    match keys with
    | [] => Some ([], children')
    | _ => keys' ← vec_remove (idx - 1) keys; Some (keys', children')
    end
  else Some (keys, children).

Definition child_index (keys : list K) (key : K) : nat :=
  partition_point (λ k, match ord_cmp k key with Gt => false | _ => true end) keys.

Fixpoint first_key (n : Node) : option K :=
  match n with
  | Leaf entries => fst <$> head entries
  | Internal _ children => match children with [] => None | c :: _ => first_key c.2 end
  end.

Record PersistentOrdMap : Type := mkOrdMap { root : arc; height : N; len : N }.

(** Allocation: the next free address. *)
Definition new (next : positive) : PersistentOrdMap * positive :=
  (mkOrdMap (next, Leaf []) 0 0, Pos.succ next).

(** ** Lookup *)

Definition entry_cmp (key : K) (e : entry) : comparison := ord_cmp e.1 key.

Fixpoint get_rec (fuel : nat) (n : Node) (key : K) : option V :=
  match fuel with
  | O => None
  | S fuel =>
      match n with
      | Leaf entries =>
          match binary_search_by (entry_cmp key) entries with
          | inl i => snd <$> entries !! i
          | inr _ => None
          end
      | Internal keys children =>
          child ← children !! child_index keys key;
          get_rec fuel child.2 key
      end
  end.

(** One unit of fuel a level. *)
Definition levels (m : PersistentOrdMap) : nat := S (N.to_nat (height m)).

Definition get (m : PersistentOrdMap) (key : K) : option V := get_rec (levels m) (root m).2 key.
Definition contains_key (m : PersistentOrdMap) (key : K) : bool := bool_decide (is_Some (get m key)).

(** ** Insertion

    [unique p] tells whether the strong count of the [Arc] at [p] is one;
    [owned] whether the path to it is exclusive.  A node is written in
    place when both hold and is copied to a new address otherwise. *)

Section writes.
Context (unique : positive → bool).

(** [Arc::make_mut]: the address written to, whether it is exclusive, and the next
    free address. *)
Definition make_mut (owned : bool) (p next : positive) : positive * bool * positive :=
  if owned && unique p then (p, true, next) else (next, false, Pos.succ next).

(** Splits an overflowing leaf or internal node in its middle. *)
Definition split_leaf (entries : list entry) (next : positive)
    : option (list entry * option (K * arc) * positive) :=
  if MAX_FANOUT <? length entries then
    '(entries, rest) ← vec_split_off (length entries / 2) entries;
    separator ← fst <$> rest !! 0;
    Some (entries, Some (separator, (next, Leaf rest)), Pos.succ next)
  else Some (entries, None, next).

Definition split_internal (keys : list K) (children : list arc) (next : positive)
    : option (list K * list arc * option (K * arc) * positive) :=
  if length children <=? MAX_FANOUT then Some (keys, children, None, next)
  else
    let mid := length children / 2 in
    '(left_children, right_children) ← vec_split_off mid children;
    '(left_keys, right_keys) ← vec_split_off (mid - 1) keys;
    promoted ← right_keys !! 0;
    right_keys' ← vec_remove 0 right_keys;
    Some (left_keys, left_children, Some (promoted, (next, Internal right_keys' right_children)), Pos.succ next).

Fixpoint insert_rec (fuel : nat) (owned : bool) (node : arc) (key : K) (value : V) (next : positive)
    : option (option V * option (K * arc) * arc * positive) :=
  match fuel with
  | O => None
  | S fuel =>
      let '(p, owned, next) := make_mut owned node.1 next in
      match node.2 with
      | Leaf entries =>
          match binary_search_by (entry_cmp key) entries with
          | inl i =>
              old ← entries !! i;
              Some (Some old.2, None, (p, Leaf (<[i := (old.1, value)]> entries)), next)
          | inr i =>
              entries' ← vec_insert i (key, value) entries;
              '(entries', split, next) ← split_leaf entries' next;
              Some (None, split, (p, Leaf entries'), next)
          end
      | Internal keys children =>
          let idx := child_index keys key in
          child ← children !! idx;
          '(old, split, child', next) ← insert_rec fuel owned child key value next;
          let children := <[idx := child']> children in
          match split with
          | None => Some (old, None, (p, Internal keys children), next)
          | Some (separator, sibling) =>
              keys ← vec_insert idx separator keys;
              children ← vec_insert (S idx) sibling children;
              '(keys, children, split, next) ← split_internal keys children next;
              Some (old, split, (p, Internal keys children), next)
          end
      end
  end.

Definition insert (m : PersistentOrdMap) (key : K) (value : V) (next : positive)
    : option (option V * PersistentOrdMap * positive) :=
  '(old, split, root', next) ← insert_rec (levels m) true (root m) key value next;
  '(root', height', next) ←
    match split with
    | Some (separator, sibling) =>
        h ← checked_add U8_MAX (height m) 1;
        Some ((next, Internal [separator] [root'; sibling]), h, Pos.succ next)
    | None => Some (root', height m, next)
    end;
  len' ← match old with None => checked_add USIZE_MAX (len m) 1 | Some _ => Some (len m) end;
  Some (old, mkOrdMap root' height' len', next).

(** ** Removal

    The outer [option] is [None] where the code panics or the fuel runs out, the inner
    one is [None] when the key is absent. *)

Fixpoint remove_copied (fuel : nat) (n : Node) (key : K) (next : positive)
    : option (option (Node * V) * positive) :=
  match fuel with
  | O => None
  | S fuel =>
      match n with
      | Leaf entries =>
          match binary_search_by (entry_cmp key) entries with
          | inl i =>
              removed ← entries !! i;
              Some (Some (Leaf (take i entries ++ drop (S i) entries), removed.2), next)
          | inr _ => Some (None, next)
          end
      | Internal keys children =>
          let idx := child_index keys key in
          child ← children !! idx;
          '(r, next) ← remove_copied fuel child.2 key next;
          match r with
          | None => Some (None, next)
          | Some (child', removed) =>
              '(keys, children) ← drop_if_empty keys (<[idx := (next, child')]> children) idx;
              Some (Some (Internal keys children, removed), Pos.succ next)
          end
      end
  end.

Fixpoint remove_rec (fuel : nat) (node : arc) (key : K) (next : positive)
    : option (option (arc * V) * positive) :=
  match fuel with
  | O => None
  | S fuel' =>
      if unique node.1 then
        match node.2 with
        | Leaf entries =>
            match binary_search_by (entry_cmp key) entries with
            | inl i =>
                removed ← entries !! i;
                entries' ← vec_remove i entries;
                Some (Some (node.1, Leaf entries', removed.2), next)
            | inr _ => Some (None, next)
            end
        | Internal keys children =>
            let idx := child_index keys key in
            child ← children !! idx;
            '(r, next) ← remove_rec fuel' child key next;
            match r with
            | None => Some (None, next)
            | Some (child', removed) =>
                '(keys, children) ← drop_if_empty keys (<[idx := child']> children) idx;
                Some (Some (node.1, Internal keys children, removed), next)
            end
        end
      else
        '(r, next) ← remove_copied fuel node.2 key next;
        match r with
        | None => Some (None, next)
        | Some (rebuilt, removed) => Some (Some (next, rebuilt, removed), Pos.succ next)
        end
  end.

(** Collapses a root with a single child. *)
Fixpoint collapse (fuel : nat) (root : arc) (height : N) : option (arc * N) :=
  match root.2 with
  | Internal _ [only_child] =>
      match fuel with
      | O => None
      | S fuel => h ← checked_sub height 1; collapse fuel only_child h
      end
  | _ => Some (root, height)
  end.

Definition remove (m : PersistentOrdMap) (key : K) (next : positive)
    : option (option V * PersistentOrdMap * positive) :=
  '(r, next) ← remove_rec (levels m) (root m) key next;
  match r with
  | None => Some (None, m, next)
  | Some (root', removed) =>
      len' ← checked_sub (len m) 1;
      '(root', height') ← collapse (levels m) root' (height m);
      if (len' =? 0)%N then let '(m', next) := new next in Some (Some removed, m', next)
      else Some (Some removed, mkOrdMap root' height' len', next)
  end.
End writes.

(** ** Bulk construction *)

Definition even_chunks (n : nat) : list nat :=
  let groups := Nat.max ((n + (BULK_FILL - 1)) / BULK_FILL) 1 in
  let base := n / groups in
  let extra := n mod groups in
  (λ i, base + (if i <? extra then 1 else 0)) <$> seq 0 groups.

Fixpoint build_leaves (sizes : list nat) (source : list entry) (next : positive)
    : option (list (K * arc) * positive) :=
  match sizes with
  | [] => Some ([], next)
  | size :: sizes =>
      let chunk := take size source in
      min ← fst <$> chunk !! 0;
      '(level, next') ← build_leaves sizes (drop size source) (Pos.succ next);
      Some ((min, (next, Leaf chunk)) :: level, next')
  end.

Fixpoint build_groups (sizes : list nat) (source : list (K * arc)) (next : positive)
    : option (list (K * arc) * positive) :=
  match sizes with
  | [] => Some ([], next)
  | size :: sizes =>
      let group := take size source in
      min ← fst <$> group !! 0;
      '(level, next') ← build_groups sizes (drop size source) (Pos.succ next);
      Some ((min, (next, Internal (tail group.*1) group.*2)) :: level, next')
  end.

Fixpoint build_levels (fuel : nat) (level : list (K * arc)) (height : N) (next : positive)
    : option (arc * N * positive) :=
  match level, fuel with
  | [(_, root)], _ => Some (root, height, next)
  | [], _ | _, O => None
  | _, S fuel =>
      '(level, next) ← build_groups (even_chunks (length level)) level next;
      height ← checked_add U8_MAX height 1;
      build_levels fuel level height next
  end.

Definition from_sorted (entries : list entry) (next : positive) : option (PersistentOrdMap * positive) :=
  match entries with
  | [] => Some (new next)
  | _ =>
      '(level, next) ← build_leaves (even_chunks (length entries)) entries next;
      '(root, height, next) ← build_levels (length level) level 0 next;
      Some (mkOrdMap root height (N.of_nat (length entries)), next)
  end.

(** The last of the entries with one key; [deduped] is kept in reverse. *)
Definition keep_last (deduped : list entry) (e : entry) : list entry :=
  match deduped with
  | last :: rest => match ord_cmp last.1 e.1 with Eq => e :: rest | _ => e :: deduped end
  | [] => [e]
  end.

Definition from_iter (iter : list entry) (next : positive) : option (PersistentOrdMap * positive) :=
  from_sorted (rev (foldl keep_last [] (sort_by (cmp_on fst ord_cmp) iter))) next.
End ord_map.
Arguments Node : clear implicits.
Arguments PersistentOrdMap : clear implicits.
