(* ===== verification/OrdMapProps.v ===== *)
(** * Correctness of the persistent ordered map

    The well-formedness invariant of the B+tree, and lookup, insertion,
    removal and bulk construction as operations on the sorted list of
    entries. *)
From stdpp Require Import prelude list sorting.
From S2P Require Import Prelude OrdMap.

Section order.
Context {K : Type} `{Ord K}.

Definition klt (a b : K) : Prop := ord_cmp a b = Lt.

Lemma klt_trans a b c : klt a b → klt b c → klt a c.
Proof. apply (cmp_lt_trans ord_cmp). Qed.
Lemma klt_irrefl a : ¬ klt a a.
Proof. unfold klt. by rewrite (cmp_refl ord_cmp). Qed.
Lemma klt_asym a b : klt a b → ¬ klt b a.
Proof. intros Hab Hba. apply (klt_irrefl a). by eapply klt_trans. Qed.
Lemma cmp_Gt a b : ord_cmp a b = Gt ↔ klt b a.
Proof. unfold klt. by rewrite <-(cmp_lt_gt ord_cmp). Qed.
Lemma cmp_Eq a b : ord_cmp a b = Eq ↔ a = b.
Proof. apply (cmp_eq ord_cmp). Qed.
Lemma not_klt a b : ¬ klt a b ↔ b = a ∨ klt b a.
Proof.
  rewrite <-(cmp_Gt a b). unfold klt. split.
  - destruct (ord_cmp a b) eqn:E; [|done|by right]. apply cmp_Eq in E as ->. by left.
  - intros [->|E]; [by rewrite (cmp_refl ord_cmp)|congruence].
Qed.
Lemma klt_cases a b : klt a b ∨ a = b ∨ klt b a.
Proof. destruct (ord_cmp a b) eqn:E; [right; left; by apply cmp_Eq|by left|right; right; by apply cmp_Gt]. Qed.
#[global] Instance klt_dec a b : Decision (klt a b).
Proof. unfold klt. apply _. Qed.

Lemma kle_klt_trans a b c : ¬ klt b a → klt b c → klt a c.
Proof. intros [->|?]%not_klt ?; [done|by eapply klt_trans]. Qed.
Lemma klt_kle_trans a b c : klt a b → ¬ klt c b → klt a c.
Proof. intros ? [->|?]%not_klt; [done|by eapply klt_trans]. Qed.
Lemma kle_trans a b c : ¬ klt b a → ¬ klt c b → ¬ klt c a.
Proof. intros Hab Hbc Hca. apply Hbc. by eapply klt_kle_trans. Qed.

(** Half-open key ranges. *)
Definition above (lo : option K) (k : K) : Prop := match lo with None => True | Some l => ¬ klt k l end.
Definition below (hi : option K) (k : K) : Prop := match hi with None => True | Some h => klt k h end.
Definition in_range (lo hi : option K) (k : K) : Prop := above lo k ∧ below hi k.
(** A separator lies strictly inside its range. *)
Definition inside (lo hi : option K) (k : K) : Prop :=
  match lo with None => True | Some l => klt l k end ∧ below hi k.
Lemma inside_in_range lo hi k : inside lo hi k → in_range lo hi k.
Proof. intros [Hl Hh]. split; [destruct lo; [by apply klt_asym|done]|done]. Qed.
End order.

(** ** Sorted entries *)

Section entries.
Context {K V : Type} `{Ord K}.
Notation entry := (K * V)%type.
Implicit Types (es : list entry) (k : K).

Definition sorted es : Prop := StronglySorted (λ a b, klt a.1 b.1) es.

(** The specification of the map operations on the list of entries. *)
Definition before k es : list entry := filter (λ e, klt e.1 k) es.
Definition after k es : list entry := filter (λ e, klt k e.1) es.
Definition assoc k es : option V := snd <$> head (filter (λ e, ord_cmp e.1 k = Eq) es).
Definition ins k (v : V) es : list entry := before k es ++ (k, v) :: after k es.
Definition rem k es : list entry := before k es ++ after k es.

Lemma Forall_filter_2 {A} (P Q : A → Prop) `{∀ x, Decision (Q x)} (l : list A) : Forall P l → Forall P (filter Q l).
Proof. rewrite !Forall_forall. intros Hl x [_ Hx]%list_elem_of_filter. by apply Hl. Qed.

Lemma StronglySorted_filter {A} (R : relation A) (Q : A → Prop) `{∀ x, Decision (Q x)} (l : list A) :
  StronglySorted R l → StronglySorted R (filter Q l).
Proof.
  induction 1 as [|x l Hs IH Hall]; [constructor|]. rewrite filter_cons. case_decide; [|done].
  constructor; [done|by apply Forall_filter_2].
Qed.

Lemma sorted_app es1 es2 :
  sorted (es1 ++ es2) ↔ sorted es1 ∧ sorted es2 ∧ ∀ e1 e2, e1 ∈ es1 → e2 ∈ es2 → klt e1.1 e2.1.
Proof. unfold sorted. rewrite StronglySorted_app. naive_solver. Qed.

Lemma before_all k es : Forall (λ e, klt e.1 k) es → before k es = es ∧ after k es = [] ∧ assoc k es = None.
Proof.
  unfold before, after, assoc. induction 1 as [|e es He Hall (IH1 & IH2 & IH3)]; [done|].
  rewrite !filter_cons, decide_True, IH1, decide_False by (done || by apply klt_asym).
  rewrite (decide_False (P:=ord_cmp e.1 k = Eq)) by (unfold klt in He; congruence). done.
Qed.

Lemma after_all k es : Forall (λ e, klt k e.1) es → before k es = [] ∧ after k es = es ∧ assoc k es = None.
Proof.
  unfold before, after, assoc. induction 1 as [|e es He Hall (IH1 & IH2 & IH3)]; [done|].
  rewrite !filter_cons, decide_False, IH1, IH2, decide_True by (done || by apply klt_asym).
  rewrite decide_False by (apply cmp_Gt in He; congruence). done.
Qed.

Lemma assoc_app k es1 es2 :
  assoc k (es1 ++ es2) = match assoc k es1 with Some v => Some v | None => assoc k es2 end.
Proof. unfold assoc. rewrite filter_app. by destruct (filter _ es1). Qed.

(** An operation at [k] inside a list whose other parts lie on the two sides of [k]. *)
Lemma around k es1 es es2 :
  Forall (λ e, klt e.1 k) es1 → Forall (λ e, klt k e.1) es2 →
  before k (es1 ++ es ++ es2) = es1 ++ before k es
  ∧ after k (es1 ++ es ++ es2) = after k es ++ es2
  ∧ assoc k (es1 ++ es ++ es2) = assoc k es.
Proof.
  intros (E1 & E2 & E3)%before_all (F1 & F2 & F3)%after_all.
  rewrite !assoc_app, E3, F3. unfold before, after in *. rewrite !filter_app, E1, E2, F1, F2.
  rewrite app_nil_r. split_and!; try done. by destruct (assoc k es).
Qed.

(** Binary search in sorted entries. *)
Lemma search_spec k es :
  sorted es →
  match binary_search_by (entry_cmp k) es with
  | inl i => ∃ v, es !! i = Some (k, v) ∧ i < length es
               ∧ take i es = before k es ∧ drop (S i) es = after k es ∧ assoc k es = Some v
  | inr i => i ≤ length es ∧ take i es = before k es ∧ drop i es = after k es ∧ assoc k es = None
  end.
Proof.
  induction 1 as [|e es Hs IH Hall]; simpl; [done|]. unfold entry_cmp at 1.
  rewrite Forall_forall in Hall.
  destruct (ord_cmp e.1 k) eqn:E.
  - apply cmp_Eq in E. destruct e as [k' v]. simpl in *. subst k'. exists v.
    destruct (after_all k es) as (F1 & F2 & _); [by apply Forall_forall|].
    unfold before, after, assoc in *. rewrite !filter_cons. simpl.
    rewrite !(decide_False (P:=klt k k)) by apply klt_irrefl. rewrite (decide_True (P:=ord_cmp k k = Eq)) by by apply cmp_Eq.
    rewrite F1, F2. split_and!; try done. lia.
  - assert (¬ klt k e.1) as Hn by by apply klt_asym.
    unfold before, after, assoc in *. rewrite !filter_cons.
    rewrite (decide_True (P:=klt e.1 k)), (decide_False (P:=klt k e.1)) by done.
    rewrite (decide_False (P:=ord_cmp e.1 k = Eq)) by congruence.
    destruct (binary_search_by (entry_cmp k) es) as [i|i].
    + destruct IH as (v & ? & ? & ? & ? & ?). exists v. simpl. split_and!; try done; [lia|]. by f_equal.
    + destruct IH as (? & ? & ? & ?). simpl. split_and!; try done; [lia|]. by f_equal.
  - apply cmp_Gt in E. destruct (after_all k (e :: es)) as (F1 & F2 & F3).
    { constructor; [done|]. apply Forall_forall. intros x Hx. eapply klt_trans; [exact E|by apply Hall]. }
    rewrite F1, F2, F3. split_and!; try done. lia.
Qed.

Lemma ins_sorted k v es : sorted es → sorted (ins k v es).
Proof.
  intros Hs. unfold ins, before, after. rewrite sorted_app. split_and!.
  - by apply StronglySorted_filter.
  - constructor; [by apply StronglySorted_filter|]. apply Forall_forall. intros e He.
    by apply list_elem_of_filter in He as [He _].
  - intros e1 e2 [He1 _]%list_elem_of_filter [->|[He2 _]%list_elem_of_filter]%elem_of_cons; [done|].
    by eapply klt_trans.
Qed.

Lemma rem_sorted k es : sorted es → sorted (rem k es).
Proof.
  intros Hs. unfold rem, before, after. rewrite sorted_app. split_and!; [by apply StronglySorted_filter..|].
  intros e1 e2 [He1 _]%list_elem_of_filter [He2 _]%list_elem_of_filter. by eapply klt_trans.
Qed.

Lemma ins_Forall (P : entry → Prop) k v es : P (k, v) → Forall P es → Forall P (ins k v es).
Proof.
  intros Hk He. unfold ins, before, after. apply Forall_app. split; [by apply Forall_filter_2|].
  constructor; [done|by apply Forall_filter_2].
Qed.

Lemma rem_Forall (P : entry → Prop) k es : Forall P es → Forall P (rem k es).
Proof. intros He. apply Forall_app. split; by apply Forall_filter_2. Qed.
End entries.

(** ** The tree invariant *)

Section tree.
Context {K V : Type} `{Ord K}.
Notation entry := (K * V)%type.
Notation node := (Node K V).
Notation arc := (positive * node)%type.
Implicit Types (n : node) (k : K) (lo hi : option K).

(** The entries of a subtree, in order. *)
Fixpoint flatten (n : node) : list entry :=
  match n with
  | Leaf entries => entries
  | Internal _ children => flat_map (λ c, flatten c.2) children
  end.
Notation flatten_all := (flat_map (λ c : arc, flatten c.2)).

(** The children of an internal node hold the ranges its keys delimit. *)
Fixpoint wf_children (P : option K → option K → node → Prop) lo hi (keys : list K) (children : list arc) : Prop :=
  match keys, children with
  | [], [c] => P lo hi c.2
  | k :: keys, c :: children => inside lo hi k ∧ P lo (Some k) c.2 ∧ wf_children P (Some k) hi keys children
  | _, _ => False
  end.

(** All leaves at depth [h], fan-out bounded, nothing empty, keys in range. *)
Fixpoint wf (h : nat) lo hi n : Prop :=
  match h, n with
  | O, Leaf entries =>
      entries ≠ [] ∧ length entries ≤ MAX_FANOUT ∧ sorted entries
      ∧ Forall (λ e, in_range lo hi e.1) entries
  | S h, Internal keys children => length children ≤ MAX_FANOUT ∧ wf_children (wf h) lo hi keys children
  | _, _ => False
  end.

Definition lo_le lo' lo : Prop := match lo', lo with None, _ => True | Some a, Some b => ¬ klt b a | Some _, None => False end.
Definition hi_le hi hi' : Prop := match hi, hi' with _, None => True | Some a, Some b => ¬ klt b a | None, Some _ => False end.

Lemma lo_le_refl lo : lo_le lo lo.
Proof. destruct lo; [apply klt_irrefl|done]. Qed.
Lemma hi_le_refl hi : hi_le hi hi.
Proof. destruct hi; [apply klt_irrefl|done]. Qed.
Lemma in_range_mono lo lo' hi hi' k : lo_le lo' lo → hi_le hi hi' → in_range lo hi k → in_range lo' hi' k.
Proof.
  intros Hl Hh [Ha Hb]. split; destruct lo, lo', hi, hi'; simpl in *; try done;
    eauto using kle_trans, klt_kle_trans.
Qed.
Lemma inside_mono lo lo' hi hi' k : lo_le lo' lo → hi_le hi hi' → inside lo hi k → inside lo' hi' k.
Proof.
  intros Hl Hh [Ha Hb]. split; destruct lo, lo', hi, hi'; simpl in *; try done;
    eauto using kle_klt_trans, klt_kle_trans.
Qed.

Lemma wf_children_mono (P : option K → option K → node → Prop) lo lo' hi hi' keys children :
  (∀ lo lo' hi hi' n, lo_le lo' lo → hi_le hi hi' → P lo hi n → P lo' hi' n) →
  lo_le lo' lo → hi_le hi hi' → wf_children P lo hi keys children → wf_children P lo' hi' keys children.
Proof.
  intros HP. revert lo lo' children. induction keys as [|k keys IH]; intros lo lo' [|c children] Hl Hh; simpl; try done.
  - destruct children; [|done]. by apply HP.
  - intros (Hk & Hc & Hr). split_and!; [by eapply inside_mono| |].
    + eapply HP; [exact Hl|apply hi_le_refl|done].
    + eapply IH; [apply lo_le_refl|done|done].
Qed.

Lemma wf_mono h lo lo' hi hi' n : lo_le lo' lo → hi_le hi hi' → wf h lo hi n → wf h lo' hi' n.
Proof.
  revert lo lo' hi hi' n. induction h as [|h IH]; intros lo lo' hi hi' [es|ks cs] Hl Hh; simpl; try done.
  - intros (? & ? & ? & Hr). split_and!; try done. eapply Forall_impl; [exact Hr|].
    intros e. by apply in_range_mono.
  - intros [? Hc]. split; [done|]. by eapply wf_children_mono.
Qed.

Lemma in_range_lo lo hi k : in_range lo hi k → lo_le lo (Some k).
Proof. intros [Ha _]. by destruct lo. Qed.
Lemma in_range_hi lo hi k : in_range lo hi k → hi_le (Some k) hi.
Proof. intros [_ Hb]. destruct hi; [by apply klt_asym|done]. Qed.

(** The entries of a well-formed tree. *)
Lemma wf_entries h lo hi n :
  wf h lo hi n → flatten n ≠ [] ∧ sorted (flatten n) ∧ Forall (λ e, in_range lo hi e.1) (flatten n).
Proof.
  revert lo hi n. induction h as [|h IH]; intros lo hi [es|ks cs]; simpl; try done; [naive_solver|].
  intros [_ Hc]. revert lo cs Hc. induction ks as [|k ks IHk]; intros lo [|c cs]; simpl; try done.
  { destruct cs; [|done]. simpl. rewrite app_nil_r. apply IH. }
  intros (Hk%inside_in_range & Hc & Hr). destruct (IH _ _ _ Hc) as (Hn & Hs & Hall). destruct (IHk _ _ Hr) as (_ & Hs' & Hall').
  split_and!.
  - by destruct (flatten c.2).
  - rewrite Forall_forall in Hall, Hall'. apply sorted_app. split_and!; try done.
    intros e1 e2 [_ H1]%Hall [H2 _]%Hall'. by eapply klt_kle_trans.
  - apply Forall_app. split; (eapply Forall_impl; [done|]); intros e; apply in_range_mono;
      eauto using lo_le_refl, hi_le_refl, in_range_lo, in_range_hi.
Qed.

(** ** Descending to a child *)

Section descend.
Context (P : option K → option K → node → Prop).
Hypothesis P_mono : ∀ lo lo' hi hi' n, lo_le lo' lo → hi_le hi hi' → P lo hi n → P lo' hi' n.
Hypothesis P_range : ∀ lo hi n, P lo hi n → Forall (λ e, in_range lo hi e.1) (flatten n).

Lemma wf_children_range lo hi keys children :
  wf_children P lo hi keys children → Forall (λ e, in_range lo hi e.1) (flatten_all children).
Proof.
  revert lo children. induction keys as [|k keys IH]; intros lo [|c cs]; simpl; try done.
  { destruct cs; [|done]. simpl. rewrite app_nil_r. apply P_range. }
  intros (Hk%inside_in_range & Hc & Hr). apply Forall_app.
  split; [eapply Forall_impl; [by apply P_range|]|eapply Forall_impl; [by apply IH|]]; intros e; apply in_range_mono;
    eauto using lo_le_refl, hi_le_refl, in_range_lo, in_range_hi.
Qed.

(** The child [child_index] selects: its range holds the key, the other children lie
    on the two sides of the key, anything well formed can take its place, and
    it can be dropped with the separator next to it. *)
Record zipper lo hi (keys : list K) (children : list arc) (key : K)
    (c : arc) lo' hi' cs1 cs2 ks1 ks2 : Prop := {
  z_children : children = cs1 ++ c :: cs2;
  z_keys : keys = ks1 ++ ks2;
  z_len : length cs1 = child_index keys key ∧ length ks1 = child_index keys key;
  z_child : P lo' hi' c.2;
  z_key : in_range lo' hi' key;
  z_left : Forall (λ e, klt e.1 key) (flatten_all cs1);
  z_right : Forall (λ e, klt key e.1) (flatten_all cs2);
  z_plug ksm csm : wf_children P lo' hi' ksm csm → wf_children P lo hi (ks1 ++ ksm ++ ks2) (cs1 ++ csm ++ cs2);
  z_drop : match keys with
           | [] => cs1 ++ cs2 = []
           | _ => wf_children P lo hi (delete (child_index keys key - 1) keys) (cs1 ++ cs2)
           end
}.

(** Adjoining separators on the right of a well-formed list of children. *)
Lemma plug_left k lo hi ks cs ksm csm :
  wf_children P lo (Some k) ksm csm → inside lo hi k → wf_children P (Some k) hi ks cs →
  wf_children P lo hi (ksm ++ k :: ks) (csm ++ cs).
Proof.
  revert lo csm. induction ksm as [|km ksm IH]; intros lo [|c csm]; simpl; try done.
  { by destruct csm. }
  intros (Hk & Hc & Hr) Hi Hks. split_and!; [eapply inside_mono; [apply lo_le_refl| |exact Hk]|done|].
  { eapply in_range_hi, inside_in_range, Hi. }
  apply IH; [done| |done]. split; [|apply Hi].
  clear -Hr Hc Hk. destruct Hk as [_ Hk]. exact Hk.
Qed.

Lemma wf_children_length lo hi ks cs : wf_children P lo hi ks cs → length cs = S (length ks).
Proof.
  clear. revert lo cs. induction ks as [|k ks IH]; intros lo [|c cs]; simpl; try done; [by destruct cs|].
  intros (_ & _ & Hr). f_equal. by eapply IH.
Qed.

Lemma wf_children_split k lo hi ks1 ks2 cs1 cs2 :
  wf_children P lo hi (ks1 ++ k :: ks2) (cs1 ++ cs2) → length cs1 = S (length ks1) →
  wf_children P lo (Some k) ks1 cs1 ∧ inside lo hi k ∧ wf_children P (Some k) hi ks2 cs2.
Proof.
  clear. revert lo cs1. induction ks1 as [|k1 ks1 IH]; intros lo [|c cs1]; simpl; try done.
  { destruct cs1; [|done]. naive_solver. }
  intros (Hk & Hc & Hr) [= Hl]. destruct (IH (Some k1) cs1 Hr Hl) as (Hr1 & Hk1 & Hr2). destruct Hk1 as [Hk1 Hh].
  split_and!; try done.
  - split; [apply Hk|done].
  - split; [|done]. destruct lo as [l|]; [|done]. eapply klt_trans; [apply Hk|done].
Qed.

Lemma descend lo hi keys children key :
  wf_children P lo hi keys children → in_range lo hi key →
  ∃ c lo' hi' cs1 cs2 ks1 ks2, zipper lo hi keys children key c lo' hi' cs1 cs2 ks1 ks2.
Proof.
  unfold child_index. revert lo children. induction keys as [|k keys IH]; intros lo [|c cs] Hwf Hkey; simpl in Hwf; try done.
  { destruct cs; [|done]. exists c, lo, hi, [], [], [], []. split; try done.
    intros ksm csm. by rewrite !app_nil_r. }
  destruct Hwf as (Hk & Hc & Hr).
  destruct (decide (klt key k)) as [Hlt|Hge].
  - exists c, lo, (Some k), [], cs, [], (k :: keys).
    assert (child_index (k :: keys) key = 0) as E.
    { unfold child_index. simpl. by apply cmp_Gt in Hlt as ->. }
    split; rewrite ?E; try done.
    + by split; [apply Hkey|].
    + eapply Forall_impl; [by eapply wf_children_range|]. intros e [He _]. by eapply klt_kle_trans.
    + intros ksm csm Hm. simpl. by apply plug_left.
    + simpl. eapply wf_children_mono; [exact P_mono| |apply hi_le_refl|done].
      by eapply in_range_lo, inside_in_range.
  - destruct (IH (Some k) cs Hr) as (c' & lo' & hi' & cs1 & cs2 & ks1 & ks2 & Z); [split; [done|apply Hkey]|].
    exists c', lo', hi', (c :: cs1), cs2, (k :: ks1), ks2.
    assert (child_index (k :: keys) key = S (child_index keys key)) as E.
    { unfold child_index. simpl. destruct (ord_cmp k key) eqn:Ec; try done. by apply cmp_Gt in Ec. }
    destruct Z as [-> Zk [Zl1 Zl2] Zc Zin Zleft Zright Zplug Zdrop].
    split; rewrite ?E; try done.
    + simpl. by rewrite Zk at 1.
    + simpl. by rewrite Zl1, Zl2.
    + simpl. apply Forall_app. split; [|done]. eapply Forall_impl; [by apply P_range|].
      intros e [_ He]. by eapply klt_kle_trans.
    + intros ksm csm Hm. simpl. split_and!; [done..|by apply Zplug].
    + simpl. rewrite Nat.sub_0_r. destruct keys as [|k' keys].
      * simpl. destruct cs1; [|done]. simpl in Zdrop. subst cs2. simpl.
        eapply P_mono; [apply lo_le_refl| |done]. by eapply in_range_hi, inside_in_range.
      * destruct (child_index (k' :: keys) key) as [|j] eqn:Ei.
        -- destruct cs1; [|done]. simpl in Hr |- *. destruct Hr as (Hk' & Hc' & Hr').
           split_and!; [eapply inside_mono; [..|exact Hk']|eapply P_mono; [apply lo_le_refl| |exact Hc]|done].
           ++ by eapply in_range_lo, inside_in_range.
           ++ apply hi_le_refl.
           ++ apply klt_asym, Hk'.
        -- simpl in Zdrop |- *. rewrite Nat.sub_0_r in Zdrop. split_and!; done.
Qed.
End descend.
End tree.

(** ** The operations on well-formed trees *)

Section operations.
Context {K V : Type} `{Ord K}.
Notation entry := (K * V)%type.
Notation node := (Node K V).
Notation arc := (positive * node)%type.
Implicit Types (n : node) (k key : K) (lo hi : option K).
Notation flatten_all := (flat_map (λ c : arc, flatten c.2)).

Lemma descend_wf h lo hi keys children key :
  wf_children (V:=V) (wf h) lo hi keys children → in_range lo hi key →
  ∃ c lo' hi' cs1 cs2 ks1 ks2, zipper (wf h) lo hi keys children key c lo' hi' cs1 cs2 ks1 ks2.
Proof.
  apply descend; [intros ????? Hl Hh; by apply wf_mono|]. intros lo' hi' n Hn. by apply wf_entries in Hn as (_ & _ & ?).
Qed.

(** The specification of the entries seen through a zipper. *)
Lemma zipper_around h lo hi keys children key c lo' hi' cs1 cs2 ks1 ks2 :
  zipper (V:=V) (wf h) lo hi keys children key c lo' hi' cs1 cs2 ks1 ks2 →
  children !! child_index keys key = Some c
  ∧ (∀ c', <[child_index keys key := c']> children = cs1 ++ c' :: cs2)
  ∧ (∀ v, ins key v (flatten_all children) = flatten_all cs1 ++ ins key v (flatten c.2) ++ flatten_all cs2)
  ∧ rem key (flatten_all children) = flatten_all cs1 ++ rem key (flatten c.2) ++ flatten_all cs2
  ∧ assoc key (flatten_all children) = assoc key (flatten c.2).
Proof.
  intros [-> _ [Hl _] _ _ H1 H2 _ _]. rewrite <-Hl, list_lookup_middle by done. split; [done|].
  split. { intros c'. rewrite insert_app_r_alt by done. by rewrite Nat.sub_diag. }
  rewrite flat_map_app. simpl. destruct (around key _ (flatten c.2) _ H1 H2) as (E1 & E2 & E3).
  unfold ins, rem. rewrite E1, E2, E3. split_and!; [|by rewrite <-!app_assoc|done].
  intros v. by rewrite <-!app_assoc.
Qed.

Lemma get_rec_spec fuel h lo hi n key :
  wf h lo hi n → in_range lo hi key → h < fuel → get_rec fuel n key = assoc key (flatten n).
Proof.
  revert fuel lo hi n. induction h as [|h IH]; intros [|fuel] lo hi [es|ks cs] Hwf Hk Hf; simpl in *; try done; try lia.
  - destruct Hwf as (_ & _ & Hs & _). pose proof (search_spec key es Hs) as Hb.
    destruct (binary_search_by (entry_cmp key) es); [destruct Hb as (v & -> & _ & _ & _ & ->)|destruct Hb as (_ & _ & _ & ->)]; done.
  - destruct Hwf as [_ Hc]. destruct (descend_wf h lo hi ks cs key Hc Hk) as (c & lo' & hi' & cs1 & cs2 & ks1 & ks2 & Z).
    destruct (zipper_around _ _ _ _ _ _ _ _ _ _ _ _ _ Z) as (-> & _ & _ & _ & ->). simpl.
    eapply IH; [apply Z|apply Z|lia].
Qed.

(** The number of entries or children of a node. *)
Definition fanout n : nat := match n with Leaf es => length es | Internal _ cs => length cs end.

(** Credit of a subtree: what its nodes hold above half of the fan-out, a child counting
    twelve times an entry of its own subtree.  An insertion adds at most one,
    and a split consumes the worth of a child of the parent. *)
Fixpoint credit (h : nat) n : nat :=
  match h, n with
  | S h', Internal _ cs => 12 ^ h * (length cs - 13) + sum_list_with (λ c, credit h' c.2) cs
  | _, Leaf es => length es - 13
  | _, _ => 0
  end.
Notation credits h := (sum_list_with (λ c : arc, credit h c.2)).
#[local] Arguments Nat.pow : simpl never.

Lemma credit_grow a s : a * (S s - 13) ≤ a * (s - 13) + a.
Proof. nia. Qed.
Lemma credit_shrink a s s' : s' ≤ s → a * (s' - 13) ≤ a * (s - 13).
Proof. nia. Qed.
Lemma credits_middle h (cs1 cs2 : list arc) c :
  credits h (cs1 ++ c :: cs2) = credits h cs1 + credit h c.2 + credits h cs2.
Proof. rewrite sum_list_with_app. simpl. lia. Qed.

(** What inserting [key] in a subtree leaves: one subtree, or two around a separator. *)
Definition inserted h lo hi n key (v : V) (old : option V) (sp : option (K * arc)) (a : arc) : Prop :=
  old = assoc key (flatten n) ∧
  match sp with
  | None => wf h lo hi a.2 ∧ flatten a.2 = ins key v (flatten n) ∧ fanout n ≤ fanout a.2
            ∧ credit h a.2 ≤ S (credit h n)
  | Some (sep, sib) =>
      old = None ∧ inside lo hi sep ∧ wf h lo (Some sep) a.2 ∧ wf h (Some sep) hi sib.2
      ∧ flatten a.2 ++ flatten sib.2 = ins key v (flatten n)
      ∧ credit h a.2 + credit h sib.2 + 12 ^ S h ≤ S (credit h n)
  end.

Lemma split_leaf_spec lo hi (es : list entry) next :
  es ≠ [] → length es ≤ S MAX_FANOUT → sorted es → Forall (λ e, in_range lo hi e.1) es →
  ∃ es' sp next', split_leaf es next = Some (es', sp, next') ∧
    match sp with
    | None => es' = es ∧ wf 0 lo hi (Leaf es')
    | Some (sep, sib) => inside lo hi sep ∧ wf 0 lo (Some sep) (Leaf es') ∧ wf 0 (Some sep) hi sib.2
                         ∧ es' ++ flatten sib.2 = es
                         ∧ credit 0 (Leaf es') + credit 0 sib.2 + 12 ≤ length es - 13
    end.
Proof.
  intros Hne Hlen Hs Hr. unfold split_leaf. destruct (MAX_FANOUT <? length es) eqn:E; last first.
  { apply Nat.ltb_ge in E. eexists _, _, _. split; [done|]. simpl. split_and!; done. }
  apply Nat.ltb_lt in E. assert (length es = 25) as Hl by (unfold MAX_FANOUT in *; lia). rewrite Hl.
  change (25 / 2) with 12. unfold vec_split_off. rewrite Hl. simpl.
  rewrite <-(take_drop 12 es) in Hs, Hr.
  assert (length (take 12 es) = 12) as Ht by (rewrite length_take; lia).
  assert (length (drop 12 es) = 13) as Hd by (rewrite length_drop; lia).
  destruct (take 12 es) as [|e0 es1] eqn:E1; [done|]. destruct (drop 12 es) as [|e es2] eqn:E2; [done|].
  apply sorted_app in Hs as (Hs1 & Hs2 & Hlt). apply Forall_app in Hr as [Hr1 Hr2].
  eexists _, _, _. split; [done|]. simpl.
  assert (∀ x, x ∈ e0 :: es1 → klt x.1 e.1) as Hx by (intros x Hx; apply Hlt; [done|left]).
  split_and!; try done; try (unfold MAX_FANOUT; simpl in *; lia).
  - assert (in_range lo hi e.1) as Hre by (by rewrite Forall_forall in Hr2; apply Hr2; left).
    split; [|apply Hre]. destruct lo as [l|]; [|done]. apply (kle_klt_trans _ e0.1); [|apply Hx; left].
    rewrite Forall_forall in Hr1. apply Hr1. left.
  - rewrite Forall_forall in Hr1 |- *. intros x Hin. split; [by apply Hr1|by apply Hx].
  - rewrite Forall_forall in Hr2 |- *. intros x Hin. split; [|by apply Hr2].
    apply elem_of_cons in Hin as [->|Hin]; [apply klt_irrefl|]. apply StronglySorted_inv in Hs2 as [_ Hs2].
    rewrite Forall_forall in Hs2. by apply klt_asym, Hs2.
  - change ((e0 :: es1) ++ e :: es2 = es). rewrite <-E1, <-E2. apply take_drop.
Qed.

Lemma split_internal_spec h lo hi (ks : list K) (cs : list arc) next :
  length cs ≤ S MAX_FANOUT → wf_children (wf h) lo hi ks cs →
  ∃ ks' cs' sp next', split_internal ks cs next = Some (ks', cs', sp, next') ∧
    match sp with
    | None => cs' = cs ∧ wf (S h) lo hi (Internal ks' cs')
    | Some (sep, sib) => inside lo hi sep ∧ wf (S h) lo (Some sep) (Internal ks' cs') ∧ wf (S h) (Some sep) hi sib.2
                         ∧ flatten_all cs' ++ flatten sib.2 = flatten_all cs
                         ∧ credit (S h) (Internal ks' cs') + credit (S h) sib.2 + 12 ^ S (S h)
                           ≤ 12 ^ S h * (length cs - 13) + credits h cs
    end.
Proof.
  intros Hlen Hwf. unfold split_internal. destruct (length cs <=? MAX_FANOUT) eqn:E.
  { apply Nat.leb_le in E. eexists _, _, _, _. split; [done|]. simpl. done. }
  apply Nat.leb_gt in E. assert (length cs = 25) as Hl by (unfold MAX_FANOUT in *; lia). rewrite Hl.
  pose proof (wf_children_length _ _ _ _ _ Hwf) as Hk. rewrite Hl in Hk. injection Hk as Hk.
  change (25 / 2) with 12. unfold vec_split_off. rewrite Hl, <-Hk. simpl.
  destruct (drop 11 ks) as [|k ks2] eqn:Ed; [apply (f_equal length) in Ed; rewrite length_drop in Ed; simpl in Ed; lia|].
  simpl. eexists _, _, _, _. split; [done|].
  rewrite <-(take_drop 12 cs), <-(take_drop 11 ks), Ed in Hwf.
  apply wf_children_split in Hwf as (Hw1 & Hi & Hw2); [|rewrite !length_take; lia].
  simpl. split_and!; try done; try (rewrite ?length_take, ?length_drop; unfold MAX_FANOUT; lia).
  - by rewrite <-flat_map_app, take_drop.
  - rewrite length_take, length_drop, Hl. change (12 `min` 25 - 13) with 0. change (25 - 12 - 13) with 0.
    change (25 - 13) with 12. pose proof (sum_list_with_app (λ c : arc, credit h c.2) (take 12 cs) (drop 12 cs)) as Hsum.
    rewrite take_drop in Hsum. rewrite Hsum, (Nat.pow_succ_r' 12 (S h)). lia.
Qed.

Lemma vec_insert_app {A} (l1 l2 : list A) i x : length l1 = i → vec_insert i x (l1 ++ l2) = Some (l1 ++ x :: l2).
Proof.
  intros <-. unfold vec_insert. rewrite length_app, (proj2 (Nat.leb_le _ _)) by lia.
  by rewrite take_app_length, drop_app_length.
Qed.

Lemma vec_remove_middle {A} (l1 l2 : list A) x : vec_remove (length l1) (l1 ++ x :: l2) = Some (l1 ++ l2).
Proof.
  unfold vec_remove. rewrite length_app, (proj2 (Nat.ltb_lt _ _)) by (simpl; lia). by rewrite delete_middle.
Qed.

Lemma insert_rec_spec unique fuel h lo hi owned (a : arc) key (v : V) next :
  wf h lo hi a.2 → in_range lo hi key → h < fuel →
  ∃ old sp a' next', insert_rec unique fuel owned a key v next = Some (old, sp, a', next')
    ∧ inserted h lo hi a.2 key v old sp a'.
Proof.
  revert fuel lo hi owned a next.
  induction h as [|h IH]; intros [|fuel] lo hi owned [q [es|ks cs]] next Hwf Hk Hf; simpl in *; try done; try lia;
    destruct (make_mut unique owned q next) as [[p owned'] next1].
  - destruct Hwf as (Hne & Hlen & Hs & Hr). pose proof (search_spec key es Hs) as Hb.
    pose proof (ins_sorted key v es Hs) as His. pose proof (ins_Forall _ key v es Hk Hr) as Hir.
    destruct (binary_search_by (entry_cmp key) es) as [i|i].
    + destruct Hb as (w & Hi & Hil & Ht & Hd & Ha). rewrite Hi. simpl. eexists _, _, _, _. split; [done|].
      assert (<[i:=(key, v)]> es = ins key v es) as E.
      { rewrite insert_take_drop by done. by rewrite Ht, Hd. }
      split; [done|]. simpl. rewrite E. split_and!; try done.
      * unfold ins. by destruct (before key es).
      * by rewrite <-E, length_insert.
      * by rewrite <-E, length_insert.
      * rewrite <-E, length_insert. lia.
    + destruct Hb as (Hil & Ht & Hd & Ha).
      assert (length (ins key v es) = S (length es)) as Hlen'.
      { unfold ins. rewrite length_app. simpl. rewrite <-Ht, <-Hd, length_take, length_drop. lia. }
      assert (vec_insert i (key, v) es = Some (ins key v es)) as ->.
      { unfold vec_insert. rewrite (proj2 (Nat.leb_le _ _)) by done. by rewrite Ht, Hd. }
      simpl. destruct (split_leaf_spec lo hi (ins key v es) next1) as (es' & sp & next' & -> & Hsp); try done.
      { unfold ins. by destruct (before key es). }
      { by rewrite Hlen', <-Nat.succ_le_mono. }
      simpl. eexists _, _, _, _. split; [done|]. split; [done|].
      rewrite Hlen' in Hsp. destruct sp as [[sep sib]|].
      * destruct Hsp as (? & ? & ? & ? & ?). split_and!; try done. change (12 ^ 1) with 12. simpl in *. lia.
      * destruct Hsp as [-> ?]. split_and!; try done; simpl; rewrite ?Hlen'; lia.
  - destruct Hwf as [Hlen Hc].
    destruct (descend_wf h lo hi ks cs key Hc Hk) as (c & lo' & hi' & cs1 & cs2 & ks1 & ks2 & Z).
    destruct (zipper_around _ _ _ _ _ _ _ _ _ _ _ _ _ Z) as (-> & Hset & Hins & _ & Has). simpl.
    destruct (IH fuel lo' hi' owned' c next1) as (old & sp & c' & next' & -> & Hold & Hsp); [apply Z|apply Z|lia|].
    simpl. rewrite Hset. destruct Z as [Zc Zk [Zl1 Zl2] _ _ _ _ Zplug _]. destruct sp as [[sep sib]|].
    + destruct Hsp as (Hnone & Hin & Hw1 & Hw2 & Hfl & Hcr).
      assert (vec_insert (child_index ks key) sep ks = Some (ks1 ++ sep :: ks2)) as ->
        by (rewrite Zk at 2; by apply vec_insert_app). simpl.
      change (cs1 ++ c' :: cs2) with (cs1 ++ [c'] ++ cs2). rewrite (app_assoc cs1).
      rewrite vec_insert_app by (rewrite length_app, Zl1; simpl; lia). simpl. rewrite <-app_assoc. simpl.
      destruct (split_internal_spec h lo hi (ks1 ++ [sep] ++ ks2) (cs1 ++ [c'; sib] ++ cs2) next')
        as (ks' & cs' & sp' & next'' & Es & Hs'). { rewrite Zc in Hlen. rewrite !length_app in *. simpl in *. lia. }
      { apply Zplug. simpl. done. }
      simpl in Es. rewrite Es. simpl. eexists _, _, _, _. split; [done|]. split; [simpl; by rewrite Has|].
      assert (flatten_all (cs1 ++ [c'; sib] ++ cs2) = ins key v (flatten_all cs)) as Ef.
      { rewrite Hins, flat_map_app. simpl. by rewrite <-Hfl, <-!app_assoc. }
      assert (length (cs1 ++ [c'; sib] ++ cs2) = S (length cs)) as Hl' by (rewrite Zc, !length_app; simpl; lia).
      assert (12 ^ S h * (length (cs1 ++ [c'; sib] ++ cs2) - 13) + credits h (cs1 ++ [c'; sib] ++ cs2)
        ≤ S (credit (S h) (Internal ks cs))) as Hcr'.
      { rewrite Hl'. pose proof (credit_grow (12 ^ S h) (length cs)). cbn [credit app]. rewrite Zc at 3.
        rewrite !credits_middle. simpl. lia. }
      destruct sp' as [[sep' sib']|].
      * destruct Hs' as (? & ? & ? & Hfl' & ?). split_and!; try done; [simpl; by rewrite Hfl', Ef|by etrans].
      * destruct Hs' as [-> ?]. split_and!; try done. simpl. simpl in Hl'. lia.
    + destruct Hsp as (Hw & Hfl & _ & Hcr). eexists _, _, _, _. split; [done|]. split; [simpl; by rewrite Has|]. simpl.
      split_and!.
      * rewrite Zc in Hlen. rewrite !length_app in *. simpl in *. lia.
      * rewrite Zk. by apply (Zplug [] [c']).
      * rewrite Hins, flat_map_app. simpl. by rewrite Hfl.
      * by rewrite Zc, !length_app.
      * rewrite Zc, !credits_middle, !length_app. simpl. lia.
Qed.

(** A subtree after a removal: empty, or well formed. *)
Definition pruned h lo hi n : Prop := (node_is_empty n = true ∧ flatten n = []) ∨ wf h lo hi n.

Lemma wf_not_empty h lo hi n : wf h lo hi n → node_is_empty n = false.
Proof.
  destruct h as [|h], n as [[|e es]|ks [|c cs]]; simpl; try done; [naive_solver|].
  intros [_ Hc]. by destruct ks.
Qed.

Lemma drop_if_empty_spec h lo hi keys children key c lo' hi' cs1 cs2 ks1 ks2 c' :
  zipper (V:=V) (wf h) lo hi keys children key c lo' hi' cs1 cs2 ks1 ks2 → length children ≤ MAX_FANOUT →
  pruned h lo' hi' c'.2 →
  ∃ ks' cs', drop_if_empty keys (<[child_index keys key := c']> children) (child_index keys key) = Some (ks', cs')
    ∧ pruned (S h) lo hi (Internal ks' cs')
    ∧ flatten_all cs' = flatten_all cs1 ++ flatten c'.2 ++ flatten_all cs2
    ∧ (credit h c'.2 ≤ credit h c.2 →
       credit (S h) (Internal ks' cs') ≤ credit (S h) (Internal keys children)).
Proof.
  intros Z Hlen Hp. destruct (zipper_around _ _ _ _ _ _ _ _ _ _ _ _ _ Z) as (_ & -> & _).
  destruct Z as [Zc Zk [Zl1 Zl2] _ _ _ _ Zplug Zdrop]. unfold drop_if_empty.
  rewrite <-Zl1, list_lookup_middle by done. simpl. rewrite Zc, length_app in Hlen. simpl in Hlen.
  destruct Hp as [[-> Hf]|Hw].
  - rewrite vec_remove_middle. simpl. rewrite Hf. rewrite <-Zl1 in Zdrop. destruct keys as [|k keys].
    { eexists _, _. split; [done|]. rewrite Zdrop. apply app_eq_nil in Zdrop as [-> ->].
      split_and!; [by left|done|]. intros _. rewrite Zc. simpl. lia. }
    unfold vec_remove. rewrite (proj2 (Nat.ltb_lt _ _)); last first.
    { assert (length cs1 ≤ length (k :: keys)) by (rewrite Zl1, <-Zl2, Zk, length_app; lia). simpl in *. lia. }
    simpl. eexists _, _. split; [done|]. split_and!; [right; split; [rewrite length_app; lia|done]|by rewrite flat_map_app|].
    intros _. cbn [credit]. rewrite Zc, credits_middle, sum_list_with_app.
    pose proof (credit_shrink (12 ^ S h) (length (cs1 ++ c :: cs2)) (length (cs1 ++ cs2))) as Hcs.
    rewrite !length_app in *. simpl in *. lia.
  - rewrite (wf_not_empty _ _ _ _ Hw). eexists _, _. split; [done|]. split_and!; [|by rewrite flat_map_app|].
    + right. split; [rewrite length_app; simpl; lia|]. rewrite Zk. by apply (Zplug [] [c']).
    + intros Hcr. cbn [credit]. rewrite Zc, !credits_middle, !length_app. simpl. lia.
Qed.

(** What a removal returns and leaves. *)
Definition removed_from h lo hi n key (r : option (node * V)) : Prop :=
  match r with
  | None => assoc key (flatten n) = None
  | Some (n', w) => assoc key (flatten n) = Some w ∧ pruned h lo hi n' ∧ flatten n' = rem key (flatten n)
                    ∧ credit h n' ≤ credit h n
  end.

Lemma remove_leaf_spec lo hi (es : list entry) key i w :
  sorted es → wf 0 lo hi (Leaf es) → binary_search_by (entry_cmp key) es = inl i → es !! i = Some w →
  removed_from 0 lo hi (Leaf es) key (Some (Leaf (take i es ++ drop (S i) es), w.2))
  ∧ vec_remove i es = Some (take i es ++ drop (S i) es).
Proof.
  intros Hs Hwf Hb Hi. pose proof (search_spec key es Hs) as Hsp. rewrite Hb in Hsp.
  destruct Hsp as (v & Hi' & Hl & Ht & Hd & Ha). rewrite Hi in Hi'. injection Hi' as ->. simpl. split.
  - rewrite Ht, Hd. split_and!; [done| |done|].
    2: { rewrite <-Ht, <-Hd, length_app, length_take, length_drop. lia. }
    destruct Hwf as (_ & Hlen & _ & Hr).
    destruct (before key es ++ after key es) eqn:E; [by left|right]. rewrite <-E. change (wf 0 lo hi (Leaf (rem key es))).
    split_and!; [unfold rem; by rewrite E| |by apply rem_sorted|by apply rem_Forall].
    unfold rem. rewrite <-Ht, <-Hd, length_app, length_take, length_drop. lia.
  - unfold vec_remove. rewrite (proj2 (Nat.ltb_lt _ _)) by done. by rewrite delete_take_drop.
Qed.

Lemma remove_copied_spec fuel h lo hi n key next :
  wf h lo hi n → in_range lo hi key → h < fuel →
  ∃ r next', remove_copied fuel n key next = Some (r, next') ∧ removed_from h lo hi n key r.
Proof.
  revert fuel lo hi n next. induction h as [|h IH]; intros [|fuel] lo hi [es|ks cs] next Hwf Hk Hf; try done; try lia; simpl.
  - pose proof Hwf as (_ & _ & Hs & _). pose proof (search_spec key es Hs) as Hb.
    destruct (binary_search_by (entry_cmp key) es) as [i|i] eqn:E.
    + destruct Hb as (w & Hi & _). rewrite Hi. simpl. eexists _, _. split; [done|].
      by apply (remove_leaf_spec lo hi es key i (key, w)).
    + eexists _, _. split; [done|]. apply Hb.
  - destruct Hwf as [Hlen Hc].
    destruct (descend_wf h lo hi ks cs key Hc Hk) as (c & lo' & hi' & cs1 & cs2 & ks1 & ks2 & Z).
    destruct (zipper_around _ _ _ _ _ _ _ _ _ _ _ _ _ Z) as (-> & _ & _ & Hrem & Has). simpl.
    destruct (IH fuel lo' hi' c.2 next) as (r & next' & -> & Hr); [apply Z|apply Z|lia|]. simpl.
    destruct r as [[n' w]|]; [|eexists _, _; split; [done|]; simpl; by rewrite Has].
    destruct Hr as (Hw & Hp & Hfl & Hcr).
    destruct (drop_if_empty_spec h lo hi ks cs key c lo' hi' cs1 cs2 ks1 ks2 (next', n') Z Hlen Hp)
      as (ks' & cs' & -> & Hp' & Hfl' & Hcr'). simpl. eexists _, _. split; [done|].
    split_and!; [simpl; by rewrite Has|done|simpl; by rewrite Hrem, Hfl', <-Hfl|by apply Hcr'].
Qed.

Lemma remove_rec_spec unique fuel h lo hi (a : arc) key next :
  wf h lo hi a.2 → in_range lo hi key → h < fuel →
  ∃ r next', remove_rec unique fuel a key next = Some (r, next')
    ∧ removed_from h lo hi a.2 key ((λ p, (p.1.2, p.2)) <$> r).
Proof.
  revert fuel lo hi a next. induction h as [|h IH]; intros [|fuel] lo hi [q n] next Hwf Hk Hf; try done; try lia;
    cbn [remove_rec snd fst]; (destruct (unique q);
    [|destruct (remove_copied_spec (S fuel) _ lo hi n key next Hwf Hk Hf) as (r & next' & -> & Hr);
      cbn [mbind option_bind]; destruct r as [[n' w]|]; eexists _, _; (split; [done|exact Hr])]);
    destruct n as [es|ks cs]; try done.
  - pose proof Hwf as (_ & _ & Hs & _). pose proof (search_spec key es Hs) as Hb.
    destruct (binary_search_by (entry_cmp key) es) as [i|i] eqn:E.
    + destruct Hb as (w & Hi & _). rewrite Hi. simpl.
      destruct (remove_leaf_spec lo hi es key i (key, w)) as [Hr ->]; try done. by eexists _, _.
    + eexists _, _. split; [done|]. apply Hb.
  - destruct Hwf as [Hlen Hc].
    destruct (descend_wf h lo hi ks cs key Hc Hk) as (c & lo' & hi' & cs1 & cs2 & ks1 & ks2 & Z).
    destruct (zipper_around _ _ _ _ _ _ _ _ _ _ _ _ _ Z) as (-> & _ & _ & Hrem & Has). simpl.
    destruct (IH fuel lo' hi' c next) as (r & next' & -> & Hr); [apply Z|apply Z|lia|]. simpl.
    destruct r as [[c' w]|]; [|eexists _, _; split; [done|]; simpl; by rewrite Has].
    destruct Hr as (Hw & Hp & Hfl & Hcr).
    destruct (drop_if_empty_spec h lo hi ks cs key c lo' hi' cs1 cs2 ks1 ks2 c' Z Hlen Hp)
      as (ks' & cs' & -> & Hp' & Hfl' & Hcr'). simpl. eexists _, _. split; [done|].
    split_and!; [simpl; by rewrite Has|done|simpl; by rewrite Hrem, Hfl', <-Hfl|by apply Hcr'].
Qed.
End operations.

(** ** The map *)

Section map.
Context {K V : Type} `{Ord K}.
Notation entry := (K * V)%type.
Notation arc := (positive * Node K V)%type.
Implicit Types (m : PersistentOrdMap K V) (key : K).

Definition entries_of m : list entry := flatten (root m).2.

(** An empty leaf, or a well-formed tree whose root is not a single-child chain. *)
Definition wf_root (h : nat) (n : Node K V) : Prop :=
  (n = Leaf [] ∧ h = 0)
  ∨ (wf h None None n ∧ match n with Leaf _ => True | Internal _ cs => 2 ≤ length cs end).

Record wf_map m : Prop := {
  wm_root : wf_root (N.to_nat (height m)) (root m).2;
  wm_height : (height m ≤ U8_MAX)%N;
  wm_len : len m = N.of_nat (length (entries_of m))
}.

(** The insertions a map has needed at least: the credit of its tree, and what each of
    its levels above the leaves cost. *)
Fixpoint tower (h : nat) : nat := match h with O => 0 | S h' => 12 ^ h + tower h' end.
Definition potential m : nat := credit (N.to_nat (height m)) (root m).2 + tower (N.to_nat (height m)).
#[local] Arguments Nat.pow : simpl never.

Lemma potential_height m : height m ≠ 0%N → 12 ^ N.to_nat (height m) ≤ potential m.
Proof. unfold potential. destruct (N.to_nat (height m)) eqn:E; [lia|]. simpl. lia. Qed.

Lemma wf_map_sorted m : wf_map m → sorted (entries_of m).
Proof.
  intros [[[E _]|[Hwf _]] _ _]; unfold entries_of; [rewrite E; constructor|]. by apply wf_entries in Hwf as (_ & ? & _).
Qed.

Lemma new_spec next : wf_map (new next).1 ∧ entries_of (new next).1 = [].
Proof. split; [|done]. split; [by left|done..]. Qed.

Lemma any_in_range key : in_range None None key.
Proof. done. Qed.

Lemma get_spec m key : wf_map m → get m key = assoc key (entries_of m).
Proof.
  intros [[[E Eh]|[Hwf _]] _ _]; unfold get, levels, entries_of.
  - by rewrite E, Eh.
  - by apply (get_rec_spec _ (N.to_nat (height m)) None None); [| |lia].
Qed.

Lemma assoc_ins_length key v (es : list entry) :
  sorted es → length (ins key v es) = length es + (match assoc key es with None => 1 | Some _ => 0 end).
Proof.
  intros Hs. pose proof (search_spec key es Hs) as Hb. unfold ins. rewrite length_app. simpl.
  destruct (binary_search_by _ es) as [i|i].
  - destruct Hb as (w & _ & Hi & <- & <- & ->). rewrite length_take, length_drop. lia.
  - destruct Hb as (Hi & <- & <- & ->). rewrite length_take, length_drop. lia.
Qed.

Lemma assoc_rem_length key v (es : list entry) :
  sorted es → assoc key es = Some v → length es = S (length (rem key es)).
Proof.
  intros Hs Ha. pose proof (search_spec key es Hs) as Hb. unfold rem. rewrite length_app.
  destruct (binary_search_by _ es) as [i|i].
  - destruct Hb as (w & _ & Hi & <- & <- & _). rewrite length_take, length_drop. lia.
  - destruct Hb as (_ & _ & _ & Hn). congruence.
Qed.

Lemma checked_add_ok max a b : (a + b ≤ max)%N → checked_add max a b = Some (a + b)%N.
Proof. intros Hle. unfold checked_add. by rewrite (proj2 (N.leb_le _ _) Hle). Qed.

Lemma checked_sub_ok a b : (b ≤ a)%N → checked_sub a b = Some (a - b)%N.
Proof. intros Hle. unfold checked_sub. by rewrite (proj2 (N.leb_le _ _) Hle). Qed.

Lemma insert_rec_root unique m key v next :
  wf_map m →
  ∃ old sp a' next', insert_rec unique (levels m) true (root m) key v next = Some (old, sp, a', next')
    ∧ inserted (N.to_nat (height m)) None None (root m).2 key v old sp a'.
Proof.
  intros [[[E Eh]|[Hwf _]] _ _]; unfold levels; [|apply insert_rec_spec; try done; lia].
  rewrite Eh. destruct m as [[q n] h l]; simpl in *. subst n. cbn [insert_rec fst snd].
  destruct (make_mut unique true q next) as [[p owned] next1]. simpl. eexists _, _, _, _. split; [done|].
  split; [done|]. simpl. split_and!; [done|unfold MAX_FANOUT; lia|constructor; [constructor|done]|by constructor|done|lia|lia].
Qed.

Lemma checked_add_Some max a b c : checked_add max a b = Some c → c = (a + b)%N ∧ (c ≤ max)%N.
Proof. unfold checked_add. destruct (N.leb_spec (a + b) max); naive_solver. Qed.

(** An insertion that does not panic. *)
Lemma insert_inv unique m key v next old m' next' :
  wf_map m → insert unique m key v next = Some (old, m', next') →
  old = assoc key (entries_of m) ∧ wf_map m' ∧ entries_of m' = ins key v (entries_of m)
  ∧ potential m' ≤ S (potential m).
Proof.
  intros Hm. destruct (insert_rec_root unique m key v next Hm) as (old1 & sp & a' & next1 & E & Hold & Hsp).
  unfold insert. rewrite E. simpl. fold (entries_of m) in *. clear E.
  assert (∀ l', match old1 with Some _ => Some (len m) | None => checked_add USIZE_MAX (len m) 1 end = Some l' →
    l' = N.of_nat (length (ins key v (entries_of m)))) as Hlen.
  { intros l' El. rewrite assoc_ins_length, <-Hold by by apply wf_map_sorted. pose proof (wm_len m Hm) as Hl.
    destruct old1; [injection El as <-; lia|]. apply checked_add_Some in El as [-> _]. lia. }
  destruct sp as [[sep sib]|].
  - destruct Hsp as (Hnone & Hin & Hw1 & Hw2 & Hfl & Hcr).
    destruct (checked_add U8_MAX (height m) 1) as [h|] eqn:Eh; [|done]. apply checked_add_Some in Eh as [-> Hh]. simpl.
    destruct (match old1 with Some _ => _ | None => _ end) as [l'|]; [|done]. simpl. intros [= <- <- <-].
    split_and!; [done| |unfold entries_of; simpl; by rewrite app_nil_r|].
    2: { unfold potential. simpl. rewrite N2Nat.inj_add, Nat.add_1_r. simpl. lia. }
    split; simpl; [right|lia|].
    + rewrite N2Nat.inj_add, Nat.add_1_r. split; [split; [unfold MAX_FANOUT; simpl; lia|done]|done].
    + rewrite (Hlen l' eq_refl). unfold entries_of. simpl. by rewrite app_nil_r, Hfl.
  - destruct Hsp as (Hw & Hfl & Hfan & Hcr). simpl.
    destruct (match old1 with Some _ => _ | None => _ end) as [l'|]; [|done]. simpl. intros [= <- <- <-].
    split_and!; [done| |done|unfold potential; simpl; lia].
    split; simpl; [right|apply Hm|by rewrite (Hlen l' eq_refl), <-Hfl].
    split; [done|]. destruct a'.2 as [es|ks cs] eqn:Ea; [done|]. simpl in *.
    destruct (wm_root m Hm) as [[_ Eh]|[Hr Hc]]; [by rewrite Eh in Hw|].
    destruct (root m).2 as [es0|ks0 cs0]; simpl in *; [|lia]. by destruct (N.to_nat (height m)).
Qed.

Lemma insert_total unique m key v next :
  wf_map m → (height m < U8_MAX)%N → (len m < USIZE_MAX)%N → is_Some (insert unique m key v next).
Proof.
  intros Hm Hh Hl. destruct (insert_rec_root unique m key v next Hm) as (old & sp & a' & next' & E & _).
  unfold insert. rewrite E. simpl. rewrite (checked_add_ok U8_MAX), (checked_add_ok USIZE_MAX) by lia.
  destruct sp as [[sep sib]|], old; simpl; eauto.
Qed.

Lemma insert_spec unique m key v next :
  wf_map m → (height m < U8_MAX)%N → (len m < USIZE_MAX)%N →
  ∃ m' next', insert unique m key v next = Some (assoc key (entries_of m), m', next')
    ∧ wf_map m' ∧ entries_of m' = ins key v (entries_of m) ∧ potential m' ≤ S (potential m).
Proof.
  intros Hm Hh Hl. destruct (insert_total unique m key v next Hm Hh Hl) as [[[old m'] next'] E].
  destruct (insert_inv _ _ _ _ _ _ _ _ Hm E) as (-> & ?). eauto.
Qed.

Lemma collapse_spec fuel h (a : arc) :
  wf h None None a.2 → h < fuel →
  ∃ a' h', collapse fuel a (N.of_nat h) = Some (a', N.of_nat h') ∧ h' ≤ h ∧ wf_root h' a'.2 ∧ flatten a'.2 = flatten a.2
    ∧ credit h' a'.2 + tower h' ≤ credit h a.2 + tower h.
Proof.
  revert h a. induction fuel as [|fuel IH]; intros h [q [es|ks cs]] Hwf Hf; try lia; simpl in *.
  { exists (q, Leaf es), h. split_and!; try done. right. done. }
  destruct h as [|h]; [done|]. destruct Hwf as [Hl Hc]. destruct cs as [|c [|c2 cs]].
  - by destruct ks.
  - destruct ks as [|k ks]; [|by destruct Hc as (_ & _ & Hc); destruct ks].
    rewrite checked_sub_ok by lia. simpl.
    replace (N.of_nat (S h) - 1)%N with (N.of_nat h) by lia.
    destruct (IH h c Hc) as (a' & h' & -> & ? & ? & Hfl & Hcr); [lia|]. exists a', h'.
    split_and!; try done; [lia|by rewrite app_nil_r|lia].
  - eexists _, (S h). split; [done|]. split_and!; try done. right. split; [done|simpl; lia].
Qed.

#[local] Arguments collapse : simpl never.

Lemma remove_rec_root unique m key next :
  wf_map m →
  ∃ r next', remove_rec unique (levels m) (root m) key next = Some (r, next')
    ∧ removed_from (N.to_nat (height m)) None None (root m).2 key ((λ p, (p.1.2, p.2)) <$> r).
Proof.
  intros [[[E Eh]|[Hwf _]] _ _]; unfold levels; [|apply remove_rec_spec; try done; lia].
  rewrite Eh. destruct m as [[q n] h l]; simpl in *. subst n. destruct (unique q); by eexists _, _.
Qed.

Lemma remove_spec unique m key next :
  wf_map m →
  ∃ m' next', remove unique m key next = Some (assoc key (entries_of m), m', next')
    ∧ wf_map m' ∧ entries_of m' = rem key (entries_of m) ∧ (assoc key (entries_of m) = None → m' = m)
    ∧ potential m' ≤ potential m.
Proof.
  intros Hm. pose proof (wf_map_sorted m Hm) as Hs.
  destruct (remove_rec_root unique m key next Hm) as (r & next' & E & Hr).
  unfold remove. rewrite E. simpl. fold (entries_of m) in *. destruct r as [[[p n'] w]|]; simpl in *; last first.
  { change (assoc key (entries_of m) = None) in Hr. eexists _, _. rewrite Hr. split_and!; try done. unfold rem.
    pose proof (search_spec key _ Hs) as Hb. destruct (binary_search_by _ (entries_of m)); [naive_solver|].
    destruct Hb as (_ & <- & <- & _). by rewrite take_drop. }
  destruct Hr as (Hw & Hp & Hfl & Hcr). change (flatten (root m).2) with (entries_of m) in Hw, Hfl. rewrite Hw.
  pose proof (assoc_rem_length key w _ Hs Hw) as Hlen.
  rewrite (checked_sub_ok (len m)) by (rewrite (wm_len m Hm); lia). simpl. rewrite (wm_len m Hm).
  destruct Hp as [[He Hn]|Hwf].
  - assert (∃ r', collapse (levels m) (p, n') (height m) = Some r') as [[a' h'] ->].
    { unfold collapse. destruct n' as [[]|ks [|]]; try done; unfold levels; simpl; eauto. }
    simpl. rewrite Hlen, <-Hfl, Hn. simpl. eexists _, _. split; [done|].
    split_and!; try done; [apply (new_spec next')|]. unfold potential. simpl. lia.
  - rewrite <-(N2Nat.id (height m)).
    destruct (collapse_spec (levels m) (N.to_nat (height m)) (p, n') Hwf) as (a' & h' & -> & Hle & Hr & Hfl' & Hcr');
      [unfold levels; lia|].
    simpl in *. apply wf_entries in Hwf as (Hne & _ & _). rewrite Hfl in Hne.
    destruct (rem key (entries_of m)) as [|e es] eqn:Er; [done|]. rewrite (proj2 (N.eqb_neq _ _)) by (rewrite Hlen; simpl; lia).
    eexists _, _. split; [done|].
    split_and!; [|unfold entries_of; simpl; by rewrite Hfl'|done|unfold potential; simpl; rewrite Nat2N.id; lia].
    split; simpl; [by rewrite Nat2N.id|pose proof (wm_height m Hm); lia|].
    rewrite Hlen. unfold entries_of. simpl. rewrite Hfl', Hfl. simpl. lia.
Qed.
End map.
