(* ===== verification/OrdMapBuild.v ===== *)
(** * Bulk construction of the persistent ordered map

    [from_sorted] builds a well-formed tree bottom-up, and [from_iter] collects any list
    of entries with the last value of each key. *)
From stdpp Require Import prelude list sorting.
From S2P Require Import Prelude OrdMap OrdMapProps.

(** ** Chunk sizes *)

Lemma sum_list_fmap_add {A} (f g : A → nat) (l : list A) :
  sum_list ((λ x, f x + g x) <$> l) = sum_list (f <$> l) + sum_list (g <$> l).
Proof. induction l as [|x l IH]; csimpl; [done|]. rewrite IH. lia. Qed.

Lemma sum_extra extra groups a :
  sum_list ((λ i, if i <? a + extra then 1 else 0) <$> seq a groups) = extra `min` groups.
Proof.
  revert extra a. induction groups as [|g IH]; intros extra a; csimpl; [lia|].
  destruct extra as [|extra].
  - rewrite Nat.add_0_r, Nat.ltb_irrefl. specialize (IH 0 (S a)). simpl.
    assert (∀ l b, (∀ i, i ∈ l → b ≤ i) → sum_list ((λ i, if i <? b then 1 else 0) <$> l) = 0) as Hz.
    { clear. intros l b Hl. induction l as [|x l IH]; csimpl; [done|].
      rewrite IH by (intros; apply Hl; by right). rewrite (proj2 (Nat.ltb_ge _ _)); [done|]. apply Hl. left. }
    apply Hz. intros i [Hi _]%elem_of_seq. lia.
  - rewrite (proj2 (Nat.ltb_lt _ _)) by lia. specialize (IH extra (S a)).
    replace (S a + extra) with (a + S extra) in IH by lia. rewrite IH. lia.
Qed.

Lemma sum_const {A} (b : nat) (l : list A) : sum_list ((λ _, b) <$> l) = length l * b.
Proof. induction l; csimpl; lia. Qed.

(** The sizes add up, are positive and at most [BULK_FILL], and there are few of them. *)
Lemma even_chunks_spec n :
  n ≠ 0 →
  sum_list (even_chunks n) = n ∧ Forall (λ s, 1 ≤ s ≤ BULK_FILL) (even_chunks n)
  ∧ 1 ≤ length (even_chunks n) ∧ (2 ≤ n → 2 * length (even_chunks n) ≤ n).
Proof.
  intros Hn. unfold even_chunks. change (BULK_FILL - 1) with 17. change BULK_FILL with 18.
  set (g := Nat.max ((n + 17) / 18) 1).
  pose proof (Nat.div_mod (n + 17) 18 ltac:(lia)) as Hd. pose proof (Nat.mod_upper_bound (n + 17) 18 ltac:(lia)) as Hm.
  assert (g ≠ 0 ∧ n ≤ 18 * g ∧ g ≤ n ∧ (2 ≤ n → 2 * g ≤ n)) as (Hg & Hle & Hgn & Hhalf) by (unfold g; lia). clearbody g. clear Hd Hm.
  pose proof (Nat.div_mod n g Hg) as Hd. pose proof (Nat.mod_upper_bound n g Hg) as Hm.
  split_and!.
  - pose proof (sum_list_fmap_add (λ _ : nat, n / g) (λ i, if i <? n mod g then 1 else 0) (seq 0 g)) as ->.
    rewrite sum_const, length_seq. pose proof (sum_extra (n mod g) g 0) as Hx. simpl in Hx. rewrite Hx.
    rewrite Nat.min_l by lia. lia.
  - apply Forall_forall. intros s (i & -> & _)%list_elem_of_fmap.
    assert (1 ≤ n / g) by (apply Nat.div_le_lower_bound; lia).
    destruct (i <? n mod g) eqn:E; [|split; [lia|]]; last first.
    { rewrite Nat.add_0_r. apply Nat.div_le_upper_bound; lia. }
    apply Nat.ltb_lt in E. split; [lia|]. nia.
  - rewrite length_fmap, length_seq. lia.
  - by rewrite length_fmap, length_seq.
Qed.

(** ** Levels *)

Section build.
Context {K V : Type} `{Ord K}.
Notation entry := (K * V)%type.
Notation arc := (positive * Node K V)%type.
Notation item := (K * arc)%type.
Implicit Types (level : list item) (hi : option K).

Definition level_entries level : list entry := flat_map (λ i, flatten i.2.2) level.
Definition first_min hi level : option K := match level with [] => hi | i :: _ => Some i.1 end.

(** A level of subtrees of height [h], each holding the range from its minimum to the next. *)
Fixpoint chain (h : nat) hi level : Prop :=
  match level with
  | [] => True
  | i :: rest => wf h (Some i.1) (first_min hi rest) i.2.2 ∧ chain h hi rest
  end.

Lemma first_min_app hi l1 l2 : first_min hi (l1 ++ l2) = first_min (first_min hi l2) l1.
Proof. by destruct l1. Qed.

Lemma chain_app h hi l1 l2 : chain h hi (l1 ++ l2) ↔ chain h (first_min hi l2) l1 ∧ chain h hi l2.
Proof.
  induction l1 as [|i l1 IH]; simpl; [naive_solver|]. rewrite first_min_app, IH. naive_solver.
Qed.

Lemma wf_nonempty_range h k hi (n : Node K V) : wf h (Some k) hi n → below hi k.
Proof.
  intros (Hne & _ & Hr)%wf_entries. destruct (flatten n) as [|e es]; [done|].
  apply Forall_cons in Hr as [[Ha Hb] _]. destruct hi as [h'|]; [|done]. simpl in *. by eapply kle_klt_trans.
Qed.

Lemma chain_below h hi i level : chain h hi (i :: level) → below hi i.1.
Proof.
  revert i. induction level as [|j level IH]; intros i [Hi Hr]; [by eapply wf_nonempty_range|].
  specialize (IH j Hr). destruct hi as [k|]; [|done]. eapply klt_trans; [|exact IH]. by eapply wf_nonempty_range in Hi.
Qed.

(** A group of siblings is an internal node. *)
Lemma chain_group h hi i group :
  chain h hi (i :: group) → wf_children (wf h) (Some i.1) hi group.*1 (i.2 :: group.*2).
Proof.
  revert i. induction group as [|j group IH]; intros i [Hi Hr]; [done|]. csimpl. split_and!; [|done|by apply IH].
  split; [by eapply wf_nonempty_range in Hi|by eapply chain_below].
Qed.

Lemma group_entries level : flat_map (λ c : arc, flatten c.2) level.*2 = level_entries level.
Proof. induction level as [|i level IH]; csimpl; [done|]. by rewrite IH. Qed.

Lemma level_entries_app l1 l2 : level_entries (l1 ++ l2) = level_entries l1 ++ level_entries l2.
Proof. apply flat_map_app. Qed.

Lemma fill_fanout : BULK_FILL ≤ MAX_FANOUT.
Proof. unfold BULK_FILL, MAX_FANOUT. simpl. lia. Qed.

Lemma build_groups_spec h sizes level next :
  chain h None level → sum_list sizes = length level → Forall (λ s, 1 ≤ s ≤ BULK_FILL) sizes →
  ∃ level' next', build_groups sizes level next = Some (level', next') ∧ chain (S h) None level'
    ∧ level_entries level' = level_entries level ∧ length level' = length sizes
    ∧ first_min None level' = first_min None level
    ∧ Forall (λ i, fanout i.2.2 ∈ sizes) level'.
Proof.
  revert level next. induction sizes as [|s sizes IH]; intros level next Hc Hsum Hs; simpl in *.
  { destruct level; [|done]. by eexists [], _. }
  apply Forall_cons in Hs as [Hs0 Hs].
  rewrite <-(take_drop s level) in Hc. apply chain_app in Hc as [Hc1 Hc2].
  destruct (IH (drop s level) (Pos.succ next)) as (level' & next' & E & Hc' & He & Hl & Hf & Hfan); [done|rewrite length_drop; lia|done|].
  assert (length (take s level) = s) as Hlen by (rewrite length_take; lia).
  assert (level_entries level = level_entries (take s level) ++ level_entries (drop s level)) as Hle
    by (by rewrite <-level_entries_app, take_drop).
  assert (first_min None level = first_min None (take s level ++ drop s level)) as Hfm by (by rewrite take_drop).
  destruct (take s level) as [|i group] eqn:Et; [simpl in Hlen; lia|].
  simpl. rewrite E. simpl. eexists _, _. split; [done|]. simpl. rewrite Hl. split_and!; try done.
  - rewrite length_fmap. pose proof fill_fanout. simpl in Hlen. lia.
  - rewrite Hf. by apply chain_group.
  - rewrite Hle, He. simpl. by rewrite group_entries.
  - constructor; [|eapply Forall_impl; [done|]; intros ??; by right].
    simpl. rewrite length_fmap. simpl in Hlen. rewrite Hlen. left.
Qed.

Lemma build_leaves_spec sizes (source : list entry) next :
  sorted source → sum_list sizes = length source → Forall (λ s, 1 ≤ s ≤ BULK_FILL) sizes →
  ∃ level next', build_leaves sizes source next = Some (level, next') ∧ chain 0 None level
    ∧ level_entries level = source ∧ length level = length sizes
    ∧ first_min None level = fst <$> head source.
Proof.
  revert source next. induction sizes as [|s sizes IH]; intros source next Hso Hsum Hs; simpl in *.
  { destruct source; [|done]. by eexists [], _. }
  apply Forall_cons in Hs as [Hs0 Hs]. rewrite <-(take_drop s source) in Hso.
  apply sorted_app in Hso as (Hs1 & Hs2 & Hlt).
  destruct (IH (drop s source) (Pos.succ next)) as (level & next' & E & Hc & He & Hl & Hf); [done|rewrite length_drop; lia|done|].
  assert (length (take s source) = s) as Hlen by (rewrite length_take; lia).
  pose proof (take_drop s source) as Htd.
  destruct (take s source) as [|e es] eqn:Et; [simpl in Hlen; lia|].
  simpl. rewrite E. simpl. eexists _, _. split; [done|]. simpl. rewrite Hl, <-Htd. split_and!; try done.
  - pose proof fill_fanout. simpl in Hlen. lia.
  - apply Forall_forall. intros x Hx. split; simpl.
    + apply elem_of_cons in Hx as [->|Hx]; [apply klt_irrefl|]. apply StronglySorted_inv in Hs1 as [_ Hs1].
      rewrite Forall_forall in Hs1. by apply klt_asym, Hs1.
    + rewrite Hf. destruct (drop s source) as [|y ys]; [done|]. apply Hlt; [done|left].
  - by rewrite He.
Qed.

Lemma build_levels_spec fuel h j level next :
  chain h None level → level ≠ [] → length level ≤ fuel → length level < 2 ^ j → h + j ≤ 256 →
  (length level = 1 → Forall (λ i, wf_root h i.2.2) level) →
  ∃ a h' next', build_levels fuel level (N.of_nat h) next = Some (a, N.of_nat h', next')
    ∧ h' ≤ 255 ∧ wf_root h' a.2 ∧ flatten a.2 = level_entries level.
Proof.
  revert h j level next. induction fuel as [|fuel IH]; intros h j level next Hc Hne Hf Hj Hh H1;
    destruct level as [|i [|i2 rest]]; try done; try (simpl in Hf; lia).
  1: { destruct i as [k a]. simpl. specialize (H1 eq_refl). apply Forall_cons in H1 as [H1 _].
    exists a, h, next. split_and!; try done; [|by rewrite app_nil_r]. destruct j; simpl in *; lia. }
  set (level := i :: i2 :: rest) in *. assert (2 ≤ length level) as H2 by (simpl; lia).
  destruct j as [|j]; [simpl in Hj; lia|].
  destruct (even_chunks_spec (length level)) as (Hsum & Hsz & Hpos & Hhalf); [lia|]. specialize (Hhalf H2).
  destruct (build_groups_spec h _ level next Hc Hsum Hsz) as (level' & next' & E & Hc' & He & Hl & _ & Hfan).
  destruct (IH (S h) j level' next') as (a & h' & next'' & E' & Hh' & Hr & Hfl); try done.
  - intros ->. rewrite <-Hl in Hpos. simpl in Hpos. lia.
  - lia.
  - rewrite Nat.pow_succ_r' in Hj. lia.
  - lia.
  - intros Hl1. destruct level' as [|i' [|]]; try done. apply Forall_cons. split; [|done].
    right. destruct Hc' as [Hw _]. split; [eapply wf_mono; [| |exact Hw]; done|].
    destruct i'.2.2 as [|ks cs] eqn:Ei; [done|]. apply Forall_cons in Hfan as [Hfan _].
    rewrite Ei in Hfan. cbn [fanout length] in Hfan, Hl. destruct (even_chunks (length level)) as [|s [|]]; try done.
    simpl in Hsum. apply list_elem_of_singleton in Hfan. lia.
  - exists a, h', next''. split_and!; try done; [|by rewrite Hfl]. destruct i as [k0 a0].
    change (build_levels (S fuel) level (N.of_nat h) next) with
      ('(level, next) ← build_groups (even_chunks (length level)) level next;
       height ← checked_add U8_MAX (N.of_nat h) 1; build_levels fuel level height next).
    rewrite E. simpl. assert (j ≠ 0) by (intros ->; rewrite Nat.pow_1_r in Hj; lia).
    rewrite checked_add_ok by (unfold U8_MAX; lia). simpl.
    by replace (N.of_nat h + 1)%N with (N.of_nat (S h)) by lia.
Qed.

Lemma from_sorted_spec (es : list entry) next :
  sorted es → (N.of_nat (length es) ≤ USIZE_MAX)%N →
  ∃ m next', from_sorted es next = Some (m, next') ∧ wf_map m ∧ entries_of m = es.
Proof.
  intros Hs Hl. destruct es as [|e es']; [exists (new next).1, (Pos.succ next); split; [done|apply new_spec]|].
  set (es := e :: es') in *.
  destruct (even_chunks_spec (length es)) as (Hsum & Hsz & Hpos & Hhalf); [done|].
  destruct (build_leaves_spec (even_chunks (length es)) es next Hs Hsum Hsz) as (level & next' & E & Hc & He & Hlen & _).
  destruct (build_levels_spec (length level) 0 256 level next') as (a & h & next'' & E' & Hh & Hr & Hfl); try done.
  - intros ->. rewrite <-Hlen in Hpos. simpl in Hpos. lia.
  - assert (length level ≤ length es) as Hle by (destruct (decide (2 ≤ length es)); [lia|];
      assert (length es = 1) as E1 by (unfold es in *; simpl in *; lia); rewrite Hlen, E1; done).
    apply (Nat.le_lt_trans _ _ _ Hle). assert (N.of_nat (length es) < N.of_nat (2 ^ 256))%N; [|lia].
    rewrite Nat2N.inj_pow. apply (N.le_lt_trans _ _ _ Hl). reflexivity.
  - intros H1. destruct level as [|i [|]]; try done. apply Forall_cons. split; [|done].
    right. destruct Hc as [Hw _]. split; [eapply wf_mono; [| |exact Hw]; done|]. by destruct i.2.2.
  - unfold from_sorted. change (match es with [] => Some (new next) | _ :: _ => _ end) with
      ('(level, next) ← build_leaves (even_chunks (length es)) es next;
       '(root, height, next) ← build_levels (length level) level 0 next;
       Some (mkOrdMap root height (N.of_nat (length es)), next)).
    rewrite E. cbn [mbind option_bind]. change 0%N with (N.of_nat 0). rewrite E'. cbn [mbind option_bind].
    eexists _, _. split; [done|]. split; [|unfold entries_of; simpl; by rewrite Hfl].
    split; simpl; [by rewrite Nat2N.id|unfold U8_MAX; lia|]. unfold entries_of. simpl. by rewrite Hfl, He.
Qed.

(** ** Collecting arbitrary entries *)

(** The value of the last entry with a key. *)
Definition last_value (k : K) (l : list entry) : option V :=
  snd <$> last (filter (λ e, ord_cmp e.1 k = Eq) l).

Definition entry_le (a b : entry) : Prop := ¬ klt b.1 a.1.

Lemma assoc_single k (e : entry) : assoc k [e] = match ord_cmp e.1 k with Eq => Some e.2 | _ => None end.
Proof.
  unfold assoc. rewrite filter_cons. simpl.
  destruct (ord_cmp e.1 k); [rewrite decide_True by done|rewrite decide_False by done..]; done.
Qed.

Lemma assoc_snoc k (es : list entry) e :
  Forall (λ x, klt x.1 e.1) es →
  assoc k (es ++ [e]) = match ord_cmp e.1 k with Eq => Some e.2 | _ => assoc k es end.
Proof.
  intros Hall. rewrite assoc_app, assoc_single. destruct (ord_cmp e.1 k) eqn:E.
  - apply cmp_Eq in E as <-. by apply before_all in Hall as (_ & _ & ->).
  - by destruct (assoc k es).
  - by destruct (assoc k es).
Qed.

(** One step of the loop keeps the reversed result sorted and the last values. *)
Lemma keep_last_step (acc : list entry) e :
  sorted (rev acc) → (∀ x, x ∈ acc → entry_le x e) →
  sorted (rev (keep_last acc e))
  ∧ (∀ k, assoc k (rev (keep_last acc e)) = match ord_cmp e.1 k with Eq => Some e.2 | _ => assoc k (rev acc) end)
  ∧ (∀ x, x ∈ keep_last acc e → x = e ∨ x ∈ acc).
Proof.
  intros Hs Hle. destruct acc as [|x acc]; cbn [keep_last rev] in *.
  - split_and!; [by repeat constructor|intros k; apply (assoc_snoc k [] e); constructor|set_solver].
  - pose proof Hs as Hsx. apply sorted_app in Hs as (Hs & _ & Hlt).
    assert (Forall (λ y, klt y.1 x.1) (rev acc)) as Hacc.
    { apply Forall_forall. intros y Hy. apply Hlt; [done|left]. }
    specialize (Hle x (list_elem_of_here _ _)) as Hx. unfold entry_le in Hx.
    destruct (ord_cmp x.1 e.1) eqn:Exe; cbn [rev]; [apply cmp_Eq in Exe| |by apply cmp_Gt in Exe].
    + rewrite Exe in Hacc. split_and!.
      * apply sorted_app. split_and!; [done|by repeat constructor|]. intros e1 e2 He1 ->%list_elem_of_singleton.
        rewrite Forall_forall in Hacc. by apply Hacc.
      * intros k. rewrite !assoc_snoc by (rewrite ?Exe; done). rewrite Exe. by destruct (ord_cmp e.1 k).
      * set_solver.
    + assert (Forall (λ y, klt y.1 e.1) (rev acc ++ [x])) as Hall.
      { apply Forall_app. split; [|by repeat constructor]. eapply Forall_impl; [exact Hacc|]. intros y Hy.
        exact (klt_trans _ _ _ Hy Exe). }
      split_and!.
      * apply sorted_app. split_and!; [done|by repeat constructor|]. intros e1 e2 He1 ->%list_elem_of_singleton.
        rewrite Forall_forall in Hall. by apply Hall.
      * intros k. by apply assoc_snoc.
      * set_solver.
Qed.

Lemma keep_last_fold (es acc : list entry) :
  StronglySorted entry_le es → sorted (rev acc) → (∀ x y, x ∈ acc → y ∈ es → entry_le x y) →
  sorted (rev (foldl keep_last acc es))
  ∧ ∀ k, assoc k (rev (foldl keep_last acc es))
         = match last_value k es with Some v => Some v | None => assoc k (rev acc) end.
Proof.
  revert acc. induction es as [|e es IH]; intros acc Hes Hs Hle; [done|]. simpl.
  apply StronglySorted_inv in Hes as [Hes Hall]. rewrite Forall_forall in Hall.
  destruct (keep_last_step acc e) as (Hs' & Ha & Hin); [done|intros; apply Hle; [done|left]|].
  destruct (IH (keep_last acc e)) as [Hs'' Ha'']; [done|done| |].
  { intros x y [->|Hx]%Hin Hy; [by apply Hall|apply Hle; [done|by right]]. }
  split; [done|]. intros k. rewrite Ha'', Ha. unfold last_value. rewrite filter_cons.
  destruct (ord_cmp e.1 k) eqn:E; [rewrite decide_True by done|rewrite decide_False by done..]; [|done..].
  rewrite last_cons. by destruct (last (filter _ es)).
Qed.

Lemma from_iter_spec (l : list entry) next :
  (N.of_nat (length l) ≤ USIZE_MAX)%N →
  ∃ m next', from_iter l next = Some (m, next') ∧ wf_map m ∧ ∀ k, assoc k (entries_of m) = last_value k l.
Proof.
  intros Hl. destruct (keep_last_fold (sort_by (cmp_on fst ord_cmp) l) []) as [Hs Ha]; [|constructor|set_solver|].
  { eapply (StronglySorted_fmap_inv id); [|rewrite list_fmap_id; apply (sort_by_sorted fst ord_cmp l)].
    intros x y. unfold cmp_le, cmp_on, entry_le. rewrite <-cmp_Gt. done. }
  destruct (from_sorted_spec (rev (foldl keep_last [] (sort_by (cmp_on fst ord_cmp) l))) next Hs) as (m & next' & E & Hm & He).
  { etrans; [|exact Hl]. rewrite <-(Permutation_length (sort_by_perm (cmp_on fst ord_cmp) l)), length_rev.
    assert (∀ es acc : list entry, length (foldl keep_last acc es) ≤ length acc + length es) as Hk.
    { clear. induction es as [|e es IH]; intros acc; simpl; [lia|]. etrans; [apply IH|].
      destruct acc as [|x acc]; simpl; [lia|]. destruct (ord_cmp _ _); simpl; lia. }
    specialize (Hk (sort_by (cmp_on fst ord_cmp) l) []). simpl in Hk. lia. }
  exists m, next'. split_and!; try done. intros k. rewrite He, Ha. unfold last_value. rewrite (sort_stable fst ord_cmp).
  by destruct (last _).
Qed.
End build.
