(* ===== verification/OrdMapWalk.v ===== *)
(** * Iterators and differences of the persistent ordered map

    The ordered iterator, the range iterator and the lazy difference of two
    trees ([src/src/state/persistent_ord_map.rs]), each as the state machine
    the code drives, and what the machines produce. *)
From stdpp Require Import prelude list sorting.
From S2P Require Import Prelude OrdMap OrdMapProps.

Section walk.
Context {K V : Type} `{Ord K}.
Notation entry := (K * V)%type.
Notation node := (Node K V).
Notation arc := (positive * node)%type.
Implicit Types (n : node) (m : PersistentOrdMap K V).

(** ** Iteration *)

(** An ancestor's children with the index of the next one to visit, innermost first. *)
Record Iter : Type := mkIter { it_stack : list (list arc * nat); it_leaf : list entry; it_pos : nat }.

Definition iter_empty : Iter := mkIter [] [] 0.

Fixpoint descend_leftmost n (stack : list (list arc * nat)) : Iter :=
  match n with
  | Leaf entries => mkIter stack entries 0
  | Internal _ children =>
      match children with
      | [] => mkIter stack [] 0
      | first :: _ => descend_leftmost first.2 ((children, 1) :: stack)
      end
  end.

Definition iter m : Iter := descend_leftmost (root m).2 [].

(** The inner loop: the next unvisited child, dropping exhausted ancestors. *)
Fixpoint next_child (stack : list (list arc * nat)) : option (arc * list (list arc * nat)) :=
  match stack with
  | [] => None
  | (children, i) :: stack' =>
      match children !! i with
      | Some child => Some (child, (children, S i) :: stack')
      | None => next_child stack'
      end
  end.

Fixpoint iter_loop (fuel : nat) (it : Iter) : option (option entry * Iter) :=
  match it_leaf it !! it_pos it with
  | Some e => Some (Some e, mkIter (it_stack it) (it_leaf it) (S (it_pos it)))
  | None =>
      match next_child (it_stack it) with
      | None => Some (None, mkIter [] (it_leaf it) (it_pos it))
      | Some (child, stack) =>
          match fuel with
          | O => None
          | S fuel => iter_loop fuel (descend_leftmost child.2 stack)
          end
      end
  end.

(** Nodes and entries of a subtree, the measure of the loops. *)
Fixpoint node_weight n : nat :=
  match n with
  | Leaf entries => S (length entries)
  | Internal _ children => S (sum_list_with (λ c, node_weight c.2) children)
  end.
Definition arcs_weight (l : list arc) : nat := sum_list_with (λ c, node_weight c.2) l.
Definition stack_weight (stack : list (list arc * nat)) : nat :=
  sum_list_with (λ f, arcs_weight (drop f.2 f.1)) stack.

Definition iter_next (it : Iter) : option (option entry * Iter) := iter_loop (stack_weight (it_stack it)) it.

(** Positions the iterator at the first entry at or after (or after) [key]. *)
Fixpoint seek_rec (fuel : nat) n (key : K) (inclusive : bool) (stack : list (list arc * nat)) : option Iter :=
  match n with
  | Leaf entries =>
      Some (mkIter stack entries
        (partition_point (λ e : entry, match ord_cmp e.1 key with
                                       | Lt => true | Eq => negb inclusive | Gt => false
                                       end) entries))
  | Internal keys children =>
      match children with
      | [] => Some (mkIter stack [] 0)
      | _ =>
          let idx := child_index keys key in
          child ← children !! idx;
          match fuel with
          | O => None
          | S fuel => seek_rec fuel child.2 key inclusive ((children, S idx) :: stack)
          end
      end
  end.

Inductive Bound : Type := Included (k : K) | Excluded (k : K) | Unbounded.

(** [Range]: an iterator and the upper bound. *)
Definition range m (start : Bound) : option Iter :=
  match start with
  | Unbounded => Some (iter m)
  | Included key => seek_rec (levels m) (root m).2 key true []
  | Excluded key => seek_rec (levels m) (root m).2 key false []
  end.

Definition within_end (b : Bound) (key : K) : bool :=
  match b with
  | Included end_ => match ord_cmp key end_ with Gt => false | _ => true end
  | Excluded end_ => match ord_cmp key end_ with Lt => true | _ => false end
  | Unbounded => true
  end.

Definition range_next (end_ : Bound) (it : Iter) : option (option entry * Iter) :=
  '(e, it') ← iter_next it;
  match e with
  | None => Some (None, it')
  | Some e => if within_end end_ e.1 then Some (Some e, it') else Some (None, iter_empty)
  end.

(** Driving an iterator to its end. *)
Fixpoint collect {S} (fuel : nat) (next : S → option (option entry * S)) (s : S) : option (list entry) :=
  match fuel with
  | O => None
  | Datatypes.S fuel =>
      '(e, s') ← next s;
      match e with
      | None => Some []
      | Some e => rest ← collect fuel next s'; Some (e :: rest)
      end
  end.

(** ** Differences *)

Inductive DiffItem : Type :=
  | Add (key : K) (value : V)
  | Update (old new : entry)
  | Remove (key : K) (value : V).

Inductive Head : Type := HNode (n : arc) | HEntry (e : entry).

Inductive Frame : Type :=
  | Nodes (items : list arc) (idx : nat) (height : N)
  | Entries (items : list entry) (idx : nat).

(** Pending frames, innermost first. *)
Notation Cursor := (list Frame).

Definition cursor_new (root : arc) (height : N) : Cursor := [Nodes [root] 0 height].

(** The next item, with the exhausted frames dropped. *)
Fixpoint cursor_head (c : Cursor) : option Head * Cursor :=
  match c with
  | [] => (None, [])
  | Nodes items idx h :: c' =>
      match items !! idx with Some n => (Some (HNode n), c) | None => cursor_head c' end
  | Entries items idx :: c' =>
      match items !! idx with Some e => (Some (HEntry e), c) | None => cursor_head c' end
  end.

Definition cursor_skip (c : Cursor) : Cursor :=
  match c with
  | Nodes items idx h :: c' => Nodes items (S idx) h :: c'
  | Entries items idx :: c' => Entries items (S idx) :: c'
  | [] => []
  end.

Definition cursor_expand (c : Cursor) : Cursor :=
  match c with
  | Nodes items idx h :: c' =>
      match items !! idx with
      | None => c
      | Some n =>
          match n.2 with
          | Leaf entries => Entries entries 0 :: Nodes items (S idx) h :: c'
          | Internal _ children => Nodes children 0 (h - 1) :: Nodes items (S idx) h :: c'
          end
      end
  | _ => c
  end.

Definition frame_height (c : Cursor) : N := match c with Nodes _ _ h :: _ => h | _ => 0 end.

(** [DiffWalker]: both cursors and the number of nodes opened. *)
Record DiffWalker : Type := mkWalker { w_left : Cursor; w_right : Cursor; expansions : N }.

Definition walker_new (old new : PersistentOrdMap K V) : DiffWalker :=
  mkWalker (cursor_new (root old) (height old)) (cursor_new (root new) (height new)) 0.

Definition advance_nodes (l r : Cursor) (ln rn : arc) : Cursor * Cursor * N :=
  if decide (ln.1 = rn.1) then (cursor_skip l, cursor_skip r, 0%N)
  else
    match first_key ln.2, first_key rn.2 with
    | Some lk, Some rk =>
        match ord_cmp lk rk with
        | Lt => (cursor_expand l, r, 1%N)
        | Gt => (l, cursor_expand r, 1%N)
        | Eq =>
            let lh := frame_height l in
            let rh := frame_height r in
            ((if (rh <=? lh)%N then cursor_expand l else l),
             (if (lh <=? rh)%N then cursor_expand r else r),
             ((if (rh <=? lh)%N then 1 else 0) + (if (lh <=? rh)%N then 1 else 0))%N)
        end
    | None, _ => (cursor_skip l, r, 0%N)
    | Some _, None => (l, cursor_skip r, 0%N)
    end.

Context `{EqDecision V}.

Definition opened (w : N) (count : N) : option N := checked_add USIZE_MAX w count.

Fixpoint next_item (fuel : nat) (w : DiffWalker) : option (option DiffItem * DiffWalker) :=
  match fuel with
  | O => None
  | S fuel =>
      let '(lh, l) := cursor_head (w_left w) in
      let '(rh, r) := cursor_head (w_right w) in
      let x := expansions w in
      match lh, rh with
      | None, None => Some (None, mkWalker l r x)
      | Some (HEntry e), None => Some (Some (Remove e.1 e.2), mkWalker (cursor_skip l) r x)
      | None, Some (HEntry e) => Some (Some (Add e.1 e.2), mkWalker l (cursor_skip r) x)
      | Some (HNode _), None => x ← opened x 1; next_item fuel (mkWalker (cursor_expand l) r x)
      | None, Some (HNode _) => x ← opened x 1; next_item fuel (mkWalker l (cursor_expand r) x)
      | Some (HEntry le), Some (HEntry re) =>
          match ord_cmp le.1 re.1 with
          | Lt => Some (Some (Remove le.1 le.2), mkWalker (cursor_skip l) r x)
          | Gt => Some (Some (Add re.1 re.2), mkWalker l (cursor_skip r) x)
          | Eq =>
              let w' := mkWalker (cursor_skip l) (cursor_skip r) x in
              if decide (le.2 = re.2) then next_item fuel w' else Some (Some (Update le re), w')
          end
      | Some (HNode ln), Some (HNode rn) =>
          let '(l, r, count) := advance_nodes l r ln rn in
          x ← opened x count; next_item fuel (mkWalker l r x)
      | Some (HNode ln), Some (HEntry re) =>
          match first_key ln.2 with
          | None => next_item fuel (mkWalker (cursor_skip l) r x)
          | Some lk =>
              match ord_cmp lk re.1 with
              | Gt => Some (Some (Add re.1 re.2), mkWalker l (cursor_skip r) x)
              | _ => x ← opened x 1; next_item fuel (mkWalker (cursor_expand l) r x)
              end
          end
      | Some (HEntry le), Some (HNode rn) =>
          match first_key rn.2 with
          | None => next_item fuel (mkWalker l (cursor_skip r) x)
          | Some rk =>
              match ord_cmp rk le.1 with
              | Gt => Some (Some (Remove le.1 le.2), mkWalker (cursor_skip l) r x)
              | _ => x ← opened x 1; next_item fuel (mkWalker l (cursor_expand r) x)
              end
          end
      end
  end.

(** The measure of a cursor: everything it has not consumed. *)
Definition cursor_weight (c : Cursor) : nat :=
  sum_list_with (λ f, match f with
                      | Nodes items idx _ => arcs_weight (drop idx items)
                      | Entries items idx => length (drop idx items)
                      end) c.
Definition walker_weight (w : DiffWalker) : nat := cursor_weight (w_left w) + cursor_weight (w_right w).

Definition diff_next (w : DiffWalker) : option (option DiffItem * DiffWalker) :=
  next_item (S (walker_weight w)) w.

Fixpoint diff_collect (fuel : nat) (w : DiffWalker) : option (list DiffItem) :=
  match fuel with
  | O => None
  | S fuel =>
      '(d, w') ← diff_next w;
      match d with
      | None => Some []
      | Some d => rest ← diff_collect fuel w'; Some (d :: rest)
      end
  end.

Definition diff (old new : PersistentOrdMap K V) : option (list DiffItem) :=
  let w := walker_new old new in diff_collect (S (walker_weight w)) w.

(** [PartialEq]. *)
Definition ord_map_eq (a b : PersistentOrdMap K V) : option bool :=
  if decide ((root a).1 = (root b).1) then Some true
  else if (len a =? len b)%N then
    '(d, _) ← diff_next (walker_new a b); Some (match d with None => true | Some _ => false end)
  else Some false.
End walk.
Arguments Iter : clear implicits.
Arguments DiffItem : clear implicits.
Arguments Bound : clear implicits.
Arguments Frame : clear implicits.
Arguments DiffWalker : clear implicits.

(** ** What the iterators and the difference of ordered maps produce *)

Section iteration.
Context {K V : Type} `{Ord K}.
Notation entry := (K * V)%type.
Notation node := (Node K V).
Notation arc := (positive * node)%type.
Notation flatten_all := (flat_map (λ c : arc, flatten c.2)).
Notation stack := (list (list arc * nat)).
Implicit Types (n : node) (m : PersistentOrdMap K V) (it : Iter K V).

(** The entries an iterator has not yielded yet. *)
Definition stack_entries (st : stack) : list entry := flat_map (λ f, flatten_all (drop f.2 f.1)) st.
Definition remaining it : list entry := drop (it_pos it) (it_leaf it) ++ stack_entries (it_stack it).

(** Induction on trees through all children. *)
Lemma node_children_ind (P : node → Prop) :
  (∀ es, P (Leaf es)) → (∀ ks cs, Forall (λ c : arc, P c.2) cs → P (Internal ks cs)) → ∀ n, P n.
Proof.
  intros HL HI. fix IH 1. intros [es|ks cs]; [apply HL|]. apply HI. induction cs as [|c cs IHc]; constructor; auto.
Qed.

Lemma descend_remaining n (st : stack) :
  remaining (descend_leftmost n st) = flatten n ++ stack_entries st
  ∧ stack_weight (it_stack (descend_leftmost n st)) < node_weight n + stack_weight st.
Proof.
  revert st. induction n as [es|ks cs IH] using node_children_ind; intros st; simpl; [unfold remaining; simpl; split; [done|lia]|].
  destruct cs as [|c cs]; [unfold remaining; simpl; split; [done|lia]|].
  apply Forall_cons in IH as [IH _]. destruct (IH ((c :: cs, 1) :: st)) as [-> Hw]. simpl. split.
  - unfold stack_entries. simpl. by rewrite drop_0, app_assoc.
  - unfold stack_weight in Hw |- *. simpl in *. rewrite drop_0 in Hw. unfold arcs_weight in *. lia.
Qed.

Lemma next_child_spec (st : stack) :
  match next_child st with
  | None => stack_entries st = []
  | Some (c, st') => stack_entries st = flatten c.2 ++ stack_entries st'
                     ∧ node_weight c.2 + stack_weight st' ≤ stack_weight st
  end.
Proof.
  induction st as [|[cs i] st IH]; cbn [next_child]; [done|].
  assert (stack_entries ((cs, i) :: st) = flatten_all (drop i cs) ++ stack_entries st) as -> by done.
  assert (stack_weight ((cs, i) :: st) = arcs_weight (drop i cs) + stack_weight st) as -> by done.
  destruct (cs !! i) as [c|] eqn:E.
  - rewrite (drop_S cs c i E). split; [unfold stack_entries; simpl; by rewrite app_assoc|].
    unfold stack_weight, arcs_weight. simpl. lia.
  - apply lookup_ge_None in E. rewrite drop_ge by done. apply IH.
Qed.

Lemma iter_loop_spec fuel it :
  stack_weight (it_stack it) ≤ fuel →
  ∃ it', iter_loop fuel it = Some (head (remaining it), it') ∧ remaining it' = tail (remaining it).
Proof.
  revert it. induction fuel as [|fuel IH]; intros [st leaf pos] Hf; simpl in *;
    (destruct (leaf !! pos) as [e|] eqn:E;
     [eexists; unfold remaining; simpl; rewrite (drop_S leaf e pos E); done|]);
    apply lookup_ge_None in E; pose proof (next_child_spec st) as Hn;
    assert (remaining (mkIter st leaf pos) = stack_entries st) as -> by (unfold remaining; simpl; by rewrite drop_ge);
    (destruct (next_child st) as [[c st']|];
     [|eexists; rewrite Hn; split; [done|]; unfold remaining; simpl; by rewrite drop_ge]).
  - exfalso. destruct Hn as [_ Hn]. destruct c.2; simpl in Hn; lia.
  - destruct Hn as [-> Hw]. destruct (descend_remaining c.2 st') as [<- Hw']. apply IH. lia.
Qed.

(** Driving a machine whose every step pops the head of a list. *)
Lemma collect_spec {S} (next : S → option (option entry * S)) (rest : S → list entry) fuel s :
  (∀ s, ∃ s', next s = Some (head (rest s), s') ∧ rest s' = tail (rest s)) →
  length (rest s) < fuel → collect fuel next s = Some (rest s).
Proof.
  intros Hstep. revert s. induction fuel as [|fuel IH]; intros s Hf; [lia|]. simpl.
  destruct (Hstep s) as (s' & -> & Hr). simpl. destruct (rest s) as [|e l]; simpl in *; [done|].
  rewrite (IH s'), Hr by (rewrite Hr; lia). done.
Qed.

Lemma iter_next_spec it :
  ∃ it', iter_next it = Some (head (remaining it), it') ∧ remaining it' = tail (remaining it).
Proof. by apply iter_loop_spec. Qed.

Lemma iter_remaining m : remaining (iter m) = entries_of m.
Proof. destruct (descend_remaining (root m).2 []) as [E _]. unfold iter. by rewrite E, app_nil_r. Qed.

Lemma iter_collect m fuel : length (entries_of m) < fuel → collect fuel iter_next (iter m) = Some (entries_of m).
Proof.
  rewrite <-iter_remaining. apply collect_spec, iter_next_spec.
Qed.

(** ** Ranges *)

(** Whether an entry is at or after the lower bound. *)
Definition from_start (b : Bound K) (e : entry) : Prop :=
  match b with
  | Included k => ¬ klt e.1 k
  | Excluded k => klt k e.1
  | Unbounded => True
  end.
#[global] Instance from_start_dec b e : Decision (from_start b e).
Proof. destruct b; apply _. Defined.

Definition seek_bound (key : K) (inclusive : bool) : Bound K := if inclusive then Included key else Excluded key.

Lemma filter_all {A} (P : A → Prop) `{∀ x, Decision (P x)} (l : list A) : Forall P l → filter P l = l.
Proof. induction 1 as [|x l Hx Hl IH]; [done|]. by rewrite filter_cons, decide_True, IH. Qed.
Lemma filter_none {A} (P : A → Prop) `{∀ x, Decision (P x)} (l : list A) : Forall (λ x, ¬ P x) l → filter P l = [].
Proof. induction 1 as [|x l Hx Hl IH]; [done|]. by rewrite filter_cons, decide_False, IH. Qed.

Lemma partition_spec key inclusive (es : list entry) :
  sorted es →
  drop (partition_point (λ e : entry, match ord_cmp e.1 key with
                                      | Lt => true | Eq => negb inclusive | Gt => false
                                      end) es) es = filter (from_start (seek_bound key inclusive)) es.
Proof.
  induction 1 as [|e es Hs IH Hall]; simpl; [done|]. rewrite Forall_forall in Hall.
  assert (from_start (seek_bound key inclusive) e →
    filter (from_start (seek_bound key inclusive)) (e :: es) = e :: es) as Hyes.
  { intros He. apply filter_all. constructor; [done|]. apply Forall_forall. intros x Hx. apply Hall in Hx.
    destruct inclusive; simpl in *; [intros Hlt; apply He; by eapply klt_trans|by eapply klt_trans]. }
  assert (¬ from_start (seek_bound key inclusive) e →
    filter (from_start (seek_bound key inclusive)) (e :: es) = filter (from_start (seek_bound key inclusive)) es) as Hno
    by (intros; by rewrite filter_cons, decide_False).
  destruct (ord_cmp e.1 key) eqn:E.
  - apply cmp_Eq in E. destruct inclusive; cbn [negb drop].
    + rewrite Hyes; [done|]. simpl. rewrite E. apply klt_irrefl.
    + rewrite Hno by (simpl; rewrite E; apply klt_irrefl). done.
  - rewrite Hno; [done|]. destruct inclusive; simpl; [by intros []|by apply klt_asym].
  - rewrite Hyes; [done|]. apply cmp_Gt in E. destruct inclusive; simpl; [by apply klt_asym|done].
Qed.

Lemma seek_spec fuel h lo hi n key inclusive (st : stack) :
  wf h lo hi n → in_range lo hi key → h ≤ fuel →
  ∃ it, seek_rec fuel n key inclusive st = Some it
    ∧ remaining it = filter (from_start (seek_bound key inclusive)) (flatten n) ++ stack_entries st.
Proof.
  revert fuel lo hi n st. induction h as [|h IH]; intros fuel lo hi [es|ks cs] st Hwf Hk Hf; try done.
  - destruct Hwf as (_ & _ & Hs & _). simpl. destruct fuel; eexists; (split; [done|]); unfold remaining; simpl;
      by rewrite partition_spec.
  - destruct Hwf as [_ Hc]. destruct fuel as [|fuel]; [lia|].
    destruct (descend_wf h lo hi ks cs key Hc Hk) as (c & lo' & hi' & cs1 & cs2 & ks1 & ks2 & Z).
    destruct (zipper_around _ _ _ _ _ _ _ _ _ _ _ _ _ Z) as (Ec & _).
    destruct Z as [Zc _ [Zl _] Zw Zin Zleft Zright _ _].
    destruct (IH fuel lo' hi' c.2 ((cs, S (child_index ks key)) :: st) Zw Zin) as (it & E & Hr); [lia|].
    exists it. split.
    + simpl. destruct cs; [done|]. rewrite Ec. simpl. exact E.
    + rewrite Hr. unfold stack_entries at 1. simpl. fold (stack_entries st).
      assert (drop (S (child_index ks key)) cs = cs2) as ->.
      { rewrite <-Zl, Zc. change (c :: cs2) with ([c] ++ cs2). rewrite app_assoc, drop_app_length'; [done|].
        rewrite length_app. simpl. lia. }
      rewrite Zc, flat_map_app. simpl. rewrite !filter_app.
      rewrite (filter_none _ (flatten_all cs1)), (filter_all _ (flatten_all cs2)); [by rewrite app_assoc| |].
      * eapply Forall_impl; [exact Zright|]. intros e He. destruct inclusive; simpl; [by apply klt_asym|done].
      * eapply Forall_impl; [exact Zleft|]. intros e He. destruct inclusive; simpl; [by intros []|by apply klt_asym].
Qed.

Lemma range_start m b :
  wf_map m → ∃ it, range m b = Some it ∧ remaining it = filter (from_start b) (entries_of m).
Proof.
  intros Hm. assert (∀ key inclusive, ∃ it, seek_rec (levels m) (root m).2 key inclusive [] = Some it
    ∧ remaining it = filter (from_start (seek_bound key inclusive)) (entries_of m)) as Hs.
  { intros key inclusive. destruct Hm as [[[E Eh]|[Hwf _]] _ _].
    - unfold entries_of, levels. rewrite E. simpl. by eexists.
    - destruct (seek_spec (levels m) _ None None _ key inclusive [] Hwf) as (it & E & Hr); [done|unfold levels; lia|].
      exists it. split; [done|]. by rewrite Hr, app_nil_r. }
  destruct b as [k|k|]; [apply (Hs k true)|apply (Hs k false)|].
  eexists. split; [done|]. rewrite iter_remaining. symmetry. apply filter_all. by apply Forall_true.
Qed.

(** The entries up to the upper bound. *)
Fixpoint take_within (b : Bound K) (es : list entry) : list entry :=
  match es with
  | [] => []
  | e :: es' => if within_end b e.1 then e :: take_within b es' else []
  end.

Lemma take_within_filter b es : sorted es → take_within b es = filter (λ e, within_end b e.1 = true) es.
Proof.
  induction 1 as [|e es Hs IH Hall]; simpl; [done|]. rewrite filter_cons.
  destruct (within_end b e.1) eqn:E; [by rewrite decide_True, IH|]. rewrite decide_False by done.
  symmetry. apply filter_none. eapply Forall_impl; [exact Hall|]. intros x Hx Hin. simpl in Hx.
  destruct b as [k|k|]; simpl in *; [| |done].
  - destruct (ord_cmp e.1 k) eqn:Ek; try done. apply cmp_Gt in Ek.
    assert (klt k x.1) as Hkx by (by eapply klt_trans). apply cmp_Gt in Hkx. by rewrite Hkx in Hin.
  - destruct (ord_cmp x.1 k) eqn:Ex; try done. assert (klt e.1 k) as Hek by (by eapply klt_trans). by rewrite Hek in E.
Qed.

Lemma range_next_spec b it :
  ∃ it', range_next b it = Some (head (take_within b (remaining it)), it')
    ∧ take_within b (remaining it') = tail (take_within b (remaining it)).
Proof.
  destruct (iter_next_spec it) as (it' & E & Hr). unfold range_next. rewrite E. simpl.
  destruct (remaining it) as [|e es] eqn:Er; simpl in *; [exists it'; by rewrite Hr|].
  destruct (within_end b e.1); [exists it'; by rewrite Hr|]. by exists iter_empty.
Qed.

Lemma range_collect m lo hi fuel :
  wf_map m → length (entries_of m) < fuel →
  ∃ it, range m lo = Some it
    ∧ collect fuel (range_next hi) it
      = Some (filter (λ e, from_start lo e ∧ within_end hi e.1 = true) (entries_of m)).
Proof.
  intros Hm Hf. destruct (range_start m lo Hm) as (it & E & Hr). exists it. split; [done|].
  pose proof (wf_map_sorted m Hm) as Hs.
  assert (sorted (remaining it)) as Hsr by (rewrite Hr; by apply StronglySorted_filter).
  rewrite (collect_spec _ (λ it, take_within hi (remaining it))).
  - f_equal. rewrite take_within_filter, Hr by done. rewrite list_filter_filter.
    apply list_filter_iff. intros e. naive_solver.
  - apply range_next_spec.
  - rewrite take_within_filter by done. eapply Nat.le_lt_trans; [apply length_filter|]. rewrite Hr.
    eapply Nat.le_lt_trans; [apply length_filter|]. done.
Qed.
End iteration.
