(* ===== verification/OrdMapDiff.v ===== *)
(** * The difference of two ordered maps

    The lazy walk over two trees that skips subtrees both share produces the
    difference of their entries, provided an address stands for one node. *)
From stdpp Require Import prelude list sorting.
From S2P Require Import Prelude OrdMap OrdMapProps OrdMapWalk.

(** ** The difference of two lists of entries *)

Section list_diff.
Context {K V : Type} `{Ord K} `{EqDecision V}.
Notation entry := (K * V)%type.
Notation item := (DiffItem K V).
Implicit Types (l r : list entry).

Fixpoint list_diff l : list entry → list item :=
  fix go r :=
    match l, r with
    | [], [] => []
    | a :: l', [] => Remove a.1 a.2 :: list_diff l' []
    | [], b :: r' => Add b.1 b.2 :: go r'
    | a :: l', b :: r' =>
        match ord_cmp a.1 b.1 with
        | Lt => Remove a.1 a.2 :: list_diff l' r
        | Gt => Add b.1 b.2 :: go r'
        | Eq => if decide (a.2 = b.2) then list_diff l' r' else Update a b :: list_diff l' r'
        end
    end.

Lemma list_diff_nil_r a l : list_diff (a :: l) [] = Remove a.1 a.2 :: list_diff l [].
Proof. done. Qed.
Lemma list_diff_nil_l b r : list_diff [] (b :: r) = Add b.1 b.2 :: list_diff [] r.
Proof. done. Qed.
Lemma list_diff_cons a l b r :
  list_diff (a :: l) (b :: r) =
  match ord_cmp a.1 b.1 with
  | Lt => Remove a.1 a.2 :: list_diff l (b :: r)
  | Gt => Add b.1 b.2 :: list_diff (a :: l) r
  | Eq => if decide (a.2 = b.2) then list_diff l r else Update a b :: list_diff l r
  end.
Proof. done. Qed.

Lemma list_diff_prefix es l r : list_diff (es ++ l) (es ++ r) = list_diff l r.
Proof.
  induction es as [|e es IH]; [done|]. rewrite <-!app_comm_cons, list_diff_cons, (cmp_refl ord_cmp).
  by rewrite decide_True.
Qed.

Lemma length_list_diff l r : length (list_diff l r) ≤ length l + length r.
Proof.
  revert r. induction l as [|a l IHl]; intros r.
  { induction r as [|b r IH]; [done|]. rewrite list_diff_nil_l. simpl in *. lia. }
  induction r as [|b r IHr]; [rewrite list_diff_nil_r; specialize (IHl []); simpl in *; lia|].
  rewrite list_diff_cons. destruct (ord_cmp a.1 b.1).
  - specialize (IHl r). case_decide; simpl; lia.
  - specialize (IHl (b :: r)). simpl in *. lia.
  - simpl in *. lia.
Qed.

(** The difference at one key. *)
Definition diff_at (k : K) (old new : option V) : option item :=
  match old, new with
  | None, None => None
  | None, Some v => Some (Add k v)
  | Some v, None => Some (Remove k v)
  | Some v, Some w => if decide (v = w) then None else Some (Update (k, v) (k, w))
  end.
Definition item_key (d : item) : K := match d with Add k _ | Remove k _ => k | Update a _ => a.1 end.

Lemma diff_at_key k o1 o2 d : diff_at k o1 o2 = Some d → item_key d = k.
Proof. unfold diff_at. intros. repeat case_match; by simplify_eq. Qed.

Lemma assoc_cons k (e : entry) l : assoc k (e :: l) = match ord_cmp e.1 k with Eq => Some e.2 | _ => assoc k l end.
Proof.
  unfold assoc. rewrite filter_cons.
  destruct (ord_cmp e.1 k); [rewrite decide_True by done|rewrite decide_False by done..]; done.
Qed.

Lemma assoc_In k l v : assoc k l = Some v → (k, v) ∈ l.
Proof.
  induction l as [|e l IH]; [done|]. rewrite assoc_cons. destruct (ord_cmp e.1 k) eqn:E; [|intros; right; by apply IH..].
  apply cmp_Eq in E as <-. intros [= <-]. destruct e. left.
Qed.

Lemma assoc_below k (e : entry) l : sorted (e :: l) → klt k e.1 → assoc k (e :: l) = None.
Proof.
  intros [_ Hs]%StronglySorted_inv Hk. apply after_all. constructor; [done|].
  eapply Forall_impl; [exact Hs|]. intros x Hx. exact (klt_trans _ _ _ Hk Hx).
Qed.

Lemma assoc_head (e : entry) l : sorted (e :: l) → assoc e.1 (e :: l) = Some e.2 ∧ assoc e.1 l = None.
Proof.
  intros [_ Hs]%StronglySorted_inv. rewrite assoc_cons, (cmp_refl ord_cmp). split; [done|]. by apply after_all.
Qed.

Lemma assoc_tail k (e : entry) l : k ≠ e.1 → assoc k (e :: l) = assoc k l.
Proof. intros Hk. rewrite assoc_cons. destruct (ord_cmp e.1 k) eqn:E; try done. by apply cmp_Eq in E. Qed.

Definition differs l r (d : item) : Prop := ∃ k, diff_at k (assoc k l) (assoc k r) = Some d.

(** Peeling the key [k] off: the other keys are looked up in the rests. *)
Lemma differs_peel k l r l' r' d :
  (∀ k', k' ≠ k → assoc k' l = assoc k' l' ∧ assoc k' r = assoc k' r') →
  assoc k l' = None → assoc k r' = None →
  differs l r d ↔ diff_at k (assoc k l) (assoc k r) = Some d ∨ differs l' r' d.
Proof.
  intros Hk Hl Hr. split.
  - intros [k' E]. destruct (klt_cases k' k) as [Hlt|[->|Hlt]]; [|by left|];
      (assert (k' ≠ k) as Hne by (intros ->; by apply klt_irrefl in Hlt));
      right; exists k'; by destruct (Hk k' Hne) as [<- <-].
  - intros [E|[k' E]]; [by exists k|]. destruct (klt_cases k' k) as [Hlt|[->|Hlt]]; [|by rewrite Hl, Hr in E|];
      (assert (k' ≠ k) as Hne by (intros ->; by apply klt_irrefl in Hlt));
      exists k'; by destruct (Hk k' Hne) as [-> ->].
Qed.

Lemma list_diff_elem l r d : sorted l → sorted r → d ∈ list_diff l r ↔ differs l r d.
Proof.
  assert (∀ (e : entry) es, sorted (e :: es) → sorted es) as Htl by (by intros e es [? _]%StronglySorted_inv).
  revert r. induction l as [|a l IHl]; intros r Hl Hr.
  { induction r as [|b r IHr]; [split; [by intros ?%elem_of_nil|by intros [k E]]|].
    destruct (assoc_head b r Hr) as [Hb Hb'].
    rewrite list_diff_nil_l, elem_of_cons, (differs_peel b.1 [] (b :: r) [] r), Hb, IHr by
      (done || by eauto || (intros; by rewrite assoc_tail)).
    simpl. naive_solver. }
  induction r as [|b r IHr].
  { destruct (assoc_head a l Hl) as [Ha Ha'].
    rewrite list_diff_nil_r, elem_of_cons, (differs_peel a.1 (a :: l) [] l []), Ha, IHl by
      (done || by eauto || (intros; by rewrite assoc_tail)).
    simpl. naive_solver. }
  rewrite list_diff_cons. destruct (assoc_head a l Hl) as [Ha Ha'], (assoc_head b r Hr) as [Hb Hb'].
  destruct (ord_cmp a.1 b.1) eqn:E.
  - apply cmp_Eq in E. rewrite E in Ha, Ha'.
    rewrite (differs_peel b.1 (a :: l) (b :: r) l r), Ha, Hb by (done || (intros; rewrite !assoc_tail by congruence; done)).
    destruct a as [ka va], b as [kb vb]. simpl in *. subst kb. case_decide as Hv.
    + rewrite IHl by eauto. naive_solver.
    + rewrite elem_of_cons, IHl by eauto. naive_solver.
  - pose proof (assoc_below a.1 b r Hr E) as Hn.
    rewrite elem_of_cons, IHl, (differs_peel a.1 (a :: l) (b :: r) l (b :: r)), Ha, Hn by
      (done || by eauto || (intros; by rewrite assoc_tail)). simpl. naive_solver.
  - apply cmp_Gt in E. pose proof (assoc_below b.1 a l Hl E) as Hn.
    rewrite elem_of_cons, IHr, (differs_peel b.1 (a :: l) (b :: r) (a :: l) r), Hb, Hn by
      (done || by eauto || (intros; by rewrite (assoc_tail _ b))). simpl. naive_solver.
Qed.

Lemma differs_key l r d : differs l r d → (∃ v, (item_key d, v) ∈ l) ∨ (∃ v, (item_key d, v) ∈ r).
Proof.
  intros [k E]. rewrite (diff_at_key _ _ _ _ E). destruct (assoc k l) as [v|] eqn:El; [left; exists v; by apply assoc_In|].
  destruct (assoc k r) as [v|] eqn:Er; [right; exists v; by apply assoc_In|]. done.
Qed.

(** The difference is in key order. *)
Lemma list_diff_sorted l r : sorted l → sorted r → StronglySorted klt (item_key <$> list_diff l r).
Proof.
  assert (∀ (e : entry) es, sorted (e :: es) → sorted es ∧ ∀ x, x ∈ es → klt e.1 x.1) as Htl.
  { intros e es [? Hall]%StronglySorted_inv. rewrite Forall_forall in Hall. eauto. }
  assert (∀ k l r, sorted l → sorted r → (∀ x, x ∈ l → klt k x.1) → (∀ x, x ∈ r → klt k x.1) →
    Forall (klt k) (item_key <$> list_diff l r)) as Hall.
  { intros k l' r' Hl Hr Hkl Hkr. apply Forall_forall. intros k' (d & -> & Hd)%list_elem_of_fmap.
    apply list_diff_elem, differs_key in Hd as [[v Hv]|[v Hv]]; [apply (Hkl _ Hv)|apply (Hkr _ Hv)|done..]. }
  revert r. induction l as [|a l IHl]; intros r Hl Hr.
  { induction r as [|b r IHr]; [constructor|]. destruct (Htl _ _ Hr) as [Hr' Hb]. rewrite list_diff_nil_l. rewrite fmap_cons.
    constructor; [by apply IHr|]. apply Hall; [done|done|by intros ? ?%elem_of_nil|done]. }
  destruct (Htl _ _ Hl) as [Hl' Ha]. induction r as [|b r IHr].
  { rewrite list_diff_nil_r. rewrite fmap_cons. constructor; [by apply IHl|]. apply Hall; [done|done|done|by intros ? ?%elem_of_nil]. }
  destruct (Htl _ _ Hr) as [Hr' Hb]. rewrite list_diff_cons. destruct (ord_cmp a.1 b.1) eqn:E.
  - apply cmp_Eq in E. case_decide; [by apply IHl|]. rewrite fmap_cons. constructor; [by apply IHl|].
    apply Hall; try done. intros x Hx. simpl. rewrite E. by apply Hb.
  - rewrite fmap_cons. constructor; [by apply IHl|]. apply Hall; try done.
    intros x [->|Hx]%elem_of_cons; [done|]. exact (klt_trans _ _ _ E (Hb x Hx)).
  - apply cmp_Gt in E. rewrite fmap_cons. constructor; [by apply IHr|]. apply Hall; try done.
    intros x [->|Hx]%elem_of_cons; [done|]. exact (klt_trans _ _ _ E (Ha x Hx)).
Qed.

Lemma list_diff_nil l r : sorted l → sorted r → list_diff l r = [] ↔ l = r.
Proof.
  intros Hl Hr. split; [|intros ->; rewrite <-(app_nil_r r); apply list_diff_prefix].
  revert r Hr. induction l as [|a l IH]; intros [|b r] Hr; try done.
  rewrite list_diff_cons. destruct (ord_cmp a.1 b.1) eqn:E; try done. case_decide; [|done]. intros Hd.
  apply cmp_Eq in E. apply StronglySorted_inv in Hl as [Hl _]. apply StronglySorted_inv in Hr as [Hr _].
  rewrite (IH Hl r Hr Hd). destruct a, b; simpl in *; by subst.
Qed.
End list_diff.

(** ** Cursors *)

Section cursor.
Context {K V : Type} `{Ord K} `{EqDecision V}.
Notation entry := (K * V)%type.
Notation node := (Node K V).
Notation arc := (positive * node)%type.
Notation Cursor := (list (Frame K V)).
Notation flatten_all := (flat_map (λ c : arc, flatten c.2)).

(** All the [Arc]s of a tree, its root included. *)
Fixpoint node_arcs (n : node) : list arc :=
  match n with
  | Leaf _ => []
  | Internal _ children => flat_map (λ c, c :: node_arcs c.2) children
  end.
Definition subarcs (a : arc) : list arc := a :: node_arcs a.2.

Lemma elem_of_flat_map {A B} (f : A → list B) (l : list A) y : y ∈ flat_map f l ↔ ∃ x, x ∈ l ∧ y ∈ f x.
Proof. rewrite list_elem_of_In, in_flat_map. setoid_rewrite list_elem_of_In. done. Qed.

Lemma node_arcs_trans (n : node) (a b : arc) : a ∈ node_arcs n → b ∈ node_arcs a.2 → b ∈ node_arcs n.
Proof.
  induction n as [es|ks cs IH] using node_children_ind; simpl; [by intros ?%elem_of_nil|].
  rewrite Forall_forall in IH. rewrite !elem_of_flat_map. intros (c & Hc & [->|Ha]%elem_of_cons) Hb.
  - exists c. split; [done|by right].
  - exists c. split; [done|]. right. by apply IH.
Qed.

Lemma subarcs_children (a b : arc) ks cs c : b ∈ subarcs a → b.2 = Internal ks cs → c ∈ cs → c ∈ subarcs a.
Proof.
  intros Hb Eb Hc. assert (c ∈ node_arcs b.2) as Hcb.
  { rewrite Eb. simpl. apply elem_of_flat_map. exists c. split; [done|left]. }
  apply elem_of_cons in Hb as [->|Hb]; [by right|]. right. by eapply node_arcs_trans.
Qed.

Definition frame_entries (f : Frame K V) : list entry :=
  match f with
  | Nodes items idx _ => flatten_all (drop idx items)
  | Entries items idx => drop idx items
  end.
Definition pending (c : Cursor) : list entry := flat_map frame_entries c.

(** The pending subtrees come from the tree the cursor walks. *)
Definition cursor_in (root : arc) (c : Cursor) : Prop :=
  ∀ items idx h, Nodes items idx h ∈ c → ∀ a, a ∈ items → a ∈ subarcs root.

(** [first_key] finds the first entry of every subtree. *)
Definition keyed (root : arc) : Prop := ∀ a, a ∈ subarcs root → first_key a.2 = fst <$> head (flatten a.2).

(** The head of a cursor. *)
Inductive head_view (root : arc) : option (Head (K:=K) (V:=V)) → Cursor → Prop :=
  | view_none : head_view root None []
  | view_entry items idx e c : items !! idx = Some e → head_view root (Some (HEntry e)) (Entries items idx :: c)
  | view_node items idx h a c : items !! idx = Some a → a ∈ subarcs root →
      head_view root (Some (HNode a)) (Nodes items idx h :: c).

Lemma cursor_in_tail root f c : cursor_in root (f :: c) → cursor_in root c.
Proof. intros Hc items idx h Hin. apply (Hc items idx h). by right. Qed.

Lemma cursor_head_spec root c :
  cursor_in root c →
  let '(hd, c') := cursor_head c in
  head_view root hd c' ∧ pending c' = pending c ∧ cursor_weight c' ≤ cursor_weight c ∧ cursor_in root c'.
Proof.
  induction c as [|f c IH]; intros Hin; [by split_and!; [constructor|..]|].
  specialize (IH (cursor_in_tail _ _ _ Hin)). destruct f as [items idx h|items idx]; simpl.
  - destruct (items !! idx) as [a|] eqn:E.
    { split_and!; [|done..]. constructor; [done|]. apply (Hin items idx h); [left|by eapply list_elem_of_lookup_2]. }
    apply lookup_ge_None in E. rewrite drop_ge by done. destruct (cursor_head c) as [hd c'].
    destruct IH as (? & ? & ? & ?). unfold cursor_weight. simpl. rewrite ?drop_ge by done. split_and!; try done.
  - destruct (items !! idx) as [e|] eqn:E; [split_and!; [by constructor|done..]|].
    apply lookup_ge_None in E. rewrite drop_ge by done. destruct (cursor_head c) as [hd c'].
    destruct IH as (? & ? & ? & ?). unfold cursor_weight. simpl. rewrite ?drop_ge by done. split_and!; try done.
Qed.

(** Consuming the head item. *)
Lemma skip_entry root items idx (e : entry) c :
  items !! idx = Some e → cursor_in root (Entries items idx :: c) →
  let c' := cursor_skip (Entries items idx :: c) in
  pending (Entries items idx :: c) = e :: pending c'
  ∧ cursor_weight c' < cursor_weight (Entries items idx :: c) ∧ cursor_in root c'.
Proof.
  intros E Hin. simpl. unfold cursor_weight. simpl. rewrite (drop_S _ _ _ E). simpl. split_and!; [done|lia|].
  intros items' idx' h' [?|?]%elem_of_cons; [done|]. apply (Hin items' idx' h'). by right.
Qed.

Lemma cursor_in_cons root items idx idx' h c :
  cursor_in root (Nodes items idx h :: c) → cursor_in root (Nodes items idx' h :: c).
Proof.
  intros Hin items1 idx1 h1 [Heq|?]%elem_of_cons; [|apply (Hin items1 idx1 h1); by right].
  simplify_eq. apply (Hin items idx h). left.
Qed.

Lemma skip_node root items idx h (a : arc) c :
  items !! idx = Some a → cursor_in root (Nodes items idx h :: c) →
  let c' := cursor_skip (Nodes items idx h :: c) in
  pending (Nodes items idx h :: c) = flatten a.2 ++ pending c'
  ∧ cursor_weight c' < cursor_weight (Nodes items idx h :: c) ∧ cursor_in root c'.
Proof.
  intros E Hin. simpl. unfold cursor_weight. simpl. rewrite (drop_S _ _ _ E). unfold arcs_weight. simpl.
  split_and!; [by rewrite app_assoc|destruct a.2; simpl; lia|]. by eapply cursor_in_cons.
Qed.

Lemma expand_node root items idx h (a : arc) c :
  items !! idx = Some a → a ∈ subarcs root → cursor_in root (Nodes items idx h :: c) →
  let c' := cursor_expand (Nodes items idx h :: c) in
  pending c' = pending (Nodes items idx h :: c)
  ∧ cursor_weight c' < cursor_weight (Nodes items idx h :: c) ∧ cursor_in root c'.
Proof.
  intros E Ha Hin. cbn [cursor_expand]. rewrite E. destruct a as [p [es|ks cs]] eqn:Ea; cbn [snd].
  - unfold cursor_weight. simpl. rewrite (drop_S _ _ _ E), !drop_0. unfold arcs_weight. simpl.
    split_and!; [by rewrite app_assoc|lia|].
    intros items' idx' h' [?|Hin']%elem_of_cons; [done|]. revert items' idx' h' Hin'. by eapply cursor_in_cons.
  - unfold cursor_weight. simpl. rewrite (drop_S _ _ _ E), !drop_0. unfold arcs_weight. simpl.
    split_and!; [by rewrite app_assoc|lia|].
    intros items' idx' h' [Heq|Hin']%elem_of_cons.
    + simplify_eq. intros c0 Hc0. by eapply subarcs_children.
    + revert items' idx' h' Hin'. by eapply cursor_in_cons.
Qed.

Lemma entry_view root (e : entry) c :
  head_view root (Some (HEntry e)) c → cursor_in root c →
  pending c = e :: pending (cursor_skip c) ∧ cursor_weight (cursor_skip c) < cursor_weight c
  ∧ cursor_in root (cursor_skip c).
Proof. inversion 1; subst. by apply skip_entry. Qed.

Lemma node_view root (a : arc) c :
  head_view root (Some (HNode a)) c → cursor_in root c →
  a ∈ subarcs root
  ∧ (pending c = flatten a.2 ++ pending (cursor_skip c) ∧ cursor_weight (cursor_skip c) < cursor_weight c
     ∧ cursor_in root (cursor_skip c))
  ∧ (pending (cursor_expand c) = pending c ∧ cursor_weight (cursor_expand c) < cursor_weight c
     ∧ cursor_in root (cursor_expand c)).
Proof.
  inversion 1; subst. intros Hin. split; [done|]. split; [by apply skip_node|by eapply expand_node].
Qed.

(** ** The walk *)

Section walk.
Context (rl rr : arc).
(** An address stands for one node. *)
Hypothesis coherent : ∀ a b, a ∈ subarcs rl → b ∈ subarcs rr → a.1 = b.1 → a.2 = b.2.
Hypothesis keyed_l : keyed rl.
Hypothesis keyed_r : keyed rr.

Definition todo (w : DiffWalker K V) : list (DiffItem K V) := list_diff (pending (w_left w)) (pending (w_right w)).

Record walker_ok (w : DiffWalker K V) : Prop := {
  wo_left : cursor_in rl (w_left w);
  wo_right : cursor_in rr (w_right w);
  wo_count : (expansions w + N.of_nat (walker_weight w) ≤ USIZE_MAX)%N
}.

Lemma opened_ok x k (w' : DiffWalker K V) :
  (x + k + N.of_nat (walker_weight w') ≤ USIZE_MAX)%N → opened x k = Some (x + k)%N.
Proof. intros Hle. apply checked_add_ok. lia. Qed.

(** Both cursors positioned at their heads. *)
Lemma advance_spec l r x ln rn :
  head_view rl (Some (HNode ln)) l → head_view rr (Some (HNode rn)) r → walker_ok (mkWalker l r x) →
  let '(l', r', k) := advance_nodes l r ln rn in
  todo (mkWalker l' r' (x + k)) = todo (mkWalker l r x)
  ∧ cursor_in rl l' ∧ cursor_in rr r'
  ∧ walker_weight (mkWalker l' r' (x + k)) + N.to_nat k ≤ walker_weight (mkWalker l r x)
  ∧ walker_weight (mkWalker l' r' (x + k)) < walker_weight (mkWalker l r x).
Proof.
  intros Vl Vr [Il Ir Hc]. simpl in *.
  destruct (node_view _ _ _ Vl Il) as (Hln & (Sl & Wl & Kl) & (El & Xl & Ll)).
  destruct (node_view _ _ _ Vr Ir) as (Hrn & (Sr & Wr & Kr) & (Er & Xr & Lr)).
  pose proof (keyed_l ln Hln) as Fl. pose proof (keyed_r rn Hrn) as Fr.
  unfold advance_nodes, walker_weight, todo in *. simpl in *.
  destruct (decide (ln.1 = rn.1)) as [Heq|_].
  { split_and!; try done; try (simpl; lia). rewrite Sl, Sr, (coherent ln rn) by done. by rewrite list_diff_prefix. }
  destruct (first_key ln.2) as [lk|], (first_key rn.2) as [rk|].
  - destruct (ord_cmp lk rk); [|rewrite ?El, ?Er; split_and!; try done; simpl; lia..].
    destruct (N.leb_spec (frame_height r) (frame_height l)), (N.leb_spec (frame_height l) (frame_height r));
      simpl; rewrite ?El, ?Er; split_and!; try done; simpl; lia.
  - split_and!; try done; try (simpl; lia). simpl. rewrite Sr. by destruct (flatten rn.2).
  - split_and!; try done; try (simpl; lia). simpl. rewrite Sl. by destruct (flatten ln.2).
  - split_and!; try done; try (simpl; lia). simpl. rewrite Sl. by destruct (flatten ln.2).
Qed.

(** What [next_item] has to return when [D] is to be produced and [W] to be walked. *)
Definition outcome (D : list (DiffItem K V)) (W : nat) (res : option (option (DiffItem K V) * DiffWalker K V)) : Prop :=
  ∃ w', res = Some (head D, w') ∧ todo w' = tail D ∧ walker_ok w' ∧ (D ≠ [] → walker_weight w' < W).

Section step.
Context (fuel : nat) (x : N) (D : list (DiffItem K V)) (W : nat).
Hypothesis IH : ∀ w, walker_ok w → walker_weight w < fuel → outcome (todo w) (walker_weight w) (next_item fuel w).
Hypothesis Hc : (x + N.of_nat W ≤ USIZE_MAX)%N.
Hypothesis Hf : W < S fuel.

(** A silent step to [l'] and [r'] that opened [k] nodes. *)
Lemma outcome_open l' r' k :
  list_diff (pending l') (pending r') = D → cursor_in rl l' → cursor_in rr r' →
  cursor_weight l' + cursor_weight r' + N.to_nat k ≤ W → cursor_weight l' + cursor_weight r' < W →
  outcome D W (x ← opened x k; next_item fuel (mkWalker l' r' x)).
Proof.
  intros Ht Hl' Hr' Hk Hlt. rewrite (opened_ok _ _ (mkWalker l' r' x)) by (unfold walker_weight; simpl; lia).
  simpl. destruct (IH (mkWalker l' r' (x + k))) as (w' & E & Ht' & Ho' & Hd).
  { split; simpl; [done..|]. unfold walker_weight. simpl. lia. } { unfold walker_weight. simpl. lia. }
  change (todo (mkWalker l' r' (x + k))) with (list_diff (pending l') (pending r')) in *. rewrite Ht in *.
  exists w'. split_and!; try done. intros Hne. specialize (Hd Hne). unfold walker_weight in *. simpl in *. lia.
Qed.

Lemma outcome_skip l' r' :
  list_diff (pending l') (pending r') = D → cursor_in rl l' → cursor_in rr r' →
  cursor_weight l' + cursor_weight r' < W → outcome D W (next_item fuel (mkWalker l' r' x)).
Proof.
  intros Ht Hl' Hr' Hlt. assert (outcome D W (x ← opened x 0; next_item fuel (mkWalker l' r' x))) as Ho
    by (apply outcome_open; try done; lia).
  rewrite (opened_ok _ _ (mkWalker l' r' x)) in Ho by (unfold walker_weight; simpl; lia). simpl in Ho.
  by rewrite N.add_0_r in Ho.
Qed.

(** An item produced by moving to [l'] and [r']. *)
Lemma outcome_item l' r' d :
  D = d :: list_diff (pending l') (pending r') → cursor_in rl l' → cursor_in rr r' →
  cursor_weight l' + cursor_weight r' < W → outcome D W (Some (Some d, mkWalker l' r' x)).
Proof.
  clear IH Hf. intros Hd Hl' Hr' Hlt. exists (mkWalker l' r' x). rewrite Hd. split_and!; try done.
  split; simpl; [done..|]. unfold walker_weight. simpl. lia.
Qed.

Context (l r : Cursor).
Hypothesis Il : cursor_in rl l.
Hypothesis Ir : cursor_in rr r.
Hypothesis HD : D = list_diff (pending l) (pending r).
Hypothesis HW : cursor_weight l + cursor_weight r ≤ W.

Lemma outcome_node_entry ln re :
  head_view rl (Some (HNode ln)) l → head_view rr (Some (HEntry re)) r →
  outcome D W
    match first_key ln.2 with
    | None => next_item fuel (mkWalker (cursor_skip l) r x)
    | Some lk =>
        match ord_cmp lk re.1 with
        | Gt => Some (Some (Add re.1 re.2), mkWalker l (cursor_skip r) x)
        | _ => x ← opened x 1; next_item fuel (mkWalker (cursor_expand l) r x)
        end
    end.
Proof.
  intros Vl Vr. destruct (node_view _ _ _ Vl Il) as (Hln & (Sl & Wl & Kl) & (El & Xl & Ll)).
  destruct (entry_view _ _ _ Vr Ir) as (Sr & Wr & Kr). pose proof (keyed_l ln Hln) as Fl.
  assert (outcome D W (x ← opened x 1; next_item fuel (mkWalker (cursor_expand l) r x))) as Hx
    by (apply outcome_open; try done; [by rewrite El|lia..]).
  destruct (first_key ln.2) as [lk|], (flatten ln.2) as [|e es]; try done; simpl in Fl.
  - injection Fl as ->. destruct (ord_cmp e.1 re.1) eqn:Ec; [done..|]. apply outcome_item; try done; [|lia].
    rewrite HD, Sl, Sr. simpl app. rewrite list_diff_cons, Ec. done.
  - apply outcome_skip; try done; [|lia]. by rewrite HD, Sl.
Qed.

Lemma outcome_entry_node le rn :
  head_view rl (Some (HEntry le)) l → head_view rr (Some (HNode rn)) r →
  outcome D W
    match first_key rn.2 with
    | None => next_item fuel (mkWalker l (cursor_skip r) x)
    | Some rk =>
        match ord_cmp rk le.1 with
        | Gt => Some (Some (Remove le.1 le.2), mkWalker (cursor_skip l) r x)
        | _ => x ← opened x 1; next_item fuel (mkWalker l (cursor_expand r) x)
        end
    end.
Proof.
  intros Vl Vr. destruct (node_view _ _ _ Vr Ir) as (Hrn & (Sr & Wr & Kr) & (Er & Xr & Lr)).
  destruct (entry_view _ _ _ Vl Il) as (Sl & Wl & Kl). pose proof (keyed_r rn Hrn) as Fr.
  assert (outcome D W (x ← opened x 1; next_item fuel (mkWalker l (cursor_expand r) x))) as Hx
    by (apply outcome_open; try done; [by rewrite Er|lia..]).
  destruct (first_key rn.2) as [rk|], (flatten rn.2) as [|e es]; try done; simpl in Fr.
  - injection Fr as ->. destruct (ord_cmp e.1 le.1) eqn:Ec; [done..|]. apply outcome_item; try done; [|lia].
    rewrite HD, Sl, Sr. simpl app. apply (cmp_lt_gt ord_cmp) in Ec. rewrite list_diff_cons, Ec. done.
  - apply outcome_skip; try done; [|lia]. by rewrite HD, Sr.
Qed.

Lemma outcome_entries le re :
  head_view rl (Some (HEntry le)) l → head_view rr (Some (HEntry re)) r →
  outcome D W
    match ord_cmp le.1 re.1 with
    | Lt => Some (Some (Remove le.1 le.2), mkWalker (cursor_skip l) r x)
    | Gt => Some (Some (Add re.1 re.2), mkWalker l (cursor_skip r) x)
    | Eq => if decide (le.2 = re.2) then next_item fuel (mkWalker (cursor_skip l) (cursor_skip r) x)
            else Some (Some (Update le re), mkWalker (cursor_skip l) (cursor_skip r) x)
    end.
Proof.
  intros Vl Vr. destruct (entry_view _ _ _ Vl Il) as (Sl & Wl & Kl). destruct (entry_view _ _ _ Vr Ir) as (Sr & Wr & Kr).
  rewrite Sl, Sr, list_diff_cons in HD. destruct (ord_cmp le.1 re.1) eqn:Ec.
  - destruct (decide (le.2 = re.2)); [apply outcome_skip|apply outcome_item]; try done; lia.
  - apply outcome_item; try done; [by rewrite Sr|lia].
  - apply outcome_item; try done; [by rewrite Sl|lia].
Qed.

Lemma outcome_nodes ln rn :
  head_view rl (Some (HNode ln)) l → head_view rr (Some (HNode rn)) r →
  outcome D W (let '(l, r, count) := advance_nodes l r ln rn in
               x ← opened x count; next_item fuel (mkWalker l r x)).
Proof.
  intros Vl Vr. assert (walker_ok (mkWalker l r x)) as Hok by (split; simpl; [done..|]; unfold walker_weight; simpl; lia).
  pose proof (advance_spec l r x ln rn Vl Vr Hok) as Hadv. destruct (advance_nodes l r ln rn) as [[l' r'] k].
  unfold todo, walker_weight in Hadv. simpl in Hadv. destruct Hadv as (Ht & Hl' & Hr' & Hk & Hlt).
  apply outcome_open; try done; [by rewrite Ht, HD|lia..].
Qed.
End step.

Lemma next_item_spec fuel w :
  walker_ok w → walker_weight w < fuel → outcome (todo w) (walker_weight w) (next_item fuel w).
Proof.
  revert w. induction fuel as [|fuel IH]; intros [l0 r0 x] Hok Hf; [lia|]. destruct Hok as [Il0 Ir0 Hc]. simpl in Il0, Ir0.
  pose proof (cursor_head_spec rl l0 Il0) as HL. pose proof (cursor_head_spec rr r0 Ir0) as HR.
  cbn [next_item w_left w_right expansions].
  destruct (cursor_head l0) as [hl l]. destruct (cursor_head r0) as [hr r].
  destruct HL as (Vl & Pl & Wl & Il), HR as (Vr & Pr & Wr & Ir).
  set (D := todo (mkWalker l0 r0 x)). assert (D = list_diff (pending l) (pending r)) as HD by (by rewrite Pl, Pr).
  set (W := walker_weight (mkWalker l0 r0 x)) in *.
  assert (cursor_weight l + cursor_weight r ≤ W) as HW by (unfold W, walker_weight; simpl; lia).
  clearbody D W. simpl in Hc. clear l0 r0 Il0 Ir0 Pl Pr Wl Wr.
  destruct hl as [[ln|le]|], hr as [[rn|re]|].
  - by apply outcome_nodes.
  - by apply outcome_node_entry.
  - destruct (node_view _ _ _ Vl Il) as (_ & _ & (El & Xl & Ll)). apply outcome_open; try done; [by rewrite El|lia..].
  - by apply outcome_entry_node.
  - by apply outcome_entries.
  - destruct (entry_view _ _ _ Vl Il) as (Sl & Wl & Kl). inversion Vr; subst. apply outcome_item; try done; [|lia].
    by rewrite Sl.
  - destruct (node_view _ _ _ Vr Ir) as (_ & _ & (Er & Xr & Lr)). apply outcome_open; try done; [by rewrite Er|lia..].
  - destruct (entry_view _ _ _ Vr Ir) as (Sr & Wr & Kr). inversion Vl; subst. apply outcome_item; try done; [|lia].
    by rewrite Sr.
  - inversion Vl; subst. inversion Vr; subst. exists (mkWalker [] [] x). split_and!; try done.
    split; simpl; [done..|]. unfold walker_weight. simpl. lia.
Qed.

Lemma diff_collect_spec fuel w :
  walker_ok w → walker_weight w < fuel → diff_collect fuel w = Some (todo w).
Proof.
  revert w. induction fuel as [|fuel IH]; intros w Hok Hf; [lia|]. simpl. unfold diff_next.
  destruct (next_item_spec (S (walker_weight w)) w Hok) as (w' & -> & Ht & Ho & Hd); [lia|]. simpl.
  destruct (todo w) as [|d l]; [done|]. simpl in *. rewrite (IH w'); [by rewrite Ht|done|].
  specialize (Hd ltac:(done)). lia.
Qed.
End walk.
End cursor.
