(* ===== verification/OrdMapShare.v ===== *)
(** * Sharing between persistent ordered maps

    Several maps share subtrees.  A write copies the nodes on its path unless
    their [Arc]s have a single strong reference; then it writes in place.  As
    long as "unique" is only answered for a single reference, an address keeps
    standing for one node in all live maps, so no map sees another's write and
    equal addresses mean equal subtrees. *)
From stdpp Require Import prelude list.
From S2P Require Import Prelude OrdMap OrdMapProps OrdMapWalk OrdMapDiff.

Section share.
Context {K V : Type} `{Ord K}.
Notation node := (Node K V).
Notation arc := (positive * node)%type.
Notation map := (PersistentOrdMap K V).
Implicit Types (a b c : arc) (ms : list map) (π ρ ds : list nat).

Definition children_of (n : node) : list arc := match n with Leaf _ => [] | Internal _ cs => cs end.

(** The [Arc] at the end of a path of child indices. *)
Fixpoint arc_at a π : option arc :=
  match π with
  | [] => Some a
  | x :: π => c ← children_of a.2 !! x; arc_at c π
  end.

Lemma arc_at_app a π ρ : arc_at a (π ++ ρ) = b ← arc_at a π; arc_at b ρ.
Proof.
  revert a. induction π as [|x π IH]; intros a; simpl; [done|]. destruct (children_of a.2 !! x); simpl; [apply IH|done].
Qed.

Lemma subarcs_path a b : b ∈ subarcs a ↔ ∃ π, arc_at a π = Some b.
Proof.
  destruct a as [p n]. revert p. unfold subarcs. simpl.
  induction n as [es|ks cs IH] using node_children_ind; intros p; simpl.
  { rewrite list_elem_of_singleton. split; [intros ->; by exists []|]. by intros [[|x π] E]; simplify_eq/=. }
  rewrite Forall_forall in IH. rewrite elem_of_cons, elem_of_flat_map. split.
  - intros [->|([q m] & Hc & Hb)]; [by exists []|]. apply (IH _ Hc q) in Hb as [π E].
    apply list_elem_of_lookup_1 in Hc as [x Hx]. exists (x :: π). simpl. by rewrite Hx.
  - intros [[|x π] E]; simpl in E; [left; congruence|right]. destruct (cs !! x) as [[q m]|] eqn:Ex; [|done]. simpl in E.
    apply list_elem_of_lookup_2 in Ex. exists (q, m). split; [done|]. apply (IH _ Ex q). by exists π.
Qed.

(** ** Live maps *)

Definition at_path ms (i : nat) π : option arc := m ← ms !! i; arc_at (root m) π.

(** An address stands for one node, and addresses are below the next free one. *)
Definition coherent ms : Prop :=
  ∀ i j π ρ a b, at_path ms i π = Some a → at_path ms j ρ = Some b → a.1 = b.1 → a.2 = b.2.
Definition allocated ms (next : positive) : Prop := ∀ i π a, at_path ms i π = Some a → (a.1 < next)%positive.

(** A strong reference: the root of a live map, or a child slot of an allocated node. *)
Inductive reference : Type := RootRef (i : nat) | ChildRef (q : positive) (x : nat).
Definition refers ms (r : reference) (p : positive) : Prop :=
  match r with
  | RootRef i => ∃ m, ms !! i = Some m ∧ (root m).1 = p
  | ChildRef q x => ∃ i π a c, at_path ms i π = Some a ∧ a.1 = q ∧ children_of a.2 !! x = Some c ∧ c.1 = p
  end.
Definition single ms (p : positive) : Prop := ∀ r r', refers ms r p → refers ms r' p → r = r'.

(** What [Arc::get_mut] and [Arc::make_mut] rely on: [unique] holds of a single reference only. *)
Definition counts ms (unique : positive → bool) : Prop := ∀ p, unique p = true → single ms p.

Lemma at_path_snoc ms i π x c :
  at_path ms i (π ++ [x]) = Some c ↔ ∃ a, at_path ms i π = Some a ∧ children_of a.2 !! x = Some c.
Proof.
  unfold at_path. destruct (ms !! i) as [m|]; simpl; [|naive_solver]. rewrite arc_at_app.
  destruct (arc_at (root m) π) as [a|]; simpl; [|naive_solver].
  destruct (children_of a.2 !! x) as [c'|] eqn:E; simpl; naive_solver congruence.
Qed.

(** A node reached through single references only is at no other place. *)
Lemma path_unique ms i π a j ρ b :
  coherent ms →
  (∀ k a', k ≤ length π → at_path ms i (take k π) = Some a' → single ms a'.1) →
  at_path ms i π = Some a → at_path ms j ρ = Some b → a.1 = b.1 → i = j ∧ π = ρ.
Proof.
  intros Hco. revert a j ρ b. induction π as [|x π IH] using rev_ind; intros a j ρ b Hs Ea Eb Hab.
  - assert (single ms a.1) as Hsa by (by apply (Hs 0 a)).
    assert (refers ms (RootRef i) a.1) as Ri.
    { unfold at_path in Ea. destruct (ms !! i) as [m|] eqn:Em; simplify_eq/=. by exists m. }
    destruct ρ as [|y ρ _] using rev_ind.
    + assert (refers ms (RootRef j) a.1) as Rj.
      { unfold at_path in Eb. destruct (ms !! j) as [m|] eqn:Em; simplify_eq/=. by exists m. }
      by specialize (Hsa _ _ Ri Rj) as [= ->].
    + apply at_path_snoc in Eb as (q & Eq & Ec).
      assert (refers ms (ChildRef q.1 y) a.1) as Rj by (by exists j, ρ, q, b).
      by specialize (Hsa _ _ Ri Rj).
  - assert (single ms a.1) as Hsa by (apply (Hs (length (π ++ [x]))); [lia|]; by rewrite firstn_all).
    apply at_path_snoc in Ea as (q & Eq & Ec).
    assert (refers ms (ChildRef q.1 x) a.1) as Ri by (by exists i, π, q, a).
    destruct ρ as [|y ρ _] using rev_ind.
    + assert (refers ms (RootRef j) a.1) as Rj.
      { unfold at_path in Eb. destruct (ms !! j) as [m|] eqn:Em; simplify_eq/=. by exists m. }
      by specialize (Hsa _ _ Ri Rj).
    + apply at_path_snoc in Eb as (q' & Eq' & Ec').
      assert (refers ms (ChildRef q'.1 y) a.1) as Rj by (by exists j, ρ, q', b).
      specialize (Hsa _ _ Ri Rj) as [= Hq ->].
      destruct (IH q j ρ q') as [-> ->]; [|done..]. intros k a' Hk Ha'. apply (Hs k a').
      * rewrite length_app. lia.
      * by rewrite take_app_le.
Qed.

(** ** What a write leaves *)

Section written.
Context (unique : positive → bool).

(** The [Arc]s below [res], written from [old] along the path [ds]: unchanged ones off
    the path, new allocations, and the nodes of the path written in place. *)
Record written (old : arc) ds (owned : bool) (next next' : positive) (res mods fresh : list arc) : Prop := {
  wr_res r π b : r ∈ res → arc_at r π = Some b →
    (∃ ρ, arc_at old ρ = Some b ∧ ¬ ρ `prefix_of` ds) ∨ b ∈ fresh ∨ b ∈ mods;
  wr_fresh : NoDup fresh.*1 ∧ ∀ b, b ∈ fresh → (next ≤ b.1 < next')%positive;
  wr_mods k b : mods !! k = Some b → owned = true ∧ k ≤ length ds
    ∧ (∃ b0, arc_at old (take k ds) = Some b0 ∧ b0.1 = b.1)
    ∧ ∀ k' b', k' ≤ k → arc_at old (take k' ds) = Some b' → unique b'.1 = true;
  wr_next : (next ≤ next')%positive
}.

(** The node itself, written in place or copied to a new address. *)
Definition self_mods (owned : bool) (p : positive) (a : arc) : list arc := if owned && unique p then [a] else [].
Definition self_fresh (owned : bool) (p : positive) (a : arc) : list arc := if owned && unique p then [] else [a].

(** Allocating one more [Arc] last. *)
Lemma fresh_snoc (fresh : list arc) next next' n :
  NoDup fresh.*1 ∧ (∀ b, b ∈ fresh → (next ≤ b.1 < next')%positive) → (next ≤ next')%positive →
  NoDup (fresh ++ [(next', n)]).*1 ∧ (∀ b, b ∈ fresh ++ [(next', n)] → (next ≤ b.1 < Pos.succ next')%positive).
Proof.
  intros [Hnd Hr] Hle. split.
  - rewrite fmap_app. apply NoDup_app. split_and!; [done| |by apply NoDup_singleton].
    intros p (b & -> & Hb)%list_elem_of_fmap Hp%list_elem_of_singleton. apply Hr in Hb. simpl in Hp. lia.
  - intros b [Hb%Hr|Hb%list_elem_of_singleton]%elem_of_app; [lia|]. subst b. simpl. lia.
Qed.

(** Everything below [d] is accounted for. *)
Definition traced (old : arc) ds (mods fresh : list arc) (d : arc) : Prop :=
  ∀ π b, arc_at d π = Some b → (∃ ρ, arc_at old ρ = Some b ∧ ¬ ρ `prefix_of` ds) ∨ b ∈ fresh ∨ b ∈ mods.

(** The new or unchanged children of a node whose child [idx] was written. *)
Lemma traced_children q ks cs idx c ds (res mods fresh mods' fresh' : list arc) d :
  cs !! idx = Some c → (∀ r, r ∈ res → traced c ds mods fresh r) →
  (∀ b, b ∈ mods → b ∈ mods') → (∀ b, b ∈ fresh → b ∈ fresh') →
  (d ∈ res ∨ ∃ y, y ≠ idx ∧ cs !! y = Some d) → traced (q, Internal ks cs) (idx :: ds) mods' fresh' d.
Proof.
  intros Hc Hres Hm Hf [Hd|(y & Hy & Ey)] π b E.
  - destruct (Hres d Hd π b E) as [(ρ & Eρ & Hρ)|[Hb|Hb]]; [left|right; left; auto|right; right; auto].
    exists (idx :: ρ). simpl. rewrite Hc. split; [done|]. intros Hpre%prefix_cons_inv_2. done.
  - left. exists (y :: π). simpl. rewrite Ey. split; [done|]. intros ?%prefix_cons_inv_1. done.
Qed.

(** A further allocation above accounted-for children. *)
Lemma written_extra old ds owned next next' res mods fresh n :
  written old ds owned next next' res mods fresh → (∀ d, d ∈ children_of n → traced old ds mods fresh d) →
  written old ds owned next (Pos.succ next') (res ++ [(next', n)]) mods (fresh ++ [(next', n)]).
Proof.
  intros [Wres Wf Wmods Wn] Hch. split; [|exact (fresh_snoc _ _ _ _ Wf Wn)|exact Wmods|lia].
  intros r π b [Hr|Hr%list_elem_of_singleton]%elem_of_app E; [destruct (Wres r π b Hr E); set_solver|subst r].
  destruct π as [|x π]; simpl in E; [simplify_eq; set_solver|].
  destruct (children_of n !! x) as [d|] eqn:Ex; [|done]. apply list_elem_of_lookup_2 in Ex.
  destruct (Hch d Ex π b E) as [?|[?|?]]; set_solver.
Qed.

(** Below a copied node everything is copied. *)
Lemma written_below q ks cs idx c ds next next' res fresh :
  cs !! idx = Some c → written c ds false next next' res [] fresh →
  written (q, Internal ks cs) (idx :: ds) false next next' [] [] fresh
  ∧ ∀ d, (d ∈ res ∨ ∃ y, y ≠ idx ∧ cs !! y = Some d) → traced (q, Internal ks cs) (idx :: ds) [] fresh d.
Proof.
  intros Hc [Wres Wf Wmods Wn]. split; [split; [by intros ???[]%elem_of_nil|done|done|done]|].
  intros d. apply (traced_children q ks cs idx c ds res [] fresh [] fresh); try done. intros r Hr π b. by apply Wres.
Qed.

(** From the write of a child to the write of its parent: [children] are the new children,
    [fresh0] the allocation of the copy made on the way down. *)
Lemma written_parent (p q : positive) ks cs idx c ds owned next next1 next' res mods fresh ks' children :
  cs !! idx = Some c →
  make_mut unique owned q next = (p, owned && unique q, next1) →
  written c ds (owned && unique q) next1 next' res mods fresh →
  (∀ d, d ∈ children → d ∈ res ∨ ∃ y, y ≠ idx ∧ cs !! y = Some d) →
  written (q, Internal ks cs) (idx :: ds) owned next next' [(p, Internal ks' children)]
    (self_mods owned q (p, Internal ks' children) ++ mods) (self_fresh owned q (p, Internal ks' children) ++ fresh)
  ∧ ∀ d, (d ∈ res ∨ ∃ y, y ≠ idx ∧ cs !! y = Some d) →
      traced (q, Internal ks cs) (idx :: ds) (self_mods owned q (p, Internal ks' children) ++ mods)
        (self_fresh owned q (p, Internal ks' children) ++ fresh) d.
Proof.
  intros Hc Hm [Wres [Wnd Wr] Wmods Wn] Hch. unfold make_mut in Hm.
  match goal with |- ?A ∧ ?B => assert B as HB end.
  { intros d. apply (traced_children q ks cs idx c ds res mods fresh); [done|intros r Hr π b; by apply Wres|set_solver..]. }
  split; [|done]. unfold self_mods, self_fresh in *. split.
  - intros r π b ->%list_elem_of_singleton E. destruct π as [|x π]; simpl in E.
    { injection E as <-. right. destruct (owned && unique q); set_solver. }
    destruct (children !! x) as [d|] eqn:Ex; [|done]. simpl in E. apply list_elem_of_lookup_2 in Ex.
    exact (HB d (Hch d Ex) π b E).
  - destruct (owned && unique q); simplify_eq/=; [done|]. split.
    + constructor; [|done]. intros (b & E & Hb)%list_elem_of_fmap. apply Wr in Hb. lia.
    + intros b [->|Hb%Wr]%elem_of_cons; simpl; lia.
  - intros k b Hk. destruct (owned && unique q) eqn:Eo; simplify_eq/=.
    + apply andb_true_iff in Eo as [-> Hq]. destruct k as [|k]; simpl in Hk.
      * simplify_eq. split_and!; [done|lia|by eexists|]. intros k' b' Hk'. replace k' with 0 by lia. simpl. by intros [= <-].
      * destruct (Wmods k b Hk) as (_ & Hle & (b0 & E0 & Eb) & Hu). split_and!; [done|simpl; lia| |].
        -- exists b0. simpl. by rewrite Hc.
        -- intros [|k'] b' Hk' E'; simpl in E'; [by simplify_eq|]. rewrite Hc in E'. simpl in E'. apply (Hu k'); [lia|done].
    + destruct (Wmods k b Hk) as (? & _). done.
  - destruct (owned && unique q); simplify_eq/=; lia.
Qed.

Lemma make_mut_eq owned q next :
  ∃ p next1, make_mut unique owned q next = (p, owned && unique q, next1).
Proof. unfold make_mut. destruct (owned && unique q); eauto. Qed.

Lemma written_leaf p q es es' owned next next1 :
  make_mut unique owned q next = (p, owned && unique q, next1) →
  written (q, Leaf es) [] owned next next1 [(p, Leaf es')] (self_mods owned q (p, Leaf es'))
    (self_fresh owned q (p, Leaf es')).
Proof.
  unfold make_mut, self_mods, self_fresh. intros Hm. split.
  - intros r π b ->%list_elem_of_singleton E. right. destruct π; simplify_eq/=. destruct (owned && unique q); set_solver.
  - destruct (owned && unique q); simplify_eq/=; (split; [|set_solver by lia]); [constructor|apply NoDup_singleton].
  - intros k b Hk. destruct (owned && unique q) eqn:Eo; [|done]. apply andb_true_iff in Eo as [-> Hq]. simplify_eq/=.
    destruct k; simplify_eq/=. split_and!; [done|lia|by eexists|].
    intros k' b' Hk'. replace k' with 0 by lia. by intros [= <-].
  - destruct (owned && unique q); simplify_eq/=; lia.
Qed.

Lemma elem_of_take_1 {A} i (l : list A) d : d ∈ take i l → d ∈ l.
Proof. intros Hd. rewrite <-(take_drop i l). set_solver. Qed.
Lemma elem_of_drop_1 {A} i (l : list A) d : d ∈ drop i l → d ∈ l.
Proof. intros Hd. rewrite <-(take_drop i l). set_solver. Qed.

Lemma elem_of_vec_insert {A} i (x : A) l l' d : vec_insert i x l = Some l' → d ∈ l' → d = x ∨ d ∈ l.
Proof.
  unfold vec_insert. case_match; [|done]. intros [= <-] [Hd|[->|Hd]%elem_of_cons]%elem_of_app; [|by left|].
  - right. by eapply elem_of_take_1.
  - right. by eapply elem_of_drop_1.
Qed.

Lemma elem_of_insert_at {A} (l : list A) i x d : d ∈ <[i := x]> l → d = x ∨ ∃ y, y ≠ i ∧ l !! y = Some d.
Proof.
  intros [y Hy]%list_elem_of_lookup_1. apply list_lookup_insert_Some in Hy as [(-> & -> & _)|[? ?]]; [by left|right; eauto].
Qed.

Lemma split_internal_elem (ks : list K) (cs : list arc) next ks' cs' sp next' :
  split_internal ks cs next = Some (ks', cs', sp, next') →
  (∀ d, d ∈ cs' → d ∈ cs)
  ∧ match sp with
    | None => next' = next
    | Some (_, sib) => next' = Pos.succ next ∧ sib.1 = next ∧ ∀ d, d ∈ children_of sib.2 → d ∈ cs
    end.
Proof.
  unfold split_internal, vec_split_off. set (mid := length cs / 2). clearbody mid.
  destruct (length cs <=? MAX_FANOUT); [by intros [= -> -> <- ->]|].
  destruct (mid <=? length cs); [|done]. destruct (mid - 1 <=? length ks); [|done]. simpl.
  destruct (drop (mid - 1) ks) as [|k ks2]; [done|]. simpl. intros [= <- <- <- <-].
  split_and!; try done; intros d Hd; [by apply (elem_of_take_1 mid)|by apply (elem_of_drop_1 mid)].
Qed.

Lemma insert_rec_written fuel owned a key v next old sp a' next' :
  insert_rec unique fuel owned a key v next = Some (old, sp, a', next') →
  ∃ ds mods fresh, written a ds owned next next' (a' :: option_list (snd <$> sp)) mods fresh.
Proof.
  revert owned a next old sp a' next'.
  induction fuel as [|fuel IH]; intros owned [q n] next old sp a' next' E; [done|]. simpl in E.
  destruct (make_mut_eq owned q next) as (p & next1 & Em). rewrite Em in E. destruct n as [es|ks cs].
  - destruct (binary_search_by (entry_cmp key) es) as [i|i].
    + destruct (es !! i) as [[k0 v0]|]; simplify_eq/=. eexists _, _, _. by apply written_leaf.
    + destruct (vec_insert i (key, v) es) as [es1|]; simplify_eq/=. unfold split_leaf in E.
      case_match; simplify_eq/=; [|eexists _, _, _; by apply written_leaf].
      unfold vec_split_off in E. case_match; simplify_eq/=. destruct (drop _ es1) as [|e es2]; simplify_eq/=.
      eexists _, _, _. apply (written_extra _ _ _ _ _ [_]); [by apply written_leaf|by intros ? ?%elem_of_nil].
  - destruct (cs !! child_index ks key) as [c|] eqn:Ec; simplify_eq/=.
    destruct (insert_rec unique fuel (owned && unique q) c key v next1) as [[[[old1 sp1] c'] next2]|] eqn:Er; simplify_eq/=.
    apply IH in Er as (ds & mods & fresh & W). destruct sp1 as [[sep sib]|]; simplify_eq/=.
    + destruct (vec_insert _ sep ks) as [ks1|]; simplify_eq/=.
      destruct (vec_insert _ sib _) as [cs1|] eqn:Ev; simplify_eq/=.
      destruct (split_internal ks1 cs1 next2) as [[[[ks2 cs2] sp2] next3]|] eqn:Es; simplify_eq/=.
      apply split_internal_elem in Es as [Hcs2 Hsp].
      assert (∀ d, d ∈ cs1 → d ∈ [c'; sib] ∨ ∃ y, y ≠ child_index ks key ∧ cs !! y = Some d) as Hd.
      { intros d Hd. destruct (elem_of_vec_insert _ _ _ _ _ Ev Hd) as [->|[->|?]%elem_of_insert_at]; [set_solver..|by right]. }
      destruct (written_parent p q ks cs _ c ds owned next next1 next2 [c'; sib] mods fresh ks2 cs2 Ec Em W) as [Wp Wt];
        [intros d Hin; by apply Hd, Hcs2|].
      destruct sp as [[sep2 [psib nsib]]|]; simplify_eq/=.
      * destruct Hsp as (-> & -> & Hsib). eexists _, _, _. apply (written_extra _ _ _ _ _ [_]); [exact Wp|].
        intros d Hin. by apply Wt, Hd, Hsib.
      * by eexists _, _, _.
    + destruct (written_parent p q ks cs _ c ds owned next next1 next' [c'] mods fresh ks (<[child_index ks key:=c']> cs) Ec Em W)
        as [Wp _]; [|by eexists _, _, _].
      intros d [->|?]%elem_of_insert_at; [set_solver|by right].
Qed.

Lemma drop_if_empty_elem (ks ks' : list K) (cs cs' : list arc) idx d :
  drop_if_empty ks cs idx = Some (ks', cs') → d ∈ cs' → d ∈ cs.
Proof.
  assert (∀ (l : list arc) i l', vec_remove i l = Some l' → d ∈ l' → d ∈ l) as Hv.
  { intros l i l'. unfold vec_remove. destruct (i <? length l); [|done]. intros [= <-] Hd.
    rewrite delete_take_drop in Hd. apply elem_of_app in Hd as [Hd|Hd]; [by eapply elem_of_take_1|by eapply elem_of_drop_1]. }
  unfold drop_if_empty. destruct (cs !! idx) as [c|]; [|done]. simpl. destruct (node_is_empty c.2); [|by intros [= <- <-]].
  destruct (vec_remove idx cs) as [cs1|] eqn:Ec; [|done]. simpl. intros E Hd. apply (Hv _ _ _ Ec).
  destruct ks as [|k ks0]; [by simplify_eq|]. destruct (vec_remove _ (k :: ks0)); by simplify_eq/=.
Qed.

Lemma remove_copied_written fuel q n key next n' w next' :
  remove_copied fuel n key next = Some (Some (n', w), next') →
  ∃ ds fresh, written (q, n) ds false next (Pos.succ next') [(next', n')] [] fresh.
Proof.
  revert q n next n' w next'. induction fuel as [|fuel IH]; intros q n next n' w next' E; [done|]. simpl in E.
  destruct n as [es|ks cs].
  - destruct (binary_search_by (entry_cmp key) es) as [i|i]; [|done]. destruct (es !! i) as [e|]; simplify_eq/=.
    exists [], ([] ++ [(next', Leaf (take i es ++ drop (S i) es))]).
    apply (written_extra _ _ _ _ _ []); [|by intros ? ?%elem_of_nil].
    split; [by intros ???[]%elem_of_nil|split; [constructor|by intros ? ?%elem_of_nil]|done|lia].
  - destruct (cs !! child_index ks key) as [c|] eqn:Ec; simplify_eq/=.
    destruct (remove_copied fuel c.2 key next) as [[[[child w1]|] next1]|] eqn:Er; simplify_eq/=.
    destruct (drop_if_empty ks _ _) as [[ks1 cs1]|] eqn:Ed; simplify_eq/=.
    destruct c as [qc nc]. apply (IH qc) in Er as (ds & fresh & W).
    destruct (written_below q ks cs _ _ ds _ _ _ _ Ec W) as [Wb Wt].
    eexists _, _. apply (written_extra _ _ _ _ _ []); [exact Wb|]. intros d Hd. apply Wt.
    apply (drop_if_empty_elem _ _ _ _ _ _ Ed) in Hd. apply elem_of_insert_at in Hd as [->|?]; [set_solver|by right].
Qed.

Lemma remove_rec_written fuel a key next a' w next' :
  remove_rec unique fuel a key next = Some (Some (a', w), next') →
  ∃ ds mods fresh, written a ds true next next' [a'] mods fresh.
Proof.
  revert a next a' w next'. induction fuel as [|fuel IH]; intros [q n] next a' w next' E; [done|].
  cbn [remove_rec fst snd] in E. destruct (unique q) eqn:Eq; last first.
  { destruct (remove_copied (S fuel) n key next) as [[[[n' w']|] next1]|] eqn:Er; cbn [mbind option_bind] in E; simplify_eq.
    apply (remove_copied_written _ q) in Er as (ds & fresh & [Wres Wf Wmods Wn]). exists ds, [], fresh. by split. }
  assert (make_mut unique true q next = (q, true && unique q, next)) as Em by (unfold make_mut; simpl; by rewrite Eq).
  destruct n as [es|ks cs].
  - destruct (binary_search_by (entry_cmp key) es) as [i|i]; [|done]. destruct (es !! i) as [e|]; simplify_eq/=.
    destruct (vec_remove i es); simplify_eq/=. eexists _, _, _. by apply written_leaf.
  - destruct (cs !! child_index ks key) as [c|] eqn:Ec; simplify_eq/=.
    destruct (remove_rec unique fuel c key next) as [[[[c' w1]|] next1]|] eqn:Er; simplify_eq/=.
    destruct (drop_if_empty ks _ _) as [[ks1 cs1]|] eqn:Ed; simplify_eq/=.
    apply IH in Er as (ds & mods & fresh & W).
    destruct (written_parent q q ks cs _ c ds true next next next' [c'] mods fresh ks1 cs1 Ec Em) as [Wp _];
      [simpl; by rewrite Eq| |by eexists _, _, _].
    intros d Hd. apply (drop_if_empty_elem _ _ _ _ _ _ Ed) in Hd. apply elem_of_insert_at in Hd as [->|?]; [set_solver|by right].
Qed.

(** ** Writes to maps *)

Definition map_written (m m' : map) next next' : Prop :=
  ∃ ds mods fresh, written (root m) ds true next next' [root m'] mods fresh.

Lemma insert_written (m m' : map) key v next old next' :
  insert unique m key v next = Some (old, m', next') → map_written m m' next next'.
Proof.
  unfold insert. destruct (insert_rec unique (levels m) true (root m) key v next) as [[[[old1 sp] r] next1]|] eqn:E; [|done].
  simpl. apply insert_rec_written in E as (ds & mods & fresh & W). intros E.
  destruct sp as [[sep sib]|]; simpl in *.
  - destruct (checked_add U8_MAX (height m) 1) as [h|]; [|done]. simpl in E.
    assert (root m' = (next1, Internal [sep] [r; sib]) ∧ next' = Pos.succ next1) as [Hr ->].
    { destruct old1; [by simplify_eq/=|]. destruct (checked_add USIZE_MAX (len m) 1); by simplify_eq/=. }
    exists ds, mods, (fresh ++ [(next1, Internal [sep] [r; sib])]).
    destruct (written_extra _ _ _ _ _ _ _ _ (Internal [sep] [r; sib]) W) as [Wres Wf Wmods Wn].
    { intros d Hd π b Eb. by apply (wr_res _ _ _ _ _ _ _ _ W d π b). }
    rewrite Hr. split; try done. intros x π b Hx. apply Wres. set_solver.
  - assert (root m' = r ∧ next' = next1) as [Hr ->].
    { destruct old1; [by simplify_eq/=|]. destruct (checked_add USIZE_MAX (len m) 1); by simplify_eq/=. }
    exists ds, mods, fresh. by rewrite Hr.
Qed.

Lemma collapse_path fuel a h a' h' : collapse fuel a h = Some (a', h') → ∃ π, arc_at a π = Some a'.
Proof.
  revert a h. induction fuel as [|fuel IH]; intros [q [es|ks [|c [|c2 cs]]]] h E; cbn [collapse snd] in E; simplify_eq; try by exists [].
  destruct (checked_sub h 1) as [h1|]; simplify_eq/=. apply IH in E as [π E]. by exists (0 :: π).
Qed.

Lemma remove_written (m m' : map) key next w next' :
  remove unique m key next = Some (Some w, m', next') → map_written m m' next next'.
Proof.
  unfold remove. destruct (remove_rec unique (levels m) (root m) key next) as [[[[r w1]|] next1]|] eqn:E; [|done..].
  cbn [mbind option_bind]. apply remove_rec_written in E as (ds & mods & fresh & W).
  destruct (checked_sub (len m) 1) as [l|]; [|done]. cbn [mbind option_bind].
  destruct (collapse (levels m) r (height m)) as [[r' h']|] eqn:Ec; [|done]. cbn [mbind option_bind]. intros E.
  destruct (l =? 0)%N; apply (inj Some), pair_equal_spec in E as [[_ <-]%pair_equal_spec <-].
  - exists ds, mods, (fresh ++ [(next1, Leaf [])]).
    destruct (written_extra _ _ _ _ _ _ _ _ (Leaf []) W) as [Wres Wf Wmods Wn]; [by intros ? ?%elem_of_nil|].
    split; try done. intros x π b Hx. apply Wres. set_solver.
  - apply collapse_path in Ec as [π0 Eπ]. exists ds, mods, fresh. destruct W as [Wres Wf Wmods Wn]. split; try done.
    intros x π b ->%list_elem_of_singleton Hb. apply (Wres r (π0 ++ π)); [set_solver|]. rewrite arc_at_app, Eπ. exact Hb.
Qed.

(** ** The invariant of the live maps *)

Lemma at_path_insert_ne ms i j m' π : j ≠ i → at_path (<[i := m']> ms) j π = at_path ms j π.
Proof. intros Hne. unfold at_path. by rewrite list_lookup_insert_ne. Qed.
Lemma at_path_insert ms i m m' π : ms !! i = Some m → at_path (<[i := m']> ms) i π = arc_at (root m') π.
Proof. intros Hi. unfold at_path. rewrite list_lookup_insert_eq; [done|]. by eapply lookup_lt_Some. Qed.

Section world.
Context ms (i : nat) (m m' : map) (next next' : positive).
Hypothesis Hco : coherent ms.
Hypothesis Hal : allocated ms next.
Hypothesis Hcount : counts ms unique.
Hypothesis Hi : ms !! i = Some m.
Context ds (mods fresh : list arc).
Hypothesis W : written (root m) ds true next next' [root m'] mods fresh.

(** The three kinds of [Arc]s of the written map. *)
Inductive origin (b : arc) : Prop :=
  | unchanged ρ : at_path ms i ρ = Some b → ¬ ρ `prefix_of` ds → origin b
  | allocated_new : b ∈ fresh → (next ≤ b.1 < next')%positive → origin b
  | in_place k b0 : mods !! k = Some b → k ≤ length ds → at_path ms i (take k ds) = Some b0 → b0.1 = b.1 →
      (∀ j ρ c, at_path ms j ρ = Some c → c.1 = b.1 → j = i ∧ ρ = take k ds) → origin b.

Lemma at_path_old ρ : at_path ms i ρ = arc_at (root m) ρ.
Proof. unfold at_path. by rewrite Hi. Qed.

Lemma written_origin π b : at_path (<[i := m']> ms) i π = Some b → origin b.
Proof.
  rewrite (at_path_insert ms i m m' π Hi). intros Hb.
  destruct (wr_res _ _ _ _ _ _ _ _ W (root m') π b) as [(ρ & Hρ & Hpre)|[Hf|[k Hk]%list_elem_of_lookup_1]];
    [set_solver|done| | |].
  - apply (unchanged b ρ); [by rewrite at_path_old|done].
  - apply allocated_new; [done|]. by apply (wr_fresh _ _ _ _ _ _ _ _ W).
  - destruct (wr_mods _ _ _ _ _ _ _ _ W k b Hk) as (_ & Hle & (b0 & Hb0 & Heq) & Hu).
    apply (in_place b k b0); [done|done|by rewrite at_path_old|done|].
    intros j ρ c Hc Hcb. destruct (path_unique ms i (take k ds) b0 j ρ c) as [<- <-]; try done.
    + intros k' a' Hk' Ha'. apply Hcount, (Hu k'); rewrite length_take in Hk'; [lia|].
      rewrite <-at_path_old, <-Ha'. f_equal. rewrite take_take. f_equal. lia.
    + by rewrite at_path_old.
    + congruence.
Qed.

Lemma origin_old b j ρ c : j ≠ i → origin b → at_path ms j ρ = Some c → b.1 = c.1 → b.2 = c.2.
Proof.
  intros Hne [ρ' Hb _|Hf Hr|k b0 Hk _ Hb0 _ Huniq] Hc Heq.
  - by eapply Hco.
  - apply Hal in Hc. lia.
  - by destruct (Huniq j ρ c Hc (eq_sym Heq)).
Qed.

Lemma origin_origin b c : origin b → origin c → b.1 = c.1 → b.2 = c.2.
Proof.
  assert (∀ b c, origin b → origin c → b.1 = c.1 → (∃ ρ, at_path ms i ρ = Some b ∧ ¬ ρ `prefix_of` ds) → b.2 = c.2) as Hold.
  { clear b c. intros b c _ [ρ' Hc _|Hf Hr|k c0 Hk Hle Hc0 Hcc Huniq] Heq (ρ & Hb & Hpre).
    - by eapply Hco.
    - apply Hal in Hb. lia.
    - destruct (Huniq i ρ b Hb Heq) as [_ ->]. destruct Hpre. apply prefix_take. }
  intros Hb Hc Heq. pose proof Hb as [ρ Eb Hpre|Hf Hr|k b0 Hk Hle Hb0 Hbb Huniq]; [by eapply Hold; eauto| |];
    pose proof Hc as [ρ Ec Hpre|Hf' Hr'|k' c0 Hk' Hle' Hc0 Hcc Huniq']; [symmetry; by eapply Hold; eauto| | |symmetry; by eapply Hold; eauto| |].
  - f_equal. apply list_elem_of_lookup_1 in Hf as [x Hx], Hf' as [y Hy].
    assert (x = y) as ->; [|congruence].
    apply (NoDup_lookup fresh.*1 x y b.1); [apply (wr_fresh _ _ _ _ _ _ _ _ W)|by rewrite list_lookup_fmap, Hx|].
    by rewrite list_lookup_fmap, Hy, Heq.
  - apply Hal in Hc0. lia.
  - apply Hal in Hb0. lia.
  - destruct (Huniq i (take k' ds) c0 Hc0 ltac:(congruence)) as [_ Ht].
    apply (f_equal length) in Ht. rewrite !length_take in Ht. assert (k = k') as -> by lia. congruence.
Qed.

Lemma write_coherent : coherent (<[i := m']> ms) ∧ allocated (<[i := m']> ms) next'.
Proof.
  split.
  - intros j k π ρ a b Ha Hb Heq. destruct (decide (j = i)) as [->|Hj], (decide (k = i)) as [->|Hk].
    + eapply origin_origin; [by eapply written_origin..|done].
    + rewrite at_path_insert_ne in Hb by done. eapply origin_old; [exact Hk|by eapply written_origin|done..].
    + rewrite at_path_insert_ne in Ha by done. symmetry. eapply origin_old; [exact Hj|by eapply written_origin|done..].
    + rewrite at_path_insert_ne in Ha, Hb by done. by eapply Hco.
  - pose proof (wr_next _ _ _ _ _ _ _ _ W) as Hn. intros j π a Ha. destruct (decide (j = i)) as [->|Hj].
    + apply written_origin in Ha as [ρ Hb _|_ Hr|k b0 _ _ Hb0 Heq _]; [apply Hal in Hb; lia|lia|apply Hal in Hb0; lia].
    + rewrite at_path_insert_ne in Ha by done. apply Hal in Ha. lia.
Qed.
End world.
End written.
End share.
