(* ===== verification/OrdMapSpec.v ===== *)
(** * The contract of the persistent ordered map

    The map implements a finite map: sequences of operations give the same
    answers as on a [gmap] and never panic.  Snapshots are independent:
    whatever is cloned and written, addresses stand for one node.  Iteration,
    ranges, differences and equality are those of the contents. *)
From stdpp Require Import prelude gmap list sorting.
From S2P Require Import Prelude OrdMap OrdMapProps OrdMapBuild OrdMapWalk OrdMapDiff OrdMapShare.

(** ** Freshly built trees *)

Section fresh.
Context {K V : Type} `{Ord K}.
Notation entry := (K * V)%type.
Notation arc := (positive * Node K V)%type.
Notation map := (PersistentOrdMap K V).

(** The addresses below [l] are distinct and taken from a range. *)
Definition fresh_arcs (l : list arc) (next next' : positive) : Prop :=
  NoDup (flat_map subarcs l).*1 ∧ Forall (λ b, (next ≤ b.1 < next')%positive) (flat_map subarcs l).

Lemma fresh_arcs_leaf next (es : list entry) : fresh_arcs [(next, Leaf es)] next (Pos.succ next).
Proof. split; simpl; [apply NoDup_singleton|repeat constructor; simpl; lia]. Qed.

Lemma build_leaves_fresh sizes (source : list entry) next level next' :
  build_leaves sizes source next = Some (level, next') →
  (next ≤ next')%positive ∧ fresh_arcs level.*2 next next'.
Proof.
  revert source next level next'. induction sizes as [|s sizes IH]; intros source next level next' E; simpl in E.
  { simplify_eq. split; [lia|]. split; constructor. }
  destruct (take s source) as [|e es]; [done|]. simpl in E.
  destruct (build_leaves sizes (drop s source) (Pos.succ next)) as [[l1 n1]|] eqn:E1; simplify_eq/=.
  apply IH in E1 as (Hle & Hnd & Hr). split; [lia|]. split; csimpl.
  - constructor; [|done]. intros (b & Eb & Hb)%list_elem_of_fmap. rewrite Forall_forall in Hr. apply Hr in Hb. lia.
  - constructor; [simpl; lia|]. eapply Forall_impl; [exact Hr|]. simpl. intros b. lia.
Qed.

(** Grouping a level above fresh arcs keeps them fresh. *)
Lemma build_groups_fresh sizes (source : list (K * arc)) next0 next level next' :
  build_groups sizes source next = Some (level, next') →
  fresh_arcs source.*2 next0 next → (next0 ≤ next)%positive →
  (next ≤ next')%positive
  ∧ NoDup (flat_map subarcs level.*2).*1
  ∧ Forall (λ b, b ∈ flat_map subarcs source.*2 ∨ (next ≤ b.1 < next')%positive) (flat_map subarcs level.*2).
Proof.
  revert source next level next'. induction sizes as [|s sizes IH]; intros source next level next' E Hf H0; simpl in E.
  { simplify_eq. split_and!; [lia|constructor|constructor]. }
  destruct (take s source) as [|e es] eqn:Et; [done|]. simpl in E.
  destruct (build_groups sizes (drop s source) (Pos.succ next)) as [[l1 n1]|] eqn:E1; [|done].
  cbn [mbind option_bind] in E. injection E as <- ->.
  pose proof (take_drop s source) as Hsrc. rewrite Et in Hsrc. set (rest := drop s source) in *. clearbody rest. subst source.
  assert (flat_map subarcs ((e :: es) ++ rest).*2 = flat_map subarcs (e :: es).*2 ++ flat_map subarcs rest.*2) as Hfm
    by (by rewrite fmap_app, flat_map_app).
  unfold fresh_arcs in Hf. rewrite Hfm in Hf |- *. clear Hfm. destruct Hf as [Hnd Hr]. rewrite fmap_app in Hnd. apply NoDup_app in Hnd as (Hnd1 & Hdis & Hnd2).
  apply Forall_app in Hr as [Hr1 Hr2].
  destruct (IH _ _ _ _ E1) as (Hle & Hnd' & Hr'); [split; [done|]|lia|].
  { eapply Forall_impl; [exact Hr2|]. simpl. intros b. lia. }
  rewrite Forall_forall in Hr1, Hr2, Hr'. split; [lia|].
  match goal with |- NoDup (flat_map subarcs ?x).*1 ∧ _ =>
    replace (flat_map subarcs x)
      with (((next, Internal es.*1 (e.2 :: es.*2)) :: flat_map subarcs (e :: es).*2) ++ flat_map subarcs l1.*2)
      by reflexivity end.
  split.
  - rewrite fmap_app. apply NoDup_app. split_and!; [| |done].
    + rewrite fmap_cons. constructor; [|done]. intros (b & Eb & Hb)%list_elem_of_fmap. apply Hr1 in Hb. simpl in Eb. lia.
    + intros p [->|(b & -> & Hb)%list_elem_of_fmap]%elem_of_cons (c & Ec & Hc)%list_elem_of_fmap; simpl in Ec.
      * apply Hr' in Hc as [Hc%Hr2|Hc]; lia.
      * destruct (Hr' c Hc) as [Hin|Hn]; [|apply Hr1 in Hb; lia].
        apply (Hdis b.1); [apply list_elem_of_fmap; eauto|apply list_elem_of_fmap; eauto].
  - apply Forall_forall. intros b [[->|Hb]%elem_of_cons|Hb]%elem_of_app.
    + right. simpl. lia.
    + left. apply elem_of_app. by left.
    + destruct (Hr' b Hb) as [?|?]; [left; apply elem_of_app; by right|right; lia].
Qed.

Lemma build_levels_fresh fuel (level : list (K * arc)) h next0 next a h' next' :
  build_levels fuel level h next = Some (a, h', next') → fresh_arcs level.*2 next0 next → (next0 ≤ next)%positive →
  (next ≤ next')%positive ∧ fresh_arcs [a] next0 next'.
Proof.
  revert level h next. induction fuel as [|fuel IH]; intros level h next E Hf H0;
    destruct level as [|[k a0] [|i2 rest]]; simplify_eq/=; try (split; [lia|exact Hf]).
  change (even_chunks (S (S (length rest)))) with (even_chunks (length ((k, a0) :: i2 :: rest))) in E.
  destruct (build_groups _ _ next) as [[l1 n1]|] eqn:E1; simplify_eq/=.
  destruct (checked_add U8_MAX h 1) as [h1|]; simplify_eq/=.
  apply (build_groups_fresh _ _ next0) in E1 as (Hle & Hnd & Hr); [|done..].
  apply IH in E as (Hle' & Hf'); [split; [lia|done]| |lia]. split; [done|].
  eapply Forall_impl; [exact Hr|]. destruct Hf as [_ Hf]. rewrite Forall_forall in Hf. intros b [Hb%Hf|Hb]; lia.
Qed.

Lemma from_iter_fresh (l : list entry) next (m : map) next' :
  from_iter l next = Some (m, next') → (next ≤ next')%positive ∧ fresh_arcs [root m] next next'.
Proof.
  unfold from_iter, from_sorted. destruct (rev _) as [|e es]; [intros [= <- <-]; split; [lia|apply fresh_arcs_leaf]|].
  destruct (build_leaves _ _ _) as [[level n1]|] eqn:E1; [|done]. cbn [mbind option_bind].
  destruct (build_levels _ _ _ _) as [[[a h] n2]|] eqn:E2; [|done]. cbn [mbind option_bind]. intros [= <- <-].
  apply build_leaves_fresh in E1 as [Hle Hf]. apply (build_levels_fresh _ _ _ next) in E2 as [Hle2 Hf2]; [|done..].
  split; [lia|done].
Qed.
End fresh.

(** ** The abstract map *)

Section abstraction.
Context {K V : Type} `{Ord K}.
Notation entry := (K * V)%type.
Implicit Types (es : list entry).

(** A sorted list around one key. *)
Lemma around_key k es :
  sorted es → es = before k es ++ match assoc k es with Some v => [(k, v)] | None => [] end ++ after k es.
Proof.
  intros Hs. pose proof (search_spec k es Hs) as Hb. destruct (binary_search_by _ es) as [i|i].
  - destruct Hb as (v & Hi & _ & <- & <- & ->). symmetry. by apply take_drop_middle.
  - destruct Hb as (_ & <- & <- & ->). simpl; by rewrite take_drop.
Qed.

Lemma assoc_ins k k' v es :
  sorted es → assoc k' (ins k v es) = match ord_cmp k k' with Eq => Some v | _ => assoc k' es end.
Proof.
  intros Hs. pose proof (f_equal (assoc k') (around_key k es Hs)) as Hes. rewrite !assoc_app in Hes.
  unfold ins. rewrite assoc_app, assoc_cons. simpl.
  destruct (ord_cmp k k') eqn:E.
  - apply cmp_Eq in E as ->. destruct (assoc k' (before k' es)) eqn:Eb; [|done].
    apply assoc_In, list_elem_of_filter in Eb as [Hlt _]. by apply klt_irrefl in Hlt.
  - rewrite Hes. destruct (assoc k es); [|done]. rewrite assoc_cons. simpl. by rewrite E.
  - rewrite Hes. destruct (assoc k es); [|done]. rewrite assoc_cons. simpl. by rewrite E.
Qed.

Lemma assoc_rem k k' es :
  sorted es → assoc k' (rem k es) = match ord_cmp k k' with Eq => None | _ => assoc k' es end.
Proof.
  intros Hs. pose proof (f_equal (assoc k') (around_key k es Hs)) as Hes. rewrite !assoc_app in Hes.
  unfold rem. rewrite assoc_app.
  destruct (ord_cmp k k') eqn:E.
  - apply cmp_Eq in E as ->. destruct (assoc k' (before k' es)) eqn:Eb.
    { apply assoc_In, list_elem_of_filter in Eb as [Hlt _]. by apply klt_irrefl in Hlt. }
    destruct (assoc k' (after k' es)) eqn:Ea; [|done].
    apply assoc_In, list_elem_of_filter in Ea as [Hlt _]. by apply klt_irrefl in Hlt.
  - rewrite Hes. destruct (assoc k es); [|done]. rewrite assoc_cons. simpl. by rewrite E.
  - rewrite Hes. destruct (assoc k es); [|done]. rewrite assoc_cons. simpl. by rewrite E.
Qed.

Lemma assoc_elem k v es : sorted es → (k, v) ∈ es ↔ assoc k es = Some v.
Proof.
  intros Hs. split; [|apply assoc_In]. induction Hs as [|e es Hs IH Hall]; [by intros ?%elem_of_nil|].
  intros [<-|Hin]%elem_of_cons; rewrite assoc_cons; simpl; [by rewrite (cmp_refl ord_cmp)|].
  rewrite Forall_forall in Hall. specialize (Hall _ Hin). simpl in Hall. unfold klt in Hall. rewrite Hall. auto.
Qed.

Lemma sorted_ext `{EqDecision V} es es' :
  sorted es → sorted es' → (∀ k, assoc k es = assoc k es') → es = es'.
Proof.
  intros Hs Hs' Hk. apply list_diff_nil; try done. destruct (list_diff es es') as [|d l] eqn:E; [done|].
  assert (d ∈ list_diff es es') as Hd by (rewrite E; left). apply list_diff_elem in Hd as [k Hd]; [|done..].
  rewrite Hk in Hd. unfold diff_at in Hd. destruct (assoc k es'); [|done]. by rewrite decide_True in Hd.
Qed.

Lemma sorted_NoDup es : sorted es → NoDup es.*1.
Proof.
  induction 1 as [|e es Hs IH Hall]; csimpl; [constructor|]. constructor; [|done].
  intros (x & Hx & Hin)%list_elem_of_fmap. rewrite Forall_forall in Hall. specialize (Hall x Hin). simpl in Hall.
  rewrite Hx in Hall. by apply klt_irrefl in Hall.
Qed.

Context `{Countable K}.
Notation map := (PersistentOrdMap K V).

(** The finite map a tree stands for. *)
Definition represents (m : map) (g : gmap K V) : Prop := ∀ k, assoc k (entries_of m) = g !! k.

Lemma represents_entries (m : map) g :
  wf_map m → represents m g → entries_of m ≡ₚ map_to_list g ∧ sorted (entries_of m).
Proof.
  intros Hm Hg. pose proof (wf_map_sorted m Hm) as Hs. split; [|done]. apply NoDup_Permutation.
  - by eapply NoDup_fmap_1, sorted_NoDup.
  - apply NoDup_map_to_list.
  - intros [k v]. by rewrite assoc_elem, Hg, elem_of_map_to_list.
Qed.

(** ** Sequences of operations *)

Inductive map_op : Type := OpGet (k : K) | OpInsert (k : K) (v : V) | OpRemove (k : K).

(** An operation on the tree; [unique] answers for the reference counts at that moment. *)
Definition tree_op (unique : positive → bool) (o : map_op) (m : map) (next : positive)
    : option (option V * map * positive) :=
  match o with
  | OpGet k => Some (get m k, m, next)
  | OpInsert k v => insert unique m k v next
  | OpRemove k => remove unique m k next
  end.

Fixpoint tree_ops (ops : list ((positive → bool) * map_op)) (m : map) (next : positive)
    : option (list (option V) * map) :=
  match ops with
  | [] => Some ([], m)
  | (u, o) :: ops =>
      '(out, m, next) ← tree_op u o m next;
      '(outs, m) ← tree_ops ops m next;
      Some (out :: outs, m)
  end.

Definition gmap_op (o : map_op) (g : gmap K V) : gmap K V :=
  match o with OpGet _ => g | OpInsert k v => <[k := v]> g | OpRemove k => delete k g end.
Definition op_key (o : map_op) : K := match o with OpGet k | OpInsert k _ | OpRemove k => k end.
Fixpoint gmap_ops (ops : list map_op) (g : gmap K V) : list (option V) * gmap K V :=
  match ops with
  | [] => ([], g)
  | o :: ops => let '(outs, g') := gmap_ops ops (gmap_op o g) in (g !! op_key o :: outs, g')
  end.

Definition is_insert (o : map_op) : bool := match o with OpInsert _ _ => true | _ => false end.
Definition inserts (ops : list map_op) : nat := length (filter is_insert ops).

(** After [n] insertions. *)
Record simulates (n : nat) (m : map) (g : gmap K V) : Prop := {
  sm_wf : wf_map m;
  sm_rep : represents m g;
  sm_len : length (entries_of m) ≤ n;
  sm_pot : potential m ≤ n
}.

Lemma simulates_height n m g : simulates n m g → (N.of_nat n ≤ USIZE_MAX)%N → (height m ≤ 17)%N.
Proof.
  intros [_ _ _ Hp] Hn. destruct (decide (height m = 0)%N) as [->|Hne]; [lia|].
  pose proof (potential_height m Hne) as Hh.
  destruct (decide (height m ≤ 17)%N) as [|Hgt]; [done|exfalso].
  assert (12 ^ 18 ≤ 12 ^ N.to_nat (height m)) as Hpow by (apply Nat.pow_le_mono_r; lia).
  assert (N.of_nat (12 ^ 18) ≤ USIZE_MAX)%N as Hbad by lia. rewrite Nat2N.inj_pow in Hbad.
  revert Hbad. vm_compute. by intros [].
Qed.

Lemma represents_get m g k : wf_map m → represents m g → get m k = g !! k.
Proof. intros Hm Hg. by rewrite get_spec, Hg. Qed.

Lemma tree_op_simulates u o n m g next :
  simulates n m g → (N.of_nat (n + (if is_insert o then 1 else 0)) ≤ USIZE_MAX)%N →
  ∃ m' next', tree_op u o m next = Some (g !! op_key o, m', next')
    ∧ simulates (n + (if is_insert o then 1 else 0)) m' (gmap_op o g).
Proof.
  intros Hs Hn. pose proof Hs as [Hm Hg Hl Hp]. pose proof (wf_map_sorted m Hm) as Hso.
  destruct o as [k|k v|k]; simpl in *.
  - exists m, next. rewrite Nat.add_0_r. by rewrite (represents_get m g).
  - pose proof (simulates_height n m g Hs ltac:(lia)) as Hh.
    destruct (insert_spec u m k v next Hm) as (m' & next' & E & Hm' & He & Hp').
    { unfold U8_MAX. lia. } { rewrite (wm_len m Hm). lia. }
    rewrite (Hg k) in E. exists m', next'. split; [done|]. split; [done| | |lia].
    + intros k'. rewrite He, assoc_ins by done. destruct (ord_cmp k k') eqn:Ec.
      * apply cmp_Eq in Ec as ->. by rewrite lookup_insert_eq.
      * rewrite lookup_insert_ne; [apply Hg|]. intros ->. by rewrite (cmp_refl ord_cmp) in Ec.
      * rewrite lookup_insert_ne; [apply Hg|]. intros ->. by rewrite (cmp_refl ord_cmp) in Ec.
    + rewrite He, assoc_ins_length by done. destruct (assoc k (entries_of m)); lia.
  - destruct (remove_spec u m k next Hm) as (m' & next' & E & Hm' & He & _ & Hp'). rewrite (Hg k) in E.
    exists m', next'. rewrite Nat.add_0_r. split; [done|]. split; [done| | |lia].
    + intros k'. rewrite He, assoc_rem by done. destruct (ord_cmp k k') eqn:Ec.
      * apply cmp_Eq in Ec as ->. by rewrite lookup_delete_eq.
      * rewrite lookup_delete_ne; [apply Hg|]. intros ->. by rewrite (cmp_refl ord_cmp) in Ec.
      * rewrite lookup_delete_ne; [apply Hg|]. intros ->. by rewrite (cmp_refl ord_cmp) in Ec.
    + rewrite He. unfold rem, before, after. rewrite (around_key k (entries_of m) Hso) in Hl.
      rewrite !length_app in *. unfold before, after in *. lia.
Qed.

Lemma tree_ops_simulates ops n m g next :
  simulates n m g → (N.of_nat (n + inserts ops.*2) ≤ USIZE_MAX)%N →
  ∃ m', tree_ops ops m next = Some ((gmap_ops ops.*2 g).1, m')
    ∧ simulates (n + inserts ops.*2) m' (gmap_ops ops.*2 g).2.
Proof.
  revert n m g next. induction ops as [|[u o] ops IH]; intros n m g next Hs Hn; csimpl.
  { exists m. unfold inserts. simpl. by rewrite Nat.add_0_r. }
  assert (inserts (o :: ops.*2) = (if is_insert o then 1 else 0) + inserts ops.*2) as Hi.
  { unfold inserts. rewrite filter_cons. by destruct (is_insert o). }
  csimpl in Hn. rewrite Hi in Hn |- *.
  destruct (tree_op_simulates u o n m g next Hs) as (m1 & next1 & -> & Hs1); [lia|]. simpl.
  destruct (IH _ m1 _ next1 Hs1) as (m' & -> & Hs'); [by rewrite <-Nat.add_assoc|]. simpl.
  destruct (gmap_ops ops.*2 (gmap_op o g)) as [outs g']. simpl in *.
  exists m'. rewrite Nat.add_assoc. done.
Qed.
End abstraction.
Arguments map_op : clear implicits.

(** ** Live maps *)

Section live.
Context {K V : Type} `{Ord K}.
Notation entry := (K * V)%type.
Notation arc := (positive * Node K V)%type.
Notation map := (PersistentOrdMap K V).
Implicit Types (ms : list map) (m : map).

(** The live maps and the next free address; a write may take any answer about uniqueness
    that only holds of single references. *)
Inductive world_step : list map * positive → list map * positive → Prop :=
  | step_new ms next m next' : new next = (m, next') → world_step (ms, next) (ms ++ [m], next')
  | step_collect ms next l m next' : (N.of_nat (length l) ≤ USIZE_MAX)%N →
      from_iter l next = Some (m, next') → world_step (ms, next) (ms ++ [m], next')
  | step_clone ms next i m : ms !! i = Some m → world_step (ms, next) (ms ++ [m], next)
  | step_insert ms next unique i m k v old m' next' : counts ms unique → ms !! i = Some m →
      insert unique m k v next = Some (old, m', next') → world_step (ms, next) (<[i := m']> ms, next')
  | step_remove ms next unique i m k old m' next' : counts ms unique → ms !! i = Some m →
      remove unique m k next = Some (old, m', next') → world_step (ms, next) (<[i := m']> ms, next')
  | step_drop ms next i : world_step (ms, next) (delete i ms, next).

Definition live (ms : list map) (next : positive) : Prop :=
  coherent ms ∧ allocated ms next ∧ ∀ i m, ms !! i = Some m → wf_map m.

Lemma at_path_snoc_map ms m i π a :
  at_path (ms ++ [m]) i π = Some a → at_path ms i π = Some a ∨ arc_at (root m) π = Some a.
Proof.
  unfold at_path. destruct (ms !! i) as [m'|] eqn:E.
  - rewrite (lookup_app_l_Some _ _ _ _ E). by left.
  - apply lookup_ge_None in E. rewrite lookup_app_r by done.
    destruct (i - length ms); simpl; [by right|done].
Qed.

(** A map of its own, or a copy of a live one. *)
Lemma live_snoc ms m next next' :
  live ms next → wf_map m → (next ≤ next')%positive →
  (∃ i, ms !! i = Some m) ∨ fresh_arcs [root m] next next' → live (ms ++ [m]) next'.
Proof.
  intros (Hco & Hal & Hwf) Hm Hle Hf.
  assert (∀ π a, arc_at (root m) π = Some a → (∃ i, at_path ms i π = Some a) ∨
    (fresh_arcs [root m] next next' ∧ a ∈ subarcs (root m))) as Harc.
  { intros π a Ha. destruct Hf as [[i Hi]|Hf]; [left; exists i; unfold at_path; by rewrite Hi|right].
    split; [done|]. apply subarcs_path. eauto. }
  assert (∀ a, fresh_arcs [root m] next next' → a ∈ subarcs (root m) → (next ≤ a.1 < next')%positive) as Hr.
  { intros a [_ Hr] Ha. rewrite Forall_forall in Hr. apply Hr. simpl. by rewrite app_nil_r. }
  assert (∀ i π ρ a b, at_path ms i π = Some a → arc_at (root m) ρ = Some b → a.1 = b.1 → a.2 = b.2) as Hmix.
  { intros i π ρ a b Ha Hb Heq. destruct (Harc ρ b Hb) as [[j Hj]|[Hfr Hin]]; [by eapply Hco|].
    apply Hr in Hin; [|done]. apply Hal in Ha. lia. }
  split_and!.
  - intros i j π ρ a b [Ha|Ha]%at_path_snoc_map [Hb|Hb]%at_path_snoc_map Heq.
    + by eapply Hco.
    + by eapply Hmix.
    + symmetry. by eapply Hmix.
    + destruct (Harc π a Ha) as [[i' Hi']|[Hfr Hin]]; [by eapply Hmix|].
      destruct (Harc ρ b Hb) as [[j' Hj']|[_ Hin']]; [symmetry; by eapply Hmix|].
      destruct Hfr as [Hnd _]. simpl in Hnd. rewrite app_nil_r in Hnd.
      apply list_elem_of_lookup_1 in Hin as [x Hx], Hin' as [y Hy].
      assert (x = y) as ->; [|congruence]. apply (NoDup_lookup (subarcs (root m)).*1 x y a.1); [done|..];
        rewrite list_lookup_fmap, ?Hx, ?Hy; [done|]. simpl. by rewrite Heq.
  - intros i π a [Ha|Ha]%at_path_snoc_map; [apply Hal in Ha; lia|].
    destruct (Harc π a Ha) as [[i' Hi']|[Hfr Hin]]; [apply Hal in Hi'; lia|]. apply Hr in Hin; [lia|done].
  - intros i m' Hi. apply lookup_snoc_Some in Hi as [[_ Hi]|[_ <-]]; [by eapply Hwf|done].
Qed.

Lemma live_write ms next unique i m m' next' :
  live ms next → counts ms unique → ms !! i = Some m → wf_map m' →
  map_written unique m m' next next' → live (<[i := m']> ms) next'.
Proof.
  intros (Hco & Hal & Hwf) Hc Hi Hm' (ds & mods & fresh & W).
  destruct (write_coherent unique ms i m m' next next' Hco Hal Hc Hi ds mods fresh W) as [Hco' Hal'].
  split_and!; [done..|]. intros j m1 [(-> & -> & _)|[_ Hj]]%list_lookup_insert_Some; [done|by eapply Hwf].
Qed.

(** A removal that finds nothing allocates nothing. *)
Lemma remove_copied_none fuel (n : Node K V) key next next' :
  remove_copied fuel n key next = Some (None, next') → next' = next.
Proof.
  revert n next next'. induction fuel as [|fuel IH]; intros [es|ks cs] next next' E; simpl in E; [done..| |].
  - destruct (binary_search_by _ es) as [i|i]; [|by simplify_eq]. by destruct (es !! i).
  - destruct (cs !! child_index ks key) as [c|]; simplify_eq/=.
    destruct (remove_copied fuel c.2 key next) as [[[[n' w]|] n1]|] eqn:E1; simplify_eq/=; [|by eapply IH].
    by destruct (drop_if_empty _ _ _) as [[??]|].
Qed.

Lemma remove_rec_none unique fuel (a : arc) key next next' :
  remove_rec unique fuel a key next = Some (None, next') → next' = next.
Proof.
  revert a next next'. induction fuel as [|fuel IH]; intros [q n] next next' E; [done|].
  cbn [remove_rec fst snd] in E. destruct (unique q); last first.
  { destruct (remove_copied (S fuel) n key next) as [[[[n' w]|] n1]|] eqn:E1; cbn [mbind option_bind] in E;
      simplify_eq. by eapply remove_copied_none. }
  destruct n as [es|ks cs].
  - destruct (binary_search_by _ es) as [i|i]; [|by simplify_eq]. destruct (es !! i); simplify_eq/=.
    by destruct (vec_remove i es).
  - destruct (cs !! child_index ks key) as [c|]; simplify_eq/=.
    destruct (remove_rec unique fuel c key next) as [[[[c' w]|] n1]|] eqn:E1; simplify_eq/=; [|by eapply IH].
    by destruct (drop_if_empty _ _ _) as [[??]|].
Qed.

Lemma remove_none unique m key next m' next' :
  remove unique m key next = Some (None, m', next') → m' = m ∧ next' = next.
Proof.
  unfold remove. destruct (remove_rec unique (levels m) (root m) key next) as [[[[r w]|] n1]|] eqn:E; [| |done];
    cbn [mbind option_bind].
  - destruct (checked_sub (len m) 1); [|done]. cbn [mbind option_bind].
    destruct (collapse _ _ _) as [[??]|]; [|done]. cbn [mbind option_bind]. by case_match.
  - intros [= <- <-]. split; [done|]. by eapply remove_rec_none.
Qed.

Lemma lookup_delete_map ms i j m : delete i ms !! j = Some m → ∃ j', ms !! j' = Some m.
Proof. intros Hj. apply list_elem_of_lookup_2 in Hj. apply list_elem_of_lookup. rewrite delete_take_drop in Hj.
  apply elem_of_app in Hj as [Hj|Hj]; [by eapply elem_of_take_1|by eapply elem_of_drop_1]. Qed.

Lemma at_path_delete ms i j π a : at_path (delete i ms) j π = Some a → ∃ j', at_path ms j' π = Some a.
Proof.
  unfold at_path. destruct (delete i ms !! j) as [m|] eqn:E; [|done]. apply lookup_delete_map in E as [j' Hj'].
  exists j'. by rewrite Hj'.
Qed.

Lemma live_step ms next ms' next' : live ms next → world_step (ms, next) (ms', next') → live ms' next'.
Proof.
  intros Hl Hs. pose proof Hl as (Hco & Hal & Hwf).
  inversion Hs as [? ? m ? E|? ? l m ? Hlen E|? ? i m E|? ? unique i m k v old m' ? Hc E Ei
    |? ? unique i m k old m' ? Hc E Er|? ? i]; subst.
  - injection E as <- <-. apply (live_snoc ms _ next); [done|apply (new_spec next)|lia|right; apply fresh_arcs_leaf].
  - destruct (from_iter_fresh _ _ _ _ E) as [Hle Hf]. apply (live_snoc ms _ next); [done| |done|by right].
    destruct (from_iter_spec l next) as (m1 & n1 & E1 & Hm & _); [done|]. by simplify_eq.
  - apply (live_snoc ms _ next'); [done|by eapply Hwf|lia|left; eauto].
  - eapply live_write; [done..| |by eapply insert_written]. by eapply insert_inv; [eapply Hwf|].
  - destruct old as [w|]; last first.
    { apply remove_none in Er as [-> ->]. by rewrite list_insert_id. }
    eapply live_write; [done..| |by eapply remove_written].
    destruct (remove_spec unique m k next (Hwf _ _ E)) as (m1 & n1 & E1 & Hm1 & _). by simplify_eq.
  - split_and!.
    + intros j1 j2 π ρ a b [j1' Ha]%at_path_delete [j2' Hb]%at_path_delete. by eapply Hco.
    + intros j π a [j' Ha]%at_path_delete. by eapply Hal.
    + intros j m1 [j' Hj]%lookup_delete_map. by eapply Hwf.
Qed.

Lemma live_reachable ms next : rtc world_step ([], 1%positive) (ms, next) → live ms next.
Proof.
  intros Hr. remember ([], 1%positive) as w0 eqn:E0. remember (ms, next) as w eqn:E.
  assert (live w0.1 w0.2) as Hl by (subst; split_and!; [by intros ???????|by intros ???|done]). clear E0.
  revert ms next E Hl. induction Hr as [|w0 w1 w2 Hs _ IH]; intros ms next -> Hl; [done|].
  destruct w0, w1. eapply IH; [done|]. by eapply live_step.
Qed.

(** Well-formed trees know their first keys. *)
Lemma wf_first_key h lo hi (n : Node K V) : wf h lo hi n → first_key n = fst <$> head (flatten n).
Proof.
  revert lo hi n. induction h as [|h IH]; intros lo hi [es|ks [|c cs]] Hwf; try done.
  assert (∃ hi', wf h lo hi' c.2) as [hi' Hc].
  { destruct Hwf as [_ Hc]. destruct ks as [|k ks]; [destruct cs; [eauto|done]|]. destruct Hc as (_ & ? & _). eauto. }
  simpl. rewrite (IH _ _ _ Hc). apply wf_entries in Hc as (Hne & _). by destruct (flatten c.2).
Qed.

Lemma wf_node_arcs h lo hi (n : Node K V) a :
  wf h lo hi n → a ∈ node_arcs n → ∃ h' lo' hi', wf h' lo' hi' a.2.
Proof.
  revert lo hi n. induction h as [|h IH]; intros lo hi [es|ks cs] Hwf; try done; [by intros ?%elem_of_nil|].
  destruct Hwf as [_ Hc]. simpl. rewrite elem_of_flat_map. intros (c & Hin & Ha).
  assert (∃ lo' hi', wf h lo' hi' c.2) as (lo' & hi' & Hwc).
  { revert lo cs Hc Hin. induction ks as [|k ks IHk]; intros lo [|c0 cs] Hc Hin; try done; try by apply elem_of_nil in Hin.
    - destruct cs; [|done]. apply list_elem_of_singleton in Hin as ->. eauto.
    - destruct Hc as (_ & Hc0 & Hr). apply elem_of_cons in Hin as [->|Hin]; [eauto|by eapply IHk]. }
  apply elem_of_cons in Ha as [->|Ha]; [eauto|by eapply IH].
Qed.

Lemma wf_keyed m : wf_map m → keyed (root m).
Proof.
  intros [[[E _]|[Hwf _]] _ _] a Ha; apply elem_of_cons in Ha as [->|Ha].
  - by rewrite E.
  - rewrite E in Ha. by apply elem_of_nil in Ha.
  - by eapply wf_first_key.
  - destruct (wf_node_arcs _ _ _ _ a Hwf Ha) as (h' & lo' & hi' & Hw). by eapply wf_first_key.
Qed.

Lemma walker_new_ok ms next i j m1 m2 `{EqDecision V} :
  live ms next → ms !! i = Some m1 → ms !! j = Some m2 →
  (N.of_nat (node_weight (root m1).2 + node_weight (root m2).2) ≤ USIZE_MAX)%N →
  let w := walker_new m1 m2 in
  walker_ok (root m1) (root m2) w ∧ todo w = list_diff (entries_of m1) (entries_of m2)
  ∧ (∀ a b, a ∈ subarcs (root m1) → b ∈ subarcs (root m2) → a.1 = b.1 → a.2 = b.2).
Proof.
  intros (Hco & _ & _) Hi Hj Hw. split_and!.
  - split; simpl.
    + intros items idx h Hin%list_elem_of_singleton a Ha. simplify_eq. apply list_elem_of_singleton in Ha as ->. left.
    + intros items idx h Hin%list_elem_of_singleton a Ha. simplify_eq. apply list_elem_of_singleton in Ha as ->. left.
    + unfold walker_weight, cursor_weight, arcs_weight. simpl. lia.
  - unfold todo, pending, entries_of. simpl. by rewrite !app_nil_r.
  - intros a b [π Ha]%subarcs_path [ρ Hb]%subarcs_path. apply (Hco i j π ρ); unfold at_path; [by rewrite Hi|by rewrite Hj].
Qed.
End live.

(** ** The contract *)

Section contract.
Context {K V : Type} `{Ord K}.
Notation entry := (K * V)%type.
Notation map := (PersistentOrdMap K V).
Implicit Types (ms : list map) (m : map).

(** C31: any sequence of lookups, insertions and
    removals on an empty tree, with fewer than 2^64 insertions and whatever
    nodes are shared, runs without a panic, answers as the finite map does, ends
    with a well-formed tree of height at most 17, and iterating it yields the
    entries of the finite map in key order. *)
Theorem ord_map_refines_finite_map `{Countable K} (ops : list ((positive → bool) * map_op K V)) next :
  (N.of_nat (inserts ops.*2) ≤ USIZE_MAX)%N →
  ∃ m, tree_ops ops (new next).1 (new (K:=K) (V:=V) next).2 = Some ((gmap_ops ops.*2 ∅).1, m)
    ∧ wf_map m ∧ (height m ≤ 17)%N
    ∧ ∃ es, collect (S (N.to_nat (len m))) iter_next (iter m) = Some es
        ∧ es ≡ₚ map_to_list (gmap_ops ops.*2 ∅).2 ∧ sorted es.
Proof.
  intros Hn. destruct (tree_ops_simulates ops 0 (new next).1 ∅ (new (K:=K) (V:=V) next).2) as (m & E & Hs); [|done|].
  { split; simpl; [apply (new_spec next)|by intros k; rewrite lookup_empty|lia|by vm_compute; lia]. }
  pose proof (simulates_height _ _ _ Hs Hn) as Hh. destruct Hs as [Hm Hg _ _].
  exists m. split_and!; try done. exists (entries_of m). split; [|by apply represents_entries].
  apply iter_collect. rewrite (wm_len m Hm). lia.
Qed.

(** C32: whatever maps are created, collected, cloned, written and
    dropped in whatever order, every live map is well formed and an address
    stands for the same node in all of them: a write in place is never
    visible through another map. *)
Theorem snapshots_coherent ms next :
  rtc world_step ([], 1%positive) (ms, next) →
  (∀ i m, ms !! i = Some m → wf_map m) ∧ coherent ms.
Proof. intros (Hco & _ & Hwf)%live_reachable. done. Qed.

(** C33: the difference of two live maps, which skips shared
    subtrees, terminates and yields in key order exactly one item for
    each key whose values differ; equality of the maps is equality of their
    contents. *)
Theorem diff_of_snapshots `{EqDecision V} ms next i j m1 m2 :
  rtc world_step ([], 1%positive) (ms, next) → ms !! i = Some m1 → ms !! j = Some m2 →
  (N.of_nat (node_weight (root m1).2 + node_weight (root m2).2) ≤ USIZE_MAX)%N →
  (∃ items, diff m1 m2 = Some items ∧ StronglySorted klt (item_key <$> items)
     ∧ ∀ d, d ∈ items ↔ ∃ k, diff_at k (get m1 k) (get m2 k) = Some d)
  ∧ ∃ b, ord_map_eq m1 m2 = Some b ∧ (b = true ↔ ∀ k, get m1 k = get m2 k).
Proof.
  intros Hl%live_reachable Hi Hj Hw. pose proof Hl as (Hco & _ & Hwf).
  pose proof (Hwf _ _ Hi) as Hm1. pose proof (Hwf _ _ Hj) as Hm2.
  pose proof (wf_map_sorted _ Hm1) as Hs1. pose proof (wf_map_sorted _ Hm2) as Hs2.
  destruct (walker_new_ok ms next i j m1 m2 Hl Hi Hj Hw) as (Hok & Ht & Hcoh).
  pose proof (wf_keyed _ Hm1) as Hk1. pose proof (wf_keyed _ Hm2) as Hk2. split.
  - exists (list_diff (entries_of m1) (entries_of m2)). split_and!.
    + unfold diff. rewrite <-Ht. eapply diff_collect_spec; [done..|lia].
    + by apply list_diff_sorted.
    + intros d. rewrite list_diff_elem by done. unfold differs. by setoid_rewrite get_spec.
  - assert ((∀ k, get m1 k = get m2 k) ↔ entries_of m1 = entries_of m2) as Heq.
    { setoid_rewrite get_spec; [|done..]. split; [by apply sorted_ext|by intros ->]. }
    cut (∃ b, ord_map_eq m1 m2 = Some b ∧ (b = true ↔ entries_of m1 = entries_of m2)).
    { intros (b & Eb & Hb). exists b. by rewrite Heq. }
    unfold ord_map_eq. case_decide as Hp.
    { exists true. split; [done|]. split; [intros _|done]. unfold entries_of. f_equal. by apply Hcoh; [left|left|]. }
    destruct (N.eqb_spec (len m1) (len m2)) as [_|Hlen].
    + unfold diff_next.
      destruct (next_item_spec (root m1) (root m2) Hcoh Hk1 Hk2 (S (walker_weight (walker_new m1 m2))) (walker_new m1 m2) Hok)
        as (w' & -> & _); [lia|]. cbn [mbind option_bind]. rewrite Ht. eexists. split; [done|].
      rewrite <-(list_diff_nil (entries_of m1) (entries_of m2)) by done.
      by destruct (list_diff (entries_of m1) (entries_of m2)).
    + exists false. split; [done|]. split; [done|]. intros E. destruct Hlen.
      by rewrite (wm_len _ Hm1), (wm_len _ Hm2), E.
Qed.

(** Collecting any entries gives a well-formed map with the last value
    of every key; its iterator yields its entries once each in key order and
    a range yields exactly those within the bounds. *)
Theorem ranges_and_bulk (l : list entry) next lo hi :
  (N.of_nat (length l) ≤ USIZE_MAX)%N →
  ∃ m next' es it,
    from_iter l next = Some (m, next') ∧ wf_map m
    ∧ (∀ k, get m k = last_value k l)
    ∧ collect (S (N.to_nat (len m))) iter_next (iter m) = Some es
    ∧ sorted es ∧ (∀ k v, (k, v) ∈ es ↔ get m k = Some v)
    ∧ range m lo = Some it
    ∧ collect (S (N.to_nat (len m))) (range_next hi) it
      = Some (filter (λ e, from_start lo e ∧ within_end hi e.1 = true) es).
Proof.
  intros Hl. destruct (from_iter_spec l next Hl) as (m & next' & E & Hm & Hlast).
  pose proof (wf_map_sorted _ Hm) as Hs.
  assert (length (entries_of m) < S (N.to_nat (len m))) as Hlen by (rewrite (wm_len _ Hm); lia).
  destruct (range_collect m lo hi _ Hm Hlen) as (it & Hit & Hc).
  exists m, next', (entries_of m), it. split_and!; try done.
  - intros k. by rewrite get_spec.
  - by apply iter_collect.
  - intros k v. by rewrite assoc_elem, get_spec.
Qed.
End contract.

(** ** Witnesses *)

#[global] Instance nat_ord : Ord nat.
Proof.
  refine {| ord_cmp := Nat.compare |}. split; [intros; apply Nat.compare_eq_iff|intros; apply Nat.compare_antisym|].
  intros x y z. rewrite !Nat.compare_lt_iff. lia.
Defined.

(** Thirty insertions and a removal; no node is unique. *)
Definition sample_ops : list ((positive → bool) * map_op nat nat) :=
  ((λ i, (λ _, false, OpInsert i (i * i))) <$> seq 0 30) ++ [(λ _, true, OpRemove 7); (λ _, true, OpGet 3)].

Lemma ord_map_refines_finite_map_witness :
  ∃ m, tree_ops sample_ops (new 1).1 (new (K:=nat) (V:=nat) 1).2 = Some ((gmap_ops sample_ops.*2 ∅).1, m) ∧ (height m ≤ 17)%N.
Proof.
  destruct (ord_map_refines_finite_map sample_ops 1%positive) as (m & E & _ & Hh & _); [vm_compute; discriminate|].
  exists m. split; [exact E|exact Hh].
Defined.

(** An empty map, a clone of it, and the clone after an insertion. *)
Definition sample_map : PersistentOrdMap nat nat := (new 1%positive).1.
Definition sample_map2 : PersistentOrdMap nat nat := mkOrdMap (2%positive, Leaf [(5, 25)]) 0 1.

Lemma sample_reachable : rtc world_step ([], 1%positive) ([sample_map; sample_map2], 3%positive).
Proof.
  eapply rtc_l; [by apply (step_new [] 1 sample_map 2)|].
  eapply rtc_l; [by apply (step_clone [sample_map] 2 0 sample_map)|].
  eapply rtc_l; [|apply rtc_refl].
  by apply (step_insert [sample_map; sample_map] 2 (λ _, false) 1 sample_map 5 25 None sample_map2 3).
Qed.

Lemma snapshots_coherent_witness : coherent [sample_map; sample_map2].
Proof.
  destruct (snapshots_coherent [sample_map; sample_map2] 3%positive sample_reachable) as [_ Hco]. exact Hco.
Defined.

Lemma diff_of_snapshots_witness : ∃ items, diff sample_map sample_map2 = Some items ∧ Add 5 25 ∈ items.
Proof.
  destruct (diff_of_snapshots [sample_map; sample_map2] 3%positive 0 1 sample_map sample_map2)
    as [(items & E & _ & Hd) _]; [exact sample_reachable|reflexivity|reflexivity|vm_compute; discriminate|].
  exists items. split; [exact E|]. apply Hd. exists 5. reflexivity.
Defined.

Lemma ranges_and_bulk_witness :
  ∃ m next', from_iter [(3, 1); (1, 1); (3, 2)] 1%positive = Some (m, next') ∧ get m 3 = Some 2.
Proof.
  destruct (ranges_and_bulk [(3, 1); (1, 1); (3, 2)] 1%positive (Included 2) Unbounded) as (m & next' & es & it & E & _ & Hg & _);
    [vm_compute; discriminate|].
  exists m, next'. split; [exact E|]. etrans; [apply (Hg 3)|]. reflexivity.
Defined.
