(* ===== verification/StateDiff.v ===== *)
(** * State diffs ([src/src/state/diff.rs])

    The difference of two shared states as the entries added, removed and changed, read off
    the walk over the two persistent maps, and its agreement with the delta
    [compute_state_delta] computes from the contents. *)
From stdpp Require Import prelude gmap strings sorting.
From Stdlib Require String.
From S2P Require Import Prelude EventTypes Json Events Deltas OrdMap OrdMapProps OrdMapBuild OrdMapWalk OrdMapDiff OrdMapShare OrdMapSpec.

(** State keys compare by event type, then state key. *)
#[global] Instance state_key_ord : Ord (string * string) := {| ord_cmp := cmp_pair String.compare String.compare |}.

Section state_diff.
Context {Id : Type} `{EventId Id}.
Abbreviation key := (string * string)%type.
Abbreviation shared_map := (PersistentOrdMap key Id).

Inductive StateDiffEntry : Type :=
  | Added (k : key) (event_id : Id)
  | Removed (k : key) (event_id : Id)
  | Changed (k : key) (old_event_id new_event_id : Id).

Definition diff_entry (d : DiffItem key Id) : StateDiffEntry :=
  match d with
  | Add k id => Added k id
  | Remove k id => Removed k id
  | Update old new => Changed old.1 old.2 new.2
  end.

Definition compute_state_diff_generic (old new : shared_map) : option (list StateDiffEntry) :=
  if decide ((root old).1 = (root new).1) then Some []
  else match diff old new with Some items => Some (diff_entry <$> items) | None => None end.
Definition compute_state_diff (old new : shared_map) : option (list StateDiffEntry) :=
  compute_state_diff_generic old new.

(** The accessors of [StateDiff]. *)
Definition added (l : list StateDiffEntry) : list StateDiffEntry :=
  filter (λ e, (match e with Added _ _ => true | _ => false end) = true) l.
Definition removed (l : list StateDiffEntry) : list StateDiffEntry :=
  filter (λ e, (match e with Removed _ _ => true | _ => false end) = true) l.
Definition changed (l : list StateDiffEntry) : list StateDiffEntry :=
  filter (λ e, (match e with Changed _ _ _ => true | _ => false end) = true) l.

(** The delta an entry stands for. *)
Definition entry_delta (e : StateDiffEntry) : StateDelta Id :=
  match e with
  | Added k id => delta_of k (Some id)
  | Removed k id => delta_of k None
  | Changed k _ id => delta_of k (Some id)
  end.
End state_diff.
Arguments StateDiffEntry : clear implicits.

Section state_diff_props.
Context {Id : Type} `{EventId Id}.
Abbreviation key := (string * string)%type.
Abbreviation shared_map := (PersistentOrdMap key Id).
Implicit Types (g : gmap key Id).

(** What an entry says of the two states. *)
Definition entry_holds g1 g2 (e : StateDiffEntry Id) : Prop :=
  match e with
  | Added k id => g1 !! k = None ∧ g2 !! k = Some id
  | Removed k id => g1 !! k = Some id ∧ g2 !! k = None
  | Changed k id id' => g1 !! k = Some id ∧ g2 !! k = Some id' ∧ id ≠ id'
  end.

Lemma diff_at_entry g1 g2 e :
  (∃ d, e = diff_entry d ∧ ∃ k, diff_at k (g1 !! k) (g2 !! k) = Some d) ↔ entry_holds g1 g2 e.
Proof.
  split.
  - intros (d & -> & k & E). unfold diff_at in E.
    destruct (g1 !! k) eqn:E1, (g2 !! k) eqn:E2; try case_decide; simplify_eq/=; by rewrite ?E1, ?E2.
  - intros He. destruct e as [k id|k id|k id id']; simpl in He.
    + exists (Add k id). split; [done|]. exists k. by destruct He as [-> ->].
    + exists (Remove k id). split; [done|]. exists k. by destruct He as [-> ->].
    + exists (Update (k, id) (k, id')). split; [done|]. exists k. destruct He as (-> & -> & Hne). simpl.
      by rewrite decide_False.
Qed.

Lemma entry_holds_delta g1 g2 d :
  (∃ e, d = entry_delta e ∧ entry_holds g1 g2 e) ↔ d ∈ compute_state_delta g1 g2.
Proof.
  rewrite elem_of_state_delta. split.
  - intros ([k id|k id|k id id'] & -> & He); simpl in *.
    + left. exists k, id. destruct He as [-> ->]. done.
    + right. exists k. destruct He as [-> ->]. done.
    + left. exists k, id'. destruct He as (-> & -> & ?). split_and!; congruence.
  - intros [(k & id & E2 & Hne & ->)|(k & [id E1] & E2 & ->)].
    + destruct (g1 !! k) as [id0|] eqn:E1; [exists (Changed k id0 id)|exists (Added k id)]; simpl; split_and!; congruence.
    + exists (Removed k id). done.
Qed.

(** The diff of two live states, computed by walking their trees
    and skipping what they share, lists in key order one entry per key that
    differs, each telling the truth about both states; its entries are the
    deltas [compute_state_delta] computes, and applying them to the old state
    gives the new one. *)
Theorem state_diff_matches_delta ms next i j (m1 m2 : shared_map) g1 g2 :
  rtc world_step ([], 1%positive) (ms, next) → ms !! i = Some m1 → ms !! j = Some m2 →
  (N.of_nat (node_weight (root m1).2 + node_weight (root m2).2) ≤ USIZE_MAX)%N →
  represents m1 g1 → represents m2 g2 →
  ∃ entries, compute_state_diff m1 m2 = Some entries
    ∧ (∀ e, e ∈ entries ↔ entry_holds g1 g2 e)
    ∧ StronglySorted klt (delta_key <$> (entry_delta <$> entries))
    ∧ (∀ d, d ∈ entry_delta <$> entries ↔ d ∈ compute_state_delta g1 g2)
    ∧ apply_state_delta g1 (entry_delta <$> entries) = g2.
Proof.
  intros Hl%live_reachable Hi Hj Hw Hg1 Hg2. pose proof Hl as (_ & _ & Hwf).
  pose proof (wf_map_sorted _ (Hwf _ _ Hi)) as Hs1. pose proof (wf_map_sorted _ (Hwf _ _ Hj)) as Hs2.
  destruct (walker_new_ok ms next i j m1 m2 Hl Hi Hj Hw) as (Hok & Ht & Hcoh).
  assert (compute_state_diff m1 m2 = Some (diff_entry <$> list_diff (entries_of m1) (entries_of m2))) as E.
  { unfold compute_state_diff, compute_state_diff_generic. case_decide as Hp.
    - assert (entries_of m1 = entries_of m2) as -> by (unfold entries_of; f_equal; by apply Hcoh; [left|left|]).
      by rewrite (proj2 (list_diff_nil _ _ Hs2 Hs2)).
    - unfold diff. rewrite (diff_collect_spec (root m1) (root m2)) by
        (done || lia || by apply wf_keyed; eapply Hwf). by rewrite Ht. }
  eexists. split; [exact E|]. clear E.
  assert (∀ e, e ∈ diff_entry <$> list_diff (entries_of m1) (entries_of m2) ↔ entry_holds g1 g2 e) as He.
  { intros e. rewrite <-diff_at_entry, list_elem_of_fmap. apply exist_proper. intros d.
    rewrite list_diff_elem by done. unfold differs. setoid_rewrite Hg1. setoid_rewrite Hg2. done. }
  assert (∀ d, d ∈ entry_delta <$> (diff_entry <$> list_diff (entries_of m1) (entries_of m2))
    ↔ d ∈ compute_state_delta g1 g2) as Hd.
  { intros d. rewrite <-entry_holds_delta, list_elem_of_fmap. by setoid_rewrite He. }
  split_and!; try done.
  - rewrite <-!list_fmap_compose. erewrite list_fmap_ext; [by apply (list_diff_sorted _ _ Hs1 Hs2)|].
    intros _ [k v|[k v] b|k v] _; simpl; by rewrite ?delta_key_of.
  - rewrite <-(apply_compute_delta g1 g2). apply map_eq. intros k. apply apply_deltas_lookup.
    + intros d Hin%Hd <-. symmetry. apply apply_deltas_lookup; [|left; eauto].
      intros d' Hd' Heq. revert Hin Hd'. rewrite !elem_of_state_delta.
      intros [(k1 & id1 & H1 & _ & ->)|(k1 & _ & H1 & ->)] [(k2 & id2 & H2 & _ & ->)|(k2 & _ & H2 & ->)];
        rewrite !delta_key_of in Heq; simpl; congruence.
    + destruct (decide (Exists (λ d, delta_key d = k) (compute_state_delta g1 g2))) as [(d & Hin & Hk)%Exists_exists|Hno].
      * left. exists d. by rewrite Hd.
      * right. symmetry. apply apply_deltas_lookup; [|by right]. intros d Hin Hk. destruct Hno. apply Exists_exists. eauto.
Qed.
End state_diff_props.

(** ** Witness *)

Definition old_state : PersistentOrdMap (string * string) string := (new 1%positive).1.
Definition new_state : PersistentOrdMap (string * string) string :=
  mkOrdMap (2%positive, Leaf [(("m.room.topic", ""), "$t")]) 0 1.

Lemma state_diff_matches_delta_witness :
  ∃ entries, compute_state_diff (H:=string_event_id) old_state new_state = Some entries
    ∧ Added ("m.room.topic", "") "$t" ∈ entries.
Proof.
  destruct (state_diff_matches_delta (H:=string_event_id) [old_state; new_state] 3%positive 0 1 old_state new_state
    ∅ {[ ("m.room.topic", "") := "$t" ]}) as (entries & E & He & _).
  - eapply rtc_l; [by apply (step_new [] 1 old_state 2)|].
    eapply rtc_l; [by apply (step_clone [old_state] 2 0 old_state)|].
    eapply rtc_l; [|apply rtc_refl].
    by apply (step_insert [old_state; old_state] 2 (λ _, false) 1 old_state ("m.room.topic", "") "$t" None new_state 3).
  - reflexivity.
  - reflexivity.
  - vm_compute. discriminate.
  - intros k. by rewrite lookup_empty.
  - intros k. unfold entries_of. simpl. rewrite assoc_cons. simpl.
    destruct (decide (k = ("m.room.topic", ""))) as [->|Hne]; [by rewrite lookup_singleton_eq|].
    rewrite lookup_singleton_ne by done.
    destruct (cmp_pair String.compare String.compare ("m.room.topic", "") k) eqn:Ec; try done.
    apply (cmp_eq (cmp_pair String.compare String.compare)) in Ec. congruence.
  - exists entries. split; [exact E|]. apply He. split; reflexivity.
Defined.
