(* ===== verification/Multi.v ===== *)
(** * Resolution of several state maps ([src/src/resolve/multi.rs])

    The entry points that resolve the states of several forks: partition,
    conflicted subgraph, auth difference and the iterative resolver, from a
    concrete event map or lazily from an event provider, with or without a
    shared reachability index and reusable caches, and as a diff against one
    of the forks.

    State keys are strings, the instance the engine runs on. An [assert!],
    [expect] or [panic!] is [None]. *)
From stdpp Require Import prelude gmap strings sorting.
From Stdlib Require String.
From S2P Require Import Prelude Dense EventTypes Json Events Reachability JsonContent Auth Samples Sorting Subgraph AuthDiff Kahn Mainline LocalAuth Iterative StateDiff.

Section multi.
Context {Id C : Type} `{EventId Id} `{EventContent C} `{Ho : HashOrder}.
Abbreviation event := (LeanEvent Id C).
Abbreviation key := (string * string)%type.
Abbreviation event_map := (gmap Id event).
Abbreviation shared_state := (gmap key Id).
Implicit Types (ev : event) (version : StateResVersion) (event_context : event_map)
  (state_maps : list shared_state).

(** ** Shared steps *)

(** [entry(id).or_insert(ev)]. *)
Definition or_insert (id : Id) ev (m : event_map) : event_map :=
  match m !! id with Some _ => m | None => <[id := ev]> m end.

(** The conflicted events, each of which must be found. *)
Fixpoint collect_conflicted (find : Id → option event) (conflicted_ids : list Id) (m : event_map)
    : option event_map :=
  match conflicted_ids with
  | [] => Some m
  | id :: ids => ev ←! find id; collect_conflicted find ids (<[id := ev]> m)
  end.

(** [compute_v2_1_subgraph]: the events reduced to what the subgraph reads. *)
Definition auth_only ev : LeanEvent Id value :=
  mkEvent (event_id ev) (event_type ev) (state_key ev) 0%Z 0%Z (sender ev) Null [] (auth_events ev)
    0%Z false false (room_id ev).

Definition compute_v2_1_subgraph (events : event_map) (conflicted_ids : list Id)
    : option (gmap Id (LeanEvent Id value)) :=
  compute_v2_1_conflicted_subgraph (auth_only <$> events) conflicted_ids.

(** [insert_subgraph_events], and the same loop of the eager resolver. *)
Fixpoint insert_subgraph_ids (ids : list Id) (context conflicted_events : event_map) : option event_map :=
  match ids with
  | [] => Some conflicted_events
  | id :: ids =>
      match conflicted_events !! id with
      | Some _ => insert_subgraph_ids ids context conflicted_events
      | None => ev ←! context !! id; insert_subgraph_ids ids context (<[id := ev]> conflicted_events)
      end
  end.

Definition insert_subgraph_events (subgraph : gmap Id (LeanEvent Id value)) (auth_context conflicted_events : event_map)
    : option event_map :=
  insert_subgraph_ids (hm_keys subgraph) auth_context conflicted_events.

Definition has_subgraph version : bool := match version with V2_1 | V2_1_1 => true | _ => false end.

(** What an event source says of an event. *)
Definition pick ev (with_auth : bool) : N * list Id :=
  (Z.to_N (depth ev), if with_auth then auth_events ev else []).

(** ** The eager resolver *)

(** The event source over a concrete context. *)
Definition context_auth event_context (id : Id) (with_auth : bool) (s : unit) : option (N * list Id) * unit :=
  ((λ ev, pick ev with_auth) <$> event_context !! id, s).

Definition subgraph_ids event_context (reachability : option (RangePrefilterReachability Id))
    (conflicted_ids : list Id) : option (list Id) :=
  match reachability with
  | Some reachability => conflicted_subgraph_ids_with_index event_context reachability conflicted_ids None
  | None => subgraph ←! compute_v2_1_subgraph event_context conflicted_ids; Some (hm_keys subgraph)
  end.

Definition add_subgraph version event_context (reachability : option (RangePrefilterReachability Id))
    (conflicted_ids : list Id) (conflicted_events : event_map) : option event_map :=
  if has_subgraph version then
    ids ←! subgraph_ids event_context reachability conflicted_ids;
    insert_subgraph_ids ids event_context conflicted_events
  else Some conflicted_events.

Definition add_auth_difference version event_context (unconflicted_state : shared_state) state_maps
    (conflicted_ids : list Id) (conflicted_events : event_map) : option event_map :=
  if version_eqb version V1 then Some conflicted_events
  else
    match auth_difference (context_auth event_context) (size event_context) unconflicted_state state_maps
            conflicted_ids tt with
    | Some (Ok auth_diff, _) =>
        Some (foldl (λ m id, match event_context !! id with Some ev => or_insert id ev m | None => m end)
                conflicted_events auth_diff)
    | _ => None
    end.

(** Every map equal to the first, by identity or by content. *)
Definition all_identical state_maps : bool :=
  match state_maps with
  | [] => true
  | first :: rest => bool_decide (Forall (λ m, m = first) rest)
  end.

Definition resolve_state_maps_generic state_maps event_context version
    (reachability : option (RangePrefilterReachability Id))
    (auth_cache : option (LocalAuthCache Id C)) (mainline_cache : option (gmap Id (option Id)))
    : option (shared_state * gset key * option (LocalAuthCache Id C) * option (gmap Id (option Id))) :=
  match state_maps with
  | [] => None
  | first :: _ =>
      if all_identical state_maps then Some (first, ∅, auth_cache, mainline_cache)
      else
        let '(unconflicted_state, conflicted_ids) :=
          partition_state_maps (state_iter <$> state_maps) (N.of_nat (length state_maps)) in
        conflicted_events ←! collect_conflicted (λ id, event_context !! id) conflicted_ids ∅;
        let conflicted_keys := derive_all_conflicted_keys conflicted_events in
        conflicted_events ←! add_subgraph version event_context reachability conflicted_ids conflicted_events;
        conflicted_events ←!
          add_auth_difference version event_context unconflicted_state state_maps conflicted_ids conflicted_events;
        let diff_keys := derive_all_conflicted_keys conflicted_events in
        '(resolved, cache, mainline) ←!
          resolve_iterative_sort_with_all_caches unconflicted_state conflicted_events event_context version
            auth_cache (default ∅ mainline_cache) conflicted_keys;
        Some (resolved, diff_keys, (λ _, cache) <$> auth_cache, (λ _, mainline) <$> mainline_cache)
  end.

(** [ForkResolveCaches]. *)
Record ForkResolveCaches : Type := mkForkCaches {
  auth_cache : LocalAuthCache Id C;
  mainline_cache : gmap Id (option Id)
}.
Definition ForkResolveCaches_new version : ForkResolveCaches := mkForkCaches (LocalAuthCache_new version) ∅.

Definition resolve_with state_maps event_context version
    (reachability : option (RangePrefilterReachability Id)) (caches : option ForkResolveCaches)
    : option (shared_state * option ForkResolveCaches) :=
  '(resolved, _, auth, mainline) ←!
    resolve_state_maps_generic state_maps event_context version reachability
      (auth_cache <$> caches) (mainline_cache <$> caches);
  Some (resolved, match auth, mainline with Some a, Some m => Some (mkForkCaches a m) | _, _ => None end).

Definition resolve_state_maps state_maps event_context version : option shared_state :=
  fst <$> resolve_with state_maps event_context version None None.

Definition resolve_state_maps_with_reachability state_maps event_context version
    (reachability : RangePrefilterReachability Id) : option shared_state :=
  fst <$> resolve_with state_maps event_context version (Some reachability) None.

Definition resolve_state_maps_cached state_maps event_context version
    (reachability : RangePrefilterReachability Id) (caches : ForkResolveCaches)
    : option (shared_state * option ForkResolveCaches) :=
  resolve_with state_maps event_context version (Some reachability) (Some caches).

(** ** The diff against one fork *)

Definition fork_diff_entry (base resolved : shared_state) (k : key) : option (StateDiffEntry Id) :=
  match base !! k, resolved !! k with
  | None, Some new_id => Some (Added k new_id)
  | Some old_id, None => Some (Removed k old_id)
  | Some old_id, Some new_id => if decide (old_id = new_id) then None else Some (Changed k old_id new_id)
  | None, None => None
  end.

Definition resolve_state_maps_diff (base_state_index : nat) state_maps event_context version
    : option (list (StateDiffEntry Id)) :=
  base_state ←! state_maps !! base_state_index;
  '(resolved, conflicted_keys, _, _) ←! resolve_state_maps_generic state_maps event_context version None None None;
  Some (omap (fork_diff_entry base_state resolved)
    (sort_by (cmp_pair String.compare String.compare) (elements conflicted_keys))).

(** ** The lazy resolver

    The provider answers from a finite store ([provider_ids]); the walks take
    [fuel]. *)
Section lazy.
Context {P : Type} `{!EventProvider Id C P} (provider : P).

(** The fetched events first, then the provider. *)
Definition fetch (fetched : event_map) (id : Id) : option event :=
  match fetched !! id with Some ev => Some ev | None => get_event provider id end.

(** The event source over the provider, which keeps what it fetches. *)
Definition lazy_auth (id : Id) (with_auth : bool) (fetched : event_map) : option (N * list Id) * event_map :=
  match fetched !! id with
  | Some ev => (Some (pick ev with_auth), fetched)
  | None =>
      match get_event provider id with
      | None => (None, fetched)
      | Some ev => (Some (pick ev with_auth), <[id := ev]> fetched)
      end
  end.

Definition lazy_auth_difference (fuel : nat) (unconflicted_state : shared_state) state_maps
    (conflicted_ids : list Id) (fetched : event_map) : option (result (list Id) Id * event_map) :=
  auth_difference lazy_auth fuel unconflicted_state state_maps conflicted_ids fetched.

(** One id of the auth difference: fetched events, conflicted events. *)
Definition add_lazy_diff (s : event_map * event_map) (id : Id) : event_map * event_map :=
  match fetch s.1 id with
  | Some ev => (<[id := ev]> s.1, or_insert id ev s.2)
  | None => s
  end.

(** One queued id of the candidates' auth chains: auth context, fetched events. *)
Definition lazy_chain_body (conflicted_events : event_map) (aid : Id) (s : event_map * event_map)
    : loop_step Id (event_map * event_map) :=
  match s.1 !! aid, conflicted_events !! aid with
  | None, None =>
      match fetch s.2 aid with
      | Some ev =>
          let auth_context := <[aid := ev]> s.1 in
          Push (auth_context, <[aid := ev]> s.2)
            (filter (λ p, auth_context !! p = None ∧ conflicted_events !! p = None) (auth_events ev))
      | None => Push s []
      end
  | _, _ => Push s []
  end.

Definition lazy_queue (conflicted_events : event_map) : list Id :=
  hm_values conflicted_events ≫= λ ev, filter (λ aid, conflicted_events !! aid = None) (auth_events ev).

Definition lazy_auth_diff (fuel : nat) (precomputed_auth_diff : option (list Id)) version
    (unconflicted_state : shared_state) state_maps (conflicted_ids : list Id) (fetched : event_map)
    : option (list Id * event_map) :=
  if version_eqb version V1 then Some ([], fetched)
  else
    match precomputed_auth_diff with
    | Some auth_diff => Some (auth_diff, fetched)
    | None =>
        match lazy_auth_difference fuel unconflicted_state state_maps conflicted_ids fetched with
        | Some (Ok auth_diff, fetched) => Some (auth_diff, fetched)
        | _ => None
        end
    end.

Definition lazy_subgraph version (auth_context conflicted_events : event_map) (conflicted_ids : list Id)
    : option event_map :=
  if has_subgraph version then
    subgraph ←! compute_v2_1_subgraph (conflicted_events ∪ auth_context) conflicted_ids;
    insert_subgraph_events subgraph auth_context conflicted_events
  else Some conflicted_events.

Definition resolve_state_maps_lazy_with_diff (fuel : nat) state_maps
    (precomputed_auth_diff : option (list Id)) version : option shared_state :=
  match state_maps with
  | [] => None
  | first :: _ =>
      if all_identical state_maps then Some first
      else
        let '(unconflicted_state, conflicted_ids) :=
          partition_state_maps (state_iter <$> state_maps) (N.of_nat (length state_maps)) in
        conflicted_events ←! collect_conflicted (get_event provider) conflicted_ids ∅;
        let conflicted_keys := derive_all_conflicted_keys conflicted_events in
        '(auth_diff, fetched) ←!
          lazy_auth_diff fuel precomputed_auth_diff version unconflicted_state state_maps conflicted_ids
            conflicted_events;
        let '(fetched, conflicted_events) := foldl add_lazy_diff (fetched, conflicted_events) auth_diff in
        '(auth_context, _) ←!
          drain (lazy_chain_body conflicted_events) fuel (lazy_queue conflicted_events) (∅, fetched);
        conflicted_events ←! lazy_subgraph version auth_context conflicted_events conflicted_ids;
        let auth_context := foldl (λ m kv, or_insert kv.1 kv.2 m) auth_context (hm_iter conflicted_events) in
        '(resolved, _, _) ←!
          resolve_iterative_sort_with_all_caches unconflicted_state conflicted_events auth_context version
            None ∅ conflicted_keys;
        Some resolved
  end.
End lazy.
End multi.
