(* ===== verification/MultiProps.v ===== *)
(** * Correctness of the fork resolvers

    What a resolution of several state maps reads and returns, in terms of the
    maps as a set: the agreed entries, the contested events, and the candidates
    the iterative resolver is run on. From this follow that the result does
    not depend on the order of the forks, the hash order, or a shared
    reachability index, and that the diff against a fork is exact. *)
From stdpp Require Import prelude gmap strings sorting.
From Stdlib Require String.
From S2P Require Import Prelude Dense EventTypes Json Events Reachability JsonContent Auth Samples Sorting Kahn ReachProps Subgraph AuthDiff AuthDiffProps Mainline LocalAuth Iterative PowerPhase IterProps StateDiff Multi.

(** ** Sub-maps of a context *)

Section restrict.
Context {Id C : Type} `{EventId Id}.
Abbreviation event := (LeanEvent Id C).
Abbreviation event_map := (gmap Id event).
Implicit Types (ctx : event_map) (S : gset Id).

Definition restrict ctx S : event_map := filter (λ kv, kv.1 ∈ S) ctx.

Lemma restrict_lookup ctx S id : restrict ctx S !! id = if decide (id ∈ S) then ctx !! id else None.
Proof.
  unfold restrict. case_decide as Hd.
  - destruct (ctx !! id) as [ev|] eqn:E; [by apply map_lookup_filter_Some|].
    apply map_lookup_filter_None. by left.
  - apply map_lookup_filter_None. right. by intros ev _.
Qed.

Lemma restrict_Some ctx S id ev : restrict ctx S !! id = Some ev ↔ id ∈ S ∧ ctx !! id = Some ev.
Proof. rewrite restrict_lookup. case_decide; naive_solver. Qed.

Lemma restrict_sub ctx S : restrict ctx S ⊆ ctx.
Proof. apply map_subseteq_spec. intros id ev. rewrite restrict_Some. by intros [_ ?]. Qed.

Lemma restrict_ext ctx S S' : (∀ x, x ∈ dom ctx → x ∈ S ↔ x ∈ S') → restrict ctx S = restrict ctx S'.
Proof.
  intros HS. apply map_eq. intros x. rewrite !restrict_lookup.
  destruct (ctx !! x) as [ev|] eqn:Ex; [|by repeat case_decide].
  apply elem_of_dom_2, HS in Ex. repeat case_decide; tauto.
Qed.

Lemma restrict_all ctx S : (∀ x, x ∈ dom ctx → x ∈ S) → restrict ctx S = ctx.
Proof.
  intros HS. apply map_eq. intros x. rewrite restrict_lookup. case_decide as Hd; [done|].
  symmetry. apply not_elem_of_dom. naive_solver.
Qed.

Lemma restrict_insert ctx S id ev : ctx !! id = Some ev → <[id := ev]> (restrict ctx S) = restrict ctx ({[id]} ∪ S).
Proof.
  intros E. apply map_eq. intros x. rewrite restrict_lookup. destruct (decide (x = id)) as [->|Hne].
  - rewrite lookup_insert_eq. by rewrite decide_True by set_solver.
  - rewrite lookup_insert_ne, restrict_lookup by done. repeat case_decide; set_solver.
Qed.

Lemma restrict_present ctx S id ev : restrict ctx S !! id = Some ev → restrict ctx S = restrict ctx ({[id]} ∪ S).
Proof. intros [Hin _]%restrict_Some. apply restrict_ext. set_solver. Qed.

Lemma or_insert_restrict ctx S id ev : ctx !! id = Some ev → or_insert id ev (restrict ctx S) = restrict ctx ({[id]} ∪ S).
Proof.
  intros E. unfold or_insert. destruct (restrict ctx S !! id) eqn:Er; [by eapply restrict_present|by apply restrict_insert].
Qed.

(** *** The loops that grow the conflicted events *)

Lemma collect_conflicted_spec (find : Id → option event) ids m :
  match collect_conflicted find ids m with
  | Some m' => (∀ id, id ∈ ids → is_Some (find id))
      ∧ ∀ id, m' !! id = if decide (id ∈ ids) then find id else m !! id
  | None => ∃ id, id ∈ ids ∧ find id = None
  end.
Proof.
  revert m. induction ids as [|id ids IH]; intros m; simpl; [split; [set_solver|done]|].
  destruct (find id) as [ev|] eqn:Ef; [|exists id; set_solver].
  specialize (IH (<[id := ev]> m)). destruct (collect_conflicted _ _ _) as [m'|].
  - destruct IH as [Hk Hl]. split.
    + intros x [->|Hx]%elem_of_cons; [by rewrite Ef|by apply Hk].
    + intros x. rewrite Hl. destruct (decide (x = id)) as [->|Hne].
      * rewrite lookup_insert_eq. repeat case_decide; set_solver.
      * rewrite lookup_insert_ne by done. repeat case_decide; set_solver.
  - destruct IH as (x & Hx & Hn). exists x. set_solver.
Qed.

(** Over the lookups of a context: the restriction to the ids, or a missing one. *)
Lemma collect_context (find : Id → option event) ctx ids :
  (∀ id, find id = ctx !! id) →
  match collect_conflicted find ids ∅ with
  | Some m => (∀ id, id ∈ ids → id ∈ dom ctx) ∧ m = restrict ctx (list_to_set ids)
  | None => ∃ id, id ∈ ids ∧ id ∉ dom ctx
  end.
Proof.
  intros Hf. pose proof (collect_conflicted_spec find ids ∅) as Hc. destruct (collect_conflicted _ _ _) as [m|].
  - destruct Hc as [Hk Hl]. split.
    + intros id Hid%Hk. rewrite Hf in Hid. by apply elem_of_dom.
    + apply map_eq. intros x. rewrite Hl, restrict_lookup, Hf, lookup_empty. repeat case_decide; set_solver.
  - destruct Hc as (id & Hid & Hn). exists id. split; [done|]. apply not_elem_of_dom. by rewrite <-Hf.
Qed.

Lemma insert_subgraph_restrict ids ctx S :
  (∀ id, id ∈ ids → id ∈ dom ctx) →
  insert_subgraph_ids ids ctx (restrict ctx S) = Some (restrict ctx (list_to_set ids ∪ S)).
Proof.
  revert S. induction ids as [|id ids IH]; intros S Hd; simpl; [by rewrite (left_id_L ∅ (∪))|].
  assert (list_to_set ids ∪ ({[id]} ∪ S) = {[id]} ∪ list_to_set ids ∪ S) as E by set_solver.
  destruct (restrict ctx S !! id) eqn:Er.
  - apply restrict_present in Er. rewrite Er, IH, E by set_solver. done.
  - assert (id ∈ dom ctx) as [ev He]%elem_of_dom by set_solver. rewrite He, restrict_insert, IH, E by set_solver. done.
Qed.

Lemma add_diff_restrict ctx S ids :
  foldl (λ m id, match ctx !! id with Some ev => or_insert id ev m | None => m end) (restrict ctx S) ids
  = restrict ctx (list_to_set ids ∪ S).
Proof.
  revert S. induction ids as [|id ids IH]; intros S; simpl; [by rewrite (left_id_L ∅ (∪))|].
  destruct (ctx !! id) as [ev|] eqn:E.
  - rewrite (or_insert_restrict _ _ _ _ E), IH. f_equal. set_solver.
  - rewrite IH. apply restrict_ext. intros x Hx. apply not_elem_of_dom in E. set_solver.
Qed.

Lemma derive_keys_elem `{Ho : HashOrder} (cf : event_map) k :
  k ∈ derive_all_conflicted_keys cf ↔ ∃ id ev, cf !! id = Some ev ∧ k = event_key ev (default "" (state_key ev)).
Proof.
  unfold derive_all_conflicted_keys. rewrite elem_of_list_to_set, list_elem_of_fmap. split.
  - intros (ev & -> & [id Hid]%elem_of_hm_values). by exists id, ev.
  - intros (id & ev & Hid & ->). exists ev. split; [done|]. apply elem_of_hm_values. by exists id.
Qed.
End restrict.

(** ** What the forks disagree on *)

Section forks.
Context {Id C : Type} `{EventId Id} `{EventContent C}.
Abbreviation event := (LeanEvent Id C).
Abbreviation event_map := (gmap Id event).
Abbreviation key := (string * string)%type.
Abbreviation shared_state := (gmap key Id).
Implicit Types (ctx : event_map) (maps : list shared_state) (version : StateResVersion).

Definition agreed maps (k : key) (id : Id) : Prop := ∀ m, m ∈ maps → m !! k = Some id.
Definition contested maps (id : Id) : Prop := ∃ k m, m ∈ maps ∧ m !! k = Some id ∧ ¬ agreed maps k id.

(** [x] lies on a citation path from one of [P] down to one of [P]. *)
Definition on_path ctx (P : Id → Prop) (x : Id) : Prop :=
  x ∈ dom ctx ∧ (∃ c, P c ∧ rtc (auth_of ctx) c x) ∧ ∃ b, P b ∧ b ∈ dom ctx ∧ rtc (auth_of ctx) x b.

(** [x] is in the auth chain of the state [m]. *)
Definition in_chain ctx (m : shared_state) (x : Id) : Prop :=
  x ∈ dom ctx ∧ ∃ k id, m !! k = Some id ∧ tc (auth_of ctx) id x.

(** [x] is in some but not all of the auth chains, and not an agreed event. *)
Definition in_difference maps ctx (x : Id) : Prop :=
  ¬ (∃ k, agreed maps k x) ∧ (∃ m, m ∈ maps ∧ in_chain ctx m x) ∧ ¬ (∀ m, m ∈ maps → in_chain ctx m x).

(** The events a resolution sorts and applies. *)
Definition candidate maps ctx version (x : Id) : Prop :=
  contested maps x ∨ (has_subgraph version = true ∧ on_path ctx (contested maps) x)
  ∨ (version ≠ V1 ∧ in_difference maps ctx x).

(** The events a resolution must find. *)
Definition readable maps ctx version : Prop :=
  (∀ x, contested maps x → x ∈ dom ctx) ∧
  (version ≠ V1 → ∀ k id x, agreed maps k id → rtc (auth_of ctx) id x → x ∈ dom ctx).

(** The inputs a machine can hold: a context keyed by event id within the
    width of the index, and a number of entries that a counter holds. *)
Record context_wf version ctx : Prop := {
  cw_graph : graph_wf ctx;
  cw_events : events_wf version ctx
}.
Definition maps_wf maps : Prop :=
  maps ≠ [] ∧ (N.of_nat (length (concat (state_iter <$> maps))) ≤ USIZE_MAX)%N.

(** A reachability index is one built over a larger graph in which the
    context is closed under auth events. *)
Definition index_for ctx (reachability : option (RangePrefilterReachability Id)) : Prop :=
  match reachability with
  | None => True
  | Some self => ∃ (o : HashOrder) graph, graph_wf graph ∧ build (H0:=o) graph = Some self ∧ ctx ⊆ graph
      ∧ ∀ y ev a, ctx !! y = Some ev → a ∈ auth_events ev → a ∈ dom graph → a ∈ dom ctx
  end.

(** *** The partition *)

Lemma partition_forks `{Ho : HashOrder} maps u c :
  maps_wf maps → partition_state_maps (state_iter <$> maps) (N.of_nat (length maps)) = (u, c) →
  (∀ k id, u !! k = Some id ↔ agreed maps k id) ∧ (∀ x, x ∈ c ↔ contested maps x).
Proof.
  intros [Hne Hlen] E. pose proof (partition_state_maps_spec maps Hne Hlen) as Hp. rewrite E in Hp.
  destruct Hp as [Hu Hc]. split; [done|]. intros x. rewrite Hc. unfold contested. split.
  - intros (k & m & Hm & Hx & Hn). exists k, m. split_and!; [done..|]. intros Ha%Hu. congruence.
  - intros (k & m & Hm & Hx & Hn). exists k, m. split_and!; [done..|].
    destruct (u !! k) as [id|] eqn:Eu; [|done]. exfalso. apply Hn. apply Hu in Eu.
    pose proof (Eu m Hm). by simplify_eq.
Qed.

Lemma agreed_values maps (u : shared_state) x :
  (∀ k id, u !! k = Some id ↔ agreed maps k id) → x ∈ state_values u ↔ ∃ k, agreed maps k x.
Proof. intros Hu. rewrite elem_of_state_values. by setoid_rewrite Hu. Qed.

(** *** The subgraph *)

Lemma auth_of_only ctx x a : auth_of (auth_only <$> ctx) x a ↔ auth_of ctx x a.
Proof.
  unfold auth_of. setoid_rewrite lookup_fmap. destruct (ctx !! x) as [ev|]; simpl; [|naive_solver].
  split; [intros (? & [= <-] & Ha)|intros (? & [= <-] & Ha)]; eauto.
Qed.

Lemma rtc_auth_only ctx x y : rtc (auth_of (auth_only <$> ctx)) x y ↔ rtc (auth_of ctx) x y.
Proof. split; apply rtc_subrel; intros ??; apply auth_of_only. Qed.

Lemma graph_wf_only ctx : graph_wf ctx → graph_wf (auth_only <$> ctx).
Proof.
  intros [He Hs]. split; [|by rewrite map_size_fmap].
  intros id ev. rewrite lookup_fmap. intros (ev' & He' & ->)%fmap_Some.
  apply He in He'. by rewrite dag_edges_auth in *.
Qed.

Lemma between_on_path {D} (g : gmap Id (LeanEvent Id D)) cs (P : Id → Prop) x :
  (∀ y, y ∈ cs ↔ P y) →
  between g cs None x ↔ x ∈ dom g ∧ (∃ c, P c ∧ rtc (auth_of g) c x)
    ∧ ∃ b, P b ∧ b ∈ dom g ∧ rtc (auth_of g) x b.
Proof.
  intros Hcs. unfold between, Subgraph.ancestor. simpl. setoid_rewrite Hcs.
  split; intros (Hd & (c & Hc) & Hb); split_and!; try done.
  - destruct Hc as (k & Hc & _ & Hk). exists c. split; [done|]. apply rtc_nsteps. by exists k.
  - destruct Hc as (Hc & [k Hk]%rtc_nsteps). by exists c, k.
Qed.

Lemma between_only ctx cs (P : Id → Prop) x :
  (∀ y, y ∈ cs ↔ P y) → between (auth_only <$> ctx) cs None x ↔ on_path ctx P x.
Proof.
  intros Hcs. rewrite (between_on_path _ cs P) by done. unfold on_path.
  setoid_rewrite rtc_auth_only. rewrite dom_fmap_L. done.
Qed.

Lemma compute_v2_1_subgraph_spec `{Ho : HashOrder} ctx cs (P : Id → Prop) :
  graph_wf ctx → (∀ y, y ∈ cs ↔ P y) →
  ∃ g, compute_v2_1_subgraph ctx cs = Some g ∧ ∀ x, x ∈ dom g ↔ on_path ctx P x.
Proof.
  intros Hwf Hcs. unfold compute_v2_1_subgraph, compute_v2_1_conflicted_subgraph.
  destruct (bounded_spec (auth_only <$> ctx) cs None (graph_wf_only ctx Hwf)) as (r & -> & Hr & _).
  exists (subgraph r). split; [done|]. intros x. rewrite elem_of_dom.
  rewrite <-(between_only ctx cs P x Hcs). split.
  - intros [ev [_ Hb]%Hr]. done.
  - intros Hb. pose proof Hb as [[ev He]%elem_of_dom _]. exists ev. by apply Hr.
Qed.

Lemma subgraph_ids_spec `{Ho : HashOrder} ctx reachability cs (P : Id → Prop) :
  graph_wf ctx → index_for ctx reachability → (∀ y, y ∈ cs ↔ P y) → (∀ y, P y → y ∈ dom ctx) →
  ∃ ids, subgraph_ids ctx reachability cs = Some ids ∧ ∀ x, x ∈ ids ↔ on_path ctx P x.
Proof.
  intros Hwf Hix Hcs Hd. unfold subgraph_ids. destruct reachability as [self|].
  - destruct Hix as (o & graph & Hg & Hb & Hsub & Hcl).
    destruct (build_spec (Ho:=o) graph Hg) as (self' & settled & Hb' & Hib). rewrite Hb in Hb'. simplify_eq.
    destruct (index_variant_spec ctx graph self' settled cs None Hib Hsub) as (ids & Hi & _ & Hids).
    { intros c Hc _. by apply Hd, Hcs. } { done. }
    exists ids. split; [done|]. intros x. by rewrite Hids, (between_on_path ctx cs P).
  - destruct (compute_v2_1_subgraph_spec ctx cs P Hwf Hcs) as (g & -> & Hg). exists (hm_keys g).
    split; [done|]. intros x. by rewrite elem_of_hm_keys, Hg.
Qed.

Lemma add_subgraph_spec `{Ho : HashOrder} version ctx reachability cs (P : Id → Prop) (S : gset Id) :
  graph_wf ctx → index_for ctx reachability → (∀ y, y ∈ cs ↔ P y) → (∀ y, P y → y ∈ dom ctx) →
  ∃ S', add_subgraph version ctx reachability cs (restrict ctx S) = Some (restrict ctx S')
    ∧ ∀ x, x ∈ S' ↔ x ∈ S ∨ (has_subgraph version = true ∧ on_path ctx P x).
Proof.
  intros Hwf Hix Hcs Hd. unfold add_subgraph. destruct (has_subgraph version).
  - destruct (subgraph_ids_spec ctx reachability cs P Hwf Hix Hcs Hd) as (ids & -> & Hids).
    exists (list_to_set ids ∪ S). split.
    + apply insert_subgraph_restrict. intros x Hx%Hids. by destruct Hx.
    + intros x. rewrite elem_of_union, elem_of_list_to_set, Hids. tauto.
  - exists S. split; [done|]. naive_solver.
Qed.

(** *** The auth difference *)

Definition answer_of ctx (id : Id) : option (N * list Id) := (λ ev, pick ev true) <$> ctx !! id.

Lemma context_source_ok ctx : source_ok (context_auth ctx) (λ _, True) (answer_of ctx) (dom ctx).
Proof.
  split.
  - intros id w [] _. exists tt. split; [done|]. unfold context_auth, answer_of.
    by destruct (ctx !! id), w.
  - intros id Hs. unfold answer_of in Hs. apply elem_of_dom. by rewrite fmap_is_Some in Hs.
Qed.

Lemma cites_auth_of ctx x a : cites (answer_of ctx) x a ↔ auth_of ctx x a.
Proof.
  unfold cites, auth_of, answer_of. destruct (ctx !! x) as [ev|]; simpl; [|naive_solver].
  split; [intros (d & as_ & [= <- <-] & Ha)|intros (ev' & [= <-] & Ha)]; eauto.
Qed.

Lemma known_dom ctx x : is_Some (answer_of ctx x) ↔ x ∈ dom ctx.
Proof. unfold answer_of. by rewrite fmap_is_Some, elem_of_dom. Qed.

Lemma closure_agreed maps ctx (u : shared_state) x :
  (∀ k id, u !! k = Some id ↔ agreed maps k id) →
  closure (answer_of ctx) (state_values u) x ↔ ∃ k id, agreed maps k id ∧ rtc (auth_of ctx) id x.
Proof.
  intros Hu. unfold closure. split.
  - intros (id & [k Hk]%(agreed_values _ _ _ Hu) & Hr). exists k, id. split; [done|].
    eapply rtc_subrel; [|done]. intros ??. apply cites_auth_of.
  - intros (k & id & Hk & Hr). exists id. split; [apply (agreed_values _ _ _ Hu); by exists k|].
    eapply rtc_subrel; [|done]. intros ??. apply cites_auth_of.
Qed.

Lemma tc_impl {A} (R R' : relation A) x y : (∀ x y, R x y → R' x y) → tc R x y → tc R' x y.
Proof. intros HR. induction 1; [by apply tc_once, HR|eapply tc_l; [by apply HR|done]]. Qed.

Lemma auth_chain_in_chain ctx (m : shared_state) x : auth_chain_of (answer_of ctx) m x ↔ in_chain ctx m x.
Proof.
  unfold auth_chain_of, in_chain, known_id. rewrite known_dom. apply and_iff_compat_l. split.
  - intros (id & [k Hk]%elem_of_state_values & Ht). exists k, id. split; [done|].
    eapply tc_impl; [|done]. intros ??. apply cites_auth_of.
  - intros (k & id & Hk & Ht). exists id. split; [apply elem_of_state_values; by exists k|].
    eapply tc_impl; [|done]. intros ??. apply cites_auth_of.
Qed.

(** The difference over any source that answers as the context does. *)
Lemma difference_forks `{Ho : HashOrder} {St} (event_auth : Id → bool → St → option (N * list Id) * St)
    (Inv : St → Prop) (support : gset Id) maps ctx (fuel : nat) s u c :
  source_ok event_auth Inv (answer_of ctx) support → Inv s → size support ≤ fuel →
  (∀ k id, u !! k = Some id ↔ agreed maps k id) → (∀ x, x ∈ c ↔ contested maps x) →
  ∃ r s', auth_difference event_auth fuel u maps c s = Some (r, s') ∧ Inv s' ∧
    match r with
    | Ok diff => (∀ k id x, agreed maps k id → rtc (auth_of ctx) id x → x ∈ dom ctx)
        ∧ ∀ x, x ∈ diff ↔ in_difference maps ctx x
    | Err e => ∃ k id, agreed maps k id ∧ rtc (auth_of ctx) id e ∧ e ∉ dom ctx
    end.
Proof.
  intros Hsrc Hs Hf Hu Hc.
  destruct (auth_difference_covered event_auth Inv (answer_of ctx) support maps fuel s u c Hsrc Hs Hf)
    as (r & s' & Hr & Hs' & Hres).
  { intros m id Hm [k Hk]%elem_of_state_values. rewrite (agreed_values maps u id Hu), Hc.
    destruct (u !! k) as [id'|] eqn:Eu.
    - left. exists k. apply Hu in Eu. pose proof (Eu m Hm). by simplify_eq.
    - right. exists k, m. split_and!; [done..|]. intros Ha%Hu. congruence. }
  { intros m id Hm [k Hk]%(agreed_values maps u id Hu). apply elem_of_state_values. exists k. by apply Hk. }
  exists r, s'. split_and!; [done..|]. destruct r as [diff|e].
  - destruct Hres as (Hk & _ & _ & Hd). split.
    + intros k id x Ha Hx. apply known_dom, Hk, (closure_agreed maps ctx u x Hu). eauto.
    + intros x. rewrite Hd, (agreed_values maps u x Hu). unfold in_difference.
      by setoid_rewrite auth_chain_in_chain.
  - destruct Hres as [(k & id & Ha & Hx)%(closure_agreed maps ctx u e Hu) Hn]. exists k, id.
    split_and!; [done..|]. rewrite <-known_dom, Hn. by intros [].
Qed.

Lemma add_auth_difference_spec `{Ho : HashOrder} version maps ctx u c (S : gset Id) :
  (∀ k id, u !! k = Some id ↔ agreed maps k id) → (∀ x, x ∈ c ↔ contested maps x) →
  match add_auth_difference version ctx u maps c (restrict ctx S) with
  | Some cf => (version ≠ V1 → ∀ k id x, agreed maps k id → rtc (auth_of ctx) id x → x ∈ dom ctx)
      ∧ ∃ S', cf = restrict ctx S' ∧ ∀ x, x ∈ S' ↔ x ∈ S ∨ (version ≠ V1 ∧ in_difference maps ctx x)
  | None => version ≠ V1 ∧ ∃ k id x, agreed maps k id ∧ rtc (auth_of ctx) id x ∧ x ∉ dom ctx
  end.
Proof.
  intros Hu Hc. unfold add_auth_difference, version_eqb. case_bool_decide as Hv.
  { split; [done|]. exists S. split; [done|]. naive_solver. }
  destruct (difference_forks (context_auth ctx) (λ _, True) (dom ctx) maps ctx (size ctx) tt u c)
    as (r & s' & -> & _ & Hr); [apply context_source_ok|done|by rewrite size_dom|done|done|].
  destruct r as [diff|e].
  - destruct Hr as [Hk Hd]. split; [done|]. exists (list_to_set diff ∪ S).
    rewrite add_diff_restrict. split; [done|]. intros x. rewrite elem_of_union, elem_of_list_to_set, Hd. tauto.
  - destruct Hr as (k & id & ? & ? & ?). split; [done|]. by exists k, id, e.
Qed.

(** *** The eager resolver *)

Lemma all_identical_spec maps : all_identical maps = true ↔ ∀ m m', m ∈ maps → m' ∈ maps → m = m'.
Proof.
  destruct maps as [|first rest]; simpl; [split; [intros _ m m' Hm; by apply not_elem_of_nil in Hm|done]|].
  rewrite bool_decide_eq_true, Forall_forall. split.
  - intros Hall m m' [->|Hm]%elem_of_cons [->|Hm']%elem_of_cons; rewrite ?(Hall _ Hm), ?(Hall _ Hm'); done.
  - intros Hall m Hm. apply Hall; set_solver.
Qed.

Definition keys_of ctx (S : gset Id) : gset key := derive_all_conflicted_keys (Ho:=order_forward) (restrict ctx S).

Lemma keys_of_eq `{Ho : HashOrder} ctx S : derive_all_conflicted_keys (restrict ctx S) = keys_of ctx S.
Proof. apply set_eq. intros k. unfold keys_of. by rewrite !derive_keys_elem. Qed.

(** The inputs the iterative resolver receives. *)
Record plan maps ctx version (u : shared_state) (S0 S : gset Id) : Prop := {
  pl_agreed k id : u !! k = Some id ↔ agreed maps k id;
  pl_contested x : x ∈ S0 ↔ contested maps x;
  pl_candidate x : x ∈ S ↔ candidate maps ctx version x
}.

Lemma plan_unique maps maps' ctx version u S0 S u' S0' S' :
  (∀ m, m ∈ maps ↔ m ∈ maps') → plan maps ctx version u S0 S → plan maps' ctx version u' S0' S' →
  u = u' ∧ S0 = S0' ∧ S = S'.
Proof.
  intros Hm [Hu Hz HS] [Hu' Hz' HS'].
  assert (∀ k id, agreed maps k id ↔ agreed maps' k id) as Ha.
  { intros k id. unfold agreed. by setoid_rewrite Hm. }
  assert (∀ x, contested maps x ↔ contested maps' x) as Hc.
  { intros x. unfold contested. setoid_rewrite Ha. by setoid_rewrite Hm. }
  split_and!.
  - apply map_eq. intros k. apply option_eq. intros id. by rewrite Hu, Hu'.
  - apply set_eq. intros x. by rewrite Hz, Hz'.
  - apply set_eq. intros x. rewrite HS, HS'. unfold candidate, on_path, in_difference.
    setoid_rewrite Hc. setoid_rewrite Ha. by setoid_rewrite Hm.
Qed.

Lemma generic_spec `{Ho : HashOrder} maps ctx version reachability ac mc :
  maps_wf maps → graph_wf ctx → index_for ctx reachability → all_identical maps = false →
  (readable maps ctx version ∧ ∃ u S0 S, plan maps ctx version u S0 S ∧
    resolve_state_maps_generic maps ctx version reachability ac mc =
      match resolve_iterative_sort_with_all_caches u (restrict ctx S) ctx version ac (default ∅ mc) (keys_of ctx S0) with
      | Some (r, c, m) => Some (r, keys_of ctx S, (λ _, c) <$> ac, (λ _, m) <$> mc)
      | None => None
      end)
  ∨ ¬ readable maps ctx version ∧ resolve_state_maps_generic maps ctx version reachability ac mc = None.
Proof.
  intros Hwf Hg Hix Hid. unfold resolve_state_maps_generic.
  destruct maps as [|first rest] eqn:Em; [by destruct Hwf|]. rewrite <-Em in *. rewrite Hid.
  destruct (partition_state_maps _ _) as [u c] eqn:E.
  destruct (partition_forks maps u c Hwf E) as [Hu Hc].
  pose proof (collect_context (λ id, ctx !! id) ctx c (λ _, eq_refl)) as Hcol.
  destruct (collect_conflicted _ _ _) as [cf|]; [destruct Hcol as [Hk ->]|].
  2:{ right. destruct Hcol as (x & Hx%Hc & Hn). split; [|done]. by intros [Hr%(λ Hr, Hr x Hx) _]. }
  assert (∀ y, contested maps y → y ∈ dom ctx) as Hd by (intros y Hy; by apply Hk, Hc).
  destruct (add_subgraph_spec version ctx reachability c (contested maps) (list_to_set c) Hg Hix Hc Hd)
    as (S1 & -> & HS1).
  pose proof (add_auth_difference_spec version maps ctx u c S1 Hu Hc) as Hdiff.
  destruct (add_auth_difference _ _ _ _ _ _) as [cf|].
  - left. destruct Hdiff as (Hr & S & -> & HS). split; [done|].
    exists u, (list_to_set c), S. split; [|by rewrite !keys_of_eq].
    split; [done| |]; intros x; rewrite ?HS, ?HS1, elem_of_list_to_set, Hc; [done|]. unfold candidate. tauto.
  - right. destruct Hdiff as (Hv & k & id & x & Ha & Hx & Hn). split; [|done].
    intros [_ Hr]. by eapply Hn, Hr.
Qed.
End forks.

(** ** Entries of the conflicted events *)

Section from_conflicted.
Context {Id C : Type} `{EventId Id} `{EventContent C}.
Abbreviation event := (LeanEvent Id C).
Abbreviation event_map := (gmap Id event).
Abbreviation key := (string * string)%type.
Context (unconf : gmap key Id) (cf ac : event_map) (version : StateResVersion) (conflicted_keys : gset key).
Hypothesis Hwf : inputs_wf version cf ac.

(** Every entry is an unconflicted one or a conflicted event's own. *)
Definition from_conflicted (r : gmap key Id) : Prop :=
  ∀ k id, r !! k = Some id →
    unconf !! k = Some id ∨ ∃ ev, cf !! id = Some ev ∧ k = event_key ev (default "" (state_key ev)).

Lemma from_conflicted_insert r ev sk :
  from_conflicted r → cf !! event_id ev = Some ev → state_key ev = Some sk →
  from_conflicted (<[event_key ev sk := event_id ev]> r).
Proof.
  intros Hr Hev Hsk k id [[<- <-]|[_ Hk]]%lookup_insert_Some; [|by apply Hr].
  right. exists ev. by rewrite Hsk.
Qed.

(** What a step does with the verdict on an event. *)
Definition outcome (r : gmap key Id) (ev : event) (ok : bool) (c : LocalAuthCache Id C) : gmap key Id * LocalAuthCache Id C :=
  (if ok then
     match state_key ev with
     | Some sk =>
         if decides_key version conflicted_keys (event_key ev sk)
         then <[event_key ev sk := event_id ev]> r else r
     | None => r
     end
   else r, c).

Lemma outcome_from_conflicted r ev ok c :
  from_conflicted r → cf !! event_id ev = Some ev → from_conflicted (outcome r ev ok c).1.
Proof.
  intros Hr Hev. unfold outcome. simpl. destruct ok; [|done].
  destruct (state_key ev) as [sk|] eqn:Esk; [|done].
  destruct (decides_key _ _ _); [by apply from_conflicted_insert|done].
Qed.

Lemma resolve_from_conflicted `{Ho : HashOrder} ext mc :
  is_v2_1_to_v2_2 version = false → is_v2_1_plus version = false → version ≠ V3 →
  cache_ok (mkSortContext cf ac) version mc →
  ∃ r c m, resolve_iterative_sort_with_all_caches unconf cf ac version ext mc conflicted_keys = Some (r, c, m)
    ∧ from_conflicted r ∧ ∀ k id, unconf !! k = Some id → r !! k = Some id.
Proof.
  intros Hs Hp Hv Hmc. rewrite resolve_eq by done.
  destruct (power_phase_conflicted unconf cf ac version (dom cf) Hs) as (p & n & -> & Hpc & Hnc).
  unfold resolve_phases, run_power_phase_iterative_checks. set (cr := find_create_event unconf cf ac).
  assert (∀ id ev, p !! id = Some ev → cf !! id = Some ev ∨ ac !! id = Some ev) as Hpk.
  { intros id ev Hid. left. by eapply lookup_weaken. }
  destruct (kahn_sort_det Ho Ho p (mkSortContext cf ac) cr version (power_events_wf cf ac version Hwf p Hpk))
    as (ids & -> & _ & Hids).
  assert (from_conflicted (get_initial_resolved_state unconf version)) as Hinit.
  { unfold get_initial_resolved_state. rewrite Hp. intros k id Hk. by left. }
  set (cache := select_local_auth_cache _ _ _).
  destruct (run_steps_inv (power_step ac cf cr version conflicted_keys) (λ s, from_conflicted s.1) ids
    (get_initial_resolved_state unconf version, cache)) as ([r1 c1] & -> & Hr1); [|done|].
  { intros [r c] id Hid%(elem_of_Permutation_proper _ _ _ Hids)%elem_of_elements Hr. simpl in Hr.
    apply elem_of_dom in Hid as [ev Hev]. pose proof (lookup_weaken _ _ _ _ Hev Hpc) as Hcf.
    pose proof Hcf as [Hid _]%(in_cf _ _ _ Hwf). unfold power_step, get_either. rewrite Hcf.
    destruct (event_auth_ok_total cf ac version ev r c cr true) as (la & c' & _ & ->).
    exists (outcome r ev (iterative_auth_ok ev r ac cf la cr version true) c'). unfold outcome at 1.
    split; [by repeat case_match|]. apply outcome_from_conflicted; [done|by rewrite Hid]. }
  simpl in Hr1. unfold merge_unconflicted_power_events. rewrite Hp.
  destruct (mainline_built (mkSortContext cf ac) version r1 mc Hmc) as (ml & mc' & -> & _ & _ & Hml).
  destruct (mainline_sorted (mkSortContext cf ac) version (mainline_input unconf cf ac version n r1) ml
    (mainline_length cf ac version Hwf _ _ Hml)) as (dist & sorted & -> & _ & Hperm & _).
  destruct (run_steps_inv (non_power_step ac cf cr version conflicted_keys) (λ s, from_conflicted s.1) sorted
    (r1, c1)) as ([r3 c3] & -> & Hr3); [|done|].
  { intros [r c] ev Hev Hr. simpl in Hr. rewrite Hperm in Hev. apply mainline_input_elem in Hev as [id Hid].
    pose proof (lookup_weaken _ _ _ _ Hid Hnc) as Hcf. pose proof Hcf as [Heq _]%(in_cf _ _ _ Hwf).
    unfold non_power_step.
    destruct (event_auth_ok_total cf ac version ev r c cr false) as (la & c' & _ & ->).
    exists (outcome r ev (iterative_auth_ok ev r ac cf la cr version false) c'). unfold outcome at 1.
    split; [by repeat case_match|]. apply outcome_from_conflicted; [done|by rewrite Heq]. }
  eexists _, c3, mc'. split; [done|]. split; [|intros k id Hk; by rewrite merge_final_lookup, Hk].
  intros k id. rewrite merge_final_lookup.
  destruct (unconf !! k) as [id'|] eqn:Ek; [intros [= <-]; by left|]. intros Hk. rewrite <-Ek. by apply Hr3.
Qed.
End from_conflicted.
