(* ===== verification/MultiSpec.v ===== *)
(** * What the fork resolvers guarantee

    The theorems about [resolve_state_maps] and its variants over a concrete
    event context, and a room on which they are exercised. *)
From stdpp Require Import prelude gmap strings sorting.
From Stdlib Require String.
From S2P Require Import Prelude Dense EventTypes Json Events Reachability JsonContent Auth Samples Sorting Kahn ReachProps Subgraph AuthDiff AuthDiffProps Mainline LocalAuth Iterative PowerPhase IterProps StateDiff Multi MultiProps.

Section fork_lemmas.
Context {Id C : Type} `{EventId Id} `{EventContent C}.
Abbreviation event := (LeanEvent Id C).
Abbreviation event_map := (gmap Id event).
Abbreviation key := (string * string)%type.
Abbreviation shared_state := (gmap key Id).
Implicit Types (ctx : event_map) (maps : list shared_state) (version : StateResVersion).

(** The candidates and the context are fit for the iterative resolver. *)
Lemma restrict_inputs_wf version ctx (S : gset Id) : context_wf version ctx → inputs_wf version (restrict ctx S) ctx.
Proof.
  intros [[_ Hsize] Hev]. pose proof (restrict_sub ctx S) as Hsub. split; [|done| |].
  - intros id ev [_ Hid]%restrict_Some. by apply Hev.
  - intros id e1 e2 [_ H1]%restrict_Some H2. congruence.
  - assert (dom (restrict ctx S) ∪ dom ctx = dom ctx) as ->.
    { apply subseteq_dom in Hsub. set_solver. }
    rewrite size_dom. unfold IN_PROGRESS, USIZE_MAX. change (MAX Idx_u32) with 4294967295%N in Hsize. lia.
Qed.

Lemma empty_cache_ok {P} `{!EventProvider Id C P} (p : P) version : cache_ok p version ∅.
Proof. intros k v. by rewrite lookup_empty. Qed.

(** The mainline cache of a context serves every set of candidates. *)
Lemma cache_ok_restrict version ctx (S : gset Id) mc :
  cache_ok (mkSortContext (restrict ctx S) ctx) version mc ↔ cache_ok ctx version mc.
Proof.
  unfold cache_ok. pose proof (restrict_sub ctx S) as Hsub.
  assert (∀ eid, pl_parent (mkSortContext (restrict ctx S) ctx) version eid = pl_parent ctx version eid) as Hp.
  { intros eid. apply pl_parent_provider_ext.
    - intros id. simpl. destruct (restrict ctx S !! id) eqn:E; [|done]. symmetry. by eapply lookup_weaken.
    - simpl. apply subseteq_dom in Hsub. set_solver. }
  by setoid_rewrite Hp.
Qed.

Lemma direct_restrict ctx (S : gset Id) ev : direct_local_auth ctx (restrict ctx S) ev = direct_local_auth ctx ∅ ev.
Proof.
  unfold direct_local_auth. generalize (∅ : gmap key (LocalAuthEntry Id C)).
  induction (auth_events ev) as [|a l IH]; intros m; simpl; [done|].
  rewrite IH. f_equal. unfold direct_step, get_either. rewrite lookup_empty.
  destruct (ctx !! a) eqn:Ea; [done|]. by rewrite (lookup_weaken_None _ _ _ Ea (restrict_sub ctx S)).
Qed.

(** Every entry of the result with its origin. *)
Definition decided maps ctx version `{HashOrder} (k : key) (id : Id) : Prop :=
  ∃ u S0 S, plan maps ctx version u S0 S
    ∧ accepted_entry u (restrict ctx S) ctx version (keys_of ctx S0)
        (find_create_event u (restrict ctx S) ctx) k id.

Lemma identical_agreed maps first k id :
  all_identical maps = true → first ∈ maps → agreed maps k id ↔ first !! k = Some id.
Proof.
  intros Hall Hf. pose proof (proj1 (all_identical_spec maps) Hall) as Heq. split; [by intros Ha; apply Ha|].
  intros Hk m Hm. by rewrite (Heq m first).
Qed.

(** The result of the generic resolver and what it leaves out. *)
Lemma generic_result `{Ho : HashOrder} maps ctx version reachability ac mc :
  maps_wf maps → context_wf version ctx → version ≠ V3 → index_for ctx reachability →
  cache_ok ctx version (default ∅ mc) →
  match resolve_state_maps_generic maps ctx version reachability ac mc with
  | Some (r, _, _, _) => (readable maps ctx version ∨ all_identical maps = true)
      ∧ (∀ k id, agreed maps k id → r !! k = Some id)
      ∧ (∀ k id, r !! k = Some id → agreed maps k id ∨ decided maps ctx version k id)
  | None => ¬ readable maps ctx version ∧ all_identical maps = false
  end.
Proof.
  intros Hwf Hc Hv Hix Hmc. destruct (all_identical maps) eqn:Eid.
  { destruct maps as [|first rest]; [by destruct Hwf|]. unfold resolve_state_maps_generic. rewrite Eid.
    assert (∀ k id, agreed (first :: rest) k id ↔ first !! k = Some id) as Ha
      by (intros; apply identical_agreed; [done|set_solver]).
    split_and!; [by right|by intros k id; rewrite Ha|]. intros k id Hk. left. by apply Ha. }
  destruct (generic_spec maps ctx version reachability ac mc Hwf (cw_graph _ _ Hc) Hix Eid)
    as [(Hr & u & S0 & S & Hplan & ->)|[Hr ->]]; [|done].
  apply (cache_ok_restrict version ctx S) in Hmc.
  destruct (resolution_outcome u (restrict ctx S) ctx version (keys_of ctx S0) (restrict_inputs_wf version ctx S Hc)
    ac (default ∅ mc) Hv Hmc) as (r & c' & m' & -> & Hkeep & Hacc & _).
  pose proof (pl_agreed _ _ _ _ _ _ Hplan) as Hu. split_and!; [by left|by intros k id Ha%Hu; apply Hkeep|].
  intros k id Hk. destruct (u !! k) as [id'|] eqn:Ek.
  - left. apply Hu. rewrite (Hkeep _ _ Ek) in Hk. congruence.
  - right. exists u, S0, S. split; [done|]. by apply Hacc.
Qed.

Lemma resolved_readable `{Ho : HashOrder} maps ctx version :
  maps_wf maps → context_wf version ctx → version ≠ V3 → all_identical maps = false →
  is_Some (resolve_state_maps maps ctx version) → readable maps ctx version.
Proof.
  intros Hwf Hc Hv Hid [r E]. unfold resolve_state_maps, resolve_with in E. simpl in E.
  pose proof (generic_result maps ctx version None None None Hwf Hc Hv I (empty_cache_ok _ _)) as Hr.
  destruct (resolve_state_maps_generic _ _ _ _ _ _) as [[[[r' ks] ac] mc]|]; [|done].
  destruct Hr as [[Hr|Hid'] _]; [done|]. by rewrite Hid in Hid'.
Qed.

(** Two resolutions of the same set of forks. *)
Lemma generic_order (o1 o2 : HashOrder) maps maps' ctx version reach1 reach2 ac mc :
  maps_wf maps → maps_wf maps' → (∀ m, m ∈ maps ↔ m ∈ maps') → context_wf version ctx →
  index_for ctx reach1 → index_for ctx reach2 → cache_ok ctx version (default ∅ mc) →
  resolve_state_maps_generic (Ho:=o1) maps ctx version reach1 ac mc
  = resolve_state_maps_generic (Ho:=o2) maps' ctx version reach2 ac mc.
Proof.
  intros Hwf Hwf' Hm Hc Hi1 Hi2 Hmc.
  assert (all_identical maps = all_identical maps') as Eid.
  { apply eq_bool_prop_intro. rewrite !Is_true_true, !all_identical_spec. by setoid_rewrite Hm. }
  destruct (all_identical maps) eqn:E1; symmetry in Eid.
  { destruct maps as [|m1 r1], maps' as [|m2 r2]; [by destruct Hwf..|by destruct Hwf'|].
    unfold resolve_state_maps_generic. rewrite E1, Eid. pose proof (proj1 (all_identical_spec (m1 :: r1)) E1 m1 m2) as ->; [done|set_solver|].
    apply Hm. set_solver. }
  assert (readable maps ctx version ↔ readable maps' ctx version) as Hread.
  { unfold readable, contested, agreed. by setoid_rewrite Hm. }
  destruct (generic_spec (Ho:=o1) maps ctx version reach1 ac mc Hwf (cw_graph _ _ Hc) Hi1 E1)
    as [(Hr & u & S0 & S & Hplan & ->)|[Hr ->]];
  destruct (generic_spec (Ho:=o2) maps' ctx version reach2 ac mc Hwf' (cw_graph _ _ Hc) Hi2 Eid)
    as [(Hr' & u' & S0' & S' & Hplan' & ->)|[Hr' ->]]; [|tauto|tauto|done].
  destruct (plan_unique maps maps' ctx version u S0 S u' S0' S' Hm Hplan Hplan') as (<- & <- & <-).
  apply (cache_ok_restrict version ctx S) in Hmc.
  by rewrite (resolution_order u (restrict ctx S) ctx version (keys_of ctx S0) (restrict_inputs_wf version ctx S Hc) o1 o2 ac _ Hmc).
Qed.

(** *** Caches *)

(** What the caches hold is what the context says. *)
Definition caches_sound version ctx (caches : ForkResolveCaches (Id:=Id) (C:=C)) : Prop :=
  (cache_version (auth_cache caches) = version → ∀ ev m, ctx !! event_id ev = Some ev →
     cache_map (auth_cache caches) !! event_id ev = Some m → m = direct_local_auth ctx ∅ ev)
  ∧ cache_ok ctx version (mainline_cache caches).

Lemma new_caches_sound version ctx : caches_sound version ctx (ForkResolveCaches_new version).
Proof.
  split; [|apply empty_cache_ok]. intros _ ev m _ Hm. simpl in Hm. by rewrite lookup_empty in Hm.
Qed.

Lemma direct_cache_restrict ctx (S : gset Id) (c : LocalAuthCache Id C) :
  direct_cache (restrict ctx S) ctx c ↔
  ∀ ev m, ctx !! event_id ev = Some ev → cache_map c !! event_id ev = Some m → m = direct_local_auth ctx ∅ ev.
Proof.
  unfold direct_cache. setoid_rewrite direct_restrict. split; intros Hd ev m Hk.
  - apply Hd. by right.
  - apply Hd. destruct Hk as [[_ ?]%restrict_Some|?]; done.
Qed.

Lemma cached_spec `{Ho : HashOrder} maps ctx version reachability caches :
  maps_wf maps → context_wf version ctx → version ≠ V3 → transitive_auth version = false →
  index_for ctx reachability → caches_sound version ctx caches →
  match resolve_with maps ctx version reachability (Some caches) with
  | Some (r, Some caches') => fst <$> resolve_with maps ctx version reachability None = Some r
      ∧ caches_sound version ctx caches'
  | Some (r, None) => False
  | None => resolve_with maps ctx version reachability None = None
  end.
Proof.
  intros Hwf Hc Hv Hd Hix Hcs. unfold resolve_with. simpl. destruct (all_identical maps) eqn:Eid.
  { destruct maps as [|first rest]; [by destruct Hwf|]. unfold resolve_state_maps_generic. rewrite Eid. simpl.
    split; [done|]. by destruct caches. }
  pose proof (generic_spec maps ctx version reachability (Some (auth_cache caches))
    (Some (mainline_cache caches)) Hwf (cw_graph _ _ Hc) Hix Eid) as Hcached.
  pose proof (generic_spec maps ctx version reachability None None Hwf (cw_graph _ _ Hc) Hix Eid) as Hplain.
  destruct Hcached as [(Hr & u & S0 & S & Hplan & ->)|[Hr ->]];
    destruct Hplain as [(Hr' & u' & S0' & S' & Hplan' & ->)|[Hr' ->]]; [|done..].
  destruct (plan_unique maps maps ctx version u S0 S u' S0' S' (λ _, iff_refl _) Hplan Hplan') as (<- & <- & <-).
  destruct Hcs as [Hauth Hmain]. simpl.
  destruct (caches_agree u (restrict ctx S) ctx version (keys_of ctx S0) (restrict_inputs_wf version ctx S Hc) Hd
    (Some (auth_cache caches)) None (mainline_cache caches) ∅ Hv)
    as (final & c1 & c2 & m1 & m2 & -> & -> & Hc1 & Hm1); [| |by apply cache_ok_restrict|apply empty_cache_ok|].
  { intros c [= <-] Hcv. apply direct_cache_restrict. by apply Hauth. } { done. }
  simpl. split; [done|]. split; simpl; [intros _; by apply (direct_cache_restrict ctx S)|by apply (cache_ok_restrict version ctx S)].
Qed.

(** *** Diffs *)

Definition entry_key (e : StateDiffEntry Id) : key :=
  match e with Added k _ | Removed k _ | Changed k _ _ => k end.

Lemma fork_diff_entry_holds (base r : shared_state) k e :
  fork_diff_entry base r k = Some e ↔ entry_key e = k ∧ entry_holds base r e.
Proof.
  unfold fork_diff_entry. split.
  - destruct (base !! k) eqn:E1, (r !! k) eqn:E2; try case_decide; intros [= <-]; simpl; by split_and!.
  - intros [<- He]. destruct e as [k id|k id|k id id']; simpl in *.
    + by destruct He as [-> ->].
    + by destruct He as [-> ->].
    + destruct He as (-> & -> & ?). by rewrite decide_False.
Qed.

Lemma sorted_keys_lt (l : list key) :
  NoDup l → StronglySorted (cmp_le (cmp_pair String.compare String.compare)) l →
  StronglySorted (λ a b, cmp_pair String.compare String.compare a b = Lt) l.
Proof.
  intros Hnd Hs. induction Hs as [|k l Hs IH Hall]; [constructor|].
  apply NoDup_cons in Hnd as [Hni Hnd]. constructor; [by apply IH|].
  rewrite Forall_forall in *. intros k' Hk'. specialize (Hall k' Hk'). unfold cmp_le in Hall.
  destruct (cmp_pair String.compare String.compare k k') eqn:E; [|done..].
  apply (cmp_eq (cmp_pair String.compare String.compare)) in E as ->. done.
Qed.

(** The diff read at the keys [ks] lists the differences there, in key order. *)
Lemma fork_diff_spec (base r : shared_state) (ks : gset key) :
  let d := omap (fork_diff_entry base r) (sort_by (cmp_pair String.compare String.compare) (elements ks)) in
  StronglySorted (λ a b, cmp_pair String.compare String.compare (entry_key a) (entry_key b) = Lt) d
  ∧ ∀ e, e ∈ d ↔ entry_key e ∈ ks ∧ entry_holds base r e.
Proof.
  intros d. split.
  - assert (StronglySorted (λ a b, cmp_pair String.compare String.compare a b = Lt)
      (sort_by (cmp_pair String.compare String.compare) (elements ks))) as Hs.
    { apply sorted_keys_lt; [rewrite sort_by_perm; apply NoDup_elements|]. exact (sort_by_sorted id (cmp_pair String.compare String.compare) _). }
    unfold d. clear d. induction Hs as [|k l Hs IH Hall]; [constructor|]. csimpl.
    destruct (fork_diff_entry base r k) as [e|] eqn:Ee; [|done]. constructor; [done|].
    apply fork_diff_entry_holds in Ee as [<- _]. apply Forall_forall. intros e' He'.
    apply list_elem_of_omap in He' as (k' & Hk' & [<- _]%fork_diff_entry_holds).
    by apply (proj1 (Forall_forall _ _) Hall).
  - intros e. unfold d. rewrite list_elem_of_omap. setoid_rewrite fork_diff_entry_holds.
    setoid_rewrite sort_by_perm. setoid_rewrite elem_of_elements. split.
    + intros (k & Hk & <- & He). done.
    + intros [Hk He]. by exists (entry_key e).
Qed.

(** The entries of the forks sit under their events' own keys. *)
Definition keyed maps ctx : Prop :=
  ∀ m k id ev, m ∈ maps → m !! k = Some id → ctx !! id = Some ev →
    k = event_key ev (default "" (state_key ev)).

Lemma diff_complete `{Ho : HashOrder} maps ctx version base r ks ac mc :
  maps_wf maps → context_wf version ctx → is_v2_1_to_v2_2 version = false → is_v2_1_plus version = false →
  version ≠ V3 → keyed maps ctx → base ∈ maps →
  resolve_state_maps_generic maps ctx version None None None = Some (r, ks, ac, mc) →
  ∀ e, entry_holds base r e → entry_key e ∈ ks.
Proof.
  intros Hwf Hc Hv1 Hv2 Hv Hkeyed Hb Hres e He. destruct (all_identical maps) eqn:Eid.
  { destruct maps as [|first rest] eqn:Em; [by destruct Hwf|]. rewrite <-Em in *.
    assert (first ∈ maps) as Hf by (rewrite Em; set_solver).
    unfold resolve_state_maps_generic in Hres. rewrite Em, <-Em, Eid in Hres.
    injection Hres as <- <- _ _.
    rewrite (proj1 (all_identical_spec maps) Eid base first Hb Hf) in He.
    destruct e; simpl in He; destruct_and?; congruence. }
  destruct (generic_spec maps ctx version None None None Hwf (cw_graph _ _ Hc) I Eid)
    as [(Hr & u & S0 & S & Hplan & Heq)|[_ Heq]]; rewrite Hres in Heq; [|done].
  destruct (resolve_from_conflicted u (restrict ctx S) ctx version (keys_of ctx S0)
    (restrict_inputs_wf version ctx S Hc) None ∅ Hv1 Hv2 Hv (empty_cache_ok _ _)) as (r' & c & m & Hit & Hfrom & Hkept).
  simpl in Heq. rewrite Hit in Heq. injection Heq as -> -> _ _.
  unfold keys_of. rewrite derive_keys_elem.
  destruct (r' !! entry_key e) as [id|] eqn:Er.
  - destruct (Hfrom _ _ Er) as [Hu|(ev & Hev & Hk)]; [|by exists id, ev].
    apply (pl_agreed _ _ _ _ _ _ Hplan) in Hu. specialize (Hu base Hb).
    destruct e; simpl in *; destruct_and?; congruence.
  - destruct (base !! entry_key e) as [id|] eqn:Eb; [|destruct e; simpl in *; destruct_and?; congruence].
    assert (contested maps id) as Hcon.
    { exists (entry_key e), base. split_and!; [done..|]. intros Ha.
      apply (pl_agreed _ _ _ _ _ _ Hplan) in Ha.
      rewrite (Hkept _ _ Ha) in Er. done. }
    destruct Hr as [Hdom _]. destruct (proj1 (elem_of_dom _ _) (Hdom id Hcon)) as [ev Hev]. exists id, ev.
    rewrite restrict_Some. split_and!; [|done|by eapply Hkeyed].
    apply (pl_candidate _ _ _ _ _ _ Hplan). by left.
Qed.
End fork_lemmas.

Section fork_claims.
Context {Id C : Type} `{EventId Id} `{EventContent C}.
Abbreviation event_map := (gmap Id (LeanEvent Id C)).
Abbreviation key := (string * string)%type.
Abbreviation shared_state := (gmap key Id).
Implicit Types (ctx : event_map) (maps : list shared_state) (version : StateResVersion).

(** C4: resolving several forks fails exactly when they differ and an event it
    must read (a contested one or, after version 1, one in the auth closure
    of the agreed state) is missing; otherwise it returns a state with every
    entry on which all forks agree, in which every other entry is an event of
    the context that passed the auth rules against a state of the resolution
    of exactly the candidates: the contested events, those on a citation path
    between them (versions 2.1 and 2.1.1) and the auth difference. *)
Theorem fork_resolution `{Ho : HashOrder} maps ctx version :
  maps_wf maps → context_wf version ctx → version ≠ V3 →
  match resolve_state_maps maps ctx version with
  | Some r => (readable maps ctx version ∨ all_identical maps = true)
      ∧ (∀ k id, agreed maps k id → r !! k = Some id)
      ∧ (∀ k id, r !! k = Some id → agreed maps k id ∨ decided maps ctx version k id)
  | None => ¬ readable maps ctx version ∧ all_identical maps = false
  end.
Proof.
  intros Hwf Hc Hv.
  pose proof (generic_result maps ctx version None None None Hwf Hc Hv I (empty_cache_ok _ _)) as Hr.
  unfold resolve_state_maps, resolve_with. simpl.
  by destruct (resolve_state_maps_generic _ _ _ _ _ _) as [[[[r ks] ac] mc]|].
Qed.

(** C5: the resolved state depends only on the set of the forks: not on
    their order or repetition, not on the iteration order of the hash maps,
    and not on whether a shared reachability index of a larger graph is used. *)
Theorem fork_order_irrelevant (o1 o2 : HashOrder) maps maps' ctx version reachability :
  maps_wf maps → maps_wf maps' → (∀ m, m ∈ maps ↔ m ∈ maps') → context_wf version ctx →
  index_for ctx (Some reachability) →
  resolve_state_maps (Ho:=o1) maps ctx version = resolve_state_maps (Ho:=o2) maps' ctx version
  ∧ resolve_state_maps_with_reachability (Ho:=o1) maps ctx version reachability
    = resolve_state_maps (Ho:=o2) maps' ctx version.
Proof.
  intros Hwf Hwf' Hm Hc Hix.
  unfold resolve_state_maps, resolve_state_maps_with_reachability, resolve_with. simpl. split.
  - by rewrite (generic_order o1 o2 maps maps' ctx version None None None None Hwf Hwf' Hm Hc I I (empty_cache_ok _ _)).
  - by rewrite (generic_order o1 o2 maps maps' ctx version (Some reachability) None None None Hwf Hwf' Hm Hc Hix I (empty_cache_ok _ _)).
Qed.

(** C6: in the versions whose local auth context is the cited events alone,
    the reusable caches stay sound for their context from one resolution to
    the next and never change a resolved state. *)
Theorem fork_caches_invariant `{Ho : HashOrder} maps ctx version reachability caches :
  maps_wf maps → context_wf version ctx → version ≠ V3 → transitive_auth version = false →
  index_for ctx (Some reachability) → caches_sound version ctx caches →
  match resolve_state_maps_cached maps ctx version reachability caches with
  | Some (r, Some caches') => resolve_state_maps maps ctx version = Some r ∧ caches_sound version ctx caches'
  | Some (_, None) => False
  | None => resolve_state_maps maps ctx version = None
  end.
Proof.
  intros Hwf Hc Hv Hd Hix Hcs. unfold resolve_state_maps_cached.
  pose proof (cached_spec maps ctx version (Some reachability) caches Hwf Hc Hv Hd Hix Hcs) as Hr.
  assert (fst <$> resolve_with maps ctx version (Some reachability) None = resolve_state_maps maps ctx version) as Heq.
  { unfold resolve_state_maps, resolve_with. simpl.
    by rewrite (generic_order Ho Ho maps maps ctx version (Some reachability) None None None Hwf Hwf
      (λ _, iff_refl _) Hc Hix I (empty_cache_ok _ _)). }
  destruct (resolve_with maps ctx version (Some reachability) (Some caches)) as [[r [caches'|]]|]; [|done|].
  - by rewrite <-Heq.
  - by rewrite <-Heq, Hr.
Qed.

(** In versions 1 and 2 the diff against a fork lists, in strictly
    increasing key order, exactly the truthful entries for the keys at which
    that fork and the resolved state differ. *)
Theorem fork_diff_exact `{Ho : HashOrder} maps ctx version (base_state_index : nat) base :
  maps_wf maps → context_wf version ctx → version = V1 ∨ version = V2 → keyed maps ctx →
  maps !! base_state_index = Some base →
  match resolve_state_maps maps ctx version, resolve_state_maps_diff base_state_index maps ctx version with
  | Some r, Some d =>
      StronglySorted (λ a b, cmp_pair String.compare String.compare (entry_key a) (entry_key b) = Lt) d
      ∧ ∀ e, e ∈ d ↔ entry_holds base r e
  | None, None => True
  | _, _ => False
  end.
Proof.
  intros Hwf Hc Hv Hkeyed Hb. unfold resolve_state_maps, resolve_state_maps_diff, resolve_with. simpl. rewrite Hb.
  destruct (resolve_state_maps_generic _ _ _ _ _ _) as [[[[r ks] ac] mc]|] eqn:E; simpl; [|done].
  destruct (fork_diff_spec base r ks) as [Hs Hd]. split; [done|]. intros e. rewrite Hd.
  split; [by intros [_ ?]|]. intros He. split; [|done].
  eapply (diff_complete maps ctx version base r ks ac mc); try done; try by destruct Hv; subst.
  by eapply list_elem_of_lookup_2.
Qed.
End fork_claims.

(** ** A room with two forks *)

Module ForkRoom.
Import Sample.
Definition context_of (l : list event) : gmap string event := list_to_map ((λ e, (event_id e, e)) <$> l).
Definition state_of (l : list event) : gmap (string * string) string :=
  list_to_map ((λ e, ((event_type e, default "" (state_key e)), event_id e)) <$> l).

(** [@b:x] may set the topic under [$power], not under the later [$low]. *)
Definition low : event :=
  ev "$low" M_ROOM_POWER_LEVELS (Some "") "@a:x" (pl_content "0") ["$rules"] ["$create"; "$join_a"; "$power"] 6.
Definition join_b : event := member_of "@b:x" "join" "@b:x".
Definition topic (id who : string) (auth : list string) (d : Z) : event :=
  ev id "m.room.topic" (Some "") who (Object [("topic", VString id)]) ["$rules"] auth d.
Definition topic_b : event := topic "$topic_b" "@b:x" ["$create"; "$power"; "$join@b:x"] 10.
Definition topic_a : event := topic "$topic_a" "@a:x" ["$create"; "$power"; "$join_a"] 9.

Definition base : list event := [create; join_a; join_b; low; rules].
Definition context : gmap string event := context_of ([topic_a; topic_b; power] ++ base).
Definition forks : list (gmap (string * string) string) := [state_of (topic_b :: base); state_of (topic_a :: base)].
Definition topic_key : string * string := ("m.room.topic", "").
End ForkRoom.

Lemma fork_room_wf version : version = V1 ∨ version = V2 ∨ version = V2_1 → context_wf version ForkRoom.context.
Proof.
  intros Hv. split; [split|].
  - apply (bool_decide_eq_true_1 _). vm_compute. reflexivity.
  - vm_compute. discriminate.
  - destruct_or! Hv; subst version; apply (bool_decide_eq_true_1 _); vm_compute; reflexivity.
Qed.

Lemma fork_maps_wf : maps_wf ForkRoom.forks.
Proof. split; [discriminate|]. vm_compute. discriminate. Qed.

(** Whether a resolution succeeds, for evaluation. *)
Definition is_some_b {A} (o : option A) : bool := match o with Some _ => true | None => false end.
Lemma is_some_b_elim {A} (o : option A) : is_some_b o = true → is_Some o.
Proof. destruct o; [by eexists|done]. Qed.

Abbreviation resolved_forks version :=
  (resolve_state_maps (H:=string_event_id) (Ho:=order_forward) ForkRoom.forks ForkRoom.context version).

Lemma fork_room_resolves : is_Some (resolved_forks V2).
Proof. apply is_some_b_elim. vm_compute. reflexivity. Qed.

Lemma fork_room_agreed :
  agreed ForkRoom.forks (M_ROOM_POWER_LEVELS, "") "$low".
Proof.
  intros m Hm. apply elem_of_cons in Hm as [->|Hm%list_elem_of_singleton]; [|subst m]; vm_compute; reflexivity.
Qed.

Lemma fork_resolution_witness :
  ∃ r, resolved_forks V2 = Some r ∧ r !! (M_ROOM_POWER_LEVELS, "") = Some "$low".
Proof.
  pose proof (fork_resolution (H:=string_event_id) (Ho:=order_forward) ForkRoom.forks ForkRoom.context V2
    fork_maps_wf (fork_room_wf V2 ltac:(tauto)) ltac:(discriminate)) as Hr.
  destruct fork_room_resolves as [r E]. rewrite E in Hr. destruct Hr as (_ & Ha & _).
  exists r. split; [exact E|]. apply Ha, fork_room_agreed.
Defined.

(** The index of the context itself. *)
Lemma fork_room_index :
  ∃ self, index_for (H:=string_event_id) ForkRoom.context (Some self).
Proof.
  destruct (build_spec (H:=string_event_id) (Ho:=order_backward) ForkRoom.context
    (cw_graph _ _ (fork_room_wf V2 ltac:(tauto)))) as (self & settled & Hb & _).
  exists self, order_backward, ForkRoom.context. split_and!; [|exact Hb|reflexivity|].
  - apply (cw_graph V2), fork_room_wf. tauto.
  - intros y ev a _ _ Ha. exact Ha.
Qed.

Lemma fork_order_irrelevant_witness :
  ∃ self, resolve_state_maps_with_reachability (H:=string_event_id) (Ho:=order_backward)
      (reverse ForkRoom.forks) ForkRoom.context V2 self = resolved_forks V2.
Proof.
  destruct fork_room_index as [self Hix]. exists self.
  destruct (fork_order_irrelevant (H:=string_event_id) order_backward order_forward (reverse ForkRoom.forks)
    ForkRoom.forks ForkRoom.context V2 self) as [_ Hr]; [| | | |exact Hix|exact Hr].
  - split; [discriminate|]. vm_compute. discriminate.
  - apply fork_maps_wf.
  - intros m. apply elem_of_reverse.
  - apply fork_room_wf. tauto.
Defined.

Lemma fork_caches_invariant_witness :
  ∃ self r caches, resolve_state_maps_cached (H:=string_event_id) (Ho:=order_forward) ForkRoom.forks
      ForkRoom.context V2 self (ForkResolveCaches_new V2) = Some (r, Some caches) ∧ resolved_forks V2 = Some r.
Proof.
  destruct fork_room_index as [self Hix]. exists self.
  pose proof (fork_caches_invariant (H:=string_event_id) (Ho:=order_forward) ForkRoom.forks ForkRoom.context V2 self
    (ForkResolveCaches_new V2) fork_maps_wf (fork_room_wf V2 ltac:(tauto)) ltac:(discriminate) eq_refl Hix) as Hr.
  specialize (Hr (new_caches_sound V2 ForkRoom.context)).
  destruct fork_room_resolves as [r E]. rewrite E in Hr.
  destruct (resolve_state_maps_cached _ _ _ _ _) as [[r' [caches'|]]|]; [|destruct Hr|discriminate Hr].
  exists r', caches'. split; [reflexivity|]. rewrite E. apply Hr.
Defined.

Lemma fork_room_keyed : keyed ForkRoom.forks ForkRoom.context.
Proof.
  assert (Forall (map_Forall (λ k id, match ForkRoom.context !! id with
    | Some ev => bool_decide (k = event_key ev (default "" (state_key ev))) | None => true end = true)) ForkRoom.forks) as Hall.
  { apply (bool_decide_eq_true_1 _). vm_compute. reflexivity. }
  intros m k id ev Hm Hk Hev. rewrite Forall_forall in Hall. specialize (Hall m Hm k id Hk). simpl in Hall.
  assert (ForkRoom.context !! id = Some ev) as Hev' by exact Hev.
  rewrite Hev' in Hall. by apply bool_decide_eq_true in Hall.
Qed.

Lemma fork_diff_exact_witness :
  ∃ d, resolve_state_maps_diff (H:=string_event_id) (Ho:=order_forward) 0 ForkRoom.forks ForkRoom.context V2 = Some d
    ∧ StronglySorted (λ a b, cmp_pair String.compare String.compare (entry_key a) (entry_key b) = Lt) d.
Proof.
  pose proof (fork_diff_exact (H:=string_event_id) (Ho:=order_forward) ForkRoom.forks ForkRoom.context V2 0 _
    fork_maps_wf (fork_room_wf V2 ltac:(tauto)) (or_intror eq_refl) fork_room_keyed eq_refl) as Hr.
  destruct fork_room_resolves as [r E]. rewrite E in Hr.
  destruct (resolve_state_maps_diff _ _ _ _) as [d|]; [|destruct Hr].
  exists d. split; [reflexivity|]. apply Hr.
Defined.
