(* ===== verification/MultiLazy.v ===== *)
(** * Correctness of the lazy fork resolver

    [resolve_state_maps_lazy_with_diff] runs the iterative resolver on the
    same candidates as the eager resolver, but in the context of the
    candidates' auth chains alone. So it agrees with the eager resolver when
    every event of the store is a candidate or in a candidate's auth chain. *)
From stdpp Require Import prelude gmap strings sorting.
From Stdlib Require String.
From S2P Require Import Prelude Dense EventTypes Json Events Reachability JsonContent Auth Samples Sorting Kahn ReachProps Subgraph AuthDiff AuthDiffProps Mainline LocalAuth Iterative PowerPhase IterProps StateDiff Multi MultiProps MultiSpec.

Section lazy.
Context {Id C : Type} `{EventId Id} `{EventContent C}.
Abbreviation event := (LeanEvent Id C).
Abbreviation event_map := (gmap Id event).
Abbreviation key := (string * string)%type.
Abbreviation shared_state := (gmap key Id).
Context {P : Type} `{!EventProvider Id C P} (provider : P).
(** The events the provider holds. *)
Context (ctx : event_map).
Hypothesis Hstore : ∀ id, get_event provider id = ctx !! id.
Implicit Types (fetched cf : event_map) (maps : list shared_state) (version : StateResVersion) (S : gset Id).

Lemma fetch_store fetched id : fetched ⊆ ctx → fetch provider fetched id = ctx !! id.
Proof.
  intros Hf. unfold fetch. destruct (fetched !! id) eqn:E; [|apply Hstore]. symmetry. by eapply lookup_weaken.
Qed.

Lemma insert_sub fetched id ev : fetched ⊆ ctx → ctx !! id = Some ev → <[id := ev]> fetched ⊆ ctx.
Proof. intros Hf He. by apply insert_subseteq_l. Qed.

Lemma lazy_source_ok : source_ok (lazy_auth provider) (λ fetched, fetched ⊆ ctx) (answer_of ctx) (dom ctx).
Proof.
  split.
  - intros id w fetched Hf. unfold lazy_auth, answer_of. destruct (fetched !! id) as [ev|] eqn:E.
    + exists fetched. split; [done|]. rewrite (lookup_weaken _ _ _ _ E Hf). by destruct w.
    + rewrite Hstore. destruct (ctx !! id) as [ev|] eqn:Ec; [|by exists fetched].
      exists (<[id := ev]> fetched). split; [by apply insert_sub|]. by destruct w.
  - intros id Hs. unfold answer_of in Hs. apply elem_of_dom. by rewrite fmap_is_Some in Hs.
Qed.

Lemma add_lazy_diff_restrict ids fetched S :
  fetched ⊆ ctx →
  ∃ fetched', foldl (add_lazy_diff provider) (fetched, restrict ctx S) ids
      = (fetched', restrict ctx (list_to_set ids ∪ S)) ∧ fetched' ⊆ ctx.
Proof.
  revert fetched S. induction ids as [|id ids IH]; intros fetched S Hf; simpl.
  { exists fetched. split; [f_equal; apply restrict_ext; set_solver|done]. }
  unfold add_lazy_diff at 2. simpl. rewrite (fetch_store fetched id Hf).
  destruct (ctx !! id) as [ev|] eqn:E.
  - rewrite (or_insert_restrict _ _ _ _ E).
    destruct (IH (<[id := ev]> fetched) ({[id]} ∪ S)) as (f' & -> & Hf'); [by apply insert_sub|].
    exists f'. split; [|done]. f_equal. apply restrict_ext. set_solver.
  - destruct (IH fetched S Hf) as (f' & -> & Hf'). exists f'. split; [|done]. f_equal.
    apply restrict_ext. intros x Hx. apply not_elem_of_dom in E. set_solver.
Qed.

(** ** The walk of the candidates' auth chains *)

Section chains.
Context (cf : event_map).
Hypothesis Hcf : cf ⊆ ctx.

(** [x] is a candidate or an auth ancestor of one. *)
Definition below_candidates (x : Id) : Prop := ∃ c, c ∈ dom cf ∧ rtc (auth_of ctx) c x.

Record chain_inv (q : list Id) (s : event_map * event_map) : Prop := {
  ci_context : s.1 ⊆ ctx;
  ci_fetched : s.2 ⊆ ctx;
  ci_sound x : x ∈ dom s.1 → below_candidates x;
  ci_queue x : x ∈ q → below_candidates x;
  ci_closed x a : x ∈ dom s.1 ∪ dom cf → auth_of ctx x a → a ∈ dom ctx → a ∈ dom s.1 ∪ dom cf ∨ a ∈ q
}.

Lemma lazy_queue_elem `{Ho : HashOrder} x :
  x ∈ lazy_queue cf ↔ ∃ c ev, cf !! c = Some ev ∧ x ∈ auth_events ev ∧ cf !! x = None.
Proof.
  unfold lazy_queue. rewrite list_elem_of_bind. split.
  - intros (ev & [Hn Hx]%list_elem_of_filter & [c Hc]%elem_of_hm_values). by exists c, ev.
  - intros (c & ev & Hc & Hx & Hn). exists ev. split; [by apply list_elem_of_filter|].
    apply elem_of_hm_values. by exists c.
Qed.

Lemma chain_inv_start `{Ho : HashOrder} fetched : fetched ⊆ ctx → chain_inv (lazy_queue cf) (∅, fetched).
Proof.
  intros Hf. split; simpl; [apply map_empty_subseteq|done| | |].
  - intros x. by rewrite dom_empty_L, elem_of_empty.
  - intros x (c & ev & Hc & Hx & _)%lazy_queue_elem. exists c. split; [by apply elem_of_dom_2 in Hc|].
    apply rtc_once. exists ev. split; [by eapply lookup_weaken|done].
  - intros x a Hx (ev & Hev & Ha) _. rewrite dom_empty_L, (left_id_L ∅ (∪)) in *.
    apply elem_of_dom in Hx as [ev' Hx]. rewrite (lookup_weaken _ _ _ _ Hx Hcf) in Hev. simplify_eq.
    destruct (cf !! a) as [ev'|] eqn:Ea; [left; by apply elem_of_dom_2 in Ea|].
    right. apply lazy_queue_elem. by exists x, ev.
Qed.

Lemma chain_inv_skip q x s :
  chain_inv (x :: q) s → (x ∈ dom ctx → x ∈ dom s.1 ∪ dom cf) → chain_inv (q ++ []) s.
Proof.
  intros [H1 H2 H3 H4 H5] Hx. rewrite app_nil_r. split; [done..| |].
  - intros y Hy. apply H4. set_solver.
  - intros y a Hy Hya Ha. destruct (H5 y a Hy Hya Ha) as [|[->|]%elem_of_cons]; [by left|left; by apply Hx|by right].
Qed.

(** One iteration keeps the invariant and uses up edges. *)
Lemma chain_step q x s :
  chain_inv (x :: q) s →
  ∃ s' new, lazy_chain_body provider cf x s = Push s' new ∧ chain_inv (q ++ new) s'
    ∧ weight (auth_edges ctx) (dom ctx) (dom s'.1) + length new ≤ weight (auth_edges ctx) (dom ctx) (dom s.1).
Proof.
  destruct s as [A F]. unfold lazy_chain_body. simpl. intros Hi. pose proof Hi as [H1 H2 H3 H4 H5]. simpl in *.
  destruct (A !! x) as [e|] eqn:EA.
  { eexists _, []. split_and!; [done| |simpl; lia]. eapply chain_inv_skip; [done|]. intros _. simpl.
    apply elem_of_dom_2 in EA. set_solver. }
  destruct (cf !! x) as [e|] eqn:Ecf.
  { eexists _, []. split_and!; [done| |simpl; lia]. eapply chain_inv_skip; [done|]. intros _. simpl.
    apply elem_of_dom_2 in Ecf. set_solver. }
  rewrite (fetch_store F x H2). destruct (ctx !! x) as [ev|] eqn:Ex.
  2:{ eexists _, []. split_and!; [done| |simpl; lia]. eapply chain_inv_skip; [done|].
      intros Hx%elem_of_dom. rewrite Ex in Hx. by destruct Hx. }
  eexists _, _. split_and!; [done| |].
  - assert (below_candidates x) as Hbx by (apply H4; set_solver).
    split; simpl; [by apply insert_sub..| | |].
    + intros y. rewrite dom_insert_L, elem_of_union, elem_of_singleton. intros [->|Hy]; [done|by apply H3].
    + intros y [Hy|Hy]%elem_of_app; [apply H4; set_solver|]. apply list_elem_of_filter in Hy as [_ Hy].
      destruct Hbx as (c & Hc & Hr). exists c. split; [done|]. eapply rtc_r; [done|]. by exists ev.
    + intros y a Hy Hya Ha. rewrite dom_insert_L in *. rewrite elem_of_app, list_elem_of_filter.
      destruct (decide (a ∈ {[x]} ∪ dom A ∪ dom cf)) as [Hin|Hni]; [by left|]. right.
      destruct (decide (y = x)) as [->|Hne].
      * right. destruct Hya as (ev' & Hev' & Ha'). rewrite Ex in Hev'. simplify_eq. split; [|done].
        rewrite <-!not_elem_of_dom, dom_insert_L. set_solver.
      * destruct (H5 y a) as [Hl|Hq]; [set_solver|done|done|set_solver|].
        apply elem_of_cons in Hq as [->|Hq]; [set_solver|by left].
  - simpl. rewrite dom_insert_L. rewrite <-not_elem_of_dom in EA.
    pose proof (weight_visit (auth_edges ctx) (dom ctx) (auth_edges_support ctx) x (dom A) EA) as Hw.
    unfold auth_edges at 2 in Hw. rewrite Ex in Hw.
    pose proof (length_filter (λ p, <[x:=ev]> A !! p = None ∧ cf !! p = None) (auth_events ev)). lia.
Qed.

Lemma below_closed (A : event_map) :
  (∀ x a, x ∈ dom A ∪ dom cf → auth_of ctx x a → a ∈ dom ctx → a ∈ dom A ∪ dom cf) →
  ∀ x, x ∈ dom ctx → below_candidates x → x ∈ dom A ∪ dom cf.
Proof.
  intros Hcl x Hx (c & Hc & Hr). assert (c ∈ dom A ∪ dom cf) as Hin by set_solver. clear Hc.
  induction Hr as [c|c y x Hcy Hyx IH]; [done|]. apply IH; [done|].
  apply (Hcl c y Hin Hcy). destruct Hyx as [y|y z x (ev & Hy & _) _]; [done|by apply elem_of_dom_2 in Hy].
Qed.

Lemma chain_walk `{Ho : HashOrder} fetched (fuel : nat) :
  fetched ⊆ ctx → weight (auth_edges ctx) (dom ctx) ∅ + length (lazy_queue cf) ≤ fuel →
  ∃ A F, drain (lazy_chain_body provider cf) fuel (lazy_queue cf) (∅, fetched) = Some (A, F)
    ∧ A ⊆ ctx ∧ ∀ x, x ∈ dom A ∪ dom cf ↔ x ∈ dom ctx ∧ below_candidates x.
Proof.
  intros Hf Hfuel. rewrite drain_try.
  destruct (try_drain_spec (λ x s, Some (lazy_chain_body provider cf x s)) chain_inv
    (λ s, s.1 ⊆ ctx ∧ ∀ x, x ∈ dom s.1 ∪ dom cf ↔ x ∈ dom ctx ∧ below_candidates x)
    (λ q s, weight (auth_edges ctx) (dom ctx) (dom s.1) + length q) fuel (lazy_queue cf) (∅, fetched))
    as ([A F] & -> & HA & Hx).
  - intros x q s Hi. destruct (chain_step q x s Hi) as (s' & new & -> & Hi' & Hw).
    eexists. split; [done|]. simpl. rewrite length_app. split_and!; [lia|done|lia].
  - intros [A F] [H1 H2 H3 H4 H5]. simpl in *. split; [done|]. intros x. split.
    + pose proof (subseteq_dom _ _ H1). pose proof (subseteq_dom _ _ Hcf).
      intros [Hx|Hx]%elem_of_union; (split; [set_solver|]); [by apply H3|]. by exists x.
    + intros [Hx Hb]. apply below_closed; [|done..]. intros y a Hy Hya Ha.
      destruct (H5 y a Hy Hya Ha) as [|Hn]; [done|by apply not_elem_of_nil in Hn].
  - by apply chain_inv_start.
  - simpl. rewrite dom_empty_L. lia.
  - by exists A, F.
Qed.
End chains.

(** ** The steps around the walk *)

Definition supplied maps (precomputed : option (list Id)) : Prop :=
  match precomputed with
  | None => True
  | Some l => (∀ x, x ∈ l ↔ in_difference maps ctx x)
      ∧ ∀ k id x, agreed maps k id → rtc (auth_of ctx) id x → x ∈ dom ctx
  end.

Lemma lazy_auth_diff_spec `{Ho : HashOrder} (fuel : nat) precomputed version maps u c fetched :
  maps_wf maps → partition_state_maps (state_iter <$> maps) (N.of_nat (length maps)) = (u, c) →
  fetched ⊆ ctx → size ctx ≤ fuel → supplied maps precomputed →
  match lazy_auth_diff provider fuel precomputed version u maps c fetched with
  | Some (diff, fetched') => fetched' ⊆ ctx
      ∧ (version ≠ V1 → ∀ k id x, agreed maps k id → rtc (auth_of ctx) id x → x ∈ dom ctx)
      ∧ ∀ x, x ∈ diff ↔ version ≠ V1 ∧ in_difference maps ctx x
  | None => version ≠ V1 ∧ ∃ k id x, agreed maps k id ∧ rtc (auth_of ctx) id x ∧ x ∉ dom ctx
  end.
Proof.
  intros Hwf E Hf Hfuel Hpre. unfold lazy_auth_diff, version_eqb. case_bool_decide as Hv.
  { split_and!; [done..|]. set_solver. }
  destruct precomputed as [l|].
  { destruct Hpre as [Hl Hr]. split_and!; [done..|]. intros x. rewrite Hl. tauto. }
  unfold lazy_auth_difference. destruct (partition_forks maps u c Hwf E) as [Hu Hc].
  destruct (difference_forks (lazy_auth provider) (λ f, f ⊆ ctx) (dom ctx) maps ctx fuel fetched u c)
    as (r & f' & -> & Hf' & Hr); [apply lazy_source_ok|done|by rewrite size_dom|done|done|].
  destruct r as [diff|e].
  - destruct Hr as [Hk Hd]. split_and!; [done..|]. intros x. rewrite Hd. tauto.
  - destruct Hr as (k & id & ? & ? & ?). split; [done|]. by exists k, id, e.
Qed.

Lemma insert_subgraph_ext ids (A B : event_map) cf :
  (∀ x, cf !! x = None → A !! x = B !! x) → insert_subgraph_ids ids A cf = insert_subgraph_ids ids B cf.
Proof.
  revert cf. induction ids as [|id ids IH]; intros cf HAB; simpl; [done|].
  destruct (cf !! id) eqn:E; [by apply IH|]. rewrite (HAB id E). destruct (B !! id); [|done].
  apply IH. intros x [Hx _]%lookup_insert_None. by apply HAB.
Qed.

Lemma or_insert_lookup id ev (m : event_map) x :
  or_insert id ev m !! x = match m !! x with Some e => Some e | None => if decide (id = x) then Some ev else None end.
Proof.
  unfold or_insert. destruct (m !! id) eqn:E.
  - destruct (m !! x) eqn:Ex; [done|]. case_decide; [congruence|done].
  - destruct (decide (id = x)) as [->|Hne]; [by rewrite lookup_insert_eq, E|].
    rewrite lookup_insert_ne by done. by destruct (m !! x).
Qed.

(** Adding to a sub-map the rest of a map that covers it. *)
Lemma or_insert_all `{Ho : HashOrder} (A cf T : event_map) :
  A ⊆ T → cf ⊆ T → (∀ x, x ∈ dom T → x ∈ dom A ∪ dom cf) →
  foldl (λ m kv, or_insert kv.1 kv.2 m) A (hm_iter cf) = T.
Proof.
  intros HA Hcf Hdom.
  assert (∀ l, (∀ k v, (k, v) ∈ l → T !! k = Some v) → ∀ B, B ⊆ T →
    foldl (λ m kv, or_insert kv.1 kv.2 m) B l ⊆ T
    ∧ dom (foldl (λ m kv, or_insert kv.1 kv.2 m) B l) = dom B ∪ list_to_set l.*1) as Hfold.
  { induction l as [|[k v] l IH]; intros Hl B HB; simpl; [split; [done|set_solver]|].
    destruct (IH ltac:(set_solver) (or_insert k v B)) as [H1 H2].
    - apply map_subseteq_spec. intros x e. rewrite or_insert_lookup. destruct (B !! x) eqn:EB.
      + intros [= <-]. by eapply lookup_weaken.
      + case_decide as Hk; [|done]. intros [= <-]. subst. apply Hl. set_solver.
    - split; [done|]. rewrite H2. apply set_eq. intros x. rewrite !elem_of_union, !elem_of_dom, or_insert_lookup.
      rewrite elem_of_singleton. destruct (B !! x); [split; eauto|]. case_decide; subst; naive_solver. }
  destruct (Hfold (hm_iter cf)) with (B := A) as [H1 H2]; [|done|].
  { intros k v Hk%elem_of_hm_iter. by eapply lookup_weaken. }
  apply map_eq. intros x. apply option_eq. intros e. split; [intros Hx; by eapply lookup_weaken|].
  intros Hx. assert (x ∈ dom A ∪ dom cf) as Hin by (apply Hdom; by apply elem_of_dom_2 in Hx).
  assert (x ∈ dom (foldl (λ m kv, or_insert kv.1 kv.2 m) A (hm_iter cf))) as Hd.
  { rewrite H2. assert (list_to_set (hm_iter cf).*1 = dom cf) as ->; [|done].
    apply set_eq. intros y. rewrite elem_of_list_to_set. apply elem_of_hm_keys. }
  apply elem_of_dom in Hd as [e' He']. pose proof (lookup_weaken _ _ _ _ He' H1). congruence.
Qed.

Lemma restrict_restrict T S : (∀ x, x ∈ S → x ∈ dom ctx → x ∈ T) → restrict (restrict ctx T) S = restrict ctx S.
Proof.
  intros HST. apply map_eq. intros x. apply option_eq. intros e. rewrite !restrict_Some. split; [tauto|].
  intros [Hx He]. split_and!; [done| |done]. apply HST; [done|by apply elem_of_dom_2 in He].
Qed.

(** Paths from events of a sub-context closed under auth events stay in it. *)
Definition chain_closed (T : gset Id) : Prop :=
  ∀ x a, x ∈ T → x ∈ dom ctx → auth_of ctx x a → a ∈ dom ctx → a ∈ T.

Lemma auth_of_restrict T x a : auth_of (restrict ctx T) x a ↔ x ∈ T ∧ auth_of ctx x a.
Proof. unfold auth_of. setoid_rewrite restrict_Some. naive_solver. Qed.

Lemma dom_restrict T x : x ∈ dom (restrict ctx T) ↔ x ∈ T ∧ x ∈ dom ctx.
Proof. rewrite !elem_of_dom. unfold is_Some. setoid_rewrite restrict_Some. naive_solver. Qed.

Lemma rtc_restrict T x y :
  chain_closed T → x ∈ T → rtc (auth_of (restrict ctx T)) x y ↔ rtc (auth_of ctx) x y.
Proof.
  intros Hcl Hx. split; [apply rtc_subrel; by intros ?? [_ ?]%auth_of_restrict|].
  intros Hr. induction Hr as [x|x y z Hxy Hyz IH]; [constructor|].
  eapply rtc_l; [by apply auth_of_restrict|].
  destruct (decide (y ∈ dom ctx)) as [Hy|Hy].
  - apply IH. eapply Hcl; [done| |done|done]. destruct Hxy as (ev & He & _). by apply elem_of_dom_2 in He.
  - destruct Hyz as [y|y w z (ev & He & _) _]; [constructor|]. by apply elem_of_dom_2 in He.
Qed.

Lemma on_path_restrict T (Q : Id → Prop) x :
  chain_closed T → (∀ y, Q y → y ∈ T ∧ y ∈ dom ctx) → on_path (restrict ctx T) Q x ↔ on_path ctx Q x.
Proof.
  intros Hcl HQ. unfold on_path. split.
  - intros ([HxT Hx]%dom_restrict & (c & Hc & Hcx) & b & Hb & _ & Hxb). split_and!; [done| |].
    + exists c. split; [done|]. apply (rtc_restrict T); [done|by apply HQ|done].
    + exists b. split_and!; [done|by apply HQ|]. by apply (rtc_restrict T).
  - intros (Hx & (c & Hc & Hcx) & b & Hb & Hbd & Hxb).
    assert (x ∈ T) as HxT.
    { destruct (HQ c Hc) as [HcT Hcd]. clear -Hcl HcT Hcd Hcx Hx.
      induction Hcx as [c|c y x (ev & He & Ha) Hyx IH]; [done|].
      assert (y ∈ dom ctx) as Hy.
      { destruct Hyx as [y|y w x (ev' & He' & _) _]; [done|by apply elem_of_dom_2 in He']. }
      apply IH; [done| |done]. eapply Hcl; [done|done|by exists ev|done]. }
    split_and!; [by apply dom_restrict| |].
    + exists c. split; [done|]. apply rtc_restrict; [done|by apply HQ|done].
    + exists b. split_and!; [done|apply dom_restrict; by apply HQ|]. by apply rtc_restrict.
Qed.

(** ** The lazy resolution *)

(** The context the lazy resolver builds: the candidates and their chains. *)
Definition chain_set maps version (T : gset Id) : Prop :=
  ∀ x, x ∈ T ↔ x ∈ dom ctx ∧ ∃ c, candidate maps ctx version c ∧ c ∈ dom ctx ∧ rtc (auth_of ctx) c x.

Lemma chain_set_closed maps version T : chain_set maps version T → chain_closed T.
Proof.
  intros HT x a (_ & c & Hc & Hcd & Hr)%HT _ Hxa Ha. apply HT. split; [done|]. exists c.
  split_and!; [done..|]. by eapply rtc_r.
Qed.

(** The walk, from candidates [S1] short of the subgraph. *)
Lemma lazy_tail_spec `{Ho : HashOrder} maps version (c : list Id) S1 fetched (fuel : nat) :
  graph_wf ctx → fetched ⊆ ctx → (∀ x, x ∈ c ↔ contested maps x) → (∀ x, contested maps x → x ∈ dom ctx) →
  (∀ x, x ∈ S1 ↔ contested maps x ∨ (version ≠ V1 ∧ in_difference maps ctx x)) →
  weight (auth_edges ctx) (dom ctx) ∅ + length (lazy_queue (restrict ctx S1)) ≤ fuel →
  ∃ A F S T, drain (lazy_chain_body provider (restrict ctx S1)) fuel (lazy_queue (restrict ctx S1)) (∅, fetched)
      = Some (A, F)
    ∧ lazy_subgraph version A (restrict ctx S1) c = Some (restrict ctx S)
    ∧ foldl (λ m kv, or_insert kv.1 kv.2 m) A (hm_iter (restrict ctx S)) = restrict ctx T
    ∧ (∀ x, x ∈ S ↔ candidate maps ctx version x) ∧ chain_set maps version T.
Proof.
  intros Hg Hf Hc Hcd HS1 Hfuel. pose proof (restrict_sub ctx S1) as Hsub.
  destruct (chain_walk (restrict ctx S1) Hsub fetched fuel Hf Hfuel) as (A & F & Hd & HA & Hdom).
  set (T := dom A ∪ dom (restrict ctx S1)) in *.
  assert (∀ x, x ∈ T ↔ x ∈ dom A ∨ x ∈ dom (restrict ctx S1)) as Hin_T by (intros x; apply elem_of_union).
  assert (∀ x, x ∈ S1 → x ∈ dom ctx → x ∈ T) as HinT.
  { intros x Hx Hxd. apply Hin_T. right. by apply dom_restrict. }
  clearbody T.
  assert (chain_set maps version T) as HT.
  { intros x. rewrite Hdom. apply and_iff_compat_l. unfold below_candidates. split.
    - intros (y & [HyS Hyd]%dom_restrict & Hr). exists y. split_and!; [|done..].
      apply HS1 in HyS. unfold candidate. tauto.
    - intros (y & [Hy|[[_ (Hyd & (z & Hz & Hzy) & _)]|[Hv Hy]]] & Hyd' & Hr).
      + exists y. rewrite dom_restrict, HS1. tauto.
      + exists z. rewrite dom_restrict, HS1. split; [auto|]. by etrans.
      + exists y. rewrite dom_restrict, HS1. tauto. }
  pose proof (chain_set_closed maps version T HT) as Hcl.
  assert (∀ y, contested maps y → y ∈ T ∧ y ∈ dom ctx) as HQ.
  { intros y Hy. split; [|by apply Hcd]. apply HT. split; [by apply Hcd|]. exists y. split_and!; [by left|by apply Hcd|constructor]. }
  assert (restrict ctx S1 ∪ A = restrict ctx T) as Hunion.
  { apply map_eq. intros x. apply option_eq. intros e. rewrite lookup_union_Some_raw, (restrict_Some ctx T), Hin_T. split.
    - intros [Hx|[_ Hx]]; (split; [|by eapply lookup_weaken]).
      + right. by apply elem_of_dom_2 in Hx.
      + left. by apply elem_of_dom_2 in Hx.
    - intros [Hin Hx]. destruct (restrict ctx S1 !! x) as [e'|] eqn:E.
      + left. apply restrict_Some in E as [_ E]. congruence.
      + right. split; [done|]. rewrite <-not_elem_of_dom in E.
        assert (x ∈ dom A) as [e' He']%elem_of_dom by (by destruct Hin).
        pose proof (lookup_weaken _ _ _ _ He' HA). congruence. }
  assert (∃ S, lazy_subgraph version A (restrict ctx S1) c = Some (restrict ctx S)
    ∧ (∀ x, x ∈ S → x ∈ dom ctx → x ∈ T) ∧ S1 ⊆ S
    ∧ ∀ x, x ∈ S ↔ candidate maps ctx version x) as (S & HS & HST & HSS & Hcand).
  { unfold lazy_subgraph, candidate. destruct (has_subgraph version).
    - rewrite Hunion.
      assert (graph_wf (restrict ctx T)) as Hgt.
      { destruct Hg as [He Hs]. split; [intros id ev [_ Hid]%restrict_Some; by apply He|].
        pose proof (map_subseteq_size _ _ (restrict_sub ctx T)). lia. }
      destruct (compute_v2_1_subgraph_spec (restrict ctx T) c (contested maps) Hgt Hc) as (g & -> & Hgd).
      assert (∀ x, x ∈ dom g ↔ on_path ctx (contested maps) x) as Hgd'.
      { intros x. rewrite Hgd. by apply on_path_restrict. }
      assert (∀ x, x ∈ list_to_set (hm_keys g) ∪ S1 → x ∈ dom ctx → x ∈ T) as HST.
      { intros x. rewrite elem_of_union, elem_of_list_to_set, elem_of_hm_keys.
        intros [[Hx _]%Hgd|Hx] Hd'; [by apply dom_restrict in Hx as [? _]|by apply HinT]. }
      exists (list_to_set (hm_keys g) ∪ S1). split_and!; [|done|set_solver|].
      + unfold insert_subgraph_events. rewrite (insert_subgraph_ext _ A (restrict ctx T)).
        * rewrite <-(restrict_restrict T S1) by done.
          rewrite insert_subgraph_restrict, restrict_restrict; [done|done|].
          intros x Hx%elem_of_hm_keys%Hgd. by destruct Hx.
        * intros x Hx. rewrite <-Hunion, lookup_union_r by done. done.
      + intros x. rewrite elem_of_union, elem_of_list_to_set, elem_of_hm_keys, Hgd', HS1. tauto.
    - exists S1. split_and!; [done| |done|].
      + by apply HinT.
      + intros x. rewrite HS1. naive_solver. }
  exists A, F, S, T. split_and!; [done..| |done|done].
  apply or_insert_all.
  - apply map_subseteq_spec. intros x e Hx. apply restrict_Some. split; [|by eapply lookup_weaken].
    apply Hin_T. left. by apply elem_of_dom_2 in Hx.
  - apply map_subseteq_spec. intros x e [Hx He]%restrict_Some. apply restrict_Some. split; [|done].
    apply HST; [done|by apply elem_of_dom_2 in He].
  - intros x [Hx%Hin_T _]%dom_restrict. rewrite elem_of_union. destruct Hx as [Hx|[Hx Hd']%dom_restrict]; [by left|].
    right. apply dom_restrict. split; [by apply HSS|done].
Qed.

Lemma sub_inputs_wf version (cf ac : event_map) : context_wf version ctx → cf ⊆ ctx → ac ⊆ ctx → inputs_wf version cf ac.
Proof.
  intros [[_ Hsize] Hev] Hcf Hac. split.
  - intros id ev Hid. apply Hev. by eapply lookup_weaken.
  - intros id ev Hid. apply Hev. by eapply lookup_weaken.
  - intros id e1 e2 H1 H2. pose proof (lookup_weaken _ _ _ _ H1 Hcf). pose proof (lookup_weaken _ _ _ _ H2 Hac). congruence.
  - assert (size (dom cf ∪ dom ac : gset Id) ≤ size (dom ctx)).
    { apply subseteq_size. apply subseteq_dom in Hcf, Hac. set_solver. }
    rewrite size_dom in *. unfold IN_PROGRESS, USIZE_MAX. change (MAX Idx_u32) with 4294967295%N in Hsize. lia.
Qed.

(** What the lazy resolver runs, with enough fuel. *)
Lemma lazy_spec `{Ho : HashOrder} maps version precomputed :
  maps_wf maps → graph_wf ctx → all_identical maps = false → supplied maps precomputed →
  ∃ fuel0, ∀ fuel : nat, fuel0 ≤ fuel →
  (readable maps ctx version ∧ ∃ u S0 S T, plan maps ctx version u S0 S ∧ chain_set maps version T ∧
    resolve_state_maps_lazy_with_diff provider fuel maps precomputed version =
      match resolve_iterative_sort_with_all_caches u (restrict ctx S) (restrict ctx T) version None ∅ (keys_of ctx S0) with
      | Some (r, _, _) => Some r
      | None => None
      end)
  ∨ ¬ readable maps ctx version
    ∧ resolve_state_maps_lazy_with_diff provider fuel maps precomputed version = None.
Proof.
  intros Hwf Hg Hid Hpre. destruct (partition_state_maps (state_iter <$> maps) (N.of_nat (length maps))) as [u c] eqn:E.
  destruct (partition_forks maps u c Hwf E) as [Hu Hc].
  assert (∀ fuel, resolve_state_maps_lazy_with_diff provider fuel maps precomputed version =
    (conflicted_events ←! collect_conflicted (get_event provider) c ∅;
     let conflicted_keys := derive_all_conflicted_keys conflicted_events in
     '(auth_diff, fetched) ←! lazy_auth_diff provider fuel precomputed version u maps c conflicted_events;
     let '(fetched, conflicted_events) := foldl (add_lazy_diff provider) (fetched, conflicted_events) auth_diff in
     '(auth_context, _) ←!
       drain (lazy_chain_body provider conflicted_events) fuel (lazy_queue conflicted_events) (∅, fetched);
     conflicted_events ←! lazy_subgraph version auth_context conflicted_events c;
     let auth_context := foldl (λ m kv, or_insert kv.1 kv.2 m) auth_context (hm_iter conflicted_events) in
     '(resolved, _, _) ←!
       resolve_iterative_sort_with_all_caches u conflicted_events auth_context version None ∅ conflicted_keys;
     Some resolved)) as Hunf.
  { intros fuel. unfold resolve_state_maps_lazy_with_diff. destruct maps as [|first rest]; [by destruct Hwf|].
    by rewrite Hid, E. }
  pose proof (collect_context (get_event provider) ctx c Hstore) as Hcol.
  destruct (collect_conflicted (get_event provider) c ∅) as [cf|].
  2:{ exists 0. intros fuel _. right. rewrite Hunf. split; [|done]. destruct Hcol as (x & Hx%Hc & Hn). intros [Hr _]. by apply Hn, Hr. }
  destruct Hcol as [Hk ->].
  assert (∀ y, contested maps y → y ∈ dom ctx) as Hcd by (intros y Hy; by apply Hk, Hc).
  destruct (lazy_auth_diff provider (size ctx) precomputed version u maps c (restrict ctx (list_to_set c)))
    as [[diff0 f0]|] eqn:E0.
  2:{ exists (size ctx). intros fuel Hfuel. right. rewrite Hunf.
      pose proof (lazy_auth_diff_spec fuel precomputed version maps u c _ Hwf E (restrict_sub ctx (list_to_set c)) Hfuel Hpre) as Hd.
      pose proof (lazy_auth_diff_spec (size ctx) precomputed version maps u c _ Hwf E (restrict_sub ctx (list_to_set c)) (le_n _) Hpre) as Hd0.
      rewrite E0 in Hd0. destruct Hd0 as (Hv & k & id & x & Ha & Hx & Hn).
      assert (¬ readable maps ctx version) as Hnr by (intros [_ Hr]; by eapply Hn, Hr). split; [done|].
      destruct (lazy_auth_diff provider fuel precomputed version u maps c _) as [[diff f]|]; [|done].
      destruct Hd as (_ & Hr & _). exfalso. by eapply Hn, Hr. }
  pose proof (lazy_auth_diff_spec (size ctx) precomputed version maps u c _ Hwf E (restrict_sub ctx (list_to_set c)) (le_n _) Hpre) as Hd0.
  rewrite E0 in Hd0. destruct Hd0 as (_ & Hread & Hd0).
  set (S1 := list_to_set diff0 ∪ list_to_set c : gset Id).
  exists (size ctx + (weight (auth_edges ctx) (dom ctx) ∅ + length (lazy_queue (restrict ctx S1)))).
  intros fuel Hfuel. left. split; [done|].
  pose proof (lazy_auth_diff_spec fuel precomputed version maps u c _ Hwf E (restrict_sub ctx (list_to_set c)) ltac:(lia) Hpre) as Hd.
  rewrite Hunf. destruct (lazy_auth_diff provider fuel precomputed version u maps c _) as [[diff f]|].
  2:{ destruct Hd as (Hv & k & id & x & Ha & Hx & Hn). exfalso. by eapply Hn, Hread. }
  destruct Hd as (Hf & _ & Hd).
  destruct (add_lazy_diff_restrict diff f (list_to_set c) Hf) as (f' & -> & Hf').
  assert (list_to_set diff ∪ list_to_set c = S1) as ->.
  { apply set_eq. intros x. unfold S1. rewrite !elem_of_union, !elem_of_list_to_set, Hd, Hd0. done. }
  destruct (lazy_tail_spec maps version c S1 f' fuel Hg Hf' Hc Hcd) as (A & F & S & T & -> & -> & -> & HS & HT); [|lia|].
  { intros x. unfold S1. rewrite elem_of_union, !elem_of_list_to_set, Hd0, Hc. tauto. }
  exists u, (list_to_set c), S, T. split_and!; [|done|by rewrite keys_of_eq].
  split; [done| |done]. intros x. by rewrite elem_of_list_to_set.
Qed.
End lazy.

Section lazy_claims.
Context {Id C : Type} `{EventId Id} `{EventContent C}.
Abbreviation event_map := (gmap Id (LeanEvent Id C)).
Abbreviation key := (string * string)%type.
Abbreviation shared_state := (gmap key Id).
Context {P : Type} `{!EventProvider Id C P}.
Implicit Types (maps : list shared_state) (version : StateResVersion) (ctx : event_map).

(** An entry taken from an event that passed the auth rules in the context of
    the candidates' auth chains. *)
Definition decided_lazily maps ctx version `{HashOrder} (k : key) (id : Id) : Prop :=
  ∃ u S0 S T, plan maps ctx version u S0 S ∧ chain_set ctx maps version T
    ∧ accepted_entry u (restrict ctx S) (restrict ctx T) version (keys_of ctx S0)
        (find_create_event u (restrict ctx S) (restrict ctx T)) k id.

(** C20: over a provider that holds finitely many events the lazy resolver ends,
    with enough fuel for its walks; it fails exactly when the forks differ
    and an event it must read is missing; otherwise it keeps every agreed
    entry, and every other entry is an event that passed the auth rules in
    the context of the candidates and their auth chains. *)
Theorem lazy_resolution `{Ho : HashOrder} (provider : P) ctx maps version :
  (∀ id, get_event provider id = ctx !! id) → maps_wf maps → context_wf version ctx → version ≠ V3 →
  ∃ fuel0, ∀ fuel, fuel0 ≤ fuel →
  match resolve_state_maps_lazy_with_diff provider fuel maps None version with
  | Some r => (readable maps ctx version ∨ all_identical maps = true)
      ∧ (∀ k id, agreed maps k id → r !! k = Some id)
      ∧ (∀ k id, r !! k = Some id → agreed maps k id ∨ decided_lazily maps ctx version k id)
  | None => ¬ readable maps ctx version ∧ all_identical maps = false
  end.
Proof.
  intros Hstore Hwf Hc Hv. destruct (all_identical maps) eqn:Eid.
  { exists 0. intros fuel _. destruct maps as [|first rest]; [by destruct Hwf|].
    unfold resolve_state_maps_lazy_with_diff. rewrite Eid.
    assert (∀ k id, agreed (first :: rest) k id ↔ first !! k = Some id) as Ha
      by (intros; apply identical_agreed; [done|set_solver]).
    split_and!; [by right|by intros k id; rewrite Ha|]. intros k id Hk. left. by apply Ha. }
  destruct (lazy_spec provider ctx Hstore maps version None Hwf (cw_graph _ _ Hc) Eid I) as [fuel0 Hf].
  exists fuel0. intros fuel Hfuel. destruct (Hf fuel Hfuel) as [(Hr & u & S0 & S & T & Hplan & HT & ->)|[Hr ->]]; [|done].
  assert (inputs_wf version (restrict ctx S) (restrict ctx T)) as Hin
    by (eapply (sub_inputs_wf provider ctx Hstore); [exact Hc|apply restrict_sub..]).
  destruct (resolution_outcome u (restrict ctx S) (restrict ctx T) version (keys_of ctx S0) Hin None ∅ Hv
    (empty_cache_ok _ _)) as (r & c' & m' & -> & Hkeep & Hacc & _).
  pose proof (pl_agreed _ _ _ _ _ _ Hplan) as Hu. split_and!; [by left|by intros k id Ha%Hu; apply Hkeep|].
  intros k id Hk. destruct (u !! k) as [id'|] eqn:Ek.
  - left. apply Hu. rewrite (Hkeep _ _ Ek) in Hk. congruence.
  - right. exists u, S0, S, T. split_and!; [done..|]. by apply Hacc.
Qed.

(** When every event of the store is a candidate or in the auth chain of
    one, the lazy resolver returns what the eager resolver returns over that
    store, whether it computes the auth difference or is given it. *)
Theorem lazy_matches_eager (o1 o2 : HashOrder) (provider : P) ctx maps version precomputed :
  (∀ id, get_event provider id = ctx !! id) → maps_wf maps → context_wf version ctx →
  supplied ctx maps precomputed →
  (∀ x, x ∈ dom ctx → ∃ c, candidate maps ctx version c ∧ c ∈ dom ctx ∧ rtc (auth_of ctx) c x) →
  ∃ fuel0, ∀ fuel, fuel0 ≤ fuel →
    resolve_state_maps_lazy_with_diff (Ho:=o1) provider fuel maps precomputed version
    = resolve_state_maps (Ho:=o2) maps ctx version.
Proof.
  intros Hstore Hwf Hc Hpre Hall. destruct (all_identical maps) eqn:Eid.
  { exists 0. intros fuel _. destruct maps as [|first rest]; [by destruct Hwf|].
    unfold resolve_state_maps_lazy_with_diff, resolve_state_maps, resolve_with, resolve_state_maps_generic.
    by rewrite Eid. }
  destruct (lazy_spec (Ho:=o1) provider ctx Hstore maps version precomputed Hwf (cw_graph _ _ Hc) Eid Hpre) as [fuel0 Hf].
  exists fuel0. intros fuel Hfuel. unfold resolve_state_maps, resolve_with. simpl.
  destruct (generic_spec (Ho:=o2) maps ctx version None None None Hwf (cw_graph _ _ Hc) I Eid)
    as [(Hr & u & S0 & S & Hplan & ->)|[Hr ->]];
  destruct (Hf fuel Hfuel) as [(Hr' & u' & S0' & S' & T & Hplan' & HT & ->)|[Hr' ->]]; [|done..].
  destruct (plan_unique maps maps ctx version u S0 S u' S0' S' (λ _, iff_refl _) Hplan Hplan') as (<- & <- & <-).
  rewrite (restrict_all ctx T) by (intros x Hx; apply HT; split; [done|by apply Hall]). simpl.
  rewrite (resolution_order u (restrict ctx S) ctx version (keys_of ctx S0) (restrict_inputs_wf version ctx S Hc)
    o1 o2 None ∅ (empty_cache_ok _ _)).
  by destruct (resolve_iterative_sort_with_all_caches _ _ _ _ _ _ _) as [[[r c'] m']|].
Qed.
End lazy_claims.

(** ** On the room of [ForkRoom] *)

Abbreviation lazy_forks fuel version :=
  (resolve_state_maps_lazy_with_diff (H:=string_event_id) (Ho:=order_forward)
    (EventProvider0:=map_provider (H:=string_event_id)) ForkRoom.context fuel ForkRoom.forks None version).

Lemma fork_room_readable : readable (H:=string_event_id) ForkRoom.forks ForkRoom.context V2.
Proof.
  apply (resolved_readable (Ho:=order_forward)); [apply fork_maps_wf|apply fork_room_wf; tauto|discriminate| |].
  - vm_compute. reflexivity.
  - apply fork_room_resolves.
Qed.

Lemma match_some {A} (o : option A) (P : A → Prop) (Q : Prop) :
  match o with Some r => P r | None => Q end → ¬ Q → ∃ r, o = Some r ∧ P r.
Proof. destruct o; naive_solver. Qed.

Lemma lazy_resolution_witness :
  ∃ fuel r, lazy_forks fuel V2 = Some r ∧ r !! (M_ROOM_POWER_LEVELS, "") = Some "$low".
Proof.
  destruct (lazy_resolution (H:=string_event_id) (Ho:=order_forward) (EventProvider0:=map_provider (H:=string_event_id))
    ForkRoom.context ForkRoom.context ForkRoom.forks V2 (λ _, eq_refl) fork_maps_wf (fork_room_wf V2 ltac:(tauto))
    ltac:(discriminate)) as [fuel Hf]. specialize (Hf fuel (le_n _)). exists fuel.
  destruct (match_some _ _ _ Hf) as (r & E & _ & Ha & _); [intros [Hr _]; apply Hr, fork_room_readable|].
  exists r. split; [exact E|]. apply Ha, fork_room_agreed.
Defined.

(** The room without the events no candidate's chain contains. *)
Module ChainRoom.
Import Sample.
Definition base : list event := [create; join_a; ForkRoom.join_b; power; rules].
Definition context : gmap string event := ForkRoom.context_of ([ForkRoom.topic_a; ForkRoom.topic_b] ++ base).
Definition forks : list (gmap (string * string) string) :=
  [ForkRoom.state_of (ForkRoom.topic_b :: base); ForkRoom.state_of (ForkRoom.topic_a :: base)].
(** A citation path from a contested event to each event. *)
Definition path (id : string) : list string :=
  if id ==s "$rules" then ["$topic_b"; "$join@b:x"; "$rules"]
  else if id ==s "$join@b:x" then ["$topic_b"; id]
  else if (id ==s "$topic_a") || (id ==s "$topic_b") then [id] else ["$topic_a"; id].
Fixpoint is_path (l : list string) : bool :=
  match l with
  | x :: (y :: _) as l' =>
      match context !! x with Some e => bool_decide (y ∈ auth_events e) | None => false end && is_path l'
  | _ => true
  end.
Definition path_ok (id : string) : bool :=
  match path id with
  | c :: l => is_path (c :: l) && bool_decide (last (c :: l) = Some id) && ((c ==s "$topic_a") || (c ==s "$topic_b"))
  | [] => false
  end.
End ChainRoom.

Lemma chain_room_wf : context_wf (H:=string_event_id) V2 ChainRoom.context.
Proof.
  split; [split|].
  - apply (bool_decide_eq_true_1 _). vm_compute. reflexivity.
  - vm_compute. discriminate.
  - apply (bool_decide_eq_true_1 _). vm_compute. reflexivity.
Qed.

Lemma chain_room_contested c : c = "$topic_a" ∨ c = "$topic_b" → contested ChainRoom.forks c.
Proof.
  assert (¬ agreed ChainRoom.forks ForkRoom.topic_key "$topic_a") as Ha.
  { intros Ha. specialize (Ha _ (list_elem_of_here _ _)). vm_compute in Ha. discriminate. }
  assert (¬ agreed ChainRoom.forks ForkRoom.topic_key "$topic_b") as Hb.
  { intros Hb. specialize (Hb _ (list_elem_of_further _ _ _ (list_elem_of_here _ _))). vm_compute in Hb. discriminate. }
  intros [->| ->].
  - exists ForkRoom.topic_key, (ForkRoom.state_of (ForkRoom.topic_a :: ChainRoom.base)).
    split_and!; [right; left|vm_compute; reflexivity|done].
  - exists ForkRoom.topic_key, (ForkRoom.state_of (ForkRoom.topic_b :: ChainRoom.base)).
    split_and!; [left|vm_compute; reflexivity|done].
Qed.

Lemma chain_room_path l a z :
  ChainRoom.is_path (a :: l) = true → last (a :: l) = Some z →
  rtc (auth_of (H:=string_event_id) ChainRoom.context) a z.
Proof.
  revert a z. induction l as [|b l IH]; intros a z Hp Hz; [simpl in Hz; simplify_eq; constructor|].
  cbn [ChainRoom.is_path] in Hp. apply andb_prop in Hp as [Hab Hp].
  destruct (ChainRoom.context !! a) as [e|] eqn:Ea; [|done]. apply bool_decide_eq_true in Hab.
  eapply rtc_l; [by exists e|]. by apply IH.
Qed.

Lemma chain_room_covered x :
  x ∈ dom ChainRoom.context →
  ∃ c, candidate (H:=string_event_id) ChainRoom.forks ChainRoom.context V2 c ∧ c ∈ dom ChainRoom.context
    ∧ rtc (auth_of (H:=string_event_id) ChainRoom.context) c x.
Proof.
  assert (set_Forall (λ id, ChainRoom.path_ok id = true) (dom ChainRoom.context)) as Hall.
  { apply (bool_decide_eq_true_1 _). vm_compute. reflexivity. }
  intros Hx. specialize (Hall x Hx). simpl in Hall. unfold ChainRoom.path_ok in Hall.
  destruct (ChainRoom.path x) as [|c l]; [done|].
  apply andb_prop in Hall as [[Hp Hl]%andb_prop Hc]. apply bool_decide_eq_true in Hl.
  apply orb_prop in Hc. rewrite !String.eqb_eq in Hc. exists c. split_and!.
  - left. by apply chain_room_contested.
  - apply elem_of_dom. destruct Hc as [->| ->]; vm_compute; by eexists.
  - by eapply chain_room_path.
Qed.

Lemma lazy_matches_eager_witness :
  ∃ fuel, resolve_state_maps_lazy_with_diff (H:=string_event_id) (Ho:=order_backward)
      (EventProvider0:=map_provider (H:=string_event_id)) ChainRoom.context fuel ChainRoom.forks None V2
    = resolve_state_maps (H:=string_event_id) (Ho:=order_forward) ChainRoom.forks ChainRoom.context V2.
Proof.
  destruct (lazy_matches_eager (H:=string_event_id) (EventProvider0:=map_provider (H:=string_event_id))
    order_backward order_forward ChainRoom.context ChainRoom.context ChainRoom.forks V2 None (λ _, eq_refl))
    as [fuel Hf]; [split; [discriminate|vm_compute; discriminate]|apply chain_room_wf|exact I|apply chain_room_covered|].
  exists fuel. apply Hf. apply le_n.
Defined.
