(* ===== verification/LtHash.v ===== *)
(** * The lattice hash ([src/src/incremental/lthash/])

    A homomorphic accumulator: every element is expanded by the BLAKE3
    extendable output function into 16-bit lanes, and the hash of a multiset
    is the lane-wise wrapping sum. BLAKE3 is a parameter, the class [Blake3]:
    the byte at each position of the extended output of an input; its 32-byte
    hash is the start of that output. A lane is an [N], a lattice a list of
    them; [lattice_wf] says that it is an array of [LANES] [u16]s. *)
From stdpp Require Import prelude strings sorting.
From Stdlib Require String.
From Stdlib Require Import Ascii.
From S2P Require Import Prelude Json JsonText JsonTextProps.

Local Open Scope N_scope.

Definition U16_MAX : N := 65535.
Definition u16_wrapping_add (a b : N) : N := (a + b) mod 65536.
Definition u16_wrapping_sub (a b : N) : N := (a + 65536 - b) mod 65536.

(** [to_le_bytes], [from_le_bytes]. *)
Definition le16 (n : N) : bytes := [ascii_of_N (n mod 256); ascii_of_N (n / 256 mod 256)].
Definition le32 (n : N) : bytes := le16 (n mod 65536) ++ le16 (n / 65536).
Definition of_le16 (b0 b1 : ascii) : N := code b0 + 256 * code b1.

(** The extended output of BLAKE3, byte by byte. *)
Class Blake3 := { xof : bytes → N → ascii }.

(** ** Encodings ([encoding.rs]) *)

(** [str::is_char_boundary]. *)
Definition is_char_boundary (s : bytes) (index : nat) : bool :=
  match index with
  | O => true
  | _ => match s !! index with
         | Some b => negb (continuation b)
         | None => (index =? length s)%nat
         end
  end.

(** [while !s.is_char_boundary(end) { end = end.saturating_sub(1) }]. *)
Fixpoint boundary_before (s : bytes) (end_ : nat) : nat :=
  if is_char_boundary s end_ then end_
  else match end_ with O => O | S e => boundary_before s e end.

Definition truncate_to_u16_limit (s : string) : bytes * N :=
  let s := as_bytes s in
  if U16_MAX <? N.of_nat (length s) then
    let end_ := boundary_before s (N.to_nat U16_MAX) in (take end_ s, N.of_nat end_)
  else (s, N.of_nat (length s)).

(** A length prefix and the bytes it counts. *)
Definition put (s : string) : bytes :=
  let '(s, len) := truncate_to_u16_limit s in le16 len ++ s.

(** What the hasher is fed. *)
Definition entry_input (dst : bytes) (event_type state_key event_id : string) : bytes :=
  dst ++ put event_type ++ put state_key ++ as_bytes event_id.
Definition bytes_input (dst b : bytes) : bytes := dst ++ b.
Definition field_input (dst : bytes) (key val : string) : bytes := dst ++ put key ++ put val.

(** [chunks_mut(128)] of an array of [n] lanes. *)
Definition chunks_128 (n : nat) : list nat :=
  replicate (n / 128) 128%nat ++ (if (n mod 128 =? 0)%nat then [] else [(n mod 128)%nat]).

(** [OutputReader::fill] at a position, read as pairs of bytes. *)
Definition fill_lanes `{Blake3} (input : bytes) (pos : N) (lanes : nat) : list N :=
  (λ i, of_le16 (xof input (pos + 2 * N.of_nat i)) (xof input (pos + 2 * N.of_nat i + 1))) <$> seq 0 lanes.

Fixpoint expand_chunks `{Blake3} (input : bytes) (pos : N) (chunks : list nat) : list N :=
  match chunks with
  | [] => []
  | n :: chunks => fill_lanes input pos n ++ expand_chunks input (pos + 2 * N.of_nat n) chunks
  end.
Definition expand_lanes `{Blake3} (LANES : nat) (input : bytes) : list N :=
  expand_chunks input 0 (chunks_128 LANES).

Definition seed_lattice `{Blake3} (LANES : nat) (dst : bytes) (event_type state_key event_id : string) : list N :=
  expand_lanes LANES (entry_input dst event_type state_key event_id).
Definition seed_bytes_lattice `{Blake3} (LANES : nat) (dst b : bytes) : list N :=
  expand_lanes LANES (bytes_input dst b).
Definition seed_field_lattice `{Blake3} (LANES : nat) (dst : bytes) (key val : string) : list N :=
  expand_lanes LANES (field_input dst key val).

(** Eight lanes at a time, then the remainder. *)
Fixpoint by_eights (f : N → N → N) (dst src : list N) : list N :=
  match dst, src with
  | a0 :: a1 :: a2 :: a3 :: a4 :: a5 :: a6 :: a7 :: dst', b0 :: b1 :: b2 :: b3 :: b4 :: b5 :: b6 :: b7 :: src' =>
      f a0 b0 :: f a1 b1 :: f a2 b2 :: f a3 b3 :: f a4 b4 :: f a5 b5 :: f a6 b6 :: f a7 b7 :: by_eights f dst' src'
  | _, _ => zip_with f dst src
  end.
Definition add_lattice : list N → list N → list N := by_eights u16_wrapping_add.
Definition sub_lattice : list N → list N → list N := by_eights u16_wrapping_sub.

Definition lane_bytes (lattice : list N) : bytes := lattice ≫= le16.
Definition lattice_digest `{Blake3} (lattice : list N) : bytes :=
  (λ i, xof (lane_bytes lattice) (N.of_nat i)) <$> seq 0 32.

(** ** The accumulator ([lattice.rs]) *)

Module Lattice.
Abbreviation LtLattice := (list N) (only parsing).

Definition ZERO (LANES : nat) : LtLattice := replicate LANES 0.
Definition DST : bytes := as_bytes "msc4500:lthash16:blake3:v1".

Section accumulator.
Context `{Blake3} (LANES : nat).
Implicit Types (hash seed : list N) (dst b : bytes) (key val : string).

Definition seed_entry (event_type state_key event_id : string) : list N :=
  seed_lattice LANES DST event_type state_key event_id.
Definition seed_with_dst dst (event_type state_key event_id : string) : list N :=
  seed_lattice LANES dst event_type state_key event_id.
Definition seed_bytes dst b : list N := seed_bytes_lattice LANES dst b.
Definition seed_field dst key val : list N := seed_field_lattice LANES dst key val.

Definition add_seed hash seed : list N := add_lattice hash seed.
Definition sub_seed hash seed : list N := sub_lattice hash seed.

Definition accumulate hash (event_type state_key event_id : string) (add : bool) : list N :=
  let s := seed_entry event_type state_key event_id in
  if add then add_seed hash s else sub_seed hash s.
Definition insert hash (event_type state_key event_id : string) : list N :=
  accumulate hash event_type state_key event_id true.
Definition remove hash (event_type state_key event_id : string) : list N :=
  accumulate hash event_type state_key event_id false.
Definition replace hash (event_type state_key old_event_id new_event_id : string) : list N :=
  add_seed (sub_seed hash (seed_entry event_type state_key old_event_id)) (seed_entry event_type state_key new_event_id).

Definition replace_checked hash (old_event_type old_state_key old_event_id : string)
    (new_event_type new_state_key new_event_id : string) : option (list N) :=
  if (old_event_type ==s new_event_type) && (old_state_key ==s new_state_key) then
    Some (add_seed (sub_seed hash (seed_entry old_event_type old_state_key old_event_id))
      (seed_entry new_event_type new_state_key new_event_id))
  else None.

Definition insert_bytes hash dst b : list N := add_seed hash (seed_bytes dst b).
Definition remove_bytes hash dst b : list N := sub_seed hash (seed_bytes dst b).
Definition replace_bytes hash dst (old_bytes new_bytes : bytes) : list N :=
  add_seed (sub_seed hash (seed_bytes dst old_bytes)) (seed_bytes dst new_bytes).
Definition insert_field hash dst key val : list N := add_seed hash (seed_field dst key val).
Definition remove_field hash dst key val : list N := sub_seed hash (seed_field dst key val).
Definition replace_field hash dst key (old_val new_val : string) : list N :=
  add_seed (sub_seed hash (seed_field dst key old_val)) (seed_field dst key new_val).

(** Batches of [(event_type, state_key, event_id)]. *)
Definition insert_batch hash (items : list (string * string * string)) : list N :=
  foldl (λ h i, insert h i.1.1 i.1.2 i.2) hash items.
Definition remove_batch hash (items : list (string * string * string)) : list N :=
  foldl (λ h i, remove h i.1.1 i.1.2 i.2) hash items.
Definition insert_batch_with_dst hash dst (items : list (string * string * string)) : list N :=
  foldl (λ h i, add_seed h (seed_with_dst dst i.1.1 i.1.2 i.2)) hash items.
Definition remove_batch_with_dst hash dst (items : list (string * string * string)) : list N :=
  foldl (λ h i, sub_seed h (seed_with_dst dst i.1.1 i.1.2 i.2)) hash items.

Definition sum (iter : list (list N)) : list N := foldl add_lattice (ZERO LANES) iter.
Definition from_iter (items : list (string * string * string)) : list N := insert_batch (ZERO LANES) items.

Definition to_bytes hash : bytes := lane_bytes hash.

(** [chunks_exact(2)]. *)
Fixpoint pairs (b : bytes) : list N :=
  match b with b0 :: b1 :: b => of_le16 b0 b1 :: pairs b | _ => [] end.

(** [LANES.wrapping_mul(2)]. *)
Definition byte_length : N := (N.of_nat LANES * 2) mod 18446744073709551616.

Definition from_bytes (b : bytes) : option (list N) :=
  if N.of_nat (length b) =? byte_length then
    let lanes := take LANES (pairs b) in Some (lanes ++ replicate (LANES - length lanes) 0)
  else None.

Record WrongLatticeLength : Type := mkWrongLatticeLength { expected : N; found : N }.
Definition try_from (b : bytes) : result (list N) WrongLatticeLength :=
  match from_bytes b with
  | Some hash => Ok hash
  | None => Err (mkWrongLatticeLength byte_length (N.of_nat (length b)))
  end.

Definition digest hash : bytes := lattice_digest hash.
End accumulator.
End Lattice.

(** ** Lanes *)

(** An array of [LANES] [u16]s. *)
Definition lattice_wf (LANES : nat) (hash : list N) : Prop :=
  length hash = LANES ∧ Forall (λ x, x < 65536) hash.

Lemma by_eights_zip f (dst src : list N) : by_eights f dst src = zip_with f dst src.
Proof.
  revert src. induction dst as [l IH] using (induction_ltof1 _ (@length N)). unfold ltof in IH. intros r.
  do 8 (destruct l as [|? l]; [done|]). do 8 (destruct r as [|? r]; [done|]).
  simpl. do 8 f_equal. apply IH. simpl. lia.
Qed.

Lemma add_zip a b : add_lattice a b = zip_with u16_wrapping_add a b.
Proof. apply by_eights_zip. Qed.
Lemma sub_zip a b : sub_lattice a b = zip_with u16_wrapping_sub a b.
Proof. apply by_eights_zip. Qed.

Lemma wrapping_add_sub a b : a < 65536 → b < 65536 → u16_wrapping_sub (u16_wrapping_add a b) b = a.
Proof.
  intros Ha Hb. unfold u16_wrapping_sub, u16_wrapping_add.
  destruct (decide (a + b < 65536)) as [Hl|Hl].
  - rewrite (N.mod_small (a + b)) by done. replace (a + b + 65536 - b) with (a + 1 * 65536) by lia.
    by rewrite N.Div0.mod_add, N.mod_small.
  - replace (a + b) with ((a + b - 65536) + 1 * 65536) by lia.
    rewrite N.Div0.mod_add, (N.mod_small (a + b - 65536)), N.mod_small; lia.
Qed.

Lemma wrapping_sub_add a b : a < 65536 → b < 65536 → u16_wrapping_add (u16_wrapping_sub a b) b = a.
Proof.
  intros Ha Hb. unfold u16_wrapping_sub, u16_wrapping_add. rewrite N.Div0.add_mod_idemp_l.
  replace (a + 65536 - b + b) with (a + 1 * 65536) by lia. by rewrite N.Div0.mod_add, N.mod_small.
Qed.

Lemma wrapping_add_comm a b : u16_wrapping_add a b = u16_wrapping_add b a.
Proof. unfold u16_wrapping_add. by rewrite N.add_comm. Qed.

Lemma wrapping_add_assoc a b c :
  u16_wrapping_add a (u16_wrapping_add b c) = u16_wrapping_add (u16_wrapping_add a b) c.
Proof. unfold u16_wrapping_add. by rewrite N.Div0.add_mod_idemp_r, N.Div0.add_mod_idemp_l, N.add_assoc. Qed.

Lemma add_lattice_comm a b : add_lattice a b = add_lattice b a.
Proof.
  rewrite !add_zip. revert b. induction a as [|x a IH]; intros [|y b]; simpl; try done.
  by rewrite wrapping_add_comm, IH.
Qed.

Lemma add_lattice_assoc a b c : add_lattice a (add_lattice b c) = add_lattice (add_lattice a b) c.
Proof.
  rewrite !add_zip. revert b c. induction a as [|x a IH]; intros [|y b] [|z c]; simpl; try done.
  by rewrite wrapping_add_assoc, IH.
Qed.

Lemma zip_lanes_wf LANES f a b :
  (∀ x y, f x y < 65536) → lattice_wf LANES a → lattice_wf LANES b → lattice_wf LANES (zip_with f a b).
Proof.
  intros Hf [Ha _] [Hb _]. split; [rewrite length_zip_with; lia|].
  apply Forall_forall. intros z Hz. apply elem_of_lookup_zip_with in Hz as (i & x & y & -> & _). apply Hf.
Qed.

Lemma add_lattice_wf LANES a b : lattice_wf LANES a → lattice_wf LANES b → lattice_wf LANES (add_lattice a b).
Proof. rewrite add_zip. apply zip_lanes_wf. intros x y. apply N.mod_lt. done. Qed.
Lemma sub_lattice_wf LANES a b : lattice_wf LANES a → lattice_wf LANES b → lattice_wf LANES (sub_lattice a b).
Proof. rewrite sub_zip. apply zip_lanes_wf. intros x y. apply N.mod_lt. done. Qed.

Lemma zip_undo (f g : N → N → N) LANES a b :
  (∀ x y, x < 65536 → y < 65536 → f (g x y) y = x) →
  lattice_wf LANES a → lattice_wf LANES b → zip_with f (zip_with g a b) b = a.
Proof.
  intros Hfg [Hla Ha] [Hlb Hb]. rewrite <-Hla in Hlb. clear Hla. revert b Hlb Hb.
  induction Ha as [|x a Hx Ha IH]; intros [|y b] Hl Hb; simpl in *; try done.
  apply Forall_cons in Hb as [Hy Hb]. rewrite Hfg, IH by (done || lia). done.
Qed.

Lemma add_sub_lattice LANES a b : lattice_wf LANES a → lattice_wf LANES b → sub_lattice (add_lattice a b) b = a.
Proof. rewrite sub_zip, add_zip. apply zip_undo. apply wrapping_add_sub. Qed.
Lemma sub_add_lattice LANES a b : lattice_wf LANES a → lattice_wf LANES b → add_lattice (sub_lattice a b) b = a.
Proof. rewrite sub_zip, add_zip. apply zip_undo. apply wrapping_sub_add. Qed.

Lemma zero_wf LANES : lattice_wf LANES (Lattice.ZERO LANES).
Proof. split; [apply length_replicate|]. by apply Forall_replicate. Qed.

Lemma add_zero LANES a : lattice_wf LANES a → add_lattice a (Lattice.ZERO LANES) = a.
Proof.
  intros [<- Ha]. rewrite add_zip. unfold Lattice.ZERO. induction Ha as [|x a Hx Ha IH]; simpl; [done|].
  f_equal; [|done]. unfold u16_wrapping_add. rewrite N.add_0_r. by apply N.mod_small.
Qed.

Lemma of_le16_bound b0 b1 : of_le16 b0 b1 < 65536.
Proof. unfold of_le16, code. pose proof (N_ascii_bounded b0). pose proof (N_ascii_bounded b1). lia. Qed.

(** The chunked expansion is the plain one. *)
Lemma fill_lanes_app `{Blake3} input pos n m :
  fill_lanes input pos (n + m) = fill_lanes input pos n ++ fill_lanes input (pos + 2 * N.of_nat n) m.
Proof.
  unfold fill_lanes. rewrite seq_app, fmap_app. f_equal. simpl.
  replace (seq n m) with (Nat.add n <$> seq 0 m) by (rewrite fmap_add_seq; f_equal; lia).
  rewrite <-list_fmap_compose. apply list_fmap_ext. intros i x _. simpl.
  f_equal; f_equal; lia.
Qed.

Lemma expand_chunks_fill `{Blake3} input pos chunks :
  expand_chunks input pos chunks = fill_lanes input pos (sum_list chunks).
Proof.
  revert pos. induction chunks as [|n chunks IH]; intros pos; simpl; [done|]. by rewrite IH, fill_lanes_app.
Qed.

Lemma expand_lanes_fill `{Blake3} LANES input : expand_lanes LANES input = fill_lanes input 0 LANES.
Proof.
  unfold expand_lanes. rewrite expand_chunks_fill. f_equal. unfold chunks_128.
  rewrite sum_list_with_app, sum_list_replicate. pose proof (Nat.div_mod_eq LANES 128).
  destruct (Nat.eqb_spec (LANES mod 128) 0) as [E|E]; cbn [sum_list_with id]; rewrite ?E; lia.
Qed.

Lemma expand_lanes_wf `{Blake3} LANES input : lattice_wf LANES (expand_lanes LANES input).
Proof.
  rewrite expand_lanes_fill. unfold fill_lanes. split; [by rewrite length_fmap, length_seq|].
  apply Forall_fmap, Forall_forall. intros i _. apply of_le16_bound.
Qed.

(** ** Serialization *)

Lemma le16_of_le16 b0 b1 : le16 (of_le16 b0 b1) = [b0; b1].
Proof.
  unfold le16, of_le16. pose proof (N_ascii_bounded b0). pose proof (N_ascii_bounded b1).
  rewrite (N.mul_comm 256), N.Div0.mod_add, N.div_add by done. unfold code.
  rewrite (N.div_small (N_of_ascii b0)), N.add_0_l, !N.mod_small by done. by rewrite !ascii_N_embedding.
Qed.

Lemma of_le16_le16 n : n < 65536 → of_le16 (ascii_of_N (n mod 256)) (ascii_of_N (n / 256 mod 256)) = n.
Proof.
  intros Hn. unfold of_le16, code. rewrite !N_ascii_embedding by (by apply N.mod_lt).
  rewrite (N.mod_small (n / 256)) by (apply N.Div0.div_lt_upper_bound; lia).
  pose proof (N.div_mod n 256). lia.
Qed.

Lemma pairs_lane_bytes hash : Forall (λ x, x < 65536) hash → Lattice.pairs (lane_bytes hash) = hash.
Proof. induction 1 as [|x hash Hx _ IH]; simpl; [done|]. by rewrite of_le16_le16, IH. Qed.

Lemma lane_bytes_pairs (b : bytes) n : length b = (n * 2)%nat →
  lane_bytes (Lattice.pairs b) = b ∧ length (Lattice.pairs b) = n ∧ Forall (λ x, x < 65536) (Lattice.pairs b).
Proof.
  revert b. induction n as [|n IH]; intros [|b0 [|b1 b]] Hl; simpl in *; try lia; [by split_and!|].
  destruct (IH b ltac:(lia)) as (Hb & Hn & Hw).
  split_and!; [|lia|by constructor; [apply of_le16_bound|]].
  change (le16 (of_le16 b0 b1) ++ lane_bytes (Lattice.pairs b) = b0 :: b1 :: b). by rewrite le16_of_le16, Hb.
Qed.

Lemma length_lane_bytes hash : length (lane_bytes hash) = (length hash * 2)%nat.
Proof. induction hash as [|x hash IH]; simpl; [done|]. fold (lane_bytes hash). by rewrite IH. Qed.

(** ** The hashed inputs *)

Lemma boundary_before_le s e : (boundary_before s e ≤ e)%nat.
Proof. induction e as [|e IH]; simpl; [done|]. case_match; lia. Qed.

(** A string within the limit, as every field of an event is. *)
Definition fits (s : string) : Prop := (length (as_bytes s) ≤ N.to_nat U16_MAX)%nat.

Lemma put_fits s : fits s → put s = le16 (N.of_nat (length (as_bytes s))) ++ as_bytes s.
Proof. unfold fits, put, truncate_to_u16_limit. intros Hf. destruct (N.ltb_spec U16_MAX (N.of_nat (length (as_bytes s)))); [lia|done]. Qed.

Lemma le16_inj n m : n < 65536 → m < 65536 → le16 n = le16 m → n = m.
Proof. intros Hn Hm. unfold le16. intros [= H0 H1]. by rewrite <-(of_le16_le16 n), <-(of_le16_le16 m), H0, H1. Qed.

Lemma as_bytes_inj s s' : as_bytes s = as_bytes s' → s = s'.
Proof. intros E. rewrite <-(String.string_of_list_ascii_of_string s), <-(String.string_of_list_ascii_of_string s'). by f_equal. Qed.

(** A prefixed field is read back with what follows it. *)
Lemma put_app_inj s s' (r r' : bytes) : fits s → fits s' → put s ++ r = put s' ++ r' → s = s' ∧ r = r'.
Proof.
  intros Hs Hs'. rewrite !put_fits, <-!(assoc_L (++)) by done. unfold fits in *. unfold U16_MAX in *.
  intros [Hl E]%app_inj_1; [|done]. apply le16_inj in Hl; [|lia..].
  apply app_inj_1 in E as [E ->]; [|lia]. by apply as_bytes_inj in E.
Qed.

Lemma entry_input_inj dst t k id t' k' id' : fits t → fits k → fits t' → fits k' →
  entry_input dst t k id = entry_input dst t' k' id' → t = t' ∧ k = k' ∧ id = id'.
Proof.
  intros Ht Hk Ht' Hk'. unfold entry_input. intros E%app_inv_head.
  apply put_app_inj in E as [-> E]; [|done..]. apply put_app_inj in E as [-> E]; [|done..]. by apply as_bytes_inj in E.
Qed.

Lemma field_input_inj dst k v k' v' : fits k → fits v → fits k' → fits v' →
  field_input dst k v = field_input dst k' v' → k = k' ∧ v = v'.
Proof.
  intros Hk Hv Hk' Hv'. unfold field_input. intros E%app_inv_head.
  apply put_app_inj in E as [-> E]; [|done..]. rewrite <-(app_nil_r (put v)), <-(app_nil_r (put v')) in E.
  by apply put_app_inj in E as [-> _].
Qed.

Lemma truncate_prefix s : let '(b, len) := truncate_to_u16_limit s in
  b `prefix_of` as_bytes s ∧ N.of_nat (length b) = len ∧ len ≤ U16_MAX.
Proof.
  unfold truncate_to_u16_limit. destruct (N.ltb_spec U16_MAX (N.of_nat (length (as_bytes s)))) as [Hl|Hl].
  - pose proof (boundary_before_le (as_bytes s) (N.to_nat U16_MAX)) as Hb. split_and!.
    + apply prefix_take.
    + rewrite length_take. lia.
    + lia.
  - done.
Qed.
