(* ===== verification/StateHash.v ===== *)
(** * Hashes of room state ([src/src/state/lthash.rs], [HashedState] of [src/src/state/at.rs])

    The lattice hash of a state map, the accumulators built on it, and the
    state that carries its hash along. [base.diff(other)] on two states is the
    merge of their entries in key order, to which the walk over their trees is
    proved equal ([StateDiff]). *)
From stdpp Require Import prelude gmap strings sorting.
From Stdlib Require String.
From Stdlib Require Import Ascii.
From S2P Require Import Prelude EventTypes Json JsonText JsonTextProps Events LtHash AuthDiff OrdMap OrdMapProps OrdMapBuild OrdMapWalk OrdMapDiff StateDiff AuthDiffProps.

(** [LtHash]: 1024 lanes. *)
Definition LANES : nat := N.to_nat 1024.

Section state_hash.
Context {Id : Type} `{EventId Id} `{Blake3}.
Abbreviation key := (string * string)%type.
Abbreviation shared_state := (gmap key Id).

(** ** The hash of a state map *)

Definition entry_seed (k : key) (id : Id) : list N := Lattice.seed_entry LANES k.1 k.2 (id_display id).

Definition from_state (state : shared_state) : list N :=
  foldl (λ hash e, Lattice.add_seed hash (entry_seed e.1 e.2)) (Lattice.ZERO LANES) (state_iter state).
Definition compute_state_hash (state : shared_state) : bytes := Lattice.digest (from_state state).

(** [state.diff(&other)]. *)
Definition state_diff_items (base other : shared_state) : list (DiffItem key Id) :=
  list_diff (state_iter base) (state_iter other).

Definition hash_diff_item (hash : list N) (d : DiffItem key Id) : list N :=
  match d with
  | Add k new_id => Lattice.insert LANES hash k.1 k.2 (id_display new_id)
  | Remove k old_id => Lattice.remove LANES hash k.1 k.2 (id_display old_id)
  | Update old new =>
      Lattice.insert LANES (Lattice.remove LANES hash old.1.1 old.1.2 (id_display old.2))
        old.1.1 old.1.2 (id_display new.2)
  end.

(** ** [HashedState] *)

Record HashedState : Type := mkHashed {
  hashed_state : shared_state;
  hashed_hash : list N
}.
Definition HashedState_new : HashedState := mkHashed ∅ (Lattice.ZERO LANES).

Definition HashedState_insert (s : HashedState) (k : key) (event_id : Id) : HashedState :=
  let hash := match hashed_state s !! k with
              | Some old_id => Lattice.remove LANES (hashed_hash s) k.1 k.2 (id_display old_id)
              | None => hashed_hash s
              end in
  mkHashed (<[k := event_id]> (hashed_state s)) (Lattice.insert LANES hash k.1 k.2 (id_display event_id)).

(** ** The redaction overlay *)

Definition overlay_DST : bytes := as_bytes "msc4500:redactions:blake3:v1".
Definition overlay_seed (event_type state_key event_id : string) : list N :=
  seed_lattice LANES overlay_DST event_type state_key event_id.
Definition overlay_insert (overlay : list N) (event_type state_key event_id : string) : list N :=
  Lattice.add_seed overlay (overlay_seed event_type state_key event_id).
Definition overlay_remove (overlay : list N) (event_type state_key event_id : string) : list N :=
  Lattice.sub_seed overlay (overlay_seed event_type state_key event_id).

(** ** Resolution inputs *)

Record ResolutionInputRecord : Type := mkInputRecord {
  rec_event_id : string;
  rec_event_type : string;
  rec_state_key : string;
  rec_auth_events : list string;
  rec_state_predecessors : list string
}.

(** [u32::try_from(n).unwrap_or(u32::MAX)]. *)
Definition saturated_u32 (n : nat) : N := N.min (N.of_nat n) 4294967295.

Definition put_ids (ids : list string) : bytes :=
  let sorted := sort_by String.compare ids in le32 (saturated_u32 (length sorted)) ++ (sorted ≫= put).

Definition encode (r : ResolutionInputRecord) : bytes :=
  put (rec_event_id r) ++ put (rec_event_type r) ++ put (rec_state_key r)
  ++ put_ids (rec_auth_events r) ++ put_ids (rec_state_predecessors r).

Definition inputs_DST : bytes := as_bytes "msc4500:resolution_inputs:blake3:v1".
Definition inputs_insert (inputs : list N) (r : ResolutionInputRecord) : list N :=
  Lattice.insert_bytes LANES inputs inputs_DST (encode r).
Definition inputs_remove (inputs : list N) (r : ResolutionInputRecord) : list N :=
  Lattice.remove_bytes LANES inputs inputs_DST (encode r).

(** ** Hashing one event field by field *)

Record PduLtHash : Type := mkPdu { dst : bytes; inner : list N }.
Definition PduLtHash_new (d : bytes) : PduLtHash := mkPdu d (Lattice.ZERO LANES).
Definition pdu_insert_field (p : PduLtHash) (k val : string) : PduLtHash :=
  mkPdu (dst p) (Lattice.add_seed (inner p) (Lattice.seed_field LANES (dst p) k val)).
Definition pdu_remove_field (p : PduLtHash) (k val : string) : PduLtHash :=
  mkPdu (dst p) (Lattice.sub_seed (inner p) (Lattice.seed_field LANES (dst p) k val)).
Definition pdu_replace_field (p : PduLtHash) (k old_val new_val : string) : PduLtHash :=
  mkPdu (dst p) (Lattice.add_seed (Lattice.sub_seed (inner p) (Lattice.seed_field LANES (dst p) k old_val))
    (Lattice.seed_field LANES (dst p) k new_val)).
Definition pdu_insert_bytes (p : PduLtHash) (b : bytes) : PduLtHash :=
  mkPdu (dst p) (Lattice.add_seed (inner p) (Lattice.seed_bytes LANES (dst p) b)).
Definition pdu_remove_bytes (p : PduLtHash) (b : bytes) : PduLtHash :=
  mkPdu (dst p) (Lattice.sub_seed (inner p) (Lattice.seed_bytes LANES (dst p) b)).
Definition pdu_replace_bytes (p : PduLtHash) (old_bytes new_bytes : bytes) : PduLtHash :=
  mkPdu (dst p) (Lattice.add_seed (Lattice.sub_seed (inner p) (Lattice.seed_bytes LANES (dst p) old_bytes))
    (Lattice.seed_bytes LANES (dst p) new_bytes)).
Definition pdu_is_empty (p : PduLtHash) : bool := bool_decide (inner p = Lattice.ZERO LANES).
Definition pdu_digest (p : PduLtHash) : bytes := Lattice.digest (inner p).

(** ** Comparing digests *)

Record StateDigest : Type := mkDigest { primary_digest : bytes; overlay_digest : option bytes }.
Inductive DigestAgreement : Type := PrimaryMismatch | FullySynchronized | OverlayMismatch | OverlayUnknown.

Definition compare_digests (self remote : StateDigest) : DigestAgreement :=
  if decide (primary_digest self = primary_digest remote) then
    match overlay_digest self, overlay_digest remote with
    | Some l, Some r => if decide (l = r) then FullySynchronized else OverlayMismatch
    | _, _ => OverlayUnknown
    end
  else PrimaryMismatch.
End state_hash.
Arguments HashedState : clear implicits.

(** ** The hash is a sum over the entries *)

Section hash_lemmas.
Context {Id : Type} `{EventId Id} `{Blake3}.
Abbreviation key := (string * string)%type.
Abbreviation shared_state := (gmap key Id).
Implicit Types (m : shared_state) (k : key) (id : Id).

Definition seeds_sum (l : list (key * Id)) : list N :=
  foldr (λ e hash, add_lattice hash (entry_seed e.1 e.2)) (Lattice.ZERO LANES) l.

Lemma entry_seed_wf k id : lattice_wf LANES (entry_seed k id).
Proof. apply expand_lanes_wf. Qed.

Lemma add_lattice_swap a b c : add_lattice (add_lattice a b) c = add_lattice (add_lattice a c) b.
Proof. by rewrite <-!add_lattice_assoc, (add_lattice_comm b c). Qed.

Global Instance seeds_sum_perm : Proper ((≡ₚ) ==> (=)) seeds_sum.
Proof.
  intros l l' Hp. induction Hp as [|e l l' _ IH|e1 e2 l|l1 l2 l3 _ IH1 _ IH2]; simpl; [done|by rewrite IH| |by rewrite IH1].
  apply add_lattice_swap.
Qed.

Lemma from_state_sum m : from_state m = seeds_sum (map_to_list m).
Proof.
  rewrite <-state_iter_perm. unfold from_state. induction (state_iter m) as [|e l IH] using rev_ind; [done|].
  by rewrite foldl_app, <-Permutation_cons_append, IH.
Qed.

Lemma from_state_wf m : lattice_wf LANES (from_state m).
Proof.
  rewrite from_state_sum. induction (map_to_list m) as [|e l IH]; simpl; [apply zero_wf|].
  apply add_lattice_wf; [done|apply entry_seed_wf].
Qed.

Lemma from_state_empty : from_state (∅ : shared_state) = Lattice.ZERO LANES.
Proof. by rewrite from_state_sum, map_to_list_empty. Qed.

Lemma from_state_insert_new m k id :
  m !! k = None → from_state (<[k := id]> m) = add_lattice (from_state m) (entry_seed k id).
Proof. intros Hk. rewrite !from_state_sum, map_to_list_insert by done. done. Qed.

Lemma from_state_delete m k id :
  m !! k = Some id → from_state (delete k m) = sub_lattice (from_state m) (entry_seed k id).
Proof.
  intros Hk. rewrite <-(insert_delete_id m k id Hk) at 2.
  rewrite from_state_insert_new by apply lookup_delete_eq.
  by rewrite (add_sub_lattice LANES) by (apply from_state_wf || apply entry_seed_wf).
Qed.

Lemma from_state_insert m k id :
  from_state (<[k := id]> m)
  = add_lattice (match m !! k with Some old => sub_lattice (from_state m) (entry_seed k old) | None => from_state m end)
      (entry_seed k id).
Proof.
  destruct (m !! k) as [old|] eqn:Hk; [|by apply from_state_insert_new].
  rewrite <-from_state_delete, <-from_state_insert_new by (done || apply lookup_delete_eq).
  by rewrite insert_delete_eq.
Qed.

(** ** Following a diff *)

Definition apply_item m (d : DiffItem key Id) : shared_state :=
  match d with
  | Add k id => <[k := id]> m
  | Remove k _ => delete k m
  | Update old new => <[old.1 := new.2]> m
  end.
Definition item_true m (d : DiffItem key Id) : Prop :=
  match d with
  | Add k _ => m !! k = None
  | Remove k id => m !! k = Some id
  | Update old _ => m !! old.1 = Some old.2
  end.
Definition item_new (d : DiffItem key Id) : option Id :=
  match d with Add _ id => Some id | Remove _ _ => None | Update _ new => Some new.2 end.

Lemma apply_item_lookup m d k :
  apply_item m d !! k = if decide (k = item_key d) then item_new d else m !! k.
Proof. destruct d; simpl; case_decide; subst; simplify_map_eq; done. Qed.

Lemma hash_item_ok m d : item_true m d → hash_diff_item (from_state m) d = from_state (apply_item m d).
Proof.
  destruct d as [k id|[k old] [k' new]|k id]; simpl; intros Hd.
  - by rewrite from_state_insert_new.
  - by rewrite from_state_insert, Hd.
  - by rewrite (from_state_delete _ _ id).
Qed.

Lemma hash_items_ok ds m :
  NoDup (item_key <$> ds) → Forall (item_true m) ds →
  foldl hash_diff_item (from_state m) ds = from_state (foldl apply_item m ds).
Proof.
  revert m. induction ds as [|d ds IH]; intros m Hnd Ht; simpl; [done|].
  apply NoDup_cons in Hnd as [Hni Hnd]. apply Forall_cons in Ht as [Hd Ht].
  rewrite hash_item_ok by done. apply IH; [done|]. rewrite Forall_forall in Ht |- *. intros d' Hd'.
  assert (item_key d' ≠ item_key d) as Hne.
  { intros Heq. apply Hni. rewrite <-Heq. apply list_elem_of_fmap. by exists d'. }
  specialize (Ht d' Hd'). destruct d' as [k id|[k old] [k' new]|k id]; simpl in *;
    rewrite apply_item_lookup, decide_False; done.
Qed.

Lemma apply_items_lookup ds m k :
  NoDup (item_key <$> ds) →
  (∀ d, d ∈ ds → item_key d = k → foldl apply_item m ds !! k = item_new d)
  ∧ (k ∉ item_key <$> ds → foldl apply_item m ds !! k = m !! k).
Proof.
  revert m. induction ds as [|d ds IH]; intros m Hnd; simpl; [split; [intros ? ?%elem_of_nil; done|done]|].
  apply NoDup_cons in Hnd as [Hni Hnd]. destruct (IH (apply_item m d) Hnd) as [IH1 IH2]. split.
  - intros d' [->|Hd']%elem_of_cons <-; [|by apply IH1].
    rewrite (proj2 (IH _ Hnd)) by done. by rewrite apply_item_lookup, decide_True.
  - intros [Hk Hk']%not_elem_of_cons. rewrite IH2 by done. by rewrite apply_item_lookup, decide_False.
Qed.

Lemma state_iter_sorted m : OrdMapProps.sorted (state_iter m).
Proof.
  assert (NoDup (state_iter m).*1) as Hnd by (rewrite state_iter_perm; apply NoDup_fst_map_to_list).
  pose proof (sort_by_sorted fst (cmp_pair String.compare String.compare) (map_to_list m)) as Hs.
  unfold state_iter in *. revert Hnd Hs. generalize (sort_by (cmp_on fst (cmp_pair String.compare String.compare)) (map_to_list m)).
  intros l Hnd Hs. unfold OrdMapProps.sorted. induction Hs as [|e l Hs IH Hall]; [constructor|].
  rewrite fmap_cons in Hnd. apply NoDup_cons in Hnd as [Hni Hnd]. constructor; [by apply IH|].
  rewrite Forall_forall in *. intros e' He'. specialize (Hall e' He'). unfold cmp_le, cmp_on in Hall.
  unfold klt. simpl. destruct (cmp_pair String.compare String.compare e.1 e'.1) eqn:E; [|done..].
  apply (cmp_eq (cmp_pair String.compare String.compare)) in E. destruct Hni. apply list_elem_of_fmap. by exists e'.
Qed.

Lemma assoc_state m k : assoc k (state_iter m) = m !! k.
Proof.
  unfold assoc. destruct (filter _ (state_iter m)) as [|[k' id] l] eqn:E; simpl.
  - destruct (m !! k) as [id|] eqn:Em; [|done]. apply elem_of_state_iter in Em.
    assert ((k, id) ∈ filter (λ e, ord_cmp e.1 k = Eq) (state_iter m)) as Hin.
    { apply list_elem_of_filter. split; [|done]. apply (cmp_refl ord_cmp). }
    rewrite E in Hin. by apply elem_of_nil in Hin.
  - assert ((k', id) ∈ filter (λ e, ord_cmp e.1 k = Eq) (state_iter m)) as Hin by (rewrite E; left).
    apply list_elem_of_filter in Hin as [Hk%(cmp_eq ord_cmp) Hin]. simpl in Hk. subst k'.
    symmetry. by apply elem_of_state_iter.
Qed.

Lemma elem_of_state_diff m m' d :
  d ∈ state_diff_items m m' ↔ ∃ k, diff_at k (m !! k) (m' !! k) = Some d.
Proof.
  unfold state_diff_items. rewrite list_diff_elem by apply state_iter_sorted. unfold differs.
  by setoid_rewrite assoc_state.
Qed.

Lemma state_diff_keys m m' : NoDup (item_key <$> state_diff_items m m').
Proof.
  pose proof (list_diff_sorted _ _ (state_iter_sorted m) (state_iter_sorted m')) as Hs. unfold state_diff_items.
  induction Hs as [|k l Hs IH Hall]; constructor; [|done]. intros Hin. rewrite Forall_forall in Hall.
  specialize (Hall _ Hin). unfold klt in Hall. by rewrite (cmp_refl ord_cmp) in Hall.
Qed.

Lemma diff_at_true m m' d : d ∈ state_diff_items m m' → item_true m d ∧ m' !! item_key d = item_new d.
Proof.
  intros (k & Hd)%elem_of_state_diff. unfold diff_at in Hd.
  destruct (m !! k) eqn:E1, (m' !! k) eqn:E2; try case_decide; simplify_eq/=; done.
Qed.

Lemma not_in_diff m m' k : k ∉ item_key <$> state_diff_items m m' → m !! k = m' !! k.
Proof.
  intros Hk. destruct (diff_at k (m !! k) (m' !! k)) as [d|] eqn:Hd.
  - destruct Hk. apply list_elem_of_fmap. exists d. split; [by erewrite diff_at_key|]. apply elem_of_state_diff. by exists k.
  - unfold diff_at in Hd. repeat case_match; try case_decide; simplify_eq; congruence.
Qed.

(** Following the diff from a state's hash reaches the other state's. *)
Lemma hash_follows_diff m m' :
  foldl hash_diff_item (from_state m) (state_diff_items m m') = from_state m'.
Proof.
  rewrite hash_items_ok.
  - f_equal. apply map_eq. intros k.
    destruct (apply_items_lookup (state_diff_items m m') m k (state_diff_keys m m')) as [Hin Hout].
    destruct (decide (k ∈ item_key <$> state_diff_items m m')) as [Hk|Hk]; [|rewrite Hout by done; by apply not_in_diff].
    apply list_elem_of_fmap in Hk as (d & -> & Hd). rewrite (Hin d Hd eq_refl). by destruct (diff_at_true _ _ _ Hd).
  - apply state_diff_keys.
  - apply Forall_forall. intros d Hd. by destruct (diff_at_true _ _ _ Hd).
Qed.

(** ** Hashed states *)

Definition hash_ok (s : HashedState Id) : Prop := hashed_hash s = from_state (hashed_state s).

Lemma hash_ok_new : hash_ok HashedState_new.
Proof. unfold hash_ok. simpl. by rewrite from_state_empty. Qed.

Lemma hash_ok_insert (s : HashedState Id) k id : hash_ok s → hash_ok (HashedState_insert s k id).
Proof.
  unfold hash_ok, HashedState_insert. simpl. intros ->. rewrite from_state_insert. by destruct (hashed_state s !! k).
Qed.
End hash_lemmas.

(** ** Encoded records *)

Lemma le32_inj n m : (n < 4294967296)%N → (m < 4294967296)%N → le32 n = le32 m → n = m.
Proof.
  intros Hn Hm. unfold le32. intros [H1 H2]%app_inj_1; [|done].
  apply le16_inj in H1; [|by apply N.mod_lt..].
  apply le16_inj in H2; [|by apply N.Div0.div_lt_upper_bound..].
  rewrite (N.div_mod n 65536), (N.div_mod m 65536) by done. by rewrite H1, H2.
Qed.

Lemma puts_inj (l l' : list string) (r r' : bytes) :
  length l = length l' → Forall fits l → Forall fits l' → (l ≫= put) ++ r = (l' ≫= put) ++ r' → l = l' ∧ r = r'.
Proof.
  revert l'. induction l as [|s l IH]; intros [|s' l'] Hl Hf Hf' E; simpl in *; try done.
  apply Forall_cons in Hf as [Hs Hf], Hf' as [Hs' Hf']. rewrite <-!(assoc_L (++)) in E.
  apply put_app_inj in E as [-> E]; [|done..]. apply IH in E as [-> ->]; [done|lia|done..].
Qed.

(** An id list a record can hold. *)
Definition ids_fit (l : list string) : Prop := Forall fits l ∧ (N.of_nat (length l) ≤ 4294967295)%N.

Lemma put_ids_inj l l' (r r' : bytes) :
  ids_fit l → ids_fit l' → put_ids l ++ r = put_ids l' ++ r' → l ≡ₚ l' ∧ r = r'.
Proof.
  intros [Hf Hn] [Hf' Hn']. unfold put_ids. rewrite <-!(assoc_L (++)). intros [Hc E]%app_inj_1; [|done].
  unfold saturated_u32 in Hc. apply le32_inj in Hc; [|lia..].
  assert (∀ l, length (sort_by String.compare l) = length l) as Hlen by (intros; by rewrite sort_by_perm).
  apply puts_inj in E as [E ->].
  - split; [|done]. by rewrite <-(sort_by_perm String.compare l), E, sort_by_perm.
  - rewrite !Hlen in *. lia.
  - by rewrite sort_by_perm.
  - by rewrite sort_by_perm.
Qed.

Lemma put_ids_perm l l' : l ≡ₚ l' → put_ids l = put_ids l'.
Proof.
  intros Hp. unfold put_ids. f_equal; [by rewrite !sort_by_perm, Hp|]. f_equal. by apply (sort_by_perm_eq id String.compare).
Qed.

Definition record_fits (r : ResolutionInputRecord) : Prop :=
  fits (rec_event_id r) ∧ fits (rec_event_type r) ∧ fits (rec_state_key r)
  ∧ ids_fit (rec_auth_events r) ∧ ids_fit (rec_state_predecessors r).

(** The same record up to the order of its edges. *)
Definition same_record (r r' : ResolutionInputRecord) : Prop :=
  rec_event_id r = rec_event_id r' ∧ rec_event_type r = rec_event_type r' ∧ rec_state_key r = rec_state_key r'
  ∧ rec_auth_events r ≡ₚ rec_auth_events r' ∧ rec_state_predecessors r ≡ₚ rec_state_predecessors r'.

Lemma encode_inj r r' : record_fits r → record_fits r' → encode r = encode r' → same_record r r'.
Proof.
  intros (H1 & H2 & H3 & H4 & H5) (H1' & H2' & H3' & H4' & H5') E. unfold encode in E.
  apply put_app_inj in E as [E1 E]; [|done..]. apply put_app_inj in E as [E2 E]; [|done..].
  apply put_app_inj in E as [E3 E]; [|done..]. apply put_ids_inj in E as [E4 E]; [|done..].
  rewrite <-(app_nil_r (put_ids (rec_state_predecessors r))), <-(app_nil_r (put_ids (rec_state_predecessors r'))) in E.
  apply put_ids_inj in E as [E5 _]; done.
Qed.

Lemma encode_same r r' : same_record r r' → encode r = encode r'.
Proof.
  intros (H1 & H2 & H3 & H4 & H5). unfold encode. rewrite H1, H2, H3.
  by rewrite (put_ids_perm _ _ H4), (put_ids_perm _ _ H5).
Qed.

(** ** The theorems *)

(** Two entries, two fields and two records that a room can hold are hashed on
    different inputs when they differ, records up to the order of their edges;
    so no two of them share their lanes by construction. *)
Theorem hash_inputs_injective (tag : bytes) (t k id t' k' id' v v' : string) (r r' : ResolutionInputRecord) :
  fits t → fits t' → fits k → fits k' → fits v → fits v' → record_fits r → record_fits r' →
  (entry_input tag t k id = entry_input tag t' k' id' → t = t' ∧ k = k' ∧ id = id')
  ∧ (field_input tag k v = field_input tag k' v' → k = k' ∧ v = v')
  ∧ (bytes_input tag (encode r) = bytes_input tag (encode r') ↔ same_record r r').
Proof.
  intros Ht Ht' Hk Hk' Hv Hv' Hr Hr'. split_and!.
  - by apply entry_input_inj.
  - by apply field_input_inj.
  - unfold bytes_input. split; [intros E%app_inv_head; by apply encode_inj|intros E; by rewrite (encode_same r r')].
Qed.

(** A lattice reads back from its bytes, and a byte string is accepted exactly
    when it has the length of a lattice, whose bytes it then is. *)
Theorem lattice_bytes_roundtrip (LANES : nat) (hash : list N) (b : bytes) :
  (N.of_nat LANES * 2 ≤ USIZE_MAX)%N → lattice_wf LANES hash →
  Lattice.from_bytes LANES (Lattice.to_bytes hash) = Some hash
  ∧ match Lattice.from_bytes LANES b with
    | Some h => lattice_wf LANES h ∧ Lattice.to_bytes h = b
    | None => length b ≠ (LANES * 2)%nat
    end.
Proof.
  intros Hl [Hlen Hw]. unfold Lattice.from_bytes, Lattice.to_bytes, Lattice.byte_length.
  unfold USIZE_MAX in Hl. rewrite N.mod_small by lia. split.
  - rewrite length_lane_bytes, Hlen, (proj2 (N.eqb_eq _ _)) by lia.
    by rewrite pairs_lane_bytes, take_ge, Hlen, Nat.sub_diag, app_nil_r by (done || lia).
  - destruct (N.eqb_spec (N.of_nat (length b)) (N.of_nat LANES * 2)) as [E|E]; [|lia].
    destruct (lane_bytes_pairs b LANES ltac:(lia)) as (Hb & Hn & Hw').
    rewrite take_ge, Hn, Nat.sub_diag, app_nil_r by lia. by split_and!.
Qed.

(** The hash carried along by insertions and by following a diff is the hash
    computed from the state, whatever the order in which the state was built. *)
Theorem state_hash_incremental {Id} `{EventId Id} `{Blake3} (entries : list ((string * string) * Id))
    (other : gmap (string * string) Id) :
  let s := foldl (λ s e, HashedState_insert s e.1 e.2) HashedState_new entries in
  hashed_state s = foldl (λ m e, <[e.1 := e.2]> m) ∅ entries
  ∧ hashed_hash s = from_state (hashed_state s)
  ∧ foldl hash_diff_item (hashed_hash s) (state_diff_items (hashed_state s) other) = from_state other.
Proof.
  intros s. assert (hashed_state s = foldl (λ m e, <[e.1 := e.2]> m) ∅ entries ∧ hash_ok s) as [Hs Hok].
  { unfold s. induction entries as [|e l IH] using rev_ind; [split; [done|apply hash_ok_new]|].
    rewrite !foldl_app. simpl. destruct IH as [-> IH]. split; [done|by apply hash_ok_insert]. }
  split_and!; [done|exact Hok|]. unfold hash_ok in Hok. rewrite Hok. apply hash_follows_diff.
Qed.
