(* ===== verification/StateAt.v ===== *)
(** * The state at an event ([src/src/state/at.rs])

    The streaming pipelines that walk the [prev_events] graph below a set of
    target events in topological order, merge the states of an event's parents
    at forks, and report the state after each target: the plain pipeline, the
    optimized one, which carries a hash with each state and reports unchanged
    states by reference, and their entry points.

    Vectors are lists whose indexing panics out of range ([None]). State keys
    are strings. The caller's callback is a function of the event, what is
    reported and the caller's own state [W]. The two caches threaded through a
    traversal are a [ForkResolveCaches]. *)
From stdpp Require Import prelude gmap strings sorting.
From Stdlib Require String.
From S2P Require Import Prelude Dense EventTypes Json JsonText Events Reachability JsonContent Auth Samples Sorting Subgraph AuthDiff Kahn Mainline LocalAuth Iterative OrdMap OrdMapWalk StateDiff Multi LtHash StateHash.

(** [StateComputationError]. *)
Inductive StateComputationError (E : Type) : Type :=
| CycleDetected
| Callback (e : E).
Arguments CycleDetected {E}.
Arguments Callback {E} e.

(** [StateUpdate]. *)
Inductive StateUpdate (Id : Type) `{EventId Id} : Type :=
| New (state : gmap (string * string) Id) (hash : list N)
| Unchanged (parent_event_id : Id) (hash : list N).
Arguments New {Id _} state hash.
Arguments Unchanged {Id _} parent_event_id hash.

Section updates.
Context {Id : Type} `{EventId Id} `{Blake3}.

(** [into_state]: panics when the parent's state is not available. *)
Definition into_state (u : StateUpdate Id) (get_parent_state : Id → option (gmap (string * string) Id))
    : option (gmap (string * string) Id) :=
  match u with
  | New state _ => Some state
  | Unchanged parent_event_id _ => get_parent_state parent_event_id
  end.
Definition lattice (u : StateUpdate Id) : list N :=
  match u with New _ hash | Unchanged _ hash => hash end.
Definition digest (u : StateUpdate Id) : bytes := Lattice.digest (lattice u).
End updates.

(** [v[i] = f(v[i])]: out of range it panics. *)
Definition vec_alter {A} (v : list A) (i : nat) (f : A → A) : option (list A) :=
  x ←! v !! i; vec_set v i (f x).

Section state_at.
Context {Id C : Type} `{EventId Id} `{EventContent C} `{Ho : HashOrder}.
Abbreviation event := (LeanEvent Id C).
Abbreviation key := (string * string)%type.
Abbreviation event_map := (gmap Id event).
Abbreviation shared_state := (gmap key Id).
Implicit Types (ev : event) (version : StateResVersion) (events_map : event_map) (ix : DenseIndex Id).

(** The iteration order of a [HashSet]. *)
Definition hs_iter {A} `{Countable A} (s : gset A) : list A := hm_keys (gset_to_gmap tt s).

(** ** The ancestors of the targets *)

(** One previous event: what is queued, what is seen. *)
Definition collect_prev events_map (s : list Id * gset Id) (pe : Id) : list Id * gset Id :=
  match events_map !! pe with
  | None => s
  | Some _ => if decide (pe ∈ s.2) then s else (s.1 ++ [pe], {[pe]} ∪ s.2)
  end.

Definition collect_body events_map (current_id : Id) (s : list Id * gset Id) : loop_step Id (list Id * gset Id) :=
  match events_map !! current_id with
  | None => Push s []
  | Some ev =>
      let '(new, seen) := foldl (collect_prev events_map) ([], s.2) (prev_events ev) in
      Push (s.1 ++ new, seen) new
  end.

Definition push_target (s : list Id * gset Id) (tid : Id) : list Id * gset Id :=
  if decide (tid ∈ s.2) then s else (s.1 ++ [tid], {[tid]} ∪ s.2).

Definition collect_ancestor_short_ids_batch (target_event_ids : list Id) events_map : option (DenseIndex Id) :=
  let s := foldl push_target ([], ∅) target_event_ids in
  '(index_to_id, _) ←! drain (collect_body events_map) (length target_event_ids + size events_map) s.1 s;
  match try_build granted Idx_usize index_to_id with Ok ix => Some ix | Err _ => None end.

(** ** The topological order *)

Record Degrees : Type := mkDegrees {
  in_degree : list N;
  adjacency : list (list nat);
  out_degree : list N
}.

(** The guard against repeated parents, used when there is more than one. *)
Definition parent_dedup_set (prev_events_len : nat) : option (gset nat) :=
  if 1 <? prev_events_len then Some ∅ else None.
Definition already_seen (seen : option (gset nat)) (p : nat) : bool :=
  match seen with Some s => bool_decide (p ∈ s) | None => false end.
Definition mark_seen (seen : option (gset nat)) (p : nat) : option (gset nat) :=
  match seen with Some s => Some ({[p]} ∪ s) | None => None end.

Definition count_edge (i p : nat) (d : Degrees) : option Degrees :=
  ins ←! vec_alter (in_degree d) i (λ n, usize_saturating_add n 1);
  adj ←! vec_alter (adjacency d) p (λ l, l ++ [i]);
  outs ←! vec_alter (out_degree d) p (λ n, usize_saturating_add n 1);
  Some (mkDegrees ins adj outs).

Definition count_parent ix (i : nat) (s : Degrees * option (gset nat)) (parent : Id)
    : option (Degrees * option (gset nat)) :=
  match index_of ix parent with
  | None => Some s
  | Some p =>
      if already_seen s.2 p then Some s
      else d ←! count_edge i p s.1; Some (d, mark_seen s.2 p)
  end.

Definition count_node ix events_map (d : Degrees) (node : nat * Id) : option Degrees :=
  match events_map !! node.2 with
  | None => Some d
  | Some ev =>
      '(d, _) ←! try_fold (count_parent ix node.1) (prev_events ev)
        (d, parent_dedup_set (length (prev_events ev)));
      Some d
  end.

Definition count_degrees ix events_map : option Degrees :=
  let n := Dense.len ix in
  try_fold (count_node ix events_map) (imap pair (items ix))
    (mkDegrees (replicate n 0%N) (replicate n []) (replicate n 0%N)).

(** One child of the popped node: the in-degrees and what is queued. *)
Definition release_child (s : list N * list nat) (child_idx : nat) : option (list N * list nat) :=
  in_degree ←! vec_alter s.1 child_idx (λ n, usize_saturating_sub n 1);
  deg ←! in_degree !! child_idx;
  Some (in_degree, if (deg =? 0)%N then s.2 ++ [child_idx] else s.2).

Definition sort_body (adjacency : list (list nat)) (idx : nat) (s : list N * list nat)
    : option (loop_step nat (list N * list nat)) :=
  children ←! adjacency !! idx;
  '(in_degree, new) ←! try_fold release_child children (s.1, []);
  Some (Push (in_degree, s.2 ++ [idx]) new).

Definition roots (in_degree : list N) : list nat :=
  omap (λ i, if (i.2 =? 0)%N then Some i.1 else None) (imap pair in_degree).

Definition topological_sort_short_ids ix events_map : option (list nat * list N) :=
  d ←! count_degrees ix events_map;
  '(_, sorted_ancestors) ←! try_drain (sort_body (adjacency d)) (Dense.len ix) (roots (in_degree d)) (in_degree d, []);
  Some (sorted_ancestors, out_degree d).

(** [checked_topological_plan_or_cycle]; the outer option is a panic. *)
Definition checked_topological_plan {E : Type} ix events_map : option (result (list nat * list N) (StateComputationError E)) :=
  '(sorted_ancestors, outs) ←! topological_sort_short_ids ix events_map;
  Some (if length sorted_ancestors =? Dense.len ix then Ok (sorted_ancestors, outs) else Err CycleDetected).

(** ** The states of an event's parents *)

Section slots.
Context {T : Type}.

Definition take_finalized_parent (pe_idx : nat) (outs : list N) (state_after_map : list (option T))
    (prev_states : list T) : option (list N * list (option T) * list T) :=
  outs ←! vec_alter outs pe_idx (λ n, usize_saturating_sub n 1);
  deg ←! outs !! pe_idx;
  slot ←! state_after_map !! pe_idx;
  if (deg =? 0)%N then
    slots ←! vec_set state_after_map pe_idx None;
    Some (outs, slots, match slot with Some s => prev_states ++ [s] | None => prev_states end)
  else Some (outs, state_after_map, match slot with Some s => prev_states ++ [s] | None => prev_states end).

Definition take_parent ix (s : list N * list (option T) * list T * option (gset nat)) (pe : Id)
    : option (list N * list (option T) * list T * option (gset nat)) :=
  let '(outs, slots, prev_states, seen) := s in
  match index_of ix pe with
  | None => Some s
  | Some p =>
      if already_seen seen p then Some s
      else
        deg ←! outs !! p;
        if (deg =? 0)%N then Some (outs, slots, prev_states, mark_seen seen p)
        else r ←! take_finalized_parent p outs slots prev_states; Some (r, mark_seen seen p)
  end.

Definition finalized_parent_states (prev : list Id) ix (outs : list N) (slots : list (option T))
    : option (list N * list (option T) * list T) :=
  '(r, _) ←! try_fold (take_parent ix) prev (outs, slots, [], parent_dedup_set (length prev));
  Some r.

Definition retain_state_for_children (slots : list (option T)) (outs : list N) (idx : nat) (state : T)
    : option (list (option T)) :=
  deg ←! outs !! idx;
  if (0 <? deg)%N then vec_set slots idx (Some state) else Some slots.
End slots.

(** ** Merging at a fork *)

Definition conflicts_of_item (s : gset key * gset Id) (d : DiffItem key Id) : gset key * gset Id :=
  match d with
  | Add k v | Remove k v => ({[k]} ∪ s.1, {[v]} ∪ s.2)
  | Update old new => ({[old.1]} ∪ s.1, {[new.2]} ∪ ({[old.2]} ∪ s.2))
  end.

Definition insert_known events_map (conflicted_events : event_map) (id : Id) : event_map :=
  match events_map !! id with
  | Some ev => <[id := ev]> conflicted_events
  | None => conflicted_events
  end.

(** The state-map auth difference, for versions after V1. *)
Definition merge_auth_difference events_map version (unconflicted_state : shared_state)
    (prev_states : list shared_state) (conflicted_state_set : gset Id) : option (list Id) :=
  if version_eqb version V1 then Some []
  else
    match auth_difference (context_auth events_map) (size events_map) unconflicted_state prev_states
            (hs_iter conflicted_state_set) tt with
    | Some (Ok auth_diff, _) => Some auth_diff
    | _ => None
    end.

Definition resolve_merged_parent_states (prev_states : list shared_state) events_map version
    (caches : ForkResolveCaches (Id:=Id) (C:=C)) : option (shared_state * ForkResolveCaches (Id:=Id) (C:=C)) :=
  match prev_states with
  | [] => Some (∅, caches)
  | first :: rest =>
      if (length prev_states =? 1) || bool_decide (Forall (λ state, first = state) rest) then Some (first, caches)
      else
        let '(conflicted_keys, conflicted_state_set) :=
          foldl (λ s other, foldl conflicts_of_item s (state_diff_items first other)) (∅, ∅) rest in
        let unconflicted_state := foldl (λ m k, delete k m) first (hs_iter conflicted_keys) in
        let conflicted_events := foldl (insert_known events_map) ∅ (hs_iter conflicted_state_set) in
        auth_diff ←! merge_auth_difference events_map version unconflicted_state prev_states conflicted_state_set;
        let conflicted_events := foldl (insert_known events_map) conflicted_events auth_diff in
        '(resolved, cache, mainline) ←!
          resolve_iterative_sort_with_all_caches unconflicted_state conflicted_events events_map version
            (Some (auth_cache caches)) (mainline_cache caches) conflicted_keys;
        Some (resolved, mkForkCaches cache mainline)
  end.

Definition record_own_state (state : shared_state) ev : shared_state :=
  match accepted_state_key ev with
  | Some sk => <[key_of (EventType_from (event_type ev)) sk := event_id ev]> state
  | None => state
  end.

(** [resolve_merge_fast_path_hashed_with_cache]: the same merge on hashed
    states; equal hashes are compared first, the states decide. *)
Definition resolve_merge_fast_path_hashed_with_cache `{Blake3} (prev_states : list (HashedState Id)) events_map version
    (caches : ForkResolveCaches (Id:=Id) (C:=C)) : option (HashedState Id * ForkResolveCaches (Id:=Id) (C:=C)) :=
  match prev_states with
  | [] => None
  | first :: rest =>
      if bool_decide (Forall (λ s, hashed_hash first = hashed_hash s ∧ hashed_state first = hashed_state s) rest)
      then Some (first, caches)
      else
        '(resolved, caches) ←! resolve_merged_parent_states (hashed_state <$> prev_states) events_map version caches;
        Some (mkHashed resolved
          (foldl hash_diff_item (hashed_hash first) (state_diff_items (hashed_state first) resolved)), caches)
  end.

Definition resolve_merge_fast_path_hashed `{Blake3} (prev_states : list (HashedState Id)) events_map
    (global_auth_cache : LocalAuthCache Id C) version : option (HashedState Id * LocalAuthCache Id C) :=
  '(s, caches) ←!
    resolve_merge_fast_path_hashed_with_cache prev_states events_map version (mkForkCaches global_auth_cache ∅);
  Some (s, auth_cache caches).

(** ** The pipelines *)

(** [PipelineRun]. *)
Record PipelineRun : Type := mkRun {
  run_index : DenseIndex Id;
  run_is_target : list bool;
  run_events_map : event_map;
  run_version : StateResVersion
}.

(** [PipelineExecution]: the parts of it that change. *)
Record PipelineExecution (T : Type) : Type := mkExec {
  ex_out_degree : list N;
  ex_state_after_map : list (option T);
  ex_caches : ForkResolveCaches (Id:=Id) (C:=C)
}.
Arguments mkExec {T}.
Arguments ex_out_degree {T}.
Arguments ex_state_after_map {T}.
Arguments ex_caches {T}.

Definition prepare_execution (T : Type) {E : Type} (run : PipelineRun)
    : option (result (list nat * PipelineExecution T) (StateComputationError E)) :=
  plan ←! checked_topological_plan (run_index run) (run_events_map run);
  match plan with
  | Ok (sorted_ancestors, outs) =>
      Some (Ok (sorted_ancestors, mkExec outs (replicate (Dense.len (run_index run)) None)
        (ForkResolveCaches_new (run_version run))))
  | Err e => Some (Err e)
  end.

(** The event at [idx] and its parents' states. *)
Definition finalized_parents {T : Type} (run : PipelineRun) (exec : PipelineExecution T) (idx : nat)
    : option (event * list T * PipelineExecution T) :=
  id_val ←! items (run_index run) !! idx;
  ev ←! run_events_map run !! id_val;
  '(outs, slots, prev_states) ←!
    finalized_parent_states (prev_events ev) (run_index run) (ex_out_degree exec) (ex_state_after_map exec);
  Some (ev, prev_states, mkExec outs slots (ex_caches exec)).

Definition retain {T : Type} (exec : PipelineExecution T) (caches : ForkResolveCaches (Id:=Id) (C:=C)) (idx : nat)
    (state : T) : option (PipelineExecution T) :=
  slots ←! retain_state_for_children (ex_state_after_map exec) (ex_out_degree exec) idx state;
  Some (mkExec (ex_out_degree exec) slots caches).

(** Calling back when [idx] is a target. *)
Definition report {R W E : Type} (run : PipelineRun) (on_target : Id → R → W → result unit E * W) (idx : nat) (r : R)
    (w : W) : option (result unit E * W) :=
  is_target ←! run_is_target run !! idx;
  if (is_target : bool) then id ←! items (run_index run) !! idx; Some (on_target id r w) else Some (Ok tt, w).

(** The loop over the sorted ancestors, left at the first failed callback. *)
Fixpoint run_loop {X W E : Type} (step : X → W → nat → option (result X E * W)) (sorted_ancestors : list nat)
    (exec : X) (w : W) : option (result unit (StateComputationError E) * W) :=
  match sorted_ancestors with
  | [] => Some (Ok tt, w)
  | idx :: sorted_ancestors =>
      match step exec w idx with
      | Some (Ok exec, w) => run_loop step sorted_ancestors exec w
      | Some (Err e, w) => Some (Err (Callback e), w)
      | None => None
      end
  end.

Definition run_prepared {T W E : Type} (run : PipelineRun)
    (step : PipelineExecution T → W → nat → option (result (PipelineExecution T) E * W)) (w : W)
    : option (result unit (StateComputationError E) * W) :=
  prepared ←! prepare_execution T run;
  match prepared with
  | Ok (sorted_ancestors, exec) => run_loop step sorted_ancestors exec w
  | Err e => Some (Err e, w)
  end.

Definition plain_step {W E : Type} (run : PipelineRun) (on_target : Id → shared_state → W → result unit E * W)
    (exec : PipelineExecution shared_state) (w : W) (idx : nat)
    : option (result (PipelineExecution shared_state) E * W) :=
  '(ev, prev_states, exec) ←! finalized_parents run exec idx;
  '(state_before, caches) ←!
    resolve_merged_parent_states prev_states (run_events_map run) (run_version run) (ex_caches exec);
  let state_before := record_own_state state_before ev in
  '(r, w) ←! report run on_target idx state_before w;
  match r with
  | Err e => Some (Err e, w)
  | Ok _ => exec ←! retain exec caches idx state_before; Some (Ok exec, w)
  end.

Definition run_plain {W E : Type} (run : PipelineRun) (on_target : Id → shared_state → W → result unit E * W) (w : W)
    : option (result unit (StateComputationError E) * W) :=
  run_prepared run (plain_step run on_target) w.

(** The state to which an event's own entry is added, for the optimized
    pipeline, when the state is not simply inherited. *)
Definition state_before_optimized `{Blake3} (run : PipelineRun) (prev_states : list (HashedState Id))
    (caches : ForkResolveCaches (Id:=Id) (C:=C)) : option (HashedState Id * ForkResolveCaches (Id:=Id) (C:=C)) :=
  match prev_states with
  | [] => Some (HashedState_new, caches)
  | [parent_state] => Some (parent_state, caches)
  | _ => resolve_merge_fast_path_hashed_with_cache prev_states (run_events_map run) (run_version run) caches
  end.

(** The parent an unchanged state is inherited from. *)
Definition indexed_parent (run : PipelineRun) ev : option Id :=
  head (filter (λ pe, is_Some (index_of (run_index run) pe)) (prev_events ev)).

Definition optimized_step `{Blake3} {W E : Type} (run : PipelineRun)
    (on_target : Id → StateUpdate Id → W → result unit E * W)
    (exec : PipelineExecution (HashedState Id)) (w : W) (idx : nat)
    : option (result (PipelineExecution (HashedState Id)) E * W) :=
  '(ev, prev_states, exec) ←! finalized_parents run exec idx;
  match prev_states, state_key ev with
  | [parent_state], None =>
      is_target ←! run_is_target run !! idx;
      '(r, w) ←! (if (is_target : bool) then
                    id ←! items (run_index run) !! idx;
                    parent_event_id ←! indexed_parent run ev;
                    Some (on_target id (Unchanged parent_event_id (hashed_hash parent_state)) w)
                  else Some (Ok tt, w));
      match r with
      | Err e => Some (Err e, w)
      | Ok _ => exec ←! retain exec (ex_caches exec) idx parent_state; Some (Ok exec, w)
      end
  | _, _ =>
      '(state_before, caches) ←! state_before_optimized run prev_states (ex_caches exec);
      let state_before :=
        match accepted_state_key ev with
        | Some sk => HashedState_insert state_before (key_of (EventType_from (event_type ev)) sk) (event_id ev)
        | None => state_before
        end in
      '(r, w) ←! report run on_target idx (New (hashed_state state_before) (hashed_hash state_before)) w;
      match r with
      | Err e => Some (Err e, w)
      | Ok _ => exec ←! retain exec caches idx state_before; Some (Ok exec, w)
      end
  end.

Definition run_optimized `{Blake3} {W E : Type} (run : PipelineRun)
    (on_target : Id → StateUpdate Id → W → result unit E * W) (w : W)
    : option (result unit (StateComputationError E) * W) :=
  run_prepared run (optimized_step run on_target) w.

(** ** Entry points *)

Record StreamingInputs : Type := mkInputs {
  target_event_ids : list Id;
  si_events_map : event_map;
  si_version : StateResVersion
}.

(** The distinct targets that are present. *)
Definition actual_target events_map (s : list Id * gset Id) (tid : Id) : list Id * gset Id :=
  match events_map !! tid with
  | None => s
  | Some _ => if decide (tid ∈ s.2) then s else (s.1 ++ [tid], {[tid]} ∪ s.2)
  end.
Definition actual_target_ids (targets : list Id) events_map : list Id :=
  (foldl (actual_target events_map) ([], ∅) targets).1.

Definition mark_target ix (is_target : list bool) (tid : Id) : option (list bool) :=
  match index_of ix tid with
  | Some idx => vec_set is_target idx true
  | None => Some is_target
  end.

(** [with_target_index]: the inner option is its [None]. *)
Definition with_target_index {R : Type} (targets : list Id) events_map (f : DenseIndex Id → list bool → option R)
    : option (option R) :=
  match actual_target_ids targets events_map with
  | [] => Some None
  | actual =>
      index ←! collect_ancestor_short_ids_batch actual events_map;
      is_target ←! try_fold (mark_target index) actual (replicate (Dense.len index) false);
      r ←! f index is_target; Some (Some r)
  end.

Definition with_pipeline_run {W E : Type} (inputs : StreamingInputs) (w : W)
    (run : PipelineRun → option (result unit (StateComputationError E) * W))
    : option (result unit (StateComputationError E) * W) :=
  r ←! with_target_index (target_event_ids inputs) (si_events_map inputs)
         (λ index is_target, run (mkRun index is_target (si_events_map inputs) (si_version inputs)));
  Some (match r with Some r => r | None => (Ok tt, w) end).

Definition try_compute {W E : Type} (inputs : StreamingInputs) (on_target : Id → shared_state → W → result unit E * W)
    (w : W) : option (result unit (StateComputationError E) * W) :=
  with_pipeline_run inputs w (λ run, run_plain run on_target w).

Definition try_compute_optimized `{Blake3} {W E : Type} (inputs : StreamingInputs)
    (on_target : Id → StateUpdate Id → W → result unit E * W) (w : W)
    : option (result unit (StateComputationError E) * W) :=
  with_pipeline_run inputs w (λ run, run_optimized run on_target w).

(** The infallible variants: a cycle is logged, or reported as [false]. *)
Definition compute {W : Type} (inputs : StreamingInputs) (on_target : Id → shared_state → W → W) (w : W) : option W :=
  snd <$> try_compute (E:=Empty_set) inputs (λ id state w, (Ok tt, on_target id state w)) w.

Definition compute_optimized `{Blake3} {W : Type} (inputs : StreamingInputs)
    (on_target : Id → StateUpdate Id → W → W) (w : W) : option (bool * W) :=
  '(r, w) ←! try_compute_optimized (E:=Empty_set) inputs (λ id u w, (Ok tt, on_target id u w)) w;
  Some (is_ok r, w).

Definition compute_state_at_batch (targets : list Id) events_map version : option (gmap Id shared_state) :=
  compute (mkInputs targets events_map version) (λ id state results, <[id := state]> results) ∅.

Definition compute_state_at (target : Id) events_map version : option (option shared_state) :=
  match events_map !! target with
  | None => Some None
  | Some _ => compute (mkInputs [target] events_map version) (λ _ state _, Some state) None
  end.
End state_at.
