(* ===== verification/StatePlan.v ===== *)
(** * The plan of a state computation

    What the first phases of the streaming pipelines compute: the index holds
    exactly the ancestors of the targets, the degrees count the distinct
    edges among them, and the sort lists them with every parent before its
    children, all of them exactly when the ancestors contain no cycle. *)
From stdpp Require Import prelude gmap strings sorting.
From Stdlib Require String.
From S2P Require Import Prelude Dense EventTypes Json Events Iterative StateAt.

Lemma try_fold_ext {A S} (f g : S → A → option S) l s : (∀ s x, f s x = g s x) → try_fold f l s = try_fold g l s.
Proof. intros Hfg. revert s. induction l as [|x l IH]; intros s; simpl; [done|]. rewrite Hfg. by destruct (g s x). Qed.

(** ** Vectors as functions of the index *)

Section tab.
Context {A : Type} (n : nat).
Implicit Types (f g : nat → A).

Definition tab f : list A := f <$> seq 0 n.

Lemma tab_lookup f i : i < n → tab f !! i = Some (f i).
Proof. intros Hi. unfold tab. rewrite list_lookup_fmap, lookup_seq_lt by done. done. Qed.

Lemma length_tab f : length (tab f) = n.
Proof. unfold tab. by rewrite length_fmap, length_seq. Qed.

Lemma tab_ext f g : (∀ i, i < n → f i = g i) → tab f = tab g.
Proof. intros Hfg. apply list_fmap_ext. intros i j [-> Hi]%lookup_seq. by apply Hfg. Qed.

Lemma replicate_tab x : replicate n x = tab (λ _, x).
Proof.
  apply list_eq. intros i. destruct (decide (i < n)) as [Hi|Hi]; [by rewrite lookup_replicate_2, tab_lookup by done|].
  rewrite !lookup_ge_None_2; [done|rewrite length_tab; lia|rewrite length_replicate; lia].
Qed.

Lemma vec_set_tab f i x : i < n → vec_set (tab f) i x = Some (tab (λ j, if decide (j = i) then x else f j)).
Proof.
  intros Hi. rewrite vec_set_lt by (by rewrite length_tab). f_equal. apply list_eq. intros j.
  destruct (decide (j < n)) as [Hj|Hj].
  - rewrite tab_lookup by done. case_decide as Hd; [subst; apply list_lookup_insert_eq; by rewrite length_tab|].
    rewrite list_lookup_insert_ne by done. by apply tab_lookup.
  - rewrite !lookup_ge_None_2; [done|rewrite length_tab; lia|rewrite length_insert, length_tab; lia].
Qed.

Lemma vec_alter_tab f i h : i < n → vec_alter (tab f) i h = Some (tab (λ j, if decide (j = i) then h (f j) else f j)).
Proof.
  intros Hi. unfold vec_alter. rewrite tab_lookup, vec_set_tab by done. f_equal. apply tab_ext. intros j _.
  by case_decide; subst.
Qed.
End tab.

(** A saturating counter. *)
Definition sat (k : nat) : N := N.min USIZE_MAX (N.of_nat k).
Lemma sat_S k : usize_saturating_add (sat k) 1 = sat (S k).
Proof. unfold usize_saturating_add, sat. lia. Qed.
Lemma sat_small k : (N.of_nat k ≤ USIZE_MAX)%N → sat k = N.of_nat k.
Proof. unfold sat. lia. Qed.

Section graph.
Context {Id C : Type} `{EventId Id}.
Abbreviation event_map := (gmap Id (LeanEvent Id C)).
Implicit Types (events_map : event_map).

(** The distinct previous events that are present, in order. *)
Definition parents events_map (id : Id) : list Id :=
  match events_map !! id with
  | Some ev => first_seen (filter (λ p, is_Some (events_map !! p)) (prev_events ev))
  | None => []
  end.
Definition parent_of events_map (x p : Id) : Prop := p ∈ parents events_map x.

Definition ancestor events_map (targets : list Id) (x : Id) : Prop :=
  ∃ t, t ∈ targets ∧ rtc (parent_of events_map) t x.

Lemma elem_of_parents events_map x p :
  p ∈ parents events_map x ↔ ∃ ev, events_map !! x = Some ev ∧ p ∈ prev_events ev ∧ p ∈ dom events_map.
Proof.
  unfold parents. destruct (events_map !! x) as [ev|] eqn:E; [|set_solver].
  rewrite elem_of_first_seen, list_elem_of_filter. setoid_rewrite elem_of_dom. naive_solver.
Qed.

Lemma parents_dom events_map x p : parent_of events_map x p → p ∈ dom events_map.
Proof. intros (ev & _ & _ & Hp)%elem_of_parents. done. Qed.

Lemma ancestor_dom events_map targets x :
  (∀ t, t ∈ targets → t ∈ dom events_map) → ancestor events_map targets x → x ∈ dom events_map.
Proof. intros Ht (t & Hin & Hr). apply rtc_inv_r in Hr as [->|(y & _ & Hy)]; [by apply Ht|by eapply parents_dom]. Qed.

(** ** The index *)

Section collect.
Context (events_map : event_map) (targets : list Id).
Hypothesis Htargets : ∀ t, t ∈ targets → t ∈ dom events_map.

(** The collected ids and the seen set are the same. *)
Record collected (s : list Id * gset Id) : Prop := {
  col_nodup : NoDup s.1;
  col_seen x : x ∈ s.2 ↔ x ∈ s.1;
  col_ancestor x : x ∈ s.1 → ancestor events_map targets x
}.

Lemma push_targets_spec :
  collected (foldl push_target ([], ∅) targets)
  ∧ (∀ t, t ∈ targets → t ∈ (foldl push_target ([], ∅) targets).1)
  ∧ length (foldl push_target ([], ∅) targets).1 ≤ length targets.
Proof.
  assert (∀ l, (∀ t, t ∈ l → t ∈ targets) →
    let s := foldl push_target ([], ∅) l in
    collected s ∧ (∀ t, t ∈ l → t ∈ s.1) ∧ length s.1 ≤ length l) as Hall; [|by apply Hall].
  intros l. induction l as [|t l IH] using rev_ind; intros Hl.
  { split_and!; [|set_solver|done]. split; [constructor|set_solver|set_solver]. }
  rewrite foldl_app. destruct IH as ([Hnd Hs Ha] & Hin & Hlen); [set_solver|].
  set (s := foldl push_target ([], ∅) l) in *. simpl. unfold push_target. rewrite length_app. simpl.
  case_decide as Hd; [split_and!; [done|set_solver|lia]|]. split_and!; simpl.
  - split; simpl.
    + apply NoDup_app. split_and!; [done|set_solver|apply NoDup_singleton].
    + set_solver.
    + intros x [Hx|Hx%list_elem_of_singleton]%elem_of_app; [by apply Ha|]. exists t. subst. split; [set_solver|done].
  - set_solver.
  - rewrite length_app. simpl. lia.
Qed.

(** The fold over one event's previous events. *)
Lemma collect_prevs_spec (prev : list Id) (idx : list Id) (seen : gset Id) (x : Id) :
  collected (idx, seen) → x ∈ idx → (∀ p, p ∈ prev → p ∈ dom events_map → parent_of events_map x p) →
  let r := foldl (collect_prev events_map) ([], seen) prev in
  collected (idx ++ r.1, r.2) ∧ (∀ p, p ∈ prev → p ∈ dom events_map → p ∈ r.2).
Proof.
  intros Hc Hx Hp. induction prev as [|p prev IH] using rev_ind.
  { simpl. rewrite app_nil_r. split; [done|set_solver]. }
  rewrite foldl_app. destruct IH as [[Hnd Hs Ha] Hin]; [intros; apply Hp; set_solver|].
  set (r := foldl (collect_prev events_map) ([], seen) prev) in *. simpl in *. unfold collect_prev.
  destruct (events_map !! p) as [ev|] eqn:Ep.
  2:{ split; [done|]. intros q [Hq| ->%list_elem_of_singleton]%elem_of_app Hd; [by apply Hin|].
      by apply not_elem_of_dom in Ep. }
  apply elem_of_dom_2 in Ep. case_decide as Hd; [split; [done|set_solver]|]. split.
  - simpl. rewrite (assoc_L (++)). split; simpl.
    + apply NoDup_app. split_and!; [done|set_solver|apply NoDup_singleton].
    + intros y. rewrite elem_of_union, elem_of_app, Hs. set_solver.
    + intros y [Hy|Hy%list_elem_of_singleton]%elem_of_app; [by apply Ha|]. subst y.
      destruct (Ha x) as (t & Ht & Hr); [set_solver|]. exists t. split; [done|].
      eapply rtc_r; [exact Hr|]. apply Hp; [set_solver|done].
  - simpl. set_solver.
Qed.

Lemma collected_length s : collected s → length s.1 ≤ size events_map.
Proof.
  intros [Hnd _ Ha]. rewrite <-size_dom, <-(size_list_to_set (C:=gset Id) s.1) by done.
  apply subseteq_size. intros x Hx%elem_of_list_to_set. by eapply ancestor_dom; [|apply Ha].
Qed.

Lemma collect_drain :
  ∃ s, drain (collect_body events_map) (length targets + size events_map)
      (foldl push_target ([], ∅) targets).1 (foldl push_target ([], ∅) targets) = Some s
    ∧ collected s ∧ ∀ x, ancestor events_map targets x → x ∈ s.1.
Proof.
  rewrite drain_try. destruct push_targets_spec as (Hc0 & Ht0 & Hl0).
  apply (try_drain_spec _ (λ q s, collected s ∧ (∀ t, t ∈ targets → t ∈ s.1) ∧ (∀ x, x ∈ q → x ∈ s.1)
      ∧ ∀ x p, x ∈ s.1 → x ∉ q → parent_of events_map x p → p ∈ s.1) _
    (λ q s, length q + (size events_map - length s.1))).
  - intros x q [idx seen] (Hc & Ht & Hq & Hcl). eexists. split; [done|]. split; [simpl; lia|].
    unfold collect_body. simpl. assert (x ∈ idx) as Hx by (apply Hq; left).
    destruct (events_map !! x) as [ev|] eqn:Ex.
    2:{ rewrite app_nil_r. split; [|simpl; lia]. split_and!; [done|done|set_solver|].
        intros y p Hy Hyq Hp. destruct (decide (y = x)) as [->|Hne]; [|apply (Hcl y p); set_solver].
        apply elem_of_parents in Hp as (ev & E & _). congruence. }
    pose proof (collect_prevs_spec (prev_events ev) idx seen x Hc Hx) as Hr.
    destruct Hr as [Hc' Hp']. { intros p Hp Hd. apply elem_of_parents. by exists ev. }
    destruct (foldl (collect_prev events_map) ([], seen) (prev_events ev)) as [new seen']. simpl in *.
    pose proof (collected_length _ Hc') as Hlen. simpl in Hlen. rewrite length_app in Hlen.
    split; [|rewrite !length_app; lia].
    split_and!; [done|set_solver|set_solver|]. intros y p Hy Hyq Hp.
    destruct (decide (y = x)) as [->|Hne].
    + apply elem_of_parents in Hp as (ev' & E & Hp & Hd). simplify_eq. apply (col_seen _ Hc'). by apply Hp'.
    + apply elem_of_app. left. apply (Hcl y p); [|set_solver|done]. set_solver.
  - intros s (Hc & Ht & _ & Hcl). split; [done|]. intros x (t & Hin & Hr).
    apply Ht in Hin. clear -Hr Hin Hcl. induction Hr as [|t y x Hty _ IH]; [done|].
    apply IH. by apply (Hcl t y Hin ltac:(set_solver)).
  - split_and!; [done|done|done|done].
  - pose proof (collected_length _ Hc0). lia.
Qed.

Lemma collect_batch_spec :
  (N.of_nat (size events_map) ≤ USIZE_MAX)%N →
  ∃ ix, collect_ancestor_short_ids_batch targets events_map = Some ix ∧ dense_ok Idx_usize ix
    ∧ (N.of_nat (Dense.len ix) ≤ USIZE_MAX)%N ∧ ∀ x, x ∈ items ix ↔ ancestor events_map targets x.
Proof.
  intros Hsize. unfold collect_ancestor_short_ids_batch.
  destruct collect_drain as ([idx seen] & -> & Hc & Ha). simpl in *.
  pose proof (collected_length _ Hc) as Hlen. simpl in Hlen. destruct Hc as [Hnd _ Hanc]. simpl in *.
  destruct (try_build_spec Idx_usize idx) as (ix & -> & Hok & Hit); [lia|rewrite first_seen_NoDup by done; simpl; lia|].
  exists ix. split_and!; [done|done|unfold Dense.len; rewrite Hit, first_seen_NoDup by done; lia|].
  intros x. rewrite Hit, first_seen_NoDup by done.
  split; [apply Hanc|apply Ha].
Qed.
End collect.

(** ** Distinct parents by index *)

Section dedup.
Context (ix : DenseIndex Id).

Definition distinct_parents (prev : list Id) : list nat := first_seen (omap (index_of ix) prev).

(** One step of a loop over previous events, repeated ones skipped. *)
Definition dedup_step {S} (f : S → nat → option S) (s : S * option (gset nat)) (pe : Id)
    : option (S * option (gset nat)) :=
  match index_of ix pe with
  | None => Some s
  | Some p => if already_seen s.2 p then Some s else s' ←! f s.1 p; Some (s', mark_seen s.2 p)
  end.

Lemma dedup_seen {S} (f : S → nat → option S) (prev : list Id) (s : S) :
  try_fold (dedup_step f) prev (s, Some ∅)
  = (λ s', (s', Some (list_to_set (distinct_parents prev)))) <$> try_fold f (distinct_parents prev) s.
Proof.
  induction prev as [|pe prev IH] using rev_ind; [done|].
  rewrite try_fold_app, IH. unfold distinct_parents. rewrite omap_app. simpl.
  destruct (index_of ix pe) as [p|] eqn:Ep.
  2:{ rewrite app_nil_r. destruct (try_fold f _ s); simpl; [|done]. unfold dedup_step. by rewrite Ep. }
  rewrite first_seen_snoc, try_fold_app.
  destruct (try_fold f (first_seen (omap (index_of ix) prev)) s) as [s'|]; simpl; [|done].
  unfold dedup_step. rewrite Ep. simpl. rewrite bool_decide_decide.
  destruct (decide (p ∈ list_to_set (first_seen (omap (index_of ix) prev)))) as [Hp|Hp], (decide (p ∈ omap (index_of ix) prev)) as [Hp'|Hp'];
    rewrite elem_of_list_to_set, elem_of_first_seen in Hp; try done.
  - simpl. by rewrite app_nil_r.
  - simpl. destruct (f s' p) as [s2|]; simpl; [|done]. do 3 f_equal. rewrite list_to_set_app_L. set_solver.
Qed.

(** The guard is absent only where it is not needed. *)
Lemma dedup_fold {S} (f : S → nat → option S) (prev : list Id) (s : S) :
  fst <$> try_fold (dedup_step f) prev (s, parent_dedup_set (length prev)) = try_fold f (distinct_parents prev) s.
Proof.
  destruct prev as [|pe [|pe' prev]].
  - done.
  - unfold distinct_parents, dedup_step. simpl. destruct (index_of ix pe) as [p|]; simpl; [|done]. by destruct (f s p).
  - change (parent_dedup_set _) with (Some (∅ : gset nat)). rewrite dedup_seen.
    by destruct (try_fold f _ s).
Qed.

End dedup.

(** An index of events of the map, closed under their parents. *)
Record indexed events_map (ix : DenseIndex Id) : Prop := {
  ix_dense : dense_ok Idx_usize ix;
  ix_dom x : x ∈ items ix → x ∈ dom events_map;
  ix_closed x p : x ∈ items ix → parent_of events_map x p → p ∈ items ix;
  ix_size : (N.of_nat (Dense.len ix) ≤ USIZE_MAX)%N
}.

Section index.
Context (events_map : event_map) (ix : DenseIndex Id).
Hypothesis Hix : indexed events_map ix.
Abbreviation n := (Dense.len ix).

(** The distinct parents of the node at [i]. *)
Definition par (i : nat) : list nat :=
  match items ix !! i with
  | Some x => match events_map !! x with Some ev => distinct_parents ix (prev_events ev) | None => [] end
  | None => []
  end.

Lemma NoDup_par i : NoDup (par i).
Proof. unfold par. repeat case_match; try apply NoDup_nil_2. apply NoDup_first_seen. Qed.

Lemma index_items x i : index_of ix x = Some i ↔ items ix !! i = Some x.
Proof. apply (dense_index _ _ (ix_dense _ _ Hix)). Qed.

Lemma elem_of_par i j : j ∈ par i ↔ ∃ x p, items ix !! i = Some x ∧ items ix !! j = Some p ∧ parent_of events_map x p.
Proof.
  unfold par, parent_of. setoid_rewrite elem_of_parents. destruct (items ix !! i) as [x|] eqn:Ei; [|set_solver].
  destruct (events_map !! x) as [ev|] eqn:Ex; [|naive_solver set_solver].
  unfold distinct_parents. rewrite elem_of_first_seen, list_elem_of_omap. split.
  - intros (p & Hp & Hj%index_items). exists x, p. split_and!; [done..|]. exists ev. split_and!; [done..|].
    apply (ix_dom _ _ Hix). by eapply list_elem_of_lookup_2.
  - intros (x' & p & [= <-] & Hj & ev' & E & Hp & _). simplify_eq. exists p. split; [done|]. by apply index_items.
Qed.

Lemma par_lt i j : j ∈ par i → j < n ∧ i < n.
Proof. intros (x & p & Hi & Hj & _)%elem_of_par. by split; eapply lookup_lt_Some. Qed.

Lemma parents_par x i : items ix !! i = Some x → Forall2 (λ j p, items ix !! j = Some p) (par i) (parents events_map x).
Proof.
  intros Hi. unfold par, parents. rewrite Hi. destruct (events_map !! x) as [ev|] eqn:Ex; [|constructor].
  unfold distinct_parents.
  assert (∀ l, (∀ p, p ∈ l → p ∈ prev_events ev) → Forall2 (λ j p, items ix !! j = Some p) (first_seen (omap (index_of ix) l))
    (first_seen (filter (λ p, is_Some (events_map !! p)) l))) as Hall; [|by apply Hall].
  intros l. induction l as [|p l IH] using rev_ind; intros Hl; [constructor|].
  rewrite omap_app, filter_app. simpl. rewrite filter_cons, filter_nil.
  destruct (decide (is_Some (events_map !! p))) as [Hp|Hp].
  - assert (p ∈ items ix) as [j Hj]%list_elem_of_lookup.
    { apply (ix_closed _ _ Hix x); [by eapply list_elem_of_lookup_2|]. apply elem_of_parents. exists ev.
      split_and!; [done|apply Hl; set_solver|by apply elem_of_dom]. }
    pose proof Hj as Hj'. apply index_items in Hj'. rewrite Hj', !first_seen_snoc.
    apply Forall2_app; [apply IH; set_solver|].
    assert (j ∈ omap (index_of ix) l ↔ p ∈ filter (λ p, is_Some (events_map !! p)) l) as Hiff.
    { rewrite list_elem_of_omap, list_elem_of_filter. setoid_rewrite index_items. rewrite Hj. naive_solver. }
    destruct (decide (j ∈ _)), (decide (p ∈ _)); try tauto; repeat constructor. done.
  - destruct (index_of ix p) as [j|] eqn:Ej.
    + exfalso. apply Hp, elem_of_dom, (ix_dom _ _ Hix). apply index_items in Ej. by eapply list_elem_of_lookup_2.
    + rewrite !app_nil_r. apply IH. set_solver.
Qed.
End index.
End graph.
