(* ===== verification/StateTopo.v ===== *)
(** * The topological order of a state computation

    The degree vectors count the distinct edges of the indexed graph, and the
    queue of parentless nodes lists the nodes with every parent before its
    children; it lists all of them exactly when no node is its own ancestor. *)
From stdpp Require Import prelude gmap strings sorting.
From Stdlib Require String.
From S2P Require Import Prelude Dense EventTypes Json Events Iterative StateAt StatePlan.

(** A finite set in which everything has a successor contains a cycle. *)
Lemma stuck_cycle {A} `{EqDecision A} (R : relation A) (xs : list A) :
  (∀ x, x ∈ xs → ∃ y, y ∈ xs ∧ R x y) →
  ∀ k path x, length xs ≤ length path + k → (∀ z, z ∈ path → z ∈ xs ∧ rtc R z x) → x ∈ xs → NoDup (x :: path) →
    ∃ z, z ∈ xs ∧ tc R z z.
Proof.
  intros Hs. induction k as [|k IH]; intros path x Hk Hpath Hx Hnd.
  - exfalso. assert (length (x :: path) ≤ length xs); [|simpl in *; lia].
    apply submseteq_length, NoDup_submseteq; [done|]. intros z [->|Hz]%elem_of_cons; [done|by apply Hpath].
  - destruct (Hs x Hx) as (y & Hy & HR). destruct (decide (y ∈ x :: path)) as [Hin|Hin].
    + exists y. split; [done|]. eapply tc_rtc_l; [|by apply tc_once].
      apply elem_of_cons in Hin as [->|Hin]; [done|by apply Hpath].
    + apply (IH (x :: path) y); [simpl; lia| |done|by constructor].
      intros z [->|Hz]%elem_of_cons; [split; [done|by apply rtc_once]|].
      destruct (Hpath z Hz) as [? Hr]. split; [done|by eapply rtc_r].
Qed.

Section topo.
Context {Id C : Type} `{EventId Id}.
Abbreviation event_map := (gmap Id (LeanEvent Id C)).
Context (events_map : event_map) (ix : DenseIndex Id).
Hypothesis Hix : indexed events_map ix.
Abbreviation n := (Dense.len ix).
Abbreviation par := (par events_map ix).

Lemma par_bounds i j : j ∈ par i → j < n ∧ i < n.
Proof using Hix. by apply par_lt. Qed.

(** ** Counting the edges *)

(** The children of [p] among the first [k] nodes. *)
Definition kids_below (k p : nat) : list nat := filter (λ i, p ∈ par i) (seq 0 k).
Abbreviation kids := (kids_below n).

Lemma kids_S k p : kids_below (S k) p = kids_below k p ++ (if decide (p ∈ par k) then [k] else []).
Proof. unfold kids_below. rewrite seq_S, filter_app. simpl. rewrite filter_cons, filter_nil. by case_decide. Qed.

Lemma elem_of_kids i p : i ∈ kids p ↔ p ∈ par i.
Proof using Hix.
  unfold kids_below. rewrite list_elem_of_filter, elem_of_seq. split; [by intros [? _]|].
  intros Hp. split; [done|]. apply par_bounds in Hp. lia.
Qed.

Lemma NoDup_kids k p : NoDup (kids_below k p).
Proof. apply NoDup_filter, NoDup_seq. Qed.

Definition degrees_at (k : nat) : Degrees :=
  mkDegrees (tab n (λ i, sat (if decide (i < k) then length (par i) else 0))) (tab n (kids_below k))
    (tab n (λ p, sat (length (kids_below k p)))).

(** The edges of node [k], in the middle of the loop over its parents. *)
Definition degrees_mid (k : nat) (l : list nat) : Degrees :=
  mkDegrees (tab n (λ i, sat (if decide (i = k) then length l else if decide (i < k) then length (par i) else 0)))
    (tab n (λ p, kids_below k p ++ (if decide (p ∈ l) then [k] else [])))
    (tab n (λ p, sat (length (kids_below k p) + (if decide (p ∈ l) then 1 else 0)))).

Lemma degrees_mid_nil k : degrees_mid k [] = degrees_at k.
Proof.
  unfold degrees_mid, degrees_at. f_equal; apply tab_ext; intros i Hi.
  - f_equal. repeat case_decide; try done; lia.
  - rewrite decide_False by set_solver. by rewrite app_nil_r.
  - rewrite decide_False by set_solver. by rewrite Nat.add_0_r.
Qed.

Lemma degrees_mid_full k : degrees_mid k (par k) = degrees_at (S k).
Proof.
  unfold degrees_mid, degrees_at. f_equal; apply tab_ext; intros i Hi.
  - f_equal. repeat case_decide; subst; try done; lia.
  - by rewrite kids_S.
  - f_equal. rewrite kids_S, length_app. by case_decide.
Qed.

Lemma count_edge_mid k l p : k < n → p < n → p ∉ l → count_edge k p (degrees_mid k l) = Some (degrees_mid k (l ++ [p])).
Proof.
  intros Hk Hp Hl. unfold count_edge, degrees_mid. simpl. rewrite !vec_alter_tab by done. do 2 f_equal; apply tab_ext; intros i Hi.
  - case_decide as Hd; [|done]. rewrite sat_S. f_equal. rewrite length_app. simpl. lia.
  - destruct (decide (i = p)) as [->|Hne].
    + rewrite decide_False, app_nil_r by done. by rewrite decide_True by set_solver.
    + repeat case_decide; set_solver.
  - destruct (decide (i = p)) as [->|Hne].
    + rewrite decide_False, Nat.add_0_r, sat_S by done. rewrite decide_True by set_solver. f_equal. lia.
    + repeat case_decide; set_solver.
Qed.

Lemma count_edges_mid k l l0 : k < n → (∀ p, p ∈ l → p < n) → NoDup (l0 ++ l) →
  try_fold (λ d p, count_edge k p d) l (degrees_mid k l0) = Some (degrees_mid k (l0 ++ l)).
Proof.
  intros Hk. revert l0. induction l as [|p l IH]; intros l0 Hl Hnd; simpl; [by rewrite app_nil_r|].
  rewrite count_edge_mid; [|done|apply Hl; set_solver|apply NoDup_app in Hnd as (_ & Hd & _); set_solver].
  replace (l0 ++ p :: l) with ((l0 ++ [p]) ++ l) in * by (by rewrite <-(assoc_L (++))).
  apply IH; [set_solver|done].
Qed.

Lemma count_node_at k x : items ix !! k = Some x → count_node ix events_map (degrees_at k) (k, x) = Some (degrees_at (S k)).
Proof using Hix.
  intros Hx. pose proof (lookup_lt_Some _ _ _ Hx : k < n) as Hk. unfold count_node. simpl.
  destruct (proj1 (elem_of_dom _ _) (ix_dom _ _ Hix x (list_elem_of_lookup_2 _ _ _ Hx))) as [ev Hev]. rewrite Hev.
  pose proof (dedup_fold ix (λ d p, count_edge k p d) (prev_events ev) (degrees_at k)) as Hd.
  change (try_fold (count_parent ix k)) with (try_fold (dedup_step ix (λ d p, count_edge k p d))).
  assert (distinct_parents ix (prev_events ev) = par k) as Hpar by (unfold StatePlan.par; by rewrite Hx, Hev).
  rewrite Hpar, <-degrees_mid_nil, count_edges_mid in Hd.
  - rewrite degrees_mid_full in Hd. rewrite degrees_mid_nil in Hd.
    destruct (try_fold _ _ _) as [[d s]|]; simpl in Hd; [|done]. by injection Hd as ->.
  - done.
  - intros p Hp. by destruct (par_bounds _ _ Hp).
  - apply NoDup_par.
Qed.

Lemma count_degrees_spec : count_degrees ix events_map = Some (degrees_at n).
Proof using Hix.
  unfold count_degrees.
  destruct (try_fold_spec (count_node ix events_map) (λ l d, d = degrees_at (length l)) (imap pair (items ix))
    (mkDegrees (replicate n 0%N) (replicate n []) (replicate n 0%N))) as (d & -> & ->).
  - intros l1 [k x] l2 d Hl ->.
    assert (imap pair (items ix) !! length l1 = Some (k, x)) as E by (rewrite Hl; by apply list_lookup_middle).
    rewrite list_lookup_imap in E. destruct (items ix !! length l1) as [y|] eqn:Ey; [|done]. injection E as <- <-.
    rewrite length_app, Nat.add_1_r. eexists. split; [by apply count_node_at|done].
  - unfold degrees_at. rewrite !replicate_tab. f_equal; apply tab_ext; intros i Hi; simpl; try done.
  - by rewrite length_imap.
Qed.

(** ** The queue *)

(** The parents of [i] not yet sorted. *)
Definition left_of (sorted : list nat) (i : nat) : list nat := filter (.∉ sorted) (par i).
Definition degrees_left (sorted : list nat) : list N := tab n (λ i, N.of_nat (length (left_of sorted i))).

Lemma elem_of_left sorted i p : p ∈ left_of sorted i ↔ p ∈ par i ∧ p ∉ sorted.
Proof. unfold left_of. rewrite list_elem_of_filter. tauto. Qed.

Lemma left_nil sorted i : left_of sorted i = [] ↔ ∀ p, p ∈ par i → p ∈ sorted.
Proof.
  split.
  - intros E p Hp. destruct (decide (p ∈ sorted)); [done|]. assert (p ∈ left_of sorted i) as Hin by (by apply elem_of_left).
    rewrite E in Hin. by apply elem_of_nil in Hin.
  - intros Hp. destruct (left_of sorted i) as [|p l] eqn:E; [done|]. assert (p ∈ left_of sorted i) as Hin by (rewrite E; left).
    apply elem_of_left in Hin as [Hin Hn]. by destruct Hn; apply Hp.
Qed.

Lemma left_of_nil i : left_of [] i = par i.
Proof. unfold left_of. induction (par i) as [|p l IH]; [done|]. rewrite filter_cons, decide_True, IH by set_solver. done. Qed.

Lemma left_snoc sorted i x : x ∉ sorted →
  length (left_of sorted i) = length (left_of (sorted ++ [x]) i) + (if decide (x ∈ par i) then 1 else 0).
Proof.
  intros Hx. unfold left_of. pose proof (NoDup_par events_map ix i) as Hnd. revert Hnd.
  induction (par i) as [|p l IH]; intros Hnd; [done|]. apply NoDup_cons in Hnd as [Hp Hnd]. specialize (IH Hnd).
  rewrite !filter_cons. destruct (decide (p = x)) as [->|Hne].
  - rewrite decide_True by done. rewrite decide_False by set_solver. rewrite (decide_True (P:=x ∈ x :: l)) by left.
    rewrite decide_False in IH by done. simpl. lia.
  - assert (p ∉ sorted ↔ p ∉ sorted ++ [x]) as Hiff by set_solver.
    destruct (decide (p ∉ sorted)) as [H1|H1], (decide (p ∉ sorted ++ [x])) as [H2|H2]; try tauto;
      simpl; rewrite IH; repeat case_decide; try set_solver; lia.
Qed.

(** Releasing the children of the popped node. *)
Lemma release_children (l : list nat) (a : nat → N) (new : list nat) :
  NoDup l → (∀ i, i ∈ l → i < n) →
  try_fold release_child l (tab n a, new)
  = Some (tab n (λ i, if decide (i ∈ l) then usize_saturating_sub (a i) 1 else a i),
          new ++ filter (λ i, usize_saturating_sub (a i) 1 = 0%N) l).
Proof.
  revert a new. induction l as [|c l IH]; intros a new Hnd Hl; simpl.
  { rewrite app_nil_r. do 2 f_equal. }
  apply NoDup_cons in Hnd as [Hc Hnd]. assert (c < n) as Hcn by (apply Hl; left).
  unfold release_child at 1. simpl. rewrite vec_alter_tab, tab_lookup, decide_True by done.
  rewrite IH by (done || set_solver). f_equal. f_equal.
  - apply tab_ext. intros i Hi. repeat case_decide; try set_solver; congruence.
  - assert (filter (λ i, usize_saturating_sub (if decide (i = c) then usize_saturating_sub (a i) 1 else a i) 1 = 0%N) l
      = filter (λ i, usize_saturating_sub (a i) 1 = 0%N) l) as ->.
    { apply filter_ext_in. intros i Hi. rewrite decide_False by set_solver. done. }
    rewrite filter_cons. destruct (N.eqb_spec (usize_saturating_sub (a c) 1) 0); [rewrite decide_True by done|by rewrite decide_False].
    by rewrite <-(assoc_L (++)).
Qed.

Record sort_inv (q : list nat) (s : list N * list nat) : Prop := {
  si_degrees : s.1 = degrees_left s.2;
  si_nodup : NoDup (s.2 ++ q);
  si_ready i : i < n → i ∈ s.2 ++ q ↔ ∀ p, p ∈ par i → p ∈ s.2;
  si_bound i : i ∈ s.2 ++ q → i < n;
  si_order l1 x l2 : s.2 = l1 ++ x :: l2 → ∀ p, p ∈ par x → p ∈ l1
}.

Lemma sort_step x q s : sort_inv (x :: q) s →
  ∃ ins new, sort_body (tab n (kids_below n)) x s = Some (Push (ins, s.2 ++ [x]) new)
    ∧ sort_inv (q ++ new) (ins, s.2 ++ [x]).
Proof using Hix.
  intros [Hd Hnd Hr Hb Ho]. destruct s as [ins sorted]. simpl in *. subst ins.
  assert (x < n) as Hx by (apply Hb; set_solver).
  assert (x ∉ sorted) as Hxs by (apply NoDup_app in Hnd as (_ & Hd & _); intros Hin; apply (Hd x Hin); left).
  unfold sort_body. simpl. rewrite tab_lookup by done. unfold degrees_left at 1.
  rewrite release_children by (apply NoDup_kids || (intros i Hi%elem_of_kids; by destruct (par_bounds _ _ Hi))).
  eexists _, _. split; [done|]. set (new := filter _ _).
  assert (∀ i, i ∈ new ↔ x ∈ par i ∧ ∀ p, p ∈ par i → p ∈ sorted ++ [x]) as Hnew.
  { intros i. unfold new. simpl. rewrite list_elem_of_filter, elem_of_kids. unfold usize_saturating_sub.
    split; [intros [Hz Hp]; split; [done|]|intros [Hp Hz]; split; [|done]].
    - rewrite (left_snoc sorted i x Hxs), decide_True in Hz by done. apply left_nil.
      destruct (left_of (sorted ++ [x]) i); [done|simpl in Hz; lia].
    - rewrite (left_snoc sorted i x Hxs), decide_True by done. apply left_nil in Hz as ->. simpl. lia. }
  assert (∀ i, i ∈ new → i ∉ sorted ++ x :: q) as Hfresh.
  { intros i [Hp _]%Hnew Hi. destruct (par_bounds _ _ Hp) as [_ Hin]. apply (Hr i Hin) in Hp; done. }
  split; simpl.
  - apply tab_ext. intros i Hi. pose proof (left_snoc sorted i x Hxs) as Hl. unfold usize_saturating_sub.
    destruct (decide (i ∈ kids_below n x)) as [Hk|Hk]; rewrite elem_of_kids in Hk;
      [rewrite decide_True in Hl by done|rewrite decide_False in Hl by done]; lia.
  - rewrite <-(assoc_L (++)). simpl. rewrite (app_comm_cons q new x), (assoc_L (++)). apply NoDup_app. split_and!; [done| |].
    + intros i Hi Hin. by apply (Hfresh i Hin).
    + apply NoDup_filter, NoDup_kids.
  - intros i Hi. rewrite <-(assoc_L (++)). simpl. rewrite (app_comm_cons q new x), (assoc_L (++)), elem_of_app, Hr, Hnew by done.
    split.
    + intros [Hp|[_ Hp]]; [|done]. intros p Hin%Hp. set_solver.
    + intros Hp. destruct (decide (x ∈ par i)) as [Hxi|Hxi]; [by right|]. left. intros p Hin.
      specialize (Hp p Hin). apply elem_of_app in Hp as [Hp|Hp%list_elem_of_singleton]; [done|by subst].
  - intros i. rewrite !elem_of_app. intros [[Hi|Hi%list_elem_of_singleton]|[Hi|Hi]].
    + apply Hb. set_solver.
    + by subst.
    + apply Hb. set_solver.
    + apply Hnew in Hi as [Hp _]. by destruct (par_bounds _ _ Hp).
  - intros l1 y l2 E p Hp. destruct l2 as [|z l2 _] using rev_ind.
    + apply app_inj_tail in E as [<- <-]. apply (Hr x Hx); [set_solver|done].
    + rewrite app_comm_cons, (assoc_L (++)) in E. apply app_inj_tail in E as [-> _]. by apply (Ho l1 y l2).
Qed.

Lemma NoDup_roots (l : list N) : NoDup (roots l).
Proof.
  assert (roots l = fst <$> filter (λ i, (i.2 =? 0)%N = true) (imap pair l)) as ->.
  { unfold roots. induction (imap pair l) as [|[i d] l' IH]; [done|]. simpl. rewrite filter_cons. simpl.
    destruct (d =? 0)%N; simpl; [by f_equal|done]. }
  apply NoDup_fmap_filter. assert ((imap pair l).*1 = seq 0 (length l)) as ->; [|apply NoDup_seq].
  apply list_eq. intros i. rewrite list_lookup_fmap, list_lookup_imap.
  destruct (decide (i < length l)) as [Hi|Hi].
  - destruct (lookup_lt_is_Some_2 l i Hi) as [x ->]. simpl. by rewrite lookup_seq_lt.
  - rewrite (lookup_ge_None_2 l), lookup_seq_ge by lia. done.
Qed.

Lemma sort_init : sort_inv (roots (degrees_left [])) (degrees_left [], []).
Proof using Hix.
  assert (∀ i, i ∈ roots (degrees_left []) ↔ i < n ∧ ∀ p, p ∈ par i → p ∈ []) as Hroots.
  { intros i. unfold roots. rewrite list_elem_of_omap. rewrite <-left_nil. split.
    - intros ([j d] & Hj & Hz). apply elem_of_lookup_imap in Hj as (k & y & [= -> ->] & Hl). simpl in Hz.
      pose proof (lookup_lt_Some _ _ _ Hl) as Hlt. unfold degrees_left in Hl, Hlt. rewrite length_tab in Hlt.
      rewrite tab_lookup in Hl by done. destruct (N.eqb_spec y 0) as [->|]; [|done]. simplify_eq.
      split; [done|]. destruct (left_of [] i); [done|simpl in *; lia].
    - intros [Hi Hl]. exists (i, 0%N). split; [|done]. apply elem_of_lookup_imap. exists i, 0%N. split; [done|].
      unfold degrees_left. rewrite tab_lookup, Hl by done. done. }
  split; simpl.
  - done.
  - apply NoDup_roots.
  - intros i Hi. rewrite Hroots. tauto.
  - intros i [Hi _]%Hroots. done.
  - intros l1 x l2 E. by destruct l1.
Qed.

(** The order: parents first, and every node whose parents are all listed. *)
Record ordered (sorted : list nat) : Prop := {
  ord_nodup : NoDup sorted;
  ord_bound i : i ∈ sorted → i < n;
  ord_parents l1 x l2 : sorted = l1 ++ x :: l2 → ∀ p, p ∈ par x → p ∈ l1;
  ord_ready i : i < n → (∀ p, p ∈ par i → p ∈ sorted) → i ∈ sorted
}.

Definition child_counts : list N := tab n (λ p, N.of_nat (length (kids p))).

Lemma kids_count p : length (kids p) ≤ n.
Proof. unfold kids_below. etrans; [apply length_filter|]. by rewrite length_seq. Qed.

Lemma topological_sort_spec :
  ∃ sorted, topological_sort_short_ids ix events_map = Some (sorted, child_counts) ∧ ordered sorted.
Proof using Hix.
  unfold topological_sort_short_ids. rewrite count_degrees_spec. simpl.
  assert (tab n (λ i, sat (if decide (i < n) then length (par i) else 0)) = degrees_left []) as ->.
  { apply tab_ext. intros i Hi. rewrite decide_True by done. rewrite left_of_nil. apply sat_small.
    assert (length (par i) ≤ n); [|pose proof (ix_size _ _ Hix); lia].
    rewrite <-(length_seq n 0). apply submseteq_length, NoDup_submseteq; [apply NoDup_par|].
    intros p Hp. apply elem_of_seq. destruct (par_bounds _ _ Hp). lia. }
  assert (tab n (λ p, sat (length (kids p))) = child_counts) as ->.
  { apply tab_ext. intros p _. apply sat_small. pose proof (kids_count p). pose proof (ix_size _ _ Hix). lia. }
  destruct (try_drain_spec (sort_body (tab n (kids_below n))) sort_inv (λ s, ordered s.2)
    (λ q s, n - length s.2) n (roots (degrees_left [])) (degrees_left [], [])) as ([ins sorted] & -> & Ho).
  - intros x q s Hi. destruct (sort_step x q s Hi) as (ins & new & -> & Hi').
    eexists. split; [done|]. assert (length s.2 < n) as Hlt.
    { destruct Hi as [_ Hnd _ Hb _]. assert (length (s.2 ++ x :: q) ≤ n) as Hl.
      { rewrite <-(length_seq n 0). apply submseteq_length, NoDup_submseteq; [done|]. intros i Hin%Hb. apply elem_of_seq. lia. }
      rewrite length_app in Hl. simpl in Hl. lia. }
    split; [lia|]. split; [done|]. simpl. rewrite length_app. simpl. lia.
  - intros s [_ Hnd Hr Hb Ho]. rewrite app_nil_r in *. split; [done|done|done|]. intros i Hi Hp. by apply Hr.
  - apply sort_init.
  - simpl. lia.
  - by exists sorted.
Qed.

(** All nodes are listed exactly when no node is its own ancestor. *)
Lemma par_tc i j x : tc (λ i j, j ∈ par i) i j → items ix !! i = Some x →
  ∃ y, items ix !! j = Some y ∧ tc (parent_of events_map) x y.
Proof using Hix.
  intros Ht. revert x. induction Ht as [i j Hp|i j k Hp _ IH]; intros x Hi;
    apply elem_of_par in Hp as (x' & y & Hi' & Hj & Hp); try done; simplify_eq.
  - exists y. split; [done|by apply tc_once].
  - destruct (IH y Hj) as (z & Hz & Ht). exists z. split; [done|by eapply tc_l].
Qed.

Lemma ordered_cycle sorted i : ordered sorted → i < n → i ∉ sorted →
  ∃ x, x ∈ items ix ∧ tc (parent_of events_map) x x.
Proof using Hix.
  intros Ho Hi Hni. set (xs := filter (.∉ sorted) (seq 0 n)).
  destruct (stuck_cycle (λ i j, j ∈ par i) xs) with (k := length xs) (path := @nil nat) (x := i) as (j & Hj & Ht).
  - intros j [Hj Hjn]%list_elem_of_filter. destruct (left_of sorted j) as [|p l] eqn:El.
    + destruct Hj. apply (ord_ready _ Ho); [by apply elem_of_seq in Hjn; lia|]. by apply left_nil.
    + assert (p ∈ left_of sorted j) as [Hp Hps]%elem_of_left by (rewrite El; left).
      exists p. split; [|done]. apply list_elem_of_filter. split; [done|]. apply elem_of_seq.
      destruct (par_bounds _ _ Hp). lia.
  - lia.
  - intros z Hz. by apply elem_of_nil in Hz.
  - apply list_elem_of_filter. split; [done|]. apply elem_of_seq. lia.
  - apply NoDup_singleton.
  - apply list_elem_of_filter in Hj as [_ Hj]. apply elem_of_seq in Hj.
    destruct (lookup_lt_is_Some_2 (items ix) j) as [x Hx]; [unfold Dense.len in *; lia|].
    destruct (par_tc j j x Ht Hx) as (y & Hy & Hxy). simplify_eq. exists x. split; [|done].
    by eapply list_elem_of_lookup_2.
Qed.

(** The ancestors of a node are listed before it. *)
Lemma ancestor_before sorted x y i l1 l2 : ordered sorted → tc (parent_of events_map) x y →
  items ix !! i = Some x → sorted = l1 ++ i :: l2 → ∃ j, items ix !! j = Some y ∧ j ∈ l1.
Proof using Hix.
  intros Ho Ht. revert i l1 l2. induction Ht as [x y Hp|x y z Hp _ IH]; intros i l1 l2 Hi E;
    (assert (y ∈ items ix) as [j Hj]%list_elem_of_lookup by (eapply (ix_closed _ _ Hix); [by eapply list_elem_of_lookup_2|done]);
     assert (j ∈ l1) as Hjl by (apply (ord_parents _ Ho l1 i l2 E); apply elem_of_par; [done|]; by exists x, y)).
  - by exists j.
  - apply list_elem_of_split in Hjl as (k1 & k2 & ->).
    destruct (IH j k1 (k2 ++ i :: l2) Hj) as (m & Hm & Hin); [by rewrite E, <-(assoc_L (++))|].
    exists m. split; [done|]. set_solver.
Qed.

Lemma ordered_no_cycle sorted x : ordered sorted → (∀ i, i < n → i ∈ sorted) →
  x ∈ items ix → ¬ tc (parent_of events_map) x x.
Proof using Hix.
  intros Ho Hall Hx Ht. apply list_elem_of_lookup in Hx as [i Hi].
  assert (i ∈ sorted) as Hin by (apply Hall; by eapply lookup_lt_Some).
  apply list_elem_of_split in Hin as (l1 & l2 & E).
  destruct (ancestor_before sorted x x i l1 l2 Ho Ht Hi E) as (j & Hj & Hjl).
  assert (j = i) as ->.
  { pose proof (dense_nodup _ _ (ix_dense _ _ Hix)) as Hnd. by eapply NoDup_lookup. }
  pose proof (ord_nodup _ Ho) as Hnd. rewrite E in Hnd. apply NoDup_app in Hnd as (_ & Hd & _).
  apply (Hd i Hjl). left.
Qed.

Lemma ordered_length sorted : ordered sorted → length sorted = n ↔ ∀ i, i < n → i ∈ sorted.
Proof.
  intros [Hnd Hb _ _]. assert (sorted ⊆+ seq 0 n) as Hsub.
  { apply NoDup_submseteq; [done|]. intros i Hi%Hb. apply elem_of_seq. lia. }
  split.
  - intros Hl i Hi. assert (sorted ≡ₚ seq 0 n) as ->; [|apply elem_of_seq; lia].
    apply submseteq_length_Permutation; [done|]. by rewrite length_seq, Hl.
  - intros Hall. apply Nat.le_antisymm; [rewrite <-(length_seq n 0); by apply submseteq_length|].
    rewrite <-(length_seq n 0) at 1. apply submseteq_length, NoDup_submseteq; [apply NoDup_seq|].
    intros i Hi%elem_of_seq. apply Hall. lia.
Qed.

(** The order is complete exactly on an acyclic graph. *)
Lemma ordered_complete sorted : ordered sorted →
  (length sorted = n ∧ ∀ x, x ∈ items ix → ¬ tc (parent_of events_map) x x)
  ∨ (length sorted ≠ n ∧ ∃ x, x ∈ items ix ∧ tc (parent_of events_map) x x).
Proof using Hix.
  intros Ho. rewrite (ordered_length _ Ho). destruct (decide (Forall (.∈ sorted) (seq 0 n))) as [Hall|Hex].
  - rewrite Forall_forall in Hall. assert (∀ i, i < n → i ∈ sorted) as Hin by (intros; apply Hall, elem_of_seq; lia).
    left. split; [done|]. intros x. by apply (ordered_no_cycle sorted).
  - apply not_Forall_Exists, Exists_exists in Hex as (i & Hi & Hni); [|intros ?; apply _]. apply elem_of_seq in Hi.
    right. split; [|apply (ordered_cycle sorted i); [done|lia|done]]. intros Hall. apply Hni, Hall. lia.
Qed.

(** The plan: an order of all nodes, or the report of a cycle. *)
Lemma checked_plan_spec {E : Type} :
  ∃ r, checked_topological_plan (E:=E) ix events_map = Some r
    ∧ match r with
      | Ok (sorted, outs) => ordered sorted ∧ outs = child_counts ∧ (∀ i, i < n → i ∈ sorted)
          ∧ ∀ x, x ∈ items ix → ¬ tc (parent_of events_map) x x
      | Err e => e = CycleDetected ∧ ∃ x, x ∈ items ix ∧ tc (parent_of events_map) x x
      end.
Proof using Hix.
  unfold checked_topological_plan. destruct topological_sort_spec as (sorted & -> & Ho).
  eexists. split; [done|]. destruct (ordered_complete _ Ho) as [[Hl Hno]|[Hl Hc]].
  - rewrite (proj2 (Nat.eqb_eq _ _) Hl). split_and!; [done|done|by apply ordered_length|done].
  - by rewrite (proj2 (Nat.eqb_neq _ _) Hl).
Qed.
End topo.
