(* ===== verification/StateLoop.v ===== *)
(** * The loop of the streaming pipelines

    A state is kept for a node exactly while one of its children is still to
    come, so every event finds the states of all its parents, in order; and the
    callbacks are made for the targets in the order of the sort, until one
    fails. Both pipelines are instances of one loop, proved here for any way of
    computing a state from the parents' states. *)
From stdpp Require Import prelude gmap strings sorting.
From Stdlib Require String.
From S2P Require Import Prelude Dense EventTypes Json Events Iterative Multi StateAt StatePlan StateTopo.

(** The callbacks made for a list of reports, up to the first that fails. *)
Fixpoint call_all {Id R W E : Type} (on_target : Id → R → W → result unit E * W) (reports : list (Id * R)) (w : W)
    : result unit (StateComputationError E) * W :=
  match reports with
  | [] => (Ok tt, w)
  | (id, r) :: reports =>
      match on_target id r w with
      | (Ok _, w) => call_all on_target reports w
      | (Err e, w) => (Err (Callback e), w)
      end
  end.

Section slots.
Context {Id C : Type} `{EventId Id}.
Abbreviation event_map := (gmap Id (LeanEvent Id C)).
Context (events_map : event_map) (ix : DenseIndex Id).
Hypothesis Hix : indexed events_map ix.
Abbreviation n := (Dense.len ix).
Abbreviation par := (par events_map ix).
Abbreviation kids := (kids_below events_map ix n).

Section values.
Context {T : Type}.
Implicit Types (val : nat → T) (done : list nat).

(** The children still to come. *)
Definition pending done (p : nat) : list nat := filter (.∉ done) (kids p).
Definition counts done : list N := tab n (λ p, N.of_nat (length (pending done p))).

(** The kept states: of the nodes in [d] with a child not in [done]. *)
Definition slot_of (d done : list nat) val (p : nat) : option T :=
  if decide (p ∈ d) then if decide (pending done p = []) then None else Some (val p) else None.
Definition slots_of (d done : list nat) val : list (option T) := tab n (slot_of d done val).

Lemma pending_snoc done idx p : idx ∉ done → idx < n →
  length (pending done p) = length (pending (done ++ [idx]) p) + (if decide (p ∈ par idx) then 1 else 0).
Proof using Hix.
  intros Hx Hn. unfold pending. pose proof (NoDup_kids events_map ix n p) as Hnd.
  pose proof (elem_of_kids events_map ix Hix idx p) as Hk. revert Hnd Hk. generalize (decide (p ∈ par idx)). intros d.
  assert (∀ l, NoDup l → length (filter (.∉ done) l)
    = length (filter (.∉ done ++ [idx]) l) + (if decide (idx ∈ l) then 1 else 0)) as Hall.
  { intros l. induction l as [|q l IH]; intros Hnd; [done|]. apply NoDup_cons in Hnd as [Hq Hnd]. specialize (IH Hnd).
    rewrite !filter_cons. destruct (decide (q = idx)) as [->|Hne].
    - rewrite decide_True by done. rewrite decide_False by set_solver. rewrite (decide_True (P:=idx ∈ idx :: l)) by left.
      rewrite decide_False in IH by done. simpl. lia.
    - destruct (decide (q ∉ done)) as [H1|H1], (decide (q ∉ done ++ [idx])) as [H2|H2]; try set_solver;
        simpl; rewrite IH; repeat case_decide; try set_solver; lia. }
  intros Hnd Hk. rewrite (Hall _ Hnd). f_equal. destruct d, (decide (idx ∈ _)); tauto.
Qed.

(** The states taken for a prefix [l] of the parents of [idx]. *)
Definition counts_mid done (l : list nat) : list N :=
  tab n (λ p, N.of_nat (length (pending done p)) - (if decide (p ∈ l) then 1 else 0))%N.
Definition slots_mid done val (l : list nat) : list (option T) :=
  tab n (λ p, if decide (p ∈ l ∧ length (pending done p) = 1) then None else slot_of done done val p).

(** [take_parent] without the guard against repetitions. *)
Definition take_one (s : list N * list (option T) * list T) (p : nat) : option (list N * list (option T) * list T) :=
  let '(outs, slots, prev_states) := s in
  deg ←! outs !! p;
  if (deg =? 0)%N then Some s else take_finalized_parent p outs slots prev_states.

Lemma take_parent_dedup s pe : take_parent ix s pe = dedup_step ix take_one s pe.
Proof.
  destruct s as [[[outs slots] prev_states] seen]. unfold take_parent, dedup_step, take_one. simpl.
  destruct (index_of ix pe) as [p|]; [|done]. destruct (already_seen seen p); [done|].
  destruct (outs !! p) as [deg|]; [|done]. by destruct (deg =? 0)%N.
Qed.

Lemma take_one_mid done val l p idx :
  idx ∉ done → idx < n → p ∈ par idx → p ∈ done → p ∉ l →
  take_one (counts_mid done l, slots_mid done val l, val <$> l) p
  = Some (counts_mid done (l ++ [p]), slots_mid done val (l ++ [p]), val <$> (l ++ [p])).
Proof using Hix.
  intros Hni Hidx Hp Hd Hl. destruct (par_bounds events_map ix Hix _ _ Hp) as [Hpn _].
  pose proof (pending_snoc done idx p Hni Hidx) as Hps. rewrite decide_True in Hps by done.
  unfold take_one, counts_mid, slots_mid. rewrite tab_lookup, decide_False by done.
  destruct (N.eqb_spec (N.of_nat (length (pending done p)) - 0) 0) as [|_]; [lia|].
  unfold take_finalized_parent. rewrite vec_alter_tab, !tab_lookup, decide_True by done.
  rewrite (decide_False (P:=p ∈ l)), (decide_False (P:=p ∈ l ∧ _)) by tauto.
  assert (slot_of done done val p = Some (val p)) as Hslot.
  { unfold slot_of. rewrite decide_True, decide_False; [done| |done]. intros E. rewrite E in Hps. simpl in Hps. lia. }
  rewrite Hslot.
  unfold usize_saturating_sub. rewrite fmap_app. simpl.
  assert (tab n (λ j, if decide (j = p) then (N.of_nat (length (pending done j)) - (if decide (j ∈ l) then 1 else 0) - 1)%N
      else (N.of_nat (length (pending done j)) - (if decide (j ∈ l) then 1 else 0))%N)
    = tab n (λ j, N.of_nat (length (pending done j)) - (if decide (j ∈ l ++ [p]) then 1 else 0))%N) as ->.
  { apply tab_ext. intros j Hj. destruct (decide (j = p)) as [->|Hne].
    - rewrite decide_False, decide_True by set_solver. lia.
    - repeat case_decide; set_solver. }
  destruct (N.eqb_spec (N.of_nat (length (pending done p)) - 0 - 1) 0) as [Hz|Hz].
  - rewrite vec_set_tab by done. do 3 f_equal. apply tab_ext. intros j Hj.
    destruct (decide (j = p)) as [->|Hne]; [rewrite decide_True by (split; [set_solver|lia]); done|].
    repeat case_decide; set_solver.
  - do 3 f_equal. apply tab_ext. intros j Hj. destruct (decide (j = p)) as [->|Hne].
    + rewrite !decide_False by (intros [??]; set_solver || lia). done.
    + repeat case_decide; set_solver.
Qed.

Lemma take_all_mid done val idx l0 l :
  idx ∉ done → idx < n → (∀ p, p ∈ l → p ∈ par idx ∧ p ∈ done) → NoDup (l0 ++ l) →
  try_fold take_one l (counts_mid done l0, slots_mid done val l0, val <$> l0)
  = Some (counts_mid done (l0 ++ l), slots_mid done val (l0 ++ l), val <$> (l0 ++ l)).
Proof using Hix.
  intros Hni Hidx. revert l0. induction l as [|p l IH]; intros l0 Hl Hnd; cbn [try_fold]; [by rewrite app_nil_r|].
  destruct (Hl p) as [Hp Hd]; [set_solver|].
  rewrite (take_one_mid done val l0 p idx); [|done..|apply NoDup_app in Hnd as (_ & Hx & _); set_solver].
  replace (l0 ++ p :: l) with ((l0 ++ [p]) ++ l) in * by (by rewrite <-(assoc_L (++))).
  apply IH; [set_solver|done].
Qed.

Lemma finalized_states done val idx x ev :
  idx ∉ done → items ix !! idx = Some x → events_map !! x = Some ev → (∀ p, p ∈ par idx → p ∈ done) →
  finalized_parent_states (prev_events ev) ix (counts done) (slots_of done done val)
  = Some (counts (done ++ [idx]), slots_of done (done ++ [idx]) val, val <$> par idx).
Proof using Hix.
  intros Hni Hx Hev Hp. assert (idx < n) as Hidx by (by eapply lookup_lt_Some). unfold finalized_parent_states.
  rewrite (try_fold_ext _ _ _ _ take_parent_dedup).
  pose proof (dedup_fold ix take_one (prev_events ev) (counts done, slots_of done done val, [])) as Hd.
  assert (distinct_parents ix (prev_events ev) = par idx) as Hpar by (unfold StatePlan.par; by rewrite Hx, Hev).
  assert (counts done = counts_mid done []) as Hc0.
  { apply tab_ext. intros p _. rewrite decide_False by set_solver. lia. }
  assert (slots_of done done val = slots_mid done val []) as Hs0.
  { apply tab_ext. intros p _. rewrite decide_False by set_solver. done. }
  rewrite Hpar, Hc0, Hs0 in Hd. rewrite Hc0, Hs0.
  pose proof (take_all_mid done val idx [] (par idx) Hni Hidx) as Ht.
  change (val <$> []) with (@nil T) in Ht. rewrite Ht in Hd; [|by intros; split; [|apply Hp]|apply NoDup_par].
  simpl app in Hd.
  destruct (try_fold _ _ _) as [[r seen]|]; simpl in Hd; [|done]. injection Hd as ->. do 3 f_equal.
  - apply tab_ext. intros p _. rewrite (pending_snoc done idx p) by done. case_decide; lia.
  - apply tab_ext. intros p _. unfold slot_of. pose proof (pending_snoc done idx p Hni Hidx) as Hl.
    assert (pending (done ++ [idx]) p = [] ↔ length (pending (done ++ [idx]) p) = 0) as Hnil by (by rewrite length_zero_iff_nil).
    assert (pending done p = [] ↔ length (pending done p) = 0) as Hnil' by (by rewrite length_zero_iff_nil).
    destruct (decide (p ∈ par idx)) as [Hin|Hin].
    + specialize (Hp p Hin). rewrite !(decide_True (P:=p ∈ done)) by done.
      rewrite (decide_ext (pending (done ++ [idx]) p = []) (length (pending done p) = 1)) by (rewrite Hnil; lia).
      rewrite (decide_ext (p ∈ par idx ∧ length (pending done p) = 1) (length (pending done p) = 1)) by tauto.
      destruct (decide (length (pending done p) = 1)); [done|]. rewrite decide_False; [done|]. rewrite Hnil'. lia.
    + rewrite (decide_False (P:=p ∈ par idx ∧ _)) by tauto. case_decide as Hd'; [|done].
      by rewrite (decide_ext (pending (done ++ [idx]) p = []) (pending done p = [])) by (rewrite Hnil, Hnil'; lia).
Qed.

(** Storing the node's own state. *)
Definition set_val val (idx : nat) (t : T) (p : nat) : T := if decide (p = idx) then t else val p.

Lemma retained done val idx t :
  idx ∉ done → idx < n →
  retain_state_for_children (slots_of done (done ++ [idx]) val) (counts (done ++ [idx])) idx t
  = Some (slots_of (done ++ [idx]) (done ++ [idx]) (set_val val idx t)).
Proof.
  intros Hni Hidx. unfold retain_state_for_children, counts. rewrite tab_lookup by done.
  assert (tab n (λ p, if decide (p = idx) then if decide (pending (done ++ [idx]) idx = []) then None else Some t
      else slot_of done (done ++ [idx]) val p) = slots_of (done ++ [idx]) (done ++ [idx]) (set_val val idx t)) as Heq.
  { apply tab_ext. intros p _. unfold slot_of, set_val. destruct (decide (p = idx)) as [->|Hne].
    - rewrite (decide_True (P:=idx ∈ _)) by set_solver. done.
    - destruct (decide (p ∈ done)) as [Hd|Hd];
        [rewrite (decide_True (P:=p ∈ done ++ [idx])) by set_solver|rewrite (decide_False (P:=p ∈ done ++ [idx])) by set_solver]; done. }
  rewrite <-Heq. destruct (pending (done ++ [idx]) idx) as [|k l] eqn:Ep.
  - f_equal. apply tab_ext. intros p _. unfold slot_of. destruct (decide (p = idx)) as [->|]; [|done]. by rewrite decide_False.
  - unfold slots_of. simpl. rewrite vec_set_tab by done. f_equal.
Qed.
End values.

(** ** The loop *)

Section loop.
Context (run : PipelineRun (Id:=Id) (C:=C)) (tgt : nat → bool).
Hypothesis Hrun_ix : run_index run = ix.
Hypothesis Hrun_map : run_events_map run = events_map.
Hypothesis Hrun_tgt : run_is_target run = tab n tgt.
Context {T R W E : Type}.
Abbreviation caches := (ForkResolveCaches (Id:=Id) (C:=C)).
Context (compute : LeanEvent Id C → list T → caches → option (T * caches)) (rep : LeanEvent Id C → list T → T → R).
Implicit Types (on_target : Id → R → W → result unit E * W).

(** One turn, for a way of computing a state and of reporting it. *)
Definition loop_step_of on_target (exec : PipelineExecution (Id:=Id) (C:=C) T) (w : W) (idx : nat)
    : option (result (PipelineExecution (Id:=Id) (C:=C) T) E * W) :=
  '(ev, prev_states, exec) ←! finalized_parents run exec idx;
  '(t, caches) ←! compute ev prev_states (ex_caches T exec);
  '(r, w) ←! report run on_target idx (rep ev prev_states t) w;
  match r with
  | Err e => Some (Err e, w)
  | Ok _ => exec ←! retain exec caches idx t; Some (Ok exec, w)
  end.

Context (V : Id → T → Prop) (K : caches → Prop) (P : Id → R → Prop).
Hypothesis Hcompute : ∀ x ev ts c,
  x ∈ items ix → events_map !! x = Some ev → K c → Forall2 V (parents events_map x) ts →
  ∃ t c', compute ev ts c = Some (t, c') ∧ V x t ∧ K c' ∧ P x (rep ev ts t).

Lemma run_loop_spec on_target sorted done rest val c w :
  ordered events_map ix sorted → sorted = done ++ rest → K c →
  (∀ i x, i ∈ done → items ix !! i = Some x → V x (val i)) →
  ∃ reports, Forall2 (λ i r, items ix !! i = Some r.1 ∧ P r.1 r.2) (filter (λ i, tgt i = true) rest) reports
    ∧ run_loop (loop_step_of on_target) rest (mkExec T (counts done) (slots_of done done val) c) w
      = Some (call_all on_target reports w).
Proof using Hix Hrun_ix Hrun_map Hrun_tgt Hcompute.
  intros Ho. revert done val c w. induction rest as [|idx rest IH]; intros done val c w Hs Hc Hval.
  { exists []. split; [constructor|done]. }
  assert (idx < n) as Hidx by (apply (ord_bound _ _ _ Ho); rewrite Hs; set_solver).
  assert (idx ∉ done) as Hni.
  { pose proof (ord_nodup _ _ _ Ho) as Hnd. rewrite Hs in Hnd. apply NoDup_app in Hnd as (_ & Hd & _). set_solver. }
  pose proof (ord_parents _ _ _ Ho done idx rest Hs) as Hp.
  destruct (lookup_lt_is_Some_2 (items ix) idx Hidx) as [x Hx].
  assert (x ∈ items ix) as Hin by (by eapply list_elem_of_lookup_2).
  destruct (proj1 (elem_of_dom _ _) (ix_dom _ _ Hix x Hin)) as [ev Hev].
  assert (Forall2 V (parents events_map x) (val <$> par idx)) as Hts.
  { pose proof (parents_par events_map ix Hix x idx Hx) as Hpp. revert Hp Hval. clear -Hpp.
    induction Hpp as [|j p js ps Hj _ IH]; intros Hp Hval; [constructor|]. simpl. constructor.
    - apply Hval; [apply Hp; left|done].
    - apply IH; [intros; apply Hp; by right|done]. }
  destruct (Hcompute x ev _ c Hin Hev Hc Hts) as (t & c' & Ec & Ht & Hc' & HP).
  pose proof (finalized_states done val idx x ev Hni Hx Hev Hp) as Hf.
  pose proof (retained done val idx t Hni Hidx) as Hr.
  assert (∀ w, run_loop (loop_step_of on_target) (idx :: rest) (mkExec T (counts done) (slots_of done done val) c) w
    = match (if tgt idx then on_target x (rep ev (val <$> par idx) t) w else (Ok tt, w)) with
      | (Ok _, w) => run_loop (loop_step_of on_target) rest
          (mkExec T (counts (done ++ [idx])) (slots_of (done ++ [idx]) (done ++ [idx]) (set_val val idx t)) c') w
      | (Err e, w) => Some (Err (Callback e), w)
      end) as Hstep.
  { clear w. intros w. cbn [run_loop]. unfold loop_step_of at 1, finalized_parents, report, retain.
    rewrite Hrun_ix, Hrun_map, Hrun_tgt, tab_lookup by done. cbn [ex_out_degree ex_state_after_map ex_caches].
    rewrite Hx, Hev, Hf. cbn [ex_out_degree ex_state_after_map ex_caches]. rewrite Ec.
    destruct (tgt idx); [destruct (on_target x _ w) as [[[]|e] w']|]; try done; by rewrite Hr. }
  assert (∀ w, ∃ reports, Forall2 (λ i r, items ix !! i = Some r.1 ∧ P r.1 r.2) (filter (λ i, tgt i = true) rest) reports
    ∧ run_loop (loop_step_of on_target) rest (mkExec T (counts (done ++ [idx]))
        (slots_of (done ++ [idx]) (done ++ [idx]) (set_val val idx t)) c') w = Some (call_all on_target reports w)) as Hrest.
  { intros w'. apply IH; [by rewrite <-(assoc_L (++))|done|]. intros i y Hi Hy. unfold set_val.
    case_decide as Hd; [by simplify_eq|]. apply Hval; [set_solver|done]. }
  rewrite Hstep, filter_cons. destruct (tgt idx) eqn:Et.
  - rewrite decide_True by done. destruct (on_target x _ w) as [[[]|e] w'] eqn:Eo.
    + destruct (Hrest w') as (rs & Hrs & Hl). exists ((x, rep ev (val <$> par idx) t) :: rs).
      split; [by constructor|]. simpl. by rewrite Eo.
    + destruct (Hrest w') as (rs & Hrs & _). exists ((x, rep ev (val <$> par idx) t) :: rs).
      split; [by constructor|]. simpl. by rewrite Eo.
  - rewrite decide_False by done. apply Hrest.
Qed.
End loop.
End slots.
