(* ===== verification/StateMerge.v ===== *)
(** * Merging the parents' states

    What a merge at a fork reads and runs, in the terms of [MultiProps]: the
    agreed entries, the keys on which the parents differ, and the candidates.
    It is the resolver of [Multi] except that it adds no conflicted subgraph
    and passes over contested events it does not know. *)
From stdpp Require Import prelude gmap strings sorting.
From Stdlib Require String.
From S2P Require Import Prelude Dense EventTypes Json Events Reachability JsonContent Auth Samples Sorting Kahn ReachProps Subgraph AuthDiff AuthDiffProps Mainline LocalAuth Iterative PowerPhase IterProps OrdMap OrdMapWalk OrdMapDiff StateDiff Multi MultiProps MultiSpec LtHash StateHash StateAt.

Section merge.
Context {Id C : Type} `{EventId Id} `{EventContent C} `{Ho : HashOrder}.
Abbreviation event := (LeanEvent Id C).
Abbreviation event_map := (gmap Id event).
Abbreviation key := (string * string)%type.
Abbreviation shared_state := (gmap key Id).
Implicit Types (ctx : event_map) (maps : list shared_state) (version : StateResVersion).

(** ** The differences from the first state *)

Lemma elem_of_hs_iter {A} `{Countable A} (s : gset A) x : x ∈ hs_iter s ↔ x ∈ s.
Proof. unfold hs_iter. by rewrite elem_of_hm_keys, dom_gset_to_gmap. Qed.

Definition item_ids (d : DiffItem key Id) : gset Id :=
  match d with Add _ v | Remove _ v => {[v]} | Update old new => {[new.2; old.2]} end.

Lemma conflicts_of_items (s : gset key * gset Id) ds :
  (∀ k, k ∈ (foldl conflicts_of_item s ds).1 ↔ k ∈ s.1 ∨ ∃ d, d ∈ ds ∧ item_key d = k)
  ∧ (∀ x, x ∈ (foldl conflicts_of_item s ds).2 ↔ x ∈ s.2 ∨ ∃ d, d ∈ ds ∧ x ∈ item_ids d).
Proof.
  induction ds as [|d ds IH] using rev_ind; [set_solver|]. rewrite foldl_app. simpl.
  destruct (foldl conflicts_of_item s ds) as [ks cs]. simpl in IH. destruct IH as [IH1 IH2].
  split; [intros k|intros x].
  - assert (k ∈ (conflicts_of_item (ks, cs) d).1 ↔ k = item_key d ∨ k ∈ ks) as -> by (destruct d; simpl; set_solver).
    rewrite IH1. set_solver.
  - assert (x ∈ (conflicts_of_item (ks, cs) d).2 ↔ x ∈ item_ids d ∨ x ∈ cs) as -> by (destruct d; simpl; set_solver).
    rewrite IH2. set_solver.
Qed.

Lemma diff_item_at (m m' : shared_state) k :
  (∃ d, d ∈ state_diff_items m m' ∧ item_key d = k) ↔ m !! k ≠ m' !! k.
Proof.
  split.
  - intros (d & Hd & Hk) Heq. apply elem_of_state_diff in Hd as (k' & Hd). pose proof (diff_at_key _ _ _ _ Hd) as Hk'.
    assert (k' = k) as -> by congruence. rewrite Heq in Hd. unfold diff_at in Hd.
    destruct (m' !! k); [by rewrite decide_True in Hd by done|done].
  - intros Hne. destruct (diff_at k (m !! k) (m' !! k)) as [d|] eqn:Hd.
    + exists d. split; [apply elem_of_state_diff; by exists k|by eapply diff_at_key].
    + unfold diff_at in Hd. repeat case_match; try case_decide; simplify_eq; congruence.
Qed.

Lemma diff_item_id (m m' : shared_state) x :
  (∃ d, d ∈ state_diff_items m m' ∧ x ∈ item_ids d) ↔ ∃ k, m !! k ≠ m' !! k ∧ (m !! k = Some x ∨ m' !! k = Some x).
Proof.
  split.
  - intros (d & Hd & Hx). apply elem_of_state_diff in Hd as (k & Hd). exists k. unfold diff_at in Hd.
    destruct (m !! k) as [a|], (m' !! k) as [b|]; try case_decide; simplify_eq/=; set_solver.
  - intros (k & Hne & Hx). destruct (diff_at k (m !! k) (m' !! k)) as [d|] eqn:Hd.
    + exists d. split; [apply elem_of_state_diff; by exists k|]. unfold diff_at in Hd.
      destruct (m !! k) as [a|], (m' !! k) as [b|]; try case_decide; simplify_eq/=; set_solver.
    + unfold diff_at in Hd. repeat case_match; try case_decide; simplify_eq; congruence.
Qed.

Definition conflicts_from (first : shared_state) (rest : list shared_state) : gset key * gset Id :=
  foldl (λ s other, foldl conflicts_of_item s (state_diff_items first other)) (∅, ∅) rest.

Lemma conflicts_from_spec first rest :
  (∀ k, k ∈ (conflicts_from first rest).1 ↔ ∃ m, m ∈ rest ∧ first !! k ≠ m !! k)
  ∧ (∀ x, x ∈ (conflicts_from first rest).2 ↔
       ∃ m k, m ∈ rest ∧ first !! k ≠ m !! k ∧ (first !! k = Some x ∨ m !! k = Some x)).
Proof.
  unfold conflicts_from. induction rest as [|m rest [IH1 IH2]] using rev_ind; [set_solver|]. rewrite foldl_app. simpl.
  set (s := foldl (λ s other, foldl conflicts_of_item s (state_diff_items first other)) (∅, ∅) rest) in *.
  destruct (conflicts_of_items s (state_diff_items first m)) as [Hk Hx]. split.
  - intros k. rewrite Hk, IH1, diff_item_at. split.
    + intros [(m' & Hm & Hne)|Hne]; [exists m'|exists m]; rewrite elem_of_app, list_elem_of_singleton; tauto.
    + intros (m' & [Hm| ->%list_elem_of_singleton]%elem_of_app & Hne); [left; by exists m'|by right].
  - intros x. rewrite Hx, IH2, diff_item_id. split.
    + intros [(m' & k & Hm & Hne)|(k & Hne)]; [exists m', k|exists m, k]; rewrite elem_of_app, list_elem_of_singleton; tauto.
    + intros (m' & k & [Hm| ->%list_elem_of_singleton]%elem_of_app & Hne); [left; by exists m', k|right; by exists k].
Qed.

(** ** What a merge runs *)

Definition merge_readable maps ctx version : Prop :=
  version ≠ V1 → ∀ k id x, agreed maps k id → rtc (auth_of ctx) id x → x ∈ dom ctx.

Record merge_plan maps ctx version (u : shared_state) (ks : gset key) (S : gset Id) : Prop := {
  mp_agreed k id : u !! k = Some id ↔ agreed maps k id;
  mp_keys k : k ∈ ks ↔ ∃ m m', m ∈ maps ∧ m' ∈ maps ∧ m !! k ≠ m' !! k;
  mp_candidate x : x ∈ S ↔ contested maps x ∨ (version ≠ V1 ∧ in_difference maps ctx x)
}.

Lemma foldl_delete (l : list key) (m : shared_state) k :
  foldl (λ m k, delete k m) m l !! k = if decide (k ∈ l) then None else m !! k.
Proof.
  induction l as [|k' l IH] using rev_ind; [done|]. rewrite foldl_app. simpl.
  destruct (decide (k = k')) as [->|Hne].
  - rewrite lookup_delete_eq, decide_True by set_solver. done.
  - rewrite lookup_delete_ne, IH by done. repeat case_decide; set_solver.
Qed.

Lemma insert_known_restrict ctx (S : gset Id) ids :
  foldl (insert_known ctx) (restrict ctx S) ids = restrict ctx (list_to_set ids ∪ S).
Proof.
  revert S. induction ids as [|id ids IH]; intros S; simpl; [by rewrite (left_id_L ∅ (∪))|].
  unfold insert_known at 2. destruct (ctx !! id) as [ev|] eqn:E.
  - rewrite restrict_insert, IH by done. f_equal. set_solver.
  - rewrite IH. apply restrict_ext. intros x Hx. apply not_elem_of_dom in E. set_solver.
Qed.

Lemma differ_agreed (first : shared_state) rest (k : key) : (∃ m, m ∈ rest ∧ first !! k ≠ m !! k) ↔
  ∃ m m', m ∈ first :: rest ∧ m' ∈ first :: rest ∧ m !! k ≠ m' !! k.
Proof.
  split; [intros (m & Hm & Hne); exists first, m; set_solver|].
  intros (m & m' & Hm & Hm' & Hne).
  apply elem_of_cons in Hm as [->|Hm], Hm' as [->|Hm']; [done|by exists m'|by exists m|].
  destruct (decide (first !! k = m !! k)) as [E|E]; [|by exists m]. exists m'. split; [done|congruence].
Qed.

Lemma contested_differ (first : shared_state) rest x :
  (∃ m k, m ∈ rest ∧ first !! k ≠ m !! k ∧ (first !! k = Some x ∨ m !! k = Some x)) ↔ contested (first :: rest) x.
Proof.
  unfold contested, agreed. split.
  - intros (m & k & Hm & Hne & [Hx|Hx]).
    + exists k, first. split_and!; [left|done|]. intros Ha. rewrite (Ha m) in Hne by (by right). by rewrite Hx in Hne.
    + exists k, m. split_and!; [by right|done|]. intros Ha. rewrite (Ha first) in Hne by left. by rewrite Hx in Hne.
  - intros (k & m & Hm & Hx & Hn). destruct (decide (first !! k = m !! k)) as [E|E].
    2:{ apply elem_of_cons in Hm as [->|Hm]; [done|]. exists m, k. tauto. }
    destruct (decide (Exists (λ m', first !! k ≠ m' !! k) rest)) as [(m' & Hm' & Hne)%Exists_exists|Hno].
    + exists m', k. split_and!; [done..|]. left. congruence.
    + destruct Hn. intros m' [->|Hm']%elem_of_cons; [congruence|].
      destruct (decide (first !! k = m' !! k)) as [E'|E']; [congruence|]. destruct Hno. apply Exists_exists. by exists m'.
Qed.

Lemma early_exit (first : shared_state) rest :
  (length (first :: rest) =? 1) || bool_decide (Forall (λ state, first = state) rest) = all_identical (first :: rest).
Proof.
  unfold all_identical. destruct rest as [|m rest]; [done|]. simpl length. simpl orb.
  apply bool_decide_ext. rewrite !Forall_forall. naive_solver.
Qed.

(** The merge, whatever the caches. *)
Lemma merge_spec maps ctx version caches :
  maps ≠ [] → all_identical maps = false →
  (merge_readable maps ctx version ∧ ∃ u ks S, merge_plan maps ctx version u ks S ∧
    resolve_merged_parent_states maps ctx version caches =
      match resolve_iterative_sort_with_all_caches u (restrict ctx S) ctx version
              (Some (auth_cache caches)) (mainline_cache caches) ks with
      | Some (r, c, m) => Some (r, mkForkCaches c m)
      | None => None
      end)
  ∨ ¬ merge_readable maps ctx version ∧ resolve_merged_parent_states maps ctx version caches = None.
Proof.
  intros Hne Hid. destruct maps as [|first rest]; [done|]. unfold resolve_merged_parent_states.
  rewrite early_exit, Hid. fold (conflicts_from first rest).
  destruct (conflicts_from_spec first rest) as [Hks Hcs]. destruct (conflicts_from first rest) as [ks cs]. simpl in Hks, Hcs.
  set (u := foldl _ first (hs_iter ks)).
  assert (∀ k id, u !! k = Some id ↔ agreed (first :: rest) k id) as Hu.
  { intros k id. unfold u. rewrite foldl_delete. unfold agreed. case_decide as Hk; rewrite elem_of_hs_iter in Hk.
    - split; [done|]. intros Ha. apply Hks in Hk as (m & Hm & Hne'). rewrite (Ha first), (Ha m) in Hne' by (by (left || right)). done.
    - split; [|intros Ha; apply Ha; left]. intros Hf m [->|Hm]%elem_of_cons; [done|].
      destruct (decide (first !! k = m !! k)) as [E|E]; [congruence|]. destruct Hk. apply Hks. by exists m. }
  assert (∀ x, x ∈ hs_iter cs ↔ contested (first :: rest) x) as Hc.
  { intros x. by rewrite elem_of_hs_iter, Hcs, contested_differ. }
  assert (foldl (insert_known ctx) ∅ (hs_iter cs) = restrict ctx (list_to_set (hs_iter cs))) as ->.
  { assert (∅ = restrict ctx ∅) as ->.
    { symmetry. apply map_eq. intros x. rewrite restrict_lookup, lookup_empty. by destruct (decide (x ∈ ∅)); [set_solver|]. }
    rewrite insert_known_restrict. f_equal. set_solver. }
  unfold merge_auth_difference, version_eqb. case_bool_decide as Hv.
  { left. split; [by intros Hn|]. exists u, ks, (list_to_set (hs_iter cs)). split; [|done]. split; [done| |].
    - intros k. by rewrite Hks, differ_agreed.
    - intros x. rewrite elem_of_list_to_set, Hc. tauto. }
  destruct (difference_forks (context_auth ctx) (λ _, True) (dom ctx) (first :: rest) ctx (size ctx) tt u (hs_iter cs))
    as (r & s' & -> & _ & Hr); [apply context_source_ok|done|by rewrite size_dom|done|done|].
  destruct r as [diff|e].
  - left. destruct Hr as [Hk Hd]. split; [by intros _|]. exists u, ks, (list_to_set diff ∪ list_to_set (hs_iter cs)).
    rewrite insert_known_restrict. split; [|done]. split; [done| |].
    + intros k. by rewrite Hks, differ_agreed.
    + intros x. rewrite elem_of_union, !elem_of_list_to_set, Hd, Hc. tauto.
  - right. destruct Hr as (k & id & Ha & Hr & Hn). split; [|done]. intros Hread. by eapply Hn, Hread.
Qed.

Lemma merge_identical maps ctx version caches first :
  all_identical maps = true → first ∈ maps → resolve_merged_parent_states maps ctx version caches = Some (first, caches).
Proof.
  intros Hid Hf. destruct maps as [|m rest]; [by apply elem_of_nil in Hf|].
  unfold resolve_merged_parent_states. rewrite early_exit, Hid. do 2 f_equal.
  apply (proj1 (all_identical_spec (m :: rest)) Hid); [left|done].
Qed.

Lemma merge_plan_unique maps ctx version u ks S u' ks' S' :
  merge_plan maps ctx version u ks S → merge_plan maps ctx version u' ks' S' → u = u' ∧ ks = ks' ∧ S = S'.
Proof.
  intros [Hu Hk HS] [Hu' Hk' HS']. split_and!.
  - apply map_eq. intros k. apply option_eq. intros id. by rewrite Hu, Hu'.
  - apply set_eq. intros k. by rewrite Hk, Hk'.
  - apply set_eq. intros x. by rewrite HS, HS'.
Qed.

(** An entry the resolution of the candidates put in place. *)
Definition merge_decided maps ctx version (k : key) (id : Id) : Prop :=
  ∃ u ks S, merge_plan maps ctx version u ks S
    ∧ accepted_entry u (restrict ctx S) ctx version ks (find_create_event u (restrict ctx S) ctx) k id.

Lemma merge_result maps ctx version caches :
  maps ≠ [] → context_wf version ctx → version ≠ V3 → cache_ok ctx version (mainline_cache caches) →
  match resolve_merged_parent_states maps ctx version caches with
  | Some (r, caches') => (merge_readable maps ctx version ∨ all_identical maps = true)
      ∧ (∀ k id, agreed maps k id → r !! k = Some id)
      ∧ (∀ k id, r !! k = Some id → agreed maps k id ∨ merge_decided maps ctx version k id)
      ∧ cache_ok ctx version (mainline_cache caches')
  | None => ¬ merge_readable maps ctx version ∧ all_identical maps = false
  end.
Proof.
  intros Hne Hc Hv Hmc. destruct (all_identical maps) eqn:Eid.
  { destruct maps as [|first rest]; [done|]. rewrite (merge_identical _ _ _ _ first Eid) by left.
    assert (∀ k id, agreed (first :: rest) k id ↔ first !! k = Some id) as Ha
      by (intros; apply identical_agreed; [done|left]).
    split_and!; [by right|by intros k id; rewrite Ha| |done]. intros k id Hk. left. by apply Ha. }
  destruct (merge_spec maps ctx version caches Hne Eid) as [(Hr & u & ks & S & Hplan & ->)|[Hr ->]]; [|done].
  apply (cache_ok_restrict version ctx S) in Hmc.
  destruct (resolution_outcome u (restrict ctx S) ctx version ks (restrict_inputs_wf version ctx S Hc)
    (Some (auth_cache caches)) (mainline_cache caches) Hv Hmc) as (r & c' & m' & -> & Hkeep & Hacc & Hmc').
  pose proof (mp_agreed _ _ _ _ _ _ Hplan) as Hu. split_and!; [by left|by intros k id Ha%Hu; apply Hkeep| |].
  - intros k id Hk. destruct (u !! k) as [id'|] eqn:Ek.
    + left. apply Hu. rewrite (Hkeep _ _ Ek) in Hk. congruence.
    + right. exists u, ks, S. split; [done|]. by apply Hacc.
  - by apply (cache_ok_restrict version ctx S).
Qed.

(** In the versions whose local auth context is the cited events alone, sound
    caches change nothing and stay sound. *)
Lemma merge_caches maps ctx version c1 c2 :
  maps ≠ [] → context_wf version ctx → version ≠ V3 → transitive_auth version = false →
  caches_sound version ctx c1 → caches_sound version ctx c2 →
  match resolve_merged_parent_states maps ctx version c1, resolve_merged_parent_states maps ctx version c2 with
  | Some (r1, c1'), Some (r2, _) => r1 = r2 ∧ caches_sound version ctx c1'
  | None, None => True
  | _, _ => False
  end.
Proof.
  intros Hne Hc Hv Hd Hs1 Hs2. destruct (all_identical maps) eqn:Eid.
  { destruct maps as [|first rest]; [done|]. by rewrite !(merge_identical _ _ _ _ first Eid) by left. }
  destruct (merge_spec maps ctx version c1 Hne Eid) as [(Hr & u & ks & S & Hplan & ->)|[Hr ->]];
  destruct (merge_spec maps ctx version c2 Hne Eid) as [(Hr' & u' & ks' & S' & Hplan' & ->)|[Hr' ->]]; [|done..].
  destruct (merge_plan_unique _ _ _ _ _ _ _ _ _ Hplan Hplan') as (<- & <- & <-).
  destruct Hs1 as [Ha1 Hm1], Hs2 as [Ha2 Hm2].
  destruct (caches_agree u (restrict ctx S) ctx version ks (restrict_inputs_wf version ctx S Hc) Hd
    (Some (auth_cache c1)) (Some (auth_cache c2)) (mainline_cache c1) (mainline_cache c2) Hv)
    as (final & k1 & k2 & m1 & m2 & -> & -> & Hk1 & Hm1'); [| |by apply cache_ok_restrict..|].
  { intros c [= <-] Hcv. apply direct_cache_restrict. by apply Ha1. }
  { intros c [= <-] Hcv. apply direct_cache_restrict. by apply Ha2. }
  split; [done|]. split; simpl; [intros _; by apply (direct_cache_restrict ctx S)|by apply (cache_ok_restrict version ctx S)].
Qed.

(** A fresh cache is the cache the resolver makes when it is given none. *)
Lemma fresh_cache (u : shared_state) (cf ctx : event_map) version (ks : gset key) mc :
  resolve_iterative_sort_with_all_caches u cf ctx version (Some (LocalAuthCache_new version)) mc ks
  = resolve_iterative_sort_with_all_caches u cf ctx version None mc ks.
Proof. unfold resolve_iterative_sort_with_all_caches, select_local_auth_cache. done. Qed.

Lemma differing_keys maps ctx version (ks : gset key) (S0 : gset Id) :
  keyed maps ctx → (∀ x, contested maps x → x ∈ dom ctx) → (∀ x, x ∈ S0 ↔ contested maps x) →
  (∀ k, k ∈ ks ↔ ∃ m m', m ∈ maps ∧ m' ∈ maps ∧ m !! k ≠ m' !! k) → ks = keys_of ctx S0.
Proof.
  intros Hkeyed Hd HS0 Hks. apply set_eq. intros k. rewrite Hks. unfold keys_of. rewrite derive_keys_elem. split.
  - intros (m & m' & Hm & Hm' & Hne).
    assert (∃ id m, m ∈ maps ∧ m !! k = Some id ∧ contested maps id) as (id & m0 & Hm0 & Hid & Hcon).
    { destruct (m !! k) as [id|] eqn:E; [exists id, m|destruct (m' !! k) as [id|] eqn:E'; [exists id, m'|done]];
        (split_and!; [done..|]); eexists k, _; (split_and!; [|done|]; [done|]); intros Ha.
      - rewrite (Ha m') in Hne by done. done.
      - rewrite (Ha m) in E by done. done. }
    destruct (proj1 (elem_of_dom _ _) (Hd id Hcon)) as [ev Hev]. exists id, ev.
    rewrite restrict_Some, HS0. split_and!; [done..|]. by eapply Hkeyed.
  - intros (id & ev & [Hcon%HS0 Hev]%restrict_Some & ->). destruct Hcon as (k & m & Hm & Hk & Hn).
    rewrite <-(Hkeyed m k id ev Hm Hk Hev).
    destruct (decide (Exists (λ m', m !! k ≠ m' !! k) maps)) as [(m' & Hm' & Hne)%Exists_exists|Hno]; [by exists m, m'|].
    destruct Hn. intros m' Hm'. destruct (decide (m !! k = m' !! k)) as [E|E]; [congruence|].
    destruct Hno. apply Exists_exists. by exists m'.
Qed.

(** With fresh caches the merge of known events is the fork resolver's, in the
    versions without a conflicted subgraph. *)
Lemma merge_resolver maps ctx version :
  maps_wf maps → context_wf version ctx → has_subgraph version = false → keyed maps ctx →
  (∀ x, contested maps x → x ∈ dom ctx) →
  fst <$> resolve_merged_parent_states maps ctx version (ForkResolveCaches_new version) = resolve_state_maps maps ctx version.
Proof.
  intros Hwf Hc Hsub Hkeyed Hd. unfold resolve_state_maps, resolve_with. simpl. destruct (all_identical maps) eqn:Eid.
  { destruct maps as [|first rest]; [by destruct Hwf|]. rewrite (merge_identical _ _ _ _ first Eid) by left.
    unfold resolve_state_maps_generic. by rewrite Eid. }
  destruct (merge_spec maps ctx version (ForkResolveCaches_new version) (proj1 Hwf) Eid)
    as [(Hr & u & ks & S & Hplan & ->)|[Hr ->]];
  destruct (generic_spec maps ctx version None None None Hwf (cw_graph _ _ Hc) I Eid)
    as [(Hr' & u' & S0 & S' & Hplan' & ->)|[Hr' ->]].
  - destruct Hplan as [Hu Hk HS], Hplan' as [Hu' HS0 HS'].
    assert (u = u') as <- by (apply map_eq; intros k; apply option_eq; intros id; by rewrite Hu, Hu').
    assert (S = S') as <-.
    { apply set_eq. intros x. rewrite HS, HS'. unfold candidate. rewrite Hsub. naive_solver. }
    rewrite (differing_keys maps ctx version ks S0 Hkeyed Hd HS0 Hk). simpl. rewrite fresh_cache.
    by destruct (resolve_iterative_sort_with_all_caches _ _ _ _ _ _ _) as [[[r c] m]|].
  - destruct Hr'. by split.
  - destruct Hr. exact (proj2 Hr').
  - done.
Qed.
End merge.
