(* ===== verification/StateSpec.v ===== *)
(** * What the streaming pipelines report

    The state after an event is the merge of the states after its parents with
    the event's own entry added, a relation by rule induction; the theorems
    say that the pipelines report exactly these states, once for each target,
    ancestors first, or that the graph has a cycle. *)
From stdpp Require Import prelude gmap strings sorting.
From Stdlib Require String.
From S2P Require Import Prelude Dense EventTypes Json Events Reachability JsonContent Auth Samples Sorting Kahn ReachProps Subgraph AuthDiff AuthDiffProps Mainline LocalAuth Iterative PowerPhase IterProps OrdMap OrdMapWalk OrdMapDiff StateDiff Multi MultiProps MultiSpec LtHash StateHash StateAt StatePlan StateTopo StateLoop StateMerge.

Section spec.
Context {Id C : Type} `{EventId Id} `{EventContent C}.
Abbreviation event := (LeanEvent Id C).
Abbreviation event_map := (gmap Id event).
Abbreviation key := (string * string)%type.
Abbreviation shared_state := (gmap key Id).
Abbreviation caches := (ForkResolveCaches (Id:=Id) (C:=C)).
Implicit Types (ctx : event_map) (version : StateResVersion).

(** The entry an event adds: its own, if it is a state event and not rejected. *)
Definition with_own_entry (s : shared_state) (ev : event) : shared_state :=
  match state_key ev with
  | Some sk => if rejected ev then s else <[(event_type ev, sk) := event_id ev]> s
  | None => s
  end.

(** The state after an event, for a way [M] of merging. *)
Inductive state_of (M : list shared_state → shared_state → Prop) ctx : Id → shared_state → Prop :=
| state_of_event x ev states merged :
    ctx !! x = Some ev → Forall2 (state_of M ctx) (parents ctx x) states → M states merged →
    state_of M ctx x (with_own_entry merged ev).

Lemma record_with_own (s : shared_state) ev : record_own_state s ev = with_own_entry s ev.
Proof.
  unfold record_own_state, with_own_entry, accepted_state_key. destruct (rejected ev); [by destruct (state_key ev)|].
  destruct (state_key ev) as [sk|]; [|done]. by rewrite key_of_from.
Qed.

(** Every entry is a known event's own, and the event is not rejected. *)
Definition traced ctx (s : shared_state) : Prop :=
  ∀ k id, s !! k = Some id → ∃ ev sk, ctx !! id = Some ev ∧ state_key ev = Some sk ∧ k = (event_type ev, sk)
    ∧ rejected ev = false.

(** The present targets and what they reach. *)
Definition reaches ctx (targets : list Id) (x : Id) : Prop :=
  ∃ t, t ∈ targets ∧ t ∈ dom ctx ∧ rtc (parent_of ctx) t x.
Definition cyclic ctx (targets : list Id) : Prop := ∃ x, reaches ctx targets x ∧ tc (parent_of ctx) x x.

(** One report for each present target, those of its ancestors first. *)
Definition reported {R} ctx (targets : list Id) (P : Id → R → Prop) (reports : list (Id * R)) : Prop :=
  NoDup reports.*1
  ∧ (∀ x, x ∈ reports.*1 ↔ x ∈ targets ∧ x ∈ dom ctx)
  ∧ (∀ l1 x l2, reports.*1 = l1 ++ x :: l2 → ∀ y, tc (parent_of ctx) x y → y ∈ targets → y ∈ l1)
  ∧ ∀ x r, (x, r) ∈ reports → P x r.

Lemma state_of_det M ctx x s :
  (∀ ss r r', M ss r → M ss r' → r = r') → state_of M ctx x s → ∀ s', state_of M ctx x s' → s = s'.
Proof.
  intros HM. revert x s. fix IH 3. intros x s [x' ev states merged Hev Hss Hm] s' Hs'.
  inversion Hs' as [x'' ev' states' merged' Hev' Hss' Hm']. subst. assert (ev' = ev) as -> by congruence.
  assert (states = states') as ->.
  { clear Hm Hm' Hev Hev' Hs'. revert states' Hss'. induction Hss as [|p s0 ps ss Hp Hss IH']; intros states' Hss'.
    - by inversion Hss'.
    - inversion Hss' as [|? s1 ? ss1 Hp1 Hss1]. subst. f_equal; [by eapply IH|by apply IH']. }
  by rewrite (HM _ _ _ Hm Hm').
Qed.

(** ** The indexed run *)

Lemma actual_targets_spec targets ctx :
  NoDup (actual_target_ids targets ctx) ∧ ∀ x, x ∈ actual_target_ids targets ctx ↔ x ∈ targets ∧ x ∈ dom ctx.
Proof.
  unfold actual_target_ids.
  assert (let s := foldl (actual_target ctx) ([], ∅) targets in
    NoDup s.1 ∧ (∀ x, x ∈ s.2 ↔ x ∈ s.1) ∧ ∀ x, x ∈ s.1 ↔ x ∈ targets ∧ x ∈ dom ctx) as (? & _ & ?); [|done].
  induction targets as [|t l IH] using rev_ind; [split_and!; [constructor|set_solver|set_solver]|].
  rewrite foldl_app. simpl in *. destruct (foldl (actual_target ctx) ([], ∅) l) as [ids seen]. simpl in *.
  destruct IH as (Hnd & Hs & Hx). unfold actual_target. simpl. destruct (ctx !! t) as [ev|] eqn:Et.
  - assert (t ∈ dom ctx) as Htd by (by apply elem_of_dom_2 in Et). case_decide as Hd; simpl.
    + split_and!; [done|done|]. intros x. rewrite Hx, elem_of_app, list_elem_of_singleton.
      split; [tauto|]. intros [[?| ->] ?]; [tauto|]. by apply Hx, Hs.
    + split_and!.
      * apply NoDup_app. split_and!; [done| |apply NoDup_singleton]. intros x Hin ->%list_elem_of_singleton. by apply Hd, Hs.
      * intros x. rewrite elem_of_union, elem_of_singleton, elem_of_app, list_elem_of_singleton, Hs. tauto.
      * intros x. rewrite !elem_of_app, !list_elem_of_singleton, Hx. split; [intros [[??]| ->]; tauto|tauto].
  - apply not_elem_of_dom in Et. simpl. split_and!; [done|done|]. intros x.
    rewrite Hx, elem_of_app, list_elem_of_singleton. split; [tauto|]. intros [[?| ->] ?]; tauto.
Qed.

Definition target_at (ix : DenseIndex Id) (l : list Id) (i : nat) : bool :=
  match items ix !! i with Some x => bool_decide (x ∈ l) | None => false end.

Lemma mark_targets (ix : DenseIndex Id) ctx l :
  indexed ctx ix → (∀ x, x ∈ l → x ∈ items ix) →
  try_fold (mark_target ix) l (replicate (Dense.len ix) false) = Some (tab (Dense.len ix) (target_at ix l)).
Proof.
  intros Hix Hl. assert (∀ l0, try_fold (mark_target ix) l (tab (Dense.len ix) (target_at ix l0))
    = Some (tab (Dense.len ix) (target_at ix (l0 ++ l)))) as Hall.
  { induction l as [|x l IH]; intros l0; simpl; [by rewrite app_nil_r|].
    assert (x ∈ items ix) as [i Hi]%list_elem_of_lookup by (apply Hl; left). unfold mark_target at 1.
    rewrite (proj2 (index_items ctx ix Hix x i) Hi). rewrite vec_set_tab by (by eapply lookup_lt_Some).
    assert (tab (Dense.len ix) (λ j, if decide (j = i) then true else target_at ix l0 j)
      = tab (Dense.len ix) (target_at ix (l0 ++ [x]))) as ->.
    { apply tab_ext. intros j Hj. unfold target_at. destruct (lookup_lt_is_Some_2 (items ix) j Hj) as [y Hy]. rewrite Hy.
      destruct (decide (j = i)) as [->|Hne].
      - simplify_eq. symmetry. apply bool_decide_eq_true. set_solver.
      - apply bool_decide_ext. rewrite elem_of_app, list_elem_of_singleton. split; [by left|]. intros [?| ->]; [done|].
        destruct Hne. eapply NoDup_lookup; [apply (dense_nodup _ _ (ix_dense _ _ Hix))|done|done]. }
    rewrite IH by set_solver. by rewrite <-(assoc_L (++)). }
  rewrite replicate_tab. etrans; [|apply (Hall [])]. f_equal. apply tab_ext. intros i _. unfold target_at.
  destruct (items ix !! i); [|done]. symmetry. by apply bool_decide_eq_false, not_elem_of_nil.
Qed.

Lemma pipeline_run_spec {W E : Type} targets ctx version (w : W)
    (k : PipelineRun → option (result unit (StateComputationError E) * W)) :
  (N.of_nat (size ctx) ≤ USIZE_MAX)%N →
  ((∀ x, x ∈ targets → x ∉ dom ctx) ∧ with_pipeline_run (mkInputs targets ctx version) w k = Some (Ok tt, w))
  ∨ ∃ ix tgt, indexed ctx ix ∧ (∀ x, x ∈ items ix ↔ reaches ctx targets x)
      ∧ (∀ i x, items ix !! i = Some x → tgt i = true ↔ x ∈ targets)
      ∧ with_pipeline_run (mkInputs targets ctx version) w k = k (mkRun ix (tab (Dense.len ix) tgt) ctx version).
Proof.
  intros Hsize. destruct (actual_targets_spec targets ctx) as [Hnd Hact].
  unfold with_pipeline_run, with_target_index. simpl. destruct (actual_target_ids targets ctx) as [|t0 l] eqn:Ea.
  { left. split; [|done]. intros x Hx Hd. by apply (not_elem_of_nil x), Hact. }
  right. destruct (collect_batch_spec ctx (t0 :: l)) as (ix & -> & Hok & Hlen & Hitems); [intros t Ht; by apply Hact|done|].
  assert (indexed ctx ix) as Hix.
  { split; [done| | |done].
    - intros x Hx%Hitems. eapply ancestor_dom; [|exact Hx]. intros t Ht. by apply Hact.
    - intros x p (t & Ht & Hr)%Hitems Hp. apply Hitems. exists t. split; [done|]. by eapply rtc_r. }
  assert (∀ x, x ∈ t0 :: l → x ∈ items ix) as Hin by (intros x Hx; apply Hitems; by exists x).
  pose proof (mark_targets ix ctx (t0 :: l) Hix Hin) as Hm. cbn [try_fold] in Hm.
  exists ix, (target_at ix (t0 :: l)). split_and!; [done| | |].
  - intros x. rewrite Hitems. unfold ancestor, reaches. split.
    + intros (t & Ht & Hr). exists t. apply Hact in Ht. tauto.
    + intros (t & Ht & Hd & Hr). exists t. split; [by apply Hact|done].
  - intros i x Hi. unfold target_at. rewrite Hi, bool_decide_eq_true, Hact. split; [tauto|]. intros Hx. split; [done|].
    apply (ix_dom _ _ Hix). by eapply list_elem_of_lookup_2.
  - rewrite Hm. by destruct (k _).
Qed.

(** ** Either pipeline *)

Lemma NoDup_split {A} (k l k' l' : list A) x : NoDup (k ++ x :: l) → k ++ x :: l = k' ++ x :: l' → k = k'.
Proof.
  revert k'. induction k as [|y k IH]; intros [|y' k'] Hnd E; simplify_eq/=; [done| | |].
  - apply NoDup_cons in Hnd as [Hn _]. set_solver.
  - apply NoDup_cons in Hnd as [Hn _]. set_solver.
  - apply NoDup_cons in Hnd as [_ Hnd]. f_equal. by apply (IH k').
Qed.

(** The targets of an order, with the reports made for them. *)
Lemma reports_ordered {R} ctx (ix : DenseIndex Id) tgt targets (P : Id → R → Prop) sorted (reports : list (Id * R)) :
  indexed ctx ix → ordered ctx ix sorted → (∀ i, i < Dense.len ix → i ∈ sorted) →
  (∀ x, x ∈ items ix ↔ reaches ctx targets x) → (∀ i x, items ix !! i = Some x → tgt i = true ↔ x ∈ targets) →
  Forall2 (λ i r, items ix !! i = Some r.1 ∧ P r.1 r.2) (filter (λ i, tgt i = true) sorted) reports →
  reported ctx targets P reports.
Proof.
  intros Hix Ho Hall Hitems Htgt Hr.
  assert (Forall2 (λ i x, items ix !! i = Some x) (filter (λ i, tgt i = true) sorted) reports.*1) as Hids.
  { apply Forall2_fmap_r. eapply Forall2_impl; [exact Hr|]. by intros i r [? _]. }
  assert (∀ j y, items ix !! j = Some y → y ∈ targets → j ∈ filter (λ i, tgt i = true) sorted) as Hin.
  { intros j y Hj Hy. apply list_elem_of_filter. split; [by apply (Htgt j y)|]. apply Hall. by eapply lookup_lt_Some. }
  pose proof (dense_nodup _ _ (ix_dense _ _ Hix)) as Hnd.
  split_and!.
  - apply NoDup_alt. intros a b x Ha Hb.
    destruct (Forall2_lookup_r _ _ _ _ _ Hids Ha) as (i & Hi & Hxi).
    destruct (Forall2_lookup_r _ _ _ _ _ Hids Hb) as (j & Hj & Hxj).
    assert (i = j) as -> by (by eapply NoDup_lookup). eapply NoDup_lookup; [|exact Hi|exact Hj].
    apply NoDup_filter, (ord_nodup _ _ _ Ho).
  - intros x. split.
    + intros Hx. apply list_elem_of_lookup in Hx as [a Ha]. destruct (Forall2_lookup_r _ _ _ _ _ Hids Ha) as (i & Hi & Hxi).
      apply list_elem_of_lookup_2, list_elem_of_filter in Hi as [Ht _]. split; [by apply (Htgt i x)|].
      apply (ix_dom _ _ Hix). by eapply list_elem_of_lookup_2.
    + intros [Hx Hd]. assert (x ∈ items ix) as [i Hi]%list_elem_of_lookup by (apply Hitems; by exists x).
      destruct (proj1 (list_elem_of_lookup _ _) (Hin i x Hi Hx)) as [a Ha].
      destruct (Forall2_lookup_l _ _ _ _ _ Hids Ha) as (y & Hy & Hiy). simplify_eq. by eapply list_elem_of_lookup_2.
  - intros l1 x l2 El y Hxy Hy. rewrite El in Hids.
    apply Forall2_app_inv_r in Hids as (k1 & k2 & H1 & H2 & Ek). inversion H2 as [|i ? k3 ? Hi H3]. subst.
    assert (i ∈ filter (λ i, tgt i = true) sorted) as Hif by (rewrite Ek; set_solver).
    apply list_elem_of_filter in Hif as [Hti Hif]. apply list_elem_of_split in Hif as (s1 & s2 & Es).
    destruct (ancestor_before ctx ix Hix sorted x y i s1 s2 Ho Hxy Hi Es) as (j & Hj & Hjs).
    assert (k1 = filter (λ i, tgt i = true) s1) as ->.
    { pose proof (NoDup_filter (λ i, tgt i = true) _ (ord_nodup _ _ _ Ho)) as Hndf.
      rewrite Ek in Hndf. apply (NoDup_split _ k3 _ (filter (λ i, tgt i = true) s2) i Hndf).
      rewrite <-Ek, Es, filter_app, filter_cons. by rewrite decide_True. }
    assert (j ∈ filter (λ i, tgt i = true) s1) as Hjf by (apply list_elem_of_filter; split; [by apply (Htgt j y)|done]).
    apply list_elem_of_lookup in Hjf as [a Ha]. destruct (Forall2_lookup_l _ _ _ _ _ H1 Ha) as (z & Hz & Hjz).
    simplify_eq. by eapply list_elem_of_lookup_2.
  - intros x r Hin'. apply list_elem_of_lookup in Hin' as [a Ha]. by destruct (Forall2_lookup_r _ _ _ _ _ Hr Ha) as (i & _ & _ & ?).
Qed.

Lemma reported_none {R} ctx targets (P : Id → R → Prop) :
  (∀ x, x ∈ targets → x ∉ dom ctx) → ¬ cyclic ctx targets ∧ reported ctx targets P [].
Proof.
  intros Hno. split; [intros (x & (t & Ht & Hd & _) & _); by apply (Hno t)|].
  split_and!; [constructor|set_solver|intros l1 x l2 E'; by destruct l1|intros x r Hx; by apply elem_of_nil in Hx].
Qed.

(** A run of the loop over an indexed graph. *)
Lemma prepared_spec {T R W E : Type} ctx (ix : DenseIndex Id) tgt version targets
    (compute : event → list T → caches → option (T * caches)) (rep : event → list T → T → R)
    (V : Id → T → Prop) (K : caches → Prop) (P : Id → R → Prop)
    (step : PipelineExecution T → W → nat → option (result (PipelineExecution T) E * W))
    (on_target : Id → R → W → result unit E * W) (t0 : T) w :
  let run := mkRun ix (tab (Dense.len ix) tgt) ctx version in
  indexed ctx ix → (∀ x, x ∈ items ix ↔ reaches ctx targets x) →
  (∀ i x, items ix !! i = Some x → tgt i = true ↔ x ∈ targets) →
  K (ForkResolveCaches_new version) →
  (∀ x ev ts c, x ∈ items ix → ctx !! x = Some ev → K c → Forall2 V (parents ctx x) ts →
    ∃ t c', compute ev ts c = Some (t, c') ∧ V x t ∧ K c' ∧ P x (rep ev ts t)) →
  (∀ exec w idx, step exec w idx = loop_step_of run compute rep on_target exec w idx) →
  (cyclic ctx targets ∧ run_prepared run step w = Some (Err CycleDetected, w))
  ∨ (¬ cyclic ctx targets ∧ ∃ reports, reported ctx targets P reports
       ∧ run_prepared run step w = Some (call_all on_target reports w)).
Proof.
  intros run Hix Hitems Htgt HK Hcompute Hstep. unfold run_prepared, prepare_execution.
  destruct (checked_plan_spec (E:=E) ctx ix Hix) as (r & Hr & Hres). simpl. rewrite Hr.
  destruct r as [[sorted outs]|e].
  - destruct Hres as (Ho & -> & Hall & Hac). right. split.
    { intros (x & Hx%Hitems & Ht). by apply (Hac x). }
    destruct (run_loop_spec ctx ix Hix run tgt eq_refl eq_refl eq_refl compute rep V K P Hcompute on_target
      sorted [] sorted (λ _, t0) (ForkResolveCaches_new version) w Ho eq_refl HK) as (reports & Hrep & Hrun).
    { intros i x Hi. by apply elem_of_nil in Hi. }
    exists reports. split; [by eapply reports_ordered|]. rewrite <-Hrun.
    assert (child_counts ctx ix = counts ctx ix []) as ->.
    { apply tab_ext. intros p _. unfold pending. do 2 f_equal. induction (kids_below _ _ _ _) as [|q l IH]; [done|].
      rewrite filter_cons, decide_True by set_solver. by f_equal. }
    assert (replicate (Dense.len ix) None = slots_of ctx ix [] [] (λ _, t0)) as ->.
    { rewrite replicate_tab. apply tab_ext. intros p _. unfold slot_of. rewrite decide_False by set_solver. done. }
    generalize (mkExec (Id:=Id) (C:=C) T (counts ctx ix []) (slots_of ctx ix [] [] (λ _, t0)) (ForkResolveCaches_new version)).
    clear -Hstep. intros exec. revert exec w. induction sorted as [|idx sorted IH]; intros exec w; [done|]. simpl.
    rewrite Hstep. destruct (loop_step_of _ _ _ _ _ _ _) as [[[exec'|e] w']|]; [apply IH|done|done].
  - destruct Hres as (-> & x & Hx%Hitems & Ht). left. split; [by exists x|done].
Qed.
End spec.

(** ** The streaming pipelines implement their specification

    Both pipelines as instances of the loop, for any sound way of merging, and
    the entry points built on them. *)

Section stream.
Context {Id C : Type} `{EventId Id} `{EventContent C} `{Ho : HashOrder}.
Abbreviation event := (LeanEvent Id C).
Abbreviation event_map := (gmap Id event).
Abbreviation key := (string * string)%type.
Abbreviation shared_state := (gmap key Id).
Abbreviation caches := (ForkResolveCaches (Id:=Id) (C:=C)).
Context (ctx : event_map) (version : StateResVersion).
Hypothesis Hids : ∀ id ev, ctx !! id = Some ev → event_id ev = id.

(** A way of merging that the caches [K] support. *)
Context (M : list shared_state → shared_state → Prop) (K : caches → Prop).
Hypothesis HM : ∀ ss c, Forall (traced ctx) ss → K c →
  ∃ r c', resolve_merged_parent_states ss ctx version c = Some (r, c') ∧ M ss r ∧ K c' ∧ traced ctx r.
Hypothesis HK : K (ForkResolveCaches_new version).

Definition settled (x : Id) (s : shared_state) : Prop := state_of M ctx x s ∧ traced ctx s.

Lemma record_traced x ev s : ctx !! x = Some ev → traced ctx s → traced ctx (record_own_state s ev).
Proof using Hids.
  intros Hev Hs. unfold record_own_state, accepted_state_key. destruct (rejected ev) eqn:Er; [done|].
  destruct (state_key ev) as [sk|] eqn:Esk; [|done].
  intros k id [[<- <-]|[_ Hk]]%lookup_insert_Some; [|by apply Hs].
  exists ev, sk. rewrite (Hids _ _ Hev). split_and!; [done|done|apply key_of_from|done].
Qed.

Lemma settled_traced ps ss : Forall2 settled ps ss → Forall (traced ctx) ss ∧ Forall2 (state_of M ctx) ps ss.
Proof. induction 1 as [|p s ps ss [? ?] _ [? ?]]; split; constructor; done. Qed.

Lemma record_settled x ev ss c :
  ctx !! x = Some ev → K c → Forall2 settled (parents ctx x) ss →
  ∃ r c', resolve_merged_parent_states ss ctx version c = Some (r, c') ∧ settled x (record_own_state r ev) ∧ K c'.
Proof using Hids HM.
  intros Hev Hc Hss. apply settled_traced in Hss as [Ht Hso]. destruct (HM ss c Ht Hc) as (r & c' & Er & Hr & Hc' & Htr).
  exists r, c'. split_and!; [done| |done]. split; [rewrite record_with_own; by eapply state_of_event|by eapply record_traced].
Qed.

(** ** The plain pipeline *)

Definition plain_compute (ev : event) (ts : list shared_state) (c : caches) : option (shared_state * caches) :=
  '(r, c) ←! resolve_merged_parent_states ts ctx version c; Some (record_own_state r ev, c).

Lemma plain_pipeline {W E : Type} (targets : list Id) (on_target : Id → shared_state → W → result unit E * W) (w : W) :
  (N.of_nat (size ctx) ≤ USIZE_MAX)%N →
  (cyclic ctx targets ∧ try_compute (mkInputs targets ctx version) on_target w = Some (Err CycleDetected, w))
  ∨ (¬ cyclic ctx targets ∧ ∃ reports, reported ctx targets settled reports
       ∧ try_compute (mkInputs targets ctx version) on_target w = Some (call_all on_target reports w)).
Proof using Hids HM HK.
  intros Hsize. unfold try_compute.
  destruct (pipeline_run_spec targets ctx version w (λ run, run_plain run on_target w) Hsize)
    as [[Hno ->]|(ix & tgt & Hix & Hitems & Htgt & ->)].
  - right. destruct (reported_none ctx targets settled Hno) as [Hac Hrep]. split; [done|]. by exists [].
  - apply (prepared_spec ctx ix tgt version targets plain_compute (λ _ _ t, t) settled K settled
      (plain_step _ on_target) on_target ∅ w Hix Hitems Htgt HK).
    + intros x ev ts c _ Hev Hc Hts. destruct (record_settled x ev ts c Hev Hc Hts) as (r & c' & Er & Hr & Hc').
      exists (record_own_state r ev), c'. unfold plain_compute. rewrite Er. done.
    + intros exec w' idx. unfold plain_step, loop_step_of, plain_compute. simpl.
      destruct (finalized_parents _ exec idx) as [[[ev ts] exec']|]; [|done].
      by destruct (resolve_merged_parent_states ts ctx version (ex_caches _ exec')) as [[r c']|].
Qed.

(** ** The optimized pipeline *)

Section optimized.
Context `{Blake3}.

Definition hashed_settled (x : Id) (t : HashedState Id) : Prop := hash_ok t ∧ settled x (hashed_state t).

(** What an update says of the state after its event. *)
Definition update_ok (x : Id) (u : StateUpdate Id) : Prop :=
  ∃ s, state_of M ctx x s ∧ lattice u = from_state s ∧
    match u with
    | New s' _ => s' = s
    | Unchanged p _ => parents ctx x = [p] ∧ state_of M ctx p s
    end.

Lemma hashed_settled_list ps ts : Forall2 hashed_settled ps ts → Forall hash_ok ts ∧ Forall2 settled ps (hashed_state <$> ts).
Proof. induction 1 as [|p t ps ts [? ?] _ [? ?]]; simpl; split; constructor; done. Qed.

(** Adding the event's own entry to a hashed state. *)
Definition record_hashed (t : HashedState Id) (ev : event) : HashedState Id :=
  match accepted_state_key ev with
  | Some sk => HashedState_insert t (key_of (EventType_from (event_type ev)) sk) (event_id ev)
  | None => t
  end.

Lemma record_hashed_ok t ev :
  hash_ok t → hash_ok (record_hashed t ev) ∧ hashed_state (record_hashed t ev) = record_own_state (hashed_state t) ev.
Proof.
  intros Ht. unfold record_hashed, record_own_state. destruct (accepted_state_key ev); [|done].
  split; [by apply hash_ok_insert|done].
Qed.

Lemma merge_single (s : shared_state) c r c' : resolve_merged_parent_states [s] ctx version c = Some (r, c') → r = s ∧ c' = c.
Proof. simpl. by intros [= -> ->]. Qed.

(** The fast path is the merge, with the hash of its result. *)
Lemma fast_path_ok ts c r c' :
  Forall hash_ok ts → ts ≠ [] → resolve_merged_parent_states (hashed_state <$> ts) ctx version c = Some (r, c') →
  ∃ t, resolve_merge_fast_path_hashed_with_cache ts ctx version c = Some (t, c') ∧ hashed_state t = r ∧ hash_ok t.
Proof.
  intros Hok Hne Hr. destruct ts as [|first rest]; [done|]. unfold resolve_merge_fast_path_hashed_with_cache.
  apply Forall_cons in Hok as [Hf Hok]. case_bool_decide as Hall.
  - exists first. rewrite (merge_identical _ _ _ _ (hashed_state first)) in Hr; [by simplify_eq| |left].
    apply all_identical_spec. simpl. intros m m' Hm Hm'.
    assert (∀ m, m ∈ hashed_state first :: (hashed_state <$> rest) → m = hashed_state first) as Heq.
    { intros m0 [->|(t & -> & Ht)%list_elem_of_fmap]%elem_of_cons; [done|]. rewrite Forall_forall in Hall.
      by destruct (Hall t Ht). }
    by rewrite (Heq m Hm), (Heq m' Hm').
  - rewrite Hr. eexists. split_and!; [done|done|]. unfold hash_ok in *. simpl. rewrite Hf. apply hash_follows_diff.
Qed.

Context (ix : DenseIndex Id) (tgt : nat → bool).
Hypothesis Hix : indexed ctx ix.
Abbreviation the_run := (mkRun ix (tab (Dense.len ix) tgt) ctx version).

Definition optimized_compute (ev : event) (ts : list (HashedState Id)) (c : caches) : option (HashedState Id * caches) :=
  match ts, state_key ev with
  | [t], None => Some (t, c)
  | _, _ => '(t, c) ←! state_before_optimized the_run ts c; Some (record_hashed t ev, c)
  end.

Definition optimized_report (ev : event) (ts : list (HashedState Id)) (t : HashedState Id) : StateUpdate Id :=
  match ts, state_key ev with
  | [p], None => Unchanged (default (event_id ev) (indexed_parent the_run ev)) (hashed_hash p)
  | _, _ => New (hashed_state t) (hashed_hash t)
  end.

Lemma state_before_spec ts c r c' :
  Forall hash_ok ts → resolve_merged_parent_states (hashed_state <$> ts) ctx version c = Some (r, c') →
  ∃ t, state_before_optimized the_run ts c = Some (t, c') ∧ hashed_state t = r ∧ hash_ok t.
Proof.
  intros Hok Hr. destruct ts as [|t [|t' ts]].
  - simpl in Hr. simplify_eq. exists HashedState_new. split_and!; [done|done|apply hash_ok_new].
  - apply merge_single in Hr as [-> ->]. exists t. split_and!; [done|done|by apply Forall_cons in Hok as [? _]].
  - by apply (fast_path_ok (t :: t' :: ts)).
Qed.

(** The parent an unchanged state is inherited from is the only one. *)
Lemma indexed_parent_spec x ev q :
  x ∈ items ix → ctx !! x = Some ev → parents ctx x = [q] → indexed_parent the_run ev = Some q.
Proof using Hix.
  intros Hx Hev Hq. unfold indexed_parent. simpl.
  assert (filter (λ pe, is_Some (index_of ix pe)) (prev_events ev) = filter (λ p, is_Some (ctx !! p)) (prev_events ev)) as ->.
  { apply filter_ext_in. intros p Hp. split.
    - intros [j Hj]. apply (index_items ctx ix Hix), list_elem_of_lookup_2, (ix_dom _ _ Hix), elem_of_dom in Hj. done.
    - intros Hs. assert (p ∈ items ix) as [j Hj]%list_elem_of_lookup.
      { apply (ix_closed _ _ Hix x); [done|]. apply elem_of_parents. exists ev. split_and!; [done..|by apply elem_of_dom]. }
      exists j. by apply (index_items ctx ix Hix). }
  unfold parents in Hq. rewrite Hev in Hq. destruct (filter _ _) as [|p l] eqn:Ef.
  - by rewrite first_seen_NoDup in Hq by constructor.
  - simpl. f_equal. apply list_elem_of_singleton. rewrite <-Hq. apply elem_of_first_seen. left.
Qed.

Lemma take_none {T} (outs : list N) (slots : list (option T)) prev ps :
  (∀ pe, pe ∈ prev → index_of ix pe = None) →
  try_fold (take_parent ix) prev (outs, slots, [], ps) = Some (outs, slots, [], ps).
Proof.
  induction prev as [|pe prev IH]; intros Hn; [done|]. simpl. rewrite (Hn pe) by left. apply IH. intros; apply Hn. by right.
Qed.

Lemma taken_indexed {T} exec idx ev (p : T) ps exec' :
  finalized_parents the_run exec idx = Some (ev, p :: ps, exec') → is_Some (indexed_parent the_run ev).
Proof.
  unfold finalized_parents, indexed_parent. simpl. destruct (items ix !! idx) as [x|]; [|done].
  destruct (ctx !! x) as [ev'|]; [|done].
  destruct (finalized_parent_states _ _ _ _) as [[[outs slots] ps']|] eqn:Ef; [|done]. intros [= -> -> <-].
  destruct (filter _ (prev_events ev)) as [|q l] eqn:Eq; [|by eexists]. exfalso.
  unfold finalized_parent_states in Ef. rewrite take_none in Ef; [done|]. intros pe Hpe.
  destruct (index_of ix pe) eqn:Ei; [|done]. assert (pe ∈ filter (λ pe, is_Some (index_of ix pe)) (prev_events ev)) as Hin.
  { apply list_elem_of_filter. by rewrite Ei. }
  rewrite Eq in Hin. by apply elem_of_nil in Hin.
Qed.

Lemma optimized_step_loop {W E : Type} (on_target : Id → StateUpdate Id → W → result unit E * W) exec w idx :
  optimized_step the_run on_target exec w idx
  = loop_step_of the_run optimized_compute optimized_report on_target exec w idx.
Proof.
  unfold optimized_step, loop_step_of. destruct (finalized_parents the_run exec idx) as [[[ev ts] exec']|] eqn:Ef; [|done].
  destruct ts as [|t [|t' ts]].
  - unfold optimized_compute, optimized_report, record_hashed. simpl. by destruct (state_key ev).
  - unfold optimized_compute, optimized_report. destruct (state_key ev) as [sk|].
    + unfold record_hashed. simpl. done.
    + destruct (taken_indexed _ _ _ _ _ _ Ef) as [q Hq]. rewrite Hq. unfold report. simpl.
      by destruct (tab _ tgt !! idx) as [[]|].
  - unfold optimized_compute, optimized_report, record_hashed.
    by destruct (state_before_optimized the_run (t :: t' :: ts) (ex_caches _ exec')) as [[s c]|].
Qed.

(** One event of the optimized pipeline. *)
Lemma optimized_settled x ev ts c :
  x ∈ items ix → ctx !! x = Some ev → K c → Forall2 hashed_settled (parents ctx x) ts →
  ∃ t c', optimized_compute ev ts c = Some (t, c') ∧ hashed_settled x t ∧ K c' ∧ update_ok x (optimized_report ev ts t).
Proof using Hids HM Hix.
  intros Hx Hev Hc Hts. pose proof (hashed_settled_list _ _ Hts) as [Hok Hss].
  destruct (record_settled x ev (hashed_state <$> ts) c Hev Hc Hss) as (r & c' & Er & Hr & Hc').
  destruct (state_before_spec ts c r c' Hok Er) as (t & Et & Htr & Htok).
  destruct (record_hashed_ok t ev Htok) as [Hrok Hrs]. rewrite Htr in Hrs.
  assert (hashed_settled x (record_hashed t ev)) as Hset by (split; [done|by rewrite Hrs]).
  destruct (decide (length ts = 1 ∧ state_key ev = None)) as [[Hlen Hsk]|Hother].
  - destruct ts as [|p [|? ?]]; [done| |done]. apply merge_single in Er as [-> ->].
    assert (record_own_state (hashed_state p) ev = hashed_state p) as Hown.
    { unfold record_own_state, accepted_state_key. by destruct (rejected ev); rewrite ?Hsk. }
    rewrite Hown in Hr. unfold optimized_compute, optimized_report. rewrite Hsk. exists p, c.
    apply Forall_cons in Hok as [Hp _]. split_and!; [done|by split|done|].
    destruct (parents ctx x) as [|q [|? ?]] eqn:Eq; [by inversion Hts| |by inversion Hts as [|? ? ? ? ? Hl]; inversion Hl].
    rewrite (indexed_parent_spec x ev q Hx Hev Eq). exists (hashed_state p). simpl. apply Forall2_cons_1 in Hss as [[Hq _] _].
    split_and!; [apply Hr|exact Hp|exact Eq|done].
  - assert (optimized_compute ev ts c = Some (record_hashed t ev, c')) as E1.
    { unfold optimized_compute. rewrite Et. destruct ts as [|p [|? ?]]; [by destruct (state_key ev)| |done].
      destruct (state_key ev); [done|]. by destruct Hother. }
    assert (optimized_report ev ts (record_hashed t ev) = New (hashed_state (record_hashed t ev)) (hashed_hash (record_hashed t ev))) as E2.
    { unfold optimized_report. destruct ts as [|p [|? ?]]; [by destruct (state_key ev)| |done].
      destruct (state_key ev); [done|]. by destruct Hother. }
    exists (record_hashed t ev), c'. split_and!; [done..|]. rewrite E2. exists (hashed_state (record_hashed t ev)).
    split_and!; [apply Hset|exact Hrok|done].
Qed.
End optimized.

Lemma optimized_pipeline `{Blake3} {W E : Type} (targets : list Id) (on_target : Id → StateUpdate Id → W → result unit E * W) (w : W) :
  (N.of_nat (size ctx) ≤ USIZE_MAX)%N →
  (cyclic ctx targets ∧ try_compute_optimized (mkInputs targets ctx version) on_target w = Some (Err CycleDetected, w))
  ∨ (¬ cyclic ctx targets ∧ ∃ reports, reported ctx targets update_ok reports
       ∧ try_compute_optimized (mkInputs targets ctx version) on_target w = Some (call_all on_target reports w)).
Proof using Hids HM HK.
  intros Hsize. unfold try_compute_optimized.
  destruct (pipeline_run_spec targets ctx version w (λ run, run_optimized run on_target w) Hsize)
    as [[Hno ->]|(ix & tgt & Hix & Hitems & Htgt & ->)].
  - right. destruct (reported_none ctx targets update_ok Hno) as [Hac Hrep]. split; [done|]. by exists [].
  - apply (prepared_spec ctx ix tgt version targets (optimized_compute ix tgt) (optimized_report ix tgt) hashed_settled K update_ok
      (optimized_step _ on_target) on_target HashedState_new w Hix Hitems Htgt HK).
    + intros x ev ts c Hx. by apply optimized_settled.
    + intros exec w' idx. by apply optimized_step_loop.
Qed.
End stream.
