(* ===== verification/StateProps.v ===== *)
(** * The state at an event: the theorems

    With complete auth chains the pipelines never panic, and what they report
    is the state of the specification: of one fixed way of merging in the
    versions whose caches hold only what the events say, of merges with
    consistent caches in the later ones. *)
From stdpp Require Import prelude gmap strings sorting.
From Stdlib Require String.
From S2P Require Import Prelude Dense EventTypes Json JsonText Events Reachability JsonContent Auth Samples Sorting Kahn ReachProps Subgraph AuthDiff AuthDiffProps Mainline LocalAuth Iterative PowerPhase IterProps OrdMap OrdMapWalk OrdMapDiff StateDiff Multi MultiProps MultiSpec LtHash StateHash StateAt StatePlan StateTopo StateLoop StateMerge StateSpec.

Section merges.
Context {Id C : Type} `{EventId Id} `{EventContent C} `{Ho : HashOrder}.
Abbreviation event := (LeanEvent Id C).
Abbreviation event_map := (gmap Id event).
Abbreviation key := (string * string)%type.
Abbreviation shared_state := (gmap key Id).
Abbreviation caches := (ForkResolveCaches (Id:=Id) (C:=C)).
Implicit Types (ctx : event_map) (version : StateResVersion).

(** The auth chains of the known events are known. *)
Definition auth_complete ctx : Prop := ∀ x ev a, ctx !! x = Some ev → a ∈ auth_events ev → a ∈ dom ctx.

(** The merge with fresh caches, and with caches that agree with the events. *)
Definition merges ctx version (ss : list shared_state) (r : shared_state) : Prop :=
  fst <$> resolve_merged_parent_states ss ctx version (ForkResolveCaches_new version) = Some r.
Definition merges_some ctx version (ss : list shared_state) (r : shared_state) : Prop :=
  ∃ c c', cache_ok ctx version (mainline_cache c) ∧ resolve_merged_parent_states ss ctx version c = Some (r, c').

Lemma auth_complete_readable ctx maps version :
  auth_complete ctx → maps ≠ [] → Forall (traced ctx) maps → merge_readable maps ctx version.
Proof.
  intros Hac Hne Ht _ k id x Ha Hr. destruct maps as [|m maps]; [done|]. apply Forall_cons in Ht as [Hm _].
  assert (id ∈ dom ctx) as Hid.
  { destruct (Hm k id (Ha m ltac:(left))) as (ev & sk & Hev & _). by apply elem_of_dom_2 in Hev. }
  apply rtc_inv_r in Hr as [->|(y & _ & ev & Hy & Hx)]; [done|by eapply Hac].
Qed.

Lemma merge_traced ctx version maps c :
  context_wf version ctx → version ≠ V3 → auth_complete ctx → Forall (traced ctx) maps →
  cache_ok ctx version (mainline_cache c) →
  ∃ r c', resolve_merged_parent_states maps ctx version c = Some (r, c') ∧ cache_ok ctx version (mainline_cache c') ∧ traced ctx r.
Proof.
  intros Hc Hv Hac Ht Hmc. destruct (decide (maps = [])) as [->|Hne].
  { exists ∅, c. split_and!; [done|done|]. intros k id. by rewrite lookup_empty. }
  pose proof (merge_result maps ctx version c Hne Hc Hv Hmc) as Hr.
  destruct (resolve_merged_parent_states maps ctx version c) as [[r c']|].
  - destruct Hr as (_ & _ & Hfrom & Hmc'). exists r, c'. split_and!; [done|done|]. intros k id Hk.
    destruct (Hfrom k id Hk) as [Ha|(u & ks & S & _ & Hacc)].
    + destruct maps as [|m maps]; [done|]. apply Forall_cons in Ht as [Hm _]. apply Hm, Ha. left.
    + destruct Hacc as (ev & sk & r0 & cache & la & cache' & power & Hknown & <- & Hsk & -> & Hrej & _).
      exists ev, sk. split_and!; [|done..]. by destruct Hknown as [[_ ?]%restrict_Some|?].
  - destruct Hr as [Hr _]. destruct Hr. by apply auth_complete_readable.
Qed.

Lemma merges_direct ctx version :
  context_wf version ctx → version ≠ V3 → transitive_auth version = false → auth_complete ctx →
  ∀ ss c, Forall (traced ctx) ss → caches_sound version ctx c →
    ∃ r c', resolve_merged_parent_states ss ctx version c = Some (r, c') ∧ merges ctx version ss r
      ∧ caches_sound version ctx c' ∧ traced ctx r.
Proof.
  intros Hc Hv Hd Hac ss c Ht Hs. destruct (decide (ss = [])) as [->|Hne].
  { exists ∅, c. split_and!; [done|done|done|]. intros k id. by rewrite lookup_empty. }
  destruct (merge_traced ctx version ss c Hc Hv Hac Ht (proj2 Hs)) as (r & c' & Er & _ & Htr).
  pose proof (merge_caches ss ctx version c (ForkResolveCaches_new version) Hne Hc Hv Hd Hs (new_caches_sound version ctx)) as Hm.
  rewrite Er in Hm. unfold merges.
  destruct (resolve_merged_parent_states ss ctx version (ForkResolveCaches_new version)) as [[r2 c2]|]; [|done].
  destruct Hm as [-> Hs']. by exists r2, c'.
Qed.

Lemma merges_later ctx version :
  context_wf version ctx → version ≠ V3 → auth_complete ctx →
  ∀ ss c, Forall (traced ctx) ss → cache_ok ctx version (mainline_cache c) →
    ∃ r c', resolve_merged_parent_states ss ctx version c = Some (r, c') ∧ merges_some ctx version ss r
      ∧ cache_ok ctx version (mainline_cache c') ∧ traced ctx r.
Proof.
  intros Hc Hv Hac ss c Ht Hmc. destruct (merge_traced ctx version ss c Hc Hv Hac Ht Hmc) as (r & c' & Er & Hmc' & Htr).
  exists r, c'. split_and!; [done| |done|done]. by exists c, c'.
Qed.

Lemma merges_det ctx version ss r r' : merges ctx version ss r → merges ctx version ss r' → r = r'.
Proof. unfold merges. congruence. Qed.

Lemma context_ids version ctx : context_wf version ctx → ∀ id ev, ctx !! id = Some ev → event_id ev = id.
Proof. intros [_ Hev] id ev Hid. by apply Hev in Hid as [? _]. Qed.

Lemma context_size version ctx : context_wf version ctx → (N.of_nat (size ctx) ≤ USIZE_MAX)%N.
Proof. intros [[_ Hs] _]. change (MAX Idx_u32) with 4294967295%N in Hs. unfold USIZE_MAX. lia. Qed.
End merges.

(** The merge does not depend on the hash order. *)
Lemma merge_order {Id C} `{EventId Id} `{EventContent C} (o1 o2 : HashOrder) (maps : list (gmap (string * string) Id))
    (ctx : gmap Id (LeanEvent Id C)) version (c : ForkResolveCaches (Id:=Id) (C:=C)) :
  context_wf version ctx → cache_ok ctx version (mainline_cache c) →
  resolve_merged_parent_states (Ho:=o1) maps ctx version c = resolve_merged_parent_states (Ho:=o2) maps ctx version c.
Proof.
  intros Hc Hmc. destruct (decide (maps = [])) as [->|Hne]; [done|]. destruct (all_identical maps) eqn:Eid.
  { destruct maps as [|first rest]; [done|]. by rewrite !(merge_identical _ _ _ _ first Eid) by left. }
  destruct (merge_spec (Ho:=o1) maps ctx version c Hne Eid) as [(Hr & u & ks & S & Hplan & ->)|[Hr ->]];
  destruct (merge_spec (Ho:=o2) maps ctx version c Hne Eid) as [(Hr' & u' & ks' & S' & Hplan' & ->)|[Hr' ->]]; [|done..].
  destruct (merge_plan_unique _ _ _ _ _ _ _ _ _ Hplan Hplan') as (<- & <- & <-).
  apply (cache_ok_restrict version ctx S) in Hmc.
  by rewrite (resolution_order u (restrict ctx S) ctx version ks (restrict_inputs_wf version ctx S Hc) o1 o2).
Qed.

Section state_claims.
Context {Id C : Type} `{EventId Id} `{EventContent C}.
Abbreviation event := (LeanEvent Id C).
Abbreviation event_map := (gmap Id event).
Abbreviation key := (string * string)%type.
Abbreviation shared_state := (gmap key Id).
Implicit Types (ctx : event_map) (version : StateResVersion).

(** The state after an event, every merge made with fresh caches. *)
Definition state_after ctx version : Id → shared_state → Prop := state_of (merges (Ho:=order_forward) ctx version) ctx.

Lemma state_after_unique ctx version x s s' : state_after ctx version x s → state_after ctx version x s' → s = s'.
Proof. intros Hs Hs'. by apply (state_of_det _ _ _ _ (merges_det ctx version) Hs). Qed.

Lemma merges_forward `{Ho : HashOrder} ctx version :
  context_wf version ctx → version ≠ V3 → transitive_auth version = false → auth_complete ctx →
  ∀ ss c, Forall (traced ctx) ss → caches_sound version ctx c →
    ∃ r c', resolve_merged_parent_states ss ctx version c = Some (r, c') ∧ merges (Ho:=order_forward) ctx version ss r
      ∧ caches_sound version ctx c' ∧ traced ctx r.
Proof.
  intros Hc Hv Hd Hac ss c Ht Hs.
  destruct (merges_direct (Ho:=Ho) ctx version Hc Hv Hd Hac ss c Ht Hs) as (r & c' & Er & Hr & Hs' & Htr).
  exists r, c'. split_and!; [done| |done|done]. unfold merges.
  by rewrite <-(merge_order Ho order_forward ss ctx version (ForkResolveCaches_new version) Hc (empty_cache_ok ctx version)).
Qed.

Lemma direct_version version : version = V1 ∨ version = V2 ∨ version = V2_1 → version ≠ V3 ∧ transitive_auth version = false.
Proof. intros Hv. by destruct_or! Hv; subst. Qed.

Lemma streaming_plain `{Ho : HashOrder} {W E : Type} ctx version (targets : list Id)
    (on_target : Id → shared_state → W → result unit E * W) (w : W) :
  context_wf version ctx → auth_complete ctx → version = V1 ∨ version = V2 ∨ version = V2_1 →
  (cyclic ctx targets ∧ try_compute (mkInputs targets ctx version) on_target w = Some (Err CycleDetected, w))
  ∨ (¬ cyclic ctx targets ∧ ∃ reports, reported ctx targets (state_after ctx version) reports
       ∧ try_compute (mkInputs targets ctx version) on_target w = Some (call_all on_target reports w)).
Proof.
  intros Hc Hac Hv. destruct (direct_version version Hv) as [Hv3 Hd].
  destruct (plain_pipeline ctx version (context_ids version ctx Hc) (merges (Ho:=order_forward) ctx version)
    (caches_sound version ctx) (merges_forward ctx version Hc Hv3 Hd Hac) (new_caches_sound version ctx) targets on_target w
    (context_size version ctx Hc)) as [?|(Hn & reports & (Hnd & Hids & Hord & Hp) & Hrun)]; [by left|right].
  split; [done|]. exists reports. split; [|done]. split_and!; [done..|]. intros x s Hx. by destruct (Hp x s Hx).
Qed.

(** C7: in versions 1, 2 and 2.1, over events with complete auth chains, the
    streaming computation never panics: when a target reaches a cycle it
    reports exactly that, before any callback; otherwise it calls back once
    for every present target, those of its ancestors first, until a callback
    fails, each time with the one state that the specification assigns to the
    event, whatever the hash order. *)
Theorem streaming_states `{Ho : HashOrder} {W E : Type} ctx version (targets : list Id)
    (on_target : Id → shared_state → W → result unit E * W) (w : W) :
  context_wf version ctx → auth_complete ctx → version = V1 ∨ version = V2 ∨ version = V2_1 →
  (cyclic ctx targets ∧ try_compute (mkInputs targets ctx version) on_target w = Some (Err CycleDetected, w))
  ∨ (¬ cyclic ctx targets ∧ ∃ reports,
       reported ctx targets (λ x s, ∀ s', state_after ctx version x s' ↔ s' = s) reports
       ∧ try_compute (mkInputs targets ctx version) on_target w = Some (call_all on_target reports w)).
Proof.
  intros Hc Hac Hv. destruct (streaming_plain ctx version targets on_target w Hc Hac Hv)
    as [?|(Hn & reports & (Hnd & Hids & Hord & Hp) & Hrun)]; [by left|right].
  split; [done|]. exists reports. split; [|done]. split_and!; [done..|]. intros x s Hx%Hp s'.
  split; [intros Hs'; by eapply state_after_unique|by intros ->].
Qed.

(** C9: in every version but V3 the computation over events with complete
    auth chains reports a cycle exactly when a target reaches one, and every
    state it hands out holds under each key a known, not rejected event with
    that type and state key. *)
Theorem streaming_traced `{Ho : HashOrder} {W E : Type} ctx version (targets : list Id)
    (on_target : Id → shared_state → W → result unit E * W) (w : W) :
  context_wf version ctx → auth_complete ctx → version ≠ V3 →
  ∃ result, try_compute (mkInputs targets ctx version) on_target w = Some result
    ∧ (result.1 = Err CycleDetected ↔ cyclic ctx targets)
    ∧ (cyclic ctx targets → result.2 = w)
    ∧ (¬ cyclic ctx targets → ∃ reports, result = call_all on_target reports w
         ∧ reported ctx targets (λ x s, state_of (merges_some ctx version) ctx x s ∧ traced ctx s) reports).
Proof.
  intros Hc Hac Hv.
  destruct (plain_pipeline ctx version (context_ids version ctx Hc) (merges_some ctx version)
    (λ c, cache_ok ctx version (mainline_cache c)) (merges_later ctx version Hc Hv Hac)
    (empty_cache_ok ctx version) targets on_target w
    (context_size version ctx Hc)) as [[Hcy Hr]|(Hn & reports & Hrep & Hrun)].
  - exists (Err CycleDetected, w). split_and!; done.
  - exists (call_all on_target reports w). split_and!; [done| |done|intros _; by exists reports].
    split; [|done]. intros Hcyc. exfalso. clear -Hcyc. revert w Hcyc.
    induction reports as [|[x s] reports IH]; intros w; [done|]. simpl.
    destruct (on_target x s w) as [[|] w']; [apply IH|done].
Qed.

(** ** The optimized pipeline *)

(** What an update stands for, the parent's state being looked up. *)
Definition updates_to ctx version (x : Id) `{Blake3} (u : StateUpdate Id) : Prop :=
  ∃ s, state_after ctx version x s ∧ lattice u = from_state s
    ∧ (∀ p h, u = Unchanged p h → parents ctx x = [p])
    ∧ ∀ get_parent_state, (∀ p s', p ∈ parents ctx x → state_after ctx version p s' → get_parent_state p = Some s') →
        into_state u get_parent_state = Some s.

Lemma reported_impl {R} ctx (targets : list Id) (P Q : Id → R → Prop) reports :
  (∀ x r, P x r → Q x r) → reported ctx targets P reports → reported ctx targets Q reports.
Proof. intros HPQ (? & ? & ? & HP). split_and!; [done..|]. intros x r Hx. by apply HPQ, HP. Qed.

(** C8: in versions 1, 2 and 2.1 the optimized pipeline reports what the plain
    one does, for the same events in an order with the same guarantee: the
    hash it carries is the hash of the state after the event, an update turned
    into a state by a lookup that knows the states of the parents is that
    state, and a state reported as unchanged is that of the only parent. *)
Theorem streaming_optimized `{Ho : HashOrder} `{Blake3} {W E : Type} ctx version (targets : list Id)
    (on_target : Id → StateUpdate Id → W → result unit E * W) (w : W) :
  context_wf version ctx → auth_complete ctx → version = V1 ∨ version = V2 ∨ version = V2_1 →
  (cyclic ctx targets ∧ try_compute_optimized (mkInputs targets ctx version) on_target w = Some (Err CycleDetected, w))
  ∨ (¬ cyclic ctx targets ∧ ∃ reports, reported ctx targets (λ x u, updates_to ctx version x u) reports
       ∧ try_compute_optimized (mkInputs targets ctx version) on_target w = Some (call_all on_target reports w)).
Proof.
  intros Hc Hac Hv. destruct (direct_version version Hv) as [Hv3 Hd].
  destruct (optimized_pipeline ctx version (context_ids version ctx Hc) (merges (Ho:=order_forward) ctx version)
    (caches_sound version ctx) (merges_forward ctx version Hc Hv3 Hd Hac) (new_caches_sound version ctx) targets on_target w
    (context_size version ctx Hc)) as [?|(Hn & reports & Hrep & Hrun)]; [by left|right].
  split; [done|]. exists reports. split; [|done]. eapply reported_impl; [|exact Hrep].
  intros x u (s & Hs & Hl & Hu). exists s. split_and!; [done|done| |].
  - intros p h ->. apply Hu.
  - intros get Hget. destruct u as [s' h|p h]; simpl in *; [by subst|]. destruct Hu as [Hp Hps]. apply Hget; [|done].
    rewrite Hp. left.
Qed.

(** ** The state at one event and at many *)

Lemma call_all_infallible {R W : Type} (f : Id → R → W → W) reports (w : W) :
  call_all (E:=Empty_set) (λ id r w, (Ok tt, f id r w)) reports w = (Ok tt, foldl (λ w r, f r.1 r.2 w) w reports).
Proof. revert w. induction reports as [|[x r] reports IH]; intros w; [done|apply IH]. Qed.

Lemma state_of_grounded M ctx x s : state_of M ctx x s → Acc (flip (parent_of ctx)) x.
Proof.
  revert x s. fix IH 3. intros x s [x' ev states merged Hev Hss Hm]. constructor. unfold flip, parent_of. clear Hm.
  induction Hss as [|p s0 ps ss Hp Hss IH']; intros y Hy; [by apply elem_of_nil in Hy|].
  apply elem_of_cons in Hy as [->|Hy]; [by eapply IH|by apply IH'].
Qed.

Lemma grounded_acyclic ctx x y : Acc (flip (parent_of ctx)) x → rtc (parent_of ctx) x y → ¬ tc (parent_of ctx) y y.
Proof.
  intros Ha Hr. assert (Acc (flip (parent_of ctx)) y) as Hy.
  { induction Hr as [|x z y Hxz Hr IH]; [done|]. apply IH. by apply Ha. }
  clear Ha Hr. induction Hy as [y _ IH]. intros Ht. assert (∃ z, parent_of ctx y z ∧ rtc (parent_of ctx) z y) as (z & Hz & Hr).
  { inversion Ht as [|? z ? Hz Hr]; subst; [by exists y|]. exists z. split; [done|by apply tc_rtc]. }
  apply (IH z Hz). by eapply tc_rtc_l, tc_once.
Qed.

Lemma state_after_acyclic ctx version x s : state_after ctx version x s → x ∈ dom ctx ∧ ¬ cyclic ctx [x].
Proof.
  intros Hs. split.
  - destruct Hs as [x ev states merged Hev _ _]. by eapply elem_of_dom_2.
  - intros (y & (t & ->%list_elem_of_singleton & _ & Hr) & Ht). by eapply grounded_acyclic; [eapply state_of_grounded|..].
Qed.

Lemma cyclic_some ctx targets : cyclic ctx targets ↔ ∃ t, t ∈ targets ∧ t ∈ dom ctx ∧ cyclic ctx [t].
Proof.
  split.
  - intros (x & (t & Ht & Hd & Hr) & Hx). exists t. split_and!; [done..|]. exists x. split; [|done].
    exists t. split_and!; [left|done..].
  - intros (t & Ht & Hd & x & (t' & ->%list_elem_of_singleton & _ & Hr) & Hx). exists x. split; [|done]. by exists t.
Qed.

(** The state of one event, in versions 1, 2 and 2.1: it is found exactly
    when the specification assigns the event a state, and is that state; it
    is missing exactly when the event is unknown or its ancestors contain a
    cycle; and the computation returns. *)
Theorem compute_state_at_exact `{Ho : HashOrder} ctx version (target : Id) :
  context_wf version ctx → auth_complete ctx → version = V1 ∨ version = V2 ∨ version = V2_1 →
  ∃ r, compute_state_at target ctx version = Some r
    ∧ (∀ s, r = Some s ↔ state_after ctx version target s)
    ∧ (r = None ↔ target ∉ dom ctx ∨ cyclic ctx [target]).
Proof.
  intros Hc Hac Hv. unfold compute_state_at. destruct (ctx !! target) as [ev|] eqn:Et.
  2:{ exists None. apply not_elem_of_dom in Et. split_and!; [done| |].
      - intros s. split; [done|]. intros [Hs _]%state_after_acyclic. done.
      - split; [by left|done]. }
  assert (target ∈ dom ctx) as Hd by (by eapply elem_of_dom_2). unfold compute.
  destruct (streaming_plain (E:=Empty_set) ctx version [target] (λ id state w, (Ok tt, (λ _ state _, Some state) id state w)) None
    Hc Hac Hv) as [[Hcy ->]|(Hn & reports & (Hnd & Hin & _ & Hp) & ->)]; cbn [fmap option_fmap option_map snd].
  - exists None. split_and!; [done| |].
    + intros s. split; [done|]. by intros [_ Hs]%state_after_acyclic.
    + split; [by right|done].
  - rewrite (call_all_infallible (λ _ state _, Some state)).
    assert (∃ s, reports = [(target, s)]) as [s ->].
    { destruct reports as [|[x s] [|[x' s'] l]].
      - exfalso. apply (not_elem_of_nil target), Hin. split; [left|done].
      - exists s. destruct (proj1 (Hin x)) as [->%list_elem_of_singleton _]; [left|done].
      - exfalso. simpl in Hnd, Hin. destruct (proj1 (Hin x)) as [->%list_elem_of_singleton _]; [left|].
        destruct (proj1 (Hin x')) as [->%list_elem_of_singleton _]; [right; left|]. apply NoDup_cons in Hnd as [Hx _].
        apply Hx. left. }
    assert (state_after ctx version target s) as Hs by (apply Hp; left).
    exists (Some s). split_and!; [done| |].
    + intros s'. split; [by intros [= <-]|]. intros Hs'. f_equal. by eapply state_after_unique.
    + split; [done|]. by intros [?|?].
Qed.

Lemma foldl_insert_all {A} (l : list (Id * A)) (m : gmap Id A) x a :
  NoDup l.*1 → foldl (λ w r, <[r.1 := r.2]> w) m l !! x = Some a ↔ (x, a) ∈ l ∨ (x ∉ l.*1 ∧ m !! x = Some a).
Proof.
  revert m. induction l as [|[y b] l IH]; intros m Hnd; simpl in *.
  { split; [intros; right; split; [apply not_elem_of_nil|done]|]. intros [Hx|[_ ?]]; [by apply elem_of_nil in Hx|done]. }
  apply NoDup_cons in Hnd as [Hy Hnd]. rewrite IH by done. rewrite !elem_of_cons. destruct (decide (x = y)) as [->|Hne].
  - rewrite lookup_insert_eq. split.
    + intros [Hin|[_ [= ->]]]; [|by left; left]. destruct Hy. by apply (list_elem_of_fmap_2 fst) in Hin.
    + intros [[[= ->]|Hin]|[Hn _]]; [by right|by left|]. destruct Hn. by left.
  - rewrite lookup_insert_ne by done. split; [intros [?|[? ?]]|intros [[[= ??]|?]|[? ?]]]; try tauto; done.
Qed.

(** The states of many events, in versions 1, 2 and 2.1: when no target
    reaches a cycle the result holds exactly the known targets, each with the
    state that the specification assigns to it; otherwise it is empty. *)
Theorem compute_state_at_batch_exact `{Ho : HashOrder} ctx version (targets : list Id) :
  context_wf version ctx → auth_complete ctx → version = V1 ∨ version = V2 ∨ version = V2_1 →
  ∃ results, compute_state_at_batch targets ctx version = Some results
    ∧ (cyclic ctx targets → results = ∅)
    ∧ (¬ cyclic ctx targets → (∀ x, x ∈ dom results ↔ x ∈ targets ∧ x ∈ dom ctx)
         ∧ ∀ x s, results !! x = Some s ↔ x ∈ targets ∧ state_after ctx version x s).
Proof.
  intros Hc Hac Hv. unfold compute_state_at_batch, compute.
  destruct (streaming_plain (W:=gmap Id shared_state) (E:=Empty_set) ctx version targets
      (λ id state w, (Ok tt, (λ id state results, <[id := state]> results) id state w)) ∅
    Hc Hac Hv) as [[Hcy ->]|(Hn & reports & (Hnd & Hin & _ & Hp) & ->)]; cbn [fmap option_fmap option_map snd].
  { exists ∅. by split_and!. }
  rewrite (call_all_infallible (λ id state results, <[id := state]> results)). cbn [snd]. eexists. split; [done|].
  split; [done|]. intros _. set (results := foldl _ ∅ reports).
  assert (∀ x s, results !! x = Some s ↔ (x, s) ∈ reports) as Hl.
  { intros x s. unfold results. rewrite foldl_insert_all by done. rewrite lookup_empty. split; [by intros [?|[_ ?]]|by left]. }
  assert (∀ x, x ∈ targets → x ∈ dom ctx → ∃ s, (x, s) ∈ reports) as Hex.
  { intros x Hx Hd. assert (x ∈ reports.*1) as ([y s] & -> & Hin')%list_elem_of_fmap by (by apply Hin). by exists s. }
  split.
  - intros x. rewrite elem_of_dom. split.
    + intros [s Hs%Hl]. apply Hin. by apply (list_elem_of_fmap_2 fst) in Hs.
    + intros [Hx Hd]. destruct (Hex x Hx Hd) as [s Hs]. exists s. by apply Hl.
  - intros x s. rewrite Hl. split.
    + intros Hs. split; [|by apply Hp]. apply (list_elem_of_fmap_2 fst) in Hs. by apply Hin in Hs as [? _].
    + intros [Hx Hs]. destruct (state_after_acyclic _ _ _ _ Hs) as [Hd _]. destruct (Hex x Hx Hd) as [s' Hs'].
      by rewrite (state_after_unique ctx version x s s' Hs (Hp _ _ Hs')).
Qed.
End state_claims.

(** ** The merge and the fork resolver *)

(** C10: at a fork of versions 1 and 2 the merge of the parents' states is the
    state that the fork resolver computes for them, panics included, whatever
    sound caches it is given. *)
Theorem merge_matches_forks {Id C} `{EventId Id} `{EventContent C} `{Ho : HashOrder}
    (maps : list (gmap (string * string) Id)) (ctx : gmap Id (LeanEvent Id C)) version (c : ForkResolveCaches (Id:=Id) (C:=C)) :
  maps_wf maps → context_wf version ctx → keyed maps ctx → (∀ x, contested maps x → x ∈ dom ctx) →
  version = V1 ∨ version = V2 → caches_sound version ctx c →
  fst <$> resolve_merged_parent_states maps ctx version c = resolve_state_maps maps ctx version.
Proof.
  intros Hwf Hc Hk Hd Hv Hs. assert (version ≠ V3 ∧ transitive_auth version = false ∧ has_subgraph version = false) as (Hv3 & Ht & Hsub).
  { by destruct_or! Hv; subst. }
  rewrite <-(merge_resolver maps ctx version Hwf Hc Hsub Hk Hd).
  pose proof (merge_caches maps ctx version c (ForkResolveCaches_new version) (proj1 Hwf) Hc Hv3 Ht Hs (new_caches_sound version ctx)) as Hm.
  destruct (resolve_merged_parent_states maps ctx version c) as [[r c']|],
    (resolve_merged_parent_states maps ctx version (ForkResolveCaches_new version)) as [[r2 c2]|]; try done.
  by destruct Hm as [-> _].
Qed.

(** ** A room with a fork

    [@b:x] sets the topic after the power levels no longer allow it, [@a:x]
    sets another, and a message follows both. *)
Module StreamRoom.
Import Sample.
Definition low : event :=
  ev "$low" M_ROOM_POWER_LEVELS (Some "") "@a:x" (pl_content "0") ["$join@b:x"] ["$create"; "$join_a"; "$power"] 6.
Definition topic (id who : string) (auth : list string) (d : Z) : event :=
  ev id "m.room.topic" (Some "") who (Object [("topic", VString id)]) ["$low"] auth d.
Definition topic_b : event := topic "$topic_b" "@b:x" ["$create"; "$power"; "$join@b:x"] 10.
Definition topic_a : event := topic "$topic_a" "@a:x" ["$create"; "$power"; "$join_a"] 9.
Definition msg : event :=
  ev "$msg" "m.room.message" None "@a:x" (Object [("body", VString "hi")]) ["$topic_b"; "$topic_a"; "$topic_b"; "$gone"]
    ["$create"; "$power"; "$join_a"] 11.
Definition context : gmap string event :=
  ForkRoom.context_of [create; join_a; power; rules; member_of "@b:x" "join" "@b:x"; low; topic_a; topic_b; msg].
Definition loop_a : event := topic "$loop_a" "@a:x" ["$create"; "$power"; "$join_a"] 9.
End StreamRoom.

Lemma stream_room_wf version : version = V1 ∨ version = V2 ∨ version = V2_1 → context_wf version StreamRoom.context.
Proof.
  intros Hv. split; [split|].
  - apply (bool_decide_eq_true_1 _). vm_compute. reflexivity.
  - vm_compute. discriminate.
  - destruct_or! Hv; subst version; apply (bool_decide_eq_true_1 _); vm_compute; reflexivity.
Qed.

Lemma auth_complete_check {Id C} `{EventId Id} (ctx : gmap Id (LeanEvent Id C)) :
  bool_decide (map_Forall (λ _ ev, Forall (λ a, is_Some (ctx !! a)) (auth_events ev)) ctx) = true → auth_complete ctx.
Proof.
  intros Hb%bool_decide_eq_true_1 x ev a Hx Ha. specialize (Hb x ev Hx). rewrite Forall_forall in Hb.
  by apply elem_of_dom, Hb.
Qed.

Lemma stream_room_complete : auth_complete (H:=string_event_id) StreamRoom.context.
Proof. apply auth_complete_check. vm_compute. reflexivity. Qed.

(** Each report is kept, the last first. *)
Definition collect {R : Type} (id : string) (r : R) (w : list (string * R)) : result unit Empty_set * list (string * R) :=
  (Ok tt, (id, r) :: w).
Abbreviation streamed targets version :=
  (try_compute (H:=string_event_id) (Ho:=order_forward) (mkInputs targets StreamRoom.context version) collect []).
Abbreviation topic_key := ForkRoom.topic_key.

Definition topics_of {X : Type} (r : option (X * list (string * gmap (string * string) string)))
    : option (list (string * option string)) :=
  option_map (λ r : X * list (string * gmap (string * string) string),
    (λ i : string * gmap (string * string) string, (i.1, i.2 !! topic_key)) <$> r.2) r.

Example stream_room_topics :
  topics_of (streamed ["$msg"; "$topic_b"; "$nope"; "$rules"; "$msg"] V2)
  = Some [("$msg", Some "$topic_a"); ("$topic_b", Some "$topic_b"); ("$rules", None)].
Proof. vm_compute. reflexivity. Qed.

(** No target of the room reaches a cycle. *)
Lemma stream_room_acyclic (targets : list string) : forallb (λ t, bool_decide (t ∈ ["$msg"; "$topic_b"; "$nope"; "$rules"])) targets = true →
  ¬ cyclic (H:=string_event_id) StreamRoom.context targets.
Proof.
  intros Ht Hc. rewrite forallb_forall in Ht. destruct (streaming_plain (H:=string_event_id) (Ho:=order_forward) StreamRoom.context V2
    ["$msg"; "$topic_b"; "$nope"; "$rules"] collect [] (stream_room_wf V2 ltac:(tauto)) stream_room_complete ltac:(tauto))
    as [[_ Hr]|[Hn _]].
  - assert (fst <$> streamed ["$msg"; "$topic_b"; "$nope"; "$rules"] V2 = Some (Ok tt)) as Hok by (vm_compute; reflexivity).
    rewrite Hr in Hok. discriminate.
  - apply Hn. destruct Hc as (x & (t & Hin & Hd & Hr) & Hx). exists x. split; [|done]. exists t. split_and!; [|done..].
    apply (bool_decide_eq_true_1 _), Ht, list_elem_of_In, Hin.
Qed.

Lemma streaming_states_witness :
  ∃ reports, reported (H:=string_event_id) StreamRoom.context ["$msg"; "$topic_b"; "$nope"]
      (λ x s, ∀ s', state_after (H:=string_event_id) StreamRoom.context V2 x s' ↔ s' = s) reports
    ∧ streamed ["$msg"; "$topic_b"; "$nope"] V2 = Some (call_all collect reports []).
Proof.
  destruct (streaming_states (H:=string_event_id) (Ho:=order_forward) StreamRoom.context V2 ["$msg"; "$topic_b"; "$nope"]
    collect [] (stream_room_wf V2 ltac:(tauto)) stream_room_complete ltac:(tauto)) as [[Hc _]|[_ Hr]]; [|exact Hr].
  exfalso. revert Hc. apply stream_room_acyclic. reflexivity.
Defined.

Lemma streaming_traced_witness :
  ∃ reports, streamed ["$msg"] V2_1 = Some (call_all collect reports [])
    ∧ reported (H:=string_event_id) StreamRoom.context ["$msg"]
        (λ x s, state_of (H:=string_event_id) (merges_some (H:=string_event_id) (Ho:=order_forward) StreamRoom.context V2_1)
            StreamRoom.context x s ∧ traced (H:=string_event_id) StreamRoom.context s) reports.
Proof.
  destruct (streaming_traced (H:=string_event_id) (Ho:=order_forward) StreamRoom.context V2_1 ["$msg"]
    collect [] (stream_room_wf V2_1 ltac:(tauto)) stream_room_complete ltac:(discriminate)) as (r & Hr & _ & _ & Hn).
  destruct (Hn (stream_room_acyclic ["$msg"] eq_refl)) as (reports & -> & Hrep). exists reports. split; [exact Hr|exact Hrep].
Defined.

(** BLAKE3 as a function that only counts. *)
Definition counting_hash : Blake3 := {| xof input n := Ascii.ascii_of_N ((N.of_nat (length input) + n) mod 256) |}.

Lemma streaming_optimized_witness :
  ∃ reports, reported (H:=string_event_id) StreamRoom.context ["$msg"]
      (λ x u, updates_to (H:=string_event_id) (H1:=counting_hash) StreamRoom.context V2 x u) reports
    ∧ try_compute_optimized (H:=string_event_id) (H1:=counting_hash) (Ho:=order_forward)
        (mkInputs ["$msg"] StreamRoom.context V2) collect [] = Some (call_all collect reports []).
Proof.
  destruct (streaming_optimized (H:=string_event_id) (H1:=counting_hash) (Ho:=order_forward) StreamRoom.context V2 ["$msg"]
    collect [] (stream_room_wf V2 ltac:(tauto)) stream_room_complete ltac:(tauto)) as [[Hc _]|[_ Hr]]; [|exact Hr].
  exfalso. revert Hc. apply stream_room_acyclic. reflexivity.
Defined.

Lemma compute_state_at_exact_witness :
  ∃ s, compute_state_at (H:=string_event_id) (Ho:=order_forward) "$msg" StreamRoom.context V2 = Some (Some s)
    ∧ state_after (H:=string_event_id) StreamRoom.context V2 "$msg" s.
Proof.
  destruct (compute_state_at_exact (H:=string_event_id) (Ho:=order_forward) StreamRoom.context V2 "$msg"
    (stream_room_wf V2 ltac:(tauto)) stream_room_complete ltac:(tauto)) as (r & Hr & Hs & Hn).
  destruct r as [s|].
  - exists s. split; [exact Hr|]. by apply Hs.
  - exfalso. destruct (proj1 Hn eq_refl) as [Hd|Hc].
    + apply Hd, elem_of_dom. eexists. vm_compute. reflexivity.
    + revert Hc. apply stream_room_acyclic. reflexivity.
Defined.

Lemma compute_state_at_batch_exact_witness :
  ∃ results, compute_state_at_batch (H:=string_event_id) (Ho:=order_forward) ["$msg"; "$topic_b"; "$nope"] StreamRoom.context V2
      = Some results
    ∧ ∀ x s, results !! x = Some s ↔
        x ∈ ["$msg"; "$topic_b"; "$nope"] ∧ state_after (H:=string_event_id) StreamRoom.context V2 x s.
Proof.
  destruct (compute_state_at_batch_exact (H:=string_event_id) (Ho:=order_forward) StreamRoom.context V2
    ["$msg"; "$topic_b"; "$nope"] (stream_room_wf V2 ltac:(tauto)) stream_room_complete ltac:(tauto)) as (results & Hr & _ & Hn).
  exists results. split; [exact Hr|]. apply Hn, stream_room_acyclic. reflexivity.
Defined.

Lemma fork_room_contested x : contested ForkRoom.forks x → x ∈ dom ForkRoom.context.
Proof.
  intros (k & m & Hm & Hk & _).
  assert (map_Forall (λ _ id, is_Some (ForkRoom.context !! id)) m) as Hall.
  { apply elem_of_cons in Hm as [->|Hm%list_elem_of_singleton]; [|subst m]; apply (bool_decide_eq_true_1 _); vm_compute; reflexivity. }
  by apply elem_of_dom, (Hall k x).
Qed.

Lemma merge_matches_forks_witness :
  ∃ r, fst <$> resolve_merged_parent_states (H:=string_event_id) (Ho:=order_forward) ForkRoom.forks ForkRoom.context V2
      (ForkResolveCaches_new V2) = Some r ∧ resolved_forks V2 = Some r.
Proof.
  rewrite (merge_matches_forks (H:=string_event_id) (Ho:=order_forward) ForkRoom.forks ForkRoom.context V2
    (ForkResolveCaches_new V2) fork_maps_wf (fork_room_wf V2 ltac:(tauto)) fork_room_keyed fork_room_contested
    ltac:(tauto) (new_caches_sound (H:=string_event_id) V2 ForkRoom.context)).
  destruct fork_room_resolves as [r E]. exists r. split; exact E.
Defined.
