(* ===== verification/Depths.v ===== *)
(** * Depths and orders of the event graph ([src/src/state/at.rs])

    Depths derived from [prev_events], the total orders built on them, the
    check of the depths events claim, and the gaps of a partial graph.

    A tie-break is a comparison by a key; indexing a vector out of range
    panics ([None]). *)
From stdpp Require Import prelude gmap strings sorting.
From Stdlib Require String.
From S2P Require Import Prelude Dense EventTypes Json Events Iterative StateAt StatePlan StateTopo.

Definition u64_saturating_add (a b : N) : N := N.min 18446744073709551615 (a + b).

(** [DepthDivergence], [BackwardExtremity], [MissingAuthEvent]. *)
Record DepthDivergence (Id : Type) : Type := mkDivergence {
  div_parent : Id;
  div_child : Id;
  parent_depth : Z;
  child_depth : Z
}.
Arguments mkDivergence {Id}.
Arguments div_parent {Id}.
Arguments div_child {Id}.
Arguments parent_depth {Id}.
Arguments child_depth {Id}.

Record BackwardExtremity (Id : Type) : Type := mkExtremity { be_event_id : Id; missing_prev_events : list Id }.
Arguments mkExtremity {Id}.
Record MissingAuthEvent (Id : Type) : Type := mkMissingAuth { ma_event_id : Id; missing_auth_events : list Id }.
Arguments mkMissingAuth {Id}.

Section depths.
Context {Id C : Type} `{EventId Id} `{EventContent C} `{Ho : HashOrder}.
Abbreviation event := (LeanEvent Id C).
Abbreviation event_map := (gmap Id event).
Implicit Types (events_map : event_map) (ix : DenseIndex Id).

(** ** Depths *)

Definition ancestor_index_and_topo (targets : list Id) events_map : option (DenseIndex Id * list nat) :=
  index ←! collect_ancestor_short_ids_batch targets events_map;
  '(sorted, _) ←! topological_sort_short_ids index events_map;
  Some (index, sorted).

(** The greatest depth among the indexed previous events, or 0. *)
Definition max_parent_step ix (depths : list N) (m : N) (pe : Id) : option N :=
  match index_of ix pe with
  | None => Some m
  | Some pi => d ←! depths !! pi; Some (N.max m d)
  end.
Definition max_parent_depth ix (depths : list N) (prev : list Id) : option N := try_fold (max_parent_step ix depths) prev 0%N.

Definition parent_max_step events_map ix (depth_by_idx : list N) (idx : nat) : option (list N) :=
  id ←! items ix !! idx;
  match events_map !! id with
  | None => Some depth_by_idx
  | Some ev => m ←! max_parent_depth ix depth_by_idx (prev_events ev); vec_set depth_by_idx idx (u64_saturating_add m 1)
  end.
Definition parent_max_depths events_map ix (sorted : list nat) : option (list N) :=
  try_fold (parent_max_step events_map ix) sorted (replicate (Dense.len ix) 0%N).

Definition depth_of ix (depth_by_idx : list N) (id : Id) : option N :=
  match index_of ix id with None => Some 0%N | Some i => depth_by_idx !! i end.

(** [compute_depths] panics on an event the map does not hold. *)
Definition depth_step events_map ix (depths : list N) (idx : nat) : option (list N) :=
  id ←! items ix !! idx;
  ev ←! events_map !! id;
  m ←! max_parent_depth ix depths (prev_events ev);
  vec_set depths idx (u64_saturating_add m 1).

Definition depth_entry (depths : list N) (result : gmap Id N) (e : nat * Id) : option (gmap Id N) :=
  d ←! depths !! e.1; Some (<[e.2 := d]> result).

Definition compute_depths events_map : option (gmap Id N) :=
  if decide (events_map = ∅) then Some ∅
  else
    '(index, sorted) ←! ancestor_index_and_topo (hm_keys events_map) events_map;
    depths ←! try_fold (depth_step events_map index) sorted (replicate (Dense.len index) 0%N);
    try_fold (depth_entry depths) (imap pair (items index)) ∅.

(** ** Orders *)

(** [result.sort_by(..)]: the depth of every element is read, then the
    elements are compared by it and the tie-break. *)
Definition sort_by_depth ix (depth_by_idx : list N) (cmp : N → N → comparison) (tiebreak : Id → Id → comparison)
    (result : list Id) : option (list Id) :=
  keyed ←! mapM (λ id, d ←! depth_of ix depth_by_idx id; Some (d, id)) result;
  Some (snd <$> sort_by (λ a b, then_with (cmp a.1 b.1) (tiebreak a.2 b.2)) keyed).

Definition ids_at ix (sorted : list nat) : option (list Id) := mapM (λ idx, items ix !! idx) sorted.

Definition compute_topo_positions (debug_assertions : bool) events_map (tiebreak : Id → Id → comparison)
    : option (list Id) :=
  if decide (events_map = ∅) then Some []
  else
    '(index, sorted) ←! ancestor_index_and_topo (hm_keys events_map) events_map;
    _ ←! debug_assert debug_assertions (length sorted =? Dense.len index);
    depth_by_idx ←! parent_max_depths events_map index sorted;
    result ←! ids_at index sorted;
    sort_by_depth index depth_by_idx N.compare tiebreak result.

Definition reverse_topological_order (tip : Id) events_map (tiebreak : Id → Id → comparison) : option (list Id) :=
  match events_map !! tip with
  | None => Some []
  | Some _ =>
      '(index, sorted) ←! ancestor_index_and_topo [tip] events_map;
      depth_by_idx ←! parent_max_depths events_map index sorted;
      result ←! ids_at index (reverse sorted);
      sort_by_depth index depth_by_idx (λ a b, N.compare b a) tiebreak result
  end.

(** ** Claimed depths *)

Definition divergence_parent events_map (child : event) (s : list (DepthDivergence Id) * gset (Id * Id)) (parent_id : Id)
    : list (DepthDivergence Id) * gset (Id * Id) :=
  match events_map !! parent_id with
  | None => s
  | Some parent =>
      if decide ((parent_id, event_id child) ∈ s.2) then s
      else
        let seen_edges := {[(parent_id, event_id child)]} ∪ s.2 in
        if ((depth parent =? U64_MAX) && (depth child =? U64_MAX))%Z then (s.1, seen_edges)
        else if (depth child <=? depth parent)%Z then
          (s.1 ++ [mkDivergence parent_id (event_id child) (depth parent) (depth child)], seen_edges)
        else (s.1, seen_edges)
  end.

Definition divergence_cmp (a b : DepthDivergence Id) : comparison :=
  then_with (id_cmp (div_parent a) (div_parent b)) (id_cmp (div_child a) (div_child b)).

Definition find_depth_divergences events_map : list (DepthDivergence Id) :=
  sort_by divergence_cmp
    (foldl (λ s child, foldl (divergence_parent events_map child) s (prev_events child)) ([], ∅) (hm_values events_map)).1.

(** ** Gaps *)

Definition missing_refs events_map (exists_ : Id → bool) (refs : list Id) : list Id :=
  filter (λ id, events_map !! id = None ∧ exists_ id = false) refs.
Definition collect_missing_refs {G : Type} events_map (exists_ : Id → bool) (refs : event → list Id)
    (build : Id → list Id → G) : list G :=
  omap (λ node, match missing_refs events_map exists_ (refs node) with
                | [] => None
                | missing => Some (build (event_id node) missing)
                end) (hm_values events_map).
Definition find_backward_extremities events_map (exists_ : Id → bool) : list (BackwardExtremity Id) :=
  collect_missing_refs events_map exists_ prev_events mkExtremity.
Definition find_missing_auth_events events_map (exists_ : Id → bool) : list (MissingAuthEvent Id) :=
  collect_missing_refs events_map exists_ auth_events mkMissingAuth.
End depths.

(** ** Forward extremities

    A bitmap is the set of its indices, iterated in increasing order. *)
Section extremities.
Context {Id : Type} `{EventId Id}.
Abbreviation numbering := (gmap Id nat * list Id)%type.

Definition get_or_insert (s : numbering) (id : Id) : option (nat * numbering) :=
  match s.1 !! id with
  | Some idx => Some (idx, s)
  | None =>
      let idx := length s.2 in
      if (Z.of_nat idx <=? U32_MAX)%Z then Some (idx, (<[id := idx]> s.1, s.2 ++ [id])) else None
  end.

(** The numbering, [all_events] and [has_children]. *)
Record ExtremityScan : Type := mkScan { ids_seen : numbering; all_events : gset nat; has_children : gset nat }.

Definition scan_prev (s : ExtremityScan) (prev_id : Id) : option ExtremityScan :=
  '(prev_idx, ids) ←! get_or_insert (ids_seen s) prev_id;
  Some (mkScan ids (all_events s) ({[prev_idx]} ∪ has_children s)).

Definition scan_event (s : ExtremityScan) (e : Id * list Id) : option ExtremityScan :=
  '(idx, ids) ←! get_or_insert (ids_seen s) e.1;
  try_fold scan_prev e.2 (mkScan ids ({[idx]} ∪ all_events s) (has_children s)).

Definition find_forward_extremities_roaring (events : list (Id * list Id)) : option (list Id) :=
  s ←! try_fold scan_event events (mkScan (∅, []) ∅ ∅);
  mapM (λ idx, (ids_seen s).2 !! idx) (sort_by Nat.compare (elements (all_events s ∖ has_children s))).
End extremities.
