(* ===== verification/DepthsProps.v ===== *)
(** * Depths and orders: the theorems

    Depths are the lengths of the longest chains of ancestors, 0 below a cycle;
    the orders list every event after (or before) all its ancestors; and the
    reports of claimed depths and gaps are exact. *)
From stdpp Require Import prelude gmap strings sorting relations.
From Stdlib Require String.
From S2P Require Import Prelude Dense EventTypes Json Events Samples Iterative MultiSpec StateAt StatePlan StateTopo StateProps Depths.

Section longest.
Context {Id C : Type} `{EventId Id}.
Abbreviation event_map := (gmap Id (LeanEvent Id C)).
Implicit Types (ctx : event_map).

(** The longest way back from [x] has [d] steps; or there is no longest one. *)
Definition longest ctx (x : Id) (d : nat) : Prop :=
  (∃ y, nsteps (parent_of ctx) d x y) ∧ ∀ k y, nsteps (parent_of ctx) k x y → k ≤ d.
Definition unbounded ctx (x : Id) : Prop := ∀ k, ∃ y, nsteps (parent_of ctx) k x y.

(** The depth of an event: the number of events on the longest way back. *)
Definition depth_is ctx (x : Id) (d : N) : Prop :=
  (∃ k, d = N.of_nat (S k) ∧ longest ctx x k) ∨ (d = 0%N ∧ unbounded ctx x).

Lemma longest_unique ctx x d d' : longest ctx x d → longest ctx x d' → d = d'.
Proof. intros [(y & Hy) Hd] [(y' & Hy') Hd']. apply Hd' in Hy. apply Hd in Hy'. lia. Qed.

Lemma longest_bounded ctx x d : longest ctx x d → ¬ unbounded ctx x.
Proof. intros [_ Hd] Hu. destruct (Hu (S d)) as [y Hy]. apply Hd in Hy. lia. Qed.

Lemma depth_is_unique ctx x d d' : depth_is ctx x d → depth_is ctx x d' → d = d'.
Proof.
  intros [(k & -> & Hk)|[-> Hu]] [(k' & -> & Hk')|[-> Hu']]; [by rewrite (longest_unique _ _ _ _ Hk Hk')| | |done].
  - by destruct (longest_bounded _ _ _ Hk).
  - by destruct (longest_bounded _ _ _ Hk').
Qed.

(** One step from the parents to the event. *)
Lemma longest_step ctx x (m : nat) :
  (∀ p, parent_of ctx x p → ∃ d, longest ctx p d ∧ S d ≤ m) →
  (m = 0 ∨ ∃ p d, parent_of ctx x p ∧ longest ctx p d ∧ m = S d) → longest ctx x m.
Proof.
  intros Hall Hm. split.
  - destruct Hm as [->|(p & d & Hp & [(y & Hy) _] & ->)]; [by exists x; constructor|]. exists y. by econstructor.
  - intros k y Hk. inversion Hk as [|k' ? p ? Hp Hk']; subst; [lia|].
    destruct (Hall p Hp) as (d & [_ Hd] & Hle). apply Hd in Hk'. lia.
Qed.

Lemma longest_parent ctx x p d d' : parent_of ctx x p → longest ctx x d → longest ctx p d' → d' < d.
Proof. intros Hp [_ Hd] [(y & Hy) _]. assert (S d' ≤ d) by (apply (Hd _ y); by econstructor). lia. Qed.

Lemma longest_ancestor ctx x y d d' : tc (parent_of ctx) x y → longest ctx x d → longest ctx y d' → d' < d.
Proof.
  intros Ht [_ Hd] [(z & Hz) _]. apply tc_nsteps in Ht as (n & Hn & Hxy).
  pose proof (nsteps_trans _ _ _ _ _ Hxy Hz) as Hxz. apply Hd in Hxz. lia.
Qed.

Lemma unbounded_child ctx x p : parent_of ctx x p → unbounded ctx p → unbounded ctx x.
Proof. intros Hp Hu [|k]; [by exists x; constructor|]. destruct (Hu k) as [y Hy]. exists y. by econstructor. Qed.
End longest.

Section depth_vector.
Context {Id C : Type} `{EventId Id}.
Abbreviation event_map := (gmap Id (LeanEvent Id C)).
Context (ctx : event_map) (ix : DenseIndex Id).
Hypothesis Hix : indexed ctx ix.
Abbreviation n := (Dense.len ix).
Abbreviation par := (par ctx ix).

Lemma max_parent_spec (dep : nat → N) (prev : list Id) :
  ∃ m, max_parent_depth ix (tab n dep) prev = Some m
    ∧ (∀ j, j ∈ omap (index_of ix) prev → (dep j ≤ m)%N)
    ∧ (m = 0%N ∨ ∃ j, j ∈ omap (index_of ix) prev ∧ m = dep j).
Proof using Hix.
  apply (try_fold_spec _ (λ l m, (∀ j, j ∈ omap (index_of ix) l → (dep j ≤ m)%N)
    ∧ (m = 0%N ∨ ∃ j, j ∈ omap (index_of ix) l ∧ m = dep j))).
  - intros l1 pe l2 m _ [Hle Hm]. unfold max_parent_step. rewrite omap_app. simpl.
    destruct (index_of ix pe) as [j|] eqn:Ej; [|rewrite app_nil_r; by exists m].
    assert (j < n) as Hj by (apply (index_items ctx ix Hix) in Ej; by eapply lookup_lt_Some).
    rewrite tab_lookup by done. eexists. split; [done|]. split.
    + intros i [Hi| ->%list_elem_of_singleton]%elem_of_app; [specialize (Hle i Hi)|]; lia.
    + destruct (N.max_spec m (dep j)) as [[_ ->]|[_ ->]].
      * right. exists j. split; [set_solver|done].
      * destruct Hm as [->|(i & Hi & ->)]; [by left|right]. exists i. split; [set_solver|done].
  - split; [set_solver|by left].
Qed.

(** The vector after a prefix of the order. *)
Record deep (done : list nat) (dep : nat → N) : Prop := {
  deep_rest i : i ∉ done → dep i = 0%N;
  deep_done i x : i ∈ done → items ix !! i = Some x → ∃ k, dep i = N.of_nat (S k) ∧ longest ctx x k;
  deep_bound i : i ∈ done → (dep i ≤ N.of_nat (length done))%N
}.

Lemma depth_vector_step sorted done idx rest dep :
  ordered ctx ix sorted → sorted = done ++ idx :: rest → deep done dep →
  ∃ dep', depth_step ctx ix (tab n dep) idx = Some (tab n dep') ∧ deep (done ++ [idx]) dep'.
Proof using Hix.
  intros Ho Hs [Hrest Hdone Hbound].
  assert (idx < n) as Hidx by (apply (ord_bound _ _ _ Ho); rewrite Hs; set_solver).
  assert (idx ∉ done) as Hni.
  { pose proof (ord_nodup _ _ _ Ho) as Hnd. rewrite Hs in Hnd. apply NoDup_app in Hnd as (_ & Hd & _). set_solver. }
  destruct (lookup_lt_is_Some_2 (items ix) idx Hidx) as [x Hx].
  destruct (proj1 (elem_of_dom _ _) (ix_dom _ _ Hix x (list_elem_of_lookup_2 _ _ _ Hx))) as [ev Hev].
  assert (∀ j, j ∈ omap (index_of ix) (prev_events ev) ↔ j ∈ par idx) as Hpar.
  { intros j. unfold StatePlan.par. rewrite Hx, Hev. unfold distinct_parents. by rewrite elem_of_first_seen. }
  assert (∀ j, j ∈ par idx → j ∈ done) as Hpd by (intros j; apply (ord_parents _ _ _ Ho done idx rest Hs)).
  destruct (max_parent_spec dep (prev_events ev)) as (m & Em & Hle & Hm). setoid_rewrite Hpar in Hle. setoid_rewrite Hpar in Hm.
  assert (m ≤ N.of_nat (length done))%N as Hmb.
  { destruct Hm as [->|(j & Hj & ->)]; [lia|]. by apply Hbound, Hpd. }
  assert (length (done ++ [idx]) ≤ n) as Hlen.
  { rewrite <-(length_seq n 0). apply submseteq_length, NoDup_submseteq.
    - pose proof (ord_nodup _ _ _ Ho) as Hnd. rewrite Hs in Hnd. replace (done ++ idx :: rest) with ((done ++ [idx]) ++ rest) in Hnd
        by (by rewrite <-(assoc_L (++))). by apply NoDup_app in Hnd as [? _].
    - intros i Hi. apply elem_of_seq. enough (i < n) by lia. apply (ord_bound _ _ _ Ho). rewrite Hs. set_solver. }
  pose proof (ix_size _ _ Hix) as Hsize. unfold USIZE_MAX in Hsize. rewrite length_app in Hlen. simpl in Hlen.
  assert (u64_saturating_add m 1 = m + 1)%N as Hadd by (unfold u64_saturating_add; lia).
  exists (λ j, if decide (j = idx) then m + 1 else dep j)%N. split.
  { unfold depth_step. rewrite Hx, Hev, Em, Hadd. by rewrite vec_set_tab. }
  split.
  - intros i Hi. rewrite decide_False by set_solver. apply Hrest. set_solver.
  - intros i y Hi Hy. case_decide as Hd; [|apply Hdone; set_solver]. subst i. simplify_eq.
    exists (N.to_nat m). split; [lia|]. apply longest_step.
    + intros p Hp. assert (p ∈ items ix) as [j Hj]%list_elem_of_lookup
        by (eapply (ix_closed _ _ Hix); [by eapply list_elem_of_lookup_2|done]).
      assert (j ∈ par idx) as Hjp by (apply (elem_of_par _ _ Hix); by exists x, p).
      destruct (Hdone j p (Hpd j Hjp) Hj) as (k & Hk & Hl). exists k. split; [done|].
      specialize (Hle j Hjp). lia.
    + destruct Hm as [->|(j & Hj & ->)]; [by left|right]. pose proof Hj as Hjp.
      apply (elem_of_par _ _ Hix) in Hj as (x' & p & Hx' & Hp & Hpx). simplify_eq.
      destruct (Hdone j p (Hpd j Hjp) Hp) as (k & -> & Hl). exists p, k. split_and!; [done..|lia].
  - intros i Hi. rewrite length_app. simpl. case_decide; [lia|]. assert (i ∈ done) as Hid by set_solver.
    specialize (Hbound i Hid). lia.
Qed.

(** Left out of the order is what has no longest way back. *)
Lemma unordered_unbounded sorted i x : ordered ctx ix sorted → items ix !! i = Some x → i ∉ sorted → unbounded ctx x.
Proof using Hix.
  intros Ho Hi Hni k. revert i x Hi Hni. induction k as [|k IH]; intros i x Hi Hni; [by exists x; constructor|].
  destruct (decide (Forall (.∈ sorted) (par i))) as [Hall|Hno].
  { destruct Hni. apply (ord_ready _ _ _ Ho); [by eapply lookup_lt_Some|]. intros p Hp. rewrite Forall_forall in Hall. by apply Hall. }
  apply not_Forall_Exists in Hno; [|intros ?; apply decide_rel; apply _]. apply Exists_exists in Hno as (j & Hj & Hnj). simpl in Hnj.
  apply (elem_of_par _ _ Hix) in Hj as (x' & p & Hx' & Hp & Hxp). simplify_eq.
  destruct (IH j p Hp Hnj) as [y Hy]. exists y. by econstructor.
Qed.

Lemma ordered_bounded sorted i x : ordered ctx ix sorted → items ix !! i = Some x → ¬ unbounded ctx x → i ∈ sorted.
Proof using Hix. intros Ho Hi Hb. destruct (decide (i ∈ sorted)); [done|]. destruct Hb. by eapply unordered_unbounded. Qed.

Lemma depth_vector sorted :
  ordered ctx ix sorted →
  ∃ dep, try_fold (depth_step ctx ix) sorted (replicate n 0%N) = Some (tab n dep)
    ∧ ∀ i x, items ix !! i = Some x → depth_is ctx x (dep i) ∧ (i ∈ sorted ↔ ¬ unbounded ctx x).
Proof using Hix.
  intros Ho. rewrite replicate_tab.
  destruct (try_fold_spec (depth_step ctx ix) (λ done s, ∃ dep, s = tab n dep ∧ deep done dep) sorted (tab n (λ _, 0%N)))
    as (s & Hs & dep & -> & Hdeep).
  - intros done idx rest s Hs (dep & -> & Hdeep).
    destruct (depth_vector_step sorted done idx rest dep Ho Hs Hdeep) as (dep' & -> & Hdeep'). by eauto.
  - exists (λ _, 0%N). split; [done|]. split; [done|set_solver|set_solver].
  - exists dep. split; [done|]. intros i x Hi. destruct (decide (i ∈ sorted)) as [Hin|Hni].
    + destruct (deep_done _ _ Hdeep i x Hin Hi) as (k & Hk & Hl). split; [left; by exists k|].
      split; [intros _; by eapply longest_bounded|done].
    + assert (unbounded ctx x) by (by eapply unordered_unbounded).
      split; [right; split; [by apply (deep_rest _ _ Hdeep)|done]|]. tauto.
Qed.

(** The two loops over the order are the same. *)
Lemma parent_max_same sorted : parent_max_depths ctx ix sorted = try_fold (depth_step ctx ix) sorted (replicate n 0%N).
Proof using Hix.
  unfold parent_max_depths. apply try_fold_ext. intros s idx. unfold parent_max_step, depth_step.
  destruct (items ix !! idx) as [x|] eqn:Hx; [|done].
  destruct (proj1 (elem_of_dom _ _) (ix_dom _ _ Hix x (list_elem_of_lookup_2 _ _ _ Hx))) as [ev ->]. done.
Qed.
End depth_vector.

(** ** The index and the orders *)

Section orders.
Context {Id C : Type} `{EventId Id} `{EventContent C}.
Abbreviation event := (LeanEvent Id C).
Abbreviation event_map := (gmap Id event).
Implicit Types (ctx : event_map).

Lemma index_and_topo_spec ctx (targets : list Id) :
  (N.of_nat (size ctx) ≤ USIZE_MAX)%N → (∀ t, t ∈ targets → t ∈ dom ctx) →
  ∃ ix sorted, ancestor_index_and_topo targets ctx = Some (ix, sorted) ∧ indexed ctx ix ∧ ordered ctx ix sorted
    ∧ ∀ x, x ∈ items ix ↔ ancestor ctx targets x.
Proof.
  intros Hsize Ht. destruct (collect_batch_spec ctx targets Ht Hsize) as (ix & Ec & Hok & Hlen & Hitems).
  assert (indexed ctx ix) as Hix.
  { split; [done| | |done].
    - intros x Hx%Hitems. by eapply ancestor_dom.
    - intros x p (t & Hin & Hr)%Hitems Hp. apply Hitems. exists t. split; [done|]. by eapply rtc_r. }
  destruct (topological_sort_spec ctx ix Hix) as (sorted & Es & Ho).
  exists ix, sorted. split_and!; [|done..]. unfold ancestor_index_and_topo. by rewrite Ec, Es.
Qed.

Lemma ancestor_all `{Ho : HashOrder} ctx x : ancestor ctx (hm_keys ctx) x ↔ x ∈ dom ctx.
Proof.
  split.
  - apply ancestor_dom. intros t. apply elem_of_hm_keys.
  - intros Hx. exists x. split; [by apply elem_of_hm_keys|done].
Qed.

(** ** Depths *)

Lemma depth_entries dep (l : list Id) (k : nat) (m0 : gmap Id N) (n : nat) :
  k + length l ≤ n → NoDup l → (∀ x, x ∈ l → m0 !! x = None) →
  ∃ m, try_fold (depth_entry (tab n dep)) (imap (λ i x, (k + i, x)) l) m0 = Some m
    ∧ ∀ x d, m !! x = Some d ↔ m0 !! x = Some d ∨ ∃ i, l !! i = Some x ∧ d = dep (k + i).
Proof.
  revert k m0. induction l as [|y l IH]; intros k m0 Hk Hnd Hm0.
  { exists m0. split; [done|]. intros x d. split; [by left|]. intros [?|(i & Hi & _)]; [done|done]. }
  simpl in *. apply NoDup_cons in Hnd as [Hy Hnd]. unfold depth_entry at 1. simpl.
  rewrite Nat.add_0_r, tab_lookup by lia. destruct (IH (S k) (<[y := dep k]> m0)) as (m & Em & Hm); [lia|done| |].
  { intros x Hx. rewrite lookup_insert_ne by (intros ->; done). apply Hm0. by right. }
  exists m. split.
  { rewrite <-Em. f_equal. apply imap_ext. intros i x _. simpl. f_equal. lia. }
  intros x d. rewrite Hm. split.
  - intros [Hd|(i & Hi & ->)].
    + apply lookup_insert_Some in Hd as [[-> <-]|[_ ?]]; [|by left]. right. exists 0. by rewrite Nat.add_0_r.
    + right. exists (S i). split; [done|]. f_equal. lia.
  - intros [Hd|([|i] & Hi & ->)].
    + left. rewrite lookup_insert_ne; [done|]. intros ->. rewrite Hm0 in Hd by left. done.
    + simpl in Hi. simplify_eq. left. by rewrite lookup_insert_eq, Nat.add_0_r.
    + right. exists i. split; [done|]. f_equal. lia.
Qed.

(** The depth of every event is the number of events on the longest way
    back from it, whatever order the map is iterated in, and it is 0 exactly
    when there is no longest way because a cycle is above the event; the
    computation never panics. *)
Theorem compute_depths_exact `{Ho : HashOrder} ctx :
  (N.of_nat (size ctx) ≤ USIZE_MAX)%N →
  ∃ depths, compute_depths ctx = Some depths ∧ dom depths = dom ctx
    ∧ ∀ x d, x ∈ dom ctx → depths !! x = Some d ↔ depth_is ctx x d.
Proof.
  intros Hsize. unfold compute_depths. destruct (decide (ctx = ∅)) as [->|Hne].
  { exists ∅. split_and!; [done|by rewrite !dom_empty_L|]. intros x d. rewrite dom_empty_L. set_solver. }
  destruct (index_and_topo_spec ctx (hm_keys ctx) Hsize) as (ix & sorted & -> & Hix & Hord & Hitems).
  { intros t. apply elem_of_hm_keys. }
  destruct (depth_vector ctx ix Hix sorted Hord) as (dep & -> & Hdep).
  destruct (depth_entries dep (items ix) 0 ∅ (Dense.len ix)) as (m & Em & Hm);
    [done|apply (dense_nodup _ _ (ix_dense _ _ Hix))|intros; apply lookup_empty|].
  assert (∀ x, x ∈ items ix ↔ x ∈ dom ctx) as Hdom by (intros x; by rewrite Hitems, ancestor_all).
  assert (∀ x d, x ∈ dom ctx → m !! x = Some d ↔ depth_is ctx x d) as Hspec.
  { intros x d Hx%Hdom. apply list_elem_of_lookup in Hx as [i Hi]. destruct (Hdep i x Hi) as [Hd _].
    rewrite Hm, lookup_empty. split.
    - intros [?|(j & Hj & ->)]; [done|]. by destruct (Hdep j x Hj).
    - intros Hd'. right. exists i. split; [done|]. by eapply depth_is_unique. }
  exists m. split_and!; [exact Em| |done]. apply set_eq. intros x. rewrite elem_of_dom. split.
  - intros [d Hd]. apply Hm in Hd as [Hd|(i & Hi & _)]; [by rewrite lookup_empty in Hd|].
    apply Hdom. by eapply list_elem_of_lookup_2.
  - intros Hx. pose proof Hx as Hx'. apply Hdom, list_elem_of_lookup in Hx' as [i Hi].
    destruct (Hdep i x Hi) as [Hd _]. eexists. by apply Hspec.
Qed.

(** ** The sorted orders *)

Section sorted.
Context (ctx : event_map) (ix : DenseIndex Id) (sorted : list nat).
Hypothesis Hix : indexed ctx ix.
Hypothesis Hord : ordered ctx ix sorted.
Abbreviation n := (Dense.len ix).

Lemma ids_at_spec order :
  order ≡ₚ sorted →
  ∃ ids, ids_at ix order = Some ids ∧ NoDup ids ∧ ∀ x, x ∈ ids ↔ x ∈ items ix ∧ ¬ unbounded ctx x.
Proof using Hix Hord.
  intros Hp. assert (∃ ids, ids_at ix order = Some ids) as [ids Hids].
  { unfold ids_at. apply mapM_is_Some. apply Forall_forall. intros i Hi. apply lookup_lt_is_Some.
    apply (ord_bound _ _ _ Hord). by rewrite <-Hp. }
  exists ids. split; [done|]. apply mapM_Some in Hids.
  pose proof (dense_nodup _ _ (ix_dense _ _ Hix)) as Hnd. split.
  - apply NoDup_alt. intros a b x Ha Hb.
    destruct (Forall2_lookup_r _ _ _ _ _ Hids Ha) as (i & Hi & Hxi).
    destruct (Forall2_lookup_r _ _ _ _ _ Hids Hb) as (j & Hj & Hxj).
    assert (i = j) as -> by (by eapply NoDup_lookup). eapply NoDup_lookup; [|exact Hi|exact Hj].
    rewrite Hp. apply (ord_nodup _ _ _ Hord).
  - destruct (depth_vector ctx ix Hix sorted Hord) as (dep & _ & Hdep). intros x. split.
    + intros [a Ha]%list_elem_of_lookup. destruct (Forall2_lookup_r _ _ _ _ _ Hids Ha) as (i & Hi & Hxi).
      split; [by eapply list_elem_of_lookup_2|]. apply (Hdep i x Hxi). rewrite <-Hp. by eapply list_elem_of_lookup_2.
    + intros [[i Hi]%list_elem_of_lookup Hb]. assert (i ∈ order) as [a Ha]%list_elem_of_lookup by (rewrite Hp; by apply (Hdep i x Hi)).
      destruct (Forall2_lookup_l _ _ _ _ _ Hids Ha) as (y & Hy & Hiy). simplify_eq. by eapply list_elem_of_lookup_2.
Qed.

Context {B : Type} (f : Id → B) (k : B → B → comparison) `{!TotalCmp k} (c : N → N → comparison) `{!TotalCmp c}.

Lemma sort_by_depth_eq (depths : list N) (D : Id → N) (ids : list Id) :
  (∀ x, x ∈ ids → depth_of ix depths x = Some (D x)) →
  sort_by_depth ix depths c (cmp_on f k) ids = Some (sort_by (cmp_on (λ x, (D x, f x)) (cmp_pair c k)) ids).
Proof.
  intros HD. unfold sort_by_depth.
  assert (mapM (λ id, d ←! depth_of ix depths id; Some (d, id)) ids = Some ((λ x, (D x, x)) <$> ids)) as ->.
  { apply mapM_Some. apply Forall2_fmap_r, Forall_Forall2_diag, Forall_forall. intros x Hx. by rewrite HD. }
  rewrite (sort_by_map (λ x, (D x, x))). f_equal. rewrite <-list_fmap_compose. simpl. rewrite list_fmap_id. done.
Qed.

(** The sorted list of the ordered events, by depth and tie-break. *)
Lemma depth_order order :
  order ≡ₚ sorted →
  ∃ D ids, (depths ←! parent_max_depths ctx ix sorted; result ←! ids_at ix order;
      sort_by_depth ix depths c (cmp_on f k) result) = Some (sort_by (cmp_on (λ x, (D x, f x)) (cmp_pair c k)) ids)
    ∧ NoDup ids ∧ (∀ x, x ∈ ids ↔ x ∈ items ix ∧ ¬ unbounded ctx x) ∧ ∀ x, x ∈ ids → depth_is ctx x (D x).
Proof using Hix Hord.
  intros Hp. destruct (ids_at_spec order Hp) as (ids & Ei & Hnd & Hids).
  destruct (depth_vector ctx ix Hix sorted Hord) as (dep & Ed & Hdep).
  exists (λ x, match index_of ix x with Some i => dep i | None => 0%N end), ids.
  rewrite (parent_max_same ctx ix Hix), Ed, Ei.
  assert (∀ x, x ∈ ids → ∃ i, items ix !! i = Some x) as Hlook by (intros x [Hx _]%Hids; by apply list_elem_of_lookup).
  split_and!; [|done|done|].
  - apply sort_by_depth_eq. intros x Hx. destruct (Hlook x Hx) as [i Hi]. unfold depth_of.
    rewrite (proj2 (index_items ctx ix Hix x i) Hi). apply tab_lookup. by eapply lookup_lt_Some.
  - intros x Hx. destruct (Hlook x Hx) as [i Hi]. rewrite (proj2 (index_items ctx ix Hix x i) Hi). by apply Hdep.
Qed.
End sorted.

Lemma bounded_longest ctx x d : depth_is ctx x d → ¬ unbounded ctx x → ∃ m, longest ctx x m ∧ d = N.of_nat (S m).
Proof. intros [(m & -> & Hm)|[_ Hu]] Hb; [by exists m|done]. Qed.

Lemma ancestor_bounded ctx x y : tc (parent_of ctx) x y → ¬ unbounded ctx x → ¬ unbounded ctx y.
Proof.
  intros Ht Hb Hu. apply Hb. clear Hb. induction Ht as [x y Hp|x z y Hp _ IH]; [by eapply unbounded_child|].
  eapply unbounded_child; [exact Hp|by apply IH].
Qed.

(** Sorted by depth, the ancestors of an event stand before it. *)
Definition before (l : list Id) (x y : Id) : Prop := ∃ l1 l2, l = l1 ++ x :: l2 ∧ y ∈ l2.

Lemma strongly_before {R : relation Id} (l : list Id) x y : StronglySorted R l → before l x y → R x y.
Proof.
  intros Hs (l1 & l2 & -> & Hy). induction l1 as [|z l1 IH]; simpl in Hs; inversion Hs as [|? ? Hs' Hf]; subst.
  - rewrite Forall_forall in Hf. by apply Hf.
  - by apply IH.
Qed.

Lemma before_total (l : list Id) x y : x ∈ l → y ∈ l → x ≠ y → before l x y ∨ before l y x.
Proof.
  intros Hx Hy Hne. apply list_elem_of_split in Hx as (l1 & l2 & ->).
  apply elem_of_app in Hy as [Hy|[->|Hy]%elem_of_cons]; [|done|left; by exists l1, l2].
  right. apply list_elem_of_split in Hy as (k1 & k2 & ->). exists k1, (k2 ++ x :: l2).
  split; [by rewrite <-(assoc_L (++))|set_solver].
Qed.
End orders.

(** ** The two orders *)

Section order_claims.
Context {Id C : Type} `{EventId Id} `{EventContent C} {B : Type} (f : Id → B) (k : B → B → comparison) `{!TotalCmp k}.
Abbreviation event_map := (gmap Id (LeanEvent Id C)).
Implicit Types (ctx : event_map).

(** [x] before [y]: nearer to the beginning (or further from it), or as far
    and not after it by the tie-break. *)
Definition earlier (R : relation nat) ctx (x y : Id) : Prop :=
  ∃ dx dy, longest ctx x dx ∧ longest ctx y dy ∧ (R dx dy ∨ dx = dy ∧ k (f x) (f y) ≠ Gt).

(** A comparison of depths. *)
Record depth_cmp (c : N → N → comparison) (R : relation nat) : Prop := {
  dc_lt a b : c (N.of_nat (S a)) (N.of_nat (S b)) = Lt → R a b;
  dc_eq a b : c (N.of_nat (S a)) (N.of_nat (S b)) = Eq → a = b
}.
Lemma depth_cmp_up : depth_cmp N.compare lt.
Proof. split; intros a b; [rewrite N.compare_lt_iff|rewrite N.compare_eq_iff]; lia. Qed.
Lemma depth_cmp_down : depth_cmp (cmp_rev N.compare) gt.
Proof. split; intros a b; unfold cmp_rev; [rewrite N.compare_lt_iff|rewrite N.compare_eq_iff]; lia. Qed.

Section sorted_ids.
Context (ctx : event_map) (D : Id → N) (ids : list Id) (c : N → N → comparison) `{!TotalCmp c} (R : relation nat).
Hypothesis Hc : depth_cmp c R.
Hypothesis Hids : ∀ x, x ∈ ids → ¬ unbounded ctx x ∧ depth_is ctx x (D x).
Abbreviation l := (sort_by (cmp_on (λ x, (D x, f x)) (cmp_pair c k)) ids).

Lemma sorted_earlier x y : before l x y → earlier R ctx x y.
Proof using Hc Hids TotalCmp0 TotalCmp1.
  intros Hb. pose proof (strongly_before l x y (sort_by_sorted _ _ _) Hb) as Hle.
  assert (x ∈ ids ∧ y ∈ ids) as [[Hbx Hx]%Hids [Hby Hy]%Hids].
  { destruct Hb as (l1 & l2 & E & Hy). split; rewrite <-(sort_by_perm (cmp_on (λ x, (D x, f x)) (cmp_pair c k)) ids), E; set_solver. }
  destruct (bounded_longest ctx x (D x) Hx Hbx) as (dx & Hdx & Ex), (bounded_longest ctx y (D y) Hy Hby) as (dy & Hdy & Ey).
  exists dx, dy. split_and!; [done..|]. unfold cmp_le, cmp_on, cmp_pair, then_with in Hle. simpl in Hle. rewrite Ex, Ey in Hle.
  destruct (c _ _) eqn:Ec in Hle; [right|left|done]; [|by eapply dc_lt]. split; [by eapply dc_eq|done].
Qed.

Lemma sorted_before x y dx dy :
  x ∈ ids → y ∈ ids → longest ctx x dx → longest ctx y dy → R dx dy → ¬ R dy dx → dx ≠ dy → before l x y.
Proof using Hc Hids TotalCmp0 TotalCmp1.
  intros Hx Hy Hdx Hdy HR Hn Hne.
  destruct (before_total l x y) as [?|Hyx]; [by rewrite sort_by_perm..| |done|].
  - intros ->. by rewrite (longest_unique _ _ _ _ Hdx Hdy) in Hne.
  - apply sorted_earlier in Hyx as (dy' & dx' & Hdy' & Hdx' & Hor).
    rewrite (longest_unique _ _ _ _ Hdx' Hdx), (longest_unique _ _ _ _ Hdy' Hdy) in Hor. destruct Hor as [?|[? _]]; [done|congruence].
Qed.

(** Of two events on a way back both are ordered. *)
Lemma sorted_ancestor x y :
  (∀ y, tc (parent_of ctx) x y → y ∈ ids) → x ∈ ids → tc (parent_of ctx) x y →
  ∃ dx dy, longest ctx x dx ∧ longest ctx y dy ∧ dy < dx ∧ x ∈ ids ∧ y ∈ ids.
Proof using Hids.
  intros Hcl Hx Ht. destruct (Hids x Hx) as [Hb Hdx], (Hids y (Hcl y Ht)) as [Hby Hdy].
  destruct (bounded_longest ctx x (D x) Hdx Hb) as (dx & Hlx & _), (bounded_longest ctx y (D y) Hdy Hby) as (dy & Hly & _).
  exists dx, dy. split_and!; [done..|by eapply longest_ancestor|done|by apply Hcl].
Qed.
End sorted_ids.

Lemma ancestor_dom_tc ctx x y : tc (parent_of ctx) x y → y ∈ dom ctx.
Proof. induction 1 as [x y Hp|x z y _ _ IH]; [by eapply parents_dom|done]. Qed.

(** An event stands on or below a cycle: one of its ancestors, or itself, is
    its own ancestor. *)
Definition below_cycle ctx (x : Id) : Prop := ∃ y, rtc (parent_of ctx) x y ∧ tc (parent_of ctx) y y.

Lemma unbounded_below_cycle ctx x :
  (N.of_nat (size ctx) ≤ USIZE_MAX)%N → x ∈ dom ctx → unbounded ctx x ↔ below_cycle ctx x.
Proof using Type.
  intros Hsize Hx. split.
  - intros Hu. destruct (index_and_topo_spec ctx [x] Hsize) as (ix & sorted & _ & Hix & Hord & Hitems).
    { by intros t ->%list_elem_of_singleton. }
    assert (x ∈ items ix) as [i Hi]%list_elem_of_lookup by (apply Hitems; exists x; split; [left|done]).
    destruct (depth_vector ctx ix Hix sorted Hord) as (dep & _ & Hdep). destruct (Hdep i x Hi) as [_ Hin].
    destruct (ordered_cycle ctx ix Hix sorted i Hord) as (y & Hy & Ht);
      [by eapply lookup_lt_Some|by rewrite Hin; intros ?|].
    apply Hitems in Hy as (t & ->%list_elem_of_singleton & Hr). by exists y.
  - intros (y & Hr & Ht). assert (∀ k, ∃ z, nsteps (parent_of ctx) k y z) as Hy.
    { intros n. induction n as [|n (z & Hz)]; [by exists y; constructor|]. apply tc_nsteps in Ht as (m & Hm & Hyy).
      pose proof (nsteps_trans _ _ _ _ _ Hyy Hz) as Hl. replace (m + n) with (S n + (m - 1)) in Hl by lia.
      apply nsteps_add_inv in Hl as (w & Hw & _). by exists w. }
    clear Hx. induction Hr as [x|x z y Hp _ IH]; [exact Hy|]. eapply unbounded_child; [exact Hp|]. by apply IH.
Qed.

(** The sort is complete, and the assertion holds, on an acyclic graph only. *)
Lemma topo_run (o : HashOrder) debug ctx :
  (N.of_nat (size ctx) ≤ USIZE_MAX)%N →
  let cycle := ∃ x, x ∈ dom ctx ∧ tc (parent_of ctx) x x in
  (debug = true ∧ cycle ∧ compute_topo_positions (Ho:=o) debug ctx (cmp_on f k) = None)
  ∨ (¬ (debug = true ∧ cycle)) ∧ ∃ D ids, compute_topo_positions (Ho:=o) debug ctx (cmp_on f k)
      = Some (sort_by (cmp_on (λ x, (D x, f x)) (cmp_pair N.compare k)) ids)
    ∧ NoDup ids ∧ (∀ x, x ∈ ids ↔ x ∈ dom ctx ∧ ¬ unbounded ctx x) ∧ ∀ x, x ∈ ids → depth_is ctx x (D x).
Proof using TotalCmp0.
  intros Hsize cycle. unfold compute_topo_positions. destruct (decide (ctx = ∅)) as [->|Hne].
  { right. split; [intros (_ & x & Hx & _); set_solver|].
    exists (λ _, 0%N), []. split_and!; [done|constructor| |]; intros x; [rewrite dom_empty_L|]; set_solver. }
  destruct (index_and_topo_spec ctx (hm_keys ctx) Hsize) as (ix & sorted & -> & Hix & Hord & Hitems).
  { intros t. apply elem_of_hm_keys. }
  assert ((length sorted = Dense.len ix ∧ ¬ cycle) ∨ (length sorted ≠ Dense.len ix ∧ cycle)) as Hac.
  { destruct (ordered_complete ctx ix Hix sorted Hord) as [[Hl Hno]|[Hl (x & Hx & Ht)]]; [left|right]; (split; [done|]).
    - intros (x & Hx & Ht). apply (Hno x); [|done]. by rewrite Hitems, ancestor_all.
    - exists x. split; [|done]. by rewrite <-(ancestor_all ctx), <-Hitems. }
  destruct (decide (debug = true ∧ length sorted ≠ Dense.len ix)) as [[-> Hl]|Hd].
  { left. split_and!; [done|tauto|]. simpl. by rewrite (proj2 (Nat.eqb_neq _ _) Hl). }
  right. split; [intros [-> ?]; tauto|].
  assert (debug_assert debug (length sorted =? Dense.len ix) = Some ()) as Ha.
  { unfold debug_assert. destruct debug; [|done]. simpl. destruct (Nat.eqb_spec (length sorted) (Dense.len ix)); [done|tauto]. }
  destruct (depth_order ctx ix sorted Hix Hord f k N.compare sorted) as (D & ids & Er & Hnd & Hids & HD); [done|].
  exists D, ids. simpl. rewrite Ha. simpl. split_and!; [exact Er|done| |done]. intros x. by rewrite Hids, Hitems, ancestor_all.
Qed.

(** C26: the positions fail exactly in a build with debug assertions on a graph
    with a cycle; otherwise they list every event that is not on or below a
    cycle exactly once, by depth and then by the tie-break, so that every
    event stands after all its ancestors; and when the tie-break tells the
    events apart the list does not depend on the hash order. *)
Theorem topo_positions_order (o o' : HashOrder) debug ctx :
  (N.of_nat (size ctx) ≤ USIZE_MAX)%N →
  let cycle := ∃ x, x ∈ dom ctx ∧ tc (parent_of ctx) x x in
  match compute_topo_positions (Ho:=o) debug ctx (cmp_on f k) with
  | None => debug = true ∧ cycle
  | Some l => ¬ (debug = true ∧ cycle) ∧ NoDup l
    ∧ (∀ x, x ∈ l ↔ x ∈ dom ctx ∧ ¬ below_cycle ctx x)
    ∧ (∀ x y, before l x y → earlier lt ctx x y)
    ∧ (∀ x y, x ∈ l → tc (parent_of ctx) x y → before l y x)
    ∧ ((∀ x y, x ∈ dom ctx → y ∈ dom ctx → f x = f y → x = y) →
         compute_topo_positions (Ho:=o') debug ctx (cmp_on f k) = Some l)
  end.
Proof using TotalCmp0.
  intros Hsize cycle. destruct (topo_run o debug ctx Hsize) as [(? & ? & ->)|[Hno (D & ids & -> & Hnd & Hids & HD)]]; [done|].
  assert (∀ x, x ∈ ids → ¬ unbounded ctx x ∧ depth_is ctx x (D x)) as Hb by (intros x Hx; split; [by apply Hids|by apply HD]).
  split_and!; [done|by rewrite sort_by_perm| | | |].
  - intros x. rewrite sort_by_perm, Hids. split; (intros [Hx Hb']; split; [done|]);
      [by rewrite <-unbounded_below_cycle|by rewrite unbounded_below_cycle].
  - intros x y. apply (sorted_earlier ctx D ids N.compare lt depth_cmp_up Hb).
  - intros x y Hx Ht. rewrite sort_by_perm in Hx.
    destruct (sorted_ancestor ctx D ids Hb x y) as (dx & dy & Hdx & Hdy & Hlt & _ & Hy); [|done..|].
    { intros z Hz. apply Hids. split; [by eapply ancestor_dom_tc|]. by eapply ancestor_bounded; [|apply Hids]. }
    by apply (sorted_before ctx D ids N.compare lt depth_cmp_up Hb y x dy dx); [..|lia|lia].
  - intros Hinj. destruct (topo_run o' debug ctx Hsize) as [(? & ? & _)|[_ (D' & ids' & -> & Hnd' & Hids' & HD')]]; [tauto|]. f_equal.
    assert (ids' ≡ₚ ids) as Hp by (apply NoDup_Permutation; [done..|intros x; by rewrite Hids, Hids']).
    assert (∀ x, x ∈ ids' → D' x = D x) as HDD.
    { intros x Hx. eapply depth_is_unique; [by apply HD'|]. apply HD. by rewrite <-Hp. }
    rewrite (sort_by_ext _ (cmp_on (λ x, (D x, f x)) (cmp_pair N.compare k)) ids').
    + apply (sort_by_perm_eq _ _); [|done]. intros x y [Hx _]%Hids' [Hy _]%Hids' [= _ Hf]. by apply Hinj.
    + intros x y Hx Hy. unfold cmp_on. by rewrite !HDD.
Qed.

(** The order for paging backwards from a known tip lists the tip and
    its ancestors, those not below a cycle, exactly once, the furthest from
    the beginning first and then by the tie-break, so that every event stands
    before all its ancestors; an unknown tip gives nothing. *)
Theorem reverse_order_newest_first ctx (tip : Id) :
  (N.of_nat (size ctx) ≤ USIZE_MAX)%N →
  ∃ l, reverse_topological_order tip ctx (cmp_on f k) = Some l ∧ NoDup l
    ∧ (∀ x, x ∈ l ↔ tip ∈ dom ctx ∧ rtc (parent_of ctx) tip x ∧ ¬ unbounded ctx x)
    ∧ (∀ x y, before l x y → earlier gt ctx x y)
    ∧ (∀ x y, x ∈ l → tc (parent_of ctx) x y → before l x y).
Proof using TotalCmp0.
  intros Hsize. unfold reverse_topological_order. destruct (ctx !! tip) as [ev|] eqn:Et.
  2:{ exists []. apply not_elem_of_dom in Et. split_and!; [done|constructor| | |].
      - intros x. split; [by intros ?%elem_of_nil|by intros [? _]].
      - intros x y (l1 & l2 & E & _). by destruct l1.
      - intros x y Hx. by apply elem_of_nil in Hx. }
  apply elem_of_dom_2 in Et.
  destruct (index_and_topo_spec ctx [tip] Hsize) as (ix & sorted & -> & Hix & Hord & Hitems).
  { by intros t ->%list_elem_of_singleton. }
  destruct (depth_order ctx ix sorted Hix Hord f k (cmp_rev N.compare) (reverse sorted)) as (D & ids & Er & Hnd & Hids & HD);
    [by rewrite reverse_Permutation|].
  eexists. split; [exact Er|].
  assert (∀ x, x ∈ ids ↔ tip ∈ dom ctx ∧ rtc (parent_of ctx) tip x ∧ ¬ unbounded ctx x) as Hin.
  { intros x. rewrite Hids, Hitems. unfold ancestor. set_solver. }
  assert (∀ x, x ∈ ids → ¬ unbounded ctx x ∧ depth_is ctx x (D x)) as Hb by (intros x Hx; split; [by apply Hids|by apply HD]).
  split_and!; [by rewrite sort_by_perm|intros x; by rewrite sort_by_perm, Hin| |].
  - intros x y. apply (sorted_earlier ctx D ids _ gt depth_cmp_down Hb).
  - intros x y Hx Ht. rewrite sort_by_perm in Hx.
    destruct (sorted_ancestor ctx D ids Hb x y) as (dx & dy & Hdx & Hdy & Hlt & _ & Hy); [|done..|].
    { intros z Hz. apply Hin. apply Hin in Hx as (_ & Hr & Hbx). split_and!; [done| |by eapply ancestor_bounded].
      etrans; [exact Hr|by apply tc_rtc]. }
    by apply (sorted_before ctx D ids _ gt depth_cmp_down Hb x y dx dy); [..|lia|lia].
Qed.
End order_claims.

(** ** On the room of [StreamRoom] *)

Lemma stream_room_size : (N.of_nat (size StreamRoom.context) ≤ USIZE_MAX)%N.
Proof. vm_compute. discriminate. Qed.

Lemma compute_depths_exact_witness :
  ∃ depths, compute_depths (H:=string_event_id) (Ho:=order_forward) StreamRoom.context = Some depths
    ∧ depths !! "$msg" = Some 8%N ∧ depth_is (H:=string_event_id) StreamRoom.context "$msg" 8%N.
Proof.
  destruct (compute_depths_exact (H:=string_event_id) (Ho:=order_forward) StreamRoom.context stream_room_size)
    as (depths & Hd & _ & Hx). exists depths. split; [exact Hd|].
  assert (depths !! "$msg" = Some 8%N) as Hm.
  { assert (Some (depths !! "$msg") = Some (Some 8%N)) as E; [|by injection E].
    transitivity (match compute_depths (H:=string_event_id) (Ho:=order_forward) StreamRoom.context with
      Some ds => Some (ds !! "$msg") | None => None end); [by rewrite Hd|]. vm_compute. reflexivity. }
  split; [exact Hm|]. apply Hx; [|exact Hm]. apply elem_of_dom. eexists. vm_compute. reflexivity.
Defined.

(** Two events that cite each other: a build with debug assertions fails. *)
Definition cyclic_context : gmap string (LeanEvent string value) :=
  let ev id prev := Sample.ev id "m.room.message" None "@a:x" (Object []) prev [] 1 in
  list_to_map [("$x", ev "$x" ["$y"]); ("$y", ev "$y" ["$x"])].

Lemma topo_positions_order_witness :
  (∃ l, compute_topo_positions (H:=string_event_id) (Ho:=order_forward) true StreamRoom.context (cmp_on (λ x, x) String.compare) = Some l
    ∧ compute_topo_positions (H:=string_event_id) (Ho:=order_backward) true StreamRoom.context (cmp_on (λ x, x) String.compare) = Some l)
  ∧ (∃ x, x ∈ dom cyclic_context ∧ tc (parent_of (H:=string_event_id) cyclic_context) x x).
Proof.
  split.
  - pose proof (topo_positions_order (H:=string_event_id) (λ x : string, x) String.compare order_forward order_backward
      true StreamRoom.context stream_room_size) as Hp. cbv zeta in Hp.
    destruct (compute_topo_positions (H:=string_event_id) (Ho:=order_forward) true StreamRoom.context (cmp_on (λ x, x) String.compare))
      as [l|] eqn:El.
    + exists l. split; [reflexivity|]. apply Hp. intros x y _ _ E. exact E.
    + exfalso. vm_compute in El. discriminate El.
  - pose proof (topo_positions_order (H:=string_event_id) (λ x : string, x) String.compare order_forward order_forward
      true cyclic_context ltac:(vm_compute; discriminate)) as Hp. cbv zeta in Hp.
    destruct (compute_topo_positions _ _ _) as [l|] eqn:El in Hp; [exfalso; vm_compute in El; discriminate El|apply Hp].
Defined.

Lemma reverse_order_newest_first_witness :
  ∃ l, reverse_topological_order (H:=string_event_id) "$msg" StreamRoom.context (cmp_on (λ x, x) String.compare) = Some l
    ∧ ∀ x y, x ∈ l → tc (parent_of (H:=string_event_id) StreamRoom.context) x y → before l x y.
Proof.
  destruct (reverse_order_newest_first (H:=string_event_id) (λ x : string, x) String.compare StreamRoom.context "$msg" stream_room_size)
    as (l & Hl & _ & _ & _ & Hb). exists l. split; [exact Hl|exact Hb].
Defined.

(** ** What the reports of claimed depths and gaps say

    Exactly the edges whose claimed depths do not increase, in increasing order
    of parent and child; exactly the events with a reference that is neither
    in the map nor known elsewhere. *)

Section reports.
Context {Id C : Type} `{EventId Id} `{EventContent C}.
Abbreviation event := (LeanEvent Id C).
Abbreviation event_map := (gmap Id event).
Abbreviation divergence := (DepthDivergence Id).
Implicit Types (ctx : event_map).

(** The events of the map are filed under their ids. *)
Definition filed ctx : Prop := ∀ id ev, ctx !! id = Some ev → event_id ev = id.

(** An edge whose child does not claim to be deeper. *)
Definition diverging ctx (d : divergence) : Prop :=
  ∃ parent child, ctx !! div_parent d = Some parent ∧ ctx !! div_child d = Some child
    ∧ div_parent d ∈ prev_events child ∧ parent_depth d = depth parent ∧ child_depth d = depth child
    ∧ (depth child ≤ depth parent)%Z ∧ ¬ (depth parent = U64_MAX ∧ depth child = U64_MAX).

Definition edge_of (d : divergence) : Id * Id := (div_parent d, div_child d).

Lemma diverging_edge ctx d d' : diverging ctx d → diverging ctx d' → edge_of d = edge_of d' → d = d'.
Proof.
  intros (p & c & Hp & Hc & _ & Edp & Edc & _) (p' & c' & Hp' & Hc' & _ & Edp' & Edc' & _) [= E1 E2].
  destruct d, d'. simpl in *. congruence.
Qed.

Lemma foldl_nested {A B S} (g : A → S → B → S) (h : A → list B) l s :
  foldl (λ s a, foldl (g a) s (h a)) s l = foldl (λ s e, g e.1 s e.2) s (l ≫= λ a, (a,.) <$> h a).
Proof.
  revert s. induction l as [|a l IH]; intros s; [done|]. simpl. rewrite foldl_app, IH. f_equal.
  clear. revert s. induction (h a) as [|b bs IH]; intros s; [done|]. simpl. apply IH.
Qed.

(** After a prefix of the edges. *)
Record scanned ctx (es : list (event * Id)) (s : list divergence * gset (Id * Id)) : Prop := {
  sc_seen e : e ∈ s.2 ↔ ∃ child, (child, e.1) ∈ es ∧ event_id child = e.2 ∧ e.1 ∈ dom ctx;
  sc_nodup : NoDup (edge_of <$> s.1);
  sc_found d : d ∈ s.1 ↔ diverging ctx d ∧ edge_of d ∈ s.2
}.

Lemma scan_step ctx es s child p :
  filed ctx → (∃ id, ctx !! id = Some child) → p ∈ prev_events child →
  scanned ctx es s → scanned ctx (es ++ [(child, p)]) (divergence_parent ctx child s p).
Proof.
  intros Hf [id Hid] Hp [Hseen Hnd Hfound]. pose proof (Hf _ _ Hid) as <-. unfold divergence_parent.
  assert (∀ e, (∃ c, (c, e.1) ∈ es ++ [(child, p)] ∧ event_id c = e.2 ∧ e.1 ∈ dom ctx)
    ↔ e ∈ s.2 ∨ (e = (p, event_id child) ∧ p ∈ dom ctx)) as Hsnoc.
  { intros [e1 e2]. rewrite Hseen. simpl. setoid_rewrite elem_of_app. setoid_rewrite list_elem_of_singleton. split.
    - intros (c & [Hc|[= -> ->]] & <- & Hd); [left; by exists c|by right].
    - intros [(c & Hc & Ec & Hd)|[[= -> ->] Hd]]; [exists c; tauto|exists child; tauto]. }
  destruct (ctx !! p) as [parent|] eqn:Ep.
  2:{ apply not_elem_of_dom in Ep. split; [|done|done]. intros e. rewrite Hsnoc. tauto. }
  assert (p ∈ dom ctx) as Hpd by (by eapply elem_of_dom_2). case_decide as Hin.
  { split; [|done|done]. intros e. rewrite Hsnoc. split; [tauto|]. intros [?|[-> _]]; done. }
  set (seen := {[(p, event_id child)]} ∪ s.2).
  assert (∀ e, e ∈ seen ↔ ∃ c, (c, e.1) ∈ es ++ [(child, p)] ∧ event_id c = e.2 ∧ e.1 ∈ dom ctx) as Hseen'.
  { intros e. rewrite Hsnoc. unfold seen. rewrite elem_of_union, elem_of_singleton. tauto. }
  set (d0 := mkDivergence p (event_id child) (depth parent) (depth child)).
  assert (∀ d, diverging ctx d → edge_of d = (p, event_id child) → d = d0
    ∧ (depth child ≤ depth parent)%Z ∧ ¬ (depth parent = U64_MAX ∧ depth child = U64_MAX)) as Hd0.
  { intros d (p' & c' & Hp' & Hc' & _ & Edp & Edc & Hle & Hn) [= E1 E2]. rewrite E1, Ep in Hp'. rewrite E2, Hid in Hc'.
    simplify_eq. split; [|done]. destruct d; simpl in *. unfold d0. congruence. }
  assert (∀ d, edge_of d ∈ seen ↔ edge_of d ∈ s.2 ∨ edge_of d = (p, event_id child)) as Hedge.
  { intros d. unfold seen. rewrite elem_of_union, elem_of_singleton. tauto. }
  destruct (Z.eqb_spec (depth parent) U64_MAX) as [E1|E1], (Z.eqb_spec (depth child) U64_MAX) as [E2|E2];
    [|destruct (Z.leb_spec (depth child) (depth parent)) as [Hle|Hle]..]; simpl;
    try (split; [done|done|]; intros d; rewrite Hfound, Hedge; split; [tauto|];
         intros [Hd [He|He]]; [tauto|]; destruct (Hd0 d Hd He) as (_ & ? & ?); first [lia|tauto]).
  all: split; [done| |].
  1,3,5: simpl; rewrite fmap_app; apply NoDup_app; split_and!; [done| |apply NoDup_singleton];
    intros e (d & -> & Hd)%list_elem_of_fmap He%list_elem_of_singleton; apply Hfound in Hd as [_ Hd]; by rewrite He in Hd.
  all: simpl; intros d; rewrite elem_of_app, list_elem_of_singleton, Hfound, Hedge; split;
    [|intros [Hd [He|He]]; [tauto|right; by apply Hd0]].
  all: intros [?| ->]; [tauto|]; split; [|by right]; exists parent, child; split_and!; try done; tauto.
Qed.

(** The divergences are exactly the edges between known events whose
    child does not claim a greater depth, two saturated claims excepted, each
    once, in increasing order of parent and child whatever the hash order. *)
Theorem depth_divergences_exact `{Ho : HashOrder} ctx :
  filed ctx →
  (∀ d, d ∈ find_depth_divergences ctx ↔ diverging ctx d)
  ∧ NoDup (find_depth_divergences ctx)
  ∧ StronglySorted (λ a b, cmp_pair id_cmp id_cmp (edge_of a) (edge_of b) ≠ Gt) (find_depth_divergences ctx).
Proof.
  intros Hf. unfold find_depth_divergences. rewrite foldl_nested. set (es := hm_values ctx ≫= _).
  assert (∀ c p, (c, p) ∈ es ↔ (∃ id, ctx !! id = Some c) ∧ p ∈ prev_events c) as Hes.
  { intros c p. unfold es. rewrite list_elem_of_bind. split.
    - intros (c' & (q & [= -> ->] & Hq)%list_elem_of_fmap & Hc). split; [|done]. by apply elem_of_hm_values in Hc.
    - intros [Hc Hp]. exists c. split; [by apply list_elem_of_fmap_2|]. by apply elem_of_hm_values. }
  assert (scanned ctx es (foldl (λ s e, divergence_parent ctx e.1 s e.2) ([], ∅) es)) as [Hseen Hnd Hfound].
  { assert (∀ l, (∀ c p, (c, p) ∈ l → (c, p) ∈ es) → scanned ctx l (foldl (λ s e, divergence_parent ctx e.1 s e.2) ([], ∅) l)) as Hall.
    { intros l. induction l as [|[c p] l IH] using rev_ind; intros Hl; [split; set_solver by constructor|].
      rewrite foldl_app. simpl. assert ((c, p) ∈ es) as [Hc Hp]%Hes by (apply Hl; set_solver).
      apply scan_step; [done..|]. apply IH. set_solver. }
    by apply Hall. }
  set (r := (foldl _ _ es).1) in *. split_and!.
  - intros d. rewrite (sort_by_perm divergence_cmp r), Hfound. split; [by intros [? _]|]. intros Hd. split; [done|].
    apply Hseen. destruct Hd as (p & c & Hp & Hc & Hin & _). exists c. split_and!; [apply Hes; eauto|by apply Hf|by eapply elem_of_dom_2].
  - rewrite (sort_by_perm divergence_cmp r). by eapply NoDup_fmap_1.
  - apply (sort_by_sorted edge_of (cmp_pair id_cmp id_cmp) r).
Qed.

(** ** Gaps *)

Lemma missing_refs_spec ctx (exists_ : Id → bool) refs :
  missing_refs ctx exists_ refs = filter (λ p, p ∉ dom ctx ∧ exists_ p = false) refs.
Proof. apply list_filter_iff. intros p. by rewrite not_elem_of_dom. Qed.

Lemma collect_missing_elem `{Ho : HashOrder} {G : Type} ctx (exists_ : Id → bool) refs (build : Id → list Id → G) x missing :
  filed ctx → (∀ x x' m m', build x m = build x' m' → x = x' ∧ m = m') →
  build x missing ∈ collect_missing_refs ctx exists_ refs build
  ↔ ∃ ev, ctx !! x = Some ev ∧ missing ≠ [] ∧ missing = filter (λ p, p ∉ dom ctx ∧ exists_ p = false) (refs ev).
Proof.
  intros Hf Hb. unfold collect_missing_refs. rewrite list_elem_of_omap. setoid_rewrite missing_refs_spec. split.
  - intros (ev & [id Hid]%elem_of_hm_values & Hm). exists ev. destruct (filter _ (refs ev)) as [|m ms]; [done|].
    injection Hm as [<- <-]%Hb. rewrite (Hf _ _ Hid). done.
  - intros (ev & Hx & Hne & Hm). exists ev. split; [apply elem_of_hm_values; by exists x|].
    rewrite <-Hm, (Hf _ _ Hx). by destruct missing.
Qed.

Lemma collect_missing_once `{Ho : HashOrder} {G : Type} ctx (exists_ : Id → bool) refs (build : Id → list Id → G) (id_of : G → Id) :
  filed ctx → (∀ x m, id_of (build x m) = x) → NoDup (id_of <$> collect_missing_refs ctx exists_ refs build).
Proof.
  intros Hf Hb. assert (NoDup (event_id <$> hm_values ctx)) as Hnd.
  { unfold hm_values. rewrite <-list_fmap_compose. rewrite (list_fmap_ext _ fst (hm_iter ctx)); [apply NoDup_hm_keys|].
    intros i [k v] Hi%list_elem_of_lookup_2%elem_of_hm_iter. by apply Hf. }
  unfold collect_missing_refs. revert Hnd. generalize (hm_values ctx). intros l. induction l as [|ev l IH]; [constructor|].
  simpl. intros [Hx Hnd]%NoDup_cons. destruct (missing_refs ctx exists_ (refs ev)) as [|m ms]; [by apply IH|].
  simpl. apply NoDup_cons. split; [|by apply IH]. intros (g & Hg & (ev' & Hev' & E)%list_elem_of_omap)%list_elem_of_fmap.
  destruct (missing_refs ctx exists_ (refs ev')); [done|]. injection E as <-. rewrite !Hb in Hg.
  apply Hx, list_elem_of_fmap. by exists ev'.
Qed.

(** An event is reported as a backward extremity, or as missing auth
    events, exactly when one of its previous (auth) events is neither in the
    map nor known to exist, with exactly those, in order; every event is
    reported at most once. *)
Theorem gaps_exact `{Ho : HashOrder} ctx (exists_ : Id → bool) :
  filed ctx →
  (∀ x missing, mkExtremity x missing ∈ find_backward_extremities ctx exists_
     ↔ ∃ ev, ctx !! x = Some ev ∧ missing ≠ [] ∧ missing = filter (λ p, p ∉ dom ctx ∧ exists_ p = false) (prev_events ev))
  ∧ (∀ x missing, mkMissingAuth x missing ∈ find_missing_auth_events ctx exists_
     ↔ ∃ ev, ctx !! x = Some ev ∧ missing ≠ [] ∧ missing = filter (λ p, p ∉ dom ctx ∧ exists_ p = false) (auth_events ev))
  ∧ NoDup (be_event_id Id <$> find_backward_extremities ctx exists_)
  ∧ NoDup (ma_event_id Id <$> find_missing_auth_events ctx exists_).
Proof.
  intros Hf. split_and!.
  - intros x missing. by apply collect_missing_elem; [|intros ? ? ? ? [= -> ->]].
  - intros x missing. by apply collect_missing_elem; [|intros ? ? ? ? [= -> ->]].
  - by apply collect_missing_once.
  - by apply collect_missing_once.
Qed.
End reports.


(** ** On the room of [StreamRoom] *)

Lemma stream_room_filed : filed (H:=string_event_id) StreamRoom.context.
Proof. intros id ev. apply (context_ids (H:=string_event_id) V2). apply stream_room_wf. tauto. Qed.

Lemma depth_divergences_exact_witness :
  find_depth_divergences (H:=string_event_id) (Ho:=order_forward) StreamRoom.context = []
  ∧ ∀ d, ¬ diverging (H:=string_event_id) StreamRoom.context d.
Proof.
  destruct (depth_divergences_exact (H:=string_event_id) (Ho:=order_forward) StreamRoom.context stream_room_filed) as [Hd _].
  assert (find_depth_divergences (H:=string_event_id) (Ho:=order_forward) StreamRoom.context = []) as E by (vm_compute; reflexivity).
  split; [exact E|]. intros d Hdiv. apply Hd in Hdiv. rewrite E in Hdiv. by apply elem_of_nil in Hdiv.
Defined.

Lemma gaps_exact_witness :
  mkExtremity "$msg" ["$gone"] ∈ find_backward_extremities (H:=string_event_id) (Ho:=order_forward) StreamRoom.context (λ _, false).
Proof.
  destruct (gaps_exact (H:=string_event_id) (Ho:=order_forward) StreamRoom.context (λ _, false) stream_room_filed) as [Hg _].
  apply Hg. exists StreamRoom.msg. split_and!; [vm_compute; reflexivity|discriminate|].
  symmetry. vm_compute. reflexivity.
Defined.

(** ** Forward extremities *)

Section extremities.
Context {Id : Type} `{EventId Id}.
Implicit Types (s : ExtremityScan (Id:=Id)) (evs prs : list Id).

(** After the events [evs] and the references [prs]. *)
Record scanned_ids evs prs s : Prop := {
  si_number x i : (ids_seen s).1 !! x = Some i ↔ (ids_seen s).2 !! i = Some x;
  si_known x : x ∈ evs ∨ x ∈ prs ↔ is_Some ((ids_seen s).1 !! x);
  si_all i : i ∈ all_events s ↔ ∃ x, x ∈ evs ∧ (ids_seen s).1 !! x = Some i;
  si_children i : i ∈ has_children s ↔ ∃ x, x ∈ prs ∧ (ids_seen s).1 !! x = Some i;
  si_length : length (ids_seen s).2 ≤ length evs + length prs
}.

Lemma scanned_none : scanned_ids [] [] (mkScan (∅, []) ∅ ∅).
Proof.
  assert (∀ x, x ∉ ([] : list Id)) as Hnil by (intros x; apply not_elem_of_nil).
  split; cbn [ids_seen all_events has_children fst snd]; [intros x i|intros x|intros i|intros i|done];
    rewrite ?lookup_empty, ?lookup_nil; [done| |set_solver..]. split; [intros [[]%Hnil|[]%Hnil]|by intros [? ?]].
Qed.

(** Numbering one id more; the two bitmaps are about the same ids. *)
Lemma number_id evs prs s id : scanned_ids evs prs s → (Z.of_nat (length evs + length prs) ≤ U32_MAX)%Z →
  ∃ idx ids, get_or_insert (ids_seen s) id = Some (idx, ids)
    ∧ (∀ x i, ids.1 !! x = Some i ↔ ids.2 !! i = Some x) ∧ ids.1 !! id = Some idx
    ∧ (∀ x, is_Some (ids.1 !! x) ↔ x = id ∨ is_Some ((ids_seen s).1 !! x))
    ∧ (∀ x, is_Some ((ids_seen s).1 !! x) → ids.1 !! x = (ids_seen s).1 !! x)
    ∧ length ids.2 ≤ S (length (ids_seen s).2).
Proof.
  intros [Hn _ _ _ Hlen] Hsize. unfold get_or_insert. destruct ((ids_seen s).1 !! id) as [idx|] eqn:E.
  - exists idx, (ids_seen s). split_and!; try done; [|lia]. intros x. split; [by right|]. intros [->|?]; [by eexists|done].
  - rewrite (proj2 (Z.leb_le _ _)) by lia. eexists _, _. split; [done|]. cbn [fst snd].
    assert (∀ i x, (ids_seen s).2 !! i = Some x → x ≠ id ∧ i ≠ length (ids_seen s).2) as Hold.
    { intros i x Hi. split; [intros ->; apply Hn in Hi; congruence|]. apply lookup_lt_Some in Hi. lia. }
    split_and!.
    + intros x i. rewrite lookup_insert_Some, Hn, lookup_snoc_Some. split.
      * intros [[<- <-]|[Hne Hi]]; [by right|]. left. split; [|done]. by eapply lookup_lt_Some.
      * intros [[Hl Hi]|[-> <-]]; [right|by left]. split; [|done]. by apply Hold in Hi as [? _].
    + by rewrite lookup_insert_eq.
    + intros x. rewrite lookup_insert_is_Some. destruct (decide (id = x)) as [->|]; naive_solver.
    + intros x [i Hx]. rewrite lookup_insert_ne; [done|]. intros ->. congruence.
    + rewrite length_app. simpl. lia.
Qed.

Lemma scanned_prev evs prs s prev_id : scanned_ids evs prs s → (Z.of_nat (length evs + length prs) ≤ U32_MAX)%Z →
  ∃ s', scan_prev s prev_id = Some s' ∧ scanned_ids evs (prs ++ [prev_id]) s'.
Proof.
  intros Hs Hsize. destruct (number_id evs prs s prev_id Hs Hsize) as (idx & ids & E & Hn & Hid & Hk & Hsame & Hl).
  unfold scan_prev. rewrite E. eexists. split; [done|]. destruct Hs as [_ Hknown Hall Hch Hlen].
  assert (∀ x i, x ∈ evs ∨ x ∈ prs → ids.1 !! x = Some i ↔ (ids_seen s).1 !! x = Some i) as Hx
    by (intros x i Hx; rewrite (Hsame x); [done|by apply Hknown]).
  split; cbn [ids_seen all_events has_children].
  - done.
  - intros x. rewrite Hk, <-Hknown, elem_of_app, list_elem_of_singleton. tauto.
  - intros i. rewrite Hall. split; intros (x & ? & Hi); exists x; (split; [done|]); apply Hx; auto.
  - intros i. rewrite elem_of_union, elem_of_singleton, Hch. setoid_rewrite elem_of_app. setoid_rewrite list_elem_of_singleton. split.
    + intros [->|(x & ? & Hi)]; [exists prev_id; auto|]. exists x. split; [by left|]. apply Hx; auto.
    + intros (x & [Hp| ->] & Hi); [|left; congruence]. right. exists x. split; [done|]. apply Hx; auto.
  - rewrite length_app. simpl. lia.
Qed.

Lemma scanned_prevs prevs evs prs s : scanned_ids evs prs s →
  (Z.of_nat (length evs + length prs + length prevs) ≤ U32_MAX + 1)%Z →
  ∃ s', try_fold scan_prev prevs s = Some s' ∧ scanned_ids evs (prs ++ prevs) s'.
Proof.
  revert prs s. induction prevs as [|p prevs IH]; intros prs s Hs Hsize; [exists s; by rewrite app_nil_r|].
  simpl in Hsize. destruct (scanned_prev evs prs s p Hs ltac:(lia)) as (s1 & E1 & Hs1). cbn [try_fold]. rewrite E1.
  destruct (IH (prs ++ [p]) s1 Hs1) as (s2 & E2 & Hs2); [rewrite length_app; simpl; lia|].
  exists s2. split; [done|]. by rewrite <-app_assoc in Hs2.
Qed.

Lemma scanned_event e evs prs s : scanned_ids evs prs s →
  (Z.of_nat (length evs + length prs + S (length e.2)) ≤ U32_MAX + 1)%Z →
  ∃ s', scan_event s e = Some s' ∧ scanned_ids (evs ++ [e.1]) (prs ++ e.2) s'.
Proof.
  intros Hs Hsize. destruct (number_id evs prs s e.1 Hs ltac:(lia)) as (idx & ids & E & Hn & Hid & Hk & Hsame & Hl).
  unfold scan_event. rewrite E. apply scanned_prevs; [|rewrite length_app; simpl; lia]. destruct Hs as [_ Hknown Hall Hch Hlen].
  assert (∀ x i, x ∈ evs ∨ x ∈ prs → ids.1 !! x = Some i ↔ (ids_seen s).1 !! x = Some i) as Hx
    by (intros x i Hx; rewrite (Hsame x); [done|by apply Hknown]).
  split; cbn [ids_seen all_events has_children].
  - done.
  - intros x. rewrite Hk, <-Hknown, elem_of_app, list_elem_of_singleton. tauto.
  - intros i. rewrite elem_of_union, elem_of_singleton, Hall. setoid_rewrite elem_of_app. setoid_rewrite list_elem_of_singleton. split.
    + intros [->|(x & ? & Hi)]; [exists e.1; auto|]. exists x. split; [by left|]. apply Hx; auto.
    + intros (x & [Hp| ->] & Hi); [|left; congruence]. right. exists x. split; [done|]. apply Hx; auto.
  - intros i. rewrite Hch. split; intros (x & ? & Hi); exists x; (split; [done|]); apply Hx; auto.
  - rewrite length_app. simpl. lia.
Qed.

(** The forward extremities of fewer than 2^32 ids are exactly the listed
    events that no listed event cites, each once; the search never panics. *)
Theorem forward_extremities_exact (events : list (Id * list Id)) :
  (Z.of_nat (length events + length (events ≫= snd)) ≤ U32_MAX + 1)%Z →
  ∃ l, find_forward_extremities_roaring events = Some l ∧ NoDup l
    ∧ ∀ x, x ∈ l ↔ x ∈ events.*1 ∧ ¬ ∃ e, e ∈ events ∧ x ∈ e.2.
Proof.
  intros Hsize. unfold find_forward_extremities_roaring.
  assert (∃ s, try_fold scan_event events (mkScan (∅, []) ∅ ∅) = Some s ∧ scanned_ids (events.*1) (events ≫= snd) s) as (s & -> & Hs).
  { revert Hsize. induction events as [|e events IH] using rev_ind; intros Hsize.
    - eexists. split; [done|]. apply scanned_none.
    - rewrite bind_app, !length_app in Hsize. simpl in Hsize. rewrite app_nil_r in Hsize.
      destruct IH as (s & E & Hs); [lia|]. rewrite try_fold_app, E. simpl.
      destruct (scanned_event e _ _ _ Hs) as (s' & E' & Hs'); [rewrite length_fmap; lia|].
      exists s'. rewrite E'. split; [done|]. rewrite fmap_app, bind_app. simpl. by rewrite app_nil_r. }
  destruct Hs as [Hn Hk Hall Hch _]. set (idxs := sort_by Nat.compare (elements (all_events s ∖ has_children s))).
  assert (NoDup idxs) as Hnd by (unfold idxs; rewrite sort_by_perm; apply NoDup_elements).
  assert (∀ i, i ∈ idxs ↔ ∃ x, x ∈ events.*1 ∧ x ∉ events ≫= snd ∧ (ids_seen s).1 !! x = Some i) as Hi.
  { intros i. unfold idxs. rewrite sort_by_perm, elem_of_elements, elem_of_difference, Hall, Hch. split.
    - intros [(x & Hx & E) Hno]. exists x. split_and!; [done| |done]. intros Hp. apply Hno. by exists x.
    - intros (x & Hx & Hp & E). split; [by exists x|]. intros (y & Hy & E'). apply Hp.
      apply Hn in E, E'. rewrite E in E'. by injection E' as ->. }
  clearbody idxs. assert (∃ l, mapM (λ idx, (ids_seen s).2 !! idx) idxs = Some l) as [l Hl].
  { apply mapM_is_Some_2, Forall_forall. intros i (x & _ & _ & E)%Hi. apply Hn in E. by exists x. }
  exists l. split; [done|]. apply mapM_Some in Hl. split.
  - clear Hi. revert Hnd. induction Hl as [|i x irest l Hx Hl IH]; [constructor|]. intros [Hni Hnd]%NoDup_cons.
    apply NoDup_cons. split; [|by apply IH]. intros Hin. apply Hni.
    apply list_elem_of_lookup in Hin as [j Hj]. destruct (Forall2_lookup_r _ _ _ _ _ Hl Hj) as (i' & Hi' & Hx').
    apply Hn in Hx, Hx'. rewrite Hx in Hx'. injection Hx' as ->. by eapply list_elem_of_lookup_2.
  - intros x. transitivity (∃ i, i ∈ idxs ∧ (ids_seen s).2 !! i = Some x).
    + split.
      * intros [j Hj]%list_elem_of_lookup. destruct (Forall2_lookup_r _ _ _ _ _ Hl Hj) as (i & Hi' & Hx).
        exists i. split; [by eapply list_elem_of_lookup_2|done].
      * intros (i & [j Hj]%list_elem_of_lookup & Hx). destruct (Forall2_lookup_l _ _ _ _ _ Hl Hj) as (x' & Hx' & Hj').
        assert (x = x') as -> by congruence. by eapply list_elem_of_lookup_2.
    + assert (x ∈ events ≫= snd ↔ ∃ e, e ∈ events ∧ x ∈ e.2) as <- by (rewrite list_elem_of_bind; split; intros (e & ? & ?); by exists e).
      split.
      * intros (i & (y & Hy & Hp & E)%Hi & Hx). apply Hn in E. rewrite E in Hx. by injection Hx as ->.
      * intros [Hx Hp]. destruct (proj1 (Hk x) (or_introl Hx)) as [i E]. exists i. split; [|by apply Hn].
        apply Hi. by exists x.
Qed.
End extremities.

Lemma forward_extremities_exact_witness :
  ∃ l, find_forward_extremities_roaring [("$d", ["$b"; "$c"]); ("$b", ["$a"]); ("$c", ["$a"]); ("$e", ["$b"])] = Some l
    ∧ "$d" ∈ l ∧ "$e" ∈ l ∧ "$b" ∉ l.
Proof.
  destruct (forward_extremities_exact [("$d", ["$b"; "$c"]); ("$b", ["$a"]); ("$c", ["$a"]); ("$e", ["$b"])]) as (l & E & _ & Hl);
    [vm_compute; discriminate|].
  assert (l = ["$d"; "$e"]) as El by (assert (Some l = Some ["$d"; "$e"]) as [= ->] by (rewrite <-E; vm_compute; reflexivity); reflexivity).
  exists l. split; [exact E|]. subst l. split_and!; [left|right; left|]. by intros [?|[?|?%elem_of_nil]%elem_of_cons]%elem_of_cons.
Defined.
