(* ===== verification/Pagination.v ===== *)
(** * Checking pages of a timeline ([verify_pagination] of [src/src/state/at.rs])

    The checker of a sequence of pages, newest events first: no event twice,
    and no event on an earlier page than one of its descendants. *)
From stdpp Require Import prelude gmap strings sorting relations.
From Stdlib Require String.
From S2P Require Import Prelude Dense EventTypes Json Events Samples MultiSpec Iterative StateAt StateProps DepthsProps.

(** [PaginationViolation]. *)
Inductive PaginationViolation (Id : Type) : Type :=
| Duplicate (event_id : Id) (first_page second_page : nat)
| AncestorAfterDescendant (ancestor descendant : Id) (ancestor_page descendant_page : nat).
Arguments Duplicate {Id} event_id first_page second_page.
Arguments AncestorAfterDescendant {Id} ancestor descendant ancestor_page descendant_page.

Section pagination.
Context {Id C : Type} `{EventId Id}.
Abbreviation event_map := (gmap Id (LeanEvent Id C)).
Abbreviation violations := (list (PaginationViolation Id)).
Implicit Types (events_map : event_map) (pages : list (list Id)).

(** The first loop: the page on which each event is first seen. *)
Definition page_entry (page_idx : nat) (s : violations * gmap Id nat) (id : Id) : violations * gmap Id nat :=
  match s.2 !! id with
  | Some first_page => (s.1 ++ [Duplicate id first_page page_idx], s.2)
  | None => (s.1, <[id := page_idx]> s.2)
  end.
Definition seen_pages pages : violations * gmap Id nat :=
  foldl (λ s p, foldl (page_entry p.1) s p.2) ([], ∅) (imap pair pages).

(** The second loop: the ancestors of one event. *)
Definition refs_of events_map (id : Id) : list Id :=
  match events_map !! id with Some ev => prev_events ev | None => [] end.

Definition ancestor_body events_map (seen : gmap Id nat) (page_idx : nat) (id parent_id : Id) (s : violations * gset Id)
    : loop_step Id (violations * gset Id) :=
  if decide (parent_id ∈ s.2) then Push s []
  else
    let found :=
      match seen !! parent_id with
      | Some parent_page =>
          if parent_page <? page_idx then s.1 ++ [AncestorAfterDescendant parent_id id parent_page page_idx] else s.1
      | None => s.1
      end in
    Push (found, {[parent_id]} ∪ s.2) (refs_of events_map parent_id).

(** The work left: the references of the events not yet visited. *)
Definition refs_left events_map (visited : gset Id) : nat :=
  sum_list_with (λ e, if decide (e.1 ∈ visited) then 0 else length (prev_events e.2)) (map_to_list events_map).

Definition check_entry events_map (seen : gmap Id nat) (found : violations) (e : nat * Id) : option violations :=
  fst <$> drain (ancestor_body events_map seen e.1 e.2) (length (refs_of events_map e.2) + refs_left events_map ∅)
    (refs_of events_map e.2) (found, ∅).

Definition verify_pagination events_map pages : option violations :=
  let '(found, seen) := seen_pages pages in
  try_fold (λ found p, try_fold (check_entry events_map seen) ((p.1,.) <$> p.2) found) (imap pair pages) found.

(** ** The first loop *)

(** The events with their pages, in order. *)
Definition entries pages : list (nat * Id) := imap pair pages ≫= λ p, (p.1,.) <$> p.2.

Definition first_seen_on (l : list (nat * Id)) (x : Id) (i : nat) : Prop :=
  ∃ l1 l2, l = l1 ++ (i, x) :: l2 ∧ x ∉ l1.*2.

Lemma first_seen_on_snoc l e x i :
  first_seen_on (l ++ [e]) x i ↔ first_seen_on l x i ∨ (x ∉ l.*2 ∧ e = (i, x)).
Proof.
  split.
  - intros (l1 & l2 & E & Hx). destruct l2 as [|e' l2 _] using rev_ind.
    + apply app_inj_tail in E as [-> ->]. by right.
    + rewrite app_comm_cons, (assoc_L (++)) in E. apply app_inj_tail in E as [-> ->]. left. by exists l1, l2.
  - intros [(l1 & l2 & -> & Hx)|[Hx ->]]; [exists l1, (l2 ++ [e])|by exists l, []].
    split; [by rewrite <-(assoc_L (++))|done].
Qed.

Lemma first_seen_on_fun l x i j : first_seen_on l x i → first_seen_on l x j → i = j.
Proof.
  induction l as [|[k y] l IH] using rev_ind; [intros (l1 & l2 & E & _); by destruct l1|].
  rewrite !first_seen_on_snoc. intros [Hi|[Hi Ei]] [Hj|[Hj Ej]]; simplify_eq; [by apply IH| | |done].
  - destruct Hi as (l1 & l2 & -> & _). destruct Hj. rewrite fmap_app. set_solver.
  - destruct Hj as (l1 & l2 & -> & _). destruct Hi. rewrite fmap_app. set_solver.
Qed.

Lemma first_seen_on_elem l x : x ∈ l.*2 ↔ ∃ i, first_seen_on l x i.
Proof.
  induction l as [|[k y] l IH] using rev_ind.
  { split; [by intros ?%elem_of_nil|]. intros (i & l1 & l2 & E & _). by destruct l1. }
  rewrite fmap_app, elem_of_app, IH. setoid_rewrite first_seen_on_snoc. simpl. rewrite list_elem_of_singleton. split.
  - intros [(i & Hi)| ->]; [exists i; by left|]. destruct (decide (y ∈ l.*2)) as [Hy|Hy].
    + apply IH in Hy as (i & Hi). exists i. by left.
    + exists k. by right.
  - intros (i & [Hi|[_ [= _ ->]]]); [left; by exists i|by right].
Qed.

Definition repeated (l : list (nat * Id)) (v : PaginationViolation Id) : Prop :=
  ∃ x i j l1 l2, v = Duplicate x i j ∧ l = l1 ++ (j, x) :: l2 ∧ first_seen_on l1 x i.

Lemma seen_pages_spec pages :
  (∀ v, v ∈ (seen_pages pages).1 ↔ repeated (entries pages) v)
  ∧ ∀ x i, (seen_pages pages).2 !! x = Some i ↔ first_seen_on (entries pages) x i.
Proof.
  unfold seen_pages, entries. rewrite (foldl_nested (λ p, page_entry p.1) snd). simpl.
  assert (∀ l : list (nat * list Id), (λ e : (nat * list Id) * Id, (e.1.1, e.2)) <$> (l ≫= λ p, (p,.) <$> p.2) = l ≫= λ p, (p.1,.) <$> p.2) as Hl.
  { intros l. induction l as [|p l IH]; [done|]. rewrite !bind_cons, fmap_app, IH. f_equal. by rewrite <-list_fmap_compose. }
  rewrite <-Hl. generalize (imap pair pages ≫= λ p, (p,.) <$> p.2). clear pages Hl. intros es.
  induction es as [|[[i pg] x] es [IH1 IH2]] using rev_ind.
  { split.
    - intros v. split; [by intros ?%elem_of_nil|]. intros (x & i & j & l1 & l2 & _ & E & _). by destruct l1.
    - intros x i. simpl. rewrite lookup_empty. split; [done|]. intros (l1 & l2 & E & _). by destruct l1. }
  rewrite foldl_app, fmap_app. simpl. set (s := foldl _ _ es) in *. set (l := (λ e, _) <$> es) in *. clearbody s l.
  assert (∀ v, repeated (l ++ [(i, x)]) v ↔ repeated l v ∨ ∃ i0, v = Duplicate x i0 i ∧ first_seen_on l x i0) as Hrep.
  { intros v. split.
    - intros (y & i0 & j & l1 & l2 & -> & E & Hf). destruct l2 as [|e' l2 _] using rev_ind.
      + apply app_inj_tail in E as [-> E]. simplify_eq. right. by exists i0.
      + rewrite app_comm_cons, (assoc_L (++)) in E. apply app_inj_tail in E as [-> _]. left. by exists y, i0, j, l1, l2.
    - intros [(y & i0 & j & l1 & l2 & -> & -> & Hf)|(i0 & -> & Hf)].
      + exists y, i0, j, l1, (l2 ++ [(i, x)]). split_and!; [done|by rewrite <-(assoc_L (++))|done].
      + by exists x, i0, i, l, []. }
  unfold page_entry. destruct (s.2 !! x) as [i0|] eqn:Ex; simpl; split.
  - intros v. rewrite elem_of_app, list_elem_of_singleton, IH1, Hrep. apply IH2 in Ex. split.
    + intros [?| ->]; [by left|right; by exists i0].
    + intros [?|(i1 & -> & Hf)]; [by left|right]. by rewrite (first_seen_on_fun _ _ _ _ Hf Ex).
  - intros y j. rewrite IH2, first_seen_on_snoc. split; [by left|]. intros [?|[Hy [= -> ->]]]; [done|].
    exfalso. apply Hy, first_seen_on_elem. exists i0. by apply IH2.
  - intros v. rewrite IH1, Hrep. split; [by left|]. intros [?|(i1 & _ & Hf%IH2)]; [done|congruence].
  - intros y j. rewrite lookup_insert_Some, first_seen_on_snoc, IH2. split.
    + intros [[-> ->]|[Hne ?]]; [right|by left]. split; [|done]. intros (i0 & Hi0%IH2)%first_seen_on_elem. congruence.
    + intros [Hf|[_ [= -> ->]]]; [right|by left]. split; [|done]. intros ->. apply IH2 in Hf. congruence.
Qed.

(** ** The second loop *)

(** A citation, whether or not the cited event is known. *)
Definition cites events_map (x p : Id) : Prop := p ∈ refs_of events_map x.

Definition misplaced events_map (seen : gmap Id nat) (e : nat * Id) (v : PaginationViolation Id) : Prop :=
  ∃ a i, v = AncestorAfterDescendant a e.2 i e.1 ∧ tc (cites events_map) e.2 a ∧ seen !! a = Some i ∧ i < e.1.

Lemma refs_left_visit events_map (visited : gset Id) x :
  x ∉ visited → refs_left events_map ({[x]} ∪ visited) + length (refs_of events_map x) ≤ refs_left events_map visited.
Proof.
  intros Hx. unfold refs_left, refs_of. pose proof (NoDup_fst_map_to_list events_map) as Hnd.
  assert (∀ ev, events_map !! x = Some ev → (x, ev) ∈ map_to_list events_map) as Hin by (intros ev; by apply elem_of_map_to_list).
  assert (∀ y ev, (y, ev) ∈ map_to_list events_map → y = x → events_map !! x = Some ev) as Hout
    by (intros y ev Hy <-; by apply elem_of_map_to_list).
  revert Hnd Hin Hout. generalize (map_to_list events_map). generalize (events_map !! x). clear -Hx. intros o l Hnd Hin Hout.
  assert (sum_list_with (λ e, if decide (e.1 ∈ {[x]} ∪ visited) then 0 else length (prev_events e.2)) l
    + length (match o with Some ev => if decide (x ∈ l.*1) then prev_events ev else [] | None => [] end)
    ≤ sum_list_with (λ e, if decide (e.1 ∈ visited) then 0 else length (prev_events e.2)) l) as Hall.
  { clear Hin. induction l as [|[y ev] l IH].
    - destruct o as [ev|]; [|done]. rewrite decide_False by apply not_elem_of_nil. done.
    - rewrite fmap_cons in Hnd |- *. cbn [sum_list_with fst snd] in *. apply NoDup_cons in Hnd as [Hy Hnd]. 
      assert (∀ z ev, (z, ev) ∈ l → z = x → o = Some ev) as Hout' by (intros z ev' Hz; apply (Hout z ev'); by right).
      specialize (IH Hnd Hout').
      destruct (decide (y = x)) as [->|Hne].
      + assert (o = Some ev) as -> by (apply (Hout x ev); [left|done]). rewrite (decide_False (P:=x ∈ l.*1)) in IH by done.
        rewrite (decide_True (P:=x ∈ {[x]} ∪ visited)) by set_solver. rewrite (decide_False (P:=x ∈ visited)) by done.
        rewrite (decide_True (P:=x ∈ x :: l.*1)) by left. cbn [length] in IH. lia.
      + rewrite (decide_ext (y ∈ {[x]} ∪ visited) (y ∈ visited)) by set_solver.
        destruct o as [ev'|]; [|cbn [length] in *; destruct (decide (y ∈ visited)); lia].
        rewrite (decide_ext (x ∈ y :: l.*1) (x ∈ l.*1)) by (rewrite elem_of_cons; naive_solver).
        destruct (decide (y ∈ visited)); lia. }
  etrans; [|exact Hall]. apply Nat.add_le_mono_l. destruct o as [ev|]; [|done].
  rewrite decide_True; [done|]. apply list_elem_of_fmap. exists (x, ev). split; [done|by apply Hin].
Qed.

Lemma check_entry_spec events_map seen found e :
  ∃ found', check_entry events_map seen found e = Some found'
    ∧ ∀ v, v ∈ found' ↔ v ∈ found ∨ misplaced events_map seen e v.
Proof.
  destruct e as [page id]. unfold check_entry. simpl. rewrite drain_try.
  destruct (try_drain_spec (λ x s, Some (ancestor_body events_map seen page id x s))
    (λ q s, (∀ x, x ∈ q ∨ x ∈ s.2 → tc (cites events_map) id x)
      ∧ (∀ p, cites events_map id p → p ∈ s.2 ∨ p ∈ q) ∧ (∀ x p, x ∈ s.2 → cites events_map x p → p ∈ s.2 ∨ p ∈ q)
      ∧ ∀ v, v ∈ s.1 ↔ v ∈ found ∨ ∃ a i, v = AncestorAfterDescendant a id i page ∧ a ∈ s.2 ∧ seen !! a = Some i ∧ i < page)
    (λ s, ∀ v, v ∈ s.1 ↔ v ∈ found ∨ misplaced events_map seen (page, id) v)
    (λ q s, length q + refs_left events_map s.2)
    (length (refs_of events_map id) + refs_left events_map ∅) (refs_of events_map id) (found, ∅)) as (s & -> & Hs).
  - intros x q [fs visited] (Hanc & Hstart & Hcl & Hv). eexists. split; [done|]. split; [simpl; lia|].
    unfold ancestor_body. cbn [fst snd] in *. case_decide as Hx.
    + rewrite app_nil_r. split; [|simpl; lia]. split_and!; [|intros p Hp|intros y p Hy Hp|done].
      * intros y [Hy|Hy]; apply Hanc; [left; by right|by right].
      * destruct (Hstart p Hp) as [?|[->|?]%elem_of_cons]; tauto.
      * destruct (Hcl y p Hy Hp) as [?|[->|?]%elem_of_cons]; tauto.
    + pose proof (refs_left_visit events_map visited x Hx) as Hleft. split; [|cbn [fst snd length]; rewrite length_app; lia]. cbn [fst snd].
      assert (tc (cites events_map) id x) as Hix by (apply Hanc; left; left). split_and!.
      * intros y [[Hy|Hy]%elem_of_app|[->%elem_of_singleton|Hy]%elem_of_union]; [apply Hanc; left; by right| |done|apply Hanc; by right].
        by eapply tc_r.
      * intros p Hp. simpl. rewrite elem_of_union, elem_of_singleton, elem_of_app.
        destruct (Hstart p Hp) as [?|[->|?]%elem_of_cons]; tauto.
      * intros y p Hy Hp. simpl in *. rewrite elem_of_union, elem_of_singleton, elem_of_app.
        apply elem_of_union in Hy as [->%elem_of_singleton|Hy]; [tauto|]. destruct (Hcl y p Hy Hp) as [?|[->|?]%elem_of_cons]; tauto.
      * intros v. simpl. destruct (seen !! x) as [i|] eqn:Ei; [destruct (Nat.ltb_spec i page) as [Hlt|Hge]|].
        -- rewrite elem_of_app, list_elem_of_singleton, Hv. split.
           ++ intros [[?|(a & j & -> & Ha & ?)]| ->]; [by left| |]; right; [exists a, j|exists x, i]; set_solver.
           ++ intros [?|(a & j & -> & [->%elem_of_singleton|Ha]%elem_of_union & Ej & Hj)]; [tauto|right; congruence|].
              left. right. by exists a, j.
        -- rewrite Hv. split; (intros [?|(a & j & -> & Ha & Ej & Hj)]; [by left|right; exists a, j]); [set_solver|].
           split_and!; [done| |done..]. apply elem_of_union in Ha as [->%elem_of_singleton|?]; [|done]. exfalso. simplify_eq. lia.
        -- rewrite Hv. split; (intros [?|(a & j & -> & Ha & Ej & Hj)]; [by left|right; exists a, j]); [set_solver|].
           split_and!; [done| |done..]. apply elem_of_union in Ha as [->%elem_of_singleton|?]; [congruence|done].
  - intros [fs visited] (Hanc & Hstart & Hcl & Hv) v. simpl in *. rewrite Hv. unfold misplaced. simpl.
    assert (∀ a, a ∈ visited ↔ tc (cites events_map) id a) as Hvis.
    { intros a. split; [intros; apply Hanc; by right|]. intros Ht.
      apply tc_ind_r with (P := λ x, x ∈ visited) in Ht; [done| |].
      - intros y Hy. by destruct (Hstart y Hy) as [?|?%elem_of_nil].
      - intros y z _ Hyz Hy. by destruct (Hcl y z Hy Hyz) as [?|?%elem_of_nil]. }
    by setoid_rewrite Hvis.
  - simpl. split_and!.
    + intros x [Hx|Hx]; [by apply tc_once|set_solver].
    + intros p Hp. by right.
    + set_solver.
    + intros v. split; [by left|]. intros [?|(a & i & _ & Ha & _)]; [done|set_solver].
  - done.
  - exists s.1. split; [done|exact Hs].
Qed.

Lemma try_fold_nested {A B S} (f : S → B → option S) (h : A → list B) l s :
  try_fold (λ s a, try_fold f (h a) s) l s = try_fold f (l ≫= h) s.
Proof.
  revert s. induction l as [|a l IH]; intros s; [done|]. rewrite bind_cons, try_fold_app. simpl.
  destruct (try_fold f (h a) s); [apply IH|done].
Qed.

Lemma no_repetition (l : list (nat * Id)) : NoDup l.*2 ↔ ∀ v, ¬ repeated l v.
Proof.
  split.
  - intros Hnd v (x & i & j & l1 & l2 & _ & -> & Hf). rewrite fmap_app in Hnd. apply NoDup_app in Hnd as (_ & Hd & _).
    apply (Hd x); [apply first_seen_on_elem; by exists i|left].
  - induction l as [|[j x] l IH] using rev_ind; intros Hn; [constructor|]. rewrite fmap_app. apply NoDup_app. split_and!.
    + apply IH. intros v (y & i & k & l1 & l2 & -> & -> & Hf). apply (Hn (Duplicate y i k)).
      exists y, i, k, l1, (l2 ++ [(j, x)]). split_and!; [done|by rewrite <-(assoc_L (++))|done].
    + intros y Hy ->%list_elem_of_singleton. apply first_seen_on_elem in Hy as [i Hi].
      apply (Hn (Duplicate x i j)). by exists x, i, j, l, [].
    + apply NoDup_singleton.
Qed.

Lemma verify_run events_map pages :
  ∃ found, verify_pagination events_map pages = Some found
    ∧ ∀ v, v ∈ found ↔ repeated (entries pages) v
        ∨ ∃ e, e ∈ entries pages ∧ misplaced events_map (seen_pages pages).2 e v.
Proof.
  unfold verify_pagination. destruct (seen_pages_spec pages) as [Hdup _].
  destruct (seen_pages pages) as [found0 seen]. simpl in *.
  rewrite (try_fold_nested (check_entry events_map seen) (λ p, (p.1,.) <$> p.2)). fold (entries pages).
  destruct (try_fold_spec (check_entry events_map seen)
    (λ l fs, ∀ v, v ∈ fs ↔ v ∈ found0 ∨ ∃ e, e ∈ l ∧ misplaced events_map seen e v) (entries pages) found0) as (found & -> & Hf).
  - intros l1 e l2 fs _ Hfs. destruct (check_entry_spec events_map seen fs e) as (fs' & -> & Hfs').
    exists fs'. split; [done|]. intros v. rewrite Hfs', Hfs. setoid_rewrite elem_of_app. setoid_rewrite list_elem_of_singleton.
    naive_solver.
  - intros v. split; [by left|]. intros [?|(e & He & _)]; [done|]. by apply elem_of_nil in He.
  - exists found. split; [done|]. intros v. by rewrite Hf, Hdup.
Qed.

(** C27: the checker always returns; it reports a repetition for every event
    that comes again, with the page it was first seen on, and an ancestor for
    every event on a later page than one of its ancestors, known or only
    cited, was first seen on; nothing else. So it finds nothing exactly when
    no event comes twice and no event comes on an earlier page than one that
    descends from it. *)
Theorem verify_pagination_exact events_map pages :
  ∃ found, verify_pagination events_map pages = Some found
    ∧ (∀ x i j, Duplicate x i j ∈ found ↔
         ∃ l1 l2, entries pages = l1 ++ (j, x) :: l2 ∧ first_seen_on l1 x i)
    ∧ (∀ a d i j, AncestorAfterDescendant a d i j ∈ found ↔
         (j, d) ∈ entries pages ∧ tc (cites events_map) d a ∧ first_seen_on (entries pages) a i ∧ i < j)
    ∧ (found = [] ↔ NoDup (entries pages).*2
         ∧ ∀ i j a d, (i, a) ∈ entries pages → (j, d) ∈ entries pages → tc (cites events_map) d a → j ≤ i).
Proof.
  destruct (verify_run events_map pages) as (found & Hrun & Hv). exists found. split; [done|].
  destruct (seen_pages_spec pages) as [_ Hseen]. unfold misplaced in Hv. setoid_rewrite Hseen in Hv.
  assert (∀ x i j, Duplicate x i j ∈ found ↔ ∃ l1 l2, entries pages = l1 ++ (j, x) :: l2 ∧ first_seen_on l1 x i) as Hdup.
  { intros x i j. rewrite Hv. split.
    - intros [(y & i' & j' & l1 & l2 & [= <- <- <-] & E & Hf)|(e & _ & a & k & [=] & _)]. by exists l1, l2.
    - intros (l1 & l2 & E & Hf). left. by exists x, i, j, l1, l2. }
  assert (∀ a d i j, AncestorAfterDescendant a d i j ∈ found ↔
    (j, d) ∈ entries pages ∧ tc (cites events_map) d a ∧ first_seen_on (entries pages) a i ∧ i < j) as Hanc.
  { intros a d i j. rewrite Hv. split.
    - intros [(y & i' & j' & l1 & l2 & [=] & _)|([j' d'] & He & a' & k & [= -> -> -> ->] & Ht & Hf & Hlt)]. done.
    - intros (He & Ht & Hf & Hlt). right. exists (j, d). split; [done|]. by exists a, i. }
  split_and!; [done|done|]. split.
  - intros ->. assert (NoDup (entries pages).*2) as Hnd.
    { apply no_repetition. intros v Hr. apply (elem_of_nil v), Hv. by left. }
    split; [done|]. intros i j a d Ha Hd Ht. destruct (decide (j ≤ i)) as [|Hlt]; [done|]. exfalso.
    apply (not_elem_of_nil (AncestorAfterDescendant a d i j)), Hanc. split_and!; [done|done| |lia].
    apply list_elem_of_split in Ha as (l1 & l2 & E). exists l1, l2. split; [done|]. rewrite E, fmap_app in Hnd.
    apply NoDup_app in Hnd as (_ & Hdis & _). intros Hx. apply (Hdis a Hx). left.
  - intros [Hnd Hord]. destruct found as [|v found]; [done|]. exfalso.
    destruct (proj1 (Hv v) ltac:(left)) as [Hr|([j d] & He & a & i & _ & Ht & Hf & Hlt)].
    + by apply (proj1 (no_repetition _) Hnd v).
    + simpl in *. destruct Hf as (l1 & l2 & E & _). specialize (Hord i j a d). rewrite E in Hord at 1.
      assert (j ≤ i); [|lia]. apply Hord; [set_solver|done|done].
Qed.
End pagination.

(** ** On the room of [StreamRoom] *)

Example pages_checked :
  verify_pagination (H:=string_event_id) StreamRoom.context [["$msg"; "$topic_b"]; ["$topic_a"; "$low"]; ["$rules"; "$msg"]]
  = Some [Duplicate "$msg" 0 2;
          AncestorAfterDescendant "$topic_b" "$msg" 0 2; AncestorAfterDescendant "$topic_a" "$msg" 1 2;
          AncestorAfterDescendant "$low" "$msg" 1 2].
Proof. vm_compute. reflexivity. Qed.
