(* ===== verification/MergeBase.v ===== *)
(** * Merge bases of forward extremities ([src/src/state/at.rs])

    Two walks back from the extremities through [prev_events], greatest depth
    first, that carry the set of extremities each event is reachable from: one
    ends at the first event reachable from all, the other also records where
    subsets of up to eight extremities meet.

    Both spread a mask from an event to its parents in the same way, over a
    bitmap (a set of indices) and over a byte. *)
From stdpp Require Import prelude gmap strings sorting relations.
From Stdlib Require String.
From S2P Require Import Prelude Dense EventTypes Json Events Iterative StateAt.

(** [MergeBase]; its depth is a claimed one. *)
Record MergeBase (Id : Type) : Type := mkMergeBase { mb_event_id : Id; mb_mask : N; mb_depth : Z }.
Arguments mkMergeBase {Id}.
Arguments mb_event_id {Id}.
Arguments mb_mask {Id}.
Arguments mb_depth {Id}.

Definition MERGE_BASE_MAX_STEPS : N := 5000.

Section walk.
Context {Id C : Type} `{EventId Id}.
Abbreviation event := (LeanEvent Id C).
Abbreviation event_map := (gmap Id event).
Implicit Types (events_map : event_map).

(** [BinaryHeap<(u64, &Id)>]. *)
Definition queue_cmp : Z * Id → Z * Id → comparison := cmp_pair Z.compare id_cmp.

Section masks.
Context {M : Type} (none : M) (join : M → M → M) (grew : option M → M → bool).

Definition spread events_map (current_mask : M) (s : list (Z * Id) * gmap Id M) (parent_id : Id)
    : list (Z * Id) * gmap Id M :=
  match events_map !! parent_id with
  | None => s
  | Some parent_ev =>
      let old := s.2 !! parent_id in
      let parent_mask := join (default none old) current_mask in
      let masks := <[parent_id := parent_mask]> s.2 in
      if grew old parent_mask then (s.1 ++ [(depth parent_ev, parent_id)], masks) else (s.1, masks)
  end.

Definition seed_extremity events_map (bit : nat → option M) (s : list (Z * Id) * gmap Id M) (e : nat * Id)
    : option (list (Z * Id) * gmap Id M) :=
  match events_map !! e.2 with
  | None => Some s
  | Some ev =>
      b ←! bit e.1;
      Some (s.1 ++ [(depth ev, e.2)], <[e.2 := join (default none (s.2 !! e.2)) b]> s.2)
  end.
End masks.

(** ** The most recent common ancestor *)

(** A bitmap: the set of its indices. *)
Definition bitmap_grew (old : option (gset nat)) (new : gset nat) : bool :=
  match old with None => true | Some old => size old <? size new end.
Definition bitmap_bit (i : nat) : option (gset nat) :=
  if (Z.of_nat i <=? U32_MAX)%Z then Some {[i]} else None.

(** The loop; the outer option is a panic or too little fuel. *)
Fixpoint merge_base_loop events_map (target_count fuel : nat) (queue : list (Z * Id)) (masks : gmap Id (gset nat))
    : option (option Id) :=
  match heap_pop queue_cmp queue with
  | None => Some None
  | Some ((_, current_id), queue) =>
      match fuel with
      | O => None
      | S fuel =>
          current_mask ←! masks !! current_id;
          if size current_mask =? target_count then Some (Some current_id)
          else
            let '(queue, masks) :=
              match events_map !! current_id with
              | Some ev => foldl (spread ∅ (∪) bitmap_grew events_map current_mask) (queue, masks) (prev_events ev)
              | None => (queue, masks)
              end in
            merge_base_loop events_map target_count fuel queue masks
      end
  end.

Definition compute_merge_base (extremities : list Id) events_map : option (option Id) :=
  match extremities with
  | [] => Some None
  | [head] => Some (match events_map !! head with Some _ => Some head | None => None end)
  | _ =>
      '(queue, masks) ←! try_fold (seed_extremity ∅ (∪) events_map bitmap_bit) (imap pair extremities) ([], ∅);
      merge_base_loop events_map (length extremities) (length extremities * size events_map) queue masks
  end.

(** ** The junctions of up to eight extremities *)

Definition u8_grew (old : option N) (new : N) : bool := negb (default 0%N old =? new)%N.
Definition u8_bit (i : nat) : option N := Some (N.shiftl 1 (N.of_nat i)).

(** [1u8.checked_shl(k).and_then(|v| v.checked_sub(1))]: none from 8 on. *)
Definition full_mask (k : nat) : option N := if k <? 8 then Some (N.shiftl 1 (N.of_nat k) - 1)%N else None.

Fixpoint popcount (bits : nat) (m : N) : nat :=
  match bits with
  | O => 0
  | S bits => (if N.testbit m (N.of_nat bits) then 1 else 0) + popcount bits m
  end.

(** The walk, of at most [steps] turns; [best_junction] keeps the first event
    met with a mask. *)
Fixpoint merge_bases_loop events_map (full : N) (steps : nat) (queue : list (Z * Id)) (masks : gmap Id N)
    (best_junction : gmap N (Id * Z)) : option (gmap N (Id * Z)) :=
  match heap_pop queue_cmp queue with
  | None => Some best_junction
  | Some ((d, current_id), queue) =>
      match steps with
      | O => Some best_junction
      | S steps =>
          current_mask ←! masks !! current_id;
          let best_junction :=
            if (2 <=? popcount 8 current_mask) && bool_decide (best_junction !! current_mask = None)
            then <[current_mask := (current_id, d)]> best_junction else best_junction in
          if (current_mask =? full)%N then Some best_junction
          else
            let '(queue, masks) :=
              match events_map !! current_id with
              | Some ev => foldl (spread 0%N N.lor u8_grew events_map current_mask) (queue, masks) (prev_events ev)
              | None => (queue, masks)
              end in
            merge_bases_loop events_map full steps queue masks best_junction
      end
  end.

(** Kept unless a larger set of extremities meets at least as close. *)
Definition superseded (all : list (N * (Id * Z))) (j : N * (Id * Z)) : bool :=
  existsb (λ j2, negb (j2.1 =? j.1)%N && (N.land j2.1 j.1 =? j.1)%N && (j.2.2 <=? j2.2.2)%Z) all.

Definition compute_merge_bases `{HashOrder} (extremities : list Id) events_map (max_steps : N) : option (list (MergeBase Id)) :=
  let k := length extremities in
  if negb (k <=? 8) then None
  else if k <? 2 then Some []
  else
    full ←! full_mask k;
    '(queue, masks) ←! try_fold (seed_extremity 0%N N.lor events_map u8_bit) (imap pair extremities) ([], ∅);
    best_junction ←! merge_bases_loop events_map full (N.to_nat max_steps) queue masks ∅;
    let masks_vec := hm_iter best_junction in
    let junctions := filter (λ j, superseded masks_vec j = false) masks_vec in
    Some (sort_by (λ a b, Z.compare (mb_depth b) (mb_depth a)) ((λ j, mkMergeBase j.2.1 j.1 j.2.2) <$> junctions)).
End walk.
