(* ===== verification/MergeBaseProps.v ===== *)
(** * Merge bases: the theorems

    The walk keeps, for every event, a mask of extremities that reach it, and
    whatever is not queued has passed its mask on; so the event that ends the
    walk is a common ancestor, there is none when the walk runs out, and among
    depths that grow along the edges no common ancestor is deeper. *)
From stdpp Require Import prelude gmap strings sorting relations.
From Stdlib Require String.
From S2P Require Import Prelude Dense EventTypes Json Events Samples MultiSpec Iterative StateAt StatePlan StateProps MergeBase.

(** ** Masks *)

(** What a representation of sets of extremities promises. *)
Class MaskOps (M : Type) (none : M) (join : M → M → M) (grew : option M → M → bool) (has : M → nat → Prop) : Prop := {
  has_none i : ¬ has none i;
  has_join a b i : has (join a b) i ↔ has a i ∨ has b i;
  grew_false old cur : grew old (join (default none old) cur) = false → ∀ i, has cur i → has (default none old) i
}.

Global Instance bitmap_masks : MaskOps (gset nat) ∅ (∪) bitmap_grew (λ m i, i ∈ m).
Proof.
  split; [set_solver|set_solver|]. intros [old|] cur; simpl; [|done]. intros Hg i Hi.
  apply Nat.ltb_ge in Hg. assert (old ≡ old ∪ cur) as E by (apply set_subseteq_size_equiv; [set_solver|done]). set_solver.
Qed.

Global Instance byte_masks : MaskOps N 0%N N.lor u8_grew (λ m i, N.testbit m (N.of_nat i) = true).
Proof.
  split.
  - intros i. by rewrite N.bits_0.
  - intros a b i. by rewrite N.lor_spec, orb_true_iff.
  - intros old cur Hg i Hi. unfold u8_grew in Hg. apply negb_false_iff, N.eqb_eq in Hg. rewrite Hg, N.lor_spec, Hi. apply orb_true_r.
Qed.

Section walk.
Context {Id C : Type} `{EventId Id}.
Abbreviation event_map := (gmap Id (LeanEvent Id C)).
Context (ctx : event_map) (heads : list Id).
Context {M : Type} {none : M} {join : M → M → M} {grew : option M → M → bool} {has : M → nat → Prop} `{!MaskOps M none join grew has}.
Implicit Types (masks : gmap Id M) (q : list (Z * Id)).

Definition reached masks (x : Id) (i : nat) : Prop := ∃ m, masks !! x = Some m ∧ has m i.

Definition comes_from (i : nat) (x : Id) : Prop := x ∈ dom ctx ∧ ∃ h, heads !! i = Some h ∧ h ∈ dom ctx ∧ rtc (parent_of ctx) h x.

(** The masks and the queue, [done] being what of the parents of [cur]'s event
    has its mask. *)
Record walking (x : Id) (unspread : Id → Prop) (s : list (Z * Id) * gmap Id M) : Prop := {
  wk_sound y i : reached s.2 y i → comes_from i y;
  wk_queued d y : (d, y) ∈ s.1 → is_Some (s.2 !! y) ∧ ∃ ev, ctx !! y = Some ev ∧ d = depth ev;
  wk_heads i h : heads !! i = Some h → h ∈ dom ctx → reached s.2 h i;
  wk_spread y i p : y ∉ s.1.*2 → reached s.2 y i → parent_of ctx y p → reached s.2 p i ∨ (y = x ∧ unspread p)
}.

Lemma reached_spread q masks cur p pev y i :
  ctx !! p = Some pev →
  reached (spread none join grew ctx cur (q, masks) p).2 y i ↔ reached masks y i ∨ (y = p ∧ has cur i).
Proof using MaskOps0.
  intros Hp. unfold spread. rewrite Hp. simpl.
  assert (reached (<[p := join (default none (masks !! p)) cur]> masks) y i ↔ reached masks y i ∨ (y = p ∧ has cur i)) as Hr.
  { unfold reached. destruct (decide (y = p)) as [->|Hne].
    - rewrite lookup_insert_eq. split.
      + intros (m & [= <-] & [Hm|Hm]%has_join); [left|by right]. destruct (masks !! p) as [m|]; [by exists m|by apply has_none in Hm].
      + intros [(m & -> & Hm)|[_ Hm]]; eexists; (split; [done|]); apply has_join; tauto.
    - rewrite lookup_insert_ne by done. split; [by left|]. by intros [?|[? _]]. }
  by destruct (grew _ _).
Qed.

(** One parent. *)
Lemma walking_spread x unspread cur p s :
  parent_of ctx x p ∨ p ∉ dom ctx → (∀ i, reached s.2 x i ↔ has cur i) → walking x unspread s →
  walking x (λ y, unspread y ∧ y ≠ p) (spread none join grew ctx cur s p)
  ∧ ∀ i, reached (spread none join grew ctx cur s p).2 x i ↔ has cur i.
Proof using MaskOps0.
  intros Hxp Hcur [Hs Hq Hh Hsp]. destruct s as [q masks]. simpl in *. destruct (ctx !! p) as [pev|] eqn:Ep.
  2:{ assert (spread none join grew ctx cur (q, masks) p = (q, masks)) as -> by (unfold spread; by rewrite Ep).
      apply not_elem_of_dom in Ep. split; [|done]. split; simpl; [done..|]. intros y i p' Hy Hr Hp'.
      destruct (Hsp y i p' Hy Hr Hp') as [?|[-> ?]]; [by left|right]. split_and!; [done..|]. intros ->.
      by apply Ep, (parents_dom ctx x). }
  destruct Hxp as [Hxp|Hn]; [|by apply elem_of_dom_2 in Ep].
  pose proof (λ y i, reached_spread q masks cur p pev y i Ep) as Hr. set (s' := spread none join grew ctx cur (q, masks) p) in *.
  assert (∀ i, reached s'.2 x i ↔ has cur i) as Hcur'.
  { intros i. rewrite Hr, Hcur. tauto. }
  assert (∀ d y, (d, y) ∈ s'.1 → (d, y) ∈ q ∨ (d, y) = (depth pev, p)) as Hq'.
  { intros d y. unfold s', spread. rewrite Ep. simpl. destruct (grew _ _); simpl; [|by left]. by rewrite elem_of_app, list_elem_of_singleton. }
  assert (∀ y, y ∈ q.*2 → y ∈ s'.1.*2) as Hqin.
  { intros y. unfold s', spread. rewrite Ep. simpl. destruct (grew _ _); simpl; [|done]. rewrite fmap_app, elem_of_app. by left. }
  assert (∀ y m, masks !! y = Some m → is_Some (s'.2 !! y)) as Hkeep.
  { intros y m Hy. unfold s', spread. rewrite Ep. simpl.
    assert (is_Some (<[p := join (default none (masks !! p)) cur]> masks !! y)) as Hi; [|by destruct (grew _ _)].
    destruct (decide (p = y)) as [->|Hne]; [rewrite lookup_insert_eq|rewrite lookup_insert_ne, Hy by done]; by eexists. }
  split; [|done]. split.
  - intros y i [Hy|[-> Hi]]%Hr; [by apply Hs|]. apply Hcur, Hs in Hi as (_ & h & Hh' & Hhd & Hrt).
    split; [by eapply elem_of_dom_2|]. exists h. split_and!; [done..|]. by eapply rtc_r.
  - intros d y [Hy|[= -> ->]]%Hq'; [destruct (Hq d y Hy) as [[m Hm] He]; split; [by eapply Hkeep|done]|].
    split; [|by exists pev]. unfold s', spread. rewrite Ep. simpl. destruct (grew _ _); simpl; rewrite lookup_insert_eq; by eexists.
  - intros i h Hi Hd. apply Hr. left. by apply Hh.
  - intros y i p' Hy Hri Hp'. rewrite !Hr. apply Hr in Hri as [Hri|[-> Hi]].
    + destruct (Hsp y i p') as [?|[-> ?]]; [by intros ?%Hqin|done|done|by left; left|].
      destruct (decide (p' = p)) as [->|Hne]; [left; right; split; [done|by apply Hcur]|by right].
    + assert (reached masks p i) as Hri.
      { unfold s', spread in Hy. rewrite Ep in Hy. simpl in Hy. destruct (grew _ _) eqn:Eg; simpl in Hy.
        - destruct Hy. rewrite fmap_app, elem_of_app. right. left.
        - pose proof (grew_false _ _ Eg i Hi) as Hg. unfold reached. destruct (masks !! p) as [m|]; [by exists m|by apply has_none in Hg]. }
      destruct (Hsp p i p') as [?|[-> ?]]; [by intros ?%Hqin|done|done|by left; left|].
      destruct (decide (p' = x)) as [->|Hne]; [left; by right|]. right. by split_and!.
Qed.

Lemma walking_spreads x cur prev unspread s :
  (∀ p, p ∈ prev → parent_of ctx x p ∨ p ∉ dom ctx) → (∀ i, reached s.2 x i ↔ has cur i) → walking x unspread s →
  walking x (λ y, unspread y ∧ y ∉ prev) (foldl (spread none join grew ctx cur) s prev)
  ∧ ∀ i, reached (foldl (spread none join grew ctx cur) s prev).2 x i ↔ has cur i.
Proof using MaskOps0.
  revert unspread s. induction prev as [|p prev IH]; intros unspread s Hp Hcur Hw; simpl.
  { split; [|done]. destruct Hw as [Hs Hq Hh Hsp]. split; [done..|]. intros y i p Hy Hr Hpp.
    destruct (Hsp y i p Hy Hr Hpp) as [?|[-> ?]]; [by left|right]. split_and!; [done..|apply not_elem_of_nil]. }
  destruct (walking_spread x unspread cur p s) as [Hw' Hcur']; [apply Hp; left|done|done|].
  destruct (IH _ _ (λ p' Hp', Hp p' (list_elem_of_further _ _ _ Hp')) Hcur' Hw') as [[Hs Hq Hh Hsp] Hcur''].
  split; [|done]. split; [done..|]. intros y i p' Hy Hr Hpp.
  destruct (Hsp y i p' Hy Hr Hpp) as [?|(-> & (? & ?) & ?)]; [by left|right]. rewrite not_elem_of_cons. tauto.
Qed.

(** The walk between two turns. *)
Definition walked (s : list (Z * Id) * gmap Id M) : Prop := ∀ x, walking x (λ _, False) s.

Lemma walked_any x s : walking x (λ _, False) s → walked s.
Proof.
  intros [Hs Hq Hh Hsp] y. split; [done..|]. intros z i p Hz Hr Hp. destruct (Hsp z i p Hz Hr Hp) as [?|[_ []]]. by left.
Qed.

Lemma popped_walking q q' masks d x cur ev :
  walked (q, masks) → heap_pop queue_cmp q = Some ((d, x), q') → masks !! x = Some cur → ctx !! x = Some ev →
  walking x (λ y, y ∈ prev_events ev) (q', masks).
Proof.
  intros Hw Hpop Hx Hev. pose proof (heap_pop_perm _ _ _ _ Hpop) as Hperm.
  destruct (Hw x) as [Hs Hq Hh Hsp]. split; simpl in *; [done| |done|].
  - intros d' y Hy. apply Hq. rewrite Hperm. by right.
  - intros y i p Hy Hr Hp. destruct (decide (y = x)) as [->|Hne].
    + right. split; [done|]. apply elem_of_parents in Hp as (ev' & E & Hp & _). by simplify_eq.
    + destruct (Hsp y i p) as [?|[_ []]]; [|done|done|by left]. rewrite Hperm. simpl. by rewrite not_elem_of_cons.
Qed.

Lemma walked_step q q' masks d x cur ev :
  walked (q, masks) → heap_pop queue_cmp q = Some ((d, x), q') → masks !! x = Some cur → ctx !! x = Some ev →
  walked (foldl (spread none join grew ctx cur) (q', masks) (prev_events ev)).
Proof using MaskOps0.
  intros Hw Hpop Hx Hev.
  assert (∀ i, reached masks x i ↔ has cur i) as Hcur.
  { intros i. unfold reached. rewrite Hx. naive_solver. }
  pose proof (popped_walking q q' masks d x cur ev Hw Hpop Hx Hev) as Hw'.
  destruct (walking_spreads x cur (prev_events ev) (λ y, y ∈ prev_events ev) (q', masks)) as [[Hs Hq Hh Hsp] _].
  - intros p Hp. destruct (decide (p ∈ dom ctx)) as [Hd|Hd]; [left|by right]. apply elem_of_parents. by exists ev.
  - exact Hcur.
  - exact Hw'.
  - apply (walked_any x). split; [done..|]. intros y i p Hy Hr Hp. destruct (Hsp y i p Hy Hr Hp) as [?|(_ & ? & ?)]; [by left|done].
Qed.

(** Nothing queued: every mask is complete. *)
Lemma walked_complete masks i x : walked ([], masks) → comes_from i x → reached masks x i.
Proof.
  intros Hw (_ & h & Hh & Hd & Hr). apply (wk_heads _ _ _ (Hw x)) in Hh; [|done]. clear Hd. simpl in Hh.
  revert Hh. induction Hr as [h|h y x Hp _ IH]; intros Hh; [done|]. apply IH.
  destruct (wk_spread _ _ _ (Hw x) h i y (not_elem_of_nil _) Hh Hp) as [?|[_ []]]. done.
Qed.

(** An incomplete mask is owed to a queued event above. *)
Lemma walked_owed q masks i x : walked (q, masks) → comes_from i x → ¬ reached masks x i →
  ∃ y, y ∈ q.*2 ∧ tc (parent_of ctx) y x.
Proof.
  intros Hw (_ & h & Hh & Hd & Hr) Hn. apply (wk_heads _ _ _ (Hw x)) in Hh; [|done]. simpl in Hh. clear Hd.
  revert Hh. induction Hr as [h|h y x Hp Hr IH]; intros Hh; [done|].
  destruct (decide (h ∈ q.*2)) as [Hq|Hq]; [exists h; split; [done|by eapply tc_rtc_r; [apply tc_once|]]|].
  destruct (wk_spread _ _ _ (Hw x) h i y Hq Hh Hp) as [Hy|[_ []]]. by apply IH.
Qed.

(** ** Seeds *)

Record seeded (l : list Id) (s : list (Z * Id) * gmap Id M) : Prop := {
  sd_reached x i : reached s.2 x i ↔ l !! i = Some x ∧ x ∈ dom ctx;
  sd_queued d x : (d, x) ∈ s.1 ↔ x ∈ l ∧ ∃ ev, ctx !! x = Some ev ∧ d = depth ev;
  sd_masks x : is_Some (s.2 !! x) ↔ x ∈ l ∧ x ∈ dom ctx
}.

Lemma seed_step (bit : nat → option M) l x s b :
  bit (length l) = Some b → (∀ j, has b j ↔ j = length l) → seeded l s →
  ∃ s', seed_extremity none join ctx bit s (length l, x) = Some s' ∧ seeded (l ++ [x]) s'.
Proof using MaskOps0.
  intros Hb Hbj [Hr Hq Hm]. unfold seed_extremity. simpl.
  assert (∀ i y, (l ++ [x]) !! i = Some y ↔ l !! i = Some y ∨ i = length l ∧ y = x) as Hl.
  { intros i y. rewrite lookup_app_Some, list_lookup_singleton_Some. split.
    - intros [?|(? & ? & <-)]; [by left|right; split; [lia|done]].
    - intros [?|[-> ->]]; [by left|right]. split_and!; [lia|lia|done]. }
  destruct (ctx !! x) as [ev|] eqn:Ex.
  - rewrite Hb. eexists. split; [done|]. assert (x ∈ dom ctx) as Hd by (by eapply elem_of_dom_2). split; simpl.
    + intros y i. rewrite Hl. unfold reached in *. destruct (decide (y = x)) as [->|Hne].
      * rewrite lookup_insert_eq. split.
        -- intros (m & [= <-] & [Hi|Hi%Hbj]%has_join); [|split; [by right|done]].
           destruct (s.2 !! x) as [m|] eqn:Em; [|by apply has_none in Hi].
           destruct (proj1 (Hr x i)) as [? _]; [by exists m|]. split; [by left|done].
        -- intros [[Hi|[-> _]] _]; eexists; (split; [done|]); apply has_join; [left|right; by apply Hbj].
           destruct (proj2 (Hr x i)) as (m & -> & Hmi); done.
      * rewrite lookup_insert_ne, Hr by done. naive_solver.
    + intros d y. rewrite elem_of_app, list_elem_of_singleton, Hq, elem_of_app, list_elem_of_singleton. split.
      * intros [[? ?]|[= -> ->]]; [split; [by left|done]|]. split; [by right|by exists ev].
      * intros [[?| ->] (ev' & E & ->)]; [left; split; [done|by exists ev']|right]. congruence.
    + intros y. destruct (decide (y = x)) as [->|Hne].
      * rewrite lookup_insert_eq. split; [intros _|by eexists]. split; [set_solver|done].
      * rewrite lookup_insert_ne, Hm, elem_of_app, list_elem_of_singleton by done. naive_solver.
  - exists s. split; [done|]. apply not_elem_of_dom in Ex. split.
    + intros y i. rewrite Hr, Hl. naive_solver.
    + intros d y. rewrite Hq, elem_of_app, list_elem_of_singleton. split; [intros [? ?]; split; [by left|done]|].
      intros [[?| ->] (ev' & E & ->)]; [split; [done|by exists ev']|]. by apply elem_of_dom_2 in E.
    + intros y. rewrite Hm, elem_of_app, list_elem_of_singleton. naive_solver.
Qed.

Lemma seeded_nil : seeded [] ([], ∅).
Proof.
  split.
  - intros x i. split; [intros (m & E & _); simpl in E; by rewrite lookup_empty in E|]. intros [E _]. done.
  - intros d x. split; [intros E; by apply elem_of_nil in E|intros [E _]; by apply elem_of_nil in E].
  - intros x. simpl. rewrite lookup_empty. split; [intros [? ?]; done|intros [E _]; by apply elem_of_nil in E].
Qed.

Lemma seed_all (bit : nat → option M) :
  (∀ i, i < length heads → ∃ b, bit i = Some b ∧ ∀ j, has b j ↔ j = i) →
  ∃ s, try_fold (seed_extremity none join ctx bit) (imap pair heads) ([], ∅) = Some s ∧ seeded heads s.
Proof using MaskOps0.
  intros Hbit.
  destruct (try_fold_spec (seed_extremity none join ctx bit) (λ l s, seeded (l.*2) s ∧ l.*1 = seq 0 (length l))
    (imap pair heads) ([], ∅)) as (s & -> & Hs & _).
  - intros l1 [i x] l2 s E [Hs Hi]. assert (imap pair heads !! length l1 = Some (i, x)) as El by (rewrite E; by apply list_lookup_middle).
    rewrite list_lookup_imap in El. destruct (heads !! length l1) as [y|] eqn:Ey; [|done]. injection El as <- <-.
    destruct (Hbit (length l1)) as (b & Hb & Hbj); [by eapply lookup_lt_Some|].
    destruct (seed_step bit (l1.*2) y s b) as (s' & Es & Hs'); [by rewrite length_fmap..|done|].
    rewrite length_fmap in Es. exists s'. split; [exact Es|]. rewrite !fmap_app, length_app, Nat.add_1_r, seq_S, <-Hi. done.
  - split; [apply seeded_nil|done].
  - exists s. split; [done|]. assert ((imap pair heads).*2 = heads) as <-; [|done].
    apply list_eq. intros i. rewrite list_lookup_fmap, list_lookup_imap. by destruct (heads !! i).
Qed.

Lemma seeded_walked s : seeded heads s → walked s.
Proof.
  intros [Hr Hq Hm] x. split.
  - intros y i [Hi Hd]%Hr. split; [done|]. exists y. by split_and!.
  - intros d y (Hy & ev & Hev & ->)%Hq. split; [apply Hm; split; [done|by eapply elem_of_dom_2]|by exists ev].
  - intros i h Hi Hd. by apply Hr.
  - intros y i p Hy [Hi Hd]%Hr _. destruct Hy. apply elem_of_dom in Hd as [ev Hev]. apply list_elem_of_fmap.
    exists (depth ev, y). split; [done|]. apply Hq. split; [by eapply list_elem_of_lookup_2|by exists ev].
Qed.
End walk.

(** ** The most recent common ancestor *)

Lemma sum_list_with_at {A} (f g : A → nat) (l : list A) p :
  NoDup l → p ∈ l → (∀ y, y ≠ p → f y = g y) → sum_list_with f l + g p = sum_list_with g l + f p.
Proof.
  intros Hnd Hp Hfg. induction l as [|y l IH]; [by apply elem_of_nil in Hp|]. apply NoDup_cons in Hnd as [Hy Hnd]. simpl.
  apply elem_of_cons in Hp as [->|Hp].
  - enough (sum_list_with f l = sum_list_with g l) by lia. clear IH Hnd. induction l as [|z l IH]; [done|]. simpl.
    rewrite Hfg, IH; [done| |]; rewrite not_elem_of_cons in Hy; [tauto|]. intros ->. tauto.
  - specialize (IH Hnd Hp). rewrite (Hfg y) by (intros ->; done). lia.
Qed.

Section merge_base.
Context {Id C : Type} `{EventId Id}.
Abbreviation event_map := (gmap Id (LeanEvent Id C)).
Context (ctx : event_map) (heads : list Id).
Abbreviation k := (length heads).
Implicit Types (masks : gmap Id (gset nat)) (q : list (Z * Id)).
Abbreviation walked := (walked (M:=gset nat) (has:=λ m i, i ∈ m) ctx heads).
Abbreviation reached := (reached (M:=gset nat) (has:=λ m i, i ∈ m)).

(** Reachable from every extremity, all of them known. *)
Definition common_ancestor (x : Id) : Prop := ∀ h, h ∈ heads → h ∈ dom ctx ∧ rtc (parent_of ctx) h x ∧ x ∈ dom ctx.
(** Claimed depths grow along the edges. *)
Definition deepening : Prop :=
  ∀ x p ev pev, parent_of ctx x p → ctx !! x = Some ev → ctx !! p = Some pev → (depth pev < depth ev)%Z.
Definition claimed (x : Id) : Z := match ctx !! x with Some ev => depth ev | None => 0%Z end.

Lemma common_from x : common_ancestor x ↔ ∀ i, i < k → comes_from ctx heads i x.
Proof.
  split.
  - intros Hx i [h Hh]%lookup_lt_is_Some_2. destruct (Hx h) as (? & ? & ?); [by eapply list_elem_of_lookup_2|].
    split; [done|]. by exists h.
  - intros Hx h [i Hi]%list_elem_of_lookup. destruct (Hx i) as (Hd & h' & Hh' & ? & ?); [by eapply lookup_lt_Some|].
    simplify_eq. done.
Qed.

Lemma deepening_tc x y : deepening → tc (parent_of ctx) x y → x ∈ dom ctx → (claimed y < claimed x)%Z.
Proof.
  intros Hd Ht. unfold claimed. induction Ht as [x y Hp|x z y Hp _ IH]; intros [ev Hx]%elem_of_dom; rewrite Hx.
  - destruct (proj1 (elem_of_dom _ _) (parents_dom ctx x y Hp)) as [pev Hy]. rewrite Hy. by eapply Hd.
  - destruct (proj1 (elem_of_dom _ _) (parents_dom ctx x z Hp)) as [zev Hz]. specialize (IH (elem_of_dom_2 _ _ _ Hz)).
    rewrite Hz in IH. pose proof (Hd x z ev zev Hp Hx Hz). lia.
Qed.

(** What the masks may still gain. *)
Definition room masks : nat := sum_list_with (λ x, k - size (default ∅ (masks !! x))) (elements (dom ctx)).
Definition in_range (m : gset nat) : Prop := m ≠ ∅ ∧ ∀ i, i ∈ m → i < k.
Definition ranged masks : Prop := ∀ x m, masks !! x = Some m → in_range m.

Lemma range_size (m : gset nat) : (∀ i, i ∈ m → i < k) → size m ≤ k.
Proof.
  intros Hm. rewrite <-(length_seq k 0), <-(size_list_to_set (C:=gset nat) (seq 0 k)) by apply NoDup_seq.
  apply subseteq_size. intros i Hi. apply elem_of_list_to_set, elem_of_seq. apply Hm in Hi. lia.
Qed.

Lemma full_size (m : gset nat) : (∀ i, i ∈ m → i < k) → size m = k ↔ ∀ i, i < k → i ∈ m.
Proof.
  intros Hm. assert (size (list_to_set (C:=gset nat) (seq 0 k)) = k) as Hk.
  { rewrite size_list_to_set by apply NoDup_seq. apply length_seq. }
  assert (m ⊆ list_to_set (seq 0 k)) as Hsub by (intros i Hi; apply elem_of_list_to_set, elem_of_seq; apply Hm in Hi; lia).
  split.
  - intros Hs i Hi. assert (m ≡ list_to_set (seq 0 k)) as ->; [|apply elem_of_list_to_set, elem_of_seq; lia].
    apply set_subseteq_size_equiv; [done|]. lia.
  - intros Hall. assert (m = list_to_set (seq 0 k)) as ->; [|done]. apply set_eq. intros i.
    split; [apply Hsub|]. intros Hi%elem_of_list_to_set%elem_of_seq. apply Hall. lia.
Qed.

Lemma spread_room cur p s :
  in_range cur → ranged s.2 →
  ranged (spread ∅ (∪) bitmap_grew ctx cur s p).2
  ∧ room (spread ∅ (∪) bitmap_grew ctx cur s p).2 + length (spread ∅ (∪) bitmap_grew ctx cur s p).1 ≤ room s.2 + length s.1.
Proof.
  intros [Hne Hc] Hr. destruct s as [q masks]. unfold spread. simpl in *. destruct (ctx !! p) as [pev|] eqn:Ep; [|done].
  set (old := masks !! p). set (new := default ∅ old ∪ cur). set (masks' := <[p := new]> masks).
  assert (∀ i, i ∈ default ∅ old → i < k) as Ho.
  { intros i Hi. destruct old as [o|] eqn:E; [|by apply elem_of_empty in Hi]. by apply (Hr p o E). }
  assert (in_range new) as Hnew.
  { split; [|intros i [Hi|Hi]%elem_of_union; [by apply Ho|by apply Hc]]. intros E. apply Hne. apply set_eq. intros i. set_solver. }
  assert (ranged masks') as Hr'.
  { intros x m [[_ <-]|[_ Hm]]%lookup_insert_Some; [done|by eapply Hr]. }
  pose proof (range_size new (proj2 Hnew)) as Hsz.
  assert (room masks' + (k - size (default ∅ old)) = room masks + (k - size new)) as Hroom.
  { unfold room. pose proof (sum_list_with_at (λ x, k - size (default ∅ (masks' !! x))) (λ x, k - size (default ∅ (masks !! x)))
      (elements (dom ctx)) p) as Hs. cbn beta in Hs. unfold masks' in Hs at 3. rewrite lookup_insert_eq in Hs. apply Hs.
    - apply NoDup_elements.
    - apply elem_of_elements. by eapply elem_of_dom_2.
    - intros y Hy. unfold masks'. by rewrite lookup_insert_ne by done. }
  assert (size (default ∅ old) ≤ size new) as Hle by (apply subseteq_size; unfold new; apply union_subseteq_l).
  destruct (bitmap_grew old new) eqn:Eg; simpl; (split; [done|]); [|lia].
  assert (size (default ∅ old) < size new); [|rewrite length_app; simpl; lia].
  unfold bitmap_grew in Eg. destruct old as [o|]; [by apply Nat.ltb_lt|].
  change (default ∅ None) with (∅ : gset nat). rewrite size_empty. apply set_choose_L in Hne as [i Hi]. enough (size new ≠ 0) by lia. intros E%size_empty_inv.
  apply (not_elem_of_empty i (C:=gset nat)). rewrite <-E. unfold new. set_solver.
Qed.

Lemma spreads_room cur prev s :
  in_range cur → ranged s.2 →
  ranged (foldl (spread ∅ (∪) bitmap_grew ctx cur) s prev).2
  ∧ room (foldl (spread ∅ (∪) bitmap_grew ctx cur) s prev).2 + length (foldl (spread ∅ (∪) bitmap_grew ctx cur) s prev).1
    ≤ room s.2 + length s.1.
Proof.
  intros Hc. revert s. induction prev as [|p prev IH]; intros s Hr; [done|]. simpl.
  destruct (spread_room cur p s Hc Hr) as [Hr' Hle]. destruct (IH _ Hr') as [Hr'' Hle']. split; [done|lia].
Qed.

(** A complete mask is queued. *)
Definition full masks (x : Id) : Prop := ∀ i, i < k → reached masks x i.

Lemma spread_full x cur p s :
  (∀ y, y ≠ x → full s.2 y → y ∈ s.1.*2) →
  ∀ y, y ≠ x → full (spread ∅ (∪) bitmap_grew ctx cur s p).2 y → y ∈ (spread ∅ (∪) bitmap_grew ctx cur s p).1.*2.
Proof.
  intros Hq y Hy Hf. destruct s as [q masks]. simpl in Hq. destruct (ctx !! p) as [pev|] eqn:Ep.
  2:{ unfold spread in *. rewrite Ep in *. by apply Hq. }
  assert (∀ i, reached (spread ∅ (∪) bitmap_grew ctx cur (q, masks) p).2 y i ↔ reached masks y i ∨ (y = p ∧ i ∈ cur)) as Hr.
  { intros i. exact (reached_spread (has:=λ m i, i ∈ m) ctx q masks cur p pev y i Ep). }
  unfold spread. rewrite Ep. cbn [fst snd]. destruct (bitmap_grew _ _) eqn:Eg; cbn [fst].
  - rewrite fmap_app, elem_of_app. destruct (decide (y = p)) as [->|Hne]; [right; left|left]. apply Hq; [done|].
    intros i Hi. destruct (proj1 (Hr i) (Hf i Hi)) as [?|[? _]]; done.
  - apply Hq; [done|]. intros i Hi. destruct (proj1 (Hr i) (Hf i Hi)) as [?|[-> Hc]]; [done|].
    pose proof (grew_false (masks !! p) cur Eg i Hc) as Hg. unfold MergeBaseProps.reached. cbn beta in Hg.
    destruct (masks !! p) as [m|]; [by exists m|]. simpl in Hg. set_solver.
Qed.

Lemma spreads_full x cur prev s :
  (∀ y, y ≠ x → full s.2 y → y ∈ s.1.*2) →
  ∀ y, y ≠ x → full (foldl (spread ∅ (∪) bitmap_grew ctx cur) s prev).2 y →
    y ∈ (foldl (spread ∅ (∪) bitmap_grew ctx cur) s prev).1.*2.
Proof. revert s. induction prev as [|p prev IH]; intros s Hq; [done|]. simpl. apply IH. by apply spread_full. Qed.

(** What the walk may answer. *)
Definition merge_base_is (r : option Id) : Prop :=
  match r with
  | Some x => common_ancestor x
      ∧ (deepening → ∀ y, common_ancestor y → queue_cmp (claimed y, y) (claimed x, x) ≠ Gt)
  | None => ∀ x, ¬ common_ancestor x
  end.

Lemma popped_greatest q masks d x q' :
  0 < k → walked (q, masks) → (∀ y, full masks y → y ∈ q.*2) → heap_pop queue_cmp q = Some ((d, x), q') →
  deepening → ∀ y, common_ancestor y → queue_cmp (claimed y, y) (claimed x, x) ≠ Gt.
Proof.
  intros Hk Hw Hfull Hpop Hdeep y Hy. pose proof (heap_pop_perm _ _ _ _ Hpop) as Hperm.
  assert (∀ d' z, (d', z) ∈ q → d' = claimed z ∧ z ∈ dom ctx) as Hqd.
  { intros d' z Hz. destruct (wk_queued _ _ _ _ _ (Hw z) d' z Hz) as [_ (ev & Hev & ->)]. unfold claimed. rewrite Hev.
    split; [done|by eapply elem_of_dom_2]. }
  assert (∀ z, z ∈ q.*2 → queue_cmp (claimed z, z) (claimed x, x) ≠ Gt ∧ z ∈ dom ctx) as Hmax.
  { intros z ([d' z'] & -> & Hz)%list_elem_of_fmap. simpl. destruct (Hqd d' z' Hz) as [<- Hd]. split; [|done].
    destruct (Hqd d x) as [<- _]; [rewrite Hperm; left|]. by apply (heap_pop_max (λ e, e) queue_cmp q (d, x) q' (d', z') Hpop). }
  destruct (decide (y ∈ q.*2)) as [Hin|Hni]; [by apply Hmax|].
  destruct (decide (Forall (λ i, i ∈ default ∅ (masks !! y)) (seq 0 k))) as [Hall|Hsome].
  { destruct Hni. apply Hfull. intros i Hi. rewrite Forall_forall in Hall. specialize (Hall i ltac:(apply elem_of_seq; lia)).
    unfold MergeBaseProps.reached. destruct (masks !! y) as [m|]; [by exists m|]. by apply elem_of_empty in Hall. }
  apply not_Forall_Exists in Hsome; [|intros ?; apply decide_rel; apply _]. apply Exists_exists in Hsome as (i & Hi%elem_of_seq & Hn).
  destruct (walked_owed ctx heads q masks i y Hw) as (z & Hz & Ht).
  - apply common_from; [done|lia].
  - intros (m & Em & Hm). apply Hn. by rewrite Em.
  - destruct (Hmax z Hz) as [Hle Hzd]. pose proof (deepening_tc z y Hdeep Ht Hzd) as Hlt.
    unfold queue_cmp, cmp_pair, then_with in *. simpl in *.
    destruct (Z.compare_spec (claimed z) (claimed x)) as [E|E|E]; [| |done];
      (destruct (Z.compare_spec (claimed y) (claimed x)) as [E'|E'|E']; [lia|done|lia]).
Qed.

Lemma merge_base_loop_spec fuel q masks :
  0 < k → walked (q, masks) → ranged masks → (∀ y, full masks y → y ∈ q.*2) → room masks + length q ≤ fuel →
  ∃ r, merge_base_loop ctx k fuel q masks = Some r ∧ merge_base_is r.
Proof.
  intros Hk. revert q masks. induction fuel as [|fuel IH]; intros q masks Hw Hr Hfull Hf; simpl.
  all: destruct (heap_pop queue_cmp q) as [[[d x] q']|] eqn:Hpop.
  2,4: apply heap_pop_None in Hpop as ->; exists None; split; [done|];
    intros x Hx; apply (not_elem_of_nil x), Hfull; intros i Hi;
    apply (walked_complete ctx heads masks i x Hw); by apply common_from.
  - pose proof (heap_pop_perm _ _ _ _ Hpop) as Hperm. rewrite Hperm in Hf. simpl in Hf. lia.
  - pose proof (heap_pop_perm _ _ _ _ Hpop) as Hperm. assert ((d, x) ∈ q) as Hin by (rewrite Hperm; left).
    destruct (wk_queued _ _ _ _ _ (Hw x) d x Hin) as [[cur Hcur] (ev & Hev & _)]. simpl in Hcur. rewrite Hcur.
    pose proof (Hr x cur Hcur) as [Hne Hrange].
    destruct (Nat.eqb_spec (size cur) k) as [Hs|Hs].
    { exists (Some x). split; [done|]. split; [|by eapply popped_greatest].
      apply common_from. intros i Hi. apply (wk_sound _ _ _ _ _ (Hw x) x i). exists cur. split; [done|]. by apply (full_size cur). }
    rewrite Hev. pose proof (walked_step ctx heads q q' masks d x cur ev Hw Hpop Hcur Hev) as Hw'.
    destruct (spreads_room cur (prev_events ev) (q', masks) (conj Hne Hrange) Hr) as [Hr' Hroom].
    assert (∀ y, y ≠ x → full masks y → y ∈ q'.*2) as Hfull0.
    { intros y Hy Hfy. specialize (Hfull y Hfy). rewrite Hperm in Hfull. simpl in Hfull. by apply elem_of_cons in Hfull as [->|?]. }
    pose proof (spreads_full x cur (prev_events ev) (q', masks) Hfull0) as Hfull'.
    assert (∀ i, reached (foldl (spread ∅ (∪) bitmap_grew ctx cur) (q', masks) (prev_events ev)).2 x i ↔ i ∈ cur) as Hcur'.
    { apply (walking_spreads (has:=λ m i, i ∈ m) ctx heads x cur (prev_events ev) (λ y, y ∈ prev_events ev) (q', masks)).
      - intros p Hp. destruct (decide (p ∈ dom ctx)) as [Hd|Hd]; [left|by right]. apply elem_of_parents. by exists ev.
      - intros i. unfold MergeBaseProps.reached. simpl. rewrite Hcur. naive_solver.
      - by eapply popped_walking. }
    destruct (foldl _ (q', masks) (prev_events ev)) as [q2 masks2]. simpl in *.
    apply IH; [done|done| |rewrite Hperm in Hf; simpl in Hf; lia]. intros y Hy. destruct (decide (y = x)) as [->|Hne']; [|by apply Hfull'].
    exfalso. apply Hs, (full_size cur Hrange). intros i Hi. by apply Hcur', Hy.
Qed.

(** Every seed uses some of the room. *)
Lemma room_empty : room ∅ = k * size (dom ctx).
Proof.
  unfold room. change (size (dom ctx)) with (length (elements (dom ctx))).
  induction (elements (dom ctx)) as [|x l IH]; cbn [sum_list_with length]; [lia|].
  rewrite lookup_empty, IH. change (default ∅ None) with (∅ : gset nat). rewrite size_empty. lia.
Qed.

Lemma seed_room l x s s' :
  length l < k → seeded (has:=λ m i, i ∈ m) ctx l s →
  seed_extremity ∅ (∪) ctx bitmap_bit s (length l, x) = Some s' → room s'.2 + length s'.1 ≤ room s.2 + length s.1.
Proof.
  intros Hlt Hs. unfold seed_extremity. simpl. destruct (ctx !! x) as [ev|] eqn:Ex; [|by intros [= <-]].
  unfold bitmap_bit. destruct (Z.leb_spec (Z.of_nat (length l)) U32_MAX) as [_|_]; [|done]. intros [= <-]. simpl.
  destruct s as [q masks]. simpl in *. set (old := default ∅ (masks !! x)). set (masks' := <[x := old ∪ {[length l]}]> masks).
  assert (∀ i, i ∈ old → i < length l) as Hold.
  { intros i Hi. destruct (proj1 (sd_reached _ _ _ Hs x i)) as [Hl _]; [|by eapply lookup_lt_Some].
    unfold old in Hi. simpl. destruct (masks !! x) as [m|] eqn:Em; [by exists m|]. by apply elem_of_empty in Hi. }
  assert (size (old ∪ {[length l]}) = size old + 1) as Hsz.
  { rewrite size_union, size_singleton; [done|]. intros i Hi ->%elem_of_singleton. specialize (Hold _ Hi). lia. }
  assert (size (old ∪ {[length l]}) ≤ k) as Hle.
  { apply range_size. intros i [Hi| ->%elem_of_singleton]%elem_of_union; [specialize (Hold i Hi)|]; lia. }
  assert (room masks' + (k - size old) = room masks + (k - size (old ∪ {[length l]}))) as Hroom.
  { unfold room. pose proof (sum_list_with_at (λ x, k - size (default ∅ (masks' !! x))) (λ x, k - size (default ∅ (masks !! x)))
      (elements (dom ctx)) x) as Hsum. cbn beta in Hsum. unfold masks' in Hsum at 3. rewrite lookup_insert_eq in Hsum. apply Hsum.
    - apply NoDup_elements.
    - apply elem_of_elements. by eapply elem_of_dom_2.
    - intros y Hy. unfold masks'. by rewrite lookup_insert_ne by done. }
  rewrite length_app. simpl. lia.
Qed.

Lemma seeds_room s :
  try_fold (seed_extremity ∅ (∪) ctx bitmap_bit) (imap pair heads) ([], ∅) = Some s →
  (Z.of_nat k ≤ U32_MAX)%Z → room s.2 + length s.1 ≤ k * size ctx.
Proof.
  intros Es Hk. rewrite <-size_dom.
  destruct (try_fold_spec (seed_extremity ∅ (∪) ctx bitmap_bit) (λ l s, seeded (has:=λ m i, i ∈ m) ctx (l.*2) s
      ∧ room s.2 + length s.1 ≤ k * size (dom ctx)) (imap pair heads) ([], ∅)) as (s' & Es' & _ & Hs); [| |congruence].
  - intros l1 [i x] l2 s0 E [Hs0 Hle]. assert (imap pair heads !! length l1 = Some (i, x)) as El by (rewrite E; by apply list_lookup_middle).
    rewrite list_lookup_imap in El. destruct (heads !! length l1) as [y|] eqn:Ey; [|done]. injection El as <- <-.
    pose proof (lookup_lt_Some _ _ _ Ey) as Hlt.
    destruct (seed_step (has:=λ m i, i ∈ m) (none:=∅) (join:=(∪)) (grew:=bitmap_grew) ctx bitmap_bit (l1.*2) y s0 {[length l1]})
      as (s1 & Es1 & Hs1); [|rewrite length_fmap; set_solver|done|].
    { rewrite length_fmap. unfold bitmap_bit. by rewrite (proj2 (Z.leb_le _ _)) by lia. }
    pose proof (seed_room (l1.*2) y s0 s1) as Hroom. rewrite length_fmap in Es1, Hroom. specialize (Hroom Hlt Hs0 Es1).
    exists s1. split; [exact Es1|]. rewrite fmap_app. split; [exact Hs1|lia].
  - split; [apply seeded_nil|simpl; by rewrite room_empty, Nat.add_0_r].
Qed.
End merge_base.

(** C25: with two extremities or more the walk ends and never panics (below
    2^32 of them): its answer is a common ancestor of all, there is none
    exactly when there is no common ancestor or an extremity is unknown, and
    when claimed depths grow along the edges no common ancestor is greater by
    claimed depth and id, so that the answer is a most recent one and does not
    depend on the order of the extremities. *)
Theorem merge_base_exact {Id C} `{EventId Id} (extremities : list Id) (events_map : gmap Id (LeanEvent Id C)) :
  (Z.of_nat (length extremities) ≤ U32_MAX)%Z → extremities ≠ [] →
  ∃ r, compute_merge_base extremities events_map = Some r ∧ merge_base_is events_map extremities r.
Proof.
  intros Hlen Hne. destruct extremities as [|h [|h' l]]; [done| |].
  - eexists. split; [done|]. destruct (events_map !! h) as [ev|] eqn:Eh; simpl.
    + assert (h ∈ dom events_map) as Hd by (by eapply elem_of_dom_2). split.
      * intros h' ->%list_elem_of_singleton. done.
      * intros Hdeep y Hy. destruct (Hy h) as (_ & Hr & _); [left|]. apply rtc_tc in Hr as [->|Ht].
        -- by rewrite (cmp_refl queue_cmp).
        -- pose proof (deepening_tc _ _ _ Hdeep Ht Hd) as Hlt. unfold queue_cmp, cmp_pair, then_with. simpl.
           destruct (Z.compare_spec (claimed events_map y) (claimed events_map h)) as [E|E|E]; [lia|done|lia].
    + intros x Hx. destruct (Hx h) as (Hd & _); [left|]. by apply not_elem_of_dom in Eh.
  - set (heads := h :: h' :: l) in *. unfold compute_merge_base. fold heads.
    destruct (seed_all (has:=λ m i, i ∈ m) (none:=∅) (join:=(∪)) (grew:=bitmap_grew) events_map heads bitmap_bit) as (s & Es & Hs).
    { intros i Hi. exists {[i]}. unfold bitmap_bit. rewrite (proj2 (Z.leb_le _ _)) by lia. split; [done|set_solver]. }
    rewrite Es. destruct s as [q masks]. pose proof (seeded_walked events_map heads _ Hs) as Hw.
    assert (ranged heads masks) as Hr.
    { intros x m Hm. split.
      - assert (x ∈ heads ∧ x ∈ dom events_map) as [[i Hi]%list_elem_of_lookup Hd] by (apply (sd_masks _ _ _ Hs); by exists m).
        destruct (proj2 (sd_reached _ _ _ Hs x i)) as (m' & Em & Hin); [done|]. simpl in Em. simplify_eq. set_solver.
      - intros i Hin. destruct (proj1 (sd_reached _ _ _ Hs x i)) as [Hi _]; [by exists m|]. by eapply lookup_lt_Some. }
    apply merge_base_loop_spec; [simpl; lia|done|done| |].
    + intros y Hy. destruct (proj1 (sd_reached _ _ _ Hs y 0)) as [Hi [ev Hev]%elem_of_dom]; [apply Hy; simpl; lia|].
      apply list_elem_of_fmap. exists (depth ev, y). split; [done|]. apply (sd_queued _ _ _ Hs).
      split; [by eapply list_elem_of_lookup_2|by exists ev].
    + apply (seeds_room events_map heads _ Es). done.
Qed.

(** ** The junctions *)

Lemma strongly_sorted_weaken {A} (R S : relation A) (l : list A) :
  (∀ x y, R x y → S x y) → StronglySorted R l → StronglySorted S l.
Proof. intros HRS. induction 1 as [|x l _ IH Hf]; constructor; [done|]. eapply Forall_impl; [exact Hf|by apply HRS]. Qed.

Section merge_bases.
Context {Id C : Type} `{EventId Id}.
Context (ctx : gmap Id (LeanEvent Id C)) (heads : list Id).
Abbreviation k := (length heads).
Abbreviation has_bit := (λ (m : N) (i : nat), N.testbit m (N.of_nat i) = true).
Implicit Types (masks : gmap Id N) (q : list (Z * Id)) (best : gmap N (Id * Z)).
Abbreviation walked := (walked (M:=N) (has:=has_bit) ctx heads).
Abbreviation reached := (reached (M:=N) (has:=has_bit)).

(** An event where the extremities of a mask meet. *)
Definition junction (m : N) (x : Id) (d : Z) : Prop :=
  (∃ i j, i ≠ j ∧ has_bit m i ∧ has_bit m j) ∧ (∀ i, has_bit m i → comes_from ctx heads i x)
  ∧ (deepening ctx → ∀ i, comes_from ctx heads i x → has_bit m i) ∧ x ∈ dom ctx ∧ d = claimed ctx x.

Lemma popcount_bits n m : 0 < popcount n m → ∃ i, i < n ∧ has_bit m i.
Proof.
  induction n as [|n IH]; simpl; [lia|]. destruct (N.testbit m (N.of_nat n)) eqn:E; [intros _; exists n; split; [lia|done]|].
  intros (i & Hi & Hb)%IH. exists i. split; [lia|done].
Qed.

Lemma popcount_two n m : 2 ≤ popcount n m → ∃ i j, i ≠ j ∧ has_bit m i ∧ has_bit m j.
Proof.
  induction n as [|n IH]; simpl; [lia|]. destruct (N.testbit m (N.of_nat n)) eqn:E; [|by apply IH].
  intros Hp. destruct (popcount_bits n m) as (i & Hi & Hb); [lia|]. exists i, n. split_and!; [lia|done|done].
Qed.

Lemma popped_complete q masks d x q' i :
  walked (q, masks) → heap_pop queue_cmp q = Some ((d, x), q') → deepening ctx → comes_from ctx heads i x → reached masks x i.
Proof.
  intros Hw Hpop Hdeep Hi. destruct (masks !! x) as [m|] eqn:Em.
  2:{ pose proof (heap_pop_perm _ _ _ _ Hpop) as Hperm.
      destruct (wk_queued _ _ _ _ _ (Hw x) d x) as [[m Hm] _]; [rewrite Hperm; left|]. simpl in Hm. congruence. }
  destruct (N.testbit m (N.of_nat i)) eqn:Eb; [by exists m|]. exfalso.
  destruct (walked_owed ctx heads q masks i x Hw Hi) as (z & Hz & Ht).
  { intros (m' & Em' & Hb). congruence. }
  apply list_elem_of_fmap in Hz as ([d' z'] & -> & Hz). simpl in Ht.
  destruct (wk_queued _ _ _ _ _ (Hw z') d' z' Hz) as [_ (zev & Hzev & ->)].
  pose proof (deepening_tc ctx z' x Hdeep Ht (elem_of_dom_2 _ _ _ Hzev)) as Hlt. unfold claimed in Hlt. rewrite Hzev in Hlt.
  destruct (wk_queued _ _ _ _ _ (Hw x) d x) as [_ (xev & Hxev & ->)]; [rewrite (heap_pop_perm _ _ _ _ Hpop); left|].
  rewrite Hxev in Hlt. pose proof (heap_pop_max (λ e, e) queue_cmp q (depth xev, x) q' (depth zev, z') Hpop Hz) as Hle.
  unfold cmp_le, cmp_on, queue_cmp, cmp_pair, then_with in Hle. simpl in Hle.
  destruct (Z.compare_spec (depth zev) (depth xev)); [lia|lia|done].
Qed.

Lemma merge_bases_loop_spec full (steps : nat) q masks best :
  walked (q, masks) → (∀ m x d, best !! m = Some (x, d) → junction m x d) →
  ∃ best', merge_bases_loop ctx full steps q masks best = Some best' ∧ ∀ m x d, best' !! m = Some (x, d) → junction m x d.
Proof.
  revert q masks best. induction steps as [|steps IH]; intros q masks best Hw Hb; simpl.
  all: destruct (heap_pop queue_cmp q) as [[[d x] q']|] eqn:Hpop; [|by exists best].
  { by exists best. }
  destruct (wk_queued _ _ _ _ _ (Hw x) d x) as [[cur Hcur] (ev & Hev & Hd)]; [rewrite (heap_pop_perm _ _ _ _ Hpop); left|].
  simpl in Hcur. rewrite Hcur, Hev.
  set (best1 := if (2 <=? popcount 8 cur) && bool_decide (best !! cur = None) then <[cur := (x, d)]> best else best).
  assert (∀ m y e, best1 !! m = Some (y, e) → junction m y e) as Hb1.
  { intros m y e. unfold best1. destruct (Nat.leb_spec 2 (popcount 8 cur)) as [Hp|_]; simpl; [|apply Hb].
    case_bool_decide as Hn; [|apply Hb]. intros [[<- [= <- <-]]|[_ ?]]%lookup_insert_Some; [|by apply Hb]. split_and!.
    - by eapply popcount_two.
    - intros i Hi. apply (wk_sound _ _ _ _ _ (Hw x) x i). by exists cur.
    - intros Hdeep i Hi. destruct (popped_complete q masks d x q' i Hw Hpop Hdeep Hi) as (m & Em & Hm). by simplify_eq.
    - by eapply elem_of_dom_2.
    - unfold claimed. by rewrite Hev. }
  destruct (cur =? full)%N; [by exists best1|].
  pose proof (walked_step ctx heads q q' masks d x cur ev Hw Hpop Hcur Hev) as Hw'.
  destruct (foldl _ (q', masks) (prev_events ev)) as [q2 masks2]. by apply IH.
Qed.
End merge_bases.

(** With two to seven extremities the search for junctions returns,
    whatever the step limit: each junction is a known event that at least two
    extremities reach, its mask names only extremities that reach it, and all
    of them when claimed depths grow along the edges; no two have one mask,
    none has a mask within that of another as deep or deeper, and they come
    deepest first. With fewer extremities there is nothing to find, and with
    eight or more it panics. *)
Theorem merge_bases_junctions {Id C} `{EventId Id} `{HashOrder} (extremities : list Id)
    (events_map : gmap Id (LeanEvent Id C)) (max_steps : N) :
  match compute_merge_bases extremities events_map max_steps with
  | Some js => length extremities < 8
      ∧ (length extremities < 2 → js = [])
      ∧ (∀ j, j ∈ js → junction events_map extremities (mb_mask j) (mb_event_id j) (mb_depth j))
      ∧ NoDup (mb_mask <$> js)
      ∧ (∀ j j', j ∈ js → j' ∈ js → j ≠ j' →
           (∀ i, N.testbit (mb_mask j) i = true → N.testbit (mb_mask j') i = true) → (mb_depth j' < mb_depth j)%Z)
      ∧ StronglySorted (λ a b, (mb_depth b ≤ mb_depth a)%Z) js
  | None => 8 ≤ length extremities
  end.
Proof.
  unfold compute_merge_bases. destruct (Nat.leb_spec (length extremities) 8) as [H8|H8]; simpl; [|lia].
  destruct (Nat.ltb_spec (length extremities) 2) as [H2|H2].
  { split_and!; [lia|done| | | |constructor].
    - intros j Hj. by apply elem_of_nil in Hj.
    - constructor.
    - intros j j' Hj. by apply elem_of_nil in Hj. }
  unfold full_mask. destruct (Nat.ltb_spec (length extremities) 8) as [Hlt|Hge]; simpl; [|done].
  destruct (seed_all (has:=λ m i, N.testbit m (N.of_nat i) = true) (none:=0%N) (join:=N.lor) (grew:=u8_grew)
    events_map extremities u8_bit) as (s & Es & Hs).
  { intros i Hi. exists (N.shiftl 1 (N.of_nat i)). split; [done|]. intros j.
    rewrite N.shiftl_1_l, N.pow2_bits_eqb, N.eqb_eq. lia. }
  rewrite Es. destruct s as [q masks]. pose proof (seeded_walked events_map extremities _ Hs) as Hw.
  destruct (merge_bases_loop_spec events_map extremities (N.shiftl 1 (N.of_nat (length extremities)) - 1) (N.to_nat max_steps) q masks ∅ Hw)
    as (best & Eb & Hbest); [intros m x d E; by rewrite lookup_empty in E|]. rewrite Eb.
  set (kept := filter _ (hm_iter best)). set (js := (λ j, mkMergeBase j.2.1 j.1 j.2.2) <$> kept).
  assert (∀ j, j ∈ js ↔ ∃ e, e ∈ kept ∧ j = mkMergeBase e.2.1 e.1 e.2.2) as Hjs.
  { intros j. unfold js. rewrite list_elem_of_fmap. naive_solver. }
  set (sorted := sort_by _ js). assert (∀ j, j ∈ sorted ↔ j ∈ js) as Hsorted by (intros j; unfold sorted; by rewrite sort_by_perm).
  split_and!; [done|lia| | | |].
  - intros j (e & He & ->)%Hsorted%Hjs. unfold kept in He. apply list_elem_of_filter in He as [_ He].
    destruct e as [m [x d]]. apply elem_of_hm_iter in He. by apply Hbest.
  - unfold sorted. rewrite sort_by_perm. unfold js. rewrite <-list_fmap_compose.
    apply (NoDup_fmap_filter fst). apply NoDup_hm_keys.
  - intros j j' (e & He & ->)%Hsorted%Hjs (e' & He' & ->)%Hsorted%Hjs Hne Hsub. simpl in *.
    unfold kept in He, He'. apply list_elem_of_filter in He as [Hsup He]. apply list_elem_of_filter in He' as [_ He'].
    destruct (decide (e.2.2 ≤ e'.2.2)%Z) as [Hle|]; [|lia]. exfalso.
    assert (superseded (hm_iter best) e = true) as Ht; [|congruence]. unfold superseded. apply existsb_exists. exists e'.
    split; [by apply list_elem_of_In|]. rewrite !andb_true_iff. split_and!; [| |by apply Z.leb_le].
    + apply negb_true_iff, N.eqb_neq. intros E. apply Hne. destruct e as [m [x d]], e' as [m' [x' d']]. simpl in *. subst m'.
      apply elem_of_hm_iter in He, He'. by simplify_eq.
    + apply N.eqb_eq, N.bits_inj. intros i. rewrite N.land_spec. specialize (Hsub i).
      destruct (N.testbit e.1 i); [by rewrite Hsub|apply andb_false_r].
  - pose proof (sort_by_sorted mb_depth (cmp_rev Z.compare) js) as Hss. eapply strongly_sorted_weaken; [|exact Hss].
    intros a b Hab. unfold cmp_le, cmp_on, cmp_rev in Hab. destruct (Z.compare_spec (mb_depth b) (mb_depth a)); [lia|lia|done].
Qed.

(** ** On the room of [StreamRoom] *)

Lemma merge_base_exact_witness :
  ∃ x, compute_merge_base (H:=string_event_id) ["$topic_a"; "$topic_b"] StreamRoom.context = Some (Some x)
    ∧ common_ancestor (H:=string_event_id) StreamRoom.context ["$topic_a"; "$topic_b"] x.
Proof.
  destruct (merge_base_exact (H:=string_event_id) ["$topic_a"; "$topic_b"] StreamRoom.context) as (r & Hr & Hs);
    [vm_compute; discriminate|discriminate|].
  assert (compute_merge_base (H:=string_event_id) ["$topic_a"; "$topic_b"] StreamRoom.context = Some (Some "$low")) as E
    by (vm_compute; reflexivity).
  rewrite E in Hr. injection Hr as <-. exists "$low". split; [exact E|exact (proj1 Hs)].
Defined.

Example stream_room_junctions :
  compute_merge_bases (H:=string_event_id) (H0:=order_forward) ["$topic_a"; "$topic_b"; "$join@b:x"] StreamRoom.context 5000
  = Some [mkMergeBase "$low" 3%N 6%Z; mkMergeBase "$join@b:x" 7%N 5%Z].
Proof. vm_compute. reflexivity. Qed.
