(* ===== verification/AuthChainDiff.v ===== *)
(** * The auth chain difference by depth ([compute_auth_chain_diff] of [src/src/state/at.rs])

    Two walks up the auth chains, the conflicted one by decreasing claimed
    depth, the unconflicted one kept at least as deep: an event is in the
    difference when the unconflicted walk has not met it by then. *)
From stdpp Require Import prelude gmap strings sorting relations.
From Stdlib Require String.
From S2P Require Import Prelude Dense EventTypes Json Events Samples Subgraph AuthDiff AuthDiffProps StateDiff MultiSpec Iterative StateAt StateMerge StateProps MergeBase.

Section chain_diff.
Context {Id C : Type} `{EventId Id} `{EventContent C} `{Ho : HashOrder}.
Abbreviation event_map := (gmap Id (LeanEvent Id C)).
Abbreviation shared_state := (gmap (string * string) Id).
Abbreviation queue := (list (Z * Id)).
Implicit Types (events_map : event_map).

(** An id met for the first time is visited, and queued when it is known. *)
Definition meet events_map (s : gset Id * queue) (id : Id) : gset Id * queue :=
  if decide (id ∈ s.1) then s
  else
    ({[id]} ∪ s.1, match events_map !! id with Some ev => s.2 ++ [(depth ev, id)] | None => s.2 end).

(** The same, passing over what the unconflicted walk has met. *)
Definition meet_conflicted events_map (u_visited : gset Id) (s : gset Id * queue) (id : Id) : gset Id * queue :=
  if decide (id ∈ u_visited) then s else meet events_map s id.

(** The unconflicted walk, down to the depth of the conflicted one. *)
Fixpoint catch_up events_map (c_depth : Z) (fuel : nat) (s : gset Id * queue) : option (gset Id * queue) :=
  match heap_pop queue_cmp s.2 with
  | None => Some s
  | Some ((u_depth, u_id), u_heap) =>
      if (u_depth <? c_depth)%Z then Some s
      else
        match fuel with
        | O => None
        | S fuel =>
            ev ←! events_map !! u_id;
            catch_up events_map c_depth fuel (foldl (meet events_map) (s.1, u_heap) (auth_events ev))
        end
  end.

Fixpoint conflicted_walk events_map (fuel : nat) (u c : gset Id * queue) (auth_diff : gset Id) : option (gset Id) :=
  match heap_pop queue_cmp c.2 with
  | None => Some auth_diff
  | Some ((c_depth, c_id), c_heap) =>
      match fuel with
      | O => None
      | S fuel =>
          u ←! catch_up events_map c_depth (size events_map) u;
          if decide (c_id ∈ u.1) then conflicted_walk events_map fuel u (c.1, c_heap) auth_diff
          else
            ev ←! events_map !! c_id;
            conflicted_walk events_map fuel u (foldl (meet_conflicted events_map u.1) (c.1, c_heap) (auth_events ev))
              ({[c_id]} ∪ auth_diff)
      end
  end.

Definition compute_auth_chain_diff (unconflicted_state : shared_state) (conflicted_state_set : gset Id) events_map
    : option (gset Id) :=
  let u := foldl (meet events_map) (∅, []) (state_values unconflicted_state) in
  let c := foldl (meet_conflicted events_map u.1) (∅, []) (hs_iter conflicted_state_set) in
  conflicted_walk events_map (size events_map) u c ∅.
End chain_diff.

Section spec.
Context {Id C : Type} `{EventId Id} `{EventContent C}.
Abbreviation event_map := (gmap Id (LeanEvent Id C)).
Abbreviation queue := (list (Z * Id)).
Context (ctx : event_map).
Implicit Types (s u c : gset Id * queue).

(** Claimed depths grow along the citations. *)
Definition auth_deepening : Prop :=
  ∀ x a ev aev, auth_of ctx x a → ctx !! x = Some ev → ctx !! a = Some aev → (depth aev < depth ev)%Z.

(** What can still be met, and what is queued. *)
Definition work s : nat := size (dom ctx ∖ s.1) + length s.2.

Record met_more s (ids : list Id) s' : Prop := {
  mm_visited x : x ∈ s'.1 ↔ x ∈ s.1 ∨ x ∈ ids;
  mm_queue d x : (d, x) ∈ s'.2 ↔ (d, x) ∈ s.2 ∨ (x ∈ ids ∧ x ∉ s.1 ∧ ∃ ev, ctx !! x = Some ev ∧ d = depth ev);
  mm_work : work s' ≤ work s
}.

Lemma meet_one s x : met_more s [x] (meet ctx s x).
Proof.
  unfold meet. case_decide as Hx.
  { split; [set_solver| |done]. intros d y. rewrite list_elem_of_singleton. split; [by left|]. by intros [?|(-> & ? & _)]. }
  split; simpl.
  - intros y. rewrite elem_of_union, elem_of_singleton, list_elem_of_singleton. tauto.
  - intros d y. rewrite list_elem_of_singleton. destruct (ctx !! x) as [ev|] eqn:Ex.
    + rewrite elem_of_app, list_elem_of_singleton. split.
      * intros [?|[= -> ->]]; [by left|right]. split_and!; [done..|by exists ev].
      * intros [?|(-> & _ & ev' & E & ->)]; [by left|right]. congruence.
    + split; [by left|]. intros [?|(-> & _ & ev' & E & _)]; [done|congruence].
  - unfold work. simpl. destruct (ctx !! x) as [ev|] eqn:Ex.
    + rewrite length_app. simpl. assert (x ∈ dom ctx) as Hd by (by eapply elem_of_dom_2).
      assert (size (dom ctx ∖ s.1) = size (dom ctx ∖ ({[x]} ∪ s.1)) + 1); [|lia].
      assert (dom ctx ∖ s.1 = (dom ctx ∖ ({[x]} ∪ s.1)) ∪ {[x]}) as ->.
      { apply set_eq. intros y. destruct (decide (y = x)) as [->|]; set_solver. }
      rewrite size_union, size_singleton; [done|set_solver].
    + apply Nat.add_le_mono_r, subseteq_size. set_solver.
Qed.

Lemma meet_all ids s : met_more s ids (foldl (meet ctx) s ids).
Proof.
  revert s. induction ids as [|x ids IH]; intros s; simpl.
  { split; [set_solver| |done]. intros d x. split; [by left|]. intros [?|(Hx & _)]; [done|]. by apply elem_of_nil in Hx. }
  destruct (meet_one s x) as [Hv Hq Hw], (IH (meet ctx s x)) as [Hv' Hq' Hw']. split.
  - intros y. rewrite Hv', Hv, list_elem_of_singleton, elem_of_cons. tauto.
  - intros d y. rewrite Hq', Hq, Hv, list_elem_of_singleton, elem_of_cons. destruct (decide (y = x)) as [->|]; tauto.
  - lia.
Qed.

Lemma meet_conflicted_all (v : gset Id) ids s :
  foldl (meet_conflicted ctx v) s ids = foldl (meet ctx) s (filter (.∉ v) ids).
Proof.
  revert s. induction ids as [|x ids IH]; intros s; simpl; [done|]. rewrite filter_cons. unfold meet_conflicted at 2.
  destruct (decide (x ∈ v)), (decide (x ∉ v)); try done; apply IH.
Qed.

(** ** The unconflicted walk *)

Section unconflicted.
Context (seeds : Id → Prop).
Definition reaches_auth (x : Id) : Prop := ∃ v, seeds v ∧ rtc (auth_of ctx) v x.

Record chain_walk s : Prop := {
  cw_sound x : x ∈ s.1 → reaches_auth x;
  cw_queue d x : (d, x) ∈ s.2 → x ∈ s.1 ∧ ∃ ev, ctx !! x = Some ev ∧ d = depth ev;
  cw_closed x a : x ∈ s.1 → x ∉ s.2.*2 → auth_of ctx x a → a ∈ s.1;
  cw_seeds x : seeds x → x ∈ s.1;
  cw_work : work s ≤ size ctx
}.

Lemma chain_walk_start l : (∀ x, seeds x ↔ x ∈ l) → chain_walk (foldl (meet ctx) (∅, []) l).
Proof.
  intros Hl. destruct (meet_all l (∅, [])) as [Hv Hq Hw]. simpl in *. split.
  - intros x [?|Hx]%Hv; [set_solver|]. exists x. split; [by apply Hl|done].
  - intros d x [Hx|(Hx & _ & ev & Hev & ->)]%Hq; [by apply elem_of_nil in Hx|]. split; [apply Hv; by right|by exists ev].
  - intros x a [?|Hx]%Hv Hn (ev & Hev & Ha); [set_solver|]. destruct Hn. apply list_elem_of_fmap. exists (depth ev, x).
    split; [done|]. apply Hq. right. split_and!; [done|set_solver|by exists ev].
  - intros x Hx%Hl. apply Hv. by right.
  - etrans; [exact Hw|]. unfold work. simpl. rewrite difference_empty_L, size_dom. lia.
Qed.

Lemma catch_up_spec c_depth (fuel : nat) s :
  chain_walk s → work s ≤ fuel →
  ∃ s', catch_up ctx c_depth fuel s = Some s' ∧ chain_walk s' ∧ ∀ d x, (d, x) ∈ s'.2 → (d < c_depth)%Z.
Proof.
  revert s. induction fuel as [|fuel IH]; intros [vis q] Hs Hf; simpl.
  all: destruct (heap_pop queue_cmp q) as [[[d x] q']|] eqn:Hpop;
    [|apply heap_pop_None in Hpop as ->; exists (vis, []); split_and!; [done|done|intros ? ? Hx; by apply elem_of_nil in Hx]].
  all: pose proof (heap_pop_perm _ _ _ _ Hpop) as Hperm.
  all: assert (∀ d' y, (d', y) ∈ q → (d' ≤ d)%Z) as Hmax by
    (intros d' y Hy; pose proof (heap_pop_max (λ e, e) queue_cmp q (d, x) q' (d', y) Hpop Hy) as Hle;
     unfold cmp_le, cmp_on, queue_cmp, cmp_pair, then_with in Hle; simpl in Hle; destruct (Z.compare_spec d' d); [lia|lia|done]).
  all: destruct (Z.ltb_spec d c_depth) as [Hlt|Hge];
    [exists (vis, q); split_and!; [done|done|]; intros d' y Hy; specialize (Hmax d' y Hy); lia|].
  { unfold work in Hf. simpl in Hf. rewrite Hperm in Hf. simpl in Hf. lia. }
  destruct (cw_queue _ Hs d x) as [Hx (ev & Hev & ->)]; [simpl; rewrite Hperm; left|]. rewrite Hev.
  destruct (meet_all (auth_events ev) (vis, q')) as [Hv Hq Hw]. simpl in *.
  set (s' := foldl (meet ctx) (vis, q') (auth_events ev)) in *.
  assert (work (vis, q') + 1 ≤ work (vis, q)) as Hwork by (unfold work; simpl; rewrite Hperm; simpl; lia).
  apply IH; [|lia]. destruct Hs as [Hsound Hqueue Hclosed Hseeds Hsize]. simpl in *. split.
  - intros y [Hy|Hy]%Hv; [by apply Hsound|]. destruct (Hsound x Hx) as (v & Hvs & Hr). exists v. split; [done|].
    eapply rtc_r; [exact Hr|]. by exists ev.
  - intros d' y [Hy|(Hy & _ & ev' & Hev' & ->)]%Hq.
    + destruct (Hqueue d' y) as [? ?]; [rewrite Hperm; by right|]. split; [apply Hv; by left|done].
    + split; [apply Hv; by right|by exists ev'].
  - intros y a Hy Hn Ha. apply Hv. destruct (decide (y = x)) as [->|Hne].
    { destruct Ha as (ev' & E & Ha). simplify_eq. by right. }
    assert (y ∉ q'.*2) as Hnq.
    { intros ([d' z] & -> & Hz)%list_elem_of_fmap. apply Hn, list_elem_of_fmap. exists (d', z). split; [done|]. apply Hq. by left. }
    destruct (decide (y ∈ vis)) as [Hyv|Hyv].
    + left. apply (Hclosed y); [done| |done]. rewrite Hperm. simpl. rewrite not_elem_of_cons. done.
    + apply Hv in Hy as [?|Hy]; [done|]. exfalso. destruct Ha as (ev' & Hev' & Ha). apply Hn, list_elem_of_fmap.
      exists (depth ev', y). split; [done|]. apply Hq. right. split_and!; [done..|by exists ev'].
  - intros y Hy. apply Hv. left. by apply Hseeds.
  - lia.
Qed.

(** Down to its depth the walk knows everything above. *)
Lemma caught_up s c_depth x ev :
  chain_walk s → (∀ d y, (d, y) ∈ s.2 → (d < c_depth)%Z) → auth_deepening → ctx !! x = Some ev → (c_depth ≤ depth ev)%Z →
  x ∈ s.1 ↔ reaches_auth x.
Proof.
  intros Hs Hd Hdeep Hx Hle. split; [apply (cw_sound _ Hs)|]. intros (v & Hv & Hr). apply (cw_seeds _ Hs) in Hv.
  assert (∀ y yev, rtc (auth_of ctx) y x → ctx !! y = Some yev → (depth ev ≤ depth yev)%Z) as Hup.
  { clear -Hx Hdeep. intros y yev Hyx. revert yev. induction Hyx as [y|y z x Hyz Hzx IH]; intros yev Hy; [simplify_eq; lia|].
    assert (∃ zev, ctx !! z = Some zev) as [zev Hz].
    { apply rtc_inv in Hzx as [->|(z' & (zev & Hz & _) & _)]; [by exists ev|by exists zev]. }
    specialize (IH Hx zev Hz). pose proof (Hdeep y z yev zev Hyz Hy Hz). lia. }
  revert Hv. induction Hr as [y|y z x Hyz Hzx IH]; intros Hy; [done|]. apply IH; [done|done|].
  pose proof Hyz as (yev & Hyev & _). apply (cw_closed _ Hs y z Hy); [|done].
  intros ([d y'] & -> & Hq)%list_elem_of_fmap. simpl in *. destruct (cw_queue _ Hs d y' Hq) as [_ (yev' & E & ->)]. simplify_eq.
  specialize (Hd _ _ Hq). specialize (Hup y' yev (rtc_l _ _ _ _ Hyz Hzx) Hyev). lia.
Qed.
End unconflicted.

(** ** The conflicted walk *)

Section conflicted.
Context (U C' : Id → Prop).
Hypothesis Hdeep : auth_deepening.
Abbreviation in_u := (reaches_auth U).
Abbreviation in_c := (reaches_auth C').

Record diff_walk c (diff : gset Id) : Prop := {
  dw_sound x : x ∈ c.1 → in_c x;
  dw_queue d x : (d, x) ∈ c.2 → x ∈ c.1 ∧ ∃ ev, ctx !! x = Some ev ∧ d = depth ev;
  dw_settled x : x ∈ c.1 → x ∈ dom ctx → x ∉ c.2.*2 → in_u x ∨ x ∈ diff;
  dw_diff x : x ∈ diff → x ∈ dom ctx ∧ in_c x ∧ ¬ in_u x ∧ ∀ a, auth_of ctx x a → a ∈ c.1 ∨ in_u a;
  dw_seeds x : C' x → x ∈ c.1 ∨ in_u x
}.

Lemma in_u_step x a : in_u x → auth_of ctx x a → in_u a.
Proof. intros (v & Hv & Hr) Ha. exists v. split; [done|by eapply rtc_r]. Qed.

Lemma diff_walk_end (vis : gset Id) diff :
  diff_walk (vis, []) diff → ∀ x, x ∈ diff ↔ x ∈ dom ctx ∧ in_c x ∧ ¬ in_u x.
Proof.
  intros [_ _ Hset Hdiff Hseeds] x. split; [intros Hx; by destruct (Hdiff x Hx) as (? & ? & ? & _)|].
  intros (Hd & (v & Hv & Hr) & Hn). apply Hseeds in Hv as Hvis. simpl in Hset, Hvis. clear Hv.
  assert (∀ y, y ∈ vis → y ∈ dom ctx → ¬ in_u y → y ∈ diff) as Hsettled.
  { intros y Hy Hyd Hyn. destruct (Hset y Hy Hyd) as [?|?]; [apply not_elem_of_nil|done|done]. }
  revert Hvis. induction Hr as [y|y z x Hyz Hzx IH]; intros Hy; [destruct Hy; [by apply Hsettled|done]|].
  apply IH; [done|done|]. destruct Hy as [Hy|Hy]; [|right; by eapply in_u_step].
  assert (y ∈ dom ctx) as Hyd by (destruct Hyz as (ev & Hev & _); by eapply elem_of_dom_2).
  destruct (Hset y Hy Hyd (not_elem_of_nil _)) as [Hu|Hdf]; [right; by eapply in_u_step|]. by apply (Hdiff y Hdf).
Qed.

Lemma conflicted_walk_spec (fuel : nat) u c diff :
  chain_walk U u → diff_walk c diff → work c ≤ fuel →
  ∃ diff', conflicted_walk ctx fuel u c diff = Some diff' ∧ ∀ x, x ∈ diff' ↔ x ∈ dom ctx ∧ in_c x ∧ ¬ in_u x.
Proof using Hdeep.
  revert u c diff. induction fuel as [|fuel IH]; intros u [vis q] diff Hu Hc Hf; simpl.
  all: destruct (heap_pop queue_cmp q) as [[[d x] q']|] eqn:Hpop;
    [|apply heap_pop_None in Hpop as ->; exists diff; split; [done|by apply (diff_walk_end vis)]].
  all: pose proof (heap_pop_perm _ _ _ _ Hpop) as Hperm.
  { unfold work in Hf. simpl in Hf. rewrite Hperm in Hf. simpl in Hf. lia. }
  destruct Hc as [Hsound Hqueue Hset Hdiff Hseeds]. simpl in *.
  destruct (Hqueue d x) as [Hx (ev & Hev & ->)]; [rewrite Hperm; left|].
  destruct (catch_up_spec U (depth ev) (size ctx) u Hu (cw_work _ _ Hu)) as (u' & -> & Hu' & Hdeeper).
  pose proof (caught_up U u' (depth ev) x ev Hu' Hdeeper Hdeep Hev ltac:(lia)) as Hxu.
  assert (work (vis, q') + 1 ≤ work (vis, q)) as Hwork by (unfold work; simpl; rewrite Hperm; simpl; lia).
  assert (∀ y, y ≠ x → y ∉ q'.*2 → y ∉ q.*2) as Hnq.
  { intros y Hne Hy. rewrite Hperm. simpl. by rewrite not_elem_of_cons. }
  assert (∀ d' y, (d', y) ∈ q' → (d', y) ∈ q) as Hsub by (intros d' y Hy; rewrite Hperm; by right).
  destruct (decide (x ∈ u'.1)) as [Hin|Hni].
  { apply IH; [done| |lia]. split; simpl; [done| | |done|done].
    - intros d' y Hy. by apply Hqueue, Hsub.
    - intros y Hy Hyd Hyn. destruct (decide (y = x)) as [->|Hne]; [left; by apply Hxu|]. by apply Hset, Hnq. }
  rewrite Hev, meet_conflicted_all. set (ids := filter (.∉ u'.1) (auth_events ev)).
  destruct (meet_all ids (vis, q')) as [Hv Hq Hw]. simpl in *. set (c' := foldl (meet ctx) (vis, q') ids) in *.
  apply IH; [done| |lia].
  assert (∀ a, auth_of ctx x a → a ∈ c'.1 ∨ in_u a) as Hnext.
  { intros a (ev' & E & Ha). simplify_eq. destruct (decide (a ∈ u'.1)) as [Hau|Hau]; [right; by apply (cw_sound _ _ Hu')|left].
    apply Hv. right. unfold ids. by apply list_elem_of_filter. }
  split.
  - intros y [Hy|Hy]%Hv; [by apply Hsound|]. unfold ids in Hy. apply list_elem_of_filter in Hy as [_ Hy].
    destruct (Hsound x Hx) as (v & Hvs & Hr). exists v. split; [done|]. eapply rtc_r; [exact Hr|]. by exists ev.
  - intros d' y [Hy|(Hy & _ & ev' & Hev' & ->)]%Hq; (split; [apply Hv|]).
    + left. by apply (Hqueue d' y), Hsub.
    + by apply (Hqueue d' y), Hsub.
    + by right.
    + by exists ev'.
  - intros y Hy Hyd Hyn. rewrite elem_of_union, elem_of_singleton. destruct (decide (y = x)) as [->|Hne]; [right; by left|].
    assert (y ∉ q'.*2) as Hnq'.
    { intros ([d' z] & -> & Hz)%list_elem_of_fmap. apply Hyn, list_elem_of_fmap. exists (d', z). split; [done|]. apply Hq. by left. }
    destruct (decide (y ∈ vis)) as [Hyv|Hyv]; [destruct (Hset y Hyv Hyd (Hnq y Hne Hnq')); [by left|right; by right]|].
    apply Hv in Hy as [?|Hy]; [done|]. exfalso. apply elem_of_dom in Hyd as [ev' Hev']. apply Hyn, list_elem_of_fmap.
    exists (depth ev', y). split; [done|]. apply Hq. right. split_and!; [done..|by exists ev'].
  - intros y [->%elem_of_singleton|Hy]%elem_of_union.
    + split_and!; [by eapply elem_of_dom_2|by apply Hsound|by rewrite <-Hxu|done].
    + destruct (Hdiff y Hy) as (? & ? & ? & Ha). split_and!; [done..|]. intros a Hya. destruct (Ha a Hya) as [?|?]; [left|by right].
      apply Hv. by left.
  - intros y Hy. destruct (Hseeds y Hy) as [?|?]; [left; apply Hv; by left|by right].
Qed.
End conflicted.

(** C28: when claimed depths grow along the citations the walk returns exactly
    the known events in the auth chains of the conflicted events that are not
    in the auth chains of the agreed state, whatever the iteration order; it
    never panics. *)
Theorem auth_chain_diff_exact `{Ho : HashOrder} (unconflicted_state : gmap (string * string) Id) (conflicted : gset Id) :
  auth_deepening →
  ∃ diff, compute_auth_chain_diff unconflicted_state conflicted ctx = Some diff
    ∧ ∀ x, x ∈ diff ↔ x ∈ dom ctx ∧ (∃ v, v ∈ conflicted ∧ rtc (auth_of ctx) v x)
        ∧ ¬ ∃ k id, unconflicted_state !! k = Some id ∧ rtc (auth_of ctx) id x.
Proof.
  intros Hdeep. set (U := λ id, ∃ k, unconflicted_state !! k = Some id).
  assert (∀ x, U x ↔ x ∈ state_values unconflicted_state) as HU.
  { intros x. unfold U. by rewrite elem_of_state_values. }
  pose proof (chain_walk_start U _ HU) as Hu.
  destruct (meet_all (filter (.∉ (foldl (meet ctx) (∅, []) (state_values unconflicted_state)).1) (hs_iter conflicted)) (∅, [])) as [Hv Hq Hw].
  destruct (conflicted_walk_spec U (λ x, x ∈ conflicted) Hdeep (size ctx) _
    (foldl (meet_conflicted ctx (foldl (meet ctx) (∅, []) (state_values unconflicted_state)).1) (∅, []) (hs_iter conflicted)) ∅ Hu)
    as (diff & Hd & Hx).
  - rewrite meet_conflicted_all. split.
    + intros x [?|Hx]%Hv; [set_solver|]. apply list_elem_of_filter in Hx as [_ Hx%elem_of_hs_iter]. by exists x.
    + intros d x [Hx|(Hx & _ & ev & Hev & ->)]%Hq; [by apply elem_of_nil in Hx|]. split; [apply Hv; by right|by exists ev].
    + intros x [?|Hx]%Hv Hxd Hn; [set_solver|]. exfalso. apply elem_of_dom in Hxd as [ev Hev]. apply Hn, list_elem_of_fmap.
      exists (depth ev, x). split; [done|]. apply Hq. right. split_and!; [done|set_solver|by exists ev].
    + intros x Hx. by apply elem_of_empty in Hx.
    + intros x Hx. destruct (decide (x ∈ (foldl (meet ctx) (∅, []) (state_values unconflicted_state)).1)) as [Hin|Hni].
      * right. by apply (cw_sound _ _ Hu).
      * left. apply Hv. right. apply list_elem_of_filter. split; [done|by apply elem_of_hs_iter].
  - rewrite meet_conflicted_all. etrans; [exact Hw|]. unfold work. simpl. rewrite difference_empty_L, size_dom. lia.
  - exists diff. split; [exact Hd|]. intros x. rewrite Hx. unfold reaches_auth, U. naive_solver.
Qed.
End spec.

(** ** On the room of [StreamRoom] *)

Lemma auth_deepening_check {Id C} `{EventId Id} (ctx : gmap Id (LeanEvent Id C)) :
  bool_decide (map_Forall (λ _ ev, Forall (λ a, Forall (λ aev, (depth aev < depth ev)%Z) (option_list (ctx !! a))) (auth_events ev)) ctx) = true →
  auth_deepening ctx.
Proof.
  intros Hb%bool_decide_eq_true_1 x a ev aev (ev' & E & Ha) Hx Hax. rewrite Hx in E. injection E as <-. specialize (Hb x ev Hx). cbn beta in Hb.
  rewrite Forall_forall in Hb. specialize (Hb a Ha). rewrite Hax in Hb. by apply Forall_cons in Hb as [? _].
Qed.

Lemma auth_chain_diff_exact_witness :
  ∃ diff, compute_auth_chain_diff (H:=string_event_id) (Ho:=order_forward) {[ (M_ROOM_CREATE, "") := "$create" ]}
      {[ "$topic_b" ]} StreamRoom.context = Some diff
    ∧ ∀ x, x ∈ diff → x ∈ dom StreamRoom.context ∧ x ≠ "$create".
Proof.
  destruct (auth_chain_diff_exact (H:=string_event_id) (Ho:=order_forward) StreamRoom.context
    {[ (M_ROOM_CREATE, "") := "$create" ]} {[ "$topic_b" ]}) as (diff & Hd & Hx).
  { apply auth_deepening_check. vm_compute. reflexivity. }
  exists diff. split; [exact Hd|]. intros x (Hxd & _ & Hn)%Hx. split; [exact Hxd|]. intros ->. apply Hn.
  exists (M_ROOM_CREATE, ""), "$create". split; [reflexivity|apply rtc_refl].
Defined.
