(* ===== verification/Digest.v ===== *)
(** * Digests and the bits of their bytes

    What the Merkle files share: SHA-256 as a parameter, the class [Sha256]
    (any function to 32 bytes), big-endian integers, and the 256 bits of a
    digest, most significant first, by which it is a position in a tree. *)
From stdpp Require Import prelude gmap strings sorting.
From Stdlib Require String.
From Stdlib Require Import Ascii.
From S2P Require Import Prelude Json JsonText JsonTextProps.

Abbreviation digest_bytes := (list ascii).

(** SHA-256 as the crate [sha2] computes it. *)
Class Sha256 := {
  sha256 : bytes → digest_bytes;
  sha256_length b : length (sha256 b) = 32
}.

(** [hash_parts]: the parts are fed to one hasher. *)
Definition hash_parts `{Sha256} (parts : list bytes) : digest_bytes := sha256 (concat parts).

(** No two different inputs of the list have one digest. *)
Definition collision_free `{Sha256} (inputs : list bytes) : Prop :=
  ∀ a b, a ∈ inputs → b ∈ inputs → sha256 a = sha256 b → a = b.

Lemma collision_free_sub `{Sha256} (l l' : list bytes) : l ⊆ l' → collision_free l' → collision_free l.
Proof. intros Hs Hc a b Ha%Hs Hb%Hs. by apply Hc. Qed.

(** ** Integers *)

(** [to_be_bytes] of an integer of [k] bytes. *)
Fixpoint be (k : nat) (n : N) : bytes :=
  match k with
  | O => []
  | S k => be k (n / 256) ++ [ascii_of_N (n mod 256)]
  end.

(** [u64::try_from(len).unwrap_or(u64::MAX)]. *)
Definition u64_of_len (b : bytes) : N :=
  let n := N.of_nat (length b) in if (n <=? USIZE_MAX)%N then n else USIZE_MAX.

Lemma length_be k n : length (be k n) = k.
Proof. revert n. induction k as [|k IH]; intros n; [done|]. simpl. rewrite length_app, IH. simpl. lia. Qed.

Lemma ascii_of_N_inj n m : (n < 256)%N → (m < 256)%N → ascii_of_N n = ascii_of_N m → n = m.
Proof. intros Hn Hm E. by rewrite <-(code_ascii n), <-(code_ascii m), E. Qed.

Lemma be_inj k n m : (n < 256 ^ N.of_nat k)%N → (m < 256 ^ N.of_nat k)%N → be k n = be k m → n = m.
Proof.
  revert n m. induction k as [|k IH]; intros n m Hn Hm; [simpl in *; lia|].
  rewrite Nat2N.inj_succ, N.pow_succ_r' in Hn, Hm. simpl. intros [E1 E2]%app_inj_2; [|done]. injection E2 as E2.
  apply ascii_of_N_inj in E2; [|apply N.mod_lt; lia..].
  apply IH in E1; [|apply N.Div0.div_lt_upper_bound; lia..].
  rewrite (N.div_mod n 256), (N.div_mod m 256) by lia. by rewrite E1, E2.
Qed.

(** ** Bits *)

Lemma code_testbit (n i : N) : (n < 256)%N → N.testbit (code (ascii_of_N n)) i = N.testbit n i.
Proof. intros Hn. by rewrite code_ascii. Qed.

Lemma testbit_high (n i : N) : (n < 256)%N → (8 ≤ i)%N → N.testbit n i = false.
Proof.
  intros Hn Hi. destruct (N.eq_dec n 0%N) as [->|Hz]; [apply N.bits_0|].
  apply N.bits_above_log2. apply N.log2_lt_pow2; [lia|].
  eapply N.lt_le_trans; [exact Hn|]. change 256%N with (2 ^ 8)%N. apply N.pow_le_mono_r; lia.
Qed.

Lemma lt_256_bits (n : N) : (∀ i, (8 ≤ i)%N → N.testbit n i = false) → (n < 256)%N.
Proof.
  intros Hb. destruct (N.eq_dec n 0%N) as [->|Hz]; [lia|]. apply N.log2_lt_cancel.
  change (N.log2 256) with 8%N. destruct (N.lt_ge_cases (N.log2 n) 8) as [?|Hge]; [done|].
  pose proof (N.bit_log2 n Hz) as Hbit. rewrite Hb in Hbit by done. done.
Qed.

Lemma code_ext (a b : ascii) : (∀ i, (i < 8)%N → N.testbit (code a) i = N.testbit (code b) i) → a = b.
Proof.
  intros Hi. rewrite <-(ascii_N_embedding a), <-(ascii_N_embedding b). f_equal. apply N.bits_inj. intros i.
  destruct (N.lt_ge_cases i 8) as [?|?]; [by apply Hi|].
  rewrite !testbit_high by (done || apply code_lt). done.
Qed.

(** The bit of a digest at a depth. *)
Definition digest_bit (key : digest_bytes) (depth : nat) : N :=
  N.land (N.shiftr (code (nth (depth / 8) key zero)) (N.of_nat (7 - depth mod 8))) 1.

Definition goes_right (key : digest_bytes) (depth : nat) : bool :=
  N.testbit (code (nth (depth / 8) key zero)) (N.of_nat (7 - depth mod 8)).

Lemma digest_bit_right key depth : digest_bit key depth = (if goes_right key depth then 1 else 0)%N.
Proof.
  unfold digest_bit, goes_right. change 1%N with (N.ones 1) at 1. rewrite N.land_ones, <-N.bit0_mod, N.shiftr_spec' by lia.
  by destruct (N.testbit _ _).
Qed.

Lemma digest_bit_eqb key depth : (digest_bit key depth =? 0)%N = negb (goes_right key depth).
Proof. rewrite digest_bit_right. by destruct (goes_right key depth). Qed.

Lemma goes_right_byte key i j : j < 8 → goes_right key (8 * i + j) = N.testbit (code (nth i key zero)) (N.of_nat (7 - j)).
Proof.
  intros Hj. unfold goes_right. replace ((8 * i + j) / 8) with i by (apply (Nat.div_unique _ 8 i j); lia).
  by replace ((8 * i + j) mod 8) with j by (apply (Nat.mod_unique _ 8 i j); lia).
Qed.

Lemma digest_ext (k k' : digest_bytes) : length k = 32 → length k' = 32 →
  (∀ d, d < 256 → goes_right k d = goes_right k' d) → k = k'.
Proof.
  intros Hl Hl' Hb. apply (nth_ext k k' zero zero); [congruence|]. intros i Hi. rewrite Hl in Hi.
  apply code_ext. intros j Hj. specialize (Hb (8 * i + (7 - N.to_nat j)) ltac:(lia)).
  rewrite !goes_right_byte in Hb by lia. by replace (N.of_nat (7 - (7 - N.to_nat j))) with j in Hb by lia.
Qed.

(** A check of that: the inputs are filed under their digests. *)
Fixpoint distinct_digests `{Sha256} (seen : gmap digest_bytes bytes) (l : list bytes) : bool :=
  match l with
  | [] => true
  | b :: l => match seen !! sha256 b with
              | Some b' => bool_decide (b' = b) && distinct_digests seen l
              | None => distinct_digests (<[sha256 b := b]> seen) l
              end
  end.

Lemma distinct_digests_filed `{Sha256} seen l : distinct_digests seen l = true →
  ∃ f : gmap digest_bytes bytes, seen ⊆ f ∧ ∀ a, a ∈ l → f !! sha256 a = Some a.
Proof.
  revert seen. induction l as [|b l IH]; intros seen Hc; [exists seen; split; [done|]; by intros a ?%elem_of_nil|].
  cbn [distinct_digests] in Hc. destruct (seen !! sha256 b) as [b'|] eqn:E.
  - apply andb_prop in Hc as [->%bool_decide_eq_true_1 Hc]. destruct (IH seen Hc) as (f & Hs & Hf). exists f.
    split; [done|]. intros a [->|?]%elem_of_cons; [by eapply lookup_weaken|by apply Hf].
  - destruct (IH _ Hc) as (f & Hs & Hf). exists f. split; [etrans; [by apply insert_subseteq|exact Hs]|].
    intros a [->|?]%elem_of_cons; [|by apply Hf]. eapply lookup_weaken; [apply lookup_insert_eq|exact Hs].
Qed.

Lemma collision_free_check `{Sha256} (l : list bytes) : distinct_digests ∅ l = true → collision_free l.
Proof.
  intros (f & _ & Hf)%distinct_digests_filed a b Ha%Hf Hb%Hf E. rewrite E in Ha. congruence.
Qed.

(** ** A toy digest

    32 lanes mixed in turn with the bytes of the input: without a collision
    among the few inputs of an example. *)

Definition toy_step (s : N * list N) (c : ascii) : N * list N :=
  match s.2 with
  | [] => s
  | x :: rest => let y := ((x * 5 + s.1 * 3 + code c + 1) mod 256)%N in (y, rest ++ [y])
  end.
Definition toy_digest (b : bytes) : list ascii := ascii_of_N <$> (foldl toy_step (0%N, replicate 32 0%N) b).2.

Lemma length_toy_digest b : length (toy_digest b) = 32.
Proof.
  unfold toy_digest. rewrite length_fmap. assert (length (replicate 32 0%N) = 32) as Hl by apply length_replicate.
  revert Hl. generalize 0%N (replicate 32 0%N). induction b as [|c b IH]; intros n l Hl; [done|]. cbn [foldl]. unfold toy_step at 2.
  cbn [fst snd]. destruct l as [|x rest]; [done|]. apply IH. rewrite length_app. simpl in *. lia.
Qed.
Definition toy_sha : Sha256 := {| sha256 := toy_digest; sha256_length := length_toy_digest |}.
