(* ===== verification/SparseTree.v ===== *)
(** * Sparse Merkle trees, abstractly

    A tree of fixed height whose leaves are found by the bits of a key, over
    any type of node values: what its root commits to, the path of siblings
    of a key, and what climbing such a path says.  The commitment to a room
    state and the causal set are two instances. *)
From stdpp Require Import prelude list.
From S2P Require Import Prelude.

Section sparse.
Context {K V : Type} (right : K → nat → bool) (node : nat → V → V → V) (empty_leaf : V) (height : nat).
Implicit Types (entries : list (K * V)) (key : K) (d l t : nat) (v : V) (path : list V).

(** ** Definitions

    [l] counts the levels below a node, whose depth is [height - l]. *)

Fixpoint empty_at l : V :=
  match l with
  | O => empty_leaf
  | S l => let e := empty_at l in node (height - S l) e e
  end.

Definition side (b : bool) d entries : list (K * V) := filter (λ e, right e.1 d = b) entries.

Fixpoint tree l entries : V :=
  match entries, l with
  | [], _ => empty_at l
  | e :: _, O => e.2
  | _, S l' => node (height - l) (tree l' (side false (height - l) entries)) (tree l' (side true (height - l) entries))
  end.

(** The entries that share the first [t] bits of a key. *)
Fixpoint under key t entries : list (K * V) :=
  match t with
  | O => entries
  | S d => side (right key d) d (under key d entries)
  end.

(** The siblings along a key, from depth [t] to the root. *)
Fixpoint path_to key t entries : list V :=
  match t with
  | O => []
  | S d => tree (height - t) (side (negb (right key d)) d (under key d entries)) :: path_to key d entries
  end.

Fixpoint climb key d v path : V :=
  match path with
  | [] => v
  | s :: path =>
      let d := pred d in
      climb key d (if right key d then node d s v else node d v s) path
  end.

(** The nodes that are hashed: for a tree, for the empty trees, for a climb. *)
Fixpoint tree_nodes l entries : list (nat * V * V) :=
  match entries, l with
  | [], _ | _, O => []
  | _, S l' =>
      let left := side false (height - l) entries in
      let right := side true (height - l) entries in
      (height - l, tree l' left, tree l' right) :: tree_nodes l' left ++ tree_nodes l' right
  end.

Fixpoint empty_nodes l : list (nat * V * V) :=
  match l with
  | O => []
  | S l => (height - S l, empty_at l, empty_at l) :: empty_nodes l
  end.

Fixpoint climb_nodes key d v path : list (nat * V * V) :=
  match path with
  | [] => []
  | s :: path =>
      let d := pred d in
      (if right key d then (d, s, v) else (d, v, s))
        :: climb_nodes key d (if right key d then node d s v else node d v s) path
  end.

(** ** The tree and its paths *)

Lemma tree_node l entries :
  tree (S l) entries = node (height - S l) (tree l (side false (height - S l) entries)) (tree l (side true (height - S l) entries)).
Proof. destruct entries as [|e entries]; [|done]. simpl. by destruct l. Qed.

Lemma elem_of_side e b d entries : e ∈ side b d entries ↔ right e.1 d = b ∧ e ∈ entries.
Proof using Type. unfold side. by rewrite list_elem_of_filter. Qed.

Lemma side_nil d entries : side false d entries = [] → side true d entries = [] → entries = [].
Proof using Type.
  destruct entries as [|e entries]; [done|]. unfold side. rewrite !filter_cons.
  destruct (right e.1 d); do 2 (case_decide; try done).
Qed.

Lemma elem_of_under e key t entries : e ∈ under key t entries ↔ e ∈ entries ∧ ∀ d, d < t → right e.1 d = right key d.
Proof using Type.
  clear node empty_leaf height.
  induction t as [|t IH]; simpl; [split; [intros ?; split; [done|lia]|tauto]|]. rewrite elem_of_side, IH. split.
  - intros (Hr & He & Hd). split; [done|]. intros d Ht. destruct (decide (d = t)) as [->|]; [done|]. apply Hd. lia.
  - intros (He & Hd). split_and!; [apply Hd; lia|done|]. intros d Ht. apply Hd. lia.
Qed.

Lemma length_path_to key t entries : length (path_to key t entries) = t.
Proof. induction t as [|t IH]; [done|]. simpl. by rewrite IH. Qed.

(** One step up the path of a key. *)
Lemma tree_step key d entries : d < height →
  tree (height - d) entries =
  (if right key d
   then node d (tree (height - S d) (side (negb (right key d)) d entries)) (tree (height - S d) (side (right key d) d entries))
   else node d (tree (height - S d) (side (right key d) d entries)) (tree (height - S d) (side (negb (right key d)) d entries))).
Proof.
  intros Hd. replace (height - d) with (S (height - S d)) by lia. rewrite tree_node.
  replace (height - S (height - S d)) with d by lia. by destruct (right key d).
Qed.

Lemma climb_path key t entries : t ≤ height →
  climb key t (tree (height - t) (under key t entries)) (path_to key t entries) = tree height entries.
Proof.
  induction t as [|t IH]; intros Ht; [by rewrite Nat.sub_0_r|]. cbn [path_to climb pred under]. rewrite <-IH by lia.
  f_equal. by rewrite (tree_step key t (under key t entries)) by lia.
Qed.

(** ** Running over a table of the empty trees

    The same lists without computing a tree more than once. *)

Section run.
Context (empties : list V).

Fixpoint tree_run l entries : V * list (nat * V * V) :=
  match entries, l with
  | [], _ => (nth l empties empty_leaf, [])
  | e :: _, O => (e.2, [])
  | _, S l' =>
      let l_run := tree_run l' (side false (height - l) entries) in
      let r_run := tree_run l' (side true (height - l) entries) in
      (node (height - l) l_run.1 r_run.1, (height - l, l_run.1, r_run.1) :: l_run.2 ++ r_run.2)
  end.

Definition empty_run l : list (nat * V * V) :=
  (λ m, let e := nth m empties empty_leaf in (height - S m, e, e)) <$> reverse (seq 0 l).

Lemma tree_run_eq l entries : (∀ m, m ≤ l → nth m empties empty_leaf = empty_at m) →
  tree_run l entries = (tree l entries, tree_nodes l entries).
Proof.
  revert entries. induction l as [|l IH]; intros entries He.
  - destruct entries as [|e entries]; [|done]. cbn [tree_run tree tree_nodes]. by rewrite He.
  - destruct entries as [|e entries]; cbn [tree_run tree tree_nodes]; [by rewrite He|].
    rewrite !IH by (intros m Hm; apply He; lia). done.
Qed.

Lemma empty_run_eq l : (∀ m, m ≤ l → nth m empties empty_leaf = empty_at m) → empty_run l = empty_nodes l.
Proof.
  intros He. unfold empty_run. induction l as [|l IH]; [done|].
  rewrite seq_S, reverse_app. cbn [Nat.add reverse rev_append app fmap list_fmap empty_nodes]. rewrite He by lia. f_equal.
  apply IH. intros m Hm. apply He. lia.
Qed.
End run.

(** ** Values and collisions *)

Section sound.
Context (P : nat → V → V → Prop).
Hypothesis node_inj : ∀ d a b a' b', P d a b → P d a' b' → node d a b = node d a' b' → a = a' ∧ b = b'.

Definition good (nodes : list (nat * V * V)) : Prop := Forall (λ n, P n.1.1 n.1.2 n.2) nodes.

Lemma good_empty l m : m ≤ l → good (empty_nodes l) → good (empty_nodes m).
Proof. induction 1 as [|l Hm IH]; [done|]. intros Hg. apply IH. by apply Forall_cons in Hg as [_ Hg]. Qed.

(** A tree with an entry is not an empty one. *)
Lemma tree_not_empty l entries : l ≤ height →
  good (tree_nodes l entries) → good (empty_nodes height) → (∀ e, e ∈ entries → e.2 ≠ empty_leaf) →
  tree l entries = empty_at l → entries = [].
Proof.
  revert entries. induction l as [|l IH]; intros entries Hl Hg He Hne Heq.
  - destruct entries as [|e entries]; [done|]. simpl in Heq. destruct (Hne e); [left|done].
  - destruct entries as [|e entries]; [done|]. rewrite tree_node in Heq. cbn [empty_at] in Heq.
    cbn [tree_nodes] in Hg. apply Forall_cons in Hg as [Hn Hg]. cbn [fst snd] in Hn. apply Forall_app in Hg as [Hg1 Hg2].
    assert (P (height - S l) (empty_at l) (empty_at l)) as Hp.
    { pose proof (good_empty height (S l) Hl He) as Hg. by apply Forall_cons in Hg as [Hg _]. }
    destruct (node_inj _ _ _ _ _ Hn Hp Heq) as [E1 E2]. apply (side_nil (height - S l)).
    + apply IH; [lia|done|done| |done]. intros x [_ Hx]%elem_of_side. by apply Hne.
    + apply IH; [lia|done|done| |done]. intros x [_ Hx]%elem_of_side. by apply Hne.
Qed.

(** The nodes on the way of a key. *)
Lemma good_under key t entries : t ≤ height → good (tree_nodes height entries) → good (tree_nodes (height - t) (under key t entries)).
Proof.
  intros Ht Hg. induction t as [|t IH]; [by rewrite Nat.sub_0_r|]. specialize (IH ltac:(lia)). cbn [under].
  replace (height - t) with (S (height - S t)) in IH by lia.
  destruct (under key t entries) as [|e rest] eqn:E; [unfold side; rewrite filter_nil; by destruct (height - S t)|].
  cbn [tree_nodes] in IH. apply Forall_cons in IH as [_ IH]. apply Forall_app in IH as [H1 H2].
  replace (height - S (height - S t)) with t in * by lia. by destruct (right key t).
Qed.

Lemma good_step key d entries : d < height → good (tree_nodes height entries) → good (empty_nodes height) →
  P d (tree (height - S d) (side false d (under key d entries))) (tree (height - S d) (side true d (under key d entries))).
Proof.
  intros Hd Hg He. pose proof (good_under key d entries ltac:(lia) Hg) as Hu.
  replace (height - d) with (S (height - S d)) in Hu by lia. destruct (under key d entries) as [|e rest].
  - unfold side. rewrite !filter_nil. pose proof (good_empty height (S (height - S d)) ltac:(lia) He) as Hp.
    apply Forall_cons in Hp as [Hp _]. cbn [fst snd] in Hp. replace (height - S (height - S d)) with d in Hp by lia.
    by destruct (height - S d).
  - cbn [tree_nodes] in Hu. apply Forall_cons in Hu as [Hu _]. cbn [fst snd] in Hu.
    by replace (height - S (height - S d)) with d in Hu by lia.
Qed.

(** A climb that ends at the root starts at the node it claims, along the
    siblings of the key. *)
Lemma climb_sound key entries t v path : t ≤ height → length path = t →
  good (climb_nodes key t v path) → good (tree_nodes height entries) → good (empty_nodes height) →
  climb key t v path = tree height entries →
  v = tree (height - t) (under key t entries) ∧ path = path_to key t entries.
Proof.
  revert t v. induction path as [|s path IH]; intros t v Ht Hlen Hc Hg He Heq; simpl in Hlen; subst t.
  { simpl in *. by rewrite Nat.sub_0_r. }
  cbn [climb pred] in Heq. cbn [climb_nodes pred] in Hc. apply Forall_cons in Hc as [Hn Hc].
  destruct (IH (length path) _ ltac:(lia) eq_refl Hc Hg He Heq) as [Ev Epath].
  pose proof (good_step key (length path) entries ltac:(lia) Hg He) as Hp.
  rewrite (tree_step key) in Ev by lia. cbn [path_to under].
  destruct (right key (length path)); cbn [negb fst snd] in *;
    destruct (node_inj _ _ _ _ _ Hn Hp Ev) as [-> ->]; by rewrite <-Epath.
Qed.

(** The climb along the siblings of a key only meets nodes of the tree. *)
Lemma good_path key t entries : t ≤ height → good (tree_nodes height entries) → good (empty_nodes height) →
  good (climb_nodes key t (tree (height - t) (under key t entries)) (path_to key t entries)).
Proof.
  intros Ht Hg He. induction t as [|t IH]; [by apply Forall_nil|]. specialize (IH ltac:(lia)).
  cbn [path_to climb_nodes pred under]. rewrite (tree_step key t) in IH by lia.
  pose proof (good_step key t entries ltac:(lia) Hg He) as Hp.
  apply Forall_cons. destruct (right key t); split; first [exact Hp|exact IH].
Qed.
End sound.
End sparse.
