(* ===== verification/StateMerkle.v ===== *)
(** * Commitments to a resolved state ([src/src/state/merkle.rs])

    A sparse Merkle tree of 256 levels over the entries of a state map, proofs
    that a key is bound to an event or to none, and their verification.  The
    recursions run over the levels left below a node, whose depth is
    [STATE_DEPTH] less that number. *)
From stdpp Require Import prelude gmap strings sorting.
From Stdlib Require String.
From Stdlib Require Import Ascii.
From S2P Require Import Prelude EventTypes Json JsonText JsonTextProps Events AuthDiff AuthDiffProps LtHash Digest SparseTree.

Abbreviation MerkleHash := (list ascii).

Definition STATE_DEPTH : nat := 256.

Definition KEY_DST : bytes := as_bytes "msc4511:state-key:sha256:v1".
Definition LEAF_DST : bytes := as_bytes "msc4511:state-leaf:sha256:v1".
Definition NODE_DST : bytes := as_bytes "msc4511:state-node:sha256:v1".
Definition EMPTY_DST : bytes := as_bytes "msc4511:state-empty:sha256:v1".

Definition encode_pair (event_type state_key : string) : bytes :=
  be 8 (u64_of_len (as_bytes event_type)) ++ as_bytes event_type
    ++ be 8 (u64_of_len (as_bytes state_key)) ++ as_bytes state_key.

(** [StateProofStep]. *)
Record StateProofStep : Type := mkStep { step_hash : MerkleHash }.

Section state_map.
Context {Id : Type} `{EventId Id} `{Sha256}.
Abbreviation shared_state := (gmap (string * string) Id).
Abbreviation entry := (MerkleHash * MerkleHash)%type.
Implicit Types (entries : list entry) (empty : list MerkleHash).

Definition state_key_hash (event_type state_key : string) : MerkleHash :=
  hash_parts [KEY_DST; encode_pair event_type state_key].

Definition state_leaf_hash (event_type state_key event_id : string) : MerkleHash :=
  hash_parts [LEAF_DST; encode_pair event_type state_key;
              be 8 (u64_of_len (as_bytes event_id)); as_bytes event_id].

(** [u16::try_from(depth).unwrap_or(u16::MAX)]. *)
Definition depth_u16 (depth : nat) : N := N.min (N.of_nat depth) 65535.

Definition node (depth : nat) (left right : MerkleHash) : MerkleHash :=
  hash_parts [NODE_DST; be 2 (depth_u16 depth); left; right].

(** The hashes of the empty trees by depth, from the leaves up. *)
Definition empty_table : list MerkleHash :=
  foldr (λ depth empty, node depth (hd [] empty) (hd [] empty) :: empty) [hash_parts [EMPTY_DST]] (seq 0 STATE_DEPTH).

(** ** The tree *)

Record StateMap : Type := mkStateMap { leaves : gmap MerkleHash MerkleHash }.

Definition from_state (state : shared_state) : StateMap :=
  mkStateMap (foldl (λ leaves e,
    <[state_key_hash e.1.1 e.1.2 := state_leaf_hash e.1.1 e.1.2 (id_display e.2)]> leaves) ∅ (state_iter state)).

Definition partition entries (depth : nat) : list entry * list entry :=
  List.partition (λ e, digest_bit e.1 depth =? 0)%N entries.

Fixpoint subtree (levels : nat) entries empty : MerkleHash :=
  let depth := STATE_DEPTH - levels in
  match entries, levels with
  | [], _ => nth depth empty []
  | e :: _, O => e.2
  | _, S levels =>
      let '(lefts, rights) := partition entries depth in
      node depth (subtree levels lefts empty) (subtree levels rights empty)
  end.

Fixpoint descend (levels : nat) entries (key : MerkleHash) empty : nat * list StateProofStep :=
  let depth := STATE_DEPTH - levels in
  match entries, levels with
  | [], _ | _, O => (depth, [])
  | _, S levels =>
      let '(lefts, rights) := partition entries depth in
      let '(term, path) :=
        if (digest_bit key depth =? 0)%N then descend levels lefts key empty else descend levels rights key empty in
      let sibling := if (digest_bit key depth =? 0)%N then subtree levels rights empty else subtree levels lefts empty in
      (term, path ++ [mkStep sibling])
  end.

(** The [BTreeMap] in key order. *)
Definition leaf_list (m : StateMap) : list entry :=
  sort_by (cmp_on (λ e, of_bytes e.1) String.compare) (map_to_list (leaves m)).
Definition proof_inputs (m : StateMap) : list MerkleHash * list entry := (empty_table, leaf_list m).

Definition root (m : StateMap) : MerkleHash :=
  let '(empty, entries) := proof_inputs m in subtree STATE_DEPTH entries empty.

Definition inclusion_proof (m : StateMap) (event_type state_key event_id : string)
    : option (list StateProofStep * MerkleHash) :=
  let key := state_key_hash event_type state_key in
  if negb (bool_decide (leaves m !! key = Some (state_leaf_hash event_type state_key event_id))) then None
  else
    let '(empty, entries) := proof_inputs m in
    let '(_, path) := descend STATE_DEPTH entries key empty in
    Some (path, root m).

Definition non_inclusion_proof (m : StateMap) (event_type state_key : string)
    : option (list StateProofStep * nat * MerkleHash) :=
  let key := state_key_hash event_type state_key in
  match leaves m !! key with
  | Some _ => None
  | None =>
      let '(empty, entries) := proof_inputs m in
      let '(depth, path) := descend STATE_DEPTH entries key empty in
      Some (path, depth, root m)
  end.

(** ** Verification *)

Definition verify (key value : MerkleHash) (terminal_depth : nat) (path : list StateProofStep) (root : MerkleHash) : bool :=
  if negb (length path =? terminal_depth) then false
  else
    let value := foldl (λ value e,
      let depth := terminal_depth - 1 - e.1 in
      if (digest_bit key depth =? 0)%N then node depth value (step_hash e.2) else node depth (step_hash e.2) value)
      value (imap pair path) in
    bool_decide (value = root).

Definition verify_inclusion (event_type state_key event_id : string) (path : list StateProofStep) (root : MerkleHash) : bool :=
  verify (state_key_hash event_type state_key) (state_leaf_hash event_type state_key event_id) STATE_DEPTH path root.

Definition verify_non_inclusion (event_type state_key : string) (terminal_depth : nat) (path : list StateProofStep)
    (root : MerkleHash) : bool :=
  if STATE_DEPTH <? terminal_depth then false
  else if negb (length path =? terminal_depth) then false
  else
    let empty_at_depth := nth terminal_depth empty_table [] in
    if match path with s0 :: _ => bool_decide (step_hash s0 = empty_at_depth) | [] => false end then false
    else verify (state_key_hash event_type state_key) empty_at_depth terminal_depth path root.
End state_map.

(** ** What the commitment to a state proves

    The tree of [StateMerkle] is the sparse tree of [SparseTree].  Collisions
    are assumed away only among the inputs that the commitment and the check
    at hand hash, which [committed_inputs] and [checked_inputs] list. *)

Section props.
Context {Id : Type} `{EventId Id} `{Sha256}.
Abbreviation shared_state := (gmap (string * string) Id).
Abbreviation entry := (MerkleHash * MerkleHash)%type.
Implicit Types (entries : list entry) (state : shared_state) (key : MerkleHash).

#[local] Opaque STATE_DEPTH.

Definition empty_leaf : MerkleHash := hash_parts [EMPTY_DST].
Abbreviation stree := (tree goes_right node empty_leaf STATE_DEPTH).
Abbreviation sunder := (under (V:=MerkleHash) goes_right).
Abbreviation spath := (path_to goes_right node empty_leaf STATE_DEPTH).

(** ** The code's tree is the sparse tree *)

Lemma empty_table_from n : n ≤ STATE_DEPTH →
  let table := foldr (λ depth empty, node depth (hd [] empty) (hd [] empty) :: empty) [empty_leaf] (seq (STATE_DEPTH - n) n) in
  hd [] table = empty_at node empty_leaf STATE_DEPTH n
  ∧ ∀ l, l ≤ n → nth (n - l) table [] = empty_at node empty_leaf STATE_DEPTH l.
Proof.
  induction n as [|n IH]; intros Hn; cbv zeta; [split; [done|]; by intros [|l] Hl; [|lia]|].
  replace (seq (STATE_DEPTH - S n) (S n)) with ((STATE_DEPTH - S n) :: seq (STATE_DEPTH - n) n)
    by (cbn [seq]; f_equal; f_equal; lia).
  cbn [foldr hd empty_at]. destruct (IH ltac:(lia)) as [Hh Ht]. rewrite Hh. split; [done|].
  intros l Hl. destruct (decide (l = S n)) as [->|Hne].
  - rewrite Nat.sub_diag. done.
  - replace (S n - l) with (S (n - l)) by lia. cbn [nth]. apply Ht. lia.
Qed.

Lemma empty_table_nth d : d ≤ STATE_DEPTH → nth d empty_table [] = empty_at node empty_leaf STATE_DEPTH (STATE_DEPTH - d).
Proof.
  intros Hd. destruct (empty_table_from STATE_DEPTH ltac:(done)) as [_ Ht]. rewrite <-Ht by lia.
  replace (STATE_DEPTH - (STATE_DEPTH - d)) with d by lia. by rewrite Nat.sub_diag.
Qed.

Lemma partition_side entries d : partition entries d = (side goes_right false d entries, side goes_right true d entries).
Proof.
  unfold partition, side. induction entries as [|e entries IH]; [done|]. cbn [List.partition]. rewrite IH, digest_bit_eqb.
  rewrite !filter_cons. destruct (goes_right e.1 d); simpl; done.
Qed.

Lemma subtree_tree levels entries : levels ≤ STATE_DEPTH → subtree levels entries empty_table = stree levels entries.
Proof.
  revert entries. induction levels as [|levels IH]; intros entries Hl.
  - destruct entries as [|e entries]; [|done]. cbn [subtree tree]. rewrite Nat.sub_0_r, empty_table_nth by done.
    by rewrite Nat.sub_diag.
  - destruct entries as [|e entries]; cbn [subtree tree].
    + rewrite empty_table_nth by lia. by replace (STATE_DEPTH - (STATE_DEPTH - S levels)) with (S levels) by lia.
    + rewrite partition_side, !IH by lia. done.
Qed.

Lemma root_tree (m : StateMap) : root m = stree STATE_DEPTH (leaf_list m).
Proof. unfold root, proof_inputs. by apply subtree_tree. Qed.

(** The descent stops at the first depth below which there is no entry. *)
Lemma descend_path levels key entries t path :
  levels ≤ STATE_DEPTH →
  descend levels (sunder key (STATE_DEPTH - levels) entries) key empty_table = (t, path) →
  STATE_DEPTH - levels ≤ t ≤ STATE_DEPTH
  ∧ spath key t entries = (step_hash <$> path) ++ spath key (STATE_DEPTH - levels) entries
  ∧ (t < STATE_DEPTH → sunder key t entries = [])
  ∧ ∀ d, STATE_DEPTH - levels ≤ d < t → sunder key d entries ≠ [].
Proof.
  revert t path. induction levels as [|levels IH]; intros t path Hl Hd.
  { assert (descend 0 (sunder key (STATE_DEPTH - 0) entries) key empty_table = (STATE_DEPTH - 0, [])) as E
      by by destruct (sunder key (STATE_DEPTH - 0) entries).
    rewrite Hd in E. injection E as -> ->. rewrite Nat.sub_0_r. split_and!; try done; intros; exfalso; lia. }
  set (d := STATE_DEPTH - S levels) in *. assert (STATE_DEPTH - levels = S d) as Ed by (unfold d; lia).
  destruct (sunder key d entries) as [|e rest] eqn:Eu.
  { injection Hd as <- <-. fold d.
    split_and!; try done; intros; first [unfold d; lia|exfalso; lia]. }
  cbn [descend] in Hd. fold d in Hd. rewrite <-Eu in Hd.
  rewrite Ed in IH. cbn [under path_to] in IH. rewrite partition_side, digest_bit_eqb, !subtree_tree in Hd by lia.
  assert (STATE_DEPTH - S d = levels) as El by (unfold d; lia). rewrite El in IH.
  assert (∃ term path', descend levels (side goes_right (goes_right key d) d (sunder key d entries)) key empty_table = (term, path')
    ∧ t = term ∧ path = path' ++ [mkStep (stree levels (side goes_right (negb (goes_right key d)) d (sunder key d entries)))])
    as (term & path' & Hdesc & -> & ->).
  { destruct (goes_right key d); cbn [negb] in *;
      destruct (descend levels _ key empty_table) as [term path'] eqn:Edesc; injection Hd as <- <-; by exists term, path'. }
  destruct (IH _ _ ltac:(lia) Hdesc) as (Ht & Hp & He & Hne). split_and!; [lia|lia| |done|].
  - rewrite Hp, fmap_app, <-app_assoc. done.
  - intros d' Hd'. destruct (decide (d' = d)) as [->|?]; [by rewrite Eu|]. apply Hne. lia.
Qed.

Lemma verify_climb key value t path r : t ≤ STATE_DEPTH →
  verify key value t path r = true ↔ length path = t ∧ climb goes_right node key t value (step_hash <$> path) = r.
Proof.
  intros Ht. unfold verify. destruct (Nat.eqb_spec (length path) t) as [Hlen|]; simpl; [|split; [done|by intros []]].
  rewrite bool_decide_eq_true. split; [intros <-; split; [done|]|intros [_ <-]].
  all: assert (∀ (p : list StateProofStep) v n, n + length p = t →
    foldl (λ value e, if (digest_bit key (t - 1 - e.1) =? 0)%N then node (t - 1 - e.1) value (step_hash e.2)
                      else node (t - 1 - e.1) (step_hash e.2) value) v (imap (λ i x, (n + i, x)) p)
    = climb goes_right node key (t - n) v (step_hash <$> p)) as Hg
    by (induction p as [|s p IHp]; intros v n Hn; [done|]; simpl in Hn; cbn [imap foldl fmap list_fmap climb fst snd];
        rewrite Nat.add_0_r, digest_bit_eqb; replace (t - 1 - n) with (pred (t - n)) by lia;
        replace (pred (t - n)) with (t - S n) by lia; rewrite <-(IHp _ (S n)) by lia;
        rewrite (imap_ext _ (λ i x, (S n + i, x))) by (intros; simpl; f_equal; lia);
        by destruct (goes_right key (t - S n))).
  all: specialize (Hg path value 0 Hlen); rewrite Nat.sub_0_r in Hg; cbn [Nat.add] in Hg.
  - by rewrite <-Hg.
  - by rewrite <-Hg.
Qed.

(** ** The hashed inputs *)

Definition node_input (n : nat * MerkleHash * MerkleHash) : bytes := concat [NODE_DST; be 2 (depth_u16 n.1.1); n.1.2; n.2].
Definition key_input (event_type state_key : string) : bytes := concat [KEY_DST; encode_pair event_type state_key].
Definition leaf_input (event_type state_key event_id : string) : bytes :=
  concat [LEAF_DST; encode_pair event_type state_key; be 8 (u64_of_len (as_bytes event_id)); as_bytes event_id].

(** Hashed to commit to a state. *)
Definition committed_inputs state : list bytes :=
  (state_iter state ≫= λ e, [key_input e.1.1 e.1.2; leaf_input e.1.1 e.1.2 (id_display e.2)])
  ++ EMPTY_DST :: (node_input <$> empty_nodes node empty_leaf STATE_DEPTH STATE_DEPTH
                     ++ tree_nodes goes_right node empty_leaf STATE_DEPTH STATE_DEPTH (leaf_list (from_state state))).

Definition committed_inputs_run state : list bytes :=
  let empties := rev empty_table in
  (state_iter state ≫= λ e, [key_input e.1.1 e.1.2; leaf_input e.1.1 e.1.2 (id_display e.2)])
  ++ EMPTY_DST :: (node_input <$> empty_run empty_leaf STATE_DEPTH empties STATE_DEPTH
                     ++ (tree_run goes_right node empty_leaf STATE_DEPTH empties STATE_DEPTH (leaf_list (from_state state))).2).

Lemma committed_inputs_run_eq state : committed_inputs state = committed_inputs_run state.
Proof.
  assert (∀ m, m ≤ STATE_DEPTH → nth m (rev empty_table) empty_leaf = empty_at node empty_leaf STATE_DEPTH m) as He.
  { intros m Hm. assert (length empty_table = S STATE_DEPTH) as Hl.
    { unfold empty_table. assert (∀ n k t, length (foldr (λ depth empty, node depth (hd [] empty) (hd [] empty) :: empty) t (seq k n)) = n + length t) as Hg
        by (induction n as [|n IH]; intros k t; [done|]; simpl; by rewrite IH).
      rewrite Hg. simpl. lia. }
    rewrite rev_nth, Hl by lia. replace (S STATE_DEPTH - S m) with (STATE_DEPTH - m) by lia.
    rewrite (nth_indep _ _ []), empty_table_nth by lia. f_equal. lia. }
  unfold committed_inputs, committed_inputs_run. cbv zeta. by rewrite (empty_run_eq node), tree_run_eq.
Qed.

(** Hashed to check a proof from a value at a depth. *)
Definition checked_inputs key (value : MerkleHash) (depth : nat) (path : list StateProofStep) : list bytes :=
  node_input <$> climb_nodes goes_right node key depth value (step_hash <$> path).

(** A Rust string. *)
Definition sized (s : string) : Prop := (N.of_nat (length (as_bytes s)) ≤ USIZE_MAX)%N.
Definition all_sized state : Prop :=
  ∀ k id, state !! k = Some id → sized k.1 ∧ sized k.2 ∧ sized (id_display id).

Definition is_hash (b : MerkleHash) : Prop := length b = 32.

Lemma u64_of_len_sized x : sized x → u64_of_len (as_bytes x) = N.of_nat (length (as_bytes x)).
Proof. unfold sized, u64_of_len. intros Hx. by apply N.leb_le in Hx as ->. Qed.

Lemma sized_prefix x y (r r' : bytes) : sized x → sized y →
  be 8 (u64_of_len (as_bytes x)) ++ as_bytes x ++ r = be 8 (u64_of_len (as_bytes y)) ++ as_bytes y ++ r' → x = y ∧ r = r'.
Proof.
  intros Hx Hy [El E]%app_inj_1; [|by rewrite !length_be]. rewrite !u64_of_len_sized in El by done.
  unfold sized, USIZE_MAX in *. apply be_inj in El; [|change (256 ^ N.of_nat 8)%N with 18446744073709551616%N; lia..].
  apply Nat2N.inj in El. apply app_inj_1 in E as [E ->]; [|done]. by apply as_bytes_inj in E.
Qed.

Lemma sized_last x y : sized x → sized y →
  be 8 (u64_of_len (as_bytes x)) ++ as_bytes x = be 8 (u64_of_len (as_bytes y)) ++ as_bytes y → x = y.
Proof.
  intros Hx Hy E. apply (f_equal (.++ [])) in E. rewrite <-!app_assoc in E. by apply sized_prefix in E as [-> _].
Qed.

Lemma key_input_inj t k t' k' : sized t → sized k → sized t' → sized k' → key_input t k = key_input t' k' → t = t' ∧ k = k'.
Proof.
  intros Ht Hk Ht' Hk'. unfold key_input, encode_pair. cbn [concat]. rewrite !app_nil_r. intros E%app_inv_head.
  apply sized_prefix in E as [-> E]; [|done..]. by apply sized_last in E as ->.
Qed.

Lemma leaf_input_inj t k id t' k' id' : sized t → sized k → sized id → sized t' → sized k' → sized id' →
  leaf_input t k id = leaf_input t' k' id' → t = t' ∧ k = k' ∧ id = id'.
Proof.
  intros Ht Hk Hi Ht' Hk' Hi'. unfold leaf_input, encode_pair. cbn [concat]. rewrite <-!app_assoc. intros E%app_inv_head.
  apply sized_prefix in E as [-> E]; [|done..]. apply sized_prefix in E as [-> E]; [|done..].
  rewrite !app_nil_r in E. by apply sized_last in E as ->.
Qed.

Lemma leaf_input_nonempty t k id : leaf_input t k id ≠ EMPTY_DST.
Proof. intros E. apply (f_equal (take 15)) in E. vm_compute in E. discriminate. Qed.

Lemma node_input_inj d a b a' b' : is_hash a → is_hash a' → is_hash b → is_hash b' →
  node_input (d, a, b) = node_input (d, a', b') → a = a' ∧ b = b'.
Proof.
  unfold is_hash, node_input. cbn [concat fst snd]. intros Ha Ha' Hb Hb' E%app_inv_head%app_inv_head.
  apply app_inj_1 in E as [-> E]; [|congruence]. by rewrite !app_nil_r in E.
Qed.

Lemma node_hash d a b : node d a b = sha256 (node_input (d, a, b)).
Proof. done. Qed.

Lemma is_hash_node d a b : is_hash (node d a b).
Proof. apply sha256_length. Qed.

(** ** Nodes over digests *)

Section collisions.
Context (L : list bytes) (Hfree : collision_free L).

Definition proper (d : nat) (a b : MerkleHash) : Prop := is_hash a ∧ is_hash b ∧ node_input (d, a, b) ∈ L.

Lemma proper_inj d a b a' b' : proper d a b → proper d a' b' → node d a b = node d a' b' → a = a' ∧ b = b'.
Proof.
  intros (Ha & Hb & Hin) (Ha' & Hb' & Hin'). rewrite !node_hash. intros E%Hfree; [|done..]. by apply node_input_inj in E.
Qed.
End collisions.

Lemma is_hash_empty l : is_hash (empty_at node empty_leaf STATE_DEPTH l).
Proof. destruct l; apply sha256_length. Qed.

Lemma is_hash_tree l entries : (∀ e, e ∈ entries → is_hash e.2) → is_hash (stree l entries).
Proof.
  intros He. destruct entries as [|e entries]; [destruct l; apply is_hash_empty|].
  destruct l; [apply He; left|apply is_hash_node].
Qed.

Lemma good_inputs L nodes : (∀ n, n ∈ nodes → is_hash n.1.2 ∧ is_hash n.2) → (node_input <$> nodes) ⊆ L → good (proper L) nodes.
Proof.
  intros Hn HL. apply Forall_forall. intros [[d a] b] Hin. destruct (Hn _ Hin) as [Ha Hb]. split_and!; [done..|].
  apply HL, list_elem_of_fmap. by exists (d, a, b).
Qed.

Lemma empty_nodes_hash l n : n ∈ empty_nodes node empty_leaf STATE_DEPTH l → is_hash n.1.2 ∧ is_hash n.2.
Proof.
  induction l as [|l IH]; [by intros ?%elem_of_nil|]. cbn [empty_nodes]. intros [->|?]%elem_of_cons; [|by apply IH].
  split; apply is_hash_empty.
Qed.

Lemma tree_nodes_hash l entries n : (∀ e, e ∈ entries → is_hash e.2) →
  n ∈ tree_nodes goes_right node empty_leaf STATE_DEPTH l entries → is_hash n.1.2 ∧ is_hash n.2.
Proof.
  revert entries. induction l as [|l IH]; intros entries He; [destruct entries; by intros ?%elem_of_nil|].
  destruct entries as [|e entries]; [by intros ?%elem_of_nil|]. cbn [tree_nodes].
  assert (∀ b x, x ∈ side goes_right b (STATE_DEPTH - S l) (e :: entries) → is_hash x.2) as Hs
    by (intros b x [_ Hx]%elem_of_side; by apply He).
  intros [->|[Hin|Hin]%elem_of_app]%elem_of_cons; [split; apply is_hash_tree, Hs|eapply IH, Hin; apply Hs..].
Qed.

Lemma climb_nodes_hash key d v path n : is_hash v → Forall is_hash path →
  n ∈ climb_nodes goes_right node key d v path → is_hash n.1.2 ∧ is_hash n.2.
Proof.
  revert d v. induction path as [|s path IH]; intros d v Hv; [by intros _ ?%elem_of_nil|].
  intros [Hs Hp]%Forall_cons. cbn [climb_nodes]. intros [->|Hin]%elem_of_cons; [by destruct (goes_right key (pred d))|].
  eapply IH, Hin; [|done]. by destruct (goes_right key (pred d)); apply is_hash_node.
Qed.
End props.
