(* ===== verification/StateProofs.v ===== *)
(** * Proofs about a committed state

    The verifiers of [StateMerkle] accept exactly the proofs the commitment
    issues, which are about the state it was built from, and the root
    determines that state. *)
From stdpp Require Import prelude gmap strings sorting.
From Stdlib Require String.
From Stdlib Require Import Ascii.
From S2P Require Import Prelude EventTypes Json JsonText JsonTextProps Events LtHash AuthDiff AuthDiffProps Digest SparseTree StateMerkle.

Section proofs.
Context {Id : Type} `{EventId Id} `{Sha256}.
Abbreviation shared_state := (gmap (string * string) Id).
Implicit Types (state : shared_state) (key : MerkleHash) (path : list StateProofStep).
#[local] Opaque STATE_DEPTH.

Abbreviation stree := (tree goes_right node empty_leaf STATE_DEPTH).
Abbreviation sunder := (under (V:=MerkleHash) goes_right).
Abbreviation spath := (path_to goes_right node empty_leaf STATE_DEPTH).
Abbreviation entries_of state := (leaf_list (from_state state)).

(** ** The leaves *)

Lemma foldl_insert_some {A W} `{Countable A} {B} (f : B → A) (g : B → W) (l : list B) (m : gmap A W) k v :
  foldl (λ m e, <[f e := g e]> m) m l !! k = Some v → (∃ e, e ∈ l ∧ f e = k ∧ g e = v) ∨ m !! k = Some v.
Proof.
  revert m. induction l as [|e l IH]; intros m; [by right|]. simpl. intros [(x & Hx & ?)|Hm]%IH.
  - left. exists x. split; [by right|done].
  - apply lookup_insert_Some in Hm as [[Hk Hv]|[_ Hm]]; [|by right]. left. exists e. split; [left|done].
Qed.

Lemma foldl_insert_at {A W} `{Countable A} {B} (f : B → A) (g : B → W) (l : list B) (m : gmap A W) e :
  e ∈ l → (∀ e', e' ∈ l → f e' = f e → g e' = g e) → foldl (λ m e, <[f e := g e]> m) m l !! f e = Some (g e).
Proof.
  revert m. induction l as [|x l IH] using rev_ind; intros m Hin Hf; [by apply elem_of_nil in Hin|].
  rewrite foldl_app. simpl. destruct (decide (f x = f e)) as [E|Hne].
  - rewrite E, lookup_insert_eq. f_equal. apply Hf; [apply elem_of_app; right; left|done].
  - rewrite lookup_insert_ne by done. apply elem_of_app in Hin as [Hin| ->%list_elem_of_singleton]; [|done].
    apply IH; [done|]. intros e' He'. apply Hf, elem_of_app. by left.
Qed.

Lemma elem_of_state_iter' state k id : (k, id) ∈ state_iter state ↔ state !! k = Some id.
Proof. unfold state_iter. by rewrite sort_by_perm, elem_of_map_to_list. Qed.

Lemma elem_of_leaf_list m k v : (k, v) ∈ leaf_list m ↔ leaves m !! k = Some v.
Proof. unfold leaf_list. by rewrite sort_by_perm, elem_of_map_to_list. Qed.

Lemma leaf_of_state state k v : leaves (from_state state) !! k = Some v →
  ∃ kk id, state !! kk = Some id ∧ k = state_key_hash kk.1 kk.2 ∧ v = state_leaf_hash kk.1 kk.2 (id_display id).
Proof.
  unfold from_state. cbn [leaves]. intros [([kk id] & Hin & <- & <-)|Hm]%foldl_insert_some; [|by rewrite lookup_empty in Hm].
  exists kk, id. split; [by apply elem_of_state_iter'|done].
Qed.

Lemma entries_hash state e : e ∈ entries_of state → is_hash e.1 ∧ is_hash e.2.
Proof.
  destruct e as [k v]. rewrite elem_of_leaf_list. intros (kk & id & _ & -> & ->)%leaf_of_state. split; apply sha256_length.
Qed.

Lemma entries_at state key e : is_hash key → e ∈ sunder key STATE_DEPTH (entries_of state) ↔ e.1 = key ∧ e ∈ entries_of state.
Proof.
  intros Hk. rewrite elem_of_under. split.
  - intros [He Hb]. split; [|done]. apply digest_ext; [exact (proj1 (entries_hash state e He))|done|exact Hb].
  - intros [<- He]. done.
Qed.

Lemma entries_head state key v : is_hash key → leaves (from_state state) !! key = Some v →
  ∃ rest, sunder key STATE_DEPTH (entries_of state) = (key, v) :: rest.
Proof.
  intros Hk Hl. destruct (sunder key STATE_DEPTH (entries_of state)) as [|[k' v'] rest] eqn:E.
  - exfalso. apply (not_elem_of_nil (key, v)). rewrite <-E. apply entries_at; [done|]. by rewrite elem_of_leaf_list.
  - exists rest. assert ((k', v') ∈ sunder key STATE_DEPTH (entries_of state)) as Hin by (rewrite E; left).
    apply entries_at in Hin as [Ek Hin]; [|done]. cbn [fst] in Ek. subst k'. rewrite elem_of_leaf_list in Hin. congruence.
Qed.

Lemma path_hash state key t v : v ∈ spath key t (entries_of state) → is_hash v.
Proof.
  induction t as [|t IH]; [by intros ?%elem_of_nil|]. cbn [path_to]. intros [->|?]%elem_of_cons; [|by apply IH].
  apply is_hash_tree. intros e [_ [He _]%elem_of_under]%elem_of_side. exact (proj2 (entries_hash state e He)).
Qed.

Lemma steps_inj path path' : step_hash <$> path = step_hash <$> path' → path = path'.
Proof. apply list_fmap_eq_inj. by intros [] [] [= ->]. Qed.

(** The proof the descent finds. *)
Lemma descent state key : ∃ t path, descend STATE_DEPTH (entries_of state) key empty_table = (t, path)
  ∧ t ≤ STATE_DEPTH ∧ step_hash <$> path = spath key t (entries_of state)
  ∧ (t < STATE_DEPTH → sunder key t (entries_of state) = [])
  ∧ ∀ d, d < t → sunder key d (entries_of state) ≠ [].
Proof.
  destruct (descend STATE_DEPTH (entries_of state) key empty_table) as [t path] eqn:E. exists t, path. split; [done|].
  pose proof (descend_path STATE_DEPTH key (entries_of state) t path ltac:(done)) as Hd. rewrite Nat.sub_diag in Hd.
  destruct (Hd E) as (Ht & Hp & He & Hne). cbn [path_to] in Hp. rewrite app_nil_r in Hp.
  split_and!; [lia|by symmetry|done|]. intros d Hdt. apply Hne. lia.
Qed.

Lemma under_nil key t t' state : t ≤ t' → sunder key t (entries_of state) = [] → sunder key t' (entries_of state) = [].
Proof.
  induction 1 as [|t' Ht IH]; [done|]. intros E. cbn [under]. rewrite IH by done. done.
Qed.

(** ** What is proved *)

Section committed.
Context state (L : list bytes) (Hfree : collision_free L) (Hall : all_sized state) (HL : committed_inputs state ⊆ L).

Lemma tree_good : good (proper L) (tree_nodes goes_right node empty_leaf STATE_DEPTH STATE_DEPTH (entries_of state)).
Proof using HL.
  apply good_inputs; [|intros x Hx; apply HL; unfold committed_inputs; rewrite elem_of_app, elem_of_cons, fmap_app, elem_of_app; tauto].
  intros n. apply tree_nodes_hash. intros e He. exact (proj2 (entries_hash state e He)).
Qed.

Lemma empty_good : good (proper L) (empty_nodes node empty_leaf STATE_DEPTH STATE_DEPTH).
Proof using HL.
  apply good_inputs; [|intros x Hx; apply HL; unfold committed_inputs; rewrite elem_of_app, elem_of_cons, fmap_app, elem_of_app; tauto].
  intros n. apply empty_nodes_hash.
Qed.

Lemma inputs_of_entry k id : state !! k = Some id → key_input k.1 k.2 ∈ L ∧ leaf_input k.1 k.2 (id_display id) ∈ L.
Proof using HL.
  intros Hs%elem_of_state_iter'. split; apply HL; unfold committed_inputs; rewrite elem_of_app; left; apply list_elem_of_bind;
    exists (k, id); (split; [|done]); cbn [fst snd]; rewrite elem_of_cons, list_elem_of_singleton; tauto.
Qed.

Lemma empty_input : EMPTY_DST ∈ L.
Proof using HL. apply HL. unfold committed_inputs. rewrite elem_of_app, elem_of_cons. tauto. Qed.

(** The leaf of a key is that of its entry. *)
Lemma leaf_exact t k v : sized t → sized k → key_input t k ∈ L →
  leaves (from_state state) !! state_key_hash t k = Some v ↔
  ∃ id, state !! (t, k) = Some id ∧ v = state_leaf_hash t k (id_display id).
Proof using Hfree Hall HL.
  intros Ht Hk Hin. split.
  - intros ([t' k'] & id & Hs & Ek & ->)%leaf_of_state. destruct (Hall _ _ Hs) as (Ht' & Hk' & _).
    destruct (inputs_of_entry _ _ Hs) as [Hin' _]. apply Hfree in Ek; [|done..].
    apply key_input_inj in Ek as [-> ->]; [|done..]. by exists id.
  - intros (id & Hs & ->). unfold from_state. cbn [leaves].
    apply (foldl_insert_at (λ e, state_key_hash e.1.1 e.1.2) (λ e, state_leaf_hash e.1.1 e.1.2 (id_display e.2)) _ _ ((t, k), id)).
    + by apply elem_of_state_iter'.
    + intros [[t' k'] id'] Hs'%elem_of_state_iter' E. cbn [fst snd] in *. destruct (Hall _ _ Hs') as (Ht' & Hk' & _).
      destruct (inputs_of_entry _ _ Hs') as [Hin' _]. apply Hfree in E; [|done..].
      apply key_input_inj in E as [-> ->]; [|done..]. congruence.
Qed.

Lemma leaf_not_empty e : e ∈ entries_of state → e.2 ≠ empty_leaf.
Proof using Hfree HL.
  destruct e as [k v]. rewrite elem_of_leaf_list. intros (kk & id & Hs & -> & ->)%leaf_of_state. cbn [snd].
  destruct (inputs_of_entry _ _ Hs) as [_ Hin]. intros E. apply Hfree in E; [|done|apply empty_input].
  by apply leaf_input_nonempty in E.
Qed.

(** A climb that ends at the root of the commitment. *)
Lemma climb_committed key value t path : t ≤ STATE_DEPTH → is_hash value → Forall is_hash (step_hash <$> path) →
  checked_inputs key value t path ⊆ L →
  verify key value t path (root (from_state state)) = true →
  value = stree (STATE_DEPTH - t) (sunder key t (entries_of state)) ∧ step_hash <$> path = spath key t (entries_of state).
Proof using Hfree HL.
  intros Ht Hv Hp Hc. rewrite verify_climb, root_tree by done. intros [Hlen Hr].
  eapply (climb_sound goes_right node empty_leaf STATE_DEPTH (proper L) (proper_inj L Hfree)); [done|by rewrite length_fmap| | | |done].
  - apply good_inputs; [|exact Hc]. intros n. by apply climb_nodes_hash.
  - apply tree_good.
  - apply empty_good.
Qed.

Lemma under_empty key t : t ≤ STATE_DEPTH →
  empty_at node empty_leaf STATE_DEPTH (STATE_DEPTH - t) = stree (STATE_DEPTH - t) (sunder key t (entries_of state)) ↔
  sunder key t (entries_of state) = [].
Proof using Hfree HL.
  intros Ht. split; [|intros ->; by destruct (STATE_DEPTH - t)]. intros E.
  eapply (tree_not_empty goes_right node empty_leaf STATE_DEPTH (proper L) (proper_inj L Hfree)); [| | | |by symmetry]; [lia|..].
  - apply good_under; [lia|apply tree_good].
  - apply empty_good.
  - intros e [He _]%elem_of_under. by apply leaf_not_empty.
Qed.

(** The sibling at a depth is an empty tree exactly when the entries above it
    all go the way of the key. *)
Lemma sibling_empty key d : d < STATE_DEPTH →
  stree (STATE_DEPTH - S d) (side goes_right (negb (goes_right key d)) d (sunder key d (entries_of state)))
    = empty_at node empty_leaf STATE_DEPTH (STATE_DEPTH - S d) ↔
  side goes_right (negb (goes_right key d)) d (sunder key d (entries_of state)) = [].
Proof using Hfree HL.
  intros Hd. split; [|intros ->; by destruct (STATE_DEPTH - S d)]. intros E.
  pose proof (good_under goes_right node empty_leaf STATE_DEPTH (proper L) key d (entries_of state) ltac:(lia) tree_good) as Hg.
  replace (STATE_DEPTH - d) with (S (STATE_DEPTH - S d)) in Hg by lia.
  destruct (sunder key d (entries_of state)) as [|e rest] eqn:Eu; [done|]. cbn [tree_nodes] in Hg.
  replace (STATE_DEPTH - S (STATE_DEPTH - S d)) with d in Hg by lia.
  apply Forall_cons in Hg as [_ Hg]. apply Forall_app in Hg as [Hg1 Hg2].
  eapply (tree_not_empty goes_right node empty_leaf STATE_DEPTH (proper L) (proper_inj L Hfree)); [| | | |exact E]; [lia|..].
  - by destruct (goes_right key d).
  - apply empty_good.
  - intros x [_ Hx]%elem_of_side. rewrite <-Eu in Hx. apply elem_of_under in Hx as [Hx _]. by apply leaf_not_empty.
Qed.
End committed.

(** C16: an inclusion proof is accepted exactly when it is the one the
    commitment to the state issues, and it issues one exactly for the bindings
    of the state. *)
Theorem inclusion_exact state t k id path :
  all_sized state → sized t → sized k → sized id → Forall is_hash (step_hash <$> path) →
  collision_free (committed_inputs state ++ key_input t k :: leaf_input t k id
    :: checked_inputs (state_key_hash t k) (state_leaf_hash t k id) STATE_DEPTH path) →
  (verify_inclusion t k id path (root (from_state state)) = true
     ↔ inclusion_proof (from_state state) t k id = Some (path, root (from_state state)))
  ∧ (is_Some (inclusion_proof (from_state state) t k id) ↔ ∃ eid, state !! (t, k) = Some eid ∧ id_display eid = id).
Proof.
  intros Hall Ht Hk Hi Hp. set (L := _ ++ _). intros Hfree.
  assert (committed_inputs state ⊆ L) as HL by (intros x Hx; apply elem_of_app; by left).
  assert (key_input t k ∈ L ∧ leaf_input t k id ∈ L) as [Hki Hli]
    by (split; apply elem_of_app; right; rewrite !elem_of_cons; tauto).
  pose proof (leaf_exact state L Hfree Hall HL t k) as Hleaf.
  pose proof (climb_committed state L Hfree HL (state_key_hash t k) (state_leaf_hash t k id) STATE_DEPTH path (le_n _)
    (sha256_length _) Hp ltac:(intros x Hx; apply elem_of_app; right; rewrite !elem_of_cons; tauto)) as Hclimb.
  fold (verify_inclusion t k id path (root (from_state state))) in Hclimb.
  set (key := state_key_hash t k) in *. assert (is_hash key) as Hkey by apply sha256_length.
  assert (leaves (from_state state) !! key = Some (state_leaf_hash t k id) ↔ ∃ eid, state !! (t, k) = Some eid ∧ id_display eid = id) as Hb.
  { rewrite Hleaf by done. split; intros (eid & Hs & E); exists eid; (split; [done|]); [|by subst].
    destruct (Hall _ _ Hs) as (_ & _ & Hsz). destruct (inputs_of_entry state L HL _ _ Hs) as [_ Hin].
    apply Hfree in E; [|done..]. by apply leaf_input_inj in E as (_ & _ & ->). }
  unfold inclusion_proof. fold key. destruct (descent state key) as (d & p & Hd & Hdle & Hpath & Hnil & Hne).
  unfold proof_inputs. rewrite Hd. rewrite <-Hb. clear Hb Hleaf. split; [|case_bool_decide; simpl; [by split|]; by rewrite is_Some_alt].
  case_bool_decide as Hl; cbn [negb].
  - destruct (entries_head state key _ Hkey Hl) as [rest Hr].
    assert (d = STATE_DEPTH) as ->.
    { destruct (decide (d < STATE_DEPTH)) as [Hlt|]; [|lia]. exfalso.
      by rewrite (under_nil key d STATE_DEPTH state Hdle (Hnil Hlt)) in Hr. }
    split.
    + intros Hv. destruct (Hclimb Hv) as [_ E].
      rewrite <-Hpath in E. by apply steps_inj in E as ->.
    + intros [= <-]. apply verify_climb; [done|]. rewrite root_tree, Hpath. split.
      * rewrite <-(length_fmap step_hash), Hpath. apply length_path_to.
      * rewrite <-(climb_path goes_right node empty_leaf STATE_DEPTH key STATE_DEPTH) by done.
        rewrite Hr, Nat.sub_diag. done.
  - split; [|done]. intros Hv. exfalso.
    destruct (Hclimb Hv) as [E _].
    rewrite Nat.sub_diag in E. destruct (sunder key STATE_DEPTH (entries_of state)) as [|e rest] eqn:Eu; cbn [tree empty_at] in E.
    + apply Hfree in E; [by apply leaf_input_nonempty in E|done|by apply (empty_input state)].
    + apply Hl. assert (e ∈ sunder key STATE_DEPTH (entries_of state)) as Hin by (rewrite Eu; left).
      apply entries_at in Hin as [<- Hin]; [|done]. rewrite E. by apply elem_of_leaf_list; destruct e.
Qed.

(** C17: a proof of absence is accepted exactly when it is the one the
    commitment to the state issues, at the depth at which it issues it, and it
    issues one exactly for the keys the state does not bind. *)
Theorem absence_exact state t k depth path :
  all_sized state → sized t → sized k → Forall is_hash (step_hash <$> path) →
  collision_free (committed_inputs state ++ key_input t k
    :: checked_inputs (state_key_hash t k) (nth depth empty_table []) depth path) →
  (verify_non_inclusion t k depth path (root (from_state state)) = true
     ↔ non_inclusion_proof (from_state state) t k = Some (path, depth, root (from_state state)))
  ∧ (is_Some (non_inclusion_proof (from_state state) t k) ↔ state !! (t, k) = None).
Proof.
  intros Hall Ht Hk Hp. set (L := _ ++ _). intros Hfree.
  assert (committed_inputs state ⊆ L) as HL by (intros x Hx; apply elem_of_app; by left).
  pose proof (leaf_exact state L Hfree Hall HL t k) as Hleaf. specialize (λ v, Hleaf v Ht Hk ltac:(apply elem_of_app; right; left)) as Hl.
  clear Hleaf. unfold non_inclusion_proof, verify_non_inclusion.
  assert (∀ x, x ∈ checked_inputs (state_key_hash t k) (nth depth empty_table []) depth path → x ∈ L) as Hc
    by (intros x Hx; apply elem_of_app; right; right; done).
  set (key := state_key_hash t k) in *. assert (is_hash key) as Hkey by apply sha256_length.
  assert (leaves (from_state state) !! key = None ↔ state !! (t, k) = None) as Hb.
  { rewrite !eq_None_not_Some. apply not_iff_compat. split.
    - intros [v (id & Hs & _)%Hl]. by exists id.
    - intros [id Hs]. exists (state_leaf_hash t k (id_display id)). apply Hl. by exists id. }
  destruct (descent state key) as (d & p & Hd & Hdle & Hpath & Hnil & Hne). unfold proof_inputs. rewrite Hd, <-Hb. clear Hb Hl.
  assert (leaves (from_state state) !! key = None ↔ sunder key STATE_DEPTH (entries_of state) = []) as Habs.
  { split.
    - intros Hn. destruct (sunder key STATE_DEPTH (entries_of state)) as [|e rest] eqn:Eu; [done|].
      assert (e ∈ sunder key STATE_DEPTH (entries_of state)) as Hin by (rewrite Eu; left).
      apply entries_at in Hin as [<- Hin]; [|done]. destruct e as [k' v]. apply elem_of_leaf_list in Hin. cbn [fst] in *. congruence.
    - intros Hn. destruct (leaves (from_state state) !! key) as [v|] eqn:E; [|done].
      destruct (entries_head state key v Hkey E) as [rest Hr]. congruence. }
  split; [|destruct (leaves (from_state state) !! key); split; done || (by intros [? ?]) || by intros].
  transitivity (sunder key STATE_DEPTH (entries_of state) = [] ∧ depth = d ∧ path = p).
  2:{ rewrite <-Habs. destruct (leaves (from_state state) !! key) as [v|]; split; try (by intros [? ?]); try done.
      - by intros (_ & -> & ->).
      - intros [= -> ->]. done. }
  destruct (Nat.ltb_spec STATE_DEPTH depth) as [Hlt|Hle]; [split; [done|intros (_ & -> & _); lia]|].
  destruct (Nat.eqb_spec (length path) depth) as [Hlen|Hlen]; cbn [negb].
  2:{ split; [done|]. intros (_ & -> & ->). destruct Hlen. rewrite <-(length_fmap step_hash), Hpath. apply length_path_to. }
  pose proof (under_empty state L Hfree HL key depth Hle) as Hue. rewrite <-empty_table_nth in Hue by done.
  assert (∀ s rest, path = s :: rest → step_hash <$> path = spath key depth (entries_of state) →
    bool_decide (step_hash s = nth depth empty_table []) = true ↔
    ∃ d', depth = S d' ∧ side goes_right (negb (goes_right key d')) d' (sunder key d' (entries_of state)) = []) as Hmin.
  { intros s rest -> Es. destruct depth as [|d']; [done|]. cbn [path_to fmap list_fmap] in Es. injection Es as Es _.
    rewrite bool_decide_eq_true, Es, empty_table_nth, (sibling_empty state L Hfree HL) by done.
    split; [intros ?; by exists d'|by intros (? & [= <-] & ?)]. }
  split.
  - intros Hv. assert (sunder key depth (entries_of state) = [] ∧ step_hash <$> path = spath key depth (entries_of state)) as [Eu Ep].
    { destruct (climb_committed state L Hfree HL key (nth depth empty_table []) depth path Hle) as [E1 E2]; try done.
      - rewrite empty_table_nth by done. apply is_hash_empty.
      - by destruct path as [|s rest]; [|case_bool_decide].
      - split; [|done]. by apply Hue. }
    assert (sunder key STATE_DEPTH (entries_of state) = []) as Eu' by (by eapply under_nil).
    split; [done|]. assert (depth = d) as ->; [|split; [done|]; apply steps_inj; by rewrite Ep, Hpath].
    destruct (lt_eq_lt_dec depth d) as [[Hlt|?]|Hgt]; [exfalso; by apply (Hne depth)|done|exfalso].
    assert (sunder key (pred depth) (entries_of state) = []) as Eprev by (apply (under_nil key d); [lia|apply Hnil; lia]).
    destruct path as [|s rest]; [simpl in Hlen; lia|].
    destruct (Hmin s rest eq_refl Ep) as [_ Hm]. rewrite Hm in Hv; [done|].
    exists (pred depth). rewrite Eprev. split; [lia|done].
  - intros (Eu & -> & ->).
    assert (sunder key d (entries_of state) = []) as Eud.
    { destruct (decide (d = STATE_DEPTH)) as [->|]; [done|]. apply Hnil. lia. }
    assert (verify key (nth d empty_table []) d p (root (from_state state)) = true) as Hv.
    { apply verify_climb; [done|]. split; [done|]. rewrite root_tree, Hpath, (proj2 Hue Eud). by apply climb_path. }
    rewrite Hv. destruct p as [|s rest]; [done|].
    destruct (bool_decide (step_hash s = nth d empty_table [])) eqn:Eb; [|done]. exfalso.
    apply (Hmin s rest eq_refl Hpath) in Eb as (d' & -> & Es). apply (Hne d'); [lia|].
    cbn [under] in Eud. apply (side_nil goes_right d'); by destruct (goes_right key d').
Qed.

(** ** The root determines the state *)

Lemma bound_in_other state state' L k id : collision_free L → all_sized state → all_sized state' →
  committed_inputs state ⊆ L → committed_inputs state' ⊆ L → root (from_state state) = root (from_state state') →
  state !! k = Some id → ∃ id', state' !! k = Some id' ∧ id_display id' = id_display id.
Proof.
  intros Hfree Hall Hall' HL HL' Hroot Hs. destruct k as [t k]. destruct (Hall _ _ Hs) as (Ht & Hk & Hi).
  destruct (inputs_of_entry state L HL _ _ Hs) as [Hki Hli]. cbn [fst snd] in *.
  set (key := state_key_hash t k). assert (is_hash key) as Hkey by apply sha256_length.
  assert (leaves (from_state state) !! key = Some (state_leaf_hash t k (id_display id))) as Hl
    by (apply (leaf_exact state L Hfree Hall HL); [done..|by exists id]).
  destruct (entries_head state key _ Hkey Hl) as [rest Hr].
  set (path := mkStep <$> spath key STATE_DEPTH (entries_of state)).
  assert (step_hash <$> path = spath key STATE_DEPTH (entries_of state)) as Ep
    by (unfold path; rewrite <-list_fmap_compose; apply list_fmap_id).
  pose proof (good_path goes_right node empty_leaf STATE_DEPTH (proper L) key STATE_DEPTH (entries_of state) (le_n _)
    (tree_good state L HL) (empty_good state L HL)) as Hg.
  rewrite Nat.sub_diag, Hr in Hg. cbn [tree snd] in Hg.
  assert (verify key (state_leaf_hash t k (id_display id)) STATE_DEPTH path (root (from_state state')) = true) as Hv.
  { rewrite <-Hroot. apply verify_climb; [done|]. rewrite root_tree, Ep. split.
    - unfold path. rewrite length_fmap. apply length_path_to.
    - rewrite <-(climb_path goes_right node empty_leaf STATE_DEPTH key STATE_DEPTH) by done. by rewrite Hr, Nat.sub_diag. }
  destruct (climb_committed state' L Hfree HL' key (state_leaf_hash t k (id_display id)) STATE_DEPTH path (le_n _) (sha256_length _))
    as [E _]; [| |exact Hv|].
  - rewrite Ep. apply Forall_forall. intros v. apply path_hash.
  - intros x. unfold checked_inputs. rewrite Ep. intros ([[d a] b] & -> & Hin)%list_elem_of_fmap.
    unfold good in Hg. rewrite Forall_forall in Hg. by apply Hg in Hin as (_ & _ & ?).
  - rewrite Nat.sub_diag in E. destruct (sunder key STATE_DEPTH (entries_of state')) as [|[k' v] rest'] eqn:Eu; cbn [tree empty_at snd] in E.
    { apply Hfree in E; [by apply leaf_input_nonempty in E|done|by apply (empty_input state')]. }
    assert ((k', v) ∈ sunder key STATE_DEPTH (entries_of state')) as Hin by (rewrite Eu; left).
    apply entries_at in Hin as [Ek Hin]; [|done]. cbn [fst] in Ek. subst k' v.
    apply elem_of_leaf_list, (leaf_exact state' L Hfree Hall' HL') in Hin as (id' & Hs' & E'); [|done..].
    exists id'. split; [done|]. destruct (Hall' _ _ Hs') as (_ & _ & Hi'). destruct (inputs_of_entry state' L HL' _ _ Hs') as [_ Hin'].
    apply Hfree in E'; [|done..]. by apply leaf_input_inj in E' as (_ & _ & ->).
Qed.

(** C18: two states with one root bind the same keys to the same events. *)
Theorem root_binding state state' :
  all_sized state → all_sized state' → collision_free (committed_inputs state ++ committed_inputs state') →
  root (from_state state) = root (from_state state') → id_display <$> state = id_display <$> state'.
Proof.
  intros Hall Hall' Hfree Hroot. apply map_eq. intros k. rewrite !lookup_fmap.
  assert (committed_inputs state ⊆ committed_inputs state ++ committed_inputs state') as HL by (intros x; rewrite elem_of_app; tauto).
  assert (committed_inputs state' ⊆ committed_inputs state ++ committed_inputs state') as HL' by (intros x; rewrite elem_of_app; tauto).
  destruct (state !! k) as [id|] eqn:E.
  - destruct (bound_in_other state state' _ k id Hfree Hall Hall' HL HL' Hroot E) as (id' & -> & Hd). simpl. by rewrite Hd.
  - destruct (state' !! k) as [id'|] eqn:E'; [|done]. exfalso.
    destruct (bound_in_other state' state _ k id' Hfree Hall' Hall HL' HL ltac:(done) E') as (id & E2 & _). congruence.
Qed.
End proofs.

(** ** On a small state *)

#[local] Existing Instance toy_sha.

Module StateRoom.
Definition state : gmap (string * string) string :=
  {[("m.room.topic", "") := "$topic"; ("m.room.name", "") := "$name"]}.
Definition topic_path : list StateProofStep :=
  match inclusion_proof (from_state state) "m.room.topic" "" "$topic" with Some (path, _) => path | None => [] end.
Definition absent : nat * list StateProofStep :=
  match non_inclusion_proof (from_state state) "m.room.avatar" "" with Some (path, d, _) => (d, path) | None => (0, []) end.
End StateRoom.

Lemma all_sized_check {Id} `{EventId Id} (state : gmap (string * string) Id) :
  forallb (λ e, (N.of_nat (length (as_bytes e.1.1)) <=? USIZE_MAX) && (N.of_nat (length (as_bytes e.1.2)) <=? USIZE_MAX)
    && (N.of_nat (length (as_bytes (id_display e.2))) <=? USIZE_MAX))%N (map_to_list state) = true → all_sized state.
Proof.
  rewrite forallb_forall. intros Hf k id Hs%elem_of_map_to_list%list_elem_of_In%Hf. cbn [fst snd] in Hs.
  apply andb_prop in Hs as [[H1%N.leb_le H2%N.leb_le]%andb_prop H3%N.leb_le]. done.
Qed.

Lemma sized_check (s : string) : (N.of_nat (length (as_bytes s)) <=? USIZE_MAX)%N = true → sized s.
Proof. apply N.leb_le. Qed.

Lemma hashes_check (l : list MerkleHash) : forallb (λ h, length h =? 32) l = true → Forall is_hash l.
Proof. rewrite forallb_forall, Forall_forall. intros Hf x Hx%list_elem_of_In%Hf. by apply Nat.eqb_eq. Qed.

Lemma inclusion_proof_root {Id} `{EventId Id} `{Sha256} (m : StateMap) t k id p r :
  inclusion_proof m t k id = Some (p, r) → r = root m.
Proof. unfold inclusion_proof. case_match; [done|]. case_match. case_match. by intros [= _ <-]. Qed.

Lemma non_inclusion_proof_root {Id} `{EventId Id} `{Sha256} (m : StateMap) t k p d r :
  non_inclusion_proof m t k = Some (p, d, r) → r = root m.
Proof. unfold non_inclusion_proof. case_match; [done|]. case_match. case_match. by intros [= _ _ <-]. Qed.

Abbreviation room_commitment := (from_state (H:=string_event_id) StateRoom.state).

Lemma inclusion_exact_witness :
  verify_inclusion "m.room.topic" "" "$topic" StateRoom.topic_path (root room_commitment) = true
  ∧ is_Some (inclusion_proof room_commitment "m.room.topic" "" "$topic").
Proof.
  destruct (inclusion_exact (H:=string_event_id) StateRoom.state "m.room.topic" "" "$topic" StateRoom.topic_path) as [Hv Hp].
  - apply all_sized_check. vm_compute. reflexivity.
  - apply sized_check. vm_compute. reflexivity.
  - apply sized_check. vm_compute. reflexivity.
  - apply sized_check. vm_compute. reflexivity.
  - apply hashes_check. vm_compute. reflexivity.
  - apply collision_free_check. rewrite committed_inputs_run_eq. vm_compute. reflexivity.
  - assert (is_Some (inclusion_proof room_commitment "m.room.topic" "" "$topic")) as Hs
      by (apply Hp; exists "$topic"; split; [vm_compute; reflexivity|reflexivity]).
    split; [|exact Hs]. apply Hv. unfold StateRoom.topic_path. destruct Hs as [[p r] Hs]. rewrite Hs.
    pose proof (inclusion_proof_root _ _ _ _ _ _ Hs) as ->. reflexivity.
Defined.

Lemma absence_exact_witness :
  verify_non_inclusion "m.room.avatar" "" StateRoom.absent.1 StateRoom.absent.2 (root room_commitment) = true
  ∧ is_Some (non_inclusion_proof room_commitment "m.room.avatar" "").
Proof.
  destruct (absence_exact (H:=string_event_id) StateRoom.state "m.room.avatar" "" StateRoom.absent.1 StateRoom.absent.2) as [Hv Hp].
  - apply all_sized_check. vm_compute. reflexivity.
  - apply sized_check. vm_compute. reflexivity.
  - apply sized_check. vm_compute. reflexivity.
  - apply hashes_check. vm_compute. reflexivity.
  - apply collision_free_check. rewrite committed_inputs_run_eq. vm_compute. reflexivity.
  - assert (is_Some (non_inclusion_proof room_commitment "m.room.avatar" "")) as Hs by (apply Hp; vm_compute; reflexivity).
    split; [|exact Hs]. apply Hv. unfold StateRoom.absent. destruct Hs as [[[p d] r] Hs]. rewrite Hs. cbn [fst snd].
    pose proof (non_inclusion_proof_root _ _ _ _ _ _ Hs) as ->. reflexivity.
Defined.

Lemma root_binding_witness :
  let other := <[("m.room.name", "") := "$name"]> ({[("m.room.topic", "") := "$topic"]} : gmap (string * string) string) in
  root (from_state (H:=string_event_id) other) = root room_commitment
  ∧ id_display <$> other = id_display <$> StateRoom.state.
Proof.
  intros other. assert (root (from_state (H:=string_event_id) other) = root room_commitment) as Hr.
  { apply (bool_decide_eq_true_1 _). vm_compute. reflexivity. }
  split; [exact Hr|]. apply (root_binding (H:=string_event_id) other StateRoom.state); [..|exact Hr].
  - apply all_sized_check. vm_compute. reflexivity.
  - apply all_sized_check. vm_compute. reflexivity.
  - apply collision_free_check. rewrite !committed_inputs_run_eq. vm_compute. reflexivity.
Defined.
