(* ===== verification/RoomCases.v ===== *)
(** * Rooms on which the code parts from its documentation

    Concrete rooms, each evaluated: the fork resolvers first, then the state
    at an event. *)
From stdpp Require Import prelude gmap strings sorting.
From Stdlib Require String.
From S2P Require Import Prelude Dense EventTypes Json Events Reachability JsonContent Auth Samples Sorting Subgraph AuthDiff LocalAuth Iterative StateDiff Multi MultiProps MultiSpec MultiLazy LtHash StateHash StateAt StateSpec StateProps.

(** ** Where the fork resolvers part

    Rooms on which a variant of the resolver returns something else than its
    documentation says: the lazy resolver does not see the agreed state, the
    reusable caches change a result from version 2.1.1 on, and the diff leaves
    out a key that only the resolution introduces. *)

(** ** The lazy resolver and the agreed power levels

    Both forks of [ForkRoom] agree on the power levels [$low], under which
    [@b:x] may not set the topic; no candidate cites them. The eager resolver
    applies them and keeps [@a:x]'s topic. In the lazy resolver's context
    they are missing, so the check falls back on the older levels the event
    itself cites, and [@b:x]'s topic is accepted. *)
Definition topics (version : StateResVersion) : option (option string) * option (option string) :=
  (lookup ForkRoom.topic_key <$> resolved_forks version, lookup ForkRoom.topic_key <$> lazy_forks 100 version).

Example lazy_ignores_agreed_levels :
  Forall (λ version, topics version = (Some (Some "$topic_a"), Some (Some "$topic_b")))
    [V1; V2; V2_1; V2_1_1; V2_2].
Proof. repeat constructor; vm_compute; reflexivity. Qed.

(** ** The caches of version 2.1.1

    [$e] cites [$p1], below which [@b:x] joined, and [$p2], below which
    [@b:x] left, both two citations away. Searched afresh, the join is found
    first; once an earlier resolution has cached the chain of [$p2], its
    entries are merged when [$p2] is met, before those below [$p1]. *)
Module CacheRoom.
Import Sample.
Definition thing (id ty who : string) (d : Z) (auth : list string) : event :=
  ev id ty (Some "") who (Object []) ["$rules"] auth d.
Definition joined : event :=
  ev "$jb" M_ROOM_MEMBER (Some "@b:x") "@b:x" (membership "join") ["$rules"] ["$create"; "$power"; "$rules"] 5.
Definition left_ : event :=
  ev "$lb" M_ROOM_MEMBER (Some "@b:x") "@b:x" (membership "leave") ["$jb"] ["$create"; "$power"; "$jb"] 6.
Definition p1 : event := thing "$p1" "org.x" "@b:x" 7 ["$create"; "$power"; "$jb"].
Definition p2 : event := thing "$p2" "org.y" "@a:x" 7 ["$create"; "$power"; "$join_a"; "$lb"].
Definition p3 : event := thing "$p3" "org.y" "@a:x" 8 ["$create"; "$power"; "$join_a"].
Definition e : event := thing "$e" "m.room.topic" "@b:x" 9 ["$create"; "$power"; "$p1"; "$p2"].
Definition f : event := thing "$f" "m.room.topic" "@a:x" 8 ["$create"; "$power"; "$join_a"; "$p1"; "$p2"].
Definition base : list event := [create; join_a; power; rules].
Definition context : gmap string event := ForkRoom.context_of ([joined; left_; p1; p2; p3; e; f] ++ base).
Definition earlier : list (gmap (string * string) string) := [ForkRoom.state_of (p2 :: base); ForkRoom.state_of (p3 :: base)].
Definition forks : list (gmap (string * string) string) := [ForkRoom.state_of (e :: base); ForkRoom.state_of (f :: base)].
End CacheRoom.

Abbreviation cache_room maps caches :=
  (self ← build (H:=string_event_id) (H0:=order_forward) CacheRoom.context;
   resolve_state_maps_cached (H:=string_event_id) (Ho:=order_forward) maps CacheRoom.context V2_1_1 self caches).

Example caches_change_the_result :
  (fresh ← cache_room CacheRoom.forks (ForkResolveCaches_new V2_1_1);
   Some (fresh.1 !! ForkRoom.topic_key)) = Some (Some "$e")
  ∧ ('(_, caches) ← cache_room CacheRoom.earlier (ForkResolveCaches_new V2_1_1);
     caches ← caches;
     later ← cache_room CacheRoom.forks caches;
     Some (later.1 !! ForkRoom.topic_key)) = Some (Some "$f").
Proof. split; vm_compute; reflexivity. Qed.

(** ** The diff of version 2.1

    The forks contest the join rules and neither has power levels; the
    resolution adds those the join rules cite, and the diff does not say so. *)
Module DiffRoom.
Import Sample.
Definition rule (id r : string) (d : Z) : event :=
  ev id M_ROOM_JOIN_RULES (Some "") "@a:x" (Object [("join_rule", VString r)]) ["$power"]
    ["$create"; "$join_a"; "$power"] d.
Definition context : gmap string event :=
  ForkRoom.context_of [create; join_a; power; rule "$r1" "public" 7; rule "$r2" "invite" 8].
Definition forks : list (gmap (string * string) string) :=
  [ForkRoom.state_of [create; join_a; rule "$r1" "public" 7]; ForkRoom.state_of [create; join_a; rule "$r2" "invite" 8]].
End DiffRoom.

Example diff_omits_added_levels :
  lookup (M_ROOM_POWER_LEVELS, "") <$>
    resolve_state_maps (H:=string_event_id) (Ho:=order_forward) DiffRoom.forks DiffRoom.context V2_1
  = Some (Some "$power")
  ∧ resolve_state_maps_diff (H:=string_event_id) (Ho:=order_forward) 0 DiffRoom.forks DiffRoom.context V2_1
  = Some [Changed (M_ROOM_JOIN_RULES, "") "$r1" "$r2"].
Proof. split; vm_compute; reflexivity. Qed.

(** ** Where the state at an event parts from its documentation

    In version 2.1 a merge leaves out the events between the contested ones
    that the fork resolver adds; a previous event that is not in the map is
    passed over; and an event on a cycle has no state although it is known. *)

(** ** The conflicted subgraph

    [$x2] cites [$z], which cites [$x1]; both forks hold [$w], which cites
    [$z] too, so [$z] is in no auth difference, only between the contested
    [$x1] and [$x2]. *)
Module PathRoom.
Import Sample.
Definition thing (id ty : string) (prev auth : list string) (d : Z) : event :=
  ev id ty (Some "") "@a:x" (Object []) prev (["$create"; "$power"; "$join_a"] ++ auth) d.
Definition x1 : event := thing "$x1" "org.x" ["$w"] [] 7.
Definition z : event := thing "$z" "org.z" ["$rules"] ["$x1"] 8.
Definition w : event := thing "$w" "org.w" ["$rules"] ["$z"] 9.
Definition x2 : event := thing "$x2" "org.x" ["$w"] ["$z"] 10.
Definition msg : event :=
  ev "$msg" "m.room.message" None "@a:x" (Object []) ["$x1"; "$x2"] ["$create"; "$power"; "$join_a"] 11.
Definition context : gmap string event := ForkRoom.context_of [create; join_a; power; rules; x1; z; w; x2; msg].
End PathRoom.

Abbreviation path_state target version :=
  (compute_state_at (H:=string_event_id) (Ho:=order_forward) target PathRoom.context version).

(** The fork resolver on the states after the two parents. *)
Definition path_resolved (version : StateResVersion) : option (gmap (string * string) string) :=
  s1 ← path_state "$x1" version; s1 ← s1; s2 ← path_state "$x2" version; s2 ← s2;
  resolve_state_maps (H:=string_event_id) (Ho:=order_forward) [s1; s2] PathRoom.context version.

Example merge_omits_subgraph :
  (s ← path_state "$msg" V2_1; s ← s; Some (s !! ("org.z", ""))) = Some None
  ∧ (s ← path_resolved V2_1; Some (s !! ("org.z", ""))) = Some (Some "$z")
  ∧ (s ← path_state "$msg" V2; s) = path_resolved V2.
Proof. apply (bool_decide_eq_true_1 _). vm_compute. reflexivity. Qed.

(** ** Unknown previous events and cycles

    [StreamRoom.msg] follows [$gone], which no one holds; here nothing it
    follows is known.  The second event follows itself. *)
Module GapRoom.
Import Sample.
Definition orphan : event :=
  ev "$orphan" "org.o" (Some "") "@a:x" (Object []) ["$gone"] ["$create"; "$power"; "$join_a"] 9.
Definition self : event :=
  ev "$self" "org.s" (Some "") "@a:x" (Object []) ["$self"] ["$create"; "$power"; "$join_a"] 9.
Definition context : gmap string event := ForkRoom.context_of [create; join_a; power; orphan; self].
End GapRoom.

Abbreviation gap_state target :=
  (compute_state_at (H:=string_event_id) (Ho:=order_forward) target GapRoom.context V2).

Example gaps_passed_over_cycles_refused :
  gap_state "$orphan" = Some (Some {[("org.o", "") := "$orphan"]})
  ∧ gap_state "$self" = Some None ∧ gap_state "$gone" = Some None.
Proof. apply (bool_decide_eq_true_1 _). vm_compute. reflexivity. Qed.
