(* ===== verification/EventCache.v ===== *)
(** * The cache of events ([src/src/state/cache.rs])

    A map of events with a side index from access times to ids, the least of
    which is evicted.  The caches the source puts behind [Cell] and [RefCell]
    are threaded, reads included.  An [Arc] of an event, which no one mutates,
    is the event.  A build with [debug_assertions] panics when a closure makes
    an event of another id than the one asked for; what the cache is then left
    with is modelled, so that a run of calls goes on as for a caller that
    catches the panic.  The abstract cache is the list of its events from the least
    to the most recently used; the code implements it as long as the access
    counter does not wrap. *)
From stdpp Require Import prelude gmap strings sorting.
From Stdlib Require String.
From S2P Require Import Prelude EventTypes Json Events JsonContent Samples.

Local Open Scope N_scope.

(** [u64::wrapping_add(1)], [u32::saturating_add(1)]. *)
Definition next_generation (g : N) : N := (g + 1) mod 18446744073709551616.
Definition bump_count (n : N) : N := N.min 4294967295 (n + 1).

Section cache.
Context {Id C : Type} `{EventId Id}.
Abbreviation event := (LeanEvent Id C).

Record CacheEntry : Type := mkEntry { cached_event : event; last_access : N }.

Record LeanEventCache : Type := mkCache {
  map : gmap Id CacheEntry;
  access_order : gmap N Id;
  generation : N;
  capacity : nat;
  hits : N;
  misses : N;
  evictions : N
}.

(** [assert!(capacity > 0)]. *)
Definition cache_new (capacity : nat) : option LeanEventCache :=
  if (0 <? capacity)%nat then Some (mkCache ∅ ∅ 0 capacity 0 0 0) else None.

Definition len (c : LeanEventCache) : nat := size (map c).
Definition is_empty (c : LeanEventCache) : bool := (len c =? 0)%nat.

Record CacheStats : Type := mkStats { stat_hits : N; stat_misses : N; stat_evictions : N }.
Definition stats (c : LeanEventCache) : CacheStats := mkStats (hits c) (misses c) (evictions c).

Definition set_order (c : LeanEventCache) (m : gmap Id CacheEntry) (order : gmap N Id) (g : N) : LeanEventCache :=
  mkCache m order g (capacity c) (hits c) (misses c) (evictions c).
Definition count_hit (c : LeanEventCache) : LeanEventCache :=
  mkCache (map c) (access_order c) (generation c) (capacity c) (bump_count (hits c)) (misses c) (evictions c).
Definition count_miss (c : LeanEventCache) : LeanEventCache :=
  mkCache (map c) (access_order c) (generation c) (capacity c) (hits c) (bump_count (misses c)) (evictions c).

(** The entry of [id], which is in the map, becomes the latest. *)
Definition bump_entry (c : LeanEventCache) (id : Id) (entry : CacheEntry) : LeanEventCache :=
  let new_gen := next_generation (generation c) in
  set_order c (<[id := mkEntry (cached_event entry) new_gen]> (map c))
    (<[new_gen := event_id (cached_event entry)]> (delete (last_access entry) (access_order c))) new_gen.

Definition touch (c : LeanEventCache) (id : Id) : option event * LeanEventCache :=
  match map c !! id with
  | Some entry => (Some (cached_event entry), count_hit (bump_entry c id entry))
  | None => (None, count_miss c)
  end.

Definition get (c : LeanEventCache) (id : Id) : option event * LeanEventCache := touch c id.

(** The [EventProvider] of a cache. *)
Definition get_event (c : LeanEventCache) (id : Id) : option event * LeanEventCache :=
  match map c !! id with
  | Some entry => (Some (cached_event entry), count_hit (bump_entry c id entry))
  | None => (None, count_miss c)
  end.

(** The entries of a [BTreeMap] by increasing key. *)
Definition order_list (order : gmap N Id) : list (N * Id) := sort_by (cmp_on fst N.compare) (map_to_list order).

Definition evict_lru (c : LeanEventCache) : LeanEventCache :=
  match order_list (access_order c) with
  | [] => c
  | (g, id) :: _ =>
      mkCache (delete id (map c)) (delete g (access_order c)) (generation c) (capacity c) (hits c) (misses c)
        (bump_count (evictions c))
  end.

Definition insert_arc (c : LeanEventCache) (ev : event) : LeanEventCache :=
  let gen := next_generation (generation c) in
  let c := set_order c (map c) (access_order c) gen in
  let id := event_id ev in
  match map c !! id with
  | Some existing =>
      set_order c (<[id := mkEntry ev gen]> (map c))
        (<[gen := id]> (delete (last_access existing) (access_order c))) gen
  | None =>
      let c := if (capacity c <=? len c)%nat then evict_lru c else c in
      set_order c (<[id := mkEntry ev gen]> (map c)) (<[gen := id]> (access_order c)) gen
  end.

Definition insert (c : LeanEventCache) (ev : event) : event * LeanEventCache := (ev, insert_arc c ev).

(** The answer [None] is the panic of the [debug_assert!]. *)
Definition get_or_insert (debug_assertions : bool) (c : LeanEventCache) (id : Id) (f : unit → event)
    : option event * LeanEventCache :=
  match get c id with
  | (Some arc, c) => (Some arc, c)
  | (None, c) =>
      let event := f tt in
      match debug_assert debug_assertions (bool_decide (event_id event = id)) with
      | None => (None, c)
      | Some _ => let '(arc, c) := insert c event in (Some arc, c)
      end
  end.

Definition insert_batch_step (s : gmap Id event * LeanEventCache) (ev : event) : gmap Id event * LeanEventCache :=
  let id := event_id ev in
  let '(arc, c) := match get s.2 id with
                   | (Some cached, c) => (cached, c)
                   | (None, c) => insert c ev
                   end in
  (<[id := arc]> s.1, c).
Definition insert_batch (c : LeanEventCache) (events : list event) : gmap Id event * LeanEventCache :=
  foldl insert_batch_step (∅, c) events.

Definition clear (c : LeanEventCache) : LeanEventCache := set_order c ∅ ∅ 0.
End cache.

(** ** The index *)

Section order.
Context {Id : Type}.
Implicit Types (m : gmap N Id) (g : N) (x : Id).

Definition earlier (a b : N * Id) : Prop := a.1 ≤ b.1.

Lemma elem_of_order_list m e : e ∈ order_list m ↔ m !! e.1 = Some e.2.
Proof. unfold order_list. rewrite sort_by_perm. destruct e. apply elem_of_map_to_list. Qed.

Lemma NoDup_order_list m : NoDup (order_list m).*1.
Proof. unfold order_list. rewrite sort_by_perm. apply NoDup_fst_map_to_list. Qed.

Lemma order_list_sorted m : StronglySorted earlier (order_list m).
Proof.
  pose proof (sort_by_sorted fst N.compare (map_to_list m)) as Hs. fold (order_list m) in Hs.
  induction Hs as [|e l Hs IH Hl]; constructor; [done|]. eapply Forall_impl; [exact Hl|]. intros b Hc.
  unfold cmp_le, cmp_on in Hc. unfold earlier. by destruct (N.compare_spec e.1 b.1); [lia|lia|].
Qed.

(** A sorted list of the entries is the list. *)
Lemma order_list_unique m l : StronglySorted earlier l → NoDup l.*1 → (∀ e, e ∈ l ↔ m !! e.1 = Some e.2) → order_list m = l.
Proof.
  intros Hs Hnd Hl. apply (StronglySorted_unique_strong earlier).
  - intros a b Ha%elem_of_order_list Hb%Hl Hab Hba. unfold earlier in *. assert (a.1 = b.1) as E by lia.
    destruct a, b. simpl in *. congruence.
  - apply order_list_sorted.
  - done.
  - apply NoDup_Permutation; [eapply NoDup_fmap_1, NoDup_order_list|by eapply NoDup_fmap_1|].
    intros e. by rewrite elem_of_order_list, Hl.
Qed.

Lemma order_list_delete m g : order_list (delete g m) = filter (λ e, e.1 ≠ g) (order_list m).
Proof.
  apply order_list_unique.
  - pose proof (order_list_sorted m) as Hs. induction Hs as [|e l Hs IH Hl]; [constructor|]. rewrite filter_cons.
    case_decide; [|done]. constructor; [done|]. apply Forall_forall. intros x [_ Hx]%list_elem_of_filter.
    by eapply Forall_forall in Hl.
  - apply NoDup_fmap_filter, NoDup_order_list.
  - intros e. rewrite list_elem_of_filter, elem_of_order_list, lookup_delete_Some. naive_solver.
Qed.

Lemma order_list_insert m g x : (∀ g' y, m !! g' = Some y → g' < g) → order_list (<[g := x]> m) = order_list m ++ [(g, x)].
Proof.
  intros Hg. apply order_list_unique.
  - apply StronglySorted_app_2; [|apply order_list_sorted|repeat constructor].
    intros a b Ha%elem_of_order_list ->%list_elem_of_singleton. apply Hg in Ha. unfold earlier. simpl. lia.
  - rewrite fmap_app. apply NoDup_app. split_and!; [apply NoDup_order_list| |apply NoDup_singleton].
    intros k (e & -> & He%elem_of_order_list)%list_elem_of_fmap Hk%list_elem_of_singleton. apply Hg in He. simpl in Hk. lia.
  - intros e. rewrite elem_of_app, list_elem_of_singleton, elem_of_order_list, lookup_insert_Some. split.
    + intros [He| ->]; [|by left]. right. split; [|done]. apply Hg in He. lia.
    + intros [[E1 E2]|[_ He]]; [right; destruct e; simpl in *; congruence|by left].
Qed.

Lemma order_list_pop m g x rest : order_list m = (g, x) :: rest → order_list (delete g m) = rest.
Proof.
  intros E. pose proof (NoDup_order_list m) as Hnd. rewrite order_list_delete, E in *. cbn [fmap list_fmap fst] in Hnd.
  apply NoDup_cons in Hnd as [Hg _]. rewrite filter_cons. rewrite decide_False by (intros ?; done).
  clear E. induction rest as [|e rest IH]; [done|]. cbn [fmap list_fmap] in Hg. apply not_elem_of_cons in Hg as [Hne Hg].
  rewrite filter_cons, decide_True by (simpl; congruence). f_equal. by apply IH.
Qed.
End order.

(** ** The abstract cache *)

Section lru.
Context {Id C : Type} `{EventId Id}.
Abbreviation event := (LeanEvent Id C).
Abbreviation cache := (LeanEventCache (Id:=Id) (C:=C)).
Implicit Types (l : list event) (c : cache) (id x : Id) (ev : event).

Definition others id l : list event := filter (λ e, event_id e ≠ id) l.
Definition lru_find id l : option event := head (filter (λ e, event_id e = id) l).

Definition lru_get id l : option event * list event :=
  match lru_find id l with
  | Some ev => (Some ev, others id l ++ [ev])
  | None => (None, l)
  end.

Definition lru_insert (capacity : nat) ev l : list event :=
  match lru_find (event_id ev) l with
  | Some _ => others (event_id ev) l ++ [ev]
  | None => (if (capacity <=? length l)%nat then tail l else l) ++ [ev]
  end.

(** The calls of a client, and what they answer. *)
Inductive call : Type :=
| Get (id : Id)
| Insert (ev : event)
| GetOrInsert (id : Id) (f : unit → event)
| InsertBatch (events : list event)
| Clear.

Inductive answer : Type :=
| Looked_up (r : option event)
| Served (r : event)
| Batch (r : gmap Id event)
| Cleared
| Panicked.

Definition served_or_panicked (r : option event) : answer :=
  match r with Some ev => Served ev | None => Panicked end.

Definition cache_call (debug : bool) c (q : call) : answer * cache :=
  match q with
  | Get id => let '(r, c) := get c id in (Looked_up r, c)
  | Insert ev => let '(r, c) := insert c ev in (Served r, c)
  | GetOrInsert id f => let '(r, c) := get_or_insert debug c id f in (served_or_panicked r, c)
  | InsertBatch events => let '(r, c) := insert_batch c events in (Batch r, c)
  | Clear => (Cleared, clear c)
  end.

(** The event of that id, which becomes the last used; [ev] when there is none. *)
Definition lru_fetch (capacity : nat) id ev l : event * list event :=
  match lru_get id l with
  | (Some ev', l) => (ev', l)
  | (None, l) => (ev, lru_insert capacity ev l)
  end.

(** A build with debug assertions refuses an event of another id, and leaves
    the list as it is. *)
Definition lru_call (debug : bool) (capacity : nat) l (q : call) : answer * list event :=
  match q with
  | Get id => let '(r, l) := lru_get id l in (Looked_up r, l)
  | Insert ev => (Served ev, lru_insert capacity ev l)
  | GetOrInsert id f =>
      if decide (debug = true ∧ lru_find id l = None ∧ event_id (f tt) ≠ id) then (Panicked, l)
      else let '(r, l) := lru_fetch capacity id (f tt) l in (Served r, l)
  | InsertBatch events =>
      let '(r, l) := foldl (λ s ev,
        let '(arc, l) := lru_fetch capacity (event_id ev) ev s.2 in (<[event_id ev := arc]> s.1, l)) (∅, l) events in
      (Batch r, l)
  | Clear => (Cleared, [])
  end.

Definition run {S} (f : S → call → answer * S) (s : S) (qs : list call) : list answer * S :=
  foldl (λ s q, let '(a, s') := f s.2 q in (s.1 ++ [a], s')) ([], s) qs.

(** The access times a call uses up. *)
Definition cost (q : call) : nat :=
  match q with InsertBatch events => length events | Clear => 0 | _ => 1 end.

(** ** The code implements it *)

Definition view (m : gmap Id CacheEntry) (order : list (N * Id)) : list event :=
  omap (λ e, cached_event <$> m !! e.2) order.
Definition contents c : list event := view (map c) (order_list (access_order c)).

Record cache_ok c : Prop := {
  co_order g x : access_order c !! g = Some x ↔ ∃ e, map c !! x = Some e ∧ last_access e = g;
  co_id x e : map c !! x = Some e → event_id (cached_event e) = x;
  co_gen g x : access_order c !! g = Some x → g ≤ generation c;
  co_room : (len c ≤ capacity c)%nat ∧ (0 < capacity c)%nat
}.

Lemma elem_of_view m order ev : ev ∈ view m order ↔ ∃ g x e, (g, x) ∈ order ∧ m !! x = Some e ∧ cached_event e = ev.
Proof.
  unfold view. rewrite list_elem_of_omap. split.
  - intros ([g x] & Hin & (e & He & ->)%fmap_Some). by exists g, x, e.
  - intros (g & x & e & Hin & He & <-). exists (g, x). split; [done|]. simpl. by rewrite He.
Qed.

Lemma elem_of_contents c ev : cache_ok c → ev ∈ contents c ↔ ∃ e, map c !! event_id ev = Some e ∧ cached_event e = ev.
Proof.
  intros Hc. unfold contents. rewrite elem_of_view. split.
  - intros (g & x & e & _ & He & <-). exists e. by rewrite (co_id c Hc _ _ He).
  - intros (e & He & Ev). exists (last_access e), (event_id ev), e. split_and!; [|done|done].
    apply elem_of_order_list, (co_order c Hc). by exists e.
Qed.

(** An entry is found where the map has it. *)
Lemma contents_find c id : cache_ok c → lru_find id (contents c) = cached_event <$> map c !! id.
Proof.
  intros Hc. unfold lru_find. destruct (filter (λ e, event_id e = id) (contents c)) as [|ev rest] eqn:E; simpl.
  - destruct (map c !! id) as [e|] eqn:Em; [|done]. exfalso. apply (not_elem_of_nil (cached_event e)). rewrite <-E.
    pose proof (co_id c Hc _ _ Em) as Hid. apply list_elem_of_filter. split; [done|]. apply elem_of_contents; [done|].
    exists e. by rewrite Hid.
  - assert (ev ∈ filter (λ e, event_id e = id) (contents c)) as Hin by (rewrite E; left).
    apply list_elem_of_filter in Hin as [<- Hin]. apply elem_of_contents in Hin as (e & -> & <-); [|done]. done.
Qed.

Lemma view_cons m g x order :
  view m ((g, x) :: order) = match m !! x with Some e => cached_event e :: view m order | None => view m order end.
Proof. unfold view. simpl. by destruct (m !! x). Qed.

Lemma view_ext m m' order : (∀ g x, (g, x) ∈ order → m' !! x = m !! x) → view m' order = view m order.
Proof.
  intros Hx. induction order as [|[g x] order IH]; [done|]. rewrite !view_cons, (Hx g x) by left.
  rewrite IH; [done|]. intros g' x' Hin. eapply Hx. by right.
Qed.

Lemma view_filter m order old id :
  (∀ g x, (g, x) ∈ order → ∃ e, m !! x = Some e ∧ event_id (cached_event e) = x ∧ (g = old ↔ x = id)) →
  view m (filter (λ e, e.1 ≠ old) order) = others id (view m order).
Proof.
  intros Hx. induction order as [|[g x] order IH]; [done|].
  destruct (Hx g x) as (e & He & Hid & Hiff); [left|]. rewrite view_cons, He. unfold others. rewrite !filter_cons, Hid.
  specialize (IH ltac:(intros g' x' Hin; apply Hx; by right)). fold (others id (view m order)). cbn [fst].
  destruct (decide (g ≠ old)), (decide (x ≠ id)); [by rewrite view_cons, He, IH|exfalso; tauto|exfalso; tauto|done].
Qed.

(** An entry under a fresh time [g] in place of an older one. *)
Lemma refresh c ev e g : cache_ok c → map c !! event_id ev = Some e → generation c < g →
  let m := <[event_id ev := mkEntry ev g]> (map c) in
  let order := <[g := event_id ev]> (delete (last_access e) (access_order c)) in
  view m (order_list order) = others (event_id ev) (contents c) ++ [ev]
  ∧ (∀ g' x, order !! g' = Some x ↔ ∃ e', m !! x = Some e' ∧ last_access e' = g')
  ∧ (∀ x e', m !! x = Some e' → event_id (cached_event e') = x)
  ∧ (∀ g' x, order !! g' = Some x → g' ≤ g) ∧ size m = size (map c).
Proof.
  intros Hc He Hg m order. destruct Hc as [Ho Hi Hgen [Hroom Hpos]].
  assert (∀ g' x, delete (last_access e) (access_order c) !! g' = Some x → g' < g ∧ x ≠ event_id ev) as Hdel.
  { intros g' x [Hne Hx]%lookup_delete_Some. split; [apply Hgen in Hx; lia|]. intros ->. apply Ho in Hx as (e' & He' & <-). congruence. }
  split_and!.
  - unfold order, m. rewrite order_list_insert by (intros g' y Hy; by apply Hdel in Hy as [? _]).
    unfold view. rewrite omap_app. f_equal; [|cbn; by rewrite lookup_insert_eq].
    change (omap _ (order_list (delete (last_access e) (access_order c)))) with
      (view (<[event_id ev:=mkEntry ev g]> (map c)) (order_list (delete (last_access e) (access_order c)))).
    rewrite (view_ext (map c)) by (intros g' x Hin%elem_of_order_list; apply lookup_insert_ne; by apply Hdel in Hin as [_ ?]).
    rewrite order_list_delete. apply view_filter. intros g' x Hin%elem_of_order_list. cbn [fst snd] in Hin.
    apply Ho in Hin as (e' & He' & <-). exists e'. split_and!; [done|by apply Hi|]. split.
    + intros E. assert (access_order c !! last_access e' = Some x) as H1 by (apply Ho; by exists e').
      assert (access_order c !! last_access e = Some (event_id ev)) as H2 by (apply Ho; by exists e). rewrite E in H1. congruence.
    + intros ->. congruence.
  - intros g' x. unfold order, m. rewrite lookup_insert_Some. split.
    + intros [[<- <-]|[Hne Hx]]; [rewrite lookup_insert_eq; by eexists|]. pose proof (Hdel _ _ Hx) as [_ Hxe].
      apply lookup_delete_Some in Hx as [_ Hx]. rewrite lookup_insert_ne by done. by apply Ho.
    + intros (e' & [[<- <-]|[Hne He']]%lookup_insert_Some & Ea); [by left; rewrite <-Ea|].
      assert (access_order c !! g' = Some x) as Hx by (apply Ho; by exists e'). right. split; [apply Hgen in Hx; lia|].
      apply lookup_delete_Some. split; [|done]. intros <-. apply Hne.
      assert (access_order c !! last_access e = Some (event_id ev)) as H2 by (apply Ho; by exists e). congruence.
  - intros x e' [[<- <-]|[_ He']]%lookup_insert_Some; [done|by apply Hi].
  - intros g' x. unfold order. intros [[<- _]|[_ Hx]]%lookup_insert_Some; [done|]. apply Hdel in Hx as [? _]. lia.
  - unfold m. by rewrite map_size_insert_Some by eauto.
Qed.

(** A new entry under a fresh time [g]. *)
Lemma append c ev g : cache_ok c → map c !! event_id ev = None → generation c < g →
  let m := <[event_id ev := mkEntry ev g]> (map c) in
  let order := <[g := event_id ev]> (access_order c) in
  view m (order_list order) = contents c ++ [ev]
  ∧ (∀ g' x, order !! g' = Some x ↔ ∃ e', m !! x = Some e' ∧ last_access e' = g')
  ∧ (∀ x e', m !! x = Some e' → event_id (cached_event e') = x)
  ∧ (∀ g' x, order !! g' = Some x → g' ≤ g) ∧ size m = S (size (map c)).
Proof.
  intros Hc He Hg m order. destruct Hc as [Ho Hi Hgen [Hroom Hpos]].
  assert (∀ g' x, access_order c !! g' = Some x → g' < g ∧ x ≠ event_id ev) as Hold.
  { intros g' x Hx. split; [apply Hgen in Hx; lia|]. intros ->. apply Ho in Hx as (e' & He' & _). congruence. }
  split_and!.
  - unfold order, m. rewrite order_list_insert by (intros g' y Hy; by apply Hold in Hy as [? _]).
    unfold view. rewrite omap_app. f_equal; [|cbn; by rewrite lookup_insert_eq].
    apply (view_ext (map c)). intros g' x Hin%elem_of_order_list. apply lookup_insert_ne. by apply Hold in Hin as [_ ?].
  - intros g' x. unfold order, m. rewrite lookup_insert_Some. split.
    + intros [[<- <-]|[Hne Hx]]; [rewrite lookup_insert_eq; by eexists|]. pose proof (Hold _ _ Hx) as [_ Hxe].
      rewrite lookup_insert_ne by done. by apply Ho.
    + intros (e' & [[<- <-]|[Hne He']]%lookup_insert_Some & Ea); [by left; rewrite <-Ea|].
      assert (access_order c !! g' = Some x) as Hx by (apply Ho; by exists e'). right. split; [apply Hgen in Hx; lia|done].
  - intros x e' [[<- <-]|[_ He']]%lookup_insert_Some; [done|by apply Hi].
  - intros g' x. unfold order. intros [[<- _]|[_ Hx]]%lookup_insert_Some; [done|]. apply Hold in Hx as [? _]. lia.
  - unfold m. by rewrite map_size_insert_None.
Qed.

Lemma NoDup_cached c : cache_ok c → NoDup (order_list (access_order c)).*2.
Proof.
  intros Hc. pose proof (NoDup_order_list (access_order c)) as Hnd. apply NoDup_fmap_2_strong.
  - intros [g x] [g' x'] Hin%elem_of_order_list Hin'%elem_of_order_list E. cbn [fst snd] in *. subst x'.
    apply (co_order c Hc) in Hin as (e & He & <-), Hin' as (e' & He' & <-). congruence.
  - by eapply NoDup_fmap_1.
Qed.

Lemma length_contents c : cache_ok c → length (contents c) = len c.
Proof.
  intros Hc. unfold len. rewrite <-size_dom.
  assert (dom (map c) = list_to_set (order_list (access_order c)).*2) as ->.
  { apply set_eq. intros x. rewrite elem_of_dom, elem_of_list_to_set, list_elem_of_fmap. split.
    - intros [e He]. exists (last_access e, x). split; [done|]. apply elem_of_order_list, (co_order c Hc). by exists e.
    - intros ([g y] & -> & Hin%elem_of_order_list). apply (co_order c Hc) in Hin as (e & He & _). by exists e. }
  rewrite size_list_to_set, length_fmap by by apply NoDup_cached. unfold contents.
  assert (∀ e, e ∈ order_list (access_order c) → is_Some (map c !! e.2)) as Hs.
  { intros [g x] Hin%elem_of_order_list. apply (co_order c Hc) in Hin as (e & He & _). by exists e. }
  induction (order_list (access_order c)) as [|[g x] order IH]; [done|]. rewrite view_cons.
  destruct (Hs (g, x)) as [e He]; [left|]. cbn [snd] in He. rewrite He. simpl. f_equal. apply IH. intros e' He'. apply Hs. by right.
Qed.

(** Eviction drops the first of the list. *)
Lemma evicted c : cache_ok c → (0 < len c)%nat →
  cache_ok (evict_lru c) ∧ contents (evict_lru c) = tail (contents c) ∧ S (len (evict_lru c)) = len c
  ∧ generation (evict_lru c) = generation c ∧ capacity (evict_lru c) = capacity c
  ∧ ∀ x, map c !! x = None → map (evict_lru c) !! x = None.
Proof.
  intros Hc Hlen. pose proof (length_contents c Hc) as Hl. pose proof (NoDup_cached c Hc) as Hnd.
  unfold evict_lru. destruct (order_list (access_order c)) as [|[g x] rest] eqn:E.
  { unfold contents in Hl. rewrite E in Hl. simpl in Hl. lia. }
  assert (access_order c !! g = Some x) as Hgx by (apply (elem_of_order_list _ (g, x)); rewrite E; left).
  destruct (proj1 (co_order c Hc g x) Hgx) as (e & He & Hge). cbn [fmap list_fmap snd] in Hnd. apply NoDup_cons in Hnd as [Hx _].
  assert (contents c = cached_event e :: view (map c) rest) as Ec by (unfold contents; by rewrite E, view_cons, He).
  assert (size (delete x (map c)) = pred (size (map c))) as Hsz by (by rewrite map_size_delete_Some by eauto).
  unfold len in *. split_and!; cbn [map access_order generation capacity]; [split|..]; cbn [map access_order generation capacity].
  - intros g' x'. rewrite lookup_delete_Some, (co_order c Hc). split.
    + intros (Hne & e' & He' & Eg). exists e'. split; [|done]. apply lookup_delete_Some. split; [|done]. intros <-. congruence.
    + intros (e' & [Hne He']%lookup_delete_Some & Eg). split; [|by exists e']. intros <-. apply Hne.
      assert (access_order c !! g = Some x') as Hg' by (apply (co_order c Hc); by exists e'). congruence.
  - intros x' e' [_ He']%lookup_delete_Some. by apply (co_id c Hc).
  - intros g' x' [_ Hg']%lookup_delete_Some. by apply (co_gen c Hc) in Hg'.
  - destruct (co_room c Hc) as [Hr Hp]. unfold len in *. cbn [map capacity]. lia.
  - unfold contents. cbn [map access_order]. rewrite (order_list_pop _ _ _ _ E). fold (contents c). rewrite Ec. cbn [tail].
    apply view_ext. intros g' x' Hin. apply lookup_delete_ne. intros <-. apply Hx, list_elem_of_fmap. by exists (g', x).
  - lia.
  - done.
  - done.
  - intros y Hy. apply lookup_delete_None. by right.
Qed.

(** A call answers and leaves what the abstract one does, and advances the
    access time by at most [k]. *)
Definition served {A} c (k : nat) (a : A * cache) (b : A * list event) : Prop :=
  a.1 = b.1 ∧ contents a.2 = b.2 ∧ cache_ok a.2 ∧ generation a.2 ≤ generation c + N.of_nat k ∧ capacity a.2 = capacity c.

Lemma next_generation_small g : g + 1 < 18446744073709551616 → next_generation g = g + 1.
Proof. intros Hg. unfold next_generation. by rewrite N.mod_small. Qed.

Lemma get_served c id : cache_ok c → generation c + 1 < 18446744073709551616 →
  served c (match map c !! id with Some _ => 1 | None => 0 end)%nat (get c id) (lru_get id (contents c)).
Proof.
  intros Hc Hg. unfold served, get, touch, lru_get. rewrite contents_find by done.
  destruct (map c !! id) as [e|] eqn:E; cbn [fmap option_fmap option_map fst snd].
  2:{ split_and!; [done|done| |cbn; lia|done]. by destruct Hc. }
  pose proof (co_id c Hc _ _ E) as Hid. unfold bump_entry. rewrite (next_generation_small (generation c)) by done.
  rewrite <-Hid in E |- *. destruct (refresh c (cached_event e) e (generation c + 1) Hc E ltac:(lia)) as (H1 & H2 & H3 & H4 & H5).
  split_and!; [done|exact H1| |cbn; lia|done]. split; cbn [map access_order generation capacity set_order count_hit]; try done.
  unfold len. cbn [map capacity set_order count_hit]. destruct (co_room c Hc) as [Hr Hp]. unfold len in Hr. split; [|done]. by rewrite H5.
Qed.

Lemma insert_served c ev : cache_ok c → generation c + 1 < 18446744073709551616 →
  served c 1 (insert c ev) (ev, lru_insert (capacity c) ev (contents c)).
Proof.
  intros Hc Hg. unfold served, insert, insert_arc, lru_insert. cbn [fst snd].
  rewrite contents_find, length_contents by done. rewrite (next_generation_small (generation c)) by done.
  cbn [set_order map access_order generation capacity]. destruct (map c !! event_id ev) as [e|] eqn:E; cbn [fmap option_fmap option_map].
  - destruct (refresh c ev e (generation c + 1) Hc E ltac:(lia)) as (H1 & H2 & H3 & H4 & H5).
    split_and!; [done|exact H1| |cbn; lia|done]. split; cbn [map access_order generation capacity set_order]; try done.
    unfold len. cbn [map capacity set_order count_hit]. destruct (co_room c Hc) as [Hr Hp]. unfold len in Hr. split; [|done]. by rewrite H5.
  - destruct (co_room c Hc) as [Hr Hp]. set (c' := set_order c (map c) (access_order c) (generation c + 1)).
    change (len c') with (len c).
    destruct (Nat.leb_spec (capacity c) (len c)) as [Hfull|Hfree].
    + destruct (evicted c Hc ltac:(lia)) as (Hc' & Et & Hl & Eg & Ecap & Hnone).
      assert (map (evict_lru c') = map (evict_lru c) ∧ access_order (evict_lru c') = access_order (evict_lru c)
        ∧ capacity (evict_lru c') = capacity c) as (Em & Eo & Ec).
      { unfold evict_lru, c'. cbn [set_order access_order]. by destruct (order_list (access_order c)) as [|[??]?]. }
      rewrite Em, Eo. destruct (append (evict_lru c) ev (generation c + 1) Hc' (Hnone _ E) ltac:(lia)) as (H1 & H2 & H3 & H4 & H5).
      unfold set_order. split_and!; [done|rewrite <-Et; exact H1| |cbn; lia|exact Ec].
      split; cbn [map access_order generation capacity]; try done. unfold len in *. cbn [map capacity]. rewrite Ec, H5. lia.
    + destruct (append c ev (generation c + 1) Hc E ltac:(lia)) as (H1 & H2 & H3 & H4 & H5).
      subst c'. unfold set_order. cbn [map access_order generation capacity]. split_and!; [done|exact H1| |cbn; lia|done].
      split; cbn [map access_order generation capacity]; try done. unfold len in *. cbn [map capacity]. rewrite H5. lia.
Qed.

Lemma fetch_served c id ev : cache_ok c → generation c + 1 < 18446744073709551616 →
  served c 1 (match get c id with (Some arc, c) => (arc, c) | (None, c) => insert c ev end)
    (lru_fetch (capacity c) id ev (contents c)).
Proof.
  intros Hc Hg. destruct (get_served c id Hc Hg) as (H1 & H2 & H3 & H4 & H5).
  unfold lru_fetch. destruct (get c id) as [[arc|] c'] eqn:E, (lru_get id (contents c)) as [r l] eqn:El;
    cbn [fst snd] in *; subst r l.
  - split_and!; cbn [fst snd]; [done|done|done| |done]. destruct (map c !! id); lia.
  - assert (map c !! id = None) as Em by (unfold get, touch in E; by destruct (map c !! id)).
    rewrite Em in H4. rewrite <-H5. destruct (insert_served c' ev H3 ltac:(lia)) as (G1 & G2 & G3 & G4 & G5).
    split_and!; [done|done|done|cbn in *; lia|congruence].
Qed.

(** The assertion fails exactly when the closure is called and its event has
    another id. *)
Lemma get_or_insert_cases debug c id f : cache_ok c →
  get_or_insert debug c id f =
    if decide (debug = true ∧ lru_find id (contents c) = None ∧ event_id (f tt) ≠ id) then (None, (get c id).2)
    else let '(r, c) := match get c id with (Some arc, c) => (arc, c) | (None, c) => insert c (f tt) end in (Some r, c).
Proof.
  intros Hc. rewrite contents_find by done. unfold get_or_insert, get, touch, debug_assert.
  destruct (map c !! id) as [e|]; cbn [fmap option_fmap option_map]; [rewrite decide_False by (by intros (_ & ? & _)); done|].
  destruct debug; case_bool_decide as Hid; cbn [andb negb]; case_decide as Hd; (done || tauto || by destruct Hd as (? & _ & ?)).
Qed.

Lemma call_served debug c q : cache_ok c → generation c + N.of_nat (cost q) < 18446744073709551616 →
  served c (cost q) (cache_call debug c q) (lru_call debug (capacity c) (contents c) q).
Proof.
  intros Hc Hg. destruct q as [id|ev|id f|events|]; cbn [cache_call lru_call cost] in *.
  - destruct (get_served c id Hc ltac:(lia)) as (H1 & H2 & H3 & H4 & H5).
    destruct (get c id) as [r c'], (lru_get id (contents c)) as [r' l]. cbn [fst snd] in *. subst.
    split_and!; cbn [fst snd]; try done. destruct (map c !! id); lia.
  - destruct (insert_served c ev Hc ltac:(lia)) as (H1 & H2 & H3 & H4 & H5). cbn [insert fst snd] in *. by split_and!.
  - rewrite get_or_insert_cases by done. case_decide as Hd.
    + destruct (get_served c id Hc ltac:(lia)) as (H1 & H2 & H3 & H4 & H5). unfold lru_get in *.
      destruct Hd as (_ & Hf & _). rewrite Hf in H2. cbn [fst snd served_or_panicked] in *.
      split_and!; cbn [fst snd]; try done. destruct (map c !! id); lia.
    + pose proof (fetch_served c id (f tt) Hc ltac:(lia)) as (H1 & H2 & H3 & H4 & H5).
      destruct (match get c id with (Some arc, c) => (arc, c) | (None, c) => insert c (f tt) end) as [r c'].
      destruct (lru_fetch (capacity c) id (f tt) (contents c)) as [r' l]. cbn [fst snd served_or_panicked] in *. subst.
      by split_and!.
  - unfold insert_batch. generalize (∅ : gmap Id event). revert c Hc Hg.
    induction events as [|ev events IH]; intros c Hc Hg m; cbn [foldl length] in *.
    { split_and!; cbn [fst snd]; try done. lia. }
    pose proof (fetch_served c (event_id ev) ev Hc ltac:(lia)) as (H1 & H2 & H3 & H4 & H5).
    unfold insert_batch_step at 2. cbn [snd fst].
    destruct (match get c (event_id ev) with (Some arc, c) => (arc, c) | (None, c) => insert c ev end) as [r c'],
      (lru_fetch (capacity c) (event_id ev) ev (contents c)) as [r' l']. cbn [fst snd] in *. subst.
    specialize (IH c' H3 ltac:(lia) (<[event_id ev:=r']> m)). rewrite H5 in IH. destruct IH as (G1 & G2 & G3 & G4 & G5).
    split_and!; [done|done|done|lia|congruence].
  - split_and!; cbn [fst snd]; [done| | |cbn; lia|done].
    + unfold contents, clear. cbn [set_order map access_order]. unfold order_list. by rewrite map_to_list_empty.
    + destruct (co_room c Hc) as [_ Hp]. split; unfold clear; cbn [set_order map access_order generation capacity].
      * intros g x. rewrite lookup_empty. split; [done|]. intros (e & He & _). by rewrite lookup_empty in He.
      * intros x e He. by rewrite lookup_empty in He.
      * intros g x Hx. by rewrite lookup_empty in Hx.
      * unfold len. cbn [set_order map capacity]. rewrite map_size_empty. lia.
Qed.

(** C34: from a new cache of positive size, every sequence of calls within
    2^64 access times is answered as by the list that keeps the events in the
    order of their last use and drops the first when it is full, whose events
    are those the cache then holds, never more than its size; in a build with
    debug assertions, exactly the calls that are not answered from the cache
    and whose closure makes an event of another id panic. *)
Theorem cache_refines_lru (debug : bool) (size : nat) (qs : list call) :
  (0 < size)%nat → N.of_nat (sum_list_with cost qs) < 18446744073709551616 →
  ∃ c0, cache_new size = Some c0
    ∧ (run (cache_call debug) c0 qs).1 = (run (lru_call debug size) [] qs).1
    ∧ contents (run (cache_call debug) c0 qs).2 = (run (lru_call debug size) [] qs).2
    ∧ length (contents (run (cache_call debug) c0 qs).2) = len (run (cache_call debug) c0 qs).2
    ∧ (len (run (cache_call debug) c0 qs).2 ≤ size)%nat.
Proof.
  intros Hsize Hcost. unfold cache_new. rewrite (proj2 (Nat.ltb_lt _ _) Hsize). eexists. split; [done|].
  set (c0 := mkCache ∅ ∅ 0 size 0 0 0).
  assert (cache_ok c0) as Hc0.
  { split; unfold c0; cbn [map access_order generation capacity].
    - intros g x. rewrite lookup_empty. split; [done|]. intros (e & He & _). by rewrite lookup_empty in He.
    - intros x e He. by rewrite lookup_empty in He.
    - intros g x Hx. by rewrite lookup_empty in Hx.
    - unfold len. cbn [map]. rewrite map_size_empty. lia. }
  assert (contents c0 = []) as Ec0 by (unfold contents, c0, order_list; cbn [map access_order]; by rewrite map_to_list_empty).
  assert (∀ qs, N.of_nat (sum_list_with cost qs) < 18446744073709551616 →
    (run (cache_call debug) c0 qs).1 = (run (lru_call debug size) [] qs).1 ∧ contents (run (cache_call debug) c0 qs).2 = (run (lru_call debug size) [] qs).2
    ∧ cache_ok (run (cache_call debug) c0 qs).2 ∧ generation (run (cache_call debug) c0 qs).2 ≤ N.of_nat (sum_list_with cost qs)
    ∧ capacity (run (cache_call debug) c0 qs).2 = size) as Hrun.
  { clear qs Hcost. induction qs as [|q qs IH] using rev_ind; intros Hcost; [by split_and!|].
    rewrite sum_list_with_app in *. cbn [sum_list_with] in *. destruct IH as (H1 & H2 & H3 & H4 & H5); [lia|].
    unfold run in *. rewrite !foldl_app. cbn [foldl].
    destruct (foldl _ ([], c0) qs) as [as1 c1], (foldl _ ([], []) qs) as [as2 l2]. cbn [fst snd] in *. subst.
    destruct (call_served debug c1 q H3 ltac:(lia)) as (G1 & G2 & G3 & G4 & G5).
    destruct (cache_call debug c1 q) as [a c2], (lru_call debug (capacity c1) (contents c1) q) as [a' l']. cbn [fst snd] in *. subst.
    split_and!; [done|done|done|lia|done]. }
  destruct (Hrun qs Hcost) as (H1 & H2 & H3 & _ & H5). destruct (co_room _ H3) as [Hr _]. rewrite H5 in Hr.
  split_and!; [done|done|by apply length_contents|done].
Qed.
End lru.

(** A cache of two events: the one looked up is kept, the other evicted; the
    closure of the last call makes an event of another id. *)
Lemma cache_refines_lru_witness :
  ∃ c0, cache_new (Id:=string) (C:=value) 2 = Some c0
    ∧ let r := run (H:=string_event_id) (cache_call (H:=string_event_id) true) c0
                 [Insert Sample.create; Insert Sample.join_a; Get "$create"; Insert Sample.power;
                  GetOrInsert "$nope" (λ _, Sample.create)] in
      event_id <$> contents (H:=string_event_id) r.2 = ["$create"; "$power"] ∧ last r.1 = Some Panicked.
Proof.
  destruct (cache_refines_lru (H:=string_event_id) true 2
    [Insert Sample.create; Insert Sample.join_a; Get "$create"; Insert Sample.power;
     GetOrInsert "$nope" (λ _, Sample.create)]) as (c0 & E & Ha & Hl & _);
    [lia|vm_compute; reflexivity|].
  exists c0. split; [exact E|]. cbv zeta. rewrite Hl, Ha. split; vm_compute; reflexivity.
Defined.
